(* ===== verification/_CoqProject ===== *)
-Q . S2P
Prelude.v
ByteOrder.v
MsgPack.v
MsgUnpack.v
MsgTyped.v
MsgStream.v
RwQueue.v
LockedQueue.v
Worker.v
Sockets.v
Nginx.v
WebappStr.v
Session.v
Database.v
TinyDir.v
FileSystem.v
File.v
Lifecycle.v
LdbCoding.v
LdbCrc.v
LdbLog.v
LdbMem.v
LdbBatch.v
LdbIter.v
LdbMerge.v
LdbDbIter.v
LdbDb.v
LdbWrite.v
LdbSkip.v
LdbBlock.v
LdbSep.v
LdbTwoLevel.v
LdbFilter.v
LdbFormat.v
LdbTable.v
LdbBuild.v
LdbVersion.v
LdbEdit.v
LdbManifest.v
LdbFlush.v
LdbScan.v
LdbFile.v
LdbCache.v
LdbLruSpec.v
LdbLru.v
LdbDrop.v
LdbReplace.v
LdbCompact.v
LdbPick.v
LdbBackground.v
