(* ===== verification/Prelude.v ===== *)
(** * A verification library for the webapp server

    The program is a web application server.  A module inside nginx
    (src/ext/nginx/src/ngx_http_webapp_module.c) packs each HTTP request with
    MessagePack (src/ext/msgpack-c) and sends it to a worker of the server
    (src/webapp).  The worker (Workers.cpp) reads the packed length and the
    headers, puts the request in a queue (LockedQueue of Webapp.h, over a
    lock-free ReaderWriterQueue), and a Lua script takes it from there; the
    script answers on the socket, and reaches sessions (Session.cpp, over leveldb),
    databases (Database.cpp, over sqlite or mysql) and client sockets through the
    functions of Hooks.cpp.  The module unpacks the answer.

    ** Files

    - [Prelude]: machine integers, bytes, buffers, finite sequences of steps, the
      tactics and hints of the library.
    - [ByteOrder], [MsgPack]: the loads and stores of sysdep.h and the packer of
      pack_template.h and objectc.c.
    - [MsgUnpack]: the parser of unpack_template.h with the callbacks and the
      one-shot functions of unpack.c (Module [Unpack]).  The C parser is a loop of
      gotos; here it is [round], iterated by [execute_loop].  [MsgTyped]: what types the
      objects have that it builds from any bytes (Module [Typed]).
    - [MsgStream]: the streaming unpacker of unpack.c: the buffer that grows, its
      reference counter and the zones that refer to it.
    - [RwQueue]: readerwriterqueue.h.  A call is a small program whose steps
      ([prod_step], [cons_step]) each make one access to shared memory; [exec]
      interleaves them.
    - [LockedQueue]: the queue with its mutex and condition variable, against the
      interface [Fifo] that [RwQueue] implements.
    - [Worker]: [Request], read_request and process_msgpack_request.
    - [Sockets]: the pool of requests (accept_conn) and the client sockets.
    - [Nginx]: the requests, the answers, the filter and the configuration of the
      nginx module; and the path of a request from nginx to the worker.
    - [WebappStr]: webapp_str_t over an explicit heap, and strntol.
    - [Session]: DataStore, Session and Sessions over any database that keeps the
      contract of leveldb (class [LevelDB], with sorted lists as an instance).
    - [Database]: Query::process and the registry of databases of Hooks.cpp; what
      the libraries return is an input, what a query allocates, uses and frees is
      a list of events.
    - [TinyDir], [FileSystem], [File]: tinydir.h, MakePath and DeletePath, and the
      class File, over a model of a file system with directories and open files.
    - [Lifecycle]: Worker::Start, Stop, Execute and Cleanup, the cache of compiled
      scripts and the cycle of Webapp::Start, as interleaved steps of the threads.

    leveldb (src/ext/leveldb), on which the sessions are stored:

    - [LdbCoding], [LdbCrc], [LdbLog]: util/coding.cc, util/crc32c.cc, and the writer
      and reader of the log (db/log_writer.cc, db/log_reader.cc).
    - [LdbMem], [LdbSkip]: internal keys (db/dbformat.cc), the memtable
      (db/memtable.cc) as a sorted list, and the skip list that implements it
      (db/skiplist.h), with threads that insert and search at once.
    - [LdbBatch]: write batches (db/write_batch.cc).
    - [LdbIter]: what an iterator promises (class [Iterator], over an order of keys),
      with the iterator of the memtable as an instance; [LdbMerge] and [LdbDbIter]:
      table/merger.cc and db/db_iter.cc, which are iterators over any iterators.
    - [LdbDb], [LdbWrite]: db/db_impl.cc: writing, reading, snapshots and recovery,
      then writing by any number of threads.
    - [LdbBlock], [LdbSep], [LdbTwoLevel], [LdbFilter], [LdbFormat]: the parts of a table
      on disk: blocks (table/block_builder.cc, table/block.cc), short separators of keys
      (util/comparator.cc, db/dbformat.cc), iterators over blocks
      (table/two_level_iterator.cc), filters (util/hash.cc, util/bloom.cc,
      table/filter_block.cc), handles, the footer and stored blocks (table/format.cc).
    - [LdbTable], [LdbBuild]: table/table_builder.cc and table/table.cc, against the
      classes [Separator], [FilterPolicy], [Compression] and [WritableFile]; writing a
      memtable to a table (db/builder.cc) and looking a key up in it.
    - [LdbVersion], [LdbEdit], [LdbManifest]: db/version_set.cc and db/version_edit.cc:
      searching the files of a version, against the class [Tables] that db/table_cache.cc
      implements; edits, their encoding and the versions they build; the manifest.
    - [LdbFlush], [LdbScan]: db/db_impl.cc over memtables and files: writing a memtable
      to a table of some level, looking keys up, and iterating.
    - [LdbFile]: the names of files (db/filename.cc), and the directory of a database:
      SetCurrentFile, NewDB and DeleteObsoleteFiles.
    - [LdbCache], [LdbLruSpec], [LdbLru]: a shard of the cache of util/cache.cc, with its
      hash table and its handles in memory; what it promises, without memory; and the
      refinement.
    - [LdbDrop], [LdbReplace], [LdbCompact]: DoCompactionWork of db/db_impl.cc: what is
      dropped, how the files of a version are replaced, and the whole of it.
    - [LdbPick], [LdbBackground]: the scores of levels and the choice of the files of a
      compaction in db/version_set.cc, with its arithmetic on doubles; BackgroundCompaction
      and OptimisticCompaction of db/db_impl.cc, which move or compact what was chosen.

    State is passed explicitly; [None], [Undef] or a verdict stands for undefined
    behaviour, so that the theorems on safety say that it does not occur.  Code that
    interleaves is a step function or relation with one access to shared state per
    step; its theorems are invariants of every reachable state.

    ** Theorems

    - Round trips: a packed object is read back ([unpack_pack_roundtrip]), also
      from a stream that is cut anywhere ([unpacker_stream],
      [template_execute_resume]), and whatever the parser builds from other bytes is an
      object that can be packed ([execute_typed]); what is written to a file ([File_roundtrip]), to a
      log ([log_roundtrip]), into a batch ([batch_roundtrip]) or to a table
      ([table_roundtrip]) is read back.
    - End to end: the request nginx sends arrives at the worker however the network
      cuts it ([http_request_reaches_worker], [request_received]); an answer is
      read as it was sent ([process_header_answer]).
    - Concurrency: the queue is first-in first-out, safe and wait-free for one
      producer and one consumer in every interleaving ([queue_fifo], [queue_safe],
      [queue_wait_free]); the locked queue loses neither an element nor a wake-up;
      no thread uses a worker that is gone ([workers_outlive_threads]) and a cycle of
      the application ends ([cycle_ends]); the skip list is linearizable
      ([skiplist_linearizable]) and concurrent writers publish whole batches in order
      ([concurrent_writes]).
    - Memory: strings ([strings_are_values]), queries ([query_resources]), the
      buffers of the unpacker ([unpacker_buffers]), the request buffer
      ([receive_in_bounds]), the pool ([pool_requests_distinct]).
    - Sessions: their lifetime, isolation and removal.
    - leveldb keeps the contract of [Session] ([leveldb_refines]) and loses nothing in
      a crash ([recovery_complete]); below that, the iterators ([dbiter_navigates],
      [merging_memtables]), the skip list as a sorted table ([skiplist_refines]) and
      the checksum ([crc32c_correct]).  A memtable that is written to a table answers
      every lookup as before ([memtable_to_table]); so does the database when the table
      joins a version ([flush_preserves]) and when files are compacted
      ([compaction_preserves]), whatever fails meanwhile, and so for the files that the
      background thread chooses ([background_preserves]) and the optimistic one
      ([optimistic_preserves]).  Iterators show what lookups find ([scan_matches_get]), the
      manifest gives the version back ([manifest_recovers]), no file that is needed is
      deleted ([obsolete_files]), and a database is created at once or not at all
      ([new_db_atomic]).  The cache frees what it should and nothing that is held
      ([cache_refines]), and returns nothing stale ([cache_coherent]).
    - Directories: [DeletePath_removes], [MakePath_creates], [sorted_listing].
    - Defects: what the code does where it does not do what it means to, for example
      [length_prefix_overflow], [two_producers_lose_an_element],
      [client_sockets_terminate], [Recover_forgets_errors], [DecodeEntry_wraps],
      [Mmap_Read_wraps], [Clear_keeps_pointers], [shared_key_stale], [pick_wrong_level],
      [manual_releases_locks].

    ** Bounds and fuel

    [execute_loop] gets one round more than there are bytes, and every round
    consumes one ([template_execute_total]).  [grow] gets 64 rounds: a size that
    is doubled leaves a 64-bit word after that.  [decimal] gets ten digits, which
    is what a 32-bit integer has.  [drain] gets one call more than there are
    unread bytes, and every object takes one.  The calls on a queue take at most 11
    and 10 steps ([queue_wait_free]).  A varint has at most ten bytes.  The loops over
    a log or a batch get one round more than there are bytes; those of an iterator
    one more than there are entries; a search in the skip list as many as there are
    nodes and levels; those over a block one more than it has bytes; a compaction one
    more than its inputs have entries.  The theorems say that this is enough: their
    results are those of loops that have ended.  Theorems that bound sizes say so: 65535
    bytes of headers (the counter of the code has 16 bits), 2^60 bytes for the
    streaming unpacker, 32 levels of nesting, 2^32 bytes for a key or a value of
    leveldb, 2^56 sequence numbers, 2^32 bytes for a table, 2^31 files in a level,
    2^31 bytes of inputs for a compaction and 2^31 calls of the cache, whose counters have
    32 bits.  The loops of the cache get one round more than there are handles.

    [compaction_preserves] is for the inputs that [taken] and [listed] describe: no file
    that stays in the level holds an older version of a key that leaves it, and no file of
    the next level that is not an input overlaps the inputs.  [background_preserves] shows
    this of the inputs that are chosen, if no two files of a level above 0 share a user key
    ([settled]; [shared_key_stale] shows that it is needed), and if a file that was charged
    for seeks is of the level that is picked ([pick_wrong_level]).  The version does not
    change while a memtable is written or a compaction works.

    ** What is not modelled

    Memory is sequentially consistent: the fences of [RwQueue] and the orderings of
    the links of [LdbSkip] are not modelled.  asio, nginx, Lua, the allocators,
    sqlite, mysql and OpenSSL are parameters or inputs.  Of leveldb, the threads
    that call the background work and wait for each other, the choice of a shard
    of the cache and what it is used for, replays, backups,
    repairs and most of the environment are left out: the pieces of background work run one
    at a time, a table is opened each time it is read, and [LdbDb] keeps its data in the
    memtables and the logs.
    Images are not modelled, nor are the Windows branches of the code. *)

From Stdlib Require Import ZArith Lia.
From stdpp Require Import base list gmap numbers option.

#[export] Set Default Goal Selector "!".
Open Scope Z_scope.

(** ** Notations of the development *)

Declare Scope webapp_scope.
Delimit Scope webapp_scope with webapp.

Notation "'let*' x := a 'in' b" :=
  (match a with Some x => b | None => None end)
  (at level 10, x pattern, a at level 100, b at level 200)
  : webapp_scope.
Notation "'lenZ' l" := (Z.of_nat (length l)) (at level 10, l at level 9) : webapp_scope.
Open Scope webapp_scope.

(** ** Fixed-width integers

    A [w]-bit integer is a [Z]; [uwrap w] and [swrap w] are the conversions of C
    to the unsigned and the (two's complement) signed type of that width. *)

Definition uwrap (w x : Z) : Z := x mod 2 ^ w.
Definition swrap (w x : Z) : Z := (x + 2 ^ (w - 1)) mod 2 ^ w - 2 ^ (w - 1).

Abbreviation u8 := (uwrap 8).
Abbreviation u16 := (uwrap 16).
Abbreviation u32 := (uwrap 32).
Abbreviation u64 := (uwrap 64).
Abbreviation i8 := (swrap 8).
Abbreviation i16 := (swrap 16).
Abbreviation i32 := (swrap 32).
Abbreviation i64 := (swrap 64).

Create HintDb mach.
Create Rewrite HintDb mach.

Lemma uwrap_range w x : 0 <= w -> 0 <= uwrap w x < 2 ^ w.
Proof. intros. apply Z.mod_pos_bound. lia. Qed.

Lemma uwrap_small w x : 0 <= x < 2 ^ w -> uwrap w x = x.
Proof. apply Z.mod_small. Qed.

Lemma uwrap_idemp w x : 0 <= w -> uwrap w (uwrap w x) = uwrap w x.
Proof. intros. apply uwrap_small, uwrap_range. done. Qed.

Lemma swrap_range w x : 0 < w -> - 2 ^ (w - 1) <= swrap w x < 2 ^ (w - 1).
Proof.
  intros Hw. unfold swrap.
  assert (2 ^ w = 2 * 2 ^ (w - 1)) as Hp.
  { rewrite <- Z.pow_succ_r by lia. f_equal. lia. }
  pose proof (Z.mod_pos_bound (x + 2 ^ (w - 1)) (2 ^ w) ltac:(lia)). lia.
Qed.

Lemma swrap_small w x :
  0 < w -> - 2 ^ (w - 1) <= x < 2 ^ (w - 1) -> swrap w x = x.
Proof.
  intros Hw Hx. unfold swrap.
  assert (2 ^ w = 2 * 2 ^ (w - 1)) as Hp.
  { rewrite <- Z.pow_succ_r by lia. f_equal. lia. }
  rewrite Z.mod_small; lia.
Qed.

(** Reading the [w] low bits of a signed value back as a signed value. *)
Lemma swrap_uwrap w x : 0 < w -> swrap w (uwrap w x) = swrap w x.
Proof.
  intros Hw. unfold swrap, uwrap.
  by rewrite Zplus_mod_idemp_l.
Qed.

Lemma swrap_add_l w x y : swrap w (swrap w x + y) = swrap w (x + y).
Proof.
  unfold swrap. f_equal.
  replace ((x + 2 ^ (w - 1)) mod 2 ^ w - 2 ^ (w - 1) + y + 2 ^ (w - 1))
    with ((x + 2 ^ (w - 1)) mod 2 ^ w + y) by lia.
  rewrite Zplus_mod_idemp_l. f_equal. lia.
Qed.

Lemma swrap_eqm w x y : x mod 2 ^ w = y mod 2 ^ w -> swrap w x = swrap w y.
Proof.
  intros E. unfold swrap. f_equal.
  by rewrite <- (Zplus_mod_idemp_l x), E, Zplus_mod_idemp_l.
Qed.

Lemma swrap_mod w x : 0 < w -> swrap w x mod 2 ^ w = x mod 2 ^ w.
Proof.
  intros Hw. unfold swrap. rewrite Zminus_mod_idemp_l. f_equal. lia.
Qed.

#[export] Hint Resolve uwrap_range swrap_range : mach.
#[export] Hint Rewrite uwrap_small using (simpl; lia) : mach.
#[export] Hint Rewrite swrap_small using (simpl; lia) : mach.

(** [zdm] : linear arithmetic with [/] and [mod] by constants. *)
Ltac zdm := Z.div_mod_to_equations; lia.

(** [mach_simpl] drops the wraps whose argument provably fits. *)
Ltac mach_simpl := autorewrite with mach in *.

(** Case analysis on the boolean comparison at the head of an [if]. *)
Ltac zcase :=
  match goal with
  | |- context [if (?a <? ?b)%Z then _ else _] => destruct (Z.ltb_spec a b)
  | |- context [if (?a <=? ?b)%Z then _ else _] => destruct (Z.leb_spec a b)
  | |- context [if (?a =? ?b)%Z then _ else _] => destruct (Z.eqb_spec a b)
  end.
Ltac zcase_in H :=
  match type of H with
  | context [if (?a <? ?b)%Z then _ else _] => destruct (Z.ltb_spec a b)
  | context [if (?a <=? ?b)%Z then _ else _] => destruct (Z.leb_spec a b)
  | context [if (?a =? ?b)%Z then _ else _] => destruct (Z.eqb_spec a b)
  end.

(** ** Bytes *)

(** A byte is a [Z] between 0 and 255; memory is a [list Z]. *)
Definition is_byte (b : Z) : Prop := 0 <= b < 256.
Abbreviation bytes_ok := (Forall is_byte).

#[export] Instance is_byte_dec b : Decision (is_byte b).
Proof. unfold is_byte. apply _. Defined.

Lemma is_byte_u8 x : is_byte (u8 x).
Proof. apply (uwrap_range 8); lia. Qed.
#[export] Hint Resolve is_byte_u8 : mach.

(** A decidable property of bytes is checked on all 256 of them. *)
Lemma byte_forall (f : Z -> bool) :
  forallb f (seqZ 0 256) = true -> forall b, is_byte b -> f b = true.
Proof.
  intros H b Hb. apply Is_true_true in H. apply forallb_True in H.
  rewrite Forall_seqZ in H. apply Is_true_true, H. unfold is_byte in Hb. lia.
Qed.

(** [be_split n x]: the [n] low bytes of [x], most significant first. *)
Fixpoint be_split (n : nat) (x : Z) : list Z :=
  match n with
  | O => []
  | S n => be_split n (x / 256) ++ [x mod 256]
  end.

(** [be_combine l]: the number whose big-endian bytes are [l]. *)
Definition be_combine (l : list Z) : Z := fold_left (fun a b => a * 256 + b) l 0.

Lemma length_be_split n x : length (be_split n x) = n.
Proof. revert x. induction n as [|n IH]; intros; simpl; [done|]. rewrite length_app, IH. simpl. lia. Qed.

Lemma be_split_ok n x : bytes_ok (be_split n x).
Proof.
  revert x. induction n as [|n IH]; intros; simpl; [constructor|].
  apply Forall_app; split; [apply IH|]. constructor; [|constructor].
  apply (Z.mod_pos_bound x 256). lia.
Qed.

Lemma be_combine_snoc l b : be_combine (l ++ [b]) = be_combine l * 256 + b.
Proof. unfold be_combine. by rewrite fold_left_app. Qed.

Lemma be_combine_split n x : be_combine (be_split n x) = x mod 256 ^ Z.of_nat n.
Proof.
  revert x. induction n as [|n IH]; intros x.
  - simpl. by rewrite Z.mod_1_r.
  - cbn [be_split]. rewrite be_combine_snoc, IH, Nat2Z.inj_succ, Z.pow_succ_r by lia.
    rewrite (Z.rem_mul_r x 256) by lia. lia.
Qed.

Lemma be_combine_split_small n x :
  0 <= x < 256 ^ Z.of_nat n -> be_combine (be_split n x) = x.
Proof. intros. by rewrite be_combine_split, Z.mod_small. Qed.

Lemma be_split_mod n x : be_split n (x mod 256 ^ Z.of_nat n) = be_split n x.
Proof.
  revert x. induction n as [|n IH]; intros x; [done|].
  cbn [be_split]. rewrite Nat2Z.inj_succ, Z.pow_succ_r by lia.
  f_equal.
  - rewrite <- (IH (x / 256)). f_equal.
    rewrite (Z.rem_mul_r x 256) by lia.
    rewrite Z.mul_comm, Z.div_add by lia.
    by rewrite (Z.div_small (x mod 256)) by (apply Z.mod_pos_bound; lia).
  - f_equal. rewrite (Z.rem_mul_r x 256), Z.mul_comm, Z.mod_add by lia.
    apply Z.mod_mod. lia.
Qed.

(** ** Buffers: [memcpy] into a block of memory

    [write_at off bs mem] stores [bs] at offset [off] of the block [mem]; it is
    [None] when the store would leave the block. *)
Definition write_at (off : Z) (bs mem : list Z) : option (list Z) :=
  if (0 <=? off) && (off + lenZ bs <=? lenZ mem)
  then Some (take (Z.to_nat off) mem ++ bs ++ drop (Z.to_nat off + length bs) mem)
  else None.

(** [read_at off n mem]: the [n] bytes at offset [off]. *)
Definition read_at (off n : Z) (mem : list Z) : list Z :=
  take (Z.to_nat n) (drop (Z.to_nat off) mem).

Lemma write_at_Some off bs mem :
  0 <= off -> off + lenZ bs <= lenZ mem ->
  write_at off bs mem
  = Some (take (Z.to_nat off) mem ++ bs ++ drop (Z.to_nat off + length bs) mem).
Proof. intros. unfold write_at. by rewrite !(proj2 (Z.leb_le _ _)) by lia. Qed.

Lemma write_at_inv off bs mem mem' :
  write_at off bs mem = Some mem' ->
  0 <= off /\ off + lenZ bs <= lenZ mem /\
  mem' = take (Z.to_nat off) mem ++ bs ++ drop (Z.to_nat off + length bs) mem.
Proof.
  unfold write_at. intros H.
  destruct (Z.leb_spec 0 off); [|done].
  destruct (Z.leb_spec (off + lenZ bs) (lenZ mem)); simpl in H; simplify_eq. auto.
Qed.

Lemma write_at_length off bs mem mem' :
  write_at off bs mem = Some mem' -> length mem' = length mem.
Proof.
  intros (? & ? & ->)%write_at_inv.
  rewrite !length_app, length_take, length_drop. lia.
Qed.

(** What lies below the written range is unchanged. *)
Lemma write_at_below off bs mem mem' k :
  write_at off bs mem = Some mem' -> (k <= Z.to_nat off)%nat -> take k mem' = take k mem.
Proof.
  intros (? & ? & ->)%write_at_inv Hk.
  rewrite take_app_le by (rewrite length_take; lia).
  rewrite take_take. f_equal. lia.
Qed.

(** The bytes up to the end of the written range. *)
Lemma write_at_upto off bs mem mem' :
  write_at off bs mem = Some mem' ->
  take (Z.to_nat off + length bs) mem' = take (Z.to_nat off) mem ++ bs.
Proof.
  intros (? & ? & ->)%write_at_inv.
  rewrite app_assoc. apply take_app_length'.
  rewrite length_app, length_take. lia.
Qed.

Lemma write_at_None_iff off bs mem :
  write_at off bs mem = None <-> off < 0 \/ lenZ mem < off + lenZ bs.
Proof.
  unfold write_at. destruct (Z.leb_spec 0 off); simpl; [|intuition lia].
  destruct (Z.leb_spec (off + lenZ bs) (lenZ mem)); simpl; intuition (lia || done).
Qed.

(** ** Lists *)

Lemma Forall_elem {A} (P : A -> Prop) l x : Forall P l -> x ∈ l -> P x.
Proof. intros H Hx. rewrite List.Forall_forall in H. by apply H, list_elem_of_In. Qed.

Lemma foldr_and_elem {A} (P : A -> Prop) l x :
  foldr and True (List.map P l) -> x ∈ l -> P x.
Proof.
  induction l as [|y l IH]; simpl; [by intros _ ?%not_elem_of_nil|].
  intros [Hy Hl] [->|Hx]%elem_of_cons; auto.
Qed.

Lemma foldr_max_elem {A} (f : A -> nat) l x :
  x ∈ l -> (f x <= foldr Nat.max 0 (List.map f l))%nat.
Proof.
  induction l as [|y l IH]; simpl; [by intros ?%not_elem_of_nil|].
  intros [->|Hx]%elem_of_cons; [lia|]. specialize (IH Hx). lia.
Qed.

(** ** Finite sequences of steps *)

Section Star.
Context {S : Type} (step : S -> S -> Prop).

Inductive star : S -> S -> Prop :=
| star_refl s : star s s
| star_step s1 s2 s3 : step s1 s2 -> star s2 s3 -> star s1 s3.

Lemma star_one s1 s2 : step s1 s2 -> star s1 s2.
Proof. intros. econstructor; [done|constructor]. Qed.

Lemma star_trans s1 s2 s3 : star s1 s2 -> star s2 s3 -> star s1 s3.
Proof. induction 1; [done|]. intros. econstructor; eauto. Qed.

(** A predicate kept by every step holds of every reachable state. *)
Lemma star_invariant (P : S -> Prop) :
  (forall s s', P s -> step s s' -> P s') ->
  forall s s', star s s' -> P s -> P s'.
Proof. intros Hs. induction 1; eauto. Qed.
End Star.

(** ** Filtered lists *)

Lemma filter_length {A} (f : A -> bool) l : (length (List.filter f l) <= length l)%nat.
Proof. induction l as [|x l IH]; [done|]. simpl. destruct (f x); simpl; lia. Qed.

Lemma filter_less {A} (f g : A -> bool) l x : (forall y, y ∈ l -> f y = true -> g y = true) ->
  x ∈ l -> g x = true -> f x = false -> (length (List.filter f l) < length (List.filter g l))%nat.
Proof.
  intros Hfg Hx Hg Hf.
  assert (Hle : forall l', (forall y, y ∈ l' -> f y = true -> g y = true) ->
    (length (List.filter f l') <= length (List.filter g l'))%nat).
  { clear. induction l' as [|y l' IH]; intros H; [done|]. simpl.
    specialize (IH ltac:(intros; apply H; [by right|done])). pose proof (H y ltac:(left)) as Hy.
    destruct (f y), (g y); simpl; lia. }
  induction l as [|y l IH]; [by apply elem_of_nil in Hx|]. simpl. apply elem_of_cons in Hx as [->|Hx].
  - rewrite Hg, Hf. simpl. pose proof (Hle l ltac:(intros; apply Hfg; [by right|done])). lia.
  - specialize (IH ltac:(intros; apply Hfg; [by right|done]) Hx). pose proof (Hfg y ltac:(left)) as Hy.
    destruct (f y), (g y); simpl; lia.
Qed.
