(* ===== verification/ByteOrder.v ===== *)
(** * Byte order of the wire format

    Models include/msgpack/sysdep.h of src/ext/msgpack-c: the byte-swapping macros
    [_msgpack_be*], the stores [_msgpack_store*] and the loads [_msgpack_load*], on a
    little-endian host.  Stores are shown to write, and loads to read, the big-endian
    bytes [be_split]/[be_combine] of the prelude. *)

From S2P Require Import Prelude.
From Stdlib Require Import ZArith Lia.
From stdpp Require Import base list gmap numbers option.
Open Scope Z_scope.

(** ** Byte order (include/msgpack/sysdep.h, little-endian host) *)

(** The bytes of an [n]-byte integer in the memory of a little-endian host. *)
Fixpoint le_bytes (n : nat) (v : Z) : list Z :=
  match n with
  | O => []
  | S n => u8 v :: le_bytes n (v / 256)
  end.

Definition _msgpack_be16 (x : Z) : Z :=
  let x := u16 x in u16 (Z.lor (Z.shiftl x 8) (Z.shiftr x 8)).

Definition _msgpack_be32 (x : Z) : Z :=
  let x := u32 x in
  Z.lor (Z.lor (Z.lor
    (u32 (Z.shiftl x 24))
    (Z.land (u32 (Z.shiftl x 8)) 0x00ff0000))
    (Z.land (Z.shiftr x 8) 0x0000ff00))
    (Z.shiftr x 24).

Definition _msgpack_be64 (x : Z) : Z :=
  let x := u64 x in
  Z.lor (Z.lor (Z.lor (Z.lor (Z.lor (Z.lor (Z.lor
    (u64 (Z.shiftl x 56))
    (Z.land (u64 (Z.shiftl x 40)) 0x00ff000000000000))
    (Z.land (u64 (Z.shiftl x 24)) 0x0000ff0000000000))
    (Z.land (u64 (Z.shiftl x 8)) 0x000000ff00000000))
    (Z.land (Z.shiftr x 8) 0x00000000ff000000))
    (Z.land (Z.shiftr x 24) 0x0000000000ff0000))
    (Z.land (Z.shiftr x 40) 0x000000000000ff00))
    (Z.shiftr x 56).

Definition _msgpack_store16 (num : Z) : list Z := le_bytes 2 (_msgpack_be16 num).
Definition _msgpack_store32 (num : Z) : list Z := le_bytes 4 (_msgpack_be32 num).
Definition _msgpack_store64 (num : Z) : list Z := le_bytes 8 (_msgpack_be64 num).

(** Byte [i] at [from]; the callers check that it is there. *)
Definition at_ (from : list Z) (i : nat) : Z := nth i from 0.

Definition _msgpack_load16 (cast : Z -> Z) (from : list Z) : Z :=
  cast (Z.lor (Z.shiftl (at_ from 0) 8) (at_ from 1)).

Definition _msgpack_load32 (cast : Z -> Z) (from : list Z) : Z :=
  cast (Z.lor (Z.lor (Z.lor
    (Z.shiftl (at_ from 0) 24) (Z.shiftl (at_ from 1) 16))
    (Z.shiftl (at_ from 2) 8)) (at_ from 3)).

Definition _msgpack_load64 (cast : Z -> Z) (from : list Z) : Z :=
  cast (Z.lor (Z.lor (Z.lor (Z.lor (Z.lor (Z.lor (Z.lor
    (Z.shiftl (at_ from 0) 56) (Z.shiftl (at_ from 1) 48))
    (Z.shiftl (at_ from 2) 40)) (Z.shiftl (at_ from 3) 32))
    (Z.shiftl (at_ from 4) 24)) (Z.shiftl (at_ from 5) 16))
    (Z.shiftl (at_ from 6) 8)) (at_ from 7)).

(** ** Lemmas: the byte-order macros *)

Lemma byte_bits_ext a b :
  (forall j, 0 <= j < 8 -> Z.testbit a j = Z.testbit b j) -> u8 a = u8 b.
Proof.
  intros H. unfold uwrap. rewrite <- !Z.land_ones by lia.
  apply Z.bits_inj'. intros j Hj. rewrite !Z.land_spec.
  destruct (Z.ltb_spec j 8).
  - rewrite H by lia. done.
  - rewrite Z.ones_spec_high by lia. by rewrite !andb_false_r.
Qed.

(** Bit [j] of the byte of [v] at bit [i]. *)
Lemma byte_testbit v i j : 0 <= i -> 0 <= j -> Z.testbit (v / 2 ^ i) j = Z.testbit v (j + i).
Proof. intros. rewrite <- Z.shiftr_div_pow2 by lia. apply Z.shiftr_spec. lia. Qed.

Lemma uwrap_testbit w x j :
  0 <= w -> Z.testbit (uwrap w x) j = (j <? w) && Z.testbit x j.
Proof.
  intros. unfold uwrap. destruct (Z.ltb_spec j w).
  - by apply Z.mod_pow2_bits_low.
  - apply Z.mod_pow2_bits_high. lia.
Qed.

(** The bytes of a number, least significant first, as [u8] of a quotient. *)
Definition digits (n : nat) (x : Z) : list Z :=
  List.map (fun i => u8 (x / 2 ^ (8 * Z.of_nat i))) (List.seq 0 n).

Lemma digits_S n x : digits (S n) x = u8 x :: digits n (x / 256).
Proof.
  unfold digits. cbn [List.seq List.map]. f_equal.
  - change (2 ^ (8 * Z.of_nat 0)) with 1. by rewrite Z.div_1_r.
  - rewrite <- seq_shift, map_map. apply map_ext. intros i.
    rewrite Z.div_div by lia. f_equal. f_equal.
    rewrite Nat2Z.inj_succ. change 256 with (2 ^ 8).
    rewrite <- Z.pow_add_r by lia. f_equal. lia.
Qed.

Lemma le_bytes_digits n x : le_bytes n x = digits n x.
Proof. revert x. induction n as [|n IH]; intros; [done|]. by rewrite digits_S, <- IH. Qed.

Lemma be_split_digits n x : be_split n x = reverse (digits n x).
Proof.
  revert x. induction n as [|n IH]; intros; [done|].
  by rewrite digits_S, reverse_cons, <- IH.
Qed.

(** Proves [be_split n x = le_bytes n (swap x)] bit by bit. *)
Ltac byte_swap :=
  apply byte_bits_ext; intros j Hj;
  assert (j = 0 \/ j = 1 \/ j = 2 \/ j = 3 \/ j = 4 \/ j = 5 \/ j = 6 \/ j = 7) as Hc by lia;
  rewrite !byte_testbit by lia; clear Hj;
  repeat (destruct Hc as [->|Hc]); try subst j;
  repeat first
    [ rewrite Z.lor_spec | rewrite Z.land_spec | rewrite uwrap_testbit by lia
    | rewrite Z.shiftl_spec by lia | rewrite Z.shiftr_spec by lia ];
  simpl; rewrite ?andb_true_r, ?andb_false_r, ?orb_false_r; reflexivity.

Ltac store_spec :=
  rewrite le_bytes_digits, be_split_digits; unfold digits;
  cbn [List.seq List.map reverse rev_append];
  repeat (apply (f_equal2 cons); [byte_swap|]); reflexivity.

Lemma _msgpack_store16_spec x : _msgpack_store16 x = be_split 2 x.
Proof. unfold _msgpack_store16, _msgpack_be16. store_spec. Qed.

Lemma _msgpack_store32_spec x : _msgpack_store32 x = be_split 4 x.
Proof. unfold _msgpack_store32, _msgpack_be32. store_spec. Qed.

Lemma _msgpack_store64_spec x : _msgpack_store64 x = be_split 8 x.
Proof. unfold _msgpack_store64, _msgpack_be64. store_spec. Qed.

(** ** Lemmas: the loads *)

Lemma land_shiftl_low a b k : 0 <= k -> 0 <= b < 2 ^ k -> Z.land (Z.shiftl a k) b = 0.
Proof.
  intros Hk Hb. apply Z.bits_inj'. intros j Hj.
  rewrite Z.land_spec, Z.bits_0, Z.shiftl_spec by lia.
  destruct (Z.ltb_spec j k).
  - by rewrite Z.testbit_neg_r by lia.
  - rewrite <- (Z.mod_small b (2 ^ k)) by lia.
    rewrite Z.mod_pow2_bits_high by lia. apply andb_false_r.
Qed.

(** Or-ing in the next byte of a big-endian number. *)
Lemma lor_byte a b k :
  0 <= k -> is_byte b ->
  Z.lor (Z.shiftl a (k + 8)) (Z.shiftl b k) = Z.shiftl (a * 256 + b) k.
Proof.
  intros Hk Hb. rewrite Z.add_comm, <- (Z.shiftl_shiftl a 8 k), <- Z.shiftl_lor by lia.
  f_equal. pose proof (Z.add_lor_land (Z.shiftl a 8) b) as E.
  rewrite land_shiftl_low in E by (unfold is_byte in Hb; lia).
  rewrite Z.shiftl_mul_pow2 in E by lia. change (2 ^ 8) with 256 in E.
  rewrite Z.shiftl_mul_pow2 in * by lia. change (2 ^ 8) with 256. lia.
Qed.

Lemma lor_byte_0 a b : is_byte b -> Z.lor (Z.shiftl a 8) b = a * 256 + b.
Proof.
  intros Hb. pose proof (lor_byte a b 0 ltac:(lia) Hb) as E.
  by rewrite !Z.shiftl_0_r in E.
Qed.

Section Loads.
Context (cast : Z -> Z).

Lemma _msgpack_load16_spec a b :
  is_byte b -> _msgpack_load16 cast [a; b] = cast (be_combine [a; b]).
Proof. intros. unfold _msgpack_load16, at_. simpl. by rewrite lor_byte_0. Qed.

Lemma _msgpack_load32_spec a b c d :
  bytes_ok [b; c; d] ->
  _msgpack_load32 cast [a; b; c; d] = cast (be_combine [a; b; c; d]).
Proof.
  intros H. decompose_Forall_hyps. unfold _msgpack_load32, at_. cbn [nth].
  rewrite (lor_byte _ _ 16), (lor_byte _ _ 8), lor_byte_0 by (done || lia). done.
Qed.

Lemma _msgpack_load64_spec a b c d e f g h :
  bytes_ok [b; c; d; e; f; g; h] ->
  _msgpack_load64 cast [a; b; c; d; e; f; g; h] = cast (be_combine [a; b; c; d; e; f; g; h]).
Proof.
  intros H. decompose_Forall_hyps. unfold _msgpack_load64, at_. cbn [nth].
  rewrite (lor_byte _ _ 48), (lor_byte _ _ 40), (lor_byte _ _ 32), (lor_byte _ _ 24),
    (lor_byte _ _ 16), (lor_byte _ _ 8), lor_byte_0 by (done || lia). done.
Qed.

(** Loading what a store wrote gives the number back, at the width of the store. *)
Lemma load_store16 x : _msgpack_load16 cast (_msgpack_store16 x) = cast (u16 x).
Proof.
  rewrite _msgpack_store16_spec. pose proof (be_split_ok 2 x) as Hok.
  pose proof (be_combine_split 2 x) as Hc. revert Hok Hc. cbn [be_split app].
  intros Hok Hc. rewrite _msgpack_load16_spec by by decompose_Forall_hyps. by rewrite Hc.
Qed.

Lemma load_store32 x : _msgpack_load32 cast (_msgpack_store32 x) = cast (u32 x).
Proof.
  rewrite _msgpack_store32_spec. pose proof (be_split_ok 4 x) as Hok.
  pose proof (be_combine_split 4 x) as Hc. revert Hok Hc. cbn [be_split app].
  intros Hok Hc. rewrite _msgpack_load32_spec by by apply Forall_cons_1 in Hok as [_ ?].
  by rewrite Hc.
Qed.

Lemma load_store64 x : _msgpack_load64 cast (_msgpack_store64 x) = cast (u64 x).
Proof.
  rewrite _msgpack_store64_spec. pose proof (be_split_ok 8 x) as Hok.
  pose proof (be_combine_split 8 x) as Hc. revert Hok Hc. cbn [be_split app].
  intros Hok Hc. rewrite _msgpack_load64_spec by by apply Forall_cons_1 in Hok as [_ ?].
  by rewrite Hc.
Qed.
End Loads.

Lemma length_store16 x : length (_msgpack_store16 x) = 2%nat.
Proof. by rewrite _msgpack_store16_spec, length_be_split. Qed.
Lemma length_store32 x : length (_msgpack_store32 x) = 4%nat.
Proof. by rewrite _msgpack_store32_spec, length_be_split. Qed.
Lemma length_store64 x : length (_msgpack_store64 x) = 8%nat.
Proof. by rewrite _msgpack_store64_spec, length_be_split. Qed.
