(* ===== verification/MsgPack.v ===== *)
(** * MessagePack serialiser

    Models the serialising half of src/ext/msgpack-c, the wire format between the
    nginx front end and a webapp worker: the integer, raw, array, map,
    nil, boolean and float packers of include/msgpack/pack_template.h and
    [msgpack_pack_object] of src/objectc.c.  A packer function is modelled by the
    list of bytes it hands to the write callback. *)

From S2P Require Import Prelude ByteOrder.
From Stdlib Require Import ZArith Lia.
From stdpp Require Import base list gmap numbers option.
Open Scope Z_scope.
#[local] Set Warnings "-register-all".

(** ** Objects (include/msgpack/object.h) *)

(** [msgpack_object]: the tag and the union member it selects.  A [DOUBLE] carries
    the 64-bit pattern of the double, a [RAW] the bytes that its pointer and size
    denote. *)
Inductive msgpack_object : Type :=
| MSGPACK_OBJECT_NIL
| MSGPACK_OBJECT_BOOLEAN (boolean : bool)
| MSGPACK_OBJECT_POSITIVE_INTEGER (u : Z)
| MSGPACK_OBJECT_NEGATIVE_INTEGER (i : Z)
| MSGPACK_OBJECT_DOUBLE (dec : Z)
| MSGPACK_OBJECT_RAW (raw : list Z)
| MSGPACK_OBJECT_ARRAY (array : list msgpack_object)
| MSGPACK_OBJECT_MAP (map : list (msgpack_object * msgpack_object)).

(** Induction that reaches into arrays and maps. *)
Section ObjectInd.
Variable P : msgpack_object -> Prop.
Hypothesis Hnil : P MSGPACK_OBJECT_NIL.
Hypothesis Hbool : forall b, P (MSGPACK_OBJECT_BOOLEAN b).
Hypothesis Hpos : forall u, P (MSGPACK_OBJECT_POSITIVE_INTEGER u).
Hypothesis Hneg : forall i, P (MSGPACK_OBJECT_NEGATIVE_INTEGER i).
Hypothesis Hdbl : forall d, P (MSGPACK_OBJECT_DOUBLE d).
Hypothesis Hraw : forall r, P (MSGPACK_OBJECT_RAW r).
Hypothesis Harr : forall l, Forall P l -> P (MSGPACK_OBJECT_ARRAY l).
Hypothesis Hmap : forall l, Forall (fun kv => P kv.1 /\ P kv.2) l -> P (MSGPACK_OBJECT_MAP l).

Fixpoint msgpack_object_ind' (o : msgpack_object) : P o :=
  match o with
  | MSGPACK_OBJECT_NIL => Hnil
  | MSGPACK_OBJECT_BOOLEAN b => Hbool b
  | MSGPACK_OBJECT_POSITIVE_INTEGER u => Hpos u
  | MSGPACK_OBJECT_NEGATIVE_INTEGER i => Hneg i
  | MSGPACK_OBJECT_DOUBLE d => Hdbl d
  | MSGPACK_OBJECT_RAW r => Hraw r
  | MSGPACK_OBJECT_ARRAY l =>
      Harr l ((fix go l : Forall P l :=
                 match l with
                 | [] => List.Forall_nil _
                 | x :: l => List.Forall_cons _ x l (msgpack_object_ind' x) (go l)
                 end) l)
  | MSGPACK_OBJECT_MAP l =>
      Hmap l ((fix go l : Forall (fun kv => P kv.1 /\ P kv.2) l :=
                 match l with
                 | [] => List.Forall_nil _
                 | kv :: l =>
                     List.Forall_cons _ kv l
                       (conj (msgpack_object_ind' kv.1) (msgpack_object_ind' kv.2)) (go l)
                 end) l)
  end.
End ObjectInd.

(** ** Packers (include/msgpack/pack_template.h) *)

(** [TAKE8_w(d)]: the low byte of [d]. *)
Definition TAKE8 (d : Z) : Z := u8 d.

Definition msgpack_pack_real_uint8 (d : Z) : list Z :=
  if d <? Z.shiftl 1 7 then [TAKE8 d]
  else [0xcc; TAKE8 d].

Definition msgpack_pack_real_uint16 (d : Z) : list Z :=
  if d <? Z.shiftl 1 7 then [TAKE8 d]
  else if d <? Z.shiftl 1 8 then [0xcc; TAKE8 d]
  else 0xcd :: _msgpack_store16 (u16 d).

Definition msgpack_pack_real_uint32 (d : Z) : list Z :=
  if d <? Z.shiftl 1 8 then
    if d <? Z.shiftl 1 7 then [TAKE8 d] else [0xcc; TAKE8 d]
  else
    if d <? Z.shiftl 1 16 then 0xcd :: _msgpack_store16 (u16 d)
    else 0xce :: _msgpack_store32 (u32 d).

Definition msgpack_pack_real_uint64 (d : Z) : list Z :=
  if d <? Z.shiftl 1 8 then
    if d <? Z.shiftl 1 7 then [TAKE8 d] else [0xcc; TAKE8 d]
  else
    if d <? Z.shiftl 1 16 then 0xcd :: _msgpack_store16 (u16 d)
    else if d <? Z.shiftl 1 32 then 0xce :: _msgpack_store32 (u32 d)
    else 0xcf :: _msgpack_store64 d.

Definition msgpack_pack_real_int8 (d : Z) : list Z :=
  if d <? - Z.shiftl 1 5 then [0xd0; TAKE8 d] else [TAKE8 d].

Definition msgpack_pack_real_int16 (d : Z) : list Z :=
  if d <? - Z.shiftl 1 5 then
    if d <? - Z.shiftl 1 7 then 0xd1 :: _msgpack_store16 (i16 d)
    else [0xd0; TAKE8 d]
  else if d <? Z.shiftl 1 7 then [TAKE8 d]
  else
    if d <? Z.shiftl 1 8 then [0xcc; TAKE8 d]
    else 0xcd :: _msgpack_store16 (u16 d).

Definition msgpack_pack_real_int32 (d : Z) : list Z :=
  if d <? - Z.shiftl 1 5 then
    if d <? - Z.shiftl 1 15 then 0xd2 :: _msgpack_store32 (i32 d)
    else if d <? - Z.shiftl 1 7 then 0xd1 :: _msgpack_store16 (i16 d)
    else [0xd0; TAKE8 d]
  else if d <? Z.shiftl 1 7 then [TAKE8 d]
  else
    if d <? Z.shiftl 1 8 then [0xcc; TAKE8 d]
    else if d <? Z.shiftl 1 16 then 0xcd :: _msgpack_store16 (u16 d)
    else 0xce :: _msgpack_store32 (u32 d).

Definition msgpack_pack_real_int64 (d : Z) : list Z :=
  if d <? - Z.shiftl 1 5 then
    if d <? - Z.shiftl 1 15 then
      if d <? - Z.shiftl 1 31 then 0xd3 :: _msgpack_store64 d
      else 0xd2 :: _msgpack_store32 (i32 d)
    else
      if d <? - Z.shiftl 1 7 then 0xd1 :: _msgpack_store16 (i16 d)
      else [0xd0; TAKE8 d]
  else if d <? Z.shiftl 1 7 then [TAKE8 d]
  else
    if d <? Z.shiftl 1 16 then
      if d <? Z.shiftl 1 8 then [0xcc; TAKE8 d]
      else 0xcd :: _msgpack_store16 (u16 d)
    else
      if d <? Z.shiftl 1 32 then 0xce :: _msgpack_store32 (u32 d)
      else 0xcf :: _msgpack_store64 d.

(** The typed entry points; the parameter is first converted to the C type. *)
Definition msgpack_pack_uint8 (d : Z) : list Z := msgpack_pack_real_uint8 (u8 d).
Definition msgpack_pack_uint16 (d : Z) : list Z := msgpack_pack_real_uint16 (u16 d).
Definition msgpack_pack_uint32 (d : Z) : list Z := msgpack_pack_real_uint32 (u32 d).
Definition msgpack_pack_uint64 (d : Z) : list Z := msgpack_pack_real_uint64 (u64 d).
Definition msgpack_pack_int8 (d : Z) : list Z := msgpack_pack_real_int8 (i8 d).
Definition msgpack_pack_int16 (d : Z) : list Z := msgpack_pack_real_int16 (i16 d).
Definition msgpack_pack_int32 (d : Z) : list Z := msgpack_pack_real_int32 (i32 d).
Definition msgpack_pack_int64 (d : Z) : list Z := msgpack_pack_real_int64 (i64 d).
(** [int] is 32 bits wide. *)
Definition msgpack_pack_int (d : Z) : list Z := msgpack_pack_real_int32 (i32 d).

Definition msgpack_pack_fix_uint8 (d : Z) : list Z := [0xcc; TAKE8 d].
Definition msgpack_pack_fix_uint16 (d : Z) : list Z := 0xcd :: _msgpack_store16 d.
Definition msgpack_pack_fix_uint32 (d : Z) : list Z := 0xce :: _msgpack_store32 d.
Definition msgpack_pack_fix_uint64 (d : Z) : list Z := 0xcf :: _msgpack_store64 d.
Definition msgpack_pack_fix_int8 (d : Z) : list Z := [0xd0; TAKE8 d].
Definition msgpack_pack_fix_int16 (d : Z) : list Z := 0xd1 :: _msgpack_store16 d.
Definition msgpack_pack_fix_int32 (d : Z) : list Z := 0xd2 :: _msgpack_store32 d.
Definition msgpack_pack_fix_int64 (d : Z) : list Z := 0xd3 :: _msgpack_store64 d.

(** The argument of the float packers is the bit pattern ([mem.i]). *)
Definition msgpack_pack_float (bits : Z) : list Z := 0xca :: _msgpack_store32 bits.
Definition msgpack_pack_double (bits : Z) : list Z := 0xcb :: _msgpack_store64 bits.

Definition msgpack_pack_nil : list Z := [0xc0].
Definition msgpack_pack_true : list Z := [0xc3].
Definition msgpack_pack_false : list Z := [0xc2].

Definition msgpack_pack_array (n : Z) : list Z :=
  if n <? 16 then [u8 (Z.lor 0x90 n)]
  else if n <? 65536 then 0xdc :: _msgpack_store16 (u16 n)
  else 0xdd :: _msgpack_store32 (u32 n).

Definition msgpack_pack_map (n : Z) : list Z :=
  if n <? 16 then [u8 (Z.lor 0x80 n)]
  else if n <? 65536 then 0xde :: _msgpack_store16 (u16 n)
  else 0xdf :: _msgpack_store32 (u32 n).

Definition msgpack_pack_raw (l : Z) : list Z :=
  if l <? 32 then [u8 (Z.lor 0xa0 (u8 l))]
  else if l <? 65536 then 0xda :: _msgpack_store16 (u16 l)
  else 0xdb :: _msgpack_store32 (u32 l).

Definition msgpack_pack_raw_body (b : list Z) : list Z := b.

(** ** [msgpack_pack_object] (src/objectc.c) *)

Fixpoint msgpack_pack_object (d : msgpack_object) : list Z :=
  match d with
  | MSGPACK_OBJECT_NIL => msgpack_pack_nil
  | MSGPACK_OBJECT_BOOLEAN b => if b then msgpack_pack_true else msgpack_pack_false
  | MSGPACK_OBJECT_POSITIVE_INTEGER u => msgpack_pack_uint64 u
  | MSGPACK_OBJECT_NEGATIVE_INTEGER i => msgpack_pack_int64 i
  | MSGPACK_OBJECT_DOUBLE dec => msgpack_pack_double dec
  | MSGPACK_OBJECT_RAW raw => msgpack_pack_raw (lenZ raw) ++ msgpack_pack_raw_body raw
  | MSGPACK_OBJECT_ARRAY l =>
      msgpack_pack_array (lenZ l) ++ concat (List.map msgpack_pack_object l)
  | MSGPACK_OBJECT_MAP l =>
      msgpack_pack_map (lenZ l) ++
      concat (List.map (fun kv => msgpack_pack_object kv.1 ++ msgpack_pack_object kv.2) l)
  end.
