(* ===== verification/MsgUnpack.v ===== *)
(** * MessagePack deserialiser

    Models the parser of src/ext/msgpack-c: the resumable state machine
    [template_execute] of include/msgpack/unpack_template.h with the callbacks of
    src/unpack.c, and the two entry points [msgpack_unpack_next] and
    [msgpack_unpack].

    The machine is the code's: [cs] is the state number ([NEXT_CS] of the header
    byte), [trail] the number of bytes the state waits for, and [stack] the open
    containers, innermost first ([top] is its length, bounded by
    [MSGPACK_EMBED_STACK_SIZE]).  The bytes from [p] to [pe] are a list.  Each round
    of the loop consumes at least one byte, so [fuel] larger than the number of bytes
    is enough; [execute_total] proves it.  The memory that [msgpack_zone_malloc] may
    refuse is the parameter [zone_malloc]. *)

From S2P Require Import Prelude ByteOrder MsgPack.
From Stdlib Require Import ZArith Lia.
From stdpp Require Import base list gmap numbers option.
Open Scope Z_scope.

Module Unpack.

(** ** States (include/msgpack/unpack_define.h) *)

Definition MSGPACK_EMBED_STACK_SIZE : Z := 32.

Definition CS_HEADER : Z := 0x00.
Definition CS_BIN_8 : Z := 0x04.
Definition CS_BIN_16 : Z := 0x05.
Definition CS_BIN_32 : Z := 0x06.
Definition CS_FLOAT : Z := 0x0a.
Definition CS_DOUBLE : Z := 0x0b.
Definition CS_UINT_8 : Z := 0x0c.
Definition CS_UINT_16 : Z := 0x0d.
Definition CS_UINT_32 : Z := 0x0e.
Definition CS_UINT_64 : Z := 0x0f.
Definition CS_INT_8 : Z := 0x10.
Definition CS_INT_16 : Z := 0x11.
Definition CS_INT_32 : Z := 0x12.
Definition CS_INT_64 : Z := 0x13.
Definition CS_RAW_8 : Z := 0x19.
Definition CS_RAW_16 : Z := 0x1a.
Definition CS_RAW_32 : Z := 0x1b.
Definition CS_ARRAY_16 : Z := 0x1c.
Definition CS_ARRAY_32 : Z := 0x1d.
Definition CS_MAP_16 : Z := 0x1e.
Definition CS_MAP_32 : Z := 0x1f.
Definition ACS_RAW_VALUE : Z := 0x20.

Inductive msgpack_container_type := CT_ARRAY_ITEM | CT_MAP_KEY | CT_MAP_VALUE.

(** [template_stack]: an open container. *)
Record template_stack := mk_stack {
  obj : msgpack_object;
  count : Z;
  ct : msgpack_container_type;
  map_key : msgpack_object;
}.

(** [template_context]: what survives between two calls of the parser; [data] is
    [stack[0].obj], the object a finished parse leaves there. *)
Record template_context := mk_context {
  cs : Z;
  trail : Z;
  stack : list template_stack;
  data : option msgpack_object;
}.

Definition template_init : template_context := mk_context CS_HEADER 0 [] None.
Definition template_data (ctx : template_context) : option msgpack_object := data ctx.

(** ** Callbacks (src/unpack.c) *)

Definition template_callback_uint (d : Z) : msgpack_object := MSGPACK_OBJECT_POSITIVE_INTEGER d.

(** [template_callback_int8/16/32/64]: the sign picks the tag. *)
Definition template_callback_int (d : Z) : msgpack_object :=
  if 0 <=? d then MSGPACK_OBJECT_POSITIVE_INTEGER d else MSGPACK_OBJECT_NEGATIVE_INTEGER d.

(** The conversion of a [float], given by its bits, to a [double]. *)
Definition double_of_float (i : Z) : Z :=
  let s := Z.shiftr i 31 in
  let e := Z.land (Z.shiftr i 23) 0xff in
  let m := Z.land i 0x7fffff in
  let make e m := Z.lor (Z.shiftl s 63) (Z.lor (Z.shiftl e 52) m) in
  if e =? 255 then
    make 2047 (if m =? 0 then 0 else Z.lor (Z.shiftl 1 51) (Z.shiftl m 29))
  else if e =? 0 then
    if m =? 0 then make 0 0
    else let k := Z.log2 m in
         make (k + 874) (Z.shiftl (m - Z.shiftl 1 k) (52 - k))
  else make (e + 896) (Z.shiftl m 29).

Definition template_callback_float (i : Z) : msgpack_object :=
  MSGPACK_OBJECT_DOUBLE (double_of_float i).
Definition template_callback_double (i : Z) : msgpack_object := MSGPACK_OBJECT_DOUBLE i.
Definition template_callback_raw (p : list Z) : msgpack_object := MSGPACK_OBJECT_RAW p.

(** [template_callback_array_item]: stores the item at index [size]. *)
Definition template_callback_array_item (c o : msgpack_object) : msgpack_object :=
  match c with
  | MSGPACK_OBJECT_ARRAY l => MSGPACK_OBJECT_ARRAY (l ++ [o])
  | _ => c
  end.

Definition template_callback_map_item (c k v : msgpack_object) : msgpack_object :=
  match c with
  | MSGPACK_OBJECT_MAP l => MSGPACK_OBJECT_MAP (l ++ [(k, v)])
  | _ => c
  end.

(** ** The jumps of [template_execute] *)

(** Where the two [switch]es of the loop go. *)
Inductive action :=
| APush (o : msgpack_object)                      (** push_*_value: [goto _push] *)
| ARawZero                                        (** [goto _raw_zero] *)
| AFixedTrail (_cs trail_len : Z)                 (** again_fixed_trail *)
| AStart (ct_ : msgpack_container_type) (count_ : Z) (** start_container *)
| AFailed.                                        (** [goto _failed] *)

Definition NEXT_CS (p : Z) : Z := Z.land p 0x1f.

(** [again_fixed_trail_if_zero(ACS_RAW_VALUE, trail_len, _raw_zero)]. *)
Definition again_raw (trail_len : Z) : action :=
  if trail_len =? 0 then ARawZero
  else AFixedTrail ACS_RAW_VALUE trail_len.

(** [case 0xc0 ... 0xdf] of the header switch. *)
Definition header_variable (p : Z) : action :=
  if p =? 0xc0 then APush MSGPACK_OBJECT_NIL
  else if p =? 0xc2 then APush (MSGPACK_OBJECT_BOOLEAN false)
  else if p =? 0xc3 then APush (MSGPACK_OBJECT_BOOLEAN true)
  else if (0xc4 <=? p) && (p <=? 0xc6) then
    AFixedTrail (NEXT_CS p) (Z.shiftl 1 (Z.land p 0x03))
  else if (0xca <=? p) && (p <=? 0xd3) then
    AFixedTrail (NEXT_CS p) (Z.shiftl 1 (Z.land p 0x03))
  else if (0xd9 <=? p) && (p <=? 0xdb) then
    AFixedTrail (NEXT_CS p) (Z.shiftl 1 (Z.land p 0x03 - 1))
  else if (0xdc <=? p) && (p <=? 0xdf) then
    AFixedTrail (NEXT_CS p) (Z.shiftl 2 (Z.land p 0x01))
  else AFailed.

(** [case CS_HEADER]. *)
Definition header_action (p : Z) : action :=
  if (0x00 <=? p) && (p <=? 0x7f) then APush (template_callback_uint p)
  else if (0xe0 <=? p) && (p <=? 0xff) then APush (template_callback_int (i8 p))
  else if (0xc0 <=? p) && (p <=? 0xdf) then header_variable p
  else if (0xa0 <=? p) && (p <=? 0xbf) then again_raw (Z.land p 0x1f)
  else if (0x90 <=? p) && (p <=? 0x9f) then AStart CT_ARRAY_ITEM (Z.land p 0x0f)
  else if (0x80 <=? p) && (p <=? 0x8f) then AStart CT_MAP_KEY (Z.land p 0x0f)
  else AFailed.

(** The [switch(cs)] after the trail [n] has been read. *)
Definition value_action (cs : Z) (n : list Z) : action :=
  if cs =? CS_FLOAT then APush (template_callback_float (_msgpack_load32 u32 n))
  else if cs =? CS_DOUBLE then APush (template_callback_double (_msgpack_load64 u64 n))
  else if cs =? CS_UINT_8 then APush (template_callback_uint (u8 (at_ n 0)))
  else if cs =? CS_UINT_16 then APush (template_callback_uint (_msgpack_load16 u16 n))
  else if cs =? CS_UINT_32 then APush (template_callback_uint (_msgpack_load32 u32 n))
  else if cs =? CS_UINT_64 then APush (template_callback_uint (_msgpack_load64 u64 n))
  else if cs =? CS_INT_8 then APush (template_callback_int (i8 (at_ n 0)))
  else if cs =? CS_INT_16 then APush (template_callback_int (_msgpack_load16 i16 n))
  else if cs =? CS_INT_32 then APush (template_callback_int (_msgpack_load32 i32 n))
  else if cs =? CS_INT_64 then APush (template_callback_int (_msgpack_load64 i64 n))
  else if (cs =? CS_BIN_8) || (cs =? CS_RAW_8) then again_raw (u8 (at_ n 0))
  else if (cs =? CS_BIN_16) || (cs =? CS_RAW_16) then again_raw (_msgpack_load16 u16 n)
  else if (cs =? CS_BIN_32) || (cs =? CS_RAW_32) then again_raw (_msgpack_load32 u32 n)
  else if cs =? ACS_RAW_VALUE then APush (template_callback_raw n)
  else if cs =? CS_ARRAY_16 then AStart CT_ARRAY_ITEM (_msgpack_load16 u16 n)
  else if cs =? CS_ARRAY_32 then AStart CT_ARRAY_ITEM (_msgpack_load32 u32 n)
  else if cs =? CS_MAP_16 then AStart CT_MAP_KEY (_msgpack_load16 u16 n)
  else if cs =? CS_MAP_32 then AStart CT_MAP_KEY (_msgpack_load32 u32 n)
  else AFailed.

(** [_push]: stores a value in the innermost container, and a container that this
    fills in the one below it. *)
Inductive push_result :=
| PFinish (o : msgpack_object)
| PHeaderAgain (stack : list template_stack).

Fixpoint _push (o : msgpack_object) (stack : list template_stack) : push_result :=
  match stack with
  | [] => PFinish o
  | c :: below =>
      match ct c with
      | CT_ARRAY_ITEM =>
          let c_obj := template_callback_array_item (obj c) o in
          if count c - 1 =? 0 then _push c_obj below
          else PHeaderAgain (mk_stack c_obj (count c - 1) CT_ARRAY_ITEM (map_key c) :: below)
      | CT_MAP_KEY =>
          PHeaderAgain (mk_stack (obj c) (count c) CT_MAP_VALUE o :: below)
      | CT_MAP_VALUE =>
          let c_obj := template_callback_map_item (obj c) (map_key c) o in
          if count c - 1 =? 0 then _push c_obj below
          else PHeaderAgain (mk_stack c_obj (count c - 1) CT_MAP_KEY (map_key c) :: below)
      end
  end.

(** sizeof(msgpack_object) and sizeof(msgpack_object_kv). *)
Definition SIZEOF_OBJECT : Z := 24.
Definition SIZEOF_OBJECT_KV : Z := 48.

Section Execute.
(** Whether [msgpack_zone_malloc] of so many bytes succeeds. *)
Variable zone_malloc : Z -> bool.

(** [template_callback_array] and [template_callback_map]. *)
Definition template_callback_container (ct_ : msgpack_container_type) (n : Z)
  : option msgpack_object :=
  match ct_ with
  | CT_ARRAY_ITEM =>
      if zone_malloc (n * SIZEOF_OBJECT) then Some (MSGPACK_OBJECT_ARRAY []) else None
  | _ =>
      if zone_malloc (n * SIZEOF_OBJECT_KV) then Some (MSGPACK_OBJECT_MAP []) else None
  end.

(** [start_container]: what follows the jump, with the stack it leaves. *)
Definition start_container (ct_ : msgpack_container_type) (count_ : Z)
    (stack : list template_stack) : option push_result :=
  if MSGPACK_EMBED_STACK_SIZE <=? lenZ stack then None
  else
    match template_callback_container ct_ count_ with
    | None => None
    | Some o =>
        if count_ =? 0 then Some (_push o stack)
        else Some (PHeaderAgain (mk_stack o count_ ct_ MSGPACK_OBJECT_NIL :: stack))
    end.

(** [ret], the context and the bytes left when [template_execute] returns. *)
Record execute_result := mk_result {
  ret : Z;
  ctx : template_context;
  rest : list Z;
}.

(** One round of the loop.  At [CS_HEADER] the next byte is dispatched; in every
    other state [trail] bytes are awaited, then dispatched on the state.  [cur] is
    [p] at the dispatch and [pe] what follows the byte it points to; [again] is the
    next round. *)
Definition round
    (again : Z -> Z -> list template_stack -> list Z -> option execute_result)
    (cs trail : Z) (stack : list template_stack) (p : list Z) : option execute_result :=
  let out := Some (mk_result 0 (mk_context cs trail stack None) p) in
  let pushed r trail pe :=
    match r with
    | PFinish o => Some (mk_result 1 (mk_context cs trail [] (Some o)) pe)
    | PHeaderAgain stack => again CS_HEADER trail stack pe
    end in
  let dispatch a cur pe :=
    let failed := Some (mk_result (-1) (mk_context cs trail stack None) cur) in
    match a with
    | APush o => pushed (_push o stack) trail pe
    | ARawZero => pushed (_push (template_callback_raw []) stack) 0 pe
    | AFixedTrail _cs trail_len => again _cs trail_len stack pe
    | AStart ct_ count_ =>
        match start_container ct_ count_ stack with
        | None => failed
        | Some r => pushed r trail pe
        end
    | AFailed => failed
    end in
  if cs =? CS_HEADER then
    match p with
    | [] => out
    | b :: pe => dispatch (header_action b) p pe
    end
  else if lenZ p <? trail then out
  else
    dispatch (value_action cs (take (Z.to_nat trail) p))
      (drop (Z.to_nat trail - 1) p) (drop (Z.to_nat trail) p).

Fixpoint execute_loop (fuel : nat)
  : Z -> Z -> list template_stack -> list Z -> option execute_result :=
  match fuel with
  | O => fun _ _ _ _ => None
  | S fuel => round (execute_loop fuel)
  end.

(** [template_execute] on the bytes from [*off] to [len]. *)
Definition template_execute (c : template_context) (p : list Z) : option execute_result :=
  match p with
  | [] => Some (mk_result 0 c [])
  | _ => execute_loop (S (length p)) (cs c) (trail c) (stack c) p
  end.

(** [msgpack_unpack_next] on the [len] bytes [data] from offset [off]: the object
    and the new offset, [None] when it returns false. *)
Definition msgpack_unpack_next (data : list Z) (off : Z) : option (msgpack_object * Z) :=
  if lenZ data <=? off then None
  else
    match template_execute template_init (drop (Z.to_nat off) data) with
    | Some r =>
        if ret r <=? 0 then None
        else match template_data (ctx r) with
             | Some o => Some (o, lenZ data - lenZ (rest r))
             | None => None
             end
    | None => None
    end.

(** [msgpack_unpack] with a non-null [off]: the status, the new offset and the
    object when there is one. *)
Inductive msgpack_unpack_return :=
| MSGPACK_UNPACK_SUCCESS
| MSGPACK_UNPACK_EXTRA_BYTES
| MSGPACK_UNPACK_CONTINUE
| MSGPACK_UNPACK_PARSE_ERROR.

Definition msgpack_unpack (data : list Z) (off : Z)
  : msgpack_unpack_return * Z * option msgpack_object :=
  if lenZ data <=? off then (MSGPACK_UNPACK_CONTINUE, off, None)
  else
    match template_execute template_init (drop (Z.to_nat off) data) with
    | Some r =>
        if ret r <? 0 then (MSGPACK_UNPACK_PARSE_ERROR, off, None)
        else
          let noff := lenZ data - lenZ (rest r) in
          if ret r =? 0 then (MSGPACK_UNPACK_CONTINUE, noff, None)
          else if noff <? lenZ data
               then (MSGPACK_UNPACK_EXTRA_BYTES, noff, template_data (ctx r))
               else (MSGPACK_UNPACK_SUCCESS, noff, template_data (ctx r))
    | None => (MSGPACK_UNPACK_PARSE_ERROR, off, None)
    end.
End Execute.


(** ** Lemmas: the loop *)

(** A state waits for a header or for at least one byte. *)
Definition awaits (cs trail : Z) : Prop := cs = CS_HEADER \/ 1 <= trail.

Definition action_awaits (a : action) : bool :=
  match a with AFixedTrail _ t => 1 <=? t | _ => true end.

Lemma again_raw_awaits t : 0 <= t -> action_awaits (again_raw t) = true.
Proof. intros. unfold again_raw. zcase; simpl; [done|]. lia. Qed.

Lemma header_action_not_byte b : ~ is_byte b -> header_action b = AFailed.
Proof.
  unfold is_byte, header_action. intros.
  repeat match goal with
         | |- context [(?a <=? ?b)%Z] => destruct (Z.leb_spec a b); simpl; try lia
         end; done.
Qed.

Lemma header_awaits b : action_awaits (header_action b) = true.
Proof.
  destruct (decide (is_byte b)) as [Hb|Hb].
  - by apply (byte_forall (fun b => action_awaits (header_action b))).
  - by rewrite header_action_not_byte.
Qed.

Lemma value_awaits c n : action_awaits (value_action c n) = true.
Proof.
  unfold value_action.
  repeat (case_match; [done || (apply again_raw_awaits; apply uwrap_range; lia)|]). done.
Qed.

Section Loop.
Context (zone_malloc : Z -> bool).
Abbreviation loop := (execute_loop zone_malloc).

(** With fuel above the number of bytes the loop returns, and more fuel changes
    nothing. *)
Lemma round_ext k1 k2 c t st p :
  awaits c t ->
  (forall c' t' st' p', awaits c' t' -> (length p' < length p)%nat ->
     k1 c' t' st' p' = k2 c' t' st' p') ->
  round zone_malloc k1 c t st p = round zone_malloc k2 c t st p.
Proof.
  intros Haw Hk. unfold round.
  destruct (Z.eqb_spec c CS_HEADER) as [->|Hc].
  - destruct p as [|b pe]; [done|]. pose proof (header_awaits b) as Ha.
    assert (forall t' st', k1 CS_HEADER t' st' pe = k2 CS_HEADER t' st' pe) as Hh
      by (intros; apply Hk; [by left|simpl; lia]).
    destruct (header_action b) eqn:E; simpl in Ha; repeat (case_match; try done); auto.
    apply Hk; [right; lia|simpl; lia].
  - destruct Haw as [?|Ht]; [done|]. destruct (Z.ltb_spec (lenZ p) t); [done|].
    set (n := take _ p). set (pe := drop (Z.to_nat t) p).
    assert (length pe < length p)%nat as Hpe by (subst pe; rewrite length_drop; lia).
    assert (forall t' st', k1 CS_HEADER t' st' pe = k2 CS_HEADER t' st' pe) as Hh
      by (intros; apply Hk; [by left|lia]).
    pose proof (value_awaits c n) as Ha.
    destruct (value_action c n) eqn:E; simpl in Ha; repeat (case_match; try done); auto.
    apply Hk; [right; lia|lia].
Qed.

Lemma loop_fuel f1 f2 c t st p :
  awaits c t -> (length p < f1)%nat -> (length p < f2)%nat ->
  loop f1 c t st p = loop f2 c t st p.
Proof.
  revert f2 c t st p. induction f1 as [|f1 IH]; intros f2 c t st p Haw H1 H2; [lia|].
  destruct f2 as [|f2]; [lia|]. simpl. apply round_ext; [done|].
  intros. apply IH; [done|lia|lia].
Qed.

(** The loop with the fuel [template_execute] gives it. *)
Definition run c t st p : option execute_result := loop (S (length p)) c t st p.

Lemma run_round c t st p : awaits c t -> run c t st p = round zone_malloc run c t st p.
Proof.
  intros Haw. unfold run at 1. simpl. apply round_ext; [done|].
  intros. unfold run. apply loop_fuel; [done|lia|lia].
Qed.

(** Induction on the number of bytes left. *)
Lemma run_ind (P : list Z -> Prop) :
  (forall p, (forall p', (length p' < length p)%nat -> P p') -> P p) -> forall p, P p.
Proof.
  intros H p. remember (length p) as n eqn:E. revert p E.
  induction n as [n IH] using lt_wf_ind. intros p ->. apply H. intros p' Hp'.
  by eapply IH.
Qed.

Lemma run_total c t st p : awaits c t -> is_Some (run c t st p).
Proof.
  revert c t st. induction p as [p IH] using run_ind. intros c t st Haw.
  rewrite run_round by done. unfold round.
  destruct (Z.eqb_spec c CS_HEADER) as [->|Hc].
  - destruct p as [|b pe]; [eauto|]. pose proof (header_awaits b) as Ha.
    destruct (header_action b) eqn:E; simpl in Ha; repeat (case_match; eauto);
      first [by eexists | apply IH; [simpl; lia|]]; (by left) || (right; lia).
  - destruct Haw as [?|Ht]; [done|]. destruct (Z.ltb_spec (lenZ p) t); [eauto|].
    set (n := take _ p). pose proof (value_awaits c n) as Ha.
    destruct (value_action c n) eqn:E; simpl in Ha; repeat (case_match; eauto);
      first [by eexists | apply IH; [rewrite length_drop; lia|]]; (by left) || (right; lia).
Qed.

(** What is left is no longer than what was there, and shorter after an object. *)
Lemma run_rest c t st p r :
  awaits c t -> run c t st p = Some r ->
  (length (rest r) <= length p)%nat /\ (0 < ret r -> (length (rest r) < length p)%nat).
Proof.
  revert c t st r. induction p as [p IH] using run_ind. intros c t st r Haw Hr.
  rewrite run_round in Hr by done. unfold round in Hr.
  assert (forall c' t' st' pe, (length pe < length p)%nat -> awaits c' t' ->
    run c' t' st' pe = Some r -> (length (rest r) <= length p)%nat /\
    (0 < ret r -> (length (rest r) < length p)%nat)) as Hgo.
  { intros c' t' st' pe Hpe Haw' E. destruct (IH pe Hpe c' t' st' r Haw' E). split; intros; lia. }
  destruct (Z.eqb_spec c CS_HEADER) as [->|Hc].
  - destruct p as [|b pe]; [injection Hr as <-; simpl; lia|]. pose proof (header_awaits b) as Ha.
    destruct (header_action b) eqn:E; simpl in Ha; repeat case_match; simplify_eq;
      try (simpl; lia); eapply Hgo; try exact Hr; try (simpl; lia); (by left) || (right; lia).
  - destruct Haw as [?|Ht]; [done|].
    destruct (Z.ltb_spec (lenZ p) t) as [Hl|Hl]; [injection Hr as <-; simpl; lia|].
    set (n := take _ p) in *. pose proof (value_awaits c n) as Ha.
    destruct (value_action c n) eqn:E; simpl in Ha; repeat case_match; simplify_eq;
      try (simpl; rewrite length_drop; lia);
      eapply Hgo; try exact Hr; try (rewrite length_drop; lia); (by left) || (right; lia).
Qed.

(** ** Resuming: a parse cut short continues as if the bytes had come at once *)

(** What a call that returned [r] leads to when the bytes [p2] arrive. *)
Definition resume (r : execute_result) (p2 : list Z) : option execute_result :=
  if ret r =? 0 then run (cs (ctx r)) (trail (ctx r)) (stack (ctx r)) (rest r ++ p2)
  else Some (mk_result (ret r) (ctx r) (rest r ++ p2)).

Lemma run_app c t st p1 p2 r :
  awaits c t -> run c t st p1 = Some r -> run c t st (p1 ++ p2) = resume r p2.
Proof.
  revert c t st r. induction p1 as [p1 IH] using run_ind. intros c t st r Haw Hr.
  rewrite run_round in Hr by done. unfold round in Hr.
  destruct (Z.eqb_spec c CS_HEADER) as [->|Hc].
  - destruct p1 as [|b pe]; [by injection Hr as <-|].
    rewrite run_round by done. unfold round. simpl app. rewrite Z.eqb_refl.
    pose proof (header_awaits b) as Ha.
    assert (forall t' st', run CS_HEADER t' st' pe = Some r -> _) as Hh
      by (intros t' st'; apply (IH pe ltac:(simpl; lia) CS_HEADER t' st' r); by left).
    destruct (header_action b) eqn:E; simpl in Ha; repeat case_match; simplify_eq; eauto.
    all: apply IH; [simpl; lia|right; lia|done].
  - destruct Haw as [?|Ht]; [done|]. destruct (Z.ltb_spec (lenZ p1) t) as [Hl|Hl];
      [by injection Hr as <-|].
    rewrite run_round by (by right). unfold round.
    rewrite (proj2 (Z.eqb_neq _ _) Hc), length_app, (proj2 (Z.ltb_ge _ _)) by lia.
    rewrite take_app_le, !drop_app_le by lia.
    set (n := take _ p1) in *. set (pe := drop (Z.to_nat t) p1) in *.
    assert (length pe < length p1)%nat as Hpe by (subst pe; rewrite length_drop; lia).
    pose proof (value_awaits c n) as Ha.
    assert (forall t' st', run CS_HEADER t' st' pe = Some r -> _) as Hh
      by (intros t' st'; apply (IH pe ltac:(simpl; lia) CS_HEADER t' st' r); by left).
    destruct (value_action c n) eqn:E; simpl in Ha; repeat case_match; simplify_eq; eauto.
    all: apply IH; [lia|right; lia|done].
Qed.

(** ** Round trip: the bytes of a packed value parse to the value *)

(** What follows once [o] has been read in the context of [st]. *)
Definition after_push c t st o p : option execute_result :=
  match _push o st with
  | PFinish o' => Some (mk_result 1 (mk_context c t [] (Some o')) p)
  | PHeaderAgain st' => run CS_HEADER t st' p
  end.

(** The bytes [bs] parse to [o], whatever follows them. *)
Definition parses st o bs : Prop :=
  forall t p, exists c t', run CS_HEADER t st (bs ++ p) = after_push c t' st o p.

Lemma run_header t st b pe :
  run CS_HEADER t st (b :: pe)
  = match header_action b with
    | APush o => after_push CS_HEADER t st o pe
    | ARawZero => after_push CS_HEADER 0 st (MSGPACK_OBJECT_RAW []) pe
    | AFixedTrail c n => run c n st pe
    | AStart ct_ n =>
        match start_container zone_malloc ct_ n st with
        | None => Some (mk_result (-1) (mk_context CS_HEADER t st None) (b :: pe))
        | Some (PFinish o) => Some (mk_result 1 (mk_context CS_HEADER t [] (Some o)) pe)
        | Some (PHeaderAgain st') => run CS_HEADER t st' pe
        end
    | AFailed => Some (mk_result (-1) (mk_context CS_HEADER t st None) (b :: pe))
    end.
Proof.
  rewrite run_round by (by left). unfold round. rewrite Z.eqb_refl.
  done.
Qed.

Lemma run_value c n st bs p :
  c <> CS_HEADER -> 1 <= n -> lenZ bs = n ->
  run c n st (bs ++ p)
  = match value_action c bs with
    | APush o => after_push c n st o p
    | ARawZero => after_push c 0 st (MSGPACK_OBJECT_RAW []) p
    | AFixedTrail c' n' => run c' n' st p
    | AStart ct_ k =>
        match start_container zone_malloc ct_ k st with
        | None => Some (mk_result (-1) (mk_context c n st None)
                          (drop (Z.to_nat n - 1) (bs ++ p)))
        | Some (PFinish o) => Some (mk_result 1 (mk_context c n [] (Some o)) p)
        | Some (PHeaderAgain st') => run CS_HEADER n st' p
        end
    | AFailed => Some (mk_result (-1) (mk_context c n st None)
                          (drop (Z.to_nat n - 1) (bs ++ p)))
    end.
Proof.
  intros Hc Hn Hl. rewrite run_round by (by right). unfold round.
  rewrite (proj2 (Z.eqb_neq _ _) Hc), length_app, (proj2 (Z.ltb_ge _ _)) by lia.
  rewrite take_app_length', drop_app_length' by lia.
  done.
Qed.

Lemma parses_push st b o : header_action b = APush o -> parses st o [b].
Proof. intros E t p. do 2 eexists. simpl. by rewrite run_header, E. Qed.

Lemma parses_trail st hd c bs o :
  header_action hd = AFixedTrail c (lenZ bs) -> c <> CS_HEADER -> 1 <= lenZ bs ->
  value_action c bs = APush o -> parses st o (hd :: bs).
Proof.
  intros E Hc Hb Ev t p. do 2 eexists. rewrite <- app_comm_cons, run_header, E.
  rewrite run_value by done. by rewrite Ev.
Qed.

Lemma again_raw_pos n : n <> 0 -> again_raw n = AFixedTrail ACS_RAW_VALUE n.
Proof. intros. unfold again_raw. by rewrite (proj2 (Z.eqb_neq _ _)). Qed.

Lemma run_raw st r p :
  r <> [] -> run ACS_RAW_VALUE (lenZ r) st (r ++ p)
             = after_push ACS_RAW_VALUE (lenZ r) st (MSGPACK_OBJECT_RAW r) p.
Proof.
  intros. rewrite run_value; [done|done| |done].
  destruct r; [done|]. simpl. lia.
Qed.

Lemma header_fixnum u : 0 <= u < 128 -> header_action u = APush (MSGPACK_OBJECT_POSITIVE_INTEGER u).
Proof. intros. unfold header_action. by rewrite !(proj2 (Z.leb_le _ _)) by lia. Qed.

Lemma header_neg_fixnum i :
  -32 <= i < 0 -> header_action (u8 i) = APush (MSGPACK_OBJECT_NEGATIVE_INTEGER i).
Proof.
  intros. assert (u8 i = i + 256) as E by (unfold uwrap; zdm).
  assert (i8 (u8 i) = i) as Ei by (rewrite swrap_uwrap, swrap_small by lia; done).
  unfold header_action. rewrite Ei, E.
  rewrite (proj2 (Z.leb_gt _ 0x7f)), andb_false_r, !(proj2 (Z.leb_le _ _)) by lia.
  unfold template_callback_int. simpl. by rewrite (proj2 (Z.leb_gt _ _)) by lia.
Qed.

Lemma parses_uint64 st u :
  0 <= u < 2 ^ 64 -> parses st (MSGPACK_OBJECT_POSITIVE_INTEGER u) (msgpack_pack_uint64 u).
Proof.
  intros Hu. unfold msgpack_pack_uint64, msgpack_pack_real_uint64.
  rewrite uwrap_small by done. unfold TAKE8.
  change (Z.shiftl 1 8) with 256. change (Z.shiftl 1 7) with 128.
  change (Z.shiftl 1 16) with 65536. change (Z.shiftl 1 32) with 4294967296.
  repeat zcase.
  - rewrite uwrap_small by lia. apply parses_push, header_fixnum; lia.
  - apply (parses_trail _ _ CS_UINT_8); try done. unfold value_action, at_. simpl.
    by rewrite !(uwrap_small 8 u) by lia.
  - apply (parses_trail _ _ CS_UINT_16); rewrite ?length_store16; try done.
    unfold value_action. simpl. rewrite load_store16, !(uwrap_small 16 u) by lia. done.
  - apply (parses_trail _ _ CS_UINT_32); rewrite ?length_store32; try done.
    unfold value_action. simpl. rewrite load_store32, !(uwrap_small 32 u) by lia. done.
  - apply (parses_trail _ _ CS_UINT_64); rewrite ?length_store64; try done.
    unfold value_action. simpl. rewrite load_store64, !(uwrap_small 64 u) by lia. done.
Qed.

Lemma callback_int_neg i : i < 0 -> template_callback_int i = MSGPACK_OBJECT_NEGATIVE_INTEGER i.
Proof. intros. unfold template_callback_int. by rewrite (proj2 (Z.leb_gt _ _)) by lia. Qed.

Lemma parses_int64 st i :
  - 2 ^ 63 <= i < 0 -> parses st (MSGPACK_OBJECT_NEGATIVE_INTEGER i) (msgpack_pack_int64 i).
Proof.
  intros Hi. unfold msgpack_pack_int64, msgpack_pack_real_int64.
  rewrite swrap_small by lia. unfold TAKE8.
  change (- Z.shiftl 1 5) with (-32). change (- Z.shiftl 1 15) with (-32768).
  change (- Z.shiftl 1 31) with (-2147483648). change (- Z.shiftl 1 7) with (-128).
  change (Z.shiftl 1 7) with 128.
  repeat zcase; try lia.
  - apply (parses_trail _ _ CS_INT_64); rewrite ?length_store64; try done.
    unfold value_action. simpl.
    rewrite load_store64, swrap_uwrap, swrap_small, callback_int_neg by lia. done.
  - apply (parses_trail _ _ CS_INT_32); rewrite ?length_store32; try done.
    unfold value_action. simpl.
    rewrite load_store32, swrap_uwrap, (swrap_small 32 i), swrap_small, callback_int_neg by lia.
    done.
  - apply (parses_trail _ _ CS_INT_16); rewrite ?length_store16; try done.
    unfold value_action. simpl.
    rewrite load_store16, swrap_uwrap, (swrap_small 16 i), swrap_small, callback_int_neg by lia.
    done.
  - apply (parses_trail _ _ CS_INT_8); try done. unfold value_action, at_. simpl.
    rewrite swrap_uwrap, swrap_small, callback_int_neg by lia. done.
  - apply parses_push, header_neg_fixnum. lia.
Qed.

Lemma parses_double st d :
  0 <= d < 2 ^ 64 -> parses st (MSGPACK_OBJECT_DOUBLE d) (msgpack_pack_double d).
Proof.
  intros. apply (parses_trail _ _ CS_DOUBLE); rewrite ?length_store64; try done.
  unfold value_action. simpl. rewrite load_store64, !(uwrap_small 64 d) by lia. done.
Qed.

(** The header byte of a short raw, array or map. *)
Lemma lor_small a b k :
  0 <= k -> 0 <= b < 2 ^ k -> a mod 2 ^ k = 0 -> Z.lor a b = a + b.
Proof.
  intros Hk Hb Ha. pose proof (Z.add_lor_land a b) as E.
  assert (a = Z.shiftl (a / 2 ^ k) k) as Eq.
  { rewrite Z.shiftl_mul_pow2 by lia. rewrite (Z.div_mod a (2 ^ k)) at 1; lia. }
  assert (Z.land a b = 0) as H0 by (rewrite Eq; by apply land_shiftl_low). lia.
Qed.

(** Decides the comparisons of a header byte [a + n] for a small [n]. *)
Ltac header_cmp :=
  unfold header_action;
  repeat match goal with
         | |- context [(?a <=? ?b)%Z] =>
             first [rewrite (proj2 (Z.leb_le a b)) by lia | rewrite (proj2 (Z.leb_gt a b)) by lia]
         end; simpl andb; cbn match.

Lemma header_fixraw n : 0 <= n < 32 -> header_action (0xa0 + n) = again_raw n.
Proof.
  intros. header_cmp. f_equal. change 31 with (Z.ones 5). rewrite Z.land_ones by lia. zdm.
Qed.

Lemma header_fixarray n : 0 <= n < 16 -> header_action (0x90 + n) = AStart CT_ARRAY_ITEM n.
Proof.
  intros. header_cmp. f_equal. change 15 with (Z.ones 4). rewrite Z.land_ones by lia. zdm.
Qed.

Lemma header_fixmap n : 0 <= n < 16 -> header_action (0x80 + n) = AStart CT_MAP_KEY n.
Proof.
  intros. header_cmp. f_equal. change 15 with (Z.ones 4). rewrite Z.land_ones by lia. zdm.
Qed.

Lemma parses_raw st r :
  lenZ r < 2 ^ 32 ->
  parses st (MSGPACK_OBJECT_RAW r) (msgpack_pack_raw (lenZ r) ++ msgpack_pack_raw_body r).
Proof.
  intros Hr t p. unfold msgpack_pack_raw, msgpack_pack_raw_body.
  repeat zcase; rewrite <- app_assoc, <- ?app_comm_cons.
  - rewrite (uwrap_small 8 (lenZ r)), (lor_small _ _ 5), uwrap_small, run_header, app_nil_l
      by (reflexivity || lia).
    assert (header_action (0xa0 + lenZ r) = again_raw (lenZ r)) as ->
      by (apply header_fixraw; lia).
    destruct r as [|x r]; [by do 2 eexists|].
    rewrite again_raw_pos by (simpl; lia). rewrite run_raw by done. eauto.
  - rewrite run_header. change (header_action 0xda) with (AFixedTrail CS_RAW_16 2).
    cbn match. rewrite run_value by (rewrite ?length_store16; done).
    unfold value_action. simpl.
    rewrite load_store16, !(uwrap_small 16 (lenZ r)), again_raw_pos by lia. cbn match.
    rewrite run_raw by (intros ->; simpl in *; lia). eauto.
  - rewrite run_header. change (header_action 0xdb) with (AFixedTrail CS_RAW_32 4).
    cbn match. rewrite run_value by (rewrite ?length_store32; done).
    unfold value_action. simpl.
    rewrite load_store32, !(uwrap_small 32 (lenZ r)), again_raw_pos by lia. cbn match.
    rewrite run_raw by (intros ->; simpl in *; lia). eauto.
Qed.

Lemma after_push_eq c t st o p :
  after_push c t st o p
  = match _push o st with
    | PFinish o' => Some (mk_result 1 (mk_context c t [] (Some o')) p)
    | PHeaderAgain st' => run CS_HEADER t st' p
    end.
Proof. done. Qed.

(** The bytes [bs] open a container of [n] elements. *)
Definition opens ct_ n bs : Prop :=
  forall t st r p, start_container zone_malloc ct_ n st = Some r ->
    exists c t', run CS_HEADER t st (bs ++ p)
                 = match r with
                   | PFinish o => Some (mk_result 1 (mk_context c t' [] (Some o)) p)
                   | PHeaderAgain st' => run CS_HEADER t' st' p
                   end.

Lemma opens_header b ct_ n : header_action b = AStart ct_ n -> opens ct_ n [b].
Proof.
  intros E t st r p Hr. exists CS_HEADER, t.
  rewrite <- app_comm_cons, app_nil_l, run_header, E, Hr. by destruct r.
Qed.

Lemma opens_trail hd c bs ct_ n :
  header_action hd = AFixedTrail c (lenZ bs) -> c <> CS_HEADER -> 1 <= lenZ bs ->
  value_action c bs = AStart ct_ n -> opens ct_ n (hd :: bs).
Proof.
  intros E Hc Hb Ev t st r p Hr. exists c, (lenZ bs).
  rewrite <- app_comm_cons, run_header, E, run_value, Ev, Hr by done. by destruct r.
Qed.

Lemma opens_array n : 0 <= n < 2 ^ 32 -> opens CT_ARRAY_ITEM n (msgpack_pack_array n).
Proof.
  intros Hn. unfold msgpack_pack_array. repeat zcase.
  - rewrite (lor_small _ _ 4), uwrap_small by (reflexivity || lia).
    apply opens_header, header_fixarray. lia.
  - apply (opens_trail _ CS_ARRAY_16); rewrite ?length_store16; try done.
    unfold value_action. simpl. rewrite load_store16, !(uwrap_small 16 n) by lia. done.
  - apply (opens_trail _ CS_ARRAY_32); rewrite ?length_store32; try done.
    unfold value_action. simpl. rewrite load_store32, !(uwrap_small 32 n) by lia. done.
Qed.

Lemma opens_map n : 0 <= n < 2 ^ 32 -> opens CT_MAP_KEY n (msgpack_pack_map n).
Proof.
  intros Hn. unfold msgpack_pack_map. repeat zcase.
  - rewrite (lor_small _ _ 4), uwrap_small by (reflexivity || lia).
    apply opens_header, header_fixmap. lia.
  - apply (opens_trail _ CS_MAP_16); rewrite ?length_store16; try done.
    unfold value_action. simpl. rewrite load_store16, !(uwrap_small 16 n) by lia. done.
  - apply (opens_trail _ CS_MAP_32); rewrite ?length_store32; try done.
    unfold value_action. simpl. rewrite load_store32, !(uwrap_small 32 n) by lia. done.
Qed.

(** The elements of an array that is still open. *)
Lemma parses_items l acc mk st :
  l <> [] ->
  (forall o st', o ∈ l -> length st' = S (length st) -> parses st' o (msgpack_pack_object o)) ->
  forall t p, exists c t',
    run CS_HEADER t (mk_stack (MSGPACK_OBJECT_ARRAY acc) (lenZ l) CT_ARRAY_ITEM mk :: st)
      (concat (List.map msgpack_pack_object l) ++ p)
    = after_push c t' st (MSGPACK_OBJECT_ARRAY (acc ++ l)) p.
Proof.
  revert acc. induction l as [|o l IH]; intros acc Hne Hl t p; [done|].
  cbn [List.map concat]. rewrite <- app_assoc.
  edestruct (Hl o) as (c & t' & ->); [left|done|].
  rewrite after_push_eq. cbn [_push ct count obj template_callback_array_item].
  destruct l as [|o' l'].
  - exists c, t'. by rewrite Z.eqb_refl.
  - rewrite (proj2 (Z.eqb_neq _ _)) by (simpl; lia).
    replace (lenZ (o :: o' :: l') - 1) with (lenZ (o' :: l')) by (simpl; lia).
    edestruct (IH (acc ++ [o])) as (c' & t'' & E); [done|by intros; apply Hl; [right|]|].
    exists c', t''. rewrite <- app_assoc in E. exact E.
Qed.

(** The entries of a map that is still open. *)
Lemma parses_entries l acc mk st :
  l <> [] ->
  (forall kv st', kv ∈ l -> length st' = S (length st) ->
     parses st' kv.1 (msgpack_pack_object kv.1) /\ parses st' kv.2 (msgpack_pack_object kv.2)) ->
  forall t p, exists c t',
    run CS_HEADER t (mk_stack (MSGPACK_OBJECT_MAP acc) (lenZ l) CT_MAP_KEY mk :: st)
      (concat (List.map (fun kv => msgpack_pack_object kv.1 ++ msgpack_pack_object kv.2) l) ++ p)
    = after_push c t' st (MSGPACK_OBJECT_MAP (acc ++ l)) p.
Proof.
  revert acc mk. induction l as [|[k v] l IH]; intros acc mk Hne Hl t p; [done|].
  cbn [List.map concat fst snd]. rewrite <- !app_assoc.
  assert (forall st', length st' = S (length st) ->
    parses st' k (msgpack_pack_object k) /\ parses st' v (msgpack_pack_object v)) as Hkv
    by (intros; apply (Hl (k, v)); [left|done]).
  edestruct Hkv as [Hk _]; [|edestruct Hk as (c & t' & ->); clear Hk]; [done|].
  rewrite after_push_eq. cbn [_push ct count obj map_key].
  edestruct Hkv as [_ Hv]; [|edestruct Hv as (c2 & t2 & ->); clear Hv]; [done|].
  rewrite after_push_eq. cbn [_push ct count obj map_key template_callback_map_item].
  destruct l as [|kv' l'].
  - exists c2, t2. by rewrite Z.eqb_refl.
  - rewrite (proj2 (Z.eqb_neq _ _)) by (simpl; lia).
    replace (lenZ ((k, v) :: kv' :: l') - 1) with (lenZ (kv' :: l')) by (simpl; lia).
    edestruct (IH (acc ++ [(k, v)])) as (c' & t'' & E); [done|by intros; apply Hl; [right|]|].
    exists c', t''. rewrite <- app_assoc in E. exact E.
Qed.

(** Nesting depth of the containers of an object. *)
Fixpoint depth (o : msgpack_object) : nat :=
  match o with
  | MSGPACK_OBJECT_ARRAY l => S (foldr Nat.max 0 (List.map depth l))%nat
  | MSGPACK_OBJECT_MAP l =>
      S (foldr Nat.max 0 (List.map (fun kv => Nat.max (depth kv.1) (depth kv.2)) l))%nat
  | _ => O
  end.

(** The values a [msgpack_object] can hold, with the memory for its containers
    available: integers in their C type, sizes in 32 bits. *)
Fixpoint packable (o : msgpack_object) : Prop :=
  match o with
  | MSGPACK_OBJECT_NIL | MSGPACK_OBJECT_BOOLEAN _ => True
  | MSGPACK_OBJECT_POSITIVE_INTEGER u => 0 <= u < 2 ^ 64
  | MSGPACK_OBJECT_NEGATIVE_INTEGER i => - 2 ^ 63 <= i < 0
  | MSGPACK_OBJECT_DOUBLE d => 0 <= d < 2 ^ 64
  | MSGPACK_OBJECT_RAW r => lenZ r < 2 ^ 32
  | MSGPACK_OBJECT_ARRAY l =>
      lenZ l < 2 ^ 32 /\ zone_malloc (lenZ l * SIZEOF_OBJECT) = true /\
      foldr and True (List.map packable l)
  | MSGPACK_OBJECT_MAP l =>
      lenZ l < 2 ^ 32 /\ zone_malloc (lenZ l * SIZEOF_OBJECT_KV) = true /\
      foldr and True (List.map (fun kv => packable kv.1 /\ packable kv.2) l)
  end.

Lemma start_container_ok ct_ n st o :
  lenZ st < MSGPACK_EMBED_STACK_SIZE ->
  template_callback_container zone_malloc ct_ n = Some o ->
  start_container zone_malloc ct_ n st
  = Some (if n =? 0 then _push o st
          else PHeaderAgain (mk_stack o n ct_ MSGPACK_OBJECT_NIL :: st)).
Proof.
  intros Hst Ho. unfold start_container. rewrite (proj2 (Z.leb_gt _ _)), Ho by lia.
  by zcase.
Qed.

Lemma parses_object o st :
  packable o -> (length st + depth o <= 32)%nat -> parses st o (msgpack_pack_object o).
Proof.
  revert st. induction o as [|b|u|i|d|r|l IH|l IH] using msgpack_object_ind';
    intros st Hp Hd.
  - by apply parses_push.
  - destruct b; by apply parses_push.
  - by apply parses_uint64.
  - by apply parses_int64.
  - by apply parses_double.
  - by apply parses_raw.
  - destruct Hp as (Hl & Hm & Hp). simpl in Hd. intros t p.
    cbn [msgpack_pack_object]. rewrite <- app_assoc.
    edestruct (opens_array (lenZ l)) as (c & t' & ->);
      [lia|apply start_container_ok with (o := MSGPACK_OBJECT_ARRAY [])|].
    + unfold MSGPACK_EMBED_STACK_SIZE. lia.
    + simpl. by rewrite Hm.
    + destruct l as [|x l]; [by do 2 eexists|].
      rewrite (proj2 (Z.eqb_neq _ _)) by (simpl; lia).
      apply (parses_items _ []); [done|]. intros o st' Ho Hst'.
      apply (Forall_elem _ _ _ IH Ho).
      * by apply (foldr_and_elem packable (x :: l)).
      * pose proof (foldr_max_elem depth (x :: l) o Ho). lia.
  - destruct Hp as (Hl & Hm & Hp). simpl in Hd. intros t p.
    cbn [msgpack_pack_object]. rewrite <- app_assoc.
    edestruct (opens_map (lenZ l)) as (c & t' & ->);
      [lia|apply start_container_ok with (o := MSGPACK_OBJECT_MAP [])|].
    + unfold MSGPACK_EMBED_STACK_SIZE. lia.
    + simpl. by rewrite Hm.
    + destruct l as [|x l]; [by do 2 eexists|].
      rewrite (proj2 (Z.eqb_neq _ _)) by (simpl; lia).
      apply (parses_entries _ []); [done|]. intros kv st' Hkv Hst'.
      destruct (Forall_elem _ _ _ IH Hkv) as [IH1 IH2].
      destruct (foldr_and_elem _ _ _ Hp Hkv) as [Hp1 Hp2].
      pose proof (foldr_max_elem (fun kv => Nat.max (depth kv.1) (depth kv.2)) (x :: l) kv Hkv)
        as Hm'. cbv beta in Hm'.
      split; [apply IH1|apply IH2]; done || lia.
Qed.

Lemma pack_nonempty o : msgpack_pack_object o <> [].
Proof.
  destruct o as [|[]|u|i|d|r|l|l]; simpl; try done;
    unfold msgpack_pack_uint64, msgpack_pack_real_uint64, msgpack_pack_int64,
      msgpack_pack_real_int64, msgpack_pack_raw, msgpack_pack_array, msgpack_pack_map;
    repeat case_match; done.
Qed.
End Loop.


(** ** Properties of the entry points *)

Section Entry.
Context (zone_malloc : Z -> bool).
Abbreviation run := (run zone_malloc).

Lemma template_execute_run c p :
  p <> [] -> template_execute zone_malloc c p = run (cs c) (trail c) (stack c) p.
Proof. by destruct p. Qed.

Lemma unpack_next_eq pre p :
  p <> [] ->
  msgpack_unpack_next zone_malloc (pre ++ p) (lenZ pre)
  = match run CS_HEADER 0 [] p with
    | Some r => if ret r <=? 0 then None
                else match data (ctx r) with
                     | Some o => Some (o, lenZ pre + lenZ p - lenZ (rest r))
                     | None => None
                     end
    | None => None
    end.
Proof.
  intros Hp. unfold msgpack_unpack_next.
  destruct (Z.leb_spec (lenZ (pre ++ p)) (lenZ pre)) as [Hl|Hl].
  - rewrite length_app in Hl. destruct p; [done|simpl in Hl; lia].
  - rewrite Nat2Z.id, drop_app_length, template_execute_run by done.
    rewrite length_app, Nat2Z.inj_add. done.
Qed.

Lemma run_packed o p :
  packable zone_malloc o -> (depth o <= 32)%nat ->
  exists c t, run CS_HEADER 0 [] (msgpack_pack_object o ++ p)
              = Some (mk_result 1 (mk_context c t [] (Some o)) p).
Proof.
  intros Hp Hd. by destruct (parses_object zone_malloc o [] Hp Hd 0 p) as (c & t & ->); eauto.
Qed.

(** The offset is moved past at least one byte, and not past the end. *)
Lemma unpack_next_offset p o off :
  msgpack_unpack_next zone_malloc p 0 = Some (o, off) -> 0 < off <= lenZ p.
Proof.
  destruct p as [|x p]; [done|]. intros H.
  pose proof (unpack_next_eq [] (x :: p) ltac:(done)) as Eq.
  change ([] ++ x :: p) with (x :: p) in Eq. change (lenZ (@nil Z)) with 0 in Eq.
  rewrite Eq in H. clear Eq.
  destruct (run CS_HEADER 0 [] (x :: p)) as [r|] eqn:E; [|done].
  destruct (run_rest _ _ _ _ _ _ (or_introl eq_refl) E) as [H1 H2].
  destruct (Z.leb_spec (ret r) 0); [done|]. destruct (data (ctx r)); simplify_eq/=. lia.
Qed.

Lemma unpack_next_packed o pre post :
  packable zone_malloc o -> (depth o <= 32)%nat ->
  msgpack_unpack_next zone_malloc (pre ++ msgpack_pack_object o ++ post) (lenZ pre)
  = Some (o, lenZ pre + lenZ (msgpack_pack_object o)).
Proof.
  intros Hp Hd. rewrite unpack_next_eq.
  - destruct (run_packed o post Hp Hd) as (c & t & ->). simpl.
    rewrite length_app. do 2 f_equal. lia.
  - intros [E _]%app_eq_nil. by apply pack_nonempty in E.
Qed.

Lemma unpack_next_prefix o p q :
  packable zone_malloc o -> (depth o <= 32)%nat ->
  msgpack_pack_object o = p ++ q -> q <> [] ->
  msgpack_unpack_next zone_malloc p 0 = None /\
  (msgpack_unpack zone_malloc p 0).1.1 = MSGPACK_UNPACK_CONTINUE.
Proof.
  intros Hp Hd E Hq. destruct p as [|x p']; [done|]. set (p := x :: p') in *.
  destruct (run_packed o [] Hp Hd) as (c & t & Hr). rewrite E, app_nil_r in Hr.
  destruct (run_total zone_malloc CS_HEADER 0 [] p ltac:(by left)) as [r Er].
  rewrite (run_app zone_malloc _ _ _ _ _ _ ltac:(by left) Er) in Hr.
  assert (ret r = 0) as Hret.
  { unfold resume in Hr. destruct (Z.eqb_spec (ret r) 0) as [|_]; [done|].
    injection Hr as _ _ Hrest. apply app_eq_nil in Hrest as [_ ?]. done. }
  assert (template_execute zone_malloc template_init p = Some r) as Ex by exact Er.
  unfold msgpack_unpack_next, msgpack_unpack. change (drop (Z.to_nat 0) p) with p.
  by rewrite Ex, Hret.
Qed.

(** C4: every object [msgpack_pack_object] can be given, nested up to the 32
    levels of the parser's stack, is read back unchanged by [msgpack_unpack_next]
    from its packed bytes, wherever they stand in the buffer and whatever follows
    them; the offset moves past exactly those bytes. *)
Theorem unpack_pack_roundtrip o pre post :
  packable zone_malloc o -> (depth o <= 32)%nat ->
  msgpack_unpack_next zone_malloc (pre ++ msgpack_pack_object o ++ post) (lenZ pre)
  = Some (o, lenZ pre + lenZ (msgpack_pack_object o)).
Proof. apply unpack_next_packed. Qed.

(** A proper prefix of a packed object is never taken for an object, nor for
    an error: [msgpack_unpack] asks for more bytes and [msgpack_unpack_next]
    returns false. *)
Theorem unpack_prefix_incomplete o p q :
  packable zone_malloc o -> (depth o <= 32)%nat ->
  msgpack_pack_object o = p ++ q -> q <> [] ->
  msgpack_unpack_next zone_malloc p 0 = None /\
  (msgpack_unpack zone_malloc p 0).1.1 = MSGPACK_UNPACK_CONTINUE.
Proof. apply unpack_next_prefix. Qed.

(** Feeding the parser in pieces is the same as feeding it at once: if a call
    stops for lack of bytes, the next call, on what it left followed by the new
    bytes, returns what one call on all the bytes returns; and a call that has
    returned an object or an error does not depend on the bytes that follow. *)
Theorem template_execute_resume c p1 p2 r :
  awaits (cs c) (trail c) -> p1 <> [] -> p2 <> [] ->
  template_execute zone_malloc c p1 = Some r ->
  template_execute zone_malloc c (p1 ++ p2)
  = if ret r =? 0 then template_execute zone_malloc (ctx r) (rest r ++ p2)
    else Some (mk_result (ret r) (ctx r) (rest r ++ p2)).
Proof.
  intros Haw H1 H2 E. rewrite template_execute_run in E by done.
  rewrite template_execute_run by (by destruct p1).
  rewrite (run_app _ _ _ _ _ _ _ Haw E). unfold resume. zcase; [|done].
  rewrite template_execute_run; [done|]. by intros [_ ?]%app_eq_nil.
Qed.

(** The parser returns on every input, well-formed or not, after as many
    rounds as it has bytes at most: it consumes at least one byte a round. *)
Theorem template_execute_total c p :
  awaits (cs c) (trail c) -> is_Some (template_execute zone_malloc c p).
Proof.
  intros Haw. destruct p as [|x p]; [by eexists|].
  rewrite template_execute_run by done. by apply run_total.
Qed.
End Entry.

Definition sample_object : msgpack_object :=
  MSGPACK_OBJECT_MAP
    [(MSGPACK_OBJECT_RAW [104; 105],
      MSGPACK_OBJECT_ARRAY
        [MSGPACK_OBJECT_NEGATIVE_INTEGER (-70000); MSGPACK_OBJECT_ARRAY [];
         MSGPACK_OBJECT_NIL; MSGPACK_OBJECT_POSITIVE_INTEGER (2 ^ 63)])].

Lemma sample_packable : packable (fun _ => true) sample_object.
Proof. simpl. repeat split; lia. Qed.

Lemma unpack_pack_roundtrip_witness :
  msgpack_unpack_next (fun _ => true) ([7] ++ msgpack_pack_object sample_object ++ [1; 2; 3]) 1
  = Some (sample_object, 22).
Proof.
  apply (unpack_pack_roundtrip (fun _ => true) sample_object [7] [1; 2; 3]).
  - apply sample_packable.
  - vm_compute. lia.
Defined.

Lemma unpack_prefix_incomplete_witness :
  msgpack_unpack_next (fun _ => true) (take 7 (msgpack_pack_object sample_object)) 0 = None.
Proof.
  apply (unpack_prefix_incomplete (fun _ => true) sample_object
           (take 7 (msgpack_pack_object sample_object))
           (drop 7 (msgpack_pack_object sample_object))).
  - apply sample_packable.
  - vm_compute. lia.
  - by vm_compute.
  - by vm_compute.
Defined.

Lemma template_execute_resume_witness :
  exists r, template_execute (fun _ => true) template_init [0xcd; 1] = Some r /\
            template_execute (fun _ => true) template_init ([0xcd; 1] ++ [2; 9])
            = template_execute (fun _ => true) (ctx r) (rest r ++ [2; 9]).
Proof.
  eexists. split; [vm_compute; reflexivity|].
  etransitivity.
  - eapply (template_execute_resume (fun _ => true) template_init [0xcd; 1] [2; 9]).
    + by left.
    + done.
    + done.
    + vm_compute; reflexivity.
  - reflexivity.
Defined.

Lemma template_execute_total_witness :
  is_Some (template_execute (fun _ => true) template_init [0xdd; 255; 255; 255; 255; 0xc1]).
Proof. apply template_execute_total. by left. Defined.

End Unpack.
