(* ===== verification/MsgTyped.v ===== *)
(** * Types of what the parser of MessagePack builds

    The parser of src/ext/msgpack-c (MsgUnpack.v) on any bytes at all: [frame_ok] says what
    holds of every open container of its stack, that the items it has and those it waits for
    are as many as it has memory for, and [ctx_ok] what holds of a context between two calls.
    [round] keeps them, so that an object it returns is one that the C type
    [msgpack_object] and the packer can hold. *)

From S2P Require Import Prelude ByteOrder MsgPack MsgUnpack.
From Stdlib Require Import ZArith Lia.
From stdpp Require Import base list gmap numbers option.
Open Scope Z_scope.

Module Typed.
Import Unpack.

(** ** Floats *)

Lemma lor_range a b n : 0 <= n -> 0 <= a < 2 ^ n -> 0 <= b < 2 ^ n -> 0 <= Z.lor a b < 2 ^ n.
Proof.
  intros Hn Ha Hb. split; [apply Z.lor_nonneg; lia|]. assert (H : Z.lor a b mod 2 ^ n = Z.lor a b); [|rewrite <- H; apply Z.mod_pos_bound; lia].
  rewrite <- Z.land_ones by lia. apply Z.bits_inj'. intros k Hk. rewrite Z.land_spec, !Z.lor_spec. destruct (Z.lt_ge_cases k n).
  - rewrite Z.ones_spec_low by lia. apply andb_true_r.
  - rewrite <- (Z.mod_small a (2 ^ n)), <- (Z.mod_small b (2 ^ n)) by lia. by rewrite !Z.mod_pow2_bits_high by lia.
Qed.

Lemma shiftl_range a k m n : 0 <= k -> 0 <= m -> n = k + m -> 0 <= a < 2 ^ m -> 0 <= Z.shiftl a k < 2 ^ n.
Proof. intros Hk Hm -> Ha. rewrite Z.shiftl_mul_pow2, Z.pow_add_r by lia. pose proof (Z.pow_pos_nonneg 2 k). nia. Qed.

Lemma land_range a n : 0 <= n -> 0 <= Z.land a (Z.ones n) < 2 ^ n.
Proof. intros Hn. rewrite Z.land_ones by done. apply Z.mod_pos_bound. lia. Qed.

Lemma double_of_float_range i : 0 <= i < 2 ^ 32 -> 0 <= double_of_float i < 2 ^ 64.
Proof.
  intros Hi. assert (Hs : 0 <= Z.shiftr i 31 < 2 ^ 1) by (rewrite Z.shiftr_div_pow2 by lia; split; [apply Z.div_pos; lia|apply Z.div_lt_upper_bound; lia]).
  assert (Hmake : forall e m, 0 <= e < 2 ^ 11 -> 0 <= m < 2 ^ 52 -> 0 <= Z.lor (Z.shiftl (Z.shiftr i 31) 63) (Z.lor (Z.shiftl e 52) m) < 2 ^ 64).
  { intros e m He Hm. apply lor_range; [lia|apply (shiftl_range _ _ 1); lia|]. apply lor_range; [lia|apply (shiftl_range _ _ 12); lia|lia]. }
  pose proof (land_range (Z.shiftr i 23) 8 ltac:(lia)) as He. change (Z.ones 8) with 0xff in He. pose proof (land_range i 23 ltac:(lia)) as Hm. change (Z.ones 23) with 0x7fffff in Hm.
  unfold double_of_float. set (e := Z.land _ 0xff) in *. set (m := Z.land _ 0x7fffff) in *. zcase; [|zcase; [zcase|]].
  - apply Hmake; [lia|]. zcase; [lia|]. apply lor_range; [lia|by split; vm_compute|]. apply (shiftl_range _ _ 23); lia.
  - apply Hmake; lia.
  - assert (Hk : 0 <= Z.log2 m < 23) by (split; [apply Z.log2_nonneg|apply Z.log2_lt_pow2; lia]). pose proof (Z.log2_spec m ltac:(lia)) as [Hl1 Hl2]. apply Hmake; [lia|].
    rewrite Z.pow_succ_r in Hl2 by lia. apply (shiftl_range _ _ (Z.log2 m)); rewrite ?Z.shiftl_1_l; lia.
  - apply Hmake; [lia|]. apply (shiftl_range _ _ 23); lia.
Qed.

(** ** The invariant *)

(** A value that needs no memory from the zone. *)
Definition scalar (o : msgpack_object) : Prop := packable (fun _ => true) o /\ depth o = O.

Definition action_ok (a : action) : Prop :=
  match a with
  | APush o => scalar o
  | AFixedTrail c t => c = ACS_RAW_VALUE -> t < 2 ^ 32
  | AStart _ n => 0 <= n < 2 ^ 32
  | ARawZero | AFailed => True
  end.

Lemma again_raw_ok t : t < 2 ^ 32 -> action_ok (again_raw t).
Proof. intros Ht. unfold again_raw. case_match; [done|]. by intros _. Qed.

Lemma callback_int_ok w d : 0 < w <= 64 -> - 2 ^ (w - 1) <= d < 2 ^ (w - 1) -> scalar (template_callback_int d).
Proof.
  intros Hw Hd. pose proof (Z.pow_le_mono_r 2 (w - 1) 63 ltac:(lia) ltac:(lia)). unfold template_callback_int, scalar. zcase; cbn [packable depth]; split; lia.
Qed.

Lemma callback_uint_ok w d : 0 <= w <= 64 -> 0 <= d < 2 ^ w -> scalar (template_callback_uint d).
Proof. intros Hw Hd. pose proof (Z.pow_le_mono_r 2 w 64 ltac:(lia) ltac:(lia)). unfold template_callback_uint, scalar. cbn [packable depth]. split; lia. Qed.

Lemma header_action_ok b : action_ok (header_action b).
Proof.
  unfold header_action. case_match; [apply (callback_uint_ok 8); lia|]. case_match; [apply (callback_int_ok 8); [lia|apply swrap_range; lia]|].
  assert (Hland : forall n m, 0 <= m <= 31 -> 0 <= n -> m = Z.ones n -> 0 <= Z.land b m < 2 ^ 32).
  { intros n m Hm Hn ->. pose proof (Z.land_nonneg b (Z.ones n)). pose proof (land_range b n Hn). rewrite Z.ones_equiv in Hm. lia. }
  case_match.
  - unfold header_variable. repeat (case_match; [try done|]); try done; intros E; unfold NEXT_CS, ACS_RAW_VALUE in E; pose proof (land_range b 5 ltac:(lia)) as Hl5; change (Z.ones 5) with 0x1f in Hl5; lia.
  - case_match; [apply again_raw_ok, (Hland 5); [lia|lia|done]|]. case_match; [apply (Hland 4); [lia|lia|done]|]. case_match; [apply (Hland 4); [lia|lia|done]|done].
Qed.

Lemma value_action_ok c n : (c = ACS_RAW_VALUE -> lenZ n < 2 ^ 32) -> action_ok (value_action c n).
Proof.
  intros Hn. unfold value_action. case_match; [split; [apply double_of_float_range, uwrap_range; lia|done]|]. case_match; [split; [apply uwrap_range; lia|done]|].
  do 4 (case_match; [eapply callback_uint_ok; [|apply uwrap_range]; lia|]). do 4 (case_match; [eapply callback_int_ok; [|apply swrap_range]; lia|]).
  case_match; [apply again_raw_ok; pose proof (uwrap_range 8 (at_ n 0)); lia|]. case_match; [apply again_raw_ok; eapply Z.lt_le_trans; [apply uwrap_range|]; lia|]. case_match; [apply again_raw_ok, uwrap_range; lia|].
  case_match; [split; [by apply Hn, Z.eqb_eq|done]|]. repeat (case_match; [split; [apply uwrap_range; lia|eapply Z.lt_le_trans; [apply uwrap_range|]; lia]|]). done.
Qed.

Section Invariant.
Context (zone_malloc : Z -> bool).
Abbreviation packable := (packable zone_malloc).

(** An object that fits below [below] open containers. *)
Definition item (below : nat) (o : msgpack_object) : Prop := packable o /\ (below + depth o <= 32)%nat.
(** The memory that was asked for [n] elements was there. *)
Definition room (size n : Z) : Prop := n < 2 ^ 32 /\ zone_malloc (n * size) = true.

(** An open container: the elements it has and the [count] it still waits for are together
    those it has memory for. *)
Record frame_ok (below : nat) (c : template_stack) : Prop := mkFrameOk {
  fr_depth : (below < 32)%nat;
  fr_count : 0 < count c;
  fr_items : match ct c with
             | CT_ARRAY_ITEM => exists l, obj c = MSGPACK_OBJECT_ARRAY l /\ room SIZEOF_OBJECT (lenZ l + count c) /\ Forall (item (S below)) l
             | _ => exists l, obj c = MSGPACK_OBJECT_MAP l /\ room SIZEOF_OBJECT_KV (lenZ l + count c) /\ Forall (fun kv => item (S below) kv.1 /\ item (S below) kv.2) l
             end;
  fr_key : ct c = CT_MAP_VALUE -> item (S below) (map_key c);
}.

Fixpoint stack_ok (st : list template_stack) : Prop := match st with [] => True | c :: below => frame_ok (length below) c /\ stack_ok below end.
Definition push_ok (r : push_result) : Prop := match r with PFinish o => item 0 o | PHeaderAgain st => stack_ok st end.

Lemma scalar_item below o : (below <= 32)%nat -> scalar o -> item below o.
Proof. intros Hb [Hp Hd]. split; [|rewrite Hd; lia]. by destruct o. Qed.

Lemma foldr_and {A} (P : A -> Prop) l : Forall P l -> foldr and True (List.map P l).
Proof. by induction 1. Qed.

Lemma foldr_max {A} (g : A -> nat) l n : Forall (fun x => g x <= n)%nat l -> (foldr Nat.max 0 (List.map g l) <= n)%nat.
Proof. induction 1; cbn [foldr List.map]; lia. Qed.

Lemma array_item below l : (below < 32)%nat -> room SIZEOF_OBJECT (lenZ l) -> Forall (item (S below)) l -> item below (MSGPACK_OBJECT_ARRAY l).
Proof.
  intros Hb [Hl Hz] H. split.
  - split; [done|]. split; [done|]. apply foldr_and. eapply List.Forall_impl; [|exact H]. by intros o [].
  - cbn [depth]. assert (foldr Nat.max 0 (List.map depth l) <= 31 - below)%nat; [|lia]. apply foldr_max. eapply List.Forall_impl; [|exact H]. intros o [_ Ho]. lia.
Qed.

Lemma map_item below l : (below < 32)%nat -> room SIZEOF_OBJECT_KV (lenZ l) -> Forall (fun kv => item (S below) kv.1 /\ item (S below) kv.2) l -> item below (MSGPACK_OBJECT_MAP l).
Proof.
  intros Hb [Hl Hz] H. split.
  - split; [done|]. split; [done|]. apply (foldr_and (fun kv => packable kv.1 /\ packable kv.2)). eapply List.Forall_impl; [|exact H]. by intros o [[] []].
  - cbn [depth]. assert (foldr Nat.max 0 (List.map (fun kv => Nat.max (depth kv.1) (depth kv.2)) l) <= 31 - below)%nat; [|lia]. apply foldr_max. eapply List.Forall_impl; [|exact H]. intros kv [[_ H1] [_ H2]]. lia.
Qed.

Lemma push_typed st o : stack_ok st -> item (length st) o -> push_ok (_push o st).
Proof.
  revert o. induction st as [|c st IH]; intros o Hst Ho; [done|]. destruct Hst as [[Hd Hc Hi Hk] Hst]. cbn [_push]. destruct (ct c) eqn:Ect.
  - destruct Hi as (l & -> & Hr & Hl). cbn [template_callback_array_item]. assert (Hl' : Forall (item (S (length st))) (l ++ [o])) by (apply Forall_app; by split; [|constructor]). assert (Hlen : lenZ (l ++ [o]) = lenZ l + 1) by (rewrite length_app; cbn; lia). zcase.
    + apply IH; [done|]. apply array_item; [done| |done]. rewrite Hlen. by replace (lenZ l + 1) with (lenZ l + count c) by lia.
    + split; [|done]. split; cbn [ct count obj]; [done|lia| |done]. exists (l ++ [o]). split; [done|]. split; [|done]. rewrite Hlen. by replace (lenZ l + 1 + (count c - 1)) with (lenZ l + count c) by lia.
  - split; [|done]. by split; cbn [ct count obj map_key].
  - destruct Hi as (l & -> & Hr & Hl). cbn [template_callback_map_item]. assert (Hl' : Forall (fun kv => item (S (length st)) kv.1 /\ item (S (length st)) kv.2) (l ++ [(map_key c, o)])) by (apply Forall_app; split; [done|]; constructor; [split; [by apply Hk|done]|done]).
    assert (Hlen : lenZ (l ++ [(map_key c, o)]) = lenZ l + 1) by (rewrite length_app; cbn; lia). zcase.
    + apply IH; [done|]. apply map_item; [done| |done]. rewrite Hlen. by replace (lenZ l + 1) with (lenZ l + count c) by lia.
    + split; [|done]. split; cbn [ct count obj]; [done|lia| |done]. eexists. split; [done|]. split; [|done]. rewrite Hlen. by replace (lenZ l + 1 + (count c - 1)) with (lenZ l + count c) by lia.
Qed.

Lemma stack_length st : stack_ok st -> (length st <= 32)%nat.
Proof. destruct st as [|c st]; [cbn; lia|]. intros [[Hd _ _ _] _]. cbn. lia. Qed.

Lemma start_typed ct_ n st r : stack_ok st -> 0 <= n < 2 ^ 32 -> start_container zone_malloc ct_ n st = Some r -> push_ok r.
Proof.
  intros Hst Hn. unfold start_container. zcase; [done|]. assert (Hd : (length st < 32)%nat) by (unfold MSGPACK_EMBED_STACK_SIZE in *; lia).
  destruct (template_callback_container zone_malloc ct_ n) as [o|] eqn:Eo; [|done].
  assert (Hfr : 0 < n -> frame_ok (length st) (mk_stack o n ct_ MSGPACK_OBJECT_NIL)).
  { intros Hn0. split; cbn [ct count obj map_key]; [done|done| |intros _; apply scalar_item; [lia|done]]. unfold template_callback_container in Eo. destruct ct_; (case_match; [|done]); injection Eo as <-; exists []; (split; [done|]); (split; [|done]); by split; [cbn; lia|]. }
  zcase; intros [= <-]; [|split; [apply Hfr; lia|done]]. apply push_typed; [done|]. unfold template_callback_container in Eo. subst n.
  destruct ct_; (case_match; [|done]); injection Eo as <-; (apply array_item || apply map_item); done.
Qed.

(** ** The loop *)

(** A state the loop can be in: a raw value that is awaited has a length of 32 bits. *)
Record state_ok (c t : Z) (st : list template_stack) : Prop := mkStateOk {
  so_awaits : awaits c t;
  so_raw : c = ACS_RAW_VALUE -> t < 2 ^ 32;
  so_stack : stack_ok st;
}.
Definition ctx_ok (c : template_context) : Prop := state_ok (cs c) (trail c) (stack c).

(** What [template_execute] leaves: a context it can go on with, or an object. *)
Definition result_ok (r : execute_result) : Prop :=
  if ret r =? 0 then ctx_ok (ctx r) else 0 < ret r -> exists o, template_data (ctx r) = Some o /\ item 0 o.

Lemma header_state t st : stack_ok st -> state_ok CS_HEADER t st.
Proof. intros Hst. by split; [left| |]. Qed.

(** One round, for the continuation [again]. *)
Lemma round_typed again c t st p r :
  (forall c' t' st' p', (length p' < length p)%nat -> state_ok c' t' st' -> again c' t' st' p' = Some r -> result_ok r) ->
  state_ok c t st -> round zone_malloc again c t st p = Some r -> result_ok r.
Proof.
  intros IH Hs Hr. pose proof Hs as [Haw Hraw Hst]. unfold round in Hr.
  assert (Hpush : forall q t' pe, (length pe < length p)%nat -> push_ok q ->
    match q with PFinish o => Some (mk_result 1 (mk_context c t' [] (Some o)) pe) | PHeaderAgain st' => again CS_HEADER t' st' pe end = Some r -> result_ok r).
  { intros [o|st'] t' pe Hpe Hq E; [injection E as <-; intros _; by exists o|]. by apply (IH CS_HEADER t' st' pe Hpe), E; apply header_state. }
  assert (Hgo : forall a cur pe, (length pe < length p)%nat -> action_ok a -> action_awaits a = true ->
    match a with
    | APush o => match _push o st with PFinish o => Some (mk_result 1 (mk_context c t [] (Some o)) pe) | PHeaderAgain st' => again CS_HEADER t st' pe end
    | ARawZero => match _push (template_callback_raw []) st with PFinish o => Some (mk_result 1 (mk_context c 0 [] (Some o)) pe) | PHeaderAgain st' => again CS_HEADER 0 st' pe end
    | AFixedTrail c' t' => again c' t' st pe
    | AStart ct_ n => match start_container zone_malloc ct_ n st with None => Some (mk_result (-1) (mk_context c t st None) cur) | Some q => match q with PFinish o => Some (mk_result 1 (mk_context c t [] (Some o)) pe) | PHeaderAgain st' => again CS_HEADER t st' pe end end
    | AFailed => Some (mk_result (-1) (mk_context c t st None) cur)
    end = Some r -> result_ok r).
  { pose proof (stack_length st Hst) as Hlen. intros a cur pe Hpe Ha Haa E. destruct a as [o| |c' t'|ct_ n|]; cbn in Haa.
    - refine (Hpush _ _ _ Hpe _ E). apply push_typed; [done|]. apply scalar_item; [done|exact Ha].
    - refine (Hpush _ _ _ Hpe _ E). apply push_typed; [done|]. by apply scalar_item.
    - apply (IH c' t' st pe Hpe); [split; [right; lia|exact Ha|done]|done].
    - destruct (start_container zone_malloc ct_ n st) as [q|] eqn:Eq; [|injection E as <-; cbn; lia]. eapply Hpush; [exact Hpe|by apply (start_typed ct_ n st)|exact E].
    - injection E as <-. cbn. lia. }
  destruct (Z.eqb_spec c CS_HEADER) as [->|Hc].
  - destruct p as [|b pe]; [injection Hr as <-; exact Hs|]. eapply (Hgo (header_action b)); [|apply header_action_ok|apply header_awaits|exact Hr]. cbn. lia.
  - destruct Haw as [|Ht]; [done|]. destruct (Z.ltb_spec (lenZ p) t) as [Hl|Hl]; [injection Hr as <-; exact Hs|].
    eapply (Hgo (value_action c (take (Z.to_nat t) p))); [| |apply value_awaits|exact Hr]; [rewrite length_drop; lia|]. apply value_action_ok. intros E%Hraw. rewrite length_take. lia.
Qed.

Lemma run_typed c t st p r : state_ok c t st -> run zone_malloc c t st p = Some r -> result_ok r.
Proof.
  revert c t st. induction p as [p IH] using run_ind. intros c t st Hs Hr. rewrite run_round in Hr by apply Hs. apply (round_typed (run zone_malloc) c t st p r); [|done|done]. intros c' t' st' p' Hp'. by apply IH.
Qed.

(** C5: whatever bytes it is given, in one piece or in many, the parser only builds objects
    that their type can hold.  From a context that [template_init] or an earlier call left,
    [template_execute] leaves one that it can go on with, in which every open container has
    memory for exactly the elements it has and those it waits for; or an object whose
    integers, lengths and elements are in the range of their C types, for whose arrays and
    maps as much memory was there as they have elements, and which is at most 32 deep, so
    that packing it gives bytes that are read back as the same object. *)
Theorem execute_typed c p :
  ctx_ok c -> exists r, template_execute zone_malloc c p = Some r
  /\ (ret r = 0 -> ctx_ok (ctx r))
  /\ (0 < ret r -> exists o, template_data (ctx r) = Some o /\ packable o /\ (depth o <= 32)%nat
       /\ forall pre post, msgpack_unpack_next zone_malloc (pre ++ msgpack_pack_object o ++ post) (lenZ pre) = Some (o, lenZ pre + lenZ (msgpack_pack_object o))).
Proof.
  intros Hc. destruct p as [|x p]; [by eexists|]. destruct (run_total zone_malloc (cs c) (trail c) (stack c) (x :: p)) as [r Hr]; [apply Hc|]. exists r. rewrite template_execute_run by done. split; [done|].
  pose proof (run_typed _ _ _ _ _ Hc Hr) as H. unfold result_ok in H. destruct (Z.eqb_spec (ret r) 0) as [E|E]; [by split; [|lia]|]. split; [done|]. intros (o & Ho & Hp & Hd)%H. exists o. split_and!; [done|done|lia|]. intros pre post. apply unpack_next_packed; [done|lia].
Qed.
End Invariant.

Lemma init_typed zone_malloc : ctx_ok zone_malloc template_init.
Proof. by apply header_state. Qed.

Lemma execute_typed_witness : exists r, template_execute (fun _ => true) template_init [0x92; 0x81; 0xa1; 97; 0xff; 0xca; 63; 128; 0; 0; 7] = Some r /\ rest r = [7] /\
  exists o, template_data (ctx r) = Some o /\ packable (fun _ => true) o /\ msgpack_unpack_next (fun _ => true) (msgpack_pack_object o) 0 = Some (o, 14).
Proof.
  destruct (execute_typed (fun _ => true) template_init [0x92; 0x81; 0xa1; 97; 0xff; 0xca; 63; 128; 0; 0; 7] (init_typed _)) as (r & Hr & _ & H). exists r. split; [exact Hr|].
  vm_compute in Hr. injection Hr as <-. split; [reflexivity|]. destruct H as (o & Ho & Hp & _ & H); [reflexivity|]. exists o. split; [exact Ho|]. split; [exact Hp|]. specialize (H [] []). rewrite app_nil_r in H. cbn [app] in H. injection Ho as <-. exact H.
Defined.
End Typed.
