(* ===== verification/MsgStream.v ===== *)
(** * The streaming unpacker of MessagePack

    [msgpack_unpacker] of src/ext/msgpack-c/src/unpack.c and
    include/msgpack/unpack.h: a buffer that is filled in pieces, and from which
    objects are taken one by one.  The objects point into the buffer, so that a
    buffer is shared by the unpacker and the memory zones of the objects and is
    freed by the last of them; the counter that does so is modelled, with the
    finalizers of the zones.  The parser itself is that of [MsgUnpack]. *)

From Stdlib Require Import ZArith Lia.
From stdpp Require Import base list gmap numbers option.
From S2P Require Import Prelude MsgPack MsgUnpack.
Import Unpack.
Open Scope Z_scope.
Open Scope webapp_scope.

(** [sizeof(_msgpack_atomic_counter_t)] *)
Definition COUNTER_SIZE : Z := 4.

(** The buffers that are allocated, with their counters. *)
Abbreviation counters := (gmap nat Z).

(** [decl_count] and [incr_count]; [None] for a buffer that was freed. *)
Definition decl_count (b : nat) (m : counters) : option counters :=
  let* c := m !! b in Some (if c - 1 =? 0 then delete b m else <[b := c - 1]> m).
Definition incr_count (b : nat) (m : counters) : option counters :=
  let* c := m !! b in Some (<[b := c + 1]> m).

(** [msgpack_zone_free] runs the finalizers: each gives up a buffer. *)
Fixpoint zone_free (z : list nat) (m : counters) : option counters :=
  match z with
  | [] => Some m
  | b :: z => let* m' := decl_count b m in zone_free z m'
  end.

(** [buffer] has [used + free] bytes; [zone] and [result_zone] are the buffers the
    zone of the unpacker and that of the last result hold on to; [id] names the
    buffer. *)
Record msgpack_unpacker := mkUnpacker {
  buffer : list Z; used : Z; free : Z; off : Z; parsed : Z; initial_buffer_size : Z;
  uctx : template_context; referenced : bool;
  id : nat; next_id : nat; counts : counters; zone : list nat; result_zone : list nat }.

Section Unpacker.
(** Whether [malloc] of that size succeeds, what fresh memory holds, and the
    memory of the parser. *)
Variables (malloc : Z -> bool) (junk : Z -> Z) (zone_malloc : Z -> bool).

Definition fresh (n : Z) : list Z := List.map junk (seqZ 0 n).

(** [others_ok]: the context and the zone were allocated. *)
Definition msgpack_unpacker_init (size : Z) (others_ok : bool) : option msgpack_unpacker :=
  let size := if size <? COUNTER_SIZE then COUNTER_SIZE else size in
  if malloc size && others_ok then
    Some (mkUnpacker (fresh size) COUNTER_SIZE (size - COUNTER_SIZE) COUNTER_SIZE 0 size
            template_init false 0 1 {[0%nat := 1]} [] [])
  else None.

(** [while(next_size < need) next_size *= 2]: 64 rounds leave a 64-bit word. *)
Fixpoint grow (fuel : nat) (next_size need : Z) : option Z :=
  if next_size <? need
  then match fuel with O => None | S fuel => grow fuel (u64 (next_size * 2)) need end
  else Some next_size.

Definition set_space (m : msgpack_unpacker) (b : list Z) (u f o : Z) : msgpack_unpacker :=
  mkUnpacker b u f o (parsed m) (initial_buffer_size m) (uctx m) (referenced m)
    (id m) (next_id m) (counts m) (zone m) (result_zone m).

Definition rewind (m : msgpack_unpacker) : msgpack_unpacker :=
  if (used m =? off m) && bool_decide (counts m !! id m = Some 1) && negb (referenced m)
  then set_space m (buffer m) COUNTER_SIZE (u64 (free m + (used m - COUNTER_SIZE))) COUNTER_SIZE
  else m.

(** The buffer is made larger where it is: nothing of it was parsed. *)
Definition expand_realloc (m : msgpack_unpacker) (size : Z) : option (bool * msgpack_unpacker) :=
  let* next_size := grow 64 (u64 ((used m + free m) * 2)) (u64 (size + used m)) in
  if malloc next_size then
    let b := buffer m ++ drop (length (buffer m)) (fresh next_size) in
    Some (true, set_space m (take (Z.to_nat next_size) b) (used m) (u64 (next_size - used m)) (off m))
  else Some (false, m).

(** A new buffer gets what was not parsed; the old one stays with the zone if
    objects point into it. [None]: out of bounds, or an endless loop. *)
Definition expand_move (m : msgpack_unpacker) (size : Z) (finalizer_ok : bool)
  : option (bool * msgpack_unpacker) :=
  let not_parsed := u64 (used m - off m) in
  let* next_size := grow 64 (initial_buffer_size m) (u64 (size + not_parsed + COUNTER_SIZE)) in
  if malloc next_size then
    let* b := write_at COUNTER_SIZE (read_at (off m) not_parsed (buffer m)) (fresh next_size) in
    if referenced m && negb finalizer_ok then Some (false, m)
    else
      let* c := if referenced m then Some (counts m) else decl_count (id m) (counts m) in
      let u := not_parsed + COUNTER_SIZE in
      Some (true, mkUnpacker b u (u64 (next_size - u)) COUNTER_SIZE (parsed m)
              (initial_buffer_size m) (uctx m) false (next_id m) (S (next_id m))
              (<[next_id m := 1]> c)
              (if referenced m then id m :: zone m else zone m) (result_zone m))
  else Some (false, m).

Definition msgpack_unpacker_expand_buffer (m : msgpack_unpacker) (size : Z) (finalizer_ok : bool)
  : option (bool * msgpack_unpacker) :=
  let m' := rewind m in
  if (off m =? used m) && bool_decide (counts m !! id m = Some 1) && negb (referenced m)
     && (size <=? free m')
  then Some (true, m')
  else if off m' =? COUNTER_SIZE then expand_realloc m' size
  else expand_move m' size finalizer_ok.

Definition msgpack_unpacker_reserve_buffer (m : msgpack_unpacker) (size : Z) (finalizer_ok : bool)
  : option (bool * msgpack_unpacker) :=
  if size <=? free m then Some (true, m) else msgpack_unpacker_expand_buffer m size finalizer_ok.

(** The caller copies [bs] to [msgpack_unpacker_buffer] and then calls
    [msgpack_unpacker_buffer_consumed]; [None] when the copy leaves the buffer. *)
Definition fill_buffer (m : msgpack_unpacker) (bs : list Z) : option msgpack_unpacker :=
  let* b := write_at (used m) bs (buffer m) in
  Some (set_space m b (u64 (used m + lenZ bs)) (u64 (free m - lenZ bs)) (off m)).

(** What is in the buffer and was not parsed. *)
Definition unread (m : msgpack_unpacker) : list Z := read_at (off m) (used m - off m) (buffer m).

(** [met_raw]: the parser met a raw object, which points into the buffer. *)
Definition msgpack_unpacker_execute (m : msgpack_unpacker) (met_raw : bool)
  : option (Z * msgpack_unpacker) :=
  let* r := template_execute zone_malloc (uctx m) (unread m) in
  let off' := used m - lenZ (rest r) in
  Some (ret r, mkUnpacker (buffer m) (used m) (free m) off'
                 (if off m <? off' then u64 (parsed m + (off' - off m)) else parsed m)
                 (initial_buffer_size m) (ctx r) (referenced m || met_raw)
                 (id m) (next_id m) (counts m) (zone m) (result_zone m)).

Definition msgpack_unpacker_flush_zone (m : msgpack_unpacker) (finalizer_ok : bool)
  : option (bool * msgpack_unpacker) :=
  if referenced m then
    if finalizer_ok then
      let* c := incr_count (id m) (counts m) in
      Some (true, mkUnpacker (buffer m) (used m) (free m) (off m) (parsed m) (initial_buffer_size m)
                    (uctx m) false (id m) (next_id m) c (id m :: zone m) (result_zone m))
    else Some (false, m)
  else Some (true, m).

(** The zone goes to the result, whose own zone is empty by then. *)
Definition msgpack_unpacker_release_zone (m : msgpack_unpacker) (finalizer_ok zone_ok : bool)
  : option msgpack_unpacker :=
  let* x := msgpack_unpacker_flush_zone m finalizer_ok in
  if x.1 && zone_ok then
    let m' := x.2 in
    Some (mkUnpacker (buffer m') (used m') (free m') (off m') (parsed m') (initial_buffer_size m')
            (uctx m') (referenced m') (id m') (next_id m') (counts m') [] (zone m'))
  else Some x.2.

Definition msgpack_unpacker_reset (m : msgpack_unpacker) : msgpack_unpacker :=
  mkUnpacker (buffer m) (used m) (free m) (off m) 0 (initial_buffer_size m) template_init (referenced m)
    (id m) (next_id m) (counts m) (zone m) (result_zone m).

(** The result's zone is freed first. *)
Definition free_result (m : msgpack_unpacker) : option msgpack_unpacker :=
  let* c := zone_free (result_zone m) (counts m) in
  Some (mkUnpacker (buffer m) (used m) (free m) (off m) (parsed m) (initial_buffer_size m) (uctx m)
          (referenced m) (id m) (next_id m) c (zone m) []).

Definition msgpack_unpacker_next (m : msgpack_unpacker) (met_raw finalizer_ok zone_ok : bool)
  : option (option msgpack_object * msgpack_unpacker) :=
  let* m0 := free_result m in
  let* x := msgpack_unpacker_execute m0 met_raw in
  if x.1 <=? 0 then Some (None, x.2)
  else
    let* m1 := msgpack_unpacker_release_zone x.2 finalizer_ok zone_ok in
    Some (template_data (uctx m1), msgpack_unpacker_reset m1).

(** [msgpack_unpacker_destroy]: the buffers left. *)
Definition msgpack_unpacker_destroy (m : msgpack_unpacker) : option counters :=
  let* c := zone_free (zone m) (counts m) in decl_count (id m) c.

(** ** Use of the unpacker *)

(** A caller that has received [bs]: it reserves room and, if there is, fills it. *)
Definition feed (m : msgpack_unpacker) (bs : list Z) (finalizer_ok : bool) : option msgpack_unpacker :=
  let* x := msgpack_unpacker_reserve_buffer m (lenZ bs) finalizer_ok in
  if x.1 then fill_buffer x.2 bs else Some x.2.

Inductive op := OFeed (bs : list Z) (finalizer_ok : bool) | ONext (met_raw finalizer_ok zone_ok : bool).

Definition exec_op (m : msgpack_unpacker) (o : op) : option msgpack_unpacker :=
  match o with
  | OFeed bs f => feed m bs f
  | ONext r f z => let* x := msgpack_unpacker_next m r f z in Some x.2
  end.
Fixpoint exec_ops (m : msgpack_unpacker) (os : list op) : option msgpack_unpacker :=
  match os with
  | [] => Some m
  | o :: os => let* m' := exec_op m o in exec_ops m' os
  end.

(** Takes objects until there is none; [raws] says of each call whether it met
    a raw object. *)
Fixpoint drain (fuel : nat) (raws : nat -> bool) (m : msgpack_unpacker)
  : option (list msgpack_object * msgpack_unpacker) :=
  match fuel with
  | O => None
  | S fuel =>
      let* x := msgpack_unpacker_next m (raws fuel) true true in
      match x.1 with
      | None => Some ([], x.2)
      | Some o => let* y := drain fuel raws x.2 in Some (o :: y.1, y.2)
      end
  end.

(** Feeds the chunks, and takes what objects there are after each. *)
Fixpoint stream (raws : nat -> bool) (m : msgpack_unpacker) (chunks : list (list Z))
  : option (list msgpack_object * msgpack_unpacker) :=
  match chunks with
  | [] => Some ([], m)
  | c :: chunks =>
      let* m1 := feed m c true in
      let* x := drain (S (length (unread m1))) raws m1 in
      let* y := stream raws x.2 chunks in
      Some (x.1 ++ y.1, y.2)
  end.
End Unpacker.

(** ** The buffers *)

(** How many references to [b] are in a list. *)
Fixpoint occ (b : nat) (l : list nat) : Z :=
  match l with [] => 0 | x :: l => (if decide (x = b) then 1 else 0) + occ b l end.

Lemma occ_nonneg b l : 0 <= occ b l.
Proof. induction l; simpl; [lia|]. case_decide; lia. Qed.

Lemma occ_app b l l' : occ b (l ++ l') = occ b l + occ b l'.
Proof. induction l; simpl; [done|]. lia. Qed.

#[export] Instance occ_proper b : Proper ((≡ₚ) ==> (=)) (occ b).
Proof. induction 1; simpl; lia. Qed.

Lemma occ_out b l : b ∉ l -> occ b l = 0.
Proof.
  induction l as [|x l IH]; simpl; [done|]. intros [? ?]%not_elem_of_cons.
  rewrite decide_False by done. by apply IH.
Qed.

Lemma occ_in b l : b ∈ l -> 1 <= occ b l.
Proof.
  induction l as [|x l IH]; simpl; [by intros ?%not_elem_of_nil|]. pose proof (occ_nonneg b l).
  intros [<-|?]%elem_of_cons; [rewrite decide_True by done; lia|]. specialize (IH ltac:(done)).
  case_decide; lia.
Qed.

(** The counters count the references. *)
Definition counted (m : counters) (refs : list nat) : Prop :=
  forall b, m !! b = if occ b refs =? 0 then None else Some (occ b refs).

#[export] Instance counted_proper m : Proper ((≡ₚ) ==> iff) (counted m).
Proof.
  intros l l' H. split; intros Hc b; [rewrite <- (occ_proper b l l' H)|rewrite (occ_proper b l l' H)]; apply Hc.
Qed.

Lemma decl_counted b m refs :
  counted m (b :: refs) -> exists m', decl_count b m = Some m' /\ counted m' refs.
Proof.
  intros H. pose proof (occ_nonneg b refs). pose proof (H b) as Hb. simpl in Hb.
  rewrite decide_True in Hb by done. rewrite (proj2 (Z.eqb_neq _ _)) in Hb by lia.
  unfold decl_count. rewrite Hb. eexists. split; [done|].
  replace (1 + occ b refs - 1) with (occ b refs) by lia.
  intros x. specialize (H x). simpl in H. destruct (decide (b = x)) as [<-|Hne].
  - destruct (Z.eqb_spec (occ b refs) 0); [apply lookup_delete_eq|apply lookup_insert_eq].
  - destruct (occ b refs =? 0); [rewrite lookup_delete_ne by done|rewrite lookup_insert_ne by done]; done.
Qed.

Lemma incr_counted b m refs :
  counted m refs -> b ∈ refs -> exists m', incr_count b m = Some m' /\ counted m' (b :: refs).
Proof.
  intros H Hin. apply occ_in in Hin. pose proof (H b) as Hb.
  rewrite (proj2 (Z.eqb_neq _ _)) in Hb by lia. unfold incr_count. rewrite Hb. eexists. split; [done|].
  intros x. specialize (H x). simpl. destruct (decide (b = x)) as [<-|Hne].
  - rewrite lookup_insert_eq, (proj2 (Z.eqb_neq _ _)) by lia. f_equal. lia.
  - by rewrite lookup_insert_ne.
Qed.

Lemma zone_free_counted z : forall m refs,
  counted m (z ++ refs) -> exists m', zone_free z m = Some m' /\ counted m' refs.
Proof.
  induction z as [|b z IH]; intros m refs H; simpl; [eauto|].
  destruct (decl_counted b m (z ++ refs) H) as (m' & -> & H'). by apply IH.
Qed.

Lemma new_counted b m refs : counted m refs -> b ∉ refs -> counted (<[b := 1]> m) (b :: refs).
Proof.
  intros H Hb x. simpl. destruct (decide (b = x)) as [<-|Hne].
  - by rewrite lookup_insert_eq, (occ_out _ _ Hb).
  - rewrite lookup_insert_ne by done. apply H.
Qed.

(** ** The space *)

Lemma grow_spec fuel : forall next need,
  0 < next -> need <= next * 2 ^ Z.of_nat fuel -> need <= 2 ^ 62 ->
  exists n, grow fuel next need = Some n /\ need <= n /\ next <= n /\ (n = next \/ n < 2 * need).
Proof.
  induction fuel as [|fuel IH]; intros next need Hn Hf Hb; simpl grow.
  { rewrite (proj2 (Z.ltb_ge next need)) by lia. exists next. split_and!; auto; lia. }
  destruct (Z.ltb_spec next need); [|exists next; split_and!; auto; lia].
  rewrite (uwrap_small 64 (next * 2)) by lia.
  destruct (IH (next * 2) need) as (n & -> & ? & ? & ?); [lia| |done|].
  { rewrite Nat2Z.inj_succ, Z.pow_succ_r in Hf by lia. lia. }
  exists n. split_and!; [done|lia|lia|]. right. destruct H2; lia.
Qed.

Lemma grow_64 next need :
  0 < next -> need <= 2 ^ 62 ->
  exists n, grow 64 next need = Some n /\ need <= n /\ next <= n /\ (n = next \/ n < 2 * need).
Proof. intros. apply grow_spec; [done| |done]. change (2 ^ Z.of_nat 64) with (2 ^ 64). lia. Qed.

(** After [fed] bytes: the indices, the size of the buffer, the references. *)
Record space_ok (fed : Z) (m : msgpack_unpacker) : Prop := {
  sp_off : COUNTER_SIZE <= off m <= used m;
  sp_free : 0 <= free m;
  sp_len : used m + free m = lenZ (buffer m);
  sp_used : used m <= COUNTER_SIZE + fed;
  sp_cap : lenZ (buffer m) <= Z.max (initial_buffer_size m) (2 * (COUNTER_SIZE + fed));
  sp_init : COUNTER_SIZE <= initial_buffer_size m <= 2 ^ 60;
  sp_fed : 0 <= fed <= 2 ^ 60 }.

Definition refs_ok (m : msgpack_unpacker) : Prop :=
  let refs := id m :: zone m ++ result_zone m in
  counted (counts m) refs /\ Forall (fun b => (b < next_id m)%nat) refs.

(** The same parse: the objects to come are the same. *)
Definition same_parse (m m' : msgpack_unpacker) : Prop :=
  unread m' = unread m /\ uctx m' = uctx m /\ initial_buffer_size m' = initial_buffer_size m.

Lemma read_at_length o n (b : list Z) : 0 <= o -> 0 <= n -> o + n <= lenZ b -> lenZ (read_at o n b) = n.
Proof. intros. unfold read_at. rewrite length_take, length_drop. lia. Qed.

Lemma read_at_app o n (b c : list Z) : 0 <= o -> 0 <= n -> o + n <= lenZ b -> read_at o n (b ++ c) = read_at o n b.
Proof.
  intros. unfold read_at. rewrite drop_app_le by lia. rewrite take_app_le; [done|]. rewrite length_drop. lia.
Qed.

Section Space.
Variables (malloc : Z -> bool) (junk : Z -> Z).

Lemma fresh_length n : 0 <= n -> lenZ (fresh junk n) = n.
Proof. intros. unfold fresh. rewrite List.length_map, length_seqZ. lia. Qed.

Lemma rewind_ok fed m :
  space_ok fed m -> refs_ok m ->
  space_ok fed (rewind m) /\ refs_ok (rewind m) /\ same_parse m (rewind m) /\
  used (rewind m) <= used m.
Proof.
  intros S R. unfold rewind. destruct (Z.eqb_spec (used m) (off m)) as [E|]; simpl; [|by split_and!].
  destruct (bool_decide _ && _); [|by split_and!]. destruct S. unfold COUNTER_SIZE in *.
  split; [|split; [done|split; [|simpl; unfold COUNTER_SIZE; lia]]].
  - rewrite (uwrap_small 64 (free m + (used m - 4))) by lia. split; simpl; unfold COUNTER_SIZE; try lia.
  - unfold same_parse, unread, read_at. simpl. rewrite E, !Z.sub_diag. done.
Qed.

Lemma expand_realloc_ok fed m size :
  space_ok fed m -> refs_ok m -> free m < size -> fed + size <= 2 ^ 60 ->
  exists ok m', expand_realloc malloc junk m size = Some (ok, m') /\
    space_ok (fed + size) m' /\ refs_ok m' /\ same_parse m m' /\ used m' <= used m /\ (ok = true -> size <= free m') /\
    ((forall n, malloc n = true) -> ok = true).
Proof.
  intros [] R Hs Hb. unfold expand_realloc. unfold COUNTER_SIZE in *.
  rewrite (uwrap_small 64 ((used m + free m) * 2)), (uwrap_small 64 (size + used m)) by lia.
  destruct (grow_64 ((used m + free m) * 2) (size + used m)) as (n & -> & ? & ? & Hn); [lia..|].
  destruct (malloc n) eqn:Em.
  2:{ exists false, m. split_and!; [done| |done..|intros Hm; by rewrite Hm in Em].
      split; unfold COUNTER_SIZE; lia. }
  exists true. eexists. split; [reflexivity|].
  assert (length (buffer m ++ drop (length (buffer m)) (fresh junk n)) = Z.to_nat n) as Hlen.
  { rewrite length_app, length_drop. pose proof (fresh_length n ltac:(lia)). lia. }
  rewrite (uwrap_small 64 (n - used m)) by lia. rewrite take_ge by lia.
  split_and!; [|done| |simpl; lia..|done].
  - split; simpl; unfold COUNTER_SIZE; try lia.
  - split; [|done]. unfold unread. simpl. apply read_at_app; lia.
Qed.

Lemma expand_move_ok fed m size fin :
  space_ok fed m -> refs_ok m -> 0 <= size -> fed + size <= 2 ^ 60 ->
  exists ok m', expand_move malloc junk m size fin = Some (ok, m') /\
    space_ok (fed + size) m' /\ refs_ok m' /\ same_parse m m' /\ used m' <= used m /\ (ok = true -> size <= free m') /\
    ((forall n, malloc n = true) -> fin = true -> ok = true).
Proof.
  intros S [Rc Rn] Hs Hb. pose proof S as []. unfold expand_move. unfold COUNTER_SIZE in *.
  rewrite (uwrap_small 64 (used m - off m)), (uwrap_small 64 (size + (used m - off m) + 4)) by lia.
  destruct (grow_64 (initial_buffer_size m) (size + (used m - off m) + 4)) as (n & -> & ? & ? & Hn); [lia..|].
  assert (space_ok (fed + size) m) as S' by (split; unfold COUNTER_SIZE; lia).
  destruct (malloc n) eqn:Em.
  2:{ exists false, m. split_and!; [done..|intros Hm; by rewrite Hm in Em]. }
  assert (lenZ (read_at (off m) (used m - off m) (buffer m)) = used m - off m) as Hr
    by (apply read_at_length; lia).
  pose proof (fresh_length n ltac:(lia)) as Hfr.
  destruct (write_at 4 (read_at (off m) (used m - off m) (buffer m)) (fresh junk n)) as [b|] eqn:Ew.
  2:{ apply write_at_None_iff in Ew. lia. }
  destruct (referenced m && negb fin) eqn:Ef.
  { exists false, m. split_and!; [done..|]. intros _ ->. by rewrite andb_false_r in Ef. }
  assert (exists c, (if referenced m then Some (counts m) else decl_count (id m) (counts m)) = Some c /\
    counted c ((if referenced m then id m :: zone m else zone m) ++ result_zone m)) as (c & -> & Hc).
  { destruct (referenced m); [by exists (counts m)|]. by apply decl_counted. }
  exists true. eexists. split; [reflexivity|].
  apply write_at_length in Ew as Hbl. rewrite (uwrap_small 64 (n - (used m - off m + 4))) by lia.
  split_and!; [| | |simpl; lia..|done].
  - split; simpl; unfold COUNTER_SIZE; try lia.
  - assert (Forall (fun x => (x < next_id m)%nat)
      ((if referenced m then id m :: zone m else zone m) ++ result_zone m)) as Hf.
    { destruct (referenced m); [done|by apply Forall_cons_1 in Rn as [_ ?]]. }
    split; simpl.
    + apply new_counted; [done|]. intros Hin. pose proof (Forall_elem _ _ _ Hf Hin). simpl in *. lia.
    + constructor; [lia|]. eapply List.Forall_impl; [|exact Hf]. simpl. lia.
  - split; [|done]. unfold unread. simpl. replace (used m - off m + 4 - 4) with (used m - off m) by lia.
    apply write_at_inv in Ew as (_ & _ & ->). unfold read_at at 1.
    rewrite drop_app_length' by (rewrite length_take; lia). apply take_app_length'. lia.
Qed.

Lemma reserve_ok fed m size fin :
  space_ok fed m -> refs_ok m -> 0 <= size -> fed + size <= 2 ^ 60 ->
  exists ok m', msgpack_unpacker_reserve_buffer malloc junk m size fin = Some (ok, m') /\
    space_ok (fed + size) m' /\ refs_ok m' /\ same_parse m m' /\ used m' <= used m /\ (ok = true -> size <= free m') /\
    ((forall n, malloc n = true) -> fin = true -> ok = true).
Proof.
  intros S R Hs Hb. unfold msgpack_unpacker_reserve_buffer.
  assert (forall m', space_ok fed m' -> space_ok (fed + size) m') as Hmono by (intros m' []; split; lia).
  destruct (Z.leb_spec size (free m)); [exists true, m; split_and!; try done; auto|].
  unfold msgpack_unpacker_expand_buffer. destruct (rewind_ok fed m S R) as (S' & R' & P' & U').
  destruct (_ && (size <=? free (rewind m))) eqn:E.
  { apply andb_prop in E as [_ E%Z.leb_le]. exists true, (rewind m). split_and!; try done; auto. }
  assert (forall m', same_parse (rewind m) m' -> same_parse m m') as Htr.
  { unfold same_parse. intros m' (? & ? & ?). destruct P' as (? & ? & ?). split_and!; congruence. }
  destruct (Z.eqb_spec (off (rewind m)) COUNTER_SIZE).
  - destruct (decide (free (rewind m) < size)) as [Hf|Hf].
    + destruct (expand_realloc_ok fed (rewind m) size) as (ok & m' & -> & ? & ? & ? & ? & ? & ?); try done.
      exists ok, m'. split_and!; auto. lia.
    + exfalso. unfold rewind in *. destruct (Z.eqb_spec (used m) (off m)) as [Eu|]; simpl in *; [|lia].
      rewrite (proj2 (Z.eqb_eq (off m) (used m)) (eq_sym Eu)) in E. simpl in E. destruct (bool_decide _ && _); simpl in *; [|lia].
      apply Z.leb_gt in E. lia.
  - destruct (expand_move_ok fed (rewind m) size fin) as (ok & m' & -> & ? & ? & ? & ? & ? & ?); try done.
    exists ok, m'. split_and!; auto. lia.
Qed.

Lemma feed_ok fed m bs fin :
  space_ok fed m -> refs_ok m -> fed + lenZ bs <= 2 ^ 60 ->
  exists m', feed malloc junk m bs fin = Some m' /\ space_ok (fed + lenZ bs) m' /\ refs_ok m' /\
    uctx m' = uctx m /\
    ((forall n, malloc n = true) -> fin = true -> unread m' = unread m ++ bs).
Proof.
  intros S R Hb. unfold feed.
  destruct (reserve_ok fed m (lenZ bs) fin S R ltac:(lia) Hb) as (ok & m1 & -> & S1 & R1 & P1 & U1 & Hok & Hall).
  pose proof (sp_used _ _ S) as Hu.
  simpl. destruct ok.
  2:{ exists m1. split_and!; [done..|apply P1|]. intros Hm Hf. by specialize (Hall Hm Hf). }
  destruct S1. specialize (Hok eq_refl). unfold fill_buffer, COUNTER_SIZE in *.
  rewrite write_at_Some by lia.
  eexists. split; [reflexivity|]. unfold set_space.
  assert (length (take (Z.to_nat (used m1)) (buffer m1) ++ bs
    ++ drop (Z.to_nat (used m1) + length bs) (buffer m1)) = length (buffer m1)) as Hlen
    by (rewrite !length_app, length_take, length_drop; lia).
  rewrite (uwrap_small 64 (used m1 + lenZ bs)), (uwrap_small 64 (free m1 - lenZ bs)) by lia.
  split_and!; [| done|apply P1|].
  - split; simpl; unfold COUNTER_SIZE; try lia.
  - intros _ _. destruct P1 as (<- & _). unfold unread, read_at. simpl.
    rewrite drop_app_le by (rewrite length_take; lia). rewrite skipn_firstn_comm, app_assoc.
    rewrite take_app_length' by (rewrite length_app, length_take, length_drop; lia). f_equal. f_equal. lia.
Qed.
End Space.

(** ** The parse *)

Section Parse.
Context (zone_malloc : Z -> bool).
Abbreviation run := (run zone_malloc).

(** The parser leaves an end of its input, and a state it can go on from. *)
Lemma run_leaves c t st p r :
  awaits c t -> run c t st p = Some r ->
  rest r `suffix_of` p /\ (ret r <= 0 -> awaits (cs (ctx r)) (trail (ctx r))).
Proof.
  revert c t st r. induction p as [p IH] using run_ind. intros c t st r Haw Hr.
  rewrite run_round in Hr by done. unfold round in Hr.
  assert (forall c' t' st' k, (length (drop k p) < length p)%nat -> awaits c' t' ->
    run c' t' st' (drop k p) = Some r ->
    rest r `suffix_of` p /\ (ret r <= 0 -> awaits (cs (ctx r)) (trail (ctx r)))) as Hgo.
  { intros c' t' st' k Hk Haw' E. destruct (IH _ Hk c' t' st' r Haw' E) as [Hs ?]. split; [|done].
    etrans; [exact Hs|]. apply suffix_drop. }
  destruct (Z.eqb_spec c CS_HEADER) as [->|Hc].
  - destruct p as [|b pe]; [by injection Hr as <-|]. pose proof (header_awaits b) as Ha.
    change pe with (drop 1 (b :: pe)) in Hr.
    destruct (header_action b) eqn:E; simpl in Ha; repeat case_match; simplify_eq;
      try (split; [first [apply suffix_drop|done]|simpl; (done || lia)]);
      (eapply Hgo; [|..|exact Hr]; [rewrite length_drop; simpl; lia|]); (by left) || (right; lia).
  - pose proof Haw as [?|Ht]; [done|].
    destruct (Z.ltb_spec (lenZ p) t) as [Hl|Hl]; [by injection Hr as <-|].
    set (n := take _ p) in *. pose proof (value_awaits c n) as Ha.
    destruct (value_action c n) eqn:E; simpl in Ha; repeat case_match; simplify_eq;
      try (split; [apply suffix_drop|simpl; (done || lia)]);
      (eapply Hgo; [|..|exact Hr]; [rewrite length_drop; lia|]); (by left) || (right; lia).
Qed.

Lemma template_execute_leaves c p :
  awaits (cs c) (trail c) ->
  exists r, template_execute zone_malloc c p = Some r /\ rest r `suffix_of` p /\
    (ret r <= 0 -> awaits (cs (ctx r)) (trail (ctx r))).
Proof.
  intros Haw. destruct p as [|x p]; [by exists (mk_result 0 c [])|].
  destruct (run_total zone_malloc (cs c) (trail c) (stack c) (x :: p) Haw) as [r Hr].
  exists r. split; [exact Hr|]. by apply (run_leaves _ _ _ _ _ Haw Hr).
Qed.

(** What the unpacker stands for: it can go on, in its buffers. *)
Record unpacker_ok (fed : Z) (m : msgpack_unpacker) : Prop := {
  ok_space : space_ok fed m;
  ok_refs : refs_ok m;
  ok_awaits : awaits (cs (uctx m)) (trail (uctx m)) }.

Lemma unread_suffix m fed l :
  space_ok fed m -> l `suffix_of` unread m ->
  off m <= used m - lenZ l /\ read_at (used m - lenZ l) (lenZ l) (buffer m) = l.
Proof.
  intros [] [k Hk]. unfold COUNTER_SIZE in *.
  assert (lenZ (unread m) = used m - off m) as Hl by (apply read_at_length; lia).
  pose proof Hl as Hl'. rewrite Hk, length_app in Hl'. split; [lia|].
  assert (l = drop (length k) (unread m)) as E by (by rewrite Hk, drop_app_length).
  rewrite E at 3. unfold unread, read_at. rewrite skipn_firstn_comm, drop_drop. f_equal; [lia|f_equal; lia].
Qed.

Lemma free_result_ok fed m :
  unpacker_ok fed m ->
  exists m', free_result m = Some m' /\ unpacker_ok fed m' /\ result_zone m' = [] /\
    unread m' = unread m /\ uctx m' = uctx m.
Proof.
  intros [S [Rc Rn] A]. unfold free_result.
  assert (id m :: zone m ++ result_zone m ≡ₚ result_zone m ++ id m :: zone m) as Hp by solve_Permutation.
  rewrite Hp in Rc, Rn. destruct (zone_free_counted _ _ _ Rc) as (c & -> & Hc).
  eexists. split; [reflexivity|]. split; [|done]. apply Forall_app in Rn as [_ Rn].
  split; [by destruct S; split| |done]. split; simpl; by rewrite app_nil_r.
Qed.

Lemma release_zone_ok fed m fin zok :
  space_ok fed m -> refs_ok m -> result_zone m = [] ->
  exists m', msgpack_unpacker_release_zone m fin zok = Some m' /\ space_ok fed m' /\ refs_ok m' /\
    unread m' = unread m /\ uctx m' = uctx m.
Proof.
  intros S [Rc Rn] Hz. unfold msgpack_unpacker_release_zone, msgpack_unpacker_flush_zone.
  assert (forall c ref z, counted c (id m :: z) -> Forall (fun b => (b < next_id m)%nat) (id m :: z) ->
    let x := mkUnpacker (buffer m) (used m) (free m) (off m) (parsed m) (initial_buffer_size m)
               (uctx m) ref (id m) (next_id m) c z [] in
    let y := mkUnpacker (buffer m) (used m) (free m) (off m) (parsed m) (initial_buffer_size m)
               (uctx m) ref (id m) (next_id m) c [] z in
    (space_ok fed x /\ refs_ok x) /\ (space_ok fed y /\ refs_ok y)) as Hxy.
  { intros c ref z Hc Hf. destruct S. split; (split; [by split|]); split; simpl; rewrite ?app_nil_r; done. }
  rewrite Hz, app_nil_r in Rc, Rn. destruct m as [bu us fr oo pa ib uc rf i ni co zo rz]. simpl in *. subst rz.
  destruct rf; [destruct fin|]; simpl.
  - destruct (incr_counted i co (i :: zo) Rc ltac:(left)) as (c & -> & Hc). simpl.
    destruct (Hxy c false (i :: zo)) as [[? ?] [? ?]]; [done|by constructor; [inversion Rn|]|].
    destruct zok; eexists; (split; [reflexivity|]); done.
  - destruct (Hxy co true zo) as [[? ?] _]; [done..|]. eexists. split; [reflexivity|]. done.
  - destruct (Hxy co false zo) as [[? ?] [? ?]]; [done..|]. destruct zok; eexists; (split; [reflexivity|]); done.
Qed.

(** One call of [msgpack_unpacker_next]. *)
Lemma next_ok fed m raw fin zok :
  unpacker_ok fed m ->
  exists r m', template_execute zone_malloc (uctx m) (unread m) = Some r /\
    msgpack_unpacker_next zone_malloc m raw fin zok
    = Some (if ret r <=? 0 then None else data (ctx r), m') /\
    unpacker_ok fed m' /\ unread m' = rest r /\
    uctx m' = if ret r <=? 0 then ctx r else template_init.
Proof.
  intros Ok. destruct (template_execute_leaves (uctx m) (unread m) (ok_awaits _ _ Ok)) as (r & Hr & Hs & Haw).
  exists r. unfold msgpack_unpacker_next.
  destruct (free_result_ok fed m Ok) as (m0 & -> & [S0 R0 A0] & Hz & Hu & Hc).
  unfold msgpack_unpacker_execute. rewrite Hu, Hc, Hr. simpl. rewrite <- Hu in Hs.
  destruct (unread_suffix m0 fed (rest r) S0 Hs) as [Hoff Hrd].
  set (m1 := mkUnpacker _ _ _ _ _ _ _ _ _ _ _ _ _).
  assert (space_ok fed m1) as S1.
  { destruct S0. split; unfold m1; simpl; try done. split; lia. }
  assert (refs_ok m1) as R1 by exact R0.
  assert (unread m1 = rest r) as U1.
  { unfold unread, m1. simpl. rewrite <- Hrd at 3. f_equal. lia. }
  destruct (Z.leb_spec (ret r) 0).
  - exists m1. split_and!; [done..| |done|done]. split; [done|done|]. by apply Haw.
  - destruct (release_zone_ok fed m1 fin zok S1 R1 Hz) as (m2 & -> & S2 & R2 & U2 & C2). simpl.
    eexists. split_and!; [done|by rewrite C2| |by rewrite <- U1, <- U2|done].
    split; [by destruct S2; split|done|by left].
Qed.
End Parse.

(** ** Streams of objects *)

Section Stream.
Context (malloc : Z -> bool) (junk : Z -> Z) (zone_malloc : Z -> bool).
Abbreviation run := (run zone_malloc).
Abbreviation packed objs := (concat (List.map msgpack_pack_object objs)).

(** The unpacker has read [pend] since the last object. *)
Definition pending (m : msgpack_unpacker) (pend : list Z) : Prop :=
  forall p, run (cs (uctx m)) (trail (uctx m)) (stack (uctx m)) (unread m ++ p)
            = run CS_HEADER 0 [] (pend ++ p).

(** [pend] is less than the first of [objs]. *)
Definition incomplete (pend : list Z) (objs : list msgpack_object) : Prop :=
  match objs with
  | [] => pend = []
  | o :: _ => exists q, q <> [] /\ msgpack_pack_object o = pend ++ q
  end.

Lemma execute_run c u r :
  awaits (cs c) (trail c) -> template_execute zone_malloc c u = Some r ->
  exists r', run (cs c) (trail c) (stack c) u = Some r' /\ ret r' = ret r /\ rest r' = rest r /\
    cs (ctx r') = cs (ctx r) /\ trail (ctx r') = trail (ctx r) /\ stack (ctx r') = stack (ctx r) /\
    (u <> [] -> r' = r).
Proof.
  intros Haw. destruct u as [|x u]; [|by exists r]. intros [= <-].
  rewrite run_round by done. unfold round. destruct (Z.eqb_spec (cs c) CS_HEADER).
  - eexists. split; [reflexivity|]. done.
  - destruct Haw as [?|Ht]; [done|]. change (lenZ (@nil Z)) with 0.
    rewrite (proj2 (Z.ltb_lt 0 (trail c))) by lia. eexists. split; [reflexivity|]. done.
Qed.

(** A call that finds no object changes nothing of what is to come. *)
Lemma next_none fed m raw pend :
  unpacker_ok fed m -> pending m pend ->
  (forall r, template_execute zone_malloc (uctx m) (unread m) = Some r -> ret r = 0) ->
  exists m', msgpack_unpacker_next zone_malloc m raw true true = Some (None, m') /\
    unpacker_ok fed m' /\ pending m' pend.
Proof.
  intros Ok Hp Hr. destruct (next_ok zone_malloc fed m raw true true Ok) as (r & m' & E & -> & Ok' & Hu & Hc).
  rewrite (Hr r E) in Hc |- *. exists m'. split; [done|]. split; [done|]. intros p. rewrite <- Hp.
  destruct (execute_run _ _ _ (ok_awaits _ _ Ok) E) as (r' & E' & Hret & Hrest & H1 & H2 & H3 & _).
  rewrite (run_app zone_malloc _ _ _ _ p _ (ok_awaits _ _ Ok) E'). unfold resume.
  rewrite Hret, (Hr r E). simpl. by rewrite Hu, Hc, H1, H2, H3, Hrest.
Qed.

(** The next object, once it is complete. *)
Lemma next_some fed m raw o pend :
  unpacker_ok fed m -> packable zone_malloc o -> (depth o <= 32)%nat ->
  pending m (msgpack_pack_object o ++ pend) ->
  exists m', msgpack_unpacker_next zone_malloc m raw true true = Some (Some o, m') /\
    unpacker_ok fed m' /\ pending m' pend /\ (length (unread m') < length (unread m))%nat.
Proof.
  intros Ok Ho Hd Hp. destruct (next_ok zone_malloc fed m raw true true Ok) as (r & m' & E & -> & Ok' & Hu & Hc).
  pose proof (ok_awaits _ _ Ok) as Haw.
  destruct (execute_run _ _ _ Haw E) as (r' & E' & Hret & Hrest & _ & _ & _ & Hne).
  specialize (Hp []). rewrite !app_nil_r in Hp.
  destruct (run_packed zone_malloc o pend Ho Hd) as (c & t & Hrun). rewrite Hrun, E' in Hp. injection Hp as ->.
  assert (unread m <> []) as Hun.
  { intros Hz. rewrite Hz in E. injection E as <-. simpl in Hret. lia. }
  destruct (run_rest zone_malloc _ _ _ _ _ Haw E') as [_ Hlt]. rewrite <- (Hne Hun) in *. simpl in *.
  exists m'. split_and!; [done|done| |rewrite Hu; apply Hlt; lia].
  intros p. by rewrite Hu, Hc.
Qed.

Lemma drain_spec objs : forall fuel raws m fed pend later,
  unpacker_ok fed m -> Forall (fun o => packable zone_malloc o /\ (depth o <= 32)%nat) objs ->
  pending m pend -> pend ++ later = packed objs -> (length (unread m) < fuel)%nat ->
  exists out objs' pend' m', drain zone_malloc fuel raws m = Some (out, m') /\ objs = out ++ objs' /\
    unpacker_ok fed m' /\ pending m' pend' /\ pend' ++ later = packed objs' /\ incomplete pend' objs'.
Proof.
  induction objs as [|o objs IH]; intros fuel raws m fed pend later Ok Hall Hp Hs Hf;
    (destruct fuel as [|fuel]; [lia|]); simpl drain.
  - simpl in Hs. apply app_eq_nil in Hs as [-> ->].
    destruct (next_none fed m (raws fuel) [] Ok Hp) as (m' & -> & Ok' & Hp').
    { intros r E. destruct (execute_run _ _ _ (ok_awaits _ _ Ok) E) as (r' & E' & <- & _).
      specialize (Hp []). rewrite !app_nil_r, E' in Hp. by injection Hp as ->. }
    exists [], [], [], m'. done.
  - apply Forall_cons_1 in Hall as [[Ho Hd] Hall]. simpl in Hs.
    apply List.app_eq_app in Hs as Hl. destruct Hl as [l [[-> Hs2]|[El ->]]].
    { destruct (next_some fed m (raws fuel) o l Ok Ho Hd Hp) as (m1 & -> & Ok1 & Hp1 & Hlt). simpl.
      destruct (IH fuel raws m1 fed l later Ok1 Hall Hp1 (eq_sym Hs2) ltac:(lia))
        as (out & objs' & pend' & m' & -> & -> & ?). exists (o :: out), objs', pend', m'. done. }
    destruct (decide (l = [])) as [->|Hne].
    { rewrite app_nil_r in El. subst pend. rewrite <- (app_nil_r (msgpack_pack_object o)) in Hp.
      destruct (next_some fed m (raws fuel) o [] Ok Ho Hd Hp) as (m1 & -> & Ok1 & Hp1 & Hlt). simpl.
      destruct (IH fuel raws m1 fed [] (packed objs) Ok1 Hall Hp1 eq_refl ltac:(lia))
        as (out & objs' & pend' & m' & -> & -> & ?). exists (o :: out), objs', pend', m'. done. }
    destruct (next_none fed m (raws fuel) pend Ok Hp) as (m' & -> & Ok' & Hp').
    { intros r E. pose proof (ok_awaits _ _ Ok) as Haw.
      destruct (execute_run _ _ _ Haw E) as (r' & E' & <- & _).
      pose proof (run_app zone_malloc _ _ _ _ l _ Haw E') as Hr. rewrite Hp in Hr.
      destruct (run_packed zone_malloc o [] Ho Hd) as (c & t & Hrun). rewrite El, app_nil_r in Hrun.
      rewrite Hrun in Hr. unfold resume in Hr. destruct (Z.eqb_spec (ret r') 0); [done|].
      injection Hr as _ _ Hrest. symmetry in Hrest. by apply app_eq_nil in Hrest as [_ ?]. }
    exists [], (o :: objs), pend, m'. split_and!; [done..|by rewrite Hs|by exists l].
Qed.

Hypothesis malloc_ok : forall n, malloc n = true.

Lemma stream_spec chunks : forall objs raws m fed pend,
  unpacker_ok fed m -> Forall (fun o => packable zone_malloc o /\ (depth o <= 32)%nat) objs ->
  pending m pend -> incomplete pend objs -> pend ++ concat chunks = packed objs ->
  fed + lenZ (concat chunks) <= 2 ^ 60 ->
  exists m', stream malloc junk zone_malloc raws m chunks = Some (objs, m').
Proof.
  induction chunks as [|c chunks IH]; intros objs raws m fed pend Ok Hall Hp Hi Hs Hfed; cbn [stream].
  - exists m. destruct objs as [|o objs]; [done|]. exfalso. destruct Hi as (q & Hq & Ho). simpl in Hs.
    rewrite Ho, app_nil_r, <- app_assoc in Hs. apply (f_equal length) in Hs. rewrite !length_app in Hs.
    destruct q; [done|simpl in Hs; lia].
  - simpl in Hs, Hfed. rewrite length_app in Hfed. destruct Ok as [S R A].
    destruct (feed_ok malloc junk fed m c true S R ltac:(lia)) as (m1 & -> & S1 & R1 & C1 & Hu).
    specialize (Hu malloc_ok eq_refl).
    assert (unpacker_ok (fed + lenZ c) m1) as Ok1 by (split; [done|done|by rewrite C1]).
    assert (pending m1 (pend ++ c)) as Hp1.
    { intros p. rewrite Hu, C1, <- !app_assoc. apply Hp. }
    rewrite app_assoc in Hs.
    destruct (drain_spec objs (Datatypes.S (length (unread m1))) raws m1 _ _ _ Ok1 Hall Hp1 Hs ltac:(lia))
      as (out & objs' & pend' & m2 & -> & -> & Ok2 & Hp2 & Hs2 & Hi2).
    apply Forall_app in Hall as [_ Hall]. cbn [fst snd].
    destruct (IH objs' raws m2 _ pend' Ok2 Hall Hp2 Hi2 Hs2 ltac:(lia)) as (m' & ->). by exists m'.
Qed.
End Stream.

Lemma init_ok malloc junk size others m :
  msgpack_unpacker_init malloc junk size others = Some m -> size <= 2 ^ 60 ->
  unpacker_ok 0 m /\ uctx m = template_init /\ unread m = [].
Proof.
  unfold msgpack_unpacker_init. set (n := if size <? COUNTER_SIZE then COUNTER_SIZE else size).
  assert (COUNTER_SIZE <= n /\ (size <= 2 ^ 60 -> n <= 2 ^ 60)) as [Hn Hn'].
  { unfold n, COUNTER_SIZE. destruct (Z.ltb_spec size 4); lia. }
  destruct (malloc n && others); [|done]. intros [= <-] Hs. unfold COUNTER_SIZE in *.
  split; [|split; [done|]]; [|by unfold unread, read_at].
  split; [| |by left].
  - split; simpl; unfold COUNTER_SIZE; rewrite ?fresh_length; try lia.
  - split; simpl; [|repeat constructor]. intros b. destruct (decide (0%nat = b)) as [<-|Hne].
    + by rewrite lookup_singleton_eq.
    + rewrite lookup_singleton_ne by done. simpl. by rewrite decide_False.
Qed.

(** C16: a stream of packed objects is read object by object, however it is cut:
    feeding the unpacker the chunks one after the other, and taking the objects
    that are complete after each, gives the objects that were packed, in order and
    none twice, for up to 2^60 bytes. *)
Theorem unpacker_stream malloc junk zone_malloc raws size m0 objs chunks :
  (forall n, malloc n = true) -> size <= 2 ^ 60 ->
  msgpack_unpacker_init malloc junk size true = Some m0 ->
  Forall (fun o => packable zone_malloc o /\ (depth o <= 32)%nat) objs ->
  concat chunks = concat (List.map msgpack_pack_object objs) -> lenZ (concat chunks) <= 2 ^ 60 ->
  exists m, stream malloc junk zone_malloc raws m0 chunks = Some (objs, m).
Proof.
  intros Hm Hs Hi Hall Hc Hl. destruct (init_ok _ _ _ _ _ Hi Hs) as (Ok & Hu & Hr).
  apply (stream_spec malloc junk zone_malloc Hm chunks objs raws m0 0 []); try done; [|].
  - intros p. by rewrite Hu, Hr.
  - destruct objs as [|o objs]; [done|]. exists (msgpack_pack_object o). split; [apply pack_nonempty|done].
Qed.

(** The bytes the operations feed. *)
Fixpoint total_fed (os : list op) : Z :=
  match os with
  | [] => 0
  | OFeed bs _ :: os => lenZ bs + total_fed os
  | ONext _ _ _ :: os => total_fed os
  end.

Lemma exec_ops_ok malloc junk zone_malloc os : forall fed m,
  unpacker_ok fed m -> fed + total_fed os <= 2 ^ 60 ->
  exists m', exec_ops malloc junk zone_malloc m os = Some m' /\ unpacker_ok (fed + total_fed os) m'.
Proof.
  induction os as [|[bs f|r f z] os IH]; intros fed m Ok Hf; simpl in *.
  - exists m. by rewrite Z.add_0_r.
  - assert (0 <= total_fed os) by (clear; induction os as [|[] os ?]; simpl; lia).
    destruct Ok as [S R A].
    destruct (feed_ok malloc junk fed m bs f S R ltac:(lia)) as (m1 & -> & S1 & R1 & C1 & _).
    destruct (IH (fed + lenZ bs) m1) as (m' & -> & Ok'); [split; [done|done|by rewrite C1]|lia|].
    exists m'. split; [done|]. by rewrite Z.add_assoc.
  - destruct (next_ok zone_malloc fed m r f z Ok) as (x & m1 & _ & -> & Ok1 & _). simpl. by apply IH.
Qed.


(** ** Witnesses *)

Definition sample_unpacker : msgpack_unpacker :=
  mkUnpacker (fresh (fun _ => 0) 8) 4 4 4 0 8 template_init false 0 1 {[0%nat := 1]} [] [].

Lemma unpacker_stream_witness :
  exists m, stream (fun _ => true) (fun _ => 0) (fun _ => true) (fun _ => true) sample_unpacker
    [[0xa3; 65]; [66; 67; 7; 0xcd]; []; [1; 0]]
    = Some ([MSGPACK_OBJECT_RAW [65; 66; 67]; MSGPACK_OBJECT_POSITIVE_INTEGER 7;
             MSGPACK_OBJECT_POSITIVE_INTEGER 256], m).
Proof.
  apply (unpacker_stream (fun _ => true) (fun _ => 0) (fun _ => true) (fun _ => true) 8).
  - reflexivity.
  - lia.
  - reflexivity.
  - repeat constructor; vm_compute; try lia; intuition discriminate.
  - reflexivity.
  - vm_compute. discriminate.
Defined.

