(* ===== verification/RwQueue.v ===== *)
(** * The single-producer single-consumer queue

    moodycamel's [ReaderWriterQueue] (src/webapp/include/readerwriterqueue/
    readerwriterqueue.h): a circular list of circular buffers.  Every access to
    memory the two threads share is one step of the model, so that the theorems
    are about all interleavings of an enqueue with a dequeue; a call that meets
    no interference is the run of its steps ([enqueue], [try_dequeue], ...).

    The memory is sequentially consistent: the fences of atomicops.h, which
    order the accesses of each thread, have no counterpart. *)

From Stdlib Require Import ZArith Lia.
From stdpp Require Import base list numbers option.
From S2P Require Import Prelude.

(** ** Data *)

(** A block: a ring buffer of [size] slots; a slot is [None] when it holds no
    constructed object.  Blocks are named by their index in the heap of blocks. *)
Record Block (T : Type) := mkBlock {
  front : Z;
  tail : Z;
  next : option nat;
  data : list (option T);
  size : Z
}.
Arguments mkBlock {T}.
Arguments front {T}.
Arguments tail {T}.
Arguments next {T}.
Arguments data {T}.
Arguments size {T}.

Definition sizeMask {T} (b : Block T) : Z := u64 (size b - 1).

Record ReaderWriterQueue (T : Type) := mkQueue {
  blocks : list (Block T);
  frontBlock : nat;
  tailBlock : nat;
  largestBlockSize : Z
}.
Arguments mkQueue {T}.
Arguments blocks {T}.
Arguments frontBlock {T}.
Arguments tailBlock {T}.
Arguments largestBlockSize {T}.

Inductive AllocationMode := CanAlloc | CannotAlloc.

(** Rounding up to a power of two, on 64-bit words. *)
Definition smear (s x : Z) : Z := Z.lor x (Z.shiftr x s).
Definition ceilToPow2 (x : Z) : Z :=
  let x := u64 (x - 1) in
  let x := smear 1 x in
  let x := smear 2 x in
  let x := smear 4 x in
  let x := smear 8 x in
  let x := smear 16 x in
  let x := smear 32 x in
  u64 (x + 1).

Section Queue.
Context {T : Type}.
Implicit Types (b : Block T) (q : ReaderWriterQueue T).

Definition set_front (v : Z) b := mkBlock v (tail b) (next b) (data b) (size b).
Definition set_tail (v : Z) b := mkBlock (front b) v (next b) (data b) (size b).
Definition set_next (v : option nat) b := mkBlock (front b) (tail b) v (data b) (size b).
Definition set_slot (i : Z) (v : option T) b :=
  mkBlock (front b) (tail b) (next b) (<[Z.to_nat i := v]> (data b)) (size b).

Definition upd (n : nat) (f : Block T -> Block T) q :=
  mkQueue (alter f n (blocks q)) (frontBlock q) (tailBlock q) (largestBlockSize q).
Definition set_frontBlock n q := mkQueue (blocks q) n (tailBlock q) (largestBlockSize q).
Definition set_tailBlock n q := mkQueue (blocks q) (frontBlock q) n (largestBlockSize q).

(** The index after [i] in a block. *)
Definition bump b (i : Z) : Z := Z.land (u64 (i + 1)) (sizeMask b).

(** [Block(size)]: no element, no successor. *)
Definition Block_new (sz : Z) : Block T :=
  mkBlock 0 0 None (replicate (Z.to_nat sz) None) sz.

(** The constructor: one block that is its own successor. *)
Definition Queue_new (maxSize : Z) : ReaderWriterQueue T :=
  let sz := ceilToPow2 (u64 (maxSize + 1)) in
  mkQueue [set_next (Some 0%nat) (Block_new sz)] 0 0 sz.

(** ** The steps of a thread

    [Next]: the thread goes on; [Ret]: the call returns; [Abort]: [assert(rawData)]
    failed, the memory is exhausted; [Undef]: a failed assertion or an access
    outside the objects. *)
Inductive outcome (C R : Type) :=
| Next (q : ReaderWriterQueue T) (c : C)
| Ret (q : ReaderWriterQueue T) (r : R)
| Abort
| Undef.
Arguments Next {C R}.
Arguments Ret {C R}.
Arguments Abort {C R}.
Arguments Undef {C R}.

Definition with_block {C R} q (n : nat) (k : Block T -> outcome C R) : outcome C R :=
  match blocks q !! n with Some b => k b | None => Undef end.

(** Construction of an object in slot [i] of block [n]. *)
Definition construct {C R} q (n : nat) (i : Z) (x : T) (c : C) : outcome C R :=
  with_block q n (fun b =>
    if (0 <=? i) && (i <? lenZ (data b)) then Next (upd n (set_slot i (Some x)) q) c
    else Undef).

(** *** The producer: [inner_enqueue] *)

(** The arguments of a call: the element and the template argument. *)
Record arg := mkArg { canAlloc : AllocationMode; elem : T }.

(** Where the producer is: each constructor names the access it is about to make
    and holds the locals that are live there. *)
Inductive ppc :=
| E_tailBlock (a : arg)
| E_front (a : arg) (tailBlock_ : nat)
| E_tail (a : arg) (tailBlock_ : nat) (blockFront : Z)
| E_write (a : arg) (tailBlock_ : nat) (blockTail nextBlockTail : Z)
| E_publish (a : arg) (tailBlock_ : nat) (nextBlockTail : Z)
| E_next (a : arg) (tailBlock_ : nat)
| E_frontBlock (a : arg) (tailBlock_ : nat) (nx : option nat)
| E_ahead (a : arg) (tailBlock_ : nat)
| E_ahead_front (a : arg) (tailBlockNext : nat)
| E_ahead_tail (a : arg) (tailBlockNext : nat) (nextBlockFront : Z)
| E_ahead_write (a : arg) (tailBlockNext : nat) (nextBlockTail : Z)
| E_ahead_store (a : arg) (tailBlockNext : nat) (nextBlockTail : Z)
| E_ahead_publish (a : arg) (tailBlockNext : nat)
| E_alloc (a : arg) (tailBlock_ : nat)
| E_alloc_next (a : arg) (tailBlock_ newBlock : nat)
| E_alloc_link (a : arg) (tailBlock_ newBlock : nat)
| E_alloc_publish (a : arg) (newBlock : nat).

(** What [malloc] grants: blocks of at most [max_size] slots. *)
Variable max_size : Z.

Definition prod_step q (p : ppc) : outcome ppc bool :=
  match p with
  | E_tailBlock a => Next q (E_front a (tailBlock q))
  | E_front a tb => with_block q tb (fun b => Next q (E_tail a tb (front b)))
  | E_tail a tb bf =>
      with_block q tb (fun b =>
        let nt := bump b (tail b) in
        if nt =? bf then Next q (E_next a tb) else Next q (E_write a tb (tail b) nt))
  | E_write a tb bt nt => construct q tb bt (elem a) (E_publish a tb nt)
  | E_publish a tb nt => Ret (upd tb (set_tail nt) q) true
  | E_next a tb => with_block q tb (fun b => Next q (E_frontBlock a tb (next b)))
  | E_frontBlock a tb nx =>
      if decide (nx = Some (frontBlock q)) then
        match canAlloc a with
        | CanAlloc => Next q (E_alloc a tb)
        | CannotAlloc => Ret q false
        end
      else Next q (E_ahead a tb)
  | E_ahead a tb =>
      with_block q tb (fun b =>
        match next b with
        | Some nb => Next q (E_ahead_front a nb)
        | None => Undef
        end)
  | E_ahead_front a nb => with_block q nb (fun b => Next q (E_ahead_tail a nb (front b)))
  | E_ahead_tail a nb nf =>
      with_block q nb (fun b =>
        if nf =? tail b then Next q (E_ahead_write a nb (tail b)) else Undef)
  | E_ahead_write a nb nt => construct q nb nt (elem a) (E_ahead_store a nb nt)
  | E_ahead_store a nb nt =>
      with_block q nb (fun b => Next (upd nb (set_tail (bump b nt)) q) (E_ahead_publish a nb))
  | E_ahead_publish a nb => Ret (set_tailBlock nb q) true
  | E_alloc a tb =>
      let sz := u64 (largestBlockSize q * 2) in
      if largestBlockSize q * 2 <=? max_size then
        let nb := set_tail 1 (set_slot 0 (Some (elem a)) (Block_new sz)) in
        Next (mkQueue (blocks q ++ [nb]) (frontBlock q) (tailBlock q) sz)
             (E_alloc_next a tb (length (blocks q)))
      else Abort
  | E_alloc_next a tb n =>
      with_block q tb (fun b => Next (upd n (set_next (next b)) q) (E_alloc_link a tb n))
  | E_alloc_link a tb n => Next (upd tb (set_next (Some n)) q) (E_alloc_publish a n)
  | E_alloc_publish a n => Ret (set_tailBlock n q) true
  end.

(** *** The consumer: [try_dequeue], [peek] and [pop]

    The three read the same variables in the same order; they differ in what
    they do with the front element. *)
Inductive access := Dequeue | Peek | Pop.

(** What they return: nothing there; the element (a [pop] destroys it); a
    pointer to the element's slot. *)
Inductive got :=
| Empty
| Elem (x : T)
| Popped (x : T)
| Pointer (block : nat) (slot : Z).

Inductive cpc :=
| D_tailBlock (k : access)
| D_frontBlock (k : access) (tailBlockAtStart : nat)
| D_tail (k : access) (tailBlockAtStart frontBlock_ : nat)
| D_front (k : access) (tailBlockAtStart frontBlock_ : nat) (blockTail : Z)
| D_take (k : access) (frontBlock_ : nat) (blockFront : Z)
| D_store (k : access) (frontBlock_ : nat) (blockFront : Z) (x : T)
| D_next (k : access) (frontBlock_ : nat)
| D_next_front (k : access) (nextBlock : nat)
| D_next_tail (k : access) (nextBlock : nat) (nextBlockFront : Z)
| D_advance (k : access) (nextBlock : nat) (nextBlockFront : Z).

Definition cons_step q (c : cpc) : outcome cpc got :=
  match c with
  | D_tailBlock k => Next q (D_frontBlock k (tailBlock q))
  | D_frontBlock k ts => Next q (D_tail k ts (frontBlock q))
  | D_tail k ts fb => with_block q fb (fun b => Next q (D_front k ts fb (tail b)))
  | D_front k ts fb bt =>
      with_block q fb (fun b =>
        if negb (front b =? bt) then
          match k with
          | Peek => Ret q (Pointer fb (front b))
          | _ => Next q (D_take k fb (front b))
          end
        else if decide (fb <> ts) then Next q (D_next k fb)
        else Ret q Empty)
  | D_take k fb bf =>
      with_block q fb (fun b =>
        match data b !! Z.to_nat bf with
        | Some (Some x) => Next (upd fb (set_slot bf None) q) (D_store k fb (bump b bf) x)
        | _ => Undef
        end)
  | D_store k fb bf x =>
      Ret (upd fb (set_front bf) q) (match k with Pop => Popped x | _ => Elem x end)
  | D_next k fb =>
      with_block q fb (fun b =>
        match next b with Some nb => Next q (D_next_front k nb) | None => Undef end)
  | D_next_front k nb => with_block q nb (fun b => Next q (D_next_tail k nb (front b)))
  | D_next_tail k nb nf =>
      with_block q nb (fun b =>
        if nf =? tail b then Undef
        else match k with
             | Peek => Ret q (Pointer nb nf)
             | _ => Next q (D_advance k nb nf)
             end)
  | D_advance k nb nf => Next (set_frontBlock nb q) (D_take k nb nf)
  end.

(** *** Calls without interference *)

Fixpoint run_steps {C R} (step : ReaderWriterQueue T -> C -> outcome C R)
    (fuel : nat) q (c : C) : outcome C R :=
  match fuel with
  | O => Next q c
  | S fuel => match step q c with Next q c => run_steps step fuel q c | o => o end
  end.

Definition inner_enqueue (mode : AllocationMode) q (x : T) : outcome ppc bool :=
  run_steps prod_step 11 q (E_tailBlock (mkArg mode x)).
Definition try_enqueue q x := inner_enqueue CannotAlloc q x.
Definition enqueue q x := inner_enqueue CanAlloc q x.
Definition try_dequeue q := run_steps cons_step 10 q (D_tailBlock Dequeue).
Definition peek q := run_steps cons_step 10 q (D_tailBlock Peek).
Definition pop q := run_steps cons_step 10 q (D_tailBlock Pop).

(** *** The destructor

    The elements between [front] and [tail] of a block, then the blocks from the
    front block round to it; the result lists what is destroyed and freed. *)
Fixpoint destroy_slots (fuel : nat) b (i : Z) : option (list T) :=
  if i =? tail b then Some []
  else match fuel with
       | O => None
       | S fuel =>
           let* e := (data b !! Z.to_nat i) ≫= id in
           let* es := destroy_slots fuel b (bump b i) in
           Some (e :: es)
       end.

Fixpoint destroy_blocks (fuel : nat) q (n : nat) : option (list T * list nat) :=
  match fuel with
  | O => None
  | S fuel =>
      let* blk := blocks q !! n in
      let* es := destroy_slots (Z.to_nat (size blk)) blk (front blk) in
      let* nx := next blk in
      if decide (nx = frontBlock q) then Some (es, [n])
      else let* r := destroy_blocks fuel q nx in Some (es ++ r.1, n :: r.2)
  end.

Definition Queue_delete q : option (list T * list nat) :=
  destroy_blocks (length (blocks q)) q (frontBlock q).

(** ** The two threads

    [producers] are the calls in progress, one entry for each thread that
    enqueues; the program's contract is that there is one.  [enqueued] and
    [dequeued] are the elements of the calls that returned, in that order, and
    [snapshot] is both at the first step of the consumer's current call. *)
Record machine := mkMachine {
  mq : ReaderWriterQueue T;
  producers : list (option ppc);
  consumer : option cpc;
  enqueued : list T;
  dequeued : list T;
  snapshot : list T * list T
}.

Definition init (n : nat) (maxSize : Z) : machine :=
  mkMachine (Queue_new maxSize) (replicate n None) None [] [] ([], []).

Definition arg_of_pc (p : ppc) : arg :=
  match p with
  | E_tailBlock a | E_front a _ | E_tail a _ _ | E_write a _ _ _ | E_publish a _ _
  | E_next a _ | E_frontBlock a _ _ | E_ahead a _ | E_ahead_front a _
  | E_ahead_tail a _ _ | E_ahead_write a _ _ | E_ahead_store a _ _
  | E_ahead_publish a _ | E_alloc a _ | E_alloc_next a _ _ | E_alloc_link a _ _
  | E_alloc_publish a _ => a
  end.

(** How many steps a call has left at most. *)
Definition prod_rank (p : ppc) : nat :=
  match p with
  | E_tailBlock _ => 11 | E_front _ _ => 10 | E_tail _ _ _ => 9
  | E_write _ _ _ _ => 2 | E_publish _ _ _ => 1
  | E_next _ _ => 8 | E_frontBlock _ _ _ => 7
  | E_ahead _ _ => 6 | E_ahead_front _ _ => 5 | E_ahead_tail _ _ _ => 4
  | E_ahead_write _ _ _ => 3 | E_ahead_store _ _ _ => 2 | E_ahead_publish _ _ => 1
  | E_alloc _ _ => 4 | E_alloc_next _ _ _ => 3 | E_alloc_link _ _ _ => 2
  | E_alloc_publish _ _ => 1
  end.

Definition cons_rank (c : cpc) : nat :=
  match c with
  | D_tailBlock _ => 10 | D_frontBlock _ _ => 9 | D_tail _ _ _ => 8 | D_front _ _ _ _ => 7
  | D_take _ _ _ => 2 | D_store _ _ _ _ => 1
  | D_next _ _ => 6 | D_next_front _ _ => 5 | D_next_tail _ _ _ => 4 | D_advance _ _ _ => 3
  end.

Inductive label :=
| LEnqueue (i : nat) (a : arg)
| LProducer (i : nat)
| LDequeue (k : access)
| LConsumer.

Definition got_elems (g : got) : list T :=
  match g with Elem x | Popped x => [x] | Empty | Pointer _ _ => [] end.

(** One step of the program: a call starts, or a thread makes its next access. *)
Definition exec (l : label) (m : machine) : option machine :=
  match l with
  | LEnqueue i a =>
      match producers m !! i with
      | Some None =>
          Some (mkMachine (mq m) (<[i := Some (E_tailBlock a)]> (producers m))
                  (consumer m) (enqueued m) (dequeued m) (snapshot m))
      | _ => None
      end
  | LProducer i =>
      match producers m !! i with
      | Some (Some p) =>
          match prod_step (mq m) p with
          | Next q p' =>
              Some (mkMachine q (<[i := Some p']> (producers m))
                      (consumer m) (enqueued m) (dequeued m) (snapshot m))
          | Ret q r =>
              Some (mkMachine q (<[i := None]> (producers m)) (consumer m)
                      (enqueued m ++ if r then [elem (arg_of_pc p)] else [])
                      (dequeued m) (snapshot m))
          | _ => None
          end
      | _ => None
      end
  | LDequeue k =>
      match consumer m with
      | None =>
          Some (mkMachine (mq m) (producers m) (Some (D_tailBlock k))
                  (enqueued m) (dequeued m) (snapshot m))
      | _ => None
      end
  | LConsumer =>
      match consumer m with
      | Some c =>
          let snap := match c with
                      | D_tailBlock _ => (enqueued m, dequeued m)
                      | _ => snapshot m
                      end in
          match cons_step (mq m) c with
          | Next q c' =>
              Some (mkMachine q (producers m) (Some c') (enqueued m) (dequeued m) snap)
          | Ret q g =>
              Some (mkMachine q (producers m) None (enqueued m)
                      (dequeued m ++ got_elems g) snap)
          | _ => None
          end
      | None => None
      end
  end.

Definition step (m m' : machine) : Prop := exists l, exec l m = Some m'.

Fixpoint exec_all (ls : list label) (m : machine) : option machine :=
  match ls with
  | [] => Some m
  | l :: ls => let* m' := exec l m in exec_all ls m'
  end.

(** ** What is in the queue *)

(** The elements of a block, from the front on. *)
Definition block_elems b : list T :=
  omap (fun i => (data b !! Z.to_nat ((front b + i) mod size b)) ≫= id)
       (seqZ 0 ((tail b - front b) mod size b)).

(** The elements of the blocks from [n] to the tail block. *)
Fixpoint elems_from (fuel : nat) q (n : nat) : list T :=
  match fuel, blocks q !! n with
  | S fuel, Some b =>
      block_elems b ++
      (if decide (n = tailBlock q) then []
       else match next b with Some nx => elems_from fuel q nx | None => [] end)
  | _, _ => []
  end.

Definition contents q : list T := elems_from (length (blocks q)) q (frontBlock q).
End Queue.

Arguments Next {T C R}.
Arguments Ret {T C R}.
Arguments Abort {T C R}.
Arguments Undef {T C R}.
Arguments E_tailBlock {T}.
Arguments D_tailBlock {T}.

(** ** Powers of two *)

(** The [k] bits up to bit [n] are set and no bit above it is. *)
Definition filled (n k x : Z) : Prop :=
  (forall i, n < i -> Z.testbit x i = false) /\
  (forall i, 0 <= i -> n - k < i <= n -> Z.testbit x i = true).

Lemma filled_smear n k x : 0 <= k -> filled n k x -> filled n (2 * k) (smear k x).
Proof.
  intros Hk [Hhi Hlo]. unfold smear. split; intros i Hi.
  - destruct (Z.ltb_spec i 0); [by rewrite Z.testbit_neg_r|].
    rewrite Z.lor_spec, Z.shiftr_spec, !Hhi by lia. done.
  - intros Hi'. rewrite Z.lor_spec, Z.shiftr_spec by lia.
    destruct (Z.ltb_spec (n - k) i).
    + by rewrite Hlo by lia.
    + rewrite (Hlo (i + k)) by lia. apply orb_true_r.
Qed.

Lemma filled_log2 x : 0 < x -> filled (Z.log2 x) 1 x.
Proof.
  intros Hx. split; intros i Hi.
  - by apply Z.bits_above_log2; lia.
  - intros. replace i with (Z.log2 x) by lia. apply Z.bit_log2; lia.
Qed.

Lemma filled_ones n k x : -1 <= n < k -> filled n k x -> x = Z.ones (n + 1).
Proof.
  intros Hn [Hhi Hlo]. apply Z.bits_inj'. intros i Hi.
  destruct (Z.ltb_spec n i).
  - rewrite Hhi by lia. symmetry. apply Z.ones_spec_high. lia.
  - rewrite Hlo by lia. symmetry. apply Z.ones_spec_low. lia.
Qed.

Lemma ceilToPow2_log2_up x : 1 <= x <= 2 ^ 63 -> ceilToPow2 x = 2 ^ Z.log2_up x.
Proof.
  intros Hx. destruct (Z.eq_dec x 1) as [->|]; [done|].
  unfold ceilToPow2. rewrite (uwrap_small 64 (x - 1)) by lia.
  assert (Z.log2 (x - 1) < 63) by (apply Z.log2_lt_pow2; lia).
  pose proof (Z.log2_nonneg (x - 1)).
  assert (filled (Z.log2 (x - 1)) 64
    (smear 32 (smear 16 (smear 8 (smear 4 (smear 2 (smear 1 (x - 1)))))))) as Hf.
  { pose proof (filled_log2 (x - 1) ltac:(lia)) as Hf.
    do 5 (apply filled_smear in Hf; [|lia]).
    exact (filled_smear _ 32 _ ltac:(lia) Hf). }
  apply filled_ones in Hf; [|lia].
  rewrite Hf, Z.ones_equiv, Z.log2_up_eqn by lia.
  rewrite <- !Z.sub_1_r, !Z.add_1_r.
  assert (2 ^ Z.succ (Z.log2 (x - 1)) <= 2 ^ 63) by (apply Z.pow_le_mono_r; lia).
  pose proof (Z.pow_pos_nonneg 2 (Z.succ (Z.log2 (x - 1)))).
  rewrite uwrap_small; lia.
Qed.

(** ** The representation invariant *)

Section Invariant.
Context {T : Type}.
Variable max_size : Z.
Hypothesis max_size_bound : max_size < 2 ^ 63.
Implicit Types (b : Block T) (q : ReaderWriterQueue T) (cs : list T).

(** Block [b] holds the elements [cs], the first [sk] of which the consumer has
    already moved out. *)
Record holds (sk : nat) b cs : Prop := {
  holds_pow : exists k, 1 <= k < 63 /\ size b = 2 ^ k;
  holds_data : lenZ (data b) = size b;
  holds_front : 0 <= front b < size b;
  holds_room : lenZ cs < size b;
  holds_tail : tail b = (front b + lenZ cs) mod size b;
  holds_slots i x : (sk <= i)%nat -> cs !! i = Some x ->
    data b !! Z.to_nat ((front b + Z.of_nat i) mod size b) = Some (Some x)
}.

Lemma holds_size sk b cs : holds sk b cs -> 2 <= size b < 2 ^ 63.
Proof.
  intros [(k & Hk & ->) _ _ _ _ _]. split.
  - change 2 with (2 ^ 1) at 1. apply Z.pow_le_mono_r; lia.
  - apply Z.pow_lt_mono_r; lia.
Qed.

Lemma bump_mod sk b cs i : holds sk b cs -> 0 <= i < size b -> bump b i = (i + 1) mod size b.
Proof.
  intros H Hi. pose proof (holds_size _ _ _ H). destruct H as [(k & Hk & E) _ _ _ _ _].
  unfold bump, sizeMask. rewrite !uwrap_small by lia.
  rewrite E, Z.sub_1_r, <- Z.ones_equiv. apply Z.land_ones. lia.
Qed.

Lemma holds_tail_range sk b cs : holds sk b cs -> 0 <= tail b < size b.
Proof.
  intros H. pose proof (holds_size _ _ _ H). rewrite (holds_tail _ _ _ H).
  apply Z.mod_pos_bound. lia.
Qed.

(** Two positions of a ring of [n] slots less than a turn apart. *)
Lemma mod_ring_inj n f i j :
  0 <= i < n -> 0 <= j < n -> (f + i) mod n = (f + j) mod n -> i = j.
Proof.
  intros Hi Hj E.
  assert ((i - j) mod n = 0) as E0.
  { replace (i - j) with ((f + i) - (f + j)) by lia.
    rewrite Zminus_mod, E, Z.sub_diag. apply Zmod_0_l. }
  apply Z.mod_divide in E0 as [z Hz]; [|lia].
  assert (-1 < z < 1) by (split; apply (Z.mul_lt_mono_pos_r n); lia). nia.
Qed.

Lemma mod_ring_add n a i : n <> 0 -> (a mod n + i) mod n = (a + i) mod n.
Proof. intros. by rewrite Zplus_mod_idemp_l. Qed.

(** The effect of the accesses on a block. *)
Lemma holds_construct sk b cs x :
  holds sk b cs -> holds sk (set_slot (tail b) (Some x) b) cs.
Proof.
  intros H. pose proof (holds_size _ _ _ H). pose proof (holds_tail_range _ _ _ H).
  destruct H as [Hp Hd Hf Hr Ht Hs]. split; simpl; try done.
  { by rewrite length_insert. }
  intros i y Hi Hy. rewrite list_lookup_insert_ne; [by apply Hs|].
  apply lookup_lt_Some in Hy. rewrite Ht. intros E.
  apply Z2Nat.inj in E; [|apply Z.mod_pos_bound; lia..].
  apply mod_ring_inj in E; lia.
Qed.

Lemma holds_push sk b cs x :
  holds sk b cs -> (sk <= length cs)%nat -> lenZ cs + 1 < size b ->
  data b !! Z.to_nat (tail b) = Some (Some x) ->
  holds sk (set_tail ((tail b + 1) mod size b) b) (cs ++ [x]).
Proof.
  intros H Hsk Hr Hx. pose proof (holds_size _ _ _ H).
  destruct H as [Hp Hd Hf Hr' Ht Hs]. split; simpl; try done.
  { rewrite length_app. simpl. lia. }
  { rewrite Ht, mod_ring_add, length_app by lia. f_equal. simpl. lia. }
  intros i y Hi Hy. destruct (decide (i < length cs)%nat).
  { rewrite lookup_app_l in Hy by done. by apply Hs. }
  rewrite lookup_app_r in Hy by lia.
  apply list_lookup_singleton_Some in Hy as [? ->].
  replace i with (length cs) by lia. by rewrite <- Ht.
Qed.

Lemma holds_take b cs x :
  holds 0 b (x :: cs) -> data b !! Z.to_nat (front b) = Some (Some x) /\
  holds 1 (set_slot (front b) None b) (x :: cs).
Proof.
  intros [Hp Hd Hf Hr Ht Hs].
  assert (data b !! Z.to_nat (front b) = Some (Some x)) as H0.
  { specialize (Hs 0%nat x ltac:(lia) eq_refl).
    by rewrite Z.add_0_r, Z.mod_small in Hs. }
  split; [done|]. split; simpl; try done.
  { by rewrite length_insert. }
  intros i y Hi Hy. rewrite list_lookup_insert_ne; [apply Hs; [lia|done]|].
  apply lookup_lt_Some in Hy. simpl in Hy, Hr.
  pose proof (Z.mod_pos_bound (front b + Z.of_nat i) (size b) ltac:(lia)).
  intros E. apply Z2Nat.inj in E; [|lia..].
  rewrite <- (Z.mod_small (front b) (size b)) in E at 1 by lia.
  rewrite <- (Z.add_0_r (front b)) in E at 1.
  apply mod_ring_inj in E; lia.
Qed.

Lemma holds_pop b cs x :
  holds 1 b (x :: cs) -> holds 0 (set_front ((front b + 1) mod size b) b) cs.
Proof.
  intros H. pose proof (holds_size _ _ _ H). destruct H as [Hp Hd Hf Hr Ht Hs].
  simpl in Hr. split; simpl; try done.
  { apply Z.mod_pos_bound. lia. }
  { lia. }
  { rewrite Ht, mod_ring_add by lia. f_equal. simpl. lia. }
  intros i y _ Hy. rewrite mod_ring_add by lia.
  specialize (Hs (S i) y ltac:(lia) Hy).
  by replace (front b + 1 + Z.of_nat i) with (front b + Z.of_nat (S i)) by lia.
Qed.

(** An empty block has equal indices, and only an empty one. *)
Lemma holds_eq_front sk b cs i :
  holds sk b cs -> 0 <= i < size b -> front b = (front b + i) mod size b <-> i = 0.
Proof.
  intros H Hi. pose proof (holds_size _ _ _ H). pose proof (holds_front _ _ _ H).
  split; [|intros ->; rewrite Z.add_0_r, Z.mod_small; lia].
  intros E. rewrite <- (Z.mod_small (front b) (size b)) in E at 1 by lia.
  rewrite <- (Z.add_0_r (front b)) in E at 1. apply mod_ring_inj in E; lia.
Qed.

(** An entry of the ring: a block, how many of its elements are moved out, and
    its elements. *)
Record entry := mkEntry { eid : nat; esk : nat; ecs : list T }.
Abbreviation ids := (List.map eid).

Definition ok (bl : list (Block T)) (e : entry) : Prop :=
  exists b, bl !! eid e = Some b /\ holds (esk e) b (ecs e).

(** Each block of the list is followed by the next one. *)
Fixpoint linked (bl : list (Block T)) (l : list nat) : Prop :=
  match l with
  | a :: (c :: _) as l' => (bl !! a ≫= next) = Some c /\ linked bl l'
  | _ => True
  end.

Definition nonempty (e : entry) : Prop := esk e = 0%nat /\ ecs e <> [].
Definition empty (e : entry) : Prop := esk e = 0%nat /\ ecs e = [].

(** The ring of blocks, from the front block on: the blocks up to the tail block
    ([busy]), a block the producer has filled but not yet published ([pend]),
    and the free blocks. *)
Record ring q (busy pend free : list entry) : Prop := {
  ring_front : head (ids busy) = Some (frontBlock q);
  ring_tail : list.last (ids busy) = Some (tailBlock q);
  ring_ok : Forall (ok (blocks q)) (busy ++ pend ++ free);
  ring_nodup : NoDup (ids (busy ++ pend ++ free));
  ring_linked : linked (blocks q) (ids (busy ++ pend ++ free) ++ [frontBlock q]);
  ring_rest : Forall nonempty (List.tl busy);
  ring_sk : Forall (fun e => (esk e <= length (ecs e))%nat) busy;
  ring_pend : Forall nonempty pend;
  ring_free : Forall empty free;
  ring_largest : exists k, 1 <= k < 63 /\ largestBlockSize q = 2 ^ k
}.

Definition elements (l : list entry) : list T := concat (List.map ecs l).

(** What the producer knows at each point, [t] being the tail block's entry. *)
Definition PI q (busy pend free : list entry) (p : option (ppc (T:=T))) : Prop :=
  exists pre t b,
    busy = pre ++ [t] /\ eid t = tailBlock q /\ blocks q !! tailBlock q = Some b /\
    match p with
    | None | Some (E_tailBlock _) => pend = []
    | Some (E_front _ tb) | Some (E_next _ tb) | Some (E_alloc _ tb) =>
        tb = tailBlock q /\ pend = []
    | Some (E_tail _ tb bf) =>
        tb = tailBlock q /\ pend = [] /\
        exists d, 0 <= d /\ 0 <= bf < size b /\ front b = (bf + d) mod size b /\
                  d + lenZ (ecs t) < size b
    | Some (E_write _ tb bt nt) =>
        tb = tailBlock q /\ pend = [] /\ bt = tail b /\ nt = (tail b + 1) mod size b /\
        lenZ (ecs t) + 1 < size b
    | Some (E_publish a tb nt) =>
        tb = tailBlock q /\ pend = [] /\ nt = (tail b + 1) mod size b /\
        lenZ (ecs t) + 1 < size b /\ data b !! Z.to_nat (tail b) = Some (Some (elem a))
    | Some (E_frontBlock _ tb nx) => tb = tailBlock q /\ pend = [] /\ nx = next b
    | Some (E_ahead _ tb) => tb = tailBlock q /\ pend = [] /\ free <> []
    | Some (E_ahead_front _ nb) => pend = [] /\ head (ids free) = Some nb
    | Some (E_ahead_tail _ nb nf) =>
        pend = [] /\ head (ids free) = Some nb /\
        exists b', blocks q !! nb = Some b' /\ front b' = nf
    | Some (E_ahead_write _ nb nt) =>
        pend = [] /\ head (ids free) = Some nb /\
        exists b', blocks q !! nb = Some b' /\ tail b' = nt
    | Some (E_ahead_store a nb nt) =>
        pend = [] /\ head (ids free) = Some nb /\
        exists b', blocks q !! nb = Some b' /\ tail b' = nt /\
                   data b' !! Z.to_nat nt = Some (Some (elem a))
    | Some (E_ahead_publish a n) | Some (E_alloc_publish a n) =>
        pend = [mkEntry n 0 [elem a]]
    | Some (E_alloc_next a tb n) =>
        tb = tailBlock q /\ pend = [] /\ (n ∉ ids (busy ++ pend ++ free)) /\
        exists b', blocks q !! n = Some b' /\ holds 0 b' [elem a]
    | Some (E_alloc_link a tb n) =>
        tb = tailBlock q /\ pend = [] /\ (n ∉ ids (busy ++ pend ++ free)) /\
        exists b', blocks q !! n = Some b' /\ holds 0 b' [elem a] /\ next b' = next b
    end.

(** What the consumer learnt from the tail block it read first: [seen] says that
    the queue was empty then. *)
Definition start_ok q (seen : Prop) (h : entry) (rest : list entry) (ts : nat) : Prop :=
  if decide (ts = frontBlock q) then seen \/ ecs h <> [] else rest <> [].

(** What the consumer knows at each point, [h] being the front block's entry. *)
Definition CI q (busy : list entry) (seen : Prop) (c : option (cpc (T:=T))) : Prop :=
  exists h rest b,
    busy = h :: rest /\ eid h = frontBlock q /\ blocks q !! frontBlock q = Some b /\
    match c with
    | None | Some (D_tailBlock _) => esk h = 0%nat
    | Some (D_frontBlock _ ts) => esk h = 0%nat /\ start_ok q seen h rest ts
    | Some (D_tail _ ts fb) =>
        esk h = 0%nat /\ fb = frontBlock q /\ start_ok q seen h rest ts
    | Some (D_front _ ts fb bt) =>
        esk h = 0%nat /\ fb = frontBlock q /\ (ts <> fb -> rest <> []) /\
        exists n, (n <= length (ecs h))%nat /\ bt = (front b + Z.of_nat n) mod size b /\
                  (if decide (ts = fb) then n = 0%nat -> seen else n = length (ecs h))
    | Some (D_take _ fb bf) =>
        esk h = 0%nat /\ fb = frontBlock q /\ bf = front b /\ ecs h <> []
    | Some (D_store _ fb nf x) =>
        esk h = 1%nat /\ fb = frontBlock q /\ nf = (front b + 1) mod size b /\
        head (ecs h) = Some x
    | Some (D_next _ fb) => esk h = 0%nat /\ fb = frontBlock q /\ ecs h = [] /\ rest <> []
    | Some (D_next_front _ nb) => esk h = 0%nat /\ ecs h = [] /\ head (ids rest) = Some nb
    | Some (D_next_tail _ nb nf) | Some (D_advance _ nb nf) =>
        esk h = 0%nat /\ ecs h = [] /\ head (ids rest) = Some nb /\
        exists b', blocks q !! nb = Some b' /\ front b' = nf
    end.

(** *** The invariant of each thread is stable under the steps of the other *)

Definition same_reader b b' : Prop := front b' = front b /\ size b' = size b.

(** What the producer does to what the consumer sees. *)
Record pgrow q (busy : list entry) q' (busy' : list entry) : Prop := {
  pg_front : frontBlock q' = frontBlock q;
  pg_blocks n b : blocks q !! n = Some b ->
    exists b', blocks q' !! n = Some b' /\ same_reader b b';
  pg_busy h rest : busy = h :: rest -> exists ext rest',
    busy' = mkEntry (eid h) (esk h) (ecs h ++ ext) :: rest' /\
    (rest <> [] -> ext = [] /\ rest' <> [] /\ head (ids rest') = head (ids rest))
}.

Lemma CI_stable q busy q' busy' seen c :
  pgrow q busy q' busy' -> CI q busy seen c -> CI q' busy' seen c.
Proof.
  intros [Hf Hb Hbusy] (h & rest & b & -> & Hh & Hlook & HC).
  destruct (Hbusy h rest eq_refl) as (ext & rest' & -> & Hrest).
  destruct (Hb _ _ Hlook) as (b' & Hlook' & Hfr & Hsz).
  exists (mkEntry (eid h) (esk h) (ecs h ++ ext)), rest', b'.
  rewrite Hf. split_and!; [done..|].
  assert (forall ts, start_ok q seen h rest ts -> start_ok q' seen
     (mkEntry (eid h) (esk h) (ecs h ++ ext)) rest' ts) as Hstart.
  { intros ts. unfold start_ok. rewrite Hf. destruct (decide _); simpl.
    - intros [?|?]; [by left|right]. by intros [? ?]%app_nil.
    - intros ?. by apply Hrest. }
  destruct c as [[]|]; simpl in *; rewrite ?Hf, ?Hfr, ?Hsz; try done.
  - destruct HC; auto.
  - destruct HC as (? & ? & ?); auto.
  - destruct HC as (? & -> & Hr & n & Hn & -> & Hseen). split_and!; [done..| |].
    { intros ?%Hr. by apply Hrest. }
    exists n. split_and!; [rewrite length_app; lia|done|].
    destruct (decide _) as [|Hne]; [done|].
    destruct (Hrest (Hr Hne)) as (-> & _). by rewrite app_nil_r.
  - destruct HC as (? & ? & ? & Hne). split_and!; [done..|]. by intros [? ?]%app_nil.
  - destruct HC as (? & ? & ? & Hx). split_and!; [done..|]. by destruct (ecs h).
  - destruct HC as (? & ? & -> & Hr). by destruct (Hrest Hr) as (-> & ? & _).
  - destruct HC as (? & -> & Hr). assert (rest <> []) as Hne by by destruct rest.
    destruct (Hrest Hne) as (-> & _ & ->). done.
  - destruct HC as (? & -> & Hr & b1 & Hb1 & <-).
    assert (rest <> []) as Hne by by destruct rest.
    destruct (Hrest Hne) as (-> & _ & ->). destruct (Hb _ _ Hb1) as (b2 & ? & ? & ?). eauto 10.
  - destruct HC as (? & -> & Hr & b1 & Hb1 & <-).
    assert (rest <> []) as Hne by by destruct rest.
    destruct (Hrest Hne) as (-> & _ & ->). destruct (Hb _ _ Hb1) as (b2 & ? & ? & ?). eauto 10.
Qed.

(** What the consumer does to what the producer sees. *)
Record cgrow q (busy pend free : list entry) q' (busy' free' : list entry) : Prop := {
  cg_tail : tailBlock q' = tailBlock q;
  cg_blocks n b : blocks q !! n = Some b -> exists b',
    blocks q' !! n = Some b' /\ tail b' = tail b /\ next b' = next b /\
    size b' = size b /\ (n <> frontBlock q -> b' = b);
  cg_last pre t b : busy = pre ++ [t] -> blocks q !! eid t = Some b ->
    exists pre' t' b' (n : nat),
      busy' = pre' ++ [t'] /\ eid t' = eid t /\ blocks q' !! eid t = Some b' /\
      (length (ecs t) = n + length (ecs t'))%nat /\
      front b' = (front b + Z.of_nat n) mod size b /\
      data b' !! Z.to_nat (tail b) = data b !! Z.to_nat (tail b);
  cg_free : exists ext, free' = free ++ ext;
  cg_ids n : n ∈ ids (busy' ++ pend ++ free') -> n ∈ ids (busy ++ pend ++ free)
}.

Lemma head_app {A} (l k : list A) x : head l = Some x -> head (l ++ k) = Some x.
Proof. by destruct l. Qed.

Lemma head_elem {A} (l : list A) x : head l = Some x -> x ∈ l.
Proof. destruct l; intros [= ->]. left. Qed.

Lemma ring_free_ne q busy pend free n :
  ring q busy pend free -> n ∈ ids (pend ++ free) -> n <> frontBlock q.
Proof.
  intros R Hn ->. pose proof (ring_nodup _ _ _ _ R) as Hnd.
  pose proof (ring_front _ _ _ _ R) as Hf.
  rewrite map_app in Hnd. apply list.NoDup_app in Hnd as (_ & Hd & _).
  by apply (Hd (frontBlock q)); [apply head_elem|].
Qed.

Lemma PI_stable q busy pend free q' busy' free' p :
  ring q busy pend free -> cgrow q busy pend free q' busy' free' ->
  PI q busy pend free p -> PI q' busy' pend free' p.
Proof.
  intros R [Ht Hb Hl [ext ->] Hids] (pre & t & b & -> & Et & Hlook & HP).
  rewrite <- Et in Hlook.
  destruct (Hl pre t b eq_refl Hlook) as (pre' & t' & b' & n & -> & Et' & Hlook' & Hlen & Hfr & Hdt).
  destruct (Hb _ _ Hlook) as (b1 & Hb1 & Htl & Hnx & Hsz & _). simplify_eq.
  exists pre', t', b'. rewrite Ht. split_and!; [done|congruence|congruence|].
  assert (forall nb b2, head (ids free) = Some nb -> blocks q !! nb = Some b2 ->
            head (ids (free ++ ext)) = Some nb /\ blocks q' !! nb = Some b2) as Hfree.
  { intros nb b2 Hnb Hb2. rewrite map_app. split; [by apply head_app|].
    destruct (Hb _ _ Hb2) as (b3 & ? & _ & _ & _ & Hsame).
    rewrite <- Hsame; [done|]. eapply ring_free_ne; [done|].
    rewrite map_app. apply elem_of_app. right. by apply head_elem. }
  assert (forall m b2, m ∉ ids ((pre ++ [t]) ++ pend ++ free) -> blocks q !! m = Some b2 ->
            blocks q' !! m = Some b2) as Hnew.
  { intros m b2 Hm Hb2. destruct (Hb _ _ Hb2) as (b3 & ? & _ & _ & _ & Hsame).
    rewrite <- Hsame; [done|]. intros ->. apply Hm.
    pose proof (ring_front _ _ _ _ R) as Hf. rewrite map_app. apply elem_of_app. left.
    by apply head_elem. }
  destruct p as [[]|]; simpl in *; rewrite ?Htl, ?Hnx, ?Hsz; try done.
  - destruct HP as (? & ? & d & ? & ? & Hd & ?). split_and!; [done..|].
    exists (d + Z.of_nat n). split_and!; [lia..| |lia].
    rewrite Hfr, Hd, mod_ring_add by lia. f_equal. lia.
  - destruct HP as (? & ? & ? & ? & ?). split_and!; [done..|lia].
  - destruct HP as (? & ? & ? & ? & <-). split_and!; [done..|lia|done].
  - destruct HP as (? & ? & Hne). split_and!; [done..|]. by intros [? ?]%app_nil.
  - destruct HP as (? & Hh). rewrite map_app. eauto using head_app.
  - destruct HP as (? & Hh & b2 & Hb2 & ?). destruct (Hfree _ _ Hh Hb2). eauto.
  - destruct HP as (? & Hh & b2 & Hb2 & ?). destruct (Hfree _ _ Hh Hb2). eauto.
  - destruct HP as (? & Hh & b2 & Hb2 & ?). destruct (Hfree _ _ Hh Hb2). eauto.
  - destruct HP as (? & ? & Hn & b2 & Hb2 & ?). split_and!; [done..|auto|eauto].
  - destruct HP as (? & ? & Hn & b2 & Hb2 & ?). split_and!; [done..|auto|eauto].
Qed.

(** *** The effect of an access on the ring *)

Lemma ok_holds bl e b : ok bl e -> bl !! eid e = Some b -> holds (esk e) b (ecs e).
Proof. intros (b' & E & H) E'. congruence. Qed.

Lemma ring_holds q busy pend free e b :
  ring q busy pend free -> e ∈ busy ++ pend ++ free -> blocks q !! eid e = Some b ->
  holds (esk e) b (ecs e).
Proof. intros R He. apply ok_holds. eapply Forall_elem; [apply R|done]. Qed.

Lemma lookup_alter_if {A} (g : A -> A) (l : list A) (n m : nat) a :
  l !! m = Some a -> alter g n l !! m = Some (if decide (m = n) then g a else a).
Proof.
  intros E. destruct (decide (m = n)) as [->|].
  - by rewrite list_lookup_alter_eq, E.
  - by rewrite list_lookup_alter_ne by congruence.
Qed.

(** The access by [g] to block [n] turns the entry [e] into [e']. *)
Definition evolves (bl : list (Block T)) n g (e e' : entry) : Prop :=
  eid e' = eid e /\
  if decide (eid e = n) then
    forall b, bl !! n = Some b -> holds (esk e) b (ecs e) -> holds (esk e') (g b) (ecs e')
  else esk e' = esk e /\ ecs e' = ecs e.

Lemma ok_alter bl n g l l' :
  Forall (ok bl) l -> Forall2 (evolves bl n g) l l' -> Forall (ok (alter g n bl)) l'.
Proof.
  intros Hl H2. induction H2 as [|e e' l l' [Eid He] H2 IH]; [done|].
  apply Forall_cons_1 in Hl as [(b & Hb & Hh) Hl]. constructor; [|auto].
  rewrite <- Eid in Hb. exists (if decide (eid e' = n) then g b else b).
  split; [by apply lookup_alter_if|].
  rewrite Eid in *. destruct (decide (eid e = n)) as [<-|].
  - by apply He.
  - by destruct He as [-> ->].
Qed.

Lemma linked_ext bl bl' l z :
  (forall a c, a ∈ l -> (bl !! a ≫= next) = Some c -> (bl' !! a ≫= next) = Some c) ->
  linked bl (l ++ [z]) -> linked bl' (l ++ [z]).
Proof.
  induction l as [|a l IH]; [done|]. intros Hext.
  assert (linked bl (l ++ [z]) -> linked bl' (l ++ [z])) as IH'.
  { apply IH. intros. apply Hext; [by right|done]. }
  specialize (Hext a). destruct l as [|c l]; intros [Ha Hl];
    (split; [apply Hext; [left|done]|by try apply IH']).
Qed.

Lemma linked_alter bl n g l z :
  (forall b, next (g b) = next b) -> linked bl (l ++ [z]) -> linked (alter g n bl) (l ++ [z]).
Proof.
  intros Hg. apply linked_ext. intros a c _ E.
  destruct (bl !! a) as [b|] eqn:Eb; [|done]. simpl in E.
  rewrite (lookup_alter_if _ _ _ _ _ Eb). simpl. case_decide; [|done]. by rewrite Hg.
Qed.

Lemma linked_cons bl x y l :
  linked bl (x :: y :: l) <-> (bl !! x ≫= next) = Some y /\ linked bl (y :: l).
Proof. done. Qed.

Lemma linked_app bl l a k : linked bl (l ++ a :: k) <-> linked bl (l ++ [a]) /\ linked bl (a :: k).
Proof.
  induction l as [|x l IH]; [simpl; tauto|].
  destruct l as [|y l]; [simpl; tauto|].
  cbn [app] in *. rewrite !(linked_cons bl x y). tauto.
Qed.

(** An access that keeps the links and the kind of every entry. *)
Lemma ring_upd q busy pend free n g busy' pend' free' :
  ring q busy pend free ->
  (forall b, next (g b) = next b) ->
  ids busy' = ids busy ->
  Forall2 (evolves (blocks q) n g) (busy ++ pend ++ free) (busy' ++ pend' ++ free') ->
  Forall nonempty (List.tl busy') ->
  Forall (fun e => (esk e <= length (ecs e))%nat) busy' ->
  Forall nonempty pend' -> Forall empty free' ->
  ring (upd n g q) busy' pend' free'.
Proof.
  intros R Hg Hids H2 Hrest Hsk Hpend Hfree.
  assert (ids (busy' ++ pend' ++ free') = ids (busy ++ pend ++ free)) as Eids.
  { clear -H2. induction H2 as [|e e' ? ? [? _] ? IH]; simpl; congruence. }
  destruct R. split; simpl; rewrite ?Hids, ?Eids; try done.
  - by eapply ok_alter.
  - by apply linked_alter.
Qed.

(** The entries other than [n]'s are kept. *)
Lemma kept_ne bl n g l :
  n ∉ ids l -> Forall2 (evolves bl n g) l l.
Proof.
  induction l as [|e l IH]; simpl; [constructor|].
  intros [? ?]%not_elem_of_cons. constructor; [|by apply IH].
  split; [done|]. by rewrite decide_False by congruence.
Qed.

Lemma evolves_refl bl n g l :
  (forall b e, e ∈ l -> eid e = n -> bl !! n = Some b ->
    holds (esk e) b (ecs e) -> holds (esk e) (g b) (ecs e)) ->
  Forall2 (evolves bl n g) l l.
Proof.
  intros H. apply Forall_Forall2_diag, List.Forall_forall. intros e He.
  apply list_elem_of_In in He. split; [done|].
  destruct (decide _); [|done]. eauto.
Qed.

(** An element is constructed behind the last one of a block. *)
Lemma ring_construct q busy pend free n b x :
  ring q busy pend free -> blocks q !! n = Some b ->
  ring (upd n (set_slot (tail b) (Some x)) q) busy pend free.
Proof.
  intros R Hb. destruct (R) as [_ _ _ _ _ ? ? ? ? _].
  eapply ring_upd; [done|done|done| |done..].
  apply evolves_refl. intros b' e _ _ ? ?. simplify_eq. by apply holds_construct.
Qed.

Lemma ring_ids_tail q pre t pend free :
  ring q (pre ++ [t]) pend free -> (eid t ∉ ids pre) /\ (eid t ∉ ids (pend ++ free)).
Proof.
  intros R. pose proof (ring_nodup _ _ _ _ R) as Hnd.
  rewrite !map_app, <- (assoc_L (++)) in Hnd. simpl in Hnd.
  apply list.NoDup_app in Hnd as (_ & Hd & Hnd).
  apply list.NoDup_cons in Hnd as [Hn _]. split; [|by rewrite map_app].
  intros Ht. apply (Hd _ Ht). left.
Qed.

Lemma Forall_tl_snoc {A} (P : A -> Prop) l x y :
  Forall P (List.tl (l ++ [x])) -> (P x -> P y) -> Forall P (List.tl (l ++ [y])).
Proof.
  destruct l as [|z l]; simpl; [done|]. rewrite !Forall_app, !Forall_singleton. tauto.
Qed.

(** The tail index of the tail block is moved over a constructed element. *)
Lemma ring_push q pre t pend free b x :
  ring q (pre ++ [t]) pend free -> blocks q !! eid t = Some b ->
  lenZ (ecs t) + 1 < size b -> data b !! Z.to_nat (tail b) = Some (Some x) ->
  ring (upd (eid t) (set_tail ((tail b + 1) mod size b)) q)
       (pre ++ [mkEntry (eid t) (esk t) (ecs t ++ [x])]) pend free.
Proof.
  intros R Hb Hroom Hx. destruct (ring_ids_tail _ _ _ _ _ R) as [H1 H2].
  pose proof (ring_sk _ _ _ _ R) as Hsk. apply Forall_app in Hsk as [Hsk Ht].
  apply Forall_cons_1 in Ht as [Ht _].
  eapply ring_upd; [done|done|by rewrite !map_app| | | |apply R|apply R].
  - rewrite <- !(assoc_L (++)). apply Forall2_app; [by apply kept_ne|].
    constructor; [|by apply kept_ne]. split; [done|]. rewrite decide_True by done.
    intros b' ? ?. simplify_eq/=. by apply holds_push.
  - eapply Forall_tl_snoc; [apply R|]. intros [? ?]. split; [done|]. by intros [? ?]%app_nil.
  - apply Forall_app. split; [done|]. apply Forall_singleton. simpl. rewrite length_app. lia.
Qed.

Lemma ring_ids_mid q busy l k :
  ring q busy [] (l ++ k) -> forall n, n ∈ ids l -> (n ∉ ids busy) /\ (n ∉ ids k).
Proof.
  intros R n Hn. pose proof (ring_nodup _ _ _ _ R) as Hnd. simpl in Hnd.
  rewrite !map_app in Hnd. apply list.NoDup_app in Hnd as (_ & Hd & Hnd).
  apply list.NoDup_app in Hnd as (_ & Hd' & _). split; [|by apply Hd'].
  intros Hb. apply (Hd _ Hb). apply elem_of_app. by left.
Qed.

(** The tail index of the free block ahead is moved over a constructed element. *)
Lemma ring_ahead q busy f free b x :
  ring q busy [] (f :: free) -> blocks q !! eid f = Some b ->
  data b !! Z.to_nat (tail b) = Some (Some x) ->
  ring (upd (eid f) (set_tail ((tail b + 1) mod size b)) q)
       busy [mkEntry (eid f) 0 [x]] free.
Proof.
  intros R Hb Hx. destruct (ring_ids_mid q busy [f] free R (eid f)) as [H1 H2]; [left|].
  pose proof (ring_free _ _ _ _ R) as Hfree. apply Forall_cons_1 in Hfree as [[Hsk Hcs] Hfree].
  eapply ring_upd; [done|done|done| |apply R|apply R| |done].
  - apply Forall2_app; [by apply kept_ne|]. constructor; [|by apply kept_ne].
    split; [done|]. rewrite decide_True by done. rewrite Hsk, Hcs. intros b' ? Hh. simplify_eq.
    pose proof (holds_size _ _ _ Hh).
    apply (holds_push 0 b [] x); [done|simpl; lia..|done].
  - by apply Forall_singleton.
Qed.

(** The tail pointer is moved to the block that was filled. *)
Lemma ring_publish q busy e free :
  ring q busy [e] free -> ring (set_tailBlock (eid e) q) (busy ++ [e]) [] free.
Proof.
  intros [Hf Ht Hok Hnd Hl Hr Hsk Hp Hfr Hla].
  pose proof (Forall_cons_1 _ _ _ Hp) as [[He1 He2] _].
  split; simpl; rewrite <- ?(assoc_L (++)); try done.
  - rewrite map_app. by apply head_app.
  - rewrite map_app. apply last_snoc.
  - destruct busy as [|h busy]; [done|]. simpl. by apply Forall_app.
  - apply Forall_app. split; [done|]. apply Forall_singleton. lia.
Qed.

(** A fresh block is allocated; nothing points to it. *)
Lemma ok_app bl l k : Forall (ok bl) l -> Forall (ok (bl ++ k)) l.
Proof.
  apply List.Forall_impl. intros e (b & Hb & Hh). exists b.
  split; [|done]. by apply lookup_app_l_Some.
Qed.

Lemma ring_alloc q busy free b sz :
  ring q busy [] free -> (exists k, 1 <= k < 63 /\ sz = 2 ^ k) ->
  ring (mkQueue (blocks q ++ [b]) (frontBlock q) (tailBlock q) sz) busy [] free.
Proof.
  intros [Hf Ht Hok Hnd Hl Hr Hsk Hp Hfr Hla] Hsz.
  split; simpl; try done.
  - by apply ok_app.
  - eapply linked_ext; [|exact Hl]. intros a c _ E.
    destruct (blocks q !! a) eqn:Ea; [|done]. by rewrite (lookup_app_l_Some _ _ _ _ Ea).
Qed.

(** An access to a block outside of the ring. *)
Lemma ring_outside q busy pend free n g :
  ring q busy pend free -> n ∉ ids (busy ++ pend ++ free) -> ring (upd n g q) busy pend free.
Proof.
  intros [Hf Ht Hok Hnd Hl Hr Hsk Hp Hfr Hla] Hn.
  split; simpl; try done.
  - eapply ok_alter; [done|]. by apply kept_ne.
  - eapply linked_ext; [|exact Hl]. intros a c Ha E.
    by rewrite list_lookup_alter_ne by (intros ->; done).
Qed.

Lemma ids_split pre t (k : list entry) z :
  ids ((pre ++ [t]) ++ k) ++ [z] = ids pre ++ eid t :: ids k ++ [z].
Proof. rewrite !map_app, <- !(assoc_L (++)). done. Qed.

(** The block behind the tail block is the first free one, or the front block. *)
Lemma ring_next q pre t free b :
  ring q (pre ++ [t]) [] free -> blocks q !! eid t = Some b ->
  next b = head (ids free ++ [frontBlock q]).
Proof.
  intros R Hb. pose proof (ring_linked _ _ _ _ R) as Hl. simpl in Hl.
  rewrite ids_split in Hl. apply linked_app in Hl as [_ Hl].
  destruct (ids free ++ [frontBlock q]) as [|c k] eqn:E; [by apply app_nil in E as [_ ?]|].
  destruct Hl as [Hl _]. by rewrite Hb in Hl.
Qed.

(** The fresh block is linked in behind the tail block. *)
Lemma ring_link q pre t free n b b' x :
  ring q (pre ++ [t]) [] free -> blocks q !! eid t = Some b ->
  n ∉ ids ((pre ++ [t]) ++ free) -> blocks q !! n = Some b' -> holds 0 b' [x] ->
  next b' = next b ->
  ring (upd (eid t) (set_next (Some n)) q) (pre ++ [t]) [mkEntry n 0 [x]] free.
Proof.
  intros R Hb Hn Hb' Hx Hnext. pose proof (ring_next _ _ _ _ _ R Hb) as Hnb.
  assert (eid t <> n) as Hne.
  { intros <-. apply Hn. rewrite !map_app, !elem_of_app. left. right. left. }
  destruct (ring_ids_tail _ _ _ _ _ R) as [H1 H2]. simpl in H2.
  destruct R as [Hf Ht Hok Hnd Hl Hr Hsk Hp Hfr Hla]. simpl in *.
  split; simpl; try done.
  - eapply ok_alter with (l := (pre ++ [t]) ++ mkEntry n 0 [x] :: free).
    + apply Forall_app in Hok as [? ?]. apply Forall_app. split; [done|].
      constructor; [|done]. by exists b'.
    + apply evolves_refl. intros b0 e _ _ _ []. by split.
  - rewrite map_app in *. simpl. rewrite <- Permutation_middle.
    by apply list.NoDup_cons.
  - rewrite ids_split in *. apply linked_app in Hl as [Hl1 Hl2]. apply linked_app.
    split.
    + eapply linked_ext; [|done]. intros a c Ha E.
      by rewrite list_lookup_alter_ne by (intros <-; done).
    + simpl. rewrite list_lookup_alter_eq, Hb. simpl. split; [done|].
      assert (linked (alter (set_next (Some n)) (eid t) (blocks q))
                (ids free ++ [frontBlock q])) as Hfree.
      { apply (linked_ext (blocks q)).
        - intros a c Ha E. by rewrite list_lookup_alter_ne by (intros <-; done).
        - destruct (ids free ++ [frontBlock q]); [done|]. by destruct Hl2. }
      destruct (ids free ++ [frontBlock q]) as [|c k] eqn:E; [done|].
      split; [|done]. rewrite list_lookup_alter_ne, Hb' by done. simpl. by rewrite Hnext, Hnb.
  - by apply Forall_singleton.
Qed.

(** *** The producer's steps keep the invariant *)

Definition bgrow (busy busy' : list entry) : Prop :=
  forall h rest, busy = h :: rest -> exists ext rest',
    busy' = mkEntry (eid h) (esk h) (ecs h ++ ext) :: rest' /\
    (rest <> [] -> ext = [] /\ rest' <> [] /\ head (ids rest') = head (ids rest)).

Lemma bgrow_refl busy : bgrow busy busy.
Proof.
  intros [i s c] rest ->. exists [], rest. simpl. by rewrite app_nil_r.
Qed.

Lemma bgrow_push pre t x :
  bgrow (pre ++ [t]) (pre ++ [mkEntry (eid t) (esk t) (ecs t ++ [x])]).
Proof.
  intros h rest E. destruct pre as [|h' pre]; simplify_eq/=.
  - by exists [x], [].
  - destruct h as [i s c]. exists [], (pre ++ [mkEntry (eid t) (esk t) (ecs t ++ [x])]).
    simpl. rewrite app_nil_r. split; [done|]. intros _. split_and!; [done| |by destruct pre].
    by intros [? ?]%app_nil.
Qed.

Lemma bgrow_app busy e : bgrow busy (busy ++ [e]).
Proof.
  intros [i s c] rest ->. exists [], (rest ++ [e]). simpl. rewrite app_nil_r.
  split; [done|]. intros Hne. split_and!; [done|by intros [? ?]%app_nil|]. by destruct rest.
Qed.

Lemma pgrow_upd q n g busy busy' :
  (forall b, same_reader b (g b)) -> bgrow busy busy' -> pgrow q busy (upd n g q) busy'.
Proof.
  intros Hg Hb. split; [done| |done]. intros m b E. simpl.
  rewrite (lookup_alter_if _ _ _ _ _ E). eexists. split; [done|]. by case_decide.
Qed.

Lemma pgrow_refl q busy : pgrow q busy q busy.
Proof. split; [done| |apply bgrow_refl]. intros n b ->. by exists b. Qed.

Lemma pgrow_publish q busy n e : pgrow q busy (set_tailBlock n q) (busy ++ [e]).
Proof. split; [done| |apply bgrow_app]. intros m b E. by exists b. Qed.

Lemma elements_app l k : elements (l ++ k) = elements l ++ elements k.
Proof. unfold elements. by rewrite map_app, concat_app. Qed.

Lemma elements_push pre t x :
  elements (pre ++ [mkEntry (eid t) (esk t) (ecs t ++ [x])]) = elements (pre ++ [t]) ++ [x].
Proof.
  rewrite !elements_app. unfold elements. simpl. by rewrite !app_nil_r, (assoc_L (++)).
Qed.

(** The state after a step of the producer that published [xs]. *)
Definition kept q busy q' (p' : option (ppc (T:=T))) (xs : list T) : Prop :=
  exists busy' pend' free',
    ring q' busy' pend' free' /\ PI q' busy' pend' free' p' /\
    pgrow q busy q' busy' /\ elements busy' = elements busy ++ xs.

Definition prod_post q busy (p : ppc (T:=T)) (o : outcome (ppc (T:=T)) bool) : Prop :=
  match o with
  | Next q' p' => kept q busy q' (Some p') []
  | Ret q' r => kept q busy q' None (if r then [elem (arg_of_pc p)] else [])
  | Abort => True
  | Undef => False
  end.

Lemma kept_stay q busy pend free p' :
  ring q busy pend free -> PI q busy pend free p' -> kept q busy q p' [].
Proof.
  intros. exists busy, pend, free. rewrite app_nil_r. auto using pgrow_refl.
Qed.

(** Reading the indices of the tail block: the front the producer read earlier
    may have moved since, but then there is only more room. *)
Lemma tail_room sk b cs bf d :
  holds sk b cs -> 0 <= d -> 0 <= bf < size b -> front b = (bf + d) mod size b ->
  d + lenZ cs < size b -> bump b (tail b) <> bf -> lenZ cs + 1 < size b.
Proof.
  intros H Hd Hbf Hf Hroom Hne. pose proof (holds_size _ _ _ H).
  destruct (Z.eq_dec (d + lenZ cs + 1) (size b)) as [E|]; [|lia].
  destruct Hne. rewrite (bump_mod _ _ _ _ H) by (eapply holds_tail_range; done).
  rewrite (holds_tail _ _ _ H), Hf, mod_ring_add, <- Z.add_assoc, mod_ring_add by lia.
  replace (bf + d + (lenZ cs + 1)) with (bf + 1 * size b) by lia.
  rewrite Z.mod_add by lia. apply Z.mod_small. lia.
Qed.

Lemma PI_view q busy pend free p :
  PI q busy pend free p -> ring q busy pend free ->
  exists pre t b, busy = pre ++ [t] /\ eid t = tailBlock q /\
    blocks q !! tailBlock q = Some b /\ holds (esk t) b (ecs t).
Proof.
  intros (pre & t & b & -> & Et & Hb & _) R. exists pre, t, b. split_and!; [done..|].
  eapply ring_holds; [done| |congruence].
  rewrite !elem_of_app. left. right. left.
Qed.

Lemma free_view q busy pend free nb :
  ring q busy pend free -> head (ids free) = Some nb ->
  exists f free' b, free = f :: free' /\ eid f = nb /\ empty f /\
    blocks q !! nb = Some b /\ holds 0 b [].
Proof.
  intros R Hh. destruct free as [|f free']; simplify_eq/=.
  pose proof (ring_free _ _ _ _ R) as Hf. apply Forall_cons_1 in Hf as [[Hs Hc] _].
  pose proof (ring_ok _ _ _ _ R) as Hok. apply Forall_app in Hok as [_ Hok].
  apply Forall_app in Hok as [_ Hok]. apply Forall_cons_1 in Hok as [(b & ? & Hh) _].
  rewrite Hs, Hc in Hh. exists f, free', b. done.
Qed.

(** A new block, empty and with its first element. *)
Lemma holds_new sz : (exists k, 1 <= k < 63 /\ sz = 2 ^ k) -> holds 0 (Block_new sz) [].
Proof.
  intros Hsz. assert (0 < sz) by (destruct Hsz as (k & ? & ->); lia).
  split; simpl; try done. rewrite length_replicate. lia.
Qed.

Lemma holds_first sz x :
  (exists k, 1 <= k < 63 /\ sz = 2 ^ k) ->
  holds 0 (set_tail 1 (set_slot 0 (Some x) (Block_new sz))) [x].
Proof.
  intros Hsz. pose proof (holds_new _ Hsz) as H. pose proof (holds_size _ _ _ H) as Hs.
  simpl in Hs. pose proof (holds_construct _ _ _ x H) as H1.
  apply (holds_push 0 _ [] x) in H1; simpl in *; [|lia..|].
  - by rewrite Z.mod_small in H1 by lia.
  - change (Z.to_nat 0) with 0%nat. destruct (Z.to_nat sz) eqn:E; [lia|]. done.
Qed.

Lemma ring_fresh q busy pend free :
  ring q busy pend free -> length (blocks q) ∉ ids (busy ++ pend ++ free).
Proof.
  intros R (e & He & Hin)%list_elem_of_fmap.
  pose proof (Forall_elem _ _ _ (ring_ok _ _ _ _ R) Hin) as (b & Hb & _).
  apply lookup_lt_Some in Hb. lia.
Qed.

(** [open_PI]: the tail block, its entry, and what the producer knows of them. *)
Ltac open_PI R HP :=
  let pre' := fresh in let t' := fresh in let b' := fresh in let E := fresh in
  let Hb' := fresh in
  destruct (PI_view _ _ _ _ _ HP R) as (pre & t & b & -> & Et & Hb & Hh);
  destruct HP as (pre' & t' & b' & E & _ & Hb' & HP);
  apply app_inj_tail in E as [<- <-]; rewrite Hb in Hb'; injection Hb' as <-;
  simpl in HP; unfold prod_step, construct, with_block;
  pose proof (holds_tail_range _ _ _ Hh) as Htl; pose proof (holds_size _ _ _ Hh) as Hsz.

(** [stay]: the step only reads. *)
Ltac stay pre t b := eapply kept_stay; [done|]; exists pre, t, b; split_and!; try done.

Section Producer.
Variables (q : ReaderWriterQueue T) (busy pend free : list entry).
Hypothesis R : ring q busy pend free.

Lemma prod_E_front a tb :
  PI q busy pend free (Some (E_front a tb)) ->
  prod_post q busy (E_front a tb) (prod_step max_size q (E_front a tb)).
Proof using R.
  intros HP. open_PI R HP. destruct HP as [-> ->]. rewrite Hb. stay pre t b.
  exists 0. pose proof (holds_room _ _ _ Hh). pose proof (holds_front _ _ _ Hh).
  rewrite Z.add_0_r, Z.mod_small by lia. split_and!; lia.
Qed.

Lemma prod_E_tail a tb bf :
  PI q busy pend free (Some (E_tail a tb bf)) ->
  prod_post q busy (E_tail a tb bf) (prod_step max_size q (E_tail a tb bf)).
Proof using R.
  intros HP. open_PI R HP. destruct HP as (-> & -> & d & Hd & Hbf & Hf & Hroom).
  rewrite Hb. simpl. destruct (Z.eqb_spec (bump b (tail b)) bf) as [|Hne]; stay pre t b.
  - by eapply bump_mod.
  - by apply (tail_room (esk t) b (ecs t) bf d).
Qed.

Lemma prod_E_write a tb bt nt :
  PI q busy pend free (Some (E_write a tb bt nt)) ->
  prod_post q busy (E_write a tb bt nt) (prod_step max_size q (E_write a tb bt nt)).
Proof using R.
  intros HP. open_PI R HP. destruct HP as (-> & -> & -> & -> & Hroom). rewrite Hb.
  pose proof (holds_data _ _ _ Hh) as Hd.
  destruct (Z.leb_spec 0 (tail b)); [|lia]. destruct (Z.ltb_spec (tail b) (lenZ (data b))); [|lia].
  exists (pre ++ [t]), [], free. split_and!.
  - by apply ring_construct.
  - exists pre, t, (set_slot (tail b) (Some (elem a)) b). simpl.
    rewrite list_lookup_alter_eq, Hb. split_and!; try done.
    apply list_lookup_insert_eq. lia.
  - apply pgrow_upd; [done|apply bgrow_refl].
  - by rewrite app_nil_r.
Qed.

Lemma prod_E_publish a tb nt :
  PI q busy pend free (Some (E_publish a tb nt)) ->
  prod_post q busy (E_publish a tb nt) (prod_step max_size q (E_publish a tb nt)).
Proof using R.
  intros HP. open_PI R HP. destruct HP as (-> & -> & -> & Hroom & Hx).
  rewrite <- Et in *.
  exists (pre ++ [mkEntry (eid t) (esk t) (ecs t ++ [elem a])]), [], free. split_and!.
  - by apply ring_push.
  - exists pre, (mkEntry (eid t) (esk t) (ecs t ++ [elem a])),
      (set_tail ((tail b + 1) mod size b) b).
    simpl. rewrite <- Et, list_lookup_alter_eq, Hb. done.
  - apply pgrow_upd; [done|apply bgrow_push].
  - apply elements_push.
Qed.

Lemma prod_E_frontBlock a tb nx :
  PI q busy pend free (Some (E_frontBlock a tb nx)) ->
  prod_post q busy (E_frontBlock a tb nx) (prod_step max_size q (E_frontBlock a tb nx)).
Proof using R.
  intros HP. open_PI R HP. destruct HP as (-> & -> & ->). rewrite <- Et in Hb.
  rewrite (ring_next _ _ _ _ _ R Hb). rewrite Et in Hb.
  destruct (decide _) as [|Hne].
  - destruct (canAlloc a); stay pre t b.
  - stay pre t b. by intros ->.
Qed.

Lemma prod_E_ahead a tb :
  PI q busy pend free (Some (E_ahead a tb)) ->
  prod_post q busy (E_ahead a tb) (prod_step max_size q (E_ahead a tb)).
Proof using R.
  intros HP. open_PI R HP. destruct HP as (-> & -> & Hne). rewrite Hb.
  rewrite <- Et in Hb. rewrite (ring_next _ _ _ _ _ R Hb). rewrite Et in Hb.
  destruct free as [|f free']; [done|]. simpl. stay pre t b.
Qed.

Lemma prod_E_ahead_reads a nb p :
  p = E_ahead_front a nb \/ (exists nf, p = E_ahead_tail a nb nf) ->
  PI q busy pend free (Some p) -> prod_post q busy p (prod_step max_size q p).
Proof using R.
  intros Hp HP. assert (head (ids free) = Some nb) as Hn.
  { destruct HP as (?&?&?&?&?&?&HP). destruct Hp as [->|[? ->]]; simpl in HP; tauto. }
  destruct (free_view _ _ _ _ _ R Hn) as (f & free' & b2 & Ef & Enb & He & Hb2 & Hh2).
  destruct Hp as [->|[nf ->]]; open_PI R HP; rewrite Hb2.
  - destruct HP as [-> _]. stay pre t b. by exists b2.
  - destruct HP as (-> & _ & b3 & Hb3 & <-). simplify_eq.
    pose proof (holds_tail _ _ _ Hh2) as Ht2. simpl in Ht2.
    rewrite Z.add_0_r, Z.mod_small in Ht2 by apply Hh2.
    rewrite Ht2, Z.eqb_refl. stay pre t b. exists b3. done.
Qed.

Lemma prod_E_ahead_write a nb nt :
  PI q busy pend free (Some (E_ahead_write a nb nt)) ->
  prod_post q busy (E_ahead_write a nb nt) (prod_step max_size q (E_ahead_write a nb nt)).
Proof using R.
  intros HP. open_PI R HP. destruct HP as (-> & Hn & b2 & Hb2 & <-).
  destruct (free_view _ _ _ _ _ R Hn) as (f & free' & b3 & Ef & Enb & He & Hb3 & Hh2).
  simplify_eq. rewrite Hb2. pose proof (holds_data _ _ _ Hh2).
  pose proof (holds_tail_range _ _ _ Hh2).
  destruct (Z.leb_spec 0 (tail b2)); [|lia]. destruct (Z.ltb_spec (tail b2) (lenZ (data b2))); [|lia].
  assert (tailBlock q <> eid f) as Hne.
  { intros E. destruct (ring_ids_tail _ _ _ _ _ R) as [_ Hn']. apply Hn'. rewrite Et, E. left. }
  exists (pre ++ [t]), [], (f :: free'). split_and!.
  - by apply ring_construct.
  - exists pre, t, b. simpl. rewrite list_lookup_alter_ne by congruence.
    split_and!; try done. rewrite list_lookup_alter_eq, Hb2.
    eexists. split_and!; [done|done|]. apply list_lookup_insert_eq. lia.
  - apply pgrow_upd; [done|apply bgrow_refl].
  - by rewrite app_nil_r.
Qed.

Lemma prod_E_ahead_store a nb nt :
  PI q busy pend free (Some (E_ahead_store a nb nt)) ->
  prod_post q busy (E_ahead_store a nb nt) (prod_step max_size q (E_ahead_store a nb nt)).
Proof using R.
  intros HP. open_PI R HP. destruct HP as (-> & Hn & b2 & Hb2 & <- & Hx).
  destruct (free_view _ _ _ _ _ R Hn) as (f & free' & b3 & Ef & Enb & He & Hb3 & Hh2).
  simplify_eq. rewrite Hb2. rewrite (bump_mod _ _ _ _ Hh2) by (by eapply holds_tail_range).
  assert (tailBlock q <> eid f) as Hne.
  { intros E. destruct (ring_ids_tail _ _ _ _ _ R) as [_ Hn']. apply Hn'. rewrite Et, E. left. }
  exists (pre ++ [t]), [mkEntry (eid f) 0 [elem a]], free'. split_and!.
  - by apply ring_ahead.
  - exists pre, t, b. simpl. by rewrite list_lookup_alter_ne by congruence.
  - apply pgrow_upd; [done|apply bgrow_refl].
  - by rewrite app_nil_r.
Qed.

Lemma prod_publish a n p :
  p = E_ahead_publish a n \/ p = E_alloc_publish a n ->
  PI q busy pend free (Some p) -> prod_post q busy p (prod_step max_size q p).
Proof using R.
  intros Hp HP. assert (pend = [mkEntry n 0 [elem a]]) as Epend.
  { destruct HP as (?&?&?&?&?&?&HP). by destruct Hp as [->| ->]. }
  clear HP. subst pend.
  assert (kept q busy (set_tailBlock n q) None [elem a]); [|by destruct Hp as [->| ->]].
  pose proof (ring_ok _ _ _ _ R) as Hok. apply Forall_app in Hok as [_ Hok].
  apply Forall_cons_1 in Hok as [(b & Hb & _) _].
  exists (busy ++ [mkEntry n 0 [elem a]]), [], free. split_and!.
  - exact (ring_publish _ _ _ _ R).
  - by exists busy, (mkEntry n 0 [elem a]), b.
  - apply pgrow_publish.
  - apply elements_app.
Qed.

Lemma prod_E_alloc a tb :
  PI q busy pend free (Some (E_alloc a tb)) ->
  prod_post q busy (E_alloc a tb) (prod_step max_size q (E_alloc a tb)).
Proof using R max_size_bound.
  intros HP. open_PI R HP. destruct HP as [-> ->].
  destruct (Z.leb_spec (largestBlockSize q * 2) max_size) as [Hle|]; [|done].
  destruct (ring_largest _ _ _ _ R) as (k & Hk & Ek).
  assert (exists k, 1 <= k < 63 /\ u64 (largestBlockSize q * 2) = 2 ^ k) as Hsz'.
  { exists (k + 1). rewrite uwrap_small by lia. rewrite Ek, Z.pow_add_r by lia.
    split; [|done]. split; [lia|]. apply (Z.pow_lt_mono_r_iff 2); [lia..|].
    rewrite Z.pow_add_r by lia. lia. }
  exists (pre ++ [t]), [], free. split_and!.
  - by apply ring_alloc.
  - exists pre, t, b. simpl. rewrite (lookup_app_l_Some _ _ _ _ Hb). split_and!; try done.
    + apply (ring_fresh _ _ [] _ R).
    + eexists. rewrite list_lookup_middle by done. split; [done|]. by apply holds_first.
  - split; [done| |apply bgrow_refl]. intros m c Hc. exists c. split; [|done].
    simpl. by apply lookup_app_l_Some.
  - by rewrite app_nil_r.
Qed.

Lemma prod_E_alloc_next a tb n :
  PI q busy pend free (Some (E_alloc_next a tb n)) ->
  prod_post q busy (E_alloc_next a tb n) (prod_step max_size q (E_alloc_next a tb n)).
Proof using R.
  intros HP. open_PI R HP. destruct HP as (-> & -> & Hn & b2 & Hb2 & Hh2). rewrite Hb.
  assert (n <> tailBlock q) as Hne.
  { intros ->. apply Hn. rewrite <- Et, !map_app, !elem_of_app. left. right. left. }
  exists (pre ++ [t]), [], free. split_and!.
  - by apply ring_outside.
  - exists pre, t, b. simpl. rewrite list_lookup_alter_ne by done. split_and!; try done.
    rewrite list_lookup_alter_eq, Hb2. eexists. split_and!; [done| |done]. by destruct Hh2.
  - apply pgrow_upd; [done|apply bgrow_refl].
  - by rewrite app_nil_r.
Qed.

Lemma prod_E_alloc_link a tb n :
  PI q busy pend free (Some (E_alloc_link a tb n)) ->
  prod_post q busy (E_alloc_link a tb n) (prod_step max_size q (E_alloc_link a tb n)).
Proof using R.
  intros HP. open_PI R HP. destruct HP as (-> & -> & Hn & b2 & Hb2 & Hh2 & Hnx).
  exists (pre ++ [t]), [mkEntry n 0 [elem a]], free. rewrite <- Et in *. split_and!.
  - by eapply ring_link.
  - exists pre, t. simpl. rewrite <- Et, list_lookup_alter_eq, Hb. eauto.
  - apply pgrow_upd; [done|apply bgrow_refl].
  - by rewrite app_nil_r.
Qed.

Lemma prod_ok p :
  PI q busy pend free (Some p) -> prod_post q busy p (prod_step max_size q p).
Proof using R max_size_bound.
  destruct p; eauto using prod_E_front, prod_E_tail, prod_E_write, prod_E_publish,
    prod_E_frontBlock, prod_E_ahead, prod_E_ahead_reads, prod_E_ahead_write,
    prod_E_ahead_store, prod_publish, prod_E_alloc, prod_E_alloc_next, prod_E_alloc_link;
    intros HP; open_PI R HP.
  - stay pre t b.
  - destruct HP as [-> ->]. rewrite Hb. stay pre t b.
Qed.
End Producer.

(** *** The consumer's steps keep the invariant *)

Lemma ring_ids_head q h rest pend free :
  ring q (h :: rest) pend free -> eid h ∉ ids (rest ++ pend ++ free).
Proof. intros R. pose proof (ring_nodup _ _ _ _ R) as Hnd. by apply list.NoDup_cons in Hnd as [? _]. Qed.

(** An access to the front block. *)
Lemma ring_head_upd q h rest pend free b g sk' cs' :
  ring q (h :: rest) pend free -> blocks q !! eid h = Some b ->
  (forall b, next (g b) = next b) ->
  (holds (esk h) b (ecs h) -> holds sk' (g b) cs') -> (sk' <= length cs')%nat ->
  ring (upd (eid h) g q) (mkEntry (eid h) sk' cs' :: rest) pend free.
Proof.
  intros R Hb Hg Hh Hsk. pose proof (ring_ids_head _ _ _ _ _ R) as Hn.
  pose proof (ring_sk _ _ _ _ R) as Hsk'. apply Forall_cons_1 in Hsk' as [_ Hsk'].
  eapply ring_upd; [done|done|done| |apply R|by constructor|apply R|apply R].
  constructor; [|by apply kept_ne]. split; [done|]. rewrite decide_True by done.
  intros b' ? ?. simplify_eq. auto.
Qed.

(** The front pointer moves to the next block; the block it leaves is free. *)
Lemma ring_advance q h e rest pend free :
  ring q (h :: e :: rest) pend free -> empty h ->
  ring (set_frontBlock (eid e) q) (e :: rest) pend (free ++ [h]).
Proof.
  intros [Hf Ht Hok Hnd Hl Hr Hsk Hp Hfr Hla] He.
  apply Forall_cons_1 in Hr as [[He1 He2] Hr]. apply Forall_cons_1 in Hsk as [_ Hsk].
  injection Hf as Hf.
  assert (((h :: e :: rest) ++ pend ++ free) ≡ₚ ((e :: rest) ++ pend ++ free ++ [h])) as Hperm.
  { replace ((e :: rest) ++ pend ++ free ++ [h]) with (((e :: rest) ++ pend ++ free) ++ [h])
      by (by rewrite <- !(assoc_L (++))). apply Permutation_cons_append. }
  split; simpl; try done.
  - change (Forall (ok (blocks q)) ((e :: rest) ++ pend ++ free ++ [h])). by rewrite <- Hperm.
  - change (NoDup (ids ((e :: rest) ++ pend ++ free ++ [h]))).
    by rewrite <- (Permutation_map eid Hperm).
  - rewrite <- Hf in Hl. destruct Hl as [Hl1 Hl2].
    replace (rest ++ pend ++ free ++ [h]) with ((rest ++ pend ++ free) ++ [h])
      by (by rewrite <- !(assoc_L (++))).
    rewrite map_app, <- (assoc_L (++)). simpl.
    apply (linked_app _ (eid e :: ids (rest ++ pend ++ free)) (eid h) [eid e]).
    by split; [|split].
  - apply Forall_app. split; [done|]. by apply Forall_singleton.
Qed.

Lemma ring_head q h rest pend free b :
  ring q (h :: rest) pend free -> blocks q !! frontBlock q = Some b ->
  eid h = frontBlock q /\ holds (esk h) b (ecs h).
Proof.
  intros R Hb. pose proof (ring_front _ _ _ _ R) as [= Hf]. split; [done|].
  eapply ring_holds; [done|left|congruence].
Qed.

Lemma cgrow_refl q busy pend free : ring q busy pend free -> cgrow q busy pend free q busy free.
Proof.
  intros R. split; [done|..|done].
  - intros n b Hb. by exists b.
  - intros pre t b -> Hb. exists pre, t, b, 0%nat. split_and!; try done.
    assert (holds (esk t) b (ecs t)) as Hh.
    { eapply ring_holds; [done| |done]. rewrite !elem_of_app. left. right. left. }
    pose proof (holds_front _ _ _ Hh). rewrite Z.add_0_r, Z.mod_small by lia. done.
  - exists []. by rewrite app_nil_r.
Qed.

Lemma cgrow_head q h rest pend free b g sk' cs' (n : nat) :
  ring q (h :: rest) pend free -> blocks q !! eid h = Some b ->
  (forall b, tail (g b) = tail b /\ next (g b) = next b /\ size (g b) = size b) ->
  length (ecs h) = (n + length cs')%nat ->
  front (g b) = (front b + Z.of_nat n) mod size b ->
  (data (g b) !! Z.to_nat (tail b) = data b !! Z.to_nat (tail b)) ->
  cgrow q (h :: rest) pend free (upd (eid h) g q) (mkEntry (eid h) sk' cs' :: rest) free.
Proof.
  intros R Hb Hg Hlen Hfr Hd. pose proof (ring_front _ _ _ _ R) as [= Hf].
  split; [done|..|exists []; by rewrite app_nil_r|done].
  - intros m c Hc. simpl. rewrite (lookup_alter_if _ _ _ _ _ Hc). eexists.
    split; [done|]. destruct (Hg c) as (? & ? & ?). case_decide; split_and!; auto; congruence.
  - intros [|h' pre] t c E Hc; simplify_eq/=.
    + exists [], (mkEntry (eid t) sk' cs'), (g b), n.
      by rewrite list_lookup_alter_eq, Hb.
    + exists (mkEntry (eid h') sk' cs' :: pre), t, c, 0%nat. split_and!; try done.
      * rewrite list_lookup_alter_ne; [done|]. intros E.
        apply (ring_ids_head _ _ _ _ _ R). rewrite E, !map_app, !elem_of_app.
        left. right. left.
      * assert (holds (esk t) c (ecs t)) as Hh.
        { eapply ring_holds; [done| |done]. right. rewrite !elem_of_app. left. right. left. }
        pose proof (holds_front _ _ _ Hh). by rewrite Z.add_0_r, Z.mod_small by lia.
Qed.

Lemma cgrow_advance q h e rest pend free :
  ring q (h :: e :: rest) pend free ->
  cgrow q (h :: e :: rest) pend free (set_frontBlock (eid e) q) (e :: rest) (free ++ [h]).
Proof.
  intros R. split; [done|..].
  - intros n b Hb. by exists b.
  - intros [|h' pre] t b E Hb; [done|]. injection E as -> E.
    exists pre, t, b, 0%nat. split_and!; try done.
    assert (holds (esk t) b (ecs t)) as Hh.
    { eapply ring_holds; [done| |done]. right. change (t ∈ (e :: rest) ++ pend ++ free).
      rewrite E, !elem_of_app. left. right. left. }
    pose proof (holds_front _ _ _ Hh). by rewrite Z.add_0_r, Z.mod_small by lia.
  - by exists [h].
  - intros n. rewrite !map_app. simpl. rewrite !elem_of_cons, !elem_of_app, !elem_of_cons.
    rewrite elem_of_nil. tauto.
Qed.

(** The state after a step of the consumer that removed [xs]. *)
Definition ckept q busy pend free (seen : Prop) q' (c' : option (cpc (T:=T))) (xs : list T) : Prop :=
  exists busy' free',
    ring q' busy' pend free' /\ CI q' busy' seen c' /\
    cgrow q busy pend free q' busy' free' /\ elements busy = xs ++ elements busy'.

(** A pointer is to the slot of the front element. *)
Definition got_ok q busy (seen : Prop) (g : got (T:=T)) : Prop :=
  match g with
  | Empty => seen
  | Elem _ | Popped _ => True
  | Pointer n i => exists b x,
      blocks q !! n = Some b /\ data b !! Z.to_nat i = Some (Some x) /\
      head (elements busy) = Some x
  end.

Definition cons_post q busy pend free seen (o : outcome (cpc (T:=T)) (got (T:=T))) : Prop :=
  match o with
  | Next q' c' => ckept q busy pend free seen q' (Some c') []
  | Ret q' g => ckept q busy pend free seen q' None (got_elems g) /\ got_ok q busy seen g
  | Abort | Undef => False
  end.

Section Consumer.
Variables (q : ReaderWriterQueue T) (h : entry) (rest pend free : list entry).
Variable (seen : Prop) (b : Block T).
Hypothesis R : ring q (h :: rest) pend free.
Hypothesis Hb : blocks q !! frontBlock q = Some b.

Lemma ckept_stay c' :
  CI q (h :: rest) seen c' -> ckept q (h :: rest) pend free seen q c' [].
Proof using R.
  intros. exists (h :: rest), free. split_and!; [done..| |done]. by apply cgrow_refl.
Qed.

Lemma front_head : eid h = frontBlock q.
Proof using R. by pose proof (ring_front _ _ _ _ R) as [= ?]. Qed.

Lemma holds_head : holds (esk h) b (ecs h).
Proof using R Hb. eapply ring_holds; [done|left|]. by rewrite front_head. Qed.

(** The tail block is the front block when there is no other busy block. *)
Lemma tail_is_front : tailBlock q = frontBlock q <-> rest = [].
Proof using R.
  pose proof (ring_tail _ _ _ _ R) as Ht. rewrite <- front_head. split.
  - intros E. destruct rest as [|e r] using rev_ind; [done|].
    destruct (ring_ids_head _ _ _ _ _ R). rewrite <- E.
    change (ids (h :: r ++ [e])) with (ids ((h :: r) ++ [e])) in Ht.
    rewrite map_app in Ht. setoid_rewrite last_snoc in Ht. injection Ht as <-.
    rewrite !map_app, !elem_of_app. left. right. left.
  - intros ->. simpl in Ht. congruence.
Qed.

(** The block behind the front block is the next busy one. *)
Lemma next_head e r : rest = e :: r -> next b = Some (eid e).
Proof using R Hb.
  pose proof front_head as Hf. intros ->. pose proof (ring_linked _ _ _ _ R) as [Hl _].
  by rewrite Hf, Hb in Hl.
Qed.

Lemma second_view e r :
  rest = e :: r -> exists b2, blocks q !! eid e = Some b2 /\ holds 0 b2 (ecs e) /\ ecs e <> [].
Proof using R.
  intros ->. pose proof (ring_ok _ _ _ _ R) as Hok. simpl in Hok.
  apply Forall_cons_1 in Hok as [_ Hok]. apply Forall_cons_1 in Hok as [(b2 & ? & Hh) _].
  pose proof (ring_rest _ _ _ _ R) as Hr. apply Forall_cons_1 in Hr as [[Hs ?] _].
  rewrite Hs in Hh. eauto.
Qed.

Lemma cons_D_tailBlock k :
  (elements (h :: rest) = [] -> seen) -> esk h = 0%nat ->
  cons_post q (h :: rest) pend free seen (cons_step q (D_tailBlock k)).
Proof using R Hb.
  intros Hseen Hsk. apply ckept_stay. exists h, rest, b.
  split_and!; [done|apply front_head|done..|].
  unfold start_ok. destruct (decide _) as [E|Hne].
  - apply tail_is_front in E. unfold elements in Hseen. rewrite E in Hseen.
    simpl in Hseen. rewrite app_nil_r in Hseen.
    destruct (ecs h); [left; auto|by right].
  - by intros ?%tail_is_front.
Qed.

Lemma cons_D_tail k ts fb :
  esk h = 0%nat -> fb = frontBlock q -> start_ok q seen h rest ts ->
  cons_post q (h :: rest) pend free seen (cons_step q (D_tail k ts fb)).
Proof using R Hb.
  intros Hsk -> Hs. unfold cons_step, with_block. rewrite Hb. apply ckept_stay.
  exists h, rest, b. split_and!; [done|apply front_head|done..| |].
  - unfold start_ok in Hs. intros ?. by destruct (decide _).
  - exists (length (ecs h)). split_and!; [done|apply holds_head|].
    unfold start_ok in Hs. destruct (decide _); [|done].
    intros Hl%nil_length_inv. destruct Hs; done.
Qed.

Lemma cons_D_front k ts fb bt n :
  esk h = 0%nat -> fb = frontBlock q -> (ts <> fb -> rest <> []) ->
  (n <= length (ecs h))%nat -> bt = (front b + Z.of_nat n) mod size b ->
  (if decide (ts = fb) then n = 0%nat -> seen else n = length (ecs h)) ->
  cons_post q (h :: rest) pend free seen (cons_step q (D_front k ts fb bt)).
Proof using R Hb.
  intros Hsk -> Hr Hn -> Hif. unfold cons_step, with_block. rewrite Hb.
  pose proof holds_head as Hh. pose proof (holds_room _ _ _ Hh).
  pose proof (holds_eq_front _ _ _ (Z.of_nat n) Hh ltac:(lia)) as Hz.
  destruct (Z.eqb_spec (front b) ((front b + Z.of_nat n) mod size b)) as [E|E]; simpl.
  - apply Hz in E. destruct (decide (frontBlock q <> ts)) as [Hne|Heq].
    + rewrite decide_False in Hif by congruence. apply ckept_stay. exists h, rest, b.
      split_and!; [done|apply front_head|done..| |auto]. destruct (ecs h); simpl in *; [done|lia].
    + destruct (decide (ts = frontBlock q)) as [|?]; [|by destruct Heq].
      split; [|apply Hif; lia]. apply ckept_stay. exists h, rest, b.
      split_and!; [done|apply front_head|done..].
  - destruct (ecs h) as [|x cs] eqn:Ecs; [simpl in *; assert (n = 0%nat) by lia; by destruct E; apply Hz; lia|].
    assert (CI q (h :: rest) seen (Some (D_take k (frontBlock q) (front b)))) as HCI.
    { exists h, rest, b. split_and!; [done|apply front_head|done..|by rewrite Ecs]. }
    destruct k; [by apply ckept_stay| |by apply ckept_stay].
    split.
    + apply ckept_stay. exists h, rest, b. split_and!; [done|apply front_head|done..].
    + exists b, x. rewrite Hsk in Hh. destruct (holds_take _ _ _ Hh) as [? _].
      split_and!; [done..|]. unfold elements. simpl. by rewrite Ecs.
Qed.

Lemma cons_D_take k fb bf :
  esk h = 0%nat -> fb = frontBlock q -> bf = front b -> ecs h <> [] ->
  cons_post q (h :: rest) pend free seen (cons_step q (D_take k fb bf)).
Proof using R Hb.
  intros Hsk -> -> Hne. pose proof holds_head as Hh. rewrite Hsk in Hh.
  unfold cons_step, with_block. rewrite Hb. pose proof front_head as Hf.
  destruct (ecs h) as [|x cs] eqn:Ecs; [done|].
  destruct (holds_take _ _ _ Hh) as [Hx Hh1]. rewrite Hx.
  pose proof (holds_front _ _ _ Hh). pose proof (holds_tail_range _ _ _ Hh).
  rewrite (bump_mod _ _ _ _ Hh) by lia. rewrite <- Hf in Hb |- *.
  exists (mkEntry (eid h) 1 (x :: cs) :: rest), free. split_and!.
  - eapply ring_head_upd; [done..|by intros|simpl; lia].
  - eexists _, rest, _. split; [done|]. simpl. rewrite <- Hf. split; [done|].
    split; [by rewrite list_lookup_alter_eq, Hb|done].
  - eapply (cgrow_head _ _ _ _ _ b _ _ _ 0); [done..| | |]; rewrite ?Ecs; simpl; [done| |].
    + rewrite Z.add_0_r, Z.mod_small; [done|lia].
    + apply list_lookup_insert_ne. intros E%Z2Nat.inj; [|lia..].
      pose proof (holds_eq_front _ _ _ (lenZ (x :: cs)) Hh) as Hz.
      pose proof (holds_room _ _ _ Hh). rewrite <- (holds_tail _ _ _ Hh) in Hz.
      apply Hz in E; [|lia]. simpl in E. lia.
  - unfold elements. simpl. by rewrite Ecs.
Qed.

Lemma cons_D_store k fb nf x :
  esk h = 1%nat -> fb = frontBlock q -> nf = (front b + 1) mod size b ->
  head (ecs h) = Some x ->
  cons_post q (h :: rest) pend free seen (cons_step q (D_store k fb nf x)).
Proof using R Hb.
  intros Hsk -> -> Hx. pose proof holds_head as Hh. pose proof front_head as Hf.
  rewrite Hsk in Hh. destruct (ecs h) as [|x' cs] eqn:Ecs; simplify_eq/=.
  pose proof (holds_pop _ _ _ Hh) as Hh0. rewrite <- Hf in Hb |- *.
  split; [|by destruct k].
  exists (mkEntry (eid h) 0 cs :: rest), free. split_and!.
  - eapply ring_head_upd; [done..|by intros|lia].
  - eexists _, rest, _. split; [done|]. simpl. rewrite <- Hf. split; [done|].
    split; [by rewrite list_lookup_alter_eq, Hb|done].
  - eapply (cgrow_head _ _ _ _ _ b _ _ _ 1); [done..| | |done]; rewrite ?Ecs; done.
  - unfold elements. simpl. rewrite Ecs. by destruct k.
Qed.

Lemma cons_D_next k fb :
  esk h = 0%nat -> fb = frontBlock q -> ecs h = [] -> rest <> [] ->
  cons_post q (h :: rest) pend free seen (cons_step q (D_next k fb)).
Proof using R Hb.
  intros Hsk -> Hcs Hr.
  assert (exists e r, rest = e :: r) as (e & r & Er) by (destruct rest; [done|eauto]).
  unfold cons_step, with_block. rewrite Hb, (next_head _ _ Er).
  apply ckept_stay. exists h, rest, b. split_and!; [done|apply front_head|done..|].
  by rewrite Er.
Qed.

Lemma cons_D_next_reads k nb c :
  esk h = 0%nat -> ecs h = [] -> head (ids rest) = Some nb ->
  c = D_next_front k nb \/
  (exists b2, blocks q !! nb = Some b2 /\ c = D_next_tail k nb (front b2)) ->
  cons_post q (h :: rest) pend free seen (cons_step q c).
Proof using R Hb.
  intros Hsk Hcs Hn Hc.
  assert (exists e r, rest = e :: r) as (e & r & Er) by (destruct rest; [done|eauto]).
  assert (nb = eid e) as -> by (rewrite Er in Hn; simpl in Hn; congruence). destruct (second_view _ _ Er) as (b2 & Hb2 & Hh2 & Hne).
  assert (CI q (h :: rest) seen (Some (D_next_tail k (eid e) (front b2)))) as HCI.
  { exists h, rest, b. split_and!; [done|apply front_head|done..|by rewrite Er|eauto]. }
  destruct Hc as [->|(b3 & Hb3 & ->)]; unfold cons_step, with_block; rewrite Hb2.
  { by apply ckept_stay. }
  rewrite Hb2 in Hb3. injection Hb3 as <-. pose proof (holds_room _ _ _ Hh2).
  pose proof (holds_eq_front _ _ _ (lenZ (ecs e)) Hh2 ltac:(lia)) as Hz.
  rewrite <- (holds_tail _ _ _ Hh2) in Hz.
  destruct (Z.eqb_spec (front b2) (tail b2)) as [E|_].
  { apply Hz in E. destruct (ecs e); [done|]. simpl in E. lia. }
  destruct k; [by apply ckept_stay| |by apply ckept_stay].
  split.
  - apply ckept_stay. exists h, rest, b. split_and!; [done|apply front_head|done..].
  - destruct (ecs e) as [|x cs] eqn:Ecs; [done|]. destruct (holds_take _ _ _ Hh2) as [? _].
    exists b2, x. split_and!; [done..|]. unfold elements. rewrite Er. simpl. by rewrite Hcs, Ecs.
Qed.

Lemma cons_D_advance k nb nf :
  esk h = 0%nat -> ecs h = [] -> head (ids rest) = Some nb ->
  (exists b2, blocks q !! nb = Some b2 /\ front b2 = nf) ->
  cons_post q (h :: rest) pend free seen (cons_step q (D_advance k nb nf)).
Proof using R Hb.
  intros Hsk Hcs Hn (b2 & Hb2 & <-). destruct rest as [|e r] eqn:Er; [done|].
  injection Hn as <-. pose proof (ring_rest _ _ _ _ R) as Hr.
  apply Forall_cons_1 in Hr as [[? ?] _].
  exists (e :: r), (free ++ [h]). split_and!.
  - by apply ring_advance.
  - by exists e, r, b2.
  - by apply cgrow_advance.
  - unfold elements. simpl. by rewrite Hcs.
Qed.

Lemma cons_ok c :
  CI q (h :: rest) (match c with D_tailBlock _ => False | _ => seen end) (Some c) ->
  (match c with D_tailBlock _ => elements (h :: rest) = [] | _ => seen end -> seen) ->
  cons_post q (h :: rest) pend free seen (cons_step q c).
Proof using R Hb.
  intros (h' & rest' & b' & [= <- <-] & _ & Hb' & HC) Hs.
  rewrite Hb in Hb'. injection Hb' as <-. destruct c; simpl in HC.
  - by apply cons_D_tailBlock.
  - apply ckept_stay. exists h, rest, b.
    destruct HC. by split_and!; [|apply front_head|..].
  - destruct HC as (? & ? & ?). by apply cons_D_tail.
  - destruct HC as (? & ? & ? & n & ? & ? & ?). by apply (cons_D_front _ _ _ _ n).
  - destruct HC as (? & ? & ? & ?). by apply cons_D_take.
  - destruct HC as (? & ? & ? & ?). by apply cons_D_store.
  - destruct HC as (? & ? & ? & ?). by apply cons_D_next.
  - destruct HC as (? & ? & ?). eapply cons_D_next_reads; eauto.
  - destruct HC as (? & ? & ? & b2 & ? & <-). eapply cons_D_next_reads; eauto.
  - destruct HC as (? & ? & ? & ?). by apply cons_D_advance.
Qed.
End Consumer.

(** ** All interleavings of one producer and one consumer *)

Definition saw_empty (m : machine (T:=T)) : Prop := fst (snapshot m) = snd (snapshot m).

Definition minv (m : machine (T:=T)) : Prop :=
  exists p busy pend free,
    producers m = [p] /\ ring (mq m) busy pend free /\ PI (mq m) busy pend free p /\
    CI (mq m) busy (saw_empty m) (consumer m) /\ enqueued m = dequeued m ++ elements busy.

Lemma CI_busy q busy seen c : CI q busy seen c ->
  exists h rest b, busy = h :: rest /\ blocks q !! frontBlock q = Some b.
Proof. intros (h & rest & b & ? & _ & ? & _). eauto. Qed.

Lemma minv_producer m p busy pend free :
  producers m = [Some p] -> ring (mq m) busy pend free ->
  PI (mq m) busy pend free (Some p) -> CI (mq m) busy (saw_empty m) (consumer m) ->
  enqueued m = dequeued m ++ elements busy ->
  match exec max_size (LProducer 0) m with
  | Some m' => minv m'
  | None => prod_step max_size (mq m) p = Abort
  end.
Proof.
  intros Ep R HP HC He. unfold exec. rewrite Ep. simpl.
  pose proof (prod_ok _ _ _ _ R p HP) as Hpost.
  destruct (prod_step max_size (mq m) p) as [q' p'|q' r| |]; [..|done|done].
  - destruct Hpost as (busy' & pend' & free' & R' & HP' & Hg & Hel).
    exists (Some p'), busy', pend', free'. split_and!; [done..|by eapply CI_stable|].
    simpl. by rewrite Hel, app_nil_r.
  - destruct Hpost as (busy' & pend' & free' & R' & HP' & Hg & Hel).
    exists None, busy', pend', free'. split_and!; [done..|by eapply CI_stable|].
    simpl. by rewrite Hel, He, (assoc_L (++)).
Qed.

Lemma minv_consumer m c p busy pend free :
  consumer m = Some c -> producers m = [p] -> ring (mq m) busy pend free ->
  PI (mq m) busy pend free p -> CI (mq m) busy (saw_empty m) (consumer m) ->
  enqueued m = dequeued m ++ elements busy ->
  exists m', exec max_size LConsumer m = Some m' /\ minv m' /\
    (forall g q', cons_step (mq m) c = Ret q' g -> got_ok (mq m) busy (saw_empty m') g).
Proof.
  intros Ec Ep R HP HC He. unfold exec. rewrite Ec in *.
  destruct (CI_busy _ _ _ _ HC) as (h & rest & b & -> & Hb).
  set (snap := match c with D_tailBlock _ => (enqueued m, dequeued m) | _ => snapshot m end).
  assert (cons_post (mq m) (h :: rest) pend free (fst snap = snd snap) (cons_step (mq m) c)) as Hpost.
  { eapply cons_ok; [done..| |].
    - by destruct c.
    - subst snap. destruct c; try done. simpl. intros E. by rewrite He, E, app_nil_r. }
  destruct (cons_step (mq m) c) as [q' c'|q' g| |]; [..|done|done].
  - eexists. split; [done|]. split; [|done].
    destruct Hpost as (busy' & free' & R' & HC' & Hg & Hel).
    exists p, busy', pend, free'. split_and!; [done..|by eapply PI_stable; [exact R|..]|done|].
    simpl. by rewrite He, Hel.
  - eexists. split; [done|]. destruct Hpost as [(busy' & free' & R' & HC' & Hg & Hel) Hgot].
    split; [|by intros ? ? [= <- <-]].
    exists p, busy', pend, free'. split_and!; [done..|by eapply PI_stable; [exact R|..]|done|].
    simpl. by rewrite He, Hel, (assoc_L (++)).
Qed.

Lemma minv_step m m' : minv m -> step max_size m m' -> minv m'.
Proof.
  intros (p & busy & pend & free & Ep & R & HP & HC & He) [l Hl]. destruct l.
  - simpl in Hl. rewrite Ep in Hl. destruct i; [|done]. destruct p; simplify_eq/=.
    exists (Some (E_tailBlock a)), busy, pend, free. done.
  - destruct i; [|by simpl in Hl; rewrite Ep in Hl].
    destruct p as [p|]; [|by simpl in Hl; rewrite Ep in Hl].
    pose proof (minv_producer _ _ _ _ _ Ep R HP HC He) as H. by rewrite Hl in H.
  - simpl in Hl. destruct (consumer m) eqn:Ec; simplify_eq/=.
    exists p, busy, pend, free. done.
  - destruct (consumer m) as [c|] eqn:Ec; [|by simpl in Hl; rewrite Ec in Hl].
    rewrite <- Ec in HC.
    destruct (minv_consumer _ _ _ _ _ _ Ec Ep R HP HC He) as (m'' & Hm & ? & _).
    congruence.
Qed.

(** ** The constructor *)

Lemma holds_set_next sk b cs v : holds sk b cs -> holds sk (set_next v b) cs.
Proof. intros []. by split. Qed.

Lemma ring_single b k :
  holds 0 b [] -> next b = Some 0%nat -> 1 <= k < 63 ->
  ring (mkQueue [b] 0 0 (2 ^ k)) [mkEntry 0 0 []] [] [].
Proof.
  intros Hh Hn Hk. split; simpl; try done.
  - apply Forall_singleton. by exists b.
  - apply NoDup_singleton.
  - by apply Forall_singleton.
  - by exists k.
Qed.

Lemma ring_new maxSize :
  1 <= maxSize < 2 ^ 62 -> ring (Queue_new (T:=T) maxSize) [mkEntry 0 0 []] [] [].
Proof.
  intros Hm. unfold Queue_new. rewrite (uwrap_small 64) by lia.
  rewrite ceilToPow2_log2_up by lia.
  assert (1 <= Z.log2_up (maxSize + 1) < 63) as Hk.
  { split; [apply (Z.log2_up_le_mono 2); lia|].
    apply (Z.le_lt_trans _ (Z.log2_up (2 ^ 62))); [apply Z.log2_up_le_mono; lia|done]. }
  cbv zeta. apply ring_single; [|done|done]. apply holds_set_next, holds_new. eauto.
Qed.

(** A queue at rest: no call is in progress. *)
Lemma ring_PI q busy free : ring q busy [] free -> PI q busy [] free None.
Proof.
  intros R. pose proof (ring_tail _ _ _ _ R) as Ht.
  destruct busy as [|t pre] using rev_ind; [done|]. clear IHpre.
  rewrite map_app in Ht. setoid_rewrite last_snoc in Ht. injection Ht as Ht.
  pose proof (ring_ok _ _ _ _ R) as Hok. apply Forall_app in Hok as [Hok _].
  apply Forall_app in Hok as [_ Hok]. apply Forall_cons_1 in Hok as [(b & Hb & _) _].
  exists pre, t, b. by rewrite <- Ht.
Qed.

Lemma ring_CI q h rest pend free seen :
  ring q (h :: rest) pend free -> esk h = 0%nat -> CI q (h :: rest) seen None.
Proof.
  intros R Hs. pose proof (ring_front _ _ _ _ R) as [= Hf].
  pose proof (ring_ok _ _ _ _ R) as Hok. apply Forall_cons_1 in Hok as [(b & Hb & _) _].
  exists h, rest, b. by rewrite <- Hf.
Qed.

Lemma minv_init maxSize : 1 <= maxSize < 2 ^ 62 -> minv (init 1 maxSize).
Proof.
  intros Hm%ring_new. unfold init. generalize dependent (Queue_new (T:=T) maxSize).
  intros q R. exists None, [mkEntry 0 0 []], [], []. split_and!; [done|done| | |done].
  - by apply ring_PI.
  - by eapply ring_CI.
Qed.

Lemma minv_reachable maxSize m :
  1 <= maxSize < 2 ^ 62 -> star (step max_size) (init 1 maxSize) m -> minv m.
Proof.
  intros Hm Hs. eapply star_invariant; [|exact Hs|by apply minv_init].
  intros s s'. apply minv_step.
Qed.

(** ** What the ring holds is what is read off it *)

Lemma omap_seqZ (f : Z -> option T) cs m :
  (forall i x, cs !! i = Some x -> f (m + Z.of_nat i) = Some x) ->
  omap f (seqZ m (lenZ cs)) = cs.
Proof.
  revert m. induction cs as [|x cs IH]; intros m H; [done|].
  rewrite seqZ_cons by (simpl; lia). simpl.
  pose proof (H 0%nat x eq_refl) as H0. rewrite Z.add_0_r in H0. rewrite H0.
  f_equal. replace (Z.pred (Z.of_nat (S (length cs)))) with (lenZ cs) by lia.
  apply IH. intros i y Hy. replace (Z.succ m + Z.of_nat i) with (m + Z.of_nat (S i)) by lia.
  by apply H.
Qed.

Lemma block_elems_holds b cs : holds 0 b cs -> block_elems b = cs.
Proof.
  intros H. pose proof (holds_size _ _ _ H). pose proof (holds_front _ _ _ H).
  pose proof (holds_room _ _ _ H).
  unfold block_elems. replace ((tail b - front b) mod size b) with (lenZ cs).
  - apply omap_seqZ. intros i x Hx. simpl. rewrite Z.add_0_l.
    by rewrite (holds_slots _ _ _ H i x) by (done || lia).
  - rewrite (holds_tail _ _ _ H), Zminus_mod_idemp_l.
    replace (front b + lenZ cs - front b) with (lenZ cs) by lia.
    by rewrite Z.mod_small by lia.
Qed.

Lemma elems_from_spec q l n fuel :
  head (ids l) = Some n -> list.last (ids l) = Some (tailBlock q) -> NoDup (ids l) ->
  linked (blocks q) (ids l) -> Forall (ok (blocks q)) l -> Forall (fun e => esk e = 0%nat) l ->
  (length l <= fuel)%nat -> elems_from fuel q n = elements l.
Proof.
  revert n fuel. induction l as [|e l IH]; intros n fuel Hn Hl Hnd Hlk Hok Hsk Hlen; [done|].
  injection Hn as <-. destruct fuel as [|fuel]; [simpl in Hlen; lia|].
  apply Forall_cons_1 in Hok as [(b & Hb & Hh) Hok]. apply Forall_cons_1 in Hsk as [Hs Hsk].
  rewrite Hs in Hh. simpl. rewrite Hb, (block_elems_holds _ _ Hh).
  unfold elements. simpl. f_equal. apply list.NoDup_cons in Hnd as [Hn Hnd].
  destruct l as [|e2 l].
  - simpl in Hl. rewrite decide_True by congruence. done.
  - destruct Hlk as [Hnx Hlk]. rewrite Hb in Hnx. simpl in Hnx. rewrite Hnx.
    rewrite decide_False.
    + apply (IH (eid e2)); try done. simpl in *. lia.
    + intros E. apply Hn. rewrite E. change (list.last (ids (e2 :: l)) = Some (tailBlock q)) in Hl.
      by apply last_Some_elem_of.
Qed.

Lemma NoDup_bounded_length (l : list nat) n :
  NoDup l -> Forall (fun i => (i < n)%nat) l -> (length l <= n)%nat.
Proof.
  intros Hnd Hl. rewrite <- (length_seq n 0). apply submseteq_length, NoDup_submseteq; [done|].
  intros i Hi. apply elem_of_seq. pose proof (Forall_elem _ _ _ Hl Hi). simpl in *. lia.
Qed.

Lemma ring_length q busy pend free :
  ring q busy pend free -> (length (busy ++ pend ++ free) <= length (blocks q))%nat.
Proof.
  intros R. rewrite <- (length_map eid). apply NoDup_bounded_length; [apply R|].
  apply List.Forall_map. eapply List.Forall_impl; [|apply R].
  intros e (b & Hb & _). by apply lookup_lt_Some in Hb.
Qed.

Lemma contents_elements q busy pend free h rest :
  ring q busy pend free -> busy = h :: rest -> esk h = 0%nat -> contents q = elements busy.
Proof.
  intros R Eb Hs. pose proof (ring_length _ _ _ _ R) as Hlen. rewrite length_app in Hlen.
  destruct R as [Hf Ht Hok Hnd Hl Hr Hsk Hp Hfr Hla].
  rewrite map_app in Hnd, Hl. apply list.NoDup_app in Hnd as (Hnd & _ & _).
  apply Forall_app in Hok as [Hok _].
  apply elems_from_spec; try done; [| |lia].
  - rewrite <- (assoc_L (++)) in Hl. destruct (ids (pend ++ free) ++ [frontBlock q]) as [|z k] eqn:E.
    { by apply app_nil in E as [_ ?]. }
    apply linked_app in Hl as [Hl _]. clear -Hl.
    induction (ids busy) as [|a [|c l] IH]; [done..|]. destruct Hl as [? ?]. split; auto.
  - rewrite Eb in *. constructor; [done|]. eapply List.Forall_impl; [|exact Hr]. by intros e [? ?].
Qed.

(** ** Calls without interference *)

Definition past_alloc (p : ppc (T:=T)) : Prop :=
  match p with
  | E_alloc_next _ _ _ | E_alloc_link _ _ _ | E_alloc_publish _ _ => True
  | _ => False
  end.

Ltac step_cases :=
  repeat match goal with
  | H : context [match ?x with _ => _ end] |- _ => destruct x eqn:?; simplify_eq/=
  end; simplify_eq/=.

(** Every step brings the call closer to its end. *)
Lemma prod_step_next q p q' p' :
  prod_step max_size q p = Next q' p' ->
  arg_of_pc p' = arg_of_pc p /\ (prod_rank p' < prod_rank p)%nat /\
  (past_alloc p -> past_alloc p') /\
  (past_alloc p' \/ largestBlockSize q' = largestBlockSize q).
Proof.
  destruct p; simpl; unfold construct, with_block; intros H; step_cases; split_and!; simpl; auto; lia.
Qed.

Lemma prod_step_false q p q' :
  prod_step max_size q p = Ret q' false -> canAlloc (arg_of_pc p) = CannotAlloc.
Proof. destruct p; simpl; unfold construct, with_block; intros H; step_cases; done. Qed.

Lemma prod_step_abort q p :
  prod_step max_size q p = Abort ->
  max_size < largestBlockSize q * 2 /\ ~ past_alloc p.
Proof.
  destruct p; simpl; unfold construct, with_block; intros H; step_cases; try done.
  split; [lia|tauto].
Qed.

Lemma cons_step_next q c q' c' :
  cons_step (T:=T) q c = Next q' c' -> (cons_rank c' < cons_rank c)%nat.
Proof. destruct c; simpl; unfold with_block; intros H; step_cases; lia. Qed.

(** A queue at rest. *)
Definition wf q : Prop :=
  exists h rest free, ring q (h :: rest) [] free /\ esk h = 0%nat.

Lemma wf_of q busy free seen :
  ring q busy [] free -> CI q busy seen None -> wf q /\ contents q = elements busy.
Proof.
  intros R (h & rest & b & -> & _ & _ & Hs). split; [by exists h, rest, free|].
  by eapply contents_elements.
Qed.

Definition enqueue_post (mode : AllocationMode) (L : Z) (x : T) cs
    (o : outcome (ppc (T:=T)) bool) : Prop :=
  match o with
  | Ret q' true => wf q' /\ contents q' = cs ++ [x]
  | Ret q' false => mode = CannotAlloc /\ wf q' /\ contents q' = cs
  | Abort => max_size < L * 2
  | Next _ _ | Undef => False
  end.

Lemma run_prod fuel q p busy pend free L :
  ring q busy pend free -> PI q busy pend free (Some p) -> CI q busy False None ->
  (prod_rank p <= fuel)%nat -> past_alloc p \/ largestBlockSize q = L ->
  enqueue_post (canAlloc (arg_of_pc p)) L (elem (arg_of_pc p)) (elements busy)
    (run_steps (prod_step max_size) fuel q p).
Proof.
  revert q p busy pend free. induction fuel as [|fuel IH]; intros q p busy pend free R HP HC Hf HL.
  { destruct p; simpl in Hf; lia. }
  pose proof (prod_ok _ _ _ _ R p HP) as Hpost. simpl.
  destruct (prod_step max_size q p) as [q' p'|q' r| |] eqn:E; [..|done].
  - destruct Hpost as (busy' & pend' & free' & R' & HP' & Hg & Hel).
    apply prod_step_next in E as (Ea & Hr & Hpa & HL'). rewrite app_nil_r in Hel.
    rewrite <- Ea, <- Hel. apply (IH _ _ _ _ _ R' HP'); [by eapply CI_stable|lia|].
    destruct HL' as [|HL']; [by left|]. destruct HL; [left; auto|right; congruence].
  - destruct Hpost as (busy' & pend' & free' & R' & HP' & Hg & Hel).
    pose proof (CI_stable _ _ _ _ _ _ Hg HC) as HC'.
    assert (pend' = []) as -> by (by destruct HP' as (?&?&?&?&?&?&?)).
    destruct (wf_of _ _ _ _ R' HC') as [Hwf Hc]. rewrite Hel in Hc.
    destruct r; [done|]. rewrite app_nil_r in Hc. by apply prod_step_false in E.
  - apply prod_step_abort in E as (? & Hn). simpl. destruct HL; [done|lia].
Qed.

Lemma inner_enqueue_spec mode q x :
  wf q -> enqueue_post mode (largestBlockSize q) x (contents q) (inner_enqueue max_size mode q x).
Proof.
  intros (h & rest & free & R & Hs).
  rewrite (contents_elements _ _ _ _ _ _ R eq_refl Hs).
  eapply (run_prod 11 _ (E_tailBlock (mkArg mode x))); [done| |by eapply ring_CI|done|by right].
  apply (ring_PI _ _ _ R).
Qed.

(** The access the call makes is the one it returns for. *)
Definition access_of_pc (c : cpc (T:=T)) : access :=
  match c with
  | D_tailBlock k | D_frontBlock k _ | D_tail k _ _ | D_front k _ _ _ | D_take k _ _
  | D_store k _ _ _ | D_next k _ | D_next_front k _ | D_next_tail k _ _
  | D_advance k _ _ => k
  end.

Definition got_kind (k : access) (g : got (T:=T)) : Prop :=
  match k, g with
  | _, Empty | Dequeue, Elem _ | Pop, Popped _ | Peek, Pointer _ _ => True
  | _, _ => False
  end.

(** A [peek] never takes an element out. *)
Definition peeks (c : cpc (T:=T)) : Prop :=
  match c with D_take Peek _ _ | D_store Peek _ _ _ | D_advance Peek _ _ => False | _ => True end.

Lemma cons_step_kind q c q' c' :
  cons_step q c = Next q' c' -> peeks c ->
  access_of_pc c' = access_of_pc c /\ peeks c'.
Proof.
  destruct c as [k|k ?|k ? ?|k ? ? ?|k ? ?|k ? ? ?|k ?|k ?|k ? ?|k ? ?]; simpl; unfold with_block;
    intros H; step_cases; try done; destruct k; done.
Qed.

Lemma cons_step_got q c q' g :
  cons_step q c = Ret q' g -> peeks c -> got_kind (access_of_pc c) g /\ (access_of_pc c = Peek -> q' = q).
Proof.
  destruct c as [k|k ?|k ? ?|k ? ? ?|k ? ?|k ? ? ?|k ?|k ?|k ? ?|k ? ?]; simpl; unfold with_block;
    intros H; step_cases; try done; destruct k; done.
Qed.

(** What a call returns, given the elements [cs] at its first step. *)
Definition returns cs q' (g : got (T:=T)) : Prop :=
  match g with
  | Empty => cs = [] /\ contents q' = []
  | Elem x | Popped x => cs = x :: contents q'
  | Pointer n i => exists x b,
      head cs = Some x /\ contents q' = cs /\ blocks q' !! n = Some b /\
      data b !! Z.to_nat i = Some (Some x)
  end.

Lemma run_cons fuel q c h rest free :
  ring q (h :: rest) [] free -> peeks c -> (cons_rank c <= fuel)%nat ->
  CI q (h :: rest) (match c with D_tailBlock _ => False | _ => elements (h :: rest) = [] end) (Some c) ->
  match run_steps cons_step fuel q c with
  | Ret q' g => wf q' /\ got_kind (access_of_pc c) g /\
                returns (elements (h :: rest)) q' g
  | _ => False
  end.
Proof.
  revert q c h rest free. induction fuel as [|fuel IH]; intros q c h rest free R Hp Hf HC.
  { destruct c; simpl in Hf; lia. }
  destruct (CI_busy _ _ _ _ HC) as (? & ? & b & [= <- <-] & Hb).
  pose proof (cons_ok q h rest [] free (elements (h :: rest) = []) b R Hb c HC) as Hpost. simpl.
  destruct (cons_step q c) as [q' c'|q' g| |] eqn:E;
    [| |by destruct Hpost; destruct c|by destruct Hpost; destruct c].
  - destruct Hpost as (busy' & free' & R' & HC' & _ & Hel); [by destruct c|].
    destruct (CI_busy _ _ _ _ HC') as (h' & rest' & _ & -> & _).
    pose proof (cons_step_next _ _ _ _ E) as Hr.
    destruct (cons_step_kind _ _ _ _ E Hp) as (<- & Hp').
    rewrite Hel. simpl. apply (IH _ _ _ _ _ R' Hp'); [lia|].
    simpl in Hel. rewrite <- Hel. destruct c'; try done; exact HC'.
  - destruct Hpost as [(busy' & free' & R' & HC' & _ & Hel) Hgot]; [by destruct c|].
    destruct (wf_of _ _ _ _ R' HC') as [Hwf Hc].
    destruct (cons_step_got _ _ _ _ E Hp) as [Hk Hq].
    split_and!; [done..|]. destruct g; simpl in *.
    + split; [done|]. by rewrite Hc, <- Hel.
    + by rewrite Hel, Hc.
    + by rewrite Hel, Hc.
    + destruct Hgot as (b' & x & ? & ? & ?). destruct (access_of_pc c); try done.
      rewrite (Hq eq_refl) in *. exists x, b'. split_and!; try done. by rewrite Hc, <- Hel.
Qed.

Lemma consumer_spec k q :
  wf q ->
  match run_steps cons_step 10 q (D_tailBlock k) with
  | Ret q' g => wf q' /\ got_kind k g /\ returns (contents q) q' g
  | _ => False
  end.
Proof.
  intros (h & rest & free & R & Hs).
  rewrite (contents_elements _ _ _ _ _ _ R eq_refl Hs).
  apply (run_cons 10 q (D_tailBlock k) h rest free R); [done..|].
  exact (ring_CI _ _ _ _ _ False R Hs).
Qed.

(** ** The destructor *)

Lemma destroy_slots_spec b cs fuel i :
  holds 0 b cs -> (i <= length cs)%nat -> (length cs - i <= fuel)%nat ->
  destroy_slots fuel b ((front b + Z.of_nat i) mod size b) = Some (drop i cs).
Proof.
  intros H. pose proof (holds_size _ _ _ H). pose proof (holds_room _ _ _ H).
  revert i. induction fuel as [|fuel IH]; intros i Hi Hf.
  - assert (i = length cs) as -> by lia. simpl.
    by rewrite (holds_tail _ _ _ H), Z.eqb_refl, drop_all.
  - simpl. rewrite (holds_tail _ _ _ H).
    destruct (Z.eqb_spec ((front b + Z.of_nat i) mod size b) ((front b + lenZ cs) mod size b)) as [E|E].
    + apply mod_ring_inj in E; [|lia..]. by rewrite drop_ge by lia.
    + destruct (cs !! i) as [x|] eqn:Ex.
      2:{ apply lookup_ge_None in Ex. assert (i = length cs) as -> by lia. done. }
      rewrite (holds_slots _ _ _ H i x) by (done || lia). simpl.
      rewrite (bump_mod _ _ _ _ H) by (apply Z.mod_pos_bound; lia).
      rewrite mod_ring_add, <- Z.add_assoc by lia.
      replace (Z.of_nat i + 1) with (Z.of_nat (S i)) by lia.
      apply lookup_lt_Some in Ex as Hlt. rewrite IH by lia. by rewrite (drop_S _ _ _ Ex).
Qed.

Lemma destroy_blocks_spec q l n fuel :
  head (ids l) = Some n -> linked (blocks q) (ids l ++ [frontBlock q]) ->
  Forall (fun e => eid e <> frontBlock q) (List.tl l) ->
  Forall (ok (blocks q)) l -> Forall (fun e => esk e = 0%nat) l -> (length l <= fuel)%nat ->
  destroy_blocks fuel q n = Some (elements l, ids l).
Proof.
  revert n fuel. induction l as [|e l IH]; intros n fuel Hn Hl Hne Hok Hsk Hf; [done|].
  injection Hn as <-. destruct fuel as [|fuel]; [simpl in Hf; lia|].
  apply Forall_cons_1 in Hok as [(b & Hb & Hh) Hok]. apply Forall_cons_1 in Hsk as [Hs Hsk].
  rewrite Hs in Hh. simpl. rewrite Hb. pose proof (holds_room _ _ _ Hh).
  pose proof (destroy_slots_spec b (ecs e) (Z.to_nat (size b)) 0 Hh ltac:(lia) ltac:(lia)) as Hd.
  rewrite Z.add_0_r, Z.mod_small in Hd by apply Hh. rewrite Hd. clear Hd.
  destruct l as [|e2 l].
  - destruct Hl as [Hl _]. rewrite Hb in Hl. simpl in Hl. rewrite Hl, decide_True by done.
    unfold elements. simpl. by rewrite app_nil_r.
  - destruct Hl as [Hl Hl2]. rewrite Hb in Hl. simpl in Hl. rewrite Hl.
    simpl in Hne. apply Forall_cons_1 in Hne as [Hne1 Hne2]. rewrite decide_False by done.
    rewrite (IH (eid e2) fuel); try done. simpl in *. lia.
Qed.

Lemma elements_free free : Forall empty free -> elements free = [].
Proof. induction 1 as [|e l [? E] ? IH]; [done|]. unfold elements in *. simpl. by rewrite E. Qed.

Lemma linked_next bl l z n b nx :
  linked bl (l ++ [z]) -> n ∈ l -> bl !! n = Some b -> next b = Some nx -> nx ∈ l ++ [z].
Proof.
  intros Hl Hn Hb Hnx. induction Hn as [n l|n a l Hn IH].
  - right. destruct l as [|c l]; destruct Hl as [Hl _]; rewrite Hb in Hl; simpl in Hl; simplify_eq; left.
  - right. apply IH; [|done]. destruct l; [by apply elem_of_nil in Hn|]. by destruct Hl.
Qed.

Lemma Queue_delete_spec q :
  wf q -> exists ns, Queue_delete q = Some (contents q, ns) /\ NoDup ns /\
    frontBlock q ∈ ns /\ tailBlock q ∈ ns /\
    (forall n b nx, n ∈ ns -> blocks q !! n = Some b -> next b = Some nx -> nx ∈ ns).
Proof.
  intros (h & rest & free & R & Hs). exists (ids ((h :: rest) ++ free)).
  rewrite (contents_elements _ _ _ _ _ _ R eq_refl Hs).
  pose proof (ring_length _ _ _ _ R) as Hlen. pose proof (ring_nodup _ _ _ _ R) as Hnd.
  pose proof (ring_linked _ _ _ _ R) as Hl. pose proof (ring_front _ _ _ _ R) as [= Hf].
  simpl in Hnd, Hl, Hlen. split_and!.
  - unfold Queue_delete. rewrite (destroy_blocks_spec q ((h :: rest) ++ free)).
    + by rewrite elements_app, (elements_free free (ring_free _ _ _ _ R)), app_nil_r.
    + apply R.
    + done.
    + simpl. apply List.Forall_forall. intros e He E.
      apply list.NoDup_cons in Hnd as [Hnd _]. apply Hnd. rewrite Hf, <- E.
      by apply list_elem_of_fmap_2, list_elem_of_In.
    + apply R.
    + constructor; [done|]. apply Forall_app. split.
      * eapply List.Forall_impl; [|apply (ring_rest _ _ _ _ R)]. by intros e [? ?].
      * eapply List.Forall_impl; [|apply (ring_free _ _ _ _ R)]. by intros e [? ?].
    + done.
  - done.
  - rewrite <- Hf. left.
  - pose proof (ring_tail _ _ _ _ R) as Ht. apply last_Some_elem_of in Ht.
    rewrite map_app. apply elem_of_app. by left.
  - intros n b nx Hn Hb Hnx. pose proof (linked_next _ _ _ n b nx (ring_linked _ _ _ _ R) Hn Hb Hnx) as Hin.
    apply elem_of_app in Hin as [?|Hin]; [done|]. apply list_elem_of_singleton in Hin as ->.
    rewrite <- Hf. left.
Qed.

(** ** Capacity *)

(** A call that may not allocate leaves the blocks and their sizes alone. *)
Definition sizes q : list Z := List.map size (blocks q).

Lemma sizes_upd q n g : (forall b, size (g b) = size b) -> sizes (upd n g q) = sizes q.
Proof.
  intros Hg. unfold sizes. simpl. generalize (blocks q). intros l. revert n.
  induction l as [|b l IH]; intros [|n]; [done..| |].
  - simpl. by rewrite Hg.
  - cbn. f_equal. apply IH.
Qed.

Definition no_alloc (p : ppc (T:=T)) : Prop :=
  canAlloc (arg_of_pc p) = CannotAlloc /\
  match p with
  | E_alloc _ _ | E_alloc_next _ _ _ | E_alloc_link _ _ _ | E_alloc_publish _ _ => False
  | _ => True
  end.

Lemma prod_step_sizes q p :
  no_alloc p ->
  match prod_step max_size q p with
  | Next q' p' => no_alloc p' /\ sizes q' = sizes q
  | Ret q' _ => sizes q' = sizes q
  | _ => True
  end.
Proof.
  intros [Hm Hp]. destruct p; simpl in *; unfold construct, with_block;
    repeat case_match; simplify_eq/=; try done; try (split; [done|]); try done;
    by apply sizes_upd.
Qed.

Lemma run_prod_sizes fuel q p :
  no_alloc p ->
  match run_steps (prod_step max_size) fuel q p with Ret q' _ => sizes q' = sizes q | _ => True end.
Proof.
  revert q p. induction fuel as [|fuel IH]; intros q p Hp; simpl; [done|].
  pose proof (prod_step_sizes q p Hp) as H. destruct (prod_step max_size q p) as [q' p'|q' r| |]; [|done..].
  destruct H as [Hp' <-]. by apply IH.
Qed.

Lemma run_cons_sizes fuel q c :
  match run_steps (cons_step (T:=T)) fuel q c with Ret q' _ => sizes q' = sizes q | _ => True end.
Proof.
  revert q c. induction fuel as [|fuel IH]; intros q c; simpl; [done|].
  destruct (cons_step q c) as [q' c'|q' r| |] eqn:E; [|..|done|done].
  - replace (sizes q) with (sizes q'); [apply IH|].
    destruct c; simpl in E; unfold with_block in E; step_cases; try done; by apply sizes_upd.
  - destruct c; simpl in E; unfold with_block in E; step_cases; try done; by apply sizes_upd.
Qed.

(** A queue of one block takes an element as long as a slot is left. *)
Lemma single_block_room q x sz :
  wf q -> sizes q = [sz] -> lenZ (contents q) + 1 < sz ->
  exists q', try_enqueue max_size q x = Ret q' true.
Proof.
  intros (h & rest & free & R & Hs) Hsz Hroom.
  pose proof (contents_elements _ _ _ _ _ _ R eq_refl Hs) as Hc.
  pose proof (ring_length _ _ _ _ R) as Hlen.
  assert (length (blocks q) = 1%nat) as H1.
  { rewrite <- (length_map size). change (List.map size (blocks q)) with (sizes q). by rewrite Hsz. }
  rewrite H1 in Hlen. destruct rest; [|simpl in Hlen; lia].
  pose proof (ring_front _ _ _ _ R) as [= Hf]. pose proof (ring_tail _ _ _ _ R) as [= Ht].
  pose proof (ring_ok _ _ _ _ R) as Hok. apply Forall_cons_1 in Hok as [(b & Hb & Hh) _].
  assert (size b = sz) as Hb'.
  { unfold sizes in Hsz. destruct (blocks q) as [|b0 [|]]; try done. simpl in Hsz.
    destruct (eid h); simplify_eq/=; done. }
  rewrite Hc in Hroom. unfold elements in Hroom. simpl in Hroom. rewrite app_nil_r in Hroom.
  pose proof (holds_front _ _ _ Hh) as Hfr. pose proof (holds_data _ _ _ Hh) as Hd.
  pose proof (holds_tail_range _ _ _ Hh) as Htr.
  assert ((bump b (tail b) =? front b) = false) as Hne.
  { apply Z.eqb_neq. rewrite (bump_mod _ _ _ _ Hh), (holds_tail _ _ _ Hh), mod_ring_add by lia.
    rewrite <- Z.add_assoc. intros E. symmetry in E.
    apply (holds_eq_front _ _ _ _ Hh) in E; lia. }
  unfold try_enqueue, inner_enqueue. cbn [run_steps prod_step]. unfold with_block.
  rewrite <- Ht, Hb. cbn [run_steps prod_step]. unfold construct, with_block. rewrite Hb, Hne.
  cbn [run_steps prod_step]. unfold construct, with_block. rewrite Hb.
  destruct (Z.leb_spec 0 (tail b)); [|lia]. destruct (Z.ltb_spec (tail b) (lenZ (data b))); [|lia].
  simpl. eauto.
Qed.

(** The outcome of [try_dequeue] and [pop] in terms of the elements. *)
Lemma taken_spec k q :
  k <> Peek -> wf q ->
  match run_steps cons_step 10 q (D_tailBlock k) with
  | Ret q' g => wf q' /\ contents q' = List.tl (contents q) /\
      g = match contents q with
          | [] => Empty
          | x :: _ => match k with Pop => Popped x | _ => Elem x end
          end
  | _ => False
  end.
Proof.
  intros Hk Hwf. pose proof (consumer_spec k q Hwf) as H.
  destruct (run_steps _ _ _ _) as [|q' g| |]; try done. destruct H as (? & Hg & Hr).
  split; [done|]. destruct g as [|x|x|]; simpl in Hr.
  - destruct Hr as [-> ->]. done.
  - rewrite Hr. by destruct k.
  - rewrite Hr. by destruct k.
  - by destruct k.
Qed.

Lemma wf_new maxSize : 1 <= maxSize < 2 ^ 62 -> wf (Queue_new (T:=T) maxSize).
Proof. intros H%ring_new. by eexists _, [], []. Qed.

Lemma exec_all_star ls (m m' : machine (T:=T)) :
  exec_all max_size ls m = Some m' -> star (step max_size) m m'.
Proof.
  revert m. induction ls as [|l ls IH]; simpl; intros m H; simplify_eq; [constructor|].
  destruct (exec max_size l m) as [m1|] eqn:E; [|done].
  econstructor; [by exists l|]. by apply IH.
Qed.
End Invariant.

(** ** Properties *)

Section Properties.
Context {T : Type}.
Variable max_size : Z.
Hypothesis max_size_bound : max_size < 2 ^ 63.
Variable maxSize : Z.
Hypothesis maxSize_bound : 1 <= maxSize < 2 ^ 62.

(** C3: in every interleaving of one producer and one consumer, the elements
    taken out are, in order, the first of those put in; no element is lost,
    duplicated or reordered, and when no dequeue is in progress the elements
    still to come are the contents of the blocks. *)
Theorem queue_fifo (m : machine (T:=T)) :
  star (step max_size) (init 1 maxSize) m ->
  exists rest, enqueued m = dequeued m ++ rest /\
    (consumer m = None -> contents (mq m) = rest).
Proof using max_size_bound maxSize_bound.
  intros Hs. destruct (minv_reachable _ max_size_bound _ _ maxSize_bound Hs)
    as (p & busy & pend & free & _ & R & _ & HC & He).
  exists (elements busy). split; [done|]. intros Hn. rewrite Hn in HC.
  destruct HC as (h & rest & b & E & _ & _ & Hsk). by eapply contents_elements.
Qed.

(** C22: no reachable state of one producer and one consumer makes an invalid
    access or fails an assertion: each thread with a call in progress can take
    its next step, but for a producer that is refused memory. *)
Theorem queue_safe (m : machine (T:=T)) :
  star (step max_size) (init 1 maxSize) m ->
  (forall p, producers m = [Some p] ->
     (exists m', exec max_size (LProducer 0) m = Some m') \/ prod_step max_size (mq m) p = Abort) /\
  (forall c, consumer m = Some c -> exists m', exec max_size LConsumer m = Some m').
Proof using max_size_bound maxSize_bound.
  intros Hs. destruct (minv_reachable _ max_size_bound _ _ maxSize_bound Hs)
    as (p0 & busy & pend & free & Ep & R & HP & HC & He). split.
  - intros p E. assert (p0 = Some p) as -> by congruence.
    pose proof (minv_producer _ max_size_bound _ _ _ _ _ E R HP HC He) as H.
    destruct (exec _ _ _); [left; eauto|by right].
  - intros c Hc. destruct (minv_consumer max_size _ _ _ _ _ _ Hc Ep R HP HC He) as (m' & ? & _).
    eauto.
Qed.

(** A dequeue, a peek or a pop reports an empty queue only if, when the call
    read the tail block, every element put in had been taken out. *)
Theorem queue_empty_is_empty (m : machine (T:=T)) c q' :
  star (step max_size) (init 1 maxSize) m ->
  consumer m = Some c -> cons_step (mq m) c = Ret q' Empty ->
  fst (snapshot m) = snd (snapshot m).
Proof using max_size_bound maxSize_bound.
  intros Hs Hc HE. destruct (minv_reachable _ max_size_bound _ _ maxSize_bound Hs)
    as (p0 & busy & pend & free & Ep & R & HP & HC & He).
  destruct (minv_consumer max_size _ _ _ _ _ _ Hc Ep R HP HC He) as (m' & Hm & _ & Hg).
  specialize (Hg _ _ HE). simpl in Hm. rewrite Hc, HE in Hm. injection Hm as <-.
  unfold saw_empty in Hg. by destruct c.
Qed.


(** Without interference the calls are those of a first-in first-out list:
    an enqueue appends (and fails only when it may not allocate, or when the
    memory is exhausted), [try_dequeue] and [pop] take the first element or
    report that there is none, and [peek] returns a pointer to it. *)
Theorem queue_calls q :
  wf (T:=T) q ->
  (forall mode x, enqueue_post max_size mode (largestBlockSize q) x (contents q)
                    (inner_enqueue max_size mode q x)) /\
  (exists q', try_dequeue q = Ret q' (match contents q with [] => Empty | x :: _ => Elem x end) /\
     wf q' /\ contents q' = List.tl (contents q)) /\
  (exists q', pop q = Ret q' (match contents q with [] => Empty | x :: _ => Popped x end) /\
     wf q' /\ contents q' = List.tl (contents q)) /\
  (exists q' g, peek q = Ret q' g /\ wf q' /\ contents q' = contents q /\
     match contents q with
     | [] => g = Empty
     | x :: _ => exists n i b, g = Pointer n i /\ blocks q' !! n = Some b /\
                   data b !! Z.to_nat i = Some (Some x)
     end).
Proof using max_size_bound.
  intros Hwf. split_and!.
  - intros. by apply inner_enqueue_spec.
  - pose proof (taken_spec Dequeue q ltac:(done) Hwf) as H. unfold try_dequeue.
    destruct (run_steps _ _ _ _) as [|q' g| |]; try done. destruct H as (? & ? & ->). eauto.
  - pose proof (taken_spec Pop q ltac:(done) Hwf) as H. unfold pop.
    destruct (run_steps _ _ _ _) as [|q' g| |]; try done. destruct H as (? & ? & ->). eauto.
  - pose proof (consumer_spec Peek q Hwf) as H. unfold peek.
    destruct (run_steps _ _ _ _) as [|q' g| |]; try done. destruct H as (? & Hk & Hr).
    exists q', g. destruct g; try done; simpl in Hr.
    + by destruct Hr as [-> ->].
    + destruct Hr as (x & b & Hx & ? & ? & ?). split_and!; try done.
      destruct (contents q); simplify_eq/=. eauto 10.
Qed.

(** A call of [try_enqueue] or of [try_dequeue]. *)
Definition try_call (q q' : ReaderWriterQueue T) : Prop :=
  (exists x r, try_enqueue max_size q x = Ret q' r) \/ (exists g, try_dequeue q = Ret q' g).

Lemma try_call_sizes q q' : try_call q q' -> sizes q' = sizes q.
Proof using.
  intros [(x & r & E)|(g & E)].
  - pose proof (run_prod_sizes max_size 11 q (E_tailBlock (mkArg CannotAlloc x)) ltac:(done)) as H.
    unfold try_enqueue, inner_enqueue in E. by rewrite E in H.
  - pose proof (run_cons_sizes 10 q (D_tailBlock Dequeue)) as H.
    unfold try_dequeue in E. by rewrite E in H.
Qed.

Lemma try_call_wf q q' : wf q -> try_call q q' -> wf q'.
Proof using max_size_bound.
  intros Hwf [(x & r & E)|(g & E)].
  - pose proof (inner_enqueue_spec _ max_size_bound CannotAlloc q x Hwf) as H.
    unfold try_enqueue in E. rewrite E in H. destruct r; apply H.
  - pose proof (consumer_spec Dequeue q Hwf) as H. unfold try_dequeue in E. rewrite E in H. apply H.
Qed.

(** A queue built for [maxSize] elements holds them without allocating: after
    any sequence of [try_enqueue] and [try_dequeue] calls, [try_enqueue] succeeds
    whenever fewer than [maxSize] elements are in the queue. *)
Theorem queue_capacity q x :
  star try_call (Queue_new maxSize) q -> lenZ (contents q) < maxSize ->
  exists q', try_enqueue max_size q x = Ret q' true.
Proof using max_size_bound maxSize_bound.
  intros Hs Hlen. set (sz := 2 ^ Z.log2_up (maxSize + 1)).
  assert (wf q /\ sizes q = [sz]) as [Hwf Hsz].
  { eapply (star_invariant _ (fun q => wf q /\ sizes q = [sz])); [|exact Hs|].
    - intros q1 q2 [H1 H2] Hc. split; [by eapply try_call_wf|].
      by rewrite (try_call_sizes _ _ Hc).
    - split; [by apply wf_new|]. unfold sizes, Queue_new. simpl.
      rewrite uwrap_small by lia. by rewrite ceilToPow2_log2_up by lia. }
  apply (single_block_room max_size q x sz Hwf Hsz).
  assert (maxSize + 1 <= sz) by (apply Z.log2_up_spec; lia). lia.
Qed.

(** The destructor of a queue at rest destroys each element still in the
    queue once, in order, and frees each block of the ring once: the front block,
    the tail block, and every block a freed one points to. *)
Theorem queue_delete q :
  wf (T:=T) q -> exists ns, Queue_delete q = Some (contents q, ns) /\ NoDup ns /\
    frontBlock q ∈ ns /\ tailBlock q ∈ ns /\
    (forall n b nx, n ∈ ns -> blocks q !! n = Some b -> next b = Some nx -> nx ∈ ns).
Proof using. apply Queue_delete_spec. Qed.
End Properties.

(** [ceilToPow2] is the least power of two that is not below its argument,
    for every argument of which the next power of two is a 64-bit word. *)
Theorem ceilToPow2_least x :
  1 <= x <= 2 ^ 63 ->
  exists k, 0 <= k /\ ceilToPow2 x = 2 ^ k /\ x <= 2 ^ k /\
    (forall j, 0 <= j -> x <= 2 ^ j -> k <= j).
Proof.
  intros Hx. exists (Z.log2_up x). split_and!.
  - apply Z.log2_up_nonneg.
  - by apply ceilToPow2_log2_up.
  - destruct (Z.eq_dec x 1) as [->|]; [done|]. apply Z.log2_up_spec. lia.
  - intros j Hj Hle. rewrite <- (Z.log2_up_pow2 j) by done. by apply Z.log2_up_le_mono.
Qed.

(** The contract of one producer is needed: two threads in [enqueue] at the
    same time read the same tail and write the same slot, so that one of two
    elements whose calls both succeeded is lost. *)
Theorem two_producers_lose_an_element :
  exists m, star (step 64) (init (T:=Z) 2 1) m /\
    producers m = [None; None] /\ consumer m = None /\
    enqueued m = [1; 2] /\ dequeued m = [] /\ contents (mq m) = [2].
Proof.
  eexists. split.
  - apply (exec_all_star _ ([LEnqueue 0 (mkArg CanAlloc 1); LEnqueue 1 (mkArg CanAlloc 2)]
      ++ replicate 3 (LProducer 0) ++ replicate 3 (LProducer 1)
      ++ [LProducer 0; LProducer 0; LProducer 1; LProducer 1])).
    vm_compute. reflexivity.
  - vm_compute. auto 10.
Qed.

(** ** Witnesses *)

(** Two elements are put in while the consumer takes one out. *)
Definition sample_labels : list (label (T:=Z)) :=
  [LEnqueue 0 (mkArg CanAlloc 7); LDequeue Dequeue; LProducer 0; LProducer 0; LConsumer;
   LProducer 0; LProducer 0; LProducer 0; LEnqueue 0 (mkArg CanAlloc 8); LConsumer;
   LConsumer; LProducer 0; LConsumer; LConsumer; LProducer 0; LConsumer; LProducer 0].

Lemma queue_fifo_witness :
  exists m rest, enqueued (T:=Z) m = dequeued m ++ rest /\ dequeued m = [7].
Proof.
  assert (exists m, exec_all 64 sample_labels (init 1 1) = Some m /\ dequeued m = [7]) as (m & E & D).
  { eexists. split; vm_compute; reflexivity. }
  destruct (queue_fifo 64 ltac:(lia) 1 ltac:(lia) m (exec_all_star _ _ _ _ E)) as (rest & ? & _).
  exists m, rest. split; assumption.
Defined.

Lemma queue_safe_witness :
  exists m, exec_all 64 sample_labels (init (T:=Z) 1 1) = Some m /\
    (forall c, consumer m = Some c -> exists m', exec 64 LConsumer m = Some m').
Proof.
  assert (exists m, exec_all 64 sample_labels (init (T:=Z) 1 1) = Some m) as (m & E).
  { eexists. vm_compute. reflexivity. }
  exists m. split; [exact E|].
  exact (proj2 (queue_safe 64 ltac:(lia) 1 ltac:(lia) m (exec_all_star _ _ _ _ E))).
Defined.

Lemma queue_empty_is_empty_witness :
  exists m : machine (T:=Z), consumer m <> None /\ fst (snapshot m) = snd (snapshot m).
Proof.
  assert (exists m c q', exec_all 64 (LDequeue Dequeue :: replicate 3 LConsumer) (init (T:=Z) 1 1) = Some m
            /\ consumer m = Some c /\ cons_step (mq m) c = Ret q' Empty) as (m & c & q' & E & Hc & HE).
  { do 3 eexists. split; [vm_compute; reflexivity|]. split; [reflexivity|].
    vm_compute. reflexivity. }
  exists m. split; [rewrite Hc; discriminate|].
  exact (queue_empty_is_empty 64 ltac:(lia) 1 ltac:(lia) m c q' (exec_all_star _ _ _ _ E) Hc HE).
Defined.

Lemma queue_calls_witness :
  exists q', try_dequeue (Queue_new (T:=Z) 3) = Ret q' Empty /\ wf q'.
Proof.
  destruct (queue_calls (T:=Z) 64 ltac:(lia) (Queue_new 3) (wf_new 3 ltac:(lia))) as (_ & (q' & E & H & _) & _).
  exists q'. split; [exact E|exact H].
Defined.

Lemma queue_capacity_witness :
  exists q', try_enqueue 64 (Queue_new (T:=Z) 3) 5 = Ret q' true.
Proof.
  apply (queue_capacity 64 ltac:(lia) 3 ltac:(lia)); [constructor|vm_compute; reflexivity].
Defined.

Lemma queue_delete_witness : exists ns, Queue_delete (Queue_new (T:=Z) 3) = Some ([], ns).
Proof.
  destruct (queue_delete (T:=Z) (Queue_new 3) (wf_new 3 ltac:(lia))) as (ns & E & _).
  exists ns. exact E.
Defined.

Lemma ceilToPow2_least_witness :
  exists k, 0 <= k /\ ceilToPow2 101 = 2 ^ k /\ 101 <= 2 ^ k /\
    (forall j, 0 <= j -> 101 <= 2 ^ j -> k <= j).
Proof. exact (ceilToPow2_least 101 ltac:(lia)). Defined.
