(* ===== verification/LockedQueue.v ===== *)
(** * The signalled queue

    [LockedQueue] (src/webapp/include/Webapp.h): a first-in first-out queue with
    a count of its elements, guarded by a mutex, and a condition variable on
    which a consumer waits.  The queue underneath is used through the interface
    [Fifo], which the queue of RwQueue.v implements; its calls are atomic here
    (what RwQueue.v proves of one producer and one consumer).  The section that
    holds the mutex is one step; [cv.wait] releases it, and may also return
    without a notification. *)

From Stdlib Require Import ZArith Lia.
From stdpp Require Import base list numbers option.
From S2P Require Import Prelude RwQueue.

(** ** What the queue underneath promises *)

Class Fifo (T Q : Type) := {
  fifo_ok : Q -> Prop;
  fifo_contents : Q -> list T;
  (** [None]: the memory is exhausted. *)
  fifo_enqueue : Q -> T -> option Q;
  fifo_try_dequeue : Q -> Q * option T;
  fifo_enqueue_spec q x q' :
    fifo_ok q -> fifo_enqueue q x = Some q' ->
    fifo_ok q' /\ fifo_contents q' = fifo_contents q ++ [x];
  fifo_try_dequeue_spec q q' r :
    fifo_ok q -> fifo_try_dequeue q = (q', r) ->
    fifo_ok q' /\ fifo_contents q' = List.tl (fifo_contents q) /\ r = head (fifo_contents q)
}.

(** The queue of RwQueue.v, with blocks of at most 2^40 elements. *)
Section RwFifo.
Context {T : Type}.

Definition rw_enqueue (q : ReaderWriterQueue T) (x : T) : option (ReaderWriterQueue T) :=
  match enqueue (2 ^ 40) q x with Ret q' true => Some q' | _ => None end.
Definition rw_try_dequeue (q : ReaderWriterQueue T) : ReaderWriterQueue T * option T :=
  match try_dequeue q with Ret q' (Elem x) => (q', Some x) | Ret q' _ => (q', None) | _ => (q, None) end.

Lemma rw_enqueue_spec q x q' :
  wf q -> rw_enqueue q x = Some q' -> wf q' /\ contents q' = contents q ++ [x].
Proof.
  intros Hwf. pose proof (inner_enqueue_spec (2 ^ 40) ltac:(lia) CanAlloc q x Hwf) as H.
  unfold rw_enqueue, enqueue. destruct (inner_enqueue _ _ _ _) as [|q1 [|]| |]; intros; simplify_eq.
  exact H.
Qed.

Lemma rw_try_dequeue_spec q q' r :
  wf q -> rw_try_dequeue q = (q', r) ->
  wf q' /\ contents q' = List.tl (contents q) /\ r = head (contents q).
Proof.
  intros Hwf. pose proof (taken_spec Dequeue q ltac:(done) Hwf) as H.
  unfold rw_try_dequeue, try_dequeue. destruct (run_steps _ _ _ _) as [|q1 g| |]; try done.
  destruct H as (H1 & H2 & ->). intros E. destruct (contents q); by simplify_eq/=.
Qed.

#[export] Instance rw_fifo : Fifo T (ReaderWriterQueue T) := {
  fifo_ok := wf;
  fifo_contents := contents;
  fifo_enqueue := rw_enqueue;
  fifo_try_dequeue := rw_try_dequeue;
  fifo_enqueue_spec := rw_enqueue_spec;
  fifo_try_dequeue_spec := rw_try_dequeue_spec
}.
End RwFifo.

(** ** The program *)

Section Locked.
(** The queue holds pointers to [A]: [None] is [NULL]. *)
Context {A Q : Type} `{Fifo (option A) Q}.

(** Where a thread is in a call. *)
Inductive tpc :=
| Idle
| EnqCheck (i : option A)
| EnqPush (i : option A)
| EnqSignal
| DeqCheck
| DeqLock
| DeqWait
| DeqTake
| TryCheck
| TryTake
| TryCount (r : option A)
| Done (r : option A).

Record LockedQueue := mkLocked {
  aborted : bool;
  count : Z;
  queue : Q;
  threads : list tpc;
  pushed : list (option A);
  taken : list (option A)
}.

Definition at_ (s : LockedQueue) (i : nat) (p : tpc) : LockedQueue :=
  mkLocked (aborted s) (count s) (queue s) (<[i := p]> (threads s)) (pushed s) (taken s).

Inductive call := CEnqueue (i : option A) | CDequeue | CTryDequeue.
Definition start (c : call) : tpc :=
  match c with CEnqueue i => EnqCheck i | CDequeue => DeqCheck | CTryDequeue => TryCheck end.

(** One step of thread [i]; [j] is the waiting thread a notification wakes. *)
Definition thread_step (s : LockedQueue) (i : nat) (j : option nat) : option LockedQueue :=
  let* p := threads s !! i in
  match p with
  | Idle | DeqWait => None
  | EnqCheck x => Some (at_ s i (if aborted s then Done None else EnqPush x))
  | EnqPush x =>
      let* q := fifo_enqueue (queue s) x in
      Some (mkLocked (aborted s) (count s) q (<[i := EnqSignal]> (threads s))
              (pushed s ++ [x]) (taken s))
  | EnqSignal =>
      let ts := <[i := Done None]> (threads s) in
      let ts := match j with Some j => <[j := DeqLock]> ts | None => ts end in
      Some (mkLocked (aborted s) (u64 (count s + 1)) (queue s) ts (pushed s) (taken s))
  | DeqCheck => Some (at_ s i (if aborted s then Done None else DeqLock))
  | DeqLock =>
      Some (if count s =? 0 then at_ s i DeqWait
            else mkLocked (aborted s) (u64 (count s - 1)) (queue s)
                   (<[i := DeqTake]> (threads s)) (pushed s) (taken s))
  | DeqTake =>
      let r := fifo_try_dequeue (queue s) in
      Some (mkLocked (aborted s) (count s) r.1
              (<[i := Done (default None r.2)]> (threads s)) (pushed s)
              (taken s ++ option_list r.2))
  | TryCheck => Some (at_ s i (if aborted s then Done None else TryTake))
  | TryTake =>
      let r := fifo_try_dequeue (queue s) in
      let v := default None r.2 in
      Some (mkLocked (aborted s) (count s) r.1
              (<[i := match v with Some _ => TryCount v | None => Done None end]> (threads s))
              (pushed s) (taken s ++ option_list r.2))
  | TryCount v =>
      Some (mkLocked (aborted s) (if count s =? 0 then count s else u64 (count s - 1))
              (queue s) (<[i := Done v]> (threads s)) (pushed s) (taken s))
  | Done _ => Some (at_ s i Idle)
  end.

(** A notification wakes a waiting thread if there is one. *)
Definition notified (ts : list tpc) (j : option nat) : Prop :=
  match j with
  | Some j => ts !! j = Some DeqWait
  | None => forall k, ts !! k <> Some DeqWait
  end.

(** The steps of the program, with the calls it makes in [calls]. *)
Inductive step (calls : call -> Prop) : LockedQueue -> LockedQueue -> Prop :=
| step_call s i c : threads s !! i = Some Idle -> calls c -> step calls s (at_ s i (start c))
| step_thread s s' i j :
    (threads s !! i = Some EnqSignal -> notified (threads s) j) ->
    thread_step s i j = Some s' -> step calls s s'
| step_spurious s i : threads s !! i = Some DeqWait -> step calls s (at_ s i DeqLock)
| step_abort s :
    step calls s (mkLocked true (count s) (queue s) (threads s) (pushed s) (taken s)).

Definition LockedQueue_new (q : Q) (n : nat) : LockedQueue :=
  mkLocked false 0 q (replicate n Idle) [] [].

(** ** The count and the elements *)

(** [tally f ts] adds up [f] over the threads. *)
Definition tally (f : tpc -> Z) (ts : list (tpc)) : Z := foldr (fun p n => f p + n) 0 ts.

Lemma tally_insert f ts i p p' :
  ts !! i = Some p -> tally f (<[i := p']> ts) = tally f ts - f p + f p'.
Proof.
  revert i. induction ts as [|q ts IH]; intros [|i] E; simplify_eq/=; [lia|].
  rewrite (IH _ E). lia.
Qed.

Lemma tally_nonneg f ts : (forall p, 0 <= f p) -> 0 <= tally f ts.
Proof. intros Hf. induction ts as [|p ts IH]; simpl; [lia|]. specialize (Hf p). lia. Qed.

Lemma tally_elem f ts i p : (forall p, 0 <= f p) -> ts !! i = Some p -> f p <= tally f ts.
Proof.
  intros Hf. revert i. induction ts as [|q ts IH]; intros [|i] E; simplify_eq/=.
  - pose proof (tally_nonneg f ts Hf). lia.
  - specialize (IH _ E). specialize (Hf q). lia.
Qed.

Lemma tally_pos f ts : 0 < tally f ts -> exists i p, ts !! i = Some p /\ 0 < f p.
Proof.
  induction ts as [|p ts IH]; simpl; [lia|]. intros Hp.
  destruct (Z.ltb_spec 0 (f p)); [by exists 0%nat, p|].
  destruct IH as (i & q & ? & ?); [lia|]. by exists (S i), q.
Qed.

(** An element is in the queue that is not counted yet, or not any more. *)
Definition uncounted (p : tpc) : Z := match p with EnqSignal | DeqTake => 1 | _ => 0 end.
(** The thread is about to take the mutex in [dequeue]. *)
Definition locking (p : tpc) : Z := match p with DeqLock => 1 | _ => 0 end.
Definition trying (p : tpc) : Prop :=
  match p with TryCheck | TryTake | TryCount _ => True | _ => False end.

Definition blocking (c : call) : Prop := c <> CTryDequeue.
Definition polling (c : call) : Prop := c <> CDequeue.

(** The invariant of a queue that is read with [dequeue]. *)
Record inv (s : LockedQueue) : Prop := {
  inv_ok : fifo_ok (queue s);
  inv_fifo : pushed s = taken s ++ fifo_contents (queue s);
  inv_try : Forall (fun p => ~ trying p) (threads s);
  inv_room : tally uncounted (threads s) <= lenZ (fifo_contents (queue s));
  inv_count : count s = u64 (lenZ (fifo_contents (queue s)) - tally uncounted (threads s));
  inv_wake i : threads s !! i = Some DeqWait -> count s <= tally locking (threads s)
}.

Lemma uncounted_nonneg p : 0 <= uncounted p.
Proof. destruct p; simpl; lia. Qed.
Lemma locking_nonneg p : 0 <= locking p.
Proof. destruct p; simpl; lia. Qed.

(** A step of thread [i] from [p] to [p'] that changes neither the count nor the
    queue. *)
Lemma inv_move s i p p' :
  inv s -> threads s !! i = Some p -> ~ trying p' -> uncounted p' = uncounted p ->
  (p' = DeqWait -> count s = 0) -> locking p <= locking p' \/ count s = 0 -> inv (at_ s i p').
Proof.
  intros [Hok Hf Ht Hr Hc Hw] Hp Ht' Hu Hwait Hlock.
  pose proof (tally_nonneg locking (<[i := p']> (threads s)) locking_nonneg) as Hn.
  rewrite (tally_insert locking _ _ _ _ Hp) in Hn.
  split; simpl; rewrite ?(tally_insert uncounted _ _ _ _ Hp), ?(tally_insert locking _ _ _ _ Hp).
  - done.
  - done.
  - by apply Forall_insert.
  - lia.
  - rewrite Hc. f_equal. lia.
  - intros k Hk. destruct (decide (k = i)) as [->|].
    + rewrite list_lookup_insert_eq in Hk by (by eapply lookup_lt_Some). simplify_eq.
      specialize (Hwait eq_refl). lia.
    + rewrite list_lookup_insert_ne in Hk by done. specialize (Hw _ Hk). lia.
Qed.

(** [enqueue] puts its element into the queue; it is not counted yet. *)
Lemma inv_push s i x q :
  inv s -> threads s !! i = Some (EnqPush x) -> fifo_enqueue (queue s) x = Some q ->
  inv (mkLocked (aborted s) (count s) q (<[i := EnqSignal]> (threads s)) (pushed s ++ [x]) (taken s)).
Proof.
  intros [Hok Hf Ht Hr Hc Hw] Hp Hq. destruct (fifo_enqueue_spec _ _ _ Hok Hq) as [Hok' E].
  split; simpl; rewrite ?(tally_insert uncounted _ _ _ _ Hp), ?(tally_insert locking _ _ _ _ Hp);
    rewrite ?E, ?length_app; simpl.
  - done.
  - by rewrite Hf, (assoc_L (++)).
  - apply Forall_insert; [done|intros []].
  - lia.
  - rewrite Hc. f_equal. lia.
  - intros k Hk. destruct (decide (k = i)) as [->|].
    + by rewrite list_lookup_insert_eq in Hk by (by eapply lookup_lt_Some).
    + rewrite list_lookup_insert_ne in Hk by done. specialize (Hw _ Hk). lia.
Qed.

(** [enqueue] counts its element and wakes a waiting consumer. *)
Lemma inv_signal s i j :
  inv s -> threads s !! i = Some EnqSignal -> notified (threads s) j ->
  inv (mkLocked (aborted s) (u64 (count s + 1)) (queue s)
         (match j with Some j => <[j := DeqLock]> (<[i := Done None]> (threads s))
          | None => <[i := Done None]> (threads s) end) (pushed s) (taken s)).
Proof.
  intros [Hok Hf Ht Hr Hc Hw] Hp Hj.
  set (n := lenZ (fifo_contents (queue s)) - tally uncounted (threads s)) in *.
  assert (u64 (count s + 1) = u64 (n + 1)) as Hc'.
  { rewrite Hc. unfold uwrap. by rewrite Zplus_mod_idemp_l. }
  assert (u64 (count s + 1) <= count s + 1) as Hle.
  { apply Z.mod_le; [|lia]. rewrite Hc. pose proof (uwrap_range 64 n). lia. }
  destruct j as [j|]; simpl in Hj.
  - assert (<[i := Done None]> (threads s) !! j = Some DeqWait) as Hj'.
    { rewrite list_lookup_insert_ne; [done|]. intros ->. congruence. }
    specialize (Hw _ Hj).
    split; simpl;
      rewrite ?(tally_insert uncounted _ _ _ _ Hj'), ?(tally_insert locking _ _ _ _ Hj'),
        ?(tally_insert uncounted _ _ _ _ Hp), ?(tally_insert locking _ _ _ _ Hp); simpl; try done.
    + apply Forall_insert; [apply Forall_insert; [done|intros []]|intros []].
    + lia.
    + rewrite Hc'. f_equal. lia.
    + intros k _. lia.
  - split; simpl; rewrite ?(tally_insert uncounted _ _ _ _ Hp), ?(tally_insert locking _ _ _ _ Hp);
      simpl; try done.
    + apply Forall_insert; [done|intros []].
    + lia.
    + rewrite Hc'. f_equal. lia.
    + intros k Hk. destruct (decide (k = i)) as [->|].
      * by rewrite list_lookup_insert_eq in Hk by (by eapply lookup_lt_Some).
      * rewrite list_lookup_insert_ne in Hk by done. by destruct (Hj k).
Qed.

(** [dequeue] takes the mutex when there is something to take. *)
Lemma inv_lock s i :
  inv s -> threads s !! i = Some DeqLock -> count s <> 0 ->
  inv (mkLocked (aborted s) (u64 (count s - 1)) (queue s) (<[i := DeqTake]> (threads s))
         (pushed s) (taken s)).
Proof.
  intros [Hok Hf Ht Hr Hc Hw] Hp Hne.
  set (n := lenZ (fifo_contents (queue s)) - tally uncounted (threads s)) in *.
  assert (0 < n) as Hn.
  { destruct (Z.eq_dec n 0) as [E|]; [|lia]. destruct Hne. by rewrite Hc, E. }
  pose proof (uwrap_range 64 n ltac:(lia)) as Hrange. rewrite <- Hc in Hrange.
  split; simpl; rewrite ?(tally_insert uncounted _ _ _ _ Hp), ?(tally_insert locking _ _ _ _ Hp);
    simpl; try done.
  - apply Forall_insert; [done|intros []].
  - lia.
  - rewrite Hc. unfold uwrap. rewrite Zminus_mod_idemp_l. f_equal. lia.
  - rewrite (uwrap_small 64 (count s - 1)) by lia.
    intros k Hk. destruct (decide (k = i)) as [->|].
    + by rewrite list_lookup_insert_eq in Hk by (by eapply lookup_lt_Some).
    + rewrite list_lookup_insert_ne in Hk by done. specialize (Hw _ Hk). lia.
Qed.

(** ... and then finds an element in the queue. *)
Lemma inv_nonempty s i :
  inv s -> threads s !! i = Some DeqTake -> exists x xs, fifo_contents (queue s) = x :: xs.
Proof.
  intros [Hok Hf Ht Hr Hc Hw] Hp.
  pose proof (tally_elem uncounted _ _ _ uncounted_nonneg Hp) as H1. simpl in H1.
  destruct (fifo_contents (queue s)); [simpl in Hr; lia|eauto].
Qed.

Lemma inv_take s i :
  inv s -> threads s !! i = Some DeqTake ->
  let r := fifo_try_dequeue (queue s) in
  inv (mkLocked (aborted s) (count s) r.1 (<[i := Done (default None r.2)]> (threads s))
         (pushed s) (taken s ++ option_list r.2)).
Proof.
  intros Hi Hp r. destruct (inv_nonempty _ _ Hi Hp) as (x & xs & Ex).
  destruct Hi as [Hok Hf Ht Hr Hc Hw]. subst r.
  destruct (fifo_try_dequeue (queue s)) as [q r] eqn:E.
  destruct (fifo_try_dequeue_spec _ _ _ Hok E) as (Hok' & Eq & ->).
  rewrite Ex in *. simpl in Eq.
  split; simpl; rewrite ?(tally_insert uncounted _ _ _ _ Hp), ?(tally_insert locking _ _ _ _ Hp);
    rewrite ?Eq; simpl in *; try done.
  - by rewrite Hf, <- (assoc_L (++)).
  - apply Forall_insert; [done|intros []].
  - lia.
  - rewrite Hc. f_equal. lia.
  - intros k Hk. destruct (decide (k = i)) as [->|].
    + by rewrite list_lookup_insert_eq in Hk by (by eapply lookup_lt_Some).
    + rewrite list_lookup_insert_ne in Hk by done. specialize (Hw _ Hk). lia.
Qed.

Lemma inv_step s s' : inv s -> step blocking s s' -> inv s'.
Proof.
  intros Hi Hs. destruct Hs as [s i c Hp Hc|s s' i j Hj Hs|s i Hp|s].
  - eapply inv_move; [done..| | | |]; destruct c; simpl; try done; lia.
  - unfold thread_step in Hs. destruct (threads s !! i) as [p|] eqn:Hp; [|done].
    pose proof (Forall_lookup_1 _ _ _ _ (inv_try _ Hi) Hp) as Htry.
    destruct p; simplify_eq; try (by destruct Htry).
    + eapply inv_move; [done..| | | |]; destruct (aborted s); simpl; try done; lia.
    + destruct (fifo_enqueue (queue s) i0) eqn:E; simplify_eq. by eapply inv_push.
    + by apply inv_signal; [| |apply Hj].
    + eapply inv_move; [done..| | | |]; destruct (aborted s); simpl; try done; lia.
    + destruct (Z.eqb_spec (count s) 0); [|by apply inv_lock].
      eapply inv_move; [done..| | | |]; simpl; try done; lia.
    + by apply inv_take.
    + eapply inv_move; [done..| | | |]; simpl; try done; lia.
  - eapply inv_move; [done..| | | |]; simpl; try done; lia.
  - by destruct Hi.
Qed.

Lemma inv_new q n : fifo_ok q -> fifo_contents q = [] -> inv (LockedQueue_new q n).
Proof.
  intros Hok E.
  assert (forall f, f Idle = 0 -> tally f (replicate n Idle) = 0) as Ht.
  { intros f Hf. induction n as [|n IH]; simpl; [done|]. by rewrite IH, Hf. }
  split; simpl; rewrite ?E, ?Ht by done; try done.
  - apply Forall_replicate. intros [].
Qed.

Lemma inv_reachable q n s :
  fifo_ok q -> fifo_contents q = [] -> star (step blocking) (LockedQueue_new q n) s -> inv s.
Proof.
  intros Hok E Hs. eapply star_invariant; [|exact Hs|by apply inv_new]. apply inv_step.
Qed.

(** *** A queue that is shut down *)

(** Thread [i] is in [dequeue], the queue is empty and its flag is set. *)
Definition stuck (i : nat) (s : LockedQueue) : Prop :=
  aborted s = true /\ count s = 0 /\
  (threads s !! i = Some DeqWait \/ threads s !! i = Some DeqLock) /\
  (forall k x, threads s !! k <> Some (EnqPush x)) /\
  (forall k, threads s !! k <> Some EnqSignal).

Lemma stuck_move i s k p p' q pu ta :
  stuck i s -> threads s !! k = Some p ->
  (k = i -> p' = DeqWait \/ p' = DeqLock) ->
  (forall x, p' <> EnqPush x) -> p' <> EnqSignal ->
  stuck i (mkLocked true 0 q (<[k := p']> (threads s)) pu ta).
Proof.
  intros (Ha & Hc & Hi & Hp & Hs) Hk Hki Hp' Hs'. apply lookup_lt_Some in Hk as Hlt.
  split_and!; try done; simpl.
  - destruct (decide (k = i)) as [->|].
    + rewrite list_lookup_insert_eq by done. destruct Hki as [-> | ->]; auto.
    + by rewrite list_lookup_insert_ne by done.
  - intros m x. destruct (decide (k = m)) as [->|].
    + rewrite list_lookup_insert_eq by done. intros [= E]. by apply (Hp' x).
    + rewrite list_lookup_insert_ne by done. apply Hp.
  - intros m. destruct (decide (k = m)) as [->|].
    + rewrite list_lookup_insert_eq by done. intros [= E]. done.
    + rewrite list_lookup_insert_ne by done. apply Hs.
Qed.

Lemma stuck_thread i s k j s' : stuck i s -> thread_step s k j = Some s' -> stuck i s'.
Proof.
  intros Hst Hs. destruct (Hst) as (Ha & Hc & Hi & Hp & Hsg). unfold thread_step, at_ in Hs.
  destruct (threads s !! k) as [p|] eqn:Hk; [|done].
  assert (p <> DeqWait -> p <> DeqLock -> k <> i) as Hki.
  { intros ? ? ->. destruct Hi; simplify_eq. }
  destruct p; rewrite ?Ha, ?Hc in Hs; simplify_eq/=;
    try (by destruct (Hp _ _ Hk)); try (by destruct (Hsg _ Hk));
    (eapply stuck_move; [done|exact Hk|..]); auto; try done;
    try (by intros E; destruct Hki).
  all: by destruct (default None _).
Qed.

Lemma stuck_step i calls s s' : stuck i s -> step calls s s' -> stuck i s'.
Proof.
  intros Hst Hs. destruct (Hst) as (Ha & Hc & Hi & Hp & Hsg).
  destruct Hs as [s k c Hk Hcall|s s' k j Hj Hs|s k Hk|s].
  - unfold at_. rewrite Ha, Hc. eapply stuck_move; [done|exact Hk|..]; destruct c; simpl; try done;
      intros ->; destruct Hi; congruence.
  - by eapply stuck_thread.
  - unfold at_. rewrite Ha, Hc. eapply stuck_move; [done|exact Hk|..]; auto; done.
  - by split_and!.
Qed.

(** ** Properties *)



(** Setting the flag of the queue does not end a [dequeue] that waits: from a
    state where thread [i] waits, nothing is counted and no enqueue is past its
    check, once the flag is set the thread never returns, whatever calls follow,
    [enqueue(NULL)] included. *)
Theorem locked_queue_abort_does_not_wake calls s s' i :
  threads s !! i = Some DeqWait -> count s = 0 ->
  (forall k x, threads s !! k <> Some (EnqPush x)) ->
  (forall k, threads s !! k <> Some EnqSignal) ->
  aborted s = true -> star (step calls) s s' ->
  threads s' !! i = Some DeqWait \/ threads s' !! i = Some DeqLock.
Proof.
  intros Hi Hc Hp Hsg Ha Hs. assert (stuck i s) as Hst by (split_and!; auto).
  pose proof (star_invariant (step calls) (stuck i) (fun a b => stuck_step i calls a b) s s' Hs Hst) as H'.
  apply H'.
Qed.
End Locked.

(** ** Witnesses *)

Abbreviation lqueue := (LockedQueue (A:=Z) (Q:=ReaderWriterQueue (option Z))).

Definition sample_queue : lqueue := LockedQueue_new (Queue_new 3) 2.

Lemma sample_ok : fifo_ok (queue sample_queue) /\ fifo_contents (queue sample_queue) = [].
Proof. split; [apply wf_new; lia|reflexivity]. Qed.

(** A call starts; a thread steps; nobody waits when it signals. *)
Ltac run_call i c :=
  eapply star_step; [apply (step_call _ _ i c); [reflexivity|done]|cbv [at_]; cbn [start]].
Ltac run_thread i :=
  eapply star_step;
  [apply (step_thread _ _ _ i None);
   [first [discriminate | intros _ [|[|k]]; discriminate]|vm_compute; reflexivity]|].

(** Thread 0 enqueues; thread 1 has passed the wait in [dequeue]. *)
Lemma sample_taking :
  exists s : lqueue, star (step blocking) sample_queue s /\ threads s !! 1%nat = Some DeqTake.
Proof.
  eexists. split.
  - run_call 0%nat (CEnqueue (Some 5)). do 4 run_thread 0%nat.
    run_call 1%nat (@CDequeue Z). do 2 run_thread 1%nat. apply star_refl.
  - reflexivity.
Qed.

(** Thread 1 waits; thread 0 is in [enqueue]. *)
Lemma sample_waiting :
  exists s : lqueue, star (step blocking) sample_queue s /\ threads s !! 1%nat = Some DeqWait /\
    fifo_contents (queue s) = [Some 5].
Proof.
  eexists. split.
  - run_call 1%nat (@CDequeue Z). do 2 run_thread 1%nat.
    run_call 0%nat (CEnqueue (Some 5)). do 2 run_thread 0%nat. apply star_refl.
  - split; reflexivity.
Qed.



(** Thread 1 waits, the flag is set, and thread 0 calls [enqueue(NULL)]. *)
Definition sample_aborted : lqueue := mkLocked true 0 (Queue_new 3) [Idle; DeqWait] [] [].

Lemma locked_queue_abort_does_not_wake_witness :
  exists s' : lqueue, threads s' !! 0%nat = Some (Done None) /\
    (threads s' !! 1%nat = Some DeqWait \/ threads s' !! 1%nat = Some DeqLock).
Proof.
  exists (at_ (at_ sample_aborted 0 (EnqCheck None)) 0 (Done None)). split; [reflexivity|].
  apply (locked_queue_abort_does_not_wake (fun _ => True) sample_aborted); try reflexivity.
  - intros [|[|k]] x; discriminate.
  - intros [|[|k]]; discriminate.
  - eapply star_step; [apply (step_call _ _ 0%nat (CEnqueue None)); [reflexivity|exact I]|].
    eapply star_step; [|apply star_refl].
    apply (step_thread _ _ _ 0 None); [discriminate|reflexivity].
Defined.
