(* ===== verification/Worker.v ===== *)
(** * The worker: requests, their pool, and the sockets

    [Request] and [Worker] (src/webapp/include/Webapp.h, src/webapp/src/
    Workers.cpp).  A request arrives on a socket as a MessagePack number, the
    length of the headers, followed by the headers; [process_msgpack_request]
    collects it from reads of any size.  The sockets and timers of asio are the
    environment: a handler is a function of the error code and of the bytes the
    socket delivers. *)

From Stdlib Require Import ZArith Lia.
From stdpp Require Import base list numbers option.
From S2P Require Import Prelude ByteOrder MsgPack MsgUnpack.

(** ** Requests *)

(** [headers] is the vector, [data_off] the offset of [headers_buf.data] in it,
    [len] is [headers_buf.len], [ctr] the byte counter of the socket. *)
Record Request := mkRequest {
  headers : list Z;
  data_off : Z;
  len : Z;
  ctr : Z;
  lua_request : option (list Z)
}.

(** [std::vector<char>::resize]. *)
Definition resize (n : Z) (v : list Z) : list Z :=
  take (Z.to_nat n) v ++ replicate (Z.to_nat n - length v) 0.

Definition Request_reset (destroy : bool) (r : Request) : Request :=
  if destroy then mkRequest (headers r) (data_off r) (len r) 0 None
  else mkRequest (if 255 <? len r then resize 9 (headers r) else headers r) 0 0 0 (lua_request r).

Definition Request_new : Request :=
  Request_reset false (mkRequest (resize 9 []) 0 0 0 None).

(** The error code a handler is called with. *)
Inductive error_code := NoError | OperationAborted | OtherError.

(** What becomes of the request: [VEnqueue]: it is queued for the Lua VM;
    [VRead]: more bytes are read, with a timeout of 5 seconds; [VFinish]: the
    socket is aborted and the request goes back to the pool; [VNone]: nothing;
    [VOverflow]: bytes were stored outside of the vector. *)
Inductive verdict := VEnqueue | VRead | VFinish | VNone | VOverflow.

Section Receive.
(** Whether [msgpack_zone_malloc] succeeds, and the largest vector there is
    memory for. *)
Variable zone_malloc : Z -> bool.
Variable max_vector : Z.
(** The size of the object the Lua VM keeps with a request. *)
Variable request_size : Z.

(** The size of the buffer given to [read_some]: an [int] converted to [size_t]. *)
Definition to_read (r : Request) : Z := if len r =? 0 then 9 else len r.
Definition read_limit (r : Request) : Z := u64 (i32 (to_read r - ctr r)).

(** The length is read from the first bytes; the flag is set when [resize] throws. *)
Definition parse_length (r : Request) : Request * bool :=
  match Unpack.msgpack_unpack_next zone_malloc (read_at (data_off r) (ctr r) (headers r)) 0 with
  | Some (MSGPACK_OBJECT_POSITIVE_INTEGER u, offset) =>
      let headers_size := i32 u in
      let total := u64 (headers_size + offset) in
      if (9 <? total) && (max_vector <? total) then
        (mkRequest (headers r) (data_off r) headers_size (ctr r) (lua_request r), true)
      else
        (mkRequest (if 9 <? total then resize total (headers r) else headers r)
           offset headers_size (u16 (ctr r - offset)) (lua_request r), false)
  | _ => (r, false)
  end.

(** The request once all headers are there. *)
Definition complete (r : Request) : Request * verdict :=
  if (0 <? len r) && (len r <=? ctr r) then
    (mkRequest (headers r) (data_off r) (len r) (ctr r)
       (Some (replicate (Z.to_nat request_size) 0)), VEnqueue)
  else (r, VRead).

(** The handler when [read_some] has delivered [chunk]. *)
Definition process_chunk (r : Request) (chunk : list Z) : Request * verdict :=
  match write_at (data_off r + ctr r) chunk (headers r) with
  | None => (r, VOverflow)
  | Some hs =>
      let r := mkRequest hs (data_off r) (len r) (u16 (ctr r + lenZ chunk)) (lua_request r) in
      if (len r =? 0) && (1 <=? ctr r) then
        match parse_length r with
        | (r, false) => complete r
        | (r, true) => (r, VFinish)
        end
      else complete r
  end.

(** [read] is what [read_some] returns, [None] when it throws. *)
Definition process_msgpack_request (r : Request) (ec : error_code) (read : option (list Z))
  : Request * verdict :=
  match ec with
  | NoError => match read with Some chunk => process_chunk r chunk | None => (r, VFinish) end
  | OperationAborted => (r, VNone)
  | OtherError => (r, VFinish)
  end.

(** A request is read in as many rounds as it takes. *)
Fixpoint receive (r : Request) (chunks : list (list Z)) : Request * verdict :=
  match chunks with
  | [] => (r, VRead)
  | c :: cs =>
      match process_msgpack_request r NoError (Some c) with
      | (r', VRead) => receive r' cs
      | res => res
      end
  end.

(** A read delivers at least one byte, and no more than was asked for. *)
Fixpoint delivered (r : Request) (chunks : list (list Z)) : Prop :=
  match chunks with
  | [] => True
  | c :: cs =>
      c <> [] /\ lenZ c <= read_limit r /\
      match process_msgpack_request r NoError (Some c) with
      | (r', VRead) => delivered r' cs
      | _ => True
      end
  end.

Lemma take_resize n k hs :
  (k <= length hs)%nat -> (k <= Z.to_nat n)%nat -> take k (resize n hs) = take k hs.
Proof.
  intros H1 H2. unfold resize. rewrite take_app_le by (rewrite length_take; lia).
  rewrite take_take. f_equal. lia.
Qed.

Lemma length_resize n hs : length (resize n hs) = Z.to_nat n.
Proof. unfold resize. rewrite length_app, length_take, length_replicate. lia. Qed.

(** ** A request arrives whole, however the bytes are cut *)

(** A request ready to be read into. *)
Definition fresh (r : Request) : Prop :=
  (9 <= length (headers r))%nat /\ data_off r = 0 /\ len r = 0 /\ ctr r = 0.

Section Framing.
Variable payload post : list Z.
Let L := lenZ payload.
Let prefix := msgpack_pack_uint64 L.
Let o := length prefix.
Let stream := prefix ++ payload ++ post.
Hypothesis payload_size : 1 <= L <= 65535.
Hypothesis room : 65544 <= max_vector.

(** [k] bytes of the stream have been read. *)
Record collecting (k : nat) (r : Request) : Prop := {
  col_bytes : take k (headers r) = take k stream;
  col_avail : (k <= length stream)%nat;
  col_phase :
    (k < o)%nat /\ (9 <= length (headers r))%nat /\ data_off r = 0 /\ len r = 0 /\ ctr r = Z.of_nat k \/
    (o <= k)%nat /\ (k < o + length payload <= length (headers r))%nat /\
    data_off r = Z.of_nat o /\ len r = L /\ ctr r = Z.of_nat k - Z.of_nat o
}.

Lemma prefix_length : (1 <= o <= 3)%nat.
Proof.
  unfold o, prefix, msgpack_pack_uint64. rewrite uwrap_small by lia. unfold msgpack_pack_real_uint64.
  change (Z.shiftl 1 8) with 256. change (Z.shiftl 1 7) with 128. change (Z.shiftl 1 16) with 65536.
  repeat zcase; simpl; lia.
Qed.

Lemma stream_length : length stream = (o + length payload + length post)%nat.
Proof. unfold stream, o. rewrite !length_app. lia. Qed.

(** The number is recognised as soon as its bytes are there, and not before. *)
Lemma unpack_stream n :
  (n <= length stream)%nat ->
  Unpack.msgpack_unpack_next zone_malloc (take n stream) 0
  = if (n <? o)%nat then None else Some (MSGPACK_OBJECT_POSITIVE_INTEGER L, Z.of_nat o).
Proof.
  intros Hn. assert (Unpack.packable zone_malloc (MSGPACK_OBJECT_POSITIVE_INTEGER L)) as Hp
    by (unfold Unpack.packable; lia).
  destruct (Nat.ltb_spec n o) as [Hlt|Hge].
  - unfold stream. rewrite take_app_le by (unfold o in Hlt; lia).
    refine (proj1 (Unpack.unpack_next_prefix zone_malloc _ (take n prefix) (drop n prefix) Hp _ _ _)).
    + simpl. lia.
    + symmetry. apply take_drop.
    + intros E%(f_equal length). rewrite length_drop in E. unfold o in Hlt. simpl in E. lia.
  - replace (take n stream) with (prefix ++ take (n - o) (payload ++ post))
      by (symmetry; apply take_app_ge; exact Hge).
    exact (Unpack.unpack_next_packed zone_malloc _ [] _ Hp ltac:(simpl; lia)).
Qed.

(** The payload, read off the vector. *)
Lemma read_payload k hs :
  take k hs = take k stream -> (o + length payload <= k <= length hs)%nat ->
  read_at (Z.of_nat o) L hs = payload.
Proof.
  intros E Hk. unfold read_at, L. rewrite !Nat2Z.id.
  transitivity (take (length payload) (drop o (take k hs))).
  - rewrite skipn_firstn_comm, take_take. f_equal. lia.
  - rewrite E, skipn_firstn_comm, take_take. unfold stream, o.
    rewrite drop_app_length. rewrite Nat.min_l by (unfold o in Hk; lia).
    apply take_app_length.
Qed.

(** What is stored: the next bytes of the stream. *)
Lemma store_chunk k hs chunk hs' :
  take k hs = take k stream -> (k <= length hs)%nat ->
  chunk = take (length chunk) (drop k stream) ->
  write_at (Z.of_nat k) chunk hs = Some hs' ->
  take (k + length chunk) hs' = take (k + length chunk) stream.
Proof.
  intros E Hk Hc Hw. pose proof (write_at_upto _ _ _ _ Hw) as Hu. rewrite Nat2Z.id in Hu.
  rewrite Hu, E, Hc at 1. rewrite take_take_drop. done.
Qed.

(** What a round leads to once [k] bytes of the stream are there. *)
Definition progress (k : nat) (res : Request * verdict) : Prop :=
  match res with
  | (r', VRead) => (k < o + length payload)%nat /\ collecting k r'
  | (r', VEnqueue) =>
      (o + length payload <= k)%nat /\ len r' = L /\
      read_at (data_off r') (len r') (headers r') = payload /\
      lua_request r' = Some (replicate (Z.to_nat request_size) 0)
  | _ => False
  end.

Lemma complete_progress k r :
  take k (headers r) = take k stream -> (k <= length stream)%nat -> (k <= length (headers r))%nat ->
  (o <= k)%nat -> (o + length payload <= length (headers r))%nat ->
  data_off r = Z.of_nat o -> len r = L -> ctr r = Z.of_nat k - Z.of_nat o ->
  progress k (complete r).
Proof.
  intros Hb Hk Hkh Hok Hroom Hd Hl Hc. unfold complete. rewrite Hl, Hc.
  destruct (Z.ltb_spec 0 L); [|lia].
  destruct (Z.leb_spec L (Z.of_nat k - Z.of_nat o)); simpl.
  - split_and!; [unfold L in *; lia|done| |done]. rewrite Hd. apply (read_payload k); [done|].
    unfold L in *. lia.
  - split; [unfold L in *; lia|]. split; [done..|]. right. unfold L in *. split_and!; lia || done.
Qed.

(** The first bytes: the number, and what follows it up to 9 bytes. *)
Lemma number_step k r chunk :
  collecting k r -> (k < o)%nat -> chunk <> [] -> lenZ chunk <= read_limit r ->
  chunk = take (length chunk) (drop k stream) -> (k + length chunk <= length stream)%nat ->
  progress (k + length chunk) (process_chunk r chunk).
Proof.
  intros [Hb Hk Hph] Hko Hne Hlim Hc Hav. destruct Hph as [(_ & Hr & Hd & Hl & Hn)|]; [|lia].
  pose proof prefix_length as Ho. unfold read_limit, to_read in Hlim.
  rewrite Hl, Hn in Hlim. simpl in Hlim. rewrite swrap_small, uwrap_small in Hlim by (simpl; lia).
  unfold process_chunk. rewrite Hd, Hn, Hl, Z.add_0_l.
  rewrite write_at_Some by lia. set (hs := take _ _ ++ _).
  assert (write_at (Z.of_nat k) chunk (headers r) = Some hs) as Hw by (apply write_at_Some; lia).
  pose proof (store_chunk _ _ _ _ Hb ltac:(lia) Hc Hw) as Hb'.
  pose proof (write_at_length _ _ _ _ Hw) as Hlen.
  assert (0 < length chunk)%nat by (by destruct chunk; simpl in *; [done|lia]).
  rewrite (uwrap_small 16) by lia. simpl.
  destruct (Z.leb_spec 1 (Z.of_nat k + lenZ chunk)); [|lia].
  unfold parse_length, read_at. simpl. rewrite drop_0.
  replace (Z.to_nat (Z.of_nat k + lenZ chunk)) with (k + length chunk)%nat by lia.
  rewrite Hb', unpack_stream by done.
  destruct (Nat.ltb_spec (k + length chunk) o) as [Hlt|Hge].
  - unfold complete. simpl. split; [lia|]. split; simpl; [done|done|]. left. split_and!; lia || done.
  - rewrite swrap_small by (simpl; lia). rewrite (uwrap_small 64) by lia.
    rewrite (uwrap_small 16) by lia.
    destruct (Z.ltb_spec 9 (L + Z.of_nat o)); destruct (Z.ltb_spec max_vector (L + Z.of_nat o));
      simpl; try lia; (apply complete_progress; simpl; try done; try lia).
    + rewrite take_resize; [done|lia|lia].
    + rewrite length_resize. lia.
    + rewrite length_resize. unfold L in *. lia.
Qed.

(** The bytes of the headers. *)
Lemma payload_step k r chunk :
  collecting k r -> (o <= k)%nat -> chunk <> [] -> lenZ chunk <= read_limit r ->
  chunk = take (length chunk) (drop k stream) -> (k + length chunk <= length stream)%nat ->
  progress (k + length chunk) (process_chunk r chunk).
Proof.
  intros [Hb Hk Hph] Hko Hne Hlim Hc Hav. destruct Hph as [|(_ & Hr & Hd & Hl & Hn)]; [lia|].
  pose proof prefix_length as Ho. unfold read_limit, to_read in Hlim. rewrite Hl, Hn in Hlim.
  destruct (Z.eqb_spec L 0); [lia|].
  assert (L = lenZ payload) as EL by done.
  rewrite swrap_small, uwrap_small in Hlim by (simpl; lia).
  unfold process_chunk. rewrite Hd, Hn, Hl.
  replace (Z.of_nat o + (Z.of_nat k - Z.of_nat o)) with (Z.of_nat k) by lia.
  rewrite write_at_Some by lia. set (hs := take _ _ ++ _).
  assert (write_at (Z.of_nat k) chunk (headers r) = Some hs) as Hw by (apply write_at_Some; lia).
  pose proof (store_chunk _ _ _ _ Hb ltac:(lia) Hc Hw) as Hb'.
  pose proof (write_at_length _ _ _ _ Hw) as Hlen.
  rewrite (uwrap_small 16) by lia. simpl. destruct (Z.eqb_spec L 0); [lia|]. simpl.
  apply complete_progress; simpl; try done; lia.
Qed.

Lemma receive_progress k r chunks :
  collecting k r -> (k < o + length payload)%nat -> delivered r chunks ->
  concat chunks `prefix_of` drop k stream ->
  let '(r', v) := receive r chunks in
  (v = VRead /\ (k + length (concat chunks) < o + length payload)%nat) \/
  (v = VEnqueue /\ (o + length payload <= k + length (concat chunks))%nat /\ len r' = L /\
   read_at (data_off r') (len r') (headers r') = payload /\
   lua_request r' = Some (replicate (Z.to_nat request_size) 0)).
Proof.
  revert k r. induction chunks as [|c cs IH]; intros k r Hcol Hk Hdel [tl Htl]; [left; simpl; split; [done|lia]|].
  simpl in Hdel. destruct Hdel as (Hne & Hlim & Hdel). simpl in Htl. rewrite <- (assoc_L (++)) in Htl.
  assert (c = take (length c) (drop k stream)) as Hc by (by rewrite Htl, take_app_length).
  assert (k + length c <= length stream)%nat as Hav.
  { apply (f_equal length) in Htl. rewrite length_drop, length_app in Htl.
    assert (0 < length c)%nat by (by destruct c; simpl; [done|lia]). lia. }
  assert (progress (k + length c) (process_chunk r c)) as Hp.
  { destruct (Nat.ltb_spec k o); [by apply number_step|by apply payload_step]. }
  simpl. rewrite length_app, Nat.add_assoc.
  destruct (process_chunk r c) as [r' v]. destruct v; try done; simpl in Hp.
  - right. split; [done|]. destruct Hp as (? & ? & ? & ?). split; [lia|done].
  - destruct Hp as [Hlt Hcol']. apply (IH _ _ Hcol' Hlt Hdel).
    exists tl. rewrite <- drop_drop, Htl. by rewrite drop_app_length.
Qed.

Lemma receive_fresh r chunks :
  fresh r -> delivered r chunks -> concat chunks `prefix_of` stream ->
  let '(r', v) := receive r chunks in
  (v = VRead /\ (length (concat chunks) < o + length payload)%nat) \/
  (v = VEnqueue /\ (o + length payload <= length (concat chunks))%nat /\ len r' = L /\
   read_at (data_off r') (len r') (headers r') = payload /\
   lua_request r' = Some (replicate (Z.to_nat request_size) 0)).
Proof.
  intros (H9 & Hd & Hl & Hc) Hdel Hpre. pose proof prefix_length.
  apply (receive_progress 0); [|lia|done|done].
  split; [done|lia|]. left. split_and!; lia || done.
Qed.

(** C2: a request of up to 65535 bytes of headers arrives whole, however the
    network cuts the bytes: reading the packed length and the headers in chunks of
    any size, the request is queued as soon as the last header byte is there and
    not before, the headers it is queued with are those sent, and nothing is
    stored outside of the buffer. *)
Theorem request_received r chunks :
  fresh r -> delivered r chunks -> concat chunks `prefix_of` stream ->
  let '(r', v) := receive r chunks in
  (v = VRead /\ (length (concat chunks) < o + length payload)%nat) \/
  (v = VEnqueue /\ (o + length payload <= length (concat chunks))%nat /\ len r' = L /\
   read_at (data_off r') (len r') (headers r') = payload /\
   lua_request r' = Some (replicate (Z.to_nat request_size) 0)).
Proof. apply receive_fresh. Qed.
End Framing.

(** ** The buffer is never left, but for a length that is not positive *)

(** The state between two rounds: the length is not known and the bytes go to the
    start of the vector, or it is and there is room for it. *)
Definition safe (r : Request) : Prop :=
  (9 <= length (headers r))%nat /\ data_off r = 0 /\ len r = 0 /\ 0 <= ctr r <= 9 \/
  0 < len r < 2 ^ 31 /\ 0 <= data_off r /\ data_off r + len r <= lenZ (headers r) /\
  0 <= ctr r <= len r.

(** A number, if one is read, is positive as a 32-bit integer. *)
Definition positive_length (p : list Z) : Prop :=
  match Unpack.msgpack_unpack_next zone_malloc p 0 with
  | Some (MSGPACK_OBJECT_POSITIVE_INTEGER u, _) => 0 < i32 u
  | _ => True
  end.

Lemma complete_safe r :
  (0 < len r /\ len r <= ctr r) \/ safe r ->
  let '(r', v) := complete r in v <> VOverflow /\ (v = VRead -> safe r').
Proof.
  intros H. unfold complete.
  destruct (Z.ltb_spec 0 (len r)), (Z.leb_spec (len r) (ctr r)); simpl; (split; [done|]);
    try done; intros _; destruct H as [?|?]; try lia; done.
Qed.

(** The number is read: the vector has room for what it announces. *)
Lemma parse_length_safe r :
  (9 <= length (headers r))%nat -> data_off r = 0 -> len r = 0 -> 1 <= ctr r <= 9 ->
  positive_length (take (Z.to_nat (ctr r)) (headers r)) ->
  let '(r', threw) := parse_length r in
  threw = true \/ (0 < len r' /\ len r' <= ctr r') \/ safe r'.
Proof.
  intros H9 Hd Hl Hc Hpos. unfold parse_length, read_at, positive_length in *. rewrite Hd, drop_0.
  assert (safe r) as Hs by (left; split_and!; lia || done).
  destruct (Unpack.msgpack_unpack_next _ _ _) as [[ob off]|] eqn:E; [|auto].
  apply Unpack.unpack_next_offset in E. rewrite length_take in E.
  destruct ob as [| |u| | | | |]; auto.
  pose proof (swrap_range 32 u ltac:(lia)) as Hr. simpl in Hr.
  rewrite (uwrap_small 64) by lia. rewrite (uwrap_small 16) by lia.
  destruct (Z.ltb_spec 9 (i32 u + off)), (Z.ltb_spec max_vector (i32 u + off)); simpl; auto; right;
    (destruct (Z.leb_spec (i32 u) (ctr r - off)); [by left|right]);
    right; simpl; rewrite ?length_resize; split_and!; lia.
Qed.

Lemma process_safe r chunk :
  safe r -> lenZ chunk <= read_limit r ->
  (len r = 0 -> positive_length (take (Z.to_nat (ctr r)) (headers r) ++ chunk)) ->
  let '(r', v) := process_chunk r chunk in v <> VOverflow /\ (v = VRead -> safe r').
Proof.
  intros Hs Hlim Hpos. unfold process_chunk. unfold read_limit, to_read in Hlim.
  destruct (write_at _ _ _) as [hs|] eqn:Hw.
  - pose proof (write_at_length _ _ _ _ Hw) as Hlen. pose proof (write_at_upto _ _ _ _ Hw) as Hu.
    destruct Hs as [(H9 & Hd & Hl & Hc)|(Hl & Hd & Hroom & Hc)].
    + rewrite Hl in *. simpl in Hlim. rewrite swrap_small, uwrap_small in Hlim by (simpl; lia).
      rewrite (uwrap_small 16) by lia. simpl.
      destruct (Z.leb_spec 1 (ctr r + lenZ chunk)); simpl.
      2:{ split; [done|]. intros _. left. simpl. split_and!; lia || done. }
      set (r1 := mkRequest _ _ _ _ _).
      assert (let '(r', threw) := parse_length r1 in
              threw = true \/ (0 < len r' /\ len r' <= ctr r') \/ safe r') as Hp.
      { apply parse_length_safe; simpl; try (lia || done).
        rewrite Hd, Z.add_0_l in Hu.
        replace (Z.to_nat (ctr r + lenZ chunk)) with (Z.to_nat (ctr r) + length chunk)%nat by lia.
        rewrite Hu. auto. }
      destruct (parse_length r1) as [r2 []]; [done|]. apply complete_safe.
      by destruct Hp as [?|?].
    + destruct (Z.eqb_spec (len r) 0); [lia|]. simpl.
      destruct (Z.eqb_spec (len r) 0); [lia|]. simpl.
      rewrite swrap_small, uwrap_small in Hlim by (simpl; lia).
      apply complete_safe. right. right. simpl. split_and!; try lia.
      * apply (uwrap_range 16). lia.
      * etransitivity; [apply Z.mod_le; lia|lia].
  - apply write_at_None_iff in Hw. exfalso.
    destruct Hs as [(H9 & Hd & Hl & Hc)|(Hl & Hd & Hroom & Hc)].
    + rewrite Hl in Hlim. simpl in Hlim. rewrite swrap_small, uwrap_small in Hlim by (simpl; lia). lia.
    + destruct (Z.eqb_spec (len r) 0); [lia|].
      rewrite swrap_small, uwrap_small in Hlim by (simpl; lia). lia.
Qed.

(** Every number announced on the way is positive. *)
Fixpoint announced (r : Request) (chunks : list (list Z)) : Prop :=
  match chunks with
  | [] => True
  | c :: cs =>
      (len r = 0 -> positive_length (take (Z.to_nat (ctr r)) (headers r) ++ c)) /\
      match process_msgpack_request r NoError (Some c) with
      | (r', VRead) => announced r' cs
      | _ => True
      end
  end.

(** C37: nothing is ever stored outside of the buffer, whatever is sent and however
    it is cut, as long as the announced lengths are positive 32-bit integers. *)
Theorem receive_in_bounds r chunks :
  safe r -> delivered r chunks -> announced r chunks -> (receive r chunks).2 <> VOverflow.
Proof.
  revert r. induction chunks as [|c cs IH]; intros r Hs Hd Ha; [done|].
  destruct Hd as (_ & Hlim & Hd), Ha as (Hpos & Ha). simpl in *.
  pose proof (process_safe r c Hs Hlim Hpos) as Hp.
  destruct (process_chunk r c) as [r' v]. destruct Hp as [Hv Hs'].
  destruct v; try done. by apply IH; [apply Hs'|..].
Qed.

(** A request that announces 65536 bytes or more is never queued: the 16-bit
    counter of the bytes read cannot reach its length. *)
Theorem oversized_request_never_queued r chunks :
  65536 <= len r -> (receive r chunks).2 <> VEnqueue.
Proof.
  revert r. induction chunks as [|c cs IH]; intros r Hl; [done|]. simpl. unfold process_chunk.
  destruct (write_at _ _ _) as [hs|]; [|done]. simpl. destruct (Z.eqb_spec (len r) 0); [lia|]. simpl.
  unfold complete. simpl. pose proof (uwrap_range 16 (ctr r + lenZ c) ltac:(lia)).
  destruct (Z.ltb_spec 0 (len r)); [|lia]. destruct (Z.leb_spec (len r) (u16 (ctr r + lenZ c))); [lia|].
  simpl. by apply IH.
Qed.

(** When the first 9 bytes do not start with a number, the request is read
    again and again into a buffer of size 0: each round stores nothing and changes
    nothing, and the timeout of [read_request] starts anew each time. *)
Theorem bad_prefix_spins r :
  (9 <= length (headers r))%nat -> data_off r = 0 -> len r = 0 -> ctr r = 9 ->
  (forall u off, Unpack.msgpack_unpack_next zone_malloc (take 9 (headers r)) 0
                 <> Some (MSGPACK_OBJECT_POSITIVE_INTEGER u, off)) ->
  read_limit r = 0 /\ process_msgpack_request r NoError (Some []) = (r, VRead).
Proof.
  intros H9 Hd Hl Hc Hno. destruct r as [hs off n k lr]. simpl in *. subst off n k. split; [done|].
  unfold process_chunk. rewrite write_at_Some by (simpl; lia). simpl.
  rewrite take_drop. change (Z.to_nat 9) with 9%nat. unfold parse_length, read_at. simpl. rewrite drop_0.
  destruct (Unpack.msgpack_unpack_next _ _ _) as [[[] ?]|] eqn:E; try done. by destruct (Hno u z).
Qed.
End Receive.

(** An announced length of 0, and one that is negative as a 32-bit integer,
    can make the next round store bytes outside of the buffer: after nine zero bytes the round that
    follows writes one byte behind the 9 of the vector, and after the number
    2^32 - 1 there is no bound on what the socket may store. *)
Theorem length_prefix_overflow :
  (delivered (fun _ => true) 65544 1 Request_new [replicate 9 0; [0]] /\
   (receive (fun _ => true) 65544 1 Request_new [replicate 9 0; [0]]).2 = VOverflow) /\
  (delivered (fun _ => true) 65544 1 Request_new [[0xce; 255; 255; 255; 255]; replicate 16 65] /\
   (receive (fun _ => true) 65544 1 Request_new [[0xce; 255; 255; 255; 255]; replicate 16 65]).2
   = VOverflow).
Proof. vm_compute. split; (split; [split_and!; done|reflexivity]). Qed.

(** ** Witnesses *)

Lemma request_received_witness :
  let res := receive (fun _ => true) 65544 4 Request_new [[3; 65]; [66; 67]] in
  res.2 = VEnqueue /\ read_at (data_off res.1) (len res.1) (headers res.1) = [65; 66; 67].
Proof.
  pose proof (request_received (fun _ => true) 65544 4 [65; 66; 67] [] ltac:(simpl; lia) ltac:(lia)
    Request_new [[3; 65]; [66; 67]]) as H.
  destruct H as [[H _]|(H & _ & _ & H' & _)].
  - split_and!; reflexivity || (simpl; lia).
  - simpl. split_and!; done.
  - exists []. reflexivity.
  - discriminate H.
  - split; [exact H|exact H'].
Defined.

Lemma receive_in_bounds_witness :
  (receive (fun _ => true) 65544 4 Request_new [[5; 65]; [66; 67]]).2 <> VOverflow.
Proof.
  apply (receive_in_bounds (fun _ => true) 65544 4).
  - left. split; [vm_compute; lia|]. split; [reflexivity|]. split; [reflexivity|].
    vm_compute. split; discriminate.
  - simpl. split_and!; done.
  - simpl. split_and!; [intros _; vm_compute; reflexivity|discriminate|done].
Defined.

Lemma oversized_request_never_queued_witness :
  (receive (fun _ => true) 65544 4 (mkRequest (replicate 9 0) 0 65536 0 None) [[1]]).2 <> VEnqueue.
Proof. apply (oversized_request_never_queued (fun _ => true)). simpl. lia. Defined.

Lemma bad_prefix_spins_witness :
  process_msgpack_request (fun _ => true) 65544 4 (mkRequest (replicate 9 0xc0) 0 0 9 None)
    NoError (Some []) = (mkRequest (replicate 9 0xc0) 0 0 9 None, VRead).
Proof.
  refine (proj2 (bad_prefix_spins (fun _ => true) 65544 4
    (mkRequest (replicate 9 0xc0) 0 0 9 None) _ eq_refl eq_refl eq_refl _)); [simpl; lia|].
  intros u off. vm_compute. discriminate.
Defined.
