(* ===== verification/Sockets.v ===== *)
(** * The worker's request pool and client sockets

    The pool of [Request] objects a worker accepts connections with
    ([accept_conn], [accept_conn_async], [~Worker]), and the socket functions of
    the Lua API: connecting ([resolve_handler], [connect_handler]), reading
    ([start_read], [read_handler]) and writing ([start_write], [write_handler]);
    src/webapp/src/Workers.cpp. *)

From Stdlib Require Import ZArith Lia.
From stdpp Require Import base list numbers option.
From S2P Require Import Prelude Worker.

(** ** The pool *)

(** A request: the pool it is in and its index there. *)
Abbreviation slot := (nat * Z)%type.

(** [request_pools] is the number of pools allocated; [finished] the queue of
    finished requests; [used] the requests accepted and not yet finished. *)
Record pool := mkPool {
  request_pools : nat;
  current_pool : nat;
  current_request : Z;
  finished : list slot;
  used : list slot
}.

Definition pool_new : pool := mkPool 0 0 0 [] [].

Section Pool.
(** [request_pool_size], as the constructor leaves it. *)
Definition pool_size (init : Z) : Z := if init =? 0 then 100 else init.
Variable request_pool_size : Z.

Definition accept_conn (s : pool) : slot * pool :=
  match finished s with
  | r :: rest =>
      (r, mkPool (request_pools s) (current_pool s) (current_request s) rest (r :: used s))
  | [] =>
      if (request_pool_size <=? current_request s) || (current_request s =? 0) then
        let r := (request_pools s, 0) in
        (r, mkPool (S (request_pools s)) (request_pools s) 1 [] (r :: used s))
      else
        let r := (current_pool s, current_request s) in
        (r, mkPool (request_pools s) (current_pool s) (current_request s + 1) [] (r :: used s))
  end.

(** [finished_requests.enqueue(r)]. *)
Definition finish (r : slot) (s : pool) : pool :=
  mkPool (request_pools s) (current_pool s) (current_request s) (finished s ++ [r])
    (filter (fun x => x <> r) (used s)).

(** [accept_conn_async]: [read_throws] when [read_request] throws.  A request
    whose accept failed stays out of the pool. *)
Definition accept_conn_async (r : slot) (error read_throws : bool) (s : pool) : slot * pool :=
  if error then accept_conn s
  else if read_throws then accept_conn (finish r s)
  else accept_conn s.

Inductive pool_step : pool -> pool -> Prop :=
| pool_start s : pool_step s (accept_conn s).2
| pool_accepted s r error read_throws :
    r ∈ used s -> pool_step s (accept_conn_async r error read_throws s).2
| pool_finish s r : r ∈ used s -> pool_step s (finish r s).

(** The destructor: every request of every pool. *)
Definition Worker_delete (s : pool) : list slot :=
  concat (List.map (fun p => List.map (fun i => (p, i)) (seqZ 0 request_pool_size)) (seq 0 (request_pools s))).

(** *** Every request handed out is a request of its own *)

Hypothesis size_pos : 1 <= request_pool_size.

(** [r] has been handed out at some time. *)
Definition issued (s : pool) (r : slot) : Prop :=
  (r.1 < current_pool s)%nat /\ 0 <= r.2 < request_pool_size \/
  r.1 = current_pool s /\ 0 <= r.2 < current_request s.

Record pool_inv (s : pool) : Prop := {
  pool_nodup : NoDup (finished s ++ used s);
  pool_issued : Forall (issued s) (finished s ++ used s);
  pool_range : 0 <= current_request s <= request_pool_size;
  pool_current : request_pools s = 0%nat /\ current_request s = 0 /\ current_pool s = 0%nat \/
                 request_pools s = S (current_pool s) /\ 1 <= current_request s
}.

Lemma issued_new s r :
  pool_inv s -> issued s r -> (r.1 < request_pools s)%nat /\ 0 <= r.2 < request_pool_size.
Proof.
  intros [_ _ Hr Hc] [[? ?]|[? ?]]; destruct Hc as [(? & ? & ?)|[? ?]]; split; lia.
Qed.

(** A request of the pools that has not been handed out. *)
Lemma accept_fresh s r s' :
  pool_inv s -> finished s = [] -> ~ issued s r -> used s' = r :: used s -> finished s' = [] ->
  (forall x, issued s x -> issued s' x) -> issued s' r ->
  0 <= current_request s' <= request_pool_size ->
  request_pools s' = S (current_pool s') -> 1 <= current_request s' ->
  pool_inv s' /\ (r ∉ used s).
Proof.
  intros [Hnd His Hr Hc] Ef Hn Eu Ef' Hmono Hr' Hrange Hp Hc'.
  rewrite Ef in Hnd, His. simpl in Hnd, His.
  assert (r ∉ used s) as Hu by (intros Hin; by apply Hn, (Forall_elem _ _ _ His)).
  split; [|done]. split; rewrite ?Eu, ?Ef'; simpl; [by constructor| |done|by right].
  constructor; [done|]. eapply List.Forall_impl; [|exact His]. apply Hmono.
Qed.

(** The request [accept_conn] hands out. *)
Definition handed (s : pool) (res : slot * pool) : Prop :=
  pool_inv res.2 /\ (res.1 ∉ used s) /\
  (res.1.1 < request_pools res.2)%nat /\ 0 <= res.1.2 < request_pool_size.

Lemma accept_new_pool s :
  pool_inv s -> finished s = [] ->
  handed s ((request_pools s, 0),
    mkPool (S (request_pools s)) (request_pools s) 1 [] ((request_pools s, 0) :: used s)).
Proof.
  intros Hi Ef. set (s' := mkPool _ _ _ _ _).
  enough (pool_inv s' /\ ((request_pools s, 0) ∉ used s)) as [? ?]
    by (unfold handed; simpl; split_and!; done || lia).
  eapply accept_fresh; simpl; try done; try lia.
  - intros Hin%issued_new; [simpl in Hin; lia|done].
  - intros x Hx. left. simpl. by apply issued_new.
  - right. simpl. lia.
Qed.

Lemma accept_next s :
  pool_inv s -> finished s = [] -> 0 < current_request s < request_pool_size ->
  handed s ((current_pool s, current_request s),
    mkPool (request_pools s) (current_pool s) (current_request s + 1) []
      ((current_pool s, current_request s) :: used s)).
Proof.
  intros Hi Ef Hcr. destruct (pool_current _ Hi) as [?|[Hp ?]]; [lia|].
  set (s' := mkPool _ _ _ _ _).
  enough (pool_inv s' /\ ((current_pool s, current_request s) ∉ used s)) as [? ?]
    by (unfold handed; simpl; split_and!; done || lia).
  eapply accept_fresh; simpl; try done; try lia.
  - intros [[? ?]|[? ?]]; simpl in *; lia.
  - intros x [?|[? ?]]; [by left|right; simpl; split; [done|lia]].
  - right. simpl. lia.
Qed.

Lemma accept_reuse s r rest :
  pool_inv s -> finished s = r :: rest ->
  handed s (r, mkPool (request_pools s) (current_pool s) (current_request s) rest (r :: used s)).
Proof.
  intros Hi Ef. pose proof Hi as [Hnd His Hr Hc]. rewrite Ef in Hnd, His.
  apply list.NoDup_cons in Hnd as Hnd'. destruct Hnd' as [Hn _].
  apply Forall_cons_1 in His as His'. destruct His' as [Hri _].
  destruct (issued_new s r Hi Hri). unfold handed. simpl. split_and!; try lia.
  - split; simpl; try done; by rewrite <- Permutation_middle.
  - intros Hin. apply Hn, elem_of_app. by right.
Qed.

Lemma accept_inv s : pool_inv s -> handed s (accept_conn s).
Proof.
  intros Hi. unfold accept_conn. destruct (finished s) as [|r rest] eqn:Ef.
  - pose proof (pool_range _ Hi).
    destruct (Z.leb_spec request_pool_size (current_request s)); [by apply accept_new_pool|].
    destruct (Z.eqb_spec (current_request s) 0); [by apply accept_new_pool|].
    apply accept_next; [done..|lia].
  - by apply accept_reuse.
Qed.

Lemma finish_inv s r : pool_inv s -> r ∈ used s -> pool_inv (finish r s).
Proof.
  intros [Hnd His Hr Hc] Hin. apply list.NoDup_app in Hnd as (H1 & H2 & H3).
  apply Forall_app in His as [Hi1 Hi2].
  split; simpl; try done.
  - rewrite <- (assoc_L (++)). apply list.NoDup_app. split_and!; [done| |].
    + intros x Hx [->|Hx']%elem_of_cons; [by apply (H2 r)|].
      apply list_elem_of_filter in Hx' as [_ ?]. by apply (H2 x).
    + apply list.NoDup_cons. split; [|by apply list.NoDup_filter].
      by intros [? _]%list_elem_of_filter.
  - rewrite <- (assoc_L (++)). apply Forall_app. split; [done|]. constructor.
    + by apply (Forall_elem _ _ _ Hi2).
    + apply List.Forall_forall. intros x Hx%list_elem_of_In.
      apply list_elem_of_filter in Hx as [_ ?]. by apply (Forall_elem _ _ _ Hi2).
Qed.

Lemma pool_step_inv s s' : pool_inv s -> pool_step s s' -> pool_inv s'.
Proof.
  intros Hi Hs. destruct Hs as [s|s r error thr Hr|s r Hr].
  - by apply accept_inv.
  - unfold accept_conn_async. destruct error; [by apply accept_inv|].
    destruct thr; apply accept_inv; [by apply finish_inv|done].
  - by apply finish_inv.
Qed.

Lemma pool_new_inv : pool_inv pool_new.
Proof. split; simpl; [constructor|done|lia|by left]. Qed.

(** A connection is always given a request of its own: whatever the order of
    accepts, failed accepts and finished requests, the request [accept_conn]
    hands out lies in an allocated pool and is not one that is in use. *)
Theorem pool_requests_distinct s :
  star pool_step pool_new s ->
  NoDup (used s) /\ ((accept_conn s).1 ∉ used s) /\
  ((accept_conn s).1.1 < request_pools (accept_conn s).2)%nat /\
  0 <= (accept_conn s).1.2 < request_pool_size.
Proof.
  intros Hs. assert (pool_inv s) as Hi.
  { eapply star_invariant; [|exact Hs|apply pool_new_inv]. apply pool_step_inv. }
  destruct (accept_inv s Hi) as (_ & ? & ? & ?). split_and!; try done; try lia.
  destruct Hi as [Hnd _ _ _]. by apply list.NoDup_app in Hnd as (_ & _ & ?).
Qed.

Lemma elem_of_grid (n : list nat) (r : slot) :
  r ∈ concat (List.map (fun p => List.map (fun i => (p, i)) (seqZ 0 request_pool_size)) n) <->
  r.1 ∈ n /\ 0 <= r.2 < request_pool_size.
Proof.
  induction n as [|p n IH]; simpl; [rewrite !elem_of_nil; tauto|].
  rewrite elem_of_app, IH, elem_of_cons.
  assert (r ∈ List.map (fun i => (p, i)) (seqZ 0 request_pool_size) <->
          r.1 = p /\ 0 <= r.2 < request_pool_size) as ->; [|tauto].
  split.
  - intros (i & -> & Hi)%list_elem_of_fmap. apply elem_of_seqZ in Hi. simpl. split; [done|lia].
  - intros [<- ?]. apply list_elem_of_fmap. exists r.2. split; [by destruct r|].
    apply elem_of_seqZ. lia.
Qed.

(** The destructor destroys every request of every pool, and each once. *)
Theorem Worker_delete_all s :
  NoDup (Worker_delete s) /\
  (forall r, r ∈ Worker_delete s <-> (r.1 < request_pools s)%nat /\ 0 <= r.2 < request_pool_size).
Proof.
  unfold Worker_delete. split.
  - assert (NoDup (seq 0 (request_pools s))) as Hnd by apply NoDup_seq.
    induction Hnd as [|p n Hp Hnd IH]; simpl; [constructor|].
    apply list.NoDup_app. split_and!; [| |done].
    + apply (NoDup_fmap_2 (fun i => (p, i))), NoDup_seqZ.
    + intros r (i & -> & Hi)%list_elem_of_fmap Hr. apply elem_of_grid in Hr as [? _]. done.
  - intros r. rewrite elem_of_grid, elem_of_seq. intuition lia.
Qed.
End Pool.

(** ** Connecting *)

Section Connect.
(** The endpoints a name resolves to; an iterator is the list of those left. *)
Context {endpoint : Type}.

(** What a handler starts: a connection to an endpoint, with the iterator bound to
    the next handler; or the request is queued; or nothing happens. *)
Inductive connect_action :=
| AConnect (ep : endpoint) (it : list endpoint)
| AEnqueue
| ANothing
| AUndef.

Definition connect_handler (ec : error_code) (it : list endpoint) : connect_action :=
  match ec, it with
  | NoError, _ => AEnqueue
  | _, ep :: it => AConnect ep it
  | OperationAborted, [] => ANothing
  | OtherError, [] => AEnqueue
  end.

Definition resolve_handler (ec : error_code) (it : list endpoint) : connect_action :=
  match ec with
  | NoError => match it with ep :: it => AConnect ep it | [] => AUndef end
  | OperationAborted => ANothing
  | OtherError => AEnqueue
  end.

(** The attempts made when their outcomes are [results], and how it ends. *)
Fixpoint connect_run (results : list error_code) (a : connect_action)
  : list endpoint * connect_action :=
  match a, results with
  | AConnect ep it, ec :: results =>
      let r := connect_run results (connect_handler ec it) in (ep :: r.1, r.2)
  | _, _ => ([], a)
  end.

(** The endpoints up to the first that accepts, and the outcome of the last. *)
Fixpoint up_to_success (eps : list endpoint) (results : list error_code)
  : list endpoint * option error_code :=
  match eps, results with
  | ep :: _, NoError :: _ => ([ep], Some NoError)
  | [ep], ec :: _ => ([ep], Some ec)
  | ep :: eps, _ :: results => let r := up_to_success eps results in (ep :: r.1, r.2)
  | _, _ => ([], None)
  end.

Lemma connect_run_stop results a :
  (forall ep it, a <> AConnect ep it) -> connect_run results a = ([], a).
Proof. intros Ha. destruct a, results; try done. by destruct (Ha ep it). Qed.

(** The endpoints of a resolved name are tried in order until one accepts, and
    then, or when all have failed, the request is queued once; only if the last
    attempt was cancelled is it not. *)
Theorem connect_in_order ep eps results :
  (length (ep :: eps) <= length results)%nat ->
  connect_run results (resolve_handler NoError (ep :: eps))
  = ((up_to_success (ep :: eps) results).1,
     match (up_to_success (ep :: eps) results).2 with
     | Some OperationAborted => ANothing
     | _ => AEnqueue
     end).
Proof.
  simpl. revert ep results. induction eps as [|ep' eps IH]; intros ep results Hlen.
  - destruct results as [|[] ?]; simpl in *; [lia|..]; by rewrite connect_run_stop.
  - destruct results as [|ec results]; simpl in Hlen; [lia|].
    destruct ec; [simpl; by rewrite connect_run_stop|..]; simpl; rewrite (IH ep' results) by lia; done.
Qed.
End Connect.

(** ** Reading *)

(** The output string of [start_read] and the byte counter of its socket. *)
Record reading := mkReading { output : list Z; output_len : Z; read_ctr : Z }.

(** A fresh string of [bytes] bytes, of any contents. *)
Definition start_read (bytes : Z) (buf : list Z) : reading := mkReading buf bytes 0.

Definition read_size (s : reading) : Z := u64 (i32 (output_len s - read_ctr s)).

(** [read] is what [read_some] returns, [None] when it throws. *)
Definition read_handler (s : reading) (ec : error_code) (read : option (list Z)) : reading * verdict :=
  match ec with
  | NoError =>
      match read with
      | Some chunk =>
          match write_at (read_ctr s) chunk (output s) with
          | None => (s, VOverflow)
          | Some out =>
              let s := mkReading out (output_len s) (u16 (read_ctr s + lenZ chunk)) in
              (s, if read_ctr s =? output_len s then VEnqueue else VRead)
          end
      | None => (mkReading (output s) 0 (read_ctr s), VNone)
      end
  | OperationAborted => (s, VNone)
  | OtherError => (mkReading (output s) 0 (read_ctr s), VNone)
  end.

Fixpoint read_all (s : reading) (chunks : list (list Z)) : reading * verdict :=
  match chunks with
  | [] => (s, VRead)
  | c :: cs =>
      match read_handler s NoError (Some c) with
      | (s', VRead) => read_all s' cs
      | res => res
      end
  end.

(** A read delivers at least one byte, and no more than was asked for. *)
Fixpoint readable (s : reading) (chunks : list (list Z)) : Prop :=
  match chunks with
  | [] => True
  | c :: cs =>
      c <> [] /\ lenZ c <= read_size s /\
      match read_handler s NoError (Some c) with
      | (s', VRead) => readable s' cs
      | _ => True
      end
  end.

Lemma read_all_spec s chunks bytes got :
  1 <= bytes <= 65535 -> output_len s = bytes -> lenZ (output s) = bytes ->
  read_ctr s = lenZ got -> take (length got) (output s) = got -> lenZ got < bytes ->
  readable s chunks ->
  let '(s', v) := read_all s chunks in
  (v = VRead /\ lenZ got + lenZ (concat chunks) < bytes) \/
  (v = VEnqueue /\ output_len s' = bytes /\ output s' = take (Z.to_nat bytes) (got ++ concat chunks)).
Proof.
  intros Hb. revert s got. induction chunks as [|c cs IH]; intros s got Hl Hlen Hc Hg Hlt Hr.
  { left. split; [done|]. simpl. lia. }
  destruct Hr as (Hne & Hlim & Hr). unfold read_size in Hlim. rewrite Hl, Hc in Hlim.
  rewrite swrap_small, uwrap_small in Hlim by (simpl; lia).
  cbn [read_all]. unfold read_handler in *. rewrite Hc in *.
  rewrite write_at_Some in * by lia. set (out := take _ (output s) ++ _) in *.
  assert (write_at (lenZ got) c (output s) = Some out) as Hw by (apply write_at_Some; lia).
  pose proof (write_at_length _ _ _ _ Hw) as Hlen'.
  pose proof (write_at_upto _ _ _ _ Hw) as Hu. rewrite Nat2Z.id, Hg, <- length_app in Hu.
  assert (0 < lenZ c) by (destruct c; [done|simpl; lia]).
  rewrite (uwrap_small 16) in * by lia. simpl in *. rewrite length_app.
  destruct (Z.eqb_spec (lenZ got + lenZ c) (output_len s)) as [E|E].
  - right. split; [done|]. split; [done|]. rewrite (assoc_L (++)), take_app_le by (rewrite length_app; lia).
    rewrite take_ge by (rewrite length_app; lia). rewrite <- Hu at 1. symmetry. apply take_ge.
    simpl. rewrite length_app. lia.
  - specialize (IH (mkReading out (output_len s) (lenZ got + lenZ c)) (got ++ c)). simpl in IH.
    rewrite length_app, <- (assoc_L (++)), Nat2Z.inj_add in IH. rewrite Nat2Z.inj_add, Z.add_assoc.
    rewrite length_app in Hu. by apply IH; try lia.
Qed.

(** A read of up to 65535 bytes on a client socket queues the request when,
    and only when, all the bytes have arrived, however they are cut; the string
    then holds them in order. *)
Theorem socket_read_complete bytes buf chunks :
  1 <= bytes <= 65535 -> lenZ buf = bytes -> readable (start_read bytes buf) chunks ->
  let '(s', v) := read_all (start_read bytes buf) chunks in
  (v = VRead /\ lenZ (concat chunks) < bytes) \/
  (v = VEnqueue /\ output_len s' = bytes /\ output s' = take (Z.to_nat bytes) (concat chunks)).
Proof.
  intros Hb Hlen Hr. apply (read_all_spec (start_read bytes buf) chunks bytes []); simpl; done || lia.
Qed.

(** A read that fails or times out empties the string and queues nothing: the
    request is not resumed; nor is it for a read of 65536 bytes or more. *)
Theorem socket_read_failure s read chunks :
  (read_handler s OtherError read).2 = VNone /\ output_len (read_handler s OtherError read).1 = 0 /\
  (read_handler s NoError None).2 = VNone /\ output_len (read_handler s NoError None).1 = 0 /\
  (65536 <= output_len s -> (read_all s chunks).2 <> VEnqueue).
Proof.
  split_and!; try done. revert s. induction chunks as [|c cs IH]; intros s Hl; [done|].
  cbn [read_all]. unfold read_handler. destruct (write_at _ _ _) as [out|]; [|done].
  pose proof (uwrap_range 16 (read_ctr s + lenZ c) ltac:(lia)). simpl.
  destruct (Z.eqb_spec (u16 (read_ctr s + lenZ c)) (output_len s)); [lia|]. by apply IH.
Qed.

(** ** Writing *)

(** The unfinished writes of a socket: the counter and the buffers in flight. *)
Record writing := mkWriting { waiting : Z; in_flight : list nat; freed : list nat; next_buf : nat }.

Definition start_write (s : writing) : writing :=
  mkWriting (waiting s + 1) (next_buf s :: in_flight s) (freed s) (S (next_buf s)).
Definition write_handler (buf : nat) (s : writing) : writing :=
  mkWriting (waiting s - 1) (filter (fun b => b <> buf) (in_flight s)) (buf :: freed s) (next_buf s).

Inductive write_step : writing -> writing -> Prop :=
| write_start s : write_step s (start_write s)
| write_done s buf : buf ∈ in_flight s -> write_step s (write_handler buf s).

Lemma filter_ne_length (l : list nat) x :
  NoDup l -> x ∈ l -> lenZ (filter (fun b => b <> x) l) = lenZ l - 1.
Proof.
  induction 1 as [|y l Hy Hnd IH]; [by intros ?%elem_of_nil|].
  intros [->|Hx]%elem_of_cons.
  - rewrite filter_cons_False by tauto. simpl.
    replace (filter (fun b => b <> y) l) with l; [lia|]. symmetry. clear -Hy.
    induction l as [|z l IH]; [done|]. apply not_elem_of_cons in Hy as [? ?].
    rewrite filter_cons_True by done. f_equal. auto.
  - rewrite filter_cons_True by congruence. simpl. specialize (IH Hx). lia.
Qed.

(** The counter of a socket is the number of its writes in flight, and no
    buffer is freed twice, or while its write is in flight. *)
Theorem socket_writes_counted s :
  star write_step (mkWriting 0 [] [] 0) s ->
  waiting s = lenZ (in_flight s) /\ NoDup (freed s ++ in_flight s).
Proof.
  intros Hs.
  assert (waiting s = lenZ (in_flight s) /\ NoDup (freed s ++ in_flight s) /\
          Forall (fun b => (b < next_buf s)%nat) (freed s ++ in_flight s)) as (? & ? & _); [|done].
  eapply (star_invariant _ (fun s => waiting s = lenZ (in_flight s) /\ NoDup (freed s ++ in_flight s) /\
    Forall (fun b => (b < next_buf s)%nat) (freed s ++ in_flight s))); [|exact Hs|].
  2:{ split_and!; [done|constructor|constructor]. }
  clear s Hs. intros s s' (Hw & Hnd & Hb) Hs. destruct Hs as [s|s buf Hin]; simpl.
  - rewrite <- !Permutation_middle. split_and!; [lia| |].
    + constructor; [|done]. intros Hin. apply (Forall_elem _ _ _ Hb) in Hin. simpl in Hin. lia.
    + constructor; [lia|]. eapply List.Forall_impl; [|exact Hb]. simpl. lia.
  - apply list.NoDup_app in Hnd as (H1 & H2 & H3). apply Forall_app in Hb as [Hb1 Hb2].
    rewrite (filter_ne_length _ _ H3 Hin). split_and!; [lia| |].
    + constructor.
      * intros [Hf|[? _]%list_elem_of_filter]%elem_of_app; [by apply (H2 buf)|done].
      * apply list.NoDup_app. split_and!; [done| |by apply list.NoDup_filter].
        intros x Hx [_ ?]%list_elem_of_filter. by apply (H2 x).
    + constructor; [by apply (Forall_elem _ _ _ Hb2)|]. apply Forall_app. split; [done|].
      apply List.Forall_forall. intros x [_ ?]%list_elem_of_In%list_elem_of_filter.
      by apply (Forall_elem _ _ _ Hb2).
Qed.

(** ** Witnesses *)

Lemma pool_requests_distinct_witness :
  (accept_conn 2 (accept_conn 2 pool_new).2).1 ∉ used (accept_conn 2 pool_new).2.
Proof.
  apply (pool_requests_distinct 2 ltac:(lia)). apply star_one. apply pool_start.
Defined.

Lemma connect_in_order_witness :
  connect_run [OtherError; NoError; OtherError] (resolve_handler NoError [1; 2; 3]) = ([1; 2], AEnqueue).
Proof. exact (connect_in_order 1 [2; 3] [OtherError; NoError; OtherError] (le_n _)). Defined.

Lemma socket_read_complete_witness :
  (read_all (start_read 3 [0; 0; 0]) [[7]; [8; 9]]).2 = VEnqueue.
Proof.
  pose proof (socket_read_complete 3 [0; 0; 0] [[7]; [8; 9]] ltac:(lia) eq_refl) as H.
  destruct H as [[_ H]|[H _]]; [simpl; split_and!; done|vm_compute in H; done|exact H].
Defined.

Lemma socket_writes_counted_witness :
  waiting (start_write (mkWriting 0 [] [] 0)) = 1.
Proof.
  destruct (socket_writes_counted (start_write (mkWriting 0 [] [] 0))) as [H _].
  - apply star_one. apply write_start.
  - exact H.
Defined.
