(* ===== verification/Nginx.v ===== *)
(** * The nginx upstream module

    src/ext/nginx/src/ngx_http_webapp_module.c and .h: an HTTP request becomes a
    MessagePack message to the worker ([create_request]), and the worker's answer
    is read back ([process_header], the input filter).  nginx itself is the
    environment: its allocations succeed or fail as given, and its request and
    upstream objects appear as the fields the module uses. *)

From Stdlib Require Import ZArith Lia.
From stdpp Require Import base list numbers option.
From S2P Require Import Prelude ByteOrder MsgPack MsgUnpack Worker.

(** [ngx_str_t]: [None] when its data is [NULL]. *)
Abbreviation ngx_str := (option (list Z)).

Definition PROTOCOL_STRINGS : Z := 4.
Definition PROTOCOL_NUMS : Z := 2.
Definition MSGPACK_SIZEOF_ARRAY : Z := 5.
Definition MSGPACK_SIZEOF_NUMBER : Z := 9.
Definition MSGPACK_SIZEOF_RAW : Z := 5.

Definition NGX_HTTP_GET : Z := 2.
Definition NGX_HTTP_HEAD : Z := 4.
Definition NGX_HTTP_POST : Z := 8.

(** ** The request *)

(** What the module reads of [ngx_http_request_t]: an absent header is [None]. *)
Record http_request := mkHttp {
  method : Z;
  content_length : option (list Z);
  has_body : bool;
  unparsed_uri : ngx_str;
  host : option ngx_str;
  user_agent : option ngx_str;
  cookies : option ngx_str;
  request_bufs : list (list Z)
}.

(** [atoi]: white space, a sign, digits. *)
Definition is_space (c : Z) : bool := (c =? 32) || ((9 <=? c) && (c <=? 13)).
Fixpoint skip_space (l : list Z) : list Z :=
  match l with c :: l' => if is_space c then skip_space l' else l | [] => [] end.
Fixpoint digits_value (acc : Z) (l : list Z) : Z :=
  match l with
  | c :: l => if (48 <=? c) && (c <=? 57) then digits_value (acc * 10 + (c - 48)) l else acc
  | [] => acc
  end.
Definition atoi (l : list Z) : Z :=
  match skip_space l with
  | 45 :: l => i32 (- digits_value 0 l)
  | 43 :: l => i32 (digits_value 0 l)
  | l => i32 (digits_value 0 l)
  end.

(** The length of the body: an [int] assigned to a [size_t]. *)
Definition body_len (r : http_request) : Z :=
  match content_length r with
  | Some v => if (method r =? NGX_HTTP_POST) && has_body r then u64 (atoi v) else 0
  | None => 0
  end.

(** [output_chain] and [total], built by [ADD_PROTOCOL]. *)
Definition str_len (s : ngx_str) : Z := match s with Some l => lenZ l | None => 0 end.
Definition output_chain (r : http_request) : list (option ngx_str) :=
  [Some (unparsed_uri r); host r; user_agent r; cookies r].
Definition total (r : http_request) : Z :=
  fold_left (fun n o => match o with Some s => i32 (n + str_len s) | None => n end) (output_chain r) 0.

(** The size of the buffer the request is serialised into. *)
Definition request_buf_size (r : http_request) : Z :=
  MSGPACK_SIZEOF_ARRAY * 2 + MSGPACK_SIZEOF_NUMBER + PROTOCOL_STRINGS * MSGPACK_SIZEOF_RAW
  + PROTOCOL_NUMS * MSGPACK_SIZEOF_NUMBER + total r.

(** An [ngx_buf_t]: its memory, [pos] and [last] as offsets from [start]. *)
Record ngx_buf := mkBuf { mem : list Z; pos : Z; last : Z }.

(** [ngx_http_webapp_msgpack_write]: [None] when the copy leaves the buffer. *)
Definition msgpack_write (bs : list Z) (b : ngx_buf) : option ngx_buf :=
  let* m := write_at (last b) bs (mem b) in Some (mkBuf m (pos b) (last b + lenZ bs)).

Definition pack_string (o : option ngx_str) : list Z :=
  match o with
  | Some (Some s) => msgpack_pack_raw (lenZ s) ++ msgpack_pack_raw_body s
  | _ => msgpack_pack_nil
  end.

Fixpoint write_strings (l : list (option ngx_str)) (b : ngx_buf) : option ngx_buf :=
  match l with
  | [] => Some b
  | o :: l => let* b' := msgpack_write (pack_string o) b in write_strings l b'
  end.

(** The chain of buffers sent upstream, [None] when memory outside of a buffer is
    written; [mem0] and [mem1] are what the two temporary buffers hold at first. *)
Definition create_request (r : http_request) (mem0 mem1 : list Z) : option (list (list Z)) :=
  let b := mkBuf mem0 0 MSGPACK_SIZEOF_NUMBER in
  let* b := msgpack_write (msgpack_pack_uint64 (body_len r)) b in
  let* b := msgpack_write (msgpack_pack_int (method r)) b in
  let* b := write_strings (output_chain r) b in
  let* hl := msgpack_write (msgpack_pack_uint64 (last b - MSGPACK_SIZEOF_NUMBER)) (mkBuf mem1 0 0) in
  let offset := MSGPACK_SIZEOF_NUMBER - last hl in
  let* m := write_at offset (take (Z.to_nat (MSGPACK_SIZEOF_NUMBER - offset)) (mem hl)) (mem b) in
  let b := mkBuf m (pos b + offset) (last b) in
  Some (read_at (pos b) (last b - pos b) (mem b) :: request_bufs r).

(** ** The response *)

(** [NGX_OK], [NGX_ERROR], [NGX_AGAIN]. *)
Inductive ngx_code := NGX_OK | NGX_ERROR | NGX_AGAIN.

(** The upstream buffer, what the module keeps, and what it sets of the response. *)
Record upstream := mkUpstream {
  buffer : list Z;
  buf_pos : Z;
  remaining_header_len : Z;
  keepalive : bool;
  content_length_n : Z;
  set_cookie : list (list Z);
  content_type : ngx_str;
  status_n : Z;
  expires_access : bool
}.

Definition available (u : upstream) : list Z := drop (Z.to_nat (buf_pos u)) (buffer u).

Section Response.
Variable zone_malloc : Z -> bool.

Definition set_pos (p : Z) (u : upstream) : upstream :=
  mkUpstream (buffer u) p (remaining_header_len u) (keepalive u) (content_length_n u)
    (set_cookie u) (content_type u) (status_n u) (expires_access u).

(** [unpack_next]: the number read, or 0. *)
Definition unpack_next (u : upstream) : Z * upstream :=
  match Unpack.msgpack_unpack_next zone_malloc (available u) 0 with
  | Some (o, offset) =>
      (match o with MSGPACK_OBJECT_POSITIVE_INTEGER n => n | _ => 0 end,
       set_pos (buf_pos u + offset) u)
  | None => (0, u)
  end.

(** [unpack_string] leaves the string as it was when no string is read. *)
Definition unpack_string (u : upstream) (str : ngx_str) : ngx_str * upstream :=
  match Unpack.msgpack_unpack_next zone_malloc (available u) 0 with
  | Some (o, offset) =>
      (match o with MSGPACK_OBJECT_RAW s => Some s | _ => str end,
       set_pos (buf_pos u + offset) u)
  | None => (str, u)
  end.

(** Stage 1: the length of the header. *)
Definition stage1 (u : upstream) : upstream :=
  if buf_pos u =? 0 then
    let (n, u) := unpack_next u in
    let len := u16 n in
    mkUpstream (buffer u) (buf_pos u) len (negb (len =? 0)) (content_length_n u)
      (set_cookie u) (content_type u) (status_n u) (expires_access u)
  else u.

(** Stage 2: the header.  [cookie0] is what the uninitialised [cookie] holds;
    [pushed] whether [ngx_list_push] succeeds. *)
Definition stage2 (u : upstream) (cookie0 : ngx_str) (pushed : bool) : ngx_code * upstream :=
  let (clen, u) := unpack_next u in
  let (cache, u) := unpack_next u in
  let (cookie, u) := unpack_string u cookie0 in
  let (ctype, u) := unpack_string u (content_type u) in
  let send := 0 <? str_len cookie in
  (if send && negb pushed then NGX_ERROR else NGX_OK,
   mkUpstream (buffer u) (buf_pos u) (remaining_header_len u) (keepalive u) (u32 clen)
     (if send && pushed then set_cookie u ++ [default [] cookie] else set_cookie u) ctype 200
     (u8 cache =? 0)).

Definition process_header (u : upstream) (cookie0 : ngx_str) (pushed : bool) : ngx_code * upstream :=
  let u := stage1 u in
  if remaining_header_len u <=? lenZ (available u) then stage2 u cookie0 pushed
  else (NGX_AGAIN, u).

(** The input filter: the length of the body still to come, where the data in the
    buffer ends, and the parts of the buffer passed on. *)
Record body_filter := mkFilter { length_left : Z; data_last : Z; out_bufs : list (Z * Z) }.

Definition filter_init (u : upstream) : Z :=
  if status_n u =? 404 then 0 else content_length_n u.

Definition filter_bytes (bytes : Z) (free_buf : bool) (s : body_filter) : ngx_code * body_filter :=
  if free_buf then
    let part := (data_last s, data_last s + bytes) in
    (NGX_OK,
     mkFilter (if length_left s =? -1 then length_left s else length_left s - bytes)
       (data_last s + bytes) (out_bufs s ++ [part]))
  else (NGX_ERROR, s).
End Response.

(** ** The handler and the configuration *)

(** What the content handler does: refuse, fail, or start the upstream. *)
Inductive handled := HNotAllowed | HInternalError | HReturn (rc : Z) | HStartUpstream | HReadBody.

Definition NGX_HTTP_SPECIAL_RESPONSE : Z := 300.

Definition handler (m : Z) (created ctx_ok : bool) (discard_rc read_rc : Z) : handled :=
  if Z.land m (Z.lor (Z.lor NGX_HTTP_GET NGX_HTTP_HEAD) NGX_HTTP_POST) =? 0 then HNotAllowed
  else if negb created then HInternalError
  else if negb ctx_ok then HInternalError
  else if Z.land m NGX_HTTP_POST =? 0 then
    if discard_rc =? 0 then HStartUpstream else HReturn discard_rc
  else if NGX_HTTP_SPECIAL_RESPONSE <=? read_rc then HReturn read_rc else HReadBody.

(** The settings of a location; [None] is unset, and a [NULL] pointer is 0. *)
Record loc_conf := mkConf {
  local : option Z;
  connect_timeout : option Z;
  send_timeout : option Z;
  read_timeout : option Z;
  buffer_size : option Z;
  next_upstream : Z;
  upstream_ref : option Z
}.

Definition create_loc_conf : loc_conf := mkConf None None None None None 0 None.

Definition NGX_CONF_BITMASK_SET : Z := 1.
Definition NGX_HTTP_UPSTREAM_FT_ERROR : Z := 2.
Definition NGX_HTTP_UPSTREAM_FT_TIMEOUT : Z := 4.
Definition NGX_HTTP_UPSTREAM_FT_OFF : Z := 0x80000000.

(** [ngx_conf_merge_msec_value] and the like. *)
Definition merge_value (conf prev : option Z) (dflt : option Z) : option Z :=
  match conf with Some v => Some v | None => match prev with Some v => Some v | None => dflt end end.
Definition merge_bitmask (conf prev dflt : Z) : Z :=
  if conf =? 0 then if prev =? 0 then dflt else prev else conf.

Definition merge_loc_conf (pagesize : Z) (prev conf : loc_conf) : loc_conf :=
  let mask := merge_bitmask (next_upstream conf) (next_upstream prev)
    (Z.lor NGX_CONF_BITMASK_SET (Z.lor NGX_HTTP_UPSTREAM_FT_ERROR NGX_HTTP_UPSTREAM_FT_TIMEOUT)) in
  mkConf
    (merge_value (local conf) (local prev) (Some 0))
    (merge_value (connect_timeout conf) (connect_timeout prev) (Some 60000))
    (merge_value (send_timeout conf) (send_timeout prev) (Some 60000))
    (merge_value (read_timeout conf) (read_timeout prev) (Some 60000))
    (merge_value (buffer_size conf) (buffer_size prev) (Some pagesize))
    (if Z.land mask NGX_HTTP_UPSTREAM_FT_OFF =? 0 then mask
     else Z.lor NGX_CONF_BITMASK_SET NGX_HTTP_UPSTREAM_FT_OFF)
    (match upstream_ref conf with Some u => Some u | None => upstream_ref prev end).

(** ** The message *)

(** The fields of the message, and the message. *)
Definition field (o : option ngx_str) : msgpack_object :=
  match o with Some (Some s) => MSGPACK_OBJECT_RAW s | _ => MSGPACK_OBJECT_NIL end.
Definition fields (r : http_request) : list msgpack_object :=
  MSGPACK_OBJECT_POSITIVE_INTEGER (body_len r) ::
  MSGPACK_OBJECT_POSITIVE_INTEGER (method r) :: List.map field (output_chain r).
Definition message (fs : list msgpack_object) : list Z := concat (List.map msgpack_pack_object fs).

(** The requests the module handles: strings whose lengths add up to an [int]. *)
Definition chain_len (l : list (option ngx_str)) : Z :=
  foldr (fun o n => match o with Some s => str_len s + n | None => n end) 0 l.
Record http_ok (r : http_request) : Prop := {
  ok_method : 0 <= method r < 128;
  ok_total : chain_len (output_chain r) < 2 ^ 31
}.

Lemma pack_uint64_length x : (1 <= length (msgpack_pack_uint64 x) <= 9)%nat.
Proof.
  unfold msgpack_pack_uint64, msgpack_pack_real_uint64. repeat zcase; simpl; lia.
Qed.

Lemma pack_method m : 0 <= m < 128 -> msgpack_pack_int m = msgpack_pack_uint64 m /\ length (msgpack_pack_int m) = 1%nat.
Proof.
  intros Hm. unfold msgpack_pack_int, msgpack_pack_uint64, msgpack_pack_real_int32, msgpack_pack_real_uint64.
  rewrite (swrap_small 32 m), (uwrap_small 64 m) by (simpl; lia).
  change (Z.shiftl 1 8) with 256. change (Z.shiftl 1 7) with 128. change (Z.shiftl 1 5) with 32.
  repeat zcase; try lia; done.
Qed.

Lemma pack_string_field o : pack_string o = msgpack_pack_object (field o).
Proof. destruct o as [[s|]|]; done. Qed.

Lemma pack_string_length o :
  lenZ (pack_string o) <= 5 + match o with Some s => str_len s | None => 0 end.
Proof.
  destruct o as [[s|]|]; simpl; [|lia..]. rewrite length_app. unfold msgpack_pack_raw, msgpack_pack_raw_body.
  repeat zcase; simpl; lia.
Qed.

Lemma chain_len_nonneg l : 0 <= chain_len l.
Proof.
  induction l as [|[s|] l IH]; simpl; [lia| |done]. destruct s; simpl; lia.
Qed.

Lemma total_chain_len r : chain_len (output_chain r) < 2 ^ 31 -> total r = chain_len (output_chain r).
Proof.
  unfold total. generalize (output_chain r). intros l Hl.
  assert (forall a, 0 <= a -> a + chain_len l < 2 ^ 31 ->
    fold_left (fun n o => match o with Some s => i32 (n + str_len s) | None => n end) l a
    = a + chain_len l) as H; [|apply H; lia].
  clear Hl. induction l as [|[s|] l IH]; intros a Ha Hl; simpl in *; [lia| |by apply IH].
  pose proof (chain_len_nonneg l). assert (0 <= str_len s) by (destruct s; simpl; lia).
  rewrite swrap_small by (simpl; lia). rewrite IH by lia. lia.
Qed.

Section Serialise.
Variables (mem0 : list Z).

(** [w] has been written behind the place of the length. *)
Record wrote (b : ngx_buf) (w : list Z) : Prop := {
  wrote_pos : pos b = 0;
  wrote_last : last b = 9 + lenZ w;
  wrote_size : length (mem b) = length mem0;
  wrote_bytes : take (9 + length w) (mem b) = take 9 mem0 ++ w
}.

Lemma write_wrote b w bs :
  wrote b w -> 9 + lenZ w + lenZ bs <= lenZ mem0 ->
  exists b', msgpack_write bs b = Some b' /\ wrote b' (w ++ bs).
Proof.
  intros [Hp Hl Hs Hb] Hroom. unfold msgpack_write.
  destruct (write_at (last b) bs (mem b)) as [m|] eqn:Hw; [|apply write_at_None_iff in Hw; lia].
  eexists. split; [done|]. split; cbn [mem pos last].
  - done.
  - rewrite length_app. lia.
  - rewrite (write_at_length _ _ _ _ Hw). lia.
  - pose proof (write_at_upto _ _ _ _ Hw) as Hu. rewrite Hl in Hu.
    replace (Z.to_nat (9 + lenZ w)) with (9 + length w)%nat in Hu by lia.
    by rewrite length_app, Nat.add_assoc, Hu, Hb, <- (assoc_L (++)).
Qed.

Lemma write_strings_wrote l b w :
  wrote b w -> 9 + lenZ w + 5 * lenZ l + chain_len l <= lenZ mem0 ->
  exists b', write_strings l b = Some b' /\ wrote b' (w ++ concat (List.map pack_string l)).
Proof.
  revert b w. induction l as [|o l IH]; intros b w Hw Hroom; simpl in *.
  - exists b. by rewrite app_nil_r.
  - pose proof (pack_string_length o) as Ho. pose proof (chain_len_nonneg l).
    assert (match o with Some s => str_len s + chain_len l | None => chain_len l end
            = match o with Some s => str_len s | None => 0 end + chain_len l) as E by (destruct o; lia).
    destruct (write_wrote b w (pack_string o) Hw) as (b' & -> & Hw'); [lia|].
    rewrite (assoc_L (++)). apply IH; [done|]. rewrite length_app. lia.
Qed.
End Serialise.

(** *** The request is serialised in full, inside its buffer *)

Lemma message_fields r :
  http_ok r ->
  message (fields r)
  = msgpack_pack_uint64 (body_len r) ++ msgpack_pack_int (method r) ++
    concat (List.map pack_string (output_chain r)).
Proof.
  intros [Hm _]. unfold message, fields. destruct (pack_method _ Hm) as [-> _].
  cbn [List.map concat]. rewrite List.map_map.
  by rewrite (List.map_ext _ _ pack_string_field).
Qed.

Lemma message_length r :
  http_ok r -> lenZ (message (fields r)) <= 30 + chain_len (output_chain r).
Proof.
  intros Hok. rewrite (message_fields r Hok), !length_app.
  pose proof (pack_uint64_length (body_len r)). destruct (pack_method _ (ok_method _ Hok)) as [_ ->].
  assert (forall l, lenZ (concat (List.map pack_string l)) <= 5 * lenZ l + chain_len l) as Hl.
  { induction l as [|o l IH]; simpl; [lia|]. rewrite length_app.
    pose proof (pack_string_length o). destruct o; simpl in *; lia. }
  specialize (Hl (output_chain r)). unfold output_chain in *. simpl length in *. lia.
Qed.

(** The length is put in front of the message. *)
Lemma prepend_length mem1 w m0 :
  length mem1 = 9%nat -> (9 + length w <= length m0)%nat -> take (length w) (drop 9 m0) = w ->
  let pl := msgpack_pack_uint64 (lenZ w) in
  exists hl m,
    msgpack_write pl (mkBuf mem1 0 0) = Some hl /\ last hl = lenZ pl /\
    write_at (9 - last hl) (take (Z.to_nat (9 - (9 - last hl))) (mem hl)) m0 = Some m /\
    read_at (0 + (9 - last hl)) (9 + lenZ w - (0 + (9 - last hl))) m = pl ++ w.
Proof.
  intros H1 Hroom Hw pl. pose proof (pack_uint64_length (lenZ w)) as Hpl. fold pl in Hpl.
  unfold msgpack_write. simpl last. simpl mem.
  destruct (write_at 0 pl mem1) as [m1|] eqn:E1; [|apply write_at_None_iff in E1; lia].
  pose proof (write_at_upto _ _ _ _ E1) as Hu. rewrite Nat.add_0_l, app_nil_l in Hu.
  exists (mkBuf m1 0 (lenZ pl)). simpl. rewrite Z.add_0_l.
  replace (Z.to_nat (9 - (9 - lenZ pl))) with (length pl) by lia. rewrite Hu.
  rewrite write_at_Some by lia. eexists. split_and!; [done..|].
  unfold read_at. rewrite drop_app_length' by (rewrite length_take; lia).
  replace (Z.to_nat (9 - lenZ pl) + length pl)%nat with 9%nat by lia.
  rewrite take_app_ge by lia. f_equal. rewrite <- Hw at 2. f_equal. lia.
Qed.

Lemma create_request_spec r mem0 mem1 :
  http_ok r -> lenZ mem0 = request_buf_size r -> length mem1 = 9%nat ->
  create_request r mem0 mem1
  = Some ((msgpack_pack_uint64 (lenZ (message (fields r))) ++ message (fields r)) :: request_bufs r).
Proof.
  intros Hok H0 H1. unfold create_request.
  unfold request_buf_size in H0. rewrite (total_chain_len r (ok_total _ Hok)) in H0.
  change (MSGPACK_SIZEOF_ARRAY * 2 + MSGPACK_SIZEOF_NUMBER + PROTOCOL_STRINGS * MSGPACK_SIZEOF_RAW +
          PROTOCOL_NUMS * MSGPACK_SIZEOF_NUMBER) with 57 in H0.
  change MSGPACK_SIZEOF_NUMBER with 9 in *.
  pose proof (chain_len_nonneg (output_chain r)). pose proof (pack_uint64_length (body_len r)).
  assert (wrote mem0 (mkBuf mem0 0 9) []) as Hw0.
  { split; try done. by rewrite app_nil_r. }
  destruct (write_wrote mem0 _ [] (msgpack_pack_uint64 (body_len r)) Hw0) as (b1 & -> & Hw1);
    [simpl; lia|].
  destruct (pack_method _ (ok_method _ Hok)) as [_ Hlm].
  destruct (write_wrote mem0 _ _ (msgpack_pack_int (method r)) Hw1) as (b2 & -> & Hw2); [simpl; lia|].
  destruct (write_strings_wrote mem0 (output_chain r) _ _ Hw2) as (b3 & -> & Hw3).
  { rewrite !length_app. change (length (output_chain r)) with 4%nat. cbn [length]. lia. }
  rewrite app_nil_l, <- (assoc_L (++)), <- (message_fields r Hok) in Hw3.
  set (w := message (fields r)) in *. destruct Hw3 as [Hp Hl Hs Hb].
  rewrite Hl. replace (9 + lenZ w - 9) with (lenZ w) by lia.
  pose proof (message_length r Hok) as Hml. fold w in Hml.
  assert (take (length w) (drop 9 (mem b3)) = w) as Hw3.
  { apply (f_equal (drop 9)) in Hb. rewrite skipn_firstn_comm, drop_app_length' in Hb
      by (rewrite length_take; lia).
    by replace (9 + length w - 9)%nat with (length w) in Hb by lia. }
  destruct (prepend_length mem1 w (mem b3) H1 ltac:(lia) Hw3) as (hl & m & -> & _ & -> & Hr).
  simpl. by rewrite Hp, Hr.
Qed.

(** ** The worker reads the request that was sent *)

(** The objects at the start of a message, read one after the other. *)
Fixpoint unpack_fields (zone_malloc : Z -> bool) (n : nat) (data : list Z) (off : Z)
  : option (list msgpack_object) :=
  match n with
  | O => Some []
  | S n =>
      let* r := Unpack.msgpack_unpack_next zone_malloc data off in
      let* l := unpack_fields zone_malloc n data r.2 in
      Some (r.1 :: l)
  end.

Lemma unpack_fields_message zone_malloc fs pre post :
  Forall (fun o => Unpack.packable zone_malloc o /\ (Unpack.depth o <= 32)%nat) fs ->
  unpack_fields zone_malloc (length fs) (pre ++ message fs ++ post) (lenZ pre) = Some fs.
Proof.
  revert pre. induction fs as [|f fs IH]; intros pre Hf; [done|].
  apply Forall_cons_1 in Hf as [[Hp Hd] Hf]. cbn [length unpack_fields].
  unfold message. cbn [List.map concat]. rewrite <- (assoc_L (++)).
  rewrite Unpack.unpack_next_packed by done. simpl.
  specialize (IH (pre ++ msgpack_pack_object f) Hf). unfold message in IH.
  rewrite length_app, Nat2Z.inj_add, <- (assoc_L (++)) in IH. by rewrite IH.
Qed.

Lemma field_packable zone_malloc l :
  chain_len l < 2 ^ 31 ->
  Forall (fun o => Unpack.packable zone_malloc o /\ (Unpack.depth o <= 32)%nat) (List.map field l).
Proof.
  induction l as [|o l IH]; intros Hl; simpl in *; constructor.
  - pose proof (chain_len_nonneg l). destruct o as [[s|]|]; simpl in *; (split; [try done; lia|lia]).
  - apply IH. pose proof (chain_len_nonneg l). destruct o as [[s|]|]; simpl in *; lia.
Qed.

Lemma body_len_range r : 0 <= body_len r < 2 ^ 64.
Proof.
  unfold body_len. destruct (content_length r); [|lia].
  destruct (_ && _); [apply uwrap_range; lia|lia].
Qed.

Lemma fields_packable zone_malloc r :
  http_ok r ->
  Forall (fun o => Unpack.packable zone_malloc o /\ (Unpack.depth o <= 32)%nat) (fields r).
Proof.
  intros [Hm Ht]. unfold fields. pose proof (body_len_range r).
  constructor; [split; simpl; lia|]. constructor; [split; simpl; lia|]. by apply field_packable.
Qed.


(** C1: from nginx to the worker: the request the module sends, cut in any way on
    its way, is queued by the worker as soon as its last header byte arrives, and
    the headers it is queued with decode to the length of the body, the method,
    the URI, the host, the user agent and the cookies of the HTTP request. *)
Theorem http_request_reaches_worker zone_malloc max_vector request_size r mem0 mem1 chain rq chunks :
  http_ok r -> lenZ mem0 = request_buf_size r -> length mem1 = 9%nat ->
  create_request r mem0 mem1 = Some chain ->
  lenZ (message (fields r)) <= 65535 -> 65544 <= max_vector -> fresh rq ->
  delivered zone_malloc max_vector request_size rq chunks ->
  concat chunks `prefix_of` concat chain ->
  lenZ (msgpack_pack_uint64 (lenZ (message (fields r)))) + lenZ (message (fields r))
    <= lenZ (concat chunks) ->
  let '(rq', v) := receive zone_malloc max_vector request_size rq chunks in
  v = VEnqueue /\
  unpack_fields zone_malloc 6 (read_at (data_off rq') (len rq') (headers rq')) 0 = Some (fields r).
Proof.
  intros Hok H0 H1 Hc Hlen Hvec Hrq Hdel Hpre Hall.
  rewrite (create_request_spec r mem0 mem1 Hok H0 H1) in Hc. injection Hc as <-.
  simpl concat in Hpre. rewrite <- (assoc_L (++)) in Hpre.
  assert (1 <= lenZ (message (fields r))) as Hpos.
  { rewrite (message_fields r Hok), length_app. pose proof (pack_uint64_length (body_len r)). lia. }
  pose proof (receive_fresh zone_malloc max_vector request_size (message (fields r))
    (concat (request_bufs r)) ltac:(lia) Hvec rq chunks Hrq Hdel Hpre) as H.
  destruct (receive _ _ _ rq chunks) as [rq' v]. destruct H as [[_ H]|(-> & _ & _ & -> & _)]; [lia|].
  split; [done|].
  pose proof (unpack_fields_message zone_malloc (fields r) [] [] (fields_packable zone_malloc r Hok)) as Hu.
  simpl app in Hu. by rewrite app_nil_r in Hu.
Qed.

(** ** The answer *)

Section Answer.
Variable zone_malloc : Z -> bool.

(** The header the worker sends: the length of the body, whether the answer may be
    cached, a cookie to set and the content type; a missing string is nil. *)
Record answer := mkAnswer { a_length : Z; a_cache : Z; a_cookie : option ngx_str; a_type : option ngx_str }.
Definition answer_fields (a : answer) : list msgpack_object :=
  [MSGPACK_OBJECT_POSITIVE_INTEGER (a_length a); MSGPACK_OBJECT_POSITIVE_INTEGER (a_cache a);
   field (a_cookie a); field (a_type a)].
Definition answer_header (a : answer) : list Z := message (answer_fields a).
Definition answer_wire (a : answer) (body : list Z) : list Z :=
  msgpack_pack_uint64 (lenZ (answer_header a)) ++ answer_header a ++ body.

Record answer_ok (a : answer) : Prop := {
  ok_length : 0 <= a_length a < 2 ^ 32;
  ok_cache : 0 <= a_cache a < 256;
  ok_header : lenZ (answer_header a) < 2 ^ 16
}.

(** Reading one object that is there. *)
Lemma unpack_available u o rest :
  Unpack.packable zone_malloc o -> (Unpack.depth o <= 32)%nat ->
  available u = msgpack_pack_object o ++ rest ->
  Unpack.msgpack_unpack_next zone_malloc (available u) 0 = Some (o, lenZ (msgpack_pack_object o)).
Proof.
  intros Hp Hd ->. exact (Unpack.unpack_next_packed zone_malloc o [] rest Hp Hd).
Qed.

Lemma available_advance u o rest :
  0 <= buf_pos u -> available u = msgpack_pack_object o ++ rest ->
  available (set_pos (buf_pos u + lenZ (msgpack_pack_object o)) u) = rest.
Proof.
  intros Hp E. unfold available in *. simpl.
  replace (Z.to_nat (buf_pos u + lenZ (msgpack_pack_object o)))
    with (Z.to_nat (buf_pos u) + length (msgpack_pack_object o))%nat by lia.
  by rewrite <- drop_drop, E, drop_app_length.
Qed.

Lemma string_packable o x : lenZ (msgpack_pack_object (field o)) <= x -> x < 2 ^ 32 ->
  Unpack.packable zone_malloc (field o) /\ (Unpack.depth (field o) <= 32)%nat.
Proof.
  intros Hx Hlt. destruct o as [[s|]|]; simpl in *; (split; [try done|lia]).
  rewrite length_app in Hx. unfold msgpack_pack_raw_body in Hx. lia.
Qed.

(** The string a field holds, [str] when it is nil. *)
Definition field_str (o : option ngx_str) (str : ngx_str) : ngx_str :=
  match o with Some (Some s) => Some s | _ => str end.

Lemma stage2_spec a u body cookie0 pushed :
  answer_ok a -> 0 <= buf_pos u -> available u = answer_header a ++ body ->
  stage2 zone_malloc u cookie0 pushed
  = let cookie := field_str (a_cookie a) cookie0 in
    let send := 0 <? str_len cookie in
    (if send && negb pushed then NGX_ERROR else NGX_OK,
     mkUpstream (buffer u) (buf_pos u + lenZ (answer_header a)) (remaining_header_len u)
       (keepalive u) (a_length a)
       (if send && pushed then set_cookie u ++ [default [] cookie] else set_cookie u)
       (field_str (a_type a) (content_type u)) 200 (a_cache a =? 0)).
Proof.
  intros [Hl Hc Hh] Hp Hav. unfold answer_header, message, answer_fields in *.
  cbn [List.map concat] in *. rewrite app_nil_r in *. rewrite !length_app in *.
  set (o1 := MSGPACK_OBJECT_POSITIVE_INTEGER (a_length a)) in *.
  set (o2 := MSGPACK_OBJECT_POSITIVE_INTEGER (a_cache a)) in *.
  rewrite <- !(assoc_L (++)) in Hav.
  destruct (string_packable (a_cookie a) (2 ^ 16)) as [Hp3 Hd3]; [lia..|].
  destruct (string_packable (a_type a) (2 ^ 16)) as [Hp4 Hd4]; [lia..|].
  unfold stage2, unpack_next at 1. rewrite (unpack_available u o1 _ ltac:(simpl; lia) ltac:(simpl; lia) Hav).
  pose proof (available_advance u o1 _ Hp Hav) as H1. set (u1 := set_pos _ u) in *.
  unfold unpack_next. rewrite (unpack_available u1 o2 _ ltac:(simpl; lia) ltac:(simpl; lia) H1).
  pose proof (available_advance u1 o2 _ ltac:(simpl; lia) H1) as H2. set (u2 := set_pos _ u1) in *.
  unfold unpack_string at 1. rewrite (unpack_available u2 _ _ Hp3 Hd3 H2).
  pose proof (available_advance u2 _ _ ltac:(simpl; lia) H2) as H3. set (u3 := set_pos _ u2) in *.
  unfold unpack_string. rewrite (unpack_available u3 _ _ Hp4 Hd4 H3).
  subst o1 o2. cbv beta iota zeta.
  assert (u32 (a_length a) = a_length a) as -> by (apply uwrap_small; lia).
  assert (u8 (a_cache a) = a_cache a) as -> by (apply uwrap_small; lia).
  assert (match field (a_cookie a) with MSGPACK_OBJECT_RAW s => Some s | _ => cookie0 end
          = field_str (a_cookie a) cookie0) as -> by (by destruct (a_cookie a) as [[]|]).
  assert (match field (a_type a) with MSGPACK_OBJECT_RAW s => Some s | _ => content_type u3 end
          = field_str (a_type a) (content_type u)) as -> by (by destruct (a_type a) as [[]|]).
  subst u1 u2 u3. simpl. do 2 f_equal. lia.
Qed.

(** More bytes have arrived. *)
Definition set_buffer (bs : list Z) (u : upstream) : upstream :=
  mkUpstream bs (buf_pos u) (remaining_header_len u) (keepalive u) (content_length_n u)
    (set_cookie u) (content_type u) (status_n u) (expires_access u).

Definition number_len (a : answer) : nat := length (msgpack_pack_uint64 (lenZ (answer_header a))).
Definition header_len (a : answer) : nat := length (answer_header a).

(** The state once the length of the header has been read, and the final one. *)
Definition after_number (a : answer) (bs : list Z) (u : upstream) : upstream :=
  mkUpstream bs (Z.of_nat (number_len a)) (Z.of_nat (header_len a)) true (content_length_n u)
    (set_cookie u) (content_type u) (status_n u) (expires_access u).
Definition answered (a : answer) (bs : list Z) (u : upstream) : upstream :=
  mkUpstream bs (Z.of_nat (number_len a + header_len a)) (Z.of_nat (header_len a)) true (a_length a)
    (match a_cookie a with Some (Some (c :: cs)) => set_cookie u ++ [c :: cs] | _ => set_cookie u end)
    (field_str (a_type a) (content_type u)) 200 (a_cache a =? 0).

Lemma header_len_pos a : (1 <= header_len a)%nat.
Proof.
  unfold header_len, answer_header, message, answer_fields. cbn [List.map concat].
  rewrite length_app. pose proof (pack_uint64_length (a_length a)). simpl. lia.
Qed.

Lemma take_wire a body n :
  (number_len a <= n)%nat ->
  take n (answer_wire a body)
  = msgpack_pack_uint64 (lenZ (answer_header a)) ++ take (n - number_len a) (answer_header a ++ body).
Proof. intros Hn. unfold answer_wire. by apply take_app_ge. Qed.

Lemma available_after a bs u body n :
  (number_len a <= n)%nat -> bs = take n (answer_wire a body) ->
  available (after_number a bs u) = take (n - number_len a) (answer_header a ++ body).
Proof.
  intros Hn ->. unfold available, after_number. cbn [buf_pos buffer].
  rewrite Nat2Z.id, (take_wire a body n Hn). apply drop_app_length.
Qed.

Lemma stage1_spec a u body n :
  answer_ok a -> buf_pos u = 0 -> (number_len a <= n)%nat -> buffer u = take n (answer_wire a body) ->
  stage1 zone_malloc u = after_number a (buffer u) u.
Proof.
  intros [_ _ Hh] Hp Hn Hb. unfold stage1, unpack_next. rewrite Hp. simpl.
  set (o := MSGPACK_OBJECT_POSITIVE_INTEGER (lenZ (answer_header a))).
  assert (available u = msgpack_pack_object o ++ take (n - number_len a) (answer_header a ++ body)) as Hav.
  { unfold available. rewrite Hp, Hb. simpl. by rewrite drop_0, (take_wire a body n Hn). }
  rewrite (unpack_available u o _ ltac:(simpl; lia) ltac:(simpl; lia) Hav). simpl.
  rewrite (uwrap_small 16) by lia. unfold after_number, header_len, number_len.
  pose proof (header_len_pos a) as Hpos. unfold header_len in Hpos.
  destruct (Z.eqb_spec (lenZ (answer_header a)) 0); [lia|]. done.
Qed.

Lemma stage2_answered a bs u body n cookie0 :
  answer_ok a -> str_len (field_str (a_cookie a) cookie0) = str_len (field_str (a_cookie a) None) ->
  (number_len a + header_len a <= n)%nat -> bs = take n (answer_wire a body) ->
  stage2 zone_malloc (after_number a bs u) cookie0 true = (NGX_OK, answered a bs u).
Proof.
  intros Ha Hck Hn Hb.
  assert (available (after_number a bs u)
          = answer_header a ++ take (n - number_len a - header_len a) body) as Hav.
  { rewrite (available_after a bs u body n) by (lia || done). apply take_app_ge. unfold header_len in *. lia. }
  rewrite (stage2_spec a (after_number a bs u) _ cookie0 true Ha ltac:(simpl; lia) Hav). cbv zeta. rewrite Hck, !andb_true_r, andb_false_r.
  unfold answered, after_number. simpl. f_equal. f_equal; [unfold header_len; lia|].
  destruct (a_cookie a) as [[[|c cs]|]|]; try done.
Qed.


(** An answer of which only part of the leading number has arrived is taken for
    a complete one: the module does not ask for more, but reports success with an
    empty body, status 200 and no keep-alive. *)
Theorem process_header_partial_number a u body n :
  answer_ok a -> buf_pos u = 0 -> buffer u = take n (answer_wire a body) ->
  (0 < n < number_len a)%nat ->
  exists u', process_header zone_malloc u None true = (NGX_OK, u') /\
    buf_pos u' = 0 /\ content_length_n u' = 0 /\ status_n u' = 200 /\ keepalive u' = false.
Proof.
  intros [_ _ Hh] Hp Hb Hn. unfold number_len in Hn.
  set (pl := msgpack_pack_uint64 (lenZ (answer_header a))) in *.
  assert (Unpack.msgpack_unpack_next zone_malloc (take n pl) 0 = None) as Hnone.
  { refine (proj1 (Unpack.unpack_next_prefix zone_malloc
      (MSGPACK_OBJECT_POSITIVE_INTEGER (lenZ (answer_header a))) (take n pl) (drop n pl) _ _ _ _)).
    - simpl. lia.
    - simpl. lia.
    - symmetry. apply take_drop.
    - intros E%(f_equal length). rewrite length_drop in E. simpl in E. lia. }
  assert (forall v, buf_pos v = 0 -> buffer v = buffer u ->
    Unpack.msgpack_unpack_next zone_malloc (available v) 0 = None) as Hv.
  { intros v Hv1 Hv2. unfold available. rewrite Hv1, Hv2, Hb. change (Z.to_nat 0) with 0%nat. rewrite drop_0.
    unfold answer_wire. fold pl. by rewrite take_app_le by lia. }
  unfold process_header, stage1, unpack_next. rewrite Hp, (Hv u Hp eq_refl). simpl.
  change (u16 0) with 0. rewrite (proj2 (Z.leb_le _ _)) by lia.
  unfold stage2, unpack_next, unpack_string. rewrite !Hv by done.
  eexists. split; [reflexivity|]. done.
Qed.

(** An answer without a cookie sends a Set-Cookie header with whatever the
    uninitialised variable holds. *)
Theorem process_header_uninitialised_cookie a u body garbage :
  answer_ok a -> buf_pos u = 0 -> buffer u = answer_wire a body ->
  a_cookie a = None -> garbage <> [] ->
  set_cookie (process_header zone_malloc u (Some garbage) true).2 = set_cookie u ++ [garbage].
Proof.
  intros Ha Hp Hb Hck Hg. set (n := length (answer_wire a body)).
  assert (buffer u = take n (answer_wire a body)) as Hb' by (rewrite take_ge; [done|unfold n; lia]).
  assert (number_len a + header_len a <= n)%nat as Hn.
  { unfold n, answer_wire, number_len, header_len. rewrite !length_app. lia. }
  unfold process_header. rewrite (stage1_spec a u body n Ha Hp ltac:(lia) Hb').
  pose proof (available_after a (buffer u) u body n ltac:(lia) Hb') as Hav.
  rewrite (take_ge (answer_header a ++ body)) in Hav
    by (unfold n, answer_wire; rewrite !length_app; unfold number_len; lia).
  rewrite Hav. cbn [remaining_header_len after_number].
  rewrite (proj2 (Z.leb_le _ _)) by (rewrite length_app; unfold header_len; lia).
  rewrite (stage2_spec a (after_number a (buffer u) u) body (Some garbage) true Ha ltac:(simpl; lia) Hav).
  cbv zeta. rewrite Hck. simpl. destruct garbage as [|g gs]; [done|].
  rewrite (proj2 (Z.ltb_lt _ _)) by (simpl; lia). done.
Qed.
End Answer.

(** ** The body, the configuration *)

Fixpoint filter_all (counts : list Z) (s : body_filter) : body_filter :=
  match counts with [] => s | c :: cs => filter_all cs (filter_bytes c true s).2 end.

Definition sum (l : list Z) : Z := foldr Z.add 0 l.

(** Consecutive parts from [a] to [b]. *)
Fixpoint parts_between (a b : Z) (l : list (Z * Z)) : Prop :=
  match l with [] => a = b | p :: l => p.1 = a /\ parts_between p.2 b l end.

Lemma parts_between_snoc a b c l :
  parts_between a b l -> parts_between a c (l ++ [(b, c)]).
Proof. revert a. induction l as [|p l IH]; intros a; simpl; [by intros ->|]. intros [? ?]. auto. Qed.

(** The filter passes the bytes of the body on without a gap or an overlap, and
    counts them against the length the header announced. *)
Theorem filter_all_spec counts s start :
  Forall (fun c => 0 <= c) counts -> 0 <= length_left s -> sum counts <= length_left s ->
  parts_between start (data_last s) (out_bufs s) ->
  let s' := filter_all counts s in
  length_left s' = length_left s - sum counts /\ data_last s' = data_last s + sum counts /\
  parts_between start (data_last s') (out_bufs s').
Proof.
  intros Hpos. revert s. induction Hpos as [|c counts Hc Hpos IH]; intros s Hl Hs Hp; simpl in *.
  - split_and!; [lia..|done].
  - assert (0 <= sum counts) by (clear -Hpos; induction Hpos; simpl; lia).
    destruct (Z.eqb_spec (length_left s) (-1)); [lia|].
    specialize (IH (mkFilter (length_left s - c) (data_last s + c)
      (out_bufs s ++ [(data_last s, data_last s + c)]))). simpl in IH.
    destruct IH as (-> & -> & ?); [lia..|by apply parts_between_snoc|]. split_and!; [lia..|done].
Qed.

(** After a merge every merged setting has a value; the connect timeout is the
    location's own, else that of the enclosing block, else the default; and "off" excludes every other
    condition for trying the next upstream. *)
Theorem merge_loc_conf_spec pagesize prev conf :
  let m := merge_loc_conf pagesize prev conf in
  (forall v, connect_timeout conf = Some v -> connect_timeout m = Some v) /\
  (connect_timeout conf = None -> forall v, connect_timeout prev = Some v -> connect_timeout m = Some v) /\
  (connect_timeout conf = None -> connect_timeout prev = None -> connect_timeout m = Some 60000) /\
  is_Some (local m) /\ is_Some (send_timeout m) /\ is_Some (read_timeout m) /\ is_Some (buffer_size m) /\
  next_upstream m <> 0 /\
  (Z.land (next_upstream m) NGX_HTTP_UPSTREAM_FT_OFF <> 0 ->
   next_upstream m = Z.lor NGX_CONF_BITMASK_SET NGX_HTTP_UPSTREAM_FT_OFF).
Proof.
  assert (forall c p d, is_Some d -> is_Some (merge_value c p d)) as Hm
    by (intros [] [] ? ?; simpl; eauto).
  unfold merge_loc_conf. cbn [local connect_timeout send_timeout read_timeout buffer_size next_upstream].
  set (mask := merge_bitmask _ _ _).
  assert (mask <> 0) as Hmask.
  { subst mask. unfold merge_bitmask. destruct (Z.eqb_spec (next_upstream conf) 0); [|done].
    by destruct (Z.eqb_spec (next_upstream prev) 0). }
  split_and!; try (apply Hm; eauto).
  - by intros v ->.
  - by intros -> v ->.
  - by intros -> ->.
  - by destruct (Z.land mask NGX_HTTP_UPSTREAM_FT_OFF =? 0).
  - destruct (Z.eqb_spec (Z.land mask NGX_HTTP_UPSTREAM_FT_OFF) 0) as [E|E]; [|done].
    intros HE. by destruct HE.
Qed.

(** ** Witnesses *)

Definition sample_http : http_request :=
  mkHttp NGX_HTTP_POST (Some [49; 50]) true (Some [47; 97]) (Some (Some [104])) None None
    [[1; 2; 3; 4; 5; 6; 7; 8; 9; 10; 11; 12]].

Lemma sample_http_ok : http_ok sample_http.
Proof. split; vm_compute; split || idtac; done. Qed.


Definition sample_chunks : list (list Z) := [[9; 12]; [8; 162; 47]; [97; 161; 104; 192; 192]].

Lemma http_request_reaches_worker_witness :
  (receive (fun _ => true) 65544 4 Request_new sample_chunks).2 = VEnqueue.
Proof.
  pose proof (http_request_reaches_worker (fun _ => true) 65544 4 sample_http (replicate 60 0)
    (replicate 9 0) [[9; 12; 8; 162; 47; 97; 161; 104; 192; 192]; [1; 2; 3; 4; 5; 6; 7; 8; 9; 10; 11; 12]]
    Request_new sample_chunks sample_http_ok eq_refl eq_refl) as H.
  destruct (receive _ _ _ _ _) as [rq v]. apply H.
  - vm_compute. reflexivity.
  - vm_compute. discriminate.
  - lia.
  - split; [vm_compute; lia|]. split_and!; reflexivity.
  - vm_compute. split_and!; done.
  - exists [1; 2; 3; 4; 5; 6; 7; 8; 9; 10; 11; 12]. reflexivity.
  - vm_compute. discriminate.
Defined.

Definition sample_answer : answer := mkAnswer 3 1 (Some (Some [99])) (Some (Some [116; 120])).
Definition sample_upstream (bs : list Z) : upstream := mkUpstream bs 0 0 false 0 [] None 0 false.

Lemma sample_answer_ok : answer_ok sample_answer.
Proof. split; simpl; lia. Qed.


(** An answer whose header is 131 bytes long, so that its length takes two bytes. *)
Definition long_answer : answer := mkAnswer 3 1 None (Some (Some (replicate 125 65))).

Lemma process_header_partial_number_witness :
  exists u', process_header (fun _ => true) (sample_upstream [204]) None true = (NGX_OK, u') /\
    content_length_n u' = 0.
Proof.
  destruct (process_header_partial_number (fun _ => true) long_answer (sample_upstream [204]) [1; 2; 3] 1)
    as (u' & H & _ & H' & _).
  - split; vm_compute; split || idtac; done.
  - reflexivity.
  - reflexivity.
  - vm_compute. lia.
  - exists u'. split; [exact H|exact H'].
Defined.

Lemma process_header_uninitialised_cookie_witness :
  set_cookie (process_header (fun _ => true)
    (sample_upstream (answer_wire (mkAnswer 3 1 None None) [1; 2; 3])) (Some [120]) true).2 = [[120]].
Proof.
  apply (process_header_uninitialised_cookie (fun _ => true) (mkAnswer 3 1 None None)
    (sample_upstream (answer_wire (mkAnswer 3 1 None None) [1; 2; 3])) [1; 2; 3] [120]); try reflexivity.
  - split; simpl; lia.
  - discriminate.
Defined.

Lemma filter_all_spec_witness :
  length_left (filter_all [2; 3] (mkFilter 7 10 [])) = 2 /\ data_last (filter_all [2; 3] (mkFilter 7 10 [])) = 15.
Proof.
  destruct (filter_all_spec [2; 3] (mkFilter 7 10 []) 10) as (H1 & H2 & _).
  - repeat constructor; lia.
  - simpl. lia.
  - simpl. lia.
  - reflexivity.
  - split; [exact H1|exact H2].
Defined.
