(* ===== verification/WebappStr.v ===== *)
(** * Strings of the server

    The type [webapp_str_t] of src/webapp/include/WebappString.h with the
    operators of src/webapp/src/WebappString.cpp, and the number parser [strntol]
    of src/webapp/src/Platform.cpp.  A string is a pointer, a length and the flag
    that says whether the string owns the memory; the memory is explicit, with
    [new], [delete[]] and [memcpy] that can throw or be undefined.  Programs over
    string variables are shown to behave as programs over lists of bytes. *)

From Stdlib Require Import ZArith Lia.
From stdpp Require Import base list gmap numbers option.
From S2P Require Import Prelude.
Open Scope Z_scope.
Open Scope webapp_scope.

(** ** Memory *)

(** [Throw]: the allocation throws; [Undef]: undefined behaviour. *)
Inductive res (A : Type) := Ok (a : A) | Throw | Undef.
Arguments Ok {_} _.
Arguments Throw {_}.
Arguments Undef {_}.

Definition bind {A B} (r : res A) (f : A -> res B) : res B :=
  match r with Ok a => f a | Throw => Throw | Undef => Undef end.
Notation "'let!' x := a 'in' b" := (bind a (fun x => b))
  (at level 10, x pattern, a at level 100, b at level 200) : webapp_scope.

(** A pointer is a block and an offset into it. *)
Definition ptr : Type := nat * Z.
Record heap := mkHeap { chunks : gmap nat (list Z); next_chunk : nat }.

Definition load (h : heap) (p : ptr) (n : Z) : option (list Z) :=
  let* m := chunks h !! p.1 in
  if (0 <=? p.2) && (0 <=? n) && (p.2 + n <=? lenZ m) then Some (read_at p.2 n m) else None.

Definition delete_array (h : heap) (p : option ptr) : res heap :=
  match p with
  | None => Ok h
  | Some (b, off) =>
      match chunks h !! b with
      | Some _ => if off =? 0 then Ok (mkHeap (delete b (chunks h)) (next_chunk h)) else Undef
      | None => Undef
      end
  end.

(** The length is converted to [size_t]; copying nothing accepts any pointers. *)
Definition memcpy (h : heap) (dst : ptr) (src : option ptr) (n : Z) : res heap :=
  if n =? 0 then Ok h else
  match src with
  | None => Undef
  | Some src =>
      match load h src n, chunks h !! dst.1 with
      | Some bs, Some m =>
          match write_at dst.2 bs m with
          | Some m' => Ok (mkHeap (<[dst.1 := m']> (chunks h)) (next_chunk h))
          | None => Undef
          end
      | _, _ => Undef
      end
  end.

(** [strlen]: the bytes before the first 0, if there is one in the block. *)
Fixpoint until_nul (m : list Z) : option Z :=
  match m with
  | [] => None
  | c :: m => if c =? 0 then Some 0 else let* n := until_nul m in Some (n + 1)
  end.
Definition strlen (h : heap) (p : ptr) : option Z :=
  let* m := chunks h !! p.1 in
  if 0 <=? p.2 then until_nul (drop (Z.to_nat p.2) m) else None.

(** ** Numbers *)

Definition isdigit (c : Z) : bool := (48 <=? c) && (c <=? 57).

(** The loop of [strntol]; [None] when [x * 10 + digit] overflows. *)
Fixpoint strntol_loop (x : Z) (src : list Z) : option Z :=
  match src with
  | c :: src =>
      if isdigit c then
        let y := x * 10 + (c - 48) in
        if y <? 2 ^ 31 then strntol_loop y src else None
      else Some x
  | [] => Some x
  end.

(** [strntol(src, n)] on the [n] bytes of [src]. *)
Definition strntol (src : list Z) : option Z :=
  match src with
  | c :: rest =>
      if c =? 45 then let* x := strntol_loop 0 rest in Some (x * -1)
      else strntol_loop 0 src
  | [] => Some 0
  end.

(** [snprintf] with "%d": an [int] has at most ten digits. *)
Fixpoint decimal (fuel : nat) (n : Z) : list Z :=
  match fuel with
  | O => []
  | S fuel => if n <? 10 then [48 + n] else decimal fuel (n / 10) ++ [48 + n mod 10]
  end.
Definition print_int (n : Z) : list Z :=
  if n <? 0 then 45 :: decimal 10 (- n) else decimal 10 n.

(** ** The string type *)

Record webapp_str := mkStr { data : option ptr; len : Z; allocated : bool }.

Definition str_empty : webapp_str := mkStr None 0 false.

Section Strings.
(** What a fresh block holds at each offset. *)
Variable junk : nat -> Z -> Z.

(** [new char[n]]. *)
Definition new_char (h : heap) (n : Z) : res (heap * nat) :=
  if n <? 0 then Throw
  else let b := next_chunk h in
       Ok (mkHeap (<[b := List.map (junk b) (seqZ 0 n)]> (chunks h)) (S b), b).

(** A copy of [n] bytes in a block of [m] bytes. *)
Definition dup (h : heap) (src : option ptr) (m n : Z) : res (heap * nat) :=
  let! hb := new_char h m in
  let! h' := memcpy hb.1 (hb.2, 0) src n in
  Ok (h', hb.2).

Definition str_ptr_len (h : heap) (s : option ptr) (_len : Z) : res (heap * webapp_str) :=
  match s with
  | None => Ok (h, str_empty)
  | Some _ => let! hb := dup h s _len _len in Ok (hb.1, mkStr (Some (hb.2, 0)) _len true)
  end.

Definition str_len (h : heap) (_len : Z) : res (heap * webapp_str) :=
  let! hb := new_char h _len in Ok (hb.1, mkStr (Some (hb.2, 0)) _len true).

Definition str_cstr (h : heap) (s : option ptr) : res (heap * webapp_str) :=
  match s with
  | None => Ok (h, str_empty)
  | Some p =>
      match strlen h p with
      | None => Undef
      | Some n =>
          if i32 n =? 2 ^ 31 - 1 then Undef else
          let! hb := dup h s (i32 n + 1) (i32 n + 1) in
          Ok (hb.1, mkStr (Some (hb.2, 0)) (i32 n) true)
      end
  end.

(** From a [std::string] or a [leveldb::Slice] with these bytes. *)
Definition str_bytes (h : heap) (bs : list Z) : res (heap * webapp_str) :=
  let n := i32 (lenZ bs) in
  let! hb := new_char h n in
  match chunks hb.1 !! hb.2 with
  | Some m =>
      match write_at 0 (take (Z.to_nat n) bs) m with
      | Some m' => Ok (mkHeap (<[hb.2 := m']> (chunks hb.1)) (next_chunk hb.1),
                       mkStr (Some (hb.2, 0)) n true)
      | None => Undef
      end
  | None => Undef
  end.

(** From a [webapp_str_t*]: the same memory, not owned. *)
Definition str_alias (other : option webapp_str) : webapp_str :=
  match other with
  | None => str_empty
  | Some o => mkStr (data o) (len o) false
  end.

Definition str_copy (h : heap) (other : webapp_str) : res (heap * webapp_str) :=
  let! hb := dup h (data other) (len other) (len other) in
  Ok (hb.1, mkStr (Some (hb.2, 0)) (len other) true).

Definition str_delete (h : heap) (s : webapp_str) : res heap :=
  if allocated s then delete_array h (data s) else Ok h.

(** [operator +=]: the new length is an [int32_t]. *)
Definition str_append (h : heap) (s other : webapp_str) : res (heap * webapp_str) :=
  if 0 <? len other then
    if 2 ^ 31 <=? len s + len other then Undef else
    let! hb := new_char h (len s + len other) in
    let! h1 := memcpy hb.1 (hb.2, 0) (data s) (len s) in
    let! h2 := memcpy h1 (hb.2, len s) (data other) (len other) in
    let! h3 := str_delete h2 s in
    Ok (h3, mkStr (Some (hb.2, 0)) (len s + len other) true)
  else Ok (h, s).

(** [operator =]; [same] when both sides are the same object. *)
Definition str_assign (h : heap) (same : bool) (s other : webapp_str) : res (heap * webapp_str) :=
  if same then Ok (h, s)
  else
    let! hb := dup h (data other) (len other) (len other) in
    let! h' := str_delete hb.1 s in
    Ok (h', mkStr (Some (hb.2, 0)) (len other) true).

(** [operator +] of two strings. *)
Definition str_plus (h : heap) (w1 w2 : webapp_str) : res (heap * webapp_str) :=
  let! n := str_copy h w1 in str_append n.1 n.2 w2.

(** [operator +] with a C string on the left: its copy is a temporary. *)
Definition str_cstr_plus (h : heap) (lhs : option ptr) (rhs : webapp_str) : res (heap * webapp_str) :=
  let! l := str_cstr h lhs in
  let! n := str_plus l.1 l.2 rhs in
  let! h' := str_delete n.1 l.2 in
  Ok (h', n.2).

Definition str_plus_cstr (h : heap) (lhs : webapp_str) (rhs : option ptr) : res (heap * webapp_str) :=
  let! r := str_cstr h rhs in
  let! n := str_plus r.1 lhs r.2 in
  let! h' := str_delete n.1 r.2 in
  Ok (h', n.2).

(** [from_number]: 21 bytes hold the digits and the terminating 0. *)
Definition str_from_number (h : heap) (s : webapp_str) (num : Z) : res (heap * webapp_str) :=
  let! h1 := str_delete h s in
  let! hb := new_char h1 21 in
  match chunks hb.1 !! hb.2 with
  | Some m =>
      match write_at 0 (print_int num ++ [0]) m with
      | Some m' => Ok (mkHeap (<[hb.2 := m']> (chunks hb.1)) (next_chunk hb.1),
                       mkStr (Some (hb.2, 0)) (lenZ (print_int num)) true)
      | None => Undef
      end
  | None => Undef
  end.
End Strings.

(** [tolower] of the "C" locale. *)
Definition tolower (c : Z) : Z := if (65 <=? c) && (c <=? 90) then c + 32 else c.

(** [to_lower]: in place. *)
Definition str_to_lower (h : heap) (s : webapp_str) : res heap :=
  if len s <=? 0 then Ok h else
  match data s with
  | None => Undef
  | Some p =>
      match load h p (len s), chunks h !! p.1 with
      | Some bs, Some m =>
          match write_at p.2 (List.map tolower bs) m with
          | Some m' => Ok (mkHeap (<[p.1 := m']> (chunks h)) (next_chunk h))
          | None => Undef
          end
      | _, _ => Undef
      end
  end.

(** [strncmp] = 0: the bytes agree up to a common 0, or to the end. *)
Fixpoint strncmp_eq (a b : list Z) : bool :=
  match a, b with
  | x :: a, y :: b => if x =? y then (x =? 0) || strncmp_eq a b else false
  | _, _ => true
  end.

Definition str_endsWith (h : heap) (s other : webapp_str) : res bool :=
  if len s <? len other then Ok false
  else if len other <? 0 then Undef
  else if len other =? 0 then Ok true
  else match data s, data other with
       | Some (b, off), Some q =>
           match load h (b, off + len s - len other) (len other), load h q (len other) with
           | Some x, Some y => Ok (strncmp_eq x y)
           | _, _ => Undef
           end
       | _, _ => Undef
       end.

(** ** Programs over string variables *)

(** The operations a function performs on its string variables; a variable is
    constructed before it is used and destroyed at the end of its scope. *)
Inductive op :=
| ODefault (v : nat)
| OBytes (v : nat) (bs : list Z)
| OCopy (v w : nat)
| OPlus (v w1 w2 : nat)
| OAppend (v w : nat)
| OAssign (v w : nat)
| OFromNumber (v : nat) (num : Z)
| OLower (v : nat)
| ODelete (v : nat).

Record store := mkStore { mem : heap; vars : gmap nat webapp_str }.

(** The variable the operation constructs must not exist, the others must. *)
Definition absent {A} (m : gmap nat A) (v : nat) : bool :=
  match m !! v with Some _ => false | None => true end.
Definition var (st : store) (v : nat) : res webapp_str :=
  match vars st !! v with Some s => Ok s | None => Undef end.
Definition construct_var (st : store) (v : nat) (r : res (heap * webapp_str)) : res store :=
  if absent (vars st) v then let! hs := r in Ok (mkStore hs.1 (<[v := hs.2]> (vars st))) else Undef.
Definition update_var (st : store) (v : nat) (r : res (heap * webapp_str)) : res store :=
  let! hs := r in Ok (mkStore hs.1 (<[v := hs.2]> (vars st))).

Definition exec_op (junk : nat -> Z -> Z) (st : store) (o : op) : res store :=
  let h := mem st in
  match o with
  | ODefault v => construct_var st v (Ok (h, str_empty))
  | OBytes v bs => construct_var st v (str_bytes junk h bs)
  | OCopy v w => let! s := var st w in construct_var st v (str_copy junk h s)
  | OPlus v w1 w2 =>
      let! s1 := var st w1 in let! s2 := var st w2 in construct_var st v (str_plus junk h s1 s2)
  | OAppend v w =>
      let! s := var st v in let! t := var st w in update_var st v (str_append junk h s t)
  | OAssign v w =>
      let! s := var st v in let! t := var st w in
      update_var st v (str_assign junk h (Nat.eqb v w) s t)
  | OFromNumber v num => let! s := var st v in update_var st v (str_from_number junk h s num)
  | OLower v => let! s := var st v in let! h' := str_to_lower h s in Ok (mkStore h' (vars st))
  | ODelete v =>
      let! s := var st v in let! h' := str_delete h s in Ok (mkStore h' (delete v (vars st)))
  end.

Fixpoint exec_ops (junk : nat -> Z -> Z) (st : store) (os : list op) : res store :=
  match os with
  | [] => Ok st
  | o :: os => let! st' := exec_op junk st o in exec_ops junk st' os
  end.

(** The same programs over lists of bytes; [None] when a variable is misused or a
    length leaves the 32-bit range. *)
Definition fits (bs : list Z) : option (list Z) := if lenZ bs <? 2 ^ 31 then Some bs else None.
Definition in_int (n : Z) : bool := (- 2 ^ 31 <=? n) && (n <? 2 ^ 31).

Definition spec_op (m : gmap nat (list Z)) (o : op) : option (gmap nat (list Z)) :=
  match o with
  | ODefault v => if absent m v then Some (<[v := []]> m) else None
  | OBytes v bs => if absent m v then let* r := fits bs in Some (<[v := r]> m) else None
  | OCopy v w => let* a := m !! w in if absent m v then Some (<[v := a]> m) else None
  | OPlus v w1 w2 =>
      let* a := m !! w1 in let* b := m !! w2 in
      if absent m v then let* r := fits (a ++ b) in Some (<[v := r]> m) else None
  | OAppend v w => let* a := m !! v in let* b := m !! w in let* r := fits (a ++ b) in Some (<[v := r]> m)
  | OAssign v w => let* a := m !! v in let* b := m !! w in Some (<[v := b]> m)
  | OFromNumber v num =>
      let* a := m !! v in if in_int num then Some (<[v := print_int num]> m) else None
  | OLower v => let* a := m !! v in Some (<[v := List.map tolower a]> m)
  | ODelete v => let* a := m !! v in Some (delete v m)
  end.

Fixpoint spec_ops (m : gmap nat (list Z)) (os : list op) : option (gmap nat (list Z)) :=
  match os with
  | [] => Some m
  | o :: os => let* m' := spec_op m o in spec_ops m' os
  end.

(** ** Strings as lists of bytes *)

(** [repr h s bs]: the string [s] stands for the bytes [bs]; what it points to it
    owns, from the start of a block. *)
Definition owns (s : webapp_str) (b : nat) : Prop := allocated s = true /\ data s = Some (b, 0).
Definition repr (h : heap) (s : webapp_str) (bs : list Z) : Prop :=
  len s = lenZ bs /\ lenZ bs < 2 ^ 31 /\
  ((exists b m, owns s b /\ chunks h !! b = Some m /\ take (length bs) m = bs) \/
   (allocated s = false /\ data s = None /\ bs = [])).

(** The store [st] stands for the values [m]: each block has one owner. *)
Record good (st : store) (m : gmap nat (list Z)) : Prop := {
  good_dom : forall v, is_Some (vars st !! v) <-> is_Some (m !! v);
  good_repr : forall v s bs, vars st !! v = Some s -> m !! v = Some bs -> repr (mem st) s bs;
  good_owner : forall v w s t b,
    vars st !! v = Some s -> vars st !! w = Some t -> owns s b -> owns t b -> v = w;
  good_chunks : forall b, is_Some (chunks (mem st) !! b) ->
    (b < next_chunk (mem st))%nat /\ exists v s, vars st !! v = Some s /\ owns s b }.

Lemma take_full (bs m : list Z) : take (length bs) m = bs -> (length bs <= length m)%nat.
Proof. intros H%(f_equal length). rewrite length_take in H. lia. Qed.

Lemma repr_load h s bs :
  repr h s bs -> bs <> [] -> exists b m, owns s b /\ chunks h !! b = Some m /\
    load h (b, 0) (lenZ bs) = Some bs /\ (length bs <= length m)%nat.
Proof.
  intros (_ & _ & [(b & m & Ho & Hm & Ht)|(_ & _ & ->)]) Hne; [|done].
  apply take_full in Ht as Hl. exists b, m. split_and!; [done..| |done]. unfold load. simpl. rewrite Hm.
  rewrite (proj2 (Z.leb_le 0 (lenZ bs))), (proj2 (Z.leb_le _ _)) by lia.
  simpl. unfold read_at. by rewrite drop_0, Nat2Z.id, Ht.
Qed.

Lemma load_insert_ne h b m n p k :
  p.1 <> b -> load (mkHeap (<[b := m]> (chunks h)) n) p k = load h p k.
Proof. intros. unfold load. simpl. by rewrite lookup_insert_ne. Qed.

(** Copying a represented string into a block of its own. *)
Lemma memcpy_repr h s bs b m off n :
  repr h s bs -> chunks h !! b = None -> 0 <= off -> off + lenZ bs <= lenZ m ->
  memcpy (mkHeap (<[b := m]> (chunks h)) n) (b, off) (data s) (len s)
  = Ok (mkHeap (<[b := take (Z.to_nat off) m ++ bs ++ drop (Z.to_nat off + length bs) m]> (chunks h)) n).
Proof.
  intros Hr Hb Ho Hl. pose proof Hr as (Hlen & _ & _). unfold memcpy. rewrite Hlen.
  destruct (Z.eqb_spec (lenZ bs) 0) as [E|E].
  { destruct bs; [|simpl in E; lia]. simpl. by rewrite Nat.add_0_r, take_drop. }
  destruct (repr_load h s bs Hr) as (c & mc & [_ Hd] & Hc & Hld & _); [by intros ->|].
  assert (c <> b) by congruence.
  rewrite Hd, load_insert_ne, Hld by done. simpl. rewrite lookup_insert_eq, write_at_Some by lia.
  by rewrite insert_insert_eq.
Qed.

Lemma junk_length (f : Z -> Z) n : 0 <= n -> length (List.map f (seqZ 0 n)) = Z.to_nat n.
Proof. intros. by rewrite List.length_map, length_seqZ. Qed.

Section Specs.
Variable junk : nat -> Z -> Z.
Implicit Types (h : heap) (s t : webapp_str) (bs cs : list Z).

Definition fresh_heap h : Prop := chunks h !! next_chunk h = None.
Definition push h (m : list Z) : heap :=
  mkHeap (<[next_chunk h := m]> (chunks h)) (S (next_chunk h)).
Definition fresh_str h (n : Z) : webapp_str := mkStr (Some (next_chunk h, 0)) n true.
(** The heap without what [s] owns. *)
Definition release h s : heap :=
  match allocated s, data s with
  | true, Some (b, _) => mkHeap (delete b (chunks h)) (next_chunk h)
  | _, _ => h
  end.

Lemma dup_spec h s bs :
  fresh_heap h -> repr h s bs -> dup junk h (data s) (len s) (len s) = Ok (push h bs, next_chunk h).
Proof.
  intros Hf Hr. pose proof Hr as (Hl & _ & _). unfold dup, new_char, push. rewrite Hl.
  rewrite (proj2 (Z.ltb_ge (lenZ bs) 0)) by lia. simpl. rewrite <- Hl.
  rewrite (memcpy_repr h s bs) by (try done; rewrite ?junk_length; lia). simpl.
  rewrite drop_ge by (rewrite junk_length; lia). by rewrite app_nil_r.
Qed.

Lemma delete_spec h s bs m :
  fresh_heap h -> repr h s bs -> str_delete (push h m) s = Ok (push (release h s) m).
Proof.
  intros Hf (_ & _ & [(b & mb & [Ha Hd] & Hb & _)|(Ha & Hd & _)]);
    unfold str_delete, release, push; rewrite Ha, ?Hd; simpl; [|done].
  assert (next_chunk h <> b) by (intros <-; unfold fresh_heap in Hf; congruence).
  rewrite lookup_insert_ne, Hb by done. by rewrite delete_insert_ne.
Qed.

Lemma copy_spec h s bs :
  fresh_heap h -> repr h s bs -> str_copy junk h s = Ok (push h bs, fresh_str h (lenZ bs)).
Proof.
  intros Hf Hr. unfold str_copy. rewrite (dup_spec _ _ _ Hf Hr). simpl.
  by destruct Hr as (-> & _).
Qed.

Lemma assign_spec h s t bs cs :
  fresh_heap h -> repr h s bs -> repr h t cs ->
  str_assign junk h false s t = Ok (push (release h s) cs, fresh_str h (lenZ cs)).
Proof.
  intros Hf Hs Ht. unfold str_assign. rewrite (dup_spec _ _ _ Hf Ht). simpl.
  rewrite (delete_spec _ _ _ _ Hf Hs). simpl. by destruct Ht as (-> & _).
Qed.

Lemma append_spec h s t bs cs :
  fresh_heap h -> repr h s bs -> repr h t cs -> cs <> [] -> lenZ (bs ++ cs) < 2 ^ 31 ->
  str_append junk h s t = Ok (push (release h s) (bs ++ cs), fresh_str h (lenZ (bs ++ cs))).
Proof.
  intros Hf Hs Ht Hne Hl. rewrite length_app in Hl |- *.
  assert (0 < lenZ cs) by (destruct cs; [done|simpl; lia]).
  pose proof Hs as (Hls & _). pose proof Ht as (Hlt & _). unfold str_append, new_char.
  rewrite (proj2 (Z.ltb_lt 0 (len t))), (proj2 (Z.leb_gt _ _)), (proj2 (Z.ltb_ge _ 0)) by lia.
  simpl. rewrite (memcpy_repr h s bs) by (try done; rewrite ?junk_length; lia). simpl.
  rewrite (memcpy_repr h t cs)
    by (try done; rewrite ?length_app, ?length_drop, ?junk_length; lia). simpl.
  rewrite take_app_length' by lia.
  rewrite drop_ge by (rewrite !length_app, length_drop, junk_length; lia). rewrite app_nil_r.
  change (mkHeap _ _) with (push h (bs ++ cs)). rewrite (delete_spec _ _ _ _ Hf Hs). simpl.
  rewrite Hls, Hlt. unfold fresh_str. by rewrite Nat2Z.inj_add.
Qed.

Lemma bytes_spec h bs :
  lenZ bs < 2 ^ 31 -> str_bytes junk h bs = Ok (push h bs, fresh_str h (lenZ bs)).
Proof.
  intros Hl. unfold str_bytes, new_char. rewrite (swrap_small 32 (lenZ bs)) by lia.
  rewrite (proj2 (Z.ltb_ge (lenZ bs) 0)) by lia. simpl. rewrite lookup_insert_eq, Nat2Z.id, firstn_all.
  rewrite write_at_Some by (rewrite ?junk_length; lia).
  rewrite drop_ge by (rewrite junk_length; lia). simpl. by rewrite app_nil_r, insert_insert_eq.
Qed.

Lemma plus_spec h s t bs cs :
  fresh_heap h -> chunks h !! S (next_chunk h) = None -> repr h s bs -> repr h t cs ->
  lenZ (bs ++ cs) < 2 ^ 31 ->
  exists b, (next_chunk h <= b)%nat /\
    str_plus junk h s t = Ok (mkHeap (<[b := bs ++ cs]> (chunks h)) (S b),
                              mkStr (Some (b, 0)) (lenZ (bs ++ cs)) true).
Proof.
  intros Hf Hf' Hs Ht Hl. unfold str_plus. rewrite (copy_spec _ _ _ Hf Hs). simpl.
  destruct (decide (cs = [])) as [->|Hne].
  { exists (next_chunk h). split; [done|]. rewrite app_nil_r. unfold str_append.
    by destruct Ht as (-> & _). }
  exists (S (next_chunk h)). split; [lia|].
  assert (repr (push h bs) (fresh_str h (lenZ bs)) bs) as Hn.
  { split; [done|]. split; [by destruct Hs as (_ & ? & _)|]. left. exists (next_chunk h), bs.
    split_and!; [done|apply lookup_insert_eq|apply firstn_all]. }
  assert (repr (push h bs) t cs) as Ht'.
  { destruct Ht as (? & ? & [(b & m & Ho & Hb & Hm)|Hz]); split; try done; split; try done; [|by right].
    left. exists b, m. split_and!; [done| |done]. simpl. rewrite lookup_insert_ne; [done|].
    intros <-. unfold fresh_heap in Hf. congruence. }
  assert (fresh_heap (push h bs)) as Hff
    by (unfold fresh_heap; simpl; rewrite lookup_insert_ne by lia; done).
  rewrite (append_spec _ _ _ _ _ Hff Hn Ht' Hne Hl).
  unfold push, release, fresh_str. simpl. by rewrite delete_insert_id.
Qed.
End Specs.

Lemma decimal_length fuel n : (length (decimal fuel n) <= fuel)%nat.
Proof.
  revert n. induction fuel as [|fuel IH]; intros n; simpl; [done|].
  destruct (n <? 10); simpl; [lia|]. rewrite length_app. simpl. specialize (IH (n / 10)). lia.
Qed.

Lemma print_int_length n : (length (print_int n) <= 11)%nat.
Proof.
  unfold print_int. destruct (n <? 0).
  - cbn [length]. pose proof (decimal_length 10 (- n)). lia.
  - pose proof (decimal_length 10 n). lia.
Qed.

(** A string that owns nothing of use is replaced by a fresh block. *)
Definition released (st : store) (v : nat) : gmap nat (list Z) :=
  match vars st !! v with
  | Some s => chunks (release (mem st) s)
  | None => chunks (mem st)
  end.

Lemma released_other st m v w t b :
  good st m -> v <> w -> vars st !! w = Some t -> owns t b ->
  released st v !! b = chunks (mem st) !! b.
Proof.
  intros G Hne Hw Ho. unfold released. destruct (vars st !! v) as [s|] eqn:Hv; [|done].
  unfold release. destruct (allocated s) eqn:Ha; [|done]. destruct (data s) as [[c off]|] eqn:Hd; [|done].
  simpl. apply lookup_delete_ne. intros E.
  destruct (good_dom _ _ G v) as [Hm _]. destruct Hm as [bs Hm]; [by rewrite Hv|].
  destruct (good_repr _ _ G v s bs Hv Hm) as (_ & _ & [(c' & ? & [? Hc] & _)|(? & _)]); [|congruence].
  apply Hne, (good_owner _ _ G v w s t b Hv Hw); [|done]. split; [done|]. congruence.
Qed.

Lemma released_sub st v b : is_Some (released st v !! b) -> is_Some (chunks (mem st) !! b).
Proof.
  unfold released, release. destruct (vars st !! v) as [s|]; [|done].
  destruct (allocated s); [|done]. destruct (data s) as [[c off]|]; [|done].
  simpl. intros [x [_ Hx]%lookup_delete_Some]. by exists x.
Qed.

(** What [v] owned is gone once it is released. *)
Lemma released_own st v s b : vars st !! v = Some s -> owns s b -> released st v !! b = None.
Proof.
  intros Hv [Ha Hd]. unfold released, release. rewrite Hv, Ha, Hd. apply lookup_delete_eq.
Qed.

Lemma good_fresh st m : good st m -> forall b, (next_chunk (mem st) <= b)%nat -> chunks (mem st) !! b = None.
Proof.
  intros G b Hb. destruct (chunks (mem st) !! b) eqn:E; [|done].
  destruct (good_chunks _ _ G b) as [? _]; [by rewrite E|lia].
Qed.

(** [v] is given a block of its own that starts with [bs]; what it owned is
    released. *)
Lemma good_set st m v b mm bs :
  good st m -> (next_chunk (mem st) <= b)%nat -> take (length bs) mm = bs -> lenZ bs < 2 ^ 31 ->
  good (mkStore (mkHeap (<[b := mm]> (released st v)) (S b))
          (<[v := mkStr (Some (b, 0)) (lenZ bs) true]> (vars st))) (<[v := bs]> m).
Proof.
  intros G Hb Hm Hl. pose proof (good_fresh _ _ G b Hb) as Hfr.
  assert (forall w s c, vars st !! w = Some s -> owns s c -> (c < b)%nat) as Hold.
  { intros w s c Hw Ho. destruct (proj1 (good_dom _ _ G w)) as [x Hx]; [by rewrite Hw|].
    destruct (good_repr _ _ G w s x Hw Hx) as (_ & _ & [(c' & ? & [_ Hc] & Hin & _)|(? & _)]).
    - destruct Ho as [_ Ho]. assert (c' = c) as -> by congruence.
      destruct (good_chunks _ _ G c) as [? _]; [by rewrite Hin|lia].
    - destruct Ho. congruence. }
  split; simpl.
  - intros w. destruct (decide (w = v)) as [->|Hw]; [by rewrite !lookup_insert_eq|].
    rewrite !lookup_insert_ne by done. apply (good_dom _ _ G).
  - intros w s x. destruct (decide (w = v)) as [->|Hw].
    { rewrite !lookup_insert_eq. intros [= <-] [= <-]. split; [done|]. split; [done|].
      left. exists b, mm. split_and!; [done|apply lookup_insert_eq|done]. }
    rewrite !lookup_insert_ne by done. intros Hs Hx.
    destruct (good_repr _ _ G w s x Hs Hx) as (? & ? & [(c & y & Ho & Hc & ?)|?]).
    + split_and!; [done..|]. left. exists c, y. split_and!; [done| |done]. simpl.
      rewrite lookup_insert_ne by (specialize (Hold _ _ _ Hs Ho); lia).
      by rewrite (released_other _ _ v w s c G).
    + split_and!; [done..|]. by right.
  - intros w w' s t c.
    destruct (decide (w = v)) as [->|Hw], (decide (w' = v)) as [->|Hw'];
      rewrite ?lookup_insert_eq, ?lookup_insert_ne by done; [done|..].
    + intros [= <-] Ht [_ [= <-]] Ho. specialize (Hold _ _ _ Ht Ho). lia.
    + intros Ht [= <-] Ho [_ [= <-]]. specialize (Hold _ _ _ Ht Ho). lia.
    + apply (good_owner _ _ G).
  - intros c. destruct (decide (c = b)) as [->|Hc].
    { intros _. split; [lia|]. exists v, (mkStr (Some (b, 0)) (lenZ bs) true).
      by rewrite lookup_insert_eq. }
    rewrite lookup_insert_ne by done. intros Hin.
    destruct (good_chunks _ _ G c (released_sub _ _ _ Hin)) as (? & w & s & Hs & Ho).
    split; [lia|]. exists w, s. split; [|done].
    rewrite lookup_insert_ne; [done|]. intros ->.
    rewrite (released_own _ _ _ _ Hs Ho) in Hin. by destruct Hin.
Qed.

(** A variable is destroyed. *)
Lemma good_delete st m v :
  good st m ->
  good (mkStore (mkHeap (released st v) (next_chunk (mem st))) (delete v (vars st))) (delete v m).
Proof.
  intros G. split; simpl.
  - intros w. destruct (decide (w = v)) as [->|Hw]; [by rewrite !lookup_delete_eq|].
    rewrite !lookup_delete_ne by done. apply (good_dom _ _ G).
  - intros w s x [Hw Hs]%lookup_delete_Some [_ Hx]%lookup_delete_Some.
    destruct (good_repr _ _ G w s x Hs Hx) as (? & ? & [(c & y & Ho & Hc & ?)|?]); split_and!; try done.
    + left. exists c, y. split_and!; [done| |done]. simpl. by rewrite (released_other _ _ v w s c G).
    + by right.
  - intros w w' s t c [_ Hs]%lookup_delete_Some [_ Ht]%lookup_delete_Some.
    by apply (good_owner _ _ G).
  - intros c Hin. destruct (good_chunks _ _ G c (released_sub _ _ _ Hin)) as (? & w & s & Hs & Ho).
    split; [done|]. exists w, s. split; [|done]. rewrite lookup_delete_ne; [done|]. intros ->.
    rewrite (released_own _ _ _ _ Hs Ho) in Hin. by destruct Hin.
Qed.

(** A variable that owns nothing is constructed. *)
Lemma good_default st m v :
  good st m -> vars st !! v = None ->
  good (mkStore (mem st) (<[v := str_empty]> (vars st))) (<[v := []]> m).
Proof.
  intros G Hv. split; simpl.
  - intros w. destruct (decide (w = v)) as [->|Hw]; [by rewrite !lookup_insert_eq|].
    rewrite !lookup_insert_ne by done. apply (good_dom _ _ G).
  - intros w s x. destruct (decide (w = v)) as [->|Hw].
    { rewrite !lookup_insert_eq. intros [= <-] [= <-]. split_and!; [done..|]. by right. }
    rewrite !lookup_insert_ne by done. apply (good_repr _ _ G).
  - intros w w' s t c.
    destruct (decide (w = v)) as [->|Hw], (decide (w' = v)) as [->|Hw'];
      rewrite ?lookup_insert_eq, ?lookup_insert_ne by done; [done|..].
    + by intros [= <-] _ [? _].
    + by intros _ [= <-] _ [? _].
    + apply (good_owner _ _ G).
  - intros c Hin. destruct (good_chunks _ _ G c Hin) as (? & w & s & Hs & Ho).
    split; [done|]. exists w, s. split; [|done]. rewrite lookup_insert_ne; [done|]. congruence.
Qed.

(** The bytes of [v] are changed in place. *)
Lemma good_write st m v s b mm bs :
  good st m -> vars st !! v = Some s -> owns s b -> is_Some (chunks (mem st) !! b) ->
  len s = lenZ bs -> lenZ bs < 2 ^ 31 -> take (length bs) mm = bs ->
  good (mkStore (mkHeap (<[b := mm]> (chunks (mem st))) (next_chunk (mem st))) (vars st)) (<[v := bs]> m).
Proof.
  intros G Hv Ho Hb Hlen Hl Ht. split; simpl.
  - intros w. destruct (decide (w = v)) as [->|Hw]; [rewrite lookup_insert_eq, Hv; done|].
    rewrite lookup_insert_ne by done. apply (good_dom _ _ G).
  - intros w t x Hw. destruct (decide (w = v)) as [->|Hne].
    { rewrite lookup_insert_eq. intros [= <-]. assert (t = s) as -> by congruence.
      split_and!; [done..|]. left. exists b, mm. split_and!; [done|apply lookup_insert_eq|done]. }
    rewrite lookup_insert_ne by done. intros Hx.
    destruct (good_repr _ _ G w t x Hw Hx) as (? & ? & [(c & y & Hoc & Hc & ?)|?]); split_and!; try done.
    + left. exists c, y. split_and!; [done| |done]. simpl. rewrite lookup_insert_ne; [done|].
      intros <-. by apply Hne, (good_owner _ _ G w v t s b).
    + by right.
  - apply (good_owner _ _ G).
  - intros c Hin. apply (good_chunks _ _ G c). destruct (decide (c = b)) as [->|]; [done|].
    by rewrite lookup_insert_ne in Hin.
Qed.

Section Simulation.
Variable junk : nat -> Z -> Z.

Lemma good_var st m v bs :
  good st m -> m !! v = Some bs -> exists s, vars st !! v = Some s /\ repr (mem st) s bs.
Proof.
  intros G Hm. destruct (proj2 (good_dom _ _ G v)) as [s Hs]; [by rewrite Hm|].
  exists s. split; [done|]. by apply (good_repr _ _ G v).
Qed.

Lemma good_absent st m v : good st m -> absent m v = true -> vars st !! v = None.
Proof.
  unfold absent. intros G Hm. destruct (m !! v) eqn:E; [done|].
  destruct (vars st !! v) as [s|] eqn:Hv; [|done].
  destruct (proj1 (good_dom _ _ G v)) as [? ?]; [by rewrite Hv|congruence].
Qed.

Lemma absent_None {A} (m : gmap nat A) v : m !! v = None -> absent m v = true.
Proof. unfold absent. by intros ->. Qed.

(** Storing a fresh block in a new and in an existing variable. *)
Lemma construct_good st m v r b bs :
  good st m -> vars st !! v = None -> (next_chunk (mem st) <= b)%nat -> lenZ bs < 2 ^ 31 ->
  r = Ok (mkHeap (<[b := bs]> (chunks (mem st))) (S b), mkStr (Some (b, 0)) (lenZ bs) true) ->
  exists st', construct_var st v r = Ok st' /\ good st' (<[v := bs]> m).
Proof.
  intros G Hv Hb Hl ->. unfold construct_var. rewrite (absent_None _ _ Hv). simpl.
  eexists. split; [done|].
  pose proof (good_set st m v b bs bs G Hb (firstn_all _) Hl) as H.
  unfold released in H. by rewrite Hv in H.
Qed.

Lemma update_good st m v s r mm bs :
  good st m -> vars st !! v = Some s -> lenZ bs < 2 ^ 31 -> take (length bs) mm = bs ->
  r = Ok (push (release (mem st) s) mm, fresh_str (mem st) (lenZ bs)) ->
  exists st', update_var st v r = Ok st' /\ good st' (<[v := bs]> m).
Proof.
  intros G Hv Hl Ht ->. unfold update_var. simpl. eexists. split; [done|].
  pose proof (good_set st m v (next_chunk (mem st)) mm bs G ltac:(lia) Ht Hl) as H.
  unfold released in H. rewrite Hv in H. unfold push, fresh_str.
  replace (next_chunk (release (mem st) s)) with (next_chunk (mem st)); [exact H|].
  unfold release. by destruct (allocated s), (data s) as [[]|].
Qed.

Lemma from_number_spec h s bs num :
  fresh_heap h -> repr h s bs ->
  exists mm, take (length (print_int num)) mm = print_int num /\
    str_from_number junk h s num = Ok (push (release h s) mm, fresh_str h (lenZ (print_int num))).
Proof.
  intros Hf Hr. pose proof (print_int_length num).
  assert (str_delete h s = Ok (release h s) /\ next_chunk (release h s) = next_chunk h) as [Hd Hn].
  { destruct Hr as (_ & _ & [(b & mb & [Ha Hd] & Hb & _)|(Ha & Hd & _)]);
      unfold str_delete, release; rewrite Ha, ?Hd; [|done]. simpl. by rewrite Hb. }
  unfold str_from_number. rewrite Hd. simpl. rewrite lookup_insert_eq.
  rewrite write_at_Some by (rewrite ?length_app, ?junk_length; simpl; lia).
  eexists. split; [|rewrite insert_insert_eq; unfold push, fresh_str; by rewrite Hn].
  simpl. by rewrite <- app_assoc, take_app_length.
Qed.
End Simulation.

Section Refinement.
Variable junk : nat -> Z -> Z.

Lemma fits_Some bs r : fits bs = Some r -> r = bs /\ lenZ bs < 2 ^ 31.
Proof. unfold fits. destruct (Z.ltb_spec (lenZ bs) (2 ^ 31)); [|done]. by intros [= <-]. Qed.

Lemma append_good st m v w a b r :
  good st m -> m !! v = Some a -> m !! w = Some b -> fits (a ++ b) = Some r ->
  exists st', exec_op junk st (OAppend v w) = Ok st' /\ good st' (<[v := r]> m).
Proof.
  intros G Ha Hb [-> Hl]%fits_Some.
  destruct (good_var _ _ _ _ G Ha) as (s & Hs & Hrs), (good_var _ _ _ _ G Hb) as (t & Ht & Hrt).
  simpl. unfold var. rewrite Hs, Ht. simpl. destruct (decide (b = [])) as [->|Hne].
  { exists st. unfold str_append. rewrite (proj1 Hrt). simpl. unfold update_var. simpl.
    rewrite app_nil_r, !insert_id by done. by destruct st. }
  apply (update_good st m v s _ (a ++ b)); [done..|apply firstn_all|].
  apply append_spec; try done. by apply (good_fresh _ _ G).
Qed.

Lemma assign_good st m v w a b :
  good st m -> m !! v = Some a -> m !! w = Some b ->
  exists st', exec_op junk st (OAssign v w) = Ok st' /\ good st' (<[v := b]> m).
Proof.
  intros G Ha Hb.
  destruct (good_var _ _ _ _ G Ha) as (s & Hs & Hrs), (good_var _ _ _ _ G Hb) as (t & Ht & Hrt).
  simpl. unfold var. rewrite Hs, Ht. simpl. destruct (Nat.eqb_spec v w) as [<-|Hne].
  { exists st. unfold update_var. simpl. rewrite !insert_id by congruence. by destruct st. }
  apply (update_good st m v s _ b); [done..|by destruct Hrt as (_ & ? & _)|apply firstn_all|].
  eapply assign_spec; try done. by apply (good_fresh _ _ G).
Qed.

Lemma lower_good st m v a :
  good st m -> m !! v = Some a ->
  exists st', exec_op junk st (OLower v) = Ok st' /\ good st' (<[v := List.map tolower a]> m).
Proof.
  intros G Ha. destruct (good_var _ _ _ _ G Ha) as (s & Hs & Hr). pose proof Hr as (Hlen & Hl & _).
  simpl. unfold var. rewrite Hs. simpl. unfold str_to_lower. destruct (Z.leb_spec (len s) 0).
  { destruct a; [|simpl in *; lia]. exists st. simpl. rewrite insert_id by done. by destruct st. }
  destruct (repr_load _ _ _ Hr) as (b & mm & Ho & Hb & Hld & Hle); [intros ->; simpl in *; lia|].
  pose proof Ho as [_ Hd]. rewrite Hd, Hlen, Hld. simpl. rewrite Hb.
  rewrite write_at_Some by (rewrite ?List.length_map; lia). simpl. eexists. split; [done|].
  apply (good_write _ _ _ s); try done; rewrite ?List.length_map; try done.
  by rewrite <- (List.length_map tolower a), take_app_length.
Qed.

(** Each operation on the memory does what it does on the values. *)
Lemma exec_op_good st m o m' :
  good st m -> spec_op m o = Some m' -> exists st', exec_op junk st o = Ok st' /\ good st' m'.
Proof.
  intros G Hs. pose proof (good_fresh _ _ G) as Hf. destruct o as [v|v bs|v w|v w1 w2|v w|v w|v n|v|v]; simpl in Hs.
  - destruct (absent m v) eqn:Hv; [|done]. injection Hs as <-. pose proof (good_absent _ _ _ G Hv) as Hn.
    simpl. unfold construct_var. rewrite (absent_None _ _ Hn). eexists. split; [done|].
    by apply good_default.
  - destruct (absent m v) eqn:Hv; [|done]. destruct (fits bs) as [r|] eqn:Hfit; [|done]. injection Hs as <-.
    apply fits_Some in Hfit as [-> Hl].
    apply (construct_good _ _ _ _ (next_chunk (mem st))); [done|by apply (good_absent _ m)|done..|].
    by apply bytes_spec.
  - destruct (m !! w) as [a|] eqn:Ha; [|done]. destruct (absent m v) eqn:Hv; [|done]. injection Hs as <-.
    destruct (good_var _ _ _ _ G Ha) as (s & Hsw & Hr). simpl. unfold var. rewrite Hsw. simpl.
    apply (construct_good _ _ _ _ (next_chunk (mem st)));
      [done|by apply (good_absent _ m)|done|by destruct Hr as (_ & ? & _)|].
    apply copy_spec; [by apply Hf|done].
  - destruct (m !! w1) as [a|] eqn:Ha; [|done]. destruct (m !! w2) as [b|] eqn:Hb; [|done].
    destruct (absent m v) eqn:Hv; [|done]. destruct (fits (a ++ b)) as [r|] eqn:Hfit; [|done].
    injection Hs as <-. apply fits_Some in Hfit as [-> Hl].
    destruct (good_var _ _ _ _ G Ha) as (s & Hs1 & Hr1), (good_var _ _ _ _ G Hb) as (t & Hs2 & Hr2).
    simpl. unfold var. rewrite Hs1, Hs2. simpl.
    destruct (plus_spec junk (mem st) s t a b) as (c & Hc & Hp); try done; [apply Hf; lia..|].
    by apply (construct_good _ _ _ _ c); [done|apply (good_absent _ m)|..].
  - destruct (m !! v) as [a|] eqn:Ha; [|done]. destruct (m !! w) as [b|] eqn:Hb; [|done].
    destruct (fits (a ++ b)) as [r|] eqn:Hfit; [|done]. injection Hs as <-. by apply (append_good _ _ _ _ a b).
  - destruct (m !! v) as [a|] eqn:Ha; [|done]. destruct (m !! w) as [b|] eqn:Hb; [|done].
    injection Hs as <-. by apply (assign_good _ _ _ _ a b).
  - destruct (m !! v) as [a|] eqn:Ha; [|done]. destruct (in_int n); [|done]. injection Hs as <-.
    destruct (good_var _ _ _ _ G Ha) as (s & Hv & Hr).
    destruct (from_number_spec junk (mem st) s a n) as (mm & Ht & E); [by apply Hf|done|].
    simpl. unfold var. rewrite Hv. simpl. apply (update_good _ _ _ s _ mm); try done.
    pose proof (print_int_length n). lia.
  - destruct (m !! v) as [a|] eqn:Ha; [|done]. injection Hs as <-. by apply lower_good.
  - destruct (m !! v) as [a|] eqn:Ha; [|done]. injection Hs as <-.
    destruct (good_var _ _ _ _ G Ha) as (s & Hv & Hr).
    pose proof (good_delete st m v G) as Hg. unfold released in Hg. rewrite Hv in Hg.
    simpl. unfold var. rewrite Hv. simpl.
    destruct Hr as (_ & _ & [(b & mb & [Hal Hd] & Hb & _)|(Hal & Hd & _)]);
      unfold str_delete, release in *; rewrite Hal, ?Hd in *; simpl; rewrite ?Hb; simpl;
      eexists; (split; [done|]); [done|by destruct (mem st)].
Qed.

Lemma exec_ops_good os st m m' :
  good st m -> spec_ops m os = Some m' -> exists st', exec_ops junk st os = Ok st' /\ good st' m'.
Proof.
  revert st m. induction os as [|o os IH]; intros st m G; simpl; [intros [= <-]; eauto|].
  destruct (spec_op m o) as [m1|] eqn:E; [|done]. intros Hs.
  destruct (exec_op_good _ _ _ _ G E) as (st1 & -> & G1). simpl. eauto.
Qed.

End Refinement.

(** ** Numbers *)

Lemma strntol_loop_app x a b y :
  forallb isdigit a = true -> strntol_loop x a = Some y -> strntol_loop x (a ++ b) = strntol_loop y b.
Proof.
  revert x. induction a as [|c a IH]; intros x Hd; simpl; [by intros [= <-]|].
  simpl in Hd. apply andb_prop in Hd as [Hc Hd]. rewrite Hc. destruct (_ <? _); [|done]. by apply IH.
Qed.

Lemma isdigit_digit n : 0 <= n < 10 -> isdigit (48 + n) = true.
Proof. intros. unfold isdigit. rewrite !(proj2 (Z.leb_le _ _)) by lia. done. Qed.

Lemma strntol_decimal fuel n :
  0 <= n < 10 ^ Z.of_nat fuel -> n < 2 ^ 31 -> (0 < fuel)%nat ->
  forallb isdigit (decimal fuel n) = true /\ strntol_loop 0 (decimal fuel n) = Some n.
Proof.
  revert n. induction fuel as [|fuel IH]; intros n Hn Hb Hf; [lia|].
  rewrite Nat2Z.inj_succ, Z.pow_succ_r in Hn by lia. cbn [decimal].
  destruct (Z.ltb_spec n 10).
  { cbn [forallb strntol_loop]. rewrite isdigit_digit by lia. split; [done|].
    replace (0 * 10 + (48 + n - 48)) with n by lia. by rewrite (proj2 (Z.ltb_lt n (2 ^ 31))). }
  destruct (decide (fuel = 0%nat)) as [->|]; [simpl in Hn; lia|].
  destruct (IH (n / 10)) as [Hd Hv]; [zdm|zdm|lia|].
  pose proof (Z.mod_pos_bound n 10 ltac:(lia)). split.
  - rewrite forallb_app, Hd. cbn [forallb]. by rewrite isdigit_digit.
  - rewrite (strntol_loop_app _ _ _ _ Hd Hv). cbn [strntol_loop]. rewrite isdigit_digit by lia.
    replace (n / 10 * 10 + (48 + n mod 10 - 48)) with n by zdm.
    by rewrite (proj2 (Z.ltb_lt n (2 ^ 31))).
Qed.

Lemma decimal_head fuel n : 0 <= n -> (0 < fuel)%nat -> exists c l, decimal fuel n = c :: l.
Proof.
  destruct fuel as [|fuel]; [lia|]. intros _ _. simpl. destruct (n <? 10); [eauto|].
  destruct (decimal fuel (n / 10)); simpl; eauto.
Qed.

Lemma strntol_print n : - 2 ^ 31 < n < 2 ^ 31 -> strntol (print_int n) = Some n.
Proof.
  intros Hn. unfold print_int. destruct (Z.ltb_spec n 0).
  - destruct (strntol_decimal 10 (- n)) as [_ Hv]; [lia..|]. unfold strntol.
    rewrite Z.eqb_refl, Hv. f_equal. lia.
  - destruct (strntol_decimal 10 n) as [Hd Hv]; [lia..|].
    destruct (decimal_head 10 n) as (c & l & E); [lia..|]. rewrite E in *. unfold strntol.
    simpl in Hd. apply andb_prop in Hd as [Hc _]. unfold isdigit in Hc. destruct (Z.eqb_spec c 45); [|done].
    subst. done.
Qed.

(** A number written by [from_number] is read back by [strntol], for every
    32-bit integer but the least one, on which the parser's accumulator
    overflows. *)
Theorem strntol_from_number n :
  - 2 ^ 31 <= n < 2 ^ 31 -> strntol (print_int n) = if n =? - 2 ^ 31 then None else Some n.
Proof.
  intros Hn. destruct (Z.eqb_spec n (- 2 ^ 31)) as [->|]; [by vm_compute|].
  apply strntol_print. lia.
Qed.

(** ** Witnesses *)


Lemma strntol_from_number_witness : strntol (print_int (-604800)) = Some (-604800).
Proof. apply (strntol_from_number (-604800)). lia. Defined.
