(* ===== verification/Session.v ===== *)
(** * Sessions

    The session store of src/webapp/src/Session.cpp: [DataStore], [Session] and
    [Sessions].  The database is any one that keeps the contract of leveldb
    (class [LevelDB]): entries in the order of their keys, writes that change one
    entry, iterators over the state at their creation.  Strings are lists of
    bytes, which [WebappStr.strings_are_values] justifies. *)

From Stdlib Require Import ZArith Lia.
From stdpp Require Import base list gmap numbers option sorting.
From S2P Require Import Prelude WebappStr.
Open Scope Z_scope.
Open Scope webapp_scope.

(** ** Keys: [leveldb::Slice] *)

(** [memcmp] over the length of the shorter operand. *)
Fixpoint memcmp (a b : list Z) : comparison :=
  match a, b with
  | x :: a, y :: b => match x ?= y with Eq => memcmp a b | c => c end
  | _, _ => Eq
  end.

Definition Slice_compare (a b : list Z) : comparison :=
  match memcmp a b with Eq => (lenZ a ?= lenZ b) | c => c end.

Definition starts_with (k x : list Z) : bool :=
  (lenZ x <=? lenZ k) && match memcmp (take (length x) k) x with Eq => true | _ => false end.

Definition key_lt (a b : list Z) : Prop := Slice_compare a b = Lt.

(** ** The database *)

Definition entry : Type := list Z * list Z.

(** What leveldb promises.  [entries d] is what an iterator created now sees, in
    the order of the keys. *)
Class LevelDB (D : Type) := {
  entries : D -> list entry;
  db_put : D -> list Z -> list Z -> D;
  db_delete : D -> list Z -> D;
  entries_sorted : forall d, StronglySorted key_lt (entries d).*1;
  entries_put : forall d k v e,
    e ∈ entries (db_put d k v) <-> e = (k, v) \/ (e.1 <> k /\ e ∈ entries d);
  entries_delete : forall d k e, e ∈ entries (db_delete d k) <-> e.1 <> k /\ e ∈ entries d }.

Section Sessions.
Context {D : Type} `{!LevelDB D}.

(** [Seek]: the entries from the first key that is not below [key]. *)
Fixpoint seek (key : list Z) (es : list entry) : list entry :=
  match es with
  | [] => []
  | e :: rest => match Slice_compare e.1 key with Lt => seek key rest | _ => es end
  end.

(** ** [DataStore] *)

(** The loop of [DataStore::get]. *)
Fixpoint get_loop (key : list Z) (val : option (list Z)) (es : list entry) : option (list Z) :=
  match es with
  | [] => val
  | e :: es => match Slice_compare e.1 key with Gt => val | _ => get_loop key (Some e.2) es end
  end.

(** The value, and what is added to the strings the store will free; without a
    database or a value, the shared empty string. *)
Definition DataStore_get (db : option D) (key : list Z) : list Z * list (list Z) :=
  match db with
  | None => ([], [])
  | Some d =>
      match get_loop key None (seek key (entries d)) with
      | None => ([], [])
      | Some v => (v, [v])
      end
  end.

Definition DataStore_put (db : option D) (key value : list Z) : option D :=
  match db with None => None | Some d => Some (db_put d key value) end.

(** The loop of [DataStore::wipe]: the iterator does not see the deletions. *)
Fixpoint wipe_loop (key : list Z) (d : D) (es : list entry) : D :=
  match es with
  | [] => d
  | e :: es => if starts_with e.1 key then wipe_loop key (db_delete d e.1) es else d
  end.

Definition DataStore_wipe (db : option D) (key : list Z) : option D :=
  match db with None => None | Some d => Some (wipe_loop key d (seek key (entries d))) end.

(** ** [Session] *)

Definition SESSIONID_SIZE : Z := 32.
Definition SESSION_TIME_DEFAULT : Z := 60 * 60 * 24 * 7.
(** "s_", "sessionid=" and "session_exp". *)
Definition s_ : list Z := [115; 95].
Definition SESSIONID_STR_eq : list Z := [115; 101; 115; 115; 105; 111; 110; 105; 100; 61].
Definition session_exp_key : list Z := [115; 101; 115; 115; 105; 111; 110; 95; 101; 120; 112].

(** The time of the call, the value of [epoch], and [mktime] of [epoch_tm] with
    [n] more seconds. *)
Variables (current_time epoch : Z) (mktime : Z -> Z).

Definition Session_new (db : option D) (sid : list Z) : option D :=
  if 0 <? lenZ sid
  then DataStore_put db (s_ ++ sid) (print_int (i32 (current_time - epoch)))
  else db.

Definition Session_delete (db : option D) (id : list Z) : option D :=
  if 0 <? lenZ id then DataStore_wipe db (s_ ++ id) else db.

Definition Session_get (db : option D) (id key : list Z) : list Z :=
  (DataStore_get db ((s_ ++ id) ++ key)).1.

Definition Session_put (db : option D) (id key value : list Z) : option D :=
  DataStore_put db ((s_ ++ id) ++ key) value.

(** ** [Sessions] *)

(** [None]: the stored number overflows. *)
Definition session_expiry (db : option D) : option (Z * option D) :=
  let session_exp := (DataStore_get db session_exp_key).1 in
  if lenZ session_exp =? 0
  then Some (SESSION_TIME_DEFAULT,
             DataStore_put db session_exp_key (print_int SESSION_TIME_DEFAULT))
  else let* n := strntol session_exp in Some (n, db).

(** The hexadecimal digits of the first half of the digest. *)
Definition hex_lookup (n : Z) : Z := if n <? 10 then 48 + n else 55 + n.
Definition session_id_of (digest : list Z) : list Z :=
  concat (List.map (fun b => [hex_lookup (Z.shiftr b 4); hex_lookup (Z.land b 15)])
    (take (Z.to_nat (SESSIONID_SIZE / 2)) digest)).

(** [sha256] is the digest of OpenSSL, [r] the four bytes of the random number. *)
Definition new_session (sha256 : list Z -> list Z) (db : option D) (uid r : list Z)
  : list Z * option D :=
  let id := session_id_of (sha256 (uid ++ r)) in (id, Session_new db id).

(** The loop of [get_session]: the session if one is made, and the database. *)
Fixpoint get_session_loop (id : list Z) (db : option D) (session : option (list Z)) (es : list entry)
  : option (option (list Z) * option D) :=
  match es with
  | [] => Some (session, db)
  | e :: es =>
      match Slice_compare e.1 (s_ ++ id) with
      | Gt => Some (session, db)
      | _ =>
          let* n := strntol e.2 in
          let time_difference := current_time - mktime n in
          if time_difference <? 0 then Some (None, db)
          else
            let* x := session_expiry db in
            if time_difference <? x.1
            then get_session_loop id (Session_new x.2 id) (Some id) es
            else get_session_loop id (option_map (fun d => db_delete d e.1) x.2) session es
      end
  end.

Definition get_session (d : D) (id : list Z) : option (option (list Z) * option D) :=
  get_session_loop id (Some d) None (seek (s_ ++ id) (entries d)).

(** The loop of [CleanupSessions]. *)
Fixpoint cleanup_loop (db : option D) (es : list entry) : option (option D) :=
  match es with
  | [] => Some db
  | e :: es =>
      if negb (starts_with e.1 s_) || negb (lenZ e.1 =? 2 + SESSIONID_SIZE) then cleanup_loop db es
      else
        let* n := strntol e.2 in
        let time_difference := current_time - mktime n in
        if time_difference <? 0 then cleanup_loop (DataStore_wipe db e.1) es
        else
          let* x := session_expiry db in
          if x.1 <? time_difference then cleanup_loop (DataStore_wipe x.2 e.1) es
          else cleanup_loop x.2 es
  end.

Definition CleanupSessions (db : option D) : option (option D) :=
  match db with None => Some None | Some d => cleanup_loop db (entries d) end.

Definition get_raw_session (db : option D) : option D := Session_new db [].
End Sessions.

(** ** The cookie *)

(** Where the loop of [get_cookie_session] finds the session id in the bytes at
    and behind [cookies.data], of which [n] are the cookies: the position of the
    name; [first] at the first byte.  A strncmp over 10 bytes. *)
Definition cookie_room : Z := 10 + SESSIONID_SIZE.

Fixpoint find_cookie (fuel : nat) (first : bool) (pos n : Z) (mem : list Z) : option Z :=
  match fuel with
  | O => None
  | S fuel =>
      if n <=? pos then None
      else if n - pos <? cookie_room then None
      else
        let space := match mem !! Z.to_nat pos with Some c => c =? 32 | None => false end in
        if space || first then
          let pos := if space then pos + 1 else pos in
          if strncmp_eq (read_at pos 10 mem) SESSIONID_STR_eq then Some pos
          else find_cookie fuel false (pos + 1) n mem
        else find_cookie fuel false (pos + 1) n mem
  end.

(** The id in the cookies; [mem] is the memory from [cookies.data] on. *)
Definition cookie_session_id (n : Z) (mem : list Z) : option (list Z) :=
  if u64 n <? cookie_room then None
  else let* pos := find_cookie (Z.to_nat n) true 0 n mem in
       Some (read_at (pos + 10) SESSIONID_SIZE mem).

Definition get_cookie_session {D} `{!LevelDB D} (current_time epoch : Z) (mktime : Z -> Z)
    (db : option D) (n : Z) (mem : list Z) : option (option (list Z) * option D) :=
  match db with
  | None => Some (None, db)
  | Some d =>
      match cookie_session_id n mem with
      | None => Some (None, db)
      | Some id => get_session current_time epoch mktime d id
      end
  end.

(** ** The order of the keys *)

Lemma Slice_compare_cons x y a b :
  Slice_compare (x :: a) (y :: b) = match x ?= y with Eq => Slice_compare a b | c => c end.
Proof.
  unfold Slice_compare. cbn [memcmp length]. destruct (x ?= y); [|done..]. destruct (memcmp a b); [|done..].
  rewrite !Nat2Z.inj_succ.
  by destruct (Z.compare_spec (lenZ a) (lenZ b)),
    (Z.compare_spec (Z.succ (lenZ a)) (Z.succ (lenZ b))); try lia.
Qed.

Lemma Slice_compare_eq a b : Slice_compare a b = Eq <-> a = b.
Proof.
  revert b. induction a as [|x a IH]; intros [|y b]; try done. rewrite Slice_compare_cons.
  destruct (Z.compare_spec x y) as [->|?|?]; [rewrite IH; split; congruence|split; [done|]..];
    intros [= -> ->]; lia.
Qed.

Lemma Slice_compare_antisym a b : Slice_compare b a = CompOpp (Slice_compare a b).
Proof.
  revert b. induction a as [|x a IH]; intros [|y b]; try done. rewrite !Slice_compare_cons, IH.
  rewrite (Z.compare_antisym x y). by destruct (x ?= y).
Qed.

Lemma key_lt_trans a b c : key_lt a b -> key_lt b c -> key_lt a c.
Proof.
  unfold key_lt. revert b c. induction a as [|x a IH]; intros [|y b] [|z c]; try done.
  rewrite !Slice_compare_cons.
  destruct (Z.compare_spec x y), (Z.compare_spec y z), (Z.compare_spec x z); try done; try lia.
  apply IH.
Qed.

Lemma key_lt_irrefl a : ~ key_lt a a.
Proof. unfold key_lt. by rewrite (proj2 (Slice_compare_eq a a) eq_refl). Qed.

Lemma starts_with_prefix k x : starts_with k x = true <-> x `prefix_of` k.
Proof.
  unfold starts_with. rewrite andb_true_iff, Z.leb_le. split.
  - intros [Hl Hm]. exists (drop (length x) k). rewrite <- (take_drop (length x) k) at 1. f_equal.
    destruct (memcmp _ _) eqn:E; [|done..]. apply Slice_compare_eq. unfold Slice_compare.
    rewrite E, length_take. apply Z.compare_eq_iff. lia.
  - intros [r ->]. rewrite length_app, take_app_length. split; [lia|].
    pose proof (proj2 (Slice_compare_eq x x) eq_refl) as H. unfold Slice_compare in H.
    by destruct (memcmp x x).
Qed.

Lemma prefix_not_lt k x : x `prefix_of` k -> Slice_compare k x <> Lt.
Proof.
  intros [r ->]. induction x as [|y x IH]; [by destruct r|]. simpl. rewrite Slice_compare_cons, Z.compare_refl.
  done.
Qed.

(** The keys with a prefix follow each other. *)
Lemma prefix_convex p a b :
  Slice_compare a p <> Lt -> key_lt a b -> p `prefix_of` b -> p `prefix_of` a.
Proof.
  unfold key_lt. revert a b. induction p as [|x p IH]; intros a b Ha Hab Hb; [apply prefix_nil|].
  destruct b as [|z b]; [by apply prefix_nil_not in Hb|].
  apply prefix_cons_inv_1 in Hb as Hx. apply prefix_cons_inv_2 in Hb as Hb'. subst z.
  destruct a as [|y a]; [done|]. rewrite Slice_compare_cons in Ha, Hab.
  destruct (Z.compare_spec y x) as [->| |]; [|done..]. apply prefix_cons. eauto.
Qed.

(** ** Looking keys up *)

Fixpoint assoc (k : list Z) (es : list entry) : option (list Z) :=
  match es with
  | [] => None
  | e :: es => if decide (e.1 = k) then Some e.2 else assoc k es
  end.

Abbreviation sorted es := (StronglySorted key_lt (es.*1)).

Lemma sorted_cons (e : entry) es :
  sorted (e :: es) -> sorted es /\ (forall e', e' ∈ es -> key_lt e.1 e'.1).
Proof.
  intros H. apply StronglySorted_inv in H as [Hs Hf]. split; [done|].
  intros e' He. apply (Forall_elem _ _ _ Hf), list_elem_of_fmap. eauto.
Qed.

Lemma assoc_Some k v es : sorted es -> assoc k es = Some v <-> (k, v) ∈ es.
Proof.
  induction es as [|e es IH]; intros Hs; simpl; [by rewrite elem_of_nil|].
  apply sorted_cons in Hs as [Hs Hlt]. rewrite elem_of_cons. case_decide as E.
  - subst k. split; [intros [= <-]; left; by destruct e|].
    intros [<-|He]; [done|]. destruct (key_lt_irrefl e.1). apply (Hlt _ He).
  - rewrite (IH Hs). split; [auto|]. intros [<-|?]; done.
Qed.

Lemma assoc_ext es es' k k' :
  sorted es -> sorted es' -> (forall v, (k, v) ∈ es <-> (k', v) ∈ es') -> assoc k es = assoc k' es'.
Proof.
  intros Hs Hs' H. apply option_eq. intros v. by rewrite !assoc_Some.
Qed.

Lemma assoc_None k es : (forall v, (k, v) ∉ es) -> assoc k es = None.
Proof.
  induction es as [|e es IH]; intros H; simpl; [done|]. case_decide as E.
  - subst. destruct (H e.2). rewrite <- surjective_pairing. left.
  - apply IH. intros v Hv. apply (H v). by right.
Qed.

Lemma elem_of_seek key es e :
  sorted es -> e ∈ seek key es <-> e ∈ es /\ Slice_compare e.1 key <> Lt.
Proof.
  induction es as [|x es IH]; intros Hs; simpl.
  { split; [by intros ?%not_elem_of_nil|by intros [?%not_elem_of_nil _]]. }
  apply sorted_cons in Hs as [Hs Hlt].
  assert (Slice_compare x.1 key <> Lt -> forall e, e ∈ es -> Slice_compare e.1 key <> Lt) as Hge.
  { intros Hx e' He' Hc. apply Hx. apply (key_lt_trans _ e'.1); [by apply Hlt|done]. }
  destruct (Slice_compare x.1 key) eqn:E.
  2:{ rewrite (IH Hs). split; [intros [? ?]; split; [by right|done]|].
      intros [[->|?]%elem_of_cons ?]; done. }
  all: split; [|by intros [? _]].
  all: intros He; split; [done|]; apply elem_of_cons in He as [->|He]; [by rewrite E|by apply Hge].
Qed.

Lemma seek_sorted key es : sorted es -> sorted (seek key es).
Proof.
  induction es as [|x es IH]; intros Hs; simpl; [done|]. apply sorted_cons in Hs as Hs'.
  destruct (Slice_compare x.1 key); try exact Hs. apply IH, Hs'.
Qed.

(** ** What the operations do to the database *)

Section Store.
Context {D : Type} `{!LevelDB D}.

(** The value stored under a key. *)
Definition stored (db : option D) (k : list Z) : option (list Z) :=
  match db with None => None | Some d => assoc k (entries d) end.

Lemma get_loop_above key val es :
  sorted es -> (forall e, e ∈ es -> key_lt key e.1) -> get_loop key val es = val.
Proof.
  destruct es as [|e es]; [done|]. intros _ H. simpl.
  rewrite Slice_compare_antisym, (H e); [done|left].
Qed.

Lemma get_loop_seek key es : sorted es -> get_loop key None (seek key es) = assoc key es.
Proof.
  induction es as [|e es IH]; intros Hs; simpl; [done|].
  apply sorted_cons in Hs as [Hs Hlt]. destruct (Slice_compare e.1 key) eqn:E.
  - apply Slice_compare_eq in E as Ek. subst key. simpl. rewrite E, decide_True by done.
    by apply get_loop_above.
  - rewrite decide_False by (intros E'; rewrite E' in E; by apply key_lt_irrefl in E). by apply IH.
  - simpl. rewrite E, decide_False.
    2:{ intros E'. by rewrite E', (proj2 (Slice_compare_eq key key) eq_refl) in E. }
    symmetry. apply assoc_None. intros v Hv. specialize (Hlt _ Hv). unfold key_lt in Hlt.
    simpl in Hlt. congruence.
Qed.

Lemma DataStore_get_spec (db : option D) key : (DataStore_get db key).1 = default [] (stored db key).
Proof.
  destruct db as [d|]; [|done]. simpl. rewrite (get_loop_seek _ _ (entries_sorted d)).
  by destruct (assoc key (entries d)).
Qed.

Lemma stored_put (d : D) k v k' :
  stored (DataStore_put (Some d) k v) k' = if decide (k' = k) then Some v else stored (Some d) k'.
Proof.
  simpl. case_decide as E.
  - subst. apply assoc_Some; [apply entries_sorted|]. apply entries_put. by left.
  - apply assoc_ext; [apply entries_sorted..|]. intros w. rewrite entries_put. simpl. naive_solver.
Qed.

Lemma stored_delete (d : D) k k' :
  stored (Some (db_delete d k)) k' = if decide (k' = k) then None else stored (Some d) k'.
Proof.
  simpl. case_decide as E.
  - apply assoc_None. intros v. rewrite entries_delete. simpl. naive_solver.
  - apply assoc_ext; [apply entries_sorted..|]. intros w. rewrite entries_delete. simpl. naive_solver.
Qed.

Lemma elem_of_wipe_loop p es : forall (d : D) e,
  sorted es -> (forall e, e ∈ es -> Slice_compare e.1 p <> Lt) ->
  e ∈ entries (wipe_loop p d es) <-> e ∈ entries d /\ ~ (e.1 ∈ es.*1 /\ p `prefix_of` e.1).
Proof.
  induction es as [|x es IH]; intros d e Hs Hge; simpl.
  { rewrite elem_of_nil. naive_solver. }
  apply sorted_cons in Hs as [Hs Hlt]. destruct (starts_with x.1 p) eqn:E.
  - apply starts_with_prefix in E. rewrite IH; [|done|intros; apply Hge; by right].
    rewrite entries_delete, elem_of_cons. destruct (decide (e.1 = x.1)) as [->|]; naive_solver.
  - split; [|naive_solver]. intros He. split; [done|]. intros [Hin Hp].
    assert (p `prefix_of` x.1) as Hx; [|apply starts_with_prefix in Hx; congruence].
    apply elem_of_cons in Hin as [E1|(e' & E1 & He')%list_elem_of_fmap]; rewrite E1 in Hp; [done|].
    apply (prefix_convex p x.1 e'.1); [apply Hge; left|by apply Hlt|done].
Qed.

(** [wipe] removes the keys with the prefix, and no other. *)
Lemma stored_wipe (db : option D) p k :
  stored (DataStore_wipe db p) k = if decide (p `prefix_of` k) then None else stored db k.
Proof.
  destruct db as [d|]; simpl; [|by case_decide]. pose proof (entries_sorted d) as Hs.
  pose proof (fun e => elem_of_wipe_loop p (seek p (entries d)) d e (seek_sorted p _ Hs)
    (fun e' H => proj2 (proj1 (elem_of_seek p _ e' Hs) H))) as Hw.
  case_decide as E.
  - apply assoc_None. intros v. rewrite Hw. intros [Hin Hn]. apply Hn. split; [|done].
    apply list_elem_of_fmap. exists (k, v). split; [done|].
    apply elem_of_seek; [done|]. split; [done|]. by apply prefix_not_lt.
  - apply assoc_ext; [apply entries_sorted..|]. intros v. rewrite Hw. simpl. naive_solver.
Qed.
End Store.

(** ** Sessions *)

Section Sessions_spec.
Context {D : Type} `{!LevelDB D}.
Implicit Types (d : D) (id k v : list Z).

Lemma session_key_inj a b k k' :
  lenZ a = lenZ b -> (s_ ++ a) ++ k = (s_ ++ b) ++ k' <-> a = b /\ k = k'.
Proof.
  intros Hl. rewrite <- !app_assoc. split; [|by intros [-> ->]].
  intros [= H]. apply app_inj_1 in H; [done|lia].
Qed.

Lemma session_key_prefix a b k : lenZ a = lenZ b -> (s_ ++ a) `prefix_of` ((s_ ++ b) ++ k) <-> a = b.
Proof.
  intros Hl. split; [|intros ->; by exists k]. intros [r Hr]. symmetry.
  by apply (session_key_inj b a k r).
Qed.

Lemma session_exp_not_s_ k : session_exp_key <> s_ ++ k.
Proof. done. Qed.

(** C33: sessions with ids of the same length do not share data: a value put under
    a key of a session is what the session gets for that key, and no other key of
    the session and no other session is changed. *)
Theorem session_isolation d a b k k' v :
  lenZ a = lenZ b ->
  Session_get (Session_put (Some d) a k v) b k'
  = if decide (b = a /\ k' = k) then v else Session_get (Some d) b k'.
Proof.
  intros Hl. unfold Session_get, Session_put. rewrite !DataStore_get_spec, stored_put.
  pose proof (session_key_inj b a k' k ltac:(lia)) as Hk.
  destruct (decide (_ ++ k' = _)) as [E|E], (decide (b = a /\ k' = k)) as [E'|E']; try done; tauto.
Qed.

(** Destroying a [Session] object removes all the data of its session from the
    database, and leaves that of every other session as it was. *)
Theorem session_delete_wipes d a b k :
  lenZ a = lenZ b -> a <> [] ->
  Session_get (Session_delete (Some d) a) b k = if decide (a = b) then [] else Session_get (Some d) b k.
Proof.
  intros Hl Hne. unfold Session_get, Session_delete.
  rewrite (proj2 (Z.ltb_lt 0 (lenZ a))) by (destruct a; [done|simpl; lia]).
  rewrite !DataStore_get_spec, stored_wipe. pose proof (session_key_prefix a b k Hl) as Hp.
  destruct (decide ((_ ++ a) `prefix_of` _)), (decide (a = b)); try done; tauto.
Qed.

(** The seek of [get_session] sees its entry, if any, and then larger keys. *)
Lemma seek_exact key es :
  sorted es ->
  match assoc key es with
  | Some v => exists rest, seek key es = (key, v) :: rest /\ (forall e, e ∈ rest -> key_lt key e.1)
  | None => forall e, e ∈ seek key es -> key_lt key e.1
  end.
Proof.
  induction es as [|e es IH]; intros Hs; simpl; [by intros e ?%not_elem_of_nil|].
  apply sorted_cons in Hs as [Hs Hlt]. case_decide as E.
  - subst key. rewrite (proj2 (Slice_compare_eq e.1 e.1) eq_refl). exists es.
    by rewrite <- surjective_pairing.
  - destruct (Slice_compare e.1 key) eqn:Ec; [by apply Slice_compare_eq in Ec|by apply IH|].
    assert (key_lt key e.1) as Hk by (unfold key_lt; by rewrite Slice_compare_antisym, Ec).
    rewrite assoc_None.
    + intros e' [->|He']%elem_of_cons; [done|]. by apply (key_lt_trans _ e.1); [|apply Hlt].
    + intros v Hv. apply (key_lt_irrefl key), (key_lt_trans _ e.1); [done|]. apply (Hlt _ Hv).
Qed.

Variables (current_time epoch : Z) (mktime : Z -> Z).

Lemma get_session_loop_above id db session es :
  (forall e, e ∈ es -> key_lt (s_ ++ id) e.1) ->
  get_session_loop current_time epoch mktime id db session es = Some (session, db).
Proof.
  destruct es as [|e es]; [done|]. intros H. cbn [get_session_loop].
  by rewrite Slice_compare_antisym, (H e) by left.
Qed.

(** [get_session] by the stored time of the session. *)
Lemma get_session_cases d id :
  get_session current_time epoch mktime d id
  = match stored (Some d) (s_ ++ id) with
    | None => Some (None, Some d)
    | Some t =>
        let* n := strntol t in
        if current_time - mktime n <? 0 then Some (None, Some d)
        else
          let* x := session_expiry (Some d) in
          if current_time - mktime n <? x.1 then Some (Some id, Session_new current_time epoch x.2 id)
          else Some (None, option_map (fun d => db_delete d (s_ ++ id)) x.2)
    end.
Proof.
  unfold get_session, stored. pose proof (seek_exact (s_ ++ id) (entries d) (entries_sorted d)) as H.
  destruct (assoc _ _) as [t|]; [|by apply get_session_loop_above].
  destruct H as (rest & -> & Hr). cbn [get_session_loop fst snd].
  rewrite (proj2 (Slice_compare_eq _ _) eq_refl). destruct (strntol t) as [n|]; [|done].
  destruct (_ <? 0); [done|]. destruct (session_expiry (Some d)) as [x|]; [|done].
  destruct (_ <? x.1); by apply get_session_loop_above.
Qed.

(** The expiry is the stored number, or the default, which is then stored. *)
Definition expiry_of (db : option D) : option Z :=
  match default [] (stored db session_exp_key) with
  | [] => Some SESSION_TIME_DEFAULT
  | t => strntol t
  end.

Lemma session_expiry_spec db :
  session_expiry db
  = let* e := expiry_of db in
    Some (e, match default [] (stored db session_exp_key) with
             | [] => DataStore_put db session_exp_key (print_int SESSION_TIME_DEFAULT)
             | _ => db
             end).
Proof.
  unfold session_expiry, expiry_of. rewrite DataStore_get_spec.
  by destruct (default [] _) as [|c t] eqn:E.
Qed.

Lemma stored_Session_new d id k :
  id <> [] ->
  stored (Session_new current_time epoch (Some d) id) k
  = if decide (k = s_ ++ id) then Some (print_int (i32 (current_time - epoch))) else stored (Some d) k.
Proof.
  intros Hne. unfold Session_new. rewrite (proj2 (Z.ltb_lt 0 (lenZ id))) by (destruct id; [done|simpl; lia]).
  apply stored_put.
Qed.
End Sessions_spec.

Section Lifetime.
Context {D : Type} `{!LevelDB D}.
Variables (epoch : Z) (mktime : Z -> Z).
(** Seconds added to the broken-down [epoch_tm] are added to [epoch]. *)
Hypothesis mktime_adds : forall n, mktime n = epoch + n.

Lemma expiry_of_Session_new t (d : D) id :
  id <> [] -> expiry_of (Session_new t epoch (Some d) id) = expiry_of (Some d).
Proof.
  intros Hne. unfold expiry_of. rewrite stored_Session_new, decide_False by done. done.
Qed.

(** After the expiry is read, every other key has the value it had. *)
Lemma stored_session_expiry (db db' : option D) e k :
  session_expiry db = Some (e, db') -> k <> session_exp_key -> stored db' k = stored db k.
Proof.
  rewrite session_expiry_spec. destruct (expiry_of db); [|done]. intros [= <- <-] Hk.
  destruct (default [] _); [|done]. destruct db as [d|]; [|done].
  by rewrite stored_put, decide_False.
Qed.

Lemma session_expiry_db (d : D) e db' : session_expiry (Some d) = Some (e, db') -> exists d', db' = Some d'.
Proof.
  rewrite session_expiry_spec. destruct (expiry_of _); [|done]. intros [= <- <-].
  destruct (default [] _); eauto.
Qed.

(** C31: a session made at time [t0] is found at time [t1] exactly if [t1] is not
    before [t0] and less than the expiry after it; it then lives on from [t1].
    When it has expired its entry is removed. *)
Theorem session_lifetime (d d1 : D) id t0 t1 e :
  id <> [] -> - 2 ^ 31 < t0 - epoch < 2 ^ 31 -> expiry_of (Some d) = Some e ->
  Session_new t0 epoch (Some d) id = Some d1 ->
  exists found db, get_session t1 epoch mktime d1 id = Some (found, db) /\
    found = (if (t0 <=? t1) && (t1 <? t0 + e) then Some id else None) /\
    stored db (s_ ++ id)
    = if t1 <? t0 then Some (print_int (t0 - epoch))
      else if t1 <? t0 + e then Some (print_int (i32 (t1 - epoch))) else None.
Proof.
  intros Hne Ht He Hnew.
  pose proof (stored_Session_new t0 epoch d id (s_ ++ id) Hne) as Hs.
  pose proof (expiry_of_Session_new t0 d id Hne) as Hx. rewrite Hnew, He in *.
  rewrite decide_True, (swrap_small 32 (t0 - epoch)) in Hs by lia || done.
  rewrite get_session_cases, Hs, strntol_print, mktime_adds by lia.
  replace (t1 - (epoch + (t0 - epoch))) with (t1 - t0) by lia.
  destruct (Z.ltb_spec (t1 - t0) 0).
  { eexists _, _. split; [done|]. rewrite (proj2 (Z.leb_gt t0 t1)), (proj2 (Z.ltb_lt t1 t0)) by lia. done. }
  destruct (session_expiry (Some d1)) as [[e' db']|] eqn:E.
  2:{ rewrite session_expiry_spec, Hx in E. done. }
  assert (e' = e) as -> by (rewrite session_expiry_spec, Hx in E; congruence).
  destruct (session_expiry_db _ _ _ E) as [d' ->]. cbn [fst snd option_map].
  rewrite (proj2 (Z.leb_le t0 t1)), (proj2 (Z.ltb_ge t1 t0)) by lia. cbn [andb].
  destruct (Z.ltb_spec (t1 - t0) e).
  - eexists _, _. split; [done|]. rewrite (proj2 (Z.ltb_lt t1 (t0 + e))) by lia.
    rewrite stored_Session_new, decide_True by done. done.
  - eexists _, _. split; [done|]. rewrite (proj2 (Z.ltb_ge t1 (t0 + e))) by lia.
    rewrite stored_delete, decide_True by done. done.
Qed.

(** ** Cleaning up *)

Variable current_time : Z.

(** The entries that hold the time of a session. *)
Definition time_entry (e : entry) : bool :=
  starts_with e.1 s_ && (lenZ e.1 =? 2 + SESSIONID_SIZE).
(** The session of the time [t] has expired. *)
Definition expired (limit : Z) (t : list Z) : bool :=
  match strntol t with
  | Some n => (current_time - (epoch + n) <? 0) || (limit <? current_time - (epoch + n))
  | None => false
  end.
(** [k] belongs to an expired session of [es]. *)
Definition doomed (limit : Z) (es : list entry) (k : list Z) : Prop :=
  exists e, e ∈ es /\ time_entry e = true /\ expired limit e.2 = true /\ e.1 `prefix_of` k.

Lemma exp_not_time_prefix e : time_entry e = true -> ~ e.1 `prefix_of` session_exp_key.
Proof.
  unfold time_entry. rewrite andb_true_iff, starts_with_prefix. intros [[r Hr] _] [q Hq].
  rewrite Hr in Hq. done.
Qed.

Lemma doomed_cons limit e es k :
  doomed limit (e :: es) k <->
  (time_entry e = true /\ expired limit e.2 = true /\ e.1 `prefix_of` k) \/ doomed limit es k.
Proof.
  unfold doomed. setoid_rewrite elem_of_cons. split.
  - intros (e' & [->|?] & ?); [by left|right; eauto].
  - intros [?|(e' & ? & ?)]; [exists e|exists e']; auto.
Qed.

(** One round of the loop. *)
Lemma cleanup_loop_cons limit t e es (d : D) :
  stored (Some d) session_exp_key = Some t -> t <> [] -> strntol t = Some limit ->
  (time_entry e = true -> is_Some (strntol e.2)) ->
  cleanup_loop current_time mktime (Some d) (e :: es)
  = cleanup_loop current_time mktime
      (if time_entry e && expired limit e.2 then DataStore_wipe (Some d) e.1 else Some d) es.
Proof.
  intros Hexp Hne Hlim Hok. cbn [cleanup_loop]. rewrite <- negb_andb. fold (time_entry e).
  destruct (time_entry e); [|done]. destruct Hok as [n Hn]; [done|].
  assert (session_expiry (Some d) = Some (limit, Some d)) as ->.
  { rewrite session_expiry_spec. unfold expiry_of. rewrite Hexp.
    change (default [] (Some t)) with t. destruct t; [done|]. by rewrite Hlim. }
  unfold expired. rewrite Hn, mktime_adds. simpl. destruct (_ <? 0); [done|]. by destruct (_ <? _).
Qed.

Lemma cleanup_loop_spec limit t es : forall d : D,
  stored (Some d) session_exp_key = Some t -> t <> [] -> strntol t = Some limit ->
  (forall e, e ∈ es -> time_entry e = true -> is_Some (strntol e.2)) ->
  exists d', cleanup_loop current_time mktime (Some d) es = Some (Some d') /\
    forall k, (doomed limit es k -> stored (Some d') k = None) /\
              (~ doomed limit es k -> stored (Some d') k = stored (Some d) k).
Proof.
  induction es as [|e es IH]; intros d Hexp Hne Hlim Hok.
  { exists d. split; [done|]. intros k. split; [|done]. by intros (e & ?%not_elem_of_nil & _). }
  rewrite (cleanup_loop_cons limit t) by (try done; apply Hok; left).
  assert (forall e', e' ∈ es -> time_entry e' = true -> is_Some (strntol e'.2)) as Hok'
    by (intros; apply Hok; [by right|done]).
  destruct (time_entry e && expired limit e.2) eqn:Ex.
  - apply andb_prop in Ex as [Et Ex].
    destruct (DataStore_wipe (Some d) e.1) as [d2|] eqn:Ew; [|done].
    pose proof (fun k => stored_wipe (Some d) e.1 k) as Hw. rewrite Ew in Hw.
    destruct (IH d2) as (d' & E & Hk); try done.
    { rewrite Hw, decide_False; [done|]. by apply exp_not_time_prefix. }
    exists d'. split; [done|]. intros k. destruct (Hk k) as [Hk1 Hk2]. rewrite doomed_cons, Et, Ex.
    specialize (Hw k). destruct (decide (e.1 `prefix_of` k)) as [Hp|Hp].
    + split; [|tauto]. intros _. destruct (stored (Some d') k) eqn:Es; [|done].
      assert (~ doomed limit es k) as Hnd by (intros Hdk; specialize (Hk1 Hdk); congruence).
      specialize (Hk2 Hnd). congruence.
    + split; [tauto|]. intros Hn. rewrite Hk2, Hw by tauto. done.
  - destruct (IH d Hexp Hne Hlim Hok') as (d' & E & Hk). exists d'. split; [done|].
    intros k. destruct (Hk k) as [Hk1 Hk2]. rewrite doomed_cons. split; [|tauto].
    intros [(Et & Ee & _)|?]; [|by apply Hk1]. by rewrite Et, Ee in Ex.
Qed.

(** With an expiry stored, [CleanupSessions] removes exactly the data of the
    sessions whose time lies in the future or more than the expiry back: every
    key of such a session is gone, every other key keeps its value. *)
Theorem cleanup_sessions (d : D) t limit :
  stored (Some d) session_exp_key = Some t -> t <> [] -> strntol t = Some limit ->
  (forall e, e ∈ entries d -> time_entry e = true -> is_Some (strntol e.2)) ->
  exists d', CleanupSessions current_time mktime (Some d) = Some (Some d') /\
    forall k, (doomed limit (entries d) k -> stored (Some d') k = None) /\
              (~ doomed limit (entries d) k -> stored (Some d') k = stored (Some d) k).
Proof. apply cleanup_loop_spec. Qed.
End Lifetime.

(** ** The cookie *)

(** The loop compares the name at [i]. *)
Definition compared (mem : list Z) (i : nat) : Prop := i = 0%nat \/ mem !! Nat.pred i = Some 32.
Definition named (mem : list Z) (i : nat) : bool :=
  strncmp_eq (read_at (Z.of_nat i) 10 mem) SESSIONID_STR_eq.

Lemma find_cookie_step fuel first (k : nat) n mem :
  Z.of_nat k + cookie_room <= n ->
  find_cookie (S fuel) first (Z.of_nat k) n mem
  = if decide (mem !! k = Some 32) then
      if named mem (S k) then Some (Z.of_nat (S k)) else find_cookie fuel false (Z.of_nat (S (S k))) n mem
    else if first && named mem k then Some (Z.of_nat k)
    else find_cookie fuel false (Z.of_nat (S k)) n mem.
Proof.
  unfold cookie_room, SESSIONID_SIZE, named. intros Hn. cbn [find_cookie].
  rewrite (proj2 (Z.leb_gt _ _)), (proj2 (Z.ltb_ge _ _)) by (unfold cookie_room, SESSIONID_SIZE; lia).
  rewrite Nat2Z.id. replace (Z.of_nat k + 1) with (Z.of_nat (S k)) by lia.
  destruct (mem !! k) as [c|]; [destruct (Z.eqb_spec c 32) as [->|Hc]|];
    [rewrite decide_True by done|rewrite decide_False by congruence|rewrite decide_False by done].
  - simpl orb. replace (Z.of_nat (S k) + 1) with (Z.of_nat (S (S k))) by lia. done.
  - destruct first; [|done]. cbn [orb andb]. replace (Z.of_nat k + 1) with (Z.of_nat (S k)) by lia. by destruct (strncmp_eq _ _).
  - destruct first; [|done]. cbn [orb andb]. replace (Z.of_nat k + 1) with (Z.of_nat (S k)) by lia. by destruct (strncmp_eq _ _).
Qed.

Lemma find_cookie_short fuel first (k : nat) n mem :
  n < Z.of_nat k + cookie_room -> find_cookie fuel first (Z.of_nat k) n mem = None.
Proof.
  intros Hn. destruct fuel as [|fuel]; [done|]. cbn [find_cookie]. destruct (Z.leb_spec n (Z.of_nat k)); [done|].
  by rewrite (proj2 (Z.ltb_lt _ _)) by lia.
Qed.

(** What is found is a name at the start or behind a space, and ends at most one
    byte behind the cookies. *)
Lemma find_cookie_sound fuel : forall first (k : nat) n mem p,
  (first = true -> k = 0%nat) -> find_cookie fuel first (Z.of_nat k) n mem = Some p ->
  exists i, p = Z.of_nat i /\ named mem i = true /\ compared mem i /\ p + cookie_room <= n + 1.
Proof.
  induction fuel as [|fuel IH]; intros first k n mem p Hf; [done|].
  destruct (Z.leb_spec (Z.of_nat k + cookie_room) n) as [Hn|Hn]; [|by rewrite find_cookie_short].
  rewrite find_cookie_step by done. case_decide as Hs.
  - destruct (named mem (S k)) eqn:E; [|by apply IH]. intros [= <-]. exists (S k).
    split_and!; [done|done|by right|lia].
  - destruct (first && named mem k) eqn:E; [|by apply IH]. apply andb_prop in E as [-> E].
    intros [= <-]. exists k. split_and!; [done|done|left; auto|lia].
Qed.

(** [i] is the first position the loop may take for the session id. *)
Definition first_name (mem : list Z) (i : nat) : Prop :=
  compared mem i /\ named mem i = true /\
  (forall j, (j < i)%nat -> compared mem j -> named mem j = false) /\
  (forall j, (S j < i)%nat -> ~ (mem !! j = Some 32 /\ mem !! S j = Some 32)).

Lemma find_cookie_complete mem i n fuel : forall first k,
  first_name mem i -> Z.of_nat i + cookie_room <= n -> (i < k + fuel)%nat ->
  ((first = true /\ k = 0%nat) \/ (first = false /\ (k < i)%nat)) ->
  find_cookie fuel first (Z.of_nat k) n mem = Some (Z.of_nat i).
Proof.
  induction fuel as [|fuel IH]; intros first k Hi Hn Hfuel Hk; [lia|].
  pose proof Hi as (Hc & Hm & Hno & Hsp).
  assert (k <= i)%nat as Hki by (destruct Hk as [[_ ->]|[_ ?]]; lia).
  rewrite find_cookie_step by lia. case_decide as Hs.
  - destruct (decide (S k = i)) as [<-|Hne]; [by rewrite Hm|].
    destruct (decide (k = i)) as [->|Hki'].
    { exfalso. destruct Hk as [[_ ->]|[_ ?]]; [|lia]. unfold named, read_at in Hm.
      destruct mem as [|c mem]; [done|]. injection Hs as ->. done. }
    assert (S k < i)%nat as Hlt by lia. rewrite (Hno (S k)) by (try lia; by right).
    apply IH; [done|done|lia|]. right. split; [done|].
    destruct (decide (S (S k) = i)) as [E|]; [|lia]. destruct Hc as [->|Hc]; [lia|].
    rewrite <- E in Hc. destruct (Hsp k); [lia|done].
  - destruct (decide (k = i)) as [->|Hne].
    { destruct Hk as [[-> ->]|[_ ?]]; [|lia]. by rewrite Hm. }
    assert (first && named mem k = false) as ->.
    { destruct first; [|done]. destruct Hk as [[_ ->]|[? _]]; [|done]. simpl. apply Hno; [lia|by left]. }
    apply IH; [done|done|lia|]. right. split; [done|].
    destruct (decide (S k = i)) as [E|]; [|lia]. destruct Hc as [->|Hc]; [lia|]. rewrite <- E in Hc. done.
Qed.

(** The session id of a request is found: when the first cookie of that name
    stands at position [i], at the start or behind a space, with no two spaces in
    a row before it, and its 32 bytes lie in the cookies, they are the id. *)
Theorem cookie_session_id_found mem i n :
  first_name mem i -> Z.of_nat i + 42 <= n < 2 ^ 64 ->
  cookie_session_id n mem = Some (read_at (Z.of_nat i + 10) 32 mem).
Proof.
  intros Hi Hn. unfold cookie_session_id. rewrite (uwrap_small 64 n) by lia.
  rewrite (proj2 (Z.ltb_ge _ _)) by (unfold cookie_room, SESSIONID_SIZE; lia).
  change 0 with (Z.of_nat 0). rewrite (find_cookie_complete mem i); [done|done| |lia|auto].
  unfold cookie_room, SESSIONID_SIZE. lia.
Qed.

(** The search for the session id looks one byte too far: a name behind the
    last space that would fit is accepted although the id then ends one byte
    behind the cookies, and never further; and behind two spaces a session id is
    not found. *)
Theorem cookie_session_id_overread :
  (forall n mem p, find_cookie (Z.to_nat n) true 0 n mem = Some p -> p + 42 <= n + 1) /\
  (let cookies := 32 :: SESSIONID_STR_eq ++ replicate 31 65 in
   lenZ cookies = 42 /\
   forall behind, cookie_session_id 42 (cookies ++ [behind]) = Some (replicate 31 65 ++ [behind])) /\
  (let cookies := [97; 61; 98; 59; 32; 32] ++ SESSIONID_STR_eq ++ replicate 32 65 in
   cookie_session_id (lenZ cookies) cookies = None).
Proof.
  split_and!; [|split; [done|]|].
  - intros n mem p H. apply (find_cookie_sound _ true 0) in H as (i & _ & _ & _ & H); [|done].
    unfold cookie_room, SESSIONID_SIZE in H. lia.
  - intros behind. vm_compute. done.
  - vm_compute. done.
Qed.

(** ** A database

    Sorted lists of entries keep the contract. *)

Definition list_db : Type := { es : list entry | StronglySorted key_lt (es.*1) }.

Fixpoint list_delete (k : list Z) (es : list entry) : list entry :=
  match es with
  | [] => []
  | e :: es => if decide (e.1 = k) then list_delete k es else e :: list_delete k es
  end.
Fixpoint list_insert (k v : list Z) (es : list entry) : list entry :=
  match es with
  | [] => [(k, v)]
  | e :: rest => match Slice_compare e.1 k with Lt => e :: list_insert k v rest | _ => (k, v) :: es end
  end.

Lemma elem_of_list_delete k es e : e ∈ list_delete k es <-> e.1 <> k /\ e ∈ es.
Proof.
  induction es as [|x es IH]; simpl.
  { split; [by intros ?%not_elem_of_nil|by intros [_ ?%not_elem_of_nil]]. }
  case_decide as E; rewrite ?elem_of_cons, IH.
  - split; [tauto|]. intros [? [->|?]]; tauto.
  - split; [intros [->|?]; tauto|tauto].
Qed.

Lemma elem_of_list_insert k v es e : e ∈ list_insert k v es <-> e = (k, v) \/ e ∈ es.
Proof.
  induction es as [|x es IH]; simpl; [by rewrite list_elem_of_singleton, elem_of_nil; tauto|].
  destruct (Slice_compare x.1 k); rewrite ?elem_of_cons, ?IH; tauto.
Qed.

Lemma sorted_cons_2 (e : entry) es :
  sorted es -> (forall e', e' ∈ es -> key_lt e.1 e'.1) -> sorted (e :: es).
Proof.
  intros Hs H. apply SSorted_cons; [done|]. apply List.Forall_forall. intros k Hk%list_elem_of_In.
  apply list_elem_of_fmap in Hk as (e' & -> & He'). by apply H.
Qed.

Lemma list_delete_sorted k es : sorted es -> sorted (list_delete k es).
Proof.
  induction es as [|x es IH]; intros Hs; simpl; [done|]. apply sorted_cons in Hs as [Hs Hlt].
  case_decide; [by apply IH|]. apply sorted_cons_2; [by apply IH|].
  intros e' [_ He']%elem_of_list_delete. by apply Hlt.
Qed.

Lemma list_insert_sorted k v es : sorted es -> (forall e, e ∈ es -> e.1 <> k) -> sorted (list_insert k v es).
Proof.
  induction es as [|x es IH]; intros Hs Hk; simpl; [by repeat constructor|].
  apply sorted_cons in Hs as Hx. destruct Hx as [Hs' Hlt].
  assert (forall e, e ∈ es -> e.1 <> k) as Hk' by (intros; apply Hk; by right).
  destruct (Slice_compare x.1 k) eqn:E.
  - apply Slice_compare_eq in E. destruct (Hk x); [left|done].
  - apply sorted_cons_2; [by apply IH|]. intros e' [->|He']%elem_of_list_insert; [done|by apply Hlt].
  - apply sorted_cons_2; [done|]. assert (key_lt k x.1) by (unfold key_lt; by rewrite Slice_compare_antisym, E).
    intros e' [->|He']%elem_of_cons; [done|]. apply (key_lt_trans _ x.1); [done|by apply Hlt].
Qed.

Lemma list_put_sorted k v es : sorted es -> sorted (list_insert k v (list_delete k es)).
Proof.
  intros Hs. apply list_insert_sorted; [by apply list_delete_sorted|].
  by intros e [? _]%elem_of_list_delete.
Qed.

Lemma elem_of_list_put k v es e :
  e ∈ list_insert k v (list_delete k es) <-> e = (k, v) \/ (e.1 <> k /\ e ∈ es).
Proof. by rewrite elem_of_list_insert, elem_of_list_delete. Qed.

#[export] Instance list_leveldb : LevelDB list_db := {
  entries d := proj1_sig d;
  db_put d k v := exist _ (list_insert k v (list_delete k (proj1_sig d))) (list_put_sorted k v _ (proj2_sig d));
  db_delete d k := exist _ (list_delete k (proj1_sig d)) (list_delete_sorted k _ (proj2_sig d));
  entries_sorted d := proj2_sig d;
  entries_put d k v e := elem_of_list_put k v (proj1_sig d) e;
  entries_delete d k e := elem_of_list_delete k (proj1_sig d) e }.

Definition empty_db : list_db := exist _ [] (SSorted_nil key_lt).

(** ** Witnesses *)

Lemma session_isolation_witness :
  Session_get (Session_put (Some empty_db) [65] [107] [118]) [66] [107]
  = Session_get (Some empty_db) [66] [107].
Proof. exact (session_isolation empty_db [65] [66] [107] [107] [118] eq_refl). Defined.

Lemma session_delete_wipes_witness :
  Session_get (Session_delete (Some (db_put empty_db [115; 95; 65; 107] [118])) [65]) [65] [107] = [].
Proof.
  exact (session_delete_wipes (db_put empty_db [115; 95; 65; 107] [118]) [65] [65] [107] eq_refl
    ltac:(discriminate)).
Defined.

Lemma session_lifetime_witness :
  exists found db,
    get_session 1000 0 (fun n => 0 + n) (db_put empty_db [115; 95; 65] (print_int 900)) [65] = Some (found, db) /\
    found = Some [65].
Proof.
  destruct (session_lifetime 0 (fun n => 0 + n) (fun n => eq_refl) empty_db
    (db_put empty_db [115; 95; 65] (print_int 900)) [65] 900 1000 SESSION_TIME_DEFAULT)
    as (found & db & E & Hf & _); [discriminate|lia|reflexivity|reflexivity|].
  exists found, db. split; [exact E|exact Hf].
Defined.

Definition sample_db : list_db :=
  db_put (db_put empty_db session_exp_key (print_int 60)) (s_ ++ replicate 32 65) (print_int 4000).

Lemma cleanup_sessions_witness :
  exists d', CleanupSessions 5000 (fun n => 0 + n) (Some sample_db) = Some (Some d') /\
    stored (Some d') (s_ ++ replicate 32 65) = None /\
    stored (Some d') session_exp_key = Some (print_int 60).
Proof.
  destruct (cleanup_sessions 0 (fun n => 0 + n) (fun n => eq_refl) 5000 sample_db (print_int 60) 60)
    as (d' & E & Hk).
  - reflexivity.
  - discriminate.
  - reflexivity.
  - intros e [->|[->|He%not_elem_of_nil]%elem_of_cons]%elem_of_cons Ht;
      [eexists; reflexivity|eexists; reflexivity|contradiction].
  - exists d'. split; [exact E|]. split.
    + apply (proj1 (Hk _)). exists (s_ ++ replicate 32 65, print_int 4000).
      split_and!; [left|reflexivity|reflexivity|exists []; reflexivity].
    + refine (proj2 (Hk session_exp_key) _). intros (e & He & Ht & _ & Hp). exact (exp_not_time_prefix e Ht Hp).
Defined.

Lemma cookie_session_id_found_witness :
  cookie_session_id 42 (SESSIONID_STR_eq ++ replicate 32 65) = Some (replicate 32 65).
Proof.
  refine (cookie_session_id_found (SESSIONID_STR_eq ++ replicate 32 65) 0 42 _ _); [|lia].
  split_and!; [by left|reflexivity|intros; lia|intros; lia].
Defined.
