(* ===== verification/Database.v ===== *)
(** * Databases and queries

    [Query] and [Database] of src/webapp/src/Database.cpp, and the registry of
    databases behind [Database_Create], [Database_Get] and [Database_Destroy] of
    src/webapp/src/Hooks.cpp.  What sqlite and mysql return is the input of each
    call ([answers]); what a query allocates, uses and frees is its output, a list
    of events.  A pointer of the query is the flag that it is not NULL. *)

From Stdlib Require Import ZArith Lia.
From stdpp Require Import base list gmap numbers option.
From S2P Require Import Prelude.
Open Scope Z_scope.
Open Scope webapp_scope.

(** ** Data *)

Inductive db_type_t := DATABASE_TYPE_SQLITE | DATABASE_TYPE_MYSQL | DATABASE_TYPE_OTHER.
Inductive query_status := DATABASE_QUERY_INIT | DATABASE_QUERY_STARTED | DATABASE_QUERY_FINISHED.

#[export] Instance db_type_eq_dec : EqDecision db_type_t.
Proof. solve_decision. Defined.
#[export] Instance query_status_eq_dec : EqDecision query_status.
Proof. solve_decision. Defined.

Definition is_sqlite (t : db_type_t) : bool := bool_decide (t = DATABASE_TYPE_SQLITE).
Definition is_mysql (t : db_type_t) : bool := bool_decide (t = DATABASE_TYPE_MYSQL).

Record Database := mkDatabase {
  db_type : db_type_t; db_id : Z; sqlite_db : bool; mysql_db : bool }.

Record Query := mkQuery {
  status : query_status;
  lastrowid : Z;
  column_count : Z;
  row : option (list (list Z));
  description : option (list (list Z));
  desc : bool;
  havedesc : bool;
  rows_affected : Z;
  err : list Z;
  params : list (list Z);
  mysql_stmt : bool;
  sqlite_stmt : bool;
  size_arr : bool;
  out_size_arr : bool;
  prepare_meta_result : bool;
  bind_params : bool;
  bind_output : bool }.

(** What a query owns. *)
Inductive resource :=
| RRow | RDescription | RMysqlStmt | RSqliteStmt | RSizeArr | ROutSizeArr | RMeta | RBindParams | RBindOutput.

#[export] Instance resource_eq_dec : EqDecision resource.
Proof. solve_decision. Defined.

(** [EAlloc]: a pointer is set; [EUse]: what it points to is used; [EFree]: it is
    freed. *)
Inductive event := EAlloc (r : resource) | EUse (r : resource) | EFree (r : resource).

(** What the libraries return in one call of [process]. *)
Record answers := mkAnswers {
  (** sqlite: 0 for success, and whether a statement was made *)
  prepare_rc : Z; prepared : bool;
  (** sqlite: the code of [sqlite3_step], the columns of the row *)
  step_rc : Z; column_names : list (list Z); column_texts : list (list Z);
  (** mysql *)
  stmt_init_ok : bool; bind_rc : Z; has_metadata : bool; execute_rc : Z; fetch_rc : Z;
  (** mysql: what the strings of the row stand for after [mysql_stmt_fetch_column],
      which is given the address of each string's [data] pointer as its buffer and
      so overwrites the pointer; left open *)
  row_after_fetch : list (list Z);
  (** both *)
  num_columns : Z; error_text : option (list Z); insert_id : Z; affected : Z }.

Definition SQLITE_ROW : Z := 100.
Definition SQLITE_DONE : Z := 101.

(** ** Updates *)

Definition set_status s q := mkQuery s (lastrowid q) (column_count q) (row q) (description q) (desc q)
  (havedesc q) (rows_affected q) (err q) (params q) (mysql_stmt q) (sqlite_stmt q) (size_arr q)
  (out_size_arr q) (prepare_meta_result q) (bind_params q) (bind_output q).
Definition set_stats l c n q := mkQuery (status q) l c (row q) (description q) (desc q)
  (havedesc q) n (err q) (params q) (mysql_stmt q) (sqlite_stmt q) (size_arr q)
  (out_size_arr q) (prepare_meta_result q) (bind_params q) (bind_output q).
Definition set_rows r d h q := mkQuery (status q) (lastrowid q) (column_count q) r d (desc q)
  h (rows_affected q) (err q) (params q) (mysql_stmt q) (sqlite_stmt q) (size_arr q)
  (out_size_arr q) (prepare_meta_result q) (bind_params q) (bind_output q).
Definition set_err e q := mkQuery (status q) (lastrowid q) (column_count q) (row q) (description q) (desc q)
  (havedesc q) (rows_affected q) (match e with Some t => t | None => err q end) (params q) (mysql_stmt q)
  (sqlite_stmt q) (size_arr q) (out_size_arr q) (prepare_meta_result q) (bind_params q) (bind_output q).
Definition set_stmts m s q := mkQuery (status q) (lastrowid q) (column_count q) (row q) (description q) (desc q)
  (havedesc q) (rows_affected q) (err q) (params q) m s (size_arr q)
  (out_size_arr q) (prepare_meta_result q) (bind_params q) (bind_output q).
Definition set_binds z o p b q := mkQuery (status q) (lastrowid q) (column_count q) (row q) (description q) (desc q)
  (havedesc q) (rows_affected q) (err q) (params q) (mysql_stmt q) (sqlite_stmt q) z
  o p b (bind_output q).
Definition set_bind_output b q := mkQuery (status q) (lastrowid q) (column_count q) (row q) (description q) (desc q)
  (havedesc q) (rows_affected q) (err q) (params q) (mysql_stmt q) (sqlite_stmt q) (size_arr q)
  (out_size_arr q) (prepare_meta_result q) (bind_params q) b.

Definition Query_new : Query :=
  mkQuery DATABASE_QUERY_INIT 0 0 None None false false 0 [] [] false false false false false false false.

(** The event, if the pointer is not NULL. *)
Definition when (b : bool) (e : event) : list event := if b then [e] else [].

(** ** [Query::process] *)

(** Freeing what [cleanup] and the destructor both free. *)
Definition free_mysql (t : db_type_t) (q : Query) : Query * list event :=
  if is_mysql t then
    (set_binds false false false false q,
     when (prepare_meta_result q) (EFree RMeta) ++ when (size_arr q) (EFree RSizeArr) ++
     when (bind_params q) (EFree RBindParams) ++ when (out_size_arr q) (EFree ROutSizeArr))
  else (q, []).
Definition free_stmts (q : Query) : Query * list event :=
  (set_stmts false false q,
   when (mysql_stmt q) (EFree RMysqlStmt) ++ when (sqlite_stmt q) (EFree RSqliteStmt)).

Definition cleanup (t : db_type_t) (q : Query) : Query * list event :=
  let a := free_mysql t (set_status DATABASE_QUERY_FINISHED q) in
  let b := free_stmts a.1 in
  (b.1, a.2 ++ b.2).

(** A stage goes on, or jumps to [cleanup]. *)
Inductive flow := Go (q : Query) (ev : list event) | Stop (q : Query) (ev : list event).

Definition prepare (t : db_type_t) (a : answers) (q : Query) : flow :=
  if is_sqlite t then
    if sqlite_stmt q then Go q []
    else let q' := set_stmts (mysql_stmt q) (prepared a) q in
         let ev := when (prepared a) (EAlloc RSqliteStmt) in
         if prepare_rc a =? 0 then Go q' ev else Stop q' ev
  else if is_mysql t then
    if mysql_stmt q then Go q []
    else if stmt_init_ok a
         then Go (set_stmts true (sqlite_stmt q) q) [EAlloc RMysqlStmt; EUse RMysqlStmt]
         else Stop q []
  else Go q [].

Definition bind_all (t : db_type_t) (a : answers) (q : Query) : flow :=
  if size_arr q && bind_params q then Go q []
  else if is_mysql t && negb (Nat.eqb (length (params q)) 0) then
    let q' := set_binds true (out_size_arr q) (prepare_meta_result q) true q in
    let ev := [EAlloc RSizeArr; EAlloc RBindParams; EUse RBindParams; EUse RSizeArr; EUse RMysqlStmt] in
    if bind_rc a =? 0 then Go q' ev else Stop q' ev
  else if is_sqlite t && negb (Nat.eqb (length (params q)) 0)
  then Go q (when (sqlite_stmt q) (EUse RSqliteStmt))
  else Go q [].

Definition execute (t : db_type_t) (a : answers) (q : Query) : flow :=
  match status q with
  | DATABASE_QUERY_INIT =>
      if is_sqlite t then
        let q' := set_stats (insert_id a) (num_columns a) (affected a) (set_err (error_text a) q) in
        let ev := when (sqlite_stmt q) (EUse RSqliteStmt) in
        if num_columns a =? 0 then Stop q' ev else Go q' ev
      else if is_mysql t then
        let meta := prepare_meta_result q || has_metadata a in
        let ev := [EUse RMysqlStmt] ++ when (negb (prepare_meta_result q) && meta) (EAlloc RMeta)
                  ++ when meta (EUse RMeta) in
        let q1 := set_binds (size_arr q) (out_size_arr q) meta (bind_params q) q in
        let q2 := set_stats (lastrowid q) (if meta then num_columns a else column_count q)
                    (rows_affected q) q1 in
        if execute_rc a =? 0 then
          let q3 := set_stats (insert_id a) (column_count q2) (affected a) (set_err (error_text a) q2) in
          if column_count q3 =? 0 then Stop q3 ev else Go q3 ev
        else Stop q2 ev
      else if column_count q =? 0 then Stop q [] else Go q []
  | DATABASE_QUERY_STARTED =>
      if is_sqlite t then Go (set_err (error_text a) q) (when (sqlite_stmt q) (EUse RSqliteStmt))
      else if is_mysql t then
        if execute_rc a =? 0 then Go (set_err (error_text a) q) [EUse RMysqlStmt]
        else Stop q [EUse RMysqlStmt]
      else Go q []
  | DATABASE_QUERY_FINISHED => Go q []
  end.

(** The memory of the description and of the row. *)
Definition allocate (q : Query) : Query * list event :=
  let blank := replicate (Z.to_nat (column_count q)) [] in
  let new_desc := desc q && match description q with None => true | Some _ => false end in
  let new_row := match row q with None => true | Some _ => false end in
  (set_rows (if new_row then Some blank else row q)
     (if new_desc then Some blank else description q) (havedesc q) q,
   when new_desc (EAlloc RDescription) ++ when new_row (EAlloc RRow)).

Definition is_some {A} (o : option A) : bool := match o with Some _ => true | None => false end.

(** The first [n] columns the library gives, the others as they were. *)
Definition fill (old new : list (list Z)) : list (list Z) := new ++ drop (length new) old.

Definition fetch (t : db_type_t) (a : answers) (q : Query) : flow :=
  let n := Z.to_nat (column_count q) in
  let named := is_some (description q) && negb (havedesc q) in
  let q_desc := fun q => set_rows (row q)
    (if named then option_map (fun old => fill old (take n (column_names a))) (description q)
     else description q)
    (havedesc q || is_some (description q)) q in
  let q_row := fun q => set_rows (option_map (fun old => fill old (take n (column_texts a))) (row q))
    (description q) (havedesc q) q in
  if is_sqlite t then
    if step_rc a =? SQLITE_ROW then
      Go (q_desc (q_row q))
        (when (sqlite_stmt q) (EUse RSqliteStmt) ++ [EUse RRow] ++ when named (EUse RDescription))
    else Stop q []
  else if is_mysql t then
    let fresh := negb (bind_output q) in
    let q1 := if fresh then set_binds (size_arr q) true (prepare_meta_result q) (bind_params q)
                              (set_bind_output true (q_desc q)) else q in
    let ev := if fresh
              then [EAlloc RBindOutput; EAlloc ROutSizeArr; EUse RMysqlStmt]
                   ++ (if named then [EUse RMeta; EUse RDescription] else [])
              else [] in
    if fetch_rc a =? 0 then Stop q1 (ev ++ [EUse RMysqlStmt])
    else Go (set_rows (option_map (fun _ => row_after_fetch a) (row q1)) (description q1) (havedesc q1) q1)
           (ev ++ [EUse RMysqlStmt; EUse RBindOutput; EUse ROutSizeArr; EUse RRow])
  else Go q [].

(** Sequencing of stages. *)
Definition andThen (f : flow) (g : Query -> flow) : flow :=
  match f with
  | Go q ev => match g q with Go q' ev' => Go q' (ev ++ ev') | Stop q' ev' => Stop q' (ev ++ ev') end
  | Stop q ev => Stop q ev
  end.

Definition stages (t : db_type_t) (a : answers) (q : Query) : flow :=
  andThen (andThen (andThen (prepare t a q) (bind_all t a)) (execute t a))
    (fun q => let r := allocate q in
              match fetch t a r.1 with
              | Go q' ev => Go (set_status DATABASE_QUERY_STARTED q') (r.2 ++ ev)
              | Stop q' ev => Stop q' (r.2 ++ ev)
              end).

Definition process (db : Database) (a : answers) (q : Query) : Query * list event :=
  let t := db_type db in
  if bool_decide (status q = DATABASE_QUERY_FINISHED) then (q, [])
  else if (is_sqlite t && negb (sqlite_db db)) || (is_mysql t && negb (mysql_db db)) then cleanup t q
  else match stages t a q with
       | Go q' ev => (q', ev)
       | Stop q' ev => let c := cleanup t q' in (c.1, ev ++ c.2)
       end.

(** The destructor. *)
Definition Query_delete (db : Database) (q : Query) : list event :=
  when (is_some (description q)) (EFree RDescription) ++ when (is_some (row q)) (EFree RRow) ++
  (let a := free_mysql (db_type db) q in a.2 ++ (free_stmts a.1).2).

(** Calls of [process] one after the other. *)
Fixpoint process_all (db : Database) (ans : list answers) (q : Query) : Query * list event :=
  match ans with
  | [] => (q, [])
  | a :: ans => let r := process db a q in let r' := process_all db ans r.1 in (r'.1, r.2 ++ r'.2)
  end.

(** [Database::exec]. *)
Definition exec (db : Database) (a : answers) : Z * list event :=
  let r := process db a Query_new in (lastrowid r.1, r.2 ++ Query_delete db r.1).

(** ** What the scripts may do to a query *)

(** [Query_Select], [Query_Bind], and setting the field [desc]. *)
Inductive query_op := QSelect (a : answers) | QBind (p : list Z) | QDesc (b : bool).

Definition set_params p q := mkQuery (status q) (lastrowid q) (column_count q) (row q) (description q) (desc q)
  (havedesc q) (rows_affected q) (err q) p (mysql_stmt q) (sqlite_stmt q) (size_arr q)
  (out_size_arr q) (prepare_meta_result q) (bind_params q) (bind_output q).
Definition set_desc b q := mkQuery (status q) (lastrowid q) (column_count q) (row q) (description q) b
  (havedesc q) (rows_affected q) (err q) (params q) (mysql_stmt q) (sqlite_stmt q) (size_arr q)
  (out_size_arr q) (prepare_meta_result q) (bind_params q) (bind_output q).

Definition query_step (db : Database) (o : query_op) (q : Query) : Query * list event :=
  match o with
  | QSelect a => process db a q
  | QBind p => (set_params (params q ++ [p]) q, [])
  | QDesc b => (set_desc b q, [])
  end.

Fixpoint query_run (db : Database) (os : list query_op) (q : Query) : Query * list event :=
  match os with
  | [] => (q, [])
  | o :: os => let r := query_step db o q in let r' := query_run db os r.1 in (r'.1, r.2 ++ r'.2)
  end.

(** ** [Database] *)

(** [opened]: [sqlite3_open] set the handle and returned [open_rc];
    [connected]: [mysql_real_connect] returned a handle. *)
Definition connect (db : Database) (t : db_type_t) (opened : bool) (open_rc : Z) (connected : bool)
  : bool * Database :=
  if is_sqlite t then
    (opened && (open_rc =? 0), mkDatabase t (db_id db) opened (mysql_db db))
  else if is_mysql t then (connected, mkDatabase t (db_id db) (sqlite_db db) connected)
  else (true, mkDatabase t (db_id db) (sqlite_db db) (mysql_db db)).

Inductive close := CSqlite | CMysql.
Definition Database_delete (db : Database) : list close :=
  if is_sqlite (db_type db) && sqlite_db db then [CSqlite]
  else if is_mysql (db_type db) && mysql_db db then [CMysql] else [].

(** ** The registry *)

Definition Database_default : Database := mkDatabase DATABASE_TYPE_SQLITE 0 false false.
Abbreviation registry := (gmap Z Database).

(** The key of the database that is returned; [emplace] keeps an existing one. *)
Definition Database_Create (databases : registry) : Z * registry :=
  let id := Z.of_nat (size databases) + 1 in
  (id, match databases !! id with
       | Some _ => databases
       | None => <[id := Database_default]> databases
       end).
Definition Database_Get (index : Z) (databases : registry) : registry :=
  match databases !! index with
  | Some _ => databases
  | None => <[index := Database_default]> databases
  end.
(** [Database_Destroy] of the database with the key [key]. *)
Definition Database_Destroy (key : Z) (databases : registry) : registry :=
  match databases !! key with
  | Some db => delete (db_id db) databases
  | None => databases
  end.

(** ** Replaying the events *)

(** Which resources are allocated. *)
Definition live := resource -> bool.
Definition upd (l : live) (r : resource) (b : bool) : live :=
  fun x => if bool_decide (x = r) then b else l x.

(** [None]: a pointer is overwritten while it owns something, or what is not
    allocated is used or freed. *)
Fixpoint replay (l : live) (ev : list event) : option live :=
  match ev with
  | [] => Some l
  | EAlloc r :: ev => if l r then None else replay (upd l r true) ev
  | EUse r :: ev => if l r then replay l ev else None
  | EFree r :: ev => if l r then replay (upd l r false) ev else None
  end.

Definition held (q : Query) : live := fun r =>
  match r with
  | RRow => is_some (row q) | RDescription => is_some (description q)
  | RMysqlStmt => mysql_stmt q | RSqliteStmt => sqlite_stmt q | RSizeArr => size_arr q
  | ROutSizeArr => out_size_arr q | RMeta => prepare_meta_result q | RBindParams => bind_params q
  | RBindOutput => bind_output q
  end.

(** The events lead from what [l] says is allocated to what [l'] says. *)
Definition leads (l : live) (ev : list event) (l' : live) : Prop :=
  exists m, replay l ev = Some m /\ forall r, m r = l' r.

Lemma replay_ext ev : forall l l' m, (forall r, l r = l' r) -> replay l ev = Some m ->
  exists m', replay l' ev = Some m' /\ forall r, m r = m' r.
Proof.
  induction ev as [|[r|r|r] ev IH]; intros l l' m H; simpl.
  - intros [= <-]. eauto.
  - rewrite (H r). destruct (l' r); [done|]. apply IH. intros x. unfold upd. by case_bool_decide.
  - rewrite (H r). destruct (l' r); [|done]. by apply IH.
  - rewrite (H r). destruct (l' r); [|done]. apply IH. intros x. unfold upd. by case_bool_decide.
Qed.

Lemma replay_app ev ev' l : replay l (ev ++ ev') = let* m := replay l ev in replay m ev'.
Proof.
  revert l. induction ev as [|[r|r|r] ev IH]; intros l; simpl; [done|..]; destruct (l r); auto.
Qed.

Lemma leads_app l1 l2 l3 ev ev' : leads l1 ev l2 -> leads l2 ev' l3 -> leads l1 (ev ++ ev') l3.
Proof.
  intros (m & Hm & Hml) (m' & Hm' & Hml').
  destruct (replay_ext ev' l2 m m') as (m2 & E & He); [intros; by rewrite Hml|done|].
  exists m2. rewrite replay_app, Hm. split; [done|]. intros r. by rewrite <- He.
Qed.

Lemma leads_nil l l' : (forall r, l r = l' r) -> leads l [] l'.
Proof. intros. exists l. auto. Qed.

(** ** The resources of a query *)

(** Which pointers are set together.  A mysql query gets its metadata with its
    columns, and its output buffers when it starts. *)
Definition coherent (t : db_type_t) (q : Query) : Prop :=
  if is_mysql t then
    size_arr q = bind_params q /\ out_size_arr q = bind_output q /\
    (column_count q <> 0 -> prepare_meta_result q = true) /\
    (status q = DATABASE_QUERY_STARTED -> bind_output q = true)
  else
    size_arr q = false /\ bind_params q = false /\ out_size_arr q = false /\
    prepare_meta_result q = false /\ bind_output q = false.

Definition good (t : db_type_t) (q : Query) : Prop :=
  if bool_decide (status q = DATABASE_QUERY_FINISHED)
  then is_mysql t = false -> coherent t q
  else coherent t q.

(** Evaluates a replay once every flag is known. *)
Ltac run := eexists; split; [reflexivity|]; intros []; reflexivity.

Definition stage_ok (t : db_type_t) (q : Query) (f : flow) : Prop :=
  match f with
  | Go q' ev | Stop q' ev => leads (held q) ev (held q') /\ coherent t q' /\ status q' = status q
  end.

Lemma prepare_ok t a q :
  coherent t q -> stage_ok t q (prepare t a q) /\
  (forall q' ev, prepare t a q = Go q' ev -> is_mysql t = true -> mysql_stmt q' = true).
Proof.
  destruct q as [st lr cc rw de ds hd ra er pa ms ss sz os pm bp bo]. unfold prepare, coherent. intros H.
  destruct t; simpl in *.
  - split; [|by intros; destruct ss; [|destruct (prepare_rc a =? 0)]; simplify_eq].
    destruct ss; [split_and!; try done; by apply leads_nil|].
    destruct (prepare_rc a =? 0), (prepared a); simpl; (split; [run|done]).
  - split.
    + destruct ms; [split_and!; try done; by apply leads_nil|].
      destruct (stmt_init_ok a); simpl; (split; [run|done]).
    + intros q' ev. destruct ms; [by intros [= <- _]|]. destruct (stmt_init_ok a); [|done]. by intros [= <- _].
  - split; [|done]. split_and!; try done. by apply leads_nil.
Qed.

Lemma bind_all_ok t a q :
  coherent t q -> (is_mysql t = true -> mysql_stmt q = true) ->
  stage_ok t q (bind_all t a q) /\
  (forall q' ev, bind_all t a q = Go q' ev -> is_mysql t = true -> mysql_stmt q' = true).
Proof.
  destruct q as [st lr cc rw de ds hd ra er pa ms ss sz os pm bp bo]. unfold bind_all, coherent.
  intros H Hm. destruct t; simpl in *.
  - destruct H as (-> & -> & ?). simpl. split; [|by intros; destruct (negb _); simplify_eq].
    destruct (negb _); [destruct ss|]; (split; [run|done]).
  - destruct H as (-> & ?). rewrite (Hm eq_refl). destruct bp; simpl.
    { split; [split; [by apply leads_nil|done]|]. by intros q' ev [= <- _]. }
    destruct (negb _); simpl; [destruct (bind_rc a =? 0)|];
      (split; [split; [run|done]|]; by intros q' ev [= <- _]).
  - destruct H as (-> & -> & ?). simpl. split; [|done]. split; [run|done].
Qed.

(** What [execute] leaves when it goes on. *)
Definition executed (t : db_type_t) (q : Query) : Prop :=
  is_mysql t = true -> mysql_stmt q = true /\ (bind_output q = true \/ column_count q <> 0).

Lemma execute_ok t a q :
  coherent t q -> status q <> DATABASE_QUERY_FINISHED -> (is_mysql t = true -> mysql_stmt q = true) ->
  stage_ok t q (execute t a q) /\ (forall q' ev, execute t a q = Go q' ev -> executed t q').
Proof.
  destruct q as [st lr cc rw de ds hd ra er pa ms ss sz os pm bp bo]. unfold execute, executed, coherent.
  intros H Hst Hm. destruct st; [| |done]; destruct t; simpl in *.
  - split; [|by intros; destruct (num_columns a =? 0); simplify_eq].
    destruct (num_columns a =? 0), ss; (split; [run|done]).
  - rewrite (Hm eq_refl). destruct H as (-> & -> & Hmeta & ?).
    destruct pm, (has_metadata a), (execute_rc a =? 0); simpl;
      try (destruct (Z.eqb_spec (num_columns a) 0)); try (destruct (Z.eqb_spec cc 0) as [Hcc|Hcc]);
      (split; [split; [run|split_and!; try done; tauto]|intros q' ev [=]; subst; simpl; auto]).
  - split; [|done]. destruct (cc =? 0); (split; [run|done]).
  - split; [|by intros; simplify_eq]. destruct ss; (split; [run|done]).
  - rewrite (Hm eq_refl). destruct H as (-> & -> & ? & Hbo). specialize (Hbo eq_refl). subst bo.
    destruct (execute_rc a =? 0); (split; [split; [run|done]|intros q' ev [=]; subst; simpl; auto]).
  - split; [|done]. split; [run|done].
Qed.

Lemma allocate_ok q :
  leads (held q) (allocate q).2 (held (allocate q).1) /\ is_some (row (allocate q).1) = true /\
  set_rows (row q) (description q) (havedesc q) (allocate q).1 = q.
Proof.
  destruct q as [st lr cc rw de ds hd ra er pa ms ss sz os pm bp bo]. unfold allocate. simpl.
  destruct ds, de as [de|], rw as [rw|]; simpl; (split; [run|done]).
Qed.

Lemma fetch_ok t a q :
  coherent t q -> executed t q -> is_some (row q) = true ->
  match fetch t a q with
  | Go q' ev => leads (held q) ev (held q') /\ coherent t (set_status DATABASE_QUERY_STARTED q')
  | Stop q' ev => leads (held q) ev (held q') /\ coherent t q'
  end.
Proof.
  destruct q as [st lr cc rw de ds hd ra er pa ms ss sz os pm bp bo]. unfold fetch, executed, coherent.
  intros H He Hr. destruct rw as [rw|]; [|done]. destruct t; simpl in *.
  - destruct (step_rc a =? SQLITE_ROW); [|split; [run|done]].
    destruct ss, de as [de|], hd; (split; [run|done]).
  - destruct H as (-> & -> & Hmeta & ?), (He eq_refl) as [-> Hbo].
    destruct bo; simpl.
    { destruct (fetch_rc a =? 0); (split; [run|done]). }
    destruct Hbo as [|Hcc]; [done|]. rewrite (Hmeta Hcc).
    destruct (fetch_rc a =? 0), de as [de|], hd; (split; [run|done]).
  - split; [run|]. done.
Qed.

Lemma cleanup_ok t q :
  (is_mysql t = false -> coherent t q) ->
  leads (held q) (cleanup t q).2 (held (cleanup t q).1) /\ good t (cleanup t q).1 /\
  status (cleanup t q).1 = DATABASE_QUERY_FINISHED.
Proof.
  destruct q as [st lr cc rw de ds hd ra er pa ms ss sz os pm bp bo]. unfold cleanup, good, coherent, free_mysql.
  intros H. destruct t; simpl in *; [destruct ms, ss|destruct ms, ss, pm, sz, bp, os|destruct ms, ss];
    (split; [run|split; [|done]]; intros; done || auto).
Qed.

(** The stages up to the row, one after the other. *)
Lemma andThen_ok t q f g :
  stage_ok t q f ->
  (forall q' ev, f = Go q' ev -> stage_ok t q' (g q')) -> stage_ok t q (andThen f g).
Proof.
  destruct f as [q' ev|q' ev]; [|done]. intros (Hl & _ & Hs) Hg. specialize (Hg q' ev eq_refl).
  simpl. destruct (g q'); destruct Hg as (? & ? & ?);
    (split; [by eapply leads_app|]; split; [done|congruence]).
Qed.

Lemma andThen_Go f g q ev :
  andThen f g = Go q ev -> exists q1 ev1 ev2, f = Go q1 ev1 /\ g q1 = Go q ev2.
Proof.
  destruct f as [q1 ev1|]; [|done]. simpl. destruct (g q1) eqn:E; [|done]. intros [= <- _]. eauto 10.
Qed.

Lemma run_stages t a q :
  coherent t q -> status q <> DATABASE_QUERY_FINISHED ->
  let f := andThen (andThen (prepare t a q) (bind_all t a)) (execute t a) in
  stage_ok t q f /\ (forall q' ev, f = Go q' ev -> executed t q').
Proof.
  intros Hc Hst. destruct (prepare_ok t a q Hc) as [Hp Hpm].
  assert (stage_ok t q (andThen (prepare t a q) (bind_all t a))) as Hb.
  { apply andThen_ok; [done|]. intros q' ev E. rewrite E in Hp. destruct Hp as (_ & Hc' & _).
    apply bind_all_ok; [done|]. by apply (Hpm q' ev). }
  assert (forall q' ev, andThen (prepare t a q) (bind_all t a) = Go q' ev ->
            coherent t q' /\ status q' <> DATABASE_QUERY_FINISHED /\ (is_mysql t = true -> mysql_stmt q' = true))
    as Hbm.
  { intros q' ev E. rewrite E in Hb. destruct Hb as (_ & ? & Hs). split; [done|]. split; [congruence|].
    destruct (andThen_Go _ _ _ _ E) as (q1 & ev1 & ev2 & E1 & E2). rewrite E1 in Hp.
    destruct Hp as (_ & Hc1 & _). apply (proj2 (bind_all_ok t a q1 Hc1 (Hpm q1 ev1 E1)) q' ev2 E2). }
  split.
  - apply andThen_ok; [done|]. intros q' ev E. destruct (Hbm q' ev E) as (? & ? & ?). by apply execute_ok.
  - intros q' ev E. destruct (andThen_Go _ _ _ _ E) as (q1 & ev1 & ev2 & E1 & E2).
    destruct (Hbm q1 ev1 E1) as (? & ? & ?). by apply (proj2 (execute_ok t a q1 ltac:(done) ltac:(done) ltac:(done)) q' ev2).
Qed.

Lemma allocate_coherent t q : coherent t q -> coherent t (allocate q).1.
Proof. by destruct q, t. Qed.

Lemma allocate_executed t q : executed t q -> executed t (allocate q).1.
Proof. by destruct q, t. Qed.

Lemma stages_ok t a q :
  coherent t q -> status q <> DATABASE_QUERY_FINISHED ->
  match stages t a q with
  | Go q' ev => leads (held q) ev (held q') /\ coherent t q' /\ status q' = DATABASE_QUERY_STARTED
  | Stop q' ev => leads (held q) ev (held q') /\ coherent t q'
  end.
Proof.
  intros Hc Hst. unfold stages. destruct (run_stages t a q Hc Hst) as [Hok Hex].
  destruct (andThen (andThen _ _) _) as [q1 ev1|q1 ev1]; [|by destruct Hok as (? & ? & _)].
  destruct Hok as (Hl & Hc1 & _). specialize (Hex q1 ev1 eq_refl). simpl.
  destruct (allocate_ok q1) as (Hal & Hrow & _).
  pose proof (fetch_ok t a _ (allocate_coherent t q1 Hc1) (allocate_executed t q1 Hex) Hrow) as Hf.
  destruct (fetch t a _) as [q2 ev2|q2 ev2]; destruct Hf as [Hf1 Hf2];
    (split; [eapply leads_app; [done|]; by eapply leads_app|]); [|done].
  by destruct q2.
Qed.

Lemma process_ok db a q :
  good (db_type db) q ->
  leads (held q) (process db a q).2 (held (process db a q).1) /\ good (db_type db) (process db a q).1.
Proof.
  intros Hg. unfold process. case_bool_decide as Hst; [split; [by apply leads_nil|done]|].
  unfold good in Hg. rewrite bool_decide_eq_false_2 in Hg by done. destruct (_ || _).
  { destruct (cleanup_ok (db_type db) q) as (? & ? & _); [by intros|done]. }
  pose proof (stages_ok (db_type db) a q Hg Hst) as H. destruct (stages _ _ _) as [q' ev|q' ev].
  - destruct H as (? & ? & Hs). split; [done|]. unfold good. simpl. by rewrite Hs.
  - destruct H as (Hl & Hc). destruct (cleanup_ok (db_type db) q') as (? & ? & _); [by intros|].
    split; [|done]. by eapply leads_app.
Qed.

Lemma query_run_ok db os : forall q,
  good (db_type db) q ->
  leads (held q) (query_run db os q).2 (held (query_run db os q).1) /\ good (db_type db) (query_run db os q).1.
Proof.
  induction os as [|o os IH]; intros q Hg; simpl; [split; [by apply leads_nil|done]|].
  assert (leads (held q) (query_step db o q).2 (held (query_step db o q).1) /\
          good (db_type db) (query_step db o q).1) as [Hl Hg'].
  { destruct o; simpl; [by apply process_ok|split; [by apply leads_nil|by destruct q, db as [[]]]..]. }
  destruct (IH _ Hg') as [Hl' Hg'']. split; [by eapply leads_app|done].
Qed.

Lemma delete_ok db q :
  good (db_type db) q ->
  leads (held q) (Query_delete db q) (fun r => bool_decide (r = RBindOutput) && bind_output q).
Proof.
  intros Hg. assert (is_mysql (db_type db) = false -> coherent (db_type db) q) as Hc
    by (unfold good in Hg; case_bool_decide; [done|by intros]).
  clear Hg. destruct q as [st lr cc rw de ds hd ra er pa ms ss sz os pm bp bo].
  unfold Query_delete, free_mysql, coherent in *.
  destruct (db_type db); simpl in *.
  2:{ destruct de, rw, pm, sz, bp, os, ms, ss; eexists; (split; [reflexivity|]); intros []; reflexivity. }
  all: destruct (Hc eq_refl) as (-> & -> & -> & -> & ->);
    destruct de, rw, ms, ss; eexists; (split; [reflexivity|]); intros []; reflexivity.
Qed.


(** ** Rows of an sqlite query *)

(** The answers of sqlite for a row of [n] columns, and for the end. *)
Definition row_answer (n : Z) (a : answers) : Prop :=
  prepare_rc a = 0 /\ prepared a = true /\ num_columns a = n /\ step_rc a = SQLITE_ROW /\
  length (column_texts a) = Z.to_nat n.
Definition done_answer (n : Z) (a : answers) : Prop :=
  prepare_rc a = 0 /\ prepared a = true /\ num_columns a = n /\ step_rc a <> SQLITE_ROW.

(** A query that is at a row of [n] columns. *)
Definition at_row (n : Z) (q : Query) : Prop :=
  status q = DATABASE_QUERY_STARTED /\ sqlite_stmt q = true /\ column_count q = n /\
  exists r, row q = Some r /\ length r = Z.to_nat n.

Definition sqlite_open (db : Database) : Prop := db_type db = DATABASE_TYPE_SQLITE /\ sqlite_db db = true.

Lemma fill_exact n (old new : list (list Z)) :
  length old = Z.to_nat n -> length new = Z.to_nat n -> fill old (take (Z.to_nat n) new) = new.
Proof.
  intros Ho Hn. unfold fill. rewrite take_ge by lia. rewrite drop_ge by lia. apply app_nil_r.
Qed.

(** [q] can take a row: it is new, or at a row. *)
Definition ready (n : Z) (q : Query) : Prop :=
  (status q = DATABASE_QUERY_INIT /\ sqlite_stmt q = false /\ row q = None) \/ at_row n q.

Lemma process_row db n a q :
  sqlite_open db -> 0 < n -> size_arr q = false -> ready n q -> row_answer n a ->
  at_row n (process db a q).1 /\ row (process db a q).1 = Some (column_texts a) /\
  size_arr (process db a q).1 = false.
Proof.
  intros [Ht Hdb] Hn Hz Hq (Hp & Hpr & Hc & Hs & Hl). destruct db as [t id sdb mdb]. simpl in *. subst t sdb.
  destruct q as [st lr cc rw de ds hd ra er pa ms ss sz os pm bp bo]. simpl in *. subst sz.
  unfold process, stages, prepare, bind_all, execute, fetch, allocate. simpl.
  unfold ready, at_row in Hq. simpl in Hq.
  destruct Hq as [(-> & -> & ->)|(-> & -> & Hcc & r & -> & Hr)]; simpl in *.
  - assert ((n =? 0) = false) as Hn0 by lia.
    destruct pa; do 4 (simpl; rewrite ?Hp, ?Hpr, ?Hc, ?Hs, ?Hn0); simpl;
      rewrite (fill_exact n) by (rewrite ?length_replicate; done); unfold at_row; simpl; eauto 10.
  - subst cc. destruct pa; do 4 (simpl; rewrite ?Hs); simpl; rewrite (fill_exact n) by done;
      unfold at_row; simpl; eauto 10.
Qed.

Lemma process_done db n a q :
  sqlite_open db -> 0 < n -> size_arr q = false -> ready n q -> done_answer n a ->
  status (process db a q).1 = DATABASE_QUERY_FINISHED.
Proof.
  intros [Ht Hdb] Hn Hz Hq (Hp & Hpr & Hc & Hs). destruct db as [t id sdb mdb]. simpl in *. subst t sdb.
  apply Z.eqb_neq in Hs.
  destruct q as [st lr cc rw de ds hd ra er pa ms ss sz os pm bp bo]. simpl in *. subst sz.
  unfold process, stages, prepare, bind_all, execute, fetch, allocate. simpl.
  unfold ready, at_row in Hq. simpl in Hq.
  destruct Hq as [(-> & -> & ->)|(-> & -> & Hcc & r & -> & Hr)]; simpl in *.
  - assert ((n =? 0) = false) as Hn0 by lia.
    by destruct pa; do 4 (simpl; rewrite ?Hp, ?Hpr, ?Hc, ?Hs, ?Hn0).
  - by destruct pa; do 4 (simpl; rewrite ?Hs).
Qed.

Lemma process_all_rows db n rows : forall q,
  sqlite_open db -> 0 < n -> size_arr q = false -> ready n q -> Forall (row_answer n) rows ->
  let q' := (process_all db rows q).1 in
  ready n q' /\ size_arr q' = false /\
  (forall a, list.last rows = Some a -> at_row n q' /\ row q' = Some (column_texts a)).
Proof.
  induction rows as [|a rows IH]; intros q Hdb Hn Hz Hq Hr; simpl; [done|].
  apply Forall_cons_1 in Hr as [Ha Hr].
  destruct (process_row db n a q Hdb Hn Hz Hq Ha) as (Hat & Hrow & Hz').
  destruct (IH _ Hdb Hn Hz' (or_intror Hat) Hr) as (? & ? & Hlast). split_and!; [done..|].
  destruct rows as [|b rows]; [by intros ? [= <-]|apply Hlast].
Qed.

Lemma process_finished db a q : status q = DATABASE_QUERY_FINISHED -> process db a q = (q, []).
Proof. intros H. unfold process. by rewrite H. Qed.

(** A select on sqlite gives the rows of the result in order: after each call
    that sqlite answers with a row the query is started and its row is that row;
    the call sqlite answers with the end finishes the query, and each call after
    that changes nothing. *)
Theorem sqlite_rows db n rows last more :
  sqlite_open db -> 0 < n -> Forall (row_answer n) rows -> done_answer n last ->
  (forall k b, rows !! k = Some b ->
     let q := (process_all db (take (S k) rows) Query_new).1 in
     status q = DATABASE_QUERY_STARTED /\ row q = Some (column_texts b)) /\
  (let q := (process_all db (rows ++ [last]) Query_new).1 in
   status q = DATABASE_QUERY_FINISHED /\ process db more q = (q, [])).
Proof.
  intros Hdb Hn Hr Hlast. split.
  - intros k b Hk q.
    destruct (process_all_rows db n (take (S k) rows) Query_new Hdb Hn eq_refl) as (_ & _ & H);
      [by left|by apply Forall_take|].
    destruct (H b) as [(? & _) ?]; [|done]. rewrite (take_S_r _ _ _ Hk). apply last_snoc.
  - assert (forall l q, (process_all db (l ++ [last]) q).1 = (process db last (process_all db l q).1).1) as Hsn.
    { induction l as [|x l IH]; intros q; simpl; [done|]. by rewrite IH. }
    destruct (process_all_rows db n rows Query_new Hdb Hn eq_refl) as (Hrd & Hz & _); [by left|done|].
    rewrite Hsn. pose proof (process_done db n last _ Hdb Hn Hz Hrd Hlast) as Hf.
    split; [done|]. by apply process_finished.
Qed.

(** A select on mysql never gives a row that was fetched: the test of the
    result of [mysql_stmt_fetch], which is 0 for a row, is inverted, so that the
    query goes on only when the fetch failed or found no row. *)
Theorem mysql_fetch_inverted db a q :
  db_type db = DATABASE_TYPE_MYSQL ->
  status (process db a q).1 = DATABASE_QUERY_STARTED -> fetch_rc a <> 0.
Proof.
  intros Ht. unfold process. rewrite Ht. case_bool_decide as Hst; [simpl; congruence|].
  destruct (_ || _); [done|]. unfold stages.
  destruct (andThen (andThen (prepare _ _ _) _) _) as [q1 ev1|]; [|done]. simpl. unfold fetch. simpl.
  destruct (Z.eqb_spec (fetch_rc a) 0); [|done]. done.
Qed.

(** ** The registry of databases *)

(** A registry that the scripts can reach. *)
Inductive registry_step : registry -> registry -> Prop :=
| step_create m : registry_step m (Database_Create m).2
| step_get m i : registry_step m (Database_Get i m)
| step_destroy m k : registry_step m (Database_Destroy k m).

Lemma registry_ids m : star registry_step ∅ m -> forall k db, m !! k = Some db -> db_id db = 0.
Proof.
  intros H. refine (star_invariant registry_step
    (fun m => forall k db, m !! k = Some db -> db_id db = 0) _ _ _ H _).
  - intros m1 m2 Hi Hstep. destruct Hstep as [m'|m' i|m' k]; unfold Database_Create, Database_Get, Database_Destroy; simpl.
    + destruct (m' !! _) eqn:E; [done|]. intros k db [[<- <-]|[_ ?]]%lookup_insert_Some; eauto.
    + destruct (m' !! i) eqn:E; [done|]. intros k db [[<- <-]|[_ ?]]%lookup_insert_Some; eauto.
    + destruct (m' !! k) eqn:E; [|done]. intros k' db [_ ?]%lookup_delete_Some; eauto.
  - intros k db. by rewrite lookup_empty.
Qed.

(** Destroying a database does not close it: every database of the registry has
    the id 0, so that [Database_Destroy] removes the entry 0 and no other, whichever
    database it is given; and once the entry 0 has been made by [Database_Get] and
    removed, [Database_Create] returns a database that is already in use. *)
Theorem database_destroy_wrong_entry :
  (forall m k db, star registry_step ∅ m -> m !! k = Some db -> Database_Destroy k m = delete 0 m) /\
  (let m1 := (Database_Create (Database_Get 0 ∅)).2 in
   let m2 := Database_Destroy 2 m1 in
   is_Some (m1 !! 2) /\ is_Some (m2 !! 2) /\ (Database_Create m2).1 = 2).
Proof.
  split.
  - intros m k db Hm Hk. unfold Database_Destroy. rewrite Hk. by rewrite (registry_ids m Hm k db Hk).
  - split_and!; [eexists; vm_compute; reflexivity..|vm_compute; reflexivity].
Qed.

(** ** Witnesses *)

Definition sample_answer (rc : Z) (t : list Z) : answers :=
  mkAnswers 0 true rc [[105; 100]] [t] false 0 false 0 0 [] 1 None 0 0.
Definition sample_sqlite : Database := mkDatabase DATABASE_TYPE_SQLITE 0 true false.

Lemma sqlite_rows_witness :
  status (process_all sample_sqlite [sample_answer 100 [49]; sample_answer 100 [50]; sample_answer 101 []]
    Query_new).1 = DATABASE_QUERY_FINISHED /\
  row (process_all sample_sqlite [sample_answer 100 [49]; sample_answer 100 [50]] Query_new).1 = Some [[50]].
Proof.
  destruct (sqlite_rows sample_sqlite 1 [sample_answer 100 [49]; sample_answer 100 [50]]
    (sample_answer 101 []) (sample_answer 101 [])) as [Hr [Hf _]].
  - split; reflexivity.
  - lia.
  - repeat constructor.
  - split_and!; [reflexivity..|discriminate].
  - split; [exact Hf|]. exact (proj2 (Hr 1%nat (sample_answer 100 [50]) eq_refl)).
Defined.

Lemma mysql_fetch_inverted_witness :
  let a := mkAnswers 0 true 0 [] [] true 0 true 0 100 [[]] 1 None 0 0 in
  let db := mkDatabase DATABASE_TYPE_MYSQL 0 false true in
  status (process db a Query_new).1 = DATABASE_QUERY_STARTED /\ fetch_rc a <> 0.
Proof.
  intros a db. assert (status (process db a Query_new).1 = DATABASE_QUERY_STARTED) as H by reflexivity.
  split; [exact H|]. exact (mysql_fetch_inverted db a Query_new eq_refl H).
Defined.
