(* ===== verification/TinyDir.v ===== *)
(** * Directories

    The directory reader src/webapp/include/tinydir/tinydir.h (its POSIX branches)
    over a model of the file system: a map from the components of a path to a
    directory or a file.  A path is a string of bytes; [opendir], [stat], [mkdir],
    [unlink] and [rmdir] resolve it component by component.  Symbolic links and
    permissions are not modelled. *)

From Stdlib Require Import ZArith Lia.
From stdpp Require Import base list gmap numbers option sorting.
From S2P Require Import Prelude.
Open Scope Z_scope.
Open Scope webapp_scope.

(** ** The file system *)

Definition name : Type := list Z.
Inductive node := NDir | NFile (content : list Z).
Abbreviation fs := (gmap (list name) node).

#[export] Instance node_eq_dec : EqDecision node.
Proof. solve_decision. Defined.

(** The bytes '/' and '.'; "." and "..". *)
Definition SLASH : Z := 47.
Definition DOT : Z := 46.
Definition dot : name := [DOT].
Definition dotdot : name := [DOT; DOT].

(** The components of a path, the empty ones included. *)
Fixpoint split_path (p : list Z) : list name :=
  match p with
  | [] => [[]]
  | c :: p =>
      if c =? SLASH then [] :: split_path p
      else match split_path p with
           | [] => [[c]]
           | w :: ws => (c :: w) :: ws
           end
  end.

(** Where a component leads. *)
Definition enter (cur : list name) (w : name) : list name :=
  if bool_decide (w = dotdot) then removelast cur else cur ++ [w].

(** Resolving the components; the last need not exist. *)
Fixpoint walk (f : fs) (cur : list name) (ws : list name) : option (list name) :=
  match ws with
  | [] => Some cur
  | w :: ws =>
      if bool_decide (w = [] \/ w = dot) then walk f cur ws
      else match f !! cur with
           | Some NDir => walk f (enter cur w) ws
           | _ => None
           end
  end.

Definition starts_at (cwd : list name) (p : list Z) : list name :=
  match p with c :: _ => if c =? SLASH then [] else cwd | [] => cwd end.

(** A C string ends at its first 0. *)
Fixpoint cstr (p : list Z) : list Z :=
  match p with
  | [] => []
  | c :: p => if c =? 0 then [] else c :: cstr p
  end.

(** [rmdir] refuses a path whose last component is ".". *)
Definition ends_in_dot (p : list Z) : bool :=
  bool_decide (list.last (List.filter (fun w => negb (bool_decide (w = []))) (split_path p)) = Some dot).

Section System.
(** The working directory, and the order in which [readdir] gives the entries. *)
Variables (cwd : list name) (order : list name -> list name).

Definition resolve (f : fs) (p : list Z) : option (list name) :=
  match p with
  | [] => None
  | _ => walk f (starts_at cwd p) (split_path p)
  end.

(** The names in a directory. *)
Definition children (f : fs) (d : list name) : list name :=
  omap (fun kv => match list.last kv.1 with
                  | Some n => if bool_decide (kv.1 = d ++ [n]) then Some n else None
                  | None => None
                  end) (map_to_list f).

(** [opendir] with what [readdir] then gives. *)
Definition opendir (f : fs) (p : list Z) : option (list name) :=
  let* d := resolve f p in
  match f !! d with
  | Some NDir => Some (order (dot :: dotdot :: children f d))
  | _ => None
  end.

Definition stat (f : fs) (p : list Z) : option node :=
  let* d := resolve f p in f !! d.

Definition mkdir (f : fs) (p : list Z) : option fs :=
  let* d := resolve f p in
  match f !! d with
  | Some _ => None
  | None => Some (<[d := NDir]> f)
  end.

Definition unlink (f : fs) (p : list Z) : option fs :=
  let* d := resolve f p in
  match f !! d with
  | Some (NFile _) => Some (delete d f)
  | _ => None
  end.

Definition rmdir (f : fs) (p : list Z) : option fs :=
  let* d := resolve f p in
  match f !! d, children f d with
  | Some NDir, [] => if bool_decide (d = []) || ends_in_dot p then None else Some (delete d f)
  | _, _ => None
  end.

(** ** tinydir *)

Definition _TINYDIR_PATH_MAX : Z := 4096.
Definition _TINYDIR_FILENAME_MAX : Z := 256.

Record tinydir_file := mkFile { fpath : list Z; fname : name; is_dir : bool; is_reg : bool }.

(** The entry that was read and those [readdir] has still to give; [has_next] when
    there is one.  [files] is [Some] after [tinydir_open_sorted]. *)
Record tinydir_dir := mkDir { dpath : list Z; entries : list name; files : option (list tinydir_file) }.

Definition has_next (d : tinydir_dir) : bool := match entries d with [] => false | _ => true end.

(** [tinydir_close]. *)
Definition tinydir_close : tinydir_dir := mkDir [] [] None.

(** How [tinydir_open] ends: [OEarly] leaves the structure uninitialised. *)
Inductive opened := OEarly | OBail (d : tinydir_dir) | OOpen (d : tinydir_dir).

Definition tinydir_open (f : fs) (path : list Z) : opened :=
  if lenZ path =? 0 then OEarly
  else if _TINYDIR_PATH_MAX <=? lenZ path then OEarly
  else match opendir f path with
       | None => OBail tinydir_close
       | Some es => OOpen (mkDir path es None)
       end.

(** 0 and the directory, or -1. *)
Definition tinydir_next (d : tinydir_dir) : option tinydir_dir :=
  match entries d with
  | [] => None
  | _ :: es => Some (mkDir (dpath d) es (files d))
  end.

Definition tinydir_readfile (f : fs) (d : tinydir_dir) : option tinydir_file :=
  match entries d with
  | [] => None
  | e :: _ =>
      if _TINYDIR_PATH_MAX <=? lenZ (dpath d) + lenZ e + 1 then None
      else if _TINYDIR_FILENAME_MAX <=? lenZ e then None
      else
        let path := dpath d ++ [SLASH] ++ e in
        let* s := stat f path in
        Some (mkFile path e (bool_decide (s = NDir)) (negb (bool_decide (s = NDir))))
  end.

(** [strncasecmp], over the lower case of the names. *)
Definition lower (c : Z) : Z := if (65 <=? c) && (c <=? 90) then c + 32 else c.
Fixpoint strcasecmp (a b : list Z) : comparison :=
  match a, b with
  | [], [] => Eq
  | [], _ => Lt
  | _, [] => Gt
  | x :: a, y :: b => match lower x ?= lower y with Eq => strcasecmp a b | c => c end
  end.

Definition _tinydir_file_cmp (a b : tinydir_file) : comparison :=
  match is_dir a, is_dir b with
  | true, false => Lt
  | false, true => Gt
  | _, _ => strcasecmp (fname a) (fname b)
  end.
Definition file_le (a b : tinydir_file) : Prop := _tinydir_file_cmp a b <> Gt.

#[export] Instance file_le_dec : RelDecision file_le.
Proof. unfold file_le. intros a b. apply _. Defined.

(** The loop of [tinydir_open_sorted]; [None] when it goes to [bail]. *)
Fixpoint read_entries (f : fs) (path : list Z) (es : list name) : option (list tinydir_file) :=
  match es with
  | [] => Some []
  | e :: es' =>
      let* x := tinydir_readfile f (mkDir path es None) in
      let* xs := read_entries f path es' in
      Some (x :: xs)
  end.

Definition tinydir_open_sorted (f : fs) (path : list Z) : opened :=
  match tinydir_open f path with
  | OOpen d =>
      match read_entries f path (entries d) with
      | Some xs => OOpen (mkDir path [] (Some (merge_sort file_le xs)))
      | None => OBail tinydir_close
      end
  | o => o
  end.

Definition tinydir_readfile_n (d : tinydir_dir) (i : Z) : option tinydir_file :=
  if i <? 0 then None
  else match files d with
       | Some xs => xs !! Z.to_nat i
       | None => None
       end.

(** [None]: -1 with the directory as it was; it is closed before the other is
    opened. *)
Definition tinydir_open_subdir_n (f : fs) (d : tinydir_dir) (i : Z) : option opened :=
  let* x := tinydir_readfile_n d i in
  if is_dir x then
    Some match tinydir_open_sorted f (fpath x) with
         | OEarly => OBail tinydir_close
         | o => o
         end
  else None.

Definition tinydir_create (f : fs) (path : list Z) : option fs := mkdir f path.
End System.

(** [tinydir_todir]: the last '/' but one at the start becomes a 0; the number of
    bytes from there to the end.  [i] runs down from [len]. *)
Fixpoint todir_loop (path : list Z) (i : nat) : list Z * nat :=
  match i with
  | O => (path, O)
  | S i' =>
      match path !! i with
      | Some c => if c =? SLASH then (<[i := 0]> path, i) else todir_loop path i'
      | None => todir_loop path i'
      end
  end.
Definition tinydir_todir (path : list Z) (len : nat) : list Z * nat :=
  let r := todir_loop path len in (r.1, (len - r.2)%nat).

(** ** Paths *)

(** Components that do not move. *)
Definition stays (w : name) : bool := bool_decide (w = [] \/ w = dot).
Definition norm (ws : list name) : list name := List.filter (fun w => negb (stays w)) ws.

(** A path without ".." components, and where it leads. *)
Definition plain (p : list Z) : Prop := dotdot ∉ split_path p.
Definition target (cwd : list name) (p : list Z) : list name :=
  starts_at cwd p ++ norm (split_path p).

Definition good_name (n : name) : Prop :=
  n <> [] /\ n <> dot /\ n <> dotdot /\ (SLASH ∉ n) /\ (0 ∉ n) /\ lenZ n < _TINYDIR_FILENAME_MAX.

(** A tree: what is in a directory has a name, and the directory is one. *)
Record wf_fs (f : fs) : Prop := mkWf {
  wf_root : f !! [] = Some NDir;
  wf_parent d n : is_Some (f !! (d ++ [n])) -> f !! d = Some NDir;
  wf_names d n : is_Some (f !! (d ++ [n])) -> good_name n }.

Lemma split_path_nil p : split_path p <> [].
Proof. destruct p as [|c p]; simpl; [done|]. destruct (c =? SLASH); [done|]. by destruct (split_path p). Qed.

Lemma split_path_slash p q : split_path (p ++ SLASH :: q) = split_path p ++ split_path q.
Proof.
  induction p as [|c p IH]; simpl; [done|]. destruct (c =? SLASH); [by rewrite IH|].
  rewrite IH. destruct (split_path p) eqn:E; [|done]. by apply split_path_nil in E.
Qed.

Lemma split_path_word n : SLASH ∉ n -> split_path n = [n].
Proof.
  induction n as [|c n IH]; simpl; [done|]. intros [Hc Hn]%not_elem_of_cons.
  rewrite (proj2 (Z.eqb_neq c SLASH)) by congruence. by rewrite IH.
Qed.

Lemma split_path_char p c :
  c <> SLASH -> removelast (split_path (p ++ [c])) = removelast (split_path p).
Proof.
  intros Hc. induction p as [|x p IH]; simpl.
  - by rewrite (proj2 (Z.eqb_neq c SLASH)).
  - pose proof (split_path_nil p) as H1. pose proof (split_path_nil (p ++ [c])) as H2.
    destruct (x =? SLASH).
    + destruct (split_path p), (split_path (p ++ [c])); try done. simpl in IH |- *. by rewrite IH.
    + destruct (split_path p) as [|u us], (split_path (p ++ [c])) as [|v vs]; try done.
      simpl in IH |- *. destruct us, vs; simpl in *; congruence.
Qed.

Lemma norm_app a b : norm (a ++ b) = norm a ++ norm b.
Proof. apply List.filter_app. Qed.

Lemma norm_good n : good_name n -> norm [n] = [n].
Proof.
  intros (H1 & H2 & _). unfold norm, stays. simpl. by rewrite bool_decide_false by tauto.
Qed.

Lemma starts_at_app cwd p q : p <> [] -> starts_at cwd (p ++ q) = starts_at cwd p.
Proof. by destruct p. Qed.

Lemma target_child cwd p n :
  p <> [] -> good_name n -> target cwd (p ++ [SLASH] ++ n) = target cwd p ++ [n].
Proof.
  intros Hp Hn. unfold target. rewrite starts_at_app by done. simpl.
  rewrite split_path_slash, (split_path_word n) by apply Hn.
  by rewrite norm_app, norm_good, app_assoc.
Qed.

Lemma plain_child p n : plain p -> good_name n -> plain (p ++ [SLASH] ++ n).
Proof.
  unfold plain. intros Hp Hn. simpl. rewrite split_path_slash, (split_path_word n) by apply Hn.
  rewrite elem_of_app, list_elem_of_singleton. intros [?|E]; [done|].
  destruct Hn as (_ & _ & Hn & _). congruence.
Qed.

Lemma wf_prefix f d k : wf_fs f -> k <> [] -> is_Some (f !! (d ++ k)) -> f !! d = Some NDir.
Proof.
  intros Hf. revert d. induction k as [|n k IH]; [done|]. intros d _ Hk.
  change (n :: k) with ([n] ++ k) in Hk. rewrite app_assoc in Hk.
  apply (wf_parent f Hf d n). destruct k as [|m k]; [by rewrite app_nil_r in Hk|].
  rewrite (IH (d ++ [n])); [eauto|done|done].
Qed.

Lemma norm_cons w ws :
  norm (w :: ws) = if bool_decide (w = [] \/ w = dot) then norm ws else w :: norm ws.
Proof. unfold norm, stays. simpl. by destruct (bool_decide _). Qed.

(** A path whose parent is there is resolved. *)
Lemma walk_norm f cur ws :
  dotdot ∉ ws ->
  (forall a b, norm ws = a ++ b -> b <> [] -> f !! (cur ++ a) = Some NDir) ->
  walk f cur ws = Some (cur ++ norm ws).
Proof.
  revert cur. induction ws as [|w ws IH]; intros cur Hdd H; cbn [walk]; [by rewrite app_nil_r|].
  apply not_elem_of_cons in Hdd as [Hw Hws]. rewrite norm_cons in H |- *.
  case_bool_decide as E; [by apply IH|].
  pose proof (H [] _ eq_refl ltac:(done)) as Hcur. rewrite app_nil_r in Hcur. rewrite Hcur.
  unfold enter. rewrite bool_decide_false by congruence.
  rewrite IH; [by rewrite <- app_assoc|done|].
  intros a b Hab Hb. rewrite <- app_assoc. apply (H (w :: a) b); [|done]. by rewrite Hab.
Qed.

Lemma resolve_target f cwd p :
  wf_fs f -> p <> [] -> plain p -> is_Some (f !! target cwd p) ->
  resolve cwd f p = Some (target cwd p).
Proof.
  intros Hf Hp Hpl He. unfold resolve. destruct p as [|c p']; [done|]. apply walk_norm; [done|].
  intros a b Hab Hb. unfold target in He. rewrite Hab, app_assoc in He.
  by eapply wf_prefix.
Qed.

Lemma elem_of_children f d n : n ∈ children f d <-> is_Some (f !! (d ++ [n])).
Proof.
  unfold children. rewrite list_elem_of_omap. split.
  - intros ([k v] & Hk & He). apply elem_of_map_to_list in Hk. simpl in He.
    destruct (list.last k) eqn:El; [|done]. case_bool_decide; [|done]. simplify_eq. eauto.
  - intros [v Hv]. exists (d ++ [n], v). rewrite elem_of_map_to_list. split; [done|]. simpl.
    by rewrite last_snoc, bool_decide_true.
Qed.

Lemma children_NoDup f d : NoDup (children f d).
Proof.
  unfold children. pose proof (NoDup_fst_map_to_list f) as H.
  induction (map_to_list f) as [|[k v] l IH]; simpl; [constructor|].
  apply NoDup_cons in H as [Hk Hl]. specialize (IH Hl). simpl in *.
  destruct (list.last k) as [n|] eqn:El; [|done]. case_bool_decide as E; [|done]. constructor; [|done].
  intros ([k' v'] & Hk' & He)%list_elem_of_omap. simpl in He.
  destruct (list.last k') eqn:El'; [|done]. case_bool_decide; [|done]. simplify_eq.
  apply Hk. apply list_elem_of_fmap. by exists (d ++ [n], v').
Qed.

(** ** Reading a directory *)

Lemma walk_app f cur ws vs :
  walk f cur (ws ++ vs) = let* d := walk f cur ws in walk f d vs.
Proof.
  revert cur. induction ws as [|w ws IH]; intros cur; simpl; [done|].
  case_bool_decide; [apply IH|]. by destruct (f !! cur) as [[]|]; simpl.
Qed.

Lemma wf_removelast f d : wf_fs f -> f !! d = Some NDir -> f !! removelast d = Some NDir.
Proof.
  intros Hf Hd. destruct d as [|n d _] using rev_ind; [done|].
  rewrite removelast_last. apply (wf_parent f Hf d n). eauto.
Qed.

Lemma plain_target_dir f cwd p :
  wf_fs f -> plain p -> p <> [] -> f !! target cwd p = Some NDir ->
  walk f (starts_at cwd p) (split_path p) = Some (target cwd p).
Proof.
  intros Hf Hpl Hp Hd. pose proof (resolve_target f cwd p Hf Hp Hpl ltac:(eauto)) as H.
  by destruct p.
Qed.

(** A directory's own entry and its parent's are directories. *)
Lemma stat_dots f cwd p w :
  wf_fs f -> plain p -> p <> [] -> f !! target cwd p = Some NDir ->
  w = dot \/ w = dotdot -> stat cwd f (p ++ [SLASH] ++ w) = Some NDir.
Proof.
  intros Hf Hpl Hp Hd Hw. unfold stat, resolve.
  destruct (p ++ [SLASH] ++ w) as [|c q] eqn:Eq; [by destruct p|]. rewrite <- Eq.
  rewrite starts_at_app by done. simpl. rewrite split_path_slash, walk_app.
  rewrite plain_target_dir by done. simpl. destruct Hw as [-> | ->]; simpl.
  - by rewrite Hd.
  - rewrite Hd. simpl. by apply wf_removelast.
Qed.

Lemma stat_child f cwd p n :
  wf_fs f -> plain p -> p <> [] -> n ∈ children f (target cwd p) ->
  stat cwd f (p ++ [SLASH] ++ n) = f !! (target cwd p ++ [n]).
Proof.
  intros Hf Hpl Hp Hn%elem_of_children. pose proof (wf_names f Hf _ _ Hn) as Hg.
  unfold stat. rewrite resolve_target; [by rewrite target_child|done|by destruct p|by apply plain_child|].
  by rewrite target_child.
Qed.

Section Reading.
Variables (cwd : list name) (order : list name -> list name).
Hypothesis order_perm : forall l, Permutation (order l) l.

Lemma tinydir_open_dir f p :
  wf_fs f -> plain p -> p <> [] -> lenZ p < _TINYDIR_PATH_MAX -> f !! target cwd p = Some NDir ->
  tinydir_open cwd order f p
  = OOpen (mkDir p (order (dot :: dotdot :: children f (target cwd p))) None).
Proof.
  intros Hf Hpl Hp Hl Hd. unfold tinydir_open, opendir.
  rewrite resolve_target by eauto. simpl. rewrite Hd.
  destruct p as [|c p']; [done|]. simpl length in *.
  rewrite (proj2 (Z.eqb_neq _ _)) by lia. by rewrite (proj2 (Z.leb_gt _ _)) by lia.
Qed.

(** What an entry [n] of the directory at [p] is read as. *)
Definition entry_of (f : fs) (p : list Z) (n : name) : tinydir_file :=
  let dir := bool_decide (stat cwd f (p ++ [SLASH] ++ n) = Some NDir) in
  mkFile (p ++ [SLASH] ++ n) n dir (negb dir).

Lemma stat_entry f p n :
  wf_fs f -> plain p -> p <> [] -> f !! target cwd p = Some NDir ->
  n ∈ dot :: dotdot :: children f (target cwd p) ->
  is_Some (stat cwd f (p ++ [SLASH] ++ n)) /\ lenZ n < _TINYDIR_FILENAME_MAX.
Proof.
  intros Hf Hpl Hp Hd. rewrite !elem_of_cons. intros [-> | [-> | Hn]].
  1,2: rewrite stat_dots by eauto; split; [eauto|done].
  rewrite stat_child by done. apply elem_of_children in Hn. split; [done|].
  by apply (wf_names f Hf) in Hn as (_ & _ & _ & _ & _ & ?).
Qed.

Lemma tinydir_readfile_entry f p n es :
  is_Some (stat cwd f (p ++ [SLASH] ++ n)) -> lenZ n < _TINYDIR_FILENAME_MAX ->
  lenZ p + lenZ n + 1 < _TINYDIR_PATH_MAX ->
  tinydir_readfile cwd f (mkDir p (n :: es) None) = Some (entry_of f p n).
Proof.
  intros [s Hs] Hn Hl. unfold tinydir_readfile, entry_of. simpl in *.
  rewrite !(proj2 (Z.leb_gt _ _)) by lia. rewrite Hs. simpl. f_equal. f_equal.
  1: apply bool_decide_ext. 2: f_equal; apply bool_decide_ext.
  all: split; congruence.
Qed.

Lemma read_listing f p es :
  (forall n, n ∈ es -> is_Some (stat cwd f (p ++ [SLASH] ++ n)) /\ lenZ n < _TINYDIR_FILENAME_MAX
                  /\ lenZ p + lenZ n + 1 < _TINYDIR_PATH_MAX) ->
  read_entries cwd f p es = Some (map (entry_of f p) es).
Proof.
  induction es as [|n es IH]; intros H; cbn [read_entries]; [done|].
  destruct (H n) as (H1 & H2 & H3); [by left|].
  rewrite tinydir_readfile_entry by done. simpl. rewrite IH; [done|].
  intros m Hm. apply H. by right.
Qed.
End Reading.

(** The order of the files is total. *)
Lemma strcasecmp_antisym a b : strcasecmp b a = CompOpp (strcasecmp a b).
Proof.
  revert b. induction a as [|x a IH]; intros [|y b]; simpl; try done.
  rewrite (Z.compare_antisym (lower x) (lower y)). destruct (lower x ?= lower y); simpl; auto.
Qed.

Lemma strcasecmp_trans a b c :
  strcasecmp a b <> Gt -> strcasecmp b c <> Gt -> strcasecmp a c <> Gt.
Proof.
  revert b c. induction a as [|x a IH]; intros [|y b] [|z c]; simpl; try done.
  destruct (Z.compare_spec (lower x) (lower y)) as [E|E|E];
    destruct (Z.compare_spec (lower y) (lower z)) as [E'|E'|E']; try done; intros H1 H2;
    destruct (Z.compare_spec (lower x) (lower z)); try lia; eauto.
Qed.

#[export] Instance file_le_total : Total file_le.
Proof.
  intros a b. unfold file_le, _tinydir_file_cmp.
  destruct (is_dir a), (is_dir b); try (by left); try (by right).
  all: rewrite (strcasecmp_antisym (fname a) (fname b)); destruct (strcasecmp _ _); simpl; auto.
Qed.

#[export] Instance file_le_trans : Transitive file_le.
Proof.
  intros a b c. unfold file_le, _tinydir_file_cmp.
  destruct (is_dir a), (is_dir b), (is_dir c); try done; apply strcasecmp_trans.
Qed.

(** [tinydir_open_sorted] on a directory gives each of its entries, "." and ".."
    among them, exactly once and in order, the directories first and each kind by
    name without regard to case; each file has its path and its kind, and both
    strings fit the arrays of [tinydir_file] with their terminator. *)
Theorem sorted_listing cwd order f p :
  (forall l, Permutation (order l) l) ->
  wf_fs f -> plain p -> p <> [] -> f !! target cwd p = Some NDir ->
  lenZ p + _TINYDIR_FILENAME_MAX < _TINYDIR_PATH_MAX ->
  exists xs,
    tinydir_open_sorted cwd order f p = OOpen (mkDir p [] (Some xs))
    /\ StronglySorted file_le xs
    /\ Permutation (map fname xs) (dot :: dotdot :: children f (target cwd p))
    /\ Forall (fun x => fpath x = p ++ [SLASH] ++ fname x
                     /\ is_dir x = bool_decide (stat cwd f (fpath x) = Some NDir)
                     /\ lenZ (fpath x) < _TINYDIR_PATH_MAX
                     /\ lenZ (fname x) < _TINYDIR_FILENAME_MAX) xs.
Proof.
  intros Ho Hf Hpl Hp Hd Hl. set (es := order (dot :: dotdot :: children f (target cwd p))).
  assert (He : forall n, n ∈ es -> is_Some (stat cwd f (p ++ [SLASH] ++ n)) /\ lenZ n < _TINYDIR_FILENAME_MAX
                              /\ lenZ p + lenZ n + 1 < _TINYDIR_PATH_MAX).
  { intros n Hn. unfold es in Hn. rewrite Ho in Hn.
    destruct (stat_entry cwd f p n Hf Hpl Hp Hd Hn) as [H1 H2]. split_and!; [done|done|lia]. }
  exists (merge_sort file_le (map (entry_of cwd f p) es)). split_and!.
  - unfold tinydir_open_sorted. rewrite tinydir_open_dir by (done || unfold _TINYDIR_FILENAME_MAX in Hl; lia).
    cbn [entries]. fold es. by rewrite (read_listing cwd f p es He).
  - apply (StronglySorted_merge_sort _).
  - rewrite (merge_sort_Permutation file_le). rewrite map_map. simpl. rewrite map_id. apply Ho.
  - rewrite (merge_sort_Permutation file_le). apply Forall_map, Forall_forall. intros n Hn.
    destruct (He n Hn) as (_ & H2 & H3). simpl. split_and!; [done|done| |done].
    rewrite length_app. simpl. lia.
Qed.

(** A directory /d with a file "b" and the directory "A". *)
Definition example_fs : fs :=
  <[[] := NDir]> (<[[[100]] := NDir]> (<[[[100]; [98]] := NFile [1]]> (<[[[100]; [65]] := NDir]> ∅))).

#[export] Instance good_name_dec n : Decision (good_name n).
Proof. unfold good_name. apply _. Defined.

(** The shape of a tree, on the keys of the map. *)
Definition key_ok (f : fs) (k : list name) : bool :=
  match list.last k with
  | None => true
  | Some n => bool_decide (f !! removelast k = Some NDir) && bool_decide (good_name n)
  end.

Lemma wf_fs_keys (f : fs) :
  f !! [] = Some NDir -> forallb (key_ok f) (map_to_list f).*1 = true -> wf_fs f.
Proof.
  intros Hr H. rewrite forallb_forall in H.
  assert (Hk : forall d n, is_Some (f !! (d ++ [n])) -> f !! d = Some NDir /\ good_name n).
  { intros d n [v Hv]. assert (Hin : key_ok f (d ++ [n]) = true).
    { apply H, list_elem_of_In, list_elem_of_fmap. exists (d ++ [n], v). by rewrite elem_of_map_to_list. }
    unfold key_ok in Hin. rewrite removelast_last, last_snoc in Hin.
    by apply andb_true_iff in Hin as [?%bool_decide_eq_true ?%bool_decide_eq_true]. }
  constructor; [done|..]; intros d n Hn; by apply Hk in Hn as [??].
Qed.

Lemma example_fs_wf : wf_fs example_fs.
Proof. apply wf_fs_keys; vm_compute; reflexivity. Qed.

Lemma sorted_listing_witness :
  exists xs,
    tinydir_open_sorted [] id example_fs [SLASH; 100] = OOpen (mkDir [SLASH; 100] [] (Some xs))
    /\ map fname xs = [dot; dotdot; [65]; [98]].
Proof.
  edestruct (sorted_listing [] id example_fs [SLASH; 100]) as (xs & E & _).
  - done.
  - apply example_fs_wf.
  - unfold plain. vm_compute. set_solver.
  - done.
  - vm_compute. reflexivity.
  - vm_compute. reflexivity.
  - exists xs. split; [exact E|]. vm_compute in E. injection E as <-. reflexivity.
Defined.
