(* ===== verification/FileSystem.v ===== *)
(** * Paths

    The namespace FileSystem of src/webapp/src/FileSystem.cpp: [MakePath] creates the
    directories of a path, [DeletePath] removes a directory with what it holds, both
    over the directory reader of [TinyDir].  What [readdir] gives is taken when the
    directory is opened. *)

From Stdlib Require Import ZArith Lia.
From stdpp Require Import base list gmap numbers option.
From S2P Require Import Prelude WebappStr TinyDir.
Open Scope Z_scope.
Open Scope webapp_scope.

(** ** MakePath and DeletePath *)
Section Paths.
Variables (cwd : list name) (order : list name -> list name).

(** The loop of [MakePath], from [i] for [n] rounds: the file system, the bytes of the
    path and the value returned.  Closing a directory that was never initialised is
    undefined. *)
Fixpoint make_loop (f : fs) (buf : list Z) (i n : nat) : res (fs * list Z * bool) :=
  match n with
  | O => Ok (f, buf, true)
  | S n =>
      match buf !! i with
      | None => Undef
      | Some c =>
          if (c =? SLASH) || (c =? 0) then
            let buf0 := <[i := 0]> buf in
            let path := cstr buf0 in
            match tinydir_open cwd order f path with
            | OOpen _ => make_loop f (<[i := SLASH]> buf0) (S i) n
            | o =>
                match tinydir_create cwd f path with
                | None => Ok (f, buf0, false)
                | Some f' =>
                    match o with
                    | OEarly => Undef
                    | _ => make_loop f' (<[i := SLASH]> buf0) (S i) n
                    end
                end
            end
          else make_loop f buf (S i) n
      end
  end.

Definition MakePath (f : fs) (data : list Z) (len : nat) : res (fs * list Z * bool) :=
  let '(buf, nFilename) := tinydir_todir data len in
  make_loop f buf 0 (S (len - nFilename)).

(** The loop of [DeletePath] over the entries; [del] deletes a directory.  An entry
    that cannot be read leaves [f.is_dir] uninitialised. *)
Fixpoint delete_loop (del : fs -> list Z -> res fs) (path : list Z) (es : list name) (f : fs) : res fs :=
  match es with
  | [] => Ok f
  | _ :: es' =>
      match tinydir_readfile cwd f (mkDir path es None) with
      | None => Undef
      | Some x =>
          let! f' :=
            if negb (is_dir x) then Ok (default f (unlink cwd f (fpath x)))
            else if negb (bool_decide (head (fname x) = Some DOT)) then del f (fpath x)
            else Ok f in
          delete_loop del path es' f'
      end
  end.

(** [fuel] bounds the depth of the recursion. *)
Fixpoint DeletePath (fuel : nat) (f : fs) (path : list Z) : res fs :=
  match fuel with
  | O => Undef
  | S fuel =>
      let! f' :=
        match tinydir_open cwd order f path with
        | OEarly => Undef
        | OBail d | OOpen d => delete_loop (DeletePath fuel) path (entries d) f
        end in
      Ok (default f' (rmdir cwd f' path))
  end.
End Paths.

(** ** Deleting a tree *)

(** The tree without what is at or under [d]. *)
Definition remove_tree (d : list name) (f : fs) : fs := filter (fun kv => ~ d `prefix_of` kv.1) f.

Lemma lookup_remove_tree d f k :
  remove_tree d f !! k = if decide (d `prefix_of` k) then None else f !! k.
Proof.
  unfold remove_tree. rewrite map_lookup_filter. destruct (f !! k) as [v|]; simpl; [|by case_decide].
  destruct (decide (d `prefix_of` k)) as [E|E]; case_guard; done.
Qed.

Lemma prefix_snoc_inv {A} (d k : list A) n : d `prefix_of` k ++ [n] -> d = k ++ [n] \/ d `prefix_of` k.
Proof.
  intros [x Hx]. destruct x as [|m x _] using rev_ind; [left; by rewrite app_nil_r in Hx|].
  right. exists x. rewrite app_assoc in Hx. by apply app_inj_tail in Hx as [-> _].
Qed.

Lemma remove_tree_wf d f : wf_fs f -> d <> [] -> wf_fs (remove_tree d f).
Proof.
  intros Hf Hd.
  assert (Hs : forall e n, is_Some (remove_tree d f !! (e ++ [n])) ->
             is_Some (f !! (e ++ [n])) /\ ~ d `prefix_of` e).
  { intros e n. rewrite lookup_remove_tree. case_decide as E; [by intros []|]. intros H. split; [done|].
    intros [x ->]. apply E. exists (x ++ [n]). by rewrite app_assoc. }
  constructor.
  - rewrite lookup_remove_tree, decide_False; [apply Hf|]. intros [x Hx]. by destruct d.
  - intros e n [H1 H2]%Hs. rewrite lookup_remove_tree, decide_False by done. by eapply wf_parent.
  - intros e n [H1 _]%Hs. by eapply wf_names.
Qed.

(** A file is a tree of its own. *)
Lemma delete_file f d bs : wf_fs f -> f !! d = Some (NFile bs) -> delete d f = remove_tree d f.
Proof.
  intros Hf Hd. apply map_eq. intros k. rewrite lookup_remove_tree. case_decide as E.
  - destruct E as [x ->]. destruct x as [|n x]; [by rewrite app_nil_r, lookup_delete_eq|].
    rewrite lookup_delete_ne by (intros E; apply (f_equal length) in E; rewrite length_app in E; simpl in E; lia).
    destruct (f !! (d ++ n :: x)) eqn:Ex; [|done].
    pose proof (wf_prefix f d (n :: x) Hf ltac:(done) ltac:(eauto)) as H. congruence.
  - rewrite lookup_delete_ne; [done|]. by intros ->.
Qed.

(** The trees under [d] of the names of a list. *)
Definition remove_names (d : list name) (ns : list name) (f : fs) : fs :=
  foldl (fun f n => remove_tree (d ++ [n]) f) f ns.

Lemma lookup_remove_names d ns f k :
  remove_names d ns f !! k
  = if decide (Exists (fun n => d ++ [n] `prefix_of` k) ns) then None else f !! k.
Proof.
  revert f. induction ns as [|n ns IH]; intros f; [rewrite decide_False; [done|]; intros H; inversion H|].
  simpl. fold (remove_names d ns (remove_tree (d ++ [n]) f)). rewrite IH, lookup_remove_tree.
  repeat case_decide; rewrite ?Exists_cons in *; tauto.
Qed.

Lemma remove_tree_bad d n f : wf_fs f -> ~ good_name n -> remove_tree (d ++ [n]) f = f.
Proof.
  intros Hf Hn. apply map_eq. intros k. rewrite lookup_remove_tree. case_decide as E; [|done].
  destruct (f !! k) eqn:Ek; [|done]. exfalso. apply Hn. destruct E as [x ->].
  apply (wf_names f Hf d n). destruct x as [|m x]; [rewrite app_nil_r in Ek; eauto|].
  rewrite (wf_prefix f (d ++ [n]) (m :: x)); eauto.
Qed.

Lemma prefix_snoc_ne {A} (d : list A) m n k : m <> n -> ~ d ++ [n] `prefix_of` d ++ m :: k.
Proof. intros H E%prefix_app_inv. by apply prefix_cons_inv_1 in E. Qed.

Lemma prefix_snoc_self {A} (d : list A) n : ~ d ++ [n] `prefix_of` d.
Proof. intros E%prefix_length. rewrite length_app in E. simpl in E. lia. Qed.

(** ".": a directory; anything else in the listing is in the tree. *)
Definition listed (f : fs) (d : list name) (n : name) : Prop :=
  n = dot \/ n = dotdot \/ is_Some (f !! (d ++ [n])).

Lemma listed_entry f d n : listed f d n <-> n ∈ dot :: dotdot :: children f d.
Proof. unfold listed. by rewrite !elem_of_cons, elem_of_children. Qed.

Section DeletePath.
Variables (cwd : list name) (order : list name -> list name).
Hypothesis order_perm : forall l, Permutation (order l) l.

(** One entry is removed with what it holds. *)
Lemma delete_entry del p n es f :
  let d := target cwd p in
  wf_fs f -> plain p -> p <> [] -> f !! d = Some NDir -> listed f d n ->
  lenZ p + lenZ n + 1 < _TINYDIR_PATH_MAX ->
  (f !! (d ++ [n]) = Some NDir -> head n <> Some DOT
     /\ del f (p ++ [SLASH] ++ n) = Ok (remove_tree (d ++ [n]) f)) ->
  delete_loop cwd del p (n :: es) f = delete_loop cwd del p es (remove_tree (d ++ [n]) f).
Proof.
  intros d Hf Hpl Hp Hd Hn Hl Hdel. cbn [delete_loop].
  pose proof (proj1 (listed_entry f d n) Hn) as He.
  destruct (stat_entry cwd f p n Hf Hpl Hp Hd He) as [H1 H2].
  rewrite tinydir_readfile_entry by done. unfold entry_of. cbn [is_dir fpath fname].
  destruct Hn as [-> | [-> | Hn]].
  1,2: rewrite stat_dots, bool_decide_true by (done || auto); simpl;
    rewrite remove_tree_bad; [done..|by intros (_ & ? & ? & _)].
  pose proof (wf_names f Hf _ _ Hn) as Hg.
  rewrite stat_child by (done || by apply elem_of_children). fold d.
  destruct Hn as [[|bs] Hn].
  - destruct (Hdel Hn) as [Hh ->]. rewrite !bool_decide_true, bool_decide_false by done. done.
  - rewrite (bool_decide_false (f !! (d ++ [n]) = Some NDir)) by congruence. cbn [negb]. unfold unlink.
    rewrite resolve_target; [..|rewrite target_child by done; by eexists]; try done.
    + rewrite target_child by done. simpl. fold d. rewrite Hn. simpl. by rewrite (delete_file f _ bs).
    + by destruct p.
    + by apply plain_child.
Qed.

Lemma delete_loop_names del p es f :
  let d := target cwd p in
  wf_fs f -> plain p -> p <> [] -> f !! d = Some NDir -> NoDup es ->
  (forall n, n ∈ es -> listed f d n /\ lenZ p + lenZ n + 1 < _TINYDIR_PATH_MAX) ->
  (forall n f', n ∈ es -> f !! (d ++ [n]) = Some NDir -> wf_fs f' ->
     (forall k, f' !! (d ++ n :: k) = f !! (d ++ n :: k)) ->
     head n <> Some DOT /\ del f' (p ++ [SLASH] ++ n) = Ok (remove_tree (d ++ [n]) f')) ->
  delete_loop cwd del p es f = Ok (remove_names d es f).
Proof.
  intros d. revert f. induction es as [|n es IH]; intros f Hf Hpl Hp Hd Hnd Hes Hdel; [done|].
  apply list.NoDup_cons in Hnd as [Hn Hnd]. destruct (Hes n) as [Hl Hlen]; [by left|].
  rewrite delete_entry; [|done..|by intros E; apply Hdel; [left|..]].
  simpl. fold d (remove_names d es (remove_tree (d ++ [n]) f)).
  assert (Hsame : forall m k, m ∈ es -> remove_tree (d ++ [n]) f !! (d ++ m :: k) = f !! (d ++ m :: k)).
  { intros m k Hm. rewrite lookup_remove_tree, decide_False; [done|]. apply prefix_snoc_ne. by intros ->. }
  apply IH; try done.
  - apply remove_tree_wf; [done|]. by destruct d.
  - rewrite lookup_remove_tree, decide_False; [done|]. apply prefix_snoc_self.
  - intros m Hm. destruct (Hes m) as [Hlm ?]; [by right|]. split; [|done].
    destruct Hlm as [?|[?|?]]; [by left|by right; left|right; right]. by rewrite Hsame.
  - intros m f' Hm Hdir Hf' Hk. rewrite Hsame in Hdir by done.
    apply Hdel; [by right|done|done|]. intros k. by rewrite Hk, Hsame.
Qed.

(** What [DeletePath] needs of the tree at [p]: the paths fit tinydir's buffers, the
    depth is bounded, and no directory in it has a name that starts with a dot. *)
Definition joined (k : list name) : Z := foldr (fun n a => 1 + lenZ n + a) 0 k.
Record deletable (fuel : nat) (f : fs) (p : list Z) : Prop := mkDeletable {
  del_fits k : is_Some (f !! (target cwd p ++ k)) -> lenZ p + joined k + 3 < _TINYDIR_PATH_MAX;
  del_depth k : is_Some (f !! (target cwd p ++ k)) -> (length k < fuel)%nat;
  del_visible k n : f !! (target cwd p ++ k ++ [n]) = Some NDir -> head n <> Some DOT }.

Lemma deletable_child fuel f f' p n :
  p <> [] -> good_name n -> deletable (S fuel) f p ->
  (forall k, f' !! (target cwd p ++ n :: k) = f !! (target cwd p ++ n :: k)) ->
  deletable fuel f' (p ++ [SLASH] ++ n).
Proof.
  intros Hp Hn [H1 H2 H3] Hk. split; [intros k|intros k|intros k m];
    rewrite target_child, <- app_assoc by done; simpl; rewrite Hk.
  - intros H%H1. simpl in H. rewrite length_app. simpl. lia.
  - intros H%H2. simpl in H. lia.
  - apply (H3 (n :: k)).
Qed.

Lemma ends_in_dot_child p n : good_name n -> ends_in_dot (p ++ [SLASH] ++ n) = false.
Proof.
  intros (H1 & H2 & _ & H4 & _). unfold ends_in_dot. simpl.
  rewrite split_path_slash, (split_path_word n), List.filter_app by done. simpl.
  rewrite (bool_decide_false (n = [])) by done. simpl. apply bool_decide_eq_false. rewrite last_snoc. congruence.
Qed.

Lemma entries_NoDup f d : wf_fs f -> NoDup (dot :: dotdot :: children f d).
Proof.
  intros Hf.
  assert (Hg : forall n, n ∈ children f d -> n <> dot /\ n <> dotdot).
  { intros n Hn%elem_of_children. apply (wf_names f Hf) in Hn as (_ & ? & ? & _). done. }
  apply list.NoDup_cons. split; [|apply list.NoDup_cons; split; [|apply children_NoDup]].
  - rewrite elem_of_cons. intros [E|E%Hg]; [done|]. by destruct E.
  - intros E%Hg. by destruct E.
Qed.

(** With its entries gone the directory goes too. *)
Lemma rmdir_emptied f p es :
  wf_fs f -> plain p -> p <> [] -> target cwd p <> [] -> ends_in_dot p = false ->
  f !! target cwd p = Some NDir -> (forall n, n ∈ children f (target cwd p) -> n ∈ es) ->
  wf_fs (remove_names (target cwd p) es f) ->
  rmdir cwd (remove_names (target cwd p) es f) p = Some (remove_tree (target cwd p) f).
Proof.
  intros Hf Hpl Hp Ht He Hd Hes Hwf. set (d := target cwd p) in *. set (f1 := remove_names d es f) in *.
  assert (Hd1 : f1 !! d = Some NDir).
  { unfold f1. rewrite lookup_remove_names, decide_False; [done|].
    intros (n & _ & Hn)%list.Exists_exists. by apply prefix_snoc_self in Hn. }
  assert (Hc : children f1 d = []).
  { apply elem_of_nil_inv. intros n [v Hn]%elem_of_children. unfold f1 in Hn. rewrite lookup_remove_names in Hn.
    case_decide as Hx; [done|]. apply Hx, list.Exists_exists. exists n. split; [|done].
    apply Hes, elem_of_children. eauto. }
  unfold rmdir. rewrite resolve_target by (done || fold d; eauto). simpl. fold d.
  rewrite Hd1, Hc, He, bool_decide_false by done. simpl. f_equal. apply map_eq. intros k.
  rewrite lookup_remove_tree. case_decide as E.
  - destruct E as [[|n x] ->]; [by rewrite app_nil_r, lookup_delete_eq|].
    rewrite lookup_delete_ne by (intros E; apply (f_equal length) in E; rewrite length_app in E; simpl in E; lia).
    destruct (f1 !! (d ++ n :: x)) eqn:Ex; [|done]. exfalso.
    assert (Hn : n ∈ children f1 d); [|rewrite Hc in Hn; by apply not_elem_of_nil in Hn].
    apply elem_of_children. destruct x as [|m x]; [eauto|].
    rewrite (wf_prefix f1 (d ++ [n]) (m :: x) Hwf ltac:(done)); [eauto|]. rewrite <- app_assoc. eauto.
  - rewrite lookup_delete_ne by (by intros ->). unfold f1. rewrite lookup_remove_names, decide_False; [done|].
    intros (n & _ & [x ->])%list.Exists_exists. apply E. exists (n :: x). by rewrite <- app_assoc.
Qed.

Lemma remove_names_wf d es f : wf_fs f -> wf_fs (remove_names d es f).
Proof.
  revert f. induction es as [|n es IH]; intros f Hf; [done|]. apply IH, remove_tree_wf; [done|]. by destruct d.
Qed.

End DeletePath.


(** ** Making a path *)

Definition add_dir (f : fs) (d : list name) : fs :=
  match f !! d with Some _ => f | None => <[d := NDir]> f end.

(** The directories from [base] down through [ws], those that are missing made. *)
Fixpoint make_dirs (f : fs) (base ws : list name) : fs :=
  match ws with
  | [] => f
  | w :: ws => make_dirs (add_dir f (base ++ [w])) (base ++ [w]) ws
  end.

Lemma make_dirs_snoc f base ws w :
  make_dirs f base (ws ++ [w]) = add_dir (make_dirs f base ws) (base ++ ws ++ [w]).
Proof.
  revert f base. induction ws as [|v ws IH]; intros f base; simpl; [done|].
  by rewrite IH, <- app_assoc.
Qed.

Lemma lookup_add_dir f d k :
  add_dir f d !! k = if decide (k = d /\ f !! d = None) then Some NDir else f !! k.
Proof.
  unfold add_dir. destruct (f !! d) eqn:E; case_decide as H; try done.
  - by destruct H.
  - destruct H as [-> _]. by rewrite lookup_insert_eq.
  - rewrite lookup_insert_ne; [done|]. intros ->. by apply H.
Qed.

Lemma add_dir_wf f d w :
  wf_fs f -> f !! d = Some NDir -> good_name w -> wf_fs (add_dir f (d ++ [w])).
Proof.
  intros Hf Hd Hw.
  assert (Hold : forall k, f !! k = Some NDir -> add_dir f (d ++ [w]) !! k = Some NDir).
  { intros k Hk. rewrite lookup_add_dir. by case_decide. }
  assert (Hn : forall e n, is_Some (add_dir f (d ++ [w]) !! (e ++ [n])) ->
             e = d /\ n = w \/ is_Some (f !! (e ++ [n]))).
  { intros e n. rewrite lookup_add_dir. case_decide as H; [|by right].
    left. destruct H as [H _]. by apply app_inj_tail in H. }
  constructor.
  - apply Hold, Hf.
  - intros e n [[-> ->]|H]%Hn; apply Hold; [done|]. by eapply wf_parent.
  - intros e n [[-> ->]|H]%Hn; [done|]. by eapply wf_names.
Qed.

(** None of the directories to make is a file. *)
Definition no_file (f : fs) (base ws : list name) : Prop :=
  forall a b bs, ws = a ++ b -> f !! (base ++ a) <> Some (NFile bs).

Lemma make_dirs_wf f base ws :
  wf_fs f -> f !! base = Some NDir -> Forall good_name ws -> no_file f base ws ->
  wf_fs (make_dirs f base ws) /\ make_dirs f base ws !! (base ++ ws) = Some NDir.
Proof.
  intros Hf Hb Hws. revert f base Hf Hb. induction Hws as [|w ws Hw Hws IH]; intros f base Hf Hb Hno; simpl.
  { by rewrite app_nil_r. }
  assert (Hd : add_dir f (base ++ [w]) !! (base ++ [w]) = Some NDir).
  { rewrite lookup_add_dir. case_decide as E; [done|]. destruct (f !! (base ++ [w])) as [[|bs]|] eqn:Ew; [done| |tauto].
    by destruct (Hno [w] ws bs). }
  destruct (IH (add_dir f (base ++ [w])) (base ++ [w])) as [H1 H2].
  - by apply add_dir_wf.
  - done.
  - intros a b bs ->. rewrite lookup_add_dir. case_decide; [done|]. rewrite <- app_assoc. by apply (Hno (w :: a) b).
  - split; [done|]. by rewrite <- app_assoc in H2.
Qed.

Lemma lookup_make_dirs_old f base ws k v : f !! k = Some v -> make_dirs f base ws !! k = Some v.
Proof.
  revert f base. induction ws as [|w ws IH]; intros f base H; simpl; [done|]. apply IH.
  rewrite lookup_add_dir. case_decide as E; [|done]. destruct E as [-> E]. congruence.
Qed.

Lemma lookup_make_dirs_new f base ws k v :
  f !! k = None -> f !! base = Some NDir ->
  make_dirs f base ws !! k = Some v <-> v = NDir /\ exists a b, ws = a ++ b /\ k = base ++ a.
Proof.
  intros Hk Hb. revert v. induction ws as [|w ws IH] using rev_ind; intros v; simpl.
  { split; [by rewrite Hk|]. intros (-> & a & b & [-> ->]%(eq_sym (x:=_))%app_eq_nil & ->).
    rewrite app_nil_r in Hk. congruence. }
  rewrite make_dirs_snoc, lookup_add_dir. case_decide as E.
  - destruct E as [-> E]. split; [|by intros [-> _]]. intros [= <-]. split; [done|].
    exists (ws ++ [w]), []. by rewrite app_nil_r.
  - rewrite IH. split.
    + intros (-> & a & b & -> & ->). split; [done|]. exists a, (b ++ [w]). by rewrite app_assoc.
    + intros (-> & a & b & Hab & ->). split; [done|].
      destruct b as [|x b _] using rev_ind.
      * rewrite app_nil_r in Hab. subst a. exfalso. apply E. split; [done|].
        destruct (make_dirs f base ws !! (base ++ ws ++ [w])) eqn:Em; [|done].
        destruct (proj1 (IH _) eq_refl) as (_ & a & b & Hw & Hk').
        apply app_inv_head in Hk'. apply (f_equal length) in Hk', Hw. rewrite !length_app in *. simpl in *. lia.
      * rewrite app_assoc in Hab. apply app_inj_tail in Hab as [-> ->]. eauto.
Qed.

Lemma split_path_bytes p w c : w ∈ split_path p -> c ∈ w -> c ∈ p /\ c <> SLASH.
Proof.
  revert w. induction p as [|x p IH]; intros w; simpl.
  { intros ->%list_elem_of_singleton Hc. by apply not_elem_of_nil in Hc. }
  destruct (Z.eqb_spec x SLASH) as [->|Hx].
  - intros [-> | Hw]%elem_of_cons Hc; [by apply not_elem_of_nil in Hc|].
    destruct (IH w Hw Hc). split; [by right|done].
  - destruct (split_path p) as [|u us] eqn:Es; [by apply split_path_nil in Es|].
    intros [-> | Hw]%elem_of_cons Hc.
    + apply elem_of_cons in Hc as [-> | Hc]; [split; [by left|done]|].
      destruct (IH u); [by left|done|]. split; [by right|done].
    + destruct (IH w); [by right|done|]. split; [by right|done].
Qed.

Lemma split_path_removelast p : exists w, split_path p = removelast (split_path p) ++ [w].
Proof. exists (List.last (split_path p) []). apply app_removelast_last, split_path_nil. Qed.

Lemma elem_of_norm w ws : w ∈ norm ws <-> w ∈ ws /\ w <> [] /\ w <> dot.
Proof.
  induction ws as [|v ws IH]; [set_solver|]. rewrite norm_cons. case_bool_decide as E; set_solver.
Qed.

(** The components a path may have. *)
Definition short_names (p : list Z) : Prop :=
  Forall (fun w => lenZ w < _TINYDIR_FILENAME_MAX) (split_path p).

Lemma norm_good_names p : plain p -> 0 ∉ p -> short_names p -> Forall good_name (norm (split_path p)).
Proof.
  intros Hpl H0 Hs. apply List.Forall_forall. intros w Hw%list_elem_of_In%elem_of_norm.
  destruct Hw as (Hw & H1 & H2). unfold good_name. split_and!; try done.
  - intros ->. by apply Hpl.
  - intros H. by apply (split_path_bytes p w SLASH) in H as [_ ?].
  - intros H. by apply (split_path_bytes p w 0) in H as [? _].
  - by apply (Forall_elem _ _ _ Hs) in Hw.
Qed.

Lemma insert_middle {A} (q : list A) c d r : <[length q := d]> (q ++ c :: r) = q ++ d :: r.
Proof. induction q as [|x q IH]; simpl; [done|]. by rewrite IH. Qed.

(** The last '/' of a path is the one [tinydir_todir] takes. *)
Lemma todir_last_from p t k :
  p <> [] -> SLASH ∉ t -> todir_loop (p ++ SLASH :: t) (length p + k) = (p ++ 0 :: t, length p).
Proof.
  intros Hp Ht. induction k as [|k IH].
  - rewrite Nat.add_0_r. destruct (length p) as [|i] eqn:Ei; [by destruct p|]. cbn [todir_loop].
    rewrite <- Ei, (list_lookup_middle p t SLASH (length p)) by done. simpl. by rewrite insert_middle.
  - rewrite Nat.add_succ_r. cbn [todir_loop]. rewrite IH.
    rewrite lookup_app_r by lia. replace (S (length p + k) - length p)%nat with (S k) by lia. simpl.
    destruct (t !! k) as [c|] eqn:Ec; [|done]. rewrite (proj2 (Z.eqb_neq c SLASH)); [done|].
    intros ->. apply Ht. by eapply list_elem_of_lookup_2.
Qed.

Lemma todir_last p file :
  p <> [] -> SLASH ∉ file ->
  todir_loop (p ++ SLASH :: file ++ [0]) (length p + S (length file)) = (p ++ 0 :: file ++ [0], length p).
Proof.
  intros Hp Hf. apply todir_last_from; [done|]. intros [H|H%list_elem_of_singleton]%elem_of_app; done.
Qed.

Lemma todir_head c rest i : exists b, (todir_loop (c :: rest) i).1 = c :: b.
Proof.
  induction i as [|i IH]; cbn [todir_loop]; [simpl; eauto|].
  destruct ((c :: rest) !! S i) as [x|]; [|done]. destruct (x =? SLASH); [simpl; eauto|done].
Qed.

Section MakePath.
Variables (cwd : list name) (order : list name -> list name).

(** One component: the directory is there, or is made. *)
Lemma open_or_create f q :
  wf_fs f -> plain q -> q <> [] -> lenZ q < _TINYDIR_PATH_MAX -> starts_at cwd q = cwd ->
  f !! (cwd ++ norm (removelast (split_path q))) = Some NDir ->
  (forall bs, f !! target cwd q <> Some (NFile bs)) ->
  (exists d, tinydir_open cwd order f q = OOpen d /\ add_dir f (target cwd q) = f)
  \/ tinydir_open cwd order f q = OBail tinydir_close
     /\ tinydir_create cwd f q = Some (add_dir f (target cwd q)).
Proof.
  intros Hf Hpl Hq Hl Hst Hpar Hno.
  destruct (f !! target cwd q) as [[|bs]|] eqn:E; [|by destruct (Hno bs)|].
  { left. eexists. split; [by apply tinydir_open_dir|]. unfold add_dir. by rewrite E. }
  right. assert (Hr : resolve cwd f q = Some (target cwd q)).
  { unfold resolve. destruct q as [|c q']; [done|]. apply walk_norm; [done|]. rewrite Hst.
    intros a b Hab Hb. destruct (split_path_removelast (c :: q')) as [w Hw].
    rewrite Hw, norm_app in Hab. destruct (norm [w]) as [|v vs] eqn:Ew.
    - exfalso. unfold target in E. rewrite Hst, Hw, norm_app, Ew, app_nil_r in E. congruence.
    - assert (vs = []) as ->. { rewrite norm_cons in Ew. by case_bool_decide; simplify_eq. }
      destruct b as [|x b _] using rev_ind; [done|]. rewrite app_assoc in Hab.
      apply app_inj_tail in Hab as [Hab _]. rewrite Hab in Hpar.
      destruct b as [|y b]; [by rewrite app_nil_r in Hpar|].
      apply (wf_prefix f (cwd ++ a) (y :: b) Hf); [done|]. rewrite <- app_assoc. eauto. }
  unfold tinydir_open, opendir, tinydir_create, mkdir, add_dir. rewrite Hr. simpl. rewrite E.
  destruct q as [|c q']; [done|]. simpl length in *.
  rewrite (proj2 (Z.eqb_neq _ _)) by lia. by rewrite (proj2 (Z.leb_gt _ _)) by lia.
Qed.

Lemma cstr_prefix q r : 0 ∉ q -> cstr (q ++ 0 :: r) = q.
Proof.
  induction q as [|c q IH]; simpl; [done|]. intros [Hc Hq]%not_elem_of_cons.
  by rewrite (proj2 (Z.eqb_neq c 0)), IH by done.
Qed.

(** The directories a relative path goes through. *)
Record makeable (f : fs) (p : list Z) : Prop := mkMakeable {
  mk_wf : wf_fs f;
  mk_cwd : f !! cwd = Some NDir;
  mk_nonempty : p <> [];
  mk_relative : head p <> Some SLASH;
  mk_plain : plain p;
  mk_bytes : 0 ∉ p;
  mk_short : short_names p;
  mk_fits : lenZ p < _TINYDIR_PATH_MAX;
  mk_no_file : no_file f cwd (norm (split_path p)) }.

Lemma makeable_prefix f q r : q <> [] -> makeable f (q ++ SLASH :: r) -> makeable f q.
Proof.
  intros Hq [H1 H2 H3 H4 H5 H6 H7 H8 H9]. unfold plain, short_names in *.
  rewrite split_path_slash in *. rewrite length_app in H8. split; try done.
  - by destruct q.
  - intros E. apply H5, elem_of_app. by left.
  - intros E. apply H6, elem_of_app. by left.
  - by apply Forall_app in H7 as [? _].
  - lia.
  - intros a b bs Hab. apply (H9 a (b ++ norm (split_path r)) bs). by rewrite norm_app, Hab, app_assoc.
Qed.

Lemma starts_at_relative p : p <> [] -> head p <> Some SLASH -> starts_at cwd p = cwd.
Proof.
  destruct p as [|c p]; [done|]. simpl. intros _ H. rewrite (proj2 (Z.eqb_neq c SLASH)); congruence.
Qed.

Lemma make_step f q c r n :
  makeable f q -> c = SLASH \/ c = 0 ->
  make_loop cwd order (make_dirs f cwd (norm (removelast (split_path q)))) (q ++ c :: r) (length q) (S n)
  = make_loop cwd order (make_dirs f cwd (norm (split_path q))) (q ++ SLASH :: r) (S (length q)) n.
Proof.
  intros [H1 H2 H3 H4 H5 H6 H7 H8 H9] Hc. cbn [make_loop].
  rewrite (list_lookup_middle q r c (length q)) by done.
  assert ((c =? SLASH) || (c =? 0) = true) as -> by (by destruct Hc as [-> | ->]).
  rewrite !insert_middle, cstr_prefix by done.
  pose proof (norm_good_names q H5 H6 H7) as Hg. destruct (split_path_removelast q) as [w Hw].
  set (ws := removelast (split_path q)) in *. rewrite Hw, norm_app in Hg, H9. apply Forall_app in Hg as [Hg _].
  destruct (make_dirs_wf f cwd (norm ws)) as [Hwf Hd]; try done.
  { intros a b bs E. apply (H9 a (b ++ norm [w])). by rewrite E, app_assoc. }
  assert (Ht : target cwd q = cwd ++ norm ws ++ norm [w]).
  { unfold target. by rewrite starts_at_relative, Hw, norm_app. }
  assert (Hadd : add_dir (make_dirs f cwd (norm ws)) (target cwd q) = make_dirs f cwd (norm (split_path q))).
  { rewrite Ht, Hw, norm_app. rewrite (norm_cons w []). case_bool_decide; simpl.
    - unfold add_dir. by rewrite !app_nil_r, Hd.
    - by rewrite make_dirs_snoc. }
  destruct (open_or_create (make_dirs f cwd (norm ws)) q) as [(d & Ho & Ha)|[Ho Ha]]; try done.
  - by apply starts_at_relative.
  - intros bs Hbs. destruct (f !! target cwd q) as [v|] eqn:Ef.
    + rewrite (lookup_make_dirs_old _ _ _ _ _ Ef) in Hbs. simplify_eq. rewrite Ht in Ef.
      by apply (H9 (norm ws ++ norm [w]) [] bs) in Ef; [|rewrite app_nil_r].
    + by apply lookup_make_dirs_new in Hbs as [? _].
  - rewrite Ho, <- Hadd, Ha. done.
  - rewrite Ho, Ha, <- Hadd. done.
Qed.

Lemma make_loop_all f p rest r q :
  makeable f p -> p = q ++ r ->
  make_loop cwd order (make_dirs f cwd (norm (removelast (split_path q)))) (p ++ 0 :: rest)
            (length q) (S (length r))
  = Ok (make_dirs f cwd (norm (split_path p)), p ++ SLASH :: rest, true).
Proof.
  intros Hm. revert q. induction r as [|c r IH]; intros q Hp.
  { rewrite app_nil_r in Hp. subst q. by rewrite make_step by auto. }
  specialize (IH (q ++ [c])). rewrite <- app_assoc, length_app, Nat.add_1_r in IH. simpl in IH.
  specialize (IH Hp). destruct (decide (c = SLASH)) as [->|Hc].
  - assert (Hq : makeable f q).
    { rewrite Hp in Hm. apply (makeable_prefix f q r); [|done]. intros ->. by destruct (mk_relative _ _ Hm). }
    rewrite split_path_slash in IH. simpl in IH. rewrite removelast_last in IH. rewrite <- IH, Hp, <- app_assoc.
    simpl app. by rewrite make_step by auto.
  - rewrite split_path_char in IH by done. rewrite <- IH. cbn [make_loop length].
    assert (c <> 0). { intros ->. apply (mk_bytes _ _ Hm). rewrite Hp. set_solver. }
    rewrite Hp, <- app_assoc. simpl app. rewrite (list_lookup_middle q _ c (length q)) by done.
    by rewrite !(proj2 (Z.eqb_neq _ _)) by done.
Qed.

(** [MakePath] on a relative path p/file makes the directories of p that are missing,
    and nothing else: what was there stays, every new key is a directory on the way to
    the file, and all of them are there; the path is handed back as it was. *)
Theorem MakePath_creates f p file :
  makeable f p -> SLASH ∉ file ->
  exists f',
    MakePath cwd order f (p ++ SLASH :: file ++ [0]) (length p + S (length file))
      = Ok (f', p ++ SLASH :: file ++ [0], true)
    /\ wf_fs f'
    /\ (forall a b, norm (split_path p) = a ++ b -> f' !! (cwd ++ a) = Some NDir)
    /\ (forall k v, f !! k = Some v -> f' !! k = Some v)
    /\ (forall k v, f !! k = None -> f' !! k = Some v ->
          v = NDir /\ exists a b, norm (split_path p) = a ++ b /\ k = cwd ++ a).
Proof.
  intros Hm Hfile. exists (make_dirs f cwd (norm (split_path p))).
  destruct (make_dirs_wf f cwd (norm (split_path p))) as [Hwf Hd].
  { apply Hm. } { apply Hm. } { apply norm_good_names; apply Hm. } { apply Hm. }
  split_and!.
  - unfold MakePath, tinydir_todir. rewrite todir_last by (done || apply Hm). simpl.
    replace (length p + S (length file) - (length p + S (length file) - length p))%nat with (length p) by lia.
    apply (make_loop_all f p (file ++ [0]) p [] Hm). done.
  - done.
  - intros a b Hab. destruct b as [|x b]; [rewrite app_nil_r in Hab; by rewrite <- Hab|].
    apply (wf_prefix _ (cwd ++ a) (x :: b) Hwf); [done|]. rewrite <- app_assoc, <- Hab. eauto.
  - intros k v. apply lookup_make_dirs_old.
  - intros k v Hk H. by apply lookup_make_dirs_new in H; [|done|apply Hm].
Qed.

(** On a path that starts with '/' [MakePath] always fails, making no directory, and
    leaves a 0 in the place of that byte: the loop takes the empty string before the
    first '/' for a directory to make. *)
Theorem MakePath_absolute f rest len :
  MakePath cwd order f (SLASH :: rest) len
  = Ok (f, <[0%nat := 0]> (tinydir_todir (SLASH :: rest) len).1, false).
Proof.
  unfold MakePath. destruct (tinydir_todir (SLASH :: rest) len) as [buf k] eqn:E. simpl.
  assert (exists b, buf = SLASH :: b) as [b ->].
  { unfold tinydir_todir in E. injection E as <- _. apply todir_head. }
  done.
Qed.
End MakePath.

(** A working directory "w" with nothing in it; the path "a/b/f". *)
Lemma MakePath_creates_witness :
  exists f', MakePath [[119]] id (<[[] := NDir]> {[ [[119]] := NDir ]}) [97; SLASH; 98; SLASH; 102; 0] 5
             = Ok (f', [97; SLASH; 98; SLASH; 102; 0], true)
             /\ f' !! [[119]; [97]; [98]] = Some NDir.
Proof.
  edestruct (MakePath_creates [[119]] id (<[[] := NDir]> {[ [[119]] := NDir ]}) [97; SLASH; 98] [102])
    as (f' & E & _ & Hd & _).
  - split; try done.
    + apply wf_fs_keys; vm_compute; reflexivity.
    + unfold plain. vm_compute. set_solver.
    + vm_compute. set_solver.
    + repeat constructor.
    + intros a b bs Hab. change (norm (split_path [97; SLASH; 98])) with [[97]; [98]] in Hab.
      destruct a as [|x [|y [|z a]]]; simplify_eq/=; vm_compute; congruence.
  - set_solver.
  - exists f'. split; [exact E|]. by apply (Hd [[97]; [98]] []).
Defined.
