(* ===== verification/File.v ===== *)
(** * Files

    The class [File] of src/webapp/src/FileSystem.cpp over a model of stdio: a stream is
    a position in a file of the tree of [TinyDir] with the mode it was opened in.  The
    hooks that give the class to Lua are those of src/webapp/src/Hooks.cpp. *)

From Stdlib Require Import ZArith Lia.
From stdpp Require Import base list gmap numbers option.
From S2P Require Import Prelude WebappStr TinyDir.
Open Scope Z_scope.
Open Scope webapp_scope.

(** ** stdio *)

Record stream := mkStream {
  st_key : list name;
  st_pos : Z;
  st_read : bool;
  st_write : bool;
  st_append : bool }.

Definition set_pos (s : stream) (p : Z) : stream :=
  mkStream (st_key s) p (st_read s) (st_write s) (st_append s).

(** The bytes of the file a stream is on. *)
Definition content (f : fs) (s : stream) : list Z :=
  match f !! st_key s with Some (NFile bs) => bs | _ => [] end.

Section Stdio.
Variable cwd : list name.

Definition r_ : Z := 114.
Definition w_ : Z := 119.
Definition a_ : Z := 97.
Definition plus_ : Z := 43.

(** [fopen]: a stream, none, or undefined when a directory is opened to read, which is
    not modelled. *)
Definition fopen (f : fs) (path flags : list Z) : res (option (fs * stream)) :=
  match flags with
  | [] => Ok None
  | m :: opts =>
      let plus := bool_decide (plus_ ∈ opts) in
      match resolve cwd f path with
      | None => Ok None
      | Some d =>
          if m =? r_ then
            match f !! d with
            | Some (NFile _) => Ok (Some (f, mkStream d 0 true plus false))
            | Some NDir => if plus then Ok None else Undef
            | None => Ok None
            end
          else if m =? w_ then
            match f !! d with
            | Some NDir => Ok None
            | _ => Ok (Some (<[d := NFile []]> f, mkStream d 0 plus true false))
            end
          else if m =? a_ then
            match f !! d with
            | Some NDir => Ok None
            | Some (NFile bs) => Ok (Some (f, mkStream d (if plus then 0 else lenZ bs) plus true true))
            | None => Ok (Some (<[d := NFile []]> f, mkStream d 0 plus true true))
            end
          else Ok None
      end
  end.

Definition ftello (s : stream) : Z := st_pos s.

(** [fseeko]: SEEK_SET, SEEK_CUR and SEEK_END; any other [whence] is an error and
    the position stays. *)
Definition fseeko (f : fs) (s : stream) (off whence : Z) : stream :=
  if whence =? 0 then set_pos s off
  else if whence =? 1 then set_pos s (st_pos s + off)
  else if whence =? 2 then set_pos s (lenZ (content f s) + off)
  else s.

Definition fread (f : fs) (s : stream) (n : Z) : list Z * stream :=
  if st_read s then
    let bs := take (Z.to_nat n) (drop (Z.to_nat (st_pos s)) (content f s)) in
    (bs, set_pos s (st_pos s + lenZ bs))
  else ([], s).

(** Bytes written at a position; a gap before it is filled with 0. *)
Definition overwrite (bs : list Z) (p : nat) (w : list Z) : list Z :=
  take p bs ++ replicate (p - length bs) 0 ++ w ++ drop (p + length w) bs.

Definition fwrite (f : fs) (s : stream) (w : list Z) : fs * stream :=
  if st_write s then
    let p := if st_append s then lenZ (content f s) else st_pos s in
    (<[st_key s := NFile (overwrite (content f s) (Z.to_nat p) w)]> f, set_pos s (p + lenZ w))
  else (f, s).

(** ** The class *)

Record File := mkFileObj {
  _fileName : list Z;
  _flags : list Z;
  buffer : option (list Z);
  pszFile : option stream;
  size : Z;
  refresh : bool }.

Definition File_new : File := mkFileObj [] [] None None 0 true.

(** The fields a method sets. *)
Definition with_stream (o : File) (s : option stream) : File :=
  mkFileObj (_fileName o) (_flags o) (buffer o) s (size o) (refresh o).
Definition with_size (o : File) (n : Z) (r : bool) : File :=
  mkFileObj (_fileName o) (_flags o) (buffer o) (pszFile o) n r.
Definition with_buffer (o : File) (bs : list Z) : File :=
  mkFileObj (_fileName o) (_flags o) (Some bs) (pszFile o) (size o) (refresh o).

(** [Size]: stdio on a null stream is undefined. *)
Definition Size (f : fs) (o : File) : res (File * Z) :=
  if refresh o then
    match pszFile o with
    | None => Undef
    | Some s =>
        let old := i32 (ftello s) in
        let s1 := fseeko f s 0 2 in
        let n := ftello s1 in
        let s2 := fseeko f s1 0 old in
        Ok (with_size (with_stream o (Some s2)) n false, n)
    end
  else Ok (o, size o).

Definition Open (f : fs) (o : File) (fileName flags : list Z) : res (fs * File * bool) :=
  let! r := fopen f fileName flags in
  match r with
  | Some (f', s) =>
      let o1 := mkFileObj fileName flags (buffer o) (Some s) (size o) (refresh o) in
      let! z := Size f' o1 in Ok (f', z.1, true)
  | None => let! z := Size f o in Ok (f, z.1, false)
  end.

Definition Detach (o : File) : File * option stream := (with_stream o None, pszFile o).
Definition GetPointer (o : File) : option stream := pszFile o.
Definition Refresh (o : File) : File := with_size o (size o) true.

(** [Close]; the destructor does the same to the stream. *)
Definition Close (o : File) : File := with_stream o None.

(** [Read]: an array of a negative size throws. *)
Definition Read (f : fs) (o : File) (n_bytes : Z) : res (File * Z) :=
  let! z := Size f o in
  let o1 := z.1 in
  let to_read := i16 (if z.2 <? n_bytes then z.2 else n_bytes) in
  match pszFile o1 with
  | None => Undef
  | Some s =>
      let s1 := fseeko f s 0 0 in
      if to_read <? 0 then Throw
      else
        let '(bs, s2) := fread f s1 to_read in
        Ok (with_buffer (with_stream o1 (Some s2)) bs, i16 (lenZ bs))
  end.

Definition Write (f : fs) (o : File) (w : list Z) : fs * File :=
  match pszFile o with
  | None => (f, o)
  | Some s => let '(f', s') := fwrite f s w in (f', with_stream o (Some s'))
  end.

(** ** The hooks *)

Definition File_Open (f : fs) (filename mode : list Z) : res (fs * File) :=
  let! r := Open f File_new filename mode in Ok r.1.
Definition File_Close (o : option File) : option File := Close <$> o.
Definition File_Read (f : fs) (o : option File) (n : Z) : res (option File * Z) :=
  match o with
  | None => Ok (None, 0)
  | Some o => let! r := Read f o n in Ok (Some r.1, r.2)
  end.
Definition File_Write (f : fs) (o : option File) (w : list Z) : fs * option File :=
  match o with
  | None => (f, None)
  | Some o => let '(f', o') := Write f o w in (f', Some o')
  end.
Definition File_Size (f : fs) (o : option File) : res (option File * Z) :=
  match o with
  | None => Ok (None, 0)
  | Some o => let! r := Size f o in Ok (Some r.1, r.2)
  end.
End Stdio.

(** ** Reading and writing *)

(** Changing a file leaves the paths as they were. *)
Lemma walk_file f d bs cur ws :
  f !! d <> Some NDir -> walk (<[d := NFile bs]> f) cur ws = walk f cur ws.
Proof.
  intros Hd. revert cur. induction ws as [|w ws IH]; intros cur; cbn [walk]; [done|].
  case_bool_decide; [done|]. destruct (decide (cur = d)) as [->|Hc].
  - rewrite lookup_insert_eq. by destruct (f !! d) as [[|]|].
  - rewrite lookup_insert_ne by done. by destruct (f !! cur) as [[|]|].
Qed.

Lemma resolve_file cwd f d bs p :
  f !! d <> Some NDir -> resolve cwd (<[d := NFile bs]> f) p = resolve cwd f p.
Proof. intros Hd. destruct p; [done|]. by apply walk_file. Qed.

Lemma content_key f s s' : st_key s = st_key s' -> content f s = content f s'.
Proof. unfold content. by intros ->. Qed.

Lemma set_pos_key s p : st_key (set_pos s p) = st_key s.
Proof. done. Qed.

(** Seeking only moves. *)
Lemma fseeko_moves f s off whence : exists p, fseeko f s off whence = set_pos s p.
Proof.
  unfold fseeko. destruct s as [k p r w a]. repeat case_match; eauto.
Qed.

Lemma Size_stream f o s :
  pszFile o = Some s ->
  exists p n, Size f o = Ok (with_size (with_stream o (Some (set_pos s p))) n false, n)
           /\ n = (if refresh o then lenZ (content f s) else size o).
Proof.
  intros Hs. unfold Size. rewrite Hs. destruct (refresh o) eqn:Er.
  - destruct (fseeko_moves f (fseeko f s 0 2) 0 (i32 (ftello s))) as [p ->].
    exists p, (lenZ (content f s)). unfold fseeko. simpl. rewrite Z.add_0_r. done.
  - exists (st_pos s), (size o). split; [|done]. destruct o, s. simpl in *. by subst.
Qed.

(** [Read] gives the first bytes of the file, wherever the stream is. *)
Lemma Read_prefix f o s n :
  pszFile o = Some s -> st_read s = true -> 0 <= n < 2^15 ->
  (if refresh o then True else size o = lenZ (content f s)) ->
  exists o', Read f o n = Ok (o', Z.min n (lenZ (content f s)))
          /\ buffer o' = Some (take (Z.to_nat n) (content f s)).
Proof.
  intros Hs Hr Hn Hsz. destruct (Size_stream f o s Hs) as (p & m & E & Hm).
  assert (m = lenZ (content f s)) as -> by (by destruct (refresh o); subst m).
  unfold Read. rewrite E. simpl. set (bs := content f s) in *.
  assert (Hlen : i16 (if lenZ bs <? n then lenZ bs else n) = Z.min n (lenZ bs)).
  { rewrite swrap_small; destruct (Z.ltb_spec (lenZ bs) n); simpl; lia. }
  rewrite Hlen. rewrite (proj2 (Z.ltb_ge _ _)) by lia.
  unfold fread, fseeko. simpl. rewrite Hr. simpl. rewrite drop_0.
  rewrite (content_key f (set_pos (set_pos s p) 0) s) by done. fold bs.
  assert (Ht : take (Z.to_nat (Z.min n (lenZ bs))) bs = take (Z.to_nat n) bs).
  { destruct (Z.min_spec n (lenZ bs)) as [[? ->]|[? ->]]; [done|].
    rewrite !take_ge by lia. done. }
  rewrite Ht, length_take. rewrite (swrap_small 16) by (simpl; lia).
  replace (Z.of_nat (Z.to_nat n `min` length bs)) with (Z.min n (lenZ bs)) by lia.
  by eexists.
Qed.

(** Writes one after the other. *)
Definition write_all (f : fs) (o : File) (ws : list (list Z)) : fs * File :=
  foldl (fun st w => Write st.1 st.2 w) (f, o) ws.

Lemma write_all_cons f o w ws :
  write_all f o (w :: ws) = write_all (Write f o w).1 (Write f o w).2 ws.
Proof. unfold write_all. simpl. by destruct (Write f o w). Qed.

(** At the end of a file writes append. *)
Lemma write_all_append f o s ws bs :
  pszFile o = Some s -> st_write s = true -> f !! st_key s = Some (NFile bs) -> st_pos s = lenZ bs ->
  exists o', write_all f o ws = (<[st_key s := NFile (bs ++ concat ws)]> f, o')
          /\ refresh o' = refresh o /\ size o' = size o
          /\ pszFile o' = Some (set_pos s (lenZ (bs ++ concat ws))).
Proof.
  revert f o s bs. induction ws as [|w ws IH]; intros f o s bs Hs Hw Hb Hp.
  { exists o. simpl. rewrite app_nil_r, insert_id by done. split_and!; try done. rewrite Hs. f_equal.
    destruct s. simpl in *. by subst. }
  assert (E : Write f o w = (<[st_key s := NFile (bs ++ w)]> f, with_stream o (Some (set_pos s (lenZ (bs ++ w)))))).
  { unfold Write, fwrite, content. rewrite Hs, Hw, Hb, Hp.
    replace (if st_append s then lenZ bs else lenZ bs) with (lenZ bs) by (by destruct (st_append s)).
    unfold overwrite. rewrite Nat2Z.id, firstn_all, Nat.sub_diag. simpl.
    rewrite drop_ge by lia. rewrite app_nil_r, length_app, Nat2Z.inj_add. done. }
  rewrite write_all_cons, E. destruct (IH (<[st_key s := NFile (bs ++ w)]> f) (with_stream o (Some (set_pos s (lenZ (bs ++ w)))))
    (set_pos s (lenZ (bs ++ w))) (bs ++ w)) as (o' & E' & H1 & H2 & H3); try done.
  { simpl. by rewrite lookup_insert_eq. }
  exists o'. cbn [fst snd concat] in *. rewrite E'. simpl in *. by rewrite insert_insert_eq, app_assoc.
Qed.

(** ** What a client sees *)

Section Client.
Variable cwd : list name.

(** Opening a file in a mode that empties it. *)
Lemma Open_truncates f p d opts :
  resolve cwd f p = Some d -> f !! d <> Some NDir ->
  exists o, Open cwd f File_new p (w_ :: opts) = Ok (<[d := NFile []]> f, o, true)
         /\ refresh o = false /\ size o = 0
         /\ pszFile o = Some (mkStream d 0 (bool_decide (plus_ ∈ opts)) true false).
Proof.
  intros Hp Hd. unfold Open, fopen. rewrite Hp. simpl.
  destruct (f !! d) as [[|bs]|] eqn:E; [done|..]; simpl; unfold Size, fseeko, content; simpl;
    rewrite lookup_insert_eq; simpl; eexists; (split; [reflexivity|done]).
Qed.

Lemma Open_reads f p d bs :
  resolve cwd f p = Some d -> f !! d = Some (NFile bs) ->
  exists o s, Open cwd f File_new p [r_] = Ok (f, o, true)
         /\ refresh o = false /\ size o = lenZ bs
         /\ pszFile o = Some s /\ st_read s = true /\ content f s = bs.
Proof.
  intros Hp Hd. unfold Open, fopen. rewrite Hp. simpl. rewrite Hd. simpl.
  unfold Size, fseeko, content; simpl. rewrite Hd. do 2 eexists.
  split_and!; [reflexivity|reflexivity|simpl; lia|reflexivity|reflexivity|]. simpl. by rewrite Hd.
Qed.

(** Bytes written to a file through one [File], in any number of writes, and closed
    are what another [File] reads from it, as long as they are asked for in one read
    (at most 32767 of them); nothing else in the tree changes. *)
Theorem File_roundtrip f p d ws n :
  resolve cwd f p = Some d -> f !! d <> Some NDir ->
  lenZ (concat ws) <= n < 2^15 ->
  exists o1 o2 f' o3 o4,
    File_Open cwd f p [w_] = Ok (<[d := NFile []]> f, o1)
    /\ write_all (<[d := NFile []]> f) o1 ws = (f', o2)
    /\ f' = <[d := NFile (concat ws)]> f
    /\ pszFile (Close o2) = None
    /\ File_Open cwd f' p [r_] = Ok (f', o3)
    /\ File_Read f' (Some o3) n = Ok (Some o4, lenZ (concat ws))
    /\ buffer o4 = Some (concat ws).
Proof.
  intros Hp Hd Hn. destruct (Open_truncates f p d [] Hp Hd) as (o1 & E1 & H1 & H2 & H3).
  destruct (write_all_append (<[d := NFile []]> f) o1 _ ws [] H3) as (o2 & E2 & H4 & H5 & H6); try done.
  { simpl. by rewrite lookup_insert_eq. }
  simpl in E2. rewrite insert_insert_eq in E2. set (f' := <[d := NFile (concat ws)]> f) in *.
  destruct (Open_reads f' p d (concat ws)) as (o3 & s & E3 & H7 & H8 & H9 & H10 & H11).
  { unfold f'. by rewrite resolve_file. } { unfold f'. by rewrite lookup_insert_eq. }
  destruct (Read_prefix f' o3 s n) as (o4 & E4 & H12); try done; [lia|by rewrite H7, H11|].
  rewrite H11 in E4, H12. exists o1, o2, f', o3, o4. unfold File_Open, File_Read. rewrite E1, E3, E4. simpl.
  split_and!; try done.
  - by rewrite Z.min_r by lia.
  - by rewrite H12, take_ge by lia.
Qed.

(** The first [Open] of a [File] that fails (there is no such file to read, say) calls
    stdio on a null stream: [Size] runs whether or not the file was opened. *)
Theorem Open_missing f p flags :
  fopen cwd f p flags = Ok None -> File_Open cwd f p flags = Undef.
Proof. intros H. unfold File_Open, Open. by rewrite H. Qed.

(** What was written through a [File] opened to write and read is not read back through it: the
    size it caches is that of the file when it was opened. *)
Lemma Read_after_write f p d ws n :
  resolve cwd f p = Some d -> f !! d <> Some NDir -> 0 <= n < 2^15 ->
  exists o1 f' o2 o3,
    File_Open cwd f p [w_; plus_] = Ok (<[d := NFile []]> f, o1)
    /\ write_all (<[d := NFile []]> f) o1 ws = (f', o2)
    /\ f' !! d = Some (NFile (concat ws))
    /\ Read f' o2 n = Ok (o3, 0) /\ buffer o3 = Some [].
Proof.
  intros Hp Hd Hn. destruct (Open_truncates f p d [plus_] Hp Hd) as (o1 & E1 & H1 & H2 & H3).
  destruct (write_all_append (<[d := NFile []]> f) o1 _ ws [] H3) as (o2 & E2 & H4 & H5 & H6); try done.
  { simpl. by rewrite lookup_insert_eq. }
  simpl in E2. exists o1, (<[d := NFile (concat ws)]> (<[d := NFile []]> f)), o2. unfold File_Open. rewrite E1, E2. simpl.
  unfold Read, Size. rewrite H4, H1. simpl. rewrite H6, H5, H2. simpl.
  assert (i16 (if 0 <? n then 0 else n) = 0) as -> by (destruct (Z.ltb_spec 0 n); [done|by replace n with 0 by lia]).
  simpl. unfold fread. simpl. eexists. split_and!; [done|done| |by f_equal|done].
  by rewrite lookup_insert_eq.
Qed.

(** Asked for the size again, a stream that is not at the start is left at the end. *)
Lemma Size_position f o s :
  pszFile o = Some s -> refresh o = true -> 0 < st_pos s < 2^31 ->
  exists o', Size f o = Ok (o', lenZ (content f s))
          /\ pszFile o' = Some (set_pos s (lenZ (content f s))).
Proof.
  intros Hs Hr Hp. unfold Size. rewrite Hr, Hs. simpl. rewrite Z.add_0_r. eexists. split; [done|].
  simpl. unfold ftello. rewrite swrap_small by (simpl; lia). unfold fseeko at 1.
  rewrite (proj2 (Z.eqb_neq (st_pos s) 0)) by lia. unfold fseeko. simpl.
  repeat case_match; simpl; rewrite ?Z.add_0_r; done.
Qed.
End Client.

Lemma File_roundtrip_witness :
  exists o1 o2 f' o3 o4,
    File_Open [] {[ [] := NDir ]} [102] [w_] = Ok (<[[[102]] := NFile []]> {[ [] := NDir ]}, o1)
    /\ write_all (<[[[102]] := NFile []]> {[ [] := NDir ]}) o1 [[1; 2]; [3]] = (f', o2)
    /\ File_Open [] f' [102] [r_] = Ok (f', o3)
    /\ File_Read f' (Some o3) 100 = Ok (Some o4, 3) /\ buffer o4 = Some [1; 2; 3].
Proof.
  destruct (File_roundtrip [] {[ [] := NDir ]} [102] [[102]] [[1; 2]; [3]] 100)
    as (o1 & o2 & f' & o3 & o4 & H1 & H2 & _ & _ & H3 & H4 & H5).
  - reflexivity.
  - vm_compute. congruence.
  - simpl. lia.
  - by exists o1, o2, f', o3, o4.
Defined.

Lemma Open_missing_witness : File_Open [] {[ [] := NDir ]} [102] [r_] = Undef.
Proof. apply (Open_missing [] {[ [] := NDir ]} [102] [r_]). reflexivity. Defined.
