(* ===== verification/Lifecycle.v ===== *)
(** * The application and its workers

    src/webapp/src/Webapp.cpp and the part of src/webapp/src/Workers.cpp that compiles and
    runs scripts and starts and stops threads.  The main thread runs cycles: it runs
    init.lua, which creates the workers, starts them, waits until their threads have
    ended and deletes them.  Each worker has a thread that runs its script, a thread for
    its sockets and, when asked for, one for client sockets.

    What Lua makes of a file is a parameter: [compile] is what the preprocessor and the
    compiler give for a file, [run] the calls of the script interface that a script
    makes before it returns. *)

From Stdlib Require Import ZArith Lia.
From stdpp Require Import base list gmap numbers option.
From S2P Require Import Prelude WebappStr Sockets.
Open Scope Z_scope.
Open Scope webapp_scope.

Record WorkerInit := mkInit {
  _script : list Z;
  port : Z;
  request_method : Z;
  request_size : Z;
  client_sockets : bool;
  queue_size : Z;
  request_pool_size : Z;
  is_init : bool }.

(** The values of a [WorkerInit] that is not set. *)
Definition WorkerInit_default : WorkerInit := mkInit [] 0 0 0 false 1 1 true.

(** The calls of the script interface that change the application. *)
Inductive hook :=
| Worker_Create (init : WorkerInit)
| Worker_ClearCache
| Worker_Shutdown
| Script_Compile (file : list Z).

(** A thread object: without a thread, with one that runs or has ended, or joined. *)
Inductive thr := TNone | TRun | TDone | TJoined.
#[export] Instance thr_eq_dec : EqDecision thr.
Proof. solve_decision. Defined.

Definition joinable (t : thr) : bool := match t with TRun | TDone => true | _ => false end.

(** Where the thread of a worker is in [Execute]. *)
Inductive xpc :=
| X_cleanup | X_compile_init | X_compile_script | X_lookup_init | X_run_init (hs : list hook) | X_zero
| X_lookup | X_run (hs : list hook) | X_stop | X_end.

Record worker := mkWorker {
  w_init : WorkerInit;
  w_request_size : Z;
  w_pool_size : Z;
  w_aborted : bool;
  svc_stopped : bool;
  client_stopped : bool;
  svc_thread : thr;
  client_thread : thr;
  task : thr;
  w_pc : xpc }.

(** [Worker::Worker]; opening the port is left out. *)
Definition Worker_new (init : WorkerInit) : worker :=
  mkWorker init
    (if request_size init =? 0 then 1 else request_size init)
    (pool_size (request_pool_size init))
    false false false TNone TNone TNone X_cleanup.

(** Where the main thread is in [Webapp::Start]: [M_undef] after two threads used the
    workers at the same time, [M_terminate] after std::terminate. *)
Inductive mpc :=
| M_check | M_init | M_start (i : nat) | M_join_svc (i : nat) | M_join_task (i : nat)
| M_delete (i : nat) | M_clear | M_return | M_undef | M_terminate.

Abbreviation script_map := (gmap (list Z) (list Z)).
Record Webapp := mkApp {
  app_aborted : bool;
  workers : list worker;
  scripts : script_map;
  pc : mpc }.

Definition set_pc (a : Webapp) (p : mpc) : Webapp := mkApp (app_aborted a) (workers a) (scripts a) p.
Definition set_workers (a : Webapp) (ws : list worker) : Webapp := mkApp (app_aborted a) ws (scripts a) (pc a).
Definition set_scripts (a : Webapp) (s : script_map) : Webapp := mkApp (app_aborted a) (workers a) s (pc a).

(** "plugins/" and "init.lua". *)
Definition plugins_ : list Z := [112; 108; 117; 103; 105; 110; 115; 47].
Definition init_lua : list Z := [105; 110; 105; 116; 46; 108; 117; 97].

Section Application.
(** [compile path]: nothing when an error stops the compilation before the script is
    stored; otherwise the pieces [lua_dump] writes and whether it succeeds. *)
Variable compile : list Z -> option (list (list Z) * bool).
Variable run : list Z -> list hook.

(** ** Scripts *)

(** [lua_writer] adds a piece to the script. *)
Definition lua_writer (dest piece : list Z) : list Z := dest ++ piece.

(** The scripts, and whether a script is returned. *)
Definition CompileScript (s : script_map) (file : list Z) : script_map * bool :=
  match s !! file with
  | Some _ => (s, true)
  | None =>
      match compile (plugins_ ++ file) with
      | None => (s, false)
      | Some (pieces, _) => (<[file := foldl lua_writer [] pieces]> s, true)
      end
  end.

(** The calls that [RunScript] makes. *)
Definition RunScript (s : script_map) (file : list Z) : list hook :=
  match s !! file with
  | None => []
  | Some chunk => run chunk
  end.

(** ** Calls of the script interface *)

Definition abort_worker (w : worker) : worker :=
  mkWorker (w_init w) (w_request_size w) (w_pool_size w) true (svc_stopped w) (client_stopped w)
           (svc_thread w) (client_thread w) (task w) (w_pc w).

(** A call by the worker [i], or by init.lua on the main thread when [i] is [None].  A
    worker is added to a vector that the main thread goes through without a lock. *)
Definition call (i : option nat) (h : hook) (a : Webapp) : Webapp :=
  let abort a := match i with
                 | Some i => set_workers a (alter abort_worker i (workers a))
                 | None => a
                 end in
  match h with
  | Worker_Create init =>
      match i with
      | None => set_workers a (workers a ++ [Worker_new init])
      | Some _ => set_pc a M_undef
      end
  | Worker_ClearCache => abort a
  | Worker_Shutdown => abort (mkApp true (workers a) (scripts a) (pc a))
  | Script_Compile file => set_scripts a (CompileScript (scripts a) file).1
  end.
Definition calls (i : option nat) (hs : list hook) (a : Webapp) : Webapp :=
  foldl (fun a h => call i h a) a hs.

(** [Cleanup] of the worker on the stack of [Webapp::Start], with no other thread
    running: init.lua is run and its text dropped. *)
Definition Cleanup (init : WorkerInit) (a : Webapp) : Webapp :=
  let '(s1, found) := CompileScript (scripts a) init_lua in
  if found then
    let a2 := set_scripts a (CompileScript s1 (_script init)).1 in
    let a3 := if is_init init then calls None (RunScript (scripts a2) init_lua) a2 else a2 in
    set_scripts a3 (<[init_lua := []]> (scripts a3))
  else set_scripts a s1.

(** ** Threads *)

Definition set_threads (w : worker) (s c t : thr) : worker :=
  mkWorker (w_init w) (w_request_size w) (w_pool_size w) (w_aborted w) (svc_stopped w)
           (client_stopped w) s c t (w_pc w).
Definition set_stopped (w : worker) (s c : bool) : worker :=
  mkWorker (w_init w) (w_request_size w) (w_pool_size w) (w_aborted w) s c
           (svc_thread w) (client_thread w) (task w) (w_pc w).
Definition set_xpc (w : worker) (x : xpc) : worker :=
  mkWorker (w_init w) (w_request_size w) (w_pool_size w) (w_aborted w) (svc_stopped w)
           (client_stopped w) (svc_thread w) (client_thread w) (task w) x.

(** [Worker::Start]; the join is there for a second start. *)
Definition Worker_Start (w : worker) : worker :=
  let w1 := if client_sockets (w_init w)
            then set_threads (set_stopped w (svc_stopped w) false) (svc_thread w) TRun (task w)
            else w in
  set_threads w1 TRun (client_thread w1) TRun.

(** Joining a thread that runs blocks. *)
Definition join (t : thr) : option thr :=
  match t with TNone => Some TNone | TRun => None | TDone => Some TJoined | TJoined => Some TJoined end.

(** The destructor of a thread object that was not joined calls std::terminate; the
    base class joins [task] when it is. *)
Definition destroyable (w : worker) : bool := negb (joinable (svc_thread w) || joinable (client_thread w)).

(** A step of the main thread; [None] when it waits. *)
Definition main_step (a : Webapp) : option Webapp :=
  let ws := workers a in
  match pc a with
  | M_check => Some (set_pc a (if app_aborted a then M_return else M_init))
  | M_init => Some (set_pc (Cleanup WorkerInit_default a) (M_start 0))
  | M_start i =>
      match ws !! i with
      | Some w => Some (set_pc (set_workers a (<[i := Worker_Start w]> ws)) (M_start (S i)))
      | None => Some (set_pc a (M_join_svc 0))
      end
  | M_join_svc i =>
      match ws !! i with
      | Some w =>
          let* t := join (svc_thread w) in
          Some (set_pc (set_workers a (<[i := set_threads w t (client_thread w) (task w)]> ws)) (M_join_task i))
      | None => Some (set_pc a (M_delete 0))
      end
  | M_join_task i =>
      match ws !! i with
      | Some w =>
          let* t := join (task w) in
          Some (set_pc (set_workers a (<[i := set_threads w (svc_thread w) (client_thread w) t]> ws)) (M_join_svc (S i)))
      | None => None
      end
  | M_delete i =>
      match ws !! i with
      | Some w => Some (set_pc a (if destroyable w then M_delete (S i) else M_terminate))
      | None => Some (set_pc (set_workers a []) M_clear)
      end
  | M_clear => Some (set_pc (set_scripts a ∅) M_check)
  | M_return | M_undef | M_terminate => None
  end.

(** A step of the thread of a worker, in [Cleanup] and then in [Execute]. *)
Definition exec_step (i : nat) (w : worker) (a : Webapp) : option Webapp :=
  let goto x a := set_workers a (alter (fun w => set_xpc w x) i (workers a)) in
  match w_pc w with
  | X_cleanup =>
      if w_aborted w then
        Some (goto X_lookup
                (if client_sockets (w_init w)
                 then set_workers a (<[i := set_stopped w (svc_stopped w) true]> (workers a)) else a))
      else Some (goto X_compile_init a)
  | X_compile_init =>
      let '(s, found) := CompileScript (scripts a) init_lua in
      Some (goto (if found then X_compile_script else X_lookup) (set_scripts a s))
  | X_compile_script =>
      Some (goto (if is_init (w_init w) then X_lookup_init else X_zero)
              (set_scripts a (CompileScript (scripts a) (_script (w_init w))).1))
  | X_lookup_init => Some (goto (X_run_init (RunScript (scripts a) init_lua)) a)
  | X_run_init [] => Some (goto X_zero a)
  | X_run_init (h :: hs) => Some (goto (X_run_init hs) (call (Some i) h a))
  | X_zero => Some (goto X_lookup (set_scripts a (<[init_lua := []]> (scripts a))))
  | X_lookup => Some (goto (X_run (RunScript (scripts a) (_script (w_init w)))) a)
  | X_run [] => Some (goto X_stop a)
  | X_run (h :: hs) => Some (goto (X_run hs) (call (Some i) h a))
  | X_stop => Some (goto X_end (set_workers a (<[i := set_stopped w true (client_stopped w)]> (workers a))))
  | X_end => Some (set_workers a (<[i := set_threads w (svc_thread w) (client_thread w) TDone]> (workers a)))
  end.

(** The thread of a worker runs, or one of the services ends after it was stopped. *)
Inductive actor := Main | Task (i : nat) | Svc (i : nat) | Client (i : nat).
Definition actor_step (who : actor) (a : Webapp) : option Webapp :=
  match who with
  | Main => main_step a
  | Task i =>
      let* w := workers a !! i in
      if decide (task w = TRun) then exec_step i w a else None
  | Svc i =>
      let* w := workers a !! i in
      if decide (svc_thread w = TRun /\ svc_stopped w = true)
      then Some (set_workers a (<[i := set_threads w TDone (client_thread w) (task w)]> (workers a)))
      else None
  | Client i =>
      let* w := workers a !! i in
      if decide (client_thread w = TRun /\ client_stopped w = true)
      then Some (set_workers a (<[i := set_threads w (svc_thread w) TDone (task w)]> (workers a)))
      else None
  end.
Definition halted (p : mpc) : bool := match p with M_undef | M_terminate => true | _ => false end.
Definition step (who : actor) (a : Webapp) : option Webapp :=
  if halted (pc a) then None else actor_step who a.
Definition steps (a b : Webapp) : Prop := exists who, step who a = Some b.

(** [main]: the application as it starts. *)
Definition app_new : Webapp := mkApp false [] ∅ M_check.

(** ** What holds in every state *)

Definition no_create (h : hook) : Prop := match h with Worker_Create _ => False | _ => True end.

(** Only init.lua creates workers; the empty script makes no calls. *)
Hypothesis scripts_create_none : forall file pieces ok,
  file <> init_lua -> compile (plugins_ ++ file) = Some (pieces, ok) ->
  Forall no_create (run (foldl lua_writer [] pieces)).
Hypothesis run_empty : run [] = [].

Definition good_scripts (s : script_map) : Prop :=
  forall file c, file <> init_lua -> s !! file = Some c -> Forall no_create (run c).

Lemma CompileScript_good s file : good_scripts s -> good_scripts (CompileScript s file).1.
Proof.
  intros Hs. unfold CompileScript. destruct (s !! file) eqn:E; [done|].
  destruct (compile _) as [[pieces ok]|] eqn:Ec; [|done]. intros f c Hf. simpl.
  intros [[<- <-]|[_ H]]%lookup_insert_Some; [by eapply scripts_create_none|by eapply Hs].
Qed.

Lemma CompileScript_keeps s file k c : s !! k = Some c -> (CompileScript s file).1 !! k = Some c.
Proof.
  intros Hk. unfold CompileScript. destruct (s !! file) eqn:E; [done|].
  destruct (compile _) as [[pieces ok]|]; [|done]. simpl. rewrite lookup_insert_ne; [done|]. congruence.
Qed.

Definition client_ok (w : worker) : Prop :=
  match client_thread w with
  | TNone => client_sockets (w_init w) = false
  | TRun | TDone => client_sockets (w_init w) = true
  | TJoined => False
  end.

(** A worker before its start, after it, and after each of the joins. *)
Definition fresh (w : worker) : Prop := svc_thread w = TNone /\ client_thread w = TNone /\ task w = TNone.
Definition started (w : worker) : Prop := joinable (svc_thread w) = true /\ joinable (task w) = true /\ client_ok w.
Definition svc_joined (w : worker) : Prop := svc_thread w = TJoined /\ joinable (task w) = true /\ client_ok w.
Definition joined (w : worker) : Prop := svc_thread w = TJoined /\ task w = TJoined /\ client_ok w.

(** What the main thread has done to the worker [j]. *)
Definition phase (p : mpc) (j : nat) (w : worker) : Prop :=
  match p with
  | M_check | M_init | M_clear | M_return => False
  | M_start i => if decide (j < i)%nat then started w else fresh w
  | M_join_svc i => if decide (j < i)%nat then joined w else started w
  | M_join_task i => if decide (j < i)%nat then joined w else if decide (j = i) then svc_joined w else started w
  | M_delete _ => joined w
  | M_undef => False
  | M_terminate => True
  end.

Definition script_ok (w : worker) : Prop :=
  match w_pc w with X_run_init hs => hs = [] | X_run hs => Forall no_create hs | _ => True end.
Definition stop_ok (w : worker) : Prop :=
  w_pc w = X_end \/ task w = TDone \/ task w = TJoined -> svc_stopped w = true.

Definition ok_at (p : mpc) (j : nat) (w : worker) : Prop := phase p j w /\ script_ok w /\ stop_ok w.

Record inv (a : Webapp) : Prop := mkInv {
  inv_workers j w : workers a !! j = Some w -> ok_at (pc a) j w;
  inv_zeroed : workers a <> [] -> scripts a !! init_lua = Some [];
  inv_good : good_scripts (scripts a);
  inv_scripts : pc a = M_check \/ pc a = M_init -> scripts a = ∅;
  inv_defined : pc a <> M_undef;
  inv_index i : pc a = M_join_task i -> is_Some (workers a !! i);
  inv_terminate : pc a = M_terminate -> exists k w, workers a !! k = Some w /\ client_sockets (w_init w) = true }.

(** The calls of init.lua add workers that have not been started. *)
Lemma calls_init hs a :
  good_scripts (scripts a) ->
  good_scripts (scripts (calls None hs a)) /\ pc (calls None hs a) = pc a
  /\ exists inits, workers (calls None hs a) = workers a ++ map Worker_new inits.
Proof.
  revert a. induction hs as [|h hs IH]; intros a Ha; simpl.
  { split_and!; [done..|]. exists []. by rewrite app_nil_r. }
  destruct (IH (call None h a)) as (H1 & H2 & inits & H3).
  { destruct h; simpl; try done. by apply CompileScript_good. }
  split; [done|]. destruct h as [init| | |file]; simpl in *; (split; [done|]); rewrite H3; [|by exists inits..].
  exists (init :: inits). by rewrite <- app_assoc.
Qed.


(** A worker's own thread leaves what the main thread has done. *)
Definition same_threads (w w' : worker) : Prop :=
  w_init w' = w_init w /\ svc_thread w' = svc_thread w /\ client_thread w' = client_thread w
  /\ joinable (task w) = true /\ joinable (task w') = true.

Lemma phase_same p j w w' : same_threads w w' -> phase p j w -> phase p j w'.
Proof.
  intros (H0 & H1 & H2 & H3 & H4). destruct p; simpl; try done; repeat case_decide;
    unfold started, fresh, svc_joined, joined, client_ok; rewrite ?H0, ?H1, ?H2; destruct (task w), (task w'); simpl in *; intuition congruence.
Qed.

(** Where the thread of a worker goes on. *)
Definition next (x y : xpc) : Prop :=
  match x with
  | X_cleanup => y = X_lookup \/ y = X_compile_init
  | X_compile_init => y = X_compile_script \/ y = X_lookup
  | X_compile_script => y = X_lookup_init \/ y = X_zero
  | X_lookup_init => exists s, y = X_run_init (RunScript s init_lua)
  | X_run_init [] => y = X_zero
  | X_run_init (_ :: hs) => y = X_run_init hs
  | X_zero => y = X_lookup
  | X_lookup => exists s file, y = X_run (RunScript s file)
  | X_run [] => y = X_stop
  | X_run (_ :: hs) => y = X_run hs
  | X_stop => y = X_end
  | X_end => False
  end.
Definition moves (w w' : worker) : Prop :=
  task w' = TRun /\ next (w_pc w) (w_pc w') \/ task w' = TDone.

(** A step of its thread changes the worker, the scripts and the flag. *)
Record own_step (i : nat) (w : worker) (a b : Webapp) : Prop := mkOwn {
  own_pc : pc b = pc a;
  own_worker : exists w', workers b = <[i := w']> (workers a) /\ same_threads w w' /\ script_ok w' /\ stop_ok w' /\ moves w w';
  own_good : good_scripts (scripts b);
  own_zeroed : scripts b !! init_lua = Some [] }.

Lemma insert_is_Some {A} (l : list A) i x k : is_Some (<[i := x]> l !! k) <-> is_Some (l !! k).
Proof. by rewrite !lookup_lt_is_Some, length_insert. Qed.

Lemma exists_insert {A} (P : A -> Prop) (l : list A) i x y :
  l !! i = Some x -> (P x -> P y) -> (exists k z, l !! k = Some z /\ P z) ->
  exists k z, <[i := y]> l !! k = Some z /\ P z.
Proof.
  intros Hi HP (k & z & Hk & Hz). destruct (decide (k = i)) as [->|Hne].
  - exists i, y. rewrite list_lookup_insert_eq by (by eapply lookup_lt_Some). split; [done|].
    apply HP. congruence.
  - exists k, z. by rewrite list_lookup_insert_ne.
Qed.

Lemma own_step_inv i w a b : inv a -> workers a !! i = Some w -> own_step i w a b -> inv b.
Proof.
  intros [H1 H2 H3 H4 H5 H6 H7] Hw [Hpc (w' & Hws & Hs & Hsc & Hst & _) Hg Hz]. constructor; rewrite ?Hpc, ?Hws; try done.
  - intros j v. rewrite list_lookup_insert_Some. intros [(-> & <- & _)|[_ Hv]]; [|by apply H1].
    destruct (H1 _ _ Hw) as (Hp & _). split; [by eapply phase_same|done].
  - intros Hp. destruct (H1 _ _ Hw) as (Hph & _). by destruct Hp as [E|E]; rewrite E in Hph.
  - intros k Hk. apply insert_is_Some, H6, Hk.
  - intros Hk. eapply (exists_insert (fun w => client_sockets (w_init w) = true)); [done| |by apply H7].
    destruct Hs as (Hi & _). congruence.
Qed.

Lemma alter_at {A} (f : A -> A) (l : list A) i x : l !! i = Some x -> alter f i l = <[i := f x]> l.
Proof.
  intros Hx. apply list_eq. intros j. destruct (decide (j = i)) as [->|Hj].
  - rewrite list_lookup_alter_eq, Hx, list_lookup_insert_eq; [done|]. by eapply lookup_lt_Some.
  - by rewrite list_lookup_alter_ne, list_lookup_insert_ne.
Qed.

(** Going on in the script after a call. *)
Lemma call_own i w a h x :
  workers a !! i = Some w -> no_create h ->
  good_scripts (scripts a) -> scripts a !! init_lua = Some [] -> task w = TRun ->
  script_ok (set_xpc w x) -> x <> X_end -> next (w_pc w) x ->
  own_step i w a (set_workers (call (Some i) h a) (alter (fun w => set_xpc w x) i (workers (call (Some i) h a)))).
Proof.
  intros Hw Hh Hg Hz Ht Hx Hxe Hn. pose proof (lookup_lt_Some _ _ _ Hw) as Hl.
  assert (Hst : forall v, task v = TRun -> w_pc v = x -> stop_ok v) by (intros v ?? [|[|]]; congruence).
  destruct h as [init| | |file]; [done|..]; constructor; simpl; try done.
  1,2: rewrite !(alter_at _ _ i w Hw); rewrite (alter_at _ _ i (abort_worker w)) by (by rewrite list_lookup_insert_eq);
       rewrite list_insert_insert_eq; eexists; split; [done|]; split_and!; try done; [|by apply Hst|by left];
       unfold same_threads; simpl; rewrite Ht; done.
  - rewrite (alter_at _ _ i w Hw). eexists; split; [done|]; split_and!; try done; [|by apply Hst|by left].
    unfold same_threads; simpl; rewrite Ht; done.
  - by apply CompileScript_good.
  - by apply CompileScript_keeps.
Qed.

Lemma goto_own i w v a a' x :
  workers a !! i = Some w -> pc a' = pc a -> workers a' = <[i := v]> (workers a) ->
  same_threads w v -> task v = TRun -> script_ok (set_xpc v x) -> (x = X_end -> svc_stopped v = true) ->
  next (w_pc w) x ->
  good_scripts (scripts a') -> scripts a' !! init_lua = Some [] ->
  own_step i w a (set_workers a' (alter (fun w => set_xpc w x) i (workers a'))).
Proof.
  intros Hw Hpc Hws Hs Ht Hx Hxe Hn Hg Hz. pose proof (lookup_lt_Some _ _ _ Hw) as Hl. constructor; simpl; try done.
  rewrite Hws, (alter_at _ _ i v) by (by rewrite list_lookup_insert_eq). rewrite list_insert_insert_eq.
  eexists. split; [done|]. split_and!; [done|done| |by left].
  intros [E|[E|E]]; simpl in *; [auto|congruence..].
Qed.

Lemma exec_own i w a b :
  inv a -> workers a !! i = Some w -> task w = TRun -> exec_step i w a = Some b -> own_step i w a b.
Proof.
  intros Hinv Hw Ht. pose proof (inv_good a Hinv) as Hg.
  assert (Hz : scripts a !! init_lua = Some []) by (apply (inv_zeroed a Hinv); by intros E; rewrite E in Hw).
  destruct (inv_workers a Hinv i w Hw) as (_ & Hsc & Hst). unfold exec_step.
  assert (Hid : workers a = <[i := w]> (workers a)) by (by rewrite list_insert_id).
  assert (Hs : same_threads w w) by (unfold same_threads; by rewrite Ht).
  unfold script_ok in Hsc.
  destruct (w_pc w) as [| | | |hs| | |hs| |] eqn:Epc;
    pose proof (fun y (H : next _ y) => eq_ind_r (fun x => next x y) H Epc) as Hn; simpl in Hn.
  - destruct (w_aborted w); intros [= <-]; [|eapply goto_own; auto; done].
    destruct (client_sockets (w_init w)); eapply goto_own; auto; done.
  - pose proof (CompileScript_keeps (scripts a) init_lua init_lua [] Hz) as Hk.
    pose proof (CompileScript_good (scripts a) init_lua Hg) as Hg'.
    destruct (CompileScript (scripts a) init_lua) as [s f]. intros [= <-].
    eapply (goto_own i w w a (set_scripts a s)); try done; destruct f; auto; done.
  - intros [= <-].
    eapply (goto_own i w w a (set_scripts a (CompileScript (scripts a) (_script (w_init w))).1)); try done.
    1-3: destruct (is_init _); auto; done.
    + by apply CompileScript_good.
    + by apply CompileScript_keeps.
  - intros [= <-]. eapply goto_own; eauto; try done. unfold RunScript. by rewrite Hz, run_empty.
  - subst hs. intros [= <-]. by eapply goto_own; auto.
  - intros [= <-]. eapply (goto_own i w w a (set_scripts a (<[init_lua := []]> (scripts a)))); auto; try done; simpl.
    + intros file c Hf. rewrite lookup_insert_ne by done. by apply Hg.
    + by rewrite lookup_insert_eq.
  - intros [= <-]. eapply goto_own; eauto; try done. unfold script_ok, RunScript. simpl.
    destruct (scripts a !! _script (w_init w)) as [c|] eqn:Ec; [|constructor].
    destruct (decide (_script (w_init w) = init_lua)) as [E|E]; [|by eapply Hg].
    rewrite E in Ec. assert (c = []) as -> by congruence. rewrite run_empty. constructor.
  - destruct hs as [|h hs]; intros [= <-]; [by eapply goto_own; auto|].
    apply Forall_cons_1 in Hsc as [Hh Hhs]. apply call_own; auto; done.
  - intros [= <-]. eapply goto_own; auto; done.
  - intros [= <-]. constructor; simpl; try done. eexists. split; [done|].
    split_and!; [by unfold same_threads; simpl; rewrite Ht|by unfold script_ok; simpl; rewrite Epc| |by right].
    intros _. simpl. apply Hst. by left.
Qed.

Lemma inv_no_workers a :
  inv a -> (forall j w, ~ phase (pc a) j w) -> workers a = [].
Proof.
  intros Hinv Hp. destruct (workers a) as [|w ws] eqn:E; [done|].
  destruct (inv_workers a Hinv 0 w) as (H & _); [by rewrite E|]. by apply Hp in H.
Qed.

(** The state of the workers alone, when the scripts stay. *)
Lemma life_inv_move a ws p :
  inv a -> (forall j w, ws !! j = Some w -> ok_at p j w) -> (ws <> [] -> workers a <> []) ->
  p <> M_check -> p <> M_init -> p <> M_undef -> p <> M_terminate ->
  (forall i, p = M_join_task i -> is_Some (ws !! i)) -> inv (set_pc (set_workers a ws) p).
Proof.
  intros [H1 H2 H3 H4 H5 H6 H7] Hws Hne Hp1 Hp2 Hp3 Hp4 Hp5. constructor; simpl; auto; [|done].
  intros [|]; congruence.
Qed.

Lemma Worker_Start_ok w : fresh w -> script_ok w -> started (Worker_Start w) /\ script_ok (Worker_Start w).
Proof.
  intros (H1 & H2 & H3) Hs. unfold Worker_Start, started, client_ok, script_ok in *.
  destruct (client_sockets (w_init w)) eqn:E; simpl; rewrite ?E, ?H2; done.
Qed.

Lemma insert_ne_nil {A} (l : list A) i x : <[i := x]> l <> [] -> l <> [].
Proof. by destruct l. Qed.

(** Replacing the worker the main thread works on. *)
Lemma inv_main_worker a i w w' p :
  inv a -> workers a !! i = Some w -> ok_at p i w' ->
  (forall j v, j <> i -> phase (pc a) j v -> phase p j v) ->
  p <> M_check -> p <> M_init -> p <> M_undef -> p <> M_terminate ->
  (forall k, p = M_join_task k -> k = i) ->
  inv (set_pc (set_workers a (<[i := w']> (workers a))) p).
Proof.
  intros Hinv Hw Hok Hph ???? Hk. apply life_inv_move; try done; [|apply insert_ne_nil|].
  2: { intros k ->%Hk. apply insert_is_Some. eauto. }
  intros j v. rewrite list_lookup_insert_Some. intros [(-> & <- & _)|[Hj Hv]]; [done|].
  destruct (inv_workers a Hinv j v Hv) as (Hp & ?). split; [|done]. by apply Hph.
Qed.

(** Nothing but the place of the main thread changes. *)
Lemma inv_goto a p :
  inv a -> (forall j w, workers a !! j = Some w -> phase (pc a) j w -> phase p j w) ->
  p <> M_check -> p <> M_init -> p <> M_undef -> p <> M_terminate -> (forall i, p <> M_join_task i) ->
  inv (set_pc a p).
Proof.
  intros Hinv Hph ???? Hk. destruct a as [b ws s q]. apply (life_inv_move (mkApp b ws s q) ws p); try done; [|by intros i E%Hk].
  intros j w Hw. destruct (inv_workers _ Hinv j w Hw) as (Hp & ?). split; [by apply Hph|done].
Qed.

Lemma Cleanup_inv a :
  inv a -> pc a = M_init -> inv (set_pc (Cleanup WorkerInit_default a) (M_start 0)).
Proof.
  intros Hinv Hpc. assert (Hw : workers a = []).
  { apply inv_no_workers; [done|]. rewrite Hpc. simpl. tauto. }
  assert (Hs : good_scripts ∅) by (intros f c _; by rewrite lookup_empty).
  unfold Cleanup. rewrite (inv_scripts a Hinv) by auto. pose proof (CompileScript_good ∅ init_lua Hs) as Hg.
  destruct (CompileScript ∅ init_lua) as [s1 found]. simpl in Hg.
  destruct found; [|constructor; simpl; rewrite ?Hw; try done; by intros [|]].
  set (a2 := set_scripts a _). assert (Hg2 : good_scripts (scripts a2)) by (by apply CompileScript_good).
  destruct (calls_init (RunScript (scripts a2) init_lua) a2 Hg2) as (H1 & H2 & inits & H3).
  simpl in H3. rewrite Hw in H3. simpl in H3. simpl. constructor; simpl.
  - intros j w. rewrite H3, list_lookup_fmap. intros (init & _ & ->)%fmap_Some.
    split_and!; [unfold phase; case_decide; [lia|done]|done|]. by intros [|[|]].
  - intros _. by rewrite lookup_insert_eq.
  - intros f c Hf. rewrite lookup_insert_ne by done. by apply H1.
  - by intros [|].
  - done.
  - done.
  - done.
Qed.

Ltac phase_cases := simpl; repeat case_decide; try done; try lia; intuition (done || lia).

Lemma main_inv a b : inv a -> main_step a = Some b -> inv b.
Proof.
  intros Hinv. unfold main_step.
  assert (Hnone : (forall j w, ~ phase (pc a) j w) -> workers a = []) by by apply inv_no_workers.
  pose proof (inv_workers a Hinv) as Hws.
  destruct (pc a) as [| |i|i|i|i| | | |] eqn:Epc; simpl in Hnone.
  - intros [= <-]. specialize (Hnone ltac:(tauto)). destruct Hinv as [_ _ H3 H4 _ _ _].
    destruct (app_aborted a); constructor; simpl; rewrite ?Hnone; try done; auto.
  - intros [= <-]. by apply Cleanup_inv.
  - destruct (workers a !! i) as [w|] eqn:Hw; intros [= <-].
    + destruct (Hws _ _ Hw) as (Hp & Hs & Hst). simpl in Hp. rewrite decide_False in Hp by lia.
      destruct (Worker_Start_ok w Hp Hs) as [H1 H2].
      apply (inv_main_worker a i w); try done; [|rewrite Epc; intros j v Hj; phase_cases].
      split_and!; [by simpl; rewrite decide_True by lia|done|].
      intros [E|[E|E]]; [|by unfold Worker_Start in E; destruct (client_sockets _)..].
      unfold Worker_Start in *. destruct (client_sockets _); apply Hst; by left.
    + apply inv_goto; try done. rewrite Epc. intros j w Hj.
      apply lookup_lt_Some in Hj. apply lookup_ge_None in Hw. phase_cases.
  - destruct (workers a !! i) as [w|] eqn:Hw; [|intros [= <-]].
    + destruct (Hws _ _ Hw) as (Hp & Hs & Hst). simpl in Hp. rewrite decide_False in Hp by lia.
      destruct Hp as (H1 & H2 & H3). destruct (svc_thread w) eqn:Et; try done. intros [= <-].
      apply (inv_main_worker a i w); try done; [|rewrite Epc; intros j v Hj; phase_cases|congruence].
      split_and!; [|done|done]. simpl. rewrite decide_False, decide_True by lia. done.
    + apply inv_goto; try done. rewrite Epc. intros j w Hj.
      apply lookup_lt_Some in Hj. apply lookup_ge_None in Hw. phase_cases.
  - destruct (workers a !! i) as [w|] eqn:Hw; [|done].
    destruct (Hws _ _ Hw) as (Hp & Hs & Hst). simpl in Hp. rewrite decide_False, decide_True in Hp by lia.
    destruct Hp as (H1 & H2 & H3). destruct (task w) eqn:Et; try done. intros [= <-].
    apply (inv_main_worker a i w); try done; [|rewrite Epc; intros j v Hj; phase_cases].
    split_and!; [by simpl; rewrite decide_True by lia|done|]. intros _. apply Hst. rewrite Et. auto.
  - destruct (workers a !! i) as [w|] eqn:Hw; intros [= <-].
    + destruct (destroyable w) eqn:Ed; [apply inv_goto; try done; by rewrite Epc|].
      destruct (Hws _ _ Hw) as ((H1 & H2 & H3) & _). unfold destroyable in Ed. rewrite H1 in Ed. unfold client_ok in H3.
      destruct Hinv as [? I2 I3 I4 _ _ _]. constructor; simpl; try done; [|by intros [|]|].
      * intros j v Hv. split; [done|]. by destruct (Hws j v Hv).
      * intros _. exists i, w. split; [done|]. by destruct (client_thread w).
    + by apply life_inv_move.
  - intros [= <-]. specialize (Hnone ltac:(tauto)). constructor; simpl; rewrite ?Hnone; done.
  - done.
  - done.
  - done.
Qed.

(** A service that ends. *)
Lemma service_inv a i w s c :
  inv a -> workers a !! i = Some w ->
  s = svc_thread w \/ svc_thread w = TRun /\ s = TDone ->
  c = client_thread w \/ client_thread w = TRun /\ c = TDone ->
  inv (set_workers a (<[i := set_threads w s c (task w)]> (workers a))).
Proof.
  intros Hinv Hw Hs Hc. destruct (inv_workers a Hinv i w Hw) as (Hp & Hsc & Hst).
  assert (Hp' : phase (pc a) i (set_threads w s c (task w))).
  { destruct (pc a); simpl in *; repeat case_decide; try done;
      unfold fresh, started, svc_joined, joined, client_ok in *; simpl in *;
      destruct Hs as [-> | [Es ->]], Hc as [-> | [Ec ->]]; try done; rewrite ?Es, ?Ec in Hp; simpl in Hp; intuition congruence. }
  destruct Hinv as [H1 H2 H3 H4 H5 H6 H7]. constructor; simpl; try done.
  - intros j v. rewrite list_lookup_insert_Some. intros [(-> & <- & _)|[_ Hv]]; [done|by apply H1].
  - intros Hne. apply H2. by eapply insert_ne_nil.
  - intros k Hk. apply insert_is_Some, H6, Hk.
  - intros Hk. by eapply (exists_insert (fun w => client_sockets (w_init w) = true)); [| |apply H7].
Qed.

Lemma step_inv a b : inv a -> steps a b -> inv b.
Proof.
  intros Hinv [who H]. unfold step in H. destruct (halted (pc a)); [done|].
  destruct who as [|i|i|i]; [by eapply main_inv| | |].
  all: destruct (workers a !! i) as [w|] eqn:Hw; simpl in H; rewrite Hw in H; simpl in H; [|done].
  all: case_decide as Hd; [|done].
  - eapply own_step_inv; [done..|by eapply exec_own].
  - injection H as <-. destruct Hd. apply service_inv; auto.
  - injection H as <-. destruct Hd. apply service_inv; auto.
Qed.

Lemma life_inv_new : inv app_new.
Proof. constructor; try done. Qed.

Lemma reachable_inv a : star steps app_new a -> inv a.
Proof. intros H. eapply star_invariant; [apply step_inv|done|apply life_inv_new]. Qed.


(** A worker that was asked for client sockets ends the process when it is deleted: its
    thread for them is never joined, so that destroying the thread object calls
    std::terminate. *)
Theorem client_sockets_terminate a i w :
  star steps app_new a -> pc a = M_delete i -> workers a !! i = Some w ->
  client_sockets (w_init w) = true ->
  step Main a = Some (set_pc a M_terminate).
Proof.
  intros Hinv%reachable_inv Hpc Hw Hc. destruct (inv_workers a Hinv i w Hw) as (H & _). rewrite Hpc in H.
  destruct H as (H1 & _ & H2). unfold step. rewrite Hpc. simpl. unfold main_step. rewrite Hpc, Hw.
  unfold destroyable. rewrite H1. unfold client_ok in H2.
  destruct (client_thread w); simpl in *; done || congruence.
Qed.

(** ** The end of a cycle *)

(** A bound on the calls a script makes before it returns. *)
Variable B : nat.

(** The steps a thread of a worker still takes. *)
Definition xrank (x : xpc) : nat :=
  match x with
  | X_end => 1
  | X_stop => 2
  | X_run hs => 3 + length hs
  | X_lookup => 4 + B
  | X_zero => 5 + B
  | X_run_init hs => 6 + B + length hs
  | X_lookup_init => 7 + B + B
  | X_compile_script => 8 + B + B
  | X_compile_init => 9 + B + B
  | X_cleanup => 10 + B + B
  end.
Definition pending (t : thr) (n : nat) : nat := match t with TNone | TRun => n | _ => 0 end.
Definition wrank (w : worker) : nat :=
  pending (task w) (xrank (w_pc w)) + pending (svc_thread w) 1 + pending (client_thread w) 1.

(** The steps of the main thread, with [n] workers. *)
Definition mrank (n : nat) (p : mpc) : nat :=
  match p with
  | M_start i => 3 * n + 4 + (n - i)
  | M_join_svc i => n + 3 + 2 * (n - i)
  | M_join_task i => n + 2 + 2 * (n - i)
  | M_delete i => 2 + (n - i)
  | M_clear => 1
  | _ => 0
  end.
Definition sum_ranks (ws : list worker) : nat := sum_list_with wrank ws.
Definition rank (a : Webapp) : nat := mrank (length (workers a)) (pc a) + sum_ranks (workers a).

Lemma sum_ranks_insert ws i w w' :
  ws !! i = Some w -> (sum_ranks (<[i := w']> ws) + wrank w = sum_ranks ws + wrank w')%nat.
Proof.
  unfold sum_ranks. revert i. induction ws as [|v ws IH]; intros [|i] H; simplify_eq/=; [lia|].
  specialize (IH i H). lia.
Qed.

Hypothesis run_bound : forall chunk, (length (run chunk) <= B)%nat.

Lemma next_rank x y : next x y -> (xrank y < xrank x)%nat.
Proof.
  assert (Hr : forall s file, (length (RunScript s file) <= B)%nat).
  { intros s file. unfold RunScript. destruct (s !! file); [apply run_bound|simpl; lia]. }
  destruct x as [| | | |[|h hs]| | |[|h hs]| |]; simpl; try (intros [-> | ->] || intros ->); simpl; try lia; try done.
  - intros [s ->]. simpl. specialize (Hr s init_lua). lia.
  - intros (s & file & ->). simpl. specialize (Hr s file). lia.
Qed.

Lemma xrank_pos x : (0 < xrank x)%nat.
Proof. destruct x; simpl; lia. Qed.

Lemma exec_rank i w a b :
  inv a -> workers a !! i = Some w -> task w = TRun -> exec_step i w a = Some b -> (rank b < rank a)%nat.
Proof.
  intros Hinv Hw Ht H. destruct (exec_own i w a b Hinv Hw Ht H) as [Hpc (w' & Hws & Hs & _ & _ & Hm) _ _].
  unfold rank. rewrite Hpc, Hws, length_insert. pose proof (sum_ranks_insert (workers a) i w w' Hw) as Hr.
  assert (wrank w' < wrank w)%nat; [|lia].
  destruct Hs as (_ & H1 & H2 & _). unfold wrank. rewrite H1, H2, Ht. pose proof (xrank_pos (w_pc w)).
  destruct Hm as [[-> Hn%next_rank] | ->]; simpl; lia.
Qed.

(** Joining and starting leave the worker's own rank. *)
Lemma main_rank_worker a i w w' p :
  workers a !! i = Some w -> wrank w' = wrank w ->
  (mrank (length (workers a)) p < mrank (length (workers a)) (pc a))%nat ->
  (rank (set_pc (set_workers a (<[i := w']> (workers a))) p) < rank a)%nat.
Proof.
  intros Hw Hr Hp. unfold rank. simpl. rewrite length_insert.
  pose proof (sum_ranks_insert (workers a) i w w' Hw). lia.
Qed.

Lemma main_rank a b :
  inv a -> pc a <> M_check -> pc a <> M_init -> main_step a = Some b -> (rank b < rank a)%nat.
Proof.
  intros Hinv Hc Hi. unfold main_step. pose proof (inv_workers a Hinv) as Hws.
  destruct (pc a) as [| |i|i|i|i| | | |] eqn:Epc; try done.
  - destruct (workers a !! i) as [w|] eqn:Hw; intros [= <-].
    + destruct (Hws _ _ Hw) as (Hp & _). simpl in Hp. rewrite decide_False in Hp by lia. destruct Hp as (H1 & H2 & H3).
      apply lookup_lt_Some in Hw as Hl. eapply main_rank_worker; [done| |rewrite Epc; simpl; lia].
      unfold Worker_Start, wrank. destruct (client_sockets (w_init w)); simpl; by rewrite ?H1, ?H2, ?H3.
    + unfold rank. rewrite Epc. simpl. lia.
  - destruct (workers a !! i) as [w|] eqn:Hw; [|intros [= <-]; unfold rank; rewrite Epc; simpl; lia].
    apply lookup_lt_Some in Hw as Hl.
    destruct (svc_thread w) eqn:Et; simpl; intros [= <-]; (eapply main_rank_worker; [done| |rewrite Epc; simpl; lia]);
      unfold wrank; simpl; rewrite Et; done.
  - destruct (workers a !! i) as [w|] eqn:Hw; [|done]. apply lookup_lt_Some in Hw as Hl.
    destruct (task w) eqn:Et; simpl; intros [= <-]; (eapply main_rank_worker; [done| |rewrite Epc; simpl; lia]);
      unfold wrank; simpl; rewrite Et; done.
  - destruct (workers a !! i) as [w|] eqn:Hw; intros [= <-]; unfold rank; rewrite Epc; simpl.
    + apply lookup_lt_Some in Hw. destruct (destroyable w); simpl; lia.
    + lia.
  - intros [= <-]. unfold rank. rewrite Epc. simpl. lia.
Qed.

Lemma service_rank a i w s c :
  workers a !! i = Some w ->
  (pending s 1 + pending c 1 < pending (svc_thread w) 1 + pending (client_thread w) 1)%nat ->
  (rank (set_workers a (<[i := set_threads w s c (task w)]> (workers a))) < rank a)%nat.
Proof.
  intros Hw H. unfold rank. simpl. rewrite length_insert.
  pose proof (sum_ranks_insert (workers a) i w (set_threads w s c (task w)) Hw) as Hr.
  unfold wrank in Hr. simpl in Hr. lia.
Qed.

Lemma step_rank a b : inv a -> pc a <> M_check -> pc a <> M_init -> steps a b -> (rank b < rank a)%nat.
Proof.
  intros Hinv Hc Hi [who H]. unfold step in H. destruct (halted (pc a)); [done|].
  destruct who as [|i|i|i]; [by apply main_rank| | |].
  all: simpl in H; destruct (workers a !! i) as [w|] eqn:Hw; simpl in H; [|done].
  all: case_decide as Hd; [|done].
  - by eapply exec_rank.
  - injection H as <-. apply service_rank; [done|]. destruct Hd as [-> _]. simpl. lia.
  - injection H as <-. apply service_rank; [done|]. destruct Hd as [-> _]. simpl. lia.
Qed.

Lemma exec_total i w a : exists b, exec_step i w a = Some b.
Proof.
  unfold exec_step. destruct (w_pc w) as [| | | |[|h hs]| | |[|h hs]| |]; eauto.
  - destruct (w_aborted w); eauto.
  - destruct (CompileScript _ _); eauto.
Qed.

(** While the main thread waits, a thread of the worker it waits for can go on. *)
Lemma worker_progress a i w :
  halted (pc a) = false -> workers a !! i = Some w -> stop_ok w ->
  task w = TRun \/ svc_thread w = TRun /\ task w = TDone -> exists b, steps a b.
Proof.
  intros Hh Hw Hst Ht. destruct Ht as [Ht|[Hs Ht]].
  - destruct (exec_total i w a) as [b Hb]. exists b, (Task i). unfold step. rewrite Hh. simpl. rewrite Hw. simpl.
    by rewrite decide_True.
  - eexists. exists (Svc i). unfold step. rewrite Hh. simpl. rewrite Hw. simpl.
    rewrite decide_True by (split; [done|]; apply Hst; auto). done.
Qed.

Lemma progress a :
  inv a -> pc a <> M_return -> pc a <> M_terminate -> exists b, steps a b.
Proof.
  intros Hinv Hr Ht. pose proof (inv_defined a Hinv) as Hu.
  assert (Hh : halted (pc a) = false) by (by destruct (pc a)).
  destruct (main_step a) as [b|] eqn:Hm; [exists b, Main; unfold step; by rewrite Hh|].
  pose proof (inv_workers a Hinv) as Hws. unfold main_step in Hm.
  destruct (pc a) as [| |i|i|i|i| | | |] eqn:Epc; try done; rewrite <- Epc in Hh.
  - by destruct (workers a !! i).
  - destruct (workers a !! i) as [w|] eqn:Hw; [|done]. destruct (Hws _ _ Hw) as (Hp & _ & Hst).
    simpl in Hp. rewrite decide_False in Hp by lia. destruct Hp as (H1 & H2 & _).
    apply (worker_progress a i w); try done. destruct (svc_thread w), (task w); simplify_eq/=; auto.
  - destruct (inv_index a Hinv i Epc) as [w Hw]. rewrite Hw in Hm. destruct (Hws _ _ Hw) as (Hp & _ & Hst).
    simpl in Hp. rewrite decide_False, decide_True in Hp by lia. destruct Hp as (H1 & H2 & _).
    apply (worker_progress a i w); try done. destruct (task w); simplify_eq/=; auto.
  - by destruct (workers a !! i).
Qed.

End Application.

(** What stays true while init.lua does not compile. *)
Definition idle (a : Webapp) : Prop :=
  app_aborted a = false /\ workers a = [] /\ scripts a = ∅
  /\ match pc a with M_return | M_terminate | M_undef | M_join_task _ => False | _ => True end.

Lemma idle_step compile run a b :
  compile (plugins_ ++ init_lua) = None -> idle a -> steps compile run a b -> idle b.
Proof.
  intros Hc (H1 & H2 & H3 & H4) [who H]. unfold step in H.
  assert (Hs : Cleanup compile run WorkerInit_default a = set_scripts a ∅).
  { unfold Cleanup, CompileScript. by rewrite H3, lookup_empty, Hc. }
  destruct who as [|i|i|i]; [|by simpl in H; rewrite H2 in H; destruct (halted (pc a))..].
  simpl in H. unfold main_step in H. rewrite Hs, H1, H2 in H.
  destruct (pc a) as [| |i|i|i|i| | | |] eqn:Epc; try done; injection H as <-; unfold idle; simpl;
    rewrite ?H1, ?H2, ?H3; done.
Qed.

(** When init.lua does not compile, [Webapp::Start] never returns, and goes round its loop
    with no worker and no pause. *)
Theorem init_failure_spins compile run a :
  compile (plugins_ ++ init_lua) = None -> star (steps compile run) app_new a ->
  workers a = [] /\ pc a <> M_return /\ exists b, step compile run Main a = Some b.
Proof.
  intros Hc H. assert (idle a) as (H1 & H2 & H3 & H4).
  { eapply star_invariant; [|exact H|done]. intros s s'. by apply idle_step. }
  split; [done|]. split; [by intros E; rewrite E in H4|]. unfold step, actor_step, main_step. rewrite H2.
  destruct (pc a); simpl; eauto; done.
Qed.

(** ** An application with one worker *)

Fixpoint run_actors (compile : list Z -> option (list (list Z) * bool)) (run : list Z -> list hook)
         (ws : list actor) (a : Webapp) : option Webapp :=
  match ws with
  | [] => Some a
  | x :: ws => let* b := step compile run x a in run_actors compile run ws b
  end.

Lemma run_actors_star compile run ws a b :
  run_actors compile run ws a = Some b -> star (steps compile run) a b.
Proof.
  revert a. induction ws as [|x ws IH]; intros a; simpl; [intros [= ->]; constructor|].
  destruct (step compile run x a) as [c|] eqn:E; [|done]. intros H. econstructor; [by exists x|by apply IH].
Qed.

(** init.lua is the text 1, which creates a worker with the script "a", the text 2,
    which shuts the application down. *)
Definition sample_init (client : bool) : WorkerInit := mkInit [97] 80 0 0 client 1 1 false.
Definition sample_compile (path : list Z) : option (list (list Z) * bool) :=
  if decide (path = plugins_ ++ init_lua) then Some ([[1]], true)
  else if decide (path = plugins_ ++ [97]) then Some ([[2]], true) else None.
Definition sample_run (client : bool) (chunk : list Z) : list hook :=
  if decide (chunk = [1]) then [Worker_Create (sample_init client)]
  else if decide (chunk = [2]) then [Worker_Shutdown] else [].

Lemma sample_create_none client file pieces ok :
  file <> init_lua -> sample_compile (plugins_ ++ file) = Some (pieces, ok) ->
  Forall no_create (sample_run client (foldl lua_writer [] pieces)).
Proof.
  intros Hf. unfold sample_compile. rewrite decide_False by (intros E%app_inv_head; done).
  case_decide; [|done]. intros [= <- _]. repeat constructor.
Qed.

(** Up to the deletion of the worker. *)
Definition sample_schedule : list actor :=
  [Main; Main; Main; Main] ++ replicate 9 (Task 0) ++ [Svc 0; Main; Main; Main].

Lemma sample_bound client chunk : (length (sample_run client chunk) <= 1)%nat.
Proof. unfold sample_run. repeat case_decide; simpl; lia. Qed.

Definition sample_end (client : bool) : option Webapp :=
  run_actors sample_compile (sample_run client) sample_schedule app_new.


Lemma client_sockets_terminate_witness :
  exists a, sample_end true = Some a
         /\ step sample_compile (sample_run true) Main a = Some (set_pc a M_terminate).
Proof.
  destruct (sample_end true) as [a|] eqn:E; [|vm_compute in E; discriminate E].
  exists a. split; [done|]. pose proof (run_actors_star _ _ _ _ _ E) as Hr.
  destruct (workers a !! 0%nat) as [w|] eqn:Ew; [|vm_compute in E; injection E as <-; discriminate Ew].
  apply (client_sockets_terminate sample_compile (sample_run true) (sample_create_none true) eq_refl a 0 w Hr).
  - vm_compute in E. injection E as <-. reflexivity.
  - done.
  - vm_compute in E. injection E as <-. injection Ew as <-. reflexivity.
Defined.


Lemma init_failure_spins_witness :
  workers app_new = [] /\ exists b, step (fun _ => None) (fun _ => []) Main app_new = Some b.
Proof.
  destruct (init_failure_spins (fun _ => None) (fun _ => []) app_new eq_refl (star_refl _ _)) as (H & _ & Hb).
  exact (conj H Hb).
Defined.
