(* ===== verification/LdbCoding.v ===== *)
(** * leveldb: the encoding of numbers and strings

    src/ext/leveldb/util/coding.cc and coding.h: fixed-width integers, varints of 32 and
    64 bits, and strings with their length in front.  A pointer into a buffer with the
    limit of the buffer is the list of bytes between them; a function that moves the
    pointer returns the rest of the list. *)

From Stdlib Require Import ZArith Lia.
From stdpp Require Import base list numbers option.
From S2P Require Import Prelude ByteOrder.
Open Scope Z_scope.
Open Scope webapp_scope.

(** ** Fixed width (on a little-endian host) *)

Definition EncodeFixed32 (value : Z) : list Z := le_bytes 4 value.
Definition EncodeFixed64 (value : Z) : list Z := le_bytes 8 value.
Definition PutFixed32 (dst : list Z) (value : Z) : list Z := dst ++ EncodeFixed32 value.
Definition PutFixed64 (dst : list Z) (value : Z) : list Z := dst ++ EncodeFixed64 value.

(** The number whose bytes in memory are [l]. *)
Definition le_value (l : list Z) : Z := foldr (fun b a => b + 256 * a) 0 l.

(** [None]: the bytes are not there. *)
Definition DecodeFixed32 (ptr : list Z) : option Z :=
  if (length ptr <? 4)%nat then None else Some (le_value (take 4 ptr)).
Definition DecodeFixed64 (ptr : list Z) : option Z :=
  if (length ptr <? 8)%nat then None else Some (le_value (take 8 ptr)).

(** ** Varints *)

Definition EncodeVarint32 (v : Z) : list Z :=
  let B := 128 in
  if v <? Z.shiftl 1 7 then [u8 v]
  else if v <? Z.shiftl 1 14 then [u8 (Z.lor v B); u8 (Z.shiftr v 7)]
  else if v <? Z.shiftl 1 21 then
    [u8 (Z.lor v B); u8 (Z.lor (Z.shiftr v 7) B); u8 (Z.shiftr v 14)]
  else if v <? Z.shiftl 1 28 then
    [u8 (Z.lor v B); u8 (Z.lor (Z.shiftr v 7) B); u8 (Z.lor (Z.shiftr v 14) B); u8 (Z.shiftr v 21)]
  else
    [u8 (Z.lor v B); u8 (Z.lor (Z.shiftr v 7) B); u8 (Z.lor (Z.shiftr v 14) B);
     u8 (Z.lor (Z.shiftr v 21) B); u8 (Z.shiftr v 28)].
Definition PutVarint32 (dst : list Z) (v : Z) : list Z := dst ++ EncodeVarint32 v.

(** The loop of [EncodeVarint64]; ten rounds are enough for 64 bits. *)
Fixpoint varint_loop (fuel : nat) (v : Z) : list Z :=
  match fuel with
  | O => []
  | S fuel =>
      if 128 <=? v then u8 (Z.lor (Z.land v 127) 128) :: varint_loop fuel (Z.shiftr v 7)
      else [u8 v]
  end.
Definition EncodeVarint64 (v : Z) : list Z := varint_loop 10 v.
Definition PutVarint64 (dst : list Z) (v : Z) : list Z := dst ++ EncodeVarint64 v.

Definition PutLengthPrefixedSlice (dst value : list Z) : list Z :=
  PutVarint32 dst (u32 (lenZ value)) ++ value.

Fixpoint length_loop (fuel : nat) (v len : Z) : Z :=
  match fuel with
  | O => len
  | S fuel => if 128 <=? v then length_loop fuel (Z.shiftr v 7) (len + 1) else len
  end.
Definition VarintLength (v : Z) : Z := length_loop 10 v 1.

(** The loop of the decoders for results of [w] bits: the value and the rest. *)
Fixpoint varint_decode (w : Z) (p : list Z) (shift result : Z) : option (Z * list Z) :=
  match p with
  | [] => None
  | byte :: p =>
      if w <=? shift then None
      else if Z.land byte 128 =? 0 then Some (Z.lor result (uwrap w (Z.shiftl byte shift)), p)
      else varint_decode w p (shift + 7) (Z.lor result (uwrap w (Z.shiftl (Z.land byte 127) shift)))
  end.

Definition GetVarint32PtrFallback (p : list Z) : option (Z * list Z) := varint_decode 32 p 0 0.
Definition GetVarint32Ptr (p : list Z) : option (Z * list Z) :=
  match p with
  | result :: p' => if Z.land result 128 =? 0 then Some (result, p') else GetVarint32PtrFallback p
  | [] => GetVarint32PtrFallback p
  end.
Definition GetVarint32 (input : list Z) : option (Z * list Z) := GetVarint32Ptr input.
Definition GetVarint64Ptr (p : list Z) : option (Z * list Z) := varint_decode 64 p 0 0.
Definition GetVarint64 (input : list Z) : option (Z * list Z) := GetVarint64Ptr input.

(** The string and the rest of the input. *)
Definition GetLengthPrefixedSlice (input : list Z) : option (list Z * list Z) :=
  match GetVarint32 input with
  | Some (len, input) =>
      if len <=? lenZ input then Some (take (Z.to_nat len) input, drop (Z.to_nat len) input) else None
  | None => None
  end.

(** ** Fixed width: the round trip *)

Lemma length_le_bytes n v : length (le_bytes n v) = n.
Proof. revert v. induction n as [|n IH]; intros v; simpl; [done|]. by rewrite IH. Qed.

Lemma le_value_bytes n v : 0 <= v < 256 ^ Z.of_nat n -> le_value (le_bytes n v) = v.
Proof.
  revert v. induction n as [|n IH]; intros v Hv.
  - simpl in *. lia.
  - rewrite Nat2Z.inj_succ, Z.pow_succ_r in Hv by lia. cbn [le_bytes le_value foldr].
    change (foldr (fun b a => b + 256 * a) 0 (le_bytes n (v / 256))) with (le_value (le_bytes n (v / 256))).
    rewrite IH by (split; [apply Z.div_pos; lia|apply Z.div_lt_upper_bound; lia]).
    unfold uwrap. change (2 ^ 8) with 256. zdm.
Qed.

Lemma DecodeFixed32_Encode v rest : 0 <= v < 2 ^ 32 -> DecodeFixed32 (EncodeFixed32 v ++ rest) = Some v.
Proof.
  intros Hv. unfold DecodeFixed32, EncodeFixed32. rewrite (proj2 (Nat.ltb_ge _ _)) by (rewrite length_app, length_le_bytes; lia).
  by rewrite take_app_length', le_value_bytes by (apply length_le_bytes || simpl; lia).
Qed.

Lemma DecodeFixed64_Encode v rest : 0 <= v < 2 ^ 64 -> DecodeFixed64 (EncodeFixed64 v ++ rest) = Some v.
Proof.
  intros Hv. unfold DecodeFixed64, EncodeFixed64. rewrite (proj2 (Nat.ltb_ge _ _)) by (rewrite length_app, length_le_bytes; lia).
  by rewrite take_app_length', le_value_bytes by (apply length_le_bytes || simpl; lia).
Qed.

(** ** Varints: the round trip *)

(** A byte of a varint that is not the last. *)
Lemma more_byte v : 0 <= v -> u8 (Z.lor v 128) = v mod 128 + 128 /\ u8 (Z.lor (Z.land v 127) 128) = v mod 128 + 128.
Proof.
  intros Hv.
  assert (H : Z.lor (v mod 128) 128 = v mod 128 + 128).
  { pose proof (Z.mod_pos_bound v 128 ltac:(lia)). rewrite <- Z.add_lor_land.
    assert (Z.land (v mod 128) 128 = 0) as ->; [|lia].
    apply Z.bits_inj'. intros j Hj. rewrite Z.land_spec, Z.bits_0. change 128 with (2 ^ 7).
    rewrite Z.pow2_bits_eqb by lia. destruct (Z.eqb_spec 7 j) as [<-|]; [|by rewrite andb_false_r].
    by rewrite Z.mod_pow2_bits_high by lia. }
  assert (u8 (v mod 128 + 128) = v mod 128 + 128) as Hs.
  { pose proof (Z.mod_pos_bound v 128 ltac:(lia)). rewrite uwrap_small; simpl; lia. }
  split; rewrite <- Hs, <- H.
  - apply byte_bits_ext. intros j Hj. rewrite !Z.lor_spec. change 128 with (2 ^ 7).
    rewrite Z.pow2_bits_eqb by lia. destruct (Z.eqb_spec 7 j); [by rewrite !orb_true_r|].
    by rewrite Z.mod_pow2_bits_low by lia.
  - change 127 with (Z.ones 7). by rewrite Z.land_ones by lia.
Qed.

Lemma shiftr7 v : Z.shiftr v 7 = v / 128.
Proof. by rewrite Z.shiftr_div_pow2 by lia. Qed.

Lemma varint_loop_more n v :
  128 <= v -> varint_loop (S n) v = v mod 128 + 128 :: varint_loop n (v / 128).
Proof.
  intros Hv. cbn [varint_loop]. rewrite (proj2 (Z.leb_le _ _)) by lia.
  destruct (more_byte v ltac:(lia)) as [_ ->]. by rewrite shiftr7.
Qed.

Lemma varint_loop_last n v : 0 <= v < 128 -> varint_loop (S n) v = [v].
Proof.
  intros Hv. cbn [varint_loop]. rewrite (proj2 (Z.leb_gt _ _)) by lia. by rewrite uwrap_small by (simpl; lia).
Qed.

(** The unrolled encoder writes what the loop writes. *)
Lemma EncodeVarint32_loop v n : 0 <= v < 2 ^ 32 -> (5 <= n)%nat -> EncodeVarint32 v = varint_loop n v.
Proof.
  intros Hv Hn. destruct n as [|[|[|[|[|n]]]]]; try lia. unfold EncodeVarint32.
  assert (Z.shiftr v 28 = v / 128 / 128 / 128 / 128 /\ Z.shiftr v 21 = v / 128 / 128 / 128
          /\ Z.shiftr v 14 = v / 128 / 128) as (-> & -> & ->).
  { by rewrite !Z.shiftr_div_pow2, !Z.div_div by lia. }
  rewrite shiftr7.
  set (v1 := v / 128). set (v2 := v1 / 128). set (v3 := v2 / 128). set (v4 := v3 / 128).
  assert (0 <= v1 /\ 0 <= v2 /\ 0 <= v3) as (? & ? & ?) by (repeat split; repeat apply Z.div_pos; lia).
  repeat match goal with |- context [u8 (Z.lor ?x 128)] => rewrite (proj1 (more_byte x ltac:(lia))) end.
  change (Z.shiftl 1 7) with 128. change (Z.shiftl 1 14) with (128 * 128).
  change (Z.shiftl 1 21) with (128 * 128 * 128). change (Z.shiftl 1 28) with (128 * 128 * 128 * 128).
  assert (v4 < 128 /\ 0 <= v4) as [? ?].
  { unfold v4, v3, v2, v1. rewrite !Z.div_div by lia. split; [apply Z.div_lt_upper_bound; lia|apply Z.div_pos; lia]. }
  repeat zcase.
  - by rewrite varint_loop_last, uwrap_small by (simpl; lia).
  - rewrite varint_loop_more by lia. fold v1. assert (v1 < 128) by (apply Z.div_lt_upper_bound; lia).
    by rewrite varint_loop_last, uwrap_small by (simpl; lia).
  - do 2 rewrite varint_loop_more by (subst v1; zdm). fold v1 v2. assert (v2 < 128) by (subst v1 v2; zdm).
    by rewrite varint_loop_last, uwrap_small by (simpl; lia).
  - do 3 rewrite varint_loop_more by (subst v1 v2; zdm). fold v1 v2 v3. assert (v3 < 128) by (subst v1 v2 v3; zdm).
    by rewrite varint_loop_last, uwrap_small by (simpl; lia).
  - do 4 rewrite varint_loop_more by (subst v1 v2 v3; zdm). fold v1 v2 v3 v4.
    by rewrite varint_loop_last, uwrap_small by (simpl; lia).
Qed.

Lemma lor_shifted a b k : 0 <= k -> 0 <= a < 2 ^ k -> Z.lor a (b * 2 ^ k) = a + b * 2 ^ k.
Proof.
  intros Hk Ha. rewrite <- Z.add_lor_land.
  assert (Z.land a (b * 2 ^ k) = 0) as ->; [|lia].
  apply Z.bits_inj'. intros j Hj. rewrite Z.land_spec, Z.bits_0.
  destruct (Z.ltb_spec j k).
  - rewrite (Z.mul_pow2_bits_low b) by lia. apply andb_false_r.
  - rewrite <- (Z.mod_small a (2 ^ k)) by lia. by rewrite Z.mod_pow2_bits_high by lia.
Qed.

(** The bytes of a varint, to the decoder. *)
Lemma more_byte_decoded v :
  Z.land (v mod 128 + 128) 128 <> 0 /\ Z.land (v mod 128 + 128) 127 = v mod 128.
Proof.
  pose proof (Z.mod_pos_bound v 128 ltac:(lia)) as Hb.
  assert (H : ((negb (Z.land (v mod 128 + 128) 128 =? 0)) && (Z.land (v mod 128 + 128) 127 =? v mod 128) = true)).
  { generalize dependent (v mod 128). intros b Hb.
    assert (forallb (fun b => negb (Z.land (b + 128) 128 =? 0) && (Z.land (b + 128) 127 =? b)) (seqZ 0 128) = true)
      as H by reflexivity.
    rewrite forallb_forall in H. apply H, list_elem_of_In, elem_of_seqZ. lia. }
  apply andb_true_iff in H as [H1%negb_true_iff%Z.eqb_neq H2%Z.eqb_eq]. done.
Qed.

Lemma last_byte_decoded v : 0 <= v < 128 -> Z.land v 128 = 0.
Proof.
  intros Hv. apply Z.bits_inj'. intros j Hj. rewrite Z.land_spec, Z.bits_0. change 128 with (2 ^ 7).
  rewrite Z.pow2_bits_eqb by lia. destruct (Z.eqb_spec 7 j) as [<-|]; [|by rewrite andb_false_r].
  rewrite <- (Z.mod_small v (2 ^ 7)) by lia. by rewrite Z.mod_pow2_bits_high by lia.
Qed.

Lemma varint_decode_loop w n v shift result rest :
  0 <= shift < w -> 0 <= result < 2 ^ shift -> 0 <= v < 128 ^ Z.of_nat (S n) -> v * 2 ^ shift < 2 ^ w ->
  varint_decode w (varint_loop (S n) v ++ rest) shift result = Some (result + v * 2 ^ shift, rest).
Proof.
  revert v shift result. induction n as [|n IH]; intros v shift result Hs Hr Hv Hw.
  all: destruct (Z.leb_spec 128 v) as [Hm|Hm]; [|rewrite varint_loop_last by lia].
  1: simpl in Hv; lia.
  1,3: simpl; rewrite (proj2 (Z.leb_gt w shift)), last_byte_decoded by lia; simpl;
    rewrite Z.shiftl_mul_pow2, uwrap_small by lia; by rewrite lor_shifted by lia.
  rewrite varint_loop_more by lia. cbn [varint_decode app]. rewrite (proj2 (Z.leb_gt w shift)) by lia.
  destruct (more_byte_decoded v) as [H1 ->]. rewrite (proj2 (Z.eqb_neq _ _)) by done.
  pose proof (Z.mod_pos_bound v 128 ltac:(lia)) as Hb. pose proof (Z.div_mod v 128 ltac:(lia)) as Hd.
  assert (Hp : 2 ^ (shift + 7) = 128 * 2 ^ shift) by (rewrite Z.pow_add_r by lia; change (2 ^ 7) with 128; lia).
  assert (Hdiv : 1 <= v / 128) by (apply Z.div_le_lower_bound; lia).
  assert (Hlow : v mod 128 * 2 ^ shift <= 127 * 2 ^ shift) by (apply Z.mul_le_mono_nonneg_r; lia).
  assert (Hval : v * 2 ^ shift = v / 128 * 2 ^ (shift + 7) + v mod 128 * 2 ^ shift) by (rewrite Hp; nia).
  assert (Hge : 2 ^ (shift + 7) <= v / 128 * 2 ^ (shift + 7)) by nia.
  assert (Hlow0 : 0 <= v mod 128 * 2 ^ shift) by nia.
  rewrite Z.shiftl_mul_pow2, uwrap_small, lor_shifted by lia.
  rewrite IH; [f_equal; f_equal; lia| |lia| |lia].
  - split; [lia|]. apply (Z.pow_lt_mono_r_iff 2); lia.
  - rewrite Nat2Z.inj_succ, Z.pow_succ_r in Hv by lia.
    split; [lia|]. apply Z.div_lt_upper_bound; lia.
Qed.

Lemma GetVarint64_Encode v rest :
  0 <= v < 2 ^ 64 -> GetVarint64 (EncodeVarint64 v ++ rest) = Some (v, rest).
Proof.
  intros Hv. unfold GetVarint64, GetVarint64Ptr, EncodeVarint64.
  rewrite varint_decode_loop by (simpl; lia). f_equal. f_equal. simpl. lia.
Qed.

Lemma GetVarint32_Encode v rest :
  0 <= v < 2 ^ 32 -> GetVarint32 (EncodeVarint32 v ++ rest) = Some (v, rest).
Proof.
  intros Hv. unfold GetVarint32. rewrite (EncodeVarint32_loop v 5) by (done || lia).
  assert (Hf : GetVarint32PtrFallback (varint_loop 5 v ++ rest) = Some (v, rest)).
  { unfold GetVarint32PtrFallback. rewrite varint_decode_loop by (simpl; lia). f_equal. f_equal. simpl. lia. }
  unfold GetVarint32Ptr. destruct (Z.leb_spec 128 v) as [Hm|Hm].
  - revert Hf. rewrite varint_loop_more by lia. rewrite <- app_comm_cons. intros Hf.
    destruct (more_byte_decoded v) as [H1 _]. by rewrite (proj2 (Z.eqb_neq _ _)).
  - rewrite varint_loop_last by lia. simpl. by rewrite last_byte_decoded by lia.
Qed.

Lemma GetLengthPrefixedSlice_Put value rest :
  lenZ value < 2 ^ 32 ->
  GetLengthPrefixedSlice (PutLengthPrefixedSlice [] value ++ rest) = Some (value, rest).
Proof.
  intros Hv. unfold GetLengthPrefixedSlice, PutLengthPrefixedSlice, PutVarint32. simpl.
  rewrite uwrap_small, <- app_assoc, GetVarint32_Encode by lia.
  rewrite length_app, (proj2 (Z.leb_le _ _)) by lia. rewrite Nat2Z.id.
  by rewrite take_app_length', drop_app_length' by done.
Qed.

Lemma length_loop_varint n v len :
  0 <= v < 128 ^ Z.of_nat (S n) -> length_loop (S n) v len = len + lenZ (varint_loop (S n) v) - 1.
Proof.
  revert v len. induction n as [|n IH]; intros v len Hv.
  all: destruct (Z.leb_spec 128 v) as [Hm|Hm];
    [|rewrite varint_loop_last by lia; cbn [length_loop]; rewrite (proj2 (Z.leb_gt _ _)) by lia; simpl; lia].
  1: simpl in Hv; lia.
  rewrite varint_loop_more by lia. remember (S n) as m. cbn [length_loop].
  rewrite (proj2 (Z.leb_le _ _)) by lia. rewrite shiftr7. subst m. rewrite IH; [simpl length; lia|].
  rewrite Nat2Z.inj_succ, Z.pow_succ_r in Hv by lia. split; [apply Z.div_pos; lia|apply Z.div_lt_upper_bound; lia].
Qed.

(** [VarintLength] is the length of the encoding. *)
Lemma VarintLength_Encode v : 0 <= v < 2 ^ 64 -> VarintLength v = lenZ (EncodeVarint64 v).
Proof.
  intros Hv. unfold VarintLength, EncodeVarint64. rewrite length_loop_varint; [lia|].
  split; [lia|]. transitivity (2 ^ 64); [lia|]. vm_compute. reflexivity.
Qed.

(** What leveldb encodes it decodes: a fixed-width integer, a varint of 32 or 64 bits
    and a string with its length in front are each read back from a longer input, and
    the input is left just behind them.  The 32-bit encoder, which is unrolled, writes
    what the loop of the 64-bit one would. *)
Theorem coding_roundtrip rest :
  (forall v, 0 <= v < 2 ^ 32 -> DecodeFixed32 (EncodeFixed32 v ++ rest) = Some v)
  /\ (forall v, 0 <= v < 2 ^ 64 -> DecodeFixed64 (EncodeFixed64 v ++ rest) = Some v)
  /\ (forall v, 0 <= v < 2 ^ 32 -> GetVarint32 (EncodeVarint32 v ++ rest) = Some (v, rest))
  /\ (forall v, 0 <= v < 2 ^ 64 -> GetVarint64 (EncodeVarint64 v ++ rest) = Some (v, rest))
  /\ (forall v, 0 <= v < 2 ^ 32 -> EncodeVarint32 v = EncodeVarint64 v)
  /\ (forall value, lenZ value < 2 ^ 32 ->
        GetLengthPrefixedSlice (PutLengthPrefixedSlice [] value ++ rest) = Some (value, rest)).
Proof.
  split_and!; intros.
  - by apply DecodeFixed32_Encode.
  - by apply DecodeFixed64_Encode.
  - by apply GetVarint32_Encode.
  - by apply GetVarint64_Encode.
  - apply EncodeVarint32_loop; [done|lia].
  - by apply GetLengthPrefixedSlice_Put.
Qed.

(** ** Arrays of fixed-width numbers *)

Lemma length_fixed32s l : length (mjoin (EncodeFixed32 <$> l)) = (4 * length l)%nat.
Proof.
  induction l as [|x l IH]; [done|]. change (mjoin (EncodeFixed32 <$> x :: l)) with (EncodeFixed32 x ++ mjoin (EncodeFixed32 <$> l)).
  rewrite length_app, IH. unfold EncodeFixed32. rewrite length_le_bytes. simpl. lia.
Qed.

Lemma fixed32_lookup l i v tl : Forall (fun v => 0 <= v < 2 ^ 32) l -> l !! i = Some v ->
  DecodeFixed32 (drop (4 * i) (mjoin (EncodeFixed32 <$> l) ++ tl)) = Some v.
Proof.
  intros Hl. revert i. induction Hl as [|x l Hx Hl IH]; intros i; [done|].
  change (mjoin (EncodeFixed32 <$> x :: l)) with (EncodeFixed32 x ++ mjoin (EncodeFixed32 <$> l)). rewrite <- app_assoc.
  destruct i as [|i].
  - intros [= ->]. by apply DecodeFixed32_Encode.
  - intros Hi. replace (4 * S i)%nat with (length (EncodeFixed32 x) + 4 * i)%nat
      by (unfold EncodeFixed32; rewrite length_le_bytes; lia).
    rewrite <- drop_drop, drop_app_length. by apply IH.
Qed.

(** ** The encodings are bytes, and short *)

Lemma le_bytes_ok n v : bytes_ok (le_bytes n v).
Proof. revert v. induction n as [|n IH]; intros v; [constructor|]. constructor; [apply is_byte_u8|apply IH]. Qed.

Lemma varint32_ok v : bytes_ok (EncodeVarint32 v).
Proof. unfold EncodeVarint32. repeat case_match; repeat constructor; apply is_byte_u8. Qed.

Lemma varint_loop_ok n v : bytes_ok (varint_loop n v).
Proof.
  revert v. induction n as [|n IH]; intros v; simpl; [constructor|].
  destruct (_ <=? _); constructor; [apply is_byte_u8|apply IH|apply is_byte_u8|constructor].
Qed.

Lemma length_varint64 v : lenZ (EncodeVarint64 v) <= 10.
Proof.
  assert (Hl : forall n v, (length (varint_loop n v) <= n)%nat); [|specialize (Hl 10%nat v); unfold EncodeVarint64; lia].
  induction n as [|n IH]; intros w; simpl; [lia|]. destruct (_ <=? _); simpl; [specialize (IH (Z.shiftr w 7))|]; lia.
Qed.

Lemma length_varint32 v : lenZ (EncodeVarint32 v) <= 5.
Proof. unfold EncodeVarint32. repeat case_match; simpl; lia. Qed.

Lemma fixed32s_bytes l : bytes_ok (mjoin (EncodeFixed32 <$> l)).
Proof.
  induction l as [|x l IH]; [constructor|]. change (mjoin (EncodeFixed32 <$> x :: l)) with (EncodeFixed32 x ++ mjoin (EncodeFixed32 <$> l)).
  apply Forall_app. split; [apply le_bytes_ok|done].
Qed.
