(* ===== verification/LdbLog.v ===== *)
(** * leveldb: the log

    src/ext/leveldb/db/log_writer.cc and log_reader.cc: records of any length are cut into
    physical records that do not cross a block of 32768 bytes, each with a checksum, its
    length and its place in the record.  A writer first reserves the bytes of a record
    and then writes at its own offset, so that several threads can write at once. *)

From Stdlib Require Import ZArith Lia.
From stdpp Require Import base list numbers option.
From S2P Require Import Prelude ByteOrder LdbCoding LdbCrc.
Open Scope Z_scope.
Open Scope webapp_scope.

Definition kZeroType : Z := 0.
Definition kFullType : Z := 1.
Definition kFirstType : Z := 2.
Definition kMiddleType : Z := 3.
Definition kLastType : Z := 4.
Definition kBlockSize : Z := 32768.
Definition kHeaderSize : Z := 7.

(** ** The writer *)

(** What is left of the block at an offset, and where a physical record can start: a
    block's last bytes are skipped when a header does not fit. *)
Definition leftover (offset : Z) : Z := kBlockSize - Z.land offset (kBlockSize - 1).

Definition fragment_length (offset left : Z) : Z :=
  let avail := kBlockSize - Z.land offset (kBlockSize - 1) - kHeaderSize in
  if left <? avail then left else avail.

(** The first loop of [AddRecord]: the offset behind a record of [left] bytes. *)
Fixpoint reserve (fuel : nat) (end_offset left : Z) : Z :=
  match fuel with
  | O => end_offset
  | S fuel =>
      let end_offset := if leftover end_offset <? kHeaderSize then end_offset + leftover end_offset else end_offset in
      let n := fragment_length end_offset left in
      let end_offset := end_offset + (kHeaderSize + n) in
      let left := left - n in
      if 0 <? left then reserve fuel end_offset left else end_offset
  end.

Section Writer.
(** Whether a write at an offset succeeds, and the address of the record. *)
Variable ok : Z -> bool.

Definition WriteAt (offset : Z) (bs : list Z) : list (Z * list Z) :=
  if ok offset then [(offset, bs)] else [].

(** [type_crc_[t]]. *)
Definition type_crc_ (t : Z) : Z := Value 0 [t].

Definition header (t : Z) (data : list Z) (ptr : Z) : list Z :=
  let n := lenZ data in
  let crc := Mask (Extend ptr (type_crc_ t) data) in
  EncodeFixed32 crc ++ [Z.land n 0xff; u8 (Z.shiftr n 8); t].

(** The writes that were made, and the status. *)
Definition EmitPhysicalRecordAt (t : Z) (data : list Z) (ptr offset : Z) : list (Z * list Z) * bool :=
  let w := WriteAt offset (header t data ptr) in
  if ok offset then (w ++ WriteAt (offset + kHeaderSize) data, ok (offset + kHeaderSize)) else (w, false).

Definition record_type (begin end_ : bool) : Z :=
  if begin && end_ then kFullType else if begin then kFirstType else if end_ then kLastType else kMiddleType.

(** The second loop: fragments from [offset] on. *)
Fixpoint add_loop (fuel : nat) (offset ptr : Z) (begin : bool) (data : list Z) : list (Z * list Z) * bool :=
  match fuel with
  | O => ([], true)
  | S fuel =>
      let pad := leftover offset <? kHeaderSize in
      let ws0 := if pad then WriteAt offset (replicate (Z.to_nat (leftover offset)) 0) else [] in
      let offset := if pad then offset + leftover offset else offset in
      let n := fragment_length offset (lenZ data) in
      let t := record_type begin (lenZ data =? n) in
      let '(ws1, s) := EmitPhysicalRecordAt t (take (Z.to_nat n) data) ptr offset in
      let rest := drop (Z.to_nat n) data in
      if s && (0 <? lenZ rest) then
        let '(ws2, s) := add_loop fuel (offset + (kHeaderSize + n)) (ptr + n) false rest in
        (ws0 ++ ws1 ++ ws2, s)
      else (ws0 ++ ws1, s)
  end.

(** A round writes a byte of the record, but for one that meets the end of a block. *)
Definition fuel_for (n : nat) : nat := S (S n).

(** [AddRecord] at [offset_]: the new [offset_], the writes and the status. *)
Definition AddRecord (offset_ ptr : Z) (slice : list Z) : Z * (list (Z * list Z) * bool) :=
  (reserve (fuel_for (length slice)) offset_ (lenZ slice),
   add_loop (fuel_for (length slice)) offset_ ptr true slice).
End Writer.

(** ** The reader *)

Record reader := mkReader {
  file : list Z;                  (** what has not been read *)
  buffer : list Z;
  eof : bool;
  last_record_offset : Z;
  end_of_buffer_offset : Z;
  drops : list Z                  (** the sizes reported to the reporter *) }.

Definition reader_new (f : list Z) : reader := mkReader f [] false 0 0 [].

Section Reader.
(** The options of the reader, and whether a read at an offset succeeds. *)
Variables (checksum : bool) (initial_offset : Z) (read_ok : Z -> bool).

Definition ReportDrop (r : reader) (bytes : Z) : reader :=
  if initial_offset <=? u64 (end_of_buffer_offset r - lenZ (buffer r) - bytes)
  then mkReader (file r) (buffer r) (eof r) (last_record_offset r) (end_of_buffer_offset r) (drops r ++ [bytes])
  else r.

Definition set_buffer (r : reader) (b : list Z) : reader :=
  mkReader (file r) b (eof r) (last_record_offset r) (end_of_buffer_offset r) (drops r).

(** Reading the next block. *)
Definition fill (r : reader) : reader * bool :=
  let b := take (Z.to_nat kBlockSize) (file r) in
  let e := end_of_buffer_offset r + lenZ b in
  if read_ok (end_of_buffer_offset r) then
    (mkReader (drop (Z.to_nat kBlockSize) (file r)) b (lenZ b <? kBlockSize) (last_record_offset r) e (drops r), true)
  else (ReportDrop (mkReader (file r) [] true (last_record_offset r) e (drops r)) kBlockSize, false).

Inductive physical := kEof | kBadRecord | PRecord (t : Z) (fragment : list Z).

(** Parsing the header at the start of the buffer. *)
Definition parse_header (r : reader) : physical * reader :=
  let b := buffer r in
  let h := at_ b in
  let length_ := Z.lor (Z.land (h 4%nat) 0xff) (Z.shiftl (Z.land (h 5%nat) 0xff) 8) in
  let t := h 6%nat in
  let drop_all := ReportDrop (set_buffer r []) (lenZ b) in
  if lenZ b <? kHeaderSize + length_ then (kBadRecord, drop_all)
  else if (t =? kZeroType) && (length_ =? 0) then (kBadRecord, set_buffer r [])
  else if checksum && negb (bool_decide (Some (Value 0 (take (1 + Z.to_nat length_) (drop 6 b)))
                                         = (Unmask <$> DecodeFixed32 b)))
  then (kBadRecord, drop_all)
  else
    let r' := set_buffer r (drop (Z.to_nat (kHeaderSize + length_)) b) in
    if u64 (end_of_buffer_offset r - lenZ (buffer r') - kHeaderSize - length_) <? initial_offset
    then (kBadRecord, r')
    else (PRecord t (take (Z.to_nat length_) (drop (Z.to_nat kHeaderSize) b)), r').

(** The loop goes round once for a block that is read, and then at most once more. *)
Fixpoint ReadPhysicalRecord (fuel : nat) (r : reader) : physical * reader :=
  match fuel with
  | O => (kEof, r)
  | S fuel =>
      if lenZ (buffer r) <? kHeaderSize then
        if negb (eof r) then
          let '(r', s) := fill r in
          if s then ReadPhysicalRecord fuel r' else (kEof, r')
        else if lenZ (buffer r) =? 0 then (kEof, r)
        else (kEof, ReportDrop (set_buffer r []) (lenZ (buffer r)))
      else parse_header r
  end.

Definition set_last (r : reader) (o : Z) : reader :=
  mkReader (file r) (buffer r) (eof r) o (end_of_buffer_offset r) (drops r).

(** The loop of [ReadRecord]: [scratch] is [None] outside of a fragmented record. *)
Fixpoint read_loop (fuel : nat) (r : reader) (scratch : option (list Z)) (prospective : Z)
  : option (list Z) * reader :=
  match fuel with
  | O => (None, r)
  | S fuel =>
      let offset := u64 (end_of_buffer_offset r - lenZ (buffer r)) in
      let '(p, r1) := ReadPhysicalRecord 3 r in
      let partial r := match scratch with
                       | Some (c :: s) => ReportDrop r (lenZ (c :: s))
                       | _ => r
                       end in
      match p with
      | kEof => (None, match scratch with Some s => ReportDrop r1 (lenZ s) | None => r1 end)
      | kBadRecord =>
          read_loop fuel (match scratch with Some s => ReportDrop r1 (lenZ s) | None => r1 end) None prospective
      | PRecord t fragment =>
          if t =? kFullType then (Some fragment, set_last (partial r1) offset)
          else if t =? kFirstType then read_loop fuel (partial r1) (Some fragment) offset
          else if t =? kMiddleType then
            match scratch with
            | None => read_loop fuel (ReportDrop r1 (lenZ fragment)) None prospective
            | Some s => read_loop fuel r1 (Some (s ++ fragment)) prospective
            end
          else if t =? kLastType then
            match scratch with
            | None => read_loop fuel (ReportDrop r1 (lenZ fragment)) None prospective
            | Some s => (Some (s ++ fragment), set_last r1 prospective)
            end
          else
            read_loop fuel (ReportDrop r1 (lenZ fragment + match scratch with Some s => lenZ s | None => 0 end))
                      None prospective
      end
  end.

(** [SkipToInitialBlock]; skipping always succeeds. *)
Definition SkipToInitialBlock (r : reader) : reader :=
  let offset_in_block := initial_offset mod kBlockSize in
  let start := initial_offset - offset_in_block in
  let start := if kBlockSize - 6 <? offset_in_block then start + kBlockSize else start in
  mkReader (drop (Z.to_nat start) (file r)) (buffer r) (eof r) (last_record_offset r) start (drops r).

(** [ReadRecord]: the record, or none at the end.  Each physical record takes bytes of the
    buffer or clears it. *)
Definition ReadRecord (r : reader) : option (list Z) * reader :=
  let r := if last_record_offset r <? initial_offset then SkipToInitialBlock r else r in
  read_loop (length (file r) + length (buffer r) + 2) r None 0.
End Reader.

(** ** The writer: offsets *)

Lemma block_offset o : Z.land o (kBlockSize - 1) = o mod kBlockSize.
Proof. change (kBlockSize - 1) with (Z.ones 15). by rewrite Z.land_ones by lia. Qed.

(** Where the next physical record starts. *)
Definition start_of (o : Z) : Z := if leftover o <? kHeaderSize then o + leftover o else o.

(** At such a place a header fits into the block. *)
Lemma start_fits o : 0 <= o -> o <= start_of o < o + kHeaderSize /\ start_of o mod kBlockSize + kHeaderSize <= kBlockSize.
Proof.
  intros Ho. unfold start_of, leftover. rewrite block_offset. unfold kBlockSize, kHeaderSize. zcase; zdm.
Qed.

Lemma fragment_bounds o left :
  o mod kBlockSize + kHeaderSize <= kBlockSize -> 0 <= left ->
  0 <= fragment_length o left <= left
  /\ o mod kBlockSize + kHeaderSize + fragment_length o left <= kBlockSize
  /\ (fragment_length o left < left ->
      o mod kBlockSize + kHeaderSize + fragment_length o left = kBlockSize).
Proof.
  intros Ho Hl. unfold fragment_length. rewrite block_offset. zcase; lia.
Qed.

(** The bytes of a record from [offset] on, when every write succeeds. *)
Fixpoint record_bytes (fuel : nat) (offset ptr : Z) (begin : bool) (data : list Z) : list Z :=
  match fuel with
  | O => []
  | S fuel =>
      let o := start_of offset in
      let n := fragment_length o (lenZ data) in
      let frag := take (Z.to_nat n) data in
      replicate (Z.to_nat (o - offset)) 0 ++ header (record_type begin (lenZ data =? n)) frag ptr ++ frag
      ++ (if 0 <? lenZ (drop (Z.to_nat n) data)
          then record_bytes fuel (o + (kHeaderSize + n)) (ptr + n) false (drop (Z.to_nat n) data) else [])
  end.

(** The file after some writes. *)
Definition overwrite (f : list Z) (o : Z) (bs : list Z) : list Z :=
  take (Z.to_nat o) f ++ replicate (Z.to_nat o - length f) 0 ++ bs ++ drop (Z.to_nat o + length bs) f.
Definition apply_writes (f : list Z) (ws : list (Z * list Z)) : list Z :=
  foldl (fun f w => overwrite f w.1 w.2) f ws.

Lemma overwrite_end f bs : overwrite f (lenZ f) bs = f ++ bs.
Proof.
  unfold overwrite. rewrite Nat2Z.id, firstn_all, Nat.sub_diag, drop_ge by lia. simpl. by rewrite app_nil_r.
Qed.

Lemma apply_writes_app f ws ws' : apply_writes f (ws ++ ws') = apply_writes (apply_writes f ws) ws'.
Proof. unfold apply_writes. by rewrite foldl_app. Qed.

Lemma length_header t data ptr : lenZ (header t data ptr) = kHeaderSize.
Proof. unfold header, EncodeFixed32. rewrite length_app, length_le_bytes. done. Qed.
Lemma length_header_nat t data ptr : length (header t data ptr) = 7%nat.
Proof. pose proof (length_header t data ptr) as H. unfold kHeaderSize in H. lia. Qed.

Lemma leftover_pos o : 0 < leftover o.
Proof. unfold leftover. rewrite block_offset. unfold kBlockSize. pose proof (Z.mod_pos_bound o 32768). lia. Qed.

(** The writes of a record, at the end of the file, add its bytes. *)
Lemma add_loop_bytes fuel f ptr begin data :
  apply_writes f (add_loop (fun _ => true) fuel (lenZ f) ptr begin data).1
  = f ++ record_bytes fuel (lenZ f) ptr begin data
  /\ (add_loop (fun _ => true) fuel (lenZ f) ptr begin data).2 = true.
Proof.
  revert f ptr begin data. induction fuel as [|fuel IH]; intros f ptr begin data; [by rewrite app_nil_r|].
  cbn [add_loop record_bytes]. fold (start_of (lenZ f)). set (o := start_of (lenZ f)).
  set (n := fragment_length o (lenZ data)). unfold EmitPhysicalRecordAt, WriteAt.
  set (pad := replicate (Z.to_nat (o - lenZ f)) 0).
  assert (Hpad : apply_writes f (if leftover (lenZ f) <? kHeaderSize
            then [(lenZ f, replicate (Z.to_nat (leftover (lenZ f))) 0)] else []) = f ++ pad
            /\ lenZ (f ++ pad) = o).
  { unfold pad, o, start_of. pose proof (leftover_pos (lenZ f)). zcase; simpl.
    - rewrite overwrite_end, length_app, length_replicate. split; [do 2 f_equal; lia|lia].
    - rewrite Z.sub_diag. simpl. by rewrite app_nil_r. }
  destruct Hpad as [Hp1 Hp2]. set (hd := header _ _ ptr). set (frag := take (Z.to_nat n) data).
  assert (Hf : apply_writes (f ++ pad) [(o, hd); (o + kHeaderSize, frag)] = f ++ pad ++ hd ++ frag).
  { simpl. rewrite <- Hp2, overwrite_end. unfold hd.
    rewrite <- (length_header (record_type begin (lenZ data =? n)) frag ptr), <- Nat2Z.inj_add, <- length_app.
    rewrite overwrite_end. by rewrite <- !app_assoc. }
  assert (Hn : 0 <= n <= lenZ data).
  { destruct (start_fits (lenZ f) ltac:(lia)) as [_ Hs]. by destruct (fragment_bounds o (lenZ data) Hs ltac:(lia)). }
  destruct (0 <? lenZ (drop (Z.to_nat n) data)); cbn [andb].
  - specialize (IH (f ++ pad ++ hd ++ frag) (ptr + n) false (drop (Z.to_nat n) data)).
    assert (Hl : lenZ (f ++ pad ++ hd ++ frag) = o + (kHeaderSize + n)).
    { rewrite app_assoc, (length_app (f ++ pad)), Nat2Z.inj_add, Hp2, length_app, Nat2Z.inj_add.
      unfold hd, frag. rewrite length_header, length_take. lia. }
    rewrite Hl in IH. destruct (add_loop _ fuel _ (ptr + n) false _) as [ws2 s2]. destruct IH as [IH1 IH2].
    cbn [fst snd] in *. split; [|done].
    rewrite apply_writes_app, Hp1. cbn [app]. change (?a :: ?b :: ws2) with ([a; b] ++ ws2).
    rewrite apply_writes_app, Hf, IH1. by rewrite <- !app_assoc.
  - cbn [fst snd]. split; [|done]. rewrite apply_writes_app, Hp1. cbn [app]. rewrite Hf. by rewrite app_nil_r.
Qed.

(** What is reserved for a record is what is written for it. *)
Lemma reserve_bytes fuel o ptr begin data :
  0 <= o -> reserve fuel o (lenZ data) = o + lenZ (record_bytes fuel o ptr begin data).
Proof.
  revert o ptr begin data. induction fuel as [|fuel IH]; intros o ptr begin data Ho; [simpl; lia|].
  cbn [reserve record_bytes]. fold (start_of o). destruct (start_fits o Ho) as [Hs1 Hs2].
  set (s := start_of o) in *. destruct (fragment_bounds s (lenZ data) Hs2 ltac:(lia)) as (Hn & _ & _).
  set (n := fragment_length s (lenZ data)) in *.
  assert (Hd : lenZ data - n = lenZ (drop (Z.to_nat n) data)) by (rewrite length_drop; lia).
  rewrite Hd, !length_app, !Nat2Z.inj_add, length_header, length_replicate, length_take.
  destruct (0 <? lenZ (drop (Z.to_nat n) data)); [|simpl; lia].
  rewrite (IH _ (ptr + n) false); unfold kHeaderSize in *; lia.
Qed.

(** ** The reader: where it is in the file *)

(** The reader is at the offset [pos] of the file [F]: its buffer goes from there to the end
    of the block, or of the file. *)
Record reader_at (F : list Z) (pos : Z) (r : reader) : Prop := mkAt {
  at_range : 0 <= pos <= end_of_buffer_offset r /\ end_of_buffer_offset r <= lenZ F;
  at_block : end_of_buffer_offset r <= kBlockSize * (pos / kBlockSize + 1);
  at_full : eof r = false -> end_of_buffer_offset r mod kBlockSize = 0;
  at_eof : eof r = true -> end_of_buffer_offset r = lenZ F;
  at_buffer : buffer r = take (Z.to_nat (end_of_buffer_offset r - pos)) (drop (Z.to_nat pos) F);
  at_file : file r = drop (Z.to_nat (end_of_buffer_offset r)) F;
  at_drops : drops r = [] }.

Lemma reader_new_at F : reader_at F 0 (reader_new F).
Proof. constructor; simpl; try done; unfold kBlockSize; lia. Qed.

Lemma at_buffer_length F pos r :
  reader_at F pos r -> lenZ (buffer r) = end_of_buffer_offset r - pos.
Proof. intros [[H1 H2] _ _ _ H5 _ _]. rewrite H5, length_take, length_drop. lia. Qed.

(** A block that is read. *)
Lemma fill_at F pos r :
  reader_at F pos r -> eof r = false ->
  exists r', fill 0 (fun _ => true) r = (r', true) /\ last_record_offset r' = last_record_offset r
    /\ reader_at F (end_of_buffer_offset r) r'
    /\ (end_of_buffer_offset r < lenZ F -> end_of_buffer_offset r < end_of_buffer_offset r')
    /\ (end_of_buffer_offset r = lenZ F -> eof r' = true /\ end_of_buffer_offset r' = lenZ F).
Proof.
  intros [[H1 H2] H3 H4 H5 H6 H7 H8] He. specialize (H4 He). unfold fill. eexists. split; [reflexivity|].
  set (E := end_of_buffer_offset r) in *. rewrite H7. 
  assert (Hlen : lenZ (take (Z.to_nat kBlockSize) (drop (Z.to_nat E) F)) = Z.min kBlockSize (lenZ F - E)).
  { rewrite length_take, length_drop. unfold kBlockSize. lia. }
  split; [done|]. split; [|simpl; rewrite Hlen; unfold kBlockSize in *; split; intros; [lia|]].
  - constructor; simpl; rewrite ?Hlen; unfold kBlockSize in *; try done.
    + lia.
    + zdm.
    + intros Hf%Z.ltb_ge. rewrite Z.min_l by lia. zdm.
    + intros Hf%Z.ltb_lt. lia.
    + destruct (Z.min_spec 32768 (lenZ F - E)) as [[? ->]|[? ->]]; [f_equal; lia|].
      rewrite !take_ge by (rewrite length_drop; lia). done.
    + rewrite drop_drop. destruct (Z.min_spec 32768 (lenZ F - E)) as [[? ->]|[? ->]]; [f_equal; lia|].
      rewrite !drop_ge by lia. done.
  - split; [apply Z.ltb_lt; lia|lia].
Qed.

Lemma length_decoded n :
  0 <= n < 65536 -> Z.lor (Z.land (Z.land n 0xff) 0xff) (Z.shiftl (Z.land (u8 (Z.shiftr n 8)) 0xff) 8) = n.
Proof.
  intros Hn. change 0xff with (Z.ones 8). rewrite <- Z.land_assoc, Z.land_diag, !Z.land_ones by lia.
  rewrite Z.shiftr_div_pow2, Z.shiftl_mul_pow2 by lia. unfold uwrap. rewrite Z.mod_mod by lia.
  change (2 ^ 8) with 256. rewrite (Z.mod_small (n / 256)) by (split; [apply Z.div_pos; lia|apply Z.div_lt_upper_bound; lia]).
  change 256 with (2 ^ 8). rewrite lor_shifted; [|lia|apply Z.mod_pos_bound; lia]. change (2 ^ 8) with 256. zdm.
Qed.

(** The checksum of the header is that of the type and the data. *)
Lemma header_crc t data ptr :
  is_byte t -> bytes_ok data ->
  Unmask (Mask (Extend ptr (type_crc_ t) data)) = Value 0 (t :: data)
  /\ 0 <= Mask (Extend ptr (type_crc_ t) data) < 2 ^ 32.
Proof.
  intros Ht Hd. assert (bytes_ok [t]) by (constructor; [done|constructor]).
  assert (bytes_ok (t :: data)) by (by constructor).
  unfold type_crc_, Value. rewrite (Extend_bits 0 0 [t]), (Extend_bits 0 0 (t :: data)) by (done || lia).
  rewrite Extend_bits by (done || by apply crc_bits_bound). rewrite crc_bits_app. simpl app.
  split; [apply Unmask_Mask, crc_bits_bound; done|]. apply (uwrap_range 32). lia.
Qed.

(** Going on in the buffer. *)
Lemma advance_at F pos r k :
  reader_at F pos r -> 0 <= k -> pos + k <= end_of_buffer_offset r ->
  reader_at F (pos + k) (set_buffer r (drop (Z.to_nat k) (buffer r))).
Proof.
  intros [[H1 H2] H3 H4 H5 H6 H7 H8] Hk HE. constructor; simpl; try done.
  - lia.
  - unfold kBlockSize in *. zdm.
  - rewrite H6, skipn_firstn_comm, drop_drop. f_equal; [lia|f_equal; lia].
Qed.

(** The buffer at a physical record. *)
Lemma buffer_at F pos r t d ptr pre post :
  reader_at F pos r -> F = pre ++ header t d ptr ++ d ++ post -> lenZ pre = pos ->
  pos + kHeaderSize + lenZ d <= end_of_buffer_offset r ->
  exists more, buffer r = header t d ptr ++ d ++ more.
Proof.
  intros Hat HF Hpre HE. pose proof (length_header_nat t d ptr) as Hh.
  exists (take (Z.to_nat (end_of_buffer_offset r - pos) - 7 - length d) post).
  rewrite (at_buffer F pos r Hat), HF, drop_app_length' by lia. unfold kHeaderSize in HE.
  rewrite take_app_ge, take_app_ge by lia. by rewrite Hh.
Qed.

Lemma parse_header_at F pos r t d ptr pre post :
  reader_at F pos r -> F = pre ++ header t d ptr ++ d ++ post -> lenZ pre = pos ->
  pos + kHeaderSize + lenZ d <= end_of_buffer_offset r -> lenZ d < 65536 ->
  is_byte t -> t <> kZeroType -> bytes_ok d ->
  exists r', parse_header true 0 r = (PRecord t d, r')
    /\ reader_at F (pos + kHeaderSize + lenZ d) r' /\ last_record_offset r' = last_record_offset r.
Proof.
  intros Hat HF Hpre HE Hd Ht Ht0 Hok.
  destruct (buffer_at F pos r t d ptr pre post Hat HF Hpre HE) as [more Hb].
  destruct (header_crc t d ptr Ht Hok) as [Hcrc Hm]. pose proof (length_header_nat t d ptr) as Hh.
  unfold parse_header. rewrite Hb. set (b := header t d ptr ++ d ++ more) in *.
  assert (H4 : at_ b 4 = Z.land (lenZ d) 0xff) by done.
  assert (H5 : at_ b 5 = u8 (Z.shiftr (lenZ d) 8)) by done.
  assert (H6 : at_ b 6 = t) by done.
  rewrite H4, H5, H6, length_decoded by lia.
  rewrite (proj2 (Z.ltb_ge (lenZ b) _)) by (unfold b; rewrite !length_app; unfold kHeaderSize; lia).
  rewrite (proj2 (Z.eqb_neq t kZeroType)) by done. cbn [andb].
  assert (Hv : take (1 + Z.to_nat (lenZ d)) (drop 6 b) = t :: d).
  { rewrite Nat2Z.id. change (drop 6 b) with (t :: d ++ more). simpl. by rewrite take_app_length. }
  assert (Hdec : DecodeFixed32 b = Some (Mask (Extend ptr (type_crc_ t) d))).
  { unfold b, header. rewrite <- app_assoc. by apply DecodeFixed32_Encode. }
  rewrite Hv, Hdec. cbn [fmap option_fmap option_map]. rewrite Hcrc, bool_decide_true by done. cbn [negb].
  rewrite (proj2 (Z.ltb_ge _ 0)) by (apply (uwrap_range 64); lia).
  eexists. split.
  - f_equal. f_equal. change (drop (Z.to_nat kHeaderSize) b) with (d ++ more). by rewrite Nat2Z.id, take_app_length.
  - split; [|done]. rewrite <- Z.add_assoc. rewrite <- Hb. apply advance_at; unfold kHeaderSize in *; [done|lia|lia].
Qed.

(** The buffer of a reader goes to the end of its block, or of the file. *)
Lemma buffer_reaches F pos r m :
  reader_at F pos r -> pos < end_of_buffer_offset r -> 0 <= m ->
  pos mod kBlockSize + m <= kBlockSize -> pos + m <= lenZ F -> pos + m <= end_of_buffer_offset r.
Proof.
  intros [[H1 H2] H3 H4 H5 _ _ _] Hp Hm Hb HF. destruct (eof r).
  - by rewrite H5.
  - specialize (H4 eq_refl). unfold kBlockSize in *. zdm.
Qed.

Lemma read_physical_at F pos r t d ptr pre post :
  reader_at F pos r -> lenZ pre = pos ->
  F = pre ++ replicate (Z.to_nat (start_of pos - pos)) 0 ++ header t d ptr ++ d ++ post ->
  start_of pos mod kBlockSize + kHeaderSize + lenZ d <= kBlockSize ->
  is_byte t -> t <> kZeroType -> bytes_ok d ->
  exists r', ReadPhysicalRecord true 0 (fun _ => true) 3 r = (PRecord t d, r')
    /\ reader_at F (start_of pos + kHeaderSize + lenZ d) r' /\ last_record_offset r' = last_record_offset r.
Proof.
  intros Hat Hpre HF Hblk Ht Ht0 Hok.
  assert (Hpos : 0 <= pos) by lia. destruct (start_fits pos Hpos) as [Hs _]. pose proof (length_header_nat t d ptr) as Hh.
  assert (HlF : start_of pos + kHeaderSize + lenZ d <= lenZ F).
  { rewrite HF, !length_app, length_replicate, Hh. unfold kHeaderSize in *. lia. }
  assert (Hd : lenZ d < 65536).
  { pose proof (Z.mod_pos_bound (start_of pos) kBlockSize). unfold kBlockSize, kHeaderSize in *. lia. }
  cbn [ReadPhysicalRecord]. rewrite (at_buffer_length F pos r Hat).
  pose proof (at_range F pos r Hat) as Hr. pose proof (at_block F pos r Hat) as HB.
  assert (Hstart : forall r', reader_at F (start_of pos) r' ->
            start_of pos + kHeaderSize + lenZ d <= end_of_buffer_offset r' ->
            exists r'', parse_header true 0 r' = (PRecord t d, r'')
              /\ reader_at F (start_of pos + kHeaderSize + lenZ d) r'' /\ last_record_offset r'' = last_record_offset r').
  { intros r' Hr' HE'. apply (parse_header_at F _ r' t d ptr (pre ++ replicate (Z.to_nat (start_of pos - pos)) 0) post); try done.
    - by rewrite <- app_assoc.
    - rewrite length_app, length_replicate. lia. }
  destruct (Z.ltb_spec (end_of_buffer_offset r - pos) kHeaderSize) as [Hlt|Hge].
  - destruct (eof r) eqn:He; [rewrite (at_eof F pos r Hat He) in *; unfold kHeaderSize in *; lia|].
    pose proof (at_full F pos r Hat He) as Hfull.
    assert (HEs : end_of_buffer_offset r = start_of pos).
    { unfold start_of, leftover. rewrite block_offset. unfold kHeaderSize, kBlockSize in *. zcase; zdm. }
    destruct (fill_at F pos r Hat He) as (r1 & -> & Hl1 & Hat1 & Hgt & _). cbn [negb].
    rewrite HEs in Hat1, Hgt. specialize (Hgt ltac:(unfold kHeaderSize in *; lia)).
    pose proof (at_buffer_length F _ r1 Hat1) as Hlen1.
    pose proof (buffer_reaches F _ r1 (kHeaderSize + lenZ d) Hat1 Hgt) as Hreach.
    rewrite Hlen1, (proj2 (Z.ltb_ge _ _)) by (unfold kHeaderSize in *; lia).
    destruct (Hstart r1 Hat1) as (r2 & E2 & Hat2 & Hl2); [unfold kHeaderSize in *; lia|].
    exists r2. rewrite E2. split; [done|]. split; [done|]. congruence.
  - assert (Hsp : start_of pos = pos).
    { unfold start_of, leftover. rewrite block_offset. unfold kHeaderSize, kBlockSize in *. zcase; zdm. }
    rewrite Hsp in *. apply Hstart; [done|].
    pose proof (buffer_reaches F _ r (kHeaderSize + lenZ d) Hat). unfold kHeaderSize in *. lia.
Qed.

(** ** Records *)

(** Fuel for the fragments of a record: only the first can be empty. *)
Definition enough (fuel : nat) (o : Z) (data : list Z) : Prop :=
  (length data < fuel)%nat /\ (o mod kBlockSize = 0 \/ (S (length data) < fuel)%nat).

Lemma enough_next fuel o data :
  0 <= o -> enough (S fuel) o data ->
  let n := fragment_length (start_of o) (lenZ data) in
  n < lenZ data -> enough fuel (start_of o + (kHeaderSize + n)) (drop (Z.to_nat n) data).
Proof.
  intros Ho [H1 H2] n Hn. destruct (start_fits o Ho) as [Hs1 Hs2].
  destruct (fragment_bounds (start_of o) (lenZ data) Hs2 ltac:(lia)) as (Hb & _ & Hfull). fold n in Hb, Hfull.
  specialize (Hfull Hn). unfold enough. rewrite length_drop.
  assert (Hz : (start_of o + (kHeaderSize + n)) mod kBlockSize = 0) by (unfold kBlockSize, kHeaderSize in *; zdm).
  split; [|by left]. destruct H2 as [H2|H2]; [|lia].
  assert (start_of o = o) as E.
  { unfold start_of, leftover. rewrite block_offset, H2. done. }
  rewrite E, H2 in Hfull. unfold kBlockSize, kHeaderSize in *. lia.
Qed.

Lemma record_type_ok begin end_ : is_byte (record_type begin end_) /\ record_type begin end_ <> kZeroType.
Proof. destruct begin, end_; vm_compute; split; try done; split; done. Qed.

Lemma set_last_at F pos r o : reader_at F pos r -> reader_at F pos (set_last r o).
Proof. intros [H1 H2 H3 H4 H5 H6 H7]. by constructor. Qed.

(** Reading the fragments of a record from where the writer put them. *)
Lemma split_lengths n (data : list Z) : 0 <= n <= lenZ data ->
  lenZ (take (Z.to_nat n) data) = n /\ lenZ (drop (Z.to_nat n) data) = lenZ data - n
  /\ take (Z.to_nat n) data ++ drop (Z.to_nat n) data = data.
Proof. intros ?. rewrite length_take, length_drop, take_drop. split_and!; [lia..|done]. Qed.
Lemma read_fragments fuel data F pos r ptr (begin : bool) pre post s prosp fuelr :
  reader_at F pos r -> lenZ pre = pos -> bytes_ok data -> 0 <= prosp ->
  F = pre ++ record_bytes fuel pos ptr begin data ++ post ->
  enough fuel pos data -> (fuel <= fuelr)%nat ->
  exists r', read_loop true 0 (fun _ => true) fuelr r (if begin then None else Some s) prosp
             = (Some (if begin then data else s ++ data), r')
    /\ reader_at F (pos + lenZ (record_bytes fuel pos ptr begin data)) r' /\ 0 <= last_record_offset r'.
Proof.
  revert data pos r ptr begin pre s prosp fuelr.
  induction fuel as [|fuel IH]; intros data pos r ptr begin pre s prosp fuelr Hat Hpre Hok Hpr HF Hen Hfr.
  { destruct Hen. lia. }
  destruct fuelr as [|fuelr]; [lia|]. assert (Hpos : 0 <= pos) by lia.
  destruct (start_fits pos Hpos) as [Hs1 Hs2].
  cbn [record_bytes] in HF |- *. pose proof (enough_next fuel pos data Hpos Hen) as Hnext.
  set (o := start_of pos) in *. destruct (fragment_bounds o (lenZ data) Hs2 ltac:(lia)) as (Hb & Hblk & _).
  set (n := fragment_length o (lenZ data)) in *. set (frag := take (Z.to_nat n) data) in *.
  set (t := record_type begin (lenZ data =? n)) in *.
  set (rest := drop (Z.to_nat n) data) in *.
  destruct (split_lengths n data ltac:(lia)) as (Hfl & Hrl & Hdata). fold frag rest in Hfl, Hrl, Hdata.
  set (tail := if 0 <? lenZ rest then _ else []) in *.
  destruct (read_physical_at F pos r t frag ptr pre (tail ++ post)) as (r1 & E1 & Hat1 & Hl1); try done.
  { by rewrite HF, <- !app_assoc. }
  { rewrite Hfl. fold o. lia. }
  1-3: first [apply record_type_ok|by apply Forall_take].
  assert (Htot : pos + lenZ (replicate (Z.to_nat (o - pos)) 0 ++ header t frag ptr ++ frag ++ tail)
                 = o + kHeaderSize + n + lenZ tail).
  { rewrite !length_app, length_replicate, !Nat2Z.inj_add, length_header. lia. }
  rewrite Htot. cbn [read_loop]. rewrite E1. set (off := u64 _).
  assert (Hoff : 0 <= off) by (apply (uwrap_range 64); lia).
  destruct (Z.eqb_spec (lenZ data) n) as [Hend|Hend].
  - assert (Ht0 : tail = []) by (unfold tail; rewrite (proj2 (Z.ltb_ge _ _)) by lia; done).
    assert (Hfd : frag = data) by (unfold frag; rewrite take_ge by lia; done).
    rewrite Ht0, Z.add_0_r, Hfd in *. rewrite Hfl in Hat1. subst t.
    destruct begin; simpl; eexists; (split; [reflexivity|]); (split; [by apply set_last_at|done]).
  - assert (Htl : tail = record_bytes fuel (o + (kHeaderSize + n)) (ptr + n) false rest)
      by (unfold tail; rewrite (proj2 (Z.ltb_lt _ _)) by lia; done).
    set (s1 := if begin then frag else s ++ frag).
    destruct (IH rest (o + (kHeaderSize + n)) r1 (ptr + n) false
                 (pre ++ replicate (Z.to_nat (o - pos)) 0 ++ header t frag ptr ++ frag) s1
                 (if begin then off else prosp) fuelr) as (r2 & E2 & Hat2 & Hl2).
    + by replace (o + (kHeaderSize + n)) with (o + kHeaderSize + lenZ frag) by lia.
    + rewrite !length_app, length_replicate, !Nat2Z.inj_add, length_header. lia.
    + by apply Forall_drop.
    + by destruct begin.
    + rewrite HF, <- Htl, <- !app_assoc. done.
    + apply Hnext. lia.
    + lia.
    + exists r2. rewrite <- Htl in Hat2. split; [|split; [by replace (o + kHeaderSize + n + lenZ tail) with (o + (kHeaderSize + n) + lenZ tail) by lia|done]].
      subst t s1. destruct begin; simpl in E2 |- *; rewrite E2; do 2 f_equal; rewrite <- ?app_assoc; by rewrite Hdata.
Qed.

(** ** The log *)

(** Records added one after the other, each with its address: the offset of the writer
    and the file. *)
Fixpoint write_log (offset : Z) (f : list Z) (records : list (Z * list Z)) : Z * list Z :=
  match records with
  | [] => (offset, f)
  | (ptr, slice) :: records =>
      let '(offset', (ws, _)) := AddRecord (fun _ => true) offset ptr slice in
      write_log offset' (apply_writes f ws) records
  end.

(** Reading [n] records. *)
Fixpoint read_log (n : nat) (r : reader) : list (option (list Z)) * reader :=
  match n with
  | O => ([], r)
  | S n =>
      let '(x, r1) := ReadRecord true 0 (fun _ => true) r in
      let '(xs, r2) := read_log n r1 in (x :: xs, r2)
  end.

Fixpoint log_bytes (o : Z) (records : list (Z * list Z)) : list Z :=
  match records with
  | [] => []
  | (ptr, slice) :: records =>
      let bs := record_bytes (fuel_for (length slice)) o ptr true slice in
      bs ++ log_bytes (o + lenZ bs) records
  end.

Lemma write_log_bytes f records :
  write_log (lenZ f) f records = (lenZ (f ++ log_bytes (lenZ f) records), f ++ log_bytes (lenZ f) records).
Proof.
  revert f. induction records as [|[ptr slice] records IH]; intros f; cbn [write_log log_bytes].
  { by rewrite app_nil_r. }
  unfold AddRecord. destruct (add_loop_bytes (fuel_for (length slice)) f ptr true slice) as [H _].
  destruct (add_loop _ _ _ _ _ _) as [ws s]. simpl in H. rewrite H.
  rewrite (reserve_bytes _ _ ptr true) by lia. set (bs := record_bytes _ _ ptr true slice).
  rewrite <- Nat2Z.inj_add, <- length_app, IH. by rewrite <- app_assoc.
Qed.

Lemma write_log_snoc o f rs r : write_log o f (rs ++ [r]) =
  let '(o', f') := write_log o f rs in
  let '(o'', (ws, _)) := AddRecord (fun _ => true) o' r.1 r.2 in (o'', apply_writes f' ws).
Proof.
  revert o f. induction rs as [|[p x] rs IH]; intros o f; cbn [app write_log].
  - destruct r as [p x]. cbn [write_log fst snd]. by destruct (AddRecord _ o p x) as [? [? ?]].
  - destruct (AddRecord _ o p x) as [o' [ws s]]. apply IH.
Qed.

(** A record takes a header and its bytes at least. *)
Lemma record_bytes_length fuel o ptr begin data :
  0 <= o -> enough fuel o data -> lenZ data + kHeaderSize <= lenZ (record_bytes fuel o ptr begin data).
Proof.
  revert o ptr begin data. induction fuel as [|fuel IH]; intros o ptr begin data Ho Hen; [destruct Hen; lia|].
  cbn [record_bytes]. pose proof (enough_next fuel o data Ho Hen) as Hnext. destruct (start_fits o Ho) as [Hs1 Hs2].
  destruct (fragment_bounds (start_of o) (lenZ data) Hs2 ltac:(lia)) as (Hb & _).
  set (n := fragment_length (start_of o) (lenZ data)) in *.
  assert (Hd : lenZ (drop (Z.to_nat n) data) = lenZ data - n) by (rewrite length_drop; lia).
  rewrite !length_app, !Nat2Z.inj_add, length_header, length_replicate, length_take. rewrite Hd.
  destruct (Z.ltb_spec 0 (lenZ data - n)); [|lia].
  specialize (IH (start_of o + (kHeaderSize + n)) (ptr + n) false _ ltac:(unfold kHeaderSize in *; lia) (Hnext ltac:(lia))).
  unfold kHeaderSize in *. lia.
Qed.

Lemma enough_for o data : enough (fuel_for (length data)) o data.
Proof. unfold enough, fuel_for. split; [lia|right; lia]. Qed.

Lemma log_bytes_count records o : 0 <= o -> (length records <= length (log_bytes o records))%nat.
Proof.
  revert o. induction records as [|[ptr slice] records IH]; intros o Ho; [done|]. cbn [log_bytes length]. rewrite length_app.
  pose proof (record_bytes_length (fuel_for (length slice)) o ptr true slice Ho (enough_for o slice)) as Hb.
  specialize (IH (o + lenZ (record_bytes (fuel_for (length slice)) o ptr true slice)) ltac:(lia)). unfold kHeaderSize in Hb. lia.
Qed.

Lemma ReadRecord_at F pos r ptr data pre post :
  reader_at F pos r -> lenZ pre = pos -> bytes_ok data -> 0 <= last_record_offset r ->
  F = pre ++ record_bytes (fuel_for (length data)) pos ptr true data ++ post ->
  exists r', ReadRecord true 0 (fun _ => true) r = (Some data, r')
    /\ reader_at F (pos + lenZ (record_bytes (fuel_for (length data)) pos ptr true data)) r'
    /\ 0 <= last_record_offset r'.
Proof.
  intros Hat Hpre Hok Hl HF. unfold ReadRecord. rewrite (proj2 (Z.ltb_ge _ _)) by done.
  apply (read_fragments _ data F pos r ptr true pre post [] 0); try done; [apply enough_for|].
  pose proof (record_bytes_length _ pos ptr true data ltac:(lia) (enough_for pos data)) as Hlen.
  pose proof (at_buffer_length F pos r Hat) as Hb. pose proof (at_range F pos r Hat) as [Hr1 Hr2].
  assert (HlF : pos + lenZ (record_bytes (fuel_for (length data)) pos ptr true data) <= lenZ F).
  { rewrite HF, !length_app. lia. }
  rewrite (at_file F pos r Hat), length_drop. unfold fuel_for, kHeaderSize in *. lia.
Qed.

(** At the end of the file there is no record. *)
Lemma ReadRecord_end F r :
  reader_at F (lenZ F) r -> 0 <= last_record_offset r ->
  exists r', ReadRecord true 0 (fun _ => true) r = (None, r') /\ drops r' = [].
Proof.
  intros Hat Hl. unfold ReadRecord. rewrite (proj2 (Z.ltb_ge _ _)) by done.
  pose proof (at_range F _ r Hat) as [Hr1 Hr2]. pose proof (at_buffer_length F _ r Hat) as Hb.
  assert (HE : end_of_buffer_offset r = lenZ F) by lia. rewrite HE, Z.sub_diag in Hb.
  rewrite Nat.add_comm. cbn [read_loop Nat.add ReadPhysicalRecord]. rewrite Hb. simpl (0 <? kHeaderSize).
  destruct (eof r) eqn:He; cbn [negb].
  - exists r. rewrite Z.eqb_refl. split; [done|apply Hat].
  - destruct (fill_at F _ r Hat He) as (r1 & -> & _ & Hat1 & _ & Hend). specialize (Hend HE) as [He1 HE1].
    pose proof (at_buffer_length F _ r1 Hat1) as Hb1. rewrite HE1, HE, Z.sub_diag in Hb1. rewrite Hb1, He1.
    simpl. exists r1. split; [done|apply Hat1].
Qed.

Lemma read_log_at F pos r records pre :
  reader_at F pos r -> lenZ pre = pos -> 0 <= last_record_offset r ->
  Forall (fun x => bytes_ok x.2) records -> F = pre ++ log_bytes pos records ->
  exists r', read_log (length records) r = (map (fun x => Some x.2) records, r')
    /\ reader_at F (lenZ F) r' /\ 0 <= last_record_offset r'.
Proof.
  revert pos r pre. induction records as [|[ptr slice] records IH]; intros pos r pre Hat Hpre Hl Hok HF; simpl.
  { exists r. split; [done|]. split; [|done]. rewrite app_nil_r in HF. by rewrite HF, Hpre, <- HF. }
  apply Forall_cons_1 in Hok as [Hs Hok]. simpl in Hs. cbn [log_bytes] in HF.
  destruct (ReadRecord_at F pos r ptr slice pre _ Hat Hpre Hs Hl HF) as (r1 & E1 & Hat1 & Hl1). rewrite E1.
  set (bs := record_bytes _ pos ptr true slice) in *.
  destruct (IH _ r1 (pre ++ bs) Hat1) as (r2 & E2 & Hat2 & Hl2); try done.
  { rewrite length_app. lia. } { by rewrite <- app_assoc. }
  rewrite E2. by exists r2.
Qed.

(** C29: records of any length added to a log one after the other are read back in order,
    each whole, whatever the addresses they were written from; then the reader finds the
    end, and it reports no corruption.  The offset a writer reserves for a record is
    where the next one starts. *)
Theorem log_roundtrip records :
  Forall (fun x => bytes_ok x.2) records ->
  let '(offset, f) := write_log 0 [] records in
  offset = lenZ f
  /\ exists r r', read_log (length records) (reader_new f) = (map (fun x => Some x.2) records, r)
               /\ ReadRecord true 0 (fun _ => true) r = (None, r') /\ drops r' = [].
Proof.
  intros Hok. pose proof (write_log_bytes [] records) as HW.
  change (lenZ []) with 0 in HW. cbn [app] in HW. rewrite HW. split; [done|].
  destruct (read_log_at (log_bytes 0 records) 0 (reader_new (log_bytes 0 records)) records [])
    as (r & E & Hat & Hl); try done; [apply reader_new_at|].
  destruct (ReadRecord_end _ r Hat Hl) as (r' & E' & Hd). by exists r, r'.
Qed.

Lemma log_roundtrip_witness :
  let '(offset, f) := write_log 0 [] [(1, [65; 66]); (2, [])] in
  offset = lenZ f
  /\ exists r r', read_log 2 (reader_new f) = ([Some [65; 66]; Some []], r)
               /\ ReadRecord true 0 (fun _ => true) r = (None, r') /\ drops r' = [].
Proof.
  apply (log_roundtrip [(1, [65; 66]); (2, [])]).
  constructor; [|constructor; [|constructor]]; simpl; [|constructor].
  constructor; [unfold is_byte; lia|constructor; [unfold is_byte; lia|constructor]].
Defined.
