(* ===== verification/LdbMem.v ===== *)
(** * leveldb: internal keys and the memtable

    src/ext/leveldb/db/dbformat.cc and dbformat.h: a user key is stored with the sequence
    number of its write and the kind of the write, newer ones first; util/comparator.cc
    with the number of a key that decides most comparisons; db/memtable.cc: entries
    encoded into one string, in the order of their keys.  The skip list that holds them
    is the list of its nodes in order. *)

From Stdlib Require Import ZArith Lia.
From stdpp Require Import base list numbers option sorting.
From S2P Require Import Prelude ByteOrder WebappStr Session LdbCoding.
Open Scope Z_scope.
Open Scope webapp_scope.

(** ** Internal keys *)

Definition kTypeDeletion : Z := 0.
Definition kTypeValue : Z := 1.
Definition kValueTypeForSeek : Z := kTypeValue.
Definition kMaxSequenceNumber : Z := Z.shiftl 1 56 - 1.

Definition PackSequenceAndType (seq t : Z) : Z := Z.lor (u64 (Z.shiftl seq 8)) t.

Record ParsedInternalKey := mkParsed { user_key : list Z; sequence : Z; type : Z }.

Definition AppendInternalKey (result : list Z) (key : ParsedInternalKey) : list Z :=
  PutFixed64 (result ++ user_key key) (PackSequenceAndType (sequence key) (type key)).

Definition ExtractUserKey (internal_key : list Z) : list Z :=
  take (length internal_key - 8) internal_key.

(** The number at the end of an internal key. *)
Definition key_tag (internal_key : list Z) : option Z :=
  DecodeFixed64 (drop (length internal_key - 8) internal_key).

Definition ParseInternalKey (internal_key : list Z) : option ParsedInternalKey :=
  if (length internal_key <? 8)%nat then None
  else
    match key_tag internal_key with
    | None => None
    | Some num =>
        let c := Z.land num 0xff in
        if c <=? kTypeValue
        then Some (mkParsed (ExtractUserKey internal_key) (Z.shiftr num 8) c) else None
    end.

(** [InternalKeyComparator::Compare]: larger numbers first. *)
Definition InternalKey_Compare (akey bkey : list Z) : comparison :=
  match Slice_compare (ExtractUserKey akey) (ExtractUserKey bkey) with
  | Eq => match key_tag akey, key_tag bkey with
          | Some anum, Some bnum => bnum ?= anum
          | _, _ => Eq
          end
  | c => c
  end.

(** ** The number of a key *)

(** [KeyNum]: the first eight bytes, with zeroes for those that are missing. *)
Definition KeyNum (key : list Z) : Z :=
  let buf := at_ (take 8 key ++ replicate (8 - length key) 0) in
  Z.lor (Z.lor (Z.lor (Z.lor (Z.lor (Z.lor (Z.lor
    (Z.shiftl (buf 0%nat) 56) (Z.shiftl (buf 1%nat) 48)) (Z.shiftl (buf 2%nat) 40))
    (Z.shiftl (buf 3%nat) 32)) (Z.shiftl (buf 4%nat) 24)) (Z.shiftl (buf 5%nat) 16))
    (Z.shiftl (buf 6%nat) 8)) (buf 7%nat).

(** ** The memtable *)

(** The string at a pointer into the memtable: the length is not checked. *)
Definition mem_slice (data : list Z) : list Z :=
  match GetVarint32Ptr data with
  | Some (len, p) => take (Z.to_nat len) p
  | None => []
  end.
(** What follows it. *)
Definition mem_rest (data : list Z) : list Z :=
  match GetVarint32Ptr data with
  | Some (len, p) => drop (Z.to_nat len) p
  | None => []
  end.

Definition TableKey : Type := Z * list Z.

(** [MemTable::KeyComparator]. *)
Definition KeyComparator (ak bk : TableKey) : comparison :=
  match ak.1 ?= bk.1 with
  | Eq => InternalKey_Compare (mem_slice ak.2) (mem_slice bk.2)
  | c => c
  end.

(** The table: insertion, and the first entry at or after a key. *)
Fixpoint table_insert (key : TableKey) (t : list TableKey) : list TableKey :=
  match t with
  | [] => [key]
  | x :: t' => match KeyComparator x key with Lt => x :: table_insert key t' | _ => key :: t end
  end.
Fixpoint table_seek (target : TableKey) (t : list TableKey) : list TableKey :=
  match t with
  | [] => []
  | x :: t' => match KeyComparator x target with Lt => table_seek target t' | _ => t end
  end.

Definition mem_entry (s t : Z) (key value : list Z) : list Z :=
  EncodeVarint32 (u32 (lenZ key + 8)) ++ key ++ EncodeFixed64 (Z.lor (u64 (Z.shiftl s 8)) t)
  ++ EncodeVarint32 (u32 (lenZ value)) ++ value.

(** [MemTable::Add]. *)
Definition Add (mem : list TableKey) (s t : Z) (key value : list Z) : list TableKey :=
  table_insert (KeyNum key, mem_entry s t key value) mem.

(** [LookupKey::memtable_key]. *)
Definition memtable_key (key : list Z) (s : Z) : list Z :=
  EncodeVarint32 (u32 (lenZ key + 8)) ++ key ++ EncodeFixed64 (PackSequenceAndType s kValueTypeForSeek).

(** [MemTable::Get]: the memtable has nothing for the key, a value, or a deletion. *)
Inductive mem_result := Missing | Found (value : list Z) | Deleted.
Definition Get (mem : list TableKey) (key : list Z) (s : Z) : mem_result :=
  let tk := (KeyNum key, memtable_key key s) in
  match table_seek tk mem with
  | [] => Missing
  | x :: _ =>
      let ikey := mem_slice x.2 in
      match x.1 ?= tk.1, Slice_compare (ExtractUserKey ikey) key, key_tag ikey with
      | Eq, Eq, Some tag =>
          let t := Z.land tag 0xff in
          if t =? kTypeValue then Found (mem_slice (mem_rest x.2))
          else if t =? kTypeDeletion then Deleted else Missing
      | _, _, _ => Missing
      end
  end.

(** [MemTableIterator]: the key and the value of an entry. *)
Definition iter_key (x : TableKey) : list Z := mem_slice x.2.
Definition iter_value (x : TableKey) : list Z := mem_slice (mem_rest x.2).

(** ** Entries *)

(** What an entry of the memtable says. *)
Record ientry := mkEntry { e_key : list Z; e_seq : Z; e_type : Z; e_value : list Z }.

#[global] Instance ientry_eq_dec : EqDecision ientry.
Proof. solve_decision. Defined.

Record entry_ok (e : ientry) : Prop := mkEntryOk {
  ok_bytes : bytes_ok (e_key e);
  ok_key : lenZ (e_key e) + 8 < 2 ^ 32;
  ok_value : lenZ (e_value e) < 2 ^ 32;
  ok_seq : 0 <= e_seq e < 2 ^ 56;
  ok_type : e_type e = kTypeDeletion \/ e_type e = kTypeValue }.

Definition enc (e : ientry) : TableKey := (KeyNum (e_key e), mem_entry (e_seq e) (e_type e) (e_key e) (e_value e)).

(** The tag of an entry, and the order of the entries. *)
Definition e_tag (e : ientry) : Z := e_seq e * 256 + e_type e.
Definition e_compare (a b : ientry) : comparison :=
  match Slice_compare (e_key a) (e_key b) with
  | Eq => e_tag b ?= e_tag a
  | c => c
  end.

Lemma pack_tag s t : 0 <= s < 2 ^ 56 -> t = kTypeDeletion \/ t = kTypeValue ->
  Z.lor (u64 (Z.shiftl s 8)) t = s * 256 + t /\ 0 <= s * 256 + t < 2 ^ 64
  /\ Z.land (s * 256 + t) 0xff = t /\ Z.shiftr (s * 256 + t) 8 = s.
Proof.
  intros Hs Ht. assert (0 <= t < 256) as Hb by (destruct Ht as [-> | ->]; unfold kTypeDeletion, kTypeValue; lia).
  rewrite Z.shiftl_mul_pow2, uwrap_small by lia. rewrite Z.lor_comm. change (2 ^ 8) with 256.
  split_and!; [|lia|lia| |].
  - change 256 with (2 ^ 8). rewrite lor_shifted by lia. lia.
  - change 0xff with (Z.ones 8). rewrite Z.land_ones by lia. change (2 ^ 8) with 256.
    rewrite Z.add_comm, Z.mod_add by lia. apply Z.mod_small. lia.
  - rewrite Z.shiftr_div_pow2 by lia. change (2 ^ 8) with 256. rewrite Z.add_comm, Z.div_add by lia.
    rewrite Z.div_small by lia. lia.
Qed.

Lemma e_tag_range e : entry_ok e -> 0 <= e_tag e < 2 ^ 64.
Proof. intros He. apply (pack_tag (e_seq e) (e_type e)); apply He. Qed.

(** ** The number of a key agrees with the order of the keys *)

(** The number of the first [n] bytes of a key that is padded with zeroes. *)
Fixpoint pad_num (n : nat) (l : list Z) : Z :=
  match n with
  | O => 0
  | S n => match l with
           | [] => 0
           | b :: l => b * 256 ^ Z.of_nat n + pad_num n l
           end
  end.

Lemma pad_num_range n l : bytes_ok l -> 0 <= pad_num n l < 256 ^ Z.of_nat n.
Proof.
  revert l. induction n as [|n IH]; intros l Hl; [simpl; lia|].
  assert (0 < 256 ^ Z.of_nat n) by (apply Z.pow_pos_nonneg; lia).
  rewrite Nat2Z.inj_succ, Z.pow_succ_r by lia. cbn [pad_num]. destruct l as [|b l]; [lia|].
  apply Forall_cons_1 in Hl as [Hb Hl]. specialize (IH l Hl). unfold is_byte in Hb. nia.
Qed.

Lemma pad_num_compare n a b :
  bytes_ok a -> bytes_ok b -> pad_num n a < pad_num n b -> Slice_compare a b = Lt.
Proof.
  revert a b. induction n as [|n IH]; intros a b Ha Hb; [simpl; lia|].
  destruct b as [|y b]; [pose proof (pad_num_range (S n) a Ha); change (pad_num (S n) []) with 0; lia|].
  destruct a as [|x a]; [done|]. apply Forall_cons_1 in Ha as [Hx Ha], Hb as [Hy Hb].
  rewrite Slice_compare_cons. cbn [pad_num]. pose proof (pad_num_range n a Ha). pose proof (pad_num_range n b Hb).
  intros Hlt. destruct (Z.compare_spec x y); [apply IH; [done..|]; subst; lia|done|nia].
Qed.

Lemma KeyNum_combine buf : length buf = 8%nat -> bytes_ok buf ->
  _msgpack_load64 (fun x => x) buf = pad_num 8 buf.
Proof.
  intros Hl Hb. do 9 (destruct buf as [|? buf]; try done).
  rewrite _msgpack_load64_spec by (by inversion Hb). unfold be_combine. simpl. lia.
Qed.

Lemma pad_num_zeroes n l m : pad_num n (l ++ replicate m 0) = pad_num n l.
Proof.
  revert l. induction n as [|n IH]; intros l; [done|]. cbn [pad_num].
  destruct l as [|b l]; [|simpl; by rewrite IH].
  destruct m as [|m]; [done|]. simpl. specialize (IH []). simpl in IH.
  assert (forall k, pad_num n (replicate k 0) = 0) as ->; [|done].
  clear IH. induction n as [|n IH]; intros [|k]; [done..|]. simpl. by rewrite IH.
Qed.

Lemma pad_num_take n l : pad_num n (take n l) = pad_num n l.
Proof. revert l. induction n as [|n IH]; intros [|b l]; [done..|]. simpl. by rewrite IH. Qed.

Lemma KeyNum_pad key : bytes_ok key -> KeyNum key = pad_num 8 key.
Proof.
  intros Hk. rewrite <- (pad_num_take 8 key), <- (pad_num_zeroes 8 (take 8 key) (8 - length key)).
  rewrite <- KeyNum_combine; [done|rewrite length_app, length_take, length_replicate; lia|].
  apply Forall_app. split; [by apply Forall_take|]. apply Forall_replicate. unfold is_byte; lia.
Qed.

(** [KeyNum] never contradicts the comparison of the keys. *)
Lemma KeyNum_compare a b : bytes_ok a -> bytes_ok b ->
  match KeyNum a ?= KeyNum b with Eq => True | c => Slice_compare a b = c end.
Proof.
  intros Ha Hb. rewrite !KeyNum_pad by done. destruct (Z.compare_spec (pad_num 8 a) (pad_num 8 b)); [done|..].
  - by apply (pad_num_compare 8).
  - rewrite Slice_compare_antisym, (pad_num_compare 8 b a) by done. done.
Qed.

(** ** Entries are read back *)

Definition ikey (e : ientry) : list Z := e_key e ++ EncodeFixed64 (e_tag e).

Lemma ExtractUserKey_app k t : ExtractUserKey (k ++ EncodeFixed64 t) = k.
Proof.
  unfold ExtractUserKey, EncodeFixed64. rewrite length_app, length_le_bytes.
  rewrite Nat.add_sub. by apply take_app_length'.
Qed.

Lemma key_tag_app k t : 0 <= t < 2 ^ 64 -> key_tag (k ++ EncodeFixed64 t) = Some t.
Proof.
  intros Ht. unfold key_tag. rewrite length_app. unfold EncodeFixed64 at 1. rewrite length_le_bytes, Nat.add_sub.
  rewrite drop_app_length' by done. rewrite <- (app_nil_r (EncodeFixed64 t)). by apply DecodeFixed64_Encode.
Qed.

Lemma mem_slice_put l rest : lenZ l < 2 ^ 32 ->
  mem_slice (EncodeVarint32 (u32 (lenZ l)) ++ l ++ rest) = l
  /\ mem_rest (EncodeVarint32 (u32 (lenZ l)) ++ l ++ rest) = rest.
Proof.
  intros Hl. unfold mem_slice, mem_rest. change GetVarint32Ptr with GetVarint32.
  rewrite uwrap_small, GetVarint32_Encode by lia. rewrite Nat2Z.id.
  by rewrite take_app_length', drop_app_length' by done.
Qed.

Lemma length_ikey k t : lenZ (k ++ EncodeFixed64 t) = lenZ k + 8.
Proof. rewrite length_app. unfold EncodeFixed64. rewrite length_le_bytes. lia. Qed.

Lemma enc_entry e : entry_ok e ->
  iter_key (enc e) = ikey e /\ iter_value (enc e) = e_value e.
Proof.
  intros He. unfold iter_key, iter_value, enc, mem_entry. cbn [fst snd].
  destruct (pack_tag (e_seq e) (e_type e)) as (-> & _ & _ & _); [apply He..|].
  rewrite <- (length_ikey (e_key e) (e_tag e)). fold (e_tag e).
  rewrite (app_assoc (e_key e)). destruct He as [? Hk Hv ? ?].
  destruct (mem_slice_put (e_key e ++ EncodeFixed64 (e_tag e)) (EncodeVarint32 (u32 (lenZ (e_value e))) ++ e_value e))
    as [-> ->]; [by rewrite length_ikey|].
  split; [done|]. destruct (mem_slice_put (e_value e) []) as [H _]; [done|]. by rewrite app_nil_r in H.
Qed.

(** A key of the table stands for an entry, up to the value. *)
Definition stands_for (x : TableKey) (e : ientry) : Prop :=
  x.1 = KeyNum (e_key e) /\ mem_slice x.2 = ikey e /\ bytes_ok (e_key e) /\ 0 <= e_tag e < 2 ^ 64.

Lemma enc_stands e : entry_ok e -> stands_for (enc e) e.
Proof. intros He. split_and!; [done|by apply enc_entry|apply He|by apply e_tag_range..]. Qed.

Lemma KeyComparator_entries x y a b :
  stands_for x a -> stands_for y b -> KeyComparator x y = e_compare a b.
Proof.
  intros (Hx & Hsx & Hbx & Htx) (Hy & Hsy & Hby & Hty). unfold KeyComparator, e_compare.
  rewrite Hx, Hy, Hsx, Hsy. pose proof (KeyNum_compare (e_key a) (e_key b) Hbx Hby) as Hc.
  unfold InternalKey_Compare, ikey. rewrite !ExtractUserKey_app, !key_tag_app by done.
  by destruct (KeyNum _ ?= KeyNum _); [|rewrite Hc..].
Qed.

(** ** The order of the entries *)

Definition e_lt (a b : ientry) : Prop := e_compare a b = Lt.

Lemma e_compare_antisym a b : e_compare b a = CompOpp (e_compare a b).
Proof.
  unfold e_compare. rewrite (Slice_compare_antisym (e_key a) (e_key b)).
  destruct (Slice_compare _ _); simpl; [|done..]. by rewrite Z.compare_antisym.
Qed.

Lemma e_lt_trans a b c : e_lt a b -> e_lt b c -> e_lt a c.
Proof.
  unfold e_lt, e_compare. destruct (Slice_compare (e_key a) (e_key b)) eqn:E1; [|intros _|done].
  - apply Slice_compare_eq in E1 as ->. destruct (Slice_compare (e_key b) (e_key c)); [|done..].
    rewrite !Z.compare_lt_iff. lia.
  - destruct (Slice_compare (e_key b) (e_key c)) eqn:E2; [|intros _|done].
    + apply Slice_compare_eq in E2 as <-. by rewrite E1.
    + by rewrite (key_lt_trans _ _ _ E1 E2).
Qed.

Lemma e_compare_eq a b : e_compare a b = Eq <-> e_key a = e_key b /\ e_tag a = e_tag b.
Proof.
  unfold e_compare. rewrite <- Slice_compare_eq. destruct (Slice_compare _ _); [|naive_solver..].
  rewrite Z.compare_eq_iff. naive_solver.
Qed.

(** ** The table holds the entries in order *)

Fixpoint e_insert (e : ientry) (es : list ientry) : list ientry :=
  match es with
  | [] => [e]
  | x :: es' => match e_compare x e with Lt => x :: e_insert e es' | _ => e :: es end
  end.

Lemma table_insert_enc e es : entry_ok e -> Forall entry_ok es ->
  table_insert (enc e) (enc <$> es) = enc <$> e_insert e es.
Proof.
  intros He. induction 1 as [|x es Hx Hes IH]; [done|]. cbn [table_insert e_insert fmap list_fmap].
  rewrite (KeyComparator_entries _ _ x e) by (by apply enc_stands).
  destruct (e_compare x e); [done| |done]. by rewrite IH.
Qed.

Lemma e_insert_perm e es : e_insert e es ≡ₚ e :: es.
Proof.
  induction es as [|x es IH]; [done|]. simpl. destruct (e_compare x e); [done| |done].
  rewrite IH. apply Permutation_swap.
Qed.

(** The versions of one key have different sequence numbers. *)
Definition distinct (es : list ientry) : Prop := NoDup (e_seq <$> es).

Lemma e_insert_sorted e es : StronglySorted e_lt es -> (forall x, x ∈ es -> e_compare x e <> Eq) ->
  StronglySorted e_lt (e_insert e es).
Proof.
  intros Hs Hne. induction Hs as [|x es Hs IH Hx]; [by repeat constructor|]. simpl.
  destruct (e_compare x e) eqn:E.
  - destruct (Hne x); [left|done].
  - constructor; [apply IH; intros y Hy; apply Hne; by right|].
    rewrite e_insert_perm. by constructor.
  - assert (e_lt e x) as Hex by (unfold e_lt; by rewrite e_compare_antisym, E).
    constructor; [by constructor|]. constructor; [done|].
    eapply Forall_impl; [exact Hx|]. intros y Hy. by apply (e_lt_trans _ x).
Qed.

(** Entries added one after another, in any order of their sequence numbers. *)
Definition add_entry (mem : list TableKey) (e : ientry) : list TableKey :=
  Add mem (e_seq e) (e_type e) (e_key e) (e_value e).
Definition adds (es : list ientry) : list TableKey := foldl add_entry [] es.

Lemma e_tag_seq a b : entry_ok a -> entry_ok b -> e_tag a = e_tag b -> e_seq a = e_seq b.
Proof.
  intros [_ _ _ _ Ha] [_ _ _ _ Hb]. unfold e_tag. unfold kTypeDeletion, kTypeValue in *. lia.
Qed.

Lemma adds_sorted es : Forall entry_ok es -> distinct es ->
  exists l, adds es = enc <$> l /\ l ≡ₚ es /\ StronglySorted e_lt l.
Proof.
  intros Hok Hd. induction es as [|e es IH] using rev_ind; [by exists []; repeat constructor|].
  apply Forall_app in Hok as [Hok He]. apply Forall_cons_1 in He as [He _].
  unfold distinct in *. rewrite fmap_app in Hd. apply NoDup_app in Hd as (Hd & Hn & _).
  destruct IH as (l & Hl & Hp & Hs); [done..|]. exists (e_insert e l).
  unfold adds. rewrite foldl_app. simpl. fold (adds es). rewrite Hl. split_and!.
  - apply table_insert_enc; [done|]. by rewrite Hp.
  - by rewrite e_insert_perm, Hp, (Permutation_app_comm es [e]).
  - apply e_insert_sorted; [done|]. intros x Hx Hc. apply e_compare_eq in Hc as [_ Ht].
    rewrite Hp in Hx. apply (Hn (e_seq x)); [by apply list_elem_of_fmap_2|]. simpl.
    rewrite (e_tag_seq x e) by (done || by apply (Forall_elem _ _ _ Hok)). left.
Qed.

(** ** Lookups *)

Fixpoint e_seek (t : ientry) (es : list ientry) : list ientry :=
  match es with
  | [] => []
  | x :: es' => match e_compare x t with Lt => e_seek t es' | _ => es end
  end.

Lemma table_seek_enc x t es : stands_for x t -> Forall entry_ok es ->
  table_seek x (enc <$> es) = enc <$> e_seek t es.
Proof.
  intros Hx. induction 1 as [|y es Hy Hes IH]; [done|]. cbn [table_seek e_seek fmap list_fmap].
  rewrite (KeyComparator_entries _ _ y t) by (done || by apply enc_stands).
  by destruct (e_compare y t).
Qed.

Lemma elem_of_e_seek t es e : StronglySorted e_lt es ->
  e ∈ e_seek t es <-> e ∈ es /\ e_compare e t <> Lt.
Proof.
  induction 1 as [|x es Hs IH Hx]; [split; [by intros ?%elem_of_nil|by intros [?%elem_of_nil _]]|]. simpl.
  assert (e_compare x t <> Lt -> e ∈ es -> e_compare e t <> Lt) as Hge.
  { intros Hc He Hlt. apply Hc, (e_lt_trans _ e); [by apply (Forall_elem _ _ _ Hx)|done]. }
  destruct (e_compare x t) eqn:E; [|rewrite IH; clear IH Hge|].
  all: rewrite elem_of_cons; naive_solver congruence.
Qed.

Lemma e_seek_head t es h rest : StronglySorted e_lt es -> e_seek t es = h :: rest ->
  forall e, e ∈ es -> e_compare e t <> Lt -> e = h \/ e_lt h e.
Proof.
  intros Hs Hh e He Hc. assert (StronglySorted e_lt (e_seek t es)) as Hss.
  { clear -Hs. induction Hs as [|x es Hs IH Hx]; [constructor|]. simpl.
    destruct (e_compare x t); [by constructor|done|by constructor]. }
  assert (e ∈ e_seek t es) as Hin by (by apply elem_of_e_seek). rewrite Hh in Hin, Hss.
  apply elem_of_cons in Hin as [->|Hin]; [by left|]. right. inversion Hss as [|? ? ? Hf]; subst.
  by apply (Forall_elem _ _ _ Hf).
Qed.

(** What a lookup of [key] at sequence number [s] looks for. *)
Definition target (key : list Z) (s : Z) : ientry := mkEntry key s kValueTypeForSeek [].

Lemma target_stands key s : bytes_ok key -> lenZ key + 8 < 2 ^ 32 -> 0 <= s < 2 ^ 56 ->
  stands_for (KeyNum key, memtable_key key s) (target key s).
Proof.
  intros Hb Hl Hs. destruct (pack_tag s kTypeValue) as (Hp & Hr & _); [done|by right|].
  split_and!; [done| |done|apply Hr..]. unfold memtable_key, PackSequenceAndType, kValueTypeForSeek. cbn [snd].
  rewrite Hp. unfold ikey, e_tag, target. cbn [e_key e_seq e_type].
  rewrite <- (length_ikey key (s * 256 + kTypeValue)).
  destruct (mem_slice_put (key ++ EncodeFixed64 (s * 256 + kTypeValue)) []) as [H _]; [by rewrite length_ikey|].
  by rewrite app_nil_r in H.
Qed.

(** An entry is not before the target when it belongs to a later key, or to the key and
    is visible at [s]. *)
Lemma target_compare e key s : entry_ok e -> e_key e = key ->
  e_compare e (target key s) <> Lt <-> e_seq e <= s.
Proof.
  intros [_ _ _ _ Ht] <-. unfold e_compare. cbn [e_key target].
  rewrite (proj2 (Slice_compare_eq _ _) eq_refl). rewrite Z.compare_lt_iff.
  unfold e_tag, target. cbn [e_seq e_type].
  unfold kValueTypeForSeek, kTypeDeletion, kTypeValue in *. lia.
Qed.

(** The outcome of a lookup that finds [e]. *)
Definition outcome (e : ientry) : mem_result :=
  if e_type e =? kTypeValue then Found (e_value e) else Deleted.

Lemma Get_head l key s : Forall entry_ok l -> bytes_ok key -> lenZ key + 8 < 2 ^ 32 -> 0 <= s < 2 ^ 56 ->
  Get (enc <$> l) key s =
  match e_seek (target key s) l with
  | [] => Missing
  | e :: _ => if decide (e_key e = key) then outcome e else Missing
  end.
Proof.
  intros Hl Hk Hlen Hs. unfold Get. rewrite (table_seek_enc _ (target key s)) by (done || by apply target_stands).
  destruct (e_seek (target key s) l) as [|e rest] eqn:E; [done|]. cbn [fmap list_fmap].
  assert (entry_ok e) as He.
  { assert (forall es, Forall entry_ok es -> Forall entry_ok (e_seek (target key s) es)) as Hf.
    { induction 1 as [|x es ? ? IH]; [constructor|]. simpl. destruct (e_compare _ _); [by constructor|done|by constructor]. }
    specialize (Hf l Hl). rewrite E in Hf. by apply Forall_cons_1 in Hf as [? _]. }
  destruct (enc_entry e He) as [Hik Hv]. unfold iter_key, iter_value in *. rewrite Hik, Hv.
  unfold ikey. rewrite ExtractUserKey_app, key_tag_app by (by apply e_tag_range).
  cbn [fst enc]. case_decide as Hd.
  - rewrite Hd, Z.compare_refl, (proj2 (Slice_compare_eq _ _) eq_refl). unfold e_tag.
    destruct (pack_tag (e_seq e) (e_type e)) as (_ & _ & -> & _); [apply He..|].
    unfold outcome. destruct (ok_type e He) as [-> | ->]; done.
  - destruct (_ ?= _); [|done..]. destruct (Slice_compare _ _) eqn:Ec; [|done..].
    by apply Slice_compare_eq in Ec.
Qed.

(** [e] is the newest version of [key] among [es] that is visible at [s]. *)
Definition newest (es : list ientry) (key : list Z) (s : Z) (e : ientry) : Prop :=
  e ∈ es /\ e_key e = key /\ e_seq e <= s
  /\ (forall e', e' ∈ es -> e_key e' = key -> e_seq e' <= s -> e_seq e' <= e_seq e).

Lemma distinct_eq es a b : distinct es -> a ∈ es -> b ∈ es -> e_seq a = e_seq b -> a = b.
Proof.
  unfold distinct. intros Hd [i Ha]%list_elem_of_lookup [j Hb]%list_elem_of_lookup E.
  assert (i = j) as ->; [|congruence].
  apply (NoDup_lookup (e_seq <$> es) i j (e_seq a)); [done|rewrite list_lookup_fmap..]; [by rewrite Ha|by rewrite Hb, E].
Qed.

Lemma newest_unique es key s a b : distinct es -> newest es key s a -> newest es key s b -> a = b.
Proof.
  intros Hd (Ha & Hka & Hsa & Hma) (Hb & Hkb & Hsb & Hmb). apply (distinct_eq es); [done..|].
  specialize (Hma b Hb Hkb Hsb). specialize (Hmb a Ha Hka Hsa). lia.
Qed.

Lemma seek_newest l key s : Forall entry_ok l -> StronglySorted e_lt l ->
  (exists e rest, e_seek (target key s) l = e :: rest /\ e_key e = key /\ newest l key s e)
  \/ ((forall x, x ∈ l -> e_key x = key -> s < e_seq x)
      /\ forall e rest, e_seek (target key s) l = e :: rest -> e_key e <> key).
Proof.
  intros Hok Hs. pose proof (fun e => elem_of_e_seek (target key s) l e Hs) as Hin.
  pose proof (fun h rest => e_seek_head (target key s) l h rest Hs) as Hhead.
  destruct (e_seek (target key s) l) as [|h rest].
  { right. split; [|done]. intros x Hx Hk. destruct (Z.lt_ge_cases s (e_seq x)) as [|Hle]; [done|].
    destruct (proj1 (elem_of_nil x)). apply Hin. split; [done|].
    apply target_compare; [by apply (Forall_elem _ _ _ Hok)|done..]. }
  destruct (proj1 (Hin h)) as [Hh Hc]; [left|]. specialize (Hhead h rest eq_refl).
  destruct (decide (e_key h = key)) as [Hk|Hk]; [left|right].
  - exists h, rest. split; [done|]. split; [done|]. split; [done|]. split; [done|].
    split; [by apply target_compare in Hc; [|apply (Forall_elem _ _ _ Hok)|]|].
    intros x Hx Hkx Hsx. destruct (Hhead x Hx) as [->|Hlt]; [|lia|].
    { apply target_compare; [by apply (Forall_elem _ _ _ Hok)|done..]. }
    unfold e_lt, e_compare in Hlt. rewrite Hk, Hkx, (proj2 (Slice_compare_eq key key) eq_refl), Z.compare_lt_iff in Hlt.
    pose proof (ok_type x (Forall_elem _ _ _ Hok Hx)). pose proof (ok_type h (Forall_elem _ _ _ Hok Hh)).
    unfold e_tag, kTypeDeletion, kTypeValue in *. lia.
  - split; [|naive_solver]. intros x Hx Hkx. destruct (Z.lt_ge_cases s (e_seq x)) as [|Hle]; [done|].
    destruct Hk. destruct (Hhead x Hx) as [->|Hlt]; [|done|].
    { apply target_compare; [by apply (Forall_elem _ _ _ Hok)|done..]. }
    unfold e_lt, e_compare in Hlt, Hc. rewrite Hkx in Hlt. cbn [e_key target] in Hc.
    by destruct (Slice_compare (e_key h) key) eqn:E; [apply Slice_compare_eq|..].
Qed.

Lemma newest_perm es l key s e : l ≡ₚ es -> newest l key s e -> newest es key s e.
Proof. intros Hp (H1 & H2 & H3 & H4). split_and!; [by rewrite <- Hp|done..|]. intros e'. rewrite <- Hp. apply H4. Qed.

(** A lookup in the memtable, in terms of the entries that were added. *)
Lemma Get_adds es key s :
  Forall entry_ok es -> distinct es -> bytes_ok key -> lenZ key + 8 < 2 ^ 32 -> 0 <= s < 2 ^ 56 ->
  (exists e, newest es key s e /\ Get (adds es) key s = outcome e)
  \/ ((forall x, x ∈ es -> e_key x = key -> s < e_seq x) /\ Get (adds es) key s = Missing).
Proof.
  intros Hok Hd Hk Hlen Hs. destruct (adds_sorted es Hok Hd) as (l & -> & Hp & Hss).
  assert (Forall entry_ok l) as Hokl by (by rewrite Hp). rewrite Get_head by done.
  destruct (seek_newest l key s Hokl Hss) as [(e & rest & -> & He & Hn)|[Hn Hh]].
  - left. exists e. rewrite decide_True by done. split; [|done]. by apply (newest_perm _ l).
  - right. split; [intros x; rewrite <- Hp; apply Hn|].
    destruct (e_seek (target key s) l); [done|]. by rewrite decide_False by naive_solver.
Qed.

(** A lookup in the memtable answers with the newest version of the key that is visible
    at the sequence number: its value when that version is a value, that the key is
    deleted when it is a deletion; and it has no answer just when no version is visible.
    The entries may have been added in any order of their sequence numbers, as concurrent
    writers do.  (The number of the key, which decides most comparisons in the table,
    therefore never contradicts the comparison of the keys.) *)
Theorem memtable_lookup es key s :
  Forall entry_ok es -> distinct es -> bytes_ok key -> lenZ key + 8 < 2 ^ 32 -> 0 <= s < 2 ^ 56 ->
  (forall v, Get (adds es) key s = Found v
     <-> exists e, newest es key s e /\ e_type e = kTypeValue /\ e_value e = v)
  /\ (Get (adds es) key s = Deleted <-> exists e, newest es key s e /\ e_type e = kTypeDeletion)
  /\ (Get (adds es) key s = Missing <-> forall x, x ∈ es -> e_key x = key -> s < e_seq x).
Proof.
  intros Hok Hd Hk Hlen Hs. destruct (Get_adds es key s) as [(e & Hn & ->)|[Hn ->]]; [done..| |].
  - pose proof (fun e' => newest_unique es key s e e' Hd Hn) as Hu. unfold outcome.
    assert (Hne : ~ forall x, x ∈ es -> e_key x = key -> s < e_seq x).
    { intros H. destruct Hn as (H1 & H2 & H3 & _). specialize (H e H1 H2). lia. }
    assert (ok_t : e_type e = kTypeDeletion \/ e_type e = kTypeValue).
    { apply ok_type, (Forall_elem _ _ _ Hok), Hn. }
    assert (kTypeDeletion <> kTypeValue) by done.
    destruct ok_t as [E|E]; rewrite E; simpl; split_and!; try intros v; split; intros H'; try done.
    all: try (destruct H' as (e' & Hn' & H'); rewrite <- (Hu e' Hn') in H'; naive_solver congruence).
    all: exists e; naive_solver.
  - split_and!; try intros v; split; try done.
    + intros (e & (He & Hke & Hse & _) & _). specialize (Hn e He Hke). lia.
    + intros (e & (He & Hke & Hse & _) & _). specialize (Hn e He Hke). lia.
Qed.

Definition sample_entries : list ientry :=
  [mkEntry [97; 98] 2 kTypeValue [50]; mkEntry [97] 1 kTypeValue [49]; mkEntry [97; 98] 3 kTypeDeletion []].

Lemma memtable_lookup_witness :
  Get (adds sample_entries) [97; 98] 2 = Found [50] /\ Get (adds sample_entries) [97; 98] 3 = Deleted
  /\ (Get (adds sample_entries) [97] 0 = Missing
      <-> forall x, x ∈ sample_entries -> e_key x = [97] -> 0 < e_seq x).
Proof.
  split; [vm_compute; reflexivity|]. split; [vm_compute; reflexivity|].
  assert (Forall entry_ok sample_entries) as Hok.
  { repeat constructor; try (vm_compute; congruence); (by left) || (by right). }
  assert (bytes_ok [97]) by (repeat constructor; vm_compute; congruence).
  apply (memtable_lookup sample_entries [97] 0); [done| |done|vm_compute; congruence|vm_compute; split; congruence].
  unfold distinct. apply (bool_decide_unpack (NoDup (e_seq <$> sample_entries))). vm_compute. exact I.
Defined.
