(* ===== verification/LdbBatch.v ===== *)
(** * leveldb: batches of writes

    src/ext/leveldb/db/write_batch.cc: a batch is one string, with the sequence number of
    its first write and the number of its writes in front; it goes to the log as it is
    and [Iterate] hands its writes to the memtable. *)

From Stdlib Require Import ZArith Lia.
From stdpp Require Import base list numbers option.
From S2P Require Import Prelude ByteOrder WebappStr Session LdbCoding LdbMem.
Open Scope Z_scope.
Open Scope webapp_scope.

Definition kHeader : Z := 12.

(** [WriteBatch::Clear]. *)
Definition Clear : list Z := replicate (Z.to_nat kHeader) 0.

(** The header; [None]: it is not there. *)
Definition Count (rep : list Z) : option Z := let* n := DecodeFixed32 (drop 8 rep) in Some (i32 n).
Definition SetCount (rep : list Z) (n : Z) : list Z := take 8 rep ++ EncodeFixed32 (u32 n) ++ drop 12 rep.
Definition Sequence (rep : list Z) : option Z := DecodeFixed64 rep.
Definition SetSequence (rep : list Z) (seq : Z) : list Z := EncodeFixed64 seq ++ drop 8 rep.

(** One more write: [Count] is computed with [int]s. *)
Definition bump (rep : list Z) : list Z :=
  match Count rep with Some n => SetCount rep (n + 1) | None => rep end.

Definition Put (rep key value : list Z) : list Z :=
  let rep := bump rep ++ [kTypeValue] in
  PutLengthPrefixedSlice (PutLengthPrefixedSlice rep key) value.
Definition Delete (rep key : list Z) : list Z :=
  let rep := bump rep ++ [kTypeDeletion] in
  PutLengthPrefixedSlice rep key.

(** [Append]. *)
Definition Append (dst src : list Z) : list Z :=
  match Count dst, Count src with
  | Some n, Some m => SetCount dst (n + m) ++ drop (Z.to_nat kHeader) src
  | _, _ => dst
  end.

Inductive Status := OK | TooSmall | BadPut | BadDelete | UnknownTag | WrongCount.

#[global] Instance Status_eq_dec : EqDecision Status.
Proof. solve_decision. Defined.

(** ** Iteration *)

Section Handler.
Context {S : Type} (h_put : S -> list Z -> list Z -> S) (h_delete : S -> list Z -> S).

(** The loop of [Iterate] with the number of writes found; a round takes a byte. *)
Fixpoint iterate_loop (fuel : nat) (input : list Z) (found : Z) (s : S) : (Status + Z) * S :=
  match fuel with
  | O => (inl UnknownTag, s)
  | Datatypes.S fuel =>
      match input with
      | [] => (inr found, s)
      | tag :: input =>
          if tag =? kTypeValue then
            match GetLengthPrefixedSlice input with
            | Some (key, input) =>
                match GetLengthPrefixedSlice input with
                | Some (value, input) => iterate_loop fuel input (found + 1) (h_put s key value)
                | None => (inl BadPut, s)
                end
            | None => (inl BadPut, s)
            end
          else if tag =? kTypeDeletion then
            match GetLengthPrefixedSlice input with
            | Some (key, input) => iterate_loop fuel input (found + 1) (h_delete s key)
            | None => (inl BadDelete, s)
            end
          else (inl UnknownTag, s)
      end
  end.

Definition Iterate (rep : list Z) (s : S) : Status * S :=
  if lenZ rep <? kHeader then (TooSmall, s)
  else
    let input := drop (Z.to_nat kHeader) rep in
    match iterate_loop (Datatypes.S (length input)) input 0 s with
    | (inl e, s) => (e, s)
    | (inr found, s) => (if bool_decide (Count rep = Some found) then OK else WrongCount, s)
    end.

End Handler.

(** ** Into the memtable *)

(** [MemTableInserter]: the next sequence number and the memtable. *)
Definition inserter_put (s : Z * list TableKey) (key value : list Z) : Z * list TableKey :=
  (u64 (s.1 + 1), Add s.2 s.1 kTypeValue key value).
Definition inserter_delete (s : Z * list TableKey) (key : list Z) : Z * list TableKey :=
  (u64 (s.1 + 1), Add s.2 s.1 kTypeDeletion key []).

Definition InsertInto (rep : list Z) (mem : list TableKey) : Status * list TableKey :=
  match Sequence rep with
  | Some seq => let '(st, s) := Iterate inserter_put inserter_delete rep (seq, mem) in (st, s.2)
  | None => (TooSmall, mem)
  end.

(** ** What a batch holds *)

Inductive op := OpPut (key value : list Z) | OpDelete (key : list Z).

Definition op_ok (o : op) : Prop :=
  match o with
  | OpPut key value => lenZ key < 2 ^ 32 /\ lenZ value < 2 ^ 32
  | OpDelete key => lenZ key < 2 ^ 32
  end.

Definition add_op (rep : list Z) (o : op) : list Z :=
  match o with OpPut key value => Put rep key value | OpDelete key => Delete rep key end.
Definition batch (ops : list op) : list Z := foldl add_op Clear ops.

Definition op_bytes (o : op) : list Z :=
  match o with
  | OpPut key value => kTypeValue :: PutLengthPrefixedSlice [] key ++ PutLengthPrefixedSlice [] value
  | OpDelete key => kTypeDeletion :: PutLengthPrefixedSlice [] key
  end.
Definition body (ops : list op) : list Z := mjoin (op_bytes <$> ops).
Definition rep_of (seq n : Z) (ops : list op) : list Z := EncodeFixed64 seq ++ EncodeFixed32 n ++ body ops.

Lemma batch_header_length seq n rest : length (EncodeFixed64 seq) = 8%nat /\ length (EncodeFixed32 n) = 4%nat
  /\ length (EncodeFixed64 seq ++ EncodeFixed32 n ++ rest) = (12 + length rest)%nat.
Proof. unfold EncodeFixed64, EncodeFixed32. rewrite !length_app, !length_le_bytes. lia. Qed.

Lemma drop_header seq n rest :
  drop 8 (EncodeFixed64 seq ++ EncodeFixed32 n ++ rest) = EncodeFixed32 n ++ rest
  /\ drop 12 (EncodeFixed64 seq ++ EncodeFixed32 n ++ rest) = rest
  /\ take 8 (EncodeFixed64 seq ++ EncodeFixed32 n ++ rest) = EncodeFixed64 seq.
Proof.
  destruct (batch_header_length seq n rest) as (H8 & H4 & _). split_and!.
  - by apply drop_app_length'.
  - rewrite app_assoc. apply drop_app_length'. by rewrite length_app, H8, H4.
  - by apply take_app_length'.
Qed.

Lemma Count_header seq n rest : 0 <= n < 2 ^ 31 ->
  Count (EncodeFixed64 seq ++ EncodeFixed32 n ++ rest) = Some n.
Proof.
  intros Hn. unfold Count. destruct (drop_header seq n rest) as (-> & _ & _).
  rewrite DecodeFixed32_Encode by lia. simpl. by rewrite swrap_small by (simpl; lia).
Qed.

Lemma SetCount_header seq n m rest : 0 <= m < 2 ^ 32 ->
  SetCount (EncodeFixed64 seq ++ EncodeFixed32 n ++ rest) m = EncodeFixed64 seq ++ EncodeFixed32 m ++ rest.
Proof.
  intros Hm. unfold SetCount. destruct (drop_header seq n rest) as (_ & -> & ->). by rewrite uwrap_small.
Qed.

Lemma Sequence_header seq n rest : 0 <= seq < 2 ^ 64 ->
  Sequence (EncodeFixed64 seq ++ EncodeFixed32 n ++ rest) = Some seq.
Proof. intros Hs. by apply DecodeFixed64_Encode. Qed.

Lemma SetSequence_rep seq seq' n ops : SetSequence (rep_of seq n ops) seq' = rep_of seq' n ops.
Proof. unfold SetSequence, rep_of. by destruct (drop_header seq n (body ops)) as (-> & _ & _). Qed.

Lemma PutLengthPrefixedSlice_app dst v : PutLengthPrefixedSlice dst v = dst ++ PutLengthPrefixedSlice [] v.
Proof. unfold PutLengthPrefixedSlice, PutVarint32. by rewrite <- !app_assoc. Qed.

Lemma add_op_rep seq ops o : lenZ ops + 1 < 2 ^ 31 ->
  add_op (rep_of seq (lenZ ops) ops) o = rep_of seq (lenZ (ops ++ [o])) (ops ++ [o]).
Proof.
  intros Hl. assert (bump (rep_of seq (lenZ ops) ops) = rep_of seq (lenZ ops + 1) ops) as Hb.
  { unfold bump, rep_of. rewrite Count_header by lia. by rewrite SetCount_header by lia. }
  assert (body (ops ++ [o]) = body ops ++ op_bytes o) as Hbody.
  { unfold body. rewrite fmap_app, join_app. simpl. by rewrite app_nil_r. }
  rewrite length_app. simpl length. rewrite Nat2Z.inj_add. change (Z.of_nat 1) with 1.
  unfold rep_of at 2. rewrite Hbody. destruct o as [key value|key]; cbn [add_op op_bytes]; unfold Put, Delete; rewrite Hb.
  - rewrite PutLengthPrefixedSlice_app, (PutLengthPrefixedSlice_app (_ ++ [_]) key). unfold rep_of.
    by rewrite <- !app_assoc.
  - rewrite PutLengthPrefixedSlice_app. unfold rep_of. by rewrite <- !app_assoc.
Qed.

Lemma batch_rep ops : lenZ ops < 2 ^ 31 -> batch ops = rep_of 0 (lenZ ops) ops.
Proof.
  unfold batch. induction ops as [|o ops IH] using rev_ind; [done|]. intros Hl.
  rewrite foldl_app. rewrite length_app in Hl. simpl in Hl. rewrite IH by lia. by apply add_op_rep; lia.
Qed.

Section Iterate.
Context {S : Type} (h_put : S -> list Z -> list Z -> S) (h_delete : S -> list Z -> S).

(** The handler called with one write. *)
Definition h_op (s : S) (o : op) : S :=
  match o with OpPut key value => h_put s key value | OpDelete key => h_delete s key end.

Lemma iterate_loop_body ops fuel found s : Forall op_ok ops -> (length ops < fuel)%nat ->
  iterate_loop h_put h_delete fuel (body ops) found s = (inr (found + lenZ ops), foldl h_op s ops).
Proof.
  intros Hok. revert fuel found s. induction Hok as [|o ops Ho Hok IH]; intros [|fuel] found s Hf; simpl in Hf; try lia.
  { simpl. do 2 f_equal. lia. }
  assert (body (o :: ops) = op_bytes o ++ body ops) as -> by done.
  destruct o as [key value|key]; cbn [op_bytes]; rewrite <- app_comm_cons; cbn [iterate_loop].
  - destruct Ho as [Hk Hv]. rewrite <- app_assoc. rewrite GetLengthPrefixedSlice_Put, GetLengthPrefixedSlice_Put by done.
    change (kTypeValue =? kTypeValue) with true. cbv iota. rewrite IH by lia. f_equal. f_equal.
    simpl length. lia.
  - rewrite GetLengthPrefixedSlice_Put by done. change (kTypeDeletion =? kTypeValue) with false.
    change (kTypeDeletion =? kTypeDeletion) with true. cbv iota. rewrite IH by lia. f_equal. f_equal.
    simpl length. lia.
Qed.

Lemma length_body ops : (length ops <= length (body ops))%nat.
Proof.
  induction ops as [|o ops IH]; [done|]. assert (body (o :: ops) = op_bytes o ++ body ops) as -> by done.
  rewrite length_app. destruct o; cbn [op_bytes length]; lia.
Qed.

Lemma Iterate_rep seq ops s : Forall op_ok ops -> lenZ ops < 2 ^ 31 ->
  Iterate h_put h_delete (rep_of seq (lenZ ops) ops) s = (OK, foldl h_op s ops).
Proof.
  intros Hok Hl. unfold Iterate, rep_of. rewrite Count_header by lia.
  destruct (batch_header_length seq (lenZ ops) (body ops)) as (_ & _ & ->).
  rewrite (proj2 (Z.ltb_ge _ _)) by (unfold kHeader; lia). change (Z.to_nat kHeader) with 12%nat.
  destruct (drop_header seq (lenZ ops) (body ops)) as (_ & -> & _).
  rewrite iterate_loop_body by (done || (pose proof (length_body ops); lia)).
  by rewrite bool_decide_true.
Qed.

(** More fuel than the bytes of the input changes nothing: the loop has ended. *)
Lemma iterate_loop_fuel fuel fuel' input found s :
  (length input < fuel)%nat -> (length input < fuel')%nat ->
  iterate_loop h_put h_delete fuel input found s = iterate_loop h_put h_delete fuel' input found s.
Proof.
  assert (Hshort : forall i x r, GetLengthPrefixedSlice i = Some (x, r) -> (length r <= length i)%nat).
  { intros i x r. unfold GetLengthPrefixedSlice.
    destruct (GetVarint32 i) as [[len i']|] eqn:E; [|done]. case_match; [|done]. intros [= <- <-].
    rewrite length_drop. enough (length i' <= length i)%nat by lia. revert E.
    assert (Hv : forall p sh res v q, varint_decode 32 p sh res = Some (v, q) -> (length q <= length p)%nat).
    { induction p as [|b p IH]; intros sh res v q; [done|]. cbn [varint_decode].
      repeat case_match; try done; [by intros [= _ <-]; simpl; lia|]. intros Hd%IH. simpl. lia. }
    unfold GetVarint32, GetVarint32Ptr. destruct i as [|b i]; [by apply Hv|].
    case_match; [intros [= _ <-]; simpl; lia|apply Hv]. }
  revert fuel' input found s. induction fuel as [|fuel IH]; intros [|fuel'] input found s H1 H2; try lia.
  destruct input as [|tag input]; [done|]. simpl in H1, H2. cbn [iterate_loop].
  case_match; [|case_match; [|done]].
  - destruct (GetLengthPrefixedSlice input) as [[key i1]|] eqn:E1; [|done].
    destruct (GetLengthPrefixedSlice i1) as [[value i2]|] eqn:E2; [|done].
    apply Hshort in E1, E2. apply IH; lia.
  - destruct (GetLengthPrefixedSlice input) as [[key i1]|] eqn:E1; [|done].
    apply Hshort in E1. apply IH; lia.
Qed.

End Iterate.

(** ** The memtable after a batch *)

Definition op_entry (seq : Z) (o : op) : ientry :=
  match o with
  | OpPut key value => mkEntry key seq kTypeValue value
  | OpDelete key => mkEntry key seq kTypeDeletion []
  end.
(** The entries of the writes of a batch whose first sequence number is [seq]. *)
Fixpoint op_entries (seq : Z) (ops : list op) : list ientry :=
  match ops with
  | [] => []
  | o :: ops => op_entry seq o :: op_entries (seq + 1) ops
  end.

Lemma op_entries_app seq a b : op_entries seq (a ++ b) = op_entries seq a ++ op_entries (seq + lenZ a) b.
Proof.
  revert seq. induction a as [|o a IH]; intros seq; [simpl; by rewrite Z.add_0_r|].
  cbn [app op_entries length]. rewrite IH. by replace (seq + 1 + lenZ a) with (seq + Z.of_nat (Datatypes.S (length a))) by lia.
Qed.

Lemma inserter_entries ops seq mem : 0 <= seq -> seq + lenZ ops < 2 ^ 64 ->
  foldl (h_op inserter_put inserter_delete) (seq, mem) ops
  = (seq + lenZ ops, foldl add_entry mem (op_entries seq ops)).
Proof.
  revert seq mem. induction ops as [|o ops IH]; intros seq mem H1 H2; [simpl; f_equal; lia|].
  simpl length in *. cbn [foldl op_entries].
  assert (h_op inserter_put inserter_delete (seq, mem) o = (seq + 1, add_entry mem (op_entry seq o))) as ->.
  { destruct o; cbn [h_op]; unfold inserter_put, inserter_delete; cbn [fst snd];
      rewrite uwrap_small by lia; done. }
  rewrite IH by lia. f_equal. lia.
Qed.

Lemma InsertInto_rep seq ops mem :
  Forall op_ok ops -> lenZ ops < 2 ^ 31 -> 0 <= seq -> seq + lenZ ops < 2 ^ 64 ->
  InsertInto (rep_of seq (lenZ ops) ops) mem = (OK, foldl add_entry mem (op_entries seq ops)).
Proof.
  intros Hok Hl H1 H2. unfold InsertInto. unfold rep_of at 1. rewrite Sequence_header by lia.
  rewrite Iterate_rep by done. by rewrite inserter_entries.
Qed.

(** What was put into a batch comes out of it: for writes of any contents, iterating
    over the batch that they built calls the handler once for each of them, in order,
    and reports success; joining two batches gives the batch of all their writes; and
    inserting the batch with its sequence number set adds the writes to the memtable
    under consecutive sequence numbers. *)
Theorem batch_roundtrip {S} (h_put : S -> list Z -> list Z -> S) (h_delete : S -> list Z -> S) s ops ops' seq mem :
  Forall op_ok ops -> Forall op_ok ops' -> lenZ ops + lenZ ops' < 2 ^ 31 -> 0 <= seq < 2 ^ 56 ->
  Iterate h_put h_delete (batch ops) s = (OK, foldl (h_op h_put h_delete) s ops)
  /\ Append (batch ops) (batch ops') = batch (ops ++ ops')
  /\ InsertInto (SetSequence (batch ops) seq) mem = (OK, foldl add_entry mem (op_entries seq ops)).
Proof.
  intros Hok Hok' Hl Hs. rewrite !batch_rep by (rewrite ?length_app; lia). split_and!.
  - apply Iterate_rep; [done|lia].
  - unfold Append, rep_of. rewrite !Count_header, SetCount_header by lia.
    change (Z.to_nat kHeader) with 12%nat. destruct (drop_header 0 (lenZ ops') (body ops')) as (_ & -> & _).
    rewrite <- !app_assoc, length_app, Nat2Z.inj_add. do 2 f_equal.
    unfold body. by rewrite fmap_app, join_app.
  - rewrite SetSequence_rep. apply InsertInto_rep; [done|lia..].
Qed.

Lemma batch_roundtrip_witness :
  Iterate inserter_put inserter_delete (batch [OpPut [97] [49]; OpDelete [98]]) (5, [])
  = (OK, (7, adds [mkEntry [97] 5 kTypeValue [49]; mkEntry [98] 6 kTypeDeletion []])).
Proof.
  destruct (batch_roundtrip inserter_put inserter_delete (5, []) [OpPut [97] [49]; OpDelete [98]] [] 5 []) as (-> & _).
  - repeat constructor.
  - constructor.
  - reflexivity.
  - split; vm_compute; congruence.
  - vm_compute. reflexivity.
Defined.
