(* ===== verification/LdbIter.v ===== *)
(** * leveldb: iterators

    The interface [Iterator] of src/ext/leveldb (include/hyperleveldb/iterator.h) as a
    class with its laws; the iterator over a sorted run of entries, which is what a
    memtable's iterator is (db/memtable.cc, db/skiplist.h); and the iterator that merges
    several others (table/merger.cc), for any children that obey the interface. *)

From Stdlib Require Import ZArith Lia.
From stdpp Require Import base list numbers option sorting.
From S2P Require Import Prelude ByteOrder WebappStr Session LdbCoding LdbMem.
Open Scope Z_scope.
Open Scope webapp_scope.

(** ** The interface *)

(** A comparator, and the keys on which it is a total order. *)
Class KeyOrder := {
  cmp : list Z -> list Z -> comparison;
  dom : list Z -> Prop;
  cmp_eq : forall a b, dom a -> dom b -> cmp a b = Eq <-> a = b;
  cmp_antisym : forall a b, dom a -> dom b -> cmp b a = CompOpp (cmp a b);
  cmp_trans : forall a b c, dom a -> dom b -> dom c -> cmp a b = Lt -> cmp b c = Lt -> cmp a c = Lt }.

(** The best entry, in the order [lt], of those of [l] that satisfy [P]; [None]: there
    is none. *)
Definition best {E} (lt : E -> E -> Prop) (P : E -> Prop) (l : list E) (o : option E) : Prop :=
  match o with
  | None => forall e, e ∈ l -> ~ P e
  | Some e => e ∈ l /\ P e /\ forall e', e' ∈ l -> P e' -> e' = e \/ lt e e'
  end.

Section Interface.
Context `{!KeyOrder}.

Definition klt (a b : entry) : Prop := cmp a.1 b.1 = Lt.
Definition kgt (a b : entry) : Prop := cmp a.1 b.1 = Gt.
Definition keys_ok (l : list entry) : Prop := NoDup l.*1 /\ Forall dom l.*1.

(** The children of an iterator, a table or a memtable, are fixed while it lives: [content]
    is what it ranges over, in no particular order.  [cur] is [Valid()], [key()] and [value()]. *)
Class Iterator (I : Type) := {
  content : I -> list entry;
  iter_ok : I -> Prop;
  cur : I -> option entry;
  SeekToFirst : I -> I;
  SeekToLast : I -> I;
  Seek : I -> list Z -> I;
  Next : I -> I;
  Prev : I -> I;
  content_ok : forall it, iter_ok it -> keys_ok (content it);
  cur_content : forall it e, iter_ok it -> cur it = Some e -> e ∈ content it;
  SeekToFirst_best : forall it, iter_ok it ->
    iter_ok (SeekToFirst it) /\ content (SeekToFirst it) = content it
    /\ best klt (fun _ => True) (content it) (cur (SeekToFirst it));
  SeekToLast_best : forall it, iter_ok it ->
    iter_ok (SeekToLast it) /\ content (SeekToLast it) = content it
    /\ best kgt (fun _ => True) (content it) (cur (SeekToLast it));
  Seek_best : forall it t, iter_ok it -> dom t ->
    iter_ok (Seek it t) /\ content (Seek it t) = content it
    /\ best klt (fun e => cmp e.1 t <> Lt) (content it) (cur (Seek it t));
  Next_best : forall it e, iter_ok it -> cur it = Some e ->
    iter_ok (Next it) /\ content (Next it) = content it
    /\ best klt (fun e' => klt e e') (content it) (cur (Next it));
  Prev_best : forall it e, iter_ok it -> cur it = Some e ->
    iter_ok (Prev it) /\ content (Prev it) = content it
    /\ best kgt (fun e' => kgt e e') (content it) (cur (Prev it)) }.

(** ** Order *)

Lemma keys_eq l a b : keys_ok l -> a ∈ l -> b ∈ l -> a.1 = b.1 -> a = b.
Proof.
  intros [Hd _] [i Ha]%list_elem_of_lookup [j Hb]%list_elem_of_lookup E.
  assert (i = j) as ->; [|congruence].
  apply (NoDup_lookup l.*1 i j a.1); [done|rewrite list_lookup_fmap..]; [by rewrite Ha|by rewrite Hb, E].
Qed.

Lemma keys_dom l a : keys_ok l -> a ∈ l -> dom a.1.
Proof. intros [_ Hf] Ha. apply (Forall_elem _ _ _ Hf). by apply list_elem_of_fmap_2. Qed.

Lemma klt_trans a b c : dom a.1 -> dom b.1 -> dom c.1 -> klt a b -> klt b c -> klt a c.
Proof. apply cmp_trans. Qed.

Lemma klt_kgt a b : dom a.1 -> dom b.1 -> klt a b <-> kgt b a.
Proof. intros Ha Hb. unfold klt, kgt. rewrite (cmp_antisym a.1 b.1) by done. by destruct (cmp a.1 b.1). Qed.

Lemma kgt_trans a b c : dom a.1 -> dom b.1 -> dom c.1 -> kgt a b -> kgt b c -> kgt a c.
Proof. intros Ha Hb Hc. rewrite <- !klt_kgt by done. intros. by apply (klt_trans c b a). Qed.

Lemma cmp_refl a : dom a -> cmp a a = Eq.
Proof. intros Ha. by apply cmp_eq. Qed.

Lemma klt_irrefl a : dom a.1 -> ~ klt a a.
Proof. intros Ha. unfold klt. by rewrite cmp_refl. Qed.

(** The three cases of a comparison of entries of one iterator. *)
Lemma cmp_cases l a b : keys_ok l -> a ∈ l -> b ∈ l -> a = b \/ klt a b \/ kgt a b.
Proof.
  intros Hl Ha Hb. unfold klt, kgt. destruct (cmp a.1 b.1) eqn:E; [|by right; left|by right; right].
  left. apply (keys_eq l); [done..|]. apply cmp_eq; [by apply (keys_dom l)..|done].
Qed.

End Interface.

Arguments best {_} _ _ _ !_ /.

(** ** Positions *)

Section Position.
Context `{!KeyOrder} {I : Type} `{!Iterator I}.

#[global] Instance klt_dec a b : Decision (klt a b).
Proof. unfold klt. apply _. Defined.

(** The entries before, and those behind, the position of an iterator. *)
Definition before (it : I) (e : entry) : Prop := match cur it with Some p => klt e p | None => True end.
Definition behind (it : I) (e : entry) : Prop := match cur it with Some p => klt p e | None => True end.

#[global] Instance behind_dec it e : Decision (behind it e).
Proof. unfold behind. destruct (cur it); apply _. Defined.

Lemma order_cases l a b : keys_ok l -> a ∈ l -> b ∈ l -> a = b \/ klt a b \/ klt b a.
Proof.
  intros Hl Ha Hb. destruct (cmp_cases l a b Hl Ha Hb) as [?|[?|Hgt]]; [by left|by right; left|].
  right; right. apply klt_kgt; [by apply (keys_dom l)..|done].
Qed.

Lemma order_irrefl l a : keys_ok l -> a ∈ l -> ~ klt a a.
Proof. intros Hl Ha. apply klt_irrefl. by apply (keys_dom l). Qed.

Lemma order_trans l a b c : keys_ok l -> a ∈ l -> b ∈ l -> c ∈ l -> klt a b -> klt b c -> klt a c.
Proof. intros Hl Ha Hb Hc. apply klt_trans; by apply (keys_dom l). Qed.

Lemma order_flip l a b : keys_ok l -> a ∈ l -> b ∈ l -> kgt a b <-> klt b a.
Proof. intros Hl Ha Hb. symmetry. apply klt_kgt; by apply (keys_dom l). Qed.

Lemma before_Next it p e : iter_ok it -> cur it = Some p -> e ∈ content it ->
  before (Next it) e <-> klt e p \/ e = p.
Proof.
  intros Hok Hp He. pose proof (content_ok it Hok) as Hc. pose proof (cur_content it p Hok Hp) as Hpc.
  destruct (Next_best it p Hok Hp) as (_ & _ & Hb). unfold before. destruct (cur (Next it)) as [q|].
  - destruct Hb as (Hq & Hpq & Hmin). split.
    + intros Heq. destruct (order_cases _ e p Hc He Hpc) as [->|[?|Hpe]]; [by right|by left|].
      exfalso. destruct (Hmin e He Hpe) as [->|Hqe]; [by apply (order_irrefl _ q Hc)|].
      apply (order_irrefl _ e Hc He). by apply (order_trans _ e q e Hc).
    + intros [Hep| ->]; [|done]. by apply (order_trans _ e p q Hc).
  - split; [|done]. intros _. destruct (order_cases _ e p Hc He Hpc) as [->|[?|Hpe]]; [by right|by left|].
    by destruct (Hb e He).
Qed.

Lemma behind_Prev it p e : iter_ok it -> cur it = Some p -> e ∈ content it ->
  behind (Prev it) e <-> klt p e \/ e = p.
Proof.
  intros Hok Hp He. pose proof (content_ok it Hok) as Hc. pose proof (cur_content it p Hok Hp) as Hpc.
  destruct (Prev_best it p Hok Hp) as (_ & _ & Hb). unfold behind. destruct (cur (Prev it)) as [q|].
  - destruct Hb as (Hq & Hpq & Hmin). rewrite (order_flip _ p q Hc) in Hpq by done. split.
    + intros Heq. destruct (order_cases _ e p Hc He Hpc) as [->|[Hpe|?]]; [by right| |by left].
      exfalso. destruct (Hmin e He (proj2 (order_flip _ p e Hc Hpc He) Hpe)) as [->|Hqe]; [by apply (order_irrefl _ q Hc)|].
      rewrite (order_flip _ q e Hc) in Hqe by done. apply (order_irrefl _ e Hc He). by apply (order_trans _ e q e Hc).
    + intros [Hep| ->]; [|done]. by apply (order_trans _ q p e Hc).
  - split; [|done]. intros _. destruct (order_cases _ e p Hc He Hpc) as [->|[Hpe|?]]; [by right| |by left].
    destruct (Hb e He). by apply (order_flip _ p e Hc).
Qed.

(** How many entries are left, in either direction. *)
Definition ahead (it : I) : nat :=
  length (List.filter (fun e => match cur it with Some p => negb (bool_decide (klt e p)) | None => false end) (content it)).
Definition back (it : I) : nat :=
  length (List.filter (fun e => match cur it with Some p => negb (bool_decide (klt p e)) | None => false end) (content it)).

Lemma ahead_length it : (ahead it <= length (content it))%nat.
Proof. apply filter_length. Qed.

Lemma back_length it : (back it <= length (content it))%nat.
Proof. apply filter_length. Qed.

Lemma ahead_Next it p : iter_ok it -> cur it = Some p -> (ahead (Next it) < ahead it)%nat.
Proof.
  intros Hok Hp. pose proof (cur_content it p Hok Hp) as Hpc. pose proof (content_ok it Hok) as Hc.
  destruct (Next_best it p Hok Hp) as (_ & Hco & _).
  pose proof (fun e => before_Next it p e Hok Hp) as Hb. unfold before in Hb. unfold ahead. rewrite Hco, Hp.
  apply (filter_less _ _ _ p); [|done|..].
  - intros e He. destruct (cur (Next it)) as [q|]; [|done]. rewrite !negb_true_iff, !bool_decide_eq_false. naive_solver.
  - rewrite negb_true_iff, bool_decide_eq_false. by apply (order_irrefl _ p Hc).
  - destruct (cur (Next it)) as [q|]; [|done]. rewrite negb_false_iff, bool_decide_eq_true. naive_solver.
Qed.

Lemma back_Prev it p : iter_ok it -> cur it = Some p -> (back (Prev it) < back it)%nat.
Proof.
  intros Hok Hp. pose proof (cur_content it p Hok Hp) as Hpc. pose proof (content_ok it Hok) as Hc.
  destruct (Prev_best it p Hok Hp) as (_ & Hco & _).
  pose proof (fun e => behind_Prev it p e Hok Hp) as Hb. unfold behind in Hb. unfold back. rewrite Hco, Hp.
  apply (filter_less _ _ _ p); [|done|..].
  - intros e He. destruct (cur (Prev it)) as [q|]; [|done]. rewrite !negb_true_iff, !bool_decide_eq_false. naive_solver.
  - rewrite negb_true_iff, bool_decide_eq_false. by apply (order_irrefl _ p Hc).
  - destruct (cur (Prev it)) as [q|]; [|done]. rewrite negb_false_iff, bool_decide_eq_true. naive_solver.
Qed.

(** ** Sorted entries *)

Lemma sorted_keys es : StronglySorted klt es -> Forall dom es.*1 -> keys_ok es.
Proof.
  intros Hs Hd. split; [|done]. induction Hs as [|x es Hs IH Hf]; [constructor|].
  apply Forall_cons_1 in Hd as [Hx Hd]. constructor; [|by apply IH]. intros (y & E & Hy)%list_elem_of_fmap.
  pose proof (Forall_elem _ _ _ Hf Hy) as Hlt. unfold klt in Hlt. rewrite <- E, cmp_refl in Hlt; done.
Qed.

Lemma klt_index es i j a b : StronglySorted klt es -> Forall dom es.*1 -> es !! i = Some a -> es !! j = Some b ->
  klt a b <-> (i < j)%nat.
Proof.
  intros Hs Hd Ha Hb. assert (Hlt : forall i j a b, es !! i = Some a -> es !! j = Some b -> (i < j)%nat -> klt a b).
  { clear -Hs. induction Hs as [|x es Hs IH Hf]; intros i j a b Ha Hb Hij; [done|]. destruct j as [|j]; [lia|]. destruct i as [|i]; simpl in *.
    - injection Ha as <-. apply (Forall_elem _ _ _ Hf). by eapply list_elem_of_lookup_2.
    - apply (IH i j); [done..|lia]. }
  pose proof (sorted_keys es Hs Hd) as Hk. assert (Ha' : a ∈ es) by (by eapply list_elem_of_lookup_2). assert (Hb' : b ∈ es) by (by eapply list_elem_of_lookup_2).
  split; [|by apply (Hlt i j)]. intros Hab. destruct (Nat.lt_total i j) as [?|[->|Hji]]; [done| |].
  - simplify_eq. by destruct (order_irrefl es a Hk Ha').
  - destruct (order_irrefl es a Hk Ha'). apply (order_trans es a b a Hk); [done..|]. by apply (Hlt j i).
Qed.

(** The entries that satisfy [P] are those from the [n]-th on: the first is the best.
    They are those before the [n]-th: the last is. *)
Lemma sorted_best_from es P n : StronglySorted klt es -> Forall dom es.*1 ->
  (forall i e, es !! i = Some e -> P e <-> (n <= i)%nat) -> best klt P es (es !! n).
Proof.
  intros Hs Hd HP. destruct (es !! n) as [a|] eqn:Ha; simpl.
  - split; [by eapply list_elem_of_lookup_2|]. split; [by apply (HP n)|]. intros e' [j Hj]%list_elem_of_lookup He.
    apply (HP j) in He; [|done]. destruct (decide (n = j)) as [->|]; [left; congruence|right].
    apply (klt_index es n j); [done..|lia].
  - intros e' [j Hj]%list_elem_of_lookup. rewrite (HP j) by done. apply lookup_lt_Some in Hj. apply lookup_ge_None in Ha. lia.
Qed.

Lemma sorted_best_before es P n : StronglySorted klt es -> Forall dom es.*1 -> (n <= length es)%nat ->
  (forall i e, es !! i = Some e -> P e <-> (i < n)%nat) -> best kgt P es (match n with O => None | S i => es !! i end).
Proof.
  intros Hs Hd Hn HP. destruct n as [|m]; simpl.
  { intros e' [j Hj]%list_elem_of_lookup. rewrite (HP j) by done. lia. }
  destruct (lookup_lt_is_Some_2 es m) as [a Ha]; [lia|]. rewrite Ha. simpl. pose proof (sorted_keys es Hs Hd) as Hk.
  assert (Ha' : a ∈ es) by (by eapply list_elem_of_lookup_2). split; [done|]. split; [apply (HP m); [done|lia]|]. intros e' He' He.
  pose proof He' as [j Hj]%list_elem_of_lookup. apply (HP j) in He; [|done].
  destruct (decide (m = j)) as [->|]; [left; congruence|right]. apply (order_flip es a e' Hk); [done..|]. apply (klt_index es j m); [done..|lia].
Qed.

(** ** Walking through all the entries *)

Fixpoint walk (fuel : nat) (it : I) : list entry :=
  match fuel with
  | O => []
  | S fuel => match cur it with Some e => e :: walk fuel (Next it) | None => [] end
  end.
(** The entries from the first on. *)
Definition listing (it : I) : list entry := walk (S (length (content it))) (SeekToFirst it).

Lemma walk_spec fuel it : iter_ok it -> (ahead it < fuel)%nat ->
  StronglySorted klt (walk fuel it) /\ forall e, e ∈ walk fuel it <-> e ∈ content it /\ ~ before it e.
Proof.
  revert it. induction fuel as [|fuel IH]; intros it Hok Hf; [lia|]. cbn [walk].
  pose proof (content_ok it Hok) as Hc. destruct (cur it) as [p|] eqn:Hp.
  2:{ split; [constructor|]. intros e. unfold before. rewrite Hp, elem_of_nil. naive_solver. }
  destruct (Next_best it p Hok Hp) as (Hok' & Hco & _). pose proof (ahead_Next it p Hok Hp) as Hah.
  pose proof (cur_content it p Hok Hp) as Hpc. destruct (IH (Next it) Hok' ltac:(lia)) as [IH1 IH2].
  rewrite Hco in IH2. split.
  - constructor; [done|]. apply List.Forall_forall. intros e [He Hn]%list_elem_of_In%IH2.
    rewrite (before_Next it p) in Hn by done. destruct (order_cases _ e p Hc He Hpc) as [->|[?|?]]; naive_solver.
  - intros e. rewrite elem_of_cons, IH2. unfold before at 2. rewrite Hp. split.
    + intros [->|[He Hn]]; [split; [done|by apply (order_irrefl _ p Hc)]|]. split; [done|].
      rewrite (before_Next it p) in Hn by done. naive_solver.
    + intros [He Hn]. destruct (order_cases _ e p Hc He Hpc) as [->|[?|?]]; [by left|done|right]. split; [done|].
      rewrite (before_Next it p) by done. intros [?| ->]; [done|by apply (order_irrefl _ p Hc)].
Qed.

Lemma listing_spec it : iter_ok it ->
  StronglySorted klt (listing it) /\ forall e, e ∈ listing it <-> e ∈ content it.
Proof.
  intros Hok. destruct (SeekToFirst_best it Hok) as (Hok' & Hco & Hb). unfold listing. pose proof (content_ok it Hok) as Hc.
  destruct (walk_spec (S (length (content it))) (SeekToFirst it) Hok') as [H1 H2].
  { pose proof (ahead_length (SeekToFirst it)) as Hl. rewrite Hco in Hl. lia. }
  split; [done|]. intros e. rewrite H2, Hco. split; [by intros [? _]|]. intros He. split; [done|]. unfold before.
  destruct (cur (SeekToFirst it)) as [q|]; [|by destruct (Hb e He)]. destruct Hb as (Hq & _ & Hmin). intros Hlt.
  destruct (Hmin e He Logic.I) as [->|Hlt']; [by apply (order_irrefl _ q Hc)|].
  apply (order_irrefl _ e Hc He). by apply (order_trans _ e q e Hc).
Qed.

End Position.

(** A sorted list is known by its elements. *)
Lemma klt_sorted_unique `{!KeyOrder} a b : StronglySorted klt a -> StronglySorted klt b -> Forall dom a.*1 -> (forall e, e ∈ a <-> e ∈ b) -> a = b.
Proof.
  intros Ha Hb Hd Hab. assert (Hd' : Forall dom b.*1).
  { apply List.Forall_forall. intros k (e & -> & He)%list_elem_of_In%list_elem_of_fmap. apply (Forall_elem _ _ _ Hd). apply list_elem_of_fmap_2. by apply Hab. }
  pose proof (sorted_keys a Ha Hd) as Hk. pose proof (sorted_keys b Hb Hd') as Hk'. apply (StronglySorted_unique_strong klt); [|done..|].
  - intros x y Hx Hy%Hab Hxy Hyx. exfalso. apply (order_irrefl a x Hk Hx). by apply (order_trans a x y x Hk).
  - apply NoDup_Permutation; [apply (NoDup_fmap_1 fst), Hk|apply (NoDup_fmap_1 fst), Hk'|done].
Qed.

(** The listing of an iterator over the entries of a sorted list. *)
Lemma walk_sorted `{!KeyOrder} {I} `{!Iterator I} it es : iter_ok it -> StronglySorted klt es -> Forall dom es.*1 -> (forall e, e ∈ content it <-> e ∈ es) ->
  walk (S (length (content (SeekToFirst it)))) (SeekToFirst it) = es.
Proof.
  intros Hok Hs Hd Hin. destruct (SeekToFirst_best it Hok) as (_ & Hc & _). destruct (listing_spec it Hok) as [Hs' Hl]. unfold listing in Hs', Hl. rewrite <- Hc in Hs', Hl.
  symmetry. apply klt_sorted_unique; [done..|]. intros e. by rewrite Hl, Hc, Hin.
Qed.

(** ** The status, and the empty iterator *)

(** [status()]: whether no error was met. *)
Class HasStatus `{!KeyOrder} (I : Type) `{!Iterator I} := {
  status : I -> bool;
  status_ok : forall it, iter_ok it -> status it = true }.

(** An iterator, or an [EmptyIterator] ([NewEmptyIterator], [NewErrorIterator]). *)
Inductive or_empty (I : Type) := EmptyIterator (status_ : bool) | Iter (it : I).
Arguments EmptyIterator {_} _.
Arguments Iter {_} _.

Definition or_case {I A : Type} (e : bool -> A) (f : I -> A) (it : or_empty I) : A :=
  match it with EmptyIterator s => e s | Iter it => f it end.
Definition or_map {I : Type} (f : I -> I) (it : or_empty I) : or_empty I :=
  match it with EmptyIterator s => EmptyIterator s | Iter it => Iter (f it) end.

Section Empty.
Context `{!KeyOrder} {I : Type} `{!Iterator I}.

#[export] Program Instance empty_iterator : Iterator (or_empty I) := {
  content := or_case (fun _ => []) content;
  iter_ok := or_case (fun s => s = true) iter_ok;
  cur := or_case (fun _ => None) cur;
  SeekToFirst := or_map SeekToFirst;
  SeekToLast := or_map SeekToLast;
  Seek it t := or_map (fun it => Seek it t) it;
  Next := or_map Next;
  Prev := or_map Prev }.
Next Obligation. intros [s|it]; [intros _; split; constructor|apply content_ok]. Qed.
Next Obligation. intros [s|it] e; [done|apply cur_content]. Qed.
Next Obligation. intros [s|it] Hok; [split_and!; [done..|by intros e ?%elem_of_nil]|by apply SeekToFirst_best]. Qed.
Next Obligation. intros [s|it] Hok; [split_and!; [done..|by intros e ?%elem_of_nil]|by apply SeekToLast_best]. Qed.
Next Obligation. intros [s|it] t Hok Ht; [split_and!; [done..|by intros e ?%elem_of_nil]|by apply Seek_best]. Qed.
Next Obligation. intros [s|it] e Hok; [done|by apply Next_best]. Qed.
Next Obligation. intros [s|it] e Hok; [done|by apply Prev_best]. Qed.

#[export] Program Instance empty_has_status `{!HasStatus I} : HasStatus (or_empty I) := { status := or_case id status }.
Next Obligation. intros ? [s|it]; [done|exact (status_ok it)]. Qed.
End Empty.

(** ** Keys of the database and internal keys *)

(** A key whose internal keys have a 32-bit length. *)
Definition user_dom (k : list Z) : Prop := bytes_ok k /\ lenZ k + 8 < 2 ^ 32.

#[export] Instance user_order : KeyOrder := {
  cmp := Slice_compare;
  dom := user_dom;
  cmp_eq a b _ _ := Slice_compare_eq a b;
  cmp_antisym a b _ _ := Slice_compare_antisym a b;
  cmp_trans a b c _ _ _ := key_lt_trans a b c }.

(** An internal key is that of some entry. *)
Definition internal (k : list Z) : Prop := exists e, entry_ok e /\ k = ikey e.

Lemma InternalKey_ikey a b : entry_ok a -> entry_ok b -> InternalKey_Compare (ikey a) (ikey b) = e_compare a b.
Proof.
  intros Ha Hb. unfold InternalKey_Compare, e_compare, ikey.
  by rewrite !ExtractUserKey_app, !key_tag_app by (by apply e_tag_range).
Qed.

Lemma ikey_inj a b : entry_ok a -> entry_ok b -> ikey a = ikey b <-> e_compare a b = Eq.
Proof.
  intros Ha Hb. rewrite e_compare_eq. unfold ikey. split; [|by intros [-> ->]]. intros E.
  pose proof (f_equal ExtractUserKey E) as E1. pose proof (f_equal key_tag E) as E2.
  rewrite !ExtractUserKey_app in E1. rewrite !key_tag_app in E2 by (by apply e_tag_range). by injection E2.
Qed.

Lemma internal_eq a b : internal a -> internal b -> InternalKey_Compare a b = Eq <-> a = b.
Proof. intros (x & Hx & ->) (y & Hy & ->). by rewrite InternalKey_ikey, ikey_inj by done. Qed.

Lemma internal_antisym a b : internal a -> internal b -> InternalKey_Compare b a = CompOpp (InternalKey_Compare a b).
Proof. intros (x & Hx & ->) (y & Hy & ->). rewrite !InternalKey_ikey by done. apply e_compare_antisym. Qed.

Lemma internal_trans a b c : internal a -> internal b -> internal c ->
  InternalKey_Compare a b = Lt -> InternalKey_Compare b c = Lt -> InternalKey_Compare a c = Lt.
Proof.
  intros (x & Hx & ->) (y & Hy & ->) (z & Hz & ->). rewrite !InternalKey_ikey by done. apply e_lt_trans.
Qed.

Definition internal_order : KeyOrder := {|
  cmp := InternalKey_Compare;
  dom := internal;
  cmp_eq := internal_eq;
  cmp_antisym := internal_antisym;
  cmp_trans := internal_trans |}.

(** ** The iterator of a memtable *)

(** A place in the table: the number of a node, or behind the last. *)
Record MemTableIterator := mkMemIter { m_table : list TableKey; m_node : option nat }.

(** The first node that is not below [tk], and the last one that is. *)
Definition count_less (t : list TableKey) (tk : TableKey) : nat := (length t - length (table_seek tk t))%nat.
Definition node_at (t : list TableKey) (i : nat) : option nat := if (i <? length t)%nat then Some i else None.
Definition node_before (i : nat) : option nat := match i with O => None | S i => Some i end.

Definition mem_SeekToFirst (it : MemTableIterator) : MemTableIterator :=
  mkMemIter (m_table it) (node_at (m_table it) 0).
Definition mem_SeekToLast (it : MemTableIterator) : MemTableIterator :=
  mkMemIter (m_table it) (node_before (length (m_table it))).
(** [EncodeKey] puts the length in front of the key. *)
Definition EncodeKey (k : list Z) : list Z := PutVarint32 [] (u32 (lenZ k)) ++ k.
Definition mem_Seek (it : MemTableIterator) (k : list Z) : MemTableIterator :=
  let keynum := KeyNum (take (length k - 8) k) in
  mkMemIter (m_table it) (node_at (m_table it) (count_less (m_table it) (keynum, EncodeKey k))).
Definition mem_Next (it : MemTableIterator) : MemTableIterator :=
  match m_node it with
  | Some i => mkMemIter (m_table it) (node_at (m_table it) (S i))
  | None => it
  end.
(** The skip list has no backward links: [Prev] looks for the last node below the key. *)
Definition mem_Prev (it : MemTableIterator) : MemTableIterator :=
  match m_node it with
  | Some i =>
      match m_table it !! i with
      | Some tk => mkMemIter (m_table it) (node_before (count_less (m_table it) tk))
      | None => it
      end
  | None => it
  end.
Definition mem_view (x : TableKey) : entry := (iter_key x, iter_value x).
Definition mem_cur (it : MemTableIterator) : option entry :=
  match m_node it with Some i => mem_view <$> (m_table it !! i) | None => None end.

Record mem_ok_at (it : MemTableIterator) (es : list ientry) : Prop := mkMemOk {
  mo_ok : Forall entry_ok es;
  mo_sorted : StronglySorted e_lt es;
  mo_table : m_table it = enc <$> es;
  mo_node : forall i, m_node it = Some i -> (i < length es)%nat }.
Definition mem_ok (it : MemTableIterator) : Prop := exists es, mem_ok_at it es.
Definition mem_content (it : MemTableIterator) : list entry := mem_view <$> m_table it.

(** What an entry shows of itself. *)
Definition e_view (e : ientry) : entry := (ikey e, e_value e).

Lemma mem_view_enc es : Forall entry_ok es -> mem_view <$> (enc <$> es) = e_view <$> es.
Proof.
  rewrite <- list_fmap_compose. intros H. apply list_fmap_ext. intros i x Hx. simpl.
  unfold mem_view, e_view. destruct (enc_entry x) as [-> ->]; [|done].
  apply (Forall_elem _ _ _ H). by apply list_elem_of_lookup_2 in Hx.
Qed.

Lemma mem_content_view it es : mem_ok_at it es -> mem_content it = e_view <$> es.
Proof. intros [Ho _ Ht _]. unfold mem_content. rewrite Ht. by apply mem_view_enc. Qed.

Lemma sorted_lookup es i j a b : StronglySorted e_lt es -> es !! i = Some a -> es !! j = Some b ->
  (i < j)%nat -> e_lt a b.
Proof.
  intros Hs. revert i j. induction Hs as [|x es Hs IH Hx]; intros i j Ha Hb Hij; [done|].
  destruct j as [|j]; [lia|]. destruct i as [|i]; simpl in *.
  - injection Ha as ->. apply (Forall_elem _ _ _ Hx). by apply list_elem_of_lookup_2 in Hb.
  - apply (IH i j); [done..|lia].
Qed.

Lemma e_lt_irrefl a : ~ e_lt a a.
Proof. unfold e_lt. by rewrite (proj2 (e_compare_eq a a)). Qed.

Lemma sorted_keys_ok es : Forall entry_ok es -> StronglySorted e_lt es -> @keys_ok internal_order (e_view <$> es).
Proof.
  intros Ho Hs. assert ((e_view <$> es).*1 = ikey <$> es) as E by (by rewrite <- list_fmap_compose).
  unfold keys_ok. rewrite E. split.
  - apply NoDup_alt. intros i j k Hi Hj. rewrite list_lookup_fmap, fmap_Some in Hi, Hj.
    destruct Hi as (a & Ha & ->), Hj as (b & Hb & E').
    assert (entry_ok a /\ entry_ok b) as [Hoa Hob].
    { split; apply (Forall_elem _ _ _ Ho); by eapply list_elem_of_lookup_2. }
    apply ikey_inj in E'; [|done..]. destruct (Nat.lt_total i j) as [H|[H|H]]; [|done|].
    + pose proof (sorted_lookup es i j a b Hs Ha Hb H) as Hl. unfold e_lt in Hl. congruence.
    + pose proof (sorted_lookup es j i b a Hs Hb Ha H) as Hl. unfold e_lt in Hl.
      rewrite e_compare_antisym, E' in Hl. done.
  - apply Forall_fmap. eapply Forall_impl; [exact Ho|]. intros e He. by exists e.
Qed.

Lemma klt_view a b : entry_ok a -> entry_ok b -> @klt internal_order (e_view a) (e_view b) <-> e_lt a b.
Proof. intros Ha Hb. unfold klt, e_lt. simpl. by rewrite InternalKey_ikey. Qed.

Lemma kgt_view a b : entry_ok a -> entry_ok b -> @kgt internal_order (e_view a) (e_view b) <-> e_lt b a.
Proof.
  intros Ha Hb. unfold kgt, e_lt. simpl. rewrite InternalKey_ikey, (e_compare_antisym a b) by done.
  by destruct (e_compare a b).
Qed.

Section Positions.
Context (es : list ientry) (Hok : Forall entry_ok es) (Hs : StronglySorted e_lt es) (P : entry -> Prop) (n : nat).

Lemma lookup_ok i a : es !! i = Some a -> entry_ok a.
Proof. intros Ha. apply (Forall_elem _ _ _ Hok). by eapply list_elem_of_lookup_2. Qed.

(** The entries that satisfy [P] are those from the [n]-th on: the first is the best. *)
Lemma best_from : (forall j a, es !! j = Some a -> P (e_view a) <-> (n <= j)%nat) ->
  best (@klt internal_order) P (e_view <$> es) (e_view <$> (es !! n)).
Proof.
  intros HP. destruct (es !! n) as [a|] eqn:Ha; simpl.
  - split; [apply list_elem_of_fmap_2; by eapply list_elem_of_lookup_2|]. split; [by apply (HP n)|].
    intros e' (b & -> & [j Hj]%list_elem_of_lookup)%list_elem_of_fmap. rewrite (HP j b Hj). intros Hle.
    destruct (decide (n = j)) as [->|]; [left; congruence|right].
    apply klt_view; [by apply (lookup_ok n)|by apply (lookup_ok j)|]. apply (sorted_lookup es n j); [done..|lia].
  - intros e' (b & -> & [j Hj]%list_elem_of_lookup)%list_elem_of_fmap. rewrite (HP j b Hj).
    apply lookup_lt_Some in Hj. apply lookup_ge_None in Ha. lia.
Qed.

(** They are those before the [n]-th: the last is the best. *)
Lemma best_before : (n <= length es)%nat -> (forall j a, es !! j = Some a -> P (e_view a) <-> (j < n)%nat) ->
  best (@kgt internal_order) P (e_view <$> es) (match node_before n with Some i => e_view <$> es !! i | None => None end).
Proof.
  intros Hn HP. destruct n as [|m]; cbn [node_before].
  { intros e' (b & -> & [j Hj]%list_elem_of_lookup)%list_elem_of_fmap. rewrite (HP j b Hj). lia. }
  destruct (es !! m) as [a|] eqn:Ha; [|apply lookup_ge_None in Ha; lia]. cbn [fmap option_fmap option_map best].
  split; [apply list_elem_of_fmap_2; by eapply list_elem_of_lookup_2|]. split; [apply (HP m); [done|lia]|].
  intros e' (b & -> & [j Hj]%list_elem_of_lookup)%list_elem_of_fmap. rewrite (HP j b Hj). intros Hle.
  destruct (decide (m = j)) as [->|]; [left; congruence|right].
  apply kgt_view; [by apply (lookup_ok m)|by apply (lookup_ok j)|]. apply (sorted_lookup es j m); [done..|lia].
Qed.

Lemma count_less_index tk t : stands_for tk t ->
  (count_less (enc <$> es) tk <= length es)%nat
  /\ forall j a, es !! j = Some a -> e_compare a t = Lt <-> (j < count_less (enc <$> es) tk)%nat.
Proof.
  intros Ht. unfold count_less. rewrite (table_seek_enc tk t es Ht Hok), !length_fmap. split; [lia|].
  clear Hok P n. induction Hs as [|x es' Hs' IH Hx]; intros j a Ha; [done|]. cbn [e_seek].
  assert (Hlen : (length (e_seek t es') <= length es')%nat).
  { clear. induction es' as [|y es' IH]; simpl; [done|]. destruct (e_compare y t); simpl; lia. }
  destruct (e_compare x t) eqn:E; [|destruct j as [|j]; simpl in Ha|].
  2:{ injection Ha as ->. rewrite E. simpl length. split; [lia|done]. }
  2:{ rewrite (IH Hs' j a Ha). simpl length. lia. }
  all: rewrite Nat.sub_diag; split; [|lia]; intros Hc; exfalso; destruct j as [|j]; simpl in Ha;
    [injection Ha as ->; congruence|];
    assert (e_lt x t) as Hlt
      by (apply (e_lt_trans _ a); [apply (Forall_elem _ _ _ Hx); by eapply list_elem_of_lookup_2|done]);
    unfold e_lt in Hlt; congruence.
Qed.

End Positions.

Lemma node_at_Some t n i : node_at t n = Some i -> i = n /\ (n < length t)%nat.
Proof. unfold node_at. destruct (Nat.ltb_spec n (length t)); [|done]. intros [= ->]. lia. Qed.

Lemma mem_cur_at es n : Forall entry_ok es ->
  mem_cur (mkMemIter (enc <$> es) (node_at (enc <$> es) n)) = e_view <$> (es !! n).
Proof.
  intros Ho. unfold mem_cur, node_at. cbn [m_node m_table]. rewrite length_fmap. destruct (Nat.ltb_spec n (length es)).
  - by rewrite <- list_lookup_fmap, mem_view_enc, list_lookup_fmap by done.
  - by rewrite lookup_ge_None_2 by lia.
Qed.

Lemma mem_cur_node es o : Forall entry_ok es ->
  mem_cur (mkMemIter (enc <$> es) o) = match o with Some i => e_view <$> es !! i | None => None end.
Proof.
  intros Ho. unfold mem_cur. cbn [m_node m_table]. destruct o; [|done].
  by rewrite <- list_lookup_fmap, mem_view_enc, list_lookup_fmap by done.
Qed.

Lemma EncodeKey_stands t : entry_ok t ->
  stands_for (KeyNum (take (length (ikey t) - 8) (ikey t)), EncodeKey (ikey t)) t.
Proof.
  intros Ht. pose proof (length_ikey (e_key t) (e_tag t)) as Hl. fold (ikey t) in Hl.
  split_and!; cbn [fst snd]; [| |apply Ht|by apply e_tag_range..].
  - f_equal. apply ExtractUserKey_app.
  - unfold EncodeKey, PutVarint32. simpl. destruct (mem_slice_put (ikey t) []) as [H _].
    + pose proof (ok_key t Ht). lia.
    + by rewrite app_nil_r in H.
Qed.

Section MemIterator.
#[local] Existing Instance internal_order.

Lemma mem_content_ok it : mem_ok it -> keys_ok (mem_content it).
Proof. intros [es H]. rewrite (mem_content_view it es H). apply sorted_keys_ok; apply H. Qed.

Lemma mem_cur_content it e : mem_ok it -> mem_cur it = Some e -> e ∈ mem_content it.
Proof.
  intros [es H]. unfold mem_cur, mem_content. destruct (m_node it) as [i|]; [|done].
  rewrite <- list_lookup_fmap. apply list_elem_of_lookup_2.
Qed.

(** A step of the iterator: it stays well-formed and lands on the best entry. *)
Definition lands (lt : entry -> entry -> Prop) (P : entry -> Prop) (it it' : MemTableIterator) : Prop :=
  mem_ok it' /\ mem_content it' = mem_content it /\ best lt P (mem_content it) (mem_cur it').

Lemma lands_from it es P n : mem_ok_at it es -> (forall j a, es !! j = Some a -> P (e_view a) <-> (n <= j)%nat) ->
  lands klt P it (mkMemIter (m_table it) (node_at (m_table it) n)).
Proof.
  intros H HP. unfold lands. rewrite (mem_content_view it es H). destruct H as [Ho Hs Ht Hn].
  assert (mem_ok_at (mkMemIter (m_table it) (node_at (m_table it) n)) es) as H'.
  { split; [done..|]. intros i Hi. apply node_at_Some in Hi as [-> Hi]. by rewrite Ht, length_fmap in Hi. }
  split; [by exists es|]. split; [by apply mem_content_view|]. rewrite Ht, mem_cur_at by done. by apply best_from.
Qed.

Lemma lands_before it es P n : mem_ok_at it es -> (n <= length es)%nat ->
  (forall j a, es !! j = Some a -> P (e_view a) <-> (j < n)%nat) ->
  lands kgt P it (mkMemIter (m_table it) (node_before n)).
Proof.
  intros H Hle HP. unfold lands. rewrite (mem_content_view it es H). destruct H as [Ho Hs Ht Hn].
  assert (mem_ok_at (mkMemIter (m_table it) (node_before n)) es) as H'.
  { split; [done..|]. intros i Hi. destruct n; simpl in Hi; [done|]. injection Hi as <-. lia. }
  split; [by exists es|]. split; [by apply mem_content_view|]. rewrite Ht, mem_cur_node by done. by apply best_before.
Qed.

Lemma mem_SeekToFirst_best it : mem_ok it -> lands klt (fun _ => True) it (mem_SeekToFirst it).
Proof. intros [es H]. apply (lands_from it es _ 0 H). intros. split; [lia|done]. Qed.

Lemma mem_SeekToLast_best it : mem_ok it -> lands kgt (fun _ => True) it (mem_SeekToLast it).
Proof.
  intros [es H]. apply (lands_before it es _ _ H); rewrite (mo_table _ _ H), length_fmap; [done|].
  intros j a Hj%lookup_lt_Some. split; [lia|done].
Qed.

Lemma mem_Seek_best it t : mem_ok it -> internal t ->
  lands klt (fun e => cmp e.1 t <> Lt) it (mem_Seek it t).
Proof.
  intros [es H] (e & He & ->). apply (lands_from it es _ _ H). intros j a Ha. rewrite (mo_table _ _ H).
  destruct (count_less_index es (mo_ok _ _ H) (mo_sorted _ _ H) _ e (EncodeKey_stands e He)) as [_ Hc].
  simpl. rewrite InternalKey_ikey by (done || by apply (lookup_ok es (mo_ok _ _ H) j)).
  rewrite (Hc j a Ha). lia.
Qed.

Lemma mem_cur_entry it es e : mem_ok_at it es -> mem_cur it = Some e ->
  exists i a, m_node it = Some i /\ es !! i = Some a /\ e = e_view a /\ entry_ok a.
Proof.
  intros H. destruct it as [t o]. pose proof (mo_table _ _ H) as Ht. simpl in Ht. subst t.
  rewrite mem_cur_node by apply H. destruct o as [i|]; [|done]. intros (a & Ha & ->)%fmap_Some.
  exists i, a. split_and!; [done..|]. by apply (lookup_ok es (mo_ok _ _ H) i).
Qed.

Lemma e_lt_index es i j a b : StronglySorted e_lt es -> es !! i = Some a -> es !! j = Some b ->
  e_lt a b <-> (i < j)%nat.
Proof.
  intros Hs Ha Hb. split; [|by apply (sorted_lookup es)]. intros Hlt.
  destruct (Nat.lt_total i j) as [H|[<-|H]]; [done|..].
  - destruct (e_lt_irrefl a). congruence.
  - pose proof (sorted_lookup es j i b a Hs Hb Ha H). destruct (e_lt_irrefl a). by apply (e_lt_trans _ b).
Qed.

Lemma mem_Next_best it e : mem_ok it -> mem_cur it = Some e -> lands klt (fun e' => klt e e') it (mem_Next it).
Proof.
  intros [es H] He. destruct (mem_cur_entry it es e H He) as (i & a & Hn & Ha & -> & Hoa).
  unfold mem_Next. rewrite Hn. apply (lands_from it es _ _ H). intros j b Hb.
  rewrite klt_view by (done || by apply (lookup_ok es (mo_ok _ _ H) j)).
  apply (e_lt_index es); [apply H|done..].
Qed.

Lemma mem_Prev_best it e : mem_ok it -> mem_cur it = Some e -> lands kgt (fun e' => kgt e e') it (mem_Prev it).
Proof.
  intros [es H] He. destruct (mem_cur_entry it es e H He) as (i & a & Hn & Ha & -> & Hoa).
  unfold mem_Prev. rewrite Hn. rewrite (mo_table _ _ H), list_lookup_fmap, Ha. cbn [fmap option_fmap option_map].
  destruct (count_less_index es (mo_ok _ _ H) (mo_sorted _ _ H) _ a (enc_stands a Hoa)) as [Hle Hc].
  rewrite <- (mo_table _ _ H) in *.
  apply (lands_before it es _ _ H); [done|]. intros j b Hb.
  rewrite kgt_view by (done || by apply (lookup_ok es (mo_ok _ _ H) j)). by rewrite <- (Hc j b Hb).
Qed.

#[export] Instance mem_iterator : Iterator MemTableIterator := {
  content := mem_content;
  iter_ok := mem_ok;
  cur := mem_cur;
  SeekToFirst := mem_SeekToFirst;
  SeekToLast := mem_SeekToLast;
  Seek := mem_Seek;
  Next := mem_Next;
  Prev := mem_Prev;
  content_ok := mem_content_ok;
  cur_content := mem_cur_content;
  SeekToFirst_best := mem_SeekToFirst_best;
  SeekToLast_best := mem_SeekToLast_best;
  Seek_best := mem_Seek_best;
  Next_best := mem_Next_best;
  Prev_best := mem_Prev_best }.

End MemIterator.
