(* ===== verification/LdbMerge.v ===== *)
(** * leveldb: the merging iterator

    src/ext/leveldb/table/merger.cc over children that obey the interface of [LdbIter]:
    the result obeys it too, for the entries of all the children. *)

From Stdlib Require Import ZArith Lia.
From stdpp Require Import base list numbers option sorting.
From S2P Require Import Prelude WebappStr Session LdbMem LdbIter.
Open Scope Z_scope.
Open Scope webapp_scope.

Inductive Direction := kForward | kReverse.

Section Merging.
Context `{!KeyOrder} {I : Type} `{!Iterator I}.

Record MergingIterator := mkMerging { children_ : list I; current_ : option nat; direction_ : Direction }.

Definition is_lt (c : comparison) : bool := match c with Lt => true | _ => false end.
Definition is_gt (c : comparison) : bool := match c with Gt => true | _ => false end.

(** The loops of [FindSmallest] and [FindLargest]: the child found so far, and its key. *)
Fixpoint find_loop (better : comparison -> bool) (cs : list (nat * I)) (acc : option (nat * list Z))
    : option (nat * list Z) :=
  match cs with
  | [] => acc
  | (i, child) :: cs =>
      match cur child with
      | None => find_loop better cs acc
      | Some e =>
          match acc with
          | None => find_loop better cs (Some (i, e.1))
          | Some (j, k) =>
              if better (cmp e.1 k) then find_loop better cs (Some (i, e.1)) else find_loop better cs acc
          end
      end
  end.
Definition FindSmallest (cs : list I) : option nat := fst <$> find_loop is_lt (imap pair cs) None.
Definition FindLargest (cs : list I) : option nat := fst <$> find_loop is_gt (reverse (imap pair cs)) None.

Definition merge_cur (it : MergingIterator) : option entry :=
  match current_ it with
  | Some i => match children_ it !! i with Some child => cur child | None => None end
  | None => None
  end.

Definition merge_SeekToFirst (it : MergingIterator) : MergingIterator :=
  let cs := SeekToFirst <$> children_ it in mkMerging cs (FindSmallest cs) kForward.
Definition merge_SeekToLast (it : MergingIterator) : MergingIterator :=
  let cs := SeekToLast <$> children_ it in mkMerging cs (FindLargest cs) kReverse.
Definition merge_Seek (it : MergingIterator) (target : list Z) : MergingIterator :=
  let cs := (fun c => Seek c target) <$> children_ it in mkMerging cs (FindSmallest cs) kForward.

(** A child that is not the current one, when the direction changes: behind [key]... *)
Definition after_key (key : list Z) (child : I) : I :=
  let child := Seek child key in
  match cur child with
  | Some e => match cmp key e.1 with Eq => Next child | _ => child end
  | None => child
  end.
(** ... or before it. *)
Definition before_key (key : list Z) (child : I) : I :=
  let child := Seek child key in
  match cur child with
  | Some _ => Prev child
  | None => SeekToLast child
  end.
Definition others (f : I -> I) (current : nat) (cs : list I) : list I :=
  imap (fun i c => if (i =? current)%nat then c else f c) cs.

Definition merge_Next (it : MergingIterator) : MergingIterator :=
  match current_ it, merge_cur it with
  | Some i, Some e =>
      let cs := match direction_ it with
                | kForward => children_ it
                | kReverse => others (after_key e.1) i (children_ it)
                end in
      let cs := alter Next i cs in
      mkMerging cs (FindSmallest cs) kForward
  | _, _ => it
  end.
Definition merge_Prev (it : MergingIterator) : MergingIterator :=
  match current_ it, merge_cur it with
  | Some i, Some e =>
      let cs := match direction_ it with
                | kReverse => children_ it
                | kForward => others (before_key e.1) i (children_ it)
                end in
      let cs := alter Prev i cs in
      mkMerging cs (FindLargest cs) kReverse
  | _, _ => it
  end.

(** ** The invariant *)

(** The order of a direction. *)
Definition dir_cmp (d : Direction) : comparison := match d with kForward => Lt | kReverse => Gt end.
Definition kd (d : Direction) (a b : entry) : Prop := cmp a.1 b.1 = dir_cmp d.
(** At [e] or further. *)
Definition from (d : Direction) (e e' : entry) : Prop := cmp e.1 e'.1 <> CompOpp (dir_cmp d).

Definition all (cs : list I) : list entry := mjoin (content <$> cs).

(** Every child stands at its first entry that is not before the current one. *)
Definition merge_ok (it : MergingIterator) : Prop :=
  Forall iter_ok (children_ it) /\ keys_ok (all (children_ it))
  /\ forall e, merge_cur it = Some e ->
       forall c, c ∈ children_ it -> best (kd (direction_ it)) (from (direction_ it) e) (content c) (cur c).

Lemma kd_trans d a b c : dom a.1 -> dom b.1 -> dom c.1 -> kd d a b -> kd d b c -> kd d a c.
Proof. destruct d; [apply klt_trans|apply kgt_trans]. Qed.

Lemma kd_irrefl d a : dom a.1 -> ~ kd d a a.
Proof. intros Ha. unfold kd. rewrite cmp_refl by done. by destruct d. Qed.

Lemma from_cases d l e e' : keys_ok l -> e ∈ l -> e' ∈ l -> from d e e' <-> e = e' \/ kd d e e'.
Proof.
  intros Hl He He'. unfold from, kd. destruct (cmp_cases l e e' Hl He He') as [<-|Hc].
  - rewrite cmp_refl by (by apply (keys_dom l)). split; [by left|by destruct d].
  - assert (e <> e') as Hn.
    { intros <-. pose proof (cmp_refl e.1 (keys_dom l e Hl He)). unfold klt, kgt in Hc. destruct Hc; congruence. }
    unfold klt, kgt in Hc. destruct Hc as [-> | ->]; destruct d; simpl; naive_solver.
Qed.

Lemma best_ext {E} (lt : E -> E -> Prop) (P Q : E -> Prop) l o :
  (forall e, e ∈ l -> P e <-> Q e) -> best lt P l o -> best lt Q l o.
Proof. destruct o as [e|]; simpl; naive_solver. Qed.

Lemma elem_of_all e cs : e ∈ all cs <-> exists c, c ∈ cs /\ e ∈ content c.
Proof.
  unfold all. rewrite list_elem_of_join. setoid_rewrite list_elem_of_fmap. naive_solver.
Qed.

Lemma child_keys_ok c cs : keys_ok (all cs) -> c ∈ cs -> keys_ok (content c).
Proof.
  intros [Hn Hd] [i Hi]%list_elem_of_lookup. unfold keys_ok, all in *.
  assert (exists a b, mjoin (content <$> cs) = a ++ content c ++ b) as (a & b & E).
  { exists (mjoin (content <$> take i cs)), (mjoin (content <$> drop (S i) cs)).
    rewrite <- (take_drop_middle cs i c Hi) at 1. by rewrite fmap_app, join_app. }
  rewrite E in *. rewrite !fmap_app in Hn, Hd. apply NoDup_app in Hn as (_ & _ & Hn). apply NoDup_app in Hn as (Hn & _ & _).
  apply Forall_app in Hd as [_ Hd]. apply Forall_app in Hd as [Hd _]. done.
Qed.

(** The key of an entry is in one child only. *)
Lemma all_disjoint cs i j a b e e' : keys_ok (all cs) -> cs !! i = Some a -> cs !! j = Some b -> i <> j ->
  e ∈ content a -> e' ∈ content b -> e.1 <> e'.1.
Proof.
  assert (Hlt : forall i j a b e e', keys_ok (all cs) -> cs !! i = Some a -> cs !! j = Some b -> (i < j)%nat ->
    e ∈ content a -> e' ∈ content b -> e.1 <> e'.1).
  { clear. intros i j a b e e' [Hn _] Ha Hb Hij He He' E. unfold all in Hn.
    rewrite <- (take_drop (S i) cs), fmap_app, join_app, fmap_app in Hn. apply NoDup_app in Hn as (_ & Hn & _).
    apply (Hn e.1).
    - apply list_elem_of_fmap_2, list_elem_of_join. exists (content a). split; [done|]. apply list_elem_of_fmap_2.
      apply (list_elem_of_lookup_2 _ i). rewrite lookup_take_lt by lia. done.
    - rewrite E. apply list_elem_of_fmap_2, list_elem_of_join. exists (content b). split; [done|]. apply list_elem_of_fmap_2.
      apply (list_elem_of_lookup_2 _ (j - S i)). rewrite lookup_drop. by replace (S i + (j - S i))%nat with j by lia. }
  intros Hk Ha Hb Hij He He'. destruct (Nat.lt_total i j) as [Hx|[Hx|Hx]]; [|done|].
  - by apply (Hlt i j a b).
  - intros E. by apply (Hlt j i b a e' e).
Qed.

(** ** The child that is found *)

Definition kle (d : Direction) (a b : list Z) : Prop := a = b \/ cmp a b = dir_cmp d.

Lemma kle_trans d a b c : dom a -> dom b -> dom c -> kle d a b -> kle d b c -> kle d a c.
Proof.
  intros Ha Hb Hc [->|Hab] [->|Hbc]; [by left|by right|by right|]. right.
  apply (kd_trans d (a, []) (b, []) (c, [])); done.
Qed.

Lemma not_better d a b : dom a -> dom b -> cmp a b <> dir_cmp d -> kle d b a.
Proof.
  intros Ha Hb. unfold kle. rewrite (cmp_antisym a b) by done. destruct (cmp a b) eqn:E.
  - left. symmetry. by apply cmp_eq.
  - destruct d; [done|by right].
  - destruct d; [by right|done].
Qed.

(** The keys that the loop sees. *)
Definition seen (acc : option (nat * list Z)) (cs : list (nat * I)) (i : nat) (k : list Z) : Prop :=
  acc = Some (i, k) \/ exists c e, (i, c) ∈ cs /\ cur c = Some e /\ e.1 = k.

Lemma seen_None acc i child cs j k : cur child = None -> seen acc ((i, child) :: cs) j k <-> seen acc cs j k.
Proof.
  intros Hc. unfold seen. setoid_rewrite elem_of_cons. split.
  - intros [?|(c & e & [[= -> ->]|?] & ? & ?)]; [by left|congruence|]. right. by exists c, e.
  - intros [?|(c & e & ? & ? & ?)]; [by left|]. right. exists c, e. by split; [right|].
Qed.

Lemma seen_Some acc i child e cs j k : cur child = Some e ->
  seen acc ((i, child) :: cs) j k <-> acc = Some (j, k) \/ seen (Some (i, e.1)) cs j k.
Proof.
  intros Hc. unfold seen. setoid_rewrite elem_of_cons. split.
  - intros [?|(c & e' & [[= -> ->]|?] & ? & ?)]; [by left|right; left; congruence|]. right. right. by exists c, e'.
  - intros [?|[[= <- <-]|(c & e' & ? & ? & ?)]]; [by left|right..].
    + exists child, e. by split; [left|].
    + exists c, e'. by split; [right|].
Qed.

Lemma find_loop_spec d better cs acc :
  (forall c, better c = true <-> c = dir_cmp d) -> (forall i k, seen acc cs i k -> dom k) ->
  match find_loop better cs acc with
  | None => forall i k, ~ seen acc cs i k
  | Some (j, k) => seen acc cs j k /\ forall i k', seen acc cs i k' -> kle d k k'
  end.
Proof.
  intros Hb. revert acc. induction cs as [|[i child] cs IH]; intros acc Hdom; cbn [find_loop].
  { assert (forall j k, seen acc [] j k <-> acc = Some (j, k)) as Hs.
    { intros j k. split; [|by left]. by intros [?|(? & ? & ?%elem_of_nil & _)]. }
    destruct acc as [[j k]|]; [|by intros j k ?%Hs]. split; [by left|]. intros j' k' [= -> ->]%Hs. by left. }
  destruct (cur child) as [e|] eqn:Ee.
  2:{ pose proof (fun j k => seen_None acc i child cs j k Ee) as Hs.
      specialize (IH acc). destruct (find_loop better cs acc) as [[j k]|]; setoid_rewrite Hs; apply IH;
        intros ?? ?%Hs; by eapply Hdom. }
  pose proof (fun j k => seen_Some acc i child e cs j k Ee) as Hs.
  assert (Htake := IH (Some (i, e.1)) ltac:(intros; eapply Hdom, Hs; by right)).
  destruct acc as [[j0 k0]|].
  2:{ destruct (find_loop _ _ _) as [[j k]|]; setoid_rewrite Hs; naive_solver. }
  assert (dom e.1 /\ dom k0) as [Hde Hk0] by (split; eapply Hdom, Hs; [by right; left|by left]).
  destruct (better (cmp e.1 k0)) eqn:Eb.
  - destruct (find_loop _ _ _) as [[j k]|]; [|destruct (Htake i e.1); by left]. destruct Htake as [H1 H2].
    split; [apply Hs; by right|]. intros j' k' [[= -> ->]|?]%Hs; [|by eapply H2].
    apply (kle_trans d k e.1); [eapply Hdom, Hs; by right|done..|eapply H2; by left|right; by apply Hb].
  - clear Htake. assert (kle d k0 e.1) as Hle by (apply not_better; [done..|]; intros Hc%Hb; congruence).
    assert (forall j k, seen (Some (j0, k0)) cs j k -> seen (Some (j0, k0)) ((i, child) :: cs) j k) as Hsub.
    { intros j k [?|Hx]; apply Hs; [by left|right; by right]. }
    specialize (IH (Some (j0, k0)) ltac:(intros; by eapply Hdom, Hsub)).
    destruct (find_loop _ _ _) as [[j k]|]; [|destruct (IH j0 k0); by left]. destruct IH as [H1 H2].
    split; [by apply Hsub|]. intros j' k' [[= <- <-]|[[= <- <-]|?]]%Hs; [eapply H2; by left| |eapply H2; by right].
    apply (kle_trans d k k0); [by eapply Hdom, Hsub|done..|eapply H2; by left|done].
Qed.

Definition find (d : Direction) (cs : list I) : option nat :=
  match d with kForward => FindSmallest cs | kReverse => FindLargest cs end.

Lemma find_spec d cs : Forall iter_ok cs ->
  match find d cs with
  | None => forall c, c ∈ cs -> cur c = None
  | Some i => exists c e, cs !! i = Some c /\ cur c = Some e
                /\ forall c' e', c' ∈ cs -> cur c' = Some e' -> kle d e.1 e'.1
  end.
Proof.
  intros Hok. assert (Hin : forall i c, (i, c) ∈ imap pair cs <-> cs !! i = Some c).
  { intros i c. split.
    - intros [j Hj]%list_elem_of_lookup. rewrite list_lookup_imap, fmap_Some in Hj. by destruct Hj as (x & ? & [= -> ->]).
    - intros Hc. apply (list_elem_of_lookup_2 _ i). by rewrite list_lookup_imap, Hc. }
  assert (Hdom : forall i c e, (i, c) ∈ imap pair cs -> cur c = Some e -> dom e.1).
  { intros i c e Hc%Hin%list_elem_of_lookup_2 He. pose proof (Forall_elem _ _ _ Hok Hc) as Hoc.
    apply (keys_dom (content c)); [by apply content_ok|by apply cur_content]. }
  assert (Hmain : forall better l, (forall c, better c = true <-> c = dir_cmp d) -> (forall x, x ∈ l <-> x ∈ imap pair cs) ->
    match fst <$> find_loop better l None with
    | None => forall c, c ∈ cs -> cur c = None
    | Some i => exists c e, cs !! i = Some c /\ cur c = Some e
                /\ forall c' e', c' ∈ cs -> cur c' = Some e' -> kle d e.1 e'.1
    end).
  { intros better l Hb Hl. pose proof (find_loop_spec d better l None Hb) as Hs.
    specialize (Hs ltac:(intros i k [?|(c & e & Hc & He & <-)]; [done|]; by apply (Hdom i c), He; apply Hl)).
    destruct (find_loop better l None) as [[j k]|]; simpl.
    - destruct Hs as ([?|(c & e & Hc & He & <-)] & Hs); [done|]. exists c, e.
      split; [by apply Hin, Hl|]. split; [done|]. intros c' e' [i' Hi']%list_elem_of_lookup He'.
      apply (Hs i'). right. exists c', e'. split; [by apply Hl, Hin|done].
    - intros c [i' Hi']%list_elem_of_lookup. destruct (cur c) as [e|] eqn:E; [|done]. destruct (Hs i' e.1).
      right. exists c, e. split; [by apply Hl, Hin|done]. }
  destruct d; cbn [find].
  - apply Hmain; [by intros []|done].
  - apply Hmain; [by intros []|]. intros x. apply elem_of_reverse.
Qed.

(** ** The operations *)

(** Children that each stand at the best of their entries. *)
Lemma merge_lands d cs P :
  Forall iter_ok cs -> keys_ok (all cs) -> (forall a b, a ∈ all cs -> b ∈ all cs -> P a -> kd d a b -> P b) ->
  (forall c, c ∈ cs -> best (kd d) P (content c) (cur c)) ->
  merge_ok (mkMerging cs (find d cs) d) /\ best (kd d) P (all cs) (merge_cur (mkMerging cs (find d cs) d)).
Proof.
  intros Hok Hk HP Hbest. assert (Hcur : forall c e, c ∈ cs -> cur c = Some e -> e ∈ all cs).
  { intros c e Hc He. apply elem_of_all. exists c. split; [done|]. apply cur_content; [|done]. by apply (Forall_elem _ _ _ Hok). }
  pose proof (find_spec d cs Hok) as Hf. unfold merge_ok, merge_cur. cbn [children_ current_ direction_].
  destruct (find d cs) as [i|].
  2:{ split; [split_and!; [done..|by intros]|]. intros e (c & Hc & He)%elem_of_all HPe.
      specialize (Hbest c Hc). rewrite (Hf c Hc) in Hbest. by apply (Hbest e). }
  destruct Hf as (c & e & Hi & He & Hmin). rewrite Hi. pose proof (list_elem_of_lookup_2 _ _ _ Hi) as Hc.
  assert (HPe : P e) by (specialize (Hbest c Hc); rewrite He in Hbest; apply Hbest).
  pose proof (Hcur c e Hc He) as Hea.
  assert (Hle : forall c' x, c' ∈ cs -> cur c' = Some x -> x = e \/ kd d e x).
  { intros c' x Hc' Hx. destruct (Hmin c' x Hc' Hx) as [E|Hlt]; [left|by right].
    symmetry. apply (keys_eq (all cs)); [done|done|by apply (Hcur c')|done]. }
  assert (Hall : forall e', e' ∈ all cs -> P e' -> e' = e \/ kd d e e').
  { intros e' He' HPe'. pose proof He' as (c' & Hc' & Hin)%elem_of_all. specialize (Hbest c' Hc').
    destruct (cur c') as [x|] eqn:Ex; [|by destruct (Hbest e')]. destruct Hbest as (_ & _ & Hx).
    destruct (Hle c' x Hc' Ex) as [->|Hlt]; [by apply Hx|]. destruct (Hx e' Hin HPe') as [->|Hlt']; [by right|].
    right. apply (kd_trans d e x e'); try done; apply (keys_dom (all cs)); try done. by apply (Hcur c'). }
  split; [|rewrite He; split_and!; done]. split_and!; [done..|]. rewrite He. intros ? [= <-] c' Hc'.
  apply (best_ext _ P); [|by apply Hbest]. intros e' Hin.
  assert (e' ∈ all cs) as Hin' by (apply elem_of_all; by exists c').
  rewrite (from_cases d (all cs)) by done. split.
  - intros HPe'. destruct (Hall e' Hin' HPe') as [->|?]; [by left|by right].
  - intros [<-|Hlt]; [done|]. by apply (HP e).
Qed.

(** The same, for children that an operation has moved. *)
Lemma merge_moves d it f P :
  merge_ok it -> (forall a b, a ∈ all (children_ it) -> b ∈ all (children_ it) -> P a -> kd d a b -> P b) ->
  (forall i c, children_ it !! i = Some c ->
     iter_ok (f i c) /\ content (f i c) = content c /\ best (kd d) P (content c) (cur (f i c))) ->
  let it' := mkMerging (imap f (children_ it)) (find d (imap f (children_ it))) d in
  merge_ok it' /\ all (children_ it') = all (children_ it) /\ best (kd d) P (all (children_ it)) (merge_cur it').
Proof.
  intros (Hok & Hk & _) HP Hf. cbn zeta. set (cs' := imap f (children_ it)).
  assert (Hnew : forall c', c' ∈ cs' -> exists i c, children_ it !! i = Some c /\ c' = f i c).
  { intros c' [i Hi]%list_elem_of_lookup. unfold cs' in Hi. rewrite list_lookup_imap, fmap_Some in Hi.
    destruct Hi as (c & Hc & ->). by exists i, c. }
  assert (Hall : all cs' = all (children_ it)).
  { unfold all. f_equal. apply list_eq. intros i. unfold cs'. rewrite !list_lookup_fmap, list_lookup_imap.
    destruct (children_ it !! i) as [c|] eqn:E; [|done]. simpl. f_equal. by apply (Hf i c). }
  destruct (merge_lands d cs' P) as [H1 H2].
  - apply List.Forall_forall. intros c' Hc'%list_elem_of_In. destruct (Hnew c' Hc') as (i & c & Hc & ->). by apply Hf.
  - by rewrite Hall.
  - by rewrite Hall.
  - intros c' Hc'. destruct (Hnew c' Hc') as (i & c & Hc & ->). destruct (Hf i c Hc) as (_ & -> & Hb). done.
  - rewrite Hall in H2. done.
Qed.

Lemma fmap_imap (f : I -> I) (cs : list I) : f <$> cs = imap (fun _ => f) cs.
Proof. apply list_eq. intros i. rewrite list_lookup_fmap, list_lookup_imap. done. Qed.

Lemma alter_others (g f : I -> I) i cs :
  alter g i (others f i cs) = imap (fun j c => if (j =? i)%nat then g c else f c) cs.
Proof.
  apply list_eq. intros j. unfold others. rewrite list_lookup_imap. destruct (Nat.eqb_spec j i) as [->|Hn].
  - rewrite list_lookup_alter_eq, list_lookup_imap, Nat.eqb_refl. by destruct (cs !! i).
  - rewrite list_lookup_alter_ne, list_lookup_imap by done. rewrite (proj2 (Nat.eqb_neq _ _)) by done. done.
Qed.

Lemma others_id i (cs : list I) : cs = others (fun c => c) i cs.
Proof.
  apply list_eq. intros j. unfold others. rewrite list_lookup_imap. by destruct (cs !! j); simpl; [case_match|].
Qed.

(** A child that does not hold the current entry [e], in the three cases of a step. *)
Section Other.
Context (e : entry) (c : I) (Hc : iter_ok c) (He : dom e.1) (Hne : forall e', e' ∈ content c -> e'.1 <> e.1).

Lemma other_cmp e' : e' ∈ content c -> dom e'.1 /\ cmp e.1 e'.1 <> Eq /\ cmp e'.1 e.1 = CompOpp (cmp e.1 e'.1).
Proof using All.
  intros Hin. assert (dom e'.1) as Hd by (apply (keys_dom (content c)); [by apply content_ok|done]).
  split_and!; [done| |by apply cmp_antisym]. intros E%cmp_eq; [|done..]. by apply (Hne e').
Qed.

Lemma other_same d : best (kd d) (from d e) (content c) (cur c) -> best (kd d) (kd d e) (content c) (cur c).
Proof using All.
  apply best_ext. intros e' Hin. destruct (other_cmp e' Hin) as (_ & Hn & _). unfold from, kd.
  destruct (cmp e.1 e'.1), d; simpl; naive_solver.
Qed.

Lemma other_after : iter_ok (after_key e.1 c) /\ content (after_key e.1 c) = content c
  /\ best (kd kForward) (kd kForward e) (content c) (cur (after_key e.1 c)).
Proof using All.
  destruct (Seek_best c e.1 Hc He) as (Ho & Hco & Hb). unfold after_key.
  assert (best (kd kForward) (kd kForward e) (content c) (cur (Seek c e.1))) as Hb'.
  { eapply best_ext; [|exact Hb]. intros e' Hin. destruct (other_cmp e' Hin) as (_ & Hn & ->). unfold kd. simpl.
    destruct (cmp e.1 e'.1); simpl; naive_solver. }
  destruct (cur (Seek c e.1)) as [x|] eqn:Ex; [|by rewrite Ex].
  destruct (other_cmp x) as (_ & Hn & _); [apply Hb|]. destruct (cmp e.1 x.1); rewrite ?Ex; done.
Qed.

Lemma other_before : iter_ok (before_key e.1 c) /\ content (before_key e.1 c) = content c
  /\ best (kd kReverse) (kd kReverse e) (content c) (cur (before_key e.1 c)).
Proof using All.
  destruct (Seek_best c e.1 Hc He) as (Ho & Hco & Hb). unfold before_key.
  destruct (cur (Seek c e.1)) as [x|] eqn:Ex.
  - destruct (Prev_best _ x Ho Ex) as (Ho' & -> & Hb'). rewrite Hco in *. split_and!; [done..|].
    eapply best_ext; [|exact Hb']. intros e' Hin. destruct (other_cmp e' Hin) as (Hd & Hn & Ha).
    destruct Hb as (Hx & Hxe & Hmin). destruct (other_cmp x Hx) as (Hdx & Hnx & Hax). simpl.
    unfold kd, kgt, dir_cmp. split.
    + intros Hgt. destruct (cmp e.1 e'.1) eqn:E; [done| |done].
      destruct (Hmin e' Hin) as [->|Hlt]; [simpl; by rewrite Ha|..].
      * by rewrite cmp_refl in Hgt.
      * unfold klt in Hlt. congruence.
    + intros Hgt. apply (kgt_trans x e e'); [done..| |done]. unfold kgt. simpl in Hxe. rewrite Hax in *.
      by destruct (cmp e.1 x.1).
  - destruct (SeekToLast_best _ Ho) as (Ho' & -> & Hb'). rewrite Hco in *. split_and!; [done..|].
    eapply best_ext; [|exact Hb']. intros e' Hin. destruct (other_cmp e' Hin) as (Hd & Hn & Ha).
    split; [intros _|done]. specialize (Hb e' Hin). simpl in Hb. rewrite Ha in Hb. unfold kd. simpl.
    by destruct (cmp e.1 e'.1); [| |]; naive_solver.
Qed.

End Other.

(** The current child takes a step and the others are moved by [f]. *)
Lemma merge_step d it i e step f : merge_ok it -> current_ it = Some i -> merge_cur it = Some e ->
  (forall c, iter_ok c -> cur c = Some e -> iter_ok (step c) /\ content (step c) = content c
     /\ best (kd d) (kd d e) (content c) (cur (step c))) ->
  (forall c, c ∈ children_ it -> iter_ok c -> dom e.1 -> (forall e', e' ∈ content c -> e'.1 <> e.1) ->
     iter_ok (f c) /\ content (f c) = content c /\ best (kd d) (kd d e) (content c) (cur (f c))) ->
  let cs := alter step i (others f i (children_ it)) in
  let it' := mkMerging cs (find d cs) d in
  merge_ok it' /\ all (children_ it') = all (children_ it) /\ best (kd d) (kd d e) (all (children_ it)) (merge_cur it').
Proof.
  intros Hm Hi He Hstep Hf. cbn zeta. rewrite alter_others. pose proof Hm as (Hok & Hk & _).
  unfold merge_cur in He. rewrite Hi in He. destruct (children_ it !! i) as [ci|] eqn:Eci; [|done].
  pose proof (Forall_elem _ _ _ Hok (list_elem_of_lookup_2 _ _ _ Eci)) as Hoci.
  pose proof (cur_content ci e Hoci He) as Hein.
  assert (dom e.1) as Hde by (apply (keys_dom (content ci)); [by apply content_ok|done]).
  apply (merge_moves d it (fun j c => if (j =? i)%nat then step c else f c) (kd d e)); [done|..].
  - intros a b Ha Hb. apply kd_trans; [done|by apply (keys_dom (all (children_ it)))..].
  - intros j c Hj. destruct (Nat.eqb_spec j i) as [->|Hn].
    + apply Hstep; congruence.
    + pose proof (list_elem_of_lookup_2 _ _ _ Hj) as Hjc. apply Hf; [done|by apply (Forall_elem _ _ _ Hok)|done|].
      intros e' Hin. by apply (all_disjoint (children_ it) j i c ci).
Qed.

Definition merge_content (it : MergingIterator) : list entry := all (children_ it).

(** What an operation of the interface promises. *)
Definition merge_to (d : Direction) (P : entry -> Prop) (it it' : MergingIterator) : Prop :=
  merge_ok it' /\ merge_content it' = merge_content it /\ best (kd d) P (merge_content it) (merge_cur it').

Lemma merge_child it i c : merge_ok it -> children_ it !! i = Some c -> iter_ok c.
Proof. intros (Hok & _) Hc. apply (Forall_elem _ _ _ Hok). by eapply list_elem_of_lookup_2. Qed.

Lemma merge_SeekToFirst_best it : merge_ok it -> merge_to kForward (fun _ => True) it (merge_SeekToFirst it).
Proof.
  intros Hm. unfold merge_to, merge_SeekToFirst. rewrite fmap_imap.
  apply (merge_moves kForward it (fun _ => SeekToFirst)); [done..|]. intros i c Hc. apply SeekToFirst_best.
  by eapply merge_child.
Qed.

Lemma merge_SeekToLast_best it : merge_ok it -> merge_to kReverse (fun _ => True) it (merge_SeekToLast it).
Proof.
  intros Hm. unfold merge_to, merge_SeekToLast. rewrite fmap_imap.
  apply (merge_moves kReverse it (fun _ => SeekToLast)); [done..|]. intros i c Hc. apply SeekToLast_best.
  by eapply merge_child.
Qed.

Lemma merge_Seek_best it t : merge_ok it -> dom t -> merge_to kForward (fun e => cmp e.1 t <> Lt) it (merge_Seek it t).
Proof.
  intros Hm Ht. unfold merge_to, merge_Seek. rewrite fmap_imap.
  apply (merge_moves kForward it (fun _ c => Seek c t)); [done| |].
  - destruct Hm as (_ & Hk & _). intros a b Ha Hb Hat Hab Hbt. apply Hat.
    apply (cmp_trans a.1 b.1 t); try done; by apply (keys_dom (all (children_ it))).
  - intros i c Hc. apply Seek_best; [by eapply merge_child|done].
Qed.

Lemma merge_cur_current it e : merge_cur it = Some e -> exists i, current_ it = Some i.
Proof. unfold merge_cur. destruct (current_ it) as [i|]; [by exists i|done]. Qed.

Lemma merge_Next_best it e : merge_ok it -> merge_cur it = Some e -> merge_to kForward (kd kForward e) it (merge_Next it).
Proof.
  intros Hm He. destruct (merge_cur_current it e He) as [i Hi]. unfold merge_to, merge_Next. rewrite Hi, He.
  destruct (direction_ it) eqn:Ed.
  - pose proof (merge_step kForward it i e Next (fun c => c) Hm Hi He) as Hs. cbn zeta in Hs.
    rewrite <- others_id in Hs. apply Hs; clear Hs.
    + intros c. apply Next_best.
    + intros c Hc Hoc Hde Hne. split_and!; [done..|]. apply other_same; [done..|].
      destruct Hm as (_ & _ & Hm). rewrite Ed in Hm. by apply Hm.
  - apply (merge_step kForward it i e Next (after_key e.1)); try done.
    + intros c. apply Next_best.
    + intros c _. apply other_after.
Qed.

Lemma merge_Prev_best it e : merge_ok it -> merge_cur it = Some e -> merge_to kReverse (kd kReverse e) it (merge_Prev it).
Proof.
  intros Hm He. destruct (merge_cur_current it e He) as [i Hi]. unfold merge_to, merge_Prev. rewrite Hi, He.
  destruct (direction_ it) eqn:Ed.
  - apply (merge_step kReverse it i e Prev (before_key e.1)); try done.
    + intros c. apply Prev_best.
    + intros c _. apply other_before.
  - pose proof (merge_step kReverse it i e Prev (fun c => c) Hm Hi He) as Hs. cbn zeta in Hs.
    rewrite <- others_id in Hs. apply Hs; clear Hs.
    + intros c. apply Prev_best.
    + intros c Hc Hoc Hde Hne. split_and!; [done..|]. apply other_same; [done..|].
      destruct Hm as (_ & _ & Hm). rewrite Ed in Hm. by apply Hm.
Qed.

Lemma merge_content_ok it : merge_ok it -> keys_ok (merge_content it).
Proof. by intros (_ & Hk & _). Qed.

Lemma merge_cur_content it e : merge_ok it -> merge_cur it = Some e -> e ∈ merge_content it.
Proof.
  intros Hm He. unfold merge_cur in He. destruct (current_ it) as [i|]; [|done].
  destruct (children_ it !! i) as [c|] eqn:Ec; [|done]. apply elem_of_all. exists c.
  split; [by eapply list_elem_of_lookup_2|]. apply cur_content; [by eapply merge_child|done].
Qed.

#[export] Instance merging_iterator : Iterator MergingIterator := {
  content := merge_content;
  iter_ok := merge_ok;
  cur := merge_cur;
  SeekToFirst := merge_SeekToFirst;
  SeekToLast := merge_SeekToLast;
  Seek := merge_Seek;
  Next := merge_Next;
  Prev := merge_Prev;
  content_ok := merge_content_ok;
  cur_content := merge_cur_content;
  SeekToFirst_best := merge_SeekToFirst_best;
  SeekToLast_best := merge_SeekToLast_best;
  Seek_best := merge_Seek_best;
  Next_best := merge_Next_best;
  Prev_best := merge_Prev_best }.

(** [NewMergingIterator]: one child is taken as it is; no child merges to nothing, as the
    empty iterator does. *)
Inductive merged := Single (it : I) | Several (it : MergingIterator).
Definition NewMergingIterator (cs : list I) : merged :=
  match cs with
  | [it] => Single it
  | _ => Several (mkMerging cs None kForward)
  end.

Definition merged_map (f : I -> I) (g : MergingIterator -> MergingIterator) (it : merged) : merged :=
  match it with Single it => Single (f it) | Several it => Several (g it) end.
Definition merged_case {A} (f : I -> A) (g : MergingIterator -> A) (it : merged) : A :=
  match it with Single it => f it | Several it => g it end.

#[export] Program Instance merged_iterator : Iterator merged := {
  content := merged_case content content;
  iter_ok := merged_case iter_ok iter_ok;
  cur := merged_case cur cur;
  SeekToFirst := merged_map SeekToFirst SeekToFirst;
  SeekToLast := merged_map SeekToLast SeekToLast;
  Seek it t := merged_map (fun it => Seek it t) (fun it => Seek it t) it;
  Next := merged_map Next Next;
  Prev := merged_map Prev Prev }.
Next Obligation. intros [it|it]; apply content_ok. Qed.
Next Obligation. intros [it|it]; apply cur_content. Qed.
Next Obligation. intros [it|it]; apply SeekToFirst_best. Qed.
Next Obligation. intros [it|it]; apply SeekToLast_best. Qed.
Next Obligation. intros [it|it]; apply Seek_best. Qed.
Next Obligation. intros [it|it]; apply Next_best. Qed.
Next Obligation. intros [it|it]; apply Prev_best. Qed.

(** A new iterator is not positioned. *)
Lemma NewMergingIterator_ok cs : Forall iter_ok cs -> keys_ok (all cs) ->
  iter_ok (NewMergingIterator cs) /\ content (NewMergingIterator cs) = all cs.
Proof.
  intros Hok Hk. assert (merge_ok (mkMerging cs None kForward)) by (by split_and!; [..|intros]).
  destruct cs as [|c [|c' cs]]; [done| |done]. cbn [NewMergingIterator]. split; [by apply Forall_cons_1 in Hok as [? _]|].
  unfold all. simpl. by rewrite app_nil_r.
Qed.

End Merging.

(** ** Iterators over the same entries agree *)

Inductive iter_call := CallFirst | CallLast | CallSeek (target : list Z) | CallNext | CallPrev.

Section Agree.
Context `{!KeyOrder}.

(** [Next] and [Prev] are for a positioned iterator only. *)
Definition call {I} `{!Iterator I} (it : I) (c : iter_call) : I :=
  match c with
  | CallFirst => SeekToFirst it
  | CallLast => SeekToLast it
  | CallSeek t => Seek it t
  | CallNext => match cur it with Some _ => Next it | None => it end
  | CallPrev => match cur it with Some _ => Prev it | None => it end
  end.
Definition call_ok (c : iter_call) : Prop := match c with CallSeek t => dom t | _ => True end.

Lemma calls_keep {I} `{!Iterator I} (it : I) cs : iter_ok it -> Forall call_ok cs ->
  iter_ok (foldl call it cs) /\ content (foldl call it cs) = content it.
Proof.
  intros Hok Hcs. revert it Hok. induction Hcs as [|c cs Hc Hcs IH]; intros it Hok; [done|]. simpl.
  assert (iter_ok (call it c) /\ content (call it c) = content it) as [Hok' Hco].
  { destruct c as [| |t| |]; cbn [call].
    - by destruct (SeekToFirst_best it Hok) as (? & ? & _).
    - by destruct (SeekToLast_best it Hok) as (? & ? & _).
    - by destruct (Seek_best it t Hok Hc) as (? & ? & _).
    - destruct (cur it) as [e|] eqn:E; [|done]. by destruct (Next_best it e Hok E) as (? & ? & _).
    - destruct (cur it) as [e|] eqn:E; [|done]. by destruct (Prev_best it e Hok E) as (? & ? & _). }
  rewrite <- Hco. by apply IH.
Qed.

Lemma best_unique d P l l' o o' : keys_ok l -> (forall e, e ∈ l <-> e ∈ l') ->
  best (kd d) P l o -> best (kd d) P l' o' -> o = o'.
Proof.
  intros Hk Hl. destruct o as [e|], o' as [e'|]; simpl; [|intros (He & HP & _) Hn|intros Hn (He & HP & _)|done].
  - intros (He & HP & Hm) (He' & HP' & Hm'). f_equal.
    destruct (Hm e' (proj2 (Hl e') He') HP') as [->|H1]; [done|]. destruct (Hm' e (proj1 (Hl e) He) HP) as [->|H2]; [done|].
    assert (dom e.1 /\ dom e'.1) as [Hd Hd'] by (split; apply (keys_dom l); naive_solver).
    destruct (kd_irrefl d e Hd). by apply (kd_trans d e e' e).
  - destruct (Hn e); [by apply Hl|done].
  - destruct (Hn e'); [by apply Hl|done].
Qed.

Section Two.
Context {I J : Type} `{!Iterator I} `{!Iterator J}.

(** Two iterators that range over the same entries and stand at the same one. *)
Definition agree (a : I) (b : J) : Prop :=
  iter_ok a /\ iter_ok b /\ (forall e, e ∈ content a <-> e ∈ content b) /\ cur a = cur b.

Lemma call_agree a b c : agree a b -> call_ok c -> agree (call a c) (call b c).
Proof.
  intros (Ha & Hb & Hc & He) Hok. pose proof (content_ok a Ha) as Hk.
  assert (Hstep : forall d P (a' : I) (b' : J),
    (iter_ok a' /\ content a' = content a /\ best (kd d) P (content a) (cur a')) ->
    (iter_ok b' /\ content b' = content b /\ best (kd d) P (content b) (cur b')) -> agree a' b').
  { intros d P a' b' (H1 & H2 & H3) (H4 & H5 & H6). split_and!; [done..| |].
    - by rewrite H2, H5.
    - by apply (best_unique d P (content a) (content b)). }
  destruct c as [| |t| |]; cbn [call].
  - apply (Hstep kForward (fun _ => True)); by apply SeekToFirst_best.
  - apply (Hstep kReverse (fun _ => True)); by apply SeekToLast_best.
  - apply (Hstep kForward (fun e => cmp e.1 t <> Lt)); by apply Seek_best.
  - rewrite <- He. destruct (cur a) as [e|] eqn:E; [|by split_and!; try congruence].
    apply (Hstep kForward (kd kForward e)); apply Next_best; congruence.
  - rewrite <- He. destruct (cur a) as [e|] eqn:E; [|by split_and!; try congruence].
    apply (Hstep kReverse (kd kReverse e)); apply Prev_best; congruence.
Qed.

Lemma calls_agree a b cs : agree a b -> Forall call_ok cs -> agree (foldl call a cs) (foldl call b cs).
Proof.
  intros Hab Hcs. revert a b Hab. induction Hcs as [|c cs Hc Hcs IH]; intros a b Hab; [done|].
  simpl. apply IH. by apply call_agree.
Qed.

End Two.
End Agree.

(** ** Memtables *)

Section Memtables.
#[local] Existing Instance internal_order.

(** [MemTable::NewIterator]. *)
Definition NewIterator (mem : list TableKey) : MemTableIterator := mkMemIter mem None.

#[global] Instance keys_ok_perm : Proper ((≡ₚ) ==> iff) keys_ok.
Proof. intros a b E. unfold keys_ok. by rewrite E. Qed.

Lemma NewIterator_ok es : Forall entry_ok es -> distinct es ->
  iter_ok (NewIterator (adds es)) /\ content (NewIterator (adds es)) ≡ₚ e_view <$> es.
Proof.
  intros Hok Hd. destruct (adds_sorted es Hok Hd) as (l & Hl & Hp & Hs).
  assert (mem_ok_at (NewIterator (adds es)) l) as H by (split; [by rewrite Hp|done..]).
  split; [by exists l|]. simpl. rewrite (mem_content_view _ _ H). by apply fmap_Permutation.
Qed.

Lemma distinct_app a b : distinct (a ++ b) -> distinct a /\ distinct b.
Proof. unfold distinct. rewrite fmap_app. by intros (? & _ & ?)%NoDup_app. Qed.

Lemma NewIterators_ok ess : Forall entry_ok (mjoin ess) -> distinct (mjoin ess) ->
  Forall iter_ok ((fun es => NewIterator (adds es)) <$> ess)
  /\ all ((fun es => NewIterator (adds es)) <$> ess) ≡ₚ e_view <$> mjoin ess.
Proof.
  induction ess as [|es ess IH]; intros Hok Hd; [done|]. cbn [mjoin list_join] in Hok, Hd.
  change (Forall entry_ok (es ++ mjoin ess)) in Hok. change (distinct (es ++ mjoin ess)) in Hd.
  apply Forall_app in Hok as [H1 H2]. apply distinct_app in Hd as [H3 H4].
  destruct (NewIterator_ok es H1 H3) as [Ho Hc]. destruct (IH H2 H4) as [IH1 IH2].
  split; [by constructor|]. change (mjoin (es :: ess)) with (es ++ mjoin ess). rewrite fmap_app, <- IH2, <- Hc. done.
Qed.

(** Merging is invisible: the iterator over several memtables answers every sequence
    of calls - seeks, steps forwards and backwards and changes of direction - as the
    iterator of one memtable that holds all their entries. *)
Theorem merging_memtables (ess : list (list ientry)) (calls : list iter_call) :
  Forall entry_ok (mjoin ess) -> distinct (mjoin ess) -> Forall call_ok calls ->
  cur (foldl call (NewMergingIterator ((fun es => NewIterator (adds es)) <$> ess)) calls)
  = cur (foldl call (NewIterator (adds (mjoin ess))) calls).
Proof.
  intros Hok Hd Hcs. destruct (NewIterator_ok _ Hok Hd) as [Ho1 Hc1]. destruct (NewIterators_ok ess Hok Hd) as [Ho2 Hc2].
  destruct (NewMergingIterator_ok ((fun es => NewIterator (adds es)) <$> ess)) as [Ho3 Hc3]; [done|..].
  { rewrite Hc2, <- Hc1. by apply content_ok. }
  apply calls_agree; [|done]. split_and!; [done..| |].
  - intros e. rewrite Hc3, Hc2, Hc1. done.
  - by destruct ess as [|es [|es' ess]].
Qed.

Definition sample_memtables : list (list ientry) :=
  [[mkEntry [97] 1 kTypeValue [49]; mkEntry [99] 2 kTypeValue [50]]; [mkEntry [98] 3 kTypeValue [51]]].

Lemma merging_memtables_witness :
  cur (foldl call (NewMergingIterator ((fun es => NewIterator (adds es)) <$> sample_memtables))
        [CallSeek (ikey (mkEntry [98] 9 kTypeValue [])); CallNext; CallPrev; CallPrev])
  = Some (ikey (mkEntry [97] 1 kTypeValue []), [49]).
Proof.
  rewrite (merging_memtables sample_memtables); [vm_compute; reflexivity|..].
  - repeat constructor; try (vm_compute; congruence); (by left) || (by right).
  - apply (bool_decide_unpack (NoDup (e_seq <$> mjoin sample_memtables))). vm_compute. exact I.
  - repeat constructor. exists (mkEntry [98] 9 kTypeValue []). split; [|reflexivity].
    repeat constructor; try (vm_compute; congruence); (by left) || (by right).
Defined.

End Memtables.
