(* ===== verification/LdbDbIter.v ===== *)
(** * leveldb: the iterator of the database

    src/ext/leveldb/db/db_iter.cc: [DBIter] turns an iterator over internal keys, with all
    the versions of every key, into one over the keys of the user: of every key the
    newest version that is visible at the sequence number of the iterator, unless that
    version is a deletion.  It runs over any iterator that obeys the interface of
    [LdbIter], and obeys that interface itself, in both directions. *)

From Stdlib Require Import ZArith Lia.
From stdpp Require Import base list numbers option sorting.
From S2P Require Import Prelude WebappStr Session LdbCoding LdbMem LdbIter LdbMerge.
Open Scope Z_scope.
Open Scope webapp_scope.

(** ** Versions *)

(** The parts of the key of an entry. *)
Definition ukey (e : entry) : list Z := ExtractUserKey e.1.
Definition vtag (e : entry) : Z := default 0 (key_tag e.1).
Definition vseq (e : entry) : Z := Z.shiftr (vtag e) 8.
Definition vtype (e : entry) : Z := Z.land (vtag e) 0xff.

Lemma internal_parts e : internal e.1 ->
  ParseInternalKey e.1 = Some (mkParsed (ukey e) (vseq e) (vtype e))
  /\ (vtype e = kTypeDeletion \/ vtype e = kTypeValue) /\ vtag e = vseq e * 256 + vtype e /\ 0 <= vseq e < 2 ^ 56.
Proof.
  intros (x & Hx & E). destruct (pack_tag (e_seq x) (e_type x)) as (_ & Hr & Ht & Hs); [apply Hx..|].
  assert (Htag : key_tag e.1 = Some (e_tag x)) by (rewrite E; by apply key_tag_app).
  unfold vseq, vtype, vtag, ukey, ParseInternalKey. rewrite Htag. simpl. unfold e_tag. rewrite Ht, Hs.
  split_and!; [|apply Hx|done|apply Hx..].
  rewrite (proj2 (Nat.ltb_ge _ _)).
  - rewrite (proj2 (Z.leb_le _ _)); [done|]. destruct (ok_type x Hx) as [-> | ->]; done.
  - rewrite E. pose proof (length_ikey (e_key x) (e_tag x)). unfold ikey. lia.
Qed.

Lemma internal_user e : internal e.1 -> user_dom (ukey e).
Proof. intros (x & Hx & E). unfold ukey. rewrite E. unfold ikey. rewrite ExtractUserKey_app. split; apply Hx. Qed.

Abbreviation ilt := (@klt internal_order).
Abbreviation igt := (@kgt internal_order).

Lemma ilt_parts a b : internal a.1 -> internal b.1 ->
  ilt a b <-> key_lt (ukey a) (ukey b) \/ (ukey a = ukey b /\ vtag b < vtag a).
Proof.
  intros Ha Hb. unfold klt, key_lt, ukey, vtag. simpl. unfold InternalKey_Compare.
  assert (forall c, internal c -> exists t, key_tag c = Some t) as Ht.
  { intros c (x & Hx & ->). exists (e_tag x). by apply key_tag_app, e_tag_range. }
  destruct (Ht _ Ha) as [ta ->], (Ht _ Hb) as [tb ->]. simpl.
  destruct (Slice_compare (ExtractUserKey a.1) (ExtractUserKey b.1)) eqn:E.
  - apply Slice_compare_eq in E. rewrite Z.compare_lt_iff. naive_solver.
  - naive_solver.
  - split; [done|]. intros [?|[E' _]]; [done|]. rewrite E' in E. by rewrite (proj2 (Slice_compare_eq _ _) eq_refl) in E.
Qed.

Definition visible (s : Z) (e : entry) : bool := vseq e <=? s.

(** No visible version of the same key comes before [e]. *)
Definition first_version (s : Z) (c : list entry) (e : entry) : bool :=
  forallb (fun e' => negb (visible s e' && bool_decide (ukey e' = ukey e)) || negb (is_lt (InternalKey_Compare e'.1 e.1))) c.
(** The entries that a user at sequence number [s] sees. *)
Definition view (s : Z) (c : list entry) : list entry :=
  omap (fun e => if visible s e && (vtype e =? kTypeValue) && first_version s c e then Some (ukey e, e.2) else None) c.

(** [e] is the version of its key that counts at [s]. *)
Definition counts (s : Z) (c : list entry) (e : entry) : Prop :=
  e ∈ c /\ visible s e = true /\ forall e', e' ∈ c -> visible s e' = true -> ukey e' = ukey e -> ~ ilt e' e.

Lemma first_version_iff s c e :
  first_version s c e = true <-> forall e', e' ∈ c -> visible s e' = true -> ukey e' = ukey e -> ~ ilt e' e.
Proof.
  unfold first_version. rewrite forallb_forall. setoid_rewrite <- list_elem_of_In. unfold klt. simpl. split; intros H e' He'.
  - specialize (H e' He'). intros Hv E. rewrite Hv, bool_decide_true in H by done. simpl in H.
    destruct (InternalKey_Compare e'.1 e.1); done.
  - specialize (H e' He'). destruct (visible s e'); [|done]. case_bool_decide; [|done]. simpl.
    destruct (InternalKey_Compare e'.1 e.1); [done|by destruct H|done].
Qed.

Lemma elem_of_view s c u :
  u ∈ view s c <-> exists e, counts s c e /\ vtype e = kTypeValue /\ u = (ukey e, e.2).
Proof.
  unfold view. rewrite list_elem_of_omap. unfold counts. split.
  - intros (e & He & Hu). destruct (visible s e && (vtype e =? kTypeValue) && first_version s c e) eqn:E; [|done].
    injection Hu as <-. apply andb_true_iff in E as [[Hv Ht%Z.eqb_eq]%andb_true_iff Hf].
    exists e. split; [|done]. by split_and!; [..|apply first_version_iff].
  - intros (e & (He & Hv & Hf) & Ht%Z.eqb_eq & ->). exists e. split; [done|].
    by rewrite Hv, Ht, (proj2 (first_version_iff s c e) Hf).
Qed.

Section Versions.
Context (s : Z) (c : list entry) (Hc : @keys_ok internal_order c).

Lemma c_internal e : e ∈ c -> internal e.1.
Proof using Hc. apply (@keys_dom internal_order c e Hc). Qed.

Lemma c_cases a b : a ∈ c -> b ∈ c -> a = b \/ ilt a b \/ ilt b a.
Proof using Hc.
  intros Ha Hb. destruct (@cmp_cases internal_order c a b Hc Ha Hb) as [?|[?|H]]; [by left|by right; left|].
  right; right. apply (@klt_kgt internal_order); [by apply c_internal..|done].
Qed.

Lemma ilt_ukey a b : a ∈ c -> b ∈ c -> ilt a b -> ukey a = ukey b \/ key_lt (ukey a) (ukey b).
Proof using Hc. intros Ha Hb H%ilt_parts; [|by apply c_internal..]. naive_solver. Qed.

Lemma ukey_ilt a b : a ∈ c -> b ∈ c -> key_lt (ukey a) (ukey b) -> ilt a b.
Proof using Hc. intros Ha Hb H. apply ilt_parts; [by apply c_internal..|by left]. Qed.

Lemma counts_unique a b : counts s c a -> counts s c b -> ukey a = ukey b -> a = b.
Proof using Hc.
  intros (Ha & Hva & Hfa) (Hb & Hvb & Hfb) E. destruct (c_cases a b Ha Hb) as [?|[H|H]]; [done|..].
  - by destruct (Hfb a Ha Hva E).
  - by destruct (Hfa b Hb Hvb (eq_sym E)).
Qed.

Lemma view_keys_ok : keys_ok (view s c).
Proof using Hc.
  split.
  2:{ apply Forall_fmap, List.Forall_forall. intros u (e & (He & _) & _ & ->)%list_elem_of_In%elem_of_view.
      apply internal_user, c_internal, He. }
  unfold view. destruct Hc as [Hn _].
  assert (forall l, (forall e, e ∈ l -> e ∈ c) -> NoDup l.*1 ->
    NoDup (omap (fun e => if visible s e && (vtype e =? kTypeValue) && first_version s c e then Some (ukey e, e.2) else None) l).*1)
    as Hgen; [|by apply Hgen].
  induction l as [|e l IH]; intros Hsub Hnd; [constructor|]. rewrite fmap_cons, NoDup_cons in Hnd.
  destruct Hnd as [Hne Hnd]. cbn [omap list_omap].
  assert (Hl : forall e', e' ∈ l -> e' ∈ c) by (intros; apply Hsub; by right).
  destruct (visible s e && (vtype e =? kTypeValue) && first_version s c e) eqn:E; [|by apply IH].
  rewrite fmap_cons. apply NoDup_cons. split; [|by apply IH].
  intros (u & Hu & (e' & He' & Hx)%list_elem_of_omap)%list_elem_of_fmap. simpl in Hu.
  destruct (visible s e' && (vtype e' =? kTypeValue) && first_version s c e') eqn:E'; [|done]. injection Hx as <-. simpl in Hu.
  apply andb_true_iff in E as [[Hv _]%andb_true_iff Hf]. apply andb_true_iff in E' as [[Hv' _]%andb_true_iff Hf'].
  assert (e = e') as <-.
  { apply counts_unique; [split_and!; [apply Hsub; left|done|by apply first_version_iff]
      |split_and!; [by apply Hl|done|by apply first_version_iff]|done]. }
  apply Hne. by apply list_elem_of_fmap_2.
Qed.

End Versions.

(** ** The order of the user's keys *)

Definition key_le (a b : list Z) : Prop := Slice_compare a b <> Gt.

#[global] Instance key_le_dec a b : Decision (key_le a b).
Proof. unfold key_le. apply _. Defined.

Lemma key_le_cases a b : key_le a b <-> a = b \/ key_lt a b.
Proof.
  unfold key_le, key_lt. rewrite <- Slice_compare_eq. destruct (Slice_compare a b); naive_solver.
Qed.

Lemma key_le_refl a : key_le a a.
Proof. apply key_le_cases. by left. Qed.

Lemma key_lt_le a b : key_lt a b <-> ~ key_le b a.
Proof. unfold key_lt, key_le. rewrite (Slice_compare_antisym a b). destruct (Slice_compare a b); simpl; naive_solver. Qed.

Lemma key_le_trans a b c : key_le a b -> key_le b c -> key_le a c.
Proof.
  rewrite !key_le_cases. intros [->|Hab] [->|Hbc]; [by left|by right|by right|]. right. by apply (key_lt_trans a b).
Qed.

Lemma key_le_antisym a b : key_le a b -> key_le b a -> a = b.
Proof. intros [?|H]%key_le_cases H'; [done|]. by apply key_lt_le in H. Qed.

Lemma ilt_le c a b : @keys_ok internal_order c -> a ∈ c -> b ∈ c -> ilt a b -> key_le (ukey a) (ukey b).
Proof. intros Hc Ha Hb H. apply key_le_cases. by apply (ilt_ukey c). Qed.

Lemma ilt_trans c x y z : @keys_ok internal_order c -> x ∈ c -> y ∈ c -> z ∈ c -> ilt x y -> ilt y z -> ilt x z.
Proof. intros Hc Hx Hy Hz. apply (@klt_trans internal_order); by apply (c_internal c). Qed.

Lemma ilt_irrefl c x : @keys_ok internal_order c -> x ∈ c -> ~ ilt x x.
Proof. intros Hc Hx. apply (@klt_irrefl internal_order). by apply (c_internal c). Qed.

Lemma igt_ilt c x y : @keys_ok internal_order c -> x ∈ c -> y ∈ c -> igt x y <-> ilt y x.
Proof. intros Hc Hx Hy. symmetry. apply (@klt_kgt internal_order); by apply (c_internal c). Qed.

(** ** The iterator *)

Section DBIter.
Context {I : Type} {internal_iterator : @Iterator internal_order I}.

Abbreviation icur := (@cur internal_order I internal_iterator).
Abbreviation icontent := (@content internal_order I internal_iterator).
Abbreviation iok := (@iter_ok internal_order I internal_iterator).
Abbreviation iNext := (@Next internal_order I internal_iterator).
Abbreviation iPrev := (@Prev internal_order I internal_iterator).
Abbreviation iSeek := (@Seek internal_order I internal_iterator).
Abbreviation iSeekToFirst := (@SeekToFirst internal_order I internal_iterator).
Abbreviation iSeekToLast := (@SeekToLast internal_order I internal_iterator).

(** [status_]: whether a key could not be parsed. *)
Record DBIter := mkDBIter {
  iter_ : I;
  sequence_ : Z;
  corrupted_ : bool;
  saved_key_ : list Z;
  saved_value_ : list Z;
  direction : Direction;
  valid_ : bool }.

Definition set_iter (db : DBIter) (it : I) : DBIter :=
  mkDBIter it (sequence_ db) (corrupted_ db) (saved_key_ db) (saved_value_ db) (direction db) (valid_ db).
Definition set_saved (db : DBIter) (key value : list Z) : DBIter :=
  mkDBIter (iter_ db) (sequence_ db) (corrupted_ db) key value (direction db) (valid_ db).
Definition set_direction (db : DBIter) (d : Direction) : DBIter :=
  mkDBIter (iter_ db) (sequence_ db) (corrupted_ db) (saved_key_ db) (saved_value_ db) d (valid_ db).
Definition set_valid (db : DBIter) (v : bool) : DBIter :=
  mkDBIter (iter_ db) (sequence_ db) (corrupted_ db) (saved_key_ db) (saved_value_ db) (direction db) v.
Definition set_corrupted (db : DBIter) : DBIter :=
  mkDBIter (iter_ db) (sequence_ db) true (saved_key_ db) (saved_value_ db) (direction db) (valid_ db).

Definition NewDBIterator (it : I) (s : Z) : DBIter := mkDBIter it s false [] [] kForward false.

Definition db_cur (db : DBIter) : option entry :=
  if valid_ db then
    match direction db with
    | kForward => match icur (iter_ db) with Some e => Some (ExtractUserKey e.1, e.2) | None => None end
    | kReverse => Some (saved_key_ db, saved_value_ db)
    end
  else None.

(** A round of [FindNextUserEntry] at entry [e]: the iterator stops there ([None]), or
    goes on with the new value of [skipping].  [skip] is [saved_key_] in every call. *)
Definition next_round (e : entry) (skipping : bool) (db : DBIter) : option bool * DBIter :=
  match ParseInternalKey e.1 with
  | None => (Some skipping, set_corrupted db)
  | Some k =>
      if sequence k <=? sequence_ db then
        if type k =? kTypeDeletion then (Some true, set_saved db (user_key k) (saved_value_ db))
        else if skipping && negb (is_gt (Slice_compare (user_key k) (saved_key_ db))) then (Some skipping, db)
        else (None, set_saved (set_valid db true) [] (saved_value_ db))
      else (Some skipping, db)
  end.
Fixpoint next_loop (fuel : nat) (skipping : bool) (db : DBIter) : DBIter :=
  match fuel with
  | O => db
  | S fuel =>
      match icur (iter_ db) with
      | None => set_valid (set_saved db [] (saved_value_ db)) false
      | Some e =>
          match next_round e skipping db with
          | (None, db) => db
          | (Some skipping, db) => next_loop fuel skipping (set_iter db (iNext (iter_ db)))
          end
      end
  end.
(** No entry is met twice. *)
Definition rounds (db : DBIter) : nat := S (length (icontent (iter_ db))).
Definition FindNextUserEntry (skipping : bool) (db : DBIter) : DBIter := next_loop (rounds db) skipping db.

(** A round of [FindPrevUserEntry]: it stops ([None]) or goes on with the new type. *)
Definition prev_round (e : entry) (value_type : Z) (db : DBIter) : option Z * DBIter :=
  match ParseInternalKey e.1 with
  | None => (Some value_type, set_corrupted db)
  | Some k =>
      if sequence k <=? sequence_ db then
        if negb (value_type =? kTypeDeletion) && is_lt (Slice_compare (user_key k) (saved_key_ db)) then (None, db)
        else if type k =? kTypeDeletion then (Some (type k), set_saved db [] [])
        else (Some (type k), set_saved db (ExtractUserKey e.1) e.2)
      else (Some value_type, db)
  end.
Fixpoint prev_loop (fuel : nat) (value_type : Z) (db : DBIter) : Z * DBIter :=
  match fuel with
  | O => (value_type, db)
  | S fuel =>
      match icur (iter_ db) with
      | None => (value_type, db)
      | Some e =>
          match prev_round e value_type db with
          | (None, db) => (value_type, db)
          | (Some value_type, db) => prev_loop fuel value_type (set_iter db (iPrev (iter_ db)))
          end
      end
  end.
Definition FindPrevUserEntry (db : DBIter) : DBIter :=
  let '(value_type, db) := prev_loop (rounds db) kTypeDeletion db in
  if value_type =? kTypeDeletion
  then set_direction (set_valid (set_saved db [] []) false) kForward
  else set_valid db true.

Definition db_Next (db : DBIter) : DBIter :=
  match direction db with
  | kReverse =>
      let db := set_direction db kForward in
      let it := match icur (iter_ db) with
                | None => iSeekToFirst (iter_ db)
                | Some _ => iNext (iter_ db)
                end in
      let db := set_iter db it in
      match icur it with
      | None => set_saved (set_valid db false) [] (saved_value_ db)
      | Some _ => FindNextUserEntry true db
      end
  | kForward =>
      match icur (iter_ db) with
      | None => db
      | Some e => FindNextUserEntry true (set_saved db (ExtractUserKey e.1) (saved_value_ db))
      end
  end.

(** The loop of [Prev] that leaves the entries of the current key; whether it found others. *)
Fixpoint back_loop (fuel : nat) (db : DBIter) : bool * DBIter :=
  match fuel with
  | O => (false, db)
  | S fuel =>
      let db := set_iter db (iPrev (iter_ db)) in
      match icur (iter_ db) with
      | None => (false, db)
      | Some e => if is_lt (Slice_compare (ExtractUserKey e.1) (saved_key_ db)) then (true, db) else back_loop fuel db
      end
  end.
Definition db_Prev (db : DBIter) : DBIter :=
  match direction db with
  | kForward =>
      match icur (iter_ db) with
      | None => db
      | Some e =>
          match back_loop (rounds db) (set_saved db (ExtractUserKey e.1) (saved_value_ db)) with
          | (false, db) => set_saved (set_valid db false) [] []
          | (true, db) => FindPrevUserEntry (set_direction db kReverse)
          end
      end
  | kReverse => FindPrevUserEntry db
  end.

Definition db_Seek (db : DBIter) (target : list Z) : DBIter :=
  let saved := AppendInternalKey [] (mkParsed target (sequence_ db) kValueTypeForSeek) in
  let db := set_saved (set_direction db kForward) saved [] in
  let db := set_iter db (iSeek (iter_ db) saved) in
  match icur (iter_ db) with
  | Some _ => FindNextUserEntry false db
  | None => set_valid db false
  end.
Definition db_SeekToFirst (db : DBIter) : DBIter :=
  let db := set_saved (set_direction db kForward) (saved_key_ db) [] in
  let db := set_iter db (iSeekToFirst (iter_ db)) in
  match icur (iter_ db) with
  | Some _ => FindNextUserEntry false db
  | None => set_valid db false
  end.
Definition db_SeekToLast (db : DBIter) : DBIter :=
  let db := set_saved (set_direction db kReverse) (saved_key_ db) [] in
  FindPrevUserEntry (set_iter db (iSeekToLast (iter_ db))).


(** ** Where the internal iterator stands *)

Abbreviation before := (@before internal_order I internal_iterator).
Abbreviation behind := (@behind internal_order I internal_iterator).
Abbreviation ahead := (@ahead internal_order I internal_iterator).
Abbreviation back := (@back internal_order I internal_iterator).

Lemma rounds_enough (db : DBIter) : (ahead (iter_ db) < rounds db)%nat /\ (back (iter_ db) < rounds db)%nat.
Proof.
  split; apply Nat.lt_succ_r; [apply ahead_length|apply back_length].
Qed.

(** ** Going forwards *)

Abbreviation cont db := (icontent (iter_ db)).
Abbreviation user_view db := (view (sequence_ db) (cont db)).

(** The versions before the position belong to keys that are done ([Dn]) or skipped. *)
Record next_inv (Dn : list Z -> Prop) (skipping : bool) (db : DBIter) : Prop := mkNextInv {
  ni_ok : iok (iter_ db);
  ni_before : forall e, e ∈ cont db -> visible (sequence_ db) e = true -> before (iter_ db) e ->
    Dn (ukey e) \/ (skipping = true /\ key_le (ukey e) (saved_key_ db));
  ni_skip : forall u, u ∈ user_view db -> skipping = true -> key_le u.1 (saved_key_ db) -> Dn u.1;
  ni_done : forall e, e ∈ cont db -> visible (sequence_ db) e = true -> ~ before (iter_ db) e ->
    Dn (ukey e) -> skipping = true /\ key_le (ukey e) (saved_key_ db);
  ni_saved : forall e, e ∈ cont db -> visible (sequence_ db) e = true -> ~ before (iter_ db) e ->
    skipping = true -> key_le (saved_key_ db) (ukey e) }.

Lemma not_before db p : iok (iter_ db) -> icur (iter_ db) = Some p -> ~ before (iter_ db) p /\ p ∈ cont db.
Proof.
  intros Hok Hp. pose proof (cur_content _ p Hok Hp) as Hpc. split; [|done]. unfold before. rewrite Hp.
  apply (ilt_irrefl (cont db)); [by apply content_ok|done].
Qed.

Lemma next_advance Dn skipping db p : next_inv Dn skipping db -> icur (iter_ db) = Some p ->
  (visible (sequence_ db) p = true -> Dn (ukey p) \/ (skipping = true /\ key_le (ukey p) (saved_key_ db))) ->
  next_inv Dn skipping (set_iter db (iNext (iter_ db))).
Proof.
  intros [Hok Ha Hb Hc Hd] Hp Hvp. destruct (Next_best _ p Hok Hp) as (Hok' & Hco & _).
  assert (Hbe : forall e, e ∈ cont db -> before (iNext (iter_ db)) e <-> before (iter_ db) e \/ e = p).
  { intros e He. rewrite (before_Next _ p) by done. unfold before. by rewrite Hp. }
  split; simpl; rewrite ?Hco; [done|..|done| |].
  - intros e He Hv [H| ->]%Hbe; [|by apply Hvp|done]. by apply Ha.
  - intros e He Hv Hn. apply Hc; [done..|]. intros H. apply Hn, Hbe; [done|by left].
  - intros e He Hv Hn. apply Hd; [done..|]. intros H. apply Hn, Hbe; [done|by left].
Qed.

Lemma next_deletion Dn skipping db p value : next_inv Dn skipping db -> icur (iter_ db) = Some p ->
  visible (sequence_ db) p = true -> vtype p = kTypeDeletion -> next_inv Dn true (set_saved db (ukey p) value).
Proof.
  intros [Hok Ha Hb Hc Hd] Hp Hv Ht. destruct (not_before db p Hok Hp) as [Hnp Hpc].
  pose proof (content_ok _ Hok) as Hk.
  split; unfold before; simpl; rewrite ?Hp; [done|..].
  - intros e He Hve Hlt. right. split; [done|]. by apply (ilt_le (cont db)).
  - intros u (e & (He & Hve & Hf) & Hte & ->)%elem_of_view _ Hle. simpl in *.
    destruct (c_cases _ Hk e p He Hpc) as [->|[Hlt|Hlt]].
    + rewrite Ht in Hte. done.
    + destruct (Ha e He Hve) as [?|[H1 H2]]; [unfold before; by rewrite Hp|done|]. apply (Hb (ukey e, e.2)); [|done..].
      apply elem_of_view. by exists e.
    + destruct (Hf p Hpc Hv); [|done]. apply key_le_antisym; [by apply (ilt_le (cont db))|done].
  - intros e He Hve Hn HDn. split; [done|]. destruct (Hc e He Hve) as [Hsk Hle]; [unfold before; by rewrite Hp|done|].
    apply (key_le_trans _ (saved_key_ db)); [done|]. by apply Hd.
  - intros e He Hve Hn _. destruct (c_cases _ Hk e p He Hpc) as [->|[Hlt|Hlt]]; [apply key_le_refl|done|].
    by apply (ilt_le (cont db)).
Qed.

(** An entry that is neither hidden nor a deletion is the next one of the user. *)
Lemma next_found Dn skipping db p : next_inv Dn skipping db -> icur (iter_ db) = Some p ->
  visible (sequence_ db) p = true -> vtype p = kTypeValue ->
  ~ (skipping = true /\ key_le (ukey p) (saved_key_ db)) ->
  counts (sequence_ db) (cont db) p /\ best klt (fun u => ~ Dn u.1) (user_view db) (Some (ukey p, p.2)).
Proof.
  intros [Hok Ha Hb Hc Hd] Hp Hv Ht Hns. destruct (not_before db p Hok Hp) as [Hnp Hpc].
  pose proof (content_ok _ Hok) as Hk.
  assert (counts (sequence_ db) (cont db) p) as Hcp.
  { split_and!; [done..|]. intros e He Hve E Hlt. destruct (Ha e He Hve) as [HDn|?]; [unfold before; by rewrite Hp|..].
    - rewrite E in HDn. destruct Hns. by apply Hc.
    - destruct Hns. by rewrite <- E. }
  split; [done|]. simpl. split_and!.
  - apply elem_of_view. by exists p.
  - intros HDn. destruct Hns. by apply Hc.
  - intros u Hu HDn. pose proof Hu as (e & Hce & Hte & ->)%elem_of_view. simpl in *. pose proof Hce as (He & Hve & Hf).
    destruct (c_cases _ Hk e p He Hpc) as [->|[Hlt|Hlt]]; [by left|..].
    + destruct HDn. destruct (Ha e He Hve) as [?|[? ?]]; [unfold before; by rewrite Hp|done|]. by apply (Hb (ukey e, e.2)).
    + destruct (ilt_ukey _ Hk p e Hpc He Hlt) as [E|?]; [|by right]. left. by rewrite (counts_unique _ _ Hk e p Hce Hcp).
Qed.

Lemma user_next_none Dn skipping db : next_inv Dn skipping db -> icur (iter_ db) = None ->
  best klt (fun u => ~ Dn u.1) (user_view db) None.
Proof.
  intros [Hok Ha Hb Hc Hd] Hp u Hu HDn. apply HDn. pose proof Hu as (e & (He & Hve & _) & _ & ->)%elem_of_view. simpl in *.
  destruct (Ha e He Hve) as [?|[? ?]]; [unfold before; by rewrite Hp|done|]. by apply (Hb (ukey e, e.2)).
Qed.

(** The current entry is a version that counts; backwards it is saved, and the internal
    iterator stands just before its versions. *)
Record db_ok (db : DBIter) : Prop := mkDbOk {
  do_ok : iok (iter_ db);
  do_seq : 0 <= sequence_ db < 2 ^ 56;
  do_state : valid_ db = true ->
    match direction db with
    | kForward => exists e, icur (iter_ db) = Some e /\ counts (sequence_ db) (cont db) e /\ vtype e = kTypeValue
    | kReverse => (saved_key_ db, saved_value_ db) ∈ user_view db
        /\ forall e, e ∈ cont db -> visible (sequence_ db) e = true ->
             behind (iter_ db) e <-> key_le (saved_key_ db) (ukey e)
    end }.

(** An operation leads from [db] to [db'], which is at the best entry of the user's view. *)
Definition db_to (d : Direction) (P : entry -> Prop) (db db' : DBIter) : Prop :=
  db_ok db' /\ user_view db' = user_view db /\ cont db' = cont db /\ sequence_ db' = sequence_ db
  /\ best (kd d) P (user_view db) (db_cur db').

Lemma next_loop_to fuel Dn skipping db : next_inv Dn skipping db -> direction db = kForward ->
  0 <= sequence_ db < 2 ^ 56 -> (ahead (iter_ db) < fuel)%nat ->
  db_to kForward (fun u => ~ Dn u.1) db (next_loop fuel skipping db).
Proof.
  revert skipping db. induction fuel as [|fuel IH]; intros skipping db Hinv Hdir Hseq Hf; [lia|]. cbn [next_loop].
  pose proof (ni_ok _ _ _ Hinv) as Hok. destruct (icur (iter_ db)) as [e|] eqn:He.
  2:{ split_and!; [by split|done..|]. unfold db_cur. simpl. by apply (user_next_none Dn skipping). }
  destruct (Next_best _ e Hok He) as (_ & Hco & _). pose proof (ahead_Next _ e Hok He) as Hah.
  assert (Hgo : forall skipping' db', iter_ db' = iter_ db -> sequence_ db' = sequence_ db -> direction db' = kForward ->
    next_inv Dn skipping' (set_iter db' (iNext (iter_ db'))) ->
    db_to kForward (fun u => ~ Dn u.1) db (next_loop fuel skipping' (set_iter db' (iNext (iter_ db'))))).
  { intros sk db' E1 E2 E3 Hi. destruct (IH sk _ Hi) as (H1 & H2 & H3 & H4 & H5); [done|simpl; by rewrite E2|simpl; rewrite E1; lia|].
    simpl in *. rewrite E1, E2, Hco in *. by split_and!. }
  pose proof (cur_content _ e Hok He) as Hec.
  destruct (internal_parts e) as (Hpar & Hty & _); [by apply (c_internal (cont db)); [apply content_ok|]|].
  unfold next_round. rewrite Hpar. cbn [user_key sequence type]. fold (visible (sequence_ db) e).
  destruct (visible (sequence_ db) e) eqn:Hv; [|apply Hgo; [done..|]; by apply (next_advance _ _ _ e); [..|congruence]].
  destruct Hty as [Hty|Hty]; rewrite Hty; simpl.
  - apply (Hgo true (set_saved db (ukey e) (saved_value_ db))); [done..|].
    apply (next_advance _ _ _ e); [by apply (next_deletion _ skipping)|done|].
    intros _. right. split; [done|apply key_le_refl].
  - destruct (skipping && negb (is_gt (Slice_compare (ukey e) (saved_key_ db)))) eqn:Hs.
    + apply andb_true_iff in Hs as [Hsk Hle]. apply Hgo; [done..|]. apply (next_advance _ _ _ e); [done..|].
      intros _. right. split; [done|]. unfold key_le. by destruct (Slice_compare _ _).
    + destruct (next_found Dn skipping db e) as [Hc Hb]; [done..| |].
      { intros [-> Hle]. unfold key_le in Hle. by destruct (Slice_compare _ _). }
      split_and!; [split; [done..|]; intros _; simpl; rewrite Hdir; by exists e|done..|].
      unfold db_cur. simpl. rewrite Hdir, He. exact Hb.
Qed.

Lemma FindNextUserEntry_to Dn skipping db : next_inv Dn skipping db -> direction db = kForward ->
  0 <= sequence_ db < 2 ^ 56 -> db_to kForward (fun u => ~ Dn u.1) db (FindNextUserEntry skipping db).
Proof. intros. apply next_loop_to; [done..|]. apply rounds_enough. Qed.

(** ** Going backwards *)

(** The version [g] is saved: the first one behind the position whose key is not done. *)
Definition saved_version (Up : list Z -> Prop) (db : DBIter) (g : entry) : Prop :=
  g ∈ cont db /\ visible (sequence_ db) g = true /\ vtype g = kTypeValue /\ behind (iter_ db) g
  /\ saved_key_ db = ukey g /\ saved_value_ db = g.2 /\ ~ Up (ukey g)
  /\ (forall e, e ∈ cont db -> visible (sequence_ db) e = true -> behind (iter_ db) e -> ~ Up (ukey e) -> ~ ilt e g).

(** [Up]: the keys that are done, with all that are above them. *)
Record prev_inv (Up : list Z -> Prop) (value_type : Z) (db : DBIter) : Prop := mkPrevInv {
  pi_ok : iok (iter_ db);
  pi_dir : direction db = kReverse;
  pi_seq : 0 <= sequence_ db < 2 ^ 56;
  pi_up : forall a b, Up a -> key_le a b -> Up b;
  pi_left : forall e, e ∈ cont db -> visible (sequence_ db) e = true -> ~ behind (iter_ db) e -> ~ Up (ukey e);
  pi_none : value_type = kTypeDeletion ->
    forall e, counts (sequence_ db) (cont db) e -> vtype e = kTypeValue -> ~ Up (ukey e) -> ~ behind (iter_ db) e;
  pi_some : value_type <> kTypeDeletion ->
    exists g, saved_version Up db g
      /\ forall e, counts (sequence_ db) (cont db) e -> vtype e = kTypeValue -> ~ Up (ukey e) ->
           ~ behind (iter_ db) e \/ e = g }.

Lemma behind_advance db p e : iok (iter_ db) -> icur (iter_ db) = Some p -> e ∈ cont db ->
  behind (iPrev (iter_ db)) e <-> behind (iter_ db) e \/ e = p.
Proof. intros Hok Hp He. rewrite (behind_Prev _ p) by done. unfold behind. by rewrite Hp. Qed.

Lemma not_behind db p e : iok (iter_ db) -> icur (iter_ db) = Some p -> e ∈ cont db ->
  ~ behind (iter_ db) e <-> e = p \/ ilt e p.
Proof.
  intros Hok Hp He. pose proof (content_ok _ Hok) as Hk. pose proof (cur_content _ p Hok Hp) as Hpc.
  unfold behind. rewrite Hp. split.
  - intros Hn. destruct (c_cases _ Hk e p He Hpc) as [?|[?|?]]; [by left|by right|done].
  - intros [->|Hlt] H; [by apply (ilt_irrefl _ p Hk)|]. apply (ilt_irrefl _ p Hk Hpc). by apply (ilt_trans _ p e p Hk).
Qed.

Lemma prev_invisible Up vt db p : prev_inv Up vt db -> icur (iter_ db) = Some p -> visible (sequence_ db) p = false ->
  prev_inv Up vt (set_iter db (iPrev (iter_ db))).
Proof.
  intros [Hok Hdir Hseq Hup Hleft Hnone Hsome] Hp Hv. destruct (Prev_best _ p Hok Hp) as (Hok' & Hco & _).
  assert (Hbe : forall e, e ∈ cont db -> visible (sequence_ db) e = true ->
    behind (iPrev (iter_ db)) e <-> behind (iter_ db) e).
  { intros e He Hve. rewrite (behind_advance db p) by done. naive_solver congruence. }
  split; simpl; rewrite ?Hco; [done..|intros e He Hve|intros Ht e Hc|intros Ht].
  - rewrite Hbe by done. by apply Hleft.
  - rewrite Hbe by apply Hc. by apply Hnone.
  - destruct (Hsome Ht) as (g & (H1 & H2 & H3 & H4 & H5 & H6 & H7 & H8) & H9). exists g. split.
    + unfold saved_version. simpl. rewrite Hco. split_and!; try done; [by apply Hbe|].
      intros e He Hve. rewrite Hbe by done. by apply H8.
    + intros e Hc. rewrite Hbe by apply Hc. by apply H9.
Qed.

(** The saved version does not count if a visible version of its key comes before it. *)
Lemma saved_not_counts Up vt db p : prev_inv Up vt db -> icur (iter_ db) = Some p -> visible (sequence_ db) p = true ->
  ~ (vt <> kTypeDeletion /\ key_lt (ukey p) (saved_key_ db)) ->
  forall e, counts (sequence_ db) (cont db) e -> vtype e = kTypeValue -> ~ Up (ukey e) -> ~ behind (iter_ db) e.
Proof.
  intros [Hok Hdir Hseq Hup Hleft Hnone Hsome] Hp Hv Hstop e Hce Hte Hue. pose proof (content_ok _ Hok) as Hk.
  destruct (decide (vt = kTypeDeletion)) as [Ht|Ht]; [by apply Hnone|].
  destruct (Hsome Ht) as (g & (H1 & H2 & H3 & H4 & H5 & H6 & H7 & H8) & H9).
  destruct (H9 e Hce Hte Hue) as [?| ->]; [done|]. exfalso. pose proof (cur_content _ p Hok Hp) as Hpc.
  assert (ilt p g) as Hpg by (unfold behind in H4; by rewrite Hp in H4).
  destruct Hce as (_ & _ & Hf). apply (Hf p Hpc Hv); [|done].
  destruct (ilt_ukey _ Hk p g Hpc H1 Hpg) as [?|Hlt]; [done|]. destruct Hstop. rewrite H5. done.
Qed.

Lemma prev_deletion Up vt db p : prev_inv Up vt db -> icur (iter_ db) = Some p -> visible (sequence_ db) p = true ->
  ~ (vt <> kTypeDeletion /\ key_lt (ukey p) (saved_key_ db)) -> vtype p = kTypeDeletion ->
  prev_inv Up kTypeDeletion (set_iter (set_saved db [] []) (iPrev (iter_ db))).
Proof.
  intros Hinv Hp Hv Hstop Ht. pose proof (saved_not_counts _ _ _ _ Hinv Hp Hv Hstop) as Hnc.
  destruct Hinv as [Hok Hdir Hseq Hup Hleft Hnone Hsome]. destruct (Prev_best _ p Hok Hp) as (Hok' & Hco & _).
  split; simpl; rewrite ?Hco; [done..|intros e He Hve|intros _ e Hc Hte Hue|done].
  - rewrite (behind_advance db p) by done. naive_solver.
  - rewrite (behind_advance db p) by (done || apply Hc). intros [Hb| ->]; [by apply (Hnc e)|].
    rewrite Ht in Hte. done.
Qed.

Lemma prev_value Up vt db p : prev_inv Up vt db -> icur (iter_ db) = Some p -> visible (sequence_ db) p = true ->
  ~ (vt <> kTypeDeletion /\ key_lt (ukey p) (saved_key_ db)) -> vtype p = kTypeValue ->
  prev_inv Up kTypeValue (set_iter (set_saved db (ukey p) p.2) (iPrev (iter_ db))).
Proof.
  intros Hinv Hp Hv Hstop Ht. pose proof (saved_not_counts _ _ _ _ Hinv Hp Hv Hstop) as Hnc.
  destruct Hinv as [Hok Hdir Hseq Hup Hleft Hnone Hsome]. destruct (Prev_best _ p Hok Hp) as (Hok' & Hco & _).
  pose proof (content_ok _ Hok) as Hk. pose proof (cur_content _ p Hok Hp) as Hpc.
  assert (Hnb : ~ behind (iter_ db) p) by (apply (not_behind db p); [done..|by left]).
  split; simpl; rewrite ?Hco; [done..|intros e He Hve|done|intros _; exists p; split].
  - rewrite (behind_advance db p) by done. naive_solver.
  - unfold saved_version. simpl. rewrite Hco. split_and!; try done.
    + apply (behind_advance db p); [done..|by right].
    + by apply Hleft.
    + intros e He Hve. rewrite (behind_advance db p) by done. intros [Hb| ->] _; [|by apply (ilt_irrefl _ p Hk)].
      intros Hlt. apply (proj2 (not_behind db p e Hok Hp He)); [by right|done].
  - intros e Hce Hte Hue. rewrite (behind_advance db p) by (done || apply Hce).
    destruct (decide (e = p)) as [->|Hn]; [by right|left]. intros [Hb|?]; [by apply (Hnc e)|done].
Qed.

(** The loop stops with a saved version when nothing of its key, or above, is left. *)
Lemma prev_stop Up vt db : prev_inv Up vt db -> vt <> kTypeDeletion ->
  (forall e, e ∈ cont db -> visible (sequence_ db) e = true -> ~ behind (iter_ db) e -> key_lt (ukey e) (saved_key_ db)) ->
  db_to kReverse (fun u => ~ Up u.1) db (set_valid db true).
Proof.
  intros [Hok Hdir Hseq Hup Hleft Hnone Hsome] Ht Hrest. pose proof (content_ok _ Hok) as Hk.
  destruct (Hsome Ht) as (g & (H1 & H2 & H3 & H4 & H5 & H6 & H7 & H8) & H9).
  assert (Hcg : counts (sequence_ db) (cont db) g).
  { split_and!; [done..|]. intros e He Hve E Hlt. destruct (decide (behind (iter_ db) e)) as [Hb|Hb].
    - apply (H8 e); [done..| |done]. by rewrite E.
    - specialize (Hrest e He Hve Hb). rewrite H5, E in Hrest. by apply key_lt_irrefl in Hrest. }
  assert (Hin : (saved_key_ db, saved_value_ db) ∈ user_view db).
  { apply elem_of_view. exists g. rewrite H5, H6. done. }
  split_and!; try done.
  - split; [done..|]. intros _. simpl. rewrite Hdir. split; [done|]. intros e He Hve. split.
    + intros Hb. rewrite H5. destruct (c_cases _ Hk e g He H1) as [->|[Hlt|Hlt]]; [apply key_le_refl| |by apply (ilt_le (cont db))].
      destruct (decide (key_le (ukey g) (ukey e))) as [|Hn]; [done|]. exfalso. apply (H8 e); [done..| |done].
      intros HU. apply H7, (Hup (ukey e)); [done|]. apply key_le_cases. right. by apply key_lt_le.
    + intros Hle. destruct (decide (behind (iter_ db) e)) as [|Hb]; [done|]. specialize (Hrest e He Hve Hb). by apply key_lt_le in Hrest.
  - unfold db_cur. simpl. rewrite Hdir. split_and!; [done|by rewrite H5|]. intros u Hu HUu.
    pose proof Hu as (e & Hce & Hte & ->)%elem_of_view. simpl in HUu.
    destruct (H9 e Hce Hte HUu) as [Hb| ->]; [right|left; by rewrite H5, H6].
    unfold kd. simpl. rewrite Slice_compare_antisym. by rewrite (Hrest e) by (done || apply Hce).
Qed.

Lemma prev_loop_to fuel Up vt db : prev_inv Up vt db -> (vt = kTypeDeletion \/ vt = kTypeValue) -> (back (iter_ db) < fuel)%nat ->
  let '(vt', db') := prev_loop fuel vt db in
  cont db' = cont db /\ sequence_ db' = sequence_ db /\ prev_inv Up vt' db'
  /\ forall e, e ∈ cont db' -> visible (sequence_ db') e = true -> ~ behind (iter_ db') e ->
       vt' <> kTypeDeletion /\ key_lt (ukey e) (saved_key_ db').
Proof.
  revert vt db. induction fuel as [|fuel IH]; intros vt db Hinv Hvt Hf; [lia|]. cbn [prev_loop].
  pose proof (pi_ok _ _ _ Hinv) as Hok. destruct (icur (iter_ db)) as [e|] eqn:He.
  2:{ split_and!; [done..|]. unfold behind. rewrite He. naive_solver. }
  destruct (Prev_best _ e Hok He) as (_ & Hco & _). pose proof (back_Prev _ e Hok He) as Hbk.
  assert (Hgo : forall vt' db', iter_ db' = iter_ db -> sequence_ db' = sequence_ db -> (vt' = kTypeDeletion \/ vt' = kTypeValue) ->
    prev_inv Up vt' (set_iter db' (iPrev (iter_ db))) ->
    let '(vt', db') := prev_loop fuel vt' (set_iter db' (iPrev (iter_ db))) in
    cont db' = cont db /\ sequence_ db' = sequence_ db /\ prev_inv Up vt' db'
    /\ forall e, e ∈ cont db' -> visible (sequence_ db') e = true -> ~ behind (iter_ db') e ->
       vt' <> kTypeDeletion /\ key_lt (ukey e) (saved_key_ db')).
  { intros vt' db' E1 E2 Hv' Hi. specialize (IH vt' _ Hi Hv' ltac:(simpl; lia)).
    destruct (prev_loop fuel vt' (set_iter db' (iPrev (iter_ db)))) as [vt2 db2]. simpl in IH. rewrite Hco, E2 in IH. done. }
  pose proof (cur_content _ e Hok He) as Hec. pose proof (content_ok _ Hok) as Hk.
  destruct (internal_parts e) as (Hpar & Hty & _); [by apply (c_internal (cont db))|].
  unfold prev_round. rewrite Hpar. cbn [user_key sequence type]. fold (visible (sequence_ db) e). fold (ukey e).
  destruct (visible (sequence_ db) e) eqn:Hv; [|apply Hgo; [done..|]; by apply (prev_invisible _ _ _ e)].
  destruct (negb (vt =? kTypeDeletion) && is_lt (Slice_compare (ukey e) (saved_key_ db))) eqn:Hs.
  - apply andb_true_iff in Hs as [Hs%negb_true_iff%Z.eqb_neq Hlt].
    assert (key_lt (ukey e) (saved_key_ db)) as Hlt' by (unfold key_lt; by destruct (Slice_compare _ _)).
    split_and!; [done..|]. intros x Hx Hvx Hb. split; [done|]. apply (not_behind db e) in Hb as [->|Hb]; [done| |done..].
    apply key_lt_le. intros Hle. apply key_lt_le in Hlt'. apply Hlt'. apply (key_le_trans _ (ukey x)); [done|]. by apply (ilt_le (cont db)).
  - assert (Hstop : ~ (vt <> kTypeDeletion /\ key_lt (ukey e) (saved_key_ db))).
    { intros [Hn Hlt]. unfold key_lt in Hlt. rewrite Hlt in Hs. rewrite (proj2 (Z.eqb_neq _ _) Hn) in Hs. done. }
    destruct Hty as [Hty|Hty]; rewrite Hty; simpl.
    + apply (Hgo kTypeDeletion (set_saved db [] [])); [done..|by left|]. by apply (prev_deletion Up vt db e).
    + apply (Hgo kTypeValue (set_saved db (ukey e) e.2)); [done..|by right|]. by apply (prev_value Up vt db e).
Qed.

Lemma FindPrevUserEntry_to Up db : prev_inv Up kTypeDeletion db ->
  db_to kReverse (fun u => ~ Up u.1) db (FindPrevUserEntry db).
Proof.
  intros Hinv. unfold FindPrevUserEntry.
  pose proof (prev_loop_to (rounds db) Up kTypeDeletion db Hinv (or_introl eq_refl) ltac:(apply rounds_enough)) as Hl.
  destruct (prev_loop (rounds db) kTypeDeletion db) as [vt db']. destruct Hl as (Hco & Hsq & Hi & Hrest).
  destruct (Z.eqb_spec vt kTypeDeletion) as [Ht|Ht].
  - split_and!; simpl; rewrite ?Hco, ?Hsq; try done.
    + split; [apply Hi|simpl; rewrite Hsq; apply Hinv|done].
    + unfold db_cur. simpl. intros u (e & Hce & Hte & ->)%elem_of_view Hu. rewrite <- Hco, <- Hsq in Hce.
      pose proof (pi_none _ _ _ Hi Ht e Hce Hte Hu) as Hb. destruct (Hrest e) as [? _]; [apply Hce..|done|done].
  - destruct (prev_stop Up vt db' Hi Ht) as (H1 & H2 & H3 & H4 & H5); [naive_solver|].
    split; [done|]. rewrite Hco, Hsq in *. done.
Qed.

(** ** The operations *)

Lemma db_to_same d P db db1 db2 : cont db1 = cont db -> sequence_ db1 = sequence_ db ->
  db_to d P db1 db2 -> db_to d P db db2.
Proof. intros Hc Hs (H1 & H2 & H3 & H4 & H5). unfold db_to. rewrite Hc, Hs in *. done. Qed.

Lemma db_to_ext d P Q db db' : (forall u, u ∈ user_view db -> P u <-> Q u) -> db_to d P db db' -> db_to d Q db db'.
Proof. intros HPQ (H1 & H2 & H3 & H4 & H5). split_and!; try done. by eapply best_ext. Qed.

(** [FindNextUserEntry] where the internal iterator may have reached the end. *)
Lemma find_or_end_to Dn db : next_inv Dn false db -> direction db = kForward -> 0 <= sequence_ db < 2 ^ 56 ->
  db_to kForward (fun u => ~ Dn u.1) db
    (match icur (iter_ db) with Some _ => FindNextUserEntry false db | None => set_valid db false end).
Proof.
  intros Hinv Hdir Hseq. destruct (icur (iter_ db)) eqn:E; [by apply FindNextUserEntry_to|].
  split_and!; [by split; [apply Hinv|..]|done..|]. by apply (user_next_none Dn false).
Qed.

Lemma db_SeekToFirst_to db : db_ok db -> db_to kForward (fun _ => True) db (db_SeekToFirst db).
Proof.
  intros [Hok Hseq _]. destruct (SeekToFirst_best _ Hok) as (Hok' & Hco & Hb). unfold db_SeekToFirst. simpl.
  pose proof (content_ok _ Hok) as Hk.
  apply (db_to_ext _ (fun u => ~ False)); [naive_solver|].
  eapply db_to_same; [| |apply (find_or_end_to (fun _ => False)
    (set_iter (set_saved (set_direction db kForward) (saved_key_ db) []) (iSeekToFirst (iter_ db)))); [|done..]]; [done..|].
  split; simpl; rewrite ?Hco; [done| |done|done|done]. intros e He Hv. unfold before.
  destruct (icur (iSeekToFirst (iter_ db))) as [q|]; [|by destruct (Hb e He)].
  destruct Hb as (Hq & _ & Hmin). intros Hlt. exfalso. destruct (Hmin e He Logic.I) as [->|Hlt']; [by apply (ilt_irrefl _ q Hk)|].
  apply (ilt_irrefl _ e Hk He). by apply (ilt_trans _ e q e Hk).
Qed.

(** The key that [Seek] looks for. *)
Lemma seek_key_internal t s : user_dom t -> 0 <= s < 2 ^ 56 ->
  let k := AppendInternalKey [] (mkParsed t s kValueTypeForSeek) in
  internal k /\ ukey (k, []) = t /\ vtag (k, []) = s * 256 + kTypeValue.
Proof.
  intros [Hb Hl] Hs. destruct (pack_tag s kTypeValue) as (Hp & Hr & _); [done|by right|].
  assert (AppendInternalKey [] (mkParsed t s kValueTypeForSeek) = t ++ EncodeFixed64 (s * 256 + kTypeValue)) as ->.
  { unfold AppendInternalKey, PutFixed64. simpl user_key. rewrite <- Hp. done. }
  split_and!.
  - exists (target t s). split; [|done]. split; simpl; [done..|lia|done|by right].
  - apply ExtractUserKey_app.
  - unfold vtag. simpl fst. by rewrite key_tag_app by done.
Qed.

Lemma db_Seek_to db t : db_ok db -> user_dom t -> db_to kForward (fun u => Slice_compare u.1 t <> Lt) db (db_Seek db t).
Proof.
  intros [Hok Hseq _] Ht. unfold db_Seek.
  destruct (seek_key_internal t (sequence_ db) Ht Hseq) as (Hint & Huk & Htag).
  set (k := AppendInternalKey [] (mkParsed t (sequence_ db) kValueTypeForSeek)) in *.
  destruct (Seek_best _ k Hok Hint) as (Hok' & Hco & Hb). pose proof (content_ok _ Hok) as Hk. simpl.
  assert (Hparts : forall e, e ∈ cont db -> visible (sequence_ db) e = true ->
    ilt e (k, []) <-> key_lt (ukey e) t).
  { intros e He Hv. rewrite ilt_parts by (done || by apply (c_internal (cont db))). rewrite Huk, Htag.
    destruct (internal_parts e) as (_ & Hty & Hvt & _); [by apply (c_internal (cont db))|].
    apply Z.leb_le in Hv. split; [|by left]. intros [?|[_ Hlt]]; [done|].
    unfold kTypeDeletion, kTypeValue in *. lia. }
  eapply db_to_same; [| |apply (find_or_end_to (fun u => key_lt u t)
    (set_iter (set_saved (set_direction db kForward) k []) (iSeek (iter_ db) k))); [|done..]]; [done..|].
  split; simpl; rewrite ?Hco; [done| |done| |done]; intros e He Hv; unfold before.
  - intros Hbe. left. apply Hparts; [done..|]. unfold klt. simpl.
    destruct (icur (iSeek (iter_ db) k)) as [q|]; [|by destruct (InternalKey_Compare e.1 k) eqn:E; [..|]; first [done|destruct (Hb e He); simpl; by rewrite E]].
    destruct Hb as (Hq & Hqk & Hmin). destruct (InternalKey_Compare e.1 k) eqn:E; [|done|].
    all: exfalso; destruct (Hmin e He) as [->|Hlt]; [simpl; by rewrite E|by apply (ilt_irrefl _ q Hk)|];
      apply (ilt_irrefl _ e Hk He); by apply (ilt_trans _ e q e Hk).
  - intros Hnb Hlt. exfalso. apply Hparts in Hlt; [|done..]. apply Hnb.
    destruct (icur (iSeek (iter_ db) k)) as [q|]; [|done]. destruct Hb as (Hq & Hqk & _).
    destruct (c_cases _ Hk e q He Hq) as [->|[?|Hqe]]; [done|done|]. destruct Hqk.
    apply (@cmp_trans internal_order q.1 e.1 k); [by apply (c_internal (cont db))..|done|done|done].
Qed.

Lemma db_Next_forward db e : db_ok db -> direction db = kForward -> icur (iter_ db) = Some e ->
  db_to kForward (fun u => key_lt (ukey e) u.1) db (db_Next db).
Proof.
  intros [Hok Hseq _] Hdir He. pose proof (content_ok _ Hok) as Hk. pose proof (cur_content _ e Hok He) as Hec.
  unfold db_Next. rewrite Hdir, He.
  apply (db_to_ext _ (fun u => ~ key_le u.1 (ukey e))); [intros u _; by rewrite key_lt_le|].
  eapply db_to_same; [| |apply (FindNextUserEntry_to (fun u => key_le u (ukey e))); [|done..]]; [done..|].
  split; unfold before; simpl; rewrite ?He; [done|..|naive_solver|naive_solver|].
  - intros x Hx Hv Hlt. left. by apply (ilt_le (cont db)).
  - intros x Hx Hv Hn _. destruct (c_cases _ Hk x e Hx Hec) as [->|[?|?]]; [apply key_le_refl|done|].
    by apply (ilt_le (cont db)).
Qed.

(** Turning round: the internal iterator enters the versions of the saved key. *)
Lemma turn_before db it' : db_ok db -> direction db = kReverse ->
  it' = match icur (iter_ db) with None => iSeekToFirst (iter_ db) | Some _ => iNext (iter_ db) end ->
  iok it' /\ icontent it' = cont db
  /\ forall e, e ∈ cont db -> icur it' <> None -> before it' e <-> ~ behind (iter_ db) e.
Proof.
  intros [Hok Hseq _] Hdir ->. pose proof (content_ok _ Hok) as Hk. destruct (icur (iter_ db)) as [p|] eqn:Hp.
  - destruct (Next_best _ p Hok Hp) as (Hok' & Hco & _). split_and!; [done..|]. intros e He _.
    rewrite (before_Next _ p), (not_behind db p) by done. naive_solver.
  - destruct (SeekToFirst_best _ Hok) as (Hok' & Hco & Hb). split_and!; [done..|]. intros e He Hn.
    unfold before, behind. rewrite Hp. destruct (icur (iSeekToFirst (iter_ db))) as [q|]; [|done].
    split; [|naive_solver]. intros Hlt. destruct Hb as (Hq & _ & Hmin). exfalso.
    destruct (Hmin e He Logic.I) as [->|Hlt']; [by apply (ilt_irrefl _ q Hk)|].
    apply (ilt_irrefl _ e Hk He). by apply (ilt_trans _ e q e Hk).
Qed.

Lemma db_Next_reverse db : db_ok db -> direction db = kReverse -> valid_ db = true ->
  db_to kForward (fun u => key_lt (saved_key_ db) u.1) db (db_Next db).
Proof.
  intros Hdb Hdir Hval. unfold db_Next. rewrite Hdir. cbn [iter_ set_direction].
  set (it' := match icur (iter_ db) with None => iSeekToFirst (iter_ db) | Some _ => iNext (iter_ db) end).
  destruct (turn_before db it' Hdb Hdir eq_refl) as (Hok' & Hco & Hbe). destruct Hdb as [Hok Hseq Hst].
  specialize (Hst Hval). rewrite Hdir in Hst. destruct Hst as [Hin Hpos]. pose proof (content_ok _ Hok) as Hk.
  assert (Hsome : icur it' <> None).
  { intros Hn. pose proof Hin as (g & (Hg & Hvg & _) & _ & Eg)%elem_of_view. injection Eg as Eg _.
    assert (behind (iter_ db) g) as Hbg by (apply Hpos; [done..|]; rewrite Eg; apply key_le_refl).
    unfold it', behind in *. destruct (icur (iter_ db)) as [p|] eqn:Hp.
    - destruct (Next_best _ p Hok Hp) as (_ & _ & Hb). rewrite Hn in Hb. by apply (Hb g).
    - destruct (SeekToFirst_best _ Hok) as (_ & _ & Hb). rewrite Hn in Hb. by apply (Hb g). }
  destruct (icur it') as [q|] eqn:Hq; [|done].
  apply (db_to_ext _ (fun u => ~ key_le u.1 (saved_key_ db))); [intros u _; by rewrite key_lt_le|].
  eapply db_to_same; [| |apply (FindNextUserEntry_to (fun u => key_le u (saved_key_ db))); [|done..]]; [done..|].
  split; simpl; rewrite ?Hco; [done|..|naive_solver|naive_solver|].
  - intros e He Hv Hb. right. split; [done|]. apply Hbe in Hb; [|done..]. rewrite Hpos in Hb by done.
    apply key_le_cases. right. by apply key_lt_le.
  - intros e He Hv Hb _. apply Hpos; [done..|]. rewrite Hbe in Hb by done. by apply dec_stable.
Qed.

Lemma db_SeekToLast_to db : db_ok db -> db_to kReverse (fun _ => True) db (db_SeekToLast db).
Proof.
  intros [Hok Hseq _]. destruct (SeekToLast_best _ Hok) as (Hok' & Hco & Hb). unfold db_SeekToLast. simpl.
  pose proof (content_ok _ Hok) as Hk. apply (db_to_ext _ (fun u => ~ False)); [naive_solver|].
  eapply db_to_same; [| |apply (FindPrevUserEntry_to (fun _ => False))]; [done..|].
  split; simpl; rewrite ?Hco; [done..|by intros|by intros ???? []|intros _ e (He & _) _ _ Hbe|by intros []]. unfold behind in Hbe.
  destruct (icur (iSeekToLast (iter_ db))) as [q|]; [|by apply (Hb e)]. destruct Hb as (Hq & _ & Hmin).
  destruct (Hmin e He Logic.I) as [->|Hlt]; [by apply (ilt_irrefl _ q Hk)|]. rewrite (igt_ilt _ q e Hk) in Hlt by done.
  apply (ilt_irrefl _ e Hk He). by apply (ilt_trans _ e q e Hk).
Qed.

Lemma db_Prev_reverse db : db_ok db -> direction db = kReverse -> valid_ db = true ->
  db_to kReverse (fun u => key_lt u.1 (saved_key_ db)) db (db_Prev db).
Proof.
  intros [Hok Hseq Hst] Hdir Hval. unfold db_Prev. rewrite Hdir. specialize (Hst Hval). rewrite Hdir in Hst.
  destruct Hst as [Hin Hpos].
  apply (db_to_ext _ (fun u => ~ key_le (saved_key_ db) u.1)); [intros u _; by rewrite key_lt_le|].
  apply (FindPrevUserEntry_to (fun u => key_le (saved_key_ db) u)). split; [done..| | | |done].
  - intros a b. apply key_le_trans.
  - intros e He Hv Hb Hle. apply Hb. by apply Hpos.
  - intros _ e (He & Hv & _) _ Hn Hb. apply Hn. by apply Hpos.
Qed.

(** Leaving the versions of the current key backwards. *)
Lemma back_loop_to fuel db p : iok (iter_ db) -> icur (iter_ db) = Some p -> (back (iter_ db) < fuel)%nat ->
  (forall x, x ∈ cont db -> x = p \/ ilt p x -> key_le (saved_key_ db) (ukey x)) ->
  let '(found, db') := back_loop fuel db in
  iok (iter_ db') /\ cont db' = cont db /\ sequence_ db' = sequence_ db /\ saved_key_ db' = saved_key_ db
  /\ direction db' = direction db
  /\ (forall x, x ∈ cont db -> behind (iter_ db') x -> key_le (saved_key_ db) (ukey x))
  /\ (if found then exists q, icur (iter_ db') = Some q /\ key_lt (ukey q) (saved_key_ db)
      else icur (iter_ db') = None).
Proof.
  revert db p. induction fuel as [|fuel IH]; intros db p Hok Hp Hf Hge; [lia|]. cbn [back_loop iter_ set_iter saved_key_].
  destruct (Prev_best _ p Hok Hp) as (Hok' & Hco & _). pose proof (back_Prev _ p Hok Hp) as Hbk.
  pose proof (content_ok _ Hok) as Hk.
  assert (Hbe : forall x, x ∈ cont db -> behind (iPrev (iter_ db)) x -> key_le (saved_key_ db) (ukey x)).
  { intros x Hx Hb%(behind_Prev _ p); [|done..]. apply Hge; naive_solver. }
  destruct (icur (iPrev (iter_ db))) as [q|] eqn:Hq; [|by split_and!]. fold (ukey q).
  destruct (is_lt (Slice_compare (ukey q) (saved_key_ db))) eqn:Hlt.
  - split_and!; try done. exists q. split; [done|]. unfold key_lt. by destruct (Slice_compare _ _).
  - pose proof (cur_content _ q Hok' Hq) as Hqc. rewrite Hco in Hqc.
    specialize (IH (set_iter db (iPrev (iter_ db))) q Hok' Hq ltac:(simpl; lia)). simpl in IH. rewrite Hco in IH.
    apply IH. intros x Hx [->|Hqx].
    + apply dec_stable. intros Hn%key_lt_le. unfold key_lt in Hn. rewrite Hn in Hlt. done.
    + apply Hbe; [done|]. unfold behind. by rewrite Hq.
Qed.

Lemma db_Prev_forward db e : db_ok db -> direction db = kForward -> icur (iter_ db) = Some e ->
  db_to kReverse (fun u => key_lt u.1 (ukey e)) db (db_Prev db).
Proof.
  intros [Hok Hseq _] Hdir He. pose proof (content_ok _ Hok) as Hk. pose proof (cur_content _ e Hok He) as Hec.
  unfold db_Prev. rewrite Hdir, He.
  pose proof (back_loop_to (rounds db) (set_saved db (ExtractUserKey e.1) (saved_value_ db)) e Hok He
    (proj2 (rounds_enough db))) as Hl. cbn [iter_ sequence_ saved_key_ direction set_saved] in Hl.
  specialize (Hl ltac:(intros x Hx [->|Hlt]; [apply key_le_refl|by apply (ilt_le (cont db))])).
  destruct (back_loop _ _) as [found db']. destruct Hl as (Hok' & Hco & Hsq & Hsv & Hdr & Hbe & Hf).
  fold (ukey e) in *. destruct found.
  - destruct Hf as (q & Hq & Hlt).
    apply (db_to_ext _ (fun u => ~ key_le (ukey e) u.1)); [intros u _; by rewrite key_lt_le|].
    eapply db_to_same; [| |apply (FindPrevUserEntry_to (fun u => key_le (ukey e) u))]; [done..|].
    split; simpl; rewrite ?Hco, ?Hsq; [done..|intros a b; apply key_le_trans| | |by intros []].
    + intros x Hx Hv Hn Hle. apply Hn. unfold behind. rewrite Hq. pose proof (cur_content _ q Hok' Hq) as Hqc. rewrite Hco in Hqc.
      apply (ukey_ilt _ Hk); [done..|]. apply key_le_cases in Hle as [<-|Hle]; [done|]. by apply (key_lt_trans _ (ukey e)).
    + intros _ x (Hx & Hv & _) _ Hn Hb. apply Hn. by apply Hbe.
  - split_and!; simpl; rewrite ?Hco, ?Hsq; try done; [by split; [|simpl; rewrite Hsq|]|].
    unfold db_cur. simpl. intros u (x & (Hx & _) & _ & ->)%elem_of_view Hlt. simpl in Hlt.
    apply key_lt_le in Hlt. apply Hlt, Hbe; [done|]. unfold behind. by rewrite Hf.
Qed.

Lemma db_cur_view db u : db_ok db -> db_cur db = Some u -> u ∈ user_view db.
Proof.
  intros [Hok Hseq Hst]. unfold db_cur. destruct (valid_ db); [|done]. specialize (Hst eq_refl).
  destruct (direction db).
  - destruct Hst as (e & -> & Hc & Ht). intros [= <-]. apply elem_of_view. by exists e.
  - intros [= <-]. apply Hst.
Qed.

Lemma db_Next_to db u : db_ok db -> db_cur db = Some u -> db_to kForward (kd kForward u) db (db_Next db).
Proof.
  intros Hdb Hu. pose proof Hdb as [Hok Hseq Hst]. unfold db_cur in Hu. destruct (valid_ db) eqn:Hv; [|done].
  destruct (direction db) eqn:Hd.
  - destruct (icur (iter_ db)) as [e|] eqn:He; [|done]. injection Hu as <-. by apply db_Next_forward.
  - injection Hu as <-. by apply db_Next_reverse.
Qed.

Lemma kd_reverse a b : kd kReverse a b <-> key_lt b.1 a.1.
Proof. unfold kd, key_lt. simpl. rewrite (Slice_compare_antisym a.1 b.1). by destruct (Slice_compare a.1 b.1). Qed.

Lemma db_Prev_to db u : db_ok db -> db_cur db = Some u -> db_to kReverse (kd kReverse u) db (db_Prev db).
Proof.
  intros Hdb Hu. pose proof Hdb as [Hok Hseq Hst]. unfold db_cur in Hu. destruct (valid_ db) eqn:Hv; [|done].
  apply (db_to_ext _ (fun x => key_lt x.1 u.1)); [intros x _; by rewrite kd_reverse|].
  destruct (direction db) eqn:Hd.
  - destruct (icur (iter_ db)) as [e|] eqn:He; [|done]. injection Hu as <-. by apply db_Prev_forward.
  - injection Hu as <-. by apply db_Prev_reverse.
Qed.

Lemma db_content_ok db : db_ok db -> keys_ok (user_view db).
Proof. intros [Hok _ _]. apply view_keys_ok. by apply content_ok. Qed.

#[export] Program Instance db_iterator : Iterator DBIter := {
  content := fun db => user_view db;
  iter_ok := db_ok;
  cur := db_cur;
  SeekToFirst := db_SeekToFirst;
  SeekToLast := db_SeekToLast;
  Seek := db_Seek;
  Next := db_Next;
  Prev := db_Prev;
  content_ok := db_content_ok;
  cur_content := db_cur_view }.
Next Obligation. intros db H. destruct (db_SeekToFirst_to db H) as (H1 & H2 & _ & _ & H3). done. Qed.
Next Obligation. intros db H. destruct (db_SeekToLast_to db H) as (H1 & H2 & _ & _ & H3). done. Qed.
Next Obligation. intros db t H Ht. destruct (db_Seek_to db t H Ht) as (H1 & H2 & _ & _ & H3). done. Qed.
Next Obligation. intros db u H Hu. destruct (db_Next_to db u H Hu) as (H1 & H2 & _ & _ & H3). done. Qed.
Next Obligation. intros db u H Hu. destruct (db_Prev_to db u H Hu) as (H1 & H2 & _ & _ & H3). done. Qed.

End DBIter.

(** C28: the iterator of the database shows the user's view of the versions below it: after
    any sequence of calls, with any changes of direction, [SeekToFirst], [SeekToLast] and
    [Seek] go to the first entry, the last one and the first whose key is not below the
    target, and [Next] and [Prev] to the neighbours of the current one - where the
    entries are the keys whose newest version visible at the iterator's sequence number
    is a value, with that value. *)
Theorem dbiter_navigates {I} {internal_iterator : @Iterator internal_order I} (it : I) (s : Z) (calls : list iter_call) :
  @iter_ok internal_order I _ it -> 0 <= s < 2 ^ 56 -> Forall call_ok calls ->
  let db := foldl call (NewDBIterator it s) calls in
  let v := view s (@content internal_order I _ it) in
  best klt (fun _ => True) v (cur (SeekToFirst db)) /\ best kgt (fun _ => True) v (cur (SeekToLast db))
  /\ (forall t, user_dom t -> best klt (fun u => Slice_compare u.1 t <> Lt) v (cur (Seek db t)))
  /\ (forall u, cur db = Some u -> u ∈ v /\ best klt (klt u) v (cur (Next db)) /\ best kgt (kgt u) v (cur (Prev db))).
Proof.
  intros Hok Hs Hcs. assert (db_ok (NewDBIterator it s)) as H0 by (by split).
  destruct (@calls_keep user_order DBIter db_iterator (NewDBIterator it s) calls H0 Hcs) as [Hdb Hco]. cbn zeta.
  set (db := foldl call (NewDBIterator it s) calls) in *. change (content (NewDBIterator it s)) with (view s (@content internal_order I _ it)) in Hco.
  rewrite <- Hco. split_and!.
  - by apply SeekToFirst_best.
  - by apply SeekToLast_best.
  - intros t Ht. by destruct (Seek_best db t Hdb Ht) as (_ & _ & ?).
  - intros u Hu. split_and!; [by apply cur_content|by apply Next_best|by apply Prev_best].
Qed.

(** Key [a] with two versions, key [b] deleted, key [c] with a version to come. *)
Definition sample_versions : list ientry :=
  [mkEntry [97] 1 kTypeValue [49]; mkEntry [98] 2 kTypeValue [50]; mkEntry [98] 3 kTypeDeletion [];
   mkEntry [97] 4 kTypeValue [51]; mkEntry [99] 5 kTypeValue [52]; mkEntry [99] 9 kTypeValue [53]].

Lemma dbiter_navigates_witness :
  best klt (fun u => Slice_compare u.1 [98] <> Lt) (view 6 (mem_content (NewIterator (adds sample_versions))))
    (Some ([99], [52])).
Proof.
  assert (Hok : Forall entry_ok sample_versions).
  { repeat constructor; try (vm_compute; congruence); (by left) || (by right). }
  assert (Hd : distinct sample_versions).
  { apply (bool_decide_unpack (NoDup (e_seq <$> sample_versions))). vm_compute. exact Logic.I. }
  assert (Ht : user_dom [98]) by (split; [repeat constructor; vm_compute; congruence|vm_compute; congruence]).
  assert (E : cur (Seek (foldl call (NewDBIterator (NewIterator (adds sample_versions)) 6) [CallLast; CallPrev]) [98])
            = Some ([99], [52])) by (vm_compute; reflexivity).
  destruct (dbiter_navigates (NewIterator (adds sample_versions)) 6 [CallLast; CallPrev]) as (_ & _ & H & _).
  - apply NewIterator_ok; assumption.
  - split; vm_compute; congruence.
  - repeat constructor.
  - specialize (H [98] Ht). rewrite E in H. exact H.
Defined.
