(* ===== verification/LdbDb.v ===== *)
(** * leveldb: the database

    src/ext/leveldb/db/db_impl.cc: writers take a ticket, log their batch, insert it into
    the memtable and publish it in the order of the tickets; readers look at the memtable
    and at the one that waits to be compacted; [RecoverLogFile] rebuilds memtables from a
    log.  The tables on disk are not here: the database is one that has not compacted a
    memtable yet.

    The theorems connect this with the contract that the session store relies on
    ([Session.LevelDB]): reading gives what the reference database of sorted lists
    gives after the same writes, and so does reading after a crash. *)

From Stdlib Require Import ZArith Lia.
From stdpp Require Import base list numbers option sorting.
From S2P Require Import Prelude ByteOrder WebappStr Session LdbCoding LdbLog LdbMem LdbBatch LdbIter LdbMerge LdbDbIter.
Open Scope Z_scope.
Open Scope webapp_scope.

(** A memtable and the log of its writes. *)
Record gen := mkGen { g_mem : list TableKey; g_offset : Z; g_log : list Z }.
Definition gen_new : gen := mkGen [] 0 [].

(** [mem_] and [imm_] name the memtable that is written and the one that is not any more. *)
Record DBImpl := mkDB {
  gens : list gen;
  mem_ : nat;
  imm_ : option nat;
  LastSequence : Z;
  writers_lower_ : Z;
  writers_upper_ : Z }.

(** A new database ([DBImpl::NewDB] and [DB::Open]). *)
Definition Open : DBImpl := mkDB [gen_new] 0 None 0 1 0.

(** ** Writing *)

Record Writer := mkWriter { start_sequence : Z; end_sequence : Z; w_gen : nat }.

(** What the environment answers: an error of the background threads, room in the
    memtable, a new log file. *)
Record env := mkEnv { bg_error_ : bool; room : bool; new_file : bool }.

Inductive begun := Failed | Waits | Begun (w : Writer) (db : DBImpl).

(** The ticket of a batch of [diff] writes. *)
Definition take_ticket (db : DBImpl) (diff : Z) : begun :=
  let ticket := u64 (writers_upper_ db + u64 (1 + diff)) in
  Begun (mkWriter (u64 (ticket - diff)) ticket (mem_ db))
    (mkDB (gens db) (mem_ db) (imm_ db) (LastSequence db) (writers_lower_ db) ticket).

(** [updates] is a batch; the NULL that [CompactRange] and the like pass to force a new
    memtable is left out, as are the iterators that replay writes. *)
Definition SequenceWriteBegin (en : env) (db : DBImpl) (updates : list Z) : begun :=
  let diff := match Count updates with Some n => u64 n | None => 0 end in
  if bg_error_ en then Failed
  else if room en then take_ticket db diff
  else
    match imm_ db with
    | Some _ => Waits
    | None =>
        if new_file en then
          take_ticket (mkDB (gens db ++ [gen_new]) (length (gens db)) (Some (mem_ db)) (LastSequence db)
                         (writers_lower_ db) (writers_upper_ db)) diff
        else Failed
    end.

(** [w.log->AddRecord] of a batch at address [ptr], with the writes that succeed. *)
Definition log_batch (write_ok : Z -> bool) (ptr : Z) (rep : list Z) (g : gen) : gen * bool :=
  let '(offset, (ws, s)) := AddRecord write_ok (g_offset g) ptr rep in
  (mkGen (g_mem g) offset (apply_writes (g_log g) ws), s).

Definition set_gen (db : DBImpl) (i : nat) (g : gen) : DBImpl :=
  mkDB (<[i := g]> (gens db)) (mem_ db) (imm_ db) (LastSequence db) (writers_lower_ db) (writers_upper_ db).

(** [SequenceWriteEnd] publishes the batch... *)
Definition publish (db : DBImpl) (w : Writer) : DBImpl :=
  mkDB (gens db) (mem_ db) (imm_ db) (end_sequence w) (writers_lower_ db) (writers_upper_ db).
(** ... and lets the next writer in. *)
Definition signal (db : DBImpl) (w : Writer) : DBImpl :=
  mkDB (gens db) (mem_ db) (imm_ db) (LastSequence db)
    (u64 (writers_lower_ db + u64 (1 + end_sequence w - start_sequence w))) (writers_upper_ db).
(** The writer's turn has come. *)
Definition may_end (db : DBImpl) (w : Writer) : bool := start_sequence w <=? writers_lower_ db.

(** [Write] after its beginning, by the only writer and without [options.sync]; [None]: it
    waits. *)
Definition run_writer (write_ok : Z -> bool) (ptr : Z) (w : Writer) (db : DBImpl) (updates : list Z) : option (bool * DBImpl) :=
  let rep := SetSequence updates (start_sequence w) in
  let* g := gens db !! w_gen w in
  let '(g, s) := log_batch write_ok ptr rep g in
  let '(g, s) := if s then let '(st, mem) := InsertInto rep (g_mem g) in
                           (mkGen mem (g_offset g) (g_log g), bool_decide (st = OK))
                 else (g, s) in
  let db := set_gen db (w_gen w) g in
  if may_end db w then Some (s, signal (publish db w) w) else None.
Definition Write (en : env) (write_ok : Z -> bool) (ptr : Z) (db : DBImpl) (updates : list Z) : option (bool * DBImpl) :=
  match SequenceWriteBegin en db updates with
  | Failed => Some (false, db)
  | Waits => None
  | Begun w db => run_writer write_ok ptr w db updates
  end.

(** [DB::Put] and [DB::Delete]. *)
Definition DB_Put (en : env) (write_ok : Z -> bool) (ptr : Z) (db : DBImpl) (key value : list Z) : option (bool * DBImpl) :=
  Write en write_ok ptr db (Put Clear key value).
Definition DB_Delete (en : env) (write_ok : Z -> bool) (ptr : Z) (db : DBImpl) (key : list Z) : option (bool * DBImpl) :=
  Write en write_ok ptr db (Delete Clear key).

(** ** Reading *)

Definition mem_of (db : DBImpl) (i : nat) : list TableKey :=
  match gens db !! i with Some g => g_mem g | None => [] end.
(** The memtables a reader looks at, the newer first. *)
Definition memtables (db : DBImpl) : list (list TableKey) :=
  mem_of db (mem_ db) :: match imm_ db with Some i => [mem_of db i] | None => [] end.

(** [DBImpl::Get] at sequence number [snapshot]. *)
Fixpoint get_first (mems : list (list TableKey)) (key : list Z) (snapshot : Z) : mem_result :=
  match mems with
  | [] => Missing
  | mem :: mems => match Get mem key snapshot with Missing => get_first mems key snapshot | r => r end
  end.
Definition DBImpl_Get (db : DBImpl) (snapshot : option Z) (key : list Z) : option (list Z) :=
  let s := default (LastSequence db) snapshot in
  match get_first (memtables db) key s with Found value => Some value | _ => None end.

Definition NewInternalIterator (db : DBImpl) : merged := NewMergingIterator (NewIterator <$> memtables db).
Definition DBImpl_NewIterator (db : DBImpl) (snapshot : option Z) : DBIter :=
  NewDBIterator (NewInternalIterator db) (default (LastSequence db) snapshot).

(** ** Recovery *)

(** [max_sequence], the memtables that were written as tables, the current memtable. *)
Record recovered := mkRecovered { max_sequence : Z; done_ : list (list TableKey); mem : option (list TableKey) }.

Section Recover.
Context (paranoid_checks : bool) (big : list TableKey -> bool).

(** [reporter.Corruption] makes the status an error if checks are paranoid. *)
Definition reported (r : reader) : bool := paranoid_checks && negb (bool_decide (drops r = [])).

(** A round of the loop of [RecoverLogFile]: the status and the new state. *)
Definition recover_record (record : list Z) (x : recovered) : bool * recovered :=
  if lenZ record <? 12 then (negb paranoid_checks, x)
  else
    let '(st, mem1) := InsertInto record (default [] (mem x)) in
    let status := bool_decide (st = OK) || negb paranoid_checks in
    if status then
      let last_seq := match Sequence record, Count record with
                      | Some seq, Some n => u64 (seq + n - 1) | _, _ => 0 end in
      let m := if max_sequence x <? last_seq then last_seq else max_sequence x in
      (true, if big mem1 then mkRecovered m (done_ x ++ [mem1]) None else mkRecovered m (done_ x) (Some mem1))
    else (false, mkRecovered (max_sequence x) (done_ x) (Some mem1)).

Fixpoint recover_loop (fuel : nat) (r : reader) (status : bool) (x : recovered) : bool * recovered :=
  match fuel with
  | O => (status, x)
  | S fuel =>
      let '(o, r) := ReadRecord true 0 (fun _ => true) r in
      let status := status && negb (reported r) in
      match o with
      | None => (status, x)
      | Some record =>
          if status then
            let '(status, x) := recover_record record x in
            if status then recover_loop fuel r status x else (status, x)
          else (status, x)
      end
  end.

(** Writing a table succeeds: at the end the last memtable becomes one.  The rounds are
    bounded by the bytes of the file. *)
Definition RecoverLogFile (f : list Z) (max : Z) : bool * recovered :=
  let '(status, x) := recover_loop (S (length f)) (reader_new f) true (mkRecovered max [] None) in
  match status, mem x with
  | true, Some m => (true, mkRecovered (max_sequence x) (done_ x ++ [m]) None)
  | _, _ => (status, x)
  end.

End Recover.

(** The logs of the database, oldest first ([DBImpl::Recover]): the status is that of the
    last one. *)
Fixpoint Recover (paranoid_checks : bool) (big : list TableKey -> bool) (logs : list (list Z)) (s : bool) (max : Z)
    (tables : list (list TableKey)) : bool * Z * list (list TableKey) :=
  match logs with
  | [] => (s, max, tables)
  | f :: logs =>
      let '(s, x) := RecoverLogFile paranoid_checks big f max in
      Recover paranoid_checks big logs s (max_sequence x) (tables ++ done_ x)
  end.

(** ** The history of a database *)

(** A batch that was written: its first sequence number, its address and its writes. *)
Definition record : Type := Z * Z * list op.
Definition rec_seq (r : record) : Z := r.1.1.
Definition rec_ops (r : record) : list op := r.2.
Definition rec_entries (r : record) : list ientry := op_entries (rec_seq r) (rec_ops r).
Definition rec_rep (r : record) : list Z := rep_of (rec_seq r) (lenZ (rec_ops r)) (rec_ops r).
(** What goes to the log. *)
Definition rec_log (r : record) : Z * list Z := (r.1.2, rec_rep r).
Definition entries_of (rs : list record) : list ientry := mjoin (rec_entries <$> rs).

Definition op_valid (o : op) : Prop :=
  match o with
  | OpPut key value => user_dom key /\ bytes_ok value /\ lenZ value < 2 ^ 32
  | OpDelete key => user_dom key
  end.

(** A generation holds the batches [h]. *)
Definition gen_is (g : gen) (h : list record) : Prop :=
  g_mem g = adds (entries_of h)
  /\ write_log 0 [] (rec_log <$> h) = (g_offset g, g_log g).

Definition rec_valid (r : record) : Prop :=
  Forall op_valid (rec_ops r) /\ lenZ (rec_ops r) < 2 ^ 31 /\ 1 <= rec_seq r /\ rec_seq r + lenZ (rec_ops r) < 2 ^ 56.

(** The batches of every generation, which a quiet database has all published. *)
Record db_inv (db : DBImpl) (hist : list (list record)) : Prop := mkDbInv {
  di_gens : Forall2 gen_is (gens db) hist;
  di_mem : (mem_ db = 0%nat /\ imm_ db = None /\ length (gens db) = 1%nat)
           \/ (mem_ db = 1%nat /\ imm_ db = Some 0%nat /\ length (gens db) = 2%nat);
  di_valid : Forall rec_valid (mjoin hist);
  di_sorted : StronglySorted Z.lt (e_seq <$> entries_of (mjoin hist));
  di_end : forall r, r ∈ mjoin hist -> rec_seq r + lenZ (rec_ops r) <= LastSequence db;
  di_upper : LastSequence db = writers_upper_ db /\ writers_lower_ db = writers_upper_ db + 1
             /\ 0 <= writers_upper_ db }.

Lemma entries_of_app a b : entries_of (a ++ b) = entries_of a ++ entries_of b.
Proof. unfold entries_of. by rewrite fmap_app, join_app. Qed.

Lemma op_valid_ok o : op_valid o -> op_ok o.
Proof. destruct o as [k v|k]; simpl; [intros ([_ ?] & _ & ?)|intros [_ ?]]; split || idtac; lia. Qed.

Lemma op_entries_in seq ops e : e ∈ op_entries seq ops ->
  exists i o, ops !! i = Some o /\ e = op_entry (seq + Z.of_nat i) o.
Proof.
  revert seq. induction ops as [|o ops IH]; intros seq; [by intros ?%elem_of_nil|]. cbn [op_entries].
  intros [->|(i & o' & Hi & ->)%IH]%elem_of_cons.
  - exists 0%nat, o. split; [done|]. f_equal. lia.
  - exists (S i), o'. split; [done|]. f_equal. lia.
Qed.

Lemma rec_entries_ok r e : rec_valid r -> e ∈ rec_entries r ->
  entry_ok e /\ rec_seq r <= e_seq e < rec_seq r + lenZ (rec_ops r).
Proof.
  intros (Hv & Hl & H1 & H2) (i & o & Hi & ->)%op_entries_in. pose proof (lookup_lt_Some _ _ _ Hi) as Hlt.
  pose proof (Forall_elem _ _ _ Hv (list_elem_of_lookup_2 _ _ _ Hi)) as Ho.
  split; [|destruct o; simpl; lia].
  destruct o as [k v|k]; simpl in Ho; [destruct Ho as ([Hb Hk] & _ & Hvl)|destruct Ho as [Hb Hk]].
  - split; simpl; try done; [lia|by right].
  - split; simpl; try done; [lia|by left].
Qed.

Lemma op_entries_sorted seq ops : StronglySorted Z.lt (e_seq <$> op_entries seq ops).
Proof.
  revert seq. induction ops as [|o ops IH]; intros seq; [constructor|]. cbn [op_entries fmap list_fmap].
  constructor; [apply IH|]. apply List.Forall_forall. intros x (e & -> & (i & o' & _ & ->)%op_entries_in)%list_elem_of_In%list_elem_of_fmap.
  destruct o, o'; simpl; lia.
Qed.

Lemma entries_ok rs : Forall rec_valid rs -> Forall entry_ok (entries_of rs).
Proof.
  intros Hv. apply List.Forall_forall. intros e (es & He & (r & -> & Hr)%list_elem_of_fmap)%list_elem_of_In%list_elem_of_join.
  apply (rec_entries_ok r); [by apply (Forall_elem _ _ _ Hv)|done].
Qed.

Lemma di_le db hist e : db_inv db hist -> e ∈ entries_of (mjoin hist) -> e_seq e <= LastSequence db.
Proof.
  intros Hi (es & He & (r & -> & Hr)%list_elem_of_fmap)%list_elem_of_join. pose proof (di_end _ _ Hi r Hr).
  destruct (rec_entries_ok r e (Forall_elem _ _ _ (di_valid _ _ Hi) Hr) He) as [_ ?]. lia.
Qed.

(** ** Writing keeps the history *)

Lemma log_batch_snoc ptr r g h : gen_is g h -> r.1.2 = ptr ->
  let '(g', s) := log_batch (fun _ => true) ptr (rec_rep r) g in
  s = true /\ g_mem g' = g_mem g
  /\ write_log 0 [] (rec_log <$> (h ++ [r])) = (g_offset g', g_log g').
Proof.
  intros [_ Hl] <-. unfold log_batch. rewrite fmap_app. cbn [fmap list_fmap]. rewrite write_log_snoc, Hl. cbn [fst snd].
  pose proof (write_log_bytes [] (rec_log <$> h)) as Hb. change (lenZ []) with 0 in Hb.
  rewrite Hl in Hb. injection Hb as Ho Hf. simpl in Ho, Hf. rewrite <- Hf in Ho.
  unfold AddRecord. destruct (add_loop_bytes (fuel_for (length (rec_rep r))) (g_log g) r.1.2 true (rec_rep r)) as [_ Hs].
  rewrite <- Ho in Hs. destruct (add_loop _ _ _ _ _ _) as [ws s]. simpl in Hs. by rewrite Hs.
Qed.

(** The record joins the last generation. *)
Definition snoc_last (hist : list (list record)) (r : record) : list (list record) :=
  match list.last hist with
  | Some h => take (length hist - 1) hist ++ [h ++ [r]]
  | None => [[r]]
  end.

Lemma snoc_last_app hist h r : snoc_last (hist ++ [h]) r = hist ++ [h ++ [r]].
Proof.
  unfold snoc_last. rewrite last_snoc, length_app. simpl. f_equal. rewrite Nat.add_sub. by apply take_app_length'.
Qed.

Lemma db_inv_last db hist : db_inv db hist ->
  exists gs g hs h, gens db = gs ++ [g] /\ hist = hs ++ [h] /\ Forall2 gen_is gs hs /\ gen_is g h /\ mem_ db = length gs.
Proof.
  intros [Hg Hm _ _ _ _]. destruct (gens db) as [|g gs] using rev_ind; [destruct Hm as [(_ & _ & ?)|(_ & _ & ?)]; done|].
  clear IHgs. apply Forall2_app_inv_l in Hg as (hs & h' & Hgs & Hg & ->).
  destruct h' as [|h [|]]; [by inversion Hg| |by inversion Hg as [|? ? ? ? ? H']; inversion H'].
  exists gs, g, hs, h. split_and!; try done; [by inversion Hg|].
  rewrite length_app in Hm. simpl in Hm. destruct Hm as [(-> & _ & ?)|(-> & _ & ?)]; lia.
Qed.

Lemma record_in_order db hist ops ptr : db_inv db hist ->
  Forall op_valid ops -> lenZ ops < 2 ^ 31 -> writers_upper_ db + 1 + lenZ ops < 2 ^ 56 ->
  let r := (writers_upper_ db + 1, ptr, ops) in
  rec_valid r /\ StronglySorted Z.lt (e_seq <$> entries_of (mjoin hist ++ [r]))
  /\ (forall r', r' ∈ mjoin hist ++ [r] -> rec_seq r' + lenZ (rec_ops r') <= writers_upper_ db + 1 + lenZ ops).
Proof.
  intros Hi Hops Hlen Hb r. pose proof (fun e => di_le db hist e Hi) as Hle. destruct Hi as [_ _ Hv Hs Hend (HL & Hlo & Hup)].
  assert (rec_valid r) as Hr by (split_and!; unfold rec_seq, rec_ops; simpl; [done|lia..]).
  assert (Hin : forall e, e ∈ entries_of [r] -> writers_upper_ db + 1 <= e_seq e < writers_upper_ db + 1 + lenZ ops).
  { intros e He. unfold entries_of in He. simpl in He. rewrite app_nil_r in He. apply (rec_entries_ok r e Hr He). }
  split; [done|]. rewrite entries_of_app, fmap_app. split.
  - apply StronglySorted_app. split_and!; [|done|unfold entries_of; simpl; rewrite app_nil_r; apply op_entries_sorted].
    intros a b (ea & -> & Ha)%list_elem_of_fmap (eb & -> & Hb')%list_elem_of_fmap.
    specialize (Hle ea Ha). specialize (Hin eb Hb'). lia.
  - intros r' [Hr'|[->|?%elem_of_nil]%elem_of_cons]%elem_of_app; [specialize (Hend r' Hr'); lia|unfold rec_seq, rec_ops; simpl; lia|done].
Qed.

Lemma run_writer_inv db hist ops ptr : db_inv db hist ->
  Forall op_valid ops -> lenZ ops < 2 ^ 31 -> writers_upper_ db + 1 + lenZ ops < 2 ^ 56 ->
  exists w db1, take_ticket db (lenZ ops) = Begun w db1
    /\ exists db', run_writer (fun _ => true) ptr w db1 (batch ops) = Some (true, db')
    /\ db_inv db' (snoc_last hist (writers_upper_ db + 1, ptr, ops))
    /\ writers_upper_ db' = writers_upper_ db + 1 + lenZ ops.
Proof.
  intros Hi Hops Hlen Hb. destruct (record_in_order db hist ops ptr Hi Hops Hlen Hb) as (Hr & Hs & Hle).
  set (r := (writers_upper_ db + 1, ptr, ops)) in *. destruct (db_inv_last db hist Hi) as (gs & g & hs & h & Eg & -> & Hgs & Hg & Em).
  destruct Hi as [_ Hm Hv _ _ (HL & Hlo & Hup)]. rewrite snoc_last_app.
  unfold take_ticket. rewrite (uwrap_small 64 (1 + lenZ ops)), (uwrap_small 64 (writers_upper_ db + _)), uwrap_small by lia. eexists _, _. split; [done|].
  unfold run_writer. cbn [start_sequence w_gen gens]. rewrite Eg, Em, list_lookup_middle by done. cbn [mbind option_bind].
  replace (writers_upper_ db + (1 + lenZ ops) - lenZ ops) with (writers_upper_ db + 1) by lia.
  rewrite batch_rep, SetSequence_rep by lia. change (rep_of (writers_upper_ db + 1) (lenZ ops) ops) with (rec_rep r).
  pose proof (log_batch_snoc ptr r g h Hg eq_refl) as Hlb. destruct (log_batch _ ptr (rec_rep r) g) as [g' s].
  destruct Hlb as (-> & Hm' & Hlog). rewrite Hm'.
  unfold rec_rep, rec_seq, rec_ops. cbn [r fst snd]. rewrite InsertInto_rep;
    [|eapply Forall_impl; [exact Hops|apply op_valid_ok]|lia|lia|lia].
  rewrite bool_decide_true by done. unfold may_end. cbn [set_gen writers_lower_ start_sequence].
  rewrite (proj2 (Z.leb_le _ _)) by lia. eexists. split; [done|]. split; [|simpl; lia].
  unfold signal, publish, set_gen. cbn [gens mem_ imm_ LastSequence writers_lower_ writers_upper_ end_sequence start_sequence].
  rewrite insert_app_r_alt, Nat.sub_diag by lia. cbn [insert list_insert]. rewrite !join_app in *. simpl mjoin in *. rewrite !app_nil_r in *.
  rewrite <- app_assoc in Hs, Hle. split; simpl; rewrite ?join_app; simpl mjoin; rewrite ?app_nil_r; try done.
  - apply Forall2_app; [done|]. constructor; [|constructor]. split; [|done]. simpl. destruct Hg as [-> _].
    rewrite entries_of_app. unfold adds. rewrite foldl_app. unfold entries_of at 3. simpl. by rewrite app_nil_r.
  - rewrite Eg, Em, length_app in Hm. rewrite length_app. exact Hm.
  - apply Forall_app in Hv as [Hv1 Hv2]. apply Forall_app. split; [done|]. apply Forall_app. split; [done|by constructor].
  - intros e He. specialize (Hle e He). lia.
  - rewrite (uwrap_small 64 (1 + _ - _)), uwrap_small by lia. lia.
Qed.

Lemma Open_inv : db_inv Open [[]].
Proof. split; simpl; try done; [by constructor; [|constructor]|by left|constructor|by intros r ?%elem_of_nil]. Qed.

(** A new memtable takes the place of the full one. *)
Lemma switch_inv db hist : db_inv db hist -> imm_ db = None ->
  db_inv (mkDB (gens db ++ [gen_new]) (length (gens db)) (Some (mem_ db)) (LastSequence db)
            (writers_lower_ db) (writers_upper_ db)) (hist ++ [[]]).
Proof.
  intros [Hg Hm Hv Hs Hle Hup] Hi. split; simpl; rewrite ?join_app; simpl; rewrite ?app_nil_r; try done.
  - apply Forall2_app; [done|]. by constructor; [|constructor].
  - rewrite length_app. simpl. destruct Hm as [(-> & _ & ->)|(_ & Hi' & _)]; [by right|congruence].
Qed.

(** What the environment must grant for a write to go through. *)
Definition granted (en : env) (db : DBImpl) : Prop :=
  bg_error_ en = false /\ (room en = true \/ (imm_ db = None /\ new_file en = true)).

Lemma Write_inv en db hist ops ptr : db_inv db hist -> granted en db ->
  Forall op_valid ops -> lenZ ops < 2 ^ 31 -> writers_upper_ db + 1 + lenZ ops < 2 ^ 56 ->
  exists db' hist', Write en (fun _ => true) ptr db (batch ops) = Some (true, db') /\ db_inv db' hist'
    /\ mjoin hist' = mjoin hist ++ [(writers_upper_ db + 1, ptr, ops)]
    /\ writers_upper_ db' = writers_upper_ db + 1 + lenZ ops.
Proof.
  intros Hi [He Hg] Hops Hlen Hb. unfold Write, SequenceWriteBegin. rewrite He.
  assert (Count (batch ops) = Some (lenZ ops)) as -> by (rewrite batch_rep by lia; apply Count_header; lia).
  rewrite (uwrap_small 64 (lenZ ops)) by lia.
  assert (Hjoin : forall hist r, hist <> [] -> mjoin (snoc_last hist r) = mjoin hist ++ [r]).
  { intros hs r Hn. destruct hs as [|h hs] using rev_ind; [done|]. rewrite snoc_last_app, !join_app. simpl.
    by rewrite !app_nil_r, app_assoc. }
  assert (Hne : hist <> []).
  { intros ->. destruct (db_inv_last db [] Hi) as (? & ? & hs & ? & _ & E & _). by destruct hs. }
  destruct (room en) eqn:Hroom.
  - destruct (run_writer_inv db hist ops ptr Hi Hops Hlen Hb) as (w & db1 & -> & db' & -> & Hi' & Hu).
    exists db', (snoc_last hist (writers_upper_ db + 1, ptr, ops)). split_and!; try done. by apply Hjoin.
  - destruct Hg as [?|[Him Hnf]]; [done|]. rewrite Him, Hnf. pose proof (switch_inv db hist Hi Him) as Hi2.
    destruct (run_writer_inv _ _ ops ptr Hi2 Hops Hlen Hb) as (w & db1 & -> & db' & -> & Hi' & Hu).
    eexists db', _. split_and!; [done|exact Hi'| |done]. rewrite Hjoin by (by intros [_ ?]%app_nil). simpl.
    rewrite join_app. simpl. by rewrite !app_nil_r.
Qed.

(** A sequence of writes: for each the environment, the address of the batch and its
    writes.  [None]: a write failed or waits. *)
Fixpoint writes (ws : list (env * Z * list op)) (db : DBImpl) : option DBImpl :=
  match ws with
  | [] => Some db
  | (en, ptr, ops) :: ws =>
      match Write en (fun _ => true) ptr db (batch ops) with
      | Some (true, db) => writes ws db
      | _ => None
      end
  end.
(** The sequence numbers that they use. *)
Definition tickets (ws : list (env * Z * list op)) : Z := foldr (fun w n => 1 + lenZ w.2 + n) 0 ws.
Definition ws_valid (ws : list (env * Z * list op)) : Prop :=
  Forall (fun w => Forall op_valid w.2 /\ lenZ w.2 < 2 ^ 31) ws.

Lemma tickets_nonneg ws : 0 <= tickets ws.
Proof. induction ws as [|w ws IH]; simpl; lia. Qed.

Lemma writes_inv ws db hist db' : db_inv db hist -> ws_valid ws -> writers_upper_ db + tickets ws < 2 ^ 56 ->
  writes ws db = Some db' ->
  exists hist' new, db_inv db' hist' /\ mjoin hist' = mjoin hist ++ new /\ mjoin (rec_ops <$> new) = mjoin (snd <$> ws)
    /\ (forall r, r ∈ new -> writers_upper_ db < rec_seq r) /\ writers_upper_ db' = writers_upper_ db + tickets ws.
Proof.
  revert db hist. induction ws as [|[[en ptr] ops] ws IH]; intros db hist Hi Hv Hb Hw.
  { injection Hw as <-. exists hist, []. simpl. rewrite app_nil_r. split_and!; try done; [by intros r ?%elem_of_nil|lia]. }
  apply Forall_cons_1 in Hv as [[Hops Hlen] Hv]. simpl in Hops, Hlen, Hb. pose proof (tickets_nonneg ws).
  cbn [writes] in Hw.
  assert (granted en db) as Hg.
  { unfold Write, SequenceWriteBegin in Hw. destruct (bg_error_ en) eqn:E1; [done|]. split; [done|].
    destruct (room en); [by left|]. right. destruct (imm_ db); [done|]. by destruct (new_file en). }
  destruct (Write_inv en db hist ops ptr Hi Hg Hops Hlen) as (db1 & hist1 & E & Hi1 & Hj & Hu); [lia|].
  rewrite E in Hw. destruct (IH db1 hist1 Hi1 Hv) as (hist' & new & Hi' & Hj' & Ho & Hn & Hu'); [lia|done|].
  exists hist', ((writers_upper_ db + 1, ptr, ops) :: new). split_and!; [done|..].
  - rewrite Hj', Hj. by rewrite <- app_assoc.
  - simpl. f_equal. done.
  - intros r [->|Hr]%elem_of_cons; [unfold rec_seq; simpl; lia|]. specialize (Hn r Hr). lia.
  - simpl. lia.
Qed.

(** ** Reading *)

(** The database of the contract after some writes. *)
Definition spec_op (d : list_db) (o : op) : list_db :=
  match o with OpPut key value => db_put d key value | OpDelete key => db_delete d key end.
Definition replay (ops : list op) : list_db := foldl spec_op empty_db ops.

(** [es] are the versions that [ops] write. *)
Definition versions (es : list ientry) (ops : list op) : Prop := Forall2 (fun e o => e = op_entry (e_seq e) o) es ops.

Lemma versions_op s ops : versions (op_entries s ops) ops.
Proof. revert s. induction ops as [|o ops IH]; intros s; constructor; [by destruct o|apply IH]. Qed.

Lemma versions_entries rs : versions (entries_of rs) (mjoin (rec_ops <$> rs)).
Proof.
  induction rs as [|r rs IH]; [constructor|]. unfold entries_of in *. cbn [fmap list_fmap].
  change (mjoin (rec_entries r :: ?l)) with (rec_entries r ++ mjoin l). change (mjoin (rec_ops r :: ?l)) with (rec_ops r ++ mjoin l).
  apply Forall2_app; [apply versions_op|done].
Qed.

Lemma replay_newest es ops s u : versions es ops -> StronglySorted Z.lt (e_seq <$> es) -> (forall e, e ∈ es -> e_seq e <= s) ->
  u ∈ entries (replay ops) <-> exists x, newest es u.1 s x /\ e_type x = kTypeValue /\ e_value x = u.2.
Proof.
  revert ops. induction es as [|e es IH] using rev_ind; intros ops Hv Hs Hle.
  { apply Forall2_nil_inv_l in Hv as ->. split; [by intros ?%elem_of_nil|by intros (x & (?%elem_of_nil & _) & _)]. }
  apply Forall2_app_inv_l in Hv as (ops' & o' & Hv & Ho & ->).
  apply Forall2_cons_inv_l in Ho as (o & l & Ho & ->%Forall2_nil_inv_l & ->).
  rewrite fmap_app in Hs. apply StronglySorted_app in Hs as (Hlt & Hs & _).
  assert (He : e_seq e <= s) by (apply Hle, elem_of_app; right; left).
  assert (Hlast : forall x, x ∈ es -> e_seq x < e_seq e).
  { intros x Hx. apply Hlt; [by apply list_elem_of_fmap_2|left]. }
  unfold replay. rewrite foldl_app. cbn [foldl]. fold (replay ops'). specialize (IH ops' Hv Hs ltac:(intros; apply Hle, elem_of_app; by left)).
  assert (Hnew : forall k x, newest (es ++ [e]) k s x <-> (x = e /\ e_key e = k) \/ (e_key e <> k /\ newest es k s x)).
  { intros k x. unfold newest. setoid_rewrite elem_of_app. setoid_rewrite list_elem_of_singleton. split.
    - intros ([Hx| ->] & Hk & Hsx & Hm); [|by left]. right. split; [|naive_solver].
      intros Hke. specialize (Hm e (or_intror eq_refl) Hke He). specialize (Hlast x Hx). lia.
    - intros [[-> Hk]|[Hn (Hx & Hk & Hsx & Hm)]]; [|naive_solver]. split_and!; [by right|done|done|].
      intros e' [He'| ->] _ _; [|done]. specialize (Hlast e' He'). lia. }
  setoid_rewrite Hnew. destruct o as [k v|k]; cbn [spec_op]; simpl in Ho.
  - rewrite entries_put, IH. rewrite Ho. destruct u as [uk uv]. simpl. split.
    + intros [[= -> ->]|(Hn & x & Hx)]; [exists e; rewrite Ho; by split; [left|]|]. exists x. split; [right|]; naive_solver.
    + intros (x & [[-> Hk]|[Hn Hx]] & Ht & Hvl); [left; rewrite Ho in Hvl; simpl in Hvl; congruence|right; naive_solver].
  - rewrite entries_delete, IH. rewrite Ho. simpl. split.
    + intros (Hn & x & Hx). exists x. split; [right|]; naive_solver.
    + intros (x & [[-> Hk]|[Hn Hx]] & Ht & Hvl); [rewrite Ho in Ht; done|naive_solver].
Qed.

Lemma view_parts e : entry_ok e -> ukey (e_view e) = e_key e /\ vseq (e_view e) = e_seq e /\ vtype (e_view e) = e_type e
  /\ vtag (e_view e) = e_tag e.
Proof.
  intros He. destruct (pack_tag (e_seq e) (e_type e)) as (_ & _ & Ht & Hs); [apply He..|].
  unfold ukey, vseq, vtype, vtag, e_view, ikey. cbn [fst]. rewrite ExtractUserKey_app, key_tag_app by (by apply e_tag_range).
  simpl. unfold e_tag. done.
Qed.

(** The user's view of the entries [es]: the newest version of every key. *)
Lemma view_newest c es s u : Forall entry_ok es -> distinct es -> (forall e, e ∈ c <-> e ∈ e_view <$> es) ->
  u ∈ view s c <-> exists x, newest es u.1 s x /\ e_type x = kTypeValue /\ e_value x = u.2.
Proof.
  intros Hok Hd Hc.
  assert (Hin : forall x, x ∈ es -> entry_ok x) by (intros x Hx; by apply (Forall_elem _ _ _ Hok)).
  assert (Hcounts : forall x, x ∈ es -> counts s c (e_view x) <-> newest es (e_key x) s x).
  { intros x Hx. destruct (view_parts x (Hin x Hx)) as (Hk & Hs & _ & Ht). unfold counts, newest, visible. rewrite Hk, Hs.
    setoid_rewrite Hc. rewrite Z.leb_le. split.
    - intros (_ & Hv & Hf). split_and!; [done..|]. intros y Hy Hky Hsy.
      destruct (view_parts y (Hin y Hy)) as (Hk' & Hs' & _ & Ht'). specialize (Hf (e_view y) (list_elem_of_fmap_2 _ _ _ Hy)).
      rewrite Hk', Hs', Z.leb_le in Hf. specialize (Hf Hsy Hky). rewrite klt_view in Hf by auto.
      unfold e_lt, e_compare in Hf. rewrite Hky, (proj2 (Slice_compare_eq _ _) eq_refl), Z.compare_lt_iff in Hf.
      pose proof (ok_type x (Hin x Hx)). pose proof (ok_type y (Hin y Hy)). unfold e_tag, kTypeDeletion, kTypeValue in *. lia.
    - intros (_ & _ & Hv & Hm). split_and!; [by apply list_elem_of_fmap_2|done|].
      intros z (y & -> & Hy)%list_elem_of_fmap. destruct (view_parts y (Hin y Hy)) as (Hk' & Hs' & _ & Ht').
      rewrite Hk', Hs', Z.leb_le. intros Hsy Hky. specialize (Hm y Hy Hky Hsy). rewrite klt_view by auto.
      unfold e_lt, e_compare. rewrite Hky, (proj2 (Slice_compare_eq _ _) eq_refl), Z.compare_lt_iff.
      pose proof (ok_type x (Hin x Hx)). pose proof (ok_type y (Hin y Hy)). unfold e_tag, kTypeDeletion, kTypeValue in *.
      intros Hlt. assert (y = x) as -> by (apply (distinct_eq es); [done..|lia]). lia. }
  rewrite elem_of_view. split.
  - intros (e & Hce & Ht & ->). pose proof Hce as (He & _). apply Hc, list_elem_of_fmap in He as (x & -> & Hx).
    destruct (view_parts x (Hin x Hx)) as (Hk & _ & Ht' & _). exists x. simpl. rewrite Hk. rewrite Ht' in Ht.
    split; [by apply Hcounts|done].
  - intros (x & Hn & Ht & Hv). pose proof Hn as (Hx & Hk & _). destruct (view_parts x (Hin x Hx)) as (Hk' & _ & Ht' & _).
    exists (e_view x). rewrite Ht', Hk'. split; [apply Hcounts; [done|by rewrite Hk]|]. split; [done|].
    destruct u as [uk uv]. simpl in *. by subst.
Qed.

Lemma sorted_distinct es : StronglySorted Z.lt (e_seq <$> es) -> distinct es.
Proof.
  unfold distinct. induction (e_seq <$> es) as [|x l IH]; [constructor|]. intros Hs. inversion Hs as [|? ? Hs' Hx]; subst.
  apply list.NoDup_cons. split; [|by apply IH]. intros Hin. pose proof (Forall_elem _ _ _ Hx Hin). simpl in *. lia.
Qed.

(** Two sorted lists with the same entries. *)
Lemma sorted_unique (a b : list entry) : StronglySorted (fun x y => key_lt x.1 y.1) a -> StronglySorted (fun x y => key_lt x.1 y.1) b ->
  (forall e, e ∈ a <-> e ∈ b) -> a = b.
Proof.
  intros Ha. revert b. induction Ha as [|x a Ha IH Hx]; intros b Hb Hab.
  { destruct b as [|y b]; [done|]. destruct (proj1 (elem_of_nil y)). apply Hab. left. }
  destruct Hb as [|y b Hb Hy]; [destruct (proj1 (elem_of_nil x)); apply Hab; left|].
  assert (Hirr : forall (z : entry), ~ key_lt z.1 z.1) by (intros z; apply key_lt_irrefl).
  assert (x = y) as <-.
  { pose proof (proj1 (Hab x) ltac:(left)) as [->|Hxb]%elem_of_cons; [done|].
    pose proof (proj2 (Hab y) ltac:(left)) as [->|Hya]%elem_of_cons; [done|].
    destruct (Hirr x). apply (key_lt_trans _ y.1); [exact (Forall_elem _ _ _ Hx Hya)|exact (Forall_elem _ _ _ Hy Hxb)]. }
  f_equal. apply IH; [done|]. intros e. specialize (Hab e). rewrite !elem_of_cons in Hab. split; intros He.
  - destruct (proj1 Hab (or_intror He)) as [->|]; [|done]. by destruct (Hirr x (Forall_elem _ _ _ Hx He)).
  - destruct (proj2 Hab (or_intror He)) as [->|]; [|done]. by destruct (Hirr x (Forall_elem _ _ _ Hy He)).
Qed.

Lemma entries_StronglySorted (d : list_db) : StronglySorted (fun x y : entry => key_lt x.1 y.1) (entries d).
Proof.
  pose proof (entries_sorted d) as Hs. revert Hs. induction (entries d) as [|e l IH]; intros Hs; [constructor|].
  apply sorted_cons in Hs as [Hs He]. constructor; [by apply IH|]. apply List.Forall_forall. intros x Hx%list_elem_of_In. by apply He.
Qed.

(** An iterator over memtables that hold the versions [es1], which [ops] write, and later ones. *)
Lemma memtables_listing ess es1 es2 ops s :
  Forall entry_ok (mjoin ess) -> mjoin ess ≡ₚ es1 ++ es2 -> distinct (es1 ++ es2) -> StronglySorted Z.lt (e_seq <$> es1) ->
  versions es1 ops -> (forall e, e ∈ es1 -> e_seq e <= s) -> (forall e, e ∈ es2 -> s < e_seq e) -> 0 <= s < 2 ^ 56 ->
  let it := NewDBIterator (NewMergingIterator ((fun es => NewIterator (adds es)) <$> ess)) s in
  iter_ok it /\ listing it = entries (replay ops) /\ (forall u, u ∈ content it <-> u ∈ entries (replay ops)).
Proof.
  intros Hok Hp Hd Hs Hv H1 H2 Hsr it.
  assert (distinct (mjoin ess)) as Hd' by (unfold distinct; by rewrite Hp).
  destruct (NewIterators_ok ess Hok Hd') as [Ho Hc].
  destruct (@NewMergingIterator_ok internal_order _ _ ((fun es => NewIterator (adds es)) <$> ess) Ho) as [Hoi Hci].
  { rewrite Hc. destruct (NewIterator_ok _ Hok Hd') as [Ho' Hc']. rewrite <- Hc'. by apply (@content_ok internal_order). }
  assert (db_ok it) as Hit by (by split).
  assert (Hcont : forall u, u ∈ content it <-> u ∈ entries (replay ops)).
  { intros u. rewrite (replay_newest es1 ops s) by done.
    change (content it) with (view s (@content internal_order _ _ (NewMergingIterator ((fun es => NewIterator (adds es)) <$> ess)))).
    rewrite (view_newest _ (mjoin ess)); [|done|done|intros e; by rewrite Hci, Hc].
    assert (Hn : forall x, newest (mjoin ess) u.1 s x <-> newest es1 u.1 s x); [|by setoid_rewrite Hn].
    intros x. unfold newest. setoid_rewrite Hp. setoid_rewrite elem_of_app. split.
    - intros ([Hx|Hx] & Hk & Hle & Hm); [naive_solver|]. specialize (H2 x Hx). lia.
    - intros (Hx & Hk & Hle & Hm). split_and!; [by left|done..|]. intros y [Hy|Hy] Hky Hly; [by apply Hm|]. specialize (H2 y Hy). lia. }
  split_and!; [done| |done]. destruct (@listing_spec user_order _ db_iterator it Hit) as [Hl1 Hl2].
  apply sorted_unique; [done|apply entries_StronglySorted|]. intros e. by rewrite Hl2, Hcont.
Qed.

(** The memtables of a database, as lists of entries. *)
Definition mem_entries (hist : list (list record)) : list (list ientry) := entries_of <$> reverse hist.

Lemma memtables_entries db hist : db_inv db hist ->
  memtables db = (adds <$> mem_entries hist) /\ mjoin (mem_entries hist) ≡ₚ entries_of (mjoin hist).
Proof.
  intros [Hg Hm _ _ _ _]. unfold memtables, mem_of, mem_entries. destruct Hm as [(-> & -> & Hl)|(-> & -> & Hl)].
  - destruct (gens db) as [|g [|]]; [done| |done]. apply Forall2_cons_inv_l in Hg as (h & l & [Hg _] & ->%Forall2_nil_inv_l & ->).
    simpl. by rewrite Hg, !app_nil_r.
  - destruct (gens db) as [|g [|g' [|]]]; [done|done| |done].
    apply Forall2_cons_inv_l in Hg as (h & l & [Hg _] & Hl' & ->).
    apply Forall2_cons_inv_l in Hl' as (h' & l' & [Hg' _] & ->%Forall2_nil_inv_l & ->).
    simpl. rewrite Hg, Hg', !app_nil_r. split; [done|]. rewrite entries_of_app. apply Permutation_app_comm.
Qed.

(** A lookup goes through the memtables from the newest on. *)
Definition newer (a b : list ientry) : Prop := forall x y, x ∈ a -> y ∈ b -> e_seq y < e_seq x.

Lemma get_first_newest ess key s :
  Forall entry_ok (mjoin ess) -> Forall distinct ess -> StronglySorted newer ess -> user_dom key -> 0 <= s < 2 ^ 56 ->
  (exists e, newest (mjoin ess) key s e /\ get_first (adds <$> ess) key s = outcome e)
  \/ ((forall x, x ∈ mjoin ess -> e_key x = key -> s < e_seq x) /\ get_first (adds <$> ess) key s = Missing).
Proof.
  intros Hok Hd Hs [Hb Hl] Hsr. induction Hs as [|es ess Hs IH Hn]; [right; split; [by intros x ?%elem_of_nil|done]|].
  change (mjoin (es :: ess)) with (es ++ mjoin ess) in *. cbn [fmap list_fmap get_first].
  apply Forall_app in Hok as [Hok1 Hok2]. apply Forall_cons_1 in Hd as [Hd1 Hd2].
  assert (Hafter : forall x y, x ∈ es -> y ∈ mjoin ess -> e_seq y < e_seq x).
  { intros x y Hx (l & Hyl & Hl')%list_elem_of_join. by apply (Forall_elem _ _ _ Hn Hl'). }
  destruct (Get_adds es key s Hok1 Hd1 Hb Hl Hsr) as [(e & (He & Hk & Hle & Hm) & ->)|[Hno ->]].
  - left. exists e. split; [|unfold outcome; by destruct (e_type e =? kTypeValue)]. split_and!; [apply elem_of_app; by left|done..|].
    intros y [Hy|Hy]%elem_of_app Hky Hly; [by apply Hm|]. specialize (Hafter e y He Hy). lia.
  - destruct (IH Hok2 Hd2) as [(e & (He & Hk & Hle & Hm) & Hg)|[Hno' Hg]].
    + left. exists e. split; [|done]. split_and!; [apply elem_of_app; by right|done..|].
      intros y [Hy|Hy]%elem_of_app Hky Hly; [specialize (Hno y Hy Hky); lia|by apply Hm].
    + right. split; [|done]. intros x [Hx|Hx]%elem_of_app; [by apply Hno|by apply Hno'].
Qed.

Lemma mem_entries_newer hist : StronglySorted Z.lt (e_seq <$> entries_of (mjoin hist)) ->
  Forall distinct (mem_entries hist) /\ StronglySorted newer (mem_entries hist).
Proof.
  unfold mem_entries. induction hist as [|h hist IH] using rev_ind; intros Hs; [split; constructor|].
  rewrite reverse_snoc, join_app, entries_of_app, fmap_app in *. simpl mjoin in Hs. rewrite app_nil_r in Hs.
  apply StronglySorted_app in Hs as (Hlt & Hs1 & Hs2). destruct (IH Hs1) as [IH1 IH2]. cbn [fmap list_fmap]. split.
  - constructor; [by apply sorted_distinct|done].
  - constructor; [done|]. apply List.Forall_forall.
    intros es (h' & -> & Hh')%list_elem_of_In%list_elem_of_fmap x y Hx Hy. rewrite elem_of_reverse in Hh'.
    apply Hlt; apply list_elem_of_fmap_2; [|done]. unfold entries_of in *.
    apply list_elem_of_join in Hy as (l & Hyl & (r & -> & Hr)%list_elem_of_fmap). apply list_elem_of_join.
    exists (rec_entries r). split; [done|]. apply list_elem_of_fmap_2, list_elem_of_join. by exists h'.
Qed.

(** [Seek] of an iterator that ranges over the entries of the reference database. *)
Lemma seek_head {I} {internal_iterator : @Iterator internal_order I} (it : @DBIter I) (d : list_db) key : iter_ok it -> (forall u, u ∈ content it <-> u ∈ entries d) -> user_dom key ->
  cur (Seek it key) = head (seek key (entries d)).
Proof.
  intros Hio Hc Hkey. destruct (@Seek_best user_order _ db_iterator it key Hio Hkey) as (_ & _ & Hb).
  apply (best_unique kForward (fun u : entry => Slice_compare u.1 key <> Lt) (content it) (entries d));
    [by apply content_ok|done|done|].
  pose proof (entries_sorted d) as Hes. pose proof (seek_sorted key _ Hes) as Hsk.
  pose proof (fun e => elem_of_seek key (entries d) e Hes) as Hin.
  destruct (seek key (entries d)) as [|x l]; simpl.
  - intros e He' Hc'. destruct (proj1 (elem_of_nil e)). by apply Hin.
  - destruct (proj1 (Hin x) ltac:(left)) as [Hx Hcx]. split_and!; [done..|]. intros e He' Hc'.
    apply sorted_cons in Hsk as [_ Hsk]. pose proof (proj2 (Hin e) (conj He' Hc')) as [->|Hel]%elem_of_cons; [by left|right].
    by apply Hsk.
Qed.

(** A database at a snapshot [s]: its versions are [es1], which [ops] write, and later ones. *)
Section Reading.
Context (db : DBImpl) (hist : list (list record)) (es1 es2 : list ientry) (ops : list op) (s : Z).
Context (Hi : db_inv db hist) (He : entries_of (mjoin hist) = es1 ++ es2) (Hv : versions es1 ops).
Context (H1 : forall e, e ∈ es1 -> e_seq e <= s) (H2 : forall e, e ∈ es2 -> s < e_seq e) (Hs : 0 <= s < 2 ^ 56).

Lemma reading_ok : Forall entry_ok (mjoin (mem_entries hist)).
Proof using All.
  destruct (memtables_entries db hist Hi) as [_ Hp]. rewrite Hp. apply entries_ok, (di_valid _ _ Hi).
Qed.

Lemma reading_iterator :
  let it := DBImpl_NewIterator db (Some s) in
  listing it = entries (replay ops)
  /\ forall key, user_dom key -> cur (Seek it key) = head (seek key (entries (replay ops))).
Proof using All.
  intros it. destruct (memtables_entries db hist Hi) as [Hme Hp]. pose proof (di_sorted _ _ Hi) as Hss.
  assert (it = NewDBIterator (NewMergingIterator ((fun es => NewIterator (adds es)) <$> mem_entries hist)) s) as Hit.
  { unfold it, DBImpl_NewIterator, NewInternalIterator. by rewrite Hme, <- list_fmap_compose. }
  destruct (memtables_listing (mem_entries hist) es1 es2 ops s) as (Hio & Hl & Hc);
    [apply reading_ok|by rewrite Hp, He|rewrite <- He; by apply sorted_distinct| |done..|].
  { rewrite He, fmap_app in Hss. by apply StronglySorted_app in Hss as (_ & ? & _). }
  rewrite <- Hit in *. split; [done|].
  intros key Hkey. by apply seek_head.
Qed.

Lemma reading_newest key x : newest (mjoin (mem_entries hist)) key s x <-> newest es1 key s x.
Proof using All.
  destruct (memtables_entries db hist Hi) as [_ Hp]. unfold newest. setoid_rewrite Hp. rewrite He. setoid_rewrite elem_of_app. split.
  - intros ([Hx|Hx] & Hk & Hle & Hm); [naive_solver|]. specialize (H2 x Hx). lia.
  - intros (Hx & Hk & Hle & Hm). split_and!; [by left|done..|]. intros y [Hy|Hy] Hky Hly; [by apply Hm|]. specialize (H2 y Hy). lia.
Qed.

Lemma reading_get key : user_dom key -> DBImpl_Get db (Some s) key = assoc key (entries (replay ops)).
Proof using All.
  intros Hkey. destruct (memtables_entries db hist Hi) as [Hme Hp]. pose proof (di_sorted _ _ Hi) as Hss.
  unfold DBImpl_Get. rewrite Hme. change (default (LastSequence db) (Some s)) with s.
  destruct (mem_entries_newer hist Hss) as [Hd Hn]. rewrite He, fmap_app in Hss. apply StronglySorted_app in Hss as (_ & Hs1 & _).
  assert (Hr : forall v, (key, v) ∈ entries (replay ops)
    <-> exists x, newest es1 key s x /\ e_type x = kTypeValue /\ e_value x = v) by (intros v; by rewrite (replay_newest es1 ops s)).
  destruct (get_first_newest (mem_entries hist) key s reading_ok Hd Hn Hkey Hs) as [(e & Hne & ->)|[Hno ->]].
  - apply reading_newest in Hne. unfold outcome. destruct (Z.eqb_spec (e_type e) kTypeValue) as [Ht|Ht]; symmetry.
    + apply assoc_Some; [apply entries_sorted|]. apply Hr. by exists e.
    + apply assoc_None. intros v (x & Hx & Htx & _)%Hr.
      by rewrite (newest_unique es1 key s e x (sorted_distinct _ Hs1) Hne Hx) in Ht.
  - symmetry. apply assoc_None. intros v (x & Hx & _)%Hr. apply reading_newest in Hx as (Hx & Hk & Hle & _).
    specialize (Hno x Hx Hk). lia.
Qed.

End Reading.


(** Two writes, a switch of the memtable, and a deletion that the snapshot does not see. *)
Definition sample_ws1 : list (env * Z * list op) :=
  [(mkEnv false true true, 0, [OpPut [98] [50]; OpPut [97] [49]]); (mkEnv false false true, 100, [OpPut [98] [51]])].
Definition sample_ws2 : list (env * Z * list op) := [(mkEnv false true true, 200, [OpDelete [97]])].

Lemma sample_valid : ws_valid (sample_ws1 ++ sample_ws2).
Proof. repeat constructor; vm_compute; congruence. Qed.


(** ** Recovery *)

Lemma slice_ok v : bytes_ok v -> bytes_ok (PutLengthPrefixedSlice [] v).
Proof. intros Hv. unfold PutLengthPrefixedSlice, PutVarint32. simpl. apply Forall_app. split; [apply varint32_ok|done]. Qed.

Lemma rec_rep_ok r : rec_valid r -> bytes_ok (rec_rep r).
Proof.
  intros (Hv & _). unfold rec_rep, rep_of. apply Forall_app. split; [apply le_bytes_ok|].
  apply Forall_app. split; [apply le_bytes_ok|]. unfold body. induction Hv as [|o ops Ho Hv IH]; [constructor|].
  cbn [fmap list_fmap]. change (mjoin (?a :: ?b)) with (a ++ mjoin b). apply Forall_app. split; [|done].
  destruct o as [k v|k]; cbn [op_bytes]; (constructor; [unfold is_byte, kTypeValue, kTypeDeletion; lia|]).
  - destruct Ho as ([Hk _] & Hvl & _). apply Forall_app. split; by apply slice_ok.
  - apply slice_ok, Ho.
Qed.

(** The state of the recovery: the entries of the memtables that are done, and of the
    current one. *)
Definition recovers (x : recovered) (segs : list (list ientry)) (now : list ientry) (max : Z) : Prop :=
  done_ x = adds <$> segs /\ match mem x with Some m => m = adds now | None => now = [] end /\ max_sequence x = max.

Definition rec_last (r : record) : Z := rec_seq r + lenZ (rec_ops r) - 1.

Section Recovery.
Context (paranoid_checks : bool) (big : list TableKey -> bool).

Lemma recover_record_rep r x segs now max : rec_valid r -> recovers x segs now max ->
  exists x' segs' now', recover_record paranoid_checks big (rec_rep r) x = (true, x')
    /\ recovers x' segs' now' (Z.max max (rec_last r)) /\ mjoin segs' ++ now' = mjoin segs ++ now ++ rec_entries r.
Proof.
  intros (Hv & Hl & H1 & H2) (Hd & Hm & Hmax). unfold recover_record.
  assert (12 <= lenZ (rec_rep r)) as Hlen.
  { unfold rec_rep, rep_of. destruct (batch_header_length (rec_seq r) (lenZ (rec_ops r)) (body (rec_ops r))) as (_ & _ & ->). lia. }
  rewrite (proj2 (Z.ltb_ge _ _)) by done. unfold rec_rep at 1. rewrite InsertInto_rep;
    [|eapply Forall_impl; [exact Hv|apply op_valid_ok]|lia|lia|lia].
  rewrite bool_decide_true by done. cbn [orb].
  assert (Sequence (rec_rep r) = Some (rec_seq r)) as -> by (apply Sequence_header; lia).
  assert (Count (rec_rep r) = Some (lenZ (rec_ops r))) as -> by (apply Count_header; lia).
  rewrite uwrap_small by lia. fold (rec_last r). rewrite Hmax.
  assert ((if max <? rec_last r then rec_last r else max) = Z.max max (rec_last r)) as -> by (zcase; lia).
  assert (foldl add_entry (default [] (mem x)) (op_entries (rec_seq r) (rec_ops r)) = adds (now ++ rec_entries r)) as ->.
  { unfold adds at 1. rewrite foldl_app. fold (adds now). destruct (mem x); simpl; by subst. }
  destruct (big (adds (now ++ rec_entries r))).
  - eexists _, (segs ++ [now ++ rec_entries r]), []. split; [done|]. split.
    + split_and!; [|done..]. simpl. by rewrite Hd, fmap_app.
    + rewrite join_app. simpl. by rewrite !app_nil_r.
  - eexists _, segs, (now ++ rec_entries r). split; [done|]. by split.
Qed.

(** The bytes of a log from an offset on. *)
Abbreviation log_of rs := (rec_log <$> rs).

Lemma recover_loop_log fuel F pos r rs pre x segs now max :
  reader_at F pos r -> lenZ pre = pos -> 0 <= last_record_offset r -> Forall rec_valid rs ->
  F = pre ++ log_bytes pos (log_of rs) -> (length rs < fuel)%nat -> recovers x segs now max ->
  exists x' segs' now', recover_loop paranoid_checks big fuel r true x = (true, x')
    /\ recovers x' segs' now' (foldl Z.max max (rec_last <$> rs)) /\ mjoin segs' ++ now' = mjoin segs ++ now ++ entries_of rs.
Proof.
  revert fuel pos r pre x segs now max. induction rs as [|rc rs IH]; intros [|fuel] pos r pre x segs now max Hat Hpre Hl Hv HF Hf Hx;
    simpl in Hf; try lia; cbn [recover_loop].
  - rewrite app_nil_r in HF. subst pre. rewrite <- Hpre in Hat. destruct (ReadRecord_end F r Hat Hl) as (r' & -> & Hdr).
    unfold reported. rewrite Hdr, bool_decide_true, andb_false_r by done. exists x, segs, now. simpl.
    split; [done|]. split; [done|]. by rewrite app_nil_r.
  - apply Forall_cons_1 in Hv as [Hrc Hv]. cbn [fmap list_fmap log_bytes] in HF.
    destruct (ReadRecord_at F pos r rc.1.2 (rec_rep rc) pre _ Hat Hpre (rec_rep_ok rc Hrc) Hl HF) as (r1 & -> & Hat1 & Hl1).
    unfold reported. rewrite (at_drops _ _ _ Hat1), bool_decide_true, andb_false_r by done. cbn [andb negb].
    destruct (recover_record_rep rc x segs now max Hrc Hx) as (x1 & segs1 & now1 & -> & Hx1 & Hj1).
    set (bs := record_bytes _ pos rc.1.2 true (rec_rep rc)) in *.
    destruct (IH fuel _ r1 (pre ++ bs) x1 segs1 now1 (Z.max max (rec_last rc)) Hat1) as (x' & segs' & now' & E & Hx' & Hj'); try done; try lia.
    { rewrite length_app. lia. } { by rewrite <- app_assoc. }
    exists x', segs', now'. split; [done|]. split; [done|]. rewrite Hj', app_assoc, Hj1.
    change (rc :: rs) with ([rc] ++ rs). rewrite entries_of_app. unfold entries_of at 2. simpl. by rewrite app_nil_r, <- !app_assoc.
Qed.

Lemma log_bytes_length rs o : 0 <= o -> (length rs <= length (log_bytes o (log_of rs)))%nat.
Proof. intros Ho. pose proof (log_bytes_count (log_of rs) o Ho) as H. by rewrite length_fmap in H. Qed.

Lemma RecoverLogFile_gen g h max : gen_is g h -> Forall rec_valid h ->
  exists x segs, RecoverLogFile paranoid_checks big (g_log g) max = (true, x) /\ done_ x = adds <$> segs
    /\ mjoin segs = entries_of h /\ max_sequence x = foldl Z.max max (rec_last <$> h).
Proof.
  intros [_ Hw] Hv. pose proof (write_log_bytes [] (log_of h)) as Hb. change (lenZ []) with 0 in Hb. rewrite Hw in Hb.
  injection Hb as _ Hf. cbn [app] in Hf. unfold RecoverLogFile.
  destruct (recover_loop_log (S (length (g_log g))) (g_log g) 0 (reader_new (g_log g)) h [] (mkRecovered max [] None) [] [] max)
    as (x & segs & now & -> & (Hd & Hm & Hmax) & Hj); try done.
  - apply reader_new_at.
  - rewrite Hf. pose proof (log_bytes_length h 0 ltac:(lia)). lia.
  - simpl in Hj. destruct (mem x) as [m|].
    + subst m. eexists _, (segs ++ [now]). split; [done|]. simpl. rewrite Hd, fmap_app, join_app. simpl. by rewrite app_nil_r.
    + subst now. rewrite app_nil_r in Hj. by exists x, segs.
Qed.

Lemma Recover_gens gs hs s max tables segs : Forall2 gen_is gs hs -> Forall rec_valid (mjoin hs) -> tables = adds <$> segs ->
  s = true ->
  exists segs', Recover paranoid_checks big (g_log <$> gs) s max tables
    = (true, foldl Z.max max (rec_last <$> mjoin hs), adds <$> (segs ++ segs')) /\ mjoin segs' = entries_of (mjoin hs).
Proof.
  intros Hg. revert s max tables segs. induction Hg as [|g h gs hs Hgh Hg IH]; intros s max tables segs Hv -> ->.
  { exists []. simpl. by rewrite app_nil_r. }
  change (mjoin (h :: hs)) with (h ++ mjoin hs) in *. apply Forall_app in Hv as [Hv1 Hv2]. cbn [fmap list_fmap Recover].
  destruct (RecoverLogFile_gen g h max Hgh Hv1) as (x & sg & -> & Hd & Hj & Hmax).
  destruct (IH true (max_sequence x) ((adds <$> segs) ++ done_ x) (segs ++ sg) Hv2) as (sg' & -> & Hj'); [by rewrite Hd, fmap_app|done|].
  exists (sg ++ sg'). rewrite (fmap_app rec_last), foldl_app, Hmax, <- app_assoc. split; [done|].
  by rewrite join_app, Hj, Hj', entries_of_app.
Qed.

End Recovery.

Lemma foldl_max_ge l m x : x <= m \/ (exists y, y ∈ l /\ x <= y) -> x <= foldl Z.max m l.
Proof.
  revert m. induction l as [|y l IH]; intros m Hx; simpl; [destruct Hx as [?|(? & ?%elem_of_nil & _)]; [lia|done]|].
  apply IH. destruct Hx as [?|(z & [->|?]%elem_of_cons & ?)]; [left; lia|left; lia|right; by exists z].
Qed.

Lemma foldl_max_le l m b : m <= b -> (forall y, y ∈ l -> y <= b) -> foldl Z.max m l <= b.
Proof.
  revert m. induction l as [|y l IH]; intros m Hm Hl; simpl; [done|]. apply IH.
  - pose proof (Hl y ltac:(left)). lia.
  - intros z Hz. apply Hl. by right.
Qed.



(** A log whose one record has a wrong checksum: with paranoid checks its recovery fails,
    but the recovery of the database succeeds when another log follows. *)
Lemma Recover_forgets_errors big : let bad := [1; 2; 3; 4; 1; 0; 1; 65] in
  (RecoverLogFile true big bad 0).1 = false /\ (Recover true big [bad; []] true 0 []).1.1 = true.
Proof. split; reflexivity. Qed.
