(* ===== verification/LdbWrite.v ===== *)
(** * leveldb: concurrent writers

    [DBImpl::Write] of src/ext/leveldb/db/db_impl.cc run by any number of threads at once.
    A thread takes its ticket under the mutex ([SequenceWriteBegin]), appends to the log,
    adds its entries to the memtable one by one, waits in [SequenceWriteEnd] until its
    turn has come, publishes its last sequence number and lets the next thread in.  The
    steps of the threads interleave in any order. *)

From Stdlib Require Import ZArith Lia.
From stdpp Require Import base list numbers option sorting.
From S2P Require Import Prelude ByteOrder WebappStr Session LdbCoding LdbLog LdbMem LdbBatch LdbIter LdbMerge LdbDbIter LdbDb.
Open Scope Z_scope.
Open Scope webapp_scope.

(** Where a thread is in [Write]. *)
Inductive wpc :=
  | Logging
  | Inserting (rest : list ientry)
  | Waiting
  | Signalling
  | Ended.

Record thread := mkThread { t_ops : list op; t_writer : Writer; t_failed : bool; t_pc : wpc }.

(** The database and the threads that have taken a ticket, in the order of the tickets. *)
Record cstate := mkC { c_db : DBImpl; c_threads : list thread }.

Definition set_pc (t : thread) (pc : wpc) : thread := mkThread (t_ops t) (t_writer t) (t_failed t) pc.
Definition set_failed (t : thread) : thread := mkThread (t_ops t) (t_writer t) true Waiting.
Definition t_start (t : thread) : Z := start_sequence (t_writer t).
Definition t_end (t : thread) : Z := end_sequence (t_writer t).
Definition t_entries (t : thread) : list ientry := op_entries (t_start t) (t_ops t).

(** A step of the [i]-th thread. *)
Inductive thread_step (db : DBImpl) : thread -> DBImpl -> thread -> Prop :=
  | ts_log t ptr write_ok g g' s :
      t_pc t = Logging -> gens db !! w_gen (t_writer t) = Some g ->
      log_batch write_ok ptr (SetSequence (batch (t_ops t)) (t_start t)) g = (g', s) ->
      thread_step db t (set_gen db (w_gen (t_writer t)) g') (if s then set_pc t (Inserting (t_entries t)) else set_failed t)
  | ts_insert t e rest g :
      t_pc t = Inserting (e :: rest) -> gens db !! w_gen (t_writer t) = Some g ->
      thread_step db t (set_gen db (w_gen (t_writer t)) (mkGen (add_entry (g_mem g) e) (g_offset g) (g_log g)))
        (set_pc t (Inserting rest))
  | ts_inserted t : t_pc t = Inserting [] -> thread_step db t db (set_pc t Waiting)
  | ts_publish t : t_pc t = Waiting -> may_end db (t_writer t) = true ->
      thread_step db t (publish db (t_writer t)) (set_pc t Signalling)
  | ts_signal t : t_pc t = Signalling -> thread_step db t (signal db (t_writer t)) (set_pc t Ended).

(** A batch is valid, and the sequence numbers last ([kMaxSequenceNumber]). *)
Inductive cstep : cstate -> cstate -> Prop :=
  | cs_begin st en ops w db :
      Forall op_valid ops -> lenZ ops < 2 ^ 31 -> writers_upper_ (c_db st) + 1 + lenZ ops < 2 ^ 56 ->
      SequenceWriteBegin en (c_db st) (batch ops) = Begun w db ->
      cstep st (mkC db (c_threads st ++ [mkThread ops w false Logging]))
  | cs_thread st i t db t' :
      c_threads st !! i = Some t -> thread_step (c_db st) t db t' ->
      cstep st (mkC db (<[i := t']> (c_threads st))).

Definition c_init : cstate := mkC Open [].

(** ** Tickets *)

(** How far a thread is: before its turn, at its turn, past it. *)
Definition past (t : thread) : bool := match t_pc t with Ended => true | _ => false end.
Definition published (t : thread) : bool := match t_pc t with Signalling | Ended => true | _ => false end.

(** The tickets of threads, one after the other from [from] on. *)
Fixpoint tickets_from (from : Z) (ts : list thread) : Prop :=
  match ts with
  | [] => True
  | t :: ts => t_start t = from + 1 /\ t_end t = from + 1 + lenZ (t_ops t) /\ tickets_from (t_end t) ts
  end.
Fixpoint last_ticket (from : Z) (ts : list thread) : Z :=
  match ts with [] => from | t :: ts => last_ticket (t_end t) ts end.

(** The entries that a thread has put into its memtable. *)
Definition added (t : thread) (e : ientry) : Prop :=
  e ∈ t_entries t /\
  match t_pc t with Logging => False | Inserting rest => e ∉ rest | _ => t_failed t = false end.

(** ** The invariant *)

Definition thread_ok (db : DBImpl) (t : thread) : Prop :=
  Forall op_valid (t_ops t) /\ lenZ (t_ops t) < 2 ^ 31 /\ (w_gen (t_writer t) < length (gens db))%nat
  /\ match t_pc t with
     | Logging => t_failed t = false
     | Inserting rest => t_failed t = false /\ rest `suffix_of` t_entries t
     | _ => True
     end.

(** The threads [A] have ended, the first of the others may have published. *)
Definition turn (db : DBImpl) (A B : list thread) : Prop :=
  Forall (fun t => past t = true) A /\ writers_lower_ db = last_ticket 0 A + 1
  /\ match B with
     | [] => LastSequence db = last_ticket 0 A
     | t :: B' => past t = false /\ LastSequence db = (if published t then t_end t else last_ticket 0 A)
                  /\ Forall (fun t => published t = false) B'
     end.

(** A memtable holds just what its threads have added. *)
Definition holds (ts : list thread) (i : nat) (g : gen) : Prop :=
  exists L, g_mem g = adds L /\ NoDup L /\ forall e, e ∈ L <-> exists t, t ∈ ts /\ w_gen (t_writer t) = i /\ added t e.

Record cinv (st : cstate) : Prop := mkCinv {
  ci_shape : (mem_ (c_db st) = 0%nat /\ imm_ (c_db st) = None /\ length (gens (c_db st)) = 1%nat)
             \/ (mem_ (c_db st) = 1%nat /\ imm_ (c_db st) = Some 0%nat /\ length (gens (c_db st)) = 2%nat);
  ci_tickets : tickets_from 0 (c_threads st);
  ci_upper : writers_upper_ (c_db st) = last_ticket 0 (c_threads st) /\ writers_upper_ (c_db st) < 2 ^ 56;
  ci_threads : Forall (thread_ok (c_db st)) (c_threads st);
  ci_turn : exists A B, c_threads st = A ++ B /\ turn (c_db st) A B;
  ci_mem : forall i g, gens (c_db st) !! i = Some g -> holds (c_threads st) i g }.

Lemma last_ticket_app from A B : last_ticket from (A ++ B) = last_ticket (last_ticket from A) B.
Proof. revert from. induction A as [|t A IH]; intros from; [done|]. apply IH. Qed.

Lemma tickets_from_app from A B :
  tickets_from from (A ++ B) <-> tickets_from from A /\ tickets_from (last_ticket from A) B.
Proof. revert from. induction A as [|t A IH]; intros from; simpl; [tauto|]. rewrite IH. tauto. Qed.

Lemma last_ticket_ge from ts : tickets_from from ts -> from <= last_ticket from ts.
Proof. revert from. induction ts as [|t ts IH]; intros from; simpl; [done|]. intros (_ & He & Hs). specialize (IH _ Hs). lia. Qed.

Lemma tickets_range from ts t : tickets_from from ts -> t ∈ ts ->
  from < t_start t /\ t_end t = t_start t + lenZ (t_ops t) /\ t_end t <= last_ticket from ts.
Proof.
  revert from. induction ts as [|x ts IH]; intros from; [by intros _ ?%elem_of_nil|].
  intros (Hs & He & Ht) [->|Hin]%elem_of_cons; simpl.
  - pose proof (last_ticket_ge _ _ Ht). lia.
  - destruct (IH _ Ht Hin) as (H1 & H2 & H3). lia.
Qed.

Lemma t_entries_range t e : e ∈ t_entries t -> t_start t <= e_seq e < t_start t + lenZ (t_ops t).
Proof.
  intros (i & o & Hi & ->)%op_entries_in. apply lookup_lt_Some in Hi. destruct o; simpl; lia.
Qed.

(** A sequence number belongs to one entry of one thread. *)
Lemma tickets_unique from ts t t' e e' : tickets_from from ts -> t ∈ ts -> t' ∈ ts ->
  e ∈ t_entries t -> e' ∈ t_entries t' -> e_seq e = e_seq e' -> t = t' /\ e = e'.
Proof.
  intros Ht Hin Hin' He He' E. pose proof (t_entries_range _ _ He) as Hr. pose proof (t_entries_range _ _ He') as Hr'. assert (t = t') as <-.
  { revert from Ht Hin Hin'. induction ts as [|x ts IH]; intros from; [by intros _ ?%elem_of_nil|].
    intros (Hs & Hen & Ht) [->|Hin]%elem_of_cons [->|Hin']%elem_of_cons; [done|..|by apply (IH (t_end x))].
    - destruct (tickets_range _ _ _ Ht Hin') as (H1 & _). lia.
    - destruct (tickets_range _ _ _ Ht Hin) as (H1 & _). lia. }
  split; [done|]. apply op_entries_in in He as (i & o & Hi & ->), He' as (j & o' & Hj & ->).
  assert (i = j) as <- by (destruct o, o'; simpl in E; lia). congruence.
Qed.

(** ** A thread takes a ticket *)

Lemma c_init_inv : cinv c_init.
Proof.
  split; simpl; [by left|done|done|constructor| |].
  - exists [], []. split; [done|]. split_and!; [constructor|done..].
  - intros [|i] g; [|done]. intros [= <-]. exists []. split_and!; [done|constructor|].
    intros e. split; [by intros ?%elem_of_nil|by intros (t & ?%elem_of_nil & _)].
Qed.

(** A new memtable changes nothing for the threads. *)
Lemma switch_cinv st : cinv st -> imm_ (c_db st) = None ->
  let db := c_db st in
  cinv (mkC (mkDB (gens db ++ [gen_new]) (length (gens db)) (Some (mem_ db)) (LastSequence db)
          (writers_lower_ db) (writers_upper_ db)) (c_threads st)).
Proof.
  intros [Hsh Ht Hu Hth (A & B & E & Htu) Hm] Hi. cbn zeta. split; simpl; [|done|done|..].
  - rewrite length_app. simpl. destruct Hsh as [(-> & _ & ->)|(_ & Hi' & _)]; [by right|congruence].
  - eapply Forall_impl; [exact Hth|]. intros t (H1 & H2 & H3 & H4). split_and!; [done..| |done]. simpl. rewrite length_app. lia.
  - by exists A, B.
  - intros i g [Hg|[Hle Hg]]%lookup_app_Some; [by apply Hm|].
    destruct (i - length (gens (c_db st)))%nat eqn:Ei; [|by destruct n]. injection Hg as <-.
    exists []. split_and!; [done|constructor|]. intros e. split; [by intros ?%elem_of_nil|].
    intros (t & Ht' & Hw & _). destruct (Forall_elem _ _ _ Hth Ht') as (_ & _ & Hlt & _). lia.
Qed.

Lemma begin_cinv st ops w db : cinv st -> Forall op_valid ops -> lenZ ops < 2 ^ 31 ->
  writers_upper_ (c_db st) + 1 + lenZ ops < 2 ^ 56 -> take_ticket (c_db st) (lenZ ops) = Begun w db ->
  cinv (mkC db (c_threads st ++ [mkThread ops w false Logging])).
Proof.
  intros [Hsh Ht [Hu Hub] Hth (A & B & E & Htu) Hm] Hops Hlen Hb. pose proof (last_ticket_ge _ _ Ht) as Hge.
  unfold take_ticket. rewrite (uwrap_small 64 (1 + lenZ ops)), (uwrap_small 64 (writers_upper_ (c_db st) + _)), uwrap_small by lia.
  intros [= <- <-]. split; cbn [c_db c_threads mem_ imm_ gens writers_upper_].
  - done.
  - apply tickets_from_app. split; [done|]. cbn [tickets_from]. unfold t_start, t_end.
    cbn [t_writer t_ops start_sequence end_sequence]. split; [lia|]. split; [lia|done].
  - rewrite last_ticket_app. cbn [last_ticket]. unfold t_end. cbn [t_writer end_sequence]. lia.
  - apply Forall_app. split; [done|]. constructor; [|constructor]. split_and!; [done..| |done]. simpl.
    destruct Hsh as [(-> & _ & ->)|(-> & _ & ->)]; lia.
  - exists A, (B ++ [mkThread ops (mkWriter (writers_upper_ (c_db st) + (1 + lenZ ops) - lenZ ops) (writers_upper_ (c_db st) + (1 + lenZ ops))
      (mem_ (c_db st))) false Logging]). rewrite E, app_assoc. split; [done|]. destruct Htu as (HA & Hlo & HB). split_and!; [done..|].
    destruct B as [|t B]; simpl in *; [done|]. destruct HB as (? & ? & ?). split_and!; [done..|]. apply Forall_app. split; [done|by constructor].
  - intros i g Hg. destruct (Hm i g Hg) as (L & HL & Hn & Hin). exists L. split_and!; [done..|]. intros e. rewrite Hin. split.
    + intros (t & Ht' & Ha). exists t. split; [apply elem_of_app; by left|done].
    + intros (t & [Ht'|[->|?%elem_of_nil]%elem_of_cons]%elem_of_app & Hw & Ha); [by exists t| |done].
      destruct Ha as [_ []].
Qed.

(** ** A thread takes a step *)

(** The thread that takes a step is not one that has ended. *)
Lemma locate A B i t t' : Forall (fun t => past t = true) A -> (A ++ B) !! i = Some t -> past t = false ->
  exists B1 B2, B = B1 ++ t :: B2 /\ <[i := t']> (A ++ B) = A ++ B1 ++ t' :: B2.
Proof.
  intros HA Hi Hp. apply lookup_app_Some in Hi as [Hi|[Hle Hi]].
  - pose proof (Forall_elem _ _ _ HA (list_elem_of_lookup_2 _ _ _ Hi)) as Ht. simpl in Ht. congruence.
  - exists (take (i - length A) B), (drop (S (i - length A)) B). split; [by rewrite take_drop_middle|].
    rewrite insert_app_r_alt by done. f_equal. apply insert_take_drop. by eapply lookup_lt_Some.
Qed.

Section Same.
Context (t t' : thread) (Hops : t_ops t' = t_ops t) (Hw : t_writer t' = t_writer t).

Lemma same_tickets from B1 B2 : tickets_from from (B1 ++ t' :: B2) <-> tickets_from from (B1 ++ t :: B2).
Proof using All. rewrite !tickets_from_app. simpl. unfold t_start, t_end. by rewrite Hops, Hw. Qed.

Lemma same_last from B1 B2 : last_ticket from (B1 ++ t' :: B2) = last_ticket from (B1 ++ t :: B2).
Proof using All. rewrite !last_ticket_app. simpl. unfold t_end. by rewrite Hw. Qed.

Lemma same_entries : t_entries t' = t_entries t.
Proof using All. unfold t_entries, t_start. by rewrite Hops, Hw. Qed.

(** What the memtables hold changes with what the thread has added. *)
Lemma same_holds B1 B2 i g g' : holds (B1 ++ t :: B2) i g ->
  (w_gen (t_writer t) = i -> forall L, g_mem g = adds L -> NoDup L ->
     (forall e, e ∈ L <-> exists x, x ∈ B1 ++ t :: B2 /\ w_gen (t_writer x) = i /\ added x e) ->
     exists L', g_mem g' = adds L' /\ NoDup L' /\ forall e, e ∈ L' <-> e ∈ L \/ added t' e) ->
  (w_gen (t_writer t) <> i -> g_mem g' = g_mem g) -> (forall e, added t e -> added t' e) ->
  holds (B1 ++ t' :: B2) i g'.
Proof using All.
  intros (L & HL & Hn & Hin) Hsame Hother Hmono. destruct (decide (w_gen (t_writer t) = i)) as [Hi|Hi].
  - destruct (Hsame Hi L HL Hn Hin) as (L' & HL' & Hn' & Hin'). exists L'. split_and!; [done..|]. intros e. rewrite Hin', Hin.
    setoid_rewrite elem_of_app. setoid_rewrite elem_of_cons. split.
    + intros [(x & [Hx|[->|Hx]] & Hwx & Ha)|Ha]; [exists x|exists t'|exists x|exists t'].
      * split; [by left|done].
      * split; [by right; left|]. rewrite Hw. by split; [|apply Hmono].
      * split; [by right; right|done].
      * split; [by right; left|]. by rewrite Hw.
    + intros (x & [Hx|[->|Hx]] & Hwx & Ha); [left; exists x|by right|left; exists x]; (split; [|done]); [by left|by right; right].
  - exists L. rewrite Hother by done. split_and!; [done..|]. intros e. rewrite Hin.
    setoid_rewrite elem_of_app. setoid_rewrite elem_of_cons. split; intros (x & [Hx|[->|Hx]] & Hwx & Ha).
    1,4: exists x; split; [by left|done].
    1: done. 2: by rewrite Hw in Hwx. all: exists x; split; [by right; right|done].
Qed.

End Same.

(** The database as the threads see it: memtables aside, and with them. *)
Lemma thread_ok_len db db' t : length (gens db') = length (gens db) -> thread_ok db t -> thread_ok db' t.
Proof. intros E (H1 & H2 & H3 & H4). split_and!; [done..| |done]. by rewrite E. Qed.

(** The other parts of the invariant, for any step. *)
Lemma step_cinv st B1 t t' B2 db' :
  cinv st -> c_threads st = B1 ++ t :: B2 -> t_ops t' = t_ops t -> t_writer t' = t_writer t ->
  mem_ db' = mem_ (c_db st) -> imm_ db' = imm_ (c_db st) -> writers_upper_ db' = writers_upper_ (c_db st) ->
  length (gens db') = length (gens (c_db st)) -> thread_ok db' t' ->
  (exists A B, B1 ++ t' :: B2 = A ++ B /\ turn db' A B) ->
  (forall i g, gens db' !! i = Some g -> holds (B1 ++ t' :: B2) i g) ->
  cinv (mkC db' (B1 ++ t' :: B2)).
Proof.
  intros [Hsh Ht Hu Hth _ _] E Hops Hw Hm Him Hup Hlen Hok Htu Hh. rewrite E in *. split; simpl; [..|done|done].
  - by rewrite Hm, Him, Hlen.
  - by apply (same_tickets t t').
  - rewrite Hup, (same_last t t') by done. done.
  - apply Forall_app in Hth as [H1 H2]. apply Forall_cons_1 in H2 as [_ H2].
    apply Forall_app. split; [eapply Forall_impl; [exact H1|]; intros x; by apply thread_ok_len|].
    constructor; [done|]. eapply Forall_impl; [exact H2|]. intros x. by apply thread_ok_len.
Qed.

(** A step that is not one of [SequenceWriteEnd]. *)
Lemma turn_quiet db db' A B1 t t' B2 : turn db A (B1 ++ t :: B2) -> past t = false -> published t = false ->
  published t' = false -> t_writer t' = t_writer t -> writers_lower_ db' = writers_lower_ db -> LastSequence db' = LastSequence db ->
  turn db' A (B1 ++ t' :: B2).
Proof.
  intros (HA & Hlo & HB) Hp Hpub Hpub' Hw El Es. rewrite <- El in Hlo. rewrite <- Es in HB.
  assert (past t' = false) by (unfold past, published in *; by destruct (t_pc t')).
  split_and!; [done..|]. destruct B1 as [|x B1]; simpl in *.
  - destruct HB as (_ & HL & HB). rewrite Hpub in HL. rewrite Hpub'. done.
  - destruct HB as (Hx & HL & HB). split_and!; [done..|]. apply Forall_app in HB as [H1 H2]. apply Forall_cons_1 in H2 as [_ H2].
    apply Forall_app. split; [done|by constructor].
Qed.

(** A step that changes what is added to no memtable. *)
Lemma holds_same t t' B1 B2 i g g' : t_ops t' = t_ops t -> t_writer t' = t_writer t ->
  holds (B1 ++ t :: B2) i g -> g_mem g' = g_mem g -> (forall e, added t' e <-> added t e) -> holds (B1 ++ t' :: B2) i g'.
Proof.
  intros Hops Hw Hh Hg Ha. apply (same_holds t t' Hops Hw B1 B2 i g); [done|..|done|by intros; apply Ha].
  intros Hi L HL Hn Hin. exists L. rewrite Hg. split_and!; [done..|]. intros e. split; [by left|].
  intros [?|He%Ha]; [done|]. apply Hin. exists t. split; [apply elem_of_app; right; left|done].
Qed.

Lemma log_batch_mem write_ok ptr rep g g' s : log_batch write_ok ptr rep g = (g', s) -> g_mem g' = g_mem g.
Proof. unfold log_batch. destruct (AddRecord write_ok (g_offset g) ptr rep) as [o [ws s']]. by intros [= <- _]. Qed.

Lemma set_gen_lookup db i g j g' : gens (set_gen db i g) !! j = Some g' ->
  (j = i /\ g' = g) \/ (j <> i /\ gens db !! j = Some g').
Proof.
  simpl. destruct (decide (j = i)) as [->|Hn].
  - destruct (decide (i < length (gens db))%nat).
    + rewrite list_lookup_insert_eq by done. intros [= <-]. by left.
    + rewrite list_insert_ge by lia. intros H%lookup_lt_Some. lia.
  - rewrite list_lookup_insert_ne by done. by right.
Qed.

Section Step.
Context (st : cstate) (A B1 B2 : list thread) (t : thread).
Context (Hc : cinv st) (HE : c_threads st = (A ++ B1) ++ t :: B2) (Htu : turn (c_db st) A (B1 ++ t :: B2)).

Lemma step_thread : thread_ok (c_db st) t.
Proof using Hc HE.
  pose proof (ci_threads _ Hc) as Hth. rewrite HE in Hth. apply (Forall_elem _ _ _ Hth), elem_of_app. right. left.
Qed.

Lemma step_ticket : tickets_from (last_ticket 0 A) (B1 ++ t :: B2) /\ 0 <= last_ticket 0 A
  /\ last_ticket 0 A <= last_ticket 0 ((A ++ B1) ++ t :: B2) < 2 ^ 56.
Proof using Hc HE.
  pose proof (ci_tickets _ Hc) as Ht. destruct (ci_upper _ Hc) as [Hu Hb]. rewrite HE in *.
  rewrite <- app_assoc in Ht. apply tickets_from_app in Ht as [H1 H2]. pose proof (last_ticket_ge _ _ H1).
  pose proof (last_ticket_ge _ _ H2). rewrite <- app_assoc, (last_ticket_app 0 A) in *. split; [done|lia].
Qed.

(** Logging and inserting. *)
Lemma step_work t' db' : t_ops t' = t_ops t -> t_writer t' = t_writer t ->
  past t = false -> published t = false -> published t' = false -> thread_ok (c_db st) t' ->
  mem_ db' = mem_ (c_db st) -> imm_ db' = imm_ (c_db st) -> writers_upper_ db' = writers_upper_ (c_db st) ->
  writers_lower_ db' = writers_lower_ (c_db st) -> LastSequence db' = LastSequence (c_db st) ->
  length (gens db') = length (gens (c_db st)) ->
  (forall i g, gens db' !! i = Some g -> holds ((A ++ B1) ++ t' :: B2) i g) ->
  cinv (mkC db' ((A ++ B1) ++ t' :: B2)).
Proof using All.
  intros Hops Hw Hp Hpub Hpub' Hok Hm Hi Hu Hlo Hls Hlen Hh. apply (step_cinv st (A ++ B1) t t' B2); try done.
  - by apply (thread_ok_len (c_db st)).
  - exists A, (B1 ++ t' :: B2). rewrite app_assoc. split; [done|]. by apply (turn_quiet (c_db st) db' A B1 t).
Qed.

Lemma step_log ptr write_ok g g' s : t_pc t = Logging -> gens (c_db st) !! w_gen (t_writer t) = Some g ->
  log_batch write_ok ptr (SetSequence (batch (t_ops t)) (t_start t)) g = (g', s) ->
  cinv (mkC (set_gen (c_db st) (w_gen (t_writer t)) g')
          ((A ++ B1) ++ (if s then set_pc t (Inserting (t_entries t)) else set_failed t) :: B2)).
Proof using All.
  intros Hpc Hg Hlog. pose proof (log_batch_mem _ _ _ _ _ _ Hlog) as Hmem. destruct step_thread as (H1 & H2 & H3 & H4). rewrite Hpc in H4.
  assert (Hna : forall e, ~ added t e) by (intros e [_ Ha]; by rewrite Hpc in Ha).
  set (t' := if s then _ else _).
  assert (Hna' : forall e, ~ added t' e).
  { unfold t'. intros e [He Ha]. destruct s; simpl in *; [by apply Ha|done]. }
  apply step_work; try done; try (unfold t'; by destruct s).
  - unfold past. by rewrite Hpc.
  - unfold published. by rewrite Hpc.
  - simpl. apply length_insert.
  - intros i gi Hgi. destruct (set_gen_lookup _ _ _ _ _ Hgi) as [[-> ->]|[Hn Hgi']].
    + apply (holds_same t t' (A ++ B1) B2 _ g); try (unfold t'; by destruct s); [|naive_solver].
      rewrite <- HE. by apply (ci_mem _ Hc).
    + apply (holds_same t t' (A ++ B1) B2 _ gi); try (unfold t'; by destruct s); [|naive_solver].
      rewrite <- HE. by apply (ci_mem _ Hc).
Qed.

Lemma thread_entries_NoDup : NoDup (t_entries t).
Proof using.
  apply (NoDup_fmap_1 e_seq). fold (distinct (t_entries t)). apply sorted_distinct, op_entries_sorted.
Qed.

Lemma step_insert e rest g : t_pc t = Inserting (e :: rest) -> gens (c_db st) !! w_gen (t_writer t) = Some g ->
  cinv (mkC (set_gen (c_db st) (w_gen (t_writer t)) (mkGen (add_entry (g_mem g) e) (g_offset g) (g_log g)))
          ((A ++ B1) ++ set_pc t (Inserting rest) :: B2)).
Proof using All.
  intros Hpc Hg. destruct step_thread as (H1 & H2 & H3 & H4). rewrite Hpc in H4. destruct H4 as [Hf Hsuf].
  set (t' := set_pc t (Inserting rest)).
  assert (Ha : forall x, added t x <-> x ∈ t_entries t /\ x ∉ e :: rest) by (intros x; unfold added; by rewrite Hpc).
  assert (Ha' : forall x, added t' x <-> x ∈ t_entries t /\ x ∉ rest) by done.
  assert (Hee : e ∈ t_entries t /\ e ∉ rest).
  { pose proof thread_entries_NoDup as Hn. destruct Hsuf as [pre E]. rewrite E in *. split; [apply elem_of_app; right; left|].
    apply NoDup_app in Hn as (_ & _ & Hn). by apply list.NoDup_cons in Hn as [? _]. }
  apply step_work; try done.
  - unfold past. by rewrite Hpc.
  - unfold published. by rewrite Hpc.
  - split_and!; [done..|]. split; [done|]. by apply suffix_cons_l in Hsuf.
  - simpl. apply length_insert.
  - intros i gi Hgi. destruct (set_gen_lookup _ _ _ _ _ Hgi) as [[-> ->]|[Hn Hgi']].
    2:{ apply (same_holds t t' eq_refl eq_refl (A ++ B1) B2 _ gi); [rewrite <- HE; by apply (ci_mem _ Hc)|by intros|done|].
        intros x [? Hx]%Ha. apply Ha'. split; [done|]. intros ?. apply Hx. by right. }
    apply (same_holds t t' eq_refl eq_refl (A ++ B1) B2 _ g); [rewrite <- HE; by apply (ci_mem _ Hc)|..|done|].
    + intros _ L HL Hn Hin. exists (L ++ [e]). cbn [g_mem]. rewrite HL. unfold adds. rewrite foldl_app. split_and!; [done|..].
      * apply NoDup_app. split_and!; [done| |apply NoDup_singleton]. intros x Hx ->%list_elem_of_singleton.
        apply Hin in Hx as (y & Hy & _ & Hay). pose proof (ci_tickets _ Hc) as Ht. rewrite HE in Ht.
        destruct (tickets_unique 0 _ y t e e Ht Hy) as [-> _]; [apply elem_of_app; right; left|apply Hay|apply Hee|done|].
        apply Ha in Hay as [_ Hay]. apply Hay. left.
      * intros x. rewrite elem_of_app, list_elem_of_singleton, Ha'. split; [naive_solver|]. intros [?|[Hx Hxr]]; [by left|].
        destruct (decide (x = e)) as [->|Hne]; [by right|left]. apply Hin. exists t. split; [apply elem_of_app; right; left|].
        split; [done|]. apply Ha. split; [done|]. intros [?|?]%elem_of_cons; done.
    + intros x [? Hx]%Ha. apply Ha'. split; [done|]. intros ?. apply Hx. by right.
Qed.

Lemma step_inserted : t_pc t = Inserting [] -> cinv (mkC (c_db st) ((A ++ B1) ++ set_pc t Waiting :: B2)).
Proof using All.
  intros Hpc. destruct step_thread as (H1 & H2 & H3 & H4). rewrite Hpc in H4. destruct H4 as [Hf _].
  apply step_work; try done.
  - unfold past. by rewrite Hpc.
  - unfold published. by rewrite Hpc.
  - intros i g Hg. apply (holds_same t (set_pc t Waiting) (A ++ B1) B2 i g); try done; [rewrite <- HE; by apply (ci_mem _ Hc)|].
    intros e. unfold added. rewrite Hpc. simpl. rewrite elem_of_nil. naive_solver.
Qed.

(** Publishing does not change what is added. *)
Lemma step_end t' db' : t_ops t' = t_ops t -> t_writer t' = t_writer t ->
  (forall e, added t' e <-> added t e) -> thread_ok (c_db st) t' -> gens db' = gens (c_db st) ->
  mem_ db' = mem_ (c_db st) -> imm_ db' = imm_ (c_db st) -> writers_upper_ db' = writers_upper_ (c_db st) ->
  (exists A' B', (A ++ B1) ++ t' :: B2 = A' ++ B' /\ turn db' A' B') -> cinv (mkC db' ((A ++ B1) ++ t' :: B2)).
Proof using All.
  intros Hops Hw Ha Hok Hg Hm Hi Hu Htu'. apply (step_cinv st (A ++ B1) t t' B2); try done.
  - by rewrite Hg.
  - apply (thread_ok_len (c_db st)); [by rewrite Hg|done].
  - intros i g Hgi. rewrite Hg in Hgi. apply (holds_same t t' (A ++ B1) B2 i g); try done. rewrite <- HE. by apply (ci_mem _ Hc).
Qed.

Lemma step_publish : t_pc t = Waiting -> may_end (c_db st) (t_writer t) = true ->
  cinv (mkC (publish (c_db st) (t_writer t)) ((A ++ B1) ++ set_pc t Signalling :: B2)).
Proof using All.
  intros Hpc Hend. pose proof step_thread as (H1 & H2 & H3 & _). destruct step_ticket as (Ht & _). apply Z.leb_le in Hend.
  pose proof Htu as (HA & Hlo & HB).
  assert (HB1 : B1 = []).
  { destruct B1 as [|x B1']; [done|]. exfalso. destruct Ht as (_ & Hx & Ht).
    destruct (tickets_range _ _ t Ht) as (Hgt & _); [apply elem_of_app; right; left|]. unfold t_start in Hgt. lia. }
  apply step_end; try done; [intros e; unfold added; by rewrite Hpc|].
  rewrite HB1 in *. exists A, (set_pc t Signalling :: B2). rewrite app_nil_r. split; [done|]. simpl in *. split_and!; try done. apply HB.
Qed.

Lemma step_signal : t_pc t = Signalling -> cinv (mkC (signal (c_db st) (t_writer t)) ((A ++ B1) ++ set_pc t Ended :: B2)).
Proof using All.
  intros Hpc. pose proof step_thread as (H1 & H2 & H3 & _). destruct step_ticket as (Ht & Hge & Hle & Hlt).
  pose proof Htu as (HA & Hlo & HB). assert (Hpub : published t = true) by (unfold published; by rewrite Hpc).
  assert (HB1 : B1 = []).
  { destruct B1 as [|x B1']; [done|]. destruct HB as (_ & _ & HB). apply Forall_app in HB as [_ HB].
    apply Forall_cons_1 in HB as [HB _]. simpl in HB. congruence. }
  rewrite HB1 in HB, Ht, Hlt. destruct HB as (_ & HL & HB). rewrite Hpub in HL. destruct Ht as (Hs & He & Ht). pose proof (last_ticket_ge _ _ Ht) as Hge2.
  rewrite app_nil_r, last_ticket_app in Hlt. simpl in Hlt. unfold t_start, t_end in *.
  apply step_end; try done; [intros e; unfold added; by rewrite Hpc|].
  rewrite HB1. exists (A ++ [set_pc t Ended]), B2. rewrite app_nil_r, <- app_assoc. split; [done|]. split_and!.
  - apply Forall_app. split; [done|by constructor].
  - rewrite last_ticket_app. cbn [signal writers_lower_ last_ticket]. unfold t_end. cbn [t_writer set_pc].
    rewrite (uwrap_small 64 (1 + _ - _)), uwrap_small by lia. lia.
  - rewrite last_ticket_app. cbn [signal LastSequence last_ticket]. unfold t_end. cbn [t_writer set_pc].
    destruct B2 as [|x B2']; [done|]. apply Forall_cons_1 in HB as [Hx HB]. split_and!; [|by rewrite Hx|done].
    unfold past, published in *. by destruct (t_pc x).
Qed.

End Step.

Lemma cstep_inv st st' : cinv st -> cstep st st' -> cinv st'.
Proof.
  intros Hc Hst. destruct Hst as [st en ops w db Hops Hlen Hb Hbeg|st i t db t' Hi Hts].
  - unfold SequenceWriteBegin in Hbeg.
    assert (Count (batch ops) = Some (lenZ ops)) as Hcount by (rewrite batch_rep by lia; apply Count_header; lia).
    rewrite Hcount, (uwrap_small 64 (lenZ ops)) in Hbeg by lia.
    destruct (bg_error_ en); [done|]. destruct (room en); [by apply begin_cinv|].
    destruct (imm_ (c_db st)) eqn:Him; [done|]. destruct (new_file en); [|done].
    by apply (begin_cinv (mkC _ (c_threads st)) ops w db (switch_cinv st Hc Him)).
  - destruct (ci_turn _ Hc) as (A & B & E & Htu). rewrite E in Hi. pose proof Htu as (HA & _).
    assert (Hp : past t = false).
    { unfold past. destruct Hts as [? ? ? ? ? ? Hpc|? ? ? ? Hpc|? Hpc|? Hpc|? Hpc]; by rewrite Hpc. }
    destruct (locate A B i t t' HA Hi Hp) as (B1 & B2 & -> & Hins). rewrite E, Hins, app_assoc.
    assert (HE : c_threads st = (A ++ B1) ++ t :: B2) by (by rewrite E, app_assoc).
    destruct Hts as [t ptr write_ok g g' s Hpc Hg Hlog|t e rest g Hpc Hg|t Hpc|t Hpc Hend|t Hpc].
    + by apply (step_log st A B1 B2 t Hc HE Htu ptr write_ok g).
    + by apply step_insert.
    + by apply step_inserted.
    + by apply step_publish.
    + by apply step_signal.
Qed.

(** ** What readers see *)

(** The threads whose batch is published, and did not fail. *)
Definition seen (t : thread) : bool := published t && negb (t_failed t).
Definition seen_ops (st : cstate) : list op := mjoin (t_ops <$> List.filter seen (c_threads st)).
Definition seen_entries (ts : list thread) : list ientry := mjoin (t_entries <$> List.filter seen ts).

Lemma elem_of_seen ts e : e ∈ seen_entries ts <-> exists t, t ∈ ts /\ seen t = true /\ e ∈ t_entries t.
Proof.
  unfold seen_entries. rewrite list_elem_of_join. setoid_rewrite list_elem_of_fmap. setoid_rewrite list_elem_of_In.
  setoid_rewrite filter_In. naive_solver.
Qed.

Lemma seen_sorted from ts : tickets_from from ts -> StronglySorted Z.lt (e_seq <$> seen_entries ts).
Proof.
  revert from. induction ts as [|t ts IH]; intros from; [constructor|]. intros (Hs & He & Ht). specialize (IH _ Ht).
  unfold seen_entries in *. simpl. destruct (seen t); [|done]. cbn [fmap list_fmap]. change (mjoin (?a :: ?b)) with (a ++ mjoin b).
  rewrite fmap_app. apply StronglySorted_app. split_and!; [|apply op_entries_sorted|done].
  intros a b (ea & -> & Ha)%list_elem_of_fmap (eb & -> & Hb)%list_elem_of_fmap. change (mjoin _) with (seen_entries ts) in Hb.
  apply elem_of_seen in Hb as (t' & Ht' & _ & Hb). destruct (tickets_range _ _ t' Ht Ht') as (H1 & _).
  apply t_entries_range in Ha, Hb. lia.
Qed.

Lemma seen_versions ts : versions (seen_entries ts) (mjoin (t_ops <$> List.filter seen ts)).
Proof.
  unfold seen_entries. induction (List.filter seen ts) as [|t l IH]; [constructor|]. cbn [fmap list_fmap].
  change (mjoin (?a :: ?b)) with (a ++ mjoin b). by apply Forall2_app; [apply versions_op|].
Qed.

(** The published sequence number separates the threads that have published from the others. *)
Lemma published_last st t : cinv st -> t ∈ c_threads st ->
  (published t = true -> t_end t <= LastSequence (c_db st)) /\ (published t = false -> LastSequence (c_db st) < t_start t).
Proof.
  intros Hc Ht. destruct (ci_turn _ Hc) as (A & B & E & HA & _ & HB). pose proof (ci_tickets _ Hc) as Htk. rewrite E in *.
  apply tickets_from_app in Htk as [HtA HtB]. apply elem_of_app in Ht as [Ht|Ht].
  - pose proof (Forall_elem _ _ _ HA Ht) as Hp. simpl in Hp. assert (published t = true) as Hpub by (unfold past, published in *; by destruct (t_pc t)).
    rewrite Hpub. split; [|done]. intros _. destruct (tickets_range _ _ t HtA Ht) as (_ & _ & Hle).
    destruct B as [|x B]; [lia|]. destruct HB as (_ & -> & _). destruct (published x); [|lia]. destruct HtB as (_ & Hx & _). lia.
  - destruct B as [|x B]; [by apply elem_of_nil in Ht|]. destruct HB as (_ & HL & HB). destruct HtB as (Hxs & Hxe & HtB).
    apply elem_of_cons in Ht as [->|Ht].
    + rewrite HL. destruct (published x); split; intros; try done; lia.
    + pose proof (Forall_elem _ _ _ HB Ht) as Hp. simpl in Hp. rewrite Hp. split; [done|]. intros _.
      destruct (tickets_range _ _ t HtB Ht) as (Hlt & _). rewrite HL. destruct (published x); lia.
Qed.

Lemma thread_entries_ok st t e : cinv st -> t ∈ c_threads st -> e ∈ t_entries t -> entry_ok e.
Proof.
  intros Hc Ht He. destruct (Forall_elem _ _ _ (ci_threads _ Hc) Ht) as (H1 & H2 & _).
  destruct (tickets_range _ _ t (ci_tickets _ Hc) Ht) as (H3 & H4 & H5). destruct (ci_upper _ Hc) as [Hu Hb].
  apply (rec_entries_ok (t_start t, 0, t_ops t) e); [|done]. split_and!; unfold rec_seq, rec_ops; simpl; try done; lia.
Qed.

(** The memtables together hold what the threads have added, each entry once. *)
Lemma memtables_added st : cinv st ->
  exists ess, memtables (c_db st) = (adds <$> ess) /\ NoDup (mjoin ess)
    /\ forall e, e ∈ mjoin ess <-> exists t, t ∈ c_threads st /\ added t e.
Proof.
  intros Hc. pose proof (ci_mem _ Hc) as Hm. unfold memtables, mem_of.
  assert (Hgen : forall t, t ∈ c_threads st -> (w_gen (t_writer t) < length (gens (c_db st)))%nat).
  { intros t Ht. apply (Forall_elem _ _ _ (ci_threads _ Hc) Ht). }
  destruct (ci_shape _ Hc) as [(-> & -> & Hl)|(-> & -> & Hl)]; rewrite Hl in Hgen.
  - destruct (gens (c_db st)) as [|g [|]]; [done| |done]. destruct (Hm 0%nat g eq_refl) as (L & HL & Hn & Hin).
    exists [L]. simpl. rewrite HL, app_nil_r. split_and!; [done..|]. intros e. rewrite Hin. split; [naive_solver|].
    intros (t & Ht & Ha). exists t. specialize (Hgen t Ht). split_and!; [done|lia|done].
  - destruct (gens (c_db st)) as [|g [|g' [|]]]; [done|done| |done].
    destruct (Hm 0%nat g eq_refl) as (L & HL & Hn & Hin), (Hm 1%nat g' eq_refl) as (L' & HL' & Hn' & Hin').
    exists [L'; L]. simpl. rewrite HL, HL', app_nil_r. split_and!; [done|..].
    + apply NoDup_app. split_and!; [done| |done]. intros e (t & Ht & Hw & [He _])%Hin' (t' & Ht' & Hw' & [He' _])%Hin.
      destruct (tickets_unique 0 _ t t' e e (ci_tickets _ Hc) Ht Ht' He He' eq_refl) as [-> _]. lia.
    + intros e. rewrite elem_of_app, Hin, Hin'. split; [naive_solver|]. intros (t & Ht & Ha).
      specialize (Hgen t Ht). assert (w_gen (t_writer t) = 0%nat \/ w_gen (t_writer t) = 1%nat) as [Hw|Hw] by lia; naive_solver.
Qed.

(** The first thread that has not ended never waits. *)
Lemma first_moves st : cinv st -> (exists t, t ∈ c_threads st /\ past t = false) ->
  exists i t db t', c_threads st !! i = Some t /\ thread_step (c_db st) t db t'.
Proof.
  intros Hc (t0 & Ht0 & Hp0). destruct (ci_turn _ Hc) as (A & B & E & HA & Hlo & HB). destruct B as [|t B].
  { rewrite app_nil_r in E. rewrite E in Ht0. pose proof (Forall_elem _ _ _ HA Ht0) as Hp. simpl in Hp. congruence. }
  destruct HB as (Hp & _). exists (length A), t. rewrite E, list_lookup_middle by done.
  assert (Hok : thread_ok (c_db st) t).
  { apply (Forall_elem _ _ _ (ci_threads _ Hc)). rewrite E. apply elem_of_app. right. left. }
  destruct Hok as (_ & _ & Hlt & Hpcok). destruct (lookup_lt_is_Some_2 _ _ Hlt) as [g Hg].
  unfold past in Hp. destruct (t_pc t) as [|[|e rest]| | |] eqn:Hpc; [..|done].
  - destruct (log_batch (fun _ => true) 0 (SetSequence (batch (t_ops t)) (t_start t)) g) as [g' s] eqn:Hl.
    eexists _, _. split; [done|]. by eapply ts_log.
  - eexists _, _. split; [done|]. by apply ts_inserted.
  - eexists _, _. split; [done|]. by eapply ts_insert.
  - eexists _, _. split; [done|]. apply ts_publish; [done|]. apply Z.leb_le.
    pose proof (ci_tickets _ Hc) as Ht. rewrite E in Ht. apply tickets_from_app in Ht as [_ (Hs & _)]. unfold t_start in Hs. lia.
  - eexists _, _. split; [done|]. by apply ts_signal.
Qed.

Lemma last_range st : cinv st -> 0 <= LastSequence (c_db st) < 2 ^ 56.
Proof.
  intros Hc. destruct (ci_turn _ Hc) as (A & B & E & _ & _ & HB). pose proof (ci_tickets _ Hc) as Ht. destruct (ci_upper _ Hc) as [Hu Hb].
  rewrite E, last_ticket_app in *. apply tickets_from_app in Ht as [H1 H2]. pose proof (last_ticket_ge _ _ H1).
  destruct B as [|t B]; simpl in *; [lia|]. destruct HB as (_ & -> & _). destruct H2 as (_ & He & H2). pose proof (last_ticket_ge _ _ H2).
  destruct (published t); lia.
Qed.

Lemma seen_le st e : cinv st -> e ∈ seen_entries (c_threads st) -> e_seq e <= LastSequence (c_db st).
Proof.
  intros Hc (t & Ht & [Hp _]%andb_true_iff & He)%elem_of_seen. destruct (published_last st t Hc Ht) as [H1 _]. specialize (H1 Hp).
  apply t_entries_range in He. destruct (tickets_range _ _ t (ci_tickets _ Hc) Ht) as (_ & H2 & _). lia.
Qed.

(** An entry of a memtable is published, or later than what is published. *)
Lemma added_seen st e : cinv st -> (exists t, t ∈ c_threads st /\ added t e) <->
  e ∈ seen_entries (c_threads st) \/ ((exists t, t ∈ c_threads st /\ added t e) /\ LastSequence (c_db st) < e_seq e).
Proof.
  intros Hc. rewrite elem_of_seen. split.
  - intros (t & Ht & He & Ha). destruct (published t) eqn:Hpub.
    + left. exists t. split_and!; [done| |done]. unfold seen. rewrite Hpub. unfold published in Hpub. by destruct (t_pc t); try done; rewrite Ha.
    + right. split; [by exists t|]. destruct (published_last st t Hc Ht) as [_ H2]. specialize (H2 Hpub). apply t_entries_range in He. lia.
  - intros [(t & Ht & [Hpub Hf%negb_true_iff]%andb_true_iff & He)|[? _]]; [|done]. exists t. split_and!; [done..|].
    split; [done|]. unfold published in Hpub. by destruct (t_pc t).
Qed.

Lemma memtables_split st : cinv st ->
  exists ess es2, memtables (c_db st) = (adds <$> ess) /\ Forall entry_ok (mjoin ess)
    /\ mjoin ess ≡ₚ seen_entries (c_threads st) ++ es2 /\ distinct (seen_entries (c_threads st) ++ es2)
    /\ forall e, e ∈ es2 -> LastSequence (c_db st) < e_seq e.
Proof.
  intros Hc. destruct (memtables_added st Hc) as (ess & Hme & Hn & Hin). pose proof (ci_tickets _ Hc) as Htk.
  set (es2 := List.filter (fun e => LastSequence (c_db st) <? e_seq e) (mjoin ess)). exists ess, es2.
  assert (Hes2 : forall e, e ∈ es2 <-> e ∈ mjoin ess /\ LastSequence (c_db st) < e_seq e).
  { intros e. unfold es2. rewrite !list_elem_of_In, filter_In, Z.ltb_lt. done. }
  assert (Hp : mjoin ess ≡ₚ seen_entries (c_threads st) ++ es2).
  { apply NoDup_Permutation; [done|..].
    - apply NoDup_app. split_and!.
      + apply (NoDup_fmap_1 e_seq). apply sorted_distinct. by apply (seen_sorted 0).
      + intros e He [_ ?]%Hes2. pose proof (seen_le st e Hc He). lia.
      + unfold es2. by apply NoDup_ListNoDup, List.NoDup_filter, NoDup_ListNoDup.
    - intros e. rewrite elem_of_app, Hes2, Hin. by apply added_seen. }
  split_and!; [done| |done| |by intros e [_ ?]%Hes2].
  - apply List.Forall_forall. intros e (t & Ht & He & _)%list_elem_of_In%Hin. by eapply thread_entries_ok.
  - unfold distinct. rewrite <- Hp. apply NoDup_fmap_2_strong; [|done].
    intros a b (t & Ht & Ha & _)%Hin (t' & Ht' & Hb & _)%Hin Eab. by destruct (tickets_unique 0 _ t t' a b Htk Ht Ht' Ha Hb Eab).
Qed.


(** Two threads: the second has inserted its batch, the first has published its own. *)
Definition sample_env : env := mkEnv false true true.
Definition sample_run : cstate :=
  let w1 := mkWriter 1 2 0 in
  let w2 := mkWriter 3 4 0 in
  let '(g1, _) := log_batch (fun _ => true) 0 (SetSequence (batch [OpPut [97] [49]]) 1) gen_new in
  let '(g2, _) := log_batch (fun _ => true) 64 (SetSequence (batch [OpDelete [97]]) 3) g1 in
  mkC (mkDB [mkGen (adds [mkEntry [97] 3 kTypeDeletion []; mkEntry [97] 1 kTypeValue [49]]) (g_offset g2) (g_log g2)] 0 None 2 1 4)
    [mkThread [OpPut [97] [49]] w1 false Signalling; mkThread [OpDelete [97]] w2 false Waiting].

Lemma sample_reachable : star cstep c_init sample_run.
Proof.
  eapply star_step; [eapply (cs_begin _ sample_env [OpPut [97] [49]]); [repeat constructor; vm_compute; congruence|done|done|vm_compute; reflexivity]|].
  eapply star_step; [eapply (cs_begin _ sample_env [OpDelete [97]]); [repeat constructor; vm_compute; congruence|done|done|vm_compute; reflexivity]|].
  eapply star_step; [eapply (cs_thread _ 0); [done|eapply (ts_log _ _ 0 (fun _ => true)); [done|done|vm_compute; reflexivity]]|].
  eapply star_step; [eapply (cs_thread _ 1); [done|eapply (ts_log _ _ 64 (fun _ => true)); [done|done|vm_compute; reflexivity]]|].
  eapply star_step; [eapply (cs_thread _ 1); [done|eapply ts_insert; done]|].
  eapply star_step; [eapply (cs_thread _ 0); [done|eapply ts_insert; done]|].
  eapply star_step; [eapply (cs_thread _ 0); [done|by eapply ts_inserted]|].
  eapply star_step; [eapply (cs_thread _ 1); [done|by eapply ts_inserted]|].
  eapply star_step; [eapply (cs_thread _ 0); [done|by eapply ts_publish]|].
  vm_compute. apply star_refl.
Qed.

