(* ===== verification/LdbSkip.v ===== *)
(** * leveldb: the skip list

    src/ext/leveldb/db/skiplist.h, the list of the memtable.  Nodes are allocated and
    never freed; a node of height h is linked into the levels 0 to h - 1.  Readers follow
    the links without a lock.  A writer looks for the place of its key before it takes
    the lock ([InsertHint]), brings what it found up to date under the lock
    ([UpdateHint]) and links the node level by level, from below.  util/random.h, which
    draws the heights.

    A pointer is the number of a node, 0 the head; [None] stands for the use of a link a
    node does not have or that was never stored. *)

From Stdlib Require Import ZArith Lia.
From stdpp Require Import base list numbers option sorting.
From S2P Require Import Prelude ByteOrder WebappStr Session LdbCoding LdbMem.
Open Scope Z_scope.
Open Scope webapp_scope.

(** ** Random numbers *)

Definition Random_new (s : Z) : Z :=
  let seed_ := Z.land s 0x7fffffff in
  if (seed_ =? 0) || (seed_ =? 2147483647) then 1 else seed_.

Definition Random_Next (seed_ : Z) : Z :=
  let M := 2147483647 in
  let product := u64 (seed_ * 16807) in
  let seed_ := u32 (u64 (Z.shiftr product 31 + Z.land product M)) in
  if M <? seed_ then u32 (seed_ - M) else seed_.

Definition kMaxHeight : nat := 12.

(** [RandomHeight]: the height drawn and the generator after it. *)
Fixpoint random_loop (fuel : nat) (height : nat) (rnd : Z) : nat * Z :=
  match fuel with
  | O => (height, rnd)
  | S fuel =>
      let rnd := Random_Next rnd in
      if rnd mod 4 =? 0 then random_loop fuel (S height) rnd else (height, rnd)
  end.
Definition RandomHeight (rnd : Z) : nat * Z := random_loop (kMaxHeight - 1) 1 rnd.

(** The generator multiplies by 16807 modulo 2^31 - 1, and never reaches 0. *)
Lemma Random_Next_mod seed : 0 < seed < 2147483647 ->
  Random_Next seed = (seed * 16807) mod 2147483647 /\ 0 < Random_Next seed < 2147483647.
Proof.
  intros Hs. assert (Hm : (seed * 16807) mod 2147483647 <> 0).
  { intros H. apply Z.mod_divide in H; [|lia]. rewrite Z.mul_comm in H. apply Z.gauss in H; [|reflexivity].
    apply Z.divide_pos_le in H; lia. }
  unfold Random_Next. cbv zeta. rewrite (uwrap_small 64 (seed * 16807)) by lia.
  set (p := seed * 16807) in *. rewrite Z.shiftr_div_pow2 by lia.
  change (Z.land p 2147483647) with (Z.land p (Z.ones 31)). rewrite Z.land_ones by lia.
  pose proof (Z.div_mod p (2 ^ 31) ltac:(lia)) as Hp. pose proof (Z.mod_pos_bound p (2 ^ 31) ltac:(lia)) as Hr.
  assert (Hq : 0 <= p / 2 ^ 31 < 16807) by (split; [apply Z.div_pos|apply Z.div_lt_upper_bound]; lia).
  set (q := p / 2 ^ 31) in *. set (r := p mod 2 ^ 31) in *. clearbody q r.
  rewrite (uwrap_small 64 (q + r)), uwrap_small by lia. clearbody p.
  destruct (Z.ltb_spec 2147483647 (q + r)) as [Hlt|Hge]; [rewrite uwrap_small by lia|].
  - rewrite <- (Z.mod_unique p 2147483647 (q + 1) (q + r - 2147483647)) by lia. lia.
  - assert (q + r <> 0 /\ q + r <> 2147483647) as [Hz HM].
    { split; intros E; apply Hm; symmetry; [apply (Z.mod_unique p 2147483647 q 0)|apply (Z.mod_unique p 2147483647 (q + 1) 0)]; lia. }
    rewrite <- (Z.mod_unique p 2147483647 q (q + r)) by lia. lia.
Qed.

Lemma random_loop_bound fuel height rnd :
  (height <= (random_loop fuel height rnd).1 <= height + fuel)%nat.
Proof.
  revert height rnd. induction fuel as [|fuel IH]; intros height rnd; cbn [random_loop]; [simpl; lia|]. set (r := Random_Next rnd). clearbody r.
  destruct (_ =? 0); [|simpl; lia]. specialize (IH (S height) r). lia.
Qed.
Lemma RandomHeight_bound rnd : (1 <= (RandomHeight rnd).1 <= kMaxHeight)%nat.
Proof. pose proof (random_loop_bound (kMaxHeight - 1) 1 rnd). unfold RandomHeight, kMaxHeight in *. lia. Qed.

(** ** The list *)

Section Skip.
Context {K : Type} (compare_ : K -> K -> comparison) (Key0 : K).

(** [None] in [next_] is a link that was never stored. *)
Record Node := mkNode { n_key : K; next_ : list (option (option nat)) }.
Record SkipList := mkSkip { nodes : list Node; max_height_ : nat; rnd_ : Z }.

Definition NewNode (k : K) (height : nat) : Node := mkNode k (replicate height None).

Definition SkipList_new : SkipList :=
  mkSkip [mkNode Key0 (replicate kMaxHeight (Some None))] 1 (Random_new 0xdeadbeef).

Definition Next (sl : SkipList) (x i : nat) : option (option nat) :=
  let* n := nodes sl !! x in mjoin (next_ n !! i).

Definition SetNext (sl : SkipList) (x i : nat) (p : option nat) : option SkipList :=
  let* n := nodes sl !! x in
  if (i <? length (next_ n))%nat
  then Some (mkSkip (<[x := mkNode (n_key n) (<[i := Some p]> (next_ n))]> (nodes sl)) (max_height_ sl) (rnd_ sl))
  else None.

(** Searching: where a search is, and what it ends with. *)
Record search := mkSearch { s_x : nat; s_level : nat; s_prev : list nat; s_obs : list (option nat) }.
Record found := mkFound { f_x : nat; f_next : option nat; f_prev : list nat; f_obs : list (option nat) }.

Definition find_start (sl : SkipList) : search :=
  mkSearch 0 (max_height_ sl - 1) (replicate kMaxHeight 0%nat) (replicate kMaxHeight None).

(** [KeyIsAfterNode] and the tests that the three searches have in its place: a node
    passes them if the search goes on behind it. *)
Definition passes (test : K -> bool) (sl : SkipList) (n : option nat) : option bool :=
  match n with
  | None => Some false
  | Some y => let* node := nodes sl !! y in Some (test (n_key node))
  end.
Definition key_before (key k : K) : bool := match compare_ k key with Lt => true | _ => false end.

(** One round of a search. *)
Definition find_step (test : K -> bool) (sl : SkipList) (s : search) : option (search + found) :=
  let* next := Next sl (s_x s) (s_level s) in
  let* after := passes test sl next in
  match next, after with
  | Some y, true => Some (inl (mkSearch y (s_level s) (s_prev s) (s_obs s)))
  | _, _ =>
      let prev := <[s_level s := s_x s]> (s_prev s) in
      let obs := <[s_level s := next]> (s_obs s) in
      match s_level s with
      | O => Some (inr (mkFound (s_x s) next prev obs))
      | S level => Some (inl (mkSearch (s_x s) level prev obs))
      end
  end.

Fixpoint find_loop (fuel : nat) (test : K -> bool) (sl : SkipList) (s : search) : option found :=
  match fuel with
  | O => None
  | S fuel =>
      match find_step test sl s with
      | Some (inl s) => find_loop fuel test sl s
      | Some (inr f) => Some f
      | None => None
      end
  end.

(** A round goes on to a node further on or down a level. *)
Definition find_fuel (sl : SkipList) : nat := length (nodes sl) + kMaxHeight.
Definition find (test : K -> bool) (sl : SkipList) : option found :=
  find_loop (find_fuel sl) test sl (find_start sl).

Definition FindGreaterOrEqual (key : K) (sl : SkipList) : option found := find (key_before key) sl.
Definition FindLessThan (key : K) (sl : SkipList) : option nat := f_x <$> find (key_before key) sl.
Definition FindLast (sl : SkipList) : option nat := f_x <$> find (fun _ => true) sl.
Definition Contains (key : K) (sl : SkipList) : option bool :=
  let* f := FindGreaterOrEqual key sl in
  match f_next f with
  | Some x => let* n := nodes sl !! x in Some (bool_decide (compare_ key (n_key n) = Eq))
  | None => Some false
  end.

(** [SkipList::Iterator]: a position is a node or none. *)
Definition not_head (x : nat) : option nat := if (x =? 0)%nat then None else Some x.
Definition it_SeekToFirst (sl : SkipList) : option (option nat) := Next sl 0 0.
Definition it_SeekToLast (sl : SkipList) : option (option nat) := not_head <$> FindLast sl.
Definition it_Seek (key : K) (sl : SkipList) : option (option nat) := f_next <$> FindGreaterOrEqual key sl.
Definition it_Next (x : nat) (sl : SkipList) : option (option nat) := Next sl x 0.
Definition it_Prev (x : nat) (sl : SkipList) : option (option nat) :=
  let* n := nodes sl !! x in not_head <$> FindLessThan (n_key n) sl.

(** ** Insertion *)

Record InsertHint := mkHint { prev_ : list nat; obs_ : list (option nat) }.

Definition InsertHint_new (key : K) (sl : SkipList) : option InsertHint :=
  let* f := FindGreaterOrEqual key sl in Some (mkHint (f_prev f) (f_obs f)).

(** [UpdateHint]: one level, then all of them. *)
Fixpoint update_level (fuel : nat) (key : K) (sl : SkipList) (level : nat) (obs : option nat) (x : nat) : option (nat * option nat) :=
  match fuel with
  | O => None
  | S fuel =>
      let* next := Next sl x level in
      if decide (next = obs) then Some (x, next)
      else
        let* after := passes (key_before key) sl next in
        match next, after with
        | Some y, true => update_level fuel key sl level obs y
        | _, _ => Some (x, next)
        end
  end.
Fixpoint update_levels (n level : nat) (key : K) (sl : SkipList) (ih : InsertHint) : option InsertHint :=
  match n with
  | O => Some ih
  | S n =>
      let* p := prev_ ih !! level in
      let* o := obs_ ih !! level in
      match update_level (S (length (nodes sl))) key sl level o p with
      | Some (x, next) =>
          update_levels n (S level) key sl (mkHint (<[level := x]> (prev_ ih)) (<[level := next]> (obs_ ih)))
      | None => None
      end
  end.
Definition UpdateHint (ih : InsertHint) (key : K) (sl : SkipList) : option InsertHint := update_levels kMaxHeight 0 key sl ih.

(** [InsertWithHint] up to the new node: the node, its height and its predecessors. *)
Record inserting := mkInserting { i_x : nat; i_height : nat; i_prev : list nat }.
Definition insert_begin (ih : InsertHint) (key : K) (sl : SkipList) : option (inserting * SkipList) :=
  let* ih := UpdateHint ih key sl in
  let* x := obs_ ih !! 0%nat in
  let* equal := match x with Some y => let* n := nodes sl !! y in Some (bool_decide (compare_ key (n_key n) = Eq)) | None => Some false end in
  if equal then None
  else
    let '(height, rnd) := RandomHeight (rnd_ sl) in
    let max := max_height_ sl in
    let prev := if (max <? height)%nat then take max (prev_ ih) ++ replicate (height - max) 0%nat ++ drop height (prev_ ih) else prev_ ih in
    Some (mkInserting (length (nodes sl)) height prev,
          mkSkip (nodes sl ++ [NewNode key height]) (Nat.max max height) rnd).

(** Linking the node into a level: its own link, then that of its predecessor. *)
Definition link_own (ins : inserting) (i : nat) (sl : SkipList) : option SkipList :=
  let* p := i_prev ins !! i in
  let* next := Next sl p i in
  SetNext sl (i_x ins) i next.
Definition link_prev (ins : inserting) (i : nat) (sl : SkipList) : option SkipList :=
  let* p := i_prev ins !! i in
  SetNext sl p i (Some (i_x ins)).
Fixpoint link_loop (n i : nat) (ins : inserting) (sl : SkipList) : option SkipList :=
  match n with
  | O => Some sl
  | S n =>
      let* sl := link_own ins i sl in
      let* sl := link_prev ins i sl in
      link_loop n (S i) ins sl
  end.

Definition InsertWithHint (ih : InsertHint) (key : K) (sl : SkipList) : option SkipList :=
  match insert_begin ih key sl with
  | Some (ins, sl) => link_loop (i_height ins) 0 ins sl
  | None => None
  end.
Definition Insert (key : K) (sl : SkipList) : option SkipList :=
  let* ih := InsertHint_new key sl in InsertWithHint ih key sl.

(** The keys in order: the nodes of level 0. *)
Fixpoint follow (fuel : nat) (sl : SkipList) (i x : nat) : list nat :=
  match fuel with
  | O => []
  | S fuel => match Next sl x i with Some (Some y) => y :: follow fuel sl i y | _ => [] end
  end.
Definition nkey (sl : SkipList) (x : nat) : K := match nodes sl !! x with Some n => n_key n | None => Key0 end.
Definition contents (sl : SkipList) : list K := nkey sl <$> follow (length (nodes sl)) sl 0 0.

(** ** Links *)

Definition height (sl : SkipList) (x : nat) : nat := match nodes sl !! x with Some n => length (next_ n) | None => 0 end.

Lemma SetNext_spec sl x i p : (i < height sl x)%nat -> exists sl', SetNext sl x i p = Some sl'
  /\ length (nodes sl') = length (nodes sl) /\ max_height_ sl' = max_height_ sl /\ rnd_ sl' = rnd_ sl
  /\ (forall y, nkey sl' y = nkey sl y) /\ (forall y, height sl' y = height sl y)
  /\ (forall y j, Next sl' y j = if decide (y = x /\ j = i) then Some p else Next sl y j).
Proof.
  intros Hi. unfold SetNext. unfold height in Hi. destruct (nodes sl !! x) as [n|] eqn:En; [|lia]. simpl.
  rewrite (proj2 (Nat.ltb_lt _ _)) by done. eexists. split; [done|]. simpl.
  assert (Hx : (x < length (nodes sl))%nat) by (by eapply lookup_lt_Some).
  split_and!; [by rewrite length_insert|done..| | |].
  - intros y. unfold nkey. simpl. destruct (decide (y = x)) as [->|];
      [by rewrite list_lookup_insert_eq, En|by rewrite list_lookup_insert_ne].
  - intros y. unfold height. simpl. destruct (decide (y = x)) as [->|];
      [rewrite list_lookup_insert_eq, En by done; apply length_insert|by rewrite list_lookup_insert_ne].
  - intros y j. unfold Next. simpl. destruct (decide (y = x)) as [->|].
    + rewrite list_lookup_insert_eq, En by done. simpl. destruct (decide (j = i)) as [->|].
      * by rewrite decide_True, list_lookup_insert_eq.
      * rewrite decide_False by naive_solver. by rewrite list_lookup_insert_ne.
    + rewrite decide_False by naive_solver. by rewrite list_lookup_insert_ne.
Qed.

(** The nodes [l] follow [x] on level [i]. *)
Fixpoint chain (sl : SkipList) (i x : nat) (l : list nat) : Prop :=
  match l with
  | [] => Next sl x i = Some None
  | y :: l => Next sl x i = Some (Some y) /\ chain sl i y l
  end.

Lemma chain_frame sl sl' i x l : (forall y, y ∈ x :: l -> Next sl' y i = Next sl y i) -> chain sl i x l -> chain sl' i x l.
Proof.
  revert x. induction l as [|y l IH]; intros x Hf; simpl; [rewrite Hf; [done|left]|].
  intros [Hx Hc]. split; [rewrite Hf; [done|left]|]. apply IH; [|done]. intros z Hz. apply Hf. by right.
Qed.

(** A node of the chain, with what is before and behind it. *)
Definition last_of (A : list nat) : nat := default 0%nat (last A).

Lemma last_of_snoc A x : last_of (A ++ [x]) = x.
Proof. unfold last_of. by rewrite last_snoc. Qed.

Lemma last_default_cons x a (l : list nat) : default x (last (a :: l)) = default a (last l).
Proof. destruct l as [|b l]; [done|]. rewrite last_cons_cons. by destruct (last (b :: l)) eqn:E; [|apply last_None in E]. Qed.

Lemma chain_split_from sl i x l y : chain sl i x l -> y ∈ x :: l ->
  exists A B, l = A ++ B /\ y = default x (last A) /\ Next sl y i = Some (head B).
Proof.
  revert x. induction l as [|a l IH]; intros x; simpl.
  - intros Hx ->%list_elem_of_singleton. by exists [], [].
  - intros [Hx Hc] [->|Hy]%elem_of_cons; [by exists [], (a :: l)|].
    destruct (IH a Hc Hy) as (A & B & -> & -> & HB). exists (a :: A), B. by rewrite last_default_cons.
Qed.
Lemma chain_split sl i l y : chain sl i 0 l -> y ∈ 0%nat :: l ->
  exists A B, l = A ++ B /\ y = last_of A /\ Next sl y i = Some (head B).
Proof. apply chain_split_from. Qed.

Lemma chain_insert_from sl sl' i x A B z : chain sl i x (A ++ B) -> NoDup (x :: A ++ B) -> z ∉ x :: A ++ B ->
  Next sl' z i = Next sl (default x (last A)) i -> Next sl' (default x (last A)) i = Some (Some z) ->
  (forall y, y <> z -> y <> default x (last A) -> Next sl' y i = Next sl y i) -> chain sl' i x (A ++ z :: B).
Proof.
  revert x. induction A as [|a A IH]; intros x.
  - simpl. intros Hc Hn Hz Hnz Hnx Hf. split; [done|]. destruct B as [|b B]; simpl in *; [by rewrite Hnz|].
    destruct Hc as [Hb Hc]. split; [by rewrite Hnz|]. apply (chain_frame sl); [|done].
    intros y Hy. apply Hf; intros ->; [by apply Hz; right|]. by apply list.NoDup_cons in Hn as [? _].
  - rewrite last_default_cons. simpl. intros [Hx Hc] Hn Hz Hnz Hnx Hf. apply list.NoDup_cons in Hn as [Hxn Hn]. split.
    + rewrite Hf; [done| |]; intros E; [apply Hz; rewrite E; left|]. apply Hxn. rewrite E.
      destruct (last A) as [b|] eqn:El; simpl; [|left].
      right. apply elem_of_app. left. by apply last_Some_elem_of.
    + apply IH; try done. intros H. apply Hz. by right.
Qed.

(** ** The invariant *)

Context (dom : K -> Prop)
  (cmp_antisym : forall a b, dom a -> dom b -> compare_ b a = CompOpp (compare_ a b))
  (cmp_trans : forall a b c, dom a -> dom b -> dom c -> compare_ a b = Lt -> compare_ b c = Lt -> compare_ a c = Lt).

Definition node_lt (sl : SkipList) (x y : nat) : Prop := compare_ (nkey sl x) (nkey sl y) = Lt.

#[global] Instance node_lt_dec sl x y : Decision (node_lt sl x y).
Proof. unfold node_lt. apply _. Defined.

(** [L i] are the nodes of level [i]. *)
Record skip_ok (sl : SkipList) (L : nat -> list nat) : Prop := mkSkipOk {
  so_max : (1 <= max_height_ sl <= kMaxHeight)%nat;
  so_head : height sl 0 = kMaxHeight;
  so_chain : forall i, (i < kMaxHeight)%nat -> chain sl i 0 (L i);
  so_sorted : forall i, StronglySorted (node_lt sl) (L i);
  so_sub : forall i x, x ∈ L (S i) -> x ∈ L i;
  so_node : forall i x, x ∈ L i -> (i < height sl x)%nat /\ x <> 0%nat /\ dom (nkey sl x);
  so_top : forall i, (max_height_ sl <= i)%nat -> L i = [] }.

(** The tests of the searches let a key pass only if they let the smaller ones pass. *)
Definition mono (test : K -> bool) : Prop :=
  forall a b, dom a -> dom b -> compare_ a b = Lt -> test b = true -> test a = true.

Lemma key_before_mono key : dom key -> mono (key_before key).
Proof.
  intros Hk a b Ha Hb Hab. unfold key_before. destruct (compare_ b key) eqn:E; try done.
  intros _. by rewrite (cmp_trans a b key).
Qed.
Lemma true_mono : mono (fun _ => true).
Proof. done. Qed.

Lemma node_lt_irrefl sl L i x : skip_ok sl L -> x ∈ L i -> ~ node_lt sl x x.
Proof.
  intros Hok Hx H. destruct (so_node sl L Hok i x Hx) as (_ & _ & Hd). unfold node_lt in H.
  pose proof (cmp_antisym _ _ Hd Hd) as Ha. rewrite H in Ha. done.
Qed.

Lemma sorted_NoDup sl L i : skip_ok sl L -> NoDup (L i).
Proof.
  intros Hok. pose proof (so_sorted sl L Hok i) as Hs.
  assert (Hirr : forall x, x ∈ L i -> ~ node_lt sl x x) by (intros; by eapply node_lt_irrefl).
  induction Hs as [|x l Hs IH Hf]; [constructor|]. constructor.
  - intros Hx. apply (Hirr x); [left|]. by apply (Forall_elem _ _ _ Hf).
  - apply IH. intros y Hy. apply Hirr. by right.
Qed.

Lemma in_range sl x i : (i < height sl x)%nat -> exists n, nodes sl !! x = Some n /\ n_key n = nkey sl x.
Proof. unfold height, nkey. destruct (nodes sl !! x) as [n|]; [by exists n|lia]. Qed.

Lemma passes_node test sl L i y : skip_ok sl L -> y ∈ L i -> passes test sl (Some y) = Some (test (nkey sl y)).
Proof.
  intros Hok Hy. destruct (so_node sl L Hok i y Hy) as (Hh & _). apply in_range in Hh as (n & Hn & Hk).
  simpl. rewrite Hn. simpl. by rewrite Hk.
Qed.

(** A list cut where a test ends to let its nodes pass. *)
Definition cut (test : K -> bool) (sl : SkipList) (l A B : list nat) : Prop :=
  l = A ++ B /\ Forall (fun x => test (nkey sl x) = true) A /\ Forall (fun x => test (nkey sl x) = false) B.

(** A search stands on a node that passed. *)
Definition passed (test : K -> bool) (sl : SkipList) (l : list nat) (x : nat) : Prop :=
  x = 0%nat \/ (x ∈ l /\ test (nkey sl x) = true).

Lemma passed_place test sl L i x : skip_ok sl L -> mono test -> (i < kMaxHeight)%nat -> passed test sl (L i) x ->
  exists A B, L i = A ++ B /\ x = last_of A /\ Next sl x i = Some (head B) /\ Forall (fun x => test (nkey sl x) = true) A.
Proof.
  intros Hok Hm Hi Hx. destruct (chain_split sl i (L i) x) as (A & B & HL & HA & HB).
  { by apply so_chain. }
  { destruct Hx as [->|[Hx _]]; [left|by right]. }
  exists A, B. split_and!; [done..|]. pose proof (so_sorted sl L Hok i) as Hs.
  assert (Hd : forall y, y ∈ A -> y <> 0%nat /\ dom (nkey sl y)).
  { intros y Hy. apply (so_node sl L Hok i). rewrite HL. apply elem_of_app. by left. }
  destruct (decide (A = [])) as [->|Hne]; [constructor|].
  destruct (exists_last Hne) as (A1 & z & EA). subst A. rewrite last_of_snoc in HA. subst z.
  destruct (Hd x) as [Hx0 Hdx]; [apply elem_of_app; right; left|].
  destruct Hx as [?|[_ Ht]]; [done|]. apply Forall_app. split; [|by constructor].
  rewrite HL in Hs. apply StronglySorted_app in Hs as (_ & Hs & _). apply StronglySorted_app in Hs as (Hc & _ & _).
  apply List.Forall_forall. intros y Hy%list_elem_of_In. apply (Hm _ (nkey sl x)); [apply Hd; apply elem_of_app; by left|done| |done].
  apply Hc; [done|left].
Qed.

Lemma cut_behind test sl L i A y B : skip_ok sl L -> mono test -> L i = A ++ y :: B -> test (nkey sl y) = false ->
  Forall (fun x => test (nkey sl x) = false) (y :: B).
Proof.
  intros Hok Hm HL Hy. constructor; [done|]. pose proof (so_sorted sl L Hok i) as Hs. rewrite HL in Hs.
  apply StronglySorted_app in Hs as (_ & _ & Hs). inversion Hs as [|? ? _ Hf]; subst.
  assert (Hd : forall z, z ∈ y :: B -> dom (nkey sl z)).
  { intros z Hz. apply (so_node sl L Hok i). rewrite HL. apply elem_of_app. by right. }
  apply List.Forall_forall. intros z Hz%list_elem_of_In. destruct (test (nkey sl z)) eqn:E; [|done].
  rewrite (Hm (nkey sl y) (nkey sl z)) in Hy; [done|apply Hd; left|apply Hd; by right|by apply (Forall_elem _ _ _ Hf)|done].
Qed.

(** ** Searching *)

Arguments passes : simpl never.

(** What a search remembers of a level: a node that passed, and one that did not. *)
Definition hint_at (test : K -> bool) (sl : SkipList) (l : list nat) (p : nat) (o : option nat) : Prop :=
  passed test sl l p /\ forall y, o = Some y -> y ∈ l /\ test (nkey sl y) = false.
Definition hints (from : nat) (test : K -> bool) (sl : SkipList) (L : nat -> list nat) (prev : list nat) (obs : list (option nat)) : Prop :=
  length prev = kMaxHeight /\ length obs = kMaxHeight
  /\ forall l p o, (from <= l)%nat -> prev !! l = Some p -> obs !! l = Some o -> hint_at test sl (L l) p o.
Definition search_ok (test : K -> bool) (sl : SkipList) (L : nat -> list nat) (s : search) : Prop :=
  (s_level s < kMaxHeight)%nat /\ passed test sl (L (s_level s)) (s_x s) /\ hints (S (s_level s)) test sl L (s_prev s) (s_obs s).
(** What it ends with. *)
Definition found_ok (test : K -> bool) (sl : SkipList) (L : nat -> list nat) (f : found) : Prop :=
  (exists A B, cut test sl (L 0%nat) A B /\ f_x f = last_of A /\ f_next f = head B) /\ hints 0 test sl L (f_prev f) (f_obs f).

(** The nodes behind [x]. *)
Definition to_go (sl : SkipList) (l : list nat) (x : nat) : nat :=
  length (List.filter (fun y => (x =? 0)%nat || bool_decide (node_lt sl x y)) l).

Lemma level_sub sl L i j x : skip_ok sl L -> (j <= i)%nat -> x ∈ L i -> x ∈ L j.
Proof. intros Hok Hj. induction Hj as [|i Hj IH]; [done|]. intros Hx. by apply IH, (so_sub sl L Hok). Qed.

Lemma to_go_less sl L i j A y B : skip_ok sl L -> L i = A ++ y :: B -> (j <= i)%nat ->
  (to_go sl (L j) y < to_go sl (L j) (last_of A))%nat.
Proof.
  intros Hok HL Hj. assert (Hy : y ∈ L i) by (rewrite HL; apply elem_of_app; right; left).
  assert (Hx : last_of A = 0%nat \/ (last_of A ∈ L i /\ node_lt sl (last_of A) y)).
  { destruct (decide (A = [])) as [->|Hne]; [by left|]. right. destruct (exists_last Hne) as (A1 & z & ->). rewrite last_of_snoc.
    split; [rewrite HL; apply elem_of_app; left; apply elem_of_app; right; left|].
    pose proof (so_sorted sl L Hok i) as Hs. rewrite HL in Hs. apply StronglySorted_app in Hs as (Hc & _ & _).
    apply Hc; [apply elem_of_app; right; left|left]. }
  set (x := last_of A) in *. clearbody x. assert (Hy0 : y ∈ L j) by (by apply (level_sub sl L i j)).
  destruct (so_node sl L Hok i y Hy) as (_ & Hy' & Hdy). unfold to_go. rewrite (proj2 (Nat.eqb_neq y 0)) by done.
  apply (filter_less _ _ _ y); [|done|..].
  - intros z Hz. simpl. destruct (Nat.eqb_spec x 0) as [|Hx0]; [done|]. simpl. rewrite !bool_decide_eq_true. intros Hlt.
    destruct Hx as [|[Hx Hxy]]; [done|]. unfold node_lt in *. apply (cmp_trans _ (nkey sl y)); [by apply (so_node sl L Hok i)|done| |done..].
    by apply (so_node sl L Hok j).
  - destruct Hx as [->|[_ Hxy]]; [done|]. rewrite bool_decide_true by done. apply orb_true_r.
  - simpl. apply bool_decide_false. by apply (node_lt_irrefl sl L i).
Qed.

Lemma hints_set from test sl L prev obs l p o : hints (S l) test sl L prev obs -> (l < kMaxHeight)%nat ->
  hint_at test sl (L l) p o -> from = l -> hints from test sl L (<[l := p]> prev) (<[l := o]> obs).
Proof.
  intros (Hp & Ho & Hh) Hl Hat ->. split_and!; [by rewrite length_insert..|]. intros l' p' o' Hl' Hp' Ho'.
  destruct (decide (l' = l)) as [->|Hne].
  - rewrite list_lookup_insert_eq in Hp' by lia. rewrite list_lookup_insert_eq in Ho' by lia. by simplify_eq.
  - rewrite list_lookup_insert_ne in Hp' by done. rewrite list_lookup_insert_ne in Ho' by done. apply Hh; [lia|done..].
Qed.

Lemma find_start_ok test sl L : skip_ok sl L -> search_ok test sl L (find_start sl).
Proof.
  intros Hok. pose proof (so_max sl L Hok) as Hm. unfold find_start, search_ok. cbn [s_level s_x s_prev s_obs].
  split_and!; [lia|by left|]. split_and!; [done..|]. intros l p o _ Hp Ho.
  apply lookup_replicate in Hp as [-> _]. apply lookup_replicate in Ho as [-> _]. split; [by left|done].
Qed.

Lemma find_step_ok test sl L s : skip_ok sl L -> mono test -> search_ok test sl L s ->
  match find_step test sl s with
  | Some (inl s') => search_ok test sl L s' /\ (to_go sl (L 0%nat) (s_x s') + s_level s' < to_go sl (L 0%nat) (s_x s) + s_level s)%nat
  | Some (inr f) => found_ok test sl L f
  | None => False
  end.
Proof.
  intros Hok Hm (Hl & Hx & Hh). destruct (passed_place test sl L _ _ Hok Hm Hl Hx) as (A & B & HL & HA & HB & HtA).
  unfold find_step. rewrite HB. simpl. set (i := s_level s) in *.
  assert (Hsub : forall y, y ∈ B -> y ∈ L i) by (intros y Hy; rewrite HL; apply elem_of_app; by right).
  assert (Hstop : Forall (fun x => test (nkey sl x) = false) B ->
    match match i with O => Some (inr (mkFound (s_x s) (head B) (<[i := s_x s]> (s_prev s)) (<[i := head B]> (s_obs s))))
          | S level => Some (inl (mkSearch (s_x s) level (<[i := s_x s]> (s_prev s)) (<[i := head B]> (s_obs s)))) end with
    | Some (inl s') => search_ok test sl L s' /\ (to_go sl (L 0%nat) (s_x s') + s_level s' < to_go sl (L 0%nat) (s_x s) + i)%nat
    | Some (inr f) => found_ok test sl L f
    | None => False
    end).
  { intros HtB. assert (Hat : hint_at test sl (L i) (s_x s) (head B)).
    { split; [done|]. intros y Hy. destruct B as [|b B]; [done|]. injection Hy as ->. split; [apply Hsub; left|by apply Forall_cons_1 in HtB as [? _]]. }
    assert (Hh' : forall n, n = i -> hints n test sl L (<[i := s_x s]> (s_prev s)) (<[i := head B]> (s_obs s))) by (intros n Hn; by eapply hints_set).
    clearbody i. destruct i as [|level].
    - split; simpl; [by exists A, B|by apply Hh'].
    - split; [|simpl; lia]. split_and!; simpl; [lia| |by apply Hh'].
      destruct Hx as [?|[Hx Ht]]; [by left|]. right. split; [by apply (so_sub sl L Hok)|done]. }
  destruct B as [|y B]; [by apply Hstop|]. change (head (y :: B)) with (Some y) in *.
  rewrite (passes_node test sl L i y) by (done || apply Hsub; left). simpl.
  destruct (test (nkey sl y)) eqn:Ety; [|apply Hstop; by eapply cut_behind].
  assert (Hy : y ∈ L i) by (apply Hsub; left). split; [split_and!; [done|by right|done]|]. simpl.
  pose proof (to_go_less sl L i 0 A y B Hok HL ltac:(lia)) as Hlt. rewrite <- HA in Hlt. lia.
Qed.

Lemma height_range sl x i : (i < height sl x)%nat -> (x < length (nodes sl))%nat.
Proof. intros H. destruct (in_range sl x i H) as (n & Hn & _). by eapply lookup_lt_Some. Qed.

Lemma level_length sl L i : skip_ok sl L -> (length (L i) < length (nodes sl))%nat.
Proof.
  intros Hok. assert (H0 : (0 < length (nodes sl))%nat).
  { apply (height_range sl 0 0). rewrite (so_head sl L Hok). unfold kMaxHeight. lia. }
  assert (Hs : 0%nat :: L i ⊆+ seq 0 (length (nodes sl))).
  { apply NoDup_submseteq.
    - constructor; [|by eapply sorted_NoDup]. intros Hx. by destruct (so_node sl L Hok i 0%nat Hx) as (_ & ? & _).
    - intros x [->|Hx]%elem_of_cons; apply elem_of_seq; [lia|].
      destruct (so_node sl L Hok i x Hx) as (Hh & _). apply height_range in Hh. lia. }
  apply submseteq_length in Hs. rewrite length_seq in Hs. simpl in Hs. lia.
Qed.

Lemma find_loop_ok fuel test sl L s : skip_ok sl L -> mono test -> search_ok test sl L s ->
  (to_go sl (L 0%nat) (s_x s) + s_level s < fuel)%nat -> exists f, find_loop fuel test sl s = Some f /\ found_ok test sl L f.
Proof.
  intros Hok Hm. revert s. induction fuel as [|fuel IH]; intros s Hs Hf; [lia|]. cbn [find_loop].
  pose proof (find_step_ok test sl L s Hok Hm Hs) as Hstep.
  destruct (find_step test sl s) as [[s'|f]|]; [|by exists f|done]. destruct Hstep as [Hs' Hlt]. apply IH; [done|lia].
Qed.

Lemma find_ok test sl L : skip_ok sl L -> mono test -> exists f, find test sl = Some f /\ found_ok test sl L f.
Proof.
  intros Hok Hm. apply find_loop_ok; [done..|by apply find_start_ok|].
  pose proof (level_length sl L 0 Hok). pose proof (so_max sl L Hok). simpl.
  assert (Hto : (to_go sl (L 0%nat) 0 <= length (L 0%nat))%nat) by apply filter_length. unfold find_fuel. lia.
Qed.

(** ** Bringing a hint up to date *)

Lemma update_level_ok fuel key sl L l o x : skip_ok sl L -> dom key -> (l < kMaxHeight)%nat ->
  hint_at (key_before key) sl (L l) x o -> (to_go sl (L l) x < fuel)%nat ->
  exists A B, cut (key_before key) sl (L l) A B /\ update_level fuel key sl l o x = Some (last_of A, head B).
Proof.
  intros Hok Hk Hl. pose proof (key_before_mono key Hk) as Hm. revert x.
  induction fuel as [|fuel IH]; intros x [Hx Ho] Hf; [lia|].
  destruct (passed_place _ sl L _ _ Hok Hm Hl Hx) as (A & B & HL & HA & HB & HtA).
  cbn [update_level]. rewrite HB. simpl. destruct (decide (head B = o)) as [E|Hne].
  { exists A, B. rewrite HA. split; [|done]. split_and!; [done..|]. destruct B as [|y B]; [constructor|].
    eapply cut_behind; [done..|]. by apply Ho. }
  destruct B as [|y B]; [exists A, []; rewrite HA; split; [by split_and!|done]|].
  change (head (y :: B)) with (Some y). assert (Hy : y ∈ L l) by (rewrite HL; apply elem_of_app; right; left).
  rewrite (passes_node _ sl L l y) by done. simpl. destruct (key_before key (nkey sl y)) eqn:Ety.
  - apply IH; [split; [by right|done]|]. pose proof (to_go_less sl L l l A y B Hok HL (Nat.le_refl _)) as Hlt. rewrite <- HA in Hlt. lia.
  - exists A, (y :: B). rewrite HA. split; [|done]. split_and!; [done..|]. by eapply cut_behind.
Qed.

(** The hint of a level is exact. *)
Definition exact (key : K) (sl : SkipList) (L : nat -> list nat) (ih : InsertHint) (l : nat) : Prop :=
  exists A B, cut (key_before key) sl (L l) A B /\ prev_ ih !! l = Some (last_of A) /\ obs_ ih !! l = Some (head B).

Lemma update_levels_ok n level key sl L ih : skip_ok sl L -> dom key -> (level + n = kMaxHeight)%nat ->
  hints level (key_before key) sl L (prev_ ih) (obs_ ih) -> (forall l, (l < level)%nat -> exact key sl L ih l) ->
  exists ih', update_levels n level key sl ih = Some ih' /\ length (prev_ ih') = kMaxHeight
    /\ forall l, (l < kMaxHeight)%nat -> exact key sl L ih' l.
Proof.
  intros Hok Hk. revert level ih. induction n as [|n IH]; intros level ih Hn (Hp & Ho & Hh) Hex.
  { exists ih. split_and!; [done..|]. intros l Hl. apply Hex. lia. }
  cbn [update_levels]. destruct (lookup_lt_is_Some_2 (prev_ ih) level) as [p Ep]; [lia|].
  destruct (lookup_lt_is_Some_2 (obs_ ih) level) as [o Eo]; [lia|]. rewrite Ep, Eo. cbn [mbind option_bind].
  destruct (update_level_ok (S (length (nodes sl))) key sl L level o p) as (A & B & Hcut & ->); [done..|lia|by apply Hh| |].
  { pose proof (level_length sl L level Hok). pose proof (filter_length (fun y => (p =? 0)%nat || bool_decide (node_lt sl p y)) (L level)).
    unfold to_go. lia. }
  apply IH; [lia| |]; cbn [prev_ obs_].
  - split_and!; [by rewrite length_insert..|]. intros l p' o' Hl Hp' Ho'.
    rewrite list_lookup_insert_ne in Hp' by lia. rewrite list_lookup_insert_ne in Ho' by lia. apply Hh; [lia|done..].
  - intros l Hl. unfold exact. cbn [prev_ obs_]. destruct (decide (l = level)) as [->|Hne].
    + exists A, B. rewrite !list_lookup_insert_eq by lia. done.
    + rewrite !list_lookup_insert_ne by done. apply Hex. lia.
Qed.

Lemma UpdateHint_ok key sl L ih : skip_ok sl L -> dom key -> hints 0 (key_before key) sl L (prev_ ih) (obs_ ih) ->
  exists ih', UpdateHint ih key sl = Some ih' /\ length (prev_ ih') = kMaxHeight /\ forall l, (l < kMaxHeight)%nat -> exact key sl L ih' l.
Proof. intros. apply update_levels_ok; [done..|lia]. Qed.

(** ** Inserting *)

Lemma skip_ok_frame sl sl' L : skip_ok sl L -> (max_height_ sl <= max_height_ sl' <= kMaxHeight)%nat ->
  (forall x, (x < length (nodes sl))%nat -> nkey sl' x = nkey sl x /\ height sl' x = height sl x) ->
  (forall i x, x ∈ 0%nat :: L i -> Next sl' x i = Next sl x i) -> skip_ok sl' L.
Proof.
  intros Hok Hmax Hx Hn. assert (Hin : forall i x, x ∈ L i -> nkey sl' x = nkey sl x /\ height sl' x = height sl x).
  { intros i x Hi. apply Hx. by eapply height_range, (so_node sl L Hok). }
  pose proof (so_max sl L Hok). split; [lia| | | | | |].
  - rewrite <- (so_head sl L Hok). apply Hx, (height_range _ _ 0). rewrite (so_head sl L Hok). unfold kMaxHeight. lia.
  - intros i Hi. apply (chain_frame sl); [|by apply (so_chain sl L Hok)]. intros y Hy. by apply Hn.
  - intros i. pose proof (so_sorted sl L Hok i) as Hs. assert (Hk : forall x, x ∈ L i -> nkey sl' x = nkey sl x) by (intros; by eapply Hin).
    clear -Hs Hk. induction Hs as [|x l Hs IH Hf]; [constructor|]. constructor; [apply IH; intros; apply Hk; by right|].
    apply List.Forall_forall. intros y Hy%list_elem_of_In. unfold node_lt. rewrite !Hk by (by left || by right).
    by apply (Forall_elem _ _ _ Hf).
  - apply (so_sub sl L Hok).
  - intros i x Hi. destruct (Hin i x Hi) as [-> ->]. by apply (so_node sl L Hok).
  - intros i Hi. apply (so_top sl L Hok). lia.
Qed.

(** A node that is linked into the levels below [i]. *)
Record ins_ok (key : K) (sl : SkipList) (L : nat -> list nat) (ins : inserting) (i : nat) : Prop := mkInsOk {
  io_dom : dom key;
  io_height : (1 <= i_height ins <= max_height_ sl)%nat;
  io_level : (i <= i_height ins)%nat;
  io_node : height sl (i_x ins) = i_height ins;
  io_key : nkey sl (i_x ins) = key;
  io_not_head : i_x ins <> 0%nat;
  io_linked : forall j, i_x ins ∈ L j <-> (j < i)%nat;
  io_prev : forall j, (i <= j < i_height ins)%nat -> exists A B, cut (key_before key) sl (L j) A B /\ i_prev ins !! j = Some (last_of A);
  io_new : forall x, x ∈ L 0%nat -> x <> i_x ins -> compare_ key (nkey sl x) <> Eq }.

(** The store after a node was allocated. *)
Lemma append_frame sl key h m rnd x : (x < length (nodes sl))%nat ->
  let sl' := mkSkip (nodes sl ++ [NewNode key h]) m rnd in
  nkey sl' x = nkey sl x /\ height sl' x = height sl x /\ forall i, Next sl' x i = Next sl x i.
Proof. intros Hx. simpl. unfold nkey, height, Next. simpl. by rewrite lookup_app_l. Qed.

Lemma append_new sl key h m rnd :
  let sl' := mkSkip (nodes sl ++ [NewNode key h]) m rnd in
  nkey sl' (length (nodes sl)) = key /\ height sl' (length (nodes sl)) = h.
Proof. simpl. unfold nkey, height. simpl. rewrite list_lookup_middle by done. simpl. by rewrite length_replicate. Qed.

(** The predecessors in the levels the list did not have are the head. *)
Lemma new_levels {A} (prev : list A) (a : A) max h j : (max < h)%nat -> (h <= length prev)%nat -> (j < h)%nat ->
  (take max prev ++ replicate (h - max) a ++ drop h prev) !! j = if decide (j < max)%nat then prev !! j else Some a.
Proof.
  intros Hmh Hlen Hj. case_decide as Hc.
  - rewrite lookup_app_l by (rewrite length_take; lia). by rewrite lookup_take_lt.
  - rewrite lookup_app_r by (rewrite length_take; lia). rewrite length_take, lookup_app_l by (rewrite length_replicate; lia).
    rewrite lookup_replicate_2 by lia. done.
Qed.

Lemma insert_begin_ok ih key sl L : skip_ok sl L -> dom key -> hints 0 (key_before key) sl L (prev_ ih) (obs_ ih) ->
  (forall x, x ∈ L 0%nat -> compare_ key (nkey sl x) <> Eq) ->
  exists ins sl', insert_begin ih key sl = Some (ins, sl') /\ skip_ok sl' L /\ ins_ok key sl' L ins 0
    /\ forall x, (x < length (nodes sl))%nat -> nkey sl' x = nkey sl x.
Proof.
  intros Hok Hk Hh Hnew. destruct (UpdateHint_ok key sl L ih Hok Hk Hh) as (ih' & HU & Hlen & Hex).
  unfold insert_begin. rewrite HU. cbn [mbind option_bind].
  destruct (Hex 0%nat ltac:(unfold kMaxHeight; lia)) as (A0 & B0 & Hcut0 & _ & Ho0). rewrite Ho0. cbn [mbind option_bind].
  assert (Heq : match head B0 with Some y => let* n := nodes sl !! y in Some (bool_decide (compare_ key (n_key n) = Eq)) | None => Some false end = Some false).
  { destruct B0 as [|y B0]; [done|]. simpl. assert (Hy : y ∈ L 0%nat) by (destruct Hcut0 as (-> & _); apply elem_of_app; right; left).
    destruct (so_node sl L Hok 0 y Hy) as (Hy0 & _). apply in_range in Hy0 as (n & -> & Hn). simpl. rewrite Hn.
    by rewrite bool_decide_false by (by apply Hnew). }
  rewrite Heq. cbn [mbind option_bind]. clear Heq. pose proof (RandomHeight_bound (rnd_ sl)) as Hrh.
  destruct (RandomHeight (rnd_ sl)) as [h rnd]. cbn [fst] in Hrh. pose proof (so_max sl L Hok) as Hmax.
  set (sl' := mkSkip _ _ rnd). eexists _, sl'. split; [done|].
  assert (Hf : forall x, (x < length (nodes sl))%nat -> nkey sl' x = nkey sl x /\ height sl' x = height sl x /\ forall i, Next sl' x i = Next sl x i)
    by (intros; by apply append_frame).
  destruct (append_new sl key h (Nat.max (max_height_ sl) h) rnd) as [Hxk Hxh]. fold sl' in Hxk, Hxh.
  assert (Hin : forall i x, x ∈ L i -> (x < length (nodes sl))%nat) by (intros i x Hx; by eapply height_range, (so_node sl L Hok)).
  assert (H0 : (0 < length (nodes sl))%nat) by (pose proof (level_length sl L 0 Hok); lia).
  split_and!; [| |intros x Hx; by apply Hf].
  { apply (skip_ok_frame sl); [done|simpl; lia|intros x Hx; split; by apply Hf|].
    intros i x [->|Hx]%elem_of_cons; apply Hf; [done|by eapply Hin]. }
  split; cbn [i_x i_height i_prev]; [done|simpl; lia|lia|done..|lia| | |].
  - intros j. split; [|lia]. intros Hj. apply Hin in Hj. lia.
  - intros j Hj. destruct (Nat.ltb_spec (max_height_ sl) h) as [Hmh|Hmh]; [rewrite new_levels by lia|]; try case_decide as Hc.
    2: { exists [], []. rewrite (so_top sl L Hok) by lia. by split_and!. }
    all: destruct (Hex j ltac:(lia)) as (A & B & (HL & HA & HB) & Hp & _); exists A, B; split; [|done]; split_and!; [done|..];
      apply List.Forall_forall; intros y Hy%list_elem_of_In; (rewrite (proj1 (Hf y ltac:(eapply (Hin j); rewrite HL; apply elem_of_app; auto))));
      [by apply (Forall_elem _ _ _ HA)|by apply (Forall_elem _ _ _ HB)].
  - intros x Hx _. rewrite (proj1 (Hf x ltac:(by eapply Hin))). by apply Hnew.
Qed.

Lemma cut_keys test sl sl' l A B : (forall x, nkey sl' x = nkey sl x) -> cut test sl l A B -> cut test sl' l A B.
Proof. intros Hk (-> & HA & HB). split_and!; [done|..]; (eapply Forall_impl; [done|]); intros x; simpl; by rewrite Hk. Qed.

(** The node has its link of level [i], that of its predecessor. *)
Definition own_stored (sl : SkipList) (ins : inserting) (i : nat) : Prop :=
  exists p, i_prev ins !! i = Some p /\ Next sl (i_x ins) i = Next sl p i.

Lemma last_of_in (A : list nat) : last_of A = 0%nat \/ last_of A ∈ A.
Proof.
  destruct (decide (A = [])) as [->|Hne]; [by left|]. right. destruct (exists_last Hne) as (A1 & z & ->).
  rewrite last_of_snoc. apply elem_of_app. right. left.
Qed.

Lemma link_own_ok key sl L ins i : skip_ok sl L -> ins_ok key sl L ins i -> (i < i_height ins)%nat ->
  exists sl', link_own ins i sl = Some sl' /\ skip_ok sl' L /\ ins_ok key sl' L ins i /\ own_stored sl' ins i
    /\ forall x, nkey sl' x = nkey sl x.
Proof.
  intros Hok Hins Hi. destruct (io_prev _ _ _ _ _ Hins i) as (A & B & (HL & HA & HB) & Hp); [lia|].
  pose proof (so_max sl L Hok) as Hmax. pose proof (io_height _ _ _ _ _ Hins) as Hh.
  destruct (chain_split sl i (L i) (last_of A)) as (A' & B' & _ & _ & HN).
  { apply (so_chain sl L Hok). lia. }
  { destruct (last_of_in A) as [->|Hin]; [left|right]. rewrite HL. apply elem_of_app. by left. }
  destruct (SetNext_spec sl (i_x ins) i (head B')) as (sl' & HS & Hlen & Hm & Hr & Hkey & Hheight & HNext).
  { by rewrite (io_node _ _ _ _ _ Hins). }
  unfold link_own. rewrite Hp. cbn [mbind option_bind]. rewrite HN. cbn [mbind option_bind]. exists sl'.
  assert (Hxi : i_x ins ∉ L i) by (rewrite (io_linked _ _ _ _ _ Hins); lia).
  assert (Hlast : last_of A <> i_x ins).
  { intros E. destruct (last_of_in A) as [H0|Hin]; [by apply (io_not_head _ _ _ _ _ Hins); rewrite <- E|].
    apply Hxi. rewrite <- E, HL. apply elem_of_app. by left. }
  split_and!; [done| | | |done].
  - apply (skip_ok_frame sl); [done|lia|intros x _; by rewrite Hkey, Hheight|].
    intros j x Hx. rewrite HNext, decide_False; [done|]. intros [-> ->]. apply elem_of_cons in Hx as [H0|Hx]; [|done].
    by apply (io_not_head _ _ _ _ _ Hins).
  - split; rewrite ?Hm, ?Hheight, ?Hkey; try apply Hins.
    + intros j Hj. destruct (io_prev _ _ _ _ _ Hins j Hj) as (A1 & B1 & Hc & HA1). exists A1, B1. split; [by apply (cut_keys _ sl)|done].
    + intros x. rewrite Hkey. apply Hins.
  - exists (last_of A). split; [done|]. rewrite !HNext, decide_True by done. rewrite decide_False by naive_solver. by rewrite HN.
Qed.

(** The nodes of the levels with [x] in place on level [i]. *)
Definition add_level (L : nat -> list nat) (i : nat) (l : list nat) : nat -> list nat := fun j => if decide (j = i) then l else L j.

Lemma cut_sorted key sl l A B x : dom key -> nkey sl x = key -> cut (key_before key) sl l A B -> StronglySorted (node_lt sl) l ->
  (forall y, y ∈ l -> dom (nkey sl y) /\ compare_ key (nkey sl y) <> Eq) -> StronglySorted (node_lt sl) (A ++ x :: B).
Proof.
  intros Hd Hx (-> & HA & HB) Hs Hy. apply StronglySorted_app in Hs as (Hc & HsA & HsB).
  assert (HxB : forall b, b ∈ B -> node_lt sl x b).
  { intros b Hb. unfold node_lt. rewrite Hx. destruct (Hy b) as [Hdb Hne]; [apply elem_of_app; by right|].
    pose proof (Forall_elem _ _ _ HB Hb) as Ht. unfold key_before in Ht. simpl in Ht.
    rewrite (cmp_antisym key (nkey sl b)) in Ht by done. by destruct (compare_ key (nkey sl b)). }
  assert (HAx : forall a, a ∈ A -> node_lt sl a x).
  { intros a Ha. unfold node_lt. rewrite Hx. pose proof (Forall_elem _ _ _ HA Ha) as Ht. unfold key_before in Ht. simpl in Ht.
    by destruct (compare_ (nkey sl a) key). }
  apply StronglySorted_app. split_and!; [|done|constructor; [done|]].
  - intros a b Ha [->|Hb]%elem_of_cons; [by apply HAx|by apply Hc].
  - apply List.Forall_forall. intros b Hb%list_elem_of_In. by apply HxB.
Qed.

Lemma sorted_nodes sl sl' l : (forall x, nkey sl' x = nkey sl x) -> StronglySorted (node_lt sl) l -> StronglySorted (node_lt sl') l.
Proof.
  intros Hk. induction 1 as [|x l Hs IH Hf]; [constructor|]. constructor; [done|].
  eapply Forall_impl; [done|]. intros y. unfold node_lt. by rewrite !Hk.
Qed.

Lemma elem_of_middle {A} (x y : A) l1 l2 : y ∈ l1 ++ x :: l2 <-> y = x \/ y ∈ l1 ++ l2.
Proof. rewrite !elem_of_app, elem_of_cons. naive_solver. Qed.

Section LinkPrev.
Context (key : K) (sl sl' : SkipList) (L : nat -> list nat) (ins : inserting) (i : nat) (A B : list nat).
Context (Hok : skip_ok sl L) (Hins : ins_ok key sl L ins i) (Hi : (i < i_height ins)%nat).
Context (Hcut : cut (key_before key) sl (L i) A B) (Hown : Next sl (i_x ins) i = Next sl (last_of A) i).
Context (Hmax : max_height_ sl' = max_height_ sl) (Hkey : forall y, nkey sl' y = nkey sl y) (Hheight : forall y, height sl' y = height sl y).
Context (HNext : forall y j, Next sl' y j = if decide (y = last_of A /\ j = i) then Some (Some (i_x ins)) else Next sl y j).

Abbreviation L' := (add_level L i (A ++ i_x ins :: B)).

Lemma elem_of_add_level j y : y ∈ L' j <-> (j = i /\ y = i_x ins) \/ y ∈ L j.
Proof using Hcut.
  unfold add_level. case_decide as Hj; [subst j|naive_solver]. rewrite elem_of_middle. destruct Hcut as (-> & _). naive_solver.
Qed.

Lemma link_prev_skip : skip_ok sl' L'.
Proof using All.
  pose proof (io_height _ _ _ _ _ Hins) as Hh. pose proof Hcut as (HL & HA & HB).
  assert (Hxi : i_x ins ∉ L i) by (rewrite (io_linked _ _ _ _ _ Hins); lia). split.
  - rewrite Hmax. apply Hok.
  - rewrite Hheight. apply Hok.
  - intros j Hj. pose proof (so_chain sl L Hok j Hj) as Hc. unfold add_level. case_decide as Hji.
    + subst j. rewrite HL in Hc, Hxi. assert (Hx0 : i_x ins ∉ 0%nat :: A ++ B).
      { intros [?|?]%elem_of_cons; [by apply (io_not_head _ _ _ _ _ Hins)|done]. }
      apply (chain_insert_from sl); [done| |done|..]; fold (last_of A).
      * constructor; [|rewrite <- HL; by eapply sorted_NoDup]. rewrite <- HL. intros H0.
        by destruct (so_node sl L Hok i _ H0) as (_ & ? & _).
      * rewrite HNext, decide_False; [done|]. intros [E _]. apply Hx0. rewrite E.
        destruct (last_of_in A) as [->|Hin]; [left|right; apply elem_of_app; by left].
      * by rewrite HNext, decide_True.
      * intros y _ Hy. by rewrite HNext, decide_False by naive_solver.
    + apply (chain_frame sl); [|done]. intros y _. by rewrite HNext, decide_False by naive_solver.
  - intros j. apply (sorted_nodes sl); [done|]. unfold add_level. case_decide; [subst j|apply Hok].
    eapply cut_sorted; [apply Hins|apply Hins|done|apply Hok|]. intros y Hy. split; [by apply (so_node sl L Hok i)|].
    apply (io_new _ _ _ _ _ Hins); [by apply (level_sub sl L i 0); [|lia|]|by intros ->].
  - intros j y. rewrite !elem_of_add_level. intros [[<- ->]|Hy]; right.
    + apply (io_linked _ _ _ _ _ Hins). lia.
    + by apply (so_sub sl L Hok).
  - intros j y. rewrite elem_of_add_level, Hheight, Hkey. intros [[-> ->]|Hy]; [|by apply (so_node sl L Hok)].
    rewrite (io_node _ _ _ _ _ Hins), (io_key _ _ _ _ _ Hins). split_and!; [done|apply Hins..].
  - intros j Hj. rewrite Hmax in Hj. unfold add_level. rewrite decide_False by lia. by apply (so_top sl L Hok).
Qed.

Lemma link_prev_ins : ins_ok key sl' L' ins (S i).
Proof using All.
  split; rewrite ?Hmax, ?Hheight, ?Hkey; try apply Hins; [lia|..].
  - intros j. rewrite elem_of_add_level, (io_linked _ _ _ _ _ Hins). lia.
  - intros j Hj. destruct (io_prev _ _ _ _ _ Hins j) as (A1 & B1 & Hc & HA1); [lia|]. exists A1, B1. split; [|done].
    unfold add_level. rewrite decide_False by lia. by apply (cut_keys _ sl).
  - intros y. rewrite elem_of_add_level, Hkey. intros [[_ ?]|Hy] Hne; [done|]. by apply (io_new _ _ _ _ _ Hins).
Qed.
End LinkPrev.

Lemma link_prev_ok key sl L ins i : skip_ok sl L -> ins_ok key sl L ins i -> own_stored sl ins i -> (i < i_height ins)%nat ->
  exists sl' L', link_prev ins i sl = Some sl' /\ skip_ok sl' L' /\ ins_ok key sl' L' ins (S i)
    /\ (forall x, nkey sl' x = nkey sl x) /\ (forall j x, x ∈ L j -> x ∈ L' j)
    /\ L' 0%nat ≡ₚ if decide (i = 0%nat) then i_x ins :: L 0%nat else L 0%nat.
Proof.
  intros Hok Hins (p & Hp & Hown) Hi. destruct (io_prev _ _ _ _ _ Hins i) as (A & B & Hcut & HA); [lia|].
  rewrite HA in Hp. injection Hp as <-. pose proof (io_height _ _ _ _ _ Hins) as Hh. pose proof (so_max sl L Hok) as Hm.
  destruct (SetNext_spec sl (last_of A) i (Some (i_x ins))) as (sl' & HS & Hlen & Hmax & _ & Hkey & Hheight & HNext).
  { destruct (last_of_in A) as [->|Hin]; [rewrite (so_head sl L Hok); lia|].
    apply (so_node sl L Hok). destruct Hcut as (-> & _). apply elem_of_app. by left. }
  unfold link_prev. rewrite HA. cbn [mbind option_bind].
  exists sl', (add_level L i (A ++ i_x ins :: B)). split_and!; [done|by eapply link_prev_skip|by eapply link_prev_ins|done| |].
  - intros j x Hx. apply (elem_of_add_level key sl); [done|by right].
  - unfold add_level. destruct Hcut as (HL & _). destruct (decide (i = 0%nat)) as [->|Hne].
    + rewrite decide_True by done. rewrite HL. symmetry. apply Permutation_middle.
    + by rewrite decide_False.
Qed.

(** ** The keys in order *)

Lemma follow_chain fuel sl i x l : chain sl i x l -> (length l <= fuel)%nat -> follow fuel sl i x = l.
Proof.
  revert x l. induction fuel as [|fuel IH]; intros x [|y l] Hc Hf; simpl in *; [done|lia|by rewrite Hc|].
  destruct Hc as [-> Hc]. f_equal. apply IH; [done|lia].
Qed.

Lemma contents_level sl L : skip_ok sl L -> contents sl = nkey sl <$> L 0%nat.
Proof.
  intros Hok. unfold contents. rewrite (follow_chain _ sl 0 0 (L 0%nat)); [done| |].
  - apply (so_chain sl L Hok). unfold kMaxHeight. lia.
  - pose proof (level_length sl L 0 Hok). lia.
Qed.

Definition klt (a b : K) : Prop := compare_ a b = Lt.

Lemma contents_sorted sl L : skip_ok sl L -> StronglySorted klt (contents sl) /\ Forall dom (contents sl).
Proof.
  intros Hok. rewrite (contents_level sl L Hok). split.
  - pose proof (so_sorted sl L Hok 0) as Hs. induction Hs as [|x l Hs IH Hf]; [constructor|]. simpl. constructor; [done|]. by apply Forall_fmap.
  - apply Forall_fmap, List.Forall_forall. intros x Hx%list_elem_of_In. simpl. by apply (so_node sl L Hok 0).
Qed.

(** What a search that has ended says of the keys. *)
Definition answers (test : K -> bool) (sl : SkipList) (f : found) : Prop :=
  exists A B, contents sl = A ++ B /\ Forall (fun k => test k = true) A /\ Forall (fun k => test k = false) B
    /\ nkey sl <$> not_head (f_x f) = last A /\ nkey sl <$> f_next f = head B.

Lemma found_answers test sl L f : skip_ok sl L -> found_ok test sl L f -> answers test sl f.
Proof.
  intros Hok [(A & B & (HL & HA & HB) & Hx & Hn) _]. exists (nkey sl <$> A), (nkey sl <$> B).
  rewrite (contents_level sl L Hok), HL, fmap_app. split_and!; [done|by apply Forall_fmap..| |].
  - rewrite Hx. destruct (decide (A = [])) as [->|Hne]; [done|]. destruct (exists_last Hne) as (A1 & z & ->).
    rewrite last_of_snoc, fmap_app. simpl. rewrite last_snoc. unfold not_head.
    destruct (so_node sl L Hok 0 z) as (_ & Hz & _); [rewrite HL, <- app_assoc; apply elem_of_app; right; left|].
    by rewrite (proj2 (Nat.eqb_neq z 0)).
  - rewrite Hn. by destruct B.
Qed.

(** ** Threads *)

(** [FindGreaterOrEqual] or [FindLessThan] of a key, which read the same, or [FindLast]. *)
Inductive query := QSeek (key : K) | QLast.
Definition q_test (q : query) : K -> bool := match q with QSeek key => key_before key | QLast => fun _ => true end.
Definition q_ok (q : query) : Prop := match q with QSeek key => dom key | QLast => True end.

(** An insertion: looking for the place, waiting for the lock, linking ([stored]: the link
    of the node on level [i] has been stored), done.  A search, and one that has ended. *)
Inductive thr :=
  | THint (key : K) (s : search)
  | TReady (key : K) (ih : InsertHint)
  | TLink (key : K) (ins : inserting) (i : nat) (stored : bool)
  | TDone (key : K)
  | TFind (q : query) (s : search)
  | TFound (q : query) (f : found).

Inductive moved := Moves (sl : SkipList) (lock : option nat) (t : thr) | Waits | Over | Undefined.

(** The next access of a thread to the shared list.  Under the lock nobody else stores, so
    that [UpdateHint] may be one step. *)
Definition thr_step (me : nat) (sl : SkipList) (lock : option nat) (t : thr) : moved :=
  match t with
  | THint key s =>
      match find_step (key_before key) sl s with
      | Some (inl s) => Moves sl lock (THint key s)
      | Some (inr f) => Moves sl lock (TReady key (mkHint (f_prev f) (f_obs f)))
      | None => Undefined
      end
  | TReady key ih =>
      match lock with
      | Some _ => Waits
      | None => match insert_begin ih key sl with Some (ins, sl) => Moves sl (Some me) (TLink key ins 0 false) | None => Undefined end
      end
  | TLink key ins i false =>
      if (i <? i_height ins)%nat then
        match link_own ins i sl with Some sl => Moves sl lock (TLink key ins i true) | None => Undefined end
      else Moves sl None (TDone key)
  | TLink key ins i true =>
      match link_prev ins i sl with Some sl => Moves sl lock (TLink key ins (S i) false) | None => Undefined end
  | TFind q s =>
      match find_step (q_test q) sl s with
      | Some (inl s) => Moves sl lock (TFind q s)
      | Some (inr f) => Moves sl lock (TFound q f)
      | None => Undefined
      end
  | TDone _ | TFound _ _ => Over
  end.

Record mstate := mkM { m_sl : SkipList; m_lock : option nat; m_threads : list thr }.

Definition m_init : mstate := mkM SkipList_new None [].

(** The key a thread inserts, and whether it is in the list. *)
Definition t_key (t : thr) : option K :=
  match t with THint key _ | TReady key _ | TLink key _ _ _ | TDone key => Some key | _ => None end.
Definition linked (t : thr) : option K :=
  match t with TLink key _ (S _) _ | TDone key => Some key | _ => None end.

(** Threads start with keys that are not inserted by another one. *)
Inductive mstep : mstate -> mstate -> Prop :=
  | ms_insert st key : dom key -> (forall t k, t ∈ m_threads st -> t_key t = Some k -> compare_ key k <> Eq) ->
      mstep st (mkM (m_sl st) (m_lock st) (m_threads st ++ [THint key (find_start (m_sl st))]))
  | ms_find st q : q_ok q -> mstep st (mkM (m_sl st) (m_lock st) (m_threads st ++ [TFind q (find_start (m_sl st))]))
  | ms_move st i t sl lock t' : m_threads st !! i = Some t -> thr_step i (m_sl st) (m_lock st) t = Moves sl lock t' ->
      mstep st (mkM sl lock (<[i := t']> (m_threads st))).

(** The threads that are to move, one after the other. *)
Fixpoint run (sched : list nat) (st : mstate) : mstate :=
  match sched with
  | [] => st
  | i :: sched =>
      match m_threads st !! i with
      | Some t =>
          match thr_step i (m_sl st) (m_lock st) t with
          | Moves sl lock t' => run sched (mkM sl lock (<[i := t']> (m_threads st)))
          | _ => run sched st
          end
      | None => run sched st
      end
  end.

Lemma run_star sched st : star mstep st (run sched st).
Proof.
  revert st. induction sched as [|i sched IH]; intros st; simpl; [apply star_refl|].
  destruct (m_threads st !! i) as [t|] eqn:Ei; [|apply IH].
  destruct (thr_step i (m_sl st) (m_lock st) t) eqn:E; try apply IH. eapply star_step; [by eapply ms_move|apply IH].
Qed.

(** ** What holds of the threads *)

Definition is_link (t : thr) : bool := match t with TLink _ _ _ _ => true | _ => false end.

Definition thr_ok (sl : SkipList) (L : nat -> list nat) (t : thr) : Prop :=
  match t with
  | THint key s => dom key /\ search_ok (key_before key) sl L s
  | TReady key ih => dom key /\ hints 0 (key_before key) sl L (prev_ ih) (obs_ ih)
  | TLink key ins i stored => ins_ok key sl L ins i /\ (stored = true -> (i < i_height ins)%nat /\ own_stored sl ins i)
  | TDone key => dom key
  | TFind q s => q_ok q /\ search_ok (q_test q) sl L s
  | TFound q f => q_ok q
  end.

(** Nodes are only added, with their keys. *)
Definition grows (sl : SkipList) (L : nat -> list nat) (sl' : SkipList) (L' : nat -> list nat) : Prop :=
  forall i x, x ∈ L i -> x ∈ L' i /\ nkey sl' x = nkey sl x.

Lemma grows_refl sl L : grows sl L sl L.
Proof. done. Qed.

Lemma passed_grows test sl L sl' L' i x : grows sl L sl' L' -> passed test sl (L i) x -> passed test sl' (L' i) x.
Proof. intros Hg [?|[Hx Ht]]; [by left|]. right. destruct (Hg i x Hx) as [? ->]. done. Qed.

Lemma hints_grow from test sl L sl' L' prev obs : grows sl L sl' L' -> hints from test sl L prev obs -> hints from test sl' L' prev obs.
Proof.
  intros Hg (Hp & Ho & Hh). split_and!; [done..|]. intros l p o Hl Hpl Hol. destruct (Hh l p o Hl Hpl Hol) as [H1 H2].
  split; [by eapply passed_grows|]. intros y Hy. destruct (H2 y Hy) as [Hyl Ht]. destruct (Hg l y Hyl) as [? ->]. done.
Qed.

Lemma search_grows test sl L sl' L' s : grows sl L sl' L' -> search_ok test sl L s -> search_ok test sl' L' s.
Proof. intros Hg (Hl & Hx & Hh). split_and!; [done|by eapply passed_grows|by eapply hints_grow]. Qed.

Lemma thr_grows sl L sl' L' t : grows sl L sl' L' -> is_link t = false -> thr_ok sl L t -> thr_ok sl' L' t.
Proof. intros Hg Hn. destruct t; simpl; try done; intros [? ?]; (split; [done|]); by (eapply search_grows || eapply hints_grow). Qed.

Lemma q_mono q : q_ok q -> mono (q_test q).
Proof. destruct q as [key|]; simpl; [apply key_before_mono|intros _; apply true_mono]. Qed.

(** A step of a thread: the list it leaves, the key it may have added, the lock. *)
Record moves_ok (me : nat) (sl : SkipList) (L : nat -> list nat) (lock : option nat) (t : thr)
    (sl' : SkipList) (L' : nat -> list nat) (lock' : option nat) (t' : thr) : Prop := mkMovesOk {
  mo_skip : skip_ok sl' L';
  mo_thr : thr_ok sl' L' t';
  mo_grows : grows sl L sl' L';
  mo_key : t_key t' = t_key t;
  mo_linked : (linked t' = linked t /\ nkey sl' <$> L' 0%nat ≡ₚ nkey sl <$> L 0%nat)
    \/ exists k, linked t = None /\ linked t' = Some k /\ nkey sl' <$> L' 0%nat ≡ₚ k :: (nkey sl <$> L 0%nat);
  mo_lock : match is_link t, is_link t' with
    | false, false => sl' = sl /\ L' = L /\ lock' = lock
    | false, true => lock = None /\ lock' = Some me
    | true, true => lock' = lock
    | true, false => lock' = None
    end }.

Lemma same_keys sl sl' (l : list nat) : (forall x, x ∈ l -> nkey sl' x = nkey sl x) -> nkey sl' <$> l = nkey sl <$> l.
Proof. intros H. apply list_fmap_ext. intros i x Hx. apply H. by eapply list_elem_of_lookup_2. Qed.

Lemma link_step_ok me sl L lock key ins i stored : skip_ok sl L -> thr_ok sl L (TLink key ins i stored) ->
  exists sl' L' lock' t', thr_step me sl lock (TLink key ins i stored) = Moves sl' lock' t'
    /\ moves_ok me sl L lock (TLink key ins i stored) sl' L' lock' t'.
Proof.
  intros Hok [Hins Hst]. destruct stored; cbn [thr_step].
  - destruct (Hst eq_refl) as [Hi Hown]. clear Hst.
    destruct (link_prev_ok key sl L ins i) as (sl' & L' & -> & Hok' & Hins' & Hk & Hg & Hp); [done..|].
    exists sl', L', lock, (TLink key ins (S i) false). split; [done|]. split; [done|by split|by split; [apply Hg|]|done| |done].
    assert (Hkeys : nkey sl' <$> L' 0%nat ≡ₚ nkey sl <$> (if decide (i = 0%nat) then i_x ins :: L 0%nat else L 0%nat)).
    { rewrite Hp. by rewrite (same_keys sl) by (intros; apply Hk). }
    destruct i as [|i]; simpl in *; [right|by left]. exists key. by rewrite (io_key _ _ _ _ _ Hins) in Hkeys.
  - clear Hst. destruct (Nat.ltb_spec i (i_height ins)) as [Hi|Hi].
    + destruct (link_own_ok key sl L ins i) as (sl' & -> & Hok' & Hins' & Hown & Hk); [done..|].
      exists sl', L, lock, (TLink key ins i true). split; [done|]. split; [done|by split|by split|done| |done].
      left. split; [done|]. by rewrite (same_keys sl).
    + exists sl, L, None, (TDone key). split; [done|]. split; [done|apply Hins|done|done| |done]. left. split; [|done].
      pose proof (io_height _ _ _ _ _ Hins). destruct i as [|i]; [lia|done].
Qed.

Lemma thr_step_ok me sl L lock t : skip_ok sl L -> thr_ok sl L t ->
  (forall key ih, t = TReady key ih -> forall x, x ∈ L 0%nat -> compare_ key (nkey sl x) <> Eq) ->
  match thr_step me sl lock t with
  | Moves sl' lock' t' => exists L', moves_ok me sl L lock t sl' L' lock' t'
  | Waits => exists j, lock = Some j
  | Over => match t with TDone _ | TFound _ _ => True | _ => False end
  | Undefined => False
  end.
Proof.
  intros Hok Ht Hnew. destruct t as [key s|key ih|key ins i st|key|q s|q f]; [| |by destruct (link_step_ok me sl L lock key ins i st) as (? & ? & ? & ? & -> & ?); eauto|done| |done].
  - destruct Ht as [Hd Hs]. pose proof (find_step_ok _ sl L s Hok (key_before_mono key Hd) Hs) as Hf. simpl.
    destruct (find_step _ sl s) as [[s'|f]|]; [exists L|exists L|done].
    + destruct Hf as [Hf _]. split; try done. by left.
    + destruct Hf as [_ Hh]. split; try done. by left.
  - destruct Ht as [Hd Hh]. simpl. destruct lock as [j|]; [by exists j|].
    destruct (insert_begin_ok ih key sl L) as (ins & sl' & -> & Hok' & Hins & Hk); [done..|by eapply Hnew|].
    assert (Hin : forall i x, x ∈ L i -> nkey sl' x = nkey sl x) by (intros i x Hx; by apply Hk; eapply height_range, (so_node sl L Hok)).
    exists L. split; [done|by split|by intros i x Hx; split; [|eapply Hin]|done| |done]. left. split; [done|].
    by rewrite (same_keys sl) by (apply Hin).
  - destruct Ht as [Hd Hs]. pose proof (find_step_ok _ sl L s Hok (q_mono q Hd) Hs) as Hf. simpl.
    destruct (find_step _ sl s) as [[s'|f]|]; [exists L|exists L|done].
    + destruct Hf as [Hf _]. split; try done. by left.
    + split; try done. by left.
Qed.

(** ** Every interleaving *)

Record minv (st : mstate) (L : nat -> list nat) : Prop := mkMinv {
  mi_skip : skip_ok (m_sl st) L;
  mi_thr : forall i t, m_threads st !! i = Some t -> thr_ok (m_sl st) L t;
  mi_lock : forall i, m_lock st = Some i <-> exists t, m_threads st !! i = Some t /\ is_link t = true;
  mi_keys : nkey (m_sl st) <$> L 0%nat ≡ₚ omap linked (m_threads st);
  mi_distinct : forall i j t u k l, i <> j -> m_threads st !! i = Some t -> m_threads st !! j = Some u ->
    t_key t = Some k -> t_key u = Some l -> compare_ k l <> Eq }.

Lemma m_init_inv : minv m_init (fun _ => []).
Proof.
  split; try done.
  - split; try done; [unfold kMaxHeight; simpl; lia|..].
    + intros i Hi. unfold chain, Next, m_init, SkipList_new. cbn [m_sl nodes lookup list_lookup mbind option_bind next_].
      by rewrite lookup_replicate_2.
    + intros i. constructor.
    + intros i x Hx. by apply elem_of_nil in Hx.
  - intros i. split; [done|]. intros (t & Ht & _). done.
Qed.

Lemma t_key_dom sl L t k : thr_ok sl L t -> t_key t = Some k -> dom k.
Proof.
  destruct t as [key s|key ih|key ins i stored|key|q s|q f]; simpl; try done; [intros [Hd _] [= <-]..|by intros Hd [= <-]]; [done..|apply Hd].
Qed.

(** A new thread. *)
Lemma minv_spawn st L t : minv st L -> thr_ok (m_sl st) L t -> is_link t = false -> linked t = None ->
  (forall u k l, u ∈ m_threads st -> t_key t = Some k -> t_key u = Some l -> compare_ k l <> Eq) ->
  minv (mkM (m_sl st) (m_lock st) (m_threads st ++ [t])) L.
Proof.
  intros [Hok Ht Hl Hk Hd] Hthr Hn Hlk Hnew. assert (Hcase : forall i u, (m_threads st ++ [t]) !! i = Some u ->
    (m_threads st !! i = Some u /\ (i < length (m_threads st))%nat) \/ (i = length (m_threads st) /\ u = t)).
  { intros i u [Hu|[Hle Hu]]%lookup_app_Some; [left; split; [done|by eapply lookup_lt_Some]|].
    right. apply list_lookup_singleton_Some in Hu as [? ->]. split; [lia|done]. }
  split; simpl; [done| | | |].
  - intros i u [[Hu _]|[_ ->]]%Hcase; [by eapply Ht|done].
  - intros i. rewrite Hl. split; intros (u & Hu & Hul).
    + exists u. split; [by apply lookup_app_l_Some|done].
    + apply Hcase in Hu as [[Hu _]|[_ ->]]; [by exists u|by rewrite Hn in Hul].
  - rewrite omap_app. simpl. rewrite Hlk, app_nil_r. done.
  - intros i j u v k l Hij [[Hu ?]|[-> ->]]%Hcase [[Hv ?]|[-> ->]]%Hcase Hku Hkv; [by eapply Hd| | |done].
    + intros Hc. apply (Hnew u l k); [by eapply list_elem_of_lookup_2|done..|].
      rewrite (cmp_antisym k l), Hc; [done|..]; (eapply t_key_dom; [|done]); [by eapply Ht|done].
    + eapply Hnew; [by eapply list_elem_of_lookup_2|done..].
Qed.

Lemma omap_insert_same (l : list thr) i t t' : l !! i = Some t -> linked t' = linked t -> omap linked (<[i := t']> l) = omap linked l.
Proof.
  intros Hi He. rewrite <- (take_drop_middle l i t Hi) at 2.
  rewrite insert_take_drop by (by eapply lookup_lt_Some). rewrite !omap_app. simpl. by rewrite He.
Qed.
Lemma omap_insert_new (l : list thr) i t t' k : l !! i = Some t -> linked t = None -> linked t' = Some k ->
  omap linked (<[i := t']> l) ≡ₚ k :: omap linked l.
Proof.
  intros Hi Hn He. rewrite <- (take_drop_middle l i t Hi) at 2.
  rewrite insert_take_drop by (by eapply lookup_lt_Some). rewrite !omap_app. simpl. rewrite Hn, He.
  symmetry. apply Permutation_middle.
Qed.

(** A key that is in the list is inserted by a thread that has linked it. *)
Lemma key_linked st L x : minv st L -> x ∈ L 0%nat -> exists j u, m_threads st !! j = Some u /\ linked u = Some (nkey (m_sl st) x).
Proof.
  intros Hinv Hx. assert (Hin : nkey (m_sl st) x ∈ omap linked (m_threads st)).
  { rewrite <- (mi_keys _ _ Hinv). by apply list_elem_of_fmap_2. }
  apply list_elem_of_omap in Hin as (u & Hu & Hl). apply list_elem_of_lookup in Hu as [j Hj]. by exists j, u.
Qed.

Lemma linked_key t k : linked t = Some k -> t_key t = Some k.
Proof. destruct t as [| |key ins [|i] st| | |]; simpl; congruence. Qed.

Lemma step_ok st L i t : minv st L -> m_threads st !! i = Some t ->
  match thr_step i (m_sl st) (m_lock st) t with
  | Moves sl' lock' t' => exists L', moves_ok i (m_sl st) L (m_lock st) t sl' L' lock' t'
  | Waits => exists j, m_lock st = Some j
  | Over => match t with TDone _ | TFound _ _ => True | _ => False end
  | Undefined => False
  end.
Proof.
  intros Hinv Hi. apply thr_step_ok; [apply Hinv|by eapply mi_thr|]. intros key ih -> x Hx.
  destruct (key_linked st L x Hinv Hx) as (j & u & Hj & Hl). assert (Hne : i <> j) by (intros ->; simplify_eq).
  eapply (mi_distinct _ _ Hinv i j); [done..|by apply linked_key].
Qed.

Lemma mstep_inv st st' L : minv st L -> mstep st st' -> exists L', minv st' L'.
Proof.
  intros Hinv Hstep. destruct Hstep as [st key Hd Hnew|st q Hq|st i t sl lock t' Hi Hmv].
  - exists L. apply minv_spawn; try done; [split; [done|apply find_start_ok, Hinv]|]. intros u k l Hu [= <-] Hl. by eapply Hnew.
  - exists L. apply minv_spawn; try done. split; [done|apply find_start_ok, Hinv].
  - pose proof (step_ok st L i t Hinv Hi) as Hs. rewrite Hmv in Hs. destruct Hs as (L' & [Hok' Ht' Hg Hk Hln Hlk]).
    exists L'. destruct Hinv as [Hok Ht Hl Hks Hd]. assert (Hlen : (i < length (m_threads st))%nat) by (by eapply lookup_lt_Some).
    pose proof (Hl i) as Hli. split; simpl; [done| | | |].
    + intros j u Hu. destruct (decide (j = i)) as [->|Hne].
      { rewrite list_lookup_insert_eq in Hu by done. by simplify_eq. }
      rewrite list_lookup_insert_ne in Hu by done. destruct (is_link u) eqn:Eu; [|by eapply thr_grows, Ht].
      assert (Hlj : m_lock st = Some j) by (apply Hl; eauto).
      destruct (is_link t) eqn:Et; [rewrite (proj2 Hli) in Hlj by eauto; congruence|].
      destruct (is_link t'); [destruct Hlk; congruence|]. destruct Hlk as (-> & -> & _). by eapply Ht.
    + intros j. destruct (decide (j = i)) as [->|Hne]; [rewrite list_lookup_insert_eq by done|rewrite list_lookup_insert_ne by done].
      * destruct (is_link t) eqn:Et, (is_link t') eqn:Et'.
        -- subst lock. split; [by eauto|]. intros _. apply Hli. eauto.
        -- subst lock. split; [done|]. intros (? & [= <-] & ?). congruence.
        -- destruct Hlk as [_ ->]. split; eauto.
        -- destruct Hlk as (_ & _ & ->). rewrite Hli. split; intros (u & ? & ?); simplify_eq; congruence.
      * rewrite <- Hl. destruct (is_link t) eqn:Et, (is_link t') eqn:Et'; [by subst lock| |destruct Hlk as [-> ->]|by destruct Hlk as (_ & _ & ->)].
        -- subst lock. rewrite (proj2 Hli) by eauto. split; congruence.
        -- split; congruence.
    + destruct Hln as [[He Hp]|(k & Hn & He & Hp)]; [by rewrite (omap_insert_same _ _ t), Hp|].
      by rewrite (omap_insert_new _ _ t t' k), Hp, Hks.
    + intros a b u v k l Hab Hu Hv Hku Hkv.
      assert (Hold : forall c w m, <[i:=t']> (m_threads st) !! c = Some w -> t_key w = Some m -> exists w0, m_threads st !! c = Some w0 /\ t_key w0 = Some m).
      { intros c w m Hc Hm. destruct (decide (c = i)) as [->|Hne]; [rewrite list_lookup_insert_eq in Hc by done|rewrite list_lookup_insert_ne in Hc by done; by eauto].
        simplify_eq. exists t. by rewrite <- Hk. }
      destruct (Hold a u k Hu Hku) as (u0 & ? & ?), (Hold b v l Hv Hkv) as (v0 & ? & ?). by eapply (Hd a b).
Qed.

Lemma mstar_inv st : star mstep m_init st -> exists L, minv st L.
Proof.
  intros Hst. apply (star_invariant mstep (fun st => exists L, minv st L)) with m_init; [|done|by exists (fun _ => []); apply m_init_inv].
  intros s s' [L HL] Hs. by eapply mstep_inv.
Qed.

(** Some thread can go on unless all have ended. *)
Lemma some_moves st L i t : minv st L -> m_threads st !! i = Some t -> thr_step i (m_sl st) (m_lock st) t <> Over ->
  exists j u sl lock u', m_threads st !! j = Some u /\ thr_step j (m_sl st) (m_lock st) u = Moves sl lock u'.
Proof.
  intros Hinv Hi Hno. pose proof (step_ok st L i t Hinv Hi) as Hs.
  destruct (thr_step i (m_sl st) (m_lock st) t) as [sl lock t'| | |] eqn:E; [by eauto 10| |done|done].
  destruct Hs as [j Hj]. pose proof Hj as Hlj. apply (mi_lock _ _ Hinv) in Hlj as (u & Hu & Hul).
  destruct u as [| |key ins k stored| | |]; try done.
  destruct (link_step_ok j (m_sl st) L (m_lock st) key ins k stored) as (sl & L' & lock & u' & Hstep & _);
    [apply Hinv|by eapply (mi_thr _ _ Hinv)|]. by eauto 10.
Qed.

(** ** One thread *)

Lemma link_loop_ok n i key ins sl L : skip_ok sl L -> ins_ok key sl L ins i -> (i + n = i_height ins)%nat ->
  exists sl' L', link_loop n i ins sl = Some sl' /\ skip_ok sl' L' /\ (forall x, nkey sl' x = nkey sl x)
    /\ L' 0%nat ≡ₚ if decide (i = 0 /\ n <> 0)%nat then i_x ins :: L 0%nat else L 0%nat.
Proof.
  revert i sl L. induction n as [|n IH]; intros i sl L Hok Hins Hn.
  { exists sl, L. rewrite decide_False by naive_solver. done. }
  destruct (link_own_ok key sl L ins i) as (sl1 & E1 & Hok1 & Hins1 & Hown & Hk1); [done..|lia|].
  destruct (link_prev_ok key sl1 L ins i) as (sl2 & L2 & E2 & Hok2 & Hins2 & Hk2 & _ & Hp2); [done..|lia|].
  destruct (IH (S i) sl2 L2 Hok2 Hins2 ltac:(lia)) as (sl3 & L3 & E3 & Hok3 & Hk3 & Hp3). cbn [link_loop].
  rewrite E1. cbn [mbind option_bind]. rewrite E2. cbn [mbind option_bind]. exists sl3, L3. split_and!; [done..| |].
  - intros x. by rewrite Hk3, Hk2, Hk1.
  - rewrite decide_False in Hp3 by lia. rewrite Hp3, Hp2. destruct (decide (i = 0%nat)) as [->|?]; [by rewrite decide_True|by rewrite decide_False by lia].
Qed.

Lemma Insert_ok key sl L : skip_ok sl L -> dom key -> (forall k, k ∈ contents sl -> compare_ key k <> Eq) ->
  exists sl' L', Insert key sl = Some sl' /\ skip_ok sl' L' /\ contents sl' ≡ₚ key :: contents sl.
Proof.
  intros Hok Hd Hnew. destruct (find_ok (key_before key) sl L Hok (key_before_mono key Hd)) as (f & Ef & _ & Hh).
  unfold Insert, InsertHint_new, FindGreaterOrEqual. rewrite Ef. cbn [mbind option_bind].
  destruct (insert_begin_ok (mkHint (f_prev f) (f_obs f)) key sl L) as (ins & sl1 & E1 & Hok1 & Hins & Hk1); [done..| |].
  { intros x Hx. apply Hnew. rewrite (contents_level sl L Hok). by apply list_elem_of_fmap_2. }
  unfold InsertWithHint. rewrite E1.
  destruct (link_loop_ok (i_height ins) 0 key ins sl1 L) as (sl2 & L2 & -> & Hok2 & Hk2 & Hp2); [done..|].
  exists sl2, L2. split_and!; [done..|]. rewrite (contents_level sl2 L2 Hok2), (contents_level sl L Hok), Hp2.
  pose proof (io_height _ _ _ _ _ Hins). rewrite decide_True by lia. rewrite (same_keys sl1) by (intros; apply Hk2). simpl.
  rewrite (io_key _ _ _ _ _ Hins). f_equiv. rewrite (same_keys sl); [done|]. intros x Hx. by eapply Hk1, height_range, (so_node sl L Hok).
Qed.

Lemma find_answers test sl L : skip_ok sl L -> mono test -> exists f, find test sl = Some f /\ answers test sl f.
Proof. intros Hok Hm. destruct (find_ok test sl L Hok Hm) as (f & -> & Hf). exists f. split; [done|by eapply found_answers]. Qed.

(** The nodes in order. *)
Definition node_ids (sl : SkipList) : list nat := follow (length (nodes sl)) sl 0 0.

Lemma node_ids_level sl L : skip_ok sl L -> node_ids sl = L 0%nat.
Proof.
  intros Hok. apply follow_chain; [apply (so_chain sl L Hok); unfold kMaxHeight; lia|]. pose proof (level_length sl L 0 Hok). lia.
Qed.

Lemma chain_next sl i x l n y : chain sl i x l -> l !! n = Some y -> Next sl y i = Some (l !! S n).
Proof.
  revert x n. induction l as [|z l IH]; intros x n Hc; [done|]. destruct Hc as [Hx Hc]. destruct n as [|n]; simpl.
  - intros [= <-]. destruct l as [|w l]; [done|]. by destruct Hc.
  - by apply (IH z).
Qed.

Lemma cut_unique test sl l A B A' B' : cut test sl l A B -> cut test sl l A' B' -> A = A' /\ B = B'.
Proof.
  intros (-> & HA & HB) (E & HA' & HB'). revert A' E HA'. induction HA as [|a A Ha HA IH]; intros [|a' A'] E HA'; simpl in *; [done| | |].
  - subst B. apply Forall_cons_1 in HB as [? _]. apply Forall_cons_1 in HA' as [? _]. simpl in *. congruence.
  - subst B'. apply Forall_cons_1 in HB' as [? _]. simpl in *. congruence.
  - injection E as <- E. apply Forall_cons_1 in HA' as [_ HA']. destruct (IH A' E HA') as [-> ->]. done.
Qed.

Lemma seek_place key sl L : skip_ok sl L -> dom key ->
  exists n f, (n <= length (node_ids sl))%nat /\ cut (key_before key) sl (node_ids sl) (take n (node_ids sl)) (drop n (node_ids sl))
    /\ find (key_before key) sl = Some f /\ f_x f = last_of (take n (node_ids sl)) /\ f_next f = node_ids sl !! n.
Proof.
  intros Hok Hd. destruct (find_ok (key_before key) sl L Hok (key_before_mono _ Hd)) as (f & Hf & (A & B & Hcut & Hx & Hn) & _).
  rewrite (node_ids_level sl L Hok). pose proof Hcut as (HL & _). exists (length A), f. rewrite HL.
  rewrite take_app_length, drop_app_length, length_app. split_and!; [lia|by rewrite <- HL|done..|].
  rewrite Hn, lookup_app_r, Nat.sub_diag by done. by destruct B.
Qed.

Lemma it_SeekToFirst_ok sl L : skip_ok sl L -> it_SeekToFirst sl = Some (head (node_ids sl)).
Proof.
  intros Hok. rewrite (node_ids_level sl L Hok). unfold it_SeekToFirst.
  pose proof (so_chain sl L Hok 0 ltac:(unfold kMaxHeight; lia)) as Hc. destruct (L 0%nat) as [|x l]; [done|]. by destruct Hc.
Qed.

Lemma not_head_last sl L l l2 : skip_ok sl L -> L 0%nat = l ++ l2 -> not_head (last_of l) = last l.
Proof.
  intros Hok HL. unfold last_of. destruct (last l) as [x|] eqn:E; [|done]. simpl. unfold not_head.
  destruct (so_node sl L Hok 0 x) as (_ & Hx & _); [rewrite HL; apply elem_of_app; left; by apply last_Some_elem_of|].
  by rewrite (proj2 (Nat.eqb_neq x 0)).
Qed.

Lemma it_SeekToLast_ok sl L : skip_ok sl L -> it_SeekToLast sl = Some (last (node_ids sl)).
Proof.
  intros Hok. rewrite (node_ids_level sl L Hok). unfold it_SeekToLast, FindLast.
  destruct (find_ok (fun _ => true) sl L Hok true_mono) as (f & -> & (A & B & (HL & _ & HB) & Hx & _) & _). simpl. rewrite Hx.
  destruct B as [|b B]; [|by apply Forall_cons_1 in HB as [? _]]. rewrite (not_head_last sl L A []) by done. by rewrite HL, app_nil_r.
Qed.

Lemma seek_ok key sl L : skip_ok sl L -> dom key ->
  exists n, (n <= length (node_ids sl))%nat /\ cut (key_before key) sl (node_ids sl) (take n (node_ids sl)) (drop n (node_ids sl))
    /\ it_Seek key sl = Some (node_ids sl !! n) /\ FindLessThan key sl = Some (last_of (take n (node_ids sl)))
    /\ Contains key sl = Some (match contents sl !! n with Some x => bool_decide (compare_ key x = Eq) | None => false end).
Proof.
  intros Hok Hd. destruct (seek_place key sl L Hok Hd) as (n & f & Hn & Hcut & Hf & Hx & Hnext). exists n.
  unfold it_Seek, FindLessThan, Contains, FindGreaterOrEqual. rewrite Hf. simpl. rewrite Hx, Hnext. split_and!; [done..|].
  unfold contents. fold (node_ids sl). rewrite list_lookup_fmap. destruct (node_ids sl !! n) as [x|] eqn:E; simpl; [|done].
  destruct (so_node sl L Hok 0 x) as (Hh & _); [rewrite <- (node_ids_level sl L Hok); by eapply list_elem_of_lookup_2|].
  apply in_range in Hh as (m & -> & Hm). simpl. by rewrite Hm.
Qed.

Lemma it_Next_ok sl L i x : skip_ok sl L -> node_ids sl !! i = Some x -> it_Next x sl = Some (node_ids sl !! S i).
Proof.
  intros Hok. rewrite (node_ids_level sl L Hok). intros Hi. unfold it_Next. eapply chain_next; [|done].
  apply (so_chain sl L Hok). unfold kMaxHeight. lia.
Qed.

Lemma it_Prev_ok sl L i x : skip_ok sl L -> node_ids sl !! i = Some x ->
  it_Prev x sl = Some (match i with O => None | S i => node_ids sl !! i end).
Proof.
  intros Hok. rewrite (node_ids_level sl L Hok). intros Hi. assert (Hx : x ∈ L 0%nat) by (by eapply list_elem_of_lookup_2).
  destruct (so_node sl L Hok 0 x Hx) as (Hh & _ & Hd). apply in_range in Hh as (n & Hn & Hk).
  unfold it_Prev, FindLessThan. rewrite Hn. cbn [mbind option_bind]. rewrite Hk.
  destruct (find_ok (key_before (nkey sl x)) sl L Hok (key_before_mono _ Hd)) as (f & -> & (A & B & Hcut & Hfx & _) & _).
  simpl. rewrite Hfx. pose proof (so_sorted sl L Hok 0) as Hs. rewrite <- (take_drop_middle _ _ _ Hi) in Hs.
  apply StronglySorted_app in Hs as (Hc & _ & Hs). inversion Hs as [|? ? _ Hf]; subst.
  destruct (cut_unique (key_before (nkey sl x)) sl (L 0%nat) A B (take i (L 0%nat)) (x :: drop (S i) (L 0%nat))) as [-> _]; [done| |].
  - split_and!; [symmetry; by apply take_drop_middle| |].
    + apply List.Forall_forall. intros y Hy%list_elem_of_In. unfold key_before. rewrite Hc; [done..|left].
    + eapply cut_behind; [done|by apply key_before_mono|symmetry; by apply take_drop_middle|].
      unfold key_before. destruct (compare_ (nkey sl x) (nkey sl x)) eqn:E; try done. by destruct (node_lt_irrefl sl L 0 x).
  - rewrite (not_head_last sl L _ (drop i (L 0%nat))) by (done || by rewrite take_drop). destruct i as [|i]; [done|].
    pose proof (lookup_lt_Some _ _ _ Hi) as Hlt. destruct (lookup_lt_is_Some_2 (L 0%nat) i) as [y Hy]; [lia|].
    by rewrite (take_S_r _ _ _ Hy), last_snoc, Hy.
Qed.
End Skip.

(** ** The table of the memtable *)

Definition table_dom (x : TableKey) : Prop := exists e, stands_for x e.
Definition table_key0 : TableKey := (0, []).
Abbreviation table_init := (m_init table_key0).
Abbreviation table_step := (mstep KeyComparator table_dom).
Abbreviation table_contents := (contents table_key0).

Lemma table_antisym a b : table_dom a -> table_dom b -> KeyComparator b a = CompOpp (KeyComparator a b).
Proof. intros [x Hx] [y Hy]. rewrite (KeyComparator_entries b a y x), (KeyComparator_entries a b x y) by done. apply e_compare_antisym. Qed.

Lemma table_trans a b c : table_dom a -> table_dom b -> table_dom c ->
  KeyComparator a b = Lt -> KeyComparator b c = Lt -> KeyComparator a c = Lt.
Proof.
  intros [x Hx] [y Hy] [z Hz]. rewrite (KeyComparator_entries a b x y), (KeyComparator_entries b c y z), (KeyComparator_entries a c x z) by done.
  apply e_lt_trans.
Qed.

Abbreviation tlt := (klt KeyComparator).

Lemma table_insert_perm k t : table_insert k t ≡ₚ k :: t.
Proof. induction t as [|x t IH]; [done|]. simpl. destruct (KeyComparator x k); [done| |done]. rewrite IH. apply Permutation_swap. Qed.

Lemma table_insert_sorted k t : table_dom k -> Forall table_dom t -> (forall x, x ∈ t -> KeyComparator k x <> Eq) ->
  StronglySorted tlt t -> StronglySorted tlt (table_insert k t).
Proof.
  intros Hk Hd Hne. induction 1 as [|x t Hs IH Hf]; [by repeat constructor|]. apply Forall_cons_1 in Hd as [Hx Hd]. simpl.
  pose proof (table_antisym k x Hk Hx) as Ha. pose proof (Hne x ltac:(left)) as Hnx.
  destruct (KeyComparator x k) eqn:E; [by destruct (KeyComparator k x)| |].
  - constructor; [apply IH; [done|]; intros y Hy; apply Hne; by right|]. rewrite table_insert_perm. by constructor.
  - assert (Hkx : tlt k x) by (unfold klt; by destruct (KeyComparator k x)). constructor; [by constructor|]. constructor; [done|].
    apply List.Forall_forall. intros y Hy%list_elem_of_In. unfold klt. apply (table_trans k x y); [done..|by apply (Forall_elem _ _ _ Hd)|done|].
    by apply (Forall_elem _ _ _ Hf).
Qed.

(** A sorted table is determined by its keys. *)
Lemma sorted_table t t' : Forall table_dom t -> StronglySorted tlt t -> StronglySorted tlt t' -> t ≡ₚ t' -> t = t'.
Proof.
  intros Hd Hs Hs' Hp. apply (StronglySorted_unique_strong tlt); [|done..]. intros x y Hx Hy Hxy Hyx. exfalso.
  rewrite <- Hp in Hy. unfold klt in *. rewrite (table_antisym x y) in Hyx by (by apply (Forall_elem _ _ _ Hd)). by rewrite Hxy in Hyx.
Qed.

Definition inserted (ks : list TableKey) : list TableKey := foldl (fun t k => table_insert k t) [] ks.

(** Different keys. *)
Definition apart (ks : list TableKey) : Prop := forall i j a b, i <> j -> ks !! i = Some a -> ks !! j = Some b -> KeyComparator a b <> Eq.

Lemma inserted_sorted ks : Forall table_dom ks -> apart ks ->
  inserted ks ≡ₚ ks /\ StronglySorted tlt (inserted ks).
Proof.
  intros Hd Ha. induction ks as [|k ks IH] using rev_ind; [by repeat constructor|].
  apply Forall_app in Hd as [Hd Hk]. apply Forall_cons_1 in Hk as [Hk _].
  destruct IH as [Hp Hs]; [done| |].
  { intros i j a b Hij Hi Hj. eapply (Ha i j); [done|by apply lookup_app_l_Some..]. }
  unfold inserted in *. rewrite foldl_app. simpl. set (t := foldl _ _ _) in *. split.
  - by rewrite table_insert_perm, Hp, (Permutation_app_comm ks [k]).
  - apply table_insert_sorted; [done|by rewrite Hp| |done]. intros x Hx. rewrite Hp in Hx.
    apply list_elem_of_lookup in Hx as [j Hj]. pose proof (lookup_lt_Some _ _ _ Hj) as Hlt.
    eapply (Ha (length ks) j); [lia|by apply list_lookup_middle|by apply lookup_app_l_Some].
Qed.

(** Searching a sorted table. *)
Lemma table_seek_cut k t A B : t = A ++ B -> Forall (fun x => key_before KeyComparator k x = true) A ->
  Forall (fun x => key_before KeyComparator k x = false) B -> table_seek k t = B.
Proof.
  intros -> HA HB. induction HA as [|a A Ha HA IH]; simpl.
  - destruct B as [|b B]; [done|]. apply Forall_cons_1 in HB as [Hb _]. simpl. unfold key_before in Hb. by destruct (KeyComparator b k).
  - unfold key_before in Ha. by destruct (KeyComparator a k).
Qed.

Lemma sorted_either {A} (R : A -> A -> Prop) l x y : StronglySorted R l -> x ∈ l -> y ∈ l -> x = y \/ R x y \/ R y x.
Proof.
  induction 1 as [|z l Hs IH Hf]; [by intros ?%elem_of_nil|]. intros [->|Hx]%elem_of_cons [->|Hy]%elem_of_cons; [by left| | |by apply IH].
  - right. left. by apply (Forall_elem _ _ _ Hf).
  - right. right. by apply (Forall_elem _ _ _ Hf).
Qed.

Lemma tlt_irrefl x : table_dom x -> ~ tlt x x.
Proof. intros Hx H. unfold klt in H. pose proof (table_antisym x x Hx Hx) as E. by rewrite H in E. Qed.

Lemma sorted_apart t ks : Forall table_dom t -> StronglySorted tlt t -> t ≡ₚ ks -> apart ks.
Proof.
  intros Hd Hs Hp i j a b Hij Hi Hj HE. assert (Hn : NoDup t).
  { clear -Hd Hs. induction Hs as [|x t Hs IH Hf]; [constructor|]. apply Forall_cons_1 in Hd as [Hx Hd].
    constructor; [|by apply IH]. intros Hin. apply (tlt_irrefl x Hx). by apply (Forall_elem _ _ _ Hf). }
  assert (Ha : a ∈ t) by (rewrite Hp; by eapply list_elem_of_lookup_2). assert (Hb : b ∈ t) by (rewrite Hp; by eapply list_elem_of_lookup_2).
  destruct (sorted_either tlt t a b Hs Ha Hb) as [->|[H|H]].
  - rewrite Hp in Hn. apply Hij. by eapply NoDup_lookup.
  - unfold klt in H. congruence.
  - unfold klt in H. rewrite (table_antisym a b), HE in H by (by apply (Forall_elem _ _ _ Hd)). done.
Qed.

Abbreviation skip_table := (skip_ok KeyComparator table_key0 table_dom).

Lemma skip_inserted sl L ks : skip_table sl L -> table_contents sl ≡ₚ ks -> table_contents sl = inserted ks.
Proof.
  intros Hok Hp. destruct (contents_sorted _ _ _ table_antisym _ _ Hok) as [Hs Hd].
  assert (Hdk : Forall table_dom ks) by (by rewrite <- Hp). destruct (inserted_sorted ks Hdk) as [Hpi Hsi]; [by apply (sorted_apart (table_contents sl))|].
  apply sorted_table; [done..|by rewrite Hpi].
Qed.

(** What a search of the table answers. *)
Definition seek_answer (q : query) (t : list TableKey) : option TableKey * option TableKey :=
  match q with
  | QSeek k => let B := table_seek k t in (last (take (length t - length B) t), head B)
  | QLast => (last t, None)
  end.

Lemma answers_table q sl f : answers table_key0 (q_test KeyComparator q) sl f ->
  (nkey table_key0 sl <$> not_head (f_x f), nkey table_key0 sl <$> f_next f) = seek_answer q (table_contents sl).
Proof.
  intros (A & B & Hc & HA & HB & Hx & Hn). rewrite Hx, Hn, Hc. destruct q as [k|]; simpl in *.
  - rewrite (table_seek_cut k (A ++ B) A B) by done. rewrite length_app, Nat.add_sub. by rewrite take_app_length.
  - destruct B as [|b B]; [by rewrite app_nil_r|]. by apply Forall_cons_1 in HB as [? _].
Qed.

(** C11: the skip list of the memtable, with any number of threads inserting and searching
    at once, each access of theirs to the list a step of its own.  At every moment its
    nodes are, in order, the keys of the insertions that have been linked, none lost and
    none twice; a search answers what the sorted table of that moment answers, at the
    step with which it ends; no link is followed that a node does not have or that was
    not stored; and some thread can go on unless all have ended. *)
Theorem skiplist_linearizable st :
  star table_step table_init st ->
  table_contents (m_sl st) = inserted (omap linked (m_threads st))
  /\ (forall i q s sl lock f, m_threads st !! i = Some (TFind q s) ->
        thr_step KeyComparator i (m_sl st) (m_lock st) (TFind q s) = Moves sl lock (TFound q f) ->
        sl = m_sl st
        /\ (nkey table_key0 sl <$> not_head (f_x f), nkey table_key0 sl <$> f_next f) = seek_answer q (table_contents sl))
  /\ (forall i t, m_threads st !! i = Some t ->
        thr_step KeyComparator i (m_sl st) (m_lock st) t <> Undefined
        /\ (thr_step KeyComparator i (m_sl st) (m_lock st) t <> Over ->
            exists j u sl lock u', m_threads st !! j = Some u /\ thr_step KeyComparator j (m_sl st) (m_lock st) u = Moves sl lock u')).
Proof.
  intros Hst. destruct (mstar_inv KeyComparator table_key0 table_dom table_antisym table_trans st Hst) as [L Hinv].
  split_and!.
  - eapply skip_inserted; [apply Hinv|]. rewrite (contents_level _ _ _ table_antisym _ _ (mi_skip _ _ _ _ _ Hinv)). apply Hinv.
  - intros i q s sl lock f Hi. pose proof (mi_thr _ _ _ _ _ Hinv i _ Hi) as [Hq Hs]. cbn [thr_step].
    pose proof (find_step_ok _ _ _ table_antisym table_trans (q_test KeyComparator q) (m_sl st) L s (mi_skip _ _ _ _ _ Hinv)
                  (q_mono _ _ table_trans q Hq) Hs) as Hf.
    destruct (find_step _ (m_sl st) s) as [[s'|f']|]; [done| |done]. intros [= <- <- <-]. split; [done|].
    apply answers_table. eapply found_answers; [apply table_antisym|apply Hinv|done].
  - intros i t Hi. split.
    + intros E. pose proof (step_ok _ _ _ table_antisym table_trans st L i t Hinv Hi) as Hs. by rewrite E in Hs.
    + intros Hno. by eapply (some_moves KeyComparator table_key0 table_dom table_antisym table_trans).
Qed.

(** Two insertions look for their places in the empty list and then take turns with a
    search. *)
Definition sample_key (c seq : Z) : TableKey := enc (mkEntry [c] seq kTypeValue [49]).
Definition sample_start : mstate :=
  mkM (SkipList_new table_key0) None
    [THint (sample_key 98 1) (find_start (SkipList_new table_key0)); THint (sample_key 97 2) (find_start (SkipList_new table_key0));
     TFind (QSeek (sample_key 98 1)) (find_start (SkipList_new table_key0))].
Definition sample_threads : mstate := run KeyComparator (replicate 12 [0; 1]%nat ≫= id) sample_start.

Lemma sample_dom c seq : is_byte c -> 0 <= seq < 2 ^ 56 -> table_dom (sample_key c seq).
Proof. intros Hc Hs. exists (mkEntry [c] seq kTypeValue [49]). apply enc_stands. split; simpl; [by apply Forall_singleton|lia|lia|done|by right]. Qed.

Lemma sample_threads_reachable : star table_step table_init sample_threads.
Proof.
  eapply star_step; [apply (ms_insert _ _ _ (sample_key 98 1)); [by apply sample_dom|by intros ? ? ?%elem_of_nil]|].
  eapply star_step; [apply (ms_insert _ _ _ (sample_key 97 2)); [by apply sample_dom|]|].
  { intros t k Ht. apply list_elem_of_singleton in Ht as ->. intros [= <-]. vm_compute. done. }
  eapply star_step; [apply (ms_find _ _ _ (QSeek (sample_key 98 1))); by apply sample_dom|].
  apply (run_star KeyComparator table_dom).
Qed.

Lemma skiplist_linearizable_witness :
  table_contents (m_sl sample_threads) = [sample_key 97 2; sample_key 98 1]
  /\ exists sl lock f, thr_step KeyComparator 2 (m_sl sample_threads) (m_lock sample_threads) (TFind (QSeek (sample_key 98 1)) (find_start (SkipList_new table_key0))) = Moves sl lock f.
Proof.
  destruct (skiplist_linearizable sample_threads sample_threads_reachable) as (-> & _). split; [vm_compute; reflexivity|].
  do 3 eexists. vm_compute. reflexivity.
Defined.

(** ** The table without interference *)

Fixpoint Inserts (ks : list TableKey) (sl : SkipList) : option SkipList :=
  match ks with
  | [] => Some sl
  | k :: ks => let* sl := Insert KeyComparator k sl in Inserts ks sl
  end.

Lemma Inserts_app ks ks' sl : Inserts (ks ++ ks') sl = (let* sl := Inserts ks sl in Inserts ks' sl).
Proof. revert sl. induction ks as [|k ks IH]; intros sl; simpl; [done|]. destruct (Insert _ k sl); simpl; [apply IH|done]. Qed.

Lemma adds_inserted es : adds es = inserted (enc <$> es).
Proof. unfold adds, inserted. rewrite foldl_fmap. done. Qed.

Lemma enc_dom e : entry_ok e -> table_dom (enc e).
Proof. intros He. exists e. by apply enc_stands. Qed.

(** An entry is apart from those with other sequence numbers. *)
Lemma enc_apart e es x : entry_ok e -> Forall entry_ok es -> e_seq e ∉ e_seq <$> es -> x ∈ enc <$> es -> KeyComparator (enc e) x <> Eq.
Proof.
  intros He Hes Hn (y & -> & Hy)%list_elem_of_fmap. pose proof (Forall_elem _ _ _ Hes Hy) as Hyok.
  rewrite (KeyComparator_entries _ _ e y) by (by apply enc_stands). intros [_ Ht]%e_compare_eq.
  apply Hn. rewrite (e_tag_seq e y) by done. by apply list_elem_of_fmap_2.
Qed.

Lemma Inserts_ok es : Forall entry_ok es -> distinct es ->
  exists sl L, Inserts (enc <$> es) (SkipList_new table_key0) = Some sl /\ skip_table sl L /\ table_contents sl ≡ₚ enc <$> es.
Proof.
  induction es as [|e es IH] using rev_ind; intros Hok Hd.
  { exists (SkipList_new table_key0), (fun _ => []). split_and!; [done| |done]. apply (mi_skip _ _ _ _ _ (m_init_inv KeyComparator table_key0 table_dom)). }
  apply Forall_app in Hok as [Hok He]. apply Forall_cons_1 in He as [He _].
  unfold distinct in Hd. rewrite fmap_app in Hd. apply NoDup_app in Hd as (Hd & Hn & _).
  destruct IH as (sl & L & HI & Hsk & Hp); [done..|].
  destruct (Insert_ok KeyComparator table_key0 table_dom table_antisym table_trans (enc e) sl L) as (sl' & L' & Hi & Hsk' & Hp'); [done|by apply enc_dom| |].
  { intros k Hk. rewrite Hp in Hk. apply (enc_apart e es); [done..| |done]. intros Hin. apply (Hn _ Hin). left. }
  exists sl', L'. rewrite fmap_app, Inserts_app, HI. cbn [mbind option_bind fmap list_fmap Inserts]. rewrite Hi. split_and!; [done..|].
  rewrite Hp', Hp. apply Permutation_cons_append.
Qed.

(** The skip list is the sorted table: entries with different sequence numbers, inserted
    in any order, leave the list of the memtable, and each operation of the skip list
    and of its iterators returns what that list says - the first key at or after a
    target, the last one before it, whether there is one equal to it, the ends of the
    list and the neighbours of a node. *)
Theorem skiplist_refines es :
  Forall entry_ok es -> distinct es ->
  exists sl, Inserts (enc <$> es) (SkipList_new table_key0) = Some sl
  /\ nkey table_key0 sl <$> node_ids sl = adds es
  /\ it_SeekToFirst sl = Some (head (node_ids sl))
  /\ it_SeekToLast sl = Some (last (node_ids sl))
  /\ (forall k, table_dom k ->
        exists n, (n <= length (node_ids sl))%nat /\ table_seek k (adds es) = drop n (adds es)
        /\ it_Seek KeyComparator k sl = Some (node_ids sl !! n)
        /\ FindLessThan KeyComparator k sl = Some (last_of (take n (node_ids sl)))
        /\ Contains KeyComparator k sl
           = Some (match adds es !! n with Some x => bool_decide (KeyComparator k x = Eq) | None => false end))
  /\ (forall i x, node_ids sl !! i = Some x ->
        it_Next x sl = Some (node_ids sl !! S i)
        /\ it_Prev KeyComparator x sl = Some (match i with O => None | S i => node_ids sl !! i end)).
Proof.
  intros Hok Hd. destruct (Inserts_ok es Hok Hd) as (sl & L & HI & Hsk & Hp). exists sl.
  assert (Hc : nkey table_key0 sl <$> node_ids sl = adds es) by (rewrite adds_inserted; by apply (skip_inserted sl L)).
  pose proof (node_ids_level KeyComparator table_key0 table_dom table_antisym sl L Hsk) as Hids.
  split_and!; [done|done|by eapply (it_SeekToFirst_ok _ _ _ table_antisym)|by eapply (it_SeekToLast_ok _ _ _ table_antisym table_trans)| |].
  - intros k Hk. destruct (seek_ok KeyComparator table_key0 table_dom table_antisym table_trans k sl L Hsk Hk) as (n & Hn & Hcut & Hs & Hl & Hco).
    exists n. rewrite <- Hc. split_and!; [done| |done..]. apply (table_seek_cut k _ (take n (nkey table_key0 sl <$> node_ids sl))).
    + by rewrite take_drop.
    + rewrite <- fmap_take. apply Forall_fmap. apply Hcut.
    + rewrite <- fmap_drop. apply Forall_fmap. apply Hcut.
  - intros i x Hi. split; [by eapply (it_Next_ok _ _ _ table_antisym)|by eapply (it_Prev_ok _ _ _ table_antisym table_trans)].
Qed.

Lemma skiplist_refines_witness : exists sl,
  Inserts (enc <$> sample_entries) (SkipList_new table_key0) = Some sl /\ nkey table_key0 sl <$> node_ids sl = adds sample_entries.
Proof.
  destruct (skiplist_refines sample_entries) as (sl & HI & Hc & _); [..|exact (ex_intro _ sl (conj HI Hc))].
  - repeat constructor; try (vm_compute; congruence); (by left) || (by right).
  - apply (bool_decide_unpack (NoDup (e_seq <$> sample_entries))). vm_compute. exact I.
Defined.
