(* ===== verification/LdbBlock.v ===== *)
(** * leveldb: blocks

    src/ext/leveldb/table/block_builder.cc and table/block.cc: entries in the order of
    their keys, each key without the bytes it shares with the one before it.  Every few
    entries there is one that shares nothing, a restart point; their offsets stand at
    the end of the block.  The iterator of a block searches the restart points first
    and goes back by starting again at one of them.  It obeys the interface of
    [LdbIter] on every block that the builder makes. *)

From Stdlib Require Import ZArith Lia.
From stdpp Require Import base list numbers option sorting.
From S2P Require Import Prelude ByteOrder WebappStr Session LdbCoding LdbMem LdbIter.
Open Scope Z_scope.
Open Scope webapp_scope.

(** ** Building *)

Record BlockBuilder := mkBuilder {
  buffer_ : list Z;
  restarts_ : list Z;
  counter_ : Z;
  finished_ : bool;
  last_key_ : list Z }.

(** The constructor and [Reset]. *)
Definition Builder_new : BlockBuilder := mkBuilder [] [0] 0 false [].

Definition CurrentSizeEstimate (b : BlockBuilder) : Z := lenZ (buffer_ b) + lenZ (restarts_ b) * 4 + 4.

(** The number of bytes two keys share. *)
Fixpoint shared_bytes (a b : list Z) : nat :=
  match a, b with
  | x :: a, y :: b => if x =? y then S (shared_bytes a b) else O
  | _, _ => O
  end.

(** What [Add] appends. *)
Definition entry_bytes (shared : nat) (key value : list Z) : list Z :=
  let non_shared := lenZ key - Z.of_nat shared in
  EncodeVarint32 (u32 (Z.of_nat shared)) ++ EncodeVarint32 (u32 non_shared) ++ EncodeVarint32 (u32 (lenZ value))
  ++ drop shared key ++ value.

Definition Builder_Add (interval : Z) (b : BlockBuilder) (key value : list Z) : BlockBuilder :=
  let restart := negb (counter_ b <? interval) in
  let shared := if restart then O else shared_bytes (last_key_ b) key in
  mkBuilder (buffer_ b ++ entry_bytes shared key value)
    (if restart then restarts_ b ++ [u32 (lenZ (buffer_ b))] else restarts_ b)
    ((if restart then 0 else counter_ b) + 1)
    (finished_ b)
    (take shared (last_key_ b) ++ drop shared key).

Definition Builder_Finish (b : BlockBuilder) : list Z :=
  buffer_ b ++ mjoin (EncodeFixed32 <$> restarts_ b) ++ EncodeFixed32 (u32 (lenZ (restarts_ b))).

(** ** Reading *)

(** [size_] 0 marks a block that cannot be one. *)
Record Block := mkBlock { data_ : list Z; size_ : Z; restart_offset_ : Z }.

Definition at_offset (data : list Z) (o : Z) : list Z := drop (Z.to_nat o) data.
(** The bytes from [o] up to [limit]. *)
Definition between (data : list Z) (o limit : Z) : list Z := take (Z.to_nat (limit - o)) (at_offset data o).

Definition NumRestarts (data : list Z) (size : Z) : Z := default 0 (DecodeFixed32 (at_offset data (size - 4))).

Definition Block_new (contents : list Z) : Block :=
  let size := lenZ contents in
  if size <? 4 then mkBlock contents 0 0
  else
    let max_restarts_allowed := (size - 4) / 4 in
    let n := NumRestarts contents size in
    if max_restarts_allowed <? n then mkBlock contents 0 0
    else mkBlock contents size (u32 (size - (1 + n) * 4)).

(** The three numbers of an entry and what follows them up to the limit. *)
Definition DecodeEntry (p : list Z) : option (Z * Z * Z * list Z) :=
  match p with
  | shared :: non_shared :: value_length :: rest =>
      let r :=
        if Z.lor (Z.lor shared non_shared) value_length <? 128 then Some (shared, non_shared, value_length, rest)
        else
          match GetVarint32Ptr p with
          | Some (shared, p) =>
              match GetVarint32Ptr p with
              | Some (non_shared, p) =>
                  match GetVarint32Ptr p with
                  | Some (value_length, p) => Some (shared, non_shared, value_length, p)
                  | None => None
                  end
              | None => None
              end
          | None => None
          end in
      match r with
      | Some (shared, non_shared, value_length, p) =>
          if u32 (lenZ p) <? u32 (non_shared + value_length) then None
          else Some (shared, non_shared, value_length, p)
      | None => None
      end
  | _ => None
  end.

(** [Block::Iter]; [value_] is an offset in the block and a length. *)
Record BlockIter := mkBlockIter {
  b_data : list Z;
  b_restarts : Z;
  b_num_restarts : Z;
  current_ : Z;
  restart_index_ : Z;
  key_ : list Z;
  value_ : Z * Z;
  b_status : bool }.

Definition BlockIter_new (data : list Z) (restarts num_restarts : Z) : BlockIter :=
  mkBlockIter data restarts num_restarts restarts num_restarts [] (0, 0) true.

Definition Block_Valid (it : BlockIter) : bool := current_ it <? b_restarts it.
Definition block_value (it : BlockIter) : list Z := take (Z.to_nat (value_ it).2) (at_offset (b_data it) (value_ it).1).
Definition block_cur (it : BlockIter) : option entry := if Block_Valid it then Some (key_ it, block_value it) else None.

Definition NextEntryOffset (it : BlockIter) : Z := u32 ((value_ it).1 + (value_ it).2).
Definition GetRestartPoint (it : BlockIter) (index : Z) : Z :=
  default 0 (DecodeFixed32 (at_offset (b_data it) (b_restarts it + index * 4))).

Definition SeekToRestartPoint (it : BlockIter) (index : Z) : BlockIter :=
  mkBlockIter (b_data it) (b_restarts it) (b_num_restarts it) (current_ it) index [] (GetRestartPoint it index, 0) (b_status it).

Definition CorruptionError (it : BlockIter) : BlockIter :=
  mkBlockIter (b_data it) (b_restarts it) (b_num_restarts it) (b_restarts it) (b_num_restarts it) [] (0, 0) false.

(** The iterator stands behind the last entry. *)
Definition at_end (it : BlockIter) : BlockIter :=
  mkBlockIter (b_data it) (b_restarts it) (b_num_restarts it) (b_restarts it) (b_num_restarts it) (key_ it) (value_ it) (b_status it).

Fixpoint index_loop (fuel : nat) (it : BlockIter) (current index : Z) : Z :=
  match fuel with
  | O => index
  | S fuel =>
      if (u32 (index + 1) <? b_num_restarts it) && (GetRestartPoint it (index + 1) <? current)
      then index_loop fuel it current (index + 1) else index
  end.

Definition ParseNextKey (it : BlockIter) : bool * BlockIter :=
  let current := NextEntryOffset it in
  if b_restarts it <=? current then (false, at_end it)
  else
    match DecodeEntry (between (b_data it) current (b_restarts it)) with
    | Some (shared, non_shared, value_length, p) =>
        if lenZ (key_ it) <? shared then (false, CorruptionError it)
        else
          let p_offset := b_restarts it - lenZ p in
          (true, mkBlockIter (b_data it) (b_restarts it) (b_num_restarts it) current
                   (index_loop (Z.to_nat (b_num_restarts it)) it current (restart_index_ it))
                   (take (Z.to_nat shared) (key_ it) ++ take (Z.to_nat non_shared) (at_offset (b_data it) p_offset))
                   (p_offset + non_shared, value_length) (b_status it))
    | None => (false, CorruptionError it)
    end.

Definition block_Next (it : BlockIter) : BlockIter := (ParseNextKey it).2.

(** The loops get a round per byte and per restart point. *)
Definition rounds (it : BlockIter) : nat := S (length (b_data it)).

(** Back to a restart point before [original]; [None]: there is none. *)
Fixpoint back_index (fuel : nat) (it : BlockIter) (original index : Z) : option Z :=
  match fuel with
  | O => None
  | S fuel =>
      if original <=? GetRestartPoint it index then
        if index =? 0 then None else back_index fuel it original (index - 1)
      else Some index
  end.

(** [do {} while (ParseNextKey() && NextEntryOffset() < limit)]. *)
Fixpoint parse_until (fuel : nat) (it : BlockIter) (limit : Z) : BlockIter :=
  match fuel with
  | O => it
  | S fuel =>
      let '(more, it) := ParseNextKey it in
      if more && (NextEntryOffset it <? limit) then parse_until fuel it limit else it
  end.

Definition block_Prev (it : BlockIter) : BlockIter :=
  let original := current_ it in
  match back_index (rounds it) it original (restart_index_ it) with
  | None => at_end it
  | Some index => parse_until (rounds it) (SeekToRestartPoint it index) original
  end.

Definition block_SeekToFirst (it : BlockIter) : BlockIter := (ParseNextKey (SeekToRestartPoint it 0)).2.
Definition block_SeekToLast (it : BlockIter) : BlockIter :=
  parse_until (rounds it) (SeekToRestartPoint it (b_num_restarts it - 1)) (b_restarts it).

Section Seek.
Context `{!KeyOrder}.

(** The last restart point whose key is below the target; [None]: a bad entry. *)
Fixpoint bin_search (fuel : nat) (it : BlockIter) (target : list Z) (left right : Z) : option Z :=
  match fuel with
  | O => Some left
  | S fuel =>
      if left <? right then
        let mid := u32 (left + right + 1) / 2 in
        match DecodeEntry (between (b_data it) (GetRestartPoint it mid) (b_restarts it)) with
        | Some (shared, non_shared, _, p) =>
            if shared =? 0 then
              let mid_key := take (Z.to_nat non_shared) (at_offset (b_data it) (b_restarts it - lenZ p)) in
              match cmp mid_key target with
              | Lt => bin_search fuel it target mid right
              | _ => bin_search fuel it target left (mid - 1)
              end
            else None
        | None => None
        end
      else Some left
  end.

Fixpoint scan (fuel : nat) (it : BlockIter) (target : list Z) : BlockIter :=
  match fuel with
  | O => it
  | S fuel =>
      match ParseNextKey it with
      | (true, it) => match cmp (key_ it) target with Lt => scan fuel it target | _ => it end
      | (false, it) => it
      end
  end.

Definition block_Seek (it : BlockIter) (target : list Z) : BlockIter :=
  match bin_search (rounds it) it target 0 (u32 (b_num_restarts it - 1)) with
  | Some index => scan (rounds it) (SeekToRestartPoint it index) target
  | None => CorruptionError it
  end.
End Seek.

(** [Block::NewIterator]. *)
Definition Block_NewIterator (b : Block) : or_empty BlockIter :=
  if size_ b <? 4 then EmptyIterator false
  else
    let n := NumRestarts (data_ b) (size_ b) in
    if n =? 0 then EmptyIterator true else Iter (BlockIter_new (data_ b) (restart_offset_ b) n).

(** What the block holds: the entries met from the first restart point on. *)
Fixpoint parse_all (fuel : nat) (it : BlockIter) : list entry :=
  match fuel with
  | O => []
  | S fuel => match ParseNextKey it with (true, it) => (key_ it, block_value it) :: parse_all fuel it | (false, _) => [] end
  end.
Definition block_content (it : BlockIter) : list entry := parse_all (rounds it) (SeekToRestartPoint it 0).

(** ** The entries of a block *)

Lemma lor_below_128 a b : 0 <= a -> 0 <= b -> Z.lor a b < 128 <-> a < 128 /\ b < 128.
Proof.
  intros Ha Hb. change 128 with (2 ^ 7).
  assert (Hlog : forall x, 0 <= x -> x < 2 ^ 7 <-> Z.log2 x < 7).
  { intros x Hx. destruct (decide (x = 0)) as [->|]; [by split|]. apply Z.log2_lt_pow2. lia. }
  assert (0 <= Z.lor a b) by (by apply Z.lor_nonneg). rewrite !Hlog, Z.log2_lor by done. lia.
Qed.

Lemma varint_nonneg v : Forall (fun b => 0 <= b) (EncodeVarint32 v).
Proof. unfold EncodeVarint32. repeat case_match; repeat constructor; by apply (uwrap_range 8). Qed.

(** A varint is one byte below 128, or starts with a byte from 128 on. *)
Lemma varint_first v : 0 <= v < 2 ^ 32 ->
  (v < 128 /\ EncodeVarint32 v = [v]) \/ (128 <= v /\ exists b c l, EncodeVarint32 v = b :: c :: l /\ 128 <= b).
Proof.
  intros Hv. rewrite (EncodeVarint32_loop v 5) by (done || lia). destruct (Z.leb_spec 128 v) as [Hm|Hm].
  - right. split; [done|]. rewrite varint_loop_more by lia. pose proof (Z.mod_pos_bound v 128 ltac:(lia)).
    destruct (Z.leb_spec 128 (v / 128)).
    + rewrite varint_loop_more by done. eexists _, _, _. split; [done|lia].
    + rewrite varint_loop_last; [|split; [apply Z.div_pos; lia|lia]]. eexists _, _, _. split; [done|lia].
  - left. split; [done|]. by rewrite varint_loop_last by lia.
Qed.

(** The first three bytes of three varints are below 128 only if the numbers are. *)
Lemma three_varints a b c tl : 0 <= a < 2 ^ 32 -> 0 <= b < 2 ^ 32 -> 0 <= c < 2 ^ 32 ->
  (a < 128 /\ b < 128 /\ c < 128 /\ EncodeVarint32 a ++ EncodeVarint32 b ++ EncodeVarint32 c ++ tl = a :: b :: c :: tl)
  \/ exists x y z l, EncodeVarint32 a ++ EncodeVarint32 b ++ EncodeVarint32 c ++ tl = x :: y :: z :: l
     /\ ~ Z.lor (Z.lor x y) z < 128.
Proof.
  intros Ha Hb Hc.
  assert (Hbad : forall x y z, 0 <= x -> 0 <= y -> 0 <= z -> 128 <= x \/ 128 <= y \/ 128 <= z -> ~ Z.lor (Z.lor x y) z < 128).
  { intros x y z Hx Hy Hz Hor. rewrite !lor_below_128 by (try apply Z.lor_nonneg; lia). lia. }
  pose proof (varint_nonneg a) as Na. pose proof (varint_nonneg b) as Nb. pose proof (varint_nonneg c) as Nc.
  destruct (varint_first a Ha) as [[Ha' Ea]|(_ & a1 & a2 & la & Ea & Ha1)]; rewrite Ea in *.
  - destruct (varint_first b Hb) as [[Hb' Eb]|(_ & b1 & b2 & lb & Eb & Hb1)]; rewrite Eb in *.
    + destruct (varint_first c Hc) as [[Hc' Ec]|(_ & c1 & c2 & lc & Ec & Hc1)]; rewrite Ec in *; [by left|right].
      eexists _, _, _, _. split; [done|]. decompose_Forall_hyps. apply Hbad; lia.
    + right. eexists _, _, _, _. split; [done|]. decompose_Forall_hyps. apply Hbad; lia.
  - right. destruct la as [|a3 la]; [|eexists _, _, _, _; split; [done|]; decompose_Forall_hyps; apply Hbad; lia].
    destruct (EncodeVarint32 b) as [|b1 lb] eqn:Eb.
    { destruct (varint_first b Hb) as [[_ Eb']|(_ & b1 & b2 & lb & Eb' & _)]; congruence. }
    eexists _, _, _, _. split; [done|]. decompose_Forall_hyps. apply Hbad; lia.
Qed.

Lemma DecodeEntry_bytes shared key value rest :
  (shared <= length key)%nat -> lenZ key < 2 ^ 32 -> lenZ (drop shared key ++ value ++ rest) < 2 ^ 32 ->
  DecodeEntry (entry_bytes shared key value ++ rest)
  = Some (Z.of_nat shared, lenZ key - Z.of_nat shared, lenZ value, drop shared key ++ value ++ rest).
Proof.
  intros Hs Hk Hl. rewrite !length_app, length_drop in Hl. unfold entry_bytes. cbv zeta.
  set (a := Z.of_nat shared). set (b := lenZ key - a). rewrite !uwrap_small by lia. rewrite <- !app_assoc.
  set (tl := drop shared key ++ value ++ rest).
  assert (Hfin : (if u32 (lenZ tl) <? u32 (b + lenZ value) then None else Some (a, b, lenZ value, tl)) = Some (a, b, lenZ value, tl)).
  { unfold tl. rewrite !uwrap_small by (rewrite ?length_app, ?length_drop; lia).
    rewrite !length_app, length_drop. by rewrite (proj2 (Z.ltb_ge _ _)) by lia. }
  destruct (three_varints a b (lenZ value) tl) as [(Ha & Hb & Hv & ->)|(x & y & z & l & E & Hn)]; [lia..| |].
  - cbn [DecodeEntry]. rewrite (proj2 (Z.ltb_lt _ _)); [done|]. rewrite !lor_below_128 by (try apply Z.lor_nonneg; lia). lia.
  - pose proof (GetVarint32_Encode a (EncodeVarint32 b ++ EncodeVarint32 (lenZ value) ++ tl) ltac:(lia)) as E1.
    rewrite E in *. cbn [DecodeEntry]. rewrite (proj2 (Z.ltb_ge _ _)) by lia. change GetVarint32Ptr with GetVarint32.
    rewrite E1, GetVarint32_Encode by lia. by rewrite GetVarint32_Encode by lia.
Qed.

(** ** How a block is laid out *)

(** An entry with the bytes of its key that it shares with the one before. *)
Record piece := mkPiece { p_shared : nat; p_entry : entry }.
Definition piece_bytes (p : piece) : list Z := entry_bytes (p_shared p) (p_entry p).1 (p_entry p).2.
Definition bytes (ps : list piece) : list Z := mjoin (piece_bytes <$> ps).
Definition off (ps : list piece) (j : nat) : Z := lenZ (bytes (take j ps)).

(** The key a piece starts from: that of the piece before it. *)
Definition prev_key (ps : list piece) (j : nat) : list Z :=
  match j with O => [] | S i => match ps !! i with Some p => (p_entry p).1 | None => [] end end.

(** [rs] are the numbers of the restart points. *)
Record layout (data : list Z) (lim num : Z) (ps : list piece) (rs : list nat) : Prop := mkLayout {
  lay_data : exists tl, data = bytes ps ++ mjoin (EncodeFixed32 <$> (off ps <$> rs)) ++ tl;
  lay_lim : lim = lenZ (bytes ps);
  lay_num : num = lenZ rs;
  lay_small : lenZ data < 2 ^ 32;
  lay_first : rs !! 0%nat = Some 0%nat;
  lay_inc : forall i j a b, (i < j)%nat -> rs !! i = Some a -> rs !! j = Some b -> (a < b)%nat;
  lay_bound : forall i r, rs !! i = Some r -> r = 0%nat \/ (r < length ps)%nat;
  lay_restart : forall i r p, rs !! i = Some r -> ps !! r = Some p -> p_shared p = 0%nat;
  lay_shared : forall j p, ps !! j = Some p ->
    (p_shared p <= length (prev_key ps j))%nat /\ (p_shared p <= length (p_entry p).1)%nat
    /\ take (p_shared p) (prev_key ps j) = take (p_shared p) (p_entry p).1;
  lay_keys : forall j p, ps !! j = Some p -> lenZ (p_entry p).1 < 2 ^ 32 }.

Lemma bytes_app ps qs : bytes (ps ++ qs) = bytes ps ++ bytes qs.
Proof. unfold bytes. by rewrite fmap_app, join_app. Qed.

Lemma bytes_split ps j p : ps !! j = Some p -> bytes ps = bytes (take j ps) ++ piece_bytes p ++ bytes (drop (S j) ps).
Proof. intros Hp. rewrite <- (take_drop_middle ps j p Hp) at 1. by rewrite bytes_app. Qed.

Lemma off_S ps j p : ps !! j = Some p -> off ps (S j) = off ps j + lenZ (piece_bytes p).
Proof. intros Hp. unfold off. rewrite (take_S_r ps j p Hp), bytes_app, length_app. unfold bytes at 2. simpl. rewrite app_nil_r. lia. Qed.

Lemma piece_bytes_3 p : 3 <= lenZ (piece_bytes p).
Proof.
  assert (Hv : forall v, 1 <= lenZ (EncodeVarint32 v)) by (intros v; unfold EncodeVarint32; repeat case_match; simpl; lia).
  unfold piece_bytes, entry_bytes. rewrite !length_app. pose proof (Hv (u32 (Z.of_nat (p_shared p)))).
  pose proof (Hv (u32 (lenZ (p_entry p).1 - Z.of_nat (p_shared p)))). pose proof (Hv (u32 (lenZ (p_entry p).2))). lia.
Qed.

Lemma off_mono ps i j : (i < j)%nat -> (j <= length ps)%nat -> off ps i + 3 <= off ps j.
Proof.
  intros Hij. induction Hij as [|j Hij IH]; intros Hl.
  - destruct (lookup_lt_is_Some_2 ps i) as [p Hp]; [lia|]. rewrite (off_S ps i p Hp). pose proof (piece_bytes_3 p). lia.
  - destruct (lookup_lt_is_Some_2 ps j) as [p Hp]; [lia|]. rewrite (off_S ps j p Hp). pose proof (piece_bytes_3 p). specialize (IH ltac:(lia)). lia.
Qed.

Lemma off_all ps : off ps (length ps) = lenZ (bytes ps).
Proof. unfold off. by rewrite take_ge. Qed.

Lemma off_lt ps i j : (i <= length ps)%nat -> (j <= length ps)%nat -> off ps i < off ps j <-> (i < j)%nat.
Proof.
  intros Hi Hj. split; [|intros H; pose proof (off_mono ps i j H Hj); lia]. intros H.
  destruct (Nat.lt_total i j) as [?|[->|Hji]]; [done|lia|]. pose proof (off_mono ps j i Hji Hi). lia.
Qed.

Lemma off_nonneg ps j : 0 <= off ps j.
Proof. unfold off. lia. Qed.

Lemma off_le ps j : (j <= length ps)%nat -> off ps j <= lenZ (bytes ps).
Proof. intros Hj. rewrite <- off_all. destruct (decide (j = length ps)) as [->|]; [done|]. pose proof (off_mono ps j (length ps)). lia. Qed.

Lemma pieces_length ps : Z.of_nat (length ps) <= lenZ (bytes ps).
Proof.
  induction ps as [|p ps IH]; [done|]. change (p :: ps) with ([p] ++ ps). rewrite bytes_app, !length_app. unfold bytes at 1. simpl.
  rewrite app_nil_r. pose proof (piece_bytes_3 p). lia.
Qed.

(** The fixed-width numbers one after the other. *)

Lemma restart_point it ps rs i r : layout (b_data it) (b_restarts it) (b_num_restarts it) ps rs -> rs !! i = Some r ->
  GetRestartPoint it (Z.of_nat i) = off ps r.
Proof.
  intros Hl Hr. destruct (lay_data _ _ _ _ _ Hl) as [tl Hd]. pose proof (lay_small _ _ _ _ _ Hl) as Hs.
  unfold GetRestartPoint, at_offset. rewrite (lay_lim _ _ _ _ _ Hl). rewrite Hd.
  replace (Z.to_nat (lenZ (bytes ps) + Z.of_nat i * 4)) with (length (bytes ps) + 4 * i)%nat by lia.
  rewrite <- drop_drop, drop_app_length, (fixed32_lookup _ i (off ps r)); [done| |by rewrite list_lookup_fmap, Hr].
  apply Forall_fmap, List.Forall_forall. intros x Hx%list_elem_of_In. apply list_elem_of_lookup in Hx as [j Hj]. simpl.
  pose proof (off_nonneg ps x). rewrite Hd, length_app in Hs. enough (off ps x <= lenZ (bytes ps)) by lia.
  destruct (lay_bound _ _ _ _ _ Hl j x Hj) as [->|Hlt]; [unfold off; simpl; lia|apply off_le; lia].
Qed.

(** ** Positions in a block *)

Abbreviation lay it := (layout (b_data it) (b_restarts it) (b_num_restarts it)).

(** Only the position of the iterator has changed. *)
Definition same (it it' : BlockIter) : Prop :=
  b_data it' = b_data it /\ b_restarts it' = b_restarts it /\ b_num_restarts it' = b_num_restarts it /\ b_status it' = b_status it.

(** The iterator stands on the [j]-th piece. *)
Record at_piece (it : BlockIter) (ps : list piece) (rs : list nat) (j : nat) (p : piece) : Prop := mkAtPiece {
  ap_piece : ps !! j = Some p;
  ap_current : current_ it = off ps j;
  ap_key : key_ it = (p_entry p).1;
  ap_next : (value_ it).1 + (value_ it).2 = off ps (S j);
  ap_value : block_value it = (p_entry p).2;
  ap_index : exists i r, restart_index_ it = Z.of_nat i /\ rs !! i = Some r /\ (r <= j)%nat
    /\ forall i' r', (i < i')%nat -> rs !! i' = Some r' -> (j <= r')%nat }.

(** The next piece to parse is the [j]-th. *)
Record ready (it : BlockIter) (ps : list piece) (rs : list nat) (j : nat) : Prop := mkReady {
  rd_bound : (j <= length ps)%nat;
  rd_offset : NextEntryOffset it = off ps j;
  rd_index : exists i r, restart_index_ it = Z.of_nat i /\ rs !! i = Some r /\ (r <= j)%nat;
  rd_key : forall p, ps !! j = Some p ->
    (p_shared p <= length (key_ it))%nat /\ take (p_shared p) (key_ it) = take (p_shared p) (p_entry p).1 }.

Lemma restart_range data lim num ps rs i r : layout data lim num ps rs -> rs !! i = Some r -> (r <= length ps)%nat.
Proof. intros Hl Hr. destruct (lay_bound _ _ _ _ _ Hl i r Hr); lia. Qed.

Lemma num_small data lim num ps rs : layout data lim num ps rs -> 4 * num + lim <= lenZ data.
Proof.
  intros Hl. destruct (lay_data _ _ _ _ _ Hl) as [tl ->]. rewrite (lay_num _ _ _ _ _ Hl), (lay_lim _ _ _ _ _ Hl).
  rewrite !length_app, length_fixed32s, length_fmap. lia.
Qed.

Lemma index_loop_ok fuel it ps rs i r j : lay it ps rs -> (j <= length ps)%nat -> rs !! i = Some r -> (r <= j)%nat ->
  (length rs <= i + fuel)%nat ->
  exists i' r', index_loop fuel it (off ps j) (Z.of_nat i) = Z.of_nat i' /\ rs !! i' = Some r' /\ (r' <= j)%nat
    /\ forall k r', (i' < k)%nat -> rs !! k = Some r' -> (j <= r')%nat.
Proof.
  intros Hl Hj. revert i r. induction fuel as [|fuel IH]; intros i r Hi Hr Hf.
  { apply lookup_lt_Some in Hi. lia. }
  cbn [index_loop]. pose proof (num_small _ _ _ _ _ Hl) as Hsm. pose proof (lay_small _ _ _ _ _ Hl) as Hsm'.
  rewrite (lay_num _ _ _ _ _ Hl), (lay_lim _ _ _ _ _ Hl) in Hsm. rewrite (lay_num _ _ _ _ _ Hl).
  pose proof (lookup_lt_Some _ _ _ Hi) as Hil. rewrite uwrap_small by lia.
  destruct (Z.ltb_spec (Z.of_nat i + 1) (lenZ rs)) as [Hlt|Hge]; simpl.
  - destruct (lookup_lt_is_Some_2 rs (S i)) as [r1 Hr1]; [lia|]. replace (Z.of_nat i + 1) with (Z.of_nat (S i)) by lia.
    pose proof (restart_range _ _ _ _ _ _ _ Hl Hr1) as Hr1l. rewrite (restart_point it ps rs (S i) r1 Hl Hr1). destruct (Z.ltb_spec (off ps r1) (off ps j)) as [Ho|Ho].
    + apply (IH _ r1); [done| |lia]. apply off_lt in Ho; [lia|done..].
    + exists i, r. split_and!; [done..|]. intros k r' Hk Hr'.
      assert (Hjr : (j <= r1)%nat). { apply Nat.nlt_ge. rewrite <- (off_lt ps) by done. lia. }
      destruct (decide (k = S i)) as [->|]; [by simplify_eq|]. pose proof (lay_inc _ _ _ _ _ Hl (S i) k r1 r' ltac:(lia) Hr1 Hr'). lia.
  - exists i, r. split_and!; [done..|]. intros k r' Hk Hr'. apply lookup_lt_Some in Hr'. lia.
Qed.

Lemma between_piece it ps rs j p : lay it ps rs -> ps !! j = Some p ->
  between (b_data it) (off ps j) (b_restarts it) = piece_bytes p ++ bytes (drop (S j) ps).
Proof.
  intros Hl Hp. destruct (lay_data _ _ _ _ _ Hl) as [tl Hd]. unfold between, at_offset. rewrite Hd, (lay_lim _ _ _ _ _ Hl).
  rewrite (bytes_split ps j p Hp) at 1 2. unfold off. rewrite Nat2Z.id, <- app_assoc, drop_app_length.
  rewrite !length_app. rewrite take_app_length'; [done|]. rewrite length_app. lia.
Qed.

Lemma ParseNextKey_end it ps rs j : lay it ps rs -> ready it ps rs j -> ps !! j = None -> ParseNextKey it = (false, at_end it).
Proof.
  intros Hl [Hb Ho _ _] Hj. apply lookup_ge_None in Hj. assert (j = length ps) as -> by lia. unfold ParseNextKey.
  rewrite Ho, off_all, (lay_lim _ _ _ _ _ Hl). by rewrite (proj2 (Z.leb_le _ _)).
Qed.

(** The key and the value of a piece, with what is behind them. *)
Lemma decode_piece it ps rs j p : lay it ps rs -> ps !! j = Some p ->
  let sh := p_shared p in let k := (p_entry p).1 in let v := (p_entry p).2 in
  exists q tl, DecodeEntry (between (b_data it) (off ps j) (b_restarts it)) = Some (Z.of_nat sh, lenZ k - Z.of_nat sh, lenZ v, q)
    /\ at_offset (b_data it) (b_restarts it - lenZ q) = drop sh k ++ v ++ tl
    /\ b_restarts it - lenZ q + (lenZ k - Z.of_nat sh) + lenZ v = off ps (S j) /\ 0 <= b_restarts it - lenZ q.
Proof.
  intros Hl Hp. destruct (lay_shared _ _ _ _ _ Hl j p Hp) as (_ & Hsl & _). pose proof (lay_keys _ _ _ _ _ Hl j p Hp) as Hkl.
  pose proof (lay_small _ _ _ _ _ Hl) as Hsm. destruct (lay_data _ _ _ _ _ Hl) as [tl Hd]. pose proof (bytes_split ps j p Hp) as Hbs.
  pose proof (off_S ps j p Hp) as HS. rewrite (between_piece it ps rs j p Hl Hp), (lay_lim _ _ _ _ _ Hl).
  destruct p as [sh [k v]]. unfold piece_bytes in *. cbn [p_shared p_entry fst snd] in *. unfold off in HS at 2.
  set (rest := bytes (drop (S j) ps)) in *. set (pre := bytes (take j ps)) in *.
  assert (exists hdr, entry_bytes sh k v = hdr ++ drop sh k ++ v) as [hdr Hh] by (eexists; unfold entry_bytes; by rewrite !app_assoc).
  rewrite Hh in *. exists (drop sh k ++ v ++ rest), (rest ++ mjoin (EncodeFixed32 <$> (off ps <$> rs)) ++ tl).
  rewrite Hbs in Hd. rewrite Hbs. rewrite Hd in Hsm. rewrite !length_app, length_drop in *. split_and!; [| |lia..].
  - rewrite <- Hh, DecodeEntry_bytes; [done|done|lia|]. rewrite !length_app, length_drop. lia.
  - rewrite Hd. unfold at_offset. rewrite <- !app_assoc, (app_assoc pre). rewrite drop_app_length'; [done|].
    rewrite length_app. lia.
Qed.

Lemma ParseNextKey_piece it ps rs j p : lay it ps rs -> ready it ps rs j -> ps !! j = Some p ->
  exists it', ParseNextKey it = (true, it') /\ same it it' /\ at_piece it' ps rs j p.
Proof.
  intros Hl [Hb Ho (i & r & Hi & Hr & Hrj) Hk] Hp. destruct (Hk p Hp) as [Hks Hkt]. destruct (lay_shared _ _ _ _ _ Hl j p Hp) as (_ & Hsl & _).
  destruct (decode_piece it ps rs j p Hl Hp) as (q & tl & Hdec & Hat & Hend & Hq). cbv zeta in *.
  pose proof (lookup_lt_Some _ _ _ Hp) as Hjl. pose proof (off_le ps (S j) ltac:(lia)) as HoS. pose proof (off_S ps j p Hp) as HS. pose proof (piece_bytes_3 p) as H3.
  unfold ParseNextKey. rewrite Ho, (proj2 (Z.leb_gt _ _)) by (rewrite (lay_lim _ _ _ _ _ Hl); lia).
  rewrite Hdec, (proj2 (Z.ltb_ge _ _)) by lia. set (it' := mkBlockIter _ _ _ _ _ _ _ _). exists it'. split; [done|]. split; [done|].
  split; cbn [it' current_ key_ value_ restart_index_ fst snd]; [done|done| |done| |].
  - rewrite Hat, Nat2Z.id, Hkt, take_app_length' by (rewrite length_drop; lia). apply take_drop.
  - unfold block_value. cbn [it' value_ b_data fst snd]. rewrite Nat2Z.id. unfold at_offset in *.
    rewrite Z2Nat.inj_add by lia. rewrite <- drop_drop, Hat, drop_app_length' by (rewrite length_drop; lia). apply take_app_length.
  - rewrite Hi. apply (index_loop_ok _ it ps rs i r j Hl); [lia|done|done|]. rewrite (lay_num _ _ _ _ _ Hl). lia.
Qed.

Lemma same_refl it : same it it.
Proof. done. Qed.
Lemma same_trans a b c : same a b -> same b c -> same a c.
Proof. intros (E1 & E2 & E3 & E4) (F1 & F2 & F3 & F4). unfold same. by rewrite F1, F2, F3, F4. Qed.
Lemma lay_same it it' ps rs : same it it' -> lay it ps rs -> lay it' ps rs.
Proof. intros (-> & -> & -> & _). done. Qed.

Lemma at_ready it ps rs j p : lay it ps rs -> at_piece it ps rs j p -> ready it ps rs (S j).
Proof.
  intros Hl [Hp Hc Hk Hn Hv (i & r & Hi & Hr & Hrj & _)]. pose proof (lookup_lt_Some _ _ _ Hp) as Hjl. split; [lia| | |].
  - unfold NextEntryOffset. rewrite Hn, uwrap_small; [done|]. pose proof (off_nonneg ps (S j)). pose proof (off_le ps (S j) ltac:(lia)).
    pose proof (num_small _ _ _ _ _ Hl). pose proof (lay_small _ _ _ _ _ Hl). rewrite (lay_num _ _ _ _ _ Hl), (lay_lim _ _ _ _ _ Hl) in *. lia.
  - exists i, r. split_and!; [done..|lia].
  - intros q Hq. destruct (lay_shared _ _ _ _ _ Hl (S j) q Hq) as (H1 & _ & H2). cbn [prev_key] in H1, H2. rewrite Hp in H1, H2. by rewrite Hk.
Qed.

Lemma restart_ready it ps rs i r : lay it ps rs -> rs !! i = Some r -> ready (SeekToRestartPoint it (Z.of_nat i)) ps rs r.
Proof.
  intros Hl Hr. pose proof (restart_range _ _ _ _ _ _ _ Hl Hr) as Hrl. split; [done| | |].
  - unfold NextEntryOffset, SeekToRestartPoint. cbn [value_ fst snd]. rewrite (restart_point it ps rs i r Hl Hr), Z.add_0_r, uwrap_small; [done|].
    pose proof (off_nonneg ps r). pose proof (off_le ps r Hrl). pose proof (num_small _ _ _ _ _ Hl). pose proof (lay_small _ _ _ _ _ Hl).
    rewrite (lay_num _ _ _ _ _ Hl), (lay_lim _ _ _ _ _ Hl) in *. lia.
  - exists i, r. done.
  - intros p Hp. rewrite (lay_restart _ _ _ _ _ Hl i r p Hr Hp). simpl. split; [lia|done].
Qed.

Lemma seek_same it i : same it (SeekToRestartPoint it i).
Proof. done. Qed.

(** An iterator that has moved inside of its block. *)
Definition moved_to (it : BlockIter) (ps : list piece) (rs : list nat) (j : nat) (it' : BlockIter) : Prop :=
  same it it' /\ match ps !! j with Some p => at_piece it' ps rs j p | None => Block_Valid it' = false end.

Lemma at_end_moved it ps rs j : ps !! j = None -> moved_to it ps rs j (at_end it).
Proof. intros Hj. split; [done|]. rewrite Hj. unfold Block_Valid, at_end. simpl. apply Z.ltb_irrefl. Qed.

Lemma parse_moved it ps rs j : lay it ps rs -> ready it ps rs j -> moved_to it ps rs j (ParseNextKey it).2.
Proof.
  intros Hl Hr. destruct (ps !! j) as [p|] eqn:Hp.
  - destruct (ParseNextKey_piece it ps rs j p Hl Hr Hp) as (it' & -> & Hs & Ha). split; [done|]. by rewrite Hp.
  - rewrite (ParseNextKey_end it ps rs j Hl Hr Hp). by apply at_end_moved.
Qed.

Lemma parse_until_ok fuel it ps rs j m : lay it ps rs -> ready it ps rs j -> (j <= m)%nat -> (S m <= length ps)%nat -> (m < j + fuel)%nat ->
  moved_to it ps rs m (parse_until fuel it (off ps (S m))).
Proof.
  revert it j. induction fuel as [|fuel IH]; intros it j Hl Hr Hj Hm Hf; [lia|]. cbn [parse_until].
  destruct (lookup_lt_is_Some_2 ps j) as [p Hp]; [lia|].
  destruct (ParseNextKey_piece it ps rs j p Hl Hr Hp) as (it' & -> & Hs & Ha). cbn [andb].
  pose proof (at_ready it' ps rs j p (lay_same _ _ _ _ Hs Hl) Ha) as Hr'. rewrite (rd_offset _ _ _ _ Hr').
  destruct (Z.ltb_spec (off ps (S j)) (off ps (S m))) as [Hlt|Hge].
  - apply off_lt in Hlt; [|lia..]. destruct (IH it' (S j)) as [Hs' Hres]; [by apply (lay_same it)|done|lia..|].
    split; [by eapply same_trans|done].
  - assert (j = m) as ->. { apply Nat.le_antisymm; [done|]. apply Nat.nlt_ge. intros Hjm. pose proof (off_mono ps (S j) (S m) ltac:(lia) Hm). lia. }
    split; [done|]. by rewrite Hp.
Qed.

Definition entries_of (ps : list piece) : list entry := p_entry <$> ps.

Lemma parse_all_ok fuel it ps rs j : lay it ps rs -> ready it ps rs j -> (length ps < j + fuel)%nat ->
  parse_all fuel it = drop j (entries_of ps).
Proof.
  revert it j. induction fuel as [|fuel IH]; intros it j Hl Hr Hf; [pose proof (rd_bound _ _ _ _ Hr); lia|]. cbn [parse_all].
  destruct (ps !! j) as [p|] eqn:Hp.
  - destruct (ParseNextKey_piece it ps rs j p Hl Hr Hp) as (it' & -> & Hs & Ha).
    rewrite (IH it' (S j)); [|by apply (lay_same it)|apply (at_ready it' ps rs j p); [by apply (lay_same it)|done]|lia].
    rewrite (ap_key _ _ _ _ _ Ha), (ap_value _ _ _ _ _ Ha).
    rewrite (drop_S (entries_of ps) (p_entry p) j); [by destruct (p_entry p)|]. unfold entries_of. by rewrite list_lookup_fmap, Hp.
  - rewrite (ParseNextKey_end it ps rs j Hl Hr Hp). apply lookup_ge_None in Hp. rewrite drop_ge; [done|]. unfold entries_of. by rewrite length_fmap.
Qed.

Lemma block_rounds_enough it ps rs : lay it ps rs -> (length ps < rounds it)%nat /\ (length rs < rounds it)%nat.
Proof.
  intros Hl. pose proof (num_small _ _ _ _ _ Hl) as H1. pose proof (pieces_length ps) as H2.
  rewrite (lay_num _ _ _ _ _ Hl), (lay_lim _ _ _ _ _ Hl) in H1. unfold rounds. lia.
Qed.

Lemma block_content_ok it ps rs : lay it ps rs -> block_content it = entries_of ps.
Proof.
  intros Hl. unfold block_content. rewrite (parse_all_ok _ _ ps rs 0); [done|done| |].
  - apply (restart_ready it ps rs 0 0 Hl). apply (lay_first _ _ _ _ _ Hl).
  - destruct (block_rounds_enough it ps rs Hl). simpl. lia.
Qed.

Lemma SeekToFirst_moved it ps rs : lay it ps rs -> moved_to it ps rs 0 (block_SeekToFirst it).
Proof.
  intros Hl. apply (parse_moved (SeekToRestartPoint it 0) ps rs 0); [done|]. apply (restart_ready it ps rs 0 0 Hl), (lay_first _ _ _ _ _ Hl).
Qed.

Lemma SeekToLast_moved it ps rs : lay it ps rs -> moved_to it ps rs (length ps - 1) (block_SeekToLast it).
Proof.
  intros Hl. destruct (block_rounds_enough it ps rs Hl) as [H1 H2]. pose proof (lay_first _ _ _ _ _ Hl) as H0. apply lookup_lt_Some in H0.
  destruct (lookup_lt_is_Some_2 rs (length rs - 1)) as [r Hr]; [lia|]. unfold block_SeekToLast.
  replace (b_num_restarts it - 1) with (Z.of_nat (length rs - 1)) by (rewrite (lay_num _ _ _ _ _ Hl); lia).
  pose proof (restart_ready it ps rs _ r Hl Hr) as Hrd. rewrite (lay_lim _ _ _ _ _ Hl), <- off_all.
  destruct (decide (ps = [])) as [->|Hne].
  - assert (r = 0%nat) as -> by (pose proof (rd_bound _ _ _ _ Hrd); simpl in *; lia). unfold rounds. cbn [parse_until].
    rewrite (ParseNextKey_end (SeekToRestartPoint it (Z.of_nat (length rs - 1))) [] rs 0 Hl Hrd) by done. simpl. by apply (at_end_moved (SeekToRestartPoint it _)).
  - assert (Hlen : (0 < length ps)%nat) by (destruct ps; [done|simpl; lia]).
    replace (length ps) with (S (length ps - 1)) at 2 by lia.
    apply (parse_until_ok _ (SeekToRestartPoint it _) ps rs r); [done..| |lia|lia].
    destruct (lay_bound _ _ _ _ _ Hl _ r Hr); lia.
Qed.

Lemma Next_moved it ps rs j p : lay it ps rs -> at_piece it ps rs j p -> moved_to it ps rs (S j) (block_Next it).
Proof. intros Hl Ha. apply parse_moved; [done|]. by eapply at_ready. Qed.

Lemma back_index_ok fuel it ps rs i r j : lay it ps rs -> (j <= length ps)%nat -> rs !! i = Some r -> (i < fuel)%nat ->
  match back_index fuel it (off ps j) (Z.of_nat i) with
  | None => j = 0%nat
  | Some k => exists k' r', k = Z.of_nat k' /\ rs !! k' = Some r' /\ (r' < j)%nat
  end.
Proof.
  intros Hl Hj. revert i r. induction fuel as [|fuel IH]; intros i r Hr Hf; [lia|]. cbn [back_index].
  pose proof (restart_range _ _ _ _ _ _ _ Hl Hr) as Hrl.
  rewrite (restart_point it ps rs i r Hl Hr). destruct (Z.leb_spec (off ps j) (off ps r)) as [Hle|Hgt].
  - destruct (Z.eqb_spec (Z.of_nat i) 0) as [H0|H0].
    + assert (i = 0%nat) as -> by lia. rewrite (lay_first _ _ _ _ _ Hl) in Hr. injection Hr as <-.
      destruct j as [|j]; [done|]. pose proof (off_mono ps 0 (S j) ltac:(lia) Hj). lia.
    + destruct (lookup_lt_is_Some_2 rs (i - 1)) as [r' Hr']; [apply lookup_lt_Some in Hr; lia|].
      replace (Z.of_nat i - 1) with (Z.of_nat (i - 1)) by lia. apply (IH _ r'); [done|lia].
  - exists i, r. split_and!; [done..|]. by apply (off_lt ps).
Qed.

Lemma Prev_moved it ps rs j p : lay it ps rs -> at_piece it ps rs j p ->
  moved_to it ps rs (match j with O => length ps | S i => i end) (block_Prev it).
Proof.
  intros Hl Ha. destruct (ap_index _ _ _ _ _ Ha) as (i & r & Hi & Hr & Hrj & _). pose proof (lookup_lt_Some _ _ _ (ap_piece _ _ _ _ _ Ha)) as Hjl.
  destruct (block_rounds_enough it ps rs Hl) as [H1 H2]. pose proof (lookup_lt_Some _ _ _ Hr) as Hil. unfold block_Prev. rewrite (ap_current _ _ _ _ _ Ha), Hi.
  pose proof (back_index_ok (rounds it) it ps rs i r j Hl ltac:(lia) Hr ltac:(lia)) as Hb.
  destruct (back_index _ _ _ _) as [k|].
  - destruct Hb as (k' & r' & -> & Hk & Hrk). destruct j as [|j]; [lia|].
    apply (parse_until_ok _ (SeekToRestartPoint it _) ps rs r'); [done|by apply restart_ready|lia..].
  - subst j. apply at_end_moved. by apply lookup_ge_None_2.
Qed.

(** ** Searching a block *)

Section Search.
Context `{!KeyOrder}.

Lemma scan_ok fuel it ps rs t j : lay it ps rs -> ready it ps rs j -> (length ps < j + fuel)%nat ->
  exists m, (j <= m)%nat /\ moved_to it ps rs m (scan fuel it t)
    /\ (forall i p, (j <= i < m)%nat -> ps !! i = Some p -> cmp (p_entry p).1 t = Lt)
    /\ (forall p, ps !! m = Some p -> cmp (p_entry p).1 t <> Lt).
Proof.
  revert it j. induction fuel as [|fuel IH]; intros it j Hl Hr Hf; [pose proof (rd_bound _ _ _ _ Hr); lia|]. cbn [scan].
  destruct (ps !! j) as [p|] eqn:Hp.
  - destruct (ParseNextKey_piece it ps rs j p Hl Hr Hp) as (it' & -> & Hs & Ha). rewrite (ap_key _ _ _ _ _ Ha).
    assert (Hstop : cmp (p_entry p).1 t <> Lt -> exists m, (j <= m)%nat /\ moved_to it ps rs m it'
      /\ (forall i p, (j <= i < m)%nat -> ps !! i = Some p -> cmp (p_entry p).1 t = Lt) /\ (forall p, ps !! m = Some p -> cmp (p_entry p).1 t <> Lt)).
    { intros Hc. exists j. split; [done|]. split; [split; [done|by rewrite Hp]|]. split; [intros; lia|]. intros q Hq. by simplify_eq. }
    destruct (cmp (p_entry p).1 t) eqn:Ec; [by apply Hstop| |by apply Hstop]. clear Hstop.
    destruct (IH it' (S j)) as (m & Hjm & [Hs' Hm] & Hlt & Hge); [by apply (lay_same it)|apply (at_ready it' ps rs j p); [by apply (lay_same it)|done]|lia|].
    exists m. split; [lia|]. split; [split; [by eapply same_trans|done]|]. split; [|done]. intros i q Hi Hq.
    destruct (decide (i = j)) as [->|]; [by simplify_eq|]. apply (Hlt i); [lia|done].
  - rewrite (ParseNextKey_end it ps rs j Hl Hr Hp). exists j. split; [done|]. split; [by apply at_end_moved|]. split; [intros; lia|congruence].
Qed.

Lemma bin_search_ok fuel it ps rs t l r : lay it ps rs -> (l <= r)%nat -> (r < length rs)%nat ->
  (l = 0%nat \/ exists n p, rs !! l = Some n /\ ps !! n = Some p /\ cmp (p_entry p).1 t = Lt) -> (r - l < fuel)%nat ->
  exists i, bin_search fuel it t (Z.of_nat l) (Z.of_nat r) = Some (Z.of_nat i) /\ (i < length rs)%nat
    /\ (i = 0%nat \/ exists n p, rs !! i = Some n /\ ps !! n = Some p /\ cmp (p_entry p).1 t = Lt).
Proof.
  intros Hl. revert l r. induction fuel as [|fuel IH]; intros l r Hlr Hr Hinv Hf; [lia|]. cbn [bin_search].
  destruct (Z.ltb_spec (Z.of_nat l) (Z.of_nat r)) as [Hlt|Hge]; [|exists l; split_and!; [done|lia|done]].
  pose proof (num_small _ _ _ _ _ Hl) as Hns. pose proof (lay_small _ _ _ _ _ Hl) as Hsm. rewrite (lay_num _ _ _ _ _ Hl), (lay_lim _ _ _ _ _ Hl) in Hns.
  rewrite uwrap_small by lia. set (m := ((l + r + 1) / 2)%nat).
  assert (Hm : Z.of_nat m = (Z.of_nat l + Z.of_nat r + 1) / 2) by (unfold m; rewrite Nat2Z.inj_div; f_equal; lia).
  assert (Hmr : (l < m <= r)%nat). { pose proof (Z.div_mod (Z.of_nat l + Z.of_nat r + 1) 2 ltac:(lia)). pose proof (Z.mod_pos_bound (Z.of_nat l + Z.of_nat r + 1) 2 ltac:(lia)). lia. }
  rewrite <- Hm. clearbody m. destruct (lookup_lt_is_Some_2 rs m) as [n Hn]; [lia|].
  rewrite (restart_point it ps rs m n Hl Hn). pose proof (lay_inc _ _ _ _ _ Hl 0 m 0%nat n ltac:(lia) (lay_first _ _ _ _ _ Hl) Hn) as Hn0.
  destruct (lay_bound _ _ _ _ _ Hl m n Hn) as [->|Hnl]; [lia|]. destruct (lookup_lt_is_Some_2 ps n) as [p Hp]; [done|].
  destruct (decode_piece it ps rs n p Hl Hp) as (q & tl & -> & Hat & _). rewrite (lay_restart _ _ _ _ _ Hl m n p Hn Hp) in *.
  rewrite Hat, Z.sub_0_r, Nat2Z.id, drop_0, take_app_length. change (Z.of_nat 0 =? 0) with true. cbv iota.
  replace (Z.of_nat m - 1) with (Z.of_nat (m - 1)) by lia.
  destruct (cmp (p_entry p).1 t) eqn:Ec; [apply IH; [lia..|done|lia]| |apply IH; [lia..|done|lia]].
  apply IH; [lia..| |lia]. right. by exists n, p.
Qed.

(** The keys are in order. *)
Definition in_order (ps : list piece) : Prop := StronglySorted klt (entries_of ps) /\ Forall dom (entries_of ps).*1.

Lemma Seek_moved it ps rs t : lay it ps rs -> in_order ps -> dom t ->
  exists m, moved_to it ps rs m (block_Seek it t) /\ forall i e, entries_of ps !! i = Some e -> cmp e.1 t <> Lt <-> (m <= i)%nat.
Proof.
  intros Hl [Hs Hd] Ht. pose proof (lookup_lt_Some _ _ _ (lay_first _ _ _ _ _ Hl)) as H0. destruct (block_rounds_enough it ps rs Hl) as [H1 H2].
  pose proof (num_small _ _ _ _ _ Hl) as Hns. pose proof (lay_small _ _ _ _ _ Hl) as Hsm. rewrite (lay_num _ _ _ _ _ Hl), (lay_lim _ _ _ _ _ Hl) in Hns.
  unfold block_Seek. rewrite uwrap_small by (rewrite (lay_num _ _ _ _ _ Hl); lia).
  replace (b_num_restarts it - 1) with (Z.of_nat (length rs - 1)) by (rewrite (lay_num _ _ _ _ _ Hl); lia).
  destruct (bin_search_ok (rounds it) it ps rs t 0 (length rs - 1)) as (i & E & Hi & Hkey); [done|lia|lia|by left|lia|].
  change (Z.of_nat 0) with 0 in E. rewrite E.
  destruct (lookup_lt_is_Some_2 rs i) as [r Hr]; [done|].
  destruct (scan_ok (rounds it) (SeekToRestartPoint it (Z.of_nat i)) ps rs t r) as (m & Hrm & Hmv & Hlt & Hge); [done|by apply restart_ready|unfold rounds in *; simpl; lia|].
  exists m. split; [done|]. intros j e He. unfold entries_of in He. rewrite list_lookup_fmap in He. apply fmap_Some in He as (p & Hp & ->).
  assert (Hej : entries_of ps !! j = Some (p_entry p)) by (unfold entries_of; by rewrite list_lookup_fmap, Hp).
  assert (Hbelow : forall j' e', (j < j')%nat -> entries_of ps !! j' = Some e' -> cmp e'.1 t = Lt -> cmp (p_entry p).1 t = Lt).
  { intros j' e' Hjj He' Hc. apply (cmp_trans _ e'.1); [by apply (keys_dom (entries_of ps)); [apply sorted_keys|eapply list_elem_of_lookup_2]..|done| |done].
    by apply (klt_index (entries_of ps) j j'). }
  split.
  - intros Hc. apply Nat.nlt_ge. intros Hjm. apply Hc. destruct (decide (r <= j)%nat) as [?|Hrj]; [by apply (Hlt j)|].
    destruct Hkey as [->|(n & q & Hn & Hq & Hqt)]; [rewrite (lay_first _ _ _ _ _ Hl) in Hr; injection Hr as <-; lia|]. simplify_eq.
    apply (Hbelow n (p_entry q)); [lia|unfold entries_of; by rewrite list_lookup_fmap, Hq|done].
  - intros Hmj Hc. destruct (ps !! m) as [q|] eqn:Hq; [|apply lookup_ge_None in Hq; apply lookup_lt_Some in Hp; lia].
    apply (Hge q eq_refl). destruct (decide (m = j)) as [->|]; [by simplify_eq|].
    apply (cmp_trans _ (p_entry p).1); [| |done| |done].
    + apply (keys_dom (entries_of ps)); [by apply sorted_keys|]. apply list_elem_of_fmap_2. by eapply list_elem_of_lookup_2.
    + apply (keys_dom (entries_of ps)); [by apply sorted_keys|]. by eapply list_elem_of_lookup_2.
    + apply (klt_index (entries_of ps) m j); [done..|unfold entries_of; by rewrite list_lookup_fmap, Hq|done|lia].
Qed.
(** ** The iterator obeys the interface *)

Definition block_ok (it : BlockIter) : Prop :=
  exists ps rs, lay it ps rs /\ in_order ps /\ b_status it = true /\ (Block_Valid it = false \/ exists j p, at_piece it ps rs j p).

Lemma at_piece_cur it ps rs j p : lay it ps rs -> at_piece it ps rs j p -> block_cur it = Some (p_entry p).
Proof.
  intros Hl Ha. pose proof (lookup_lt_Some _ _ _ (ap_piece _ _ _ _ _ Ha)) as Hj. unfold block_cur, Block_Valid.
  rewrite (ap_current _ _ _ _ _ Ha), (ap_key _ _ _ _ _ Ha), (ap_value _ _ _ _ _ Ha), (lay_lim _ _ _ _ _ Hl), <- off_all.
  rewrite (proj2 (Z.ltb_lt _ _)) by (apply off_lt; lia). by destruct (p_entry p).
Qed.

(** Where a move ends. *)
Lemma moved_ok it ps rs j it' : lay it ps rs -> in_order ps -> b_status it = true -> moved_to it ps rs j it' ->
  block_ok it' /\ block_content it' = block_content it /\ block_cur it' = entries_of ps !! j /\ block_content it = entries_of ps.
Proof.
  intros Hl Ho Hst [Hs Hm]. pose proof (lay_same _ _ _ _ Hs Hl) as Hl'.
  rewrite (block_content_ok it ps rs Hl), (block_content_ok it' ps rs Hl'). split.
  - exists ps, rs. split; [done|]. split; [done|]. split; [destruct Hs as (_ & _ & _ & ->); done|]. destruct (ps !! j) as [p|]; [right; by exists j, p|by left].
  - split; [done|]. split; [|done]. unfold entries_of. rewrite list_lookup_fmap. destruct (ps !! j) as [p|]; simpl; [by apply (at_piece_cur it' ps rs j)|].
    unfold block_cur. by rewrite Hm.
Qed.

Lemma block_content_keys it : block_ok it -> keys_ok (block_content it).
Proof. intros (ps & rs & Hl & [Hs Hd] & _). rewrite (block_content_ok it ps rs Hl). by apply sorted_keys. Qed.

Lemma cur_at it ps rs e : lay it ps rs -> Block_Valid it = false \/ (exists j p, at_piece it ps rs j p) -> block_cur it = Some e ->
  exists j p, at_piece it ps rs j p /\ e = p_entry p /\ entries_of ps !! j = Some e.
Proof.
  intros Hl [Hv|(j & p & Ha)] Hc; [unfold block_cur in Hc; by rewrite Hv in Hc|]. rewrite (at_piece_cur it ps rs j p Hl Ha) in Hc.
  injection Hc as <-. exists j, p. split_and!; [done..|]. unfold entries_of. by rewrite list_lookup_fmap, (ap_piece _ _ _ _ _ Ha).
Qed.

Lemma block_cur_content it e : block_ok it -> block_cur it = Some e -> e ∈ block_content it.
Proof.
  intros (ps & rs & Hl & _ & _ & Hv) Hc. rewrite (block_content_ok it ps rs Hl).
  destruct (cur_at it ps rs e Hl Hv Hc) as (j & p & _ & _ & He). by eapply list_elem_of_lookup_2.
Qed.

Lemma block_SeekToFirst_best it : block_ok it ->
  block_ok (block_SeekToFirst it) /\ block_content (block_SeekToFirst it) = block_content it
  /\ best klt (fun _ => True) (block_content it) (block_cur (block_SeekToFirst it)).
Proof.
  intros (ps & rs & Hl & Ho & Hst & _). destruct (moved_ok it ps rs 0 _ Hl Ho Hst (SeekToFirst_moved it ps rs Hl)) as (H1 & H2 & -> & ->).
  split; [done|]. split; [by rewrite H2, (block_content_ok it ps rs Hl)|]. destruct Ho. apply sorted_best_from; [done..|]. intros. lia.
Qed.

Lemma block_SeekToLast_best it : block_ok it ->
  block_ok (block_SeekToLast it) /\ block_content (block_SeekToLast it) = block_content it
  /\ best kgt (fun _ => True) (block_content it) (block_cur (block_SeekToLast it)).
Proof.
  intros (ps & rs & Hl & Ho & Hst & _). destruct (moved_ok it ps rs _ _ Hl Ho Hst (SeekToLast_moved it ps rs Hl)) as (H1 & H2 & -> & ->).
  split; [done|]. split; [by rewrite H2, (block_content_ok it ps rs Hl)|]. destruct Ho as [Hs Hd]. assert (length (entries_of ps) = length ps) as El by apply length_fmap.
  pose proof (sorted_best_before (entries_of ps) (fun _ => True) (length ps) Hs Hd ltac:(lia)) as Hb. destruct (length ps) as [|n] eqn:En.
  - rewrite (proj2 (lookup_ge_None _ _)) by lia. apply Hb. intros i e Hi%lookup_lt_Some. lia.
  - replace (S n - 1)%nat with n by lia. apply Hb. intros i e Hi%lookup_lt_Some. split; [intros; lia|done].
Qed.

Lemma block_Seek_best it t : block_ok it -> dom t ->
  block_ok (block_Seek it t) /\ block_content (block_Seek it t) = block_content it
  /\ best klt (fun e => cmp e.1 t <> Lt) (block_content it) (block_cur (block_Seek it t)).
Proof.
  intros (ps & rs & Hl & Ho & Hst & _) Ht. destruct (Seek_moved it ps rs t Hl Ho Ht) as (m & Hm & Hge).
  destruct (moved_ok it ps rs _ _ Hl Ho Hst Hm) as (H1 & H2 & -> & ->).
  split; [done|]. split; [by rewrite H2, (block_content_ok it ps rs Hl)|]. destruct Ho. by apply sorted_best_from.
Qed.

Lemma block_Next_best it e : block_ok it -> block_cur it = Some e ->
  block_ok (block_Next it) /\ block_content (block_Next it) = block_content it
  /\ best klt (fun e' => klt e e') (block_content it) (block_cur (block_Next it)).
Proof.
  intros (ps & rs & Hl & Ho & Hst & Hv) Hc. destruct (cur_at it ps rs e Hl Hv Hc) as (j & p & Ha & -> & He).
  destruct (moved_ok it ps rs _ _ Hl Ho Hst (Next_moved it ps rs j p Hl Ha)) as (H1 & H2 & -> & ->).
  split; [done|]. split; [by rewrite H2, (block_content_ok it ps rs Hl)|]. destruct Ho as [Hs Hd]. apply sorted_best_from; [done..|].
  intros i e' He'. rewrite (klt_index _ j i _ _ Hs Hd He He'). lia.
Qed.

Lemma block_Prev_best it e : block_ok it -> block_cur it = Some e ->
  block_ok (block_Prev it) /\ block_content (block_Prev it) = block_content it
  /\ best kgt (fun e' => kgt e e') (block_content it) (block_cur (block_Prev it)).
Proof.
  intros (ps & rs & Hl & Ho & Hst & Hv) Hc. destruct (cur_at it ps rs e Hl Hv Hc) as (j & p & Ha & -> & He).
  destruct (moved_ok it ps rs _ _ Hl Ho Hst (Prev_moved it ps rs j p Hl Ha)) as (H1 & H2 & -> & ->).
  split; [done|]. split; [by rewrite H2, (block_content_ok it ps rs Hl)|]. destruct Ho as [Hs Hd].
  pose proof (lookup_lt_Some _ _ _ He) as Hj. assert (length (entries_of ps) = length ps) as El by apply length_fmap.
  assert (best kgt (fun e' => kgt (p_entry p) e') (entries_of ps) (match j with O => None | S i => entries_of ps !! i end)) as Hb.
  { apply sorted_best_before; [done..|lia|]. intros i e' He'.
    rewrite (order_flip (entries_of ps)); [|by apply sorted_keys|by eapply list_elem_of_lookup_2..]. by apply (klt_index (entries_of ps)). }
  destruct j as [|i]; [|done]. by rewrite (proj2 (lookup_ge_None _ _)) by lia.
Qed.

#[export] Instance block_iterator : Iterator BlockIter := {
  content := block_content;
  iter_ok := block_ok;
  cur := block_cur;
  SeekToFirst := block_SeekToFirst;
  SeekToLast := block_SeekToLast;
  Seek := block_Seek;
  Next := block_Next;
  Prev := block_Prev;
  content_ok := block_content_keys;
  cur_content := block_cur_content;
  SeekToFirst_best := block_SeekToFirst_best;
  SeekToLast_best := block_SeekToLast_best;
  Seek_best := block_Seek_best;
  Next_best := block_Next_best;
  Prev_best := block_Prev_best }.

#[export] Program Instance block_has_status : HasStatus BlockIter := { status := b_status }.
Next Obligation. by intros it (ps & rs & _ & _ & Hs & _). Qed.
End Search.

(** ** What the builder makes *)

(** The entries in the order in which they are added. *)
Definition add_all (interval : Z) (es : list entry) : BlockBuilder :=
  foldl (fun b e => Builder_Add interval b e.1 e.2) Builder_new es.

Lemma shared_bytes_le a b : (shared_bytes a b <= length a)%nat /\ (shared_bytes a b <= length b)%nat
  /\ take (shared_bytes a b) a = take (shared_bytes a b) b.
Proof.
  revert b. induction a as [|x a IH]; intros [|y b]; simpl; [split_and!; (lia || done)..|].
  destruct (Z.eqb_spec x y) as [->|]; simpl; [|split_and!; (lia || done)]. destruct (IH b) as (? & ? & ->). split_and!; (lia || done).
Qed.

Record built (b : BlockBuilder) (ps : list piece) (rs : list nat) : Prop := mkBuilt {
  bu_buffer : buffer_ b = bytes ps;
  bu_restarts : restarts_ b = off ps <$> rs;
  bu_last : last_key_ b = prev_key ps (length ps);
  bu_counter : ps = [] -> counter_ b = 0;
  bu_first : rs !! 0%nat = Some 0%nat;
  bu_inc : forall i j a b, (i < j)%nat -> rs !! i = Some a -> rs !! j = Some b -> (a < b)%nat;
  bu_bound : forall i r, rs !! i = Some r -> r = 0%nat \/ (r < length ps)%nat;
  bu_restart : forall i r p, rs !! i = Some r -> ps !! r = Some p -> p_shared p = 0%nat;
  bu_shared : forall j p, ps !! j = Some p ->
    (p_shared p <= length (prev_key ps j))%nat /\ (p_shared p <= length (p_entry p).1)%nat
    /\ take (p_shared p) (prev_key ps j) = take (p_shared p) (p_entry p).1;
  bu_keys : forall j p, ps !! j = Some p -> lenZ (p_entry p).1 <= lenZ (bytes ps) }.

Lemma prev_key_snoc ps p j : (j <= length ps)%nat -> prev_key (ps ++ [p]) j = prev_key ps j.
Proof. intros Hj. destruct j as [|i]; [done|]. simpl. by rewrite lookup_app_l by lia. Qed.

Lemma off_snoc ps p j : (j <= length ps)%nat -> off (ps ++ [p]) j = off ps j.
Proof. intros Hj. unfold off. by rewrite take_app_le by done. Qed.

Lemma prev_key_length ps : (forall j p, ps !! j = Some p -> lenZ (p_entry p).1 <= lenZ (bytes ps)) ->
  lenZ (prev_key ps (length ps)) <= lenZ (bytes ps).
Proof.
  intros Hk. destruct (length ps) as [|n]; simpl; [lia|]. destruct (ps !! n) as [p|] eqn:Hp; [by apply (Hk n)|simpl; lia].
Qed.

(** The fields that do not depend on whether the entry starts a restart point. *)
Lemma built_snoc b ps rs sh e : built b ps rs -> (sh <= length (last_key_ b))%nat -> (sh <= length e.1)%nat ->
  take sh (last_key_ b) = take sh e.1 ->
  let ps' := ps ++ [mkPiece sh e] in
  (forall j p, ps' !! j = Some p -> (p_shared p <= length (prev_key ps' j))%nat /\ (p_shared p <= length (p_entry p).1)%nat
    /\ take (p_shared p) (prev_key ps' j) = take (p_shared p) (p_entry p).1)
  /\ (forall j p, ps' !! j = Some p -> lenZ (p_entry p).1 <= lenZ (bytes ps'))
  /\ (forall i r p, rs !! i = Some r -> (r = length ps -> sh = 0%nat) -> ps' !! r = Some p -> p_shared p = 0%nat).
Proof.
  intros Hb Hs1 Hs2 Ht ps'. rewrite (bu_last _ _ _ Hb) in *. pose proof (prev_key_length ps (bu_keys _ _ _ Hb)) as Hpk. split_and!.
  - intros j p [[Hlt Hj]|[-> <-]]%lookup_snoc_Some; unfold ps'; rewrite prev_key_snoc by lia; [by apply (bu_shared _ _ _ Hb)|done].
  - unfold ps'. rewrite bytes_app, length_app. intros j p [[_ Hj]|[-> <-]]%lookup_snoc_Some; [pose proof (bu_keys _ _ _ Hb j p Hj); lia|].
    unfold bytes at 2. simpl. rewrite app_nil_r. unfold piece_bytes, entry_bytes. simpl. rewrite !length_app, length_drop. lia.
  - intros i r p Hi Hz [[_ Hj]|[-> <-]]%lookup_snoc_Some; [by apply (bu_restart _ _ _ Hb i r)|]. by apply Hz.
Qed.

Lemma built_Add interval b ps rs e : 1 <= interval -> built b ps rs -> lenZ (buffer_ (Builder_Add interval b e.1 e.2)) < 2 ^ 32 ->
  exists sh rs', built (Builder_Add interval b e.1 e.2) (ps ++ [mkPiece sh e]) rs'.
Proof.
  intros Hi Hb Hlen. pose proof (bu_last _ _ _ Hb) as Hlast. 
  assert (Hbuf : forall sh, bytes ps ++ entry_bytes sh e.1 e.2 = bytes (ps ++ [mkPiece sh e])) by (intros; rewrite bytes_app; unfold bytes at 3; simpl; by rewrite app_nil_r).
  assert (Hoff : forall sh, off ps <$> rs = off (ps ++ [mkPiece sh e]) <$> rs).
  { intros sh. apply list_fmap_ext. intros i r Hr. rewrite off_snoc; [done|]. destruct (bu_bound _ _ _ Hb i r Hr); lia. }
  assert (Hpk : forall sh, prev_key (ps ++ [mkPiece sh e]) (length (ps ++ [mkPiece sh e])) = e.1).
  { intros sh. rewrite length_app, Nat.add_comm. simpl. by rewrite list_lookup_middle. }
  unfold Builder_Add in *. cbn [buffer_] in Hlen. destruct (Z.ltb_spec (counter_ b) interval) as [Hlt|Hge]; cbn [negb] in *.
  - destruct (shared_bytes_le (last_key_ b) e.1) as (H1 & H2 & H3). exists (shared_bytes (last_key_ b) e.1), rs. set (sh := shared_bytes (last_key_ b) e.1) in *.
    destruct (built_snoc b ps rs sh e Hb H1 H2 H3) as (A1 & A2 & A3).
    split; [by rewrite (bu_buffer _ _ _ Hb); apply Hbuf|by rewrite (bu_restarts _ _ _ Hb); apply Hoff|rewrite Hpk, H3; apply take_drop|by intros [_ ?]%app_eq_nil|
      apply Hb|apply Hb| | |apply A1|apply A2].
    + intros i r Hr. rewrite length_app. simpl. destruct (bu_bound _ _ _ Hb i r Hr); lia.
    + intros i r p Hr. apply (A3 i r p Hr). intros ->. destruct (bu_bound _ _ _ Hb i _ Hr) as [E|]; [|lia].
      apply length_zero_iff_nil in E as ->. rewrite Hlast in H1. simpl in H1. lia.
  - assert (Hne : length ps <> 0%nat) by (intros E%length_zero_iff_nil; pose proof (bu_counter _ _ _ Hb E); lia).
    assert (Hold : forall i r, rs !! i = Some r -> (r < length ps)%nat) by (intros i r Hr; destruct (bu_bound _ _ _ Hb i r Hr); lia).
    exists 0%nat, (rs ++ [length ps]). destruct (built_snoc b ps rs 0 e Hb ltac:(lia) ltac:(lia) eq_refl) as (A1 & A2 & A3).
    split; [by rewrite (bu_buffer _ _ _ Hb); apply Hbuf| |by rewrite Hpk|by intros [_ ?]%app_eq_nil|
      rewrite lookup_app_l; [apply Hb|by eapply lookup_lt_Some, Hb]| | | |apply A1|apply A2].
    + rewrite fmap_app, (bu_restarts _ _ _ Hb), <- Hoff. f_equal. simpl. f_equal. rewrite off_snoc, off_all, <- (bu_buffer _ _ _ Hb) by lia.
      rewrite length_app in Hlen. by rewrite uwrap_small by lia.
    + intros i j x y Hij [[Hxl Hx]|[-> <-]]%lookup_snoc_Some [[Hyl Hy]|[-> <-]]%lookup_snoc_Some; [by apply (bu_inc _ _ _ Hb i j)|by apply (Hold i)|lia|lia].
    + intros i r [[_ Hr]|[-> <-]]%lookup_snoc_Some; rewrite length_app; simpl; [pose proof (Hold i r Hr)|]; lia.
    + intros i r p [[_ Hr]|[-> <-]]%lookup_snoc_Some Hp; [by apply (A3 i r p)|]. rewrite list_lookup_middle in Hp by done. by injection Hp as <-.
Qed.

Lemma built_add_all interval es : 1 <= interval -> lenZ (buffer_ (add_all interval es)) < 2 ^ 32 ->
  exists ps rs, built (add_all interval es) ps rs /\ entries_of ps = es.
Proof.
  intros Hi. induction es as [|e es IH] using rev_ind; intros Hlen.
  - exists [], [0%nat]. split; [|done]. split; try done.
    + intros i j a b Hij _ Hb. destruct j as [|j]; [lia|done].
    + intros [|i] r Hr; [left; by injection Hr|done].
  - unfold add_all in *. rewrite foldl_snoc in *. cbn [buffer_ Builder_Add] in Hlen. destruct IH as (ps & rs & Hb & He); [rewrite length_app in Hlen; lia|].
    destruct (built_Add interval _ ps rs e Hi Hb Hlen) as (sh & rs' & Hb'). exists (ps ++ [mkPiece sh e]), rs'.
    split; [done|]. unfold entries_of in *. by rewrite fmap_app, He.
Qed.

(** The block of a finished builder. *)
Lemma built_block b ps rs : built b ps rs -> lenZ (Builder_Finish b) < 2 ^ 32 ->
  exists it, Block_NewIterator (Block_new (Builder_Finish b)) = Iter it /\ lay it ps rs /\ b_status it = true /\ Block_Valid it = false.
Proof.
  intros Hb Hlen. pose proof (lookup_lt_Some _ _ _ (bu_first _ _ _ Hb)) as H0. unfold Builder_Finish in *.
  rewrite (bu_buffer _ _ _ Hb), (bu_restarts _ _ _ Hb), length_fmap in *. set (R := mjoin (EncodeFixed32 <$> (off ps <$> rs))) in *.
  assert (HR : length R = (4 * length rs)%nat) by (unfold R; by rewrite length_fixed32s, length_fmap).
  set (n := u32 (lenZ rs)) in *. set (data := bytes ps ++ R ++ EncodeFixed32 n) in *.
  assert (HF : length (EncodeFixed32 n) = 4%nat) by apply length_le_bytes.
  assert (Hd : lenZ data = lenZ (bytes ps) + 4 * lenZ rs + 4) by (unfold data; rewrite !length_app; lia).
  assert (Hn : n = lenZ rs) by (apply uwrap_small; lia).
  assert (HN : NumRestarts data (lenZ data) = lenZ rs).
  { unfold NumRestarts, at_offset. replace (Z.to_nat (lenZ data - 4)) with (length (bytes ps ++ R)) by (rewrite length_app; lia).
    unfold data. rewrite app_assoc, drop_app_length, <- (app_nil_r (EncodeFixed32 n)), DecodeFixed32_Encode by (rewrite Hn; lia). done. }
  unfold Block_new. rewrite (proj2 (Z.ltb_ge (lenZ data) 4)) by lia. rewrite HN.
  rewrite (proj2 (Z.ltb_ge ((lenZ data - 4) / 4) (lenZ rs))) by (apply Z.div_le_lower_bound; lia).
  unfold Block_NewIterator. cbn [size_ data_ restart_offset_]. rewrite (proj2 (Z.ltb_ge (lenZ data) 4)) by lia. rewrite HN.
  rewrite (proj2 (Z.eqb_neq (lenZ rs) 0)) by lia. eexists. split; [done|]. rewrite uwrap_small by lia.
  split; [|split; [done|apply Z.ltb_irrefl]]. split; simpl; try apply Hb; [by exists (EncodeFixed32 n)|lia..|].
  intros j p Hp. pose proof (bu_keys _ _ _ Hb j p Hp). lia.
Qed.

(** ** The size of a block *)

(** The bytes of entries, with room for what is stored with each. *)
Definition load (es : list entry) : Z := foldr (fun e n => lenZ e.1 + lenZ e.2 + 64 + n) 0 es.

Lemma load_app a b : load (a ++ b) = load a + load b.
Proof. induction a as [|e a IH]; simpl; [lia|]. rewrite IH. lia. Qed.

Lemma load_length es : 64 * lenZ es <= load es.
Proof. induction es as [|e es IH]; simpl; lia. Qed.

Lemma length_entry_bytes sh k v : 3 <= lenZ (entry_bytes sh k v) <= 15 + lenZ k + lenZ v.
Proof.
  pose proof (piece_bytes_3 (mkPiece sh (k, v))) as H3. split; [done|]. unfold entry_bytes. rewrite !length_app, length_drop.
  pose proof (length_varint32 (u32 (Z.of_nat sh))). pose proof (length_varint32 (u32 (lenZ k - Z.of_nat sh))). pose proof (length_varint32 (u32 (lenZ v))). lia.
Qed.

Lemma length_add_all interval es :
  lenZ (buffer_ (add_all interval es)) + 49 * lenZ es <= load es /\ lenZ (restarts_ (add_all interval es)) <= 1 + lenZ es.
Proof.
  induction es as [|e es [IH1 IH2]] using rev_ind; [done|]. unfold add_all in *. rewrite foldl_snoc, load_app, length_app. simpl.
  rewrite length_app. pose proof (length_entry_bytes (if negb (counter_ (foldl (fun b e => Builder_Add interval b e.1 e.2) Builder_new es) <? interval) then 0%nat
    else shared_bytes (last_key_ (foldl (fun b e => Builder_Add interval b e.1 e.2) Builder_new es)) e.1) e.1 e.2) as [_ He].
  split; [lia|]. destruct (negb _); rewrite ?length_app; simpl; lia.
Qed.

Lemma length_block interval es : lenZ (Builder_Finish (add_all interval es)) <= load es - 45 * lenZ es + 8.
Proof.
  destruct (length_add_all interval es) as [H1 H2]. unfold Builder_Finish. rewrite !length_app, length_fixed32s.
  unfold EncodeFixed32. rewrite length_le_bytes. lia.
Qed.

Lemma block_bytes interval es : Forall (fun e => bytes_ok e.1 /\ bytes_ok e.2) es -> bytes_ok (Builder_Finish (add_all interval es)).
Proof.
  intros He. unfold Builder_Finish. apply Forall_app. split; [|apply Forall_app; split; [|apply le_bytes_ok]].
  - induction es as [|e es IH] using rev_ind; [constructor|]. apply Forall_app in He as [He [[Hk Hv] _]%Forall_cons_1]. unfold add_all in *. rewrite foldl_snoc.
    cbn [Builder_Add buffer_]. apply Forall_app. split; [by apply IH|]. unfold entry_bytes. repeat (apply Forall_app; split); [apply varint32_ok..|by apply Forall_drop|done].
  - apply fixed32s_bytes.
Qed.

Lemma add_all_nil interval es : buffer_ (add_all interval es) = [] <-> es = [].
Proof.
  split; [|by intros ->]. destruct es as [|e es _] using rev_ind; [done|]. unfold add_all. rewrite foldl_snoc. cbn [Builder_Add buffer_].
  intros [_ E]%app_eq_nil. match goal with E : entry_bytes ?sh _ _ = [] |- _ => pose proof (length_entry_bytes sh e.1 e.2) as Hl; rewrite E in Hl end. simpl in Hl. lia.
Qed.

Section Roundtrip.
Context `{!KeyOrder}.

(** A block built from entries in the order of their keys, shorter than 2^32 bytes,
    and opened again, has an iterator that obeys the interface (first, last, search,
    next and previous) and ranges over exactly those entries. *)
Lemma block_roundtrip interval es : 1 <= interval -> StronglySorted klt es -> Forall dom es.*1 ->
  lenZ (Builder_Finish (add_all interval es)) < 2 ^ 32 ->
  exists it, Block_NewIterator (Block_new (Builder_Finish (add_all interval es))) = Iter it
    /\ iter_ok it /\ content it = es /\ cur it = None.
Proof.
  intros Hi Hs Hd Hlen. destruct (built_add_all interval es Hi) as (ps & rs & Hb & He).
  { unfold Builder_Finish in Hlen. rewrite length_app in Hlen. lia. }
  destruct (built_block _ ps rs Hb Hlen) as (it & Hit & Hl & Hst & Hv). exists it. split; [done|]. simpl.
  split; [exists ps, rs; split; [done|]; split; [split; by rewrite He|]; split; [done|by left]|].
  split; [by rewrite (block_content_ok it ps rs Hl)|]. unfold block_cur. by rewrite Hv.
Qed.
End Roundtrip.

(** The sum of the two lengths in [DecodeEntry] is 32 bits wide: two lengths whose sum
    wraps pass the test, whatever is left of the block. *)
Lemma DecodeEntry_wraps p : let bad := EncodeVarint32 0 ++ EncodeVarint32 (2 ^ 32 - 1) ++ EncodeVarint32 1 in
  lenZ p < 2 ^ 32 -> DecodeEntry (bad ++ p) = Some (0, 2 ^ 32 - 1, 1, p).
Proof.
  intros bad Hp. unfold bad. rewrite <- !app_assoc.
  change (DecodeEntry (EncodeVarint32 0 ++ EncodeVarint32 (2 ^ 32 - 1) ++ EncodeVarint32 1 ++ p))
    with (match GetVarint32Ptr (EncodeVarint32 0 ++ EncodeVarint32 (2 ^ 32 - 1) ++ EncodeVarint32 1 ++ p) with
          | Some (shared, p) => match GetVarint32Ptr p with
            | Some (non_shared, p) => match GetVarint32Ptr p with
              | Some (value_length, p) =>
                  if u32 (lenZ p) <? u32 (non_shared + value_length) then None else Some (shared, non_shared, value_length, p)
              | None => None end
            | None => None end
          | None => None end).
  change GetVarint32Ptr with GetVarint32. rewrite !GetVarint32_Encode by lia. rewrite uwrap_small by lia.
  change (u32 (2 ^ 32 - 1 + 1)) with 0. by rewrite (proj2 (Z.ltb_ge _ _)) by lia.
Qed.
