(* ===== verification/LdbSep.v ===== *)
(** * leveldb: short keys between two keys

    A table's index holds, for each block, a key that is not below the block's last key
    and below the first key of the next block.  The comparators find short ones:
    [FindShortestSeparator] and [FindShortSuccessor] of
    src/ext/leveldb/util/comparator.cc for bytes, and of db/dbformat.cc for internal
    keys, which go through those for the user keys.  [Separator] is what a table
    relies on; both comparators provide it. *)

From Stdlib Require Import ZArith Lia.
From stdpp Require Import base list numbers option sorting.
From S2P Require Import Prelude ByteOrder WebappStr Session LdbCoding LdbMem LdbIter LdbBlock.
Open Scope Z_scope.
Open Scope webapp_scope.

(** ** Bytes *)

Definition FindShortestSeparator (start limit : list Z) : list Z :=
  let min_length := (length start `min` length limit)%nat in
  let diff_index := shared_bytes start limit in
  if (min_length <=? diff_index)%nat then start
  else
    let diff_byte := at_ start diff_index in
    if (diff_byte <? 255) && (diff_byte + 1 <? at_ limit diff_index)
    then take diff_index start ++ [diff_byte + 1] else start.

Fixpoint FindShortSuccessor (key : list Z) : list Z :=
  match key with
  | [] => []
  | byte :: key => if byte =? 255 then byte :: FindShortSuccessor key else [byte + 1]
  end.

(** ** Internal keys *)

Definition InternalKey_FindShortestSeparator (start limit : list Z) : list Z :=
  let user_start := ExtractUserKey start in
  let user_limit := ExtractUserKey limit in
  let tmp := FindShortestSeparator user_start user_limit in
  if (length tmp <? length user_start)%nat && match Slice_compare user_start tmp with Lt => true | _ => false end
  then PutFixed64 tmp (PackSequenceAndType kMaxSequenceNumber kValueTypeForSeek)
  else start.

Definition InternalKey_FindShortSuccessor (key : list Z) : list Z :=
  let user_key := ExtractUserKey key in
  let tmp := FindShortSuccessor user_key in
  if (length tmp <? length user_key)%nat && match Slice_compare user_key tmp with Lt => true | _ => false end
  then PutFixed64 tmp (PackSequenceAndType kMaxSequenceNumber kValueTypeForSeek)
  else key.

(** ** What a table relies on *)

(** [related]: keys of which a search for one should find the other.  No key that ends
    at a separator is related to one behind it. *)
Class Separator `{!KeyOrder} := {
  separator : list Z -> list Z -> list Z;
  successor : list Z -> list Z;
  separator_dom : forall a b, dom a -> dom b -> cmp a b = Lt -> dom (separator a b);
  separator_ge : forall a b, dom a -> dom b -> cmp a b = Lt -> cmp (separator a b) a <> Lt;
  separator_lt : forall a b, dom a -> dom b -> cmp a b = Lt -> cmp (separator a b) b = Lt;
  successor_dom : forall a, dom a -> dom (successor a);
  successor_ge : forall a, dom a -> cmp (successor a) a <> Lt;
  separator_length : forall a b, dom a -> dom b -> cmp a b = Lt -> lenZ (separator a b) <= lenZ a;
  successor_length : forall a, dom a -> lenZ (successor a) <= lenZ a;
  dom_bytes : forall a, dom a -> bytes_ok a;
  related : list Z -> list Z -> Prop;
  separator_apart : forall a b k e, dom a -> dom b -> dom k -> dom e -> cmp a b = Lt ->
    cmp a k = Lt -> cmp k (separator a b) <> Gt -> cmp b e <> Gt -> ~ related k e }.

(** ** The bytewise comparator *)

Lemma FindShortestSeparator_cons x a b : FindShortestSeparator (x :: a) (x :: b) = x :: FindShortestSeparator a b.
Proof.
  unfold FindShortestSeparator. cbn [shared_bytes length]. rewrite Z.eqb_refl. cbn [Nat.min Nat.leb at_ take].
  destruct (_ <=? _)%nat; [done|]. change (at_ (x :: ?l) (S ?n)) with (at_ l n).
  by destruct (_ && _).
Qed.

Lemma FindShortestSeparator_spec a b : bytes_ok a -> bytes_ok b -> key_lt a b ->
  let s := FindShortestSeparator a b in
  bytes_ok s /\ (length s <= length a)%nat /\ (s = a \/ key_lt a s) /\ key_lt s b.
Proof.
  revert b. induction a as [|x a IH]; intros [|y b] Ha Hb Hlt; try done; [by split_and!; [| |left|]..|].
  apply Forall_cons_1 in Ha as [Hx Ha]. apply Forall_cons_1 in Hb as [Hy Hb]. unfold key_lt in *. rewrite Slice_compare_cons in Hlt.
  destruct (Z.compare_spec x y) as [<-|Hxy|Hxy]; [|clear IH|done].
  - rewrite FindShortestSeparator_cons. destruct (IH b Ha Hb Hlt) as (H1 & H2 & H3 & H4).
    split_and!; [by constructor|simpl; lia| |]; rewrite ?Slice_compare_cons, Z.compare_refl; [|done].
    destruct H3 as [->|H3]; [by left|by right].
  - unfold FindShortestSeparator. cbn [shared_bytes length Nat.min Nat.leb]. rewrite (proj2 (Z.eqb_neq x y)) by lia.
    change (at_ (x :: a) 0) with x. change (at_ (y :: b) 0) with y. cbn [take app].
    destruct ((x <? 255) && (x + 1 <? y)) eqn:E.
    + apply andb_true_iff in E as [Hx1%Z.ltb_lt Hy1%Z.ltb_lt]. unfold is_byte in *.
      split_and!; [repeat constructor; unfold is_byte; lia|simpl; lia|right|]; rewrite Slice_compare_cons.
      * by rewrite (proj2 (Z.compare_lt_iff x (x + 1))) by lia.
      * by rewrite (proj2 (Z.compare_lt_iff (x + 1) y)) by lia.
    + split_and!; [by constructor|done|by left|]. rewrite Slice_compare_cons. by rewrite (proj2 (Z.compare_lt_iff x y)).
Qed.

Lemma FindShortSuccessor_spec a : bytes_ok a ->
  let s := FindShortSuccessor a in bytes_ok s /\ (length s <= length a)%nat /\ (s = a \/ key_lt a s).
Proof.
  induction a as [|x a IH]; intros Ha; [split_and!; [done..|by left]|]. apply Forall_cons_1 in Ha as [Hx Ha]. cbn [FindShortSuccessor].
  destruct (Z.eqb_spec x 255) as [->|Hne]; unfold key_lt.
  - destruct (IH Ha) as (H1 & H2 & H3). split_and!; [by constructor|simpl; lia|]. rewrite Slice_compare_cons.
    destruct H3 as [->|H3]; [by left|by right].
  - unfold is_byte in Hx. split_and!; [repeat constructor; unfold is_byte; lia|simpl; lia|right]. rewrite Slice_compare_cons.
    by rewrite (proj2 (Z.compare_lt_iff x (x + 1))) by lia.
Qed.

Lemma not_below a s : s = a \/ key_lt a s -> Slice_compare s a <> Lt.
Proof.
  intros [->|H]; [by rewrite (proj2 (Slice_compare_eq a a) eq_refl)|]. unfold key_lt in H. by rewrite Slice_compare_antisym, H.
Qed.

Lemma below_trans a b c : key_lt a b -> Slice_compare b c <> Gt -> key_lt a c.
Proof.
  intros Hab Hbc. destruct (Slice_compare b c) eqn:E; [by apply Slice_compare_eq in E as <-|by apply (key_lt_trans _ b)|done].
Qed.

Lemma below_trans_l a b c : Slice_compare a b <> Gt -> key_lt b c -> key_lt a c.
Proof.
  intros Hab Hbc. destruct (Slice_compare a b) eqn:E; [by apply Slice_compare_eq in E as ->|by apply (key_lt_trans _ b)|done].
Qed.

#[export] Program Instance bytewise_separator : @Separator user_order := {
  separator := FindShortestSeparator;
  successor := FindShortSuccessor;
  related := eq }.
Next Obligation.
  intros a b [Ha Hal] [Hb _] Hlt. destruct (FindShortestSeparator_spec a b Ha Hb Hlt) as (H1 & H2 & _). split; [done|lia].
Qed.
Next Obligation.
  intros a b [Ha _] [Hb _] Hlt. destruct (FindShortestSeparator_spec a b Ha Hb Hlt) as (_ & _ & H & _). by apply not_below.
Qed.
Next Obligation.
  intros a b [Ha _] [Hb _] Hlt. by destruct (FindShortestSeparator_spec a b Ha Hb Hlt) as (_ & _ & _ & H).
Qed.
Next Obligation. intros a [Ha Hl]. destruct (FindShortSuccessor_spec a Ha) as (H1 & H2 & _). split; [done|lia]. Qed.
Next Obligation. intros a [Ha _]. destruct (FindShortSuccessor_spec a Ha) as (_ & _ & H). by apply not_below. Qed.
Next Obligation.
  intros a b [Ha _] [Hb _] Hlt. destruct (FindShortestSeparator_spec a b Ha Hb Hlt) as (_ & H & _). lia.
Qed.
Next Obligation. intros a [Ha _]. destruct (FindShortSuccessor_spec a Ha) as (_ & H & _). lia. Qed.
Next Obligation. by intros a [Ha _]. Qed.
Next Obligation.
  intros a b k ? [Ha _] [Hb _] _ _ Hab _ Hks Hbe <-. simpl in *. destruct (FindShortestSeparator_spec a b Ha Hb Hab) as (_ & _ & _ & Hsb).
  apply (key_lt_irrefl k). apply (below_trans _ b); [by apply (below_trans_l _ (FindShortestSeparator a b))|done].
Qed.

(** ** The comparator of internal keys *)

Lemma ikey_user e : ExtractUserKey (ikey e) = e_key e.
Proof. apply ExtractUserKey_app. Qed.

Lemma ikey_length e : lenZ (ikey e) = lenZ (e_key e) + 8.
Proof. unfold ikey. rewrite length_app. unfold EncodeFixed64. rewrite length_le_bytes. lia. Qed.

Lemma tacked_length tmp t : lenZ (PutFixed64 tmp t) = lenZ tmp + 8.
Proof. unfold PutFixed64, EncodeFixed64. rewrite length_app, length_le_bytes. lia. Qed.

(** The shortened key comes before all entries with its user key. *)
Lemma tacked tmp : bytes_ok tmp -> lenZ tmp + 8 < 2 ^ 32 ->
  PutFixed64 tmp (PackSequenceAndType kMaxSequenceNumber kValueTypeForSeek) = ikey (target tmp kMaxSequenceNumber)
  /\ entry_ok (target tmp kMaxSequenceNumber).
Proof.
  intros Hb Hl. split; [|split; simpl; [done..|lia|by vm_compute|by right]].
  destruct (pack_tag kMaxSequenceNumber kTypeValue) as (Hp & _ & _); [by vm_compute|by right|].
  unfold PutFixed64, ikey, e_tag, target, kValueTypeForSeek. cbn [e_key e_seq e_type]. by rewrite <- Hp.
Qed.

(** The separator of two entries: one of the first, or of a user key strictly between. *)
Lemma internal_separator_cases a b : entry_ok a -> entry_ok b -> e_compare a b = Lt ->
  InternalKey_FindShortestSeparator (ikey a) (ikey b) = ikey a
  \/ exists s, InternalKey_FindShortestSeparator (ikey a) (ikey b) = ikey s /\ entry_ok s /\ key_lt (e_key a) (e_key s) /\ key_lt (e_key s) (e_key b).
Proof.
  intros Ha Hb Hlt. unfold InternalKey_FindShortestSeparator. rewrite !ikey_user.
  destruct (_ && _) eqn:E; [right|by left]. apply andb_true_iff in E as [Hl%Nat.ltb_lt Hc].
  assert (Hab : key_lt (e_key a) (e_key b)).
  { unfold e_compare, key_lt in *. destruct (Slice_compare (e_key a) (e_key b)) eqn:Ec; [|done..]. exfalso.
    apply Slice_compare_eq in Ec. rewrite <- Ec in Hl. clear -Hl.
    assert (forall l, FindShortestSeparator l l = l) as H; [|by rewrite H in Hl; lia].
    induction l as [|x l IH]; [done|]. by rewrite FindShortestSeparator_cons, IH. }
  destruct (FindShortestSeparator_spec (e_key a) (e_key b)) as (H1 & H2 & _ & H4); [apply Ha|apply Hb|done|].
  pose proof (ok_key _ Ha). destruct (tacked (FindShortestSeparator (e_key a) (e_key b)) H1) as [-> Hok]; [lia|].
  eexists. split_and!; [done..| |done]. unfold key_lt. simpl. by destruct (Slice_compare _ _).
Qed.

Lemma internal_successor_cases a : entry_ok a ->
  InternalKey_FindShortSuccessor (ikey a) = ikey a
  \/ exists s, InternalKey_FindShortSuccessor (ikey a) = ikey s /\ entry_ok s /\ key_lt (e_key a) (e_key s).
Proof.
  intros Ha. unfold InternalKey_FindShortSuccessor. rewrite !ikey_user.
  destruct (_ && _) eqn:E; [right|by left]. apply andb_true_iff in E as [Hl%Nat.ltb_lt Hc].
  destruct (FindShortSuccessor_spec (e_key a)) as (H1 & H2 & _); [apply Ha|].
  pose proof (ok_key _ Ha). destruct (tacked (FindShortSuccessor (e_key a)) H1) as [-> Hok]; [lia|].
  eexists. split_and!; [done..|]. unfold key_lt. simpl. by destruct (Slice_compare _ _).
Qed.

Lemma key_lt_e_compare a b : key_lt (e_key a) (e_key b) -> e_compare a b = Lt.
Proof. unfold key_lt, e_compare. by intros ->. Qed.

Lemma e_compare_key a b : e_compare a b <> Gt -> Slice_compare (e_key a) (e_key b) <> Gt.
Proof. unfold e_compare. by destruct (Slice_compare (e_key a) (e_key b)). Qed.

#[export] Program Instance internal_separator : @Separator internal_order := {
  separator := InternalKey_FindShortestSeparator;
  successor := InternalKey_FindShortSuccessor;
  related a b := ExtractUserKey a = ExtractUserKey b }.
Next Obligation.
  intros ? ? (a & Ha & ->) (b & Hb & ->) Hlt. simpl in Hlt. rewrite InternalKey_ikey in Hlt by done.
  destruct (internal_separator_cases a b Ha Hb Hlt) as [->|(s & -> & Hs & _)]; [by exists a|by exists s].
Qed.
Next Obligation.
  intros ? ? (a & Ha & ->) (b & Hb & ->) Hlt. simpl in *. rewrite InternalKey_ikey in Hlt by done.
  destruct (internal_separator_cases a b Ha Hb Hlt) as [->|(s & -> & Hs & Has & _)]; rewrite InternalKey_ikey by done.
  - by rewrite (proj2 (e_compare_eq a a)).
  - by rewrite e_compare_antisym, (key_lt_e_compare a s).
Qed.
Next Obligation.
  intros ? ? (a & Ha & ->) (b & Hb & ->) Hlt. simpl in *. rewrite InternalKey_ikey in Hlt by done.
  destruct (internal_separator_cases a b Ha Hb Hlt) as [->|(s & -> & Hs & _ & Hsb)]; rewrite InternalKey_ikey by done; [done|by apply key_lt_e_compare].
Qed.
Next Obligation.
  intros ? (a & Ha & ->). destruct (internal_successor_cases a Ha) as [->|(s & -> & Hs & _)]; [by exists a|by exists s].
Qed.
Next Obligation.
  intros ? (a & Ha & ->). simpl. destruct (internal_successor_cases a Ha) as [->|(s & -> & Hs & Has)]; rewrite InternalKey_ikey by done.
  - by rewrite (proj2 (e_compare_eq a a)).
  - by rewrite e_compare_antisym, (key_lt_e_compare a s).
Qed.
Next Obligation.
  intros ? ? (a & Ha & ->) (b & Hb & ->) Hlt. unfold InternalKey_FindShortestSeparator. destruct (_ && _) eqn:E; [|done].
  apply andb_true_iff in E as [Hl%Nat.ltb_lt _]. rewrite tacked_length. rewrite !ikey_user in *. rewrite ikey_length. lia.
Qed.
Next Obligation.
  intros ? (a & Ha & ->). unfold InternalKey_FindShortSuccessor. destruct (_ && _) eqn:E; [|done].
  apply andb_true_iff in E as [Hl%Nat.ltb_lt _]. rewrite tacked_length. rewrite !ikey_user in *. rewrite ikey_length. lia.
Qed.
Next Obligation. intros ? (a & Ha & ->). apply Forall_app. split; [apply Ha|apply le_bytes_ok]. Qed.
Next Obligation.
  intros ? ? ? ? (a & Ha & ->) (b & Hb & ->) (k & Hk & ->) (e & He & ->). simpl. rewrite !ikey_user, !InternalKey_ikey by done. intros Hab Hak Hks Hbe Eke.
  destruct (internal_separator_cases a b Ha Hb Hab) as [E|(s & E & Hs & _ & Hsb)]; rewrite E, InternalKey_ikey in Hks by done.
  - rewrite e_compare_antisym, Hak in Hks. done.
  - apply (key_lt_irrefl (e_key k)). apply (below_trans _ (e_key b)); [apply (below_trans_l _ (e_key s)); [by apply e_compare_key|done]|].
    rewrite Eke. by apply e_compare_key.
Qed.
