(* ===== verification/LdbTwoLevel.v ===== *)
(** * leveldb: the two-level iterator

    src/ext/leveldb/table/two_level_iterator.cc: an iterator over the blocks that an
    index iterator names.  A block function makes an iterator out of the value of an
    index entry.  Empty blocks are skipped.  The two-level iterator obeys the interface
    of [LdbIter] whenever the index and the blocks do and no key of a block is above the
    block's index key or below that of the block before; its content is that of all the
    blocks. *)

From Stdlib Require Import ZArith Lia.
From stdpp Require Import base list numbers option sorting.
From S2P Require Import Prelude ByteOrder WebappStr Session LdbCoding LdbMem LdbIter.
Open Scope Z_scope.
Open Scope webapp_scope.

(** [data_iter_] is [None] for [NULL]; [IteratorWrapper] (table/iterator_wrapper.h) caches
    what [cur] gives. *)
Record TwoLevelIterator (I J : Type) := mkTwoLevel {
  status_ : bool;
  index_iter_ : I;
  data_iter_ : option J;
  data_block_handle_ : list Z }.
Arguments mkTwoLevel {_ _} _ _ _ _.
Arguments status_ {_ _} _.
Arguments index_iter_ {_ _} _.
Arguments data_iter_ {_ _} _.
Arguments data_block_handle_ {_ _} _.

Section TwoLevel.
Context `{!KeyOrder} {I J : Type} `{!Iterator I, !Iterator J, !HasStatus I, !HasStatus J}.
Context (block_function : list Z -> J).
#[local] Abbreviation T := (TwoLevelIterator I J).

(** ** The operations *)

Definition NewTwoLevelIterator (index_iter : I) : T := mkTwoLevel true index_iter None [].

Definition two_cur (t : T) : option entry := match data_iter_ t with Some d => cur d | None => None end.
Definition two_status (t : T) : bool :=
  if status (index_iter_ t) then
    match data_iter_ t with Some d => if status d then status_ t else false | None => status_ t end
  else false.

Definition set_index (t : T) (i : I) : T := mkTwoLevel (status_ t) i (data_iter_ t) (data_block_handle_ t).
(** [if (data_iter_.iter() != NULL) data_iter_.f()]. *)
Definition on_data (f : J -> J) (t : T) : T := mkTwoLevel (status_ t) (index_iter_ t) (f <$> data_iter_ t) (data_block_handle_ t).

(** [SetDataIterator], with [SaveError]. *)
Definition SetDataIterator (t : T) (d : option J) : T :=
  let st := match data_iter_ t with Some old => status_ t && status old | None => status_ t end in
  mkTwoLevel st (index_iter_ t) d (data_block_handle_ t).

Definition InitDataBlock (t : T) : T :=
  match cur (index_iter_ t) with
  | None => SetDataIterator t None
  | Some (_, handle) =>
      if match data_iter_ t with Some _ => true | None => false end
         && match Slice_compare handle (data_block_handle_ t) with Eq => true | _ => false end
      then t
      else
        SetDataIterator (mkTwoLevel (status_ t) (index_iter_ t) (data_iter_ t) handle) (Some (block_function handle))
  end.

(** The two loops differ in the moves: on to the next block and its first entry, or back
    to the previous one and its last. *)
Fixpoint skip_loop (move : I -> I) (enter : J -> J) (fuel : nat) (t : T) : T :=
  match fuel with
  | O => t
  | S fuel =>
      match two_cur t with
      | Some _ => t
      | None =>
          match cur (index_iter_ t) with
          | None => SetDataIterator t None
          | Some _ => skip_loop move enter fuel (on_data enter (InitDataBlock (set_index t (move (index_iter_ t)))))
          end
      end
  end.

(** A round per block, and one more. *)
Definition blocks (t : T) : nat := S (S (length (content (index_iter_ t)))).
Definition SkipEmptyDataBlocksForward (t : T) : T := skip_loop Next SeekToFirst (blocks t) t.
Definition SkipEmptyDataBlocksBackward (t : T) : T := skip_loop Prev SeekToLast (blocks t) t.

Definition two_Seek (t : T) (target : list Z) : T :=
  SkipEmptyDataBlocksForward (on_data (fun d => Seek d target) (InitDataBlock (set_index t (Seek (index_iter_ t) target)))).
Definition two_SeekToFirst (t : T) : T :=
  SkipEmptyDataBlocksForward (on_data SeekToFirst (InitDataBlock (set_index t (SeekToFirst (index_iter_ t))))).
Definition two_SeekToLast (t : T) : T :=
  SkipEmptyDataBlocksBackward (on_data SeekToLast (InitDataBlock (set_index t (SeekToLast (index_iter_ t))))).
Definition two_Next (t : T) : T := SkipEmptyDataBlocksForward (on_data Next t).
Definition two_Prev (t : T) : T := SkipEmptyDataBlocksBackward (on_data Prev t).

(** ** What the iterator ranges over *)

Definition block_of (x : entry) : list entry := content (block_function x.2).
Definition blocks_content (idx : list entry) : list entry := mjoin (block_of <$> idx).
Definition two_content (t : T) : list entry := blocks_content (content (index_iter_ t)).

(** The blocks stand between the keys of the index. *)
Record blocks_ok (idx : list entry) : Prop := mkBlocksOk {
  bl_keys : keys_ok idx;
  bl_iter : forall x, x ∈ idx -> iter_ok (block_function x.2);
  bl_above : forall x e, x ∈ idx -> e ∈ block_of x -> cmp e.1 x.1 <> Gt;
  bl_below : forall x x' e, x ∈ idx -> x' ∈ idx -> klt x x' -> e ∈ block_of x' -> klt x e }.

Lemma elem_of_blocks idx e : e ∈ blocks_content idx <-> exists x, x ∈ idx /\ e ∈ block_of x.
Proof.
  unfold blocks_content. rewrite list_elem_of_join. split.
  - intros (l & He & (x & -> & Hx)%list_elem_of_fmap). by exists x.
  - intros (x & Hx & He). exists (block_of x). split; [done|]. by apply list_elem_of_fmap_2.
Qed.

Lemma block_keys idx x : blocks_ok idx -> x ∈ idx -> keys_ok (block_of x).
Proof. intros Hb Hx. apply content_ok. by apply (bl_iter _ Hb). Qed.

Lemma block_dom idx x e : blocks_ok idx -> x ∈ idx -> e ∈ block_of x -> dom e.1.
Proof. intros Hb Hx He. apply (keys_dom (block_of x)); [by apply (block_keys idx)|done]. Qed.

(** An entry of an earlier block is before those of a later one. *)
Lemma blocks_lt idx x x' e e' : blocks_ok idx -> x ∈ idx -> x' ∈ idx -> klt x x' -> e ∈ block_of x -> e' ∈ block_of x' -> klt e e'.
Proof.
  intros Hb Hx Hx' Hlt He He'. pose proof (bl_below _ Hb x x' e' Hx Hx' Hlt He') as Hbe. pose proof (bl_above _ Hb x e Hx He) as Hab.
  pose proof (keys_dom _ _ (bl_keys _ Hb) Hx) as Dx. pose proof (block_dom idx x e Hb Hx He) as De. pose proof (block_dom idx x' e' Hb Hx' He') as De'.
  unfold klt in *. destruct (cmp e.1 x.1) eqn:E; [|by apply (cmp_trans _ x.1)|done]. apply cmp_eq in E; [|done..]. by rewrite E.
Qed.

Lemma blocks_gt idx x x' e e' : blocks_ok idx -> x ∈ idx -> x' ∈ idx -> kgt x x' -> e ∈ block_of x -> e' ∈ block_of x' -> kgt e e'.
Proof.
  intros Hb Hx Hx' Hgt He He'. pose proof (bl_keys _ Hb) as Hk. apply (order_flip idx) in Hgt; [|done..].
  apply klt_kgt; [by apply (block_dom idx x')|by apply (block_dom idx x)|]. by apply (blocks_lt idx x' x).
Qed.

Lemma blocks_content_ok idx : blocks_ok idx -> keys_ok (blocks_content idx).
Proof.
  intros Hb. split.
  2:{ apply List.Forall_forall. intros k [e [-> (x & Hx & He)%elem_of_blocks]]%list_elem_of_In%list_elem_of_fmap. by apply (block_dom idx x). }
  assert (Hsub : forall l, l ⊆ idx -> NoDup l -> NoDup (blocks_content l).*1).
  2:{ apply Hsub; [done|]. apply (NoDup_fmap_1 fst), Hb. }
  induction l as [|x l IH]; intros Hl Hnd; [constructor|]. apply list.NoDup_cons in Hnd as [Hx Hnd].
  change (blocks_content (x :: l)) with (block_of x ++ blocks_content l). rewrite fmap_app. apply NoDup_app. split_and!.
  - apply (block_keys idx); [done|]. apply Hl. by left.
  - intros k (e & -> & He)%list_elem_of_fmap (e' & Ek & (x' & Hx' & He')%elem_of_blocks)%list_elem_of_fmap.
    assert (Hxi : x ∈ idx) by (apply Hl; by left). assert (Hxi' : x' ∈ idx) by (apply Hl; by right).
    pose proof (block_dom idx x e Hb Hxi He) as De.
    destruct (order_cases idx x x' (bl_keys _ Hb) Hxi Hxi') as [->|[Hlt|Hlt]]; [done|..].
    + pose proof (blocks_lt idx x x' e e' Hb Hxi Hxi' Hlt He He') as H'. unfold klt in H'. rewrite <- Ek, cmp_refl in H'; done.
    + pose proof (blocks_lt idx x' x e' e Hb Hxi' Hxi Hlt He' He) as H'. unfold klt in H'. rewrite <- Ek, cmp_refl in H'; done.
  - apply IH; [|done]. intros y Hy. apply Hl. by right.
Qed.

(** ** The invariant *)

Record base (t : T) : Prop := mkBase {
  ba_index : iter_ok (index_iter_ t);
  ba_blocks : blocks_ok (content (index_iter_ t));
  ba_status : status_ t = true;
  ba_data : forall d, data_iter_ t = Some d -> iter_ok d /\ content d = content (block_function (data_block_handle_ t)) }.

(** Between two calls: an entry of the block that the index stands on, or no block. *)
Definition settled (t : T) : Prop :=
  forall d, data_iter_ t = Some d -> exists e x, cur d = Some e /\ cur (index_iter_ t) = Some x /\ data_block_handle_ t = x.2.
Definition two_ok (t : T) : Prop := base t /\ settled t.

Lemma set_index_base t i : base t -> iter_ok i -> content i = content (index_iter_ t) -> base (set_index t i).
Proof. intros Hb Hi Hc. split; simpl; [done|rewrite Hc; apply Hb|apply Hb|apply Hb]. Qed.

Lemma on_data_base f t : (forall d, data_iter_ t = Some d -> iter_ok d -> iter_ok (f d) /\ content (f d) = content d) -> base t -> base (on_data f t).
Proof.
  intros Hf Hb. split; simpl; [apply Hb..|]. intros d' (d & Hd & ->)%fmap_Some. destruct (ba_data _ Hb d Hd) as [Hok Hc].
  destruct (Hf d Hd Hok) as [? ->]. done.
Qed.

Lemma SetDataIterator_base t d h : base t -> match d with Some d => iter_ok d /\ content d = content (block_function h) | None => True end ->
  base (SetDataIterator (mkTwoLevel (status_ t) (index_iter_ t) (data_iter_ t) h) d).
Proof.
  intros Hb Hd. split; simpl; [apply Hb..| |].
  - rewrite (ba_status _ Hb). destruct (data_iter_ t) as [old|] eqn:Eo; [|done]. simpl. apply status_ok. by apply (ba_data _ Hb).
  - by intros d' ->.
Qed.

Lemma drop_data_base t : base t -> base (SetDataIterator t None).
Proof. intros Hb. destruct t as [s i d h]. exact (SetDataIterator_base (mkTwoLevel s i d h) None h Hb Logic.I). Qed.

Lemma InitDataBlock_base t : base t -> base (InitDataBlock t) /\ index_iter_ (InitDataBlock t) = index_iter_ t
  /\ match cur (index_iter_ t) with
     | Some x => exists d, data_iter_ (InitDataBlock t) = Some d /\ data_block_handle_ (InitDataBlock t) = x.2 /\ iter_ok d /\ content d = block_of x
     | None => data_iter_ (InitDataBlock t) = None
     end.
Proof.
  intros Hb. unfold InitDataBlock. destruct (cur (index_iter_ t)) as [[k h]|] eqn:Ec.
  2:{ split; [by apply drop_data_base|done]. }
  pose proof (cur_content _ _ (ba_index _ Hb) Ec) as Hx. pose proof (bl_iter _ (ba_blocks _ Hb) _ Hx) as Hok.
  destruct (_ && _) eqn:E.
  - apply andb_true_iff in E as [E1 E2]. split; [done|]. split; [done|]. destruct (data_iter_ t) as [d|] eqn:Ed; [|done].
    destruct (Slice_compare h (data_block_handle_ t)) eqn:Es; [|done..]. apply Slice_compare_eq in Es. destruct (ba_data _ Hb d Ed) as [Hd Hc].
    exists d. split_and!; [done..|]. by rewrite Hc, <- Es.
  - split; [by apply SetDataIterator_base|]. split; [done|]. by exists (block_function h).
Qed.

(** The position of a search for the entries that satisfy [P]: the best of the block that
    the index stands on, the blocks before have none, all those of the blocks behind do. *)
Definition searching (lt : entry -> entry -> Prop) (P : entry -> Prop) (t : T) : Prop :=
  let idx := content (index_iter_ t) in
  match cur (index_iter_ t) with
  | Some x => (exists d, data_iter_ t = Some d /\ data_block_handle_ t = x.2 /\ best lt P (block_of x) (cur d))
      /\ (forall x' e, x' ∈ idx -> lt x' x -> e ∈ block_of x' -> ~ P e)
      /\ (forall x' e, x' ∈ idx -> lt x x' -> e ∈ block_of x' -> P e)
  | None => data_iter_ t = None /\ forall e, e ∈ two_content t -> ~ P e
  end.

(** The result of a search. *)
Definition found (lt : entry -> entry -> Prop) (P : entry -> Prop) (t t' : T) : Prop :=
  two_ok t' /\ two_content t' = two_content t /\ best lt P (two_content t) (two_cur t').

Section Direction.
Context (lt : entry -> entry -> Prop) (move : I -> I) (enter : J -> J) (left_ : I -> nat).
Context (move_best : forall i x, iter_ok i -> cur i = Some x ->
  iter_ok (move i) /\ content (move i) = content i /\ best lt (lt x) (content i) (cur (move i))).
Context (enter_best : forall d, iter_ok d ->
  iter_ok (enter d) /\ content (enter d) = content d /\ best lt (fun _ => True) (content d) (cur (enter d))).
Context (left_move : forall i x, iter_ok i -> cur i = Some x -> (left_ (move i) < left_ i)%nat).
Context (lt_total : forall l a b, keys_ok l -> a ∈ l -> b ∈ l -> a = b \/ lt a b \/ lt b a).
Context (lt_trans : forall l a b c, keys_ok l -> a ∈ l -> b ∈ l -> c ∈ l -> lt a b -> lt b c -> lt a c).
Context (lt_irrefl : forall l a, keys_ok l -> a ∈ l -> ~ lt a a).
Context (lt_blocks : forall idx x x' e e', blocks_ok idx -> x ∈ idx -> x' ∈ idx -> lt x x' -> e ∈ block_of x -> e' ∈ block_of x' -> lt e e').

(** On to the next block, after one without such entries. *)
Lemma skip_step P t : base t -> searching lt P t -> two_cur t = None -> forall x, cur (index_iter_ t) = Some x ->
  let t' := on_data enter (InitDataBlock (set_index t (move (index_iter_ t)))) in
  base t' /\ searching lt P t' /\ content (index_iter_ t') = content (index_iter_ t) /\ (left_ (index_iter_ t') < left_ (index_iter_ t))%nat.
Proof.
  intros Hb Hs Hn x Hx. pose proof (ba_index _ Hb) as Hi. destruct (move_best _ x Hi Hx) as (Hi' & Hc & Hbest).
  pose proof (ba_blocks _ Hb) as Hbl. pose proof (bl_keys _ Hbl) as Hk. pose proof (cur_content _ _ Hi Hx) as Hxi.
  unfold searching in Hs. rewrite Hx in Hs. destruct Hs as ((d & Hd & Hh & Hbd) & Hbef & Haft).
  assert (Hnone : forall x' e, x' ∈ content (index_iter_ t) -> lt x' x \/ x' = x -> e ∈ block_of x' -> ~ P e).
  { intros x' e Hx' [Hlt| ->] He; [by apply (Hbef x')|]. unfold two_cur in Hn. rewrite Hd in Hn. rewrite Hn in Hbd. by apply Hbd. }
  destruct (InitDataBlock_base (set_index t (move (index_iter_ t)))) as (Hb' & Hii & Hcase); [by apply set_index_base|].
  intros t'. assert (Hb2 : base t') by (apply on_data_base; [intros d' _ Hd'; by destruct (enter_best d' Hd') as (? & ? & _)|done]).
  assert (Hidx : index_iter_ t' = move (index_iter_ t)) by (unfold t'; simpl; by rewrite Hii).
  split; [done|]. split; [|rewrite Hidx; split; [done|by apply (left_move _ x)]].
  unfold searching. unfold two_content. rewrite Hidx, Hc. simpl in Hcase. destruct (cur (move (index_iter_ t))) as [x1|] eqn:Ex1.
  - destruct Hbest as (Hx1 & Hxx1 & Hmin). destruct Hcase as (d1 & Hd1 & Hh1 & Hok1 & Hc1). split_and!.
    + exists (enter d1). unfold t'. simpl. rewrite Hd1. split_and!; [done..|]. destruct (enter_best d1 Hok1) as (_ & _ & Hbe). rewrite Hc1 in Hbe.
      destruct (cur (enter d1)) as [e|]; [|intros e He; by destruct (Hbe e He)]. destruct Hbe as (He & _ & Hm).
      split; [done|]. split; [by apply (Haft x1)|]. intros e' He' _. by apply Hm.
    + intros x' e Hx' Hlt He. apply (Hnone x' e Hx'); [|done]. destruct (lt_total _ x' x Hk Hx' Hxi) as [?|[?|Hxx']]; [by right|by left|].
      exfalso. destruct (Hmin x' Hx' Hxx') as [->|?]; [by apply (lt_irrefl _ x1 Hk Hx1)|]. apply (lt_irrefl _ x' Hk Hx'). by apply (lt_trans _ x' x1 x' Hk).
    + intros x' e Hx' Hlt He. apply (Haft x'); [done| |done]. by apply (lt_trans _ x x1 x' Hk).
  - split; [unfold t'; simpl; by rewrite Hcase|]. intros e (x' & Hx' & He)%elem_of_blocks. apply (Hnone x' e Hx'); [|done].
    destruct (lt_total _ x' x Hk Hx' Hxi) as [?|[?|Hxx']]; [by right|by left|]. by destruct (Hbest x' Hx').
Qed.

Lemma searching_found P t e : base t -> searching lt P t -> two_cur t = Some e -> found lt P t t.
Proof.
  intros Hb Hs He. unfold searching in Hs. unfold found. destruct (cur (index_iter_ t)) as [x|] eqn:Hx.
  2:{ destruct Hs as [Hd _]. unfold two_cur in He. by rewrite Hd in He. }
  destruct Hs as ((d & Hd & Hh & Hbd) & Hbef & Haft). pose proof (ba_blocks _ Hb) as Hbl. pose proof (cur_content _ _ (ba_index _ Hb) Hx) as Hxi.
  rewrite He. unfold two_cur in He. rewrite Hd in He. rewrite He in Hbd. destruct Hbd as (Hex & HP & Hmin).
  split_and!; [|done|].
  - split; [done|]. intros d' Hd'. rewrite Hd in Hd'. injection Hd' as <-. by exists e, x.
  - simpl. split; [apply elem_of_blocks; by exists x|]. split; [done|]. intros e' (x' & Hx' & He')%elem_of_blocks HP'.
    destruct (lt_total _ x' x (bl_keys _ Hbl) Hx' Hxi) as [->|[Hlt|Hlt]]; [by apply Hmin|by destruct (Hbef x' e')|].
    right. by apply (lt_blocks _ x x' e e' Hbl).
Qed.

Lemma skip_loop_ok fuel P t : base t -> searching lt P t -> (left_ (index_iter_ t) < fuel)%nat -> found lt P t (skip_loop move enter fuel t).
Proof.
  revert t. induction fuel as [|fuel IH]; intros t Hb Hs Hf; [lia|]. cbn [skip_loop].
  destruct (two_cur t) as [e|] eqn:He; [by apply (searching_found P t e)|]. destruct (cur (index_iter_ t)) as [x|] eqn:Hx.
  - destruct (skip_step P t Hb Hs He x Hx) as (Hb' & Hs' & Hc & Hl). destruct (IH _ Hb' Hs' ltac:(lia)) as (H1 & H2 & H3).
    assert (Hcc : two_content (on_data enter (InitDataBlock (set_index t (move (index_iter_ t))))) = two_content t) by (unfold two_content; by rewrite Hc).
    rewrite Hcc in H2, H3. done.
  - unfold searching in Hs. rewrite Hx in Hs. destruct Hs as [Hd Hnone]. split_and!; [|done|done].
    split; [by apply drop_data_base|done].
Qed.

(** The index has moved to [x], the best for [Q]: a search for [P] in its block. *)
Lemma start_search (P Q : entry -> Prop) (f : J -> J) t i : two_ok t -> iter_ok i -> content i = content (index_iter_ t) ->
  best lt Q (content (index_iter_ t)) (cur i) ->
  (forall d, iter_ok d -> iter_ok (f d) /\ content (f d) = content d /\ best lt P (content d) (cur (f d))) ->
  (forall x' e, x' ∈ content (index_iter_ t) -> e ∈ block_of x' -> ~ Q x' -> ~ P e) ->
  (forall x x' e, x ∈ content (index_iter_ t) -> x' ∈ content (index_iter_ t) -> Q x -> lt x x' -> e ∈ block_of x' -> P e) ->
  let t' := on_data f (InitDataBlock (set_index t i)) in
  base t' /\ searching lt P t' /\ content (index_iter_ t') = content (index_iter_ t).
Proof.
  intros [Hb _] Hi Hc Hbest Hf Hbef Haft t'. pose proof (bl_keys _ (ba_blocks _ Hb)) as Hk.
  destruct (InitDataBlock_base (set_index t i)) as (Hb' & Hii & Hcase); [by apply set_index_base|].
  assert (Hidx : index_iter_ t' = i) by (unfold t'; simpl; by rewrite Hii).
  split; [apply on_data_base; [intros d' _ Hd'; by destruct (Hf d' Hd') as (? & ? & _)|done]|]. split; [|by rewrite Hidx].
  unfold searching, two_content. rewrite Hidx, Hc. simpl in Hcase. destruct (cur i) as [x|].
  - destruct Hbest as (Hx & HQ & Hmin). destruct Hcase as (d & Hd & Hh & Hok & Hcd). split_and!.
    + exists (f d). unfold t'. simpl. rewrite Hd. split_and!; [done..|]. destruct (Hf d Hok) as (_ & _ & Hbd). by rewrite Hcd in Hbd.
    + intros x' e Hx' Hlt He. apply (Hbef x'); [done..|]. intros HQ'. destruct (Hmin x' Hx' HQ') as [->|?]; [by apply (lt_irrefl _ x Hk Hx)|].
      apply (lt_irrefl _ x' Hk Hx'). by apply (lt_trans _ x' x x' Hk).
    + intros x' e Hx' Hlt He. by apply (Haft x x').
  - split; [unfold t'; simpl; by rewrite Hcase|]. intros e (x' & Hx' & He)%elem_of_blocks. apply (Hbef x' e Hx' He). by apply Hbest.
Qed.

(** A search in the block at hand. *)
Lemma step_search (P : entry -> Prop) (f : J -> J) t d x : base t -> data_iter_ t = Some d -> cur (index_iter_ t) = Some x -> data_block_handle_ t = x.2 ->
  iter_ok (f d) -> content (f d) = content d -> best lt P (content d) (cur (f d)) ->
  (forall x' e, x' ∈ content (index_iter_ t) -> lt x' x -> e ∈ block_of x' -> ~ P e) ->
  (forall x' e, x' ∈ content (index_iter_ t) -> lt x x' -> e ∈ block_of x' -> P e) ->
  base (on_data f t) /\ searching lt P (on_data f t).
Proof.
  intros Hb Hd Hx Hh Hok Hc Hbest Hbef Haft. split; [apply on_data_base; [|done]; intros d' Hd'; by simplify_eq|].
  unfold searching. simpl. rewrite Hx. split; [|done]. exists (f d). rewrite Hd. split_and!; [done..|].
  destruct (ba_data _ Hb d Hd) as [_ Hcd]. by rewrite Hcd, Hh in Hbest.
Qed.
End Direction.

(** ** The two directions *)

Lemma kgt_total l a b : keys_ok l -> a ∈ l -> b ∈ l -> a = b \/ kgt a b \/ kgt b a.
Proof. intros Hk Ha Hb. rewrite !(order_flip l) by done. destruct (order_cases l a b Hk Ha Hb) as [?|[?|?]]; auto. Qed.

Lemma kgt_order_trans l a b c : keys_ok l -> a ∈ l -> b ∈ l -> c ∈ l -> kgt a b -> kgt b c -> kgt a c.
Proof. intros Hk Ha Hb Hc. rewrite !(order_flip l) by done. intros. by apply (order_trans l c b a). Qed.

Lemma kgt_order_irrefl l a : keys_ok l -> a ∈ l -> ~ kgt a a.
Proof. intros Hk Ha. rewrite (order_flip l) by done. by apply (order_irrefl l). Qed.

Lemma blocks_enough t (n : nat) : (n <= length (content (index_iter_ t)))%nat -> (n < blocks t)%nat.
Proof. unfold blocks. lia. Qed.

Lemma skip_forward P t t0 : base t -> searching klt P t -> content (index_iter_ t) = content (index_iter_ t0) ->
  found klt P t0 (SkipEmptyDataBlocksForward t).
Proof.
  intros Hb Hs Hc. assert (found klt P t (SkipEmptyDataBlocksForward t)) as Hf.
  { apply (skip_loop_ok klt Next SeekToFirst ahead (fun i x => Next_best i x) SeekToFirst_best (fun i x => ahead_Next i x)
      order_cases order_trans order_irrefl blocks_lt); [done..|]. apply blocks_enough, ahead_length. }
  unfold found, two_content in *. by rewrite <- Hc.
Qed.

Lemma skip_backward P t t0 : base t -> searching kgt P t -> content (index_iter_ t) = content (index_iter_ t0) ->
  found kgt P t0 (SkipEmptyDataBlocksBackward t).
Proof.
  intros Hb Hs Hc. assert (found kgt P t (SkipEmptyDataBlocksBackward t)) as Hf.
  { apply (skip_loop_ok kgt Prev SeekToLast back (fun i x => Prev_best i x) SeekToLast_best (fun i x => back_Prev i x)
      kgt_total kgt_order_trans kgt_order_irrefl blocks_gt); [done..|]. apply blocks_enough, back_length. }
  unfold found, two_content in *. by rewrite <- Hc.
Qed.

Lemma two_SeekToFirst_found t : two_ok t -> found klt (fun _ => True) t (two_SeekToFirst t).
Proof.
  intros Ht. destruct (SeekToFirst_best _ (ba_index _ (proj1 Ht))) as (Hi & Hc & Hb).
  destruct (start_search klt order_trans order_irrefl (fun _ => True) (fun _ => True) SeekToFirst t _ Ht Hi Hc Hb) as (H1 & H2 & H3);
    [intros; by apply SeekToFirst_best|naive_solver..|]. by apply skip_forward.
Qed.

Lemma two_SeekToLast_found t : two_ok t -> found kgt (fun _ => True) t (two_SeekToLast t).
Proof.
  intros Ht. destruct (SeekToLast_best _ (ba_index _ (proj1 Ht))) as (Hi & Hc & Hb).
  destruct (start_search kgt kgt_order_trans kgt_order_irrefl (fun _ => True) (fun _ => True) SeekToLast t _ Ht Hi Hc Hb) as (H1 & H2 & H3);
    [intros; by apply SeekToLast_best|naive_solver..|]. by apply skip_backward.
Qed.

Lemma two_Seek_found t k : two_ok t -> dom k -> found klt (fun e => cmp e.1 k <> Lt) t (two_Seek t k).
Proof.
  intros Ht Hd. pose proof (ba_blocks _ (proj1 Ht)) as Hbl. destruct (Seek_best _ k (ba_index _ (proj1 Ht)) Hd) as (Hi & Hc & Hb).
  destruct (start_search klt order_trans order_irrefl (fun e => cmp e.1 k <> Lt) (fun e => cmp e.1 k <> Lt) (fun d => Seek d k) t _ Ht Hi Hc Hb) as (H1 & H2 & H3).
  - intros. by apply Seek_best.
  - intros x' e Hx' He Hn HP. pose proof (bl_above _ Hbl x' e Hx' He) as Hle. pose proof (block_dom _ x' e Hbl Hx' He) as De.
    pose proof (keys_dom _ _ (bl_keys _ Hbl) Hx') as Dx. destruct (cmp x'.1 k) eqn:E; [by destruct Hn| |by destruct Hn].
    apply HP. destruct (cmp e.1 x'.1) eqn:E'; [|by apply (cmp_trans _ x'.1)|done]. apply cmp_eq in E'; [|done..]. by rewrite E'.
  - intros x x' e Hx Hx' HQ Hlt He HP. apply HQ. pose proof (bl_below _ Hbl x x' e Hx Hx' Hlt He) as Hxe.
    apply (cmp_trans _ e.1); [by apply (keys_dom _ _ (bl_keys _ Hbl))|by apply (block_dom _ x' e Hbl)|done..].
  - by apply skip_forward.
Qed.

(** Where the iterator stands. *)
Lemma two_cur_at t e : two_ok t -> two_cur t = Some e -> exists d x, data_iter_ t = Some d /\ cur d = Some e
  /\ cur (index_iter_ t) = Some x /\ data_block_handle_ t = x.2 /\ x ∈ content (index_iter_ t) /\ iter_ok d /\ content d = block_of x /\ e ∈ block_of x.
Proof.
  intros [Hb Hs] He. unfold two_cur in He. destruct (data_iter_ t) as [d|] eqn:Ed; [|done].
  destruct (Hs d Ed) as (e' & x & He' & Hx & Hh). destruct (ba_data _ Hb d Ed) as [Hok Hc]. rewrite Hh in Hc.
  exists d, x. split_and!; try done; [by apply cur_content; [apply Hb|]|]. unfold block_of. rewrite <- Hc. apply cur_content; [done|congruence].
Qed.

Lemma two_Next_found t e : two_ok t -> two_cur t = Some e -> found klt (klt e) t (two_Next t).
Proof.
  intros Ht He. pose proof (ba_blocks _ (proj1 Ht)) as Hbl. destruct (two_cur_at t e Ht He) as (d & x & Hd & Hcd & Hx & Hh & Hxi & Hok & Hc & Hex).
  destruct (Next_best d e Hok Hcd) as (H1 & H2 & H3).
  destruct (step_search klt (klt e) Next t d x (proj1 Ht) Hd Hx Hh H1 H2 H3) as (H4 & H5).
  - intros x' e' Hx' Hlt He' Hee. pose proof (blocks_lt _ x' x e' e Hbl Hx' Hxi Hlt He' Hex) as He'e.
    apply (klt_irrefl e); [by apply (block_dom _ x e Hbl)|]. by apply (klt_trans e e' e); [apply (block_dom _ x e Hbl)|apply (block_dom _ x' e' Hbl)|apply (block_dom _ x e Hbl)|..].
  - intros x' e' Hx' Hlt He'. by apply (blocks_lt _ x x' e e' Hbl).
  - by apply skip_forward.
Qed.

Lemma two_Prev_found t e : two_ok t -> two_cur t = Some e -> found kgt (kgt e) t (two_Prev t).
Proof.
  intros Ht He. pose proof (ba_blocks _ (proj1 Ht)) as Hbl. destruct (two_cur_at t e Ht He) as (d & x & Hd & Hcd & Hx & Hh & Hxi & Hok & Hc & Hex).
  destruct (Prev_best d e Hok Hcd) as (H1 & H2 & H3).
  destruct (step_search kgt (kgt e) Prev t d x (proj1 Ht) Hd Hx Hh H1 H2 H3) as (H4 & H5).
  - intros x' e' Hx' Hlt He' Hee. pose proof (blocks_gt _ x' x e' e Hbl Hx' Hxi Hlt He' Hex) as He'e.
    pose proof (block_dom _ x e Hbl Hxi Hex) as De. pose proof (block_dom _ x' e' Hbl Hx' He') as De'.
    pose proof (kgt_trans e e' e De De' De Hee He'e) as Hirr. unfold kgt in Hirr. by rewrite cmp_refl in Hirr.
  - intros x' e' Hx' Hlt He'. by apply (blocks_gt _ x x' e e' Hbl).
  - by apply skip_backward.
Qed.

Lemma two_cur_content t e : two_ok t -> two_cur t = Some e -> e ∈ two_content t.
Proof.
  intros Ht He. destruct (two_cur_at t e Ht He) as (d & x & _ & _ & _ & _ & Hxi & _ & _ & Hex). apply elem_of_blocks. by exists x.
Qed.

Definition two_level_iterator : Iterator T := {|
  content := two_content;
  iter_ok := two_ok;
  cur := two_cur;
  SeekToFirst := two_SeekToFirst;
  SeekToLast := two_SeekToLast;
  Seek := two_Seek;
  Next := two_Next;
  Prev := two_Prev;
  content_ok := fun t Ht => blocks_content_ok _ (ba_blocks _ (proj1 Ht));
  cur_content := two_cur_content;
  SeekToFirst_best := two_SeekToFirst_found;
  SeekToLast_best := two_SeekToLast_found;
  Seek_best := two_Seek_found;
  Next_best := two_Next_found;
  Prev_best := two_Prev_found |}.

Lemma two_status_ok t : two_ok t -> two_status t = true.
Proof.
  intros [Hb _]. unfold two_status. rewrite (status_ok _ (ba_index _ Hb)). destruct (data_iter_ t) as [d|] eqn:Ed; [|apply Hb].
  destruct (ba_data _ Hb d Ed) as [Hok _]. rewrite (status_ok _ Hok). apply Hb.
Qed.

(** A new iterator stands nowhere. *)
Lemma NewTwoLevelIterator_ok i : iter_ok i -> blocks_ok (content i) ->
  two_ok (NewTwoLevelIterator i) /\ two_content (NewTwoLevelIterator i) = blocks_content (content i).
Proof. intros Hi Hb. done. Qed.
End TwoLevel.
