(* ===== verification/LdbFilter.v ===== *)
(** * leveldb: filters

    A table can hold filters that tell, for the keys of a block, that a key is not
    among them without reading the block.  src/ext/leveldb/util/hash.cc, util/bloom.cc (the
    Bloom filter), the filter policy of internal keys in db/dbformat.cc and
    table/filter_block.cc (the filters of all the blocks of a table, one per 2 KB of
    the file).  What a reader relies on is that a filter has no false negatives;
    [FilterPolicy] states it and the two policies have it. *)

From Stdlib Require Import ZArith Lia.
From stdpp Require Import base list numbers option sorting.
From S2P Require Import Prelude ByteOrder WebappStr Session LdbCoding LdbMem.
Open Scope Z_scope.
Open Scope webapp_scope.

(** ** util/hash.cc *)

Definition hash_m : Z := 0xc6a4a793.
Definition hash_r : Z := 24.

Fixpoint Hash_loop (data : list Z) (h : Z) : Z * list Z :=
  match data with
  | _ :: _ :: _ :: _ :: rest =>
      let w := default 0 (DecodeFixed32 data) in
      let h := u32 (h + w) in
      let h := u32 (h * hash_m) in
      Hash_loop rest (Z.lxor h (Z.shiftr h 16))
  | _ => (h, data)
  end.

Definition Hash_tail (h : Z) (data0 : Z) : Z :=
  let h := u32 (h + i8 data0) in
  let h := u32 (h * hash_m) in
  Z.lxor h (Z.shiftr h hash_r).

(** The last bytes are [char]s, which are signed. *)
Definition Hash (data : list Z) (seed : Z) : Z :=
  let h := u32 (Z.lxor seed (u64 (lenZ data * hash_m))) in
  match Hash_loop data h with
  | (h, [data0; data1; data2]) =>
      let h := u32 (h + Z.shiftl (i8 data2) 16) in
      let h := u32 (h + Z.shiftl (i8 data1) 8) in
      Hash_tail h data0
  | (h, [data0; data1]) => Hash_tail (u32 (h + Z.shiftl (i8 data1) 8)) data0
  | (h, [data0]) => Hash_tail h data0
  | (h, _) => h
  end.

(** ** What a table relies on *)

Class FilterPolicy := {
  filter_Name : list Z;
  CreateFilter : list (list Z) -> list Z;
  KeyMayMatch : list Z -> list Z -> bool;
  filter_Name_ok : bytes_ok filter_Name /\ lenZ filter_Name < 2 ^ 31;
  filter_bytes_ok : forall keys, bytes_ok (CreateFilter keys);
  filter_matches : forall keys k, lenZ keys < 2 ^ 31 -> k ∈ keys -> KeyMayMatch k (CreateFilter keys) = true }.

(** ** util/bloom.cc *)

Definition BloomHash (key : list Z) : Z := Hash key 0xbc9f1d34.

(** [bits_per_key * 0.69], rounded down, between 1 and 30. *)
Definition bloom_k (bits_per_key : Z) : Z := Z.min 30 (Z.max 1 (bits_per_key * 69 / 100)).

Definition bloom_delta (h : Z) : Z := Z.lor (Z.shiftr h 17) (u32 (Z.shiftl h 15)).

Definition set_bit (array : list Z) (bitpos : Z) : list Z :=
  alter (fun b => Z.lor b (Z.shiftl 1 (bitpos mod 8))) (Z.to_nat (bitpos / 8)) array.
Definition has_bit (array : list Z) (bitpos : Z) : bool :=
  negb (Z.land (at_ array (Z.to_nat (bitpos / 8))) (Z.shiftl 1 (bitpos mod 8)) =? 0).

Fixpoint set_probes (k : nat) (bits h delta : Z) (array : list Z) : list Z :=
  match k with
  | O => array
  | S k => set_probes k bits (u32 (h + delta)) delta (set_bit array (h mod bits))
  end.
Fixpoint has_probes (k : nat) (bits h delta : Z) (array : list Z) : bool :=
  match k with
  | O => true
  | S k => if has_bit array (h mod bits) then has_probes k bits (u32 (h + delta)) delta array else false
  end.

Definition add_key (k bits : Z) (array : list Z) (key : list Z) : list Z :=
  let h := BloomHash key in set_probes (Z.to_nat k) bits h (bloom_delta h) array.

(** What [CreateFilter] appends. *)
Definition bloom_CreateFilter (bits_per_key : Z) (keys : list (list Z)) : list Z :=
  let bits := u64 (lenZ keys * bits_per_key) in
  let bits := if bits <? 64 then 64 else bits in
  let bytes := u64 (bits + 7) / 8 in
  let bits := u64 (bytes * 8) in
  let k := bloom_k bits_per_key in
  foldl (add_key k bits) (replicate (Z.to_nat bytes) 0) keys ++ [k].

Definition bloom_KeyMayMatch (key bloom_filter : list Z) : bool :=
  let len := lenZ bloom_filter in
  if len <? 2 then false
  else
    let bits := (len - 1) * 8 in
    let k := u64 (i8 (at_ bloom_filter (Z.to_nat (len - 1)))) in
    if 30 <? k then true
    else let h := BloomHash key in has_probes (Z.to_nat k) bits h (bloom_delta h) bloom_filter.

(** ** The Bloom filter has no false negatives *)

Lemma length_set_bit a p : length (set_bit a p) = length a.
Proof. apply length_alter. Qed.

Lemma length_set_probes k bits h delta a : length (set_probes k bits h delta a) = length a.
Proof. revert h a. induction k as [|k IH]; intros h a; [done|]. simpl. by rewrite IH, length_set_bit. Qed.

Lemma length_add_keys k bits keys a : length (foldl (add_key k bits) a keys) = length a.
Proof. revert a. induction keys as [|x keys IH]; intros a; [done|]. simpl. rewrite IH. apply length_set_probes. Qed.

Lemma has_bit_testbit a p : 0 <= p -> has_bit a p = Z.testbit (at_ a (Z.to_nat (p / 8))) (p mod 8).
Proof.
  intros Hp. pose proof (Z.mod_pos_bound p 8 ltac:(lia)) as Hm. unfold has_bit. rewrite Z.shiftl_1_l.
  set (x := at_ a (Z.to_nat (p / 8))). set (n := p mod 8) in *. clearbody x n.
  destruct (Z.testbit x n) eqn:E; destruct (Z.eqb_spec (Z.land x (2 ^ n)) 0) as [E0|E0]; try done; exfalso.
  - apply (f_equal (fun z => Z.testbit z n)) in E0. rewrite Z.land_spec, E, Z.pow2_bits_true, Z.bits_0 in E0 by lia. done.
  - apply E0. apply Z.bits_inj'. intros m Hm'. rewrite Z.land_spec, Z.bits_0. destruct (decide (m = n)) as [->|]; [by rewrite E|].
    rewrite (Z.pow2_bits_false n m) by lia. apply andb_false_r.
Qed.

Lemma at_alter (f : Z -> Z) (l : list Z) i j : (i < length l)%nat -> at_ (alter f i l) j = if decide (i = j) then f (at_ l j) else at_ l j.
Proof.
  intros Hi. unfold at_. rewrite !nth_lookup. destruct (decide (i = j)) as [<-|Hne].
  - destruct (lookup_lt_is_Some_2 l i Hi) as [x Hx]. by rewrite list_lookup_alter_eq, Hx.
  - by rewrite list_lookup_alter_ne.
Qed.

(** A bit, once set, stays; and the one asked for is set. *)
Lemma has_set_bit a p q : 0 <= p -> 0 <= q < 8 * lenZ a -> p = q \/ has_bit a p = true -> has_bit (set_bit a q) p = true.
Proof.
  intros Hp Hq Hor. rewrite !has_bit_testbit in * by done. unfold set_bit.
  assert (Hi : (Z.to_nat (q / 8) < length a)%nat). { assert (q / 8 < lenZ a) by (apply Z.div_lt_upper_bound; lia). assert (0 <= q / 8) by (apply Z.div_pos; lia). lia. }
  rewrite at_alter by done. destruct (decide (Z.to_nat (q / 8) = Z.to_nat (p / 8))) as [Eq|Ne].
  - rewrite Z.lor_spec. destruct Hor as [->| ->]; [|done]. rewrite Z.shiftl_1_l, Z.pow2_bits_true by (apply Z.mod_pos_bound; lia). apply orb_true_r.
  - destruct Hor as [->|?]; [done|]. done.
Qed.

Lemma set_probes_keep k bits h delta a p : 0 <= p -> 0 < bits <= 8 * lenZ a -> has_bit a p = true -> has_bit (set_probes k bits h delta a) p = true.
Proof.
  revert h a. induction k as [|k IH]; intros h a Hp Hb Ha; [done|]. simpl. apply IH; [done|by rewrite length_set_bit|].
  apply has_set_bit; [done| |by right]. pose proof (Z.mod_pos_bound h bits ltac:(lia)). lia.
Qed.

Lemma has_probes_more k bits h delta a b : 0 < bits -> (forall p, 0 <= p < bits -> has_bit a p = true -> has_bit b p = true) ->
  has_probes k bits h delta a = true -> has_probes k bits h delta b = true.
Proof.
  revert h. induction k as [|k IH]; intros h Hb Hab; [done|]. simpl. destruct (has_bit a (h mod bits)) eqn:E; [|done].
  rewrite (Hab (h mod bits)); [by apply IH|apply Z.mod_pos_bound; lia|done].
Qed.

Lemma set_has_probes k bits h delta a : 0 < bits <= 8 * lenZ a -> has_probes k bits h delta (set_probes k bits h delta a) = true.
Proof.
  revert h a. induction k as [|k IH]; intros h a Hb; [done|]. simpl. pose proof (Z.mod_pos_bound h bits ltac:(lia)).
  rewrite set_probes_keep; [|lia|by rewrite length_set_bit|apply has_set_bit; [lia..|by left]]. apply IH. by rewrite length_set_bit.
Qed.

Lemma add_keys_keep k bits keys a p : 0 <= p -> 0 < bits <= 8 * lenZ a -> has_bit a p = true -> has_bit (foldl (add_key k bits) a keys) p = true.
Proof.
  revert a. induction keys as [|x keys IH]; intros a Hp Hb Ha; [done|]. simpl. apply IH; [done|unfold add_key; by rewrite length_set_probes|].
  by apply set_probes_keep.
Qed.

Lemma add_keys_match k bits keys a key : 0 < bits <= 8 * lenZ a -> key ∈ keys ->
  has_probes (Z.to_nat k) bits (BloomHash key) (bloom_delta (BloomHash key)) (foldl (add_key k bits) a keys) = true.
Proof.
  intros Hb Hk. apply list_elem_of_split in Hk as (l1 & l2 & ->). rewrite foldl_app. simpl.
  set (a1 := foldl (add_key k bits) a l1). assert (H1 : length a1 = length a) by apply length_add_keys.
  apply (has_probes_more _ _ _ _ (add_key k bits a1 key)); [lia| |apply set_has_probes; lia].
  intros p Hp. apply add_keys_keep; [lia|]. unfold add_key. rewrite length_set_probes. lia.
Qed.

Lemma at_app_l (l tl : list Z) i : (i < length l)%nat -> at_ (l ++ tl) i = at_ l i.
Proof. intros Hi. unfold at_. by apply app_nth1. Qed.

Lemma bloom_k_range b : 1 <= bloom_k b <= 30.
Proof. unfold bloom_k. lia. Qed.

(** The size of the filter, in bytes. *)
Lemma bloom_CreateFilter_shape b keys : 0 <= b < 2 ^ 31 -> lenZ keys < 2 ^ 31 ->
  exists n : nat, (8 <= n)%nat /\ Z.of_nat n <= 2 ^ 60
    /\ bloom_CreateFilter b keys = foldl (add_key (bloom_k b) (8 * Z.of_nat n)) (replicate n 0) keys ++ [bloom_k b].
Proof.
  intros Hb Hk. assert (Hm : lenZ keys * b <= 2 ^ 31 * 2 ^ 31) by (apply Z.mul_le_mono_nonneg; lia). assert (0 <= lenZ keys * b) by (apply Z.mul_nonneg_nonneg; lia).
  unfold bloom_CreateFilter. cbv zeta. rewrite (uwrap_small 64 (lenZ keys * b)) by lia. set (bits := if lenZ keys * b <? 64 then 64 else lenZ keys * b).
  assert (Hbits : 64 <= bits <= 2 ^ 62) by (unfold bits; destruct (Z.ltb_spec (lenZ keys * b) 64); lia). clearbody bits.
  rewrite (uwrap_small 64 (bits + 7)) by lia. set (n := (bits + 7) / 8).
  assert (Hn : 8 <= n <= 2 ^ 60) by (unfold n; split; [apply Z.div_le_lower_bound; lia|apply Z.div_le_upper_bound; lia]). clearbody n.
  rewrite uwrap_small by lia. exists (Z.to_nat n). split_and!; [lia..|]. by rewrite Z2Nat.id, Z.mul_comm by lia.
Qed.

Lemma bloom_matches b keys k : 0 <= b < 2 ^ 31 -> lenZ keys < 2 ^ 31 -> k ∈ keys -> bloom_KeyMayMatch k (bloom_CreateFilter b keys) = true.
Proof.
  intros Hb Hl Hk. destruct (bloom_CreateFilter_shape b keys Hb Hl) as (n & Hn & Hn' & ->). pose proof (bloom_k_range b) as Hr.
  set (a := foldl _ _ keys). assert (Ha : length a = n) by (unfold a; rewrite length_add_keys; apply length_replicate).
  unfold bloom_KeyMayMatch. rewrite length_app, Ha. change (length [bloom_k b]) with 1%nat. rewrite (proj2 (Z.ltb_ge _ _)) by lia.
  replace (Z.of_nat (n + 1) - 1) with (Z.of_nat n) by lia.
  assert (Hat : at_ (a ++ [bloom_k b]) (Z.to_nat (Z.of_nat n)) = bloom_k b) by (unfold at_; rewrite Nat2Z.id, app_nth2 by lia; by rewrite Ha, Nat.sub_diag).
  rewrite Hat, swrap_small, uwrap_small by (simpl; lia). rewrite (proj2 (Z.ltb_ge _ _)) by lia. rewrite (Z.mul_comm _ 8).
  apply (has_probes_more _ _ _ _ a); [lia| |apply add_keys_match; [rewrite length_replicate; lia|done]].
  intros p Hp. unfold has_bit. rewrite at_app_l; [done|]. assert (p / 8 < Z.of_nat n) by (apply Z.div_lt_upper_bound; lia).
  assert (0 <= p / 8) by (apply Z.div_pos; lia). lia.
Qed.

Lemma set_bit_bytes a p : bytes_ok a -> bytes_ok (set_bit a p).
Proof.
  intros Ha. apply Forall_lookup. intros i b Hb. unfold set_bit in Hb. destruct (decide (Z.to_nat (p / 8) = i)) as [<-|Hne].
  - rewrite list_lookup_alter_eq in Hb. apply fmap_Some in Hb as (x & Hx & ->). pose proof (Forall_lookup_1 _ _ _ _ Ha Hx) as Hb. unfold is_byte in *.
    pose proof (Z.mod_pos_bound p 8 ltac:(lia)) as Hm. rewrite Z.shiftl_1_l.
    assert (H2 : 0 < 2 ^ (p mod 8) < 2 ^ 8) by (split; [apply Z.pow_pos_nonneg; lia|apply Z.pow_lt_mono_r; lia]).
    change 256 with (2 ^ 8) in *. split; [apply Z.lor_nonneg; lia|]. set (y := 2 ^ (p mod 8)) in *. clearbody y.
    destruct (decide (Z.lor x y = 0)) as [->|]; [lia|]. assert (0 <= Z.lor x y) by (apply Z.lor_nonneg; lia). apply Z.log2_lt_pow2; [lia|]. rewrite Z.log2_lor by lia.
    assert (Hlog : forall z, 0 <= z < 2 ^ 8 -> Z.log2 z < 8) by (intros z Hz; destruct (decide (z = 0)) as [->|]; [done|apply Z.log2_lt_pow2; lia]).
    pose proof (Hlog x ltac:(lia)). pose proof (Hlog y ltac:(lia)). lia.
  - rewrite list_lookup_alter_ne in Hb by done. by apply (Forall_lookup_1 _ a i).
Qed.

Lemma bloom_bytes b keys : bytes_ok (bloom_CreateFilter b keys).
Proof.
  unfold bloom_CreateFilter. cbv zeta. pose proof (bloom_k_range b) as Hk. set (bits := u64 _). clearbody bits. apply Forall_app. split.
  2:{ apply list.Forall_singleton. unfold is_byte. lia. }
  set (a := replicate _ 0). assert (Ha : bytes_ok a) by (apply Forall_replicate; unfold is_byte; lia). clearbody a.
  revert a Ha. induction keys as [|k keys IH]; intros a Ha; [done|]. simpl. apply IH. unfold add_key. generalize (BloomHash k) at 1.
  induction (Z.to_nat (bloom_k b)) as [|n IHn] in a, Ha |- *; intros h; [done|]. simpl. apply IHn. by apply set_bit_bytes.
Qed.

Definition bloom_Name : list Z :=
  [108; 101; 118; 101; 108; 100; 98; 46; 66; 117; 105; 108; 116; 105; 110; 66; 108; 111; 111; 109; 70; 105; 108; 116; 101; 114].

Lemma bloom_Name_ok : bytes_ok bloom_Name /\ lenZ bloom_Name < 2 ^ 31.
Proof. split; [|done]. unfold bloom_Name. repeat (constructor; [unfold is_byte; lia|]). constructor. Qed.

(** [NewBloomFilterPolicy]. *)
Definition BloomFilterPolicy (bits_per_key : Z) (Hb : 0 <= bits_per_key < 2 ^ 31) : FilterPolicy := {|
  filter_Name := bloom_Name;
  CreateFilter := bloom_CreateFilter bits_per_key;
  KeyMayMatch := bloom_KeyMayMatch;
  filter_Name_ok := bloom_Name_ok;
  filter_bytes_ok := bloom_bytes bits_per_key;
  filter_matches := fun keys k => bloom_matches bits_per_key keys k Hb |}.

(** [InternalFilterPolicy] of db/dbformat.cc: the user keys only. *)
Program Definition InternalFilterPolicy (user_policy : FilterPolicy) : FilterPolicy := {|
  filter_Name := filter_Name;
  CreateFilter keys := CreateFilter (ExtractUserKey <$> keys);
  KeyMayMatch key f := KeyMayMatch (ExtractUserKey key) f |}.
Next Obligation. intros p. apply filter_Name_ok. Qed.
Next Obligation. intros p keys. apply filter_bytes_ok. Qed.
Next Obligation.
  intros p keys k Hl Hk. apply filter_matches; [by rewrite length_fmap|]. by apply list_elem_of_fmap_2.
Qed.

(** ** table/filter_block.cc *)

Definition kFilterBaseLg : Z := 11.
Definition kFilterBase : Z := Z.shiftl 1 kFilterBaseLg.

Record FilterBlockBuilder := mkFilterBuilder {
  fb_keys : list Z;
  fb_start : list Z;
  fb_result : list Z;
  filter_offsets_ : list Z }.

Definition FilterBlockBuilder_new : FilterBlockBuilder := mkFilterBuilder [] [] [] [].

(** The keys, from the flattened ones: [start] has one number more than there are keys. *)
Fixpoint tmp_keys (keys start : list Z) : list (list Z) :=
  match start with
  | a :: (b :: _) as rest => take (Z.to_nat (b - a)) (drop (Z.to_nat a) keys) :: tmp_keys keys rest
  | _ => []
  end.

Section FilterBlock.
Context `{!FilterPolicy}.

Definition GenerateFilter (b : FilterBlockBuilder) : FilterBlockBuilder :=
  let offsets := filter_offsets_ b ++ [u32 (lenZ (fb_result b))] in
  match fb_start b with
  | [] => mkFilterBuilder (fb_keys b) [] (fb_result b) offsets
  | start => mkFilterBuilder [] [] (fb_result b ++ CreateFilter (tmp_keys (fb_keys b) (start ++ [lenZ (fb_keys b)]))) offsets
  end.

Fixpoint start_loop (fuel : nat) (filter_index : Z) (b : FilterBlockBuilder) : FilterBlockBuilder :=
  match fuel with
  | O => b
  | S fuel => if lenZ (filter_offsets_ b) <? filter_index then start_loop fuel filter_index (GenerateFilter b) else b
  end.
Definition StartBlock (b : FilterBlockBuilder) (block_offset : Z) : FilterBlockBuilder :=
  let filter_index := block_offset / kFilterBase in
  start_loop (Z.to_nat filter_index) filter_index b.

Definition AddKey (b : FilterBlockBuilder) (key : list Z) : FilterBlockBuilder :=
  mkFilterBuilder (fb_keys b ++ key) (fb_start b ++ [lenZ (fb_keys b)]) (fb_result b) (filter_offsets_ b).

Definition FilterBlock_Finish (b : FilterBlockBuilder) : list Z :=
  let b := match fb_start b with [] => b | _ => GenerateFilter b end in
  let array_offset := u32 (lenZ (fb_result b)) in
  fb_result b ++ mjoin (EncodeFixed32 <$> filter_offsets_ b) ++ EncodeFixed32 array_offset ++ [kFilterBaseLg].

(** [offset_] is relative to [data_]; with no filter [num_] is 0. *)
Record FilterBlockReader := mkFilterReader { fr_data : list Z; fr_offset : Z; num_ : Z; base_lg_ : Z }.

Definition FilterBlockReader_new (contents : list Z) : FilterBlockReader :=
  let n := lenZ contents in
  if n <? 5 then mkFilterReader [] 0 0 0
  else
    let base_lg := u64 (i8 (at_ contents (Z.to_nat (n - 1)))) in
    let last_word := default 0 (DecodeFixed32 (drop (Z.to_nat (n - 5)) contents)) in
    if n - 5 <? last_word then mkFilterReader [] 0 0 base_lg
    else mkFilterReader contents last_word ((n - 5 - last_word) / 4) base_lg.

Definition filter_KeyMayMatch (r : FilterBlockReader) (block_offset : Z) (key : list Z) : bool :=
  let index := Z.shiftr block_offset (base_lg_ r) in
  if index <? num_ r then
    let start := default 0 (DecodeFixed32 (drop (Z.to_nat (fr_offset r + index * 4)) (fr_data r))) in
    let limit := default 0 (DecodeFixed32 (drop (Z.to_nat (fr_offset r + index * 4 + 4)) (fr_data r))) in
    if (start <=? limit) && (limit <=? fr_offset r) then
      KeyMayMatch key (take (Z.to_nat (limit - start)) (drop (Z.to_nat start) (fr_data r)))
    else if start =? limit then false
    else true
  else true.

(** ** The filters of a table *)

(** The blocks of a table in order: where each starts, and its keys. *)
Definition add_block (b : FilterBlockBuilder) (block : Z * list (list Z)) : FilterBlockBuilder :=
  foldl AddKey (StartBlock b block.1) block.2.
Definition run_blocks (blocks : list (Z * list (list Z))) : FilterBlockBuilder := foldl add_block FilterBlockBuilder_new blocks.

Lemma run_blocks_start l o : run_blocks (l ++ [(o, [])]) = StartBlock (run_blocks l) o.
Proof. unfold run_blocks. by rewrite foldl_snoc. Qed.

Lemma run_blocks_key l o ks k : run_blocks (l ++ [(o, ks ++ [k])]) = AddKey (run_blocks (l ++ [(o, ks)])) k.
Proof. unfold run_blocks. rewrite !foldl_snoc. unfold add_block. cbn [fst snd]. by rewrite foldl_snoc. Qed.

Fixpoint offsets (base : Z) (l : list (list Z)) : list Z :=
  match l with [] => [] | x :: l => base :: offsets (base + lenZ x) l end.

Lemma offsets_snoc base l x : offsets base (l ++ [x]) = offsets base l ++ [base + lenZ (mjoin l)].
Proof.
  revert base. induction l as [|y l IH]; intros base; simpl; [f_equal; lia|]. rewrite IH. simpl. do 3 f_equal. rewrite length_app. lia.
Qed.

Lemma length_offsets base l : length (offsets base l) = length l.
Proof. revert base. induction l as [|x l IH]; intros base; [done|]. simpl. by rewrite IH. Qed.

Lemma offsets_lookup base l i : (i < length l)%nat -> offsets base l !! i = Some (base + lenZ (mjoin (take i l))).
Proof.
  revert base i. induction l as [|x l IH]; intros base [|i] Hi; simpl in *; [lia..|f_equal; lia|]. rewrite IH by lia. f_equal. rewrite length_app. lia.
Qed.

Lemma tmp_keys_offsets pre l : tmp_keys (pre ++ mjoin l) (offsets (lenZ pre) l ++ [lenZ (pre ++ mjoin l)]) = l.
Proof.
  revert pre. induction l as [|x l IH]; intros pre; [done|]. specialize (IH (pre ++ x)). rewrite <- app_assoc, length_app, Nat2Z.inj_add in IH.
  simpl. destruct l as [|y l].
  - simpl in *. rewrite !length_app. simpl. rewrite app_nil_r, Nat2Z.inj_add, Nat2Z.id, drop_app_length, take_ge; [done|lia].
  - simpl in *. f_equal; [|done]. rewrite Nat2Z.id, drop_app_length. replace (Z.to_nat (lenZ pre + lenZ x - lenZ pre)) with (length x) by lia. apply take_app_length.
Qed.

(** The state of the builder: the keys of the filters made so far, and those of the next one. *)
Definition filter_of (g : list (list Z)) : list Z := match g with [] => [] | _ => CreateFilter g end.
Record made (b : FilterBlockBuilder) (groups : list (list (list Z))) (pending : list (list Z)) : Prop := mkMade {
  ma_keys : fb_keys b = mjoin pending;
  ma_start : fb_start b = offsets 0 pending;
  ma_result : fb_result b = mjoin (filter_of <$> groups);
  ma_offsets : filter_offsets_ b = u32 <$> offsets 0 (filter_of <$> groups) }.

Lemma made_Generate b groups pending : made b groups pending -> made (GenerateFilter b) (groups ++ [pending]) [].
Proof.
  intros Hm. unfold GenerateFilter. rewrite (ma_start _ _ _ Hm), (ma_keys _ _ _ Hm), (ma_result _ _ _ Hm), (ma_offsets _ _ _ Hm).
  assert (Ho : (u32 <$> offsets 0 (filter_of <$> groups)) ++ [u32 (lenZ (mjoin (filter_of <$> groups)))] = u32 <$> offsets 0 (filter_of <$> (groups ++ [pending]))).
  { rewrite fmap_app. change (filter_of <$> [pending]) with [filter_of pending]. by rewrite offsets_snoc, fmap_app. }
  assert (Hr : mjoin (filter_of <$> (groups ++ [pending])) = mjoin (filter_of <$> groups) ++ filter_of pending).
  { rewrite fmap_app, join_app. simpl. by rewrite app_nil_r. }
  pose proof (tmp_keys_offsets [] pending) as Ht. destruct pending as [|x pending].
  - split; simpl; [done..| |done]. by rewrite Hr, app_nil_r.
  - split; cbn [offsets]; [done..| |done]. rewrite Hr. cbn [filter_of fb_result]. do 2 f_equal. exact Ht.
Qed.

Lemma made_AddKey b groups pending k : made b groups pending -> made (AddKey b k) groups (pending ++ [k]).
Proof.
  intros Hm. split; simpl; [| |apply Hm..].
  - rewrite (ma_keys _ _ _ Hm), join_app. simpl. by rewrite app_nil_r.
  - by rewrite (ma_start _ _ _ Hm), (ma_keys _ _ _ Hm), offsets_snoc.
Qed.

Lemma made_AddKeys ks b groups pending : made b groups pending -> made (foldl AddKey b ks) groups (pending ++ ks).
Proof.
  revert b pending. induction ks as [|k ks IH]; intros b pending Hm; simpl; [by rewrite app_nil_r|].
  rewrite cons_middle, app_assoc. by apply IH, made_AddKey.
Qed.

Lemma made_start_loop fuel n b groups pending : made b groups pending -> (n <= length groups + fuel)%nat ->
  (length groups <= n)%nat ->
  exists groups' pending', made (start_loop fuel (Z.of_nat n) b) groups' pending' /\ length groups' = n
    /\ (forall i g, (groups ++ [pending]) !! i = Some g -> exists g', (groups' ++ [pending']) !! i = Some g' /\ g ⊆ g')
    /\ mjoin (groups' ++ [pending']) = mjoin (groups ++ [pending]).
Proof.
  revert b groups pending. induction fuel as [|fuel IH]; intros b groups pending Hm Hf Hn; cbn [start_loop].
  { exists groups, pending. split_and!; [done|lia| |done]. intros i g Hg. by exists g. }
  rewrite (ma_offsets _ _ _ Hm), length_fmap, length_offsets, length_fmap. destruct (Z.ltb_spec (lenZ groups) (Z.of_nat n)) as [Hlt|Hge].
  - destruct (IH _ _ _ (made_Generate _ _ _ Hm)) as (groups' & pending' & H1 & H2 & H3 & H4); [rewrite length_app; simpl; lia..|].
    exists groups', pending'. split_and!; [done..| |].
    + intros i g Hg. apply (H3 i). by apply lookup_app_l_Some.
    + rewrite H4, join_app. simpl. by rewrite app_nil_r.
  - exists groups, pending. split_and!; [done|lia| |done]. intros i g Hg. by exists g.
Qed.

Lemma last_elem_of {A} (l : list A) x : list.last l = Some x -> x ∈ l.
Proof. intros (l' & ->)%last_Some. apply elem_of_app. right. by left. Qed.

(** Where the keys of the blocks are. *)
Definition grouped (blocks : list (Z * list (list Z))) (gs : list (list (list Z))) : Prop :=
  forall o ks k, (o, ks) ∈ blocks -> k ∈ ks -> exists g, gs !! Z.to_nat (o / kFilterBase) = Some g /\ k ∈ g.

Lemma made_run blocks : StronglySorted Z.le blocks.*1 -> Forall (fun o => 0 <= o) blocks.*1 ->
  exists groups pending, made (run_blocks blocks) groups pending /\ grouped blocks (groups ++ [pending])
    /\ (forall o, list.last blocks.*1 = Some o -> length groups = Z.to_nat (o / kFilterBase)) /\ (blocks = [] -> length groups = 0%nat)
    /\ mjoin (groups ++ [pending]) = mjoin blocks.*2.
Proof.
  induction blocks as [|[o ks] blocks IH] using rev_ind; intros Hs Hp; pose proof (eq_refl : 0 < kFilterBase) as HB.
  { exists [], []. split_and!; [done|intros ? ? ? []%elem_of_nil|done..]. }
  rewrite fmap_app in *. apply StronglySorted_app in Hs as (Hcross & Hs & _). apply Forall_app in Hp as [Hp Ho]. apply Forall_cons_1 in Ho as [Ho _]. simpl in Ho.
  destruct (IH Hs Hp) as (groups & pending & Hm & Hg & Hl & Hz & Hj). clear IH. unfold run_blocks. rewrite foldl_app. simpl. unfold add_block. cbn [fst snd].
  assert (Hlen : (length groups <= Z.to_nat (o / kFilterBase))%nat).
  { destruct (list.last blocks.*1) as [o'|] eqn:El; [|apply last_None, fmap_nil_inv in El; rewrite (Hz El); lia]. rewrite (Hl o' eq_refl).
    apply Z2Nat.inj_le; [apply Z.div_pos; [apply (Forall_elem _ _ _ Hp); by apply last_elem_of|done]|by apply Z.div_pos|]. apply Z.div_le_mono; [done|].
    apply (Hcross o' o); [by apply last_elem_of|by left]. }
  destruct (made_start_loop (Z.to_nat (o / kFilterBase)) (Z.to_nat (o / kFilterBase)) _ groups pending Hm ltac:(lia) Hlen) as (groups' & pending' & Hm' & Hl' & Hkeep & Hj').
  rewrite Z2Nat.id in Hm' by (by apply Z.div_pos). exists groups', (pending' ++ ks). split_and!; [by apply made_AddKeys| | |by intros [_ ?]%app_eq_nil|].
  - intros o1 ks1 k [Hb|[= -> ->]%list_elem_of_singleton]%elem_of_app Hk.
    + destruct (Hg o1 ks1 k Hb Hk) as (g & Hgi & Hkg). destruct (Hkeep _ g Hgi) as (g' & Hg' & Hsub).
      apply lookup_snoc_Some in Hg' as [[_ Hg']|[Ei <-]].
      * exists g'. split; [by apply lookup_app_l_Some|by apply Hsub].
      * exists (pending' ++ ks). split; [rewrite Ei; by apply list_lookup_middle|]. apply elem_of_app. left. by apply Hsub.
    + exists (pending' ++ ks). split; [by rewrite list_lookup_middle|]. apply elem_of_app. by right.
  - intros o'. rewrite last_snoc. by intros [= <-].
  - rewrite fmap_app, !join_app in *. simpl in *. rewrite !app_nil_r in *. by rewrite app_assoc, Hj', Hj.
Qed.

(** ** Reading the filters *)

Lemma join_take_le (l : list (list Z)) i : lenZ (mjoin (take i l)) <= lenZ (mjoin l).
Proof. rewrite <- (take_drop i l) at 2. rewrite join_app, length_app. lia. Qed.

Lemma fixed32s_snoc l x : mjoin (EncodeFixed32 <$> l) ++ EncodeFixed32 x = mjoin (EncodeFixed32 <$> (l ++ [x])).
Proof. rewrite fmap_app, join_app. change (mjoin (EncodeFixed32 <$> [x])) with (EncodeFixed32 x ++ []). by rewrite app_nil_r. Qed.

Lemma u32_offsets l : lenZ (mjoin l) < 2 ^ 32 -> u32 <$> offsets 0 l = offsets 0 l.
Proof.
  intros Hl. apply list_eq. intros i. rewrite list_lookup_fmap. destruct (decide (i < length l)%nat) as [Hi|Hi].
  - rewrite offsets_lookup by done. simpl. f_equal. apply uwrap_small. pose proof (join_take_le l i). lia.
  - by rewrite !(proj2 (lookup_ge_None _ _)) by (rewrite length_offsets; lia).
Qed.

(** The bytes of the filter block: the filters [fs], where they start and where they end. *)
Definition filter_bytes (fs : list (list Z)) : list Z :=
  mjoin fs ++ mjoin (EncodeFixed32 <$> offsets 0 (fs ++ [[]])) ++ [kFilterBaseLg].

Lemma Finish_bytes b groups pending : made b groups pending -> lenZ (FilterBlock_Finish b) < 2 ^ 32 ->
  exists gs, FilterBlock_Finish b = filter_bytes (filter_of <$> gs) /\ forall i g k, (groups ++ [pending]) !! i = Some g -> k ∈ g -> gs !! i = Some g.
Proof.
  intros Hm. unfold FilterBlock_Finish. set (b' := match fb_start b with [] => b | _ => GenerateFilter b end).
  assert (exists gs p, made b' gs p /\ forall i g k, (groups ++ [pending]) !! i = Some g -> k ∈ g -> gs !! i = Some g) as (gs & p & Hm' & Hgs).
  { unfold b'. rewrite (ma_start _ _ _ Hm). destruct pending as [|x pending]; cbn [offsets].
    - exists groups, []. split; [done|]. intros i g k [[_ Hg]|[_ <-]]%lookup_snoc_Some Hk; [done|by apply elem_of_nil in Hk].
    - exists (groups ++ [x :: pending]), []. split; [by apply made_Generate|done]. }
  clearbody b'. rewrite (ma_result _ _ _ Hm'), (ma_offsets _ _ _ Hm'). cbv zeta. intros Hlen. rewrite !length_app in Hlen. rewrite u32_offsets, uwrap_small by lia.
  exists gs. split; [|done]. unfold filter_bytes. by rewrite offsets_snoc, <- fixed32s_snoc, <- !app_assoc.
Qed.

Lemma reader_bytes fs : lenZ (filter_bytes fs) < 2 ^ 32 ->
  FilterBlockReader_new (filter_bytes fs) = mkFilterReader (filter_bytes fs) (lenZ (mjoin fs)) (lenZ fs) kFilterBaseLg.
Proof.
  intros Hlen. unfold filter_bytes in *. rewrite offsets_snoc, <- fixed32s_snoc in *. set (R := mjoin fs) in *. set (A := mjoin (EncodeFixed32 <$> offsets 0 fs)) in *.
  assert (HA : length A = (4 * length fs)%nat) by (unfold A; by rewrite length_fixed32s, length_offsets).
  set (E := EncodeFixed32 (0 + lenZ R)) in *. assert (HE : length E = 4%nat) by apply length_le_bytes.
  rewrite <- !app_assoc in *. set (data := R ++ A ++ E ++ [kFilterBaseLg]) in *.
  assert (Hd : lenZ data = lenZ R + 4 * lenZ fs + 5) by (unfold data; rewrite !length_app; simpl; lia).
  unfold FilterBlockReader_new. rewrite (proj2 (Z.ltb_ge (lenZ data) 5)) by lia.
  assert (Hbase : at_ data (Z.to_nat (lenZ data - 1)) = kFilterBaseLg).
  { unfold at_, data. rewrite !app_assoc, app_nth2; rewrite !length_app; [|simpl; lia].
    replace (Z.to_nat _ - _)%nat with 0%nat; [done|]. simpl. lia. }
  rewrite Hbase. change (u64 (i8 kFilterBaseLg)) with kFilterBaseLg.
  assert (Hlast : default 0 (DecodeFixed32 (drop (Z.to_nat (lenZ data - 5)) data)) = lenZ R).
  { replace (Z.to_nat (lenZ data - 5)) with (length (R ++ A)) by (rewrite length_app; lia). unfold data. rewrite app_assoc, drop_app_length.
    unfold E. rewrite DecodeFixed32_Encode by lia. done. }
  rewrite Hlast, (proj2 (Z.ltb_ge _ _)) by lia. f_equal. rewrite Hd. replace (lenZ R + 4 * lenZ fs + 5 - 5 - lenZ R) with (lenZ fs * 4) by lia. by apply Z.div_mul.
Qed.

Lemma bytes_match fs i f o k : lenZ (filter_bytes fs) < 2 ^ 32 -> fs !! i = Some f -> 0 <= o -> Z.to_nat (o / kFilterBase) = i ->
  filter_KeyMayMatch (FilterBlockReader_new (filter_bytes fs)) o k = KeyMayMatch k f.
Proof.
  intros Hlen Hf Ho Hi. rewrite reader_bytes by done. unfold filter_KeyMayMatch. cbn [base_lg_ num_ fr_offset fr_data].
  rewrite Z.shiftr_div_pow2 by done. change (2 ^ kFilterBaseLg) with kFilterBase. pose proof (Z.div_pos o kFilterBase Ho eq_refl) as Hp.
  replace (o / kFilterBase) with (Z.of_nat i) by lia. clear Hp. pose proof (lookup_lt_Some _ _ _ Hf) as Hlt.
  rewrite (proj2 (Z.ltb_lt (Z.of_nat i) (lenZ fs))) by lia.
  assert (HR : lenZ (mjoin fs) < 2 ^ 32) by (unfold filter_bytes in Hlen; rewrite length_app in Hlen; lia).
  assert (Hj : forall j : nat, (j <= length fs)%nat -> DecodeFixed32 (drop (length (mjoin fs) + 4 * j) (filter_bytes fs)) = Some (lenZ (mjoin (take j fs)))).
  { intros j Hj. unfold filter_bytes. rewrite <- drop_drop, drop_app_length. apply fixed32_lookup.
    - apply Forall_lookup. intros m v Hm. pose proof (lookup_lt_Some _ _ _ Hm) as Hml. rewrite length_offsets in Hml. rewrite offsets_lookup in Hm by done.
      injection Hm as <-. pose proof (join_take_le (fs ++ [[]]) m) as Hle. rewrite join_app in Hle. simpl in Hle. rewrite app_nil_r in Hle. lia.
    - rewrite offsets_lookup by (rewrite length_app; simpl; lia). by rewrite take_app_le. }
  replace (Z.to_nat (lenZ (mjoin fs) + Z.of_nat i * 4)) with (length (mjoin fs) + 4 * i)%nat by lia.
  replace (Z.to_nat (lenZ (mjoin fs) + Z.of_nat i * 4 + 4)) with (length (mjoin fs) + 4 * S i)%nat by lia.
  rewrite !Hj by lia. simpl default. assert (HS : mjoin (take (S i) fs) = mjoin (take i fs) ++ f) by (rewrite (take_S_r _ _ f Hf), join_app; simpl; by rewrite app_nil_r).
  pose proof (join_take_le fs (S i)) as Hle. rewrite HS, length_app in *. rewrite (proj2 (Z.leb_le _ _)), (proj2 (Z.leb_le _ _)) by lia. simpl andb. cbv iota. f_equal.
  replace (Z.to_nat (Z.of_nat (length (mjoin (take i fs)) + length f) - lenZ (mjoin (take i fs)))) with (length f) by lia. rewrite Nat2Z.id.
  unfold filter_bytes. rewrite <- (take_drop_middle fs i f Hf) at 2. rewrite join_app, <- app_assoc, drop_app_length.
  change (mjoin (f :: ?l)) with (f ++ mjoin l). rewrite <- app_assoc. apply take_app_length.
Qed.

(** The filters of the blocks that a table was built from match all the keys of each block. *)
Lemma filter_block_match blocks o ks k : StronglySorted Z.le blocks.*1 -> Forall (fun o => 0 <= o) blocks.*1 ->
  lenZ (mjoin blocks.*2) < 2 ^ 31 -> lenZ (FilterBlock_Finish (run_blocks blocks)) < 2 ^ 32 -> (o, ks) ∈ blocks -> k ∈ ks ->
  filter_KeyMayMatch (FilterBlockReader_new (FilterBlock_Finish (run_blocks blocks))) o k = true.
Proof.
  intros Hs Hp Hn Hlen Hb Hk. destruct (made_run blocks Hs Hp) as (groups & pending & Hm & Hg & _ & _ & Hj).
  destruct (Hg o ks k Hb Hk) as (g & Hgi & Hkg). destruct (Finish_bytes _ groups pending Hm Hlen) as (gs & E & Hgs). rewrite E in *.
  pose proof (Hgs _ g k Hgi Hkg) as Hi. assert (Ho : 0 <= o) by (apply (Forall_elem _ _ _ Hp); by apply (list_elem_of_fmap_2 fst blocks (o, ks))).
  rewrite (bytes_match _ (Z.to_nat (o / kFilterBase)) (filter_of g)); [|done|by rewrite list_lookup_fmap, Hi|done..].
  destruct g as [|x g]; [by apply elem_of_nil in Hkg|]. apply filter_matches; [|done]. rewrite <- Hj in Hn.
  rewrite <- (take_drop_middle _ _ _ Hgi), join_app in Hn. change (mjoin ((x :: g) :: ?l)) with ((x :: g) ++ mjoin l) in Hn. rewrite !length_app in Hn. lia.
Qed.

Lemma filter_of_bytes gs : bytes_ok (mjoin (filter_of <$> gs)).
Proof.
  induction gs as [|g gs IH]; [constructor|]. change (mjoin (filter_of <$> g :: gs)) with (filter_of g ++ mjoin (filter_of <$> gs)).
  apply Forall_app. split; [|done]. destruct g; [constructor|apply filter_bytes_ok].
Qed.

Lemma Finish_bytes_ok blocks : StronglySorted Z.le blocks.*1 -> Forall (fun o => 0 <= o) blocks.*1 ->
  bytes_ok (FilterBlock_Finish (run_blocks blocks)).
Proof.
  intros Hs Hp. destruct (made_run blocks Hs Hp) as (groups & pending & Hm & _). unfold FilterBlock_Finish.
  set (b := match _ with [] => _ | _ => _ end). assert (Hr : bytes_ok (fb_result b)).
  { unfold b. destruct (fb_start (run_blocks blocks)).
    - rewrite (ma_result _ _ _ Hm). apply filter_of_bytes.
    - rewrite (ma_result _ _ _ (made_Generate _ _ _ Hm)). apply filter_of_bytes. }
  repeat (apply Forall_app; split); [done|apply fixed32s_bytes|apply le_bytes_ok|]. by apply list.Forall_singleton.
Qed.
End FilterBlock.
