(* ===== verification/LdbFormat.v ===== *)
(** * leveldb: the format of tables

    src/ext/leveldb/table/format.cc: block handles, the footer of a table, and reading a
    block with its type and checksum; the part of table/table_builder.cc that writes a
    block ([WriteBlock], [WriteRawBlock]); the files of util/env_posix.cc that a table is
    read from.  A block that was written is read back, whatever is appended to the file
    later.  Compression is an interface, [Compression]; the port without Snappy
    (port/port_posix.h) is an instance. *)

From Stdlib Require Import ZArith Lia.
From stdpp Require Import base list numbers option.
From S2P Require Import Prelude ByteOrder WebappStr Session LdbCoding LdbCrc LdbLog LdbMem.
Open Scope Z_scope.
Open Scope webapp_scope.

(** ** Handles and the footer *)

Record BlockHandle := mkHandle { offset_ : Z; bh_size : Z }.
Definition kMaxEncodedLength : Z := 10 + 10.
Definition kEncodedLength : Z := 2 * kMaxEncodedLength + 8.
Definition kTableMagicNumber : Z := 0xdb4775248b80fb57.
Definition kBlockTrailerSize : Z := 5.

Definition Handle_EncodeTo (h : BlockHandle) : list Z := EncodeVarint64 (offset_ h) ++ EncodeVarint64 (bh_size h).
Definition Handle_DecodeFrom (input : list Z) : option (BlockHandle * list Z) :=
  match GetVarint64 input with
  | Some (offset, input) =>
      match GetVarint64 input with
      | Some (size, input) => Some (mkHandle offset size, input)
      | None => None
      end
  | None => None
  end.

Record Footer := mkFooter { metaindex_handle_ : BlockHandle; index_handle_ : BlockHandle }.

(** [std::string::resize]. *)
Definition resize (n : nat) (l : list Z) : list Z := take n l ++ replicate (n - length l) 0.

Definition Footer_EncodeTo (f : Footer) : list Z :=
  let dst := resize (Z.to_nat (2 * kMaxEncodedLength)) (Handle_EncodeTo (metaindex_handle_ f) ++ Handle_EncodeTo (index_handle_ f)) in
  PutFixed32 (PutFixed32 dst (u32 (Z.land kTableMagicNumber 0xffffffff))) (u32 (Z.shiftr kTableMagicNumber 32)).

Definition Footer_DecodeFrom (input : list Z) : option Footer :=
  let magic_ptr := drop (Z.to_nat (kEncodedLength - 8)) input in
  match DecodeFixed32 magic_ptr, DecodeFixed32 (drop 4 magic_ptr) with
  | Some magic_lo, Some magic_hi =>
      let magic := Z.lor (u64 (Z.shiftl magic_hi 32)) magic_lo in
      if magic =? kTableMagicNumber then
        match Handle_DecodeFrom input with
        | Some (metaindex_handle, input) =>
            match Handle_DecodeFrom input with
            | Some (index_handle, _) => Some (mkFooter metaindex_handle index_handle)
            | None => None
            end
        | None => None
        end
      else None
  | _, _ => None
  end.

(** ** Compression *)

Definition kNoCompression : Z := 0.
Definition kSnappyCompression : Z := 1.

(** What port/port.h promises of [Snappy_Compress], [Snappy_GetUncompressedLength] and
    [Snappy_Uncompress]. *)
Class Compression := {
  Snappy_Compress : list Z -> option (list Z);
  Snappy_GetUncompressedLength : list Z -> option Z;
  Snappy_Uncompress : list Z -> option (list Z);
  Snappy_bytes : forall raw c, bytes_ok raw -> Snappy_Compress raw = Some c -> bytes_ok c;
  Snappy_roundtrip : forall raw c, bytes_ok raw -> lenZ raw < 2 ^ 32 -> Snappy_Compress raw = Some c ->
    Snappy_GetUncompressedLength c = Some (lenZ raw) /\ Snappy_Uncompress c = Some raw }.

(** The port built without Snappy. *)
#[export] Program Instance no_snappy : Compression := {
  Snappy_Compress _ := None;
  Snappy_GetUncompressedLength _ := None;
  Snappy_Uncompress _ := None }.
Next Obligation. done. Qed.
Next Obligation. done. Qed.

(** ** Files *)

(** An open [RandomAccessFile]: [Read(offset, n)], [None] for an error status. *)
Definition RandomAccessFile : Type := Z -> Z -> option (list Z).

(** [PosixMmapReadableFile::Read], of a file with these contents. *)
Definition Mmap_Read (contents : list Z) : RandomAccessFile := fun offset n =>
  if lenZ contents <? u64 (offset + n) then None else Some (take (Z.to_nat n) (drop (Z.to_nat offset) contents)).

(** The file holds these bytes, and reading them does not fail. *)
Definition holds (file : RandomAccessFile) (contents : list Z) : Prop :=
  forall offset n, 0 <= offset -> 0 <= n -> offset + n <= lenZ contents ->
  file offset n = Some (take (Z.to_nat n) (drop (Z.to_nat offset) contents)).

(** A [WritableFile] with bytes in it; [Append] says whether it has worked. *)
Class WritableFile := {
  WFile : Type;
  file_contents : WFile -> list Z;
  Append : WFile -> list Z -> bool * WFile;
  Append_ok : forall f data f', Append f data = (true, f') -> file_contents f' = file_contents f ++ data }.

(** A file that never fails. *)
Program Definition memory_file : WritableFile := {|
  WFile := list Z;
  file_contents := id;
  Append f data := (true, f ++ data) |}.
Next Obligation. by intros f data f' [= <-]. Qed.

(** ** Writing and reading a block *)

Section Blocks.
Context `{!Compression}.

(** The type byte and the checksum; [ptr] is the address of the contents. *)
Definition block_trailer (ptr type : Z) (contents : list Z) : list Z :=
  let crc := Value ptr contents in
  let crc := Extend 0 crc [type] in
  type :: EncodeFixed32 (Mask crc).

(** What [WriteBlock] writes for a finished block. *)
Definition choose_contents (snappy : bool) (raw : list Z) : list Z * Z :=
  if snappy then
    match Snappy_Compress raw with
    | Some compressed =>
        if lenZ compressed <? lenZ raw - lenZ raw / 8 then (compressed, kSnappyCompression) else (raw, kNoCompression)
    | None => (raw, kNoCompression)
    end
  else (raw, kNoCompression).

(** With a size near 2^64 [n + kBlockTrailerSize] wraps and the type would be read outside
    the buffer: [None]. *)
Definition ReadBlock (file : RandomAccessFile) (verify_checksums : bool) (ptr : Z) (handle : BlockHandle) : option (list Z) :=
  let n := bh_size handle in
  match file (offset_ handle) (u64 (n + kBlockTrailerSize)) with
  | None => None
  | Some contents =>
      if negb (lenZ contents =? u64 (n + kBlockTrailerSize)) then None
      else
        let sum_ok :=
          match DecodeFixed32 (drop (Z.to_nat (n + 1)) contents) with
          | Some masked => Value ptr (take (Z.to_nat (n + 1)) contents) =? Unmask masked
          | None => false
          end in
        if verify_checksums && negb sum_ok then None
        else
          let data := take (Z.to_nat n) contents in
          match contents !! Z.to_nat n with
          | None => None
          | Some type =>
              if type =? kNoCompression then Some data
              else if type =? kSnappyCompression then
                match Snappy_GetUncompressedLength data with
                | None => None
                | Some ulength =>
                    match Snappy_Uncompress data with
                    | None => None
                    | Some ubuf => Some (take (Z.to_nat ulength) ubuf)
                    end
                end
              else None
          end
  end.

(** ** What was written is read *)

Definition handle_ok (h : BlockHandle) : Prop := 0 <= offset_ h < 2 ^ 64 /\ 0 <= bh_size h < 2 ^ 64.

Lemma Handle_roundtrip h rest : handle_ok h -> Handle_DecodeFrom (Handle_EncodeTo h ++ rest) = Some (h, rest).
Proof.
  intros [Ho Hs]. unfold Handle_DecodeFrom, Handle_EncodeTo. rewrite <- app_assoc. rewrite !GetVarint64_Encode by done.
  by destruct h.
Qed.

Lemma length_Handle h : lenZ (Handle_EncodeTo h) <= 20.
Proof. unfold Handle_EncodeTo. rewrite length_app. pose proof (length_varint64 (offset_ h)). pose proof (length_varint64 (bh_size h)). lia. Qed.

Lemma Handle_bytes h : bytes_ok (Handle_EncodeTo h).
Proof. apply Forall_app. split; apply varint_loop_ok. Qed.

(** The footer is read back. *)
Lemma Footer_roundtrip f : handle_ok (metaindex_handle_ f) -> handle_ok (index_handle_ f) ->
  lenZ (Footer_EncodeTo f) = kEncodedLength /\ Footer_DecodeFrom (Footer_EncodeTo f) = Some f.
Proof.
  intros Hm Hi. unfold Footer_EncodeTo, PutFixed32. set (HB := Handle_EncodeTo (metaindex_handle_ f) ++ Handle_EncodeTo (index_handle_ f)).
  assert (HH : (length HB <= 40)%nat). { unfold HB. rewrite length_app. pose proof (length_Handle (metaindex_handle_ f)). pose proof (length_Handle (index_handle_ f)). lia. }
  change (Z.to_nat (2 * kMaxEncodedLength)) with 40%nat. set (D := resize 40 HB).
  assert (HD : length D = 40%nat) by (unfold D, resize; rewrite length_app, length_take, length_replicate; lia).
  set (lo := u32 (Z.land kTableMagicNumber 0xffffffff)). set (hi := u32 (Z.shiftr kTableMagicNumber 32)).
  assert (Hlen : forall v, length (EncodeFixed32 v) = 4%nat) by (intros; apply length_le_bytes). split.
  { rewrite !length_app, !Hlen, HD. done. }
  unfold Footer_DecodeFrom. change (Z.to_nat (kEncodedLength - 8)) with 40%nat. rewrite <- app_assoc, <- HD, drop_app_length.
  rewrite DecodeFixed32_Encode by (unfold lo; apply (uwrap_range 32); lia). rewrite <- (Hlen lo), drop_app_length.
  rewrite <- (app_nil_r (EncodeFixed32 hi)), DecodeFixed32_Encode by (unfold hi; apply (uwrap_range 32); lia).
  change (Z.lor (u64 (Z.shiftl hi 32)) lo =? kTableMagicNumber) with true. cbv iota.
  unfold D, resize. rewrite take_ge by lia. unfold HB at 1. rewrite <- !app_assoc. rewrite Handle_roundtrip, Handle_roundtrip by done. by destruct f.
Qed.

(** A block with contents of some type stands in the file at a handle, and [raw] is in it. *)
Definition stored (F : list Z) (h : BlockHandle) (raw : list Z) : Prop :=
  exists pre contents type ptr post,
    F = pre ++ contents ++ block_trailer ptr type contents ++ post /\ offset_ h = lenZ pre /\ bh_size h = lenZ contents
    /\ bytes_ok contents /\ ((type = kNoCompression /\ contents = raw)
        \/ (type = kSnappyCompression /\ Snappy_GetUncompressedLength contents = Some (lenZ raw) /\ Snappy_Uncompress contents = Some raw)).

Lemma stored_app F tl h raw : stored F h raw -> stored (F ++ tl) h raw.
Proof.
  intros (pre & c & ty & ptr & post & -> & Hst). exists pre, c, ty, ptr, (post ++ tl). split; [|done]. by rewrite <- !app_assoc.
Qed.

Lemma length_trailer ptr ty c : length (block_trailer ptr ty c) = 5%nat.
Proof. unfold block_trailer. cbn [length]. unfold EncodeFixed32. by rewrite length_le_bytes. Qed.

Lemma stored_handle F h raw : stored F h raw -> 0 <= offset_ h /\ 0 <= bh_size h /\ offset_ h + bh_size h + 5 <= lenZ F.
Proof.
  intros (pre & c & ty & ptr & post & -> & -> & -> & _). rewrite !length_app, length_trailer. lia.
Qed.

(** The checksum of the contents and the type. *)
Lemma trailer_crc ptr ptr' ty c : bytes_ok c -> is_byte ty ->
  0 <= Mask (Extend 0 (Value ptr c) [ty]) < 2 ^ 32 /\ Unmask (Mask (Extend 0 (Value ptr c) [ty])) = Value ptr' (c ++ [ty]).
Proof.
  intros Hc Ht. assert (Hct : bytes_ok (c ++ [ty])) by (apply Forall_app; split; [done|by apply list.Forall_singleton]).
  split; [apply (uwrap_range 32); lia|]. unfold Value. rewrite !Extend_bits; [|lia|done|lia|done| |by apply list.Forall_singleton].
  - rewrite crc_bits_app. apply Unmask_Mask. apply crc_bits_bound; [lia|done].
  - rewrite Extend_bits by (done || lia). apply crc_bits_bound; [lia|done].
Qed.

(** A stored block is read, with or without its checksum. *)
Lemma ReadBlock_stored file F verify ptr h raw : holds file F -> lenZ F < 2 ^ 64 -> stored F h raw -> ReadBlock file verify ptr h = Some raw.
Proof.
  intros Hf HF Hst. destruct (stored_handle _ _ _ Hst) as (H0 & H1 & H2). destruct Hst as (pre & c & ty & p & post & E & Ho & Hs & Hb & Hcase).
  unfold ReadBlock, kBlockTrailerSize. rewrite uwrap_small by lia. rewrite Hf by lia. rewrite Hs, Ho in *.
  assert (Hc : take (Z.to_nat (lenZ c + 5)) (drop (Z.to_nat (lenZ pre)) F) = c ++ block_trailer p ty c).
  { rewrite E, Nat2Z.id, drop_app_length, app_assoc. apply take_app_length'. rewrite length_app, length_trailer. lia. }
  rewrite Hc. assert (Hl : lenZ (c ++ block_trailer p ty c) = lenZ c + 5) by (rewrite length_app, length_trailer; lia).
  rewrite Hl, Z.eqb_refl. cbn [negb]. assert (Hty : is_byte ty) by (unfold is_byte; destruct Hcase as [[-> _]|[-> _]]; vm_compute; split; congruence).
  destruct (trailer_crc p ptr ty c Hb Hty) as [Hr Hu].
  assert (Hd : forall X, drop (Z.to_nat (lenZ c + 1)) (c ++ ty :: X) = X).
  { intros X. rewrite cons_middle, app_assoc. apply drop_app_length'. rewrite length_app. simpl. lia. }
  assert (Ht : forall X, take (Z.to_nat (lenZ c + 1)) (c ++ ty :: X) = c ++ [ty]).
  { intros X. rewrite cons_middle, app_assoc. apply take_app_length'. rewrite length_app. simpl. lia. }
  unfold block_trailer. rewrite Hd, Ht, <- (app_nil_r (EncodeFixed32 _)), DecodeFixed32_Encode by done. rewrite Hu, Z.eqb_refl, andb_false_r.
  rewrite Nat2Z.id, take_app_length, list_lookup_middle by done. destruct Hcase as [[-> ->]|(-> & H3 & H4)]; [done|].
  change (kSnappyCompression =? kNoCompression) with false. rewrite Z.eqb_refl, H3, H4. f_equal. apply take_ge. lia.
Qed.

(** What [WriteBlock] writes for [raw] is stored. *)
Lemma choose_stored snappy raw F ptr : bytes_ok raw -> lenZ raw < 2 ^ 32 ->
  let '(contents, type) := choose_contents snappy raw in
  stored (F ++ contents ++ block_trailer ptr type contents) (mkHandle (lenZ F) (lenZ contents)) raw /\ lenZ contents <= lenZ raw.
Proof.
  intros Hb Hl. assert (Hraw : stored (F ++ raw ++ block_trailer ptr kNoCompression raw) (mkHandle (lenZ F) (lenZ raw)) raw).
  { exists F, raw, kNoCompression, ptr, []. rewrite app_nil_r. split_and!; [done..|by left]. }
  unfold choose_contents. destruct snappy; [|done]. destruct (Snappy_Compress raw) as [c|] eqn:Ec; [|done].
  destruct (Z.ltb_spec (lenZ c) (lenZ raw - lenZ raw / 8)) as [Hlt|]; [|done]. split.
  - exists F, c, kSnappyCompression, ptr, []. rewrite app_nil_r. split_and!; [done..|by apply (Snappy_bytes raw)|right]. split; [done|].
    by apply Snappy_roundtrip.
  - pose proof (Z.div_pos (lenZ raw) 8 ltac:(lia) ltac:(lia)). lia.
Qed.
End Blocks.

Lemma Mmap_holds contents : lenZ contents < 2 ^ 64 -> holds (Mmap_Read contents) contents.
Proof.
  intros Hl offset n Ho Hn Hle. unfold Mmap_Read. rewrite uwrap_small by lia. by rewrite (proj2 (Z.ltb_ge _ _)) by lia.
Qed.

(** The end of the range in [PosixMmapReadableFile::Read] wraps: a handle of a damaged
    table with an offset near 2^64 passes the test of the length. *)
Lemma Mmap_Read_wraps contents n : 0 < n < 2 ^ 64 -> Mmap_Read contents (2 ^ 64 - n) n <> None.
Proof.
  intros Hn. unfold Mmap_Read. replace (2 ^ 64 - n + n) with (2 ^ 64) by lia. change (u64 (2 ^ 64)) with 0.
  by rewrite (proj2 (Z.ltb_ge _ _)) by lia.
Qed.
