(* ===== verification/LdbTable.v ===== *)
(** * leveldb: tables

    src/ext/leveldb/table/table_builder.cc and table/table.cc: a table file is built from
    entries in the order of their keys, as data blocks, a block of filters, a block that
    names the filters, an index of the data blocks and a footer; and it is opened, ranged
    over and searched.  What is built is what is read: the iterator of the opened table
    obeys the interface of [LdbIter] and ranges over the entries that were added, and a
    search finds the entry for its key, with or without filters. *)

From Stdlib Require Import ZArith Lia.
From stdpp Require Import base list numbers option sorting.
From S2P Require Import Prelude ByteOrder WebappStr Session LdbCoding LdbMem LdbIter LdbBlock LdbSep LdbTwoLevel LdbFilter LdbFormat.
Open Scope Z_scope.
Open Scope webapp_scope.

Record Options := mkOptions {
  block_size : Z;
  block_restart_interval : Z;
  snappy : bool;
  filter_policy : option FilterPolicy }.

(** "filter." and the name of the policy. *)
Definition filter_key (p : FilterPolicy) : list Z := [102; 105; 108; 116; 101; 114; 46] ++ filter_Name.

Section Table.
Context `{KO : !KeyOrder, SP : !Separator, CM : !Compression, WF : !WritableFile}.
(** Where the bytes of the block at an offset of the file are in memory. *)
Context (address : Z -> Z).
Context (opt : Options).

(** ** Building *)

(** [TableBuilder::Rep]. *)
Record TableBuilder := mkTableBuilder {
  tb_file : WFile;
  tb_offset : Z;
  tb_status : bool;
  data_block : BlockBuilder;
  index_block : BlockBuilder;
  last_key : list Z;
  num_entries : Z;
  closed : bool;
  filter_block : option FilterBlockBuilder;
  pending_index_entry : bool;
  pending_handle : BlockHandle }.

Definition no_handle : BlockHandle := mkHandle (2 ^ 64 - 1) (2 ^ 64 - 1).

Definition TableBuilder_new (file : WFile) : TableBuilder :=
  mkTableBuilder file 0 true Builder_new Builder_new [] 0 false
    (match filter_policy opt with Some p => Some (StartBlock FilterBlockBuilder_new 0) | None => None end) false no_handle.

Definition set_file (t : TableBuilder) (file : WFile) (status : bool) (offset : Z) : TableBuilder :=
  mkTableBuilder file offset status (data_block t) (index_block t) (last_key t) (num_entries t) (closed t) (filter_block t)
    (pending_index_entry t) (pending_handle t).

Definition WriteRawBlock (t : TableBuilder) (contents : list Z) (type : Z) : TableBuilder * BlockHandle :=
  let handle := mkHandle (tb_offset t) (lenZ contents) in
  match Append (tb_file t) contents with
  | (true, file) =>
      match Append file (block_trailer (address (tb_offset t)) type contents) with
      | (true, file) => (set_file t file true (u64 (tb_offset t + (lenZ contents + kBlockTrailerSize))), handle)
      | (false, file) => (set_file t file false (tb_offset t), handle)
      end
  | (false, file) => (set_file t file false (tb_offset t), handle)
  end.

(** The caller resets the block. *)
Definition WriteBlock (t : TableBuilder) (block : BlockBuilder) : TableBuilder * BlockHandle :=
  let raw := Builder_Finish block in
  let '(block_contents, type) := choose_contents (snappy opt) raw in
  WriteRawBlock t block_contents type.

Definition Flush (t : TableBuilder) : TableBuilder :=
  if negb (tb_status t) then t
  else if match buffer_ (data_block t) with [] => true | _ => false end then t
  else
    let '(t, handle) := WriteBlock t (data_block t) in
    mkTableBuilder (tb_file t) (tb_offset t) (tb_status t) Builder_new (index_block t) (last_key t) (num_entries t) (closed t)
      (match filter_policy opt, filter_block t with
       | Some p, Some b => Some (StartBlock b (tb_offset t))
       | _, b => b
       end)
      (if tb_status t then true else pending_index_entry t) handle.

(** The index entry of the block before, under a key. *)
Definition add_index (t : TableBuilder) (key : list Z) : TableBuilder :=
  mkTableBuilder (tb_file t) (tb_offset t) (tb_status t) (data_block t)
    (Builder_Add 1 (index_block t) key (Handle_EncodeTo (pending_handle t)))
    key (num_entries t) (closed t) (filter_block t) false (pending_handle t).

Definition TableBuilder_Add (t : TableBuilder) (key value : list Z) : TableBuilder :=
  if negb (tb_status t) then t
  else
    let t := if pending_index_entry t then add_index t (separator (last_key t) key) else t in
    let t := mkTableBuilder (tb_file t) (tb_offset t) (tb_status t)
      (Builder_Add (block_restart_interval opt) (data_block t) key value) (index_block t) key (num_entries t + 1) (closed t)
      (match filter_block t with Some b => Some (AddKey b key) | None => None end) (pending_index_entry t) (pending_handle t) in
    if block_size opt <=? CurrentSizeEstimate (data_block t) then Flush t else t.

Definition close (t : TableBuilder) : TableBuilder :=
  mkTableBuilder (tb_file t) (tb_offset t) (tb_status t) (data_block t) (index_block t) (last_key t) (num_entries t) true
    (filter_block t) (pending_index_entry t) (pending_handle t).

(** The steps of [Finish] behind the data blocks, each only while all is well. *)
Definition write_filter (t : TableBuilder) : TableBuilder * BlockHandle :=
  match filter_policy opt, filter_block t with
  | Some p, Some b => if tb_status t then WriteRawBlock t (FilterBlock_Finish b) kNoCompression else (t, no_handle)
  | _, _ => (t, no_handle)
  end.
Definition write_metaindex (t : TableBuilder) (filter_block_handle : BlockHandle) : TableBuilder * BlockHandle :=
  if tb_status t then
    let meta_index_block :=
      match filter_policy opt, filter_block t with
      | Some p, Some _ => Builder_Add (block_restart_interval opt) Builder_new (filter_key p) (Handle_EncodeTo filter_block_handle)
      | _, _ => Builder_new
      end in
    WriteBlock t meta_index_block
  else (t, no_handle).
Definition write_index (t : TableBuilder) : TableBuilder * BlockHandle :=
  if tb_status t then
    let t := if pending_index_entry t then add_index t (successor (last_key t)) else t in
    WriteBlock t (index_block t)
  else (t, no_handle).
Definition write_footer (t : TableBuilder) (footer : Footer) : TableBuilder :=
  if tb_status t then
    let footer_encoding := Footer_EncodeTo footer in
    match Append (tb_file t) footer_encoding with
    | (true, file) => set_file t file true (u64 (tb_offset t + lenZ footer_encoding))
    | (false, file) => set_file t file false (tb_offset t)
    end
  else t.

Definition TableBuilder_Finish (t : TableBuilder) : TableBuilder :=
  let t := close (Flush t) in
  let '(t, filter_block_handle) := write_filter t in
  let '(t, metaindex_block_handle) := write_metaindex t filter_block_handle in
  let '(t, index_block_handle) := write_index t in
  write_footer t (mkFooter metaindex_block_handle index_block_handle).

(** ** Reading *)

(** [Table::Rep]. *)
Record Table := mkTable {
  t_file : RandomAccessFile;
  metaindex_handle : BlockHandle;
  t_index_block : Block;
  t_filter : option FilterBlockReader }.

Definition read_block (file : RandomAccessFile) (verify : bool) (h : BlockHandle) : option (list Z) :=
  ReadBlock file verify (address (offset_ h)) h.

Definition ReadFilter (t : Table) (filter_handle_value : list Z) : Table :=
  match Handle_DecodeFrom filter_handle_value with
  | None => t
  | Some (filter_handle, _) =>
      match read_block (t_file t) false filter_handle with
      | None => t
      | Some block => mkTable (t_file t) (metaindex_handle t) (t_index_block t) (Some (FilterBlockReader_new block))
      end
  end.

(** The metaindex block is searched with the bytewise comparator. *)
Definition ReadMeta (t : Table) (footer : Footer) : Table :=
  match filter_policy opt with
  | None => t
  | Some p =>
      match read_block (t_file t) false (metaindex_handle_ footer) with
      | None => t
      | Some contents =>
          let key := filter_key p in
          let iter := or_map (fun it => block_Seek (H := user_order) it key) (Block_NewIterator (Block_new contents)) in
          match or_case (fun _ => None) block_cur iter with
          | Some (k, value) => match Slice_compare k key with Eq => ReadFilter t value | _ => t end
          | None => t
          end
      end
  end.

(** [Table::Open]; [None]: an error status and no table. *)
Definition Table_Open (file : RandomAccessFile) (size : Z) : option Table :=
  if size <? kEncodedLength then None
  else
    match file (size - kEncodedLength) kEncodedLength with
    | None => None
    | Some footer_input =>
        match Footer_DecodeFrom footer_input with
        | None => None
        | Some footer =>
            match read_block file false (index_handle_ footer) with
            | None => None
            | Some contents => Some (ReadMeta (mkTable file (metaindex_handle_ footer) (Block_new contents) None) footer)
            end
        end
    end.

(** [Table::BlockReader], without a block cache. *)
Definition BlockReader (t : Table) (verify : bool) (index_value : list Z) : or_empty BlockIter :=
  match Handle_DecodeFrom index_value with
  | None => EmptyIterator false
  | Some (handle, _) =>
      match read_block (t_file t) verify handle with
      | None => EmptyIterator false
      | Some contents => Block_NewIterator (Block_new contents)
      end
  end.

Definition Table_NewIterator (t : Table) : TwoLevelIterator (or_empty BlockIter) (or_empty BlockIter) :=
  NewTwoLevelIterator (Block_NewIterator (t_index_block t)).

(** [Table::InternalGet]: the entry that the saver gets, and whether the status is ok. *)
Definition InternalGet (t : Table) (verify : bool) (k : list Z) : option entry * bool :=
  let iiter := Seek (Block_NewIterator (t_index_block t)) k in
  match cur iiter with
  | None => (None, status iiter)
  | Some (_, handle_value) =>
      let absent :=
        match filter_policy opt, t_filter t with
        | Some p, Some filter =>
            match Handle_DecodeFrom handle_value with
            | Some (handle, _) => negb (filter_KeyMayMatch filter (offset_ handle) k)
            | None => false
            end
        | _, _ => false
        end in
      if absent then (None, status iiter)
      else
        let block_iter := Seek (BlockReader t verify handle_value) k in
        (cur block_iter, if status block_iter then status iiter else false)
  end.

Definition ApproximateOffsetOf (t : Table) (key : list Z) : Z :=
  match cur (Seek (Block_NewIterator (t_index_block t)) key) with
  | Some (_, value) =>
      match Handle_DecodeFrom value with
      | Some (handle, _) => offset_ handle
      | None => offset_ (metaindex_handle t)
      end
  | None => offset_ (metaindex_handle t)
  end.

(** ** Blocks in the file *)

#[local] Abbreviation contents_of t := (file_contents (tb_file t)).

(** What does not concern the file. *)
Definition same_rest (t t' : TableBuilder) : Prop :=
  data_block t' = data_block t /\ index_block t' = index_block t /\ last_key t' = last_key t
  /\ filter_block t' = filter_block t /\ pending_index_entry t' = pending_index_entry t /\ pending_handle t' = pending_handle t.

Lemma WriteRawBlock_ok t c ty t' h : WriteRawBlock t c ty = (t', h) -> tb_status t' = true ->
  tb_offset t = lenZ (contents_of t) -> lenZ (contents_of t) + lenZ c + 5 < 2 ^ 64 ->
  contents_of t' = contents_of t ++ c ++ block_trailer (address (tb_offset t)) ty c /\ tb_offset t' = lenZ (contents_of t')
  /\ h = mkHandle (lenZ (contents_of t)) (lenZ c) /\ same_rest t t'.
Proof.
  unfold WriteRawBlock. intros E Hst Ho Hl. destruct (Append (tb_file t) c) as [[|] f1] eqn:E1; [|by simplify_eq].
  destruct (Append f1 _) as [[|] f2] eqn:E2; [|by simplify_eq]. injection E as <- <-.
  apply Append_ok in E1, E2. unfold same_rest. simpl. rewrite E2, E1, <- app_assoc, Ho. split_and!; [done| |done..].
  rewrite !length_app, length_trailer. unfold kBlockTrailerSize. rewrite uwrap_small; lia.
Qed.

Lemma WriteBlock_ok t block t' h : WriteBlock t block = (t', h) -> tb_status t' = true -> tb_offset t = lenZ (contents_of t) ->
  let raw := Builder_Finish block in bytes_ok raw -> lenZ raw < 2 ^ 32 -> lenZ (contents_of t) + lenZ raw + 5 < 2 ^ 64 ->
  stored (contents_of t') h raw /\ tb_offset t' = lenZ (contents_of t') /\ (exists tl, contents_of t' = contents_of t ++ tl /\ lenZ tl <= lenZ raw + 5)
  /\ offset_ h = lenZ (contents_of t) /\ same_rest t t'.
Proof.
  intros E Hst Ho raw Hb Hr Hl. unfold WriteBlock in E. fold raw in E.
  pose proof (choose_stored (snappy opt) raw (contents_of t) (address (tb_offset t)) Hb Hr) as Hc. destruct (choose_contents (snappy opt) raw) as [c ty].
  destruct Hc as [Hs Hle]. destruct (WriteRawBlock_ok t c ty t' h E Hst Ho ltac:(lia)) as (E1 & H2 & -> & H4). rewrite <- E1 in Hs.
  split_and!; [done..| |done|done]. exists (c ++ block_trailer (address (tb_offset t)) ty c). split; [done|]. rewrite length_app, length_trailer. lia.
Qed.

(** Without a bound on the size: the file is longer by the block. *)
Lemma WriteRawBlock_contents t c ty t' h : WriteRawBlock t c ty = (t', h) -> tb_status t' = true ->
  contents_of t' = contents_of t ++ c ++ block_trailer (address (tb_offset t)) ty c /\ same_rest t t'.
Proof.
  unfold WriteRawBlock. intros E Hst. destruct (Append (tb_file t) c) as [[|] f1] eqn:E1; [|by simplify_eq].
  destruct (Append f1 _) as [[|] f2] eqn:E2; [|by simplify_eq]. injection E as <- <-.
  apply Append_ok in E1, E2. unfold same_rest. simpl. by rewrite E2, E1, <- app_assoc.
Qed.

(** ** The invariant of the builder *)

(** A data block with an index entry. *)
Record dblock := mkDBlock { d_key : list Z; d_handle : BlockHandle; d_es : list entry }.
Definition index_entry (d : dblock) : entry := (d_key d, Handle_EncodeTo (d_handle d)).
Definition raw_of (es : list entry) : list Z := Builder_Finish (add_all (block_restart_interval opt) es).
Definition all_es (L : list dblock) : list entry := mjoin (d_es <$> L).

(** The blocks that the filters are told of: those in the file and the one being built. *)
Definition filter_blocks (t : TableBuilder) (L : list dblock) (pend now : list entry) : list (Z * list (list Z)) :=
  ((fun d => (offset_ (d_handle d), (d_es d).*1)) <$> L)
  ++ (if pending_index_entry t then [(offset_ (pending_handle t), pend.*1)] else []) ++ [(tb_offset t, now.*1)].

(** The keys of the index stand between the blocks: not below those of their block and
    below all that comes behind. *)
Record indexed (L : list dblock) (rest : list entry) : Prop := mkIndexed {
  ix_key : forall d, d ∈ L -> dom (d_key d) /\ d_es d <> [] /\ lenZ (d_key d) <= load (d_es d) - 64;
  ix_above : forall d e, d ∈ L -> e ∈ d_es d -> cmp e.1 (d_key d) <> Gt;
  ix_below : forall i d e, L !! i = Some d -> e ∈ all_es (drop (S i) L) ++ rest -> cmp (d_key d) e.1 = Lt;
  ix_sep : forall i d e, L !! i = Some d -> e ∈ all_es (drop (S i) L) ++ rest ->
    exists a b, a ∈ d_es d /\ dom a.1 /\ dom b /\ cmp a.1 b = Lt /\ d_key d = separator a.1 b /\ cmp b e.1 <> Gt }.

(** [es] so far: the indexed blocks [L], the block [pend] that waits for its index entry,
    and the entries [now] of the block being built. *)
Record built_to (t : TableBuilder) (es : list entry) (L : list dblock) (pend now : list entry) : Prop := mkBuiltTo {
  bt_es : es = all_es L ++ pend ++ now;
  bt_status : tb_status t = true;
  bt_offset : tb_offset t = lenZ (contents_of t);
  bt_size : lenZ (contents_of t) <= load (all_es L ++ pend);
  bt_data : data_block t = add_all (block_restart_interval opt) now;
  bt_index : index_block t = add_all 1 (index_entry <$> L);
  bt_stored : forall d, d ∈ L -> stored (contents_of t) (d_handle d) (raw_of (d_es d));
  bt_pending : if pending_index_entry t then pend <> [] /\ now = [] /\ stored (contents_of t) (pending_handle t) (raw_of pend) else pend = [];
  bt_last : forall e, list.last es = Some e -> last_key t = e.1;
  bt_indexed : indexed L (pend ++ now);
  bt_start : pend ++ now = [] -> L = [];
  bt_filter : filter_block t = match filter_policy opt with Some p => Some (run_blocks (filter_blocks t L pend now)) | None => None end;
  bt_offsets : StronglySorted Z.le (filter_blocks t L pend now).*1 /\ Forall (fun o => 0 <= o <= tb_offset t) (filter_blocks t L pend now).*1 }.

Lemma built_new f : file_contents f = [] -> built_to (TableBuilder_new f) [] [] [] [].
Proof.
  intros Hf. split; simpl; try done.
  - by rewrite Hf.
  - by rewrite Hf.
  - intros d Hd. by apply elem_of_nil in Hd.
  - split; [intros d Hd; by apply elem_of_nil in Hd|intros d e Hd; by apply elem_of_nil in Hd|done|done].
  - split; repeat constructor; lia.
Qed.

(** ** Adding entries *)

(** Entries that a table can hold. *)
Record entries_ok (es : list entry) : Prop := mkEntriesOk {
  eo_sorted : StronglySorted klt es;
  eo_dom : Forall dom es.*1;
  eo_values : Forall bytes_ok es.*2;
  eo_load : load es < 2 ^ 31 }.

Lemma entries_bytes es : entries_ok es -> Forall (fun e => bytes_ok e.1 /\ bytes_ok e.2) es.
Proof.
  intros He. apply List.Forall_forall. intros e Hin%list_elem_of_In. split.
  - apply dom_bytes. apply (Forall_elem _ _ _ (eo_dom _ He)). by apply list_elem_of_fmap_2.
  - apply (Forall_elem _ _ _ (eo_values _ He)). by apply list_elem_of_fmap_2.
Qed.

Lemma load_nonneg es : 0 <= load es.
Proof. pose proof (load_length es). lia. Qed.

Lemma entries_app a b : entries_ok (a ++ b) -> entries_ok a /\ entries_ok b.
Proof.
  intros [Hs Hd Hv Hl]. apply StronglySorted_app in Hs as (_ & H1 & H2). rewrite fmap_app, Forall_app in *. rewrite load_app in Hl.
  pose proof (load_nonneg a). pose proof (load_nonneg b). destruct Hd, Hv. split; (split; [done..|lia]).
Qed.

Lemma sorted_snoc (l : list Z) x : StronglySorted Z.le l -> Forall (fun y => y <= x) l -> StronglySorted Z.le (l ++ [x]).
Proof.
  intros Hs Hf. apply StronglySorted_app. split_and!; [|done|by repeat constructor].
  intros a b Ha ->%list_elem_of_singleton. by apply (Forall_elem _ _ _ Hf).
Qed.

Context (interval_ok : 1 <= block_restart_interval opt).

(** The block of some of the entries. *)
Lemma raw_ok es : entries_ok es -> bytes_ok (raw_of es) /\ lenZ (raw_of es) <= load es - 45 * lenZ es + 8 /\ lenZ (raw_of es) < 2 ^ 32
  /\ exists it, Block_NewIterator (Block_new (raw_of es)) = Iter it /\ iter_ok it /\ content it = es.
Proof.
  intros He. pose proof (length_block (block_restart_interval opt) es) as Hl. pose proof (eo_load _ He). unfold raw_of.
  split_and!; [by apply block_bytes, entries_bytes|done|lia|].
  destruct (block_roundtrip (block_restart_interval opt) es) as (it & H1 & H2 & H3 & _); [done|apply He..|lia|]. by exists it.
Qed.

Lemma Flush_built t es L pend now : built_to t es L pend now -> entries_ok es -> tb_status (Flush t) = true ->
  exists pend' now', built_to (Flush t) es L pend' now' /\ now' = [].
Proof.
  intros Hb He Hst. unfold Flush in *. rewrite (bt_status _ _ _ _ _ Hb) in *. cbn [negb] in *.
  destruct (buffer_ (data_block t)) as [|x buf] eqn:Ebuf.
  { rewrite (bt_data _ _ _ _ _ Hb) in Ebuf. apply add_all_nil in Ebuf as ->. by exists pend, []. }
  assert (Hnow : now <> []) by (intros ->; rewrite (bt_data _ _ _ _ _ Hb) in Ebuf; done).
  pose proof (bt_pending _ _ _ _ _ Hb) as Hp. destruct (pending_index_entry t) eqn:Epend; [by destruct Hp as (_ & ? & _)|]. subst pend.
  destruct (WriteBlock t (data_block t)) as [t1 h] eqn:Ew. cbn [tb_status] in Hst. rewrite (bt_data _ _ _ _ _ Hb) in Ew.
  rewrite (bt_es _ _ _ _ _ Hb) in He. destruct (entries_app _ _ He) as [HeL Hen]. destruct (raw_ok now Hen) as (Hrb & Hrl & Hr32 & _).
  pose proof (bt_size _ _ _ _ _ Hb) as Hsz. rewrite app_nil_r in Hsz. pose proof (eo_load _ He) as Hload. rewrite load_app in Hload. simpl app in Hload. pose proof (load_nonneg now).
  assert (Hlen : 1 <= lenZ now) by (destruct now; [done|simpl; lia]).
  destruct (WriteBlock_ok t _ t1 h Ew Hst (bt_offset _ _ _ _ _ Hb) Hrb Hr32) as (Hs & Ho & (tl & Etl & Htl) & Hoh & (R1 & R2 & R3 & R4 & R5 & R6)); [unfold raw_of in *; lia|].
  exists now, []. split; [|done]. split; simpl.
  - rewrite (bt_es _ _ _ _ _ Hb). by rewrite app_nil_r.
  - done.
  - done.
  - rewrite Etl, length_app, load_app. unfold raw_of in *. lia.
  - done.
  - rewrite R2. apply Hb.
  - intros d Hd. rewrite Etl. apply stored_app. by apply (bt_stored _ _ _ _ _ Hb).
  - rewrite Hst. done.
  - rewrite R3. apply Hb.
  - rewrite app_nil_r. apply Hb.
  - rewrite app_nil_r. by intros ->.
  - rewrite R4, (bt_filter _ _ _ _ _ Hb). destruct (filter_policy opt) as [p|]; [|done]. f_equal. unfold filter_blocks. simpl. rewrite Epend, Hst, Hoh, <- (bt_offset _ _ _ _ _ Hb).
    by rewrite app_nil_l, app_assoc, run_blocks_start.
  - destruct (bt_offsets _ _ _ _ _ Hb) as [Hso Hfo]. unfold filter_blocks in *. simpl in *. rewrite Epend in *. rewrite Hst, Hoh, <- (bt_offset _ _ _ _ _ Hb). simpl in *.
    rewrite cons_middle, app_assoc, fmap_app. assert (Hle : tb_offset t <= tb_offset t1) by (rewrite Ho, (bt_offset _ _ _ _ _ Hb), Etl, length_app; lia).
    rewrite !fmap_app in *. split.
    + apply sorted_snoc; [done|]. eapply Forall_impl; [exact Hfo|]. intros y Hy. simpl in *. lia.
    + apply Forall_app. split; [eapply Forall_impl; [exact Hfo|]; intros y Hy; simpl in *; lia|]. apply list.Forall_singleton. simpl. rewrite Ho. lia.
Qed.

Lemma entries_last es e : entries_ok (es ++ [e]) -> forall a, a ∈ es -> klt a e.
Proof. intros He a Ha. destruct (proj1 (StronglySorted_app _ _ _) (eo_sorted _ He)) as (Hc & _ & _). apply Hc; [done|by left]. Qed.

Lemma entries_elem es e : entries_ok es -> e ∈ es -> dom e.1.
Proof. intros He Hin. apply (Forall_elem _ _ _ (eo_dom _ He)). by apply list_elem_of_fmap_2. Qed.

Lemma cmp_le_trans a b c : dom a -> dom b -> dom c -> cmp a b <> Gt -> cmp b c <> Gt -> cmp a c <> Gt.
Proof.
  intros Ha Hb Hc H1 H2. destruct (cmp a b) eqn:E1; [apply cmp_eq in E1; [by subst|done..]| |done].
  destruct (cmp b c) eqn:E2; [apply cmp_eq in E2; [subst; by rewrite E1|done..]| |done]. by rewrite (cmp_trans a b c).
Qed.

Lemma cmp_le_flip a b : dom a -> dom b -> cmp a b <> Lt -> cmp b a <> Gt.
Proof. intros Ha Hb Hc. rewrite (cmp_antisym a b) by done. by destruct (cmp a b). Qed.

Lemma load_elem es e : e ∈ es -> lenZ e.1 <= load es - 64.
Proof.
  intros (l1 & l2 & ->)%list_elem_of_split. rewrite load_app. simpl. pose proof (load_nonneg l1). pose proof (load_nonneg l2). lia.
Qed.

Lemma all_es_app L L' : all_es (L ++ L') = all_es L ++ all_es L'.
Proof. unfold all_es. by rewrite fmap_app, join_app. Qed.

(** One more entry in the block being built. *)
Lemma indexed_more L rest e : indexed L rest -> (rest = [] -> L = []) -> entries_ok (all_es L ++ rest ++ [e]) -> indexed L (rest ++ [e]).
Proof.
  intros Hx Hne He. rewrite app_assoc in He.
  assert (Hr : forall i d, L !! i = Some d -> exists r, r ∈ rest /\ dom r.1 /\ cmp r.1 e.1 = Lt /\ dom e.1).
  { intros i d Hd. destruct rest as [|r rest]; [by rewrite (Hne eq_refl) in Hd|]. exists r. assert (Hr : r ∈ all_es L ++ r :: rest) by (apply elem_of_app; right; by left).
    split_and!; [by left|apply (entries_elem _ _ He), elem_of_app; by left|by apply (entries_last _ _ He)|apply (entries_elem _ _ He), elem_of_app; right; by left]. }
  split; [apply Hx..| |]; intros i d e' Hd; rewrite app_assoc; (intros [Hin|Hin]%elem_of_app; [first [by apply (ix_below _ _ Hx i)|by apply (ix_sep _ _ Hx i)]|]);
    apply list_elem_of_singleton in Hin as ->; destruct (Hr i d Hd) as (r & Hrr & Dr & Hre & De).
  - apply (cmp_trans _ r.1); [apply (ix_key _ _ Hx); by eapply list_elem_of_lookup_2|done..| |done]. apply (ix_below _ _ Hx i d r Hd), elem_of_app. by right.
  - destruct (ix_sep _ _ Hx i d r Hd) as (a & b & H1 & H2 & H3 & H4 & H5 & H6); [apply elem_of_app; by right|]. exists a, b. split_and!; [done..|].
    apply (cmp_le_trans _ r.1); [done..|]. by rewrite Hre.
Qed.

(** The index entry of the waiting block, between its last key and the next one. *)
Lemma indexed_snoc L pend a e h : indexed L pend -> list.last pend = Some a -> entries_ok (all_es L ++ pend ++ [e]) ->
  indexed (L ++ [mkDBlock (separator a.1 e.1) h pend]) [e].
Proof.
  intros Hx Ha He. assert (Hpa : a ∈ pend) by (by apply last_elem_of). assert (Hne : pend <> []) by (by intros ->).
  destruct (entries_app _ _ He) as [_ He2]. pose proof (entries_last _ _ He2 a Hpa) as Hae.
  assert (Da : dom a.1) by (apply (entries_elem _ _ He2), elem_of_app; by left). assert (De : dom e.1) by (apply (entries_elem _ _ He2), elem_of_app; right; by left).
  pose proof (separator_dom a.1 e.1 Da De Hae) as Ds. pose proof (separator_ge a.1 e.1 Da De Hae) as Hge. pose proof (separator_lt a.1 e.1 Da De Hae) as Hlt. split.
  - intros d [Hd|Hd]%elem_of_app; [by apply (ix_key _ _ Hx)|]. apply list_elem_of_singleton in Hd as ->. simpl. split_and!; [done..|].
    pose proof (separator_length a.1 e.1 Da De Hae). pose proof (load_elem pend a Hpa). lia.
  - intros d e' [Hd|Hd]%elem_of_app; [by apply (ix_above _ _ Hx)|]. apply list_elem_of_singleton in Hd as ->. simpl. intros He'.
    assert (De' : dom e'.1) by (apply (entries_elem _ _ He2), elem_of_app; by left).
    apply (cmp_le_trans _ a.1); [done..| |by apply cmp_le_flip]. apply last_Some in Ha as (l & ->). apply elem_of_app in He' as [He'|He'].
    + destruct (entries_app _ _ He2) as [He3 _]. pose proof (entries_last _ _ He3 e' He') as Hk. unfold klt in Hk. by rewrite Hk.
    + apply list_elem_of_singleton in He' as ->. by rewrite cmp_refl.
  - intros i d e' Hd Hin. apply lookup_snoc_Some in Hd as [[Hi Hd]|[-> <-]].
    + apply (ix_below _ _ (indexed_more L pend e Hx (fun E => match Hne E with end) He) i d e' Hd). revert Hin.
      rewrite drop_app_le by lia. rewrite all_es_app. change (all_es [mkDBlock _ h pend]) with (pend ++ []). by rewrite app_nil_r, <- app_assoc.
    + rewrite drop_ge in Hin by (rewrite length_app; simpl; lia). apply list_elem_of_singleton in Hin as ->. done.
  - intros i d e' Hd Hin. apply lookup_snoc_Some in Hd as [[Hi Hd]|[-> <-]].
    + apply (ix_sep _ _ (indexed_more L pend e Hx (fun E => match Hne E with end) He) i d e' Hd). revert Hin.
      rewrite drop_app_le by lia. rewrite all_es_app. change (all_es [mkDBlock _ h pend]) with (pend ++ []). by rewrite app_nil_r, <- app_assoc.
    + rewrite drop_ge in Hin by (rewrite length_app; simpl; lia). apply list_elem_of_singleton in Hin as ->. exists a, e.1. by rewrite cmp_refl.
Qed.

(** The state before a full block is written. *)
Definition add_entry (t : TableBuilder) (key value : list Z) : TableBuilder :=
  let t := if pending_index_entry t then add_index t (separator (last_key t) key) else t in
  mkTableBuilder (tb_file t) (tb_offset t) (tb_status t)
    (Builder_Add (block_restart_interval opt) (data_block t) key value) (index_block t) key (num_entries t + 1) (closed t)
    (match filter_block t with Some b => Some (AddKey b key) | None => None end) (pending_index_entry t) (pending_handle t).

Lemma add_all_snoc interval es e : add_all interval (es ++ [e]) = Builder_Add interval (add_all interval es) e.1 e.2.
Proof. unfold add_all. by rewrite foldl_snoc. Qed.

Lemma add_entry_built t es L pend now e : built_to t es L pend now -> entries_ok (es ++ [e]) ->
  exists L' now', built_to (add_entry t e.1 e.2) (es ++ [e]) L' [] now'.
Proof.
  intros Hb He. pose proof (bt_es _ _ _ _ _ Hb) as Ees. pose proof (bt_pending _ _ _ _ _ Hb) as Hp. pose proof (bt_filter _ _ _ _ _ Hb) as Hf.
  pose proof (bt_offsets _ _ _ _ _ Hb) as Ho. unfold add_entry. unfold filter_blocks in *. destruct (pending_index_entry t) eqn:Ep.
  - destruct Hp as (Hne & -> & Hst). destruct pend as [|a pend _] using rev_ind; [done|]. rewrite app_nil_r in Ees.
    assert (Hlast : last_key t = a.1) by (apply (bt_last _ _ _ _ _ Hb); by rewrite Ees, app_assoc, last_snoc).
    set (D := mkDBlock (separator a.1 e.1) (pending_handle t) (pend ++ [a])). exists (L ++ [D]), [e].
    assert (HD : all_es (L ++ [D]) = all_es L ++ pend ++ [a]) by (rewrite all_es_app; unfold all_es at 2; simpl; by rewrite app_nil_r).
    split; simpl; try apply Hb.
    + by rewrite HD, Ees.
    + rewrite HD, app_nil_r. apply Hb.
    + by rewrite (bt_data _ _ _ _ _ Hb).
    + rewrite fmap_app, Hlast, (bt_index _ _ _ _ _ Hb). simpl. by rewrite add_all_snoc.
    + intros d [Hd|Hd]%elem_of_app; [by apply (bt_stored _ _ _ _ _ Hb)|]. by apply list_elem_of_singleton in Hd as ->.
    + done.
    + intros e'. rewrite last_snoc. by intros [= <-].
    + apply indexed_snoc; [|by rewrite last_snoc|by rewrite app_assoc, <- Ees]. pose proof (bt_indexed _ _ _ _ _ Hb) as Hi. by rewrite app_nil_r in Hi.
    + done.
    + rewrite Hf. destruct (filter_policy opt) as [p|]; [|done]. f_equal. unfold filter_blocks. rewrite app_assoc, (fmap_app _ L [D]).
      exact (eq_sym (run_blocks_key (_ ++ [_]) _ [] _)).
    + unfold filter_blocks. rewrite (fmap_app _ L [D]), !(fmap_app fst) in *. simpl in *. by rewrite <- app_assoc.
  - subst pend. exists L, (now ++ [e]). split; simpl; try apply Hb.
    + by rewrite Ees, <- app_assoc.
    + by rewrite (bt_data _ _ _ _ _ Hb), add_all_snoc.
    + by rewrite Ep.
    + intros e'. rewrite last_snoc. by intros [= <-].
    + apply indexed_more; [apply Hb..|]. rewrite app_assoc. by rewrite Ees in He.
    + by intros [_ ?]%app_eq_nil.
    + rewrite Hf. destruct (filter_policy opt) as [p|]; [|done]. f_equal. unfold filter_blocks. simpl. by rewrite Ep, fmap_app, <- run_blocks_key.
    + unfold filter_blocks. simpl in *. rewrite Ep, !(fmap_app fst) in *. done.
Qed.

Lemma Flush_status t : tb_status (Flush t) = true -> tb_status t = true.
Proof. unfold Flush. destruct (tb_status t) eqn:E; [done|]. simpl. by rewrite E. Qed.

Lemma Add_built t es L pend now e : built_to t es L pend now -> entries_ok (es ++ [e]) -> tb_status (TableBuilder_Add t e.1 e.2) = true ->
  exists L' pend' now', built_to (TableBuilder_Add t e.1 e.2) (es ++ [e]) L' pend' now'.
Proof.
  intros Hb He Hst. destruct (add_entry_built t es L pend now e Hb He) as (L' & now' & Hb').
  unfold TableBuilder_Add in *. rewrite (bt_status _ _ _ _ _ Hb) in *. cbn [negb] in *. fold (add_entry t e.1 e.2) in *.
  destruct (block_size opt <=? _); [|by eauto]. destruct (Flush_built _ _ _ _ _ Hb' He Hst) as (pend' & now'' & Hb'' & _). eauto.
Qed.

Definition add_all_entries (t : TableBuilder) (es : list entry) : TableBuilder := foldl (fun t e => TableBuilder_Add t e.1 e.2) t es.

Lemma adds_built f es : file_contents f = [] -> entries_ok es -> tb_status (add_all_entries (TableBuilder_new f) es) = true ->
  exists L pend now, built_to (add_all_entries (TableBuilder_new f) es) es L pend now.
Proof.
  intros Hf. induction es as [|e es IH] using rev_ind; intros He Hst; [exists [], [], []; by apply built_new|].
  unfold add_all_entries in *. rewrite foldl_snoc in *. set (t := foldl (fun t e => TableBuilder_Add t e.1 e.2) (TableBuilder_new f) es) in *. destruct (entries_app _ _ He) as [He' _].
  assert (Ht : tb_status t = true) by (unfold TableBuilder_Add in Hst; destruct (tb_status t) eqn:E; [done|]; simpl in Hst; congruence).
  destruct (IH He' Ht) as (L & pend & now & Hb). by apply (Add_built t es L pend now).
Qed.

(** ** The end of the file *)

(** A step that has worked: so had all before it, and the file has only grown. *)
Definition grown (t t' : TableBuilder) : Prop :=
  tb_status t' = true -> tb_status t = true /\ exists tl, contents_of t' = contents_of t ++ tl.

Lemma grown_trans t1 t2 t3 : grown t1 t2 -> grown t2 t3 -> grown t1 t3.
Proof.
  intros H12 H23 Hst. destruct (H23 Hst) as [Hst2 [tl ->]]. destruct (H12 Hst2) as [Hst1 [tl' ->]]. split; [done|].
  exists (tl' ++ tl). by rewrite app_assoc.
Qed.

Lemma grown_length t t' : grown t t' -> tb_status t' = true -> lenZ (contents_of t) <= lenZ (contents_of t').
Proof. intros Hg Hst. destruct (Hg Hst) as [_ [tl ->]]. rewrite length_app. lia. Qed.

Lemma grown_raw t c ty : tb_status t = true -> grown t (WriteRawBlock t c ty).1.
Proof.
  intros Hst Hst'. split; [done|]. destruct (WriteRawBlock t c ty) as [t' h] eqn:E. cbn [fst] in *. destruct (WriteRawBlock_contents t c ty t' h E Hst') as [-> _]. by eexists.
Qed.

Lemma grown_block t block : tb_status t = true -> grown t (WriteBlock t block).1.
Proof. intros Hst. unfold WriteBlock. destruct (choose_contents _ _) as [c ty]. by apply grown_raw. Qed.

Lemma grown_refl t : grown t t.
Proof. intros Hst. split; [done|]. exists []. by rewrite app_nil_r. Qed.

Lemma grown_filter t : grown t (write_filter t).1.
Proof.
  unfold write_filter. destruct (filter_policy opt) as [p|]; [|apply grown_refl]. destruct (filter_block t) as [b|]; [|apply grown_refl].
  destruct (tb_status t) eqn:E; [by apply grown_raw|apply grown_refl].
Qed.

Lemma grown_metaindex t h : grown t (write_metaindex t h).1.
Proof. unfold write_metaindex. destruct (tb_status t) eqn:E; [by apply grown_block|apply grown_refl]. Qed.

Lemma grown_index t : grown t (write_index t).1.
Proof.
  unfold write_index. destruct (tb_status t) eqn:E; [|apply grown_refl]. destruct (pending_index_entry t); [|by apply grown_block].
  exact (grown_block (add_index t (successor (last_key t))) _ E).
Qed.

Lemma write_footer_ok t f : tb_status (write_footer t f) = true -> tb_status t = true /\ contents_of (write_footer t f) = contents_of t ++ Footer_EncodeTo f.
Proof.
  unfold write_footer. destruct (tb_status t) eqn:E; [|by rewrite E]. destruct (Append _ _) as [[|] file] eqn:Ea; [|done]. intros _.
  apply Append_ok in Ea. by rewrite <- Ea.
Qed.

Lemma write_footer_offset t f : tb_status (write_footer t f) = true -> tb_offset t = lenZ (contents_of t) ->
  lenZ (contents_of t) + lenZ (Footer_EncodeTo f) < 2 ^ 64 -> tb_offset (write_footer t f) = lenZ (contents_of t ++ Footer_EncodeTo f).
Proof.
  unfold write_footer. intros Hst Ho Hl. destruct (tb_status t) eqn:E; [|congruence]. destruct (Append _ _) as [[|] file]; [|done].
  simpl. rewrite Ho, uwrap_small by lia. rewrite length_app. lia.
Qed.

(** All the blocks have an index entry in the end. *)
Lemma indexed_end t es L pend : built_to t es L pend [] -> entries_ok es -> tb_status t = true ->
  let t' := if pending_index_entry t then add_index t (successor (last_key t)) else t in
  exists L', all_es L' = es /\ indexed L' [] /\ index_block t' = add_all 1 (index_entry <$> L')
    /\ (forall d, d ∈ L' -> stored (contents_of t) (d_handle d) (raw_of (d_es d)) /\ (offset_ (d_handle d), (d_es d).*1) ∈ filter_blocks t L pend [])
    /\ contents_of t' = contents_of t /\ tb_offset t' = tb_offset t.
Proof.
  intros Hb He Hst. pose proof (bt_es _ _ _ _ _ Hb) as Ees. pose proof (bt_pending _ _ _ _ _ Hb) as Hp. rewrite app_nil_r in Ees.
  pose proof (bt_indexed _ _ _ _ _ Hb) as Hx. rewrite app_nil_r in Hx. unfold filter_blocks. destruct (pending_index_entry t); cbv zeta.
  - destruct Hp as (Hne & _ & Hs). destruct pend as [|a pend _] using rev_ind; [done|].
    assert (Hlast : last_key t = a.1) by (apply (bt_last _ _ _ _ _ Hb); by rewrite Ees, app_assoc, last_snoc). rewrite Hlast.
    set (D := mkDBlock (successor a.1) (pending_handle t) (pend ++ [a])).
    assert (HD : all_es (L ++ [D]) = es) by (rewrite all_es_app, Ees; unfold all_es at 2; simpl; by rewrite app_nil_r).
    assert (Ha : a ∈ pend ++ [a]) by (apply elem_of_app; right; by left). rewrite Ees in He. destruct (entries_app _ _ He) as [_ He2].
    pose proof (entries_elem _ a He2 Ha) as Da. exists (L ++ [D]). split_and!; [done| | | |done..].
    + split.
      * intros d [Hd|Hd]%elem_of_app; [by apply (ix_key _ _ Hx)|]. apply list_elem_of_singleton in Hd as ->. simpl.
        split_and!; [by apply successor_dom|done|]. pose proof (successor_length a.1 Da). pose proof (load_elem _ a Ha). lia.
      * intros d e' [Hd|Hd]%elem_of_app; [by apply (ix_above _ _ Hx)|]. apply list_elem_of_singleton in Hd as ->. simpl. intros He'.
        apply (cmp_le_trans _ a.1); [by apply (entries_elem _ _ He2)|done|by apply successor_dom| |apply cmp_le_flip; [by apply successor_dom|done|by apply successor_ge]].
        apply elem_of_app in He' as [He'|He']; [pose proof (entries_last _ _ He2 e' He') as Hk; unfold klt in Hk; by rewrite Hk|].
        apply list_elem_of_singleton in He' as ->. by rewrite cmp_refl.
      * intros i d e' Hd Hin. rewrite app_nil_r in Hin. apply lookup_snoc_Some in Hd as [[Hi Hd]|[-> <-]].
        { apply (ix_below _ _ Hx i d e' Hd). revert Hin. rewrite drop_app_le, all_es_app by lia. unfold all_es at 2. simpl. by rewrite app_nil_r. }
        { rewrite drop_ge in Hin by (rewrite length_app; simpl; lia). by apply elem_of_nil in Hin. }
      * intros i d e' Hd Hin. rewrite app_nil_r in Hin. apply lookup_snoc_Some in Hd as [[Hi Hd]|[-> <-]].
        { apply (ix_sep _ _ Hx i d e' Hd). revert Hin. rewrite drop_app_le, all_es_app by lia. unfold all_es at 2. simpl. by rewrite app_nil_r. }
        { rewrite drop_ge in Hin by (rewrite length_app; simpl; lia). by apply elem_of_nil in Hin. }
    + cbn [add_index index_block]. rewrite (bt_index _ _ _ _ _ Hb), (fmap_app _ L [D]). by rewrite (add_all_snoc 1 (index_entry <$> L) (index_entry D)).
    + intros d [Hd|Hd]%elem_of_app.
      * split; [by apply (bt_stored _ _ _ _ _ Hb)|]. apply elem_of_app. left. by apply (list_elem_of_fmap_2 (fun d => (offset_ (d_handle d), (d_es d).*1))).
      * apply list_elem_of_singleton in Hd as ->. split; [done|]. apply elem_of_app. right. by left.
  - subst pend. pose proof (bt_start _ _ _ _ _ Hb eq_refl) as ->. exists []. split_and!; [done|done| | |done..].
    + by rewrite (bt_index _ _ _ _ _ Hb).
    + intros d Hd. by apply elem_of_nil in Hd.
Qed.

Lemma index_load L es : indexed L [] -> all_es L = es -> load (index_entry <$> L) <= load es + 20 * lenZ L.
Proof.
  intros Hx <-. assert (H : Forall (fun d => d_es d <> [] /\ lenZ (d_key d) <= load (d_es d) - 64) L).
  { apply List.Forall_forall. intros d Hd%list_elem_of_In. by destruct (ix_key _ _ Hx d Hd) as (_ & ? & ?). }
  clear Hx. induction H as [|d L [Hne Hd] _ IH]; [done|]. rewrite length_cons. change (all_es (d :: L)) with (d_es d ++ all_es L).
  change (load (index_entry <$> d :: L)) with (lenZ (d_key d) + lenZ (Handle_EncodeTo (d_handle d)) + 64 + load (index_entry <$> L)).
  rewrite load_app. pose proof (length_Handle (d_handle d)). pose proof (load_length (d_es d)). assert (1 <= lenZ (d_es d)) by (destruct (d_es d); [done|simpl; lia]). lia.
Qed.

(** The index entries are in order. *)
Lemma index_sorted L : indexed L [] -> (forall d e, d ∈ L -> e ∈ d_es d -> dom e.1) ->
  StronglySorted klt (index_entry <$> L) /\ Forall dom (index_entry <$> L).*1 /\ Forall (fun e => bytes_ok e.1 /\ bytes_ok e.2) (index_entry <$> L).
Proof.
  intros Hx Hdom. assert (HD : Forall (fun d => dom (d_key d)) L) by (apply List.Forall_forall; intros d Hd%list_elem_of_In; by apply (ix_key _ _ Hx)).
  split_and!.
  - assert (Hlt : forall i j a b, (i < j)%nat -> L !! i = Some a -> L !! j = Some b -> klt (index_entry a) (index_entry b)).
    { intros i j a b Hij Ha Hb. pose proof (list_elem_of_lookup_2 _ _ _ Hb) as Hbl. destruct (ix_key _ _ Hx b Hbl) as (Db & Hne & _).
      destruct (d_es b) as [|e bes] eqn:Eb; [done|]. assert (Heb : e ∈ d_es b) by (rewrite Eb; by left).
      pose proof (ix_above _ _ Hx b e Hbl Heb) as Hle. assert (He : e ∈ all_es (drop (S i) L) ++ []).
      { rewrite app_nil_r. apply list_elem_of_join. exists (d_es b). split; [done|]. apply list_elem_of_fmap_2, list_elem_of_lookup. exists (j - S i)%nat. rewrite lookup_drop. by replace (S i + (j - S i))%nat with j by lia. }
      pose proof (ix_below _ _ Hx i a e Ha He) as Hae. pose proof (Hdom b e Hbl Heb) as De. unfold klt, index_entry. simpl.
      destruct (cmp e.1 (d_key b)) eqn:Ec; [|apply (cmp_trans _ e.1); [apply (Forall_lookup_1 _ _ _ _ HD Ha)|done..]|done].
      apply cmp_eq in Ec; [|done..]. by rewrite <- Ec. }
    clear -Hlt. induction L as [|d L IH]; [constructor|]. simpl. constructor; [apply IH; intros i j a b Hij; apply (Hlt (S i) (S j)); lia|].
    apply Forall_fmap, List.Forall_forall. intros x Hx%list_elem_of_In. apply list_elem_of_lookup in Hx as [j Hj]. apply (Hlt 0%nat (S j)); [lia|done..].
  - rewrite <- list_fmap_compose. apply Forall_fmap. done.
  - apply Forall_fmap. eapply Forall_impl; [exact HD|]. intros d Hd. simpl. split; [by apply dom_bytes|apply Handle_bytes].
Qed.

#[local] Abbreviation at_offset_ok t := (tb_offset t = lenZ (contents_of t)).

Lemma grown_end t t' : grown t t' -> tb_status t' = true -> exists tl, contents_of t' = contents_of t ++ tl.
Proof. intros Hg Hst. by apply Hg. Qed.

Lemma write_filter_ok t FB t' h : write_filter t = (t', h) -> tb_status t' = true -> at_offset_ok t -> lenZ (contents_of t') < 2 ^ 32 ->
  filter_block t = (match filter_policy opt with Some p => Some (run_blocks FB) | None => None end) ->
  StronglySorted Z.le FB.*1 -> Forall (fun o => 0 <= o) FB.*1 ->
  at_offset_ok t' /\ same_rest t t' /\ match filter_policy opt with
     | Some p => stored (contents_of t') h (FilterBlock_Finish (run_blocks FB)) /\ lenZ (FilterBlock_Finish (run_blocks FB)) < 2 ^ 32
     | None => True end.
Proof.
  unfold write_filter. intros E Hst Ho Hlen Hf Hs Hp. rewrite Hf in E. destruct (filter_policy opt) as [p|]; [|by injection E as <- <-].
  destruct (tb_status t) eqn:Et; [|injection E as <- <-; congruence]. destruct (WriteRawBlock_contents _ _ _ _ _ E Hst) as [Ec _].
  assert (lenZ (contents_of t') = lenZ (contents_of t) + lenZ (FilterBlock_Finish (run_blocks FB)) + 5) as El by (rewrite Ec, !length_app, length_trailer; lia).
  destruct (WriteRawBlock_ok _ _ _ _ _ E Hst Ho ltac:(lia)) as (E1 & E2 & -> & Hr). split_and!; [done..| |lia].
  exists (contents_of t), (FilterBlock_Finish (run_blocks FB)), kNoCompression, (address (tb_offset t)), []. rewrite app_nil_r. split_and!; [done..|by apply Finish_bytes_ok|by left].
Qed.

(** The block that names the filters. *)
Definition meta_entries (p : FilterPolicy) (h : BlockHandle) : list entry := [(filter_key p, Handle_EncodeTo h)].

Lemma meta_ok p h : bytes_ok (filter_key p) /\ lenZ (filter_key p) + 8 < 2 ^ 32
  /\ bytes_ok (raw_of (meta_entries p h)) /\ lenZ (raw_of (meta_entries p h)) < 2 ^ 32.
Proof.
  destruct (@filter_Name_ok p) as [Hn Hl]. assert (Hb : bytes_ok (filter_key p)).
  { apply Forall_app. split; [|done]. repeat (constructor; [unfold is_byte; lia|]). constructor. }
  assert (Hlk : lenZ (filter_key p) = 7 + lenZ filter_Name) by (unfold filter_key; rewrite length_app; simpl; lia).
  split_and!; [done|lia| |].
  - apply block_bytes. apply list.Forall_singleton. split; [done|apply Handle_bytes].
  - pose proof (length_block (block_restart_interval opt) (meta_entries p h)) as Hb'. fold (raw_of (meta_entries p h)) in Hb'. pose proof (length_Handle h).
    assert (load (meta_entries p h) = lenZ (filter_key p) + lenZ (Handle_EncodeTo h) + 64) by (unfold meta_entries; simpl; lia).
    change (lenZ (meta_entries p h)) with 1 in Hb'. lia.
Qed.

Lemma write_metaindex_ok t fh t' h : write_metaindex t fh = (t', h) -> tb_status t' = true -> at_offset_ok t -> lenZ (contents_of t) < 2 ^ 32 ->
  filter_block t <> None \/ filter_policy opt = None ->
  at_offset_ok t' /\ same_rest t t' /\ match filter_policy opt with Some p => stored (contents_of t') h (raw_of (meta_entries p fh)) | None => True end
  /\ handle_ok h.
Proof.
  unfold write_metaindex. intros E Hst Ho Hlen Hf. destruct (tb_status t) eqn:Et; [|injection E as <- <-; congruence].
  set (es := match filter_policy opt with Some p => meta_entries p fh | None => [] end).
  assert (Eb : WriteBlock t (add_all (block_restart_interval opt) es) = (t', h)).
  { rewrite <- E. unfold es. destruct (filter_policy opt); [|done]. by destruct (filter_block t), Hf. }
  assert (Hr : bytes_ok (raw_of es) /\ lenZ (raw_of es) < 2 ^ 32).
  { unfold es. destruct (filter_policy opt) as [p|]; [by destruct (meta_ok p fh) as (_ & _ & ? & ?)|]. by destruct (raw_ok []) as (? & _ & ? & _); [split; constructor|]. }
  destruct Hr as [Hr1 Hr2]. destruct (WriteBlock_ok _ _ _ _ Eb Hst Ho Hr1 Hr2) as (Hs & Ho' & (tl & Etl & Htl) & _ & Hrest); [unfold raw_of in *; lia|].
  split_and!; [done..| |]; [unfold es in Hs; by destruct (filter_policy opt)|].
  destruct (stored_handle _ _ _ Hs) as (? & ? & Hle). rewrite Etl, length_app in Hle. unfold raw_of in *. split; lia.
Qed.

Lemma write_index_ok t es L t' h : write_index t = (t', h) -> tb_status t' = true -> at_offset_ok t -> lenZ (contents_of t) < 2 ^ 32 ->
  index_block (if pending_index_entry t then add_index t (successor (last_key t)) else t) = add_all 1 (index_entry <$> L) ->
  indexed L [] -> all_es L = es -> entries_ok es ->
  stored (contents_of t') h (Builder_Finish (add_all 1 (index_entry <$> L))) /\ handle_ok h /\ at_offset_ok t'.
Proof.
  unfold write_index. intros E Hst Ho Hlen Hi Hx Ees He. destruct (tb_status t) eqn:Et; [|injection E as <- <-; congruence]. rewrite Hi in E.
  assert (Hdom : forall d e, d ∈ L -> e ∈ d_es d -> dom e.1).
  { intros d e Hd Hin. apply (entries_elem es e He). rewrite <- Ees. apply list_elem_of_join. exists (d_es d). split; [done|]. by apply list_elem_of_fmap_2. }
  destruct (index_sorted L Hx Hdom) as (_ & _ & Hb). pose proof (index_load L es Hx Ees) as Hl. pose proof (eo_load _ He) as Hle.
  pose proof (length_block 1 (index_entry <$> L)) as Hlb. rewrite length_fmap in Hlb. set (raw := Builder_Finish (add_all 1 (index_entry <$> L))) in *.
  assert (Hr : bytes_ok raw) by (by apply block_bytes). assert (H32 : lenZ raw < 2 ^ 32) by lia.
  set (t1 := if pending_index_entry t then _ else _) in *.
  assert (Hc1 : contents_of t1 = contents_of t /\ tb_offset t1 = tb_offset t) by (unfold t1; by destruct (pending_index_entry t)). destruct Hc1 as [Hc1 Ho1].
  destruct (WriteBlock_ok t1 _ t' h E Hst ltac:(by rewrite Hc1, Ho1) Hr H32) as (Hs & Ho' & (tl & Etl & Htl) & _ & _); [rewrite Hc1; fold raw; lia|].
  split; [done|]. split; [|done]. destruct (stored_handle _ _ _ Hs) as (? & ? & Hle'). rewrite Etl, Hc1, length_app in Hle'. fold raw in Htl. split; lia.
Qed.

(** ** The finished file *)

Record table_file (F : list Z) (es : list entry) (L : list dblock) (FB : list (Z * list (list Z))) (fh mh ih : BlockHandle) : Prop := mkTableFile {
  tf_footer : exists F0, F = F0 ++ Footer_EncodeTo (mkFooter mh ih);
  tf_handles : handle_ok mh /\ handle_ok ih;
  tf_es : all_es L = es;
  tf_indexed : indexed L [];
  tf_blocks : forall d, d ∈ L -> stored F (d_handle d) (raw_of (d_es d)) /\ (offset_ (d_handle d), (d_es d).*1) ∈ FB;
  tf_index : stored F ih (Builder_Finish (add_all 1 (index_entry <$> L)));
  tf_filter : match filter_policy opt with
    | Some p => stored F fh (FilterBlock_Finish (run_blocks FB)) /\ lenZ (FilterBlock_Finish (run_blocks FB)) < 2 ^ 32
        /\ stored F mh (raw_of (meta_entries p fh))
    | None => True end;
  tf_sorted : StronglySorted Z.le FB.*1;
  tf_nonneg : Forall (fun o => 0 <= o) FB.*1;
  tf_keys : lenZ (mjoin FB.*2) < 2 ^ 31 }.

Lemma filter_keys t es L pend now : built_to t es L pend now -> mjoin (filter_blocks t L pend now).*2 = es.*1.
Proof.
  intros Hb. pose proof (bt_pending _ _ _ _ _ Hb) as Hp. rewrite (bt_es _ _ _ _ _ Hb). unfold filter_blocks. rewrite !fmap_app, !join_app. f_equal; [|f_equal].
  - unfold all_es. clear. induction L as [|d L IH]; [done|]. cbn [fmap list_fmap mjoin list_join]. rewrite fmap_app. f_equal. exact IH.
  - destruct (pending_index_entry t); [simpl; by rewrite app_nil_r|by subst].
  - simpl. by rewrite app_nil_r.
Qed.

Lemma built_close t es L pend now : built_to t es L pend now -> built_to (close t) es L pend now.
Proof. intros Hb. split; apply Hb. Qed.

Lemma Finish_file f es : file_contents f = [] -> entries_ok es ->
  let t := TableBuilder_Finish (add_all_entries (TableBuilder_new f) es) in
  tb_status t = true -> lenZ (contents_of t) < 2 ^ 32 ->
  tb_offset t = lenZ (contents_of t) /\ exists L FB fh mh ih, table_file (contents_of t) es L FB fh mh ih.
Proof.
  intros Hf He t Hst Hlen. unfold t, TableBuilder_Finish in *. clear t. set (t0 := add_all_entries _ es) in *. set (t1 := close (Flush t0)) in *.
  destruct (write_filter t1) as [t2 fh] eqn:E2. destruct (write_metaindex t2 fh) as [t3 mh] eqn:E3. destruct (write_index t3) as [t4 ih] eqn:E4.
  destruct (write_footer_ok t4 _ Hst) as [Hst4 EF]. pose proof Hlen as Hlen0. rewrite EF in Hlen |- *. rewrite length_app in Hlen. set (foot := Footer_EncodeTo _) in *.
  pose proof (grown_index t3) as G4. rewrite E4 in G4. cbn [fst] in G4. pose proof (grown_metaindex t2 fh) as G3. rewrite E3 in G3. cbn [fst] in G3.
  pose proof (grown_filter t1) as G2. rewrite E2 in G2. cbn [fst] in G2. destruct (G4 Hst4) as [Hst3 [tl4 T4]]. destruct (G3 Hst3) as [Hst2 [tl3 T3]]. destruct (G2 Hst2) as [Hst1 [tl2 T2]].
  assert (Hst0 : tb_status t0 = true) by (by apply Flush_status). destruct (adds_built f es Hf He Hst0) as (L0 & pend0 & now0 & Hb0).
  destruct (Flush_built t0 es L0 pend0 now0 Hb0 He Hst1) as (pend & now & Hb1 & ->). apply built_close in Hb1. fold t1 in Hb1.
  destruct (indexed_end t1 es L0 pend Hb1 He Hst1) as (L & Ees & Hx & Hi & Hd & _ & _). destruct (bt_offsets _ _ _ _ _ Hb1) as [Hso Hfo].
  set (FB := filter_blocks t1 L0 pend []) in *. assert (Hnn : Forall (fun o => 0 <= o) FB.*1) by (eapply Forall_impl; [exact Hfo|]; simpl; lia).
  assert (Hl4 : lenZ (contents_of t4) = lenZ (contents_of t1) + lenZ tl2 + lenZ tl3 + lenZ tl4) by (rewrite T4, T3, T2, !length_app; lia).
  assert (Hl2 : lenZ (contents_of t2) = lenZ (contents_of t1) + lenZ tl2) by (rewrite T2, length_app; lia).
  assert (Hl3 : lenZ (contents_of t3) = lenZ (contents_of t1) + lenZ tl2 + lenZ tl3) by (rewrite T3, T2, !length_app; lia).
  destruct (write_filter_ok t1 FB t2 fh E2 Hst2 (bt_offset _ _ _ _ _ Hb1) ltac:(lia) (bt_filter _ _ _ _ _ Hb1) Hso Hnn) as (Ho2 & R2 & Hs2).
  assert (Hfb : filter_block t2 <> None \/ filter_policy opt = None).
  { destruct R2 as (_ & _ & _ & -> & _ & _). rewrite (bt_filter _ _ _ _ _ Hb1). destruct (filter_policy opt); [by left|by right]. }
  destruct (write_metaindex_ok t2 fh t3 mh E3 Hst3 Ho2 ltac:(lia) Hfb) as (Ho3 & R3 & Hs3 & Hmh).
  assert (Hi3 : index_block (if pending_index_entry t3 then add_index t3 (successor (last_key t3)) else t3) = add_all 1 (index_entry <$> L)).
  { destruct R2 as (_ & R2i & R2l & _ & R2p & R2h). destruct R3 as (_ & R3i & R3l & _ & R3p & R3h). rewrite <- Hi, R3p, R2p.
    destruct (pending_index_entry t1); cbn [add_index index_block]; by rewrite ?R3i, ?R2i, ?R3l, ?R2l, ?R3h, ?R2h. }
  destruct (write_index_ok t3 es L t4 ih E4 Hst4 Ho3 ltac:(lia) Hi3 Hx Ees He) as (Hs4 & Hih & Ho4).
  assert (Hmono : forall h raw, stored (contents_of t1) h raw \/ stored (contents_of t2) h raw \/ stored (contents_of t3) h raw \/ stored (contents_of t4) h raw -> stored (contents_of t4 ++ foot) h raw).
  { intros h raw Hs. apply stored_app. destruct Hs as [Hs|[Hs|[Hs|Hs]]]; [rewrite T4, T3, T2|rewrite T4, T3|rewrite T4|done]; by repeat apply stored_app. }
  split; [apply write_footer_offset; [done..|fold foot; lia]|]. exists L, FB, fh, mh, ih. split; [by exists (contents_of t4)|done..| | | |done|done|].
  - intros d Hin. destruct (Hd d Hin) as [Hs ?]. split; [|done]. apply Hmono. by left.
  - apply Hmono. by right; right; right.
  - destruct (filter_policy opt); [|done]. destruct Hs2 as [Hs2 Hl]. split_and!; [|done|]; apply Hmono; [by right; left|by right; right; left].
  - unfold FB. rewrite (filter_keys _ _ _ _ _ Hb1), length_fmap. pose proof (load_length es) as Hll. pose proof (eo_load _ He). unfold entry in *. lia.
Qed.

(** ** Opening it *)

(** The iterator of the block of the filters' names. *)
Lemma meta_Seek p h : exists it, Block_NewIterator (Block_new (raw_of (meta_entries p h))) = Iter it
  /\ block_cur (block_Seek (H := user_order) it (filter_key p)) = Some (filter_key p, Handle_EncodeTo h).
Proof.
  destruct (meta_ok p h) as (Hb & Hl & _ & H32).
  destruct (block_roundtrip (H := user_order) (block_restart_interval opt) (meta_entries p h)) as (it & Hit & Hok & Hc & _);
    [done|by repeat constructor|by apply list.Forall_singleton|done|].
  exists it. split; [done|]. destruct (@Seek_best user_order _ _ it (filter_key p) Hok (conj Hb Hl)) as (_ & _ & Hbest). simpl in Hbest, Hc.
  rewrite Hc in Hbest. destruct (block_cur _) as [e|].
  - destruct Hbest as (He & _). by apply list_elem_of_singleton in He as ->.
  - exfalso. apply (Hbest (filter_key p, Handle_EncodeTo h)); [by left|]. simpl. by rewrite (proj2 (Slice_compare_eq _ _) eq_refl).
Qed.

Lemma stored_handle_ok F h raw : lenZ F < 2 ^ 64 -> stored F h raw -> handle_ok h.
Proof. intros Hl Hs. destruct (stored_handle _ _ _ Hs) as (? & ? & ?). split; lia. Qed.

Lemma Handle_decode h : handle_ok h -> Handle_DecodeFrom (Handle_EncodeTo h) = Some (h, []).
Proof. intros Hh. rewrite <- (app_nil_r (Handle_EncodeTo h)). by apply Handle_roundtrip. Qed.

Lemma Open_file F es L FB fh mh ih file : table_file F es L FB fh mh ih -> lenZ F < 2 ^ 32 -> holds file F ->
  Table_Open file (lenZ F) = Some (mkTable file mh (Block_new (Builder_Finish (add_all 1 (index_entry <$> L))))
    (match filter_policy opt with Some p => Some (FilterBlockReader_new (FilterBlock_Finish (run_blocks FB))) | None => None end)).
Proof.
  intros Hf Hl Hh. destruct (tf_footer _ _ _ _ _ _ _ Hf) as [F0 EF]. destruct (tf_handles _ _ _ _ _ _ _ Hf) as [Hmh Hih].
  destruct (Footer_roundtrip (mkFooter mh ih) Hmh Hih) as [Hfl Hfd]. assert (HF : lenZ F = lenZ F0 + kEncodedLength) by (rewrite EF, length_app, Nat2Z.inj_add, Hfl; lia).
  unfold Table_Open. change kEncodedLength with 48 in *. rewrite (proj2 (Z.ltb_ge _ _)) by lia. rewrite Hh by lia.
  replace (Z.to_nat (lenZ F - 48)) with (length F0) by lia. rewrite EF at 1. rewrite drop_app_length, take_ge by lia. rewrite Hfd. cbn [index_handle_ metaindex_handle_].
  unfold read_block. rewrite (ReadBlock_stored file F _ _ ih _ Hh ltac:(lia) (tf_index _ _ _ _ _ _ _ Hf)). f_equal.
  unfold ReadMeta. pose proof (tf_filter _ _ _ _ _ _ _ Hf) as Hft. destruct (filter_policy opt) as [p|]; [|done]. destruct Hft as (Hs1 & _ & Hs2).
  unfold read_block. cbn [t_file metaindex_handle_]. rewrite (ReadBlock_stored file F _ _ mh _ Hh ltac:(lia) Hs2). destruct (meta_Seek p fh) as (it & -> & Hcur).
  cbn [or_map or_case]. rewrite Hcur, (proj2 (Slice_compare_eq _ _) eq_refl). unfold ReadFilter. rewrite Handle_decode by (apply (stored_handle_ok F _ (FilterBlock_Finish (run_blocks FB))); [lia|done]).
  unfold read_block. cbn [t_file]. by rewrite (ReadBlock_stored file F _ _ fh _ Hh ltac:(lia) Hs1).
Qed.

(** ** Ranging over it and searching it *)

Section Opened.
Context (F : list Z) (es : list entry) (L : list dblock) (FB : list (Z * list (list Z))) (fh mh ih : BlockHandle).
Context (file : RandomAccessFile) (verify : bool) (t : Table).
Context (Hfile : table_file F es L FB fh mh ih) (Hes : entries_ok es) (Hlen : lenZ F < 2 ^ 32) (Hholds : holds file F) (Hopen : Table_Open file (lenZ F) = Some t).

Lemma opened : t_file t = file /\ t_index_block t = Block_new (Builder_Finish (add_all 1 (index_entry <$> L)))
  /\ t_filter t = match filter_policy opt with Some p => Some (FilterBlockReader_new (FilterBlock_Finish (run_blocks FB))) | None => None end.
Proof. rewrite (Open_file F es L FB fh mh ih file) in Hopen by done. by injection Hopen as <-. Qed.

Lemma block_elem d e : d ∈ L -> e ∈ d_es d -> e ∈ es.
Proof.
  intros Hd He. rewrite <- (tf_es _ _ _ _ _ _ _ Hfile). apply list_elem_of_join. exists (d_es d). split; [done|]. by apply list_elem_of_fmap_2.
Qed.

Lemma block_entries d : d ∈ L -> entries_ok (d_es d).
Proof.
  intros (L1 & L2 & E)%list_elem_of_split. pose proof Hes as He. rewrite <- (tf_es _ _ _ _ _ _ _ Hfile), E, all_es_app in He.
  change (all_es (d :: L2)) with (d_es d ++ all_es L2) in He. apply entries_app in He as [_ He]. by apply entries_app in He as [He _].
Qed.

Lemma index_iter : exists it, Block_NewIterator (t_index_block t) = Iter it /\ iter_ok it /\ content it = index_entry <$> L.
Proof.
  destruct opened as (_ & -> & _). destruct (index_sorted L (tf_indexed _ _ _ _ _ _ _ Hfile)) as (H1 & H2 & _).
  { intros d e Hd He. apply (entries_elem es e Hes). by apply (block_elem d). }
  pose proof (index_load L es (tf_indexed _ _ _ _ _ _ _ Hfile) (tf_es _ _ _ _ _ _ _ Hfile)) as Hl. pose proof (length_block 1 (index_entry <$> L)) as Hlb.
  rewrite length_fmap in Hlb. pose proof (eo_load _ Hes). destruct (block_roundtrip 1 (index_entry <$> L)) as (it & E1 & E2 & E3 & _); [lia|done..|lia|]. by exists it.
Qed.

Lemma block_iter d : d ∈ L -> exists it, BlockReader t verify (Handle_EncodeTo (d_handle d)) = Iter it /\ iter_ok it /\ content it = d_es d.
Proof.
  intros Hd. destruct (tf_blocks _ _ _ _ _ _ _ Hfile d Hd) as [Hs _]. unfold BlockReader, read_block. rewrite Handle_decode by (apply (stored_handle_ok F _ (raw_of (d_es d))); [lia|done]).
  destruct opened as (-> & _ & _). rewrite (ReadBlock_stored file F _ _ _ _ Hholds ltac:(lia) Hs).
  destruct (raw_ok (d_es d) (block_entries d Hd)) as (_ & _ & _ & it & H1 & H2 & H3). by exists it.
Qed.

Lemma table_blocks_ok : blocks_ok (BlockReader t verify) (index_entry <$> L) /\ blocks_content (BlockReader t verify) (index_entry <$> L) = es.
Proof.
  pose proof (tf_indexed _ _ _ _ _ _ _ Hfile) as Hx. assert (Hblk : forall d, d ∈ L -> block_of (BlockReader t verify) (index_entry d) = d_es d).
  { intros d Hd. unfold block_of. destruct (block_iter d Hd) as (it & E1 & _ & E3). simpl. rewrite E1. done. }
  destruct (index_sorted L Hx) as (H1 & H2 & _). { intros d e Hd He. apply (entries_elem es e Hes). by apply (block_elem d). }
  split; [split|].
  - by apply sorted_keys.
  - intros x (d & -> & Hd)%list_elem_of_fmap. destruct (block_iter d Hd) as (it & E1 & E2 & _). simpl. rewrite E1. done.
  - intros x e (d & -> & Hd)%list_elem_of_fmap. rewrite Hblk by done. by apply (ix_above _ _ Hx).
  - intros x x' e (d & -> & Hd)%list_elem_of_fmap (d' & -> & Hd')%list_elem_of_fmap Hlt. rewrite Hblk by done. intros He.
    apply list_elem_of_lookup in Hd as [i Hi], Hd' as [j Hj]. assert (Hi' : (index_entry <$> L) !! i = Some (index_entry d)) by (by rewrite list_lookup_fmap, Hi).
    assert (Hj' : (index_entry <$> L) !! j = Some (index_entry d')) by (by rewrite list_lookup_fmap, Hj). apply (klt_index _ i j _ _ H1 H2 Hi' Hj') in Hlt.
    apply (ix_below _ _ Hx i d e Hi). rewrite app_nil_r. apply list_elem_of_join. exists (d_es d'). split; [done|].
    apply list_elem_of_fmap_2, list_elem_of_lookup. exists (j - S i)%nat. rewrite lookup_drop. by replace (S i + (j - S i))%nat with j by lia.
  - rewrite <- (tf_es _ _ _ _ _ _ _ Hfile). unfold blocks_content, all_es. f_equal. rewrite <- list_fmap_compose. apply list_fmap_ext. intros i d Hd. apply Hblk. by eapply list_elem_of_lookup_2.
Qed.

(** Where an entry is. *)
Lemma entry_block e : e ∈ es -> exists i d, L !! i = Some d /\ e ∈ d_es d.
Proof.
  rewrite <- (tf_es _ _ _ _ _ _ _ Hfile). intros (l & He & (d & -> & Hd)%list_elem_of_fmap)%list_elem_of_join.
  apply list_elem_of_lookup in Hd as [i Hi]. by exists i, d.
Qed.

Lemma later_block i j d d' e : L !! i = Some d -> L !! j = Some d' -> (i < j)%nat -> e ∈ d_es d' -> e ∈ all_es (drop (S i) L) ++ [].
Proof.
  intros Hi Hj Hij He. rewrite app_nil_r. apply list_elem_of_join. exists (d_es d'). split; [done|]. apply list_elem_of_fmap_2, list_elem_of_lookup.
  exists (j - S i)%nat. rewrite lookup_drop. by replace (S i + (j - S i))%nat with j by lia.
Qed.

(** The block that the index finds for a key: the first whose index key is not below it. *)
Definition index_finds (k : list Z) (i : nat) (d : dblock) : Prop :=
  L !! i = Some d /\ cmp (d_key d) k <> Lt /\ forall j d', (j < i)%nat -> L !! j = Some d' -> cmp (d_key d') k = Lt.

Lemma index_Seek k it : iter_ok it -> content it = index_entry <$> L -> dom k ->
  match cur (Seek it k) with
  | Some x => exists i d, index_finds k i d /\ x = index_entry d
  | None => forall d, d ∈ L -> cmp (d_key d) k = Lt
  end.
Proof.
  intros Hok Hc Hk. destruct (Seek_best it k Hok Hk) as (_ & _ & Hb). rewrite Hc in Hb.
  destruct (index_sorted L (tf_indexed _ _ _ _ _ _ _ Hfile)) as (H1 & H2 & _). { intros d e Hd He. apply (entries_elem es e Hes). by apply (block_elem d). }
  destruct (cur (Seek it k)) as [x|].
  - destruct Hb as (Hx & HP & Hmin). apply list_elem_of_lookup in Hx as [i Hi]. pose proof Hi as Hi'. rewrite list_lookup_fmap in Hi'. apply fmap_Some in Hi' as (d & Hd & ->).
    exists i, d. split; [|done]. split_and!; [done..|]. intros j d' Hj Hd'. assert (Hj' : (index_entry <$> L) !! j = Some (index_entry d')) by (by rewrite list_lookup_fmap, Hd').
    destruct (cmp (d_key d') k) eqn:Ec; [exfalso|done|exfalso]; (destruct (Hmin (index_entry d')) as [E|E]; [by eapply list_elem_of_lookup_2|simpl; by rewrite Ec|..]);
      [rewrite E in Hj'; pose proof (proj2 (klt_index _ j i _ _ H1 H2 Hj' Hi) Hj) as Hirr; apply (klt_irrefl (index_entry d)) in Hirr; [done|]
      |apply (klt_index _ i j _ _ H1 H2 Hi Hj') in E; lia
      |rewrite E in Hj'; pose proof (proj2 (klt_index _ j i _ _ H1 H2 Hj' Hi) Hj) as Hirr; apply (klt_irrefl (index_entry d)) in Hirr; [done|]
      |apply (klt_index _ i j _ _ H1 H2 Hi Hj') in E; lia]; apply (Forall_elem _ _ _ H2); apply list_elem_of_fmap_2; by eapply list_elem_of_lookup_2.
  - intros d Hd. destruct (cmp (d_key d) k) eqn:Ec; [exfalso|done|exfalso]; (apply (Hb (index_entry d)); [by apply list_elem_of_fmap_2|simpl; by rewrite Ec]).
Qed.

(** The entry that a search is for is in the block that the index finds. *)
Lemma target_block k i d e : dom k -> index_finds k i d -> best klt (fun e => cmp e.1 k <> Lt) es (Some e) -> related k e.1 -> e ∈ d_es d.
Proof.
  intros Hk (Hd & Hdk & Hbef) (He & HP & Hmin) Hrel. pose proof (tf_indexed _ _ _ _ _ _ _ Hfile) as Hx. destruct (entry_block e He) as (j & d' & Hj & Hed).
  pose proof (list_elem_of_lookup_2 _ _ _ Hd) as HdL. pose proof (list_elem_of_lookup_2 _ _ _ Hj) as Hd'L. destruct (ix_key _ _ Hx d HdL) as (Dd & _). destruct (ix_key _ _ Hx d' Hd'L) as (Dd' & _).
  pose proof (entries_elem _ _ Hes He) as De. destruct (Nat.lt_total j i) as [Hji|[->|Hij]]; [exfalso| |exfalso].
  - apply HP. pose proof (ix_above _ _ Hx d' e Hd'L Hed) as Hle. pose proof (Hbef j d' Hji Hj) as Hlt.
    destruct (cmp e.1 (d_key d')) eqn:Ec; [apply cmp_eq in Ec; [by rewrite Ec|done..]|by apply (cmp_trans _ (d_key d'))|done].
  - rewrite Hd in Hj. by injection Hj as ->.
  - pose proof (later_block i j d d' e Hd Hj Hij Hed) as Hlater. destruct (ix_sep _ _ Hx i d e Hd Hlater) as (a & b & Ha & Da & Db & Hab & Esep & Hbe).
    apply (separator_apart a.1 b k e.1 Da Db Hk De Hab); [|rewrite <- Esep; by apply cmp_le_flip|done|done].
    destruct (cmp a.1 k) eqn:Eak; [exfalso|done|exfalso]; (assert (Hae : klt a e) by (pose proof (ix_below _ _ Hx i d e Hd Hlater) as Hde; pose proof (ix_above _ _ Hx d a HdL Ha) as Had;
      unfold klt; destruct (cmp a.1 (d_key d)) eqn:E1; [apply cmp_eq in E1; [by rewrite E1|done..]|by apply (cmp_trans _ (d_key d))|done]));
      (destruct (Hmin a (block_elem d a HdL Ha)) as [->|Hea]; [by rewrite Eak|by apply (klt_irrefl e)|apply (klt_irrefl e De); by apply (klt_trans e a e)]).
Qed.

(** The filters treat related keys alike. *)
Definition filters_related : Prop :=
  forall p a b f, filter_policy opt = Some p -> related a b -> KeyMayMatch (FilterPolicy := p) a f = KeyMayMatch (FilterPolicy := p) b f.

(** The filter of the block does not hide the entry. *)
Lemma filter_finds p d e k : filters_related -> filter_policy opt = Some p -> d ∈ L -> e ∈ d_es d -> related k e.1 ->
  filter_KeyMayMatch (H := p) (FilterBlockReader_new (FilterBlock_Finish (H := p) (run_blocks (H := p) FB))) (offset_ (d_handle d)) k = true.
Proof.
  intros Hrel Ep Hd He Hke. pose proof (tf_filter _ _ _ _ _ _ _ Hfile) as Hft. rewrite Ep in Hft. destruct Hft as (_ & Hl & _).
  assert (E : forall r o, filter_KeyMayMatch (H := p) r o k = filter_KeyMayMatch (H := p) r o e.1) by (intros r o; unfold filter_KeyMayMatch; by rewrite (Hrel p k e.1)).
  rewrite E. destruct (tf_blocks _ _ _ _ _ _ _ Hfile d Hd) as [_ HFB].
  apply (filter_block_match FB (offset_ (d_handle d)) (d_es d).*1); [apply Hfile..|done|done|by apply list_elem_of_fmap_2].
Qed.

(** The search: the first entry not below the key, unless the index or a filter already
    tells that it is not related to the key. *)
Lemma InternalGet_ok k : filters_related -> dom k -> (InternalGet t verify k).2 = true
  /\ (forall e, (InternalGet t verify k).1 = Some e -> e ∈ es /\ cmp e.1 k <> Lt)
  /\ (forall e, best klt (fun e => cmp e.1 k <> Lt) es (Some e) -> related k e.1 -> (InternalGet t verify k).1 = Some e).
Proof.
  intros Hrel Hk. destruct index_iter as (it & Eit & Hok & Hc). unfold InternalGet. rewrite Eit. set (ii := Seek (Iter it) k).
  assert (Hii : iter_ok ii) by (by apply (Seek_best (Iter it) k)). rewrite (status_ok ii Hii). pose proof (index_Seek k it Hok Hc Hk) as Hidx.
  change (cur ii) with (cur (Seek it k)). destruct (cur (Seek it k)) as [[x hv]|].
  2:{ split_and!; [done..|]. intros e (He & HP & _) _. exfalso. destruct (entry_block e He) as (i & d & Hd & Hed). apply list_elem_of_lookup_2 in Hd.
      pose proof (tf_indexed _ _ _ _ _ _ _ Hfile) as Hx. apply HP. pose proof (ix_above _ _ Hx d e Hd Hed) as Hle. destruct (ix_key _ _ Hx d Hd) as (Dd & _).
      destruct (cmp e.1 (d_key d)) eqn:Ec; [apply cmp_eq in Ec; [rewrite Ec; by apply Hidx|by apply (entries_elem _ _ Hes)|done]|apply (cmp_trans _ (d_key d)); [by apply (entries_elem _ _ Hes)|done..|by apply Hidx]|done]. }
  destruct Hidx as (i & d & Hfind & [= -> ->]). pose proof (list_elem_of_lookup_2 _ _ _ (proj1 Hfind)) as Hd.
  destruct (tf_blocks _ _ _ _ _ _ _ Hfile d Hd) as [Hst _]. rewrite Handle_decode by (apply (stored_handle_ok F _ (raw_of (d_es d))); [lia|done]).
  destruct (block_iter d Hd) as (bi & Ebi & Hbok & Hbc). rewrite Ebi. pose proof (Seek_best bi k Hbok Hk) as (Hsok & _ & Hbest). rewrite Hbc in Hbest.
  destruct opened as (_ & _ & Ef). rewrite Ef. set (absent := match filter_policy opt with Some _ => _ | None => _ end).
  destruct absent eqn:Eabs; cbn [fst snd].
  - split_and!; [done..|]. intros e Hb Hke. exfalso. pose proof (target_block k i d e Hk Hfind Hb Hke) as Hed. unfold absent in Eabs. revert Eabs.
    destruct (filter_policy opt) as [p|] eqn:Ep; [|done]. by rewrite (filter_finds p d e k Hrel Ep Hd Hed Hke).
  - assert (Hs' : status (Seek (Iter bi) k) = true) by (apply status_ok; exact Hsok). rewrite Hs'. split_and!; [done| |].
    + intros e He. change (cur (Seek (Iter bi) k)) with (cur (Seek bi k)) in He. rewrite He in Hbest. destruct Hbest as (Hin & HP & _). split; [by apply (block_elem d)|done].
    + intros e Hb Hke. pose proof (target_block k i d e Hk Hfind Hb Hke) as Hed. change (cur (Seek (Iter bi) k)) with (cur (Seek bi k)). destruct Hb as (He & HP & Hmin).
      destruct (cur (Seek bi k)) as [e'|]; [|by destruct (Hbest e Hed)]. destruct Hbest as (Hin' & HP' & Hmin'). f_equal.
      destruct (Hmin' e Hed HP) as [->|H1]; [done|]. destruct (Hmin e' (block_elem d e' Hd Hin') HP') as [->|H2]; [done|].
      destruct (klt_irrefl e); [by apply (entries_elem _ _ Hes)|]. apply (klt_trans e e' e); [by apply (entries_elem _ _ Hes)|apply (entries_elem _ _ Hes); by apply (block_elem d)|by apply (entries_elem _ _ Hes)|done..].
Qed.
End Opened.

(** C21: a table that was built without an error from entries in the order of their keys
    is opened, and its iterator obeys the interface: going through it from the first
    entry on gives exactly the entries that were added, whether or not checksums are
    verified, blocks are compressed and filters are kept, and its status stays ok. *)
Theorem table_roundtrip f es file verify : file_contents f = [] -> entries_ok es ->
  let t := TableBuilder_Finish (add_all_entries (TableBuilder_new f) es) in
  tb_status t = true -> lenZ (contents_of t) < 2 ^ 32 -> holds file (contents_of t) ->
  exists table, Table_Open file (lenZ (contents_of t)) = Some table
    /\ let it := Table_NewIterator table in
       iter_ok (Iterator := two_level_iterator (BlockReader table verify)) it
       /\ content (Iterator := two_level_iterator (BlockReader table verify)) it = es
       /\ listing (Iterator0 := two_level_iterator (BlockReader table verify)) it = es
       /\ two_status it = true.
Proof.
  intros Hf He t Hst Hlen Hh. destruct (Finish_file f es Hf He Hst Hlen) as (_ & L & FB & fh & mh & ih & Hfile).
  pose proof (Open_file _ es L FB fh mh ih file Hfile Hlen Hh) as Ho. eexists. split; [exact Ho|]. set (table := mkTable _ _ _ _) in *.
  destruct (index_iter _ es L FB fh mh ih file table Hfile He Hlen Hh Ho) as (it & Eit & Hok & Hc).
  destruct (table_blocks_ok _ es L FB fh mh ih file verify table Hfile He Hlen Hh Ho) as [Hbo Hbc]. unfold Table_NewIterator. rewrite Eit. cbv zeta.
  assert (Hok' : iter_ok (Iter it)) by exact Hok. assert (Hc' : content (Iter it) = index_entry <$> L) by exact Hc. rewrite <- Hc' in Hbo, Hbc.
  destruct (NewTwoLevelIterator_ok (BlockReader table verify) (Iter it) Hok' Hbo) as [H1 H2]. rewrite Hbc in H2.
  split_and!; [done..| |by apply (two_status_ok (BlockReader table verify))].
  destruct (listing_spec (Iterator0 := two_level_iterator (BlockReader table verify)) _ H1) as [Hs Hin]. simpl in Hin. rewrite H2 in Hin.
  apply klt_sorted_unique; [done|apply He| |done]. apply List.Forall_forall. intros k (e & -> & Hek)%list_elem_of_In%list_elem_of_fmap. apply (entries_elem es e He). by apply Hin.
Qed.
End Table.

(** ** A sample table *)

Definition sample_sorted : list ientry :=
  [mkEntry [97] 1 kTypeValue [49]; mkEntry [97; 98] 3 kTypeDeletion []; mkEntry [97; 98] 2 kTypeValue [50];
   mkEntry [97; 98; 99] 5 kTypeValue []; mkEntry [99] 4 kTypeValue [52; 53]].

Lemma ten_bits : 0 <= 10 < 2 ^ 31.
Proof. lia. Qed.

(** Small blocks, and filters with ten bits per key. *)
Definition sample_options : Options := mkOptions 40 2 true (Some (InternalFilterPolicy (BloomFilterPolicy 10 ten_bits))).

Lemma sample_entries_ok : entries_ok (KO := internal_order) (e_view <$> sample_sorted).
Proof.
  split; [| | |by vm_compute].
  - repeat (constructor; [|repeat (constructor; [by vm_compute|]); constructor]). constructor.
  - repeat (constructor; [eexists; split; [|reflexivity]; split; [repeat (constructor; [unfold is_byte; lia|]); constructor|by vm_compute|by vm_compute|by vm_compute|by (left + right)]|]). constructor.
  - repeat (constructor; [repeat (constructor; [unfold is_byte; lia|]); constructor|]). constructor.
Qed.

Definition sample_table : TableBuilder (WF := memory_file) :=
  let new := TableBuilder_new (WF := memory_file) sample_options [] in
  TableBuilder_Finish (SP := internal_separator) (WF := memory_file) id sample_options
    (add_all_entries (SP := internal_separator) (WF := memory_file) id sample_options new (e_view <$> sample_sorted)).

Lemma table_roundtrip_witness :
  let F := file_contents (WritableFile := memory_file) (tb_file (WF := memory_file) sample_table) in
  exists table, Table_Open id sample_options (Mmap_Read F) (lenZ F) = Some table
    /\ listing (H := internal_order) (Iterator0 := two_level_iterator (BlockReader id table true)) (Table_NewIterator table) = e_view <$> sample_sorted.
Proof.
  intros F.
  destruct (table_roundtrip (KO := internal_order) (WF := memory_file) id sample_options ltac:(done) [] (e_view <$> sample_sorted) (Mmap_Read F) true eq_refl sample_entries_ok)
    as (table & H1 & _ & _ & H2 & _); [by vm_compute..|apply Mmap_holds; by vm_compute|].
  exact (ex_intro _ table (conj H1 H2)).
Defined.
