(* ===== verification/LdbBuild.v ===== *)
(** * leveldb: a memtable becomes a table

    src/ext/leveldb/db/builder.cc writes what an iterator ranges over to a table file
    ([BuildTable]); [SaveValue] of db/version_set.cc takes the entry that a search in a
    table meets.  Together with [LdbTable] and [LdbMem]: a lookup in the table that a
    memtable was written to gives what a lookup in the memtable gives. *)

From Stdlib Require Import ZArith Lia.
From stdpp Require Import base list numbers option sorting.
From S2P Require Import Prelude ByteOrder WebappStr Session LdbCoding LdbMem LdbIter LdbMerge LdbBlock LdbSep LdbTwoLevel LdbFilter LdbFormat LdbTable.
Open Scope Z_scope.
Open Scope webapp_scope.

(** ** The code *)

Record FileMetaData := mkFileMeta { fm_number : Z; fm_file_size : Z; smallest : list Z; largest : list Z }.
#[global] Instance FileMetaData_eq_dec : EqDecision FileMetaData.
Proof. solve_decision. Defined.

Inductive SaverState := kNotFound | kFound (value : list Z) | kDeleted | kCorrupt.

(** [SaveValue], for the entry that [InternalGet] hands over, if any. *)
Definition SaveValue (user_key : list Z) (met : option entry) : SaverState :=
  match met with
  | None => kNotFound
  | Some (ik, v) =>
      match ParseInternalKey ik with
      | None => kCorrupt
      | Some parsed_key =>
          match Slice_compare (LdbMem.user_key parsed_key) user_key with
          | Eq => if type parsed_key =? kTypeValue then kFound v else kDeleted
          | _ => kNotFound
          end
      end
  end.

(** [LookupKey::internal_key]. *)
Definition internal_key (key : list Z) (s : Z) : list Z := key ++ EncodeFixed64 (PackSequenceAndType s kValueTypeForSeek).

Section Build.
#[local] Existing Instance internal_order.
Context `{CM : !Compression, WF : !WritableFile} {I : Type} `{!Iterator I, !HasStatus I}.
Context (address : Z -> Z) (opt : Options).
(** What the environment answers: creating, syncing and closing the file, and reading it. *)
Context (new_ok sync_ok close_ok : bool) (fresh : WFile) (opened_file : WFile -> RandomAccessFile).

Fixpoint build_loop (fuel : nat) (iter : I) (builder : TableBuilder) (meta : FileMetaData) : TableBuilder * FileMetaData :=
  match fuel with
  | O => (builder, meta)
  | S fuel =>
      match cur iter with
      | None => (builder, meta)
      | Some (key, value) =>
          build_loop fuel (Next iter) (TableBuilder_Add address opt builder key value)
            (mkFileMeta (fm_number meta) (fm_file_size meta) (smallest meta) key)
      end
  end.

(** [TableCache::NewIterator] of the new file, and its status. *)
Definition usable (file : RandomAccessFile) (file_size : Z) : bool :=
  match Table_Open address opt file file_size with
  | None => false
  | Some table => two_status (Table_NewIterator table)
  end.

(** The status, the file's data, and the file when it is kept. *)
Definition BuildTable (number : Z) (iter : I) : bool * FileMetaData * option WFile :=
  let iter := SeekToFirst iter in
  let meta := mkFileMeta number 0 [] [] in
  match cur iter with
  | None => (status iter, meta, None)
  | Some (key, _) =>
      if negb new_ok then (false, meta, None)
      else
        let meta := mkFileMeta number 0 key [] in
        let '(builder, meta) := build_loop (S (length (content iter))) iter (TableBuilder_new opt fresh) meta in
        let builder := TableBuilder_Finish address opt builder in
        let s := tb_status builder in
        let meta := if s then mkFileMeta number (tb_offset builder) (smallest meta) (largest meta) else meta in
        let s := if s then sync_ok else false in
        let s := if s then close_ok else false in
        let s := if s then usable (opened_file (tb_file builder)) (fm_file_size meta) else false in
        let s := if status iter then s else false in
        (s, meta, if s && (0 <? fm_file_size meta) then Some (tb_file builder) else None)
  end.

(** ** The loop goes through the whole iterator *)

Lemma build_loop_walk fuel iter b meta :
  (build_loop fuel iter b meta).1 = add_all_entries address opt b (walk fuel iter)
  /\ smallest (build_loop fuel iter b meta).2 = smallest meta
  /\ largest (build_loop fuel iter b meta).2 = default (largest meta) (fst <$> list.last (walk fuel iter)).
Proof.
  revert iter b meta. induction fuel as [|fuel IH]; intros iter b meta; [done|]. cbn [build_loop walk].
  destruct (cur iter) as [[k v]|]; [|done]. destruct (IH (Next iter) (TableBuilder_Add address opt b k v) (mkFileMeta (fm_number meta) (fm_file_size meta) (smallest meta) k)) as (H1 & H2 & H3).
  split_and!; [by rewrite H1|by rewrite H2|]. rewrite H3. cbn [largest]. destruct (walk fuel (Next iter)) as [|x l]; [done|].
  change (list.last ((k, v) :: x :: l)) with (list.last (x :: l)). destruct (list.last (x :: l)) eqn:E; [done|by apply last_None in E].
Qed.

Lemma walk_first fuel iter k v : cur iter = Some (k, v) -> head (walk (S fuel) iter) = Some (k, v).
Proof. intros E. cbn [walk]. by rewrite E. Qed.

(** A table that was built and kept. *)
Lemma BuildTable_ok number iter meta f es : 1 <= block_restart_interval opt -> file_contents fresh = [] -> iter_ok iter ->
  entries_ok es -> (forall e, e ∈ content iter <-> e ∈ es) ->
  BuildTable number iter = (true, meta, Some f) -> lenZ (file_contents f) < 2 ^ 32 ->
  (exists L FB fh mh ih, table_file opt (file_contents f) es L FB fh mh ih) /\ fm_file_size meta = lenZ (file_contents f)
  /\ smallest meta = default [] (fst <$> head es) /\ largest meta = default [] (fst <$> list.last es).
Proof.
  intros Hint Hfresh Hok He Hin. unfold BuildTable. destruct (SeekToFirst_best iter Hok) as (Hok' & Hc & _). pose proof (status_ok _ Hok') as Hst. rewrite Hst.
  pose proof (walk_sorted iter es Hok (eo_sorted _ He) (eo_dom _ He) Hin) as Ew. set (it := SeekToFirst iter) in *.
  destruct (cur it) as [[k v]|] eqn:Ecur; [|done]. destruct (negb new_ok); [done|].
  pose proof (build_loop_walk (S (length (content it))) it (TableBuilder_new opt fresh) (mkFileMeta number 0 k [])) as (H1 & H2 & H3).
  pose proof (walk_first (length (content it)) it k v Ecur) as Hhd. rewrite Ew in H1, H3, Hhd.
  destruct (build_loop _ it _ _) as [b m]. cbn [fst snd] in *. subst b. set (t := TableBuilder_Finish address opt _).
  destruct (tb_status t) eqn:Et; [|done]. destruct (if (if true then sync_ok else false) then _ else _) eqn:Eu; [|done]. intros E Hlen.
  injection E as Eus <- Ef. rewrite Eus in Ef. destruct (true && _); [|done]. injection Ef as <-.
  destruct (Finish_file address opt Hint fresh es Hfresh He Et Hlen) as [Ho Hf]. split_and!; [done|exact Ho| |]; simpl.
  - rewrite H2, Hhd. done.
  - exact H3.
Qed.

(** ** Without errors *)

Context (Append_works : forall f data, (Append f data).1 = true).

Lemma raw_works t c ty : tb_status (WriteRawBlock address t c ty).1 = true.
Proof.
  unfold WriteRawBlock. pose proof (Append_works (tb_file t) c) as H1. destruct (Append (tb_file t) c) as [[|] f1]; [|done].
  pose proof (Append_works f1 (block_trailer (address (tb_offset t)) ty c)) as H2. by destruct (Append f1 _) as [[|] f2].
Qed.

Lemma block_works t b : tb_status (WriteBlock address opt t b).1 = true.
Proof. unfold WriteBlock. destruct (choose_contents _ _) as [c ty]. apply raw_works. Qed.

Lemma Flush_works t : tb_status t = true -> tb_status (Flush address opt t) = true.
Proof.
  intros Ht. unfold Flush. rewrite Ht. cbn [negb]. destruct (buffer_ (data_block t)); [done|].
  pose proof (block_works t (data_block t)) as Hw. by destruct (WriteBlock address opt t (data_block t)).
Qed.

Lemma Add_works t k v : tb_status t = true -> tb_status (TableBuilder_Add address opt t k v) = true.
Proof.
  intros Ht. unfold TableBuilder_Add. rewrite Ht. cbn [negb]. destruct (pending_index_entry t); destruct (_ <=? _); try (by apply Flush_works); done.
Qed.

Lemma Finish_works t : tb_status t = true -> tb_status (TableBuilder_Finish address opt t) = true.
Proof.
  intros Ht. unfold TableBuilder_Finish. assert (H1 : tb_status (close (Flush address opt t)) = true) by (by apply Flush_works).
  set (t1 := close _) in *. clearbody t1. assert (H2 : tb_status (write_filter address opt t1).1 = true).
  { unfold write_filter. destruct (filter_policy opt), (filter_block t1); try done. rewrite H1. apply raw_works. }
  destruct (write_filter address opt t1) as [t2 fh]. cbn [fst] in H2. assert (H3 : tb_status (write_metaindex address opt t2 fh).1 = true).
  { unfold write_metaindex. rewrite H2. apply block_works. }
  destruct (write_metaindex address opt t2 fh) as [t3 mh]. cbn [fst] in H3. assert (H4 : tb_status (write_index address opt t3).1 = true).
  { unfold write_index. rewrite H3. apply block_works. }
  destruct (write_index address opt t3) as [t4 ih]. cbn [fst] in H4. unfold write_footer. rewrite H4.
  match goal with |- context [Append ?f ?d] => pose proof (Append_works f d) as H5; by destruct (Append f d) as [[|] f5] end.
Qed.

Lemma built_works es : tb_status (TableBuilder_Finish address opt (add_all_entries address opt (TableBuilder_new opt fresh) es)) = true.
Proof.
  apply Finish_works. induction es as [|e es IH] using rev_ind; [done|]. unfold add_all_entries in *. rewrite foldl_snoc. by apply Add_works.
Qed.

Context (Hint : 1 <= block_restart_interval opt) (Hfresh : file_contents fresh = []).
Context (Hnew : new_ok = true) (Hsync : sync_ok = true) (Hclose : close_ok = true).
Context (Hread : forall f, lenZ (file_contents f) < 2 ^ 32 -> holds (opened_file f) (file_contents f)).

Definition written (es : list entry) : WFile :=
  tb_file (TableBuilder_Finish address opt (add_all_entries address opt (TableBuilder_new opt fresh) es)).

Abbreviation table_of es := (TableBuilder_Finish address opt (add_all_entries address opt (TableBuilder_new opt fresh) es)).

(** A table without errors is not empty, and can be read. *)
Lemma written_size es : entries_ok es -> lenZ (file_contents (written es)) < 2 ^ 32 -> tb_status (table_of es) = true ->
  tb_offset (table_of es) = lenZ (file_contents (written es)) /\ 0 < tb_offset (table_of es).
Proof.
  intros He Hlen Hw. destruct (Finish_file address opt Hint fresh es Hfresh He Hw Hlen) as (Ho & L & FB & fh & mh & ih & Hfile). split; [exact Ho|]. rewrite Ho.
  destruct (tf_footer _ _ _ _ _ _ _ _ Hfile) as [F0 EF]. destruct (tf_handles _ _ _ _ _ _ _ _ Hfile) as [Hmh Hih].
  destruct (Footer_roundtrip (mkFooter mh ih) Hmh Hih) as [Hfl _]. rewrite EF, length_app, Nat2Z.inj_add, Hfl. unfold kEncodedLength, kMaxEncodedLength. lia.
Qed.

Lemma written_usable es : entries_ok es -> lenZ (file_contents (written es)) < 2 ^ 32 -> tb_status (table_of es) = true ->
  usable (opened_file (written es)) (tb_offset (table_of es)) = true.
Proof.
  intros He Hlen Hw. unfold written in *. set (t := table_of es) in *.
  destruct (Finish_file address opt Hint fresh es Hfresh He Hw Hlen) as (Ho & L & FB & fh & mh & ih & Hfile). fold t in Ho, Hfile. rewrite Ho.
  pose proof (Open_file address opt Hint _ es L FB fh mh ih _ Hfile Hlen (Hread (tb_file t) Hlen)) as Hopen.
  unfold usable. rewrite Hopen. destruct (index_iter address opt Hint _ es L FB fh mh ih _ _ Hfile He Hlen (Hread (tb_file t) Hlen) Hopen) as (ii & Eii & Hiok & _).
  unfold Table_NewIterator. rewrite Eii. assert (Hs : status (Iter ii) = true) by (apply status_ok; exact Hiok).
  unfold two_status. cbn [NewTwoLevelIterator index_iter_ data_iter_ status_]. by rewrite Hs.
Qed.

Lemma BuildTable_works number iter es : iter_ok iter -> entries_ok es -> (forall e, e ∈ content iter <-> e ∈ es) -> es <> [] ->
  lenZ (file_contents (written es)) < 2 ^ 32 -> exists meta, BuildTable number iter = (true, meta, Some (written es)).
Proof.
  intros Hok He Hin Hne Hlen. unfold BuildTable. destruct (SeekToFirst_best iter Hok) as (Hok' & Hc & Hb). pose proof (status_ok _ Hok') as Hst. rewrite Hst.
  pose proof (walk_sorted iter es Hok (eo_sorted _ He) (eo_dom _ He) Hin) as Ew. set (it := SeekToFirst iter) in *.
  destruct (cur it) as [[k v]|] eqn:Ecur; [|cbn [walk] in Ew; rewrite Ecur in Ew; by destruct Hne]. rewrite Hnew. cbn [negb].
  pose proof (build_loop_walk (S (length (content it))) it (TableBuilder_new opt fresh) (mkFileMeta number 0 k [])) as (H1 & _ & _).
  rewrite Ew in H1. destruct (build_loop _ it _ _) as [b m]. cbn [fst] in H1. subst b. pose proof (built_works es) as Hw.
  pose proof (written_usable es He Hlen Hw) as Hu. destruct (written_size es He Hlen Hw) as [_ Hpos]. unfold written in *. set (t := TableBuilder_Finish address opt _) in *. rewrite Hw, Hsync, Hclose. cbn [fm_file_size].
  rewrite Hu, (proj2 (Z.ltb_lt 0 _)) by done. by eexists.
Qed.

(** Success means that the table was written and kept. *)
Lemma BuildTable_kept number iter es meta file : iter_ok iter -> entries_ok es -> (forall e, e ∈ content iter <-> e ∈ es) -> es <> [] ->
  lenZ (file_contents (written es)) < 2 ^ 32 -> BuildTable number iter = (true, meta, file) -> file = Some (written es).
Proof.
  intros Hok He Hin Hne Hlen. unfold BuildTable. destruct (SeekToFirst_best iter Hok) as (Hok' & Hc & Hb).
  pose proof (walk_sorted iter es Hok (eo_sorted _ He) (eo_dom _ He) Hin) as Ew. set (it := SeekToFirst iter) in *.
  destruct (cur it) as [[k v]|] eqn:Ecur; [|cbn [walk] in Ew; rewrite Ecur in Ew; by destruct Hne]. destruct (negb new_ok); [done|].
  pose proof (build_loop_walk (S (length (content it))) it (TableBuilder_new opt fresh) (mkFileMeta number 0 k [])) as (H1 & _ & _).
  rewrite Ew in H1. destruct (build_loop _ it _ _) as [b m]. cbn [fst] in H1. subst b. unfold written in *. set (t := TableBuilder_Finish address opt _) in *.
  destruct (tb_status t) eqn:Et; [|by destruct (status it)]. destruct (written_size es He Hlen Et) as [_ Hpos%Z.ltb_lt]. fold t in Hpos. cbn [fm_file_size].
  rewrite Hpos, andb_true_r. intros E. injection E as E1 _ E2. rewrite E1 in E2. by rewrite <- E2.
Qed.
End Build.

(** ** Lookups *)

#[export] Program Instance mem_has_status : @HasStatus internal_order MemTableIterator mem_iterator := { status _ := true }.
Next Obligation. done. Qed.

(** The answer of the memtable, as that of a table. *)
Definition saver_of (r : mem_result) : SaverState :=
  match r with Missing => kNotFound | Found v => kFound v | Deleted => kDeleted end.

Lemma internal_key_target key s : 0 <= s < 2 ^ 56 -> internal_key key s = ikey (target key s).
Proof.
  intros Hs. destruct (pack_tag s kTypeValue) as (Hp & _); [done|by right|]. unfold internal_key, ikey, target, e_tag, kValueTypeForSeek. cbn [e_key e_seq e_type]. by rewrite <- Hp.
Qed.

(** The key of an entry, taken apart. *)
Lemma Parse_ikey e : entry_ok e -> ParseInternalKey (ikey e) = Some (mkParsed (e_key e) (e_seq e) (e_type e)).
Proof.
  intros He. unfold ParseInternalKey. pose proof (ikey_length e) as Hl. rewrite (proj2 (Nat.ltb_ge _ _)) by lia. unfold ikey. rewrite key_tag_app, ExtractUserKey_app by (by apply e_tag_range).
  unfold e_tag. destruct (pack_tag (e_seq e) (e_type e)) as (_ & _ & -> & ->); [apply He..|]. by destruct (ok_type e He) as [-> | ->].
Qed.

Lemma SaveValue_entry key e : entry_ok e ->
  SaveValue key (Some (e_view e)) = if decide (e_key e = key) then saver_of (outcome e) else kNotFound.
Proof.
  intros He. unfold SaveValue, e_view.
  rewrite (Parse_ikey e He). cbn [LdbMem.user_key type]. destruct (decide (e_key e = key)) as [->|Hne].
  - rewrite (proj2 (Slice_compare_eq key key) eq_refl). unfold outcome. by destruct (e_type e =? kTypeValue).
  - by destruct (Slice_compare (e_key e) key) eqn:E; [apply Slice_compare_eq in E|..].
Qed.

(** Sorted entries of a memtable, as a table can hold them. *)
Lemma view_entries_ok l : Forall entry_ok l -> StronglySorted e_lt l -> Forall (fun e => bytes_ok (e_value e)) l -> load (e_view <$> l) < 2 ^ 31 ->
  entries_ok (KO := internal_order) (e_view <$> l).
Proof.
  intros Hok Hs Hv Hl. split; [|..|done].
  - clear Hv Hl. induction Hs as [|e l Hs IH He]; [constructor|]. apply Forall_cons_1 in Hok as [Hoe Hok]. simpl. constructor; [by apply IH|].
    apply Forall_fmap, List.Forall_forall. intros x Hx%list_elem_of_In. unfold klt. simpl. rewrite InternalKey_ikey; [by apply (Forall_elem _ _ _ He)|done|by apply (Forall_elem _ _ _ Hok)].
  - rewrite <- list_fmap_compose. apply Forall_fmap. eapply Forall_impl; [exact Hok|]. intros e He. by exists e.
  - rewrite <- list_fmap_compose. by apply Forall_fmap.
Qed.

(** The first entry of the table not before the target is the one that the memtable's search meets. *)
Lemma seek_best l t : Forall entry_ok l -> StronglySorted e_lt l -> entry_ok t ->
  match e_seek t l with
  | [] => forall e, e ∈ l -> e_compare e t = Lt
  | h :: _ => best (klt (H := internal_order)) (fun x => cmp (KeyOrder := internal_order) x.1 (ikey t) <> Lt) (e_view <$> l) (Some (e_view h))
  end.
Proof.
  intros Hok Hs Ht. pose proof (fun e => elem_of_e_seek t l e Hs) as Hin. pose proof (fun h rest => e_seek_head t l h rest Hs) as Hhead.
  destruct (e_seek t l) as [|h rest].
  - intros e He. destruct (e_compare e t) eqn:E; [exfalso|done|exfalso]; (apply (proj1 (elem_of_nil e)), Hin; split; [done|congruence]).
  - destruct (proj1 (Hin h)) as [Hh Hc]; [by left|]. pose proof (Forall_elem _ _ _ Hok Hh) as Hokh. split; [by apply list_elem_of_fmap_2|]. split; [simpl; by rewrite InternalKey_ikey|].
    intros x (e & -> & He)%list_elem_of_fmap. pose proof (Forall_elem _ _ _ Hok He) as Hoke. unfold klt. simpl. rewrite !InternalKey_ikey by done. intros Hce.
    destruct (Hhead h rest eq_refl e He Hce) as [->|?]; [by left|by right].
Qed.

Section Flush.
Context `{CM : !Compression, WF : !WritableFile}.
Context (address : Z -> Z) (opt : Options) (verify : bool).
#[local] Existing Instance internal_order.

(** The filters, if any, are those of user keys. *)
Definition internal_filters : Prop := match filter_policy opt with Some p => exists q, p = InternalFilterPolicy q | None => True end.

(** A lookup in a table of sorted entries. *)
Lemma table_lookup F l L FB fh mh ih file t key s : 1 <= block_restart_interval opt -> internal_filters ->
  table_file opt F (e_view <$> l) L FB fh mh ih -> entries_ok (e_view <$> l) -> lenZ F < 2 ^ 32 -> holds file F -> Table_Open address opt file (lenZ F) = Some t ->
  Forall entry_ok l -> StronglySorted e_lt l -> bytes_ok key -> lenZ key + 8 < 2 ^ 32 -> 0 <= s < 2 ^ 56 ->
  let r := InternalGet address opt t verify (internal_key key s) in
  r.2 = true /\ ((exists e, newest l key s e /\ SaveValue key r.1 = saver_of (outcome e))
    \/ ((forall x, x ∈ l -> e_key x = key -> s < e_seq x) /\ SaveValue key r.1 = kNotFound)).
Proof.
  intros Hint Hif Hfile He Hlen Hh Ho Hok Hs Hk Hkl Hs56. rewrite internal_key_target by done.
  assert (Ht : entry_ok (target key s)) by (split; simpl; [done..|lia|done|by right]). assert (Hdom : dom (ikey (target key s))) by (by exists (target key s)).
  assert (Hrel : filters_related opt).
  { intros p a b f Ep Hab. unfold internal_filters in Hif. rewrite Ep in Hif. destruct Hif as [q ->]. simpl in *. by rewrite Hab. }
  destruct (InternalGet_ok address opt Hint F _ L FB fh mh ih file verify t Hfile He Hlen Hh Ho (ikey (target key s)) Hrel Hdom) as (H1 & H2 & H3).
  intros r. fold r in H1, H2, H3. split; [done|]. pose proof (seek_best l (target key s) Hok Hs Ht) as Hb.
  destruct (seek_newest l key s Hok Hs) as [(e & rest & Esk & Hek & Hn)|[Hn _]].
  - left. exists e. split; [done|]. rewrite Esk in Hb. rewrite (H3 (e_view e) Hb) by (simpl; by rewrite !ikey_user, Hek).
    rewrite SaveValue_entry by (by apply (Forall_elem _ _ _ Hok), Hn). by rewrite decide_True.
  - right. split; [done|]. destruct r.1 as [x|]; [|done]. destruct (H2 x eq_refl) as [(e & -> & He')%list_elem_of_fmap Hc]. pose proof (Forall_elem _ _ _ Hok He') as Hoke.
    rewrite SaveValue_entry by done. rewrite decide_False; [done|]. intros Hek. specialize (Hn e He' Hek). simpl in Hc. rewrite InternalKey_ikey in Hc by done. apply target_compare in Hc; [lia|done..].
Qed.

Context (new_ok sync_ok close_ok : bool) (fresh : WFile) (opened_file : WFile -> RandomAccessFile).

(** The entries of a memtable in order. *)
Lemma memtable_sorted es : Forall entry_ok es -> distinct es -> Forall (fun e => bytes_ok (e_value e)) es -> load (e_view <$> es) < 2 ^ 31 ->
  exists l, l ≡ₚ es /\ Forall entry_ok l /\ StronglySorted e_lt l /\ entries_ok (e_view <$> l)
    /\ iter_ok (NewIterator (adds es)) /\ (forall e, e ∈ content (NewIterator (adds es)) <-> e ∈ e_view <$> l).
Proof.
  intros Hok Hd Hv Hl. destruct (adds_sorted es Hok Hd) as (l & _ & Hp & Hs). destruct (NewIterator_ok es Hok Hd) as [Hi Hc].
  assert (Hokl : Forall entry_ok l) by (by rewrite Hp). exists l. split_and!; [done..| |done|].
  - apply view_entries_ok; [done..|by rewrite Hp|]. assert (Hperm : forall a b, a ≡ₚ b -> load a = load b); [|by rewrite (Hperm _ (e_view <$> es)) by (by rewrite Hp)].
    induction 1; simpl; lia.
  - intros e. by rewrite Hc, Hp.
Qed.

(** C12: when a memtable is written to a table, every lookup in the table answers as the
    lookup in the memtable does: the newest value that is visible at the sequence number,
    that the key is deleted, or nothing.  This holds whenever [BuildTable] reports
    success, whatever filters and compression are chosen; and if the environment does not
    fail, it reports success. *)
Theorem memtable_to_table es number : 1 <= block_restart_interval opt -> internal_filters -> file_contents fresh = [] ->
  Forall entry_ok es -> distinct es -> Forall (fun e => bytes_ok (e_value e)) es -> load (e_view <$> es) < 2 ^ 31 ->
  let build := BuildTable address opt new_ok sync_ok close_ok fresh opened_file number (NewIterator (adds es)) in
  (forall meta f, build = (true, meta, Some f) -> lenZ (file_contents f) < 2 ^ 32 -> holds (opened_file f) (file_contents f) ->
    exists t, Table_Open address opt (opened_file f) (fm_file_size meta) = Some t
      /\ forall key s, bytes_ok key -> lenZ key + 8 < 2 ^ 32 -> 0 <= s < 2 ^ 56 ->
         let r := InternalGet address opt t verify (internal_key key s) in r.2 = true /\ SaveValue key r.1 = saver_of (Get (adds es) key s))
  /\ (es <> [] -> (forall f data, (Append f data).1 = true) -> new_ok = true -> sync_ok = true -> close_ok = true ->
      (forall f, holds (opened_file f) (file_contents f)) ->
      lenZ (file_contents (written address opt fresh (listing (NewIterator (adds es))))) < 2 ^ 32 ->
      exists meta f, build = (true, meta, Some f)).
Proof.
  intros Hint Hif Hfresh Hok Hd Hv Hload build. destruct (memtable_sorted es Hok Hd Hv Hload) as (l & Hp & Hokl & Hs & Hel & Hi & Hc). split.
  - intros meta f Hb Hlen Hh. destruct (BuildTable_ok address opt new_ok sync_ok close_ok fresh opened_file number _ meta f (e_view <$> l) Hint Hfresh Hi Hel Hc Hb Hlen)
      as ((L & FB & fh & mh & ih & Hfile) & -> & _ & _).
    pose proof (Open_file address opt Hint _ _ L FB fh mh ih _ Hfile Hlen Hh) as Ho. eexists. split; [exact Ho|]. intros key s Hk Hkl Hs56.
    destruct (table_lookup _ l L FB fh mh ih _ _ key s Hint Hif Hfile Hel Hlen Hh Ho Hokl Hs Hk Hkl Hs56) as [H1 H2]. split; [done|].
    destruct (Get_adds es key s Hok Hd Hk Hkl Hs56) as [(e & Hn & ->)|[Hn ->]]; destruct H2 as [(e' & Hn' & ->)|[Hn' ->]].
    + by rewrite (newest_unique es key s e e' Hd Hn (newest_perm es l key s e' Hp Hn')).
    + exfalso. destruct Hn as (He & Hke & Hse & _). rewrite <- Hp in He. specialize (Hn' e He Hke). lia.
    + exfalso. destruct Hn' as (He & Hke & Hse & _). rewrite Hp in He. specialize (Hn e' He Hke). lia.
    + done.
  - intros Hne Happ Hn1 Hn2 Hn3 Hread Hlen. unfold listing in Hlen. destruct (SeekToFirst_best _ Hi) as (_ & Hsc & _). rewrite <- Hsc in Hlen.
    rewrite (walk_sorted _ (e_view <$> l) Hi (eo_sorted _ Hel) (eo_dom _ Hel) Hc) in Hlen.
    destruct (BuildTable_works address opt new_ok sync_ok close_ok fresh opened_file Happ Hint Hfresh Hn1 Hn2 Hn3 (fun f _ => Hread f) number _ (e_view <$> l) Hi Hel Hc) as [meta Hm]; [|done|by exists meta, (written address opt fresh (e_view <$> l))].
    intros E%fmap_nil_inv. apply Hne. apply Permutation_nil_r. by rewrite <- Hp, E.
Qed.
End Flush.

Definition sample_build : bool * FileMetaData * option (list Z) :=
  BuildTable (WF := memory_file) id sample_options true true true [] Mmap_Read 7 (NewIterator (adds sample_entries)).

Lemma sample_build_ok : exists meta f, sample_build = (true, meta, Some f) /\ lenZ f < 2 ^ 32.
Proof. eexists _, _. split; [vm_compute; reflexivity|by vm_compute]. Qed.

Lemma memtable_to_table_witness :
  exists meta f t, sample_build = (true, meta, Some f) /\ Table_Open id sample_options (Mmap_Read f) (fm_file_size meta) = Some t
    /\ SaveValue [97; 98] (InternalGet (KO := internal_order) id sample_options t true (internal_key [97; 98] 2)).1 = kFound [50]
    /\ SaveValue [97; 98] (InternalGet (KO := internal_order) id sample_options t true (internal_key [97; 98] 4)).1 = kDeleted.
Proof.
  destruct sample_build_ok as (meta & f & Eb & Hl).
  destruct (memtable_to_table (WF := memory_file) id sample_options true true true true [] Mmap_Read sample_entries 7) as [H1 _].
  - done.
  - by exists (BloomFilterPolicy 10 ten_bits).
  - done.
  - repeat constructor; try (vm_compute; congruence); (by left) || (by right).
  - unfold distinct. apply (bool_decide_unpack (NoDup (e_seq <$> sample_entries))). vm_compute. exact I.
  - repeat constructor; vm_compute; congruence.
  - by vm_compute.
  - destruct (H1 meta f Eb Hl (Mmap_holds f (Z.lt_trans _ (2 ^ 32) (2 ^ 64) Hl eq_refl))) as (t & Ht & Hall).
    assert (Hb : bytes_ok [97; 98]) by (repeat constructor; vm_compute; congruence).
    assert (H2 : 0 <= 2 < 2 ^ 56) by lia. assert (H4 : 0 <= 4 < 2 ^ 56) by lia.
    exact (ex_intro _ meta (ex_intro _ f (ex_intro _ t (conj Eb (conj Ht
      (conj (proj2 (Hall [97; 98] 2 Hb eq_refl H2)) (proj2 (Hall [97; 98] 4 Hb eq_refl H4)))))))).
Defined.
