(* ===== verification/LdbVersion.v ===== *)
(** * leveldb: versions

    A version (src/ext/leveldb/db/version_set.cc) is the set of tables that make up the
    database at some moment, in seven levels.  The tables of level 0 are memtables as
    they were written and may overlap; those of a deeper level are disjoint and in
    order.  Here are the searches in a version: [FindFile], [SomeFileOverlapsRange],
    [Version_Get], [PickLevelForMemTableOutput] and [GetOverlappingInputs].  What a
    version relies on is the class [Tables], the promise of db/table_cache.cc. *)

From Stdlib Require Import ZArith Lia.
From stdpp Require Import base list numbers option sorting.
From S2P Require Import Prelude ByteOrder WebappStr Session LdbCoding LdbMem LdbIter LdbMerge LdbBlock LdbSep LdbTable LdbBuild.
Open Scope Z_scope.
Open Scope webapp_scope.

(** ** The code *)

Definition kNumLevels : nat := 7.
Definition kMaxMemCompactLevel : nat := 2.

(** The files of a version, by level. *)
Abbreviation Version := (list (list FileMetaData)).
Definition files_ (v : Version) (level : nat) : list FileMetaData := default [] (v !! level).

(** The comparisons of the code, as tests. *)
Definition is_lt (c : comparison) : bool := match c with Lt => true | _ => false end.
Definition is_gt (c : comparison) : bool := match c with Gt => true | _ => false end.

(** [InternalKey::user_key]. *)
Definition small_key (f : FileMetaData) : list Z := ExtractUserKey (smallest f).
Definition large_key (f : FileMetaData) : list Z := ExtractUserKey (largest f).

Fixpoint find_loop (fuel : nat) (files : list FileMetaData) (key : list Z) (left right : Z) : Z :=
  match fuel with
  | O => right
  | S fuel =>
      if left <? right then
        let mid := u32 (left + right) / 2 in
        match files !! Z.to_nat mid with
        | None => right
        | Some f => if is_lt (InternalKey_Compare (largest f) key) then find_loop fuel files key (u32 (mid + 1)) right
                    else find_loop fuel files key left mid
        end
      else right
  end.
Definition FindFile (files : list FileMetaData) (key : list Z) : Z :=
  find_loop (S (length files)) files key 0 (u32 (lenZ files)).

(** [None] is the NULL that stands before, or after, all keys. *)
Definition AfterFile (user_key : option (list Z)) (f : FileMetaData) : bool :=
  match user_key with None => false | Some k => is_gt (Slice_compare k (large_key f)) end.
Definition BeforeFile (user_key : option (list Z)) (f : FileMetaData) : bool :=
  match user_key with None => false | Some k => is_lt (Slice_compare k (small_key f)) end.

Definition SomeFileOverlapsRange (disjoint_sorted_files : bool) (files : list FileMetaData) (smallest_user_key largest_user_key : option (list Z)) : bool :=
  if negb disjoint_sorted_files
  then existsb (fun f => negb (AfterFile smallest_user_key f || BeforeFile largest_user_key f)) files
  else
    let index := match smallest_user_key with None => 0 | Some k => FindFile files (internal_key k kMaxSequenceNumber) end in
    match files !! Z.to_nat index with
    | None => false
    | Some f => negb (BeforeFile largest_user_key f)
    end.
Definition OverlapInLevel (v : Version) (level : nat) (smallest_user_key largest_user_key : option (list Z)) : bool :=
  SomeFileOverlapsRange (0 <? level)%nat (files_ v level) smallest_user_key largest_user_key.

(** [GetOverlappingInputs] takes user keys: [begin] and [end_] are used for nothing else.
    A file of level 0 that widens the range makes the search start again. *)
Fixpoint overlap_loop (level : nat) (fuel : nat) (all files : list FileMetaData) (user_begin user_end : option (list Z)) (inputs : list FileMetaData)
    : list FileMetaData :=
  match fuel, files with
  | O, _ | _, [] => inputs
  | S fuel, f :: files =>
      if match user_begin with Some b => is_lt (Slice_compare (large_key f) b) | None => false end
      then overlap_loop level fuel all files user_begin user_end inputs
      else if match user_end with Some e => is_gt (Slice_compare (small_key f) e) | None => false end
      then overlap_loop level fuel all files user_begin user_end inputs
      else if (level =? 0)%nat then
        if match user_begin with Some b => is_lt (Slice_compare (small_key f) b) | None => false end
        then overlap_loop level fuel all all (Some (small_key f)) user_end []
        else if match user_end with Some e => is_gt (Slice_compare (large_key f) e) | None => false end
        then overlap_loop level fuel all all user_begin (Some (large_key f)) []
        else overlap_loop level fuel all files user_begin user_end (inputs ++ [f])
      else overlap_loop level fuel all files user_begin user_end (inputs ++ [f])
  end.
(** Each end of the range can move once per file at most. *)
Definition overlap_fuel (n : nat) : nat := (S n * S (2 * n))%nat.
Definition GetOverlappingInputs (v : Version) (level : nat) (begin end_ : option (list Z)) : list FileMetaData :=
  let files := files_ v level in
  overlap_loop level (overlap_fuel (length files)) files files begin end_ [].

(** The inputs that [PickLevelForMemTableOutput] collects are not used. *)
Fixpoint pick_loop (fuel : nat) (v : Version) (smallest_user_key largest_user_key : list Z) (level : nat) : nat :=
  match fuel with
  | O => level
  | S fuel =>
      if (level <? kMaxMemCompactLevel)%nat then
        if OverlapInLevel v (level + 1) (Some smallest_user_key) (Some largest_user_key) then level
        else pick_loop fuel v smallest_user_key largest_user_key (level + 1)
      else level
  end.
Definition PickLevelForMemTableOutput (v : Version) (smallest_user_key largest_user_key : list Z) : nat :=
  if OverlapInLevel v 0 (Some smallest_user_key) (Some largest_user_key) then 0%nat
  else pick_loop (S kMaxMemCompactLevel) v smallest_user_key largest_user_key 0.

(** [NewestFirst], for [std::sort]. *)
Definition newest_first (a b : FileMetaData) : Prop := fm_number b <= fm_number a.
#[global] Instance newest_first_dec : RelDecision newest_first.
Proof. intros a b. unfold newest_first. apply _. Defined.
#[global] Instance newest_first_total : Total newest_first.
Proof. intros a b. unfold newest_first. lia. Qed.
#[global] Instance newest_first_trans : Transitive newest_first.
Proof. intros a b c. unfold newest_first. lia. Qed.

(** The files of a level in which the key can be, the newest first. *)
Definition in_range (user_key : list Z) (f : FileMetaData) : bool :=
  negb (is_lt (Slice_compare user_key (small_key f))) && negb (is_gt (Slice_compare user_key (large_key f))).
Definition level_files (v : Version) (level : nat) (user_key ikey : list Z) : list FileMetaData :=
  let files := files_ v level in
  match level with
  | O => merge_sort newest_first (List.filter (in_range user_key) files)
  | S _ =>
      match files !! Z.to_nat (FindFile files ikey) with
      | None => []
      | Some f => if is_lt (Slice_compare user_key (small_key f)) then [] else [f]
      end
  end.

Inductive get_status := GetOK (value : list Z) | NotFound | KeyCorruption | TableError.
(** [last_file_read] with its level, and [stats->seek_file]. *)
Record seeks := mkSeeks { last_file_read : option (nat * FileMetaData); seek_file : option (nat * FileMetaData) }.
Definition charge (st : seeks) (level : nat) (f : FileMetaData) : seeks :=
  mkSeeks (Some (level, f))
    (match last_file_read st, seek_file st with
     | Some l, None => Some l
     | _, s => s
     end).

Section Get.
(** [TableCache::Get] of a file, by its number and size: whether it worked, and the
    entry that is handed to [SaveValue]. *)
Context (cache_get : Z -> Z -> list Z -> option entry * bool).

(** The files of a level; [None]: keep searching. *)
Fixpoint search_files (level : nat) (files : list FileMetaData) (user_key ikey : list Z) (st : seeks) : option get_status * seeks :=
  match files with
  | [] => (None, st)
  | f :: files =>
      let st := charge st level f in
      let '(met, ok) := cache_get (fm_number f) (fm_file_size f) ikey in
      if negb ok then (Some TableError, st)
      else
        match SaveValue user_key met with
        | kNotFound => search_files level files user_key ikey st
        | kFound value => (Some (GetOK value), st)
        | kDeleted => (Some NotFound, st)
        | kCorrupt => (Some KeyCorruption, st)
        end
  end.
Fixpoint search_levels (n : nat) (v : Version) (user_key ikey : list Z) (st : seeks) : get_status * seeks :=
  match n with
  | O => (NotFound, st)
  | S m =>
      let level := (kNumLevels - n)%nat in
      match search_files level (level_files v level user_key ikey) user_key ikey st with
      | (Some s, st) => (s, st)
      | (None, st) => search_levels m v user_key ikey st
      end
  end.
Definition Version_Get (v : Version) (user_key : list Z) (snapshot : Z) : get_status * seeks :=
  search_levels kNumLevels v user_key (internal_key user_key snapshot) (mkSeeks None None).
End Get.

(** [ForEachOverlapping], for a function that says whether to go on: the files in the
    order in which it is called. *)
Definition overlapping_files (v : Version) (user_key ikey : list Z) : list (nat * FileMetaData) :=
  mjoin ((fun level => (fun f => (level, f)) <$> level_files v level user_key ikey) <$> seq 0 kNumLevels).
Fixpoint for_each {S} (func : S -> nat -> FileMetaData -> S * bool) (files : list (nat * FileMetaData)) (arg : S) : S :=
  match files with
  | [] => arg
  | (level, f) :: files => let '(arg, go) := func arg level f in if go then for_each func files arg else arg
  end.
Definition ForEachOverlapping {S} (v : Version) (user_key ikey : list Z) (func : S -> nat -> FileMetaData -> S * bool) (arg : S) : S :=
  for_each func (overlapping_files v user_key ikey) arg.
(** [RecordReadSample]: the file to charge, the first of at least two. *)
Definition sample_match (st : nat * option (nat * FileMetaData)) (level : nat) (f : FileMetaData) : (nat * option (nat * FileMetaData)) * bool :=
  let matches := S st.1 in ((matches, if (matches =? 1)%nat then Some (level, f) else st.2), (matches <? 2)%nat).
Definition RecordReadSample (v : Version) (ikey : list Z) : option (nat * FileMetaData) :=
  let* parsed := ParseInternalKey ikey in
  let st := ForEachOverlapping v (LdbMem.user_key parsed) ikey sample_match (0%nat, None) in
  if (2 <=? st.1)%nat then st.2 else None.

(** ** The binary search *)

(** The files that end before the key are the first ones. *)
Definition ends_first (files : list FileMetaData) (key : list Z) : Prop :=
  forall i j f g, files !! i = Some f -> files !! j = Some g -> (i <= j)%nat ->
    InternalKey_Compare (largest g) key = Lt -> InternalKey_Compare (largest f) key = Lt.

Lemma is_lt_true c : is_lt c = true <-> c = Lt.
Proof. by destruct c. Qed.

Lemma find_file_spec fuel files key left right : ends_first files key -> lenZ files < 2 ^ 31 ->
  0 <= left -> left <= right -> right <= lenZ files -> right - left < Z.of_nat fuel ->
  (forall i f, files !! i = Some f -> Z.of_nat i < left -> InternalKey_Compare (largest f) key = Lt) ->
  (forall i f, files !! i = Some f -> right <= Z.of_nat i -> InternalKey_Compare (largest f) key <> Lt) ->
  let n := find_loop fuel files key left right in
  0 <= n <= lenZ files
  /\ forall i f, files !! i = Some f -> InternalKey_Compare (largest f) key = Lt <-> Z.of_nat i < n.
Proof.
  intros Hm Hlen. revert left right. induction fuel as [|fuel IH]; intros left right H0 Hlr Hr Hf Hb Ha; [lia|]. cbn [find_loop].
  destruct (Z.ltb_spec left right) as [Hlt|Hge].
  2:{ split; [lia|]. intros i f Hi. split; [intros Hc; apply Z.nle_gt; intros Hri; by apply (Ha i f)|]. intros. apply (Hb i f); [done|lia]. }
  rewrite (uwrap_small 32 (left + right)) by lia. assert (Hmid : left <= (left + right) / 2 < right) by (split; [apply Z.div_le_lower_bound|apply Z.div_lt_upper_bound]; lia).
  set (mid := (left + right) / 2) in *. destruct (lookup_lt_is_Some_2 files (Z.to_nat mid)) as [f Ef]; [lia|]. rewrite Ef.
  destruct (is_lt _) eqn:E.
  - apply is_lt_true in E. rewrite (uwrap_small 32 (mid + 1)) by lia. apply IH; [lia..| |done]. intros i g Hi Hilt. apply (Hm i (Z.to_nat mid) g f); [done..|lia|done].
  - assert (E' : InternalKey_Compare (largest f) key <> Lt) by (intros Hc; apply is_lt_true in Hc; congruence).
    apply IH; [lia..|done|]. intros i g Hi Hge Hc. apply E'. apply (Hm (Z.to_nat mid) i f g); [done..|lia|done].
Qed.

Lemma FindFile_spec files key : ends_first files key -> lenZ files < 2 ^ 31 ->
  let n := FindFile files key in
  0 <= n <= lenZ files
  /\ forall i f, files !! i = Some f -> InternalKey_Compare (largest f) key = Lt <-> Z.of_nat i < n.
Proof.
  intros Hm Hlen. unfold FindFile. rewrite uwrap_small by lia. apply find_file_spec; [done..|lia|lia|lia|lia| |].
  - intros. lia.
  - intros i f Hi%lookup_lt_Some. lia.
Qed.

(** ** Searches depend on the tables of the version only *)

Lemma level_files_in v level user_key ikey f : f ∈ level_files v level user_key ikey -> f ∈ files_ v level.
Proof.
  unfold level_files. destruct level as [|level].
  - rewrite (merge_sort_Permutation newest_first), list_elem_of_In. intros [Hf _]%List.filter_In. by apply list_elem_of_In.
  - destruct (_ !! _) as [g|] eqn:E; [|by intros ?%elem_of_nil]. destruct (is_lt _); [by intros ?%elem_of_nil|]. intros ->%list_elem_of_singleton. by eapply list_elem_of_lookup_2.
Qed.

Section Ext.
Context (get get' : Z -> Z -> list Z -> option entry * bool) (v : Version) (Hget : forall k f ikey, f ∈ files_ v k -> get (fm_number f) (fm_file_size f) ikey = get' (fm_number f) (fm_file_size f) ikey).

Lemma search_files_ext level files key ikey st : (forall f, f ∈ files -> f ∈ files_ v level) -> search_files get level files key ikey st = search_files get' level files key ikey st.
Proof.
  revert st. induction files as [|f files IH]; intros st Hin; [done|]. cbn [search_files]. rewrite (Hget level) by (apply Hin; by left). destruct (get' _ _ _) as [met ok]. destruct (negb ok); [done|].
  destruct (SaveValue key met); try done. apply IH. intros g Hg. apply Hin. by right.
Qed.

Lemma Version_Get_ext key snapshot : Version_Get get v key snapshot = Version_Get get' v key snapshot.
Proof.
  unfold Version_Get. generalize (mkSeeks None None). generalize kNumLevels. intros n. induction n as [|n IH]; intros st; [done|]. cbn [search_levels].
  rewrite search_files_ext by apply level_files_in. destruct (search_files _ _ _ _ _ _) as [[r|] st']; [done|apply IH].
Qed.
End Ext.

(** ** What is in a version *)

(** The newest entry of [key] that can be seen at [s], if there is one. *)
Definition looked (l : list ientry) (key : list Z) (s : Z) (r : option ientry) : Prop :=
  match r with
  | Some e => newest l key s e
  | None => forall x, x ∈ l -> e_key x = key -> s < e_seq x
  end.
Definition saver_of_entry (r : option ientry) : SaverState :=
  match r with Some e => saver_of (outcome e) | None => kNotFound end.

(** The entries of [a] are newer than those of [b] with the same keys. *)
Definition above (a b : list ientry) : Prop := forall x y, x ∈ a -> y ∈ b -> e_key x = e_key y -> e_seq y < e_seq x.

Lemma looked_app a b key s ra rb : above a b -> looked a key s ra -> looked b key s rb ->
  looked (a ++ b) key s (match ra with Some e => Some e | None => rb end).
Proof.
  intros Hab Ha Hb. destruct ra as [e|]; simpl in *.
  - destruct Ha as (He & Hk & Hs & Hmax). split_and!; [apply elem_of_app; by left|done..|]. intros x [Hx|Hx]%elem_of_app Hkx Hsx; [by apply Hmax|].
    assert (e_seq x < e_seq e) by (apply Hab; congruence). lia.
  - destruct rb as [e|]; simpl in *; [|intros x [Hx|Hx]%elem_of_app; by auto]. destruct Hb as (He & Hk & Hs & Hmax). split_and!; [apply elem_of_app; by right|done..|].
    intros x [Hx|Hx]%elem_of_app Hkx Hsx; [|by apply Hmax]. specialize (Ha x Hx Hkx). lia.
Qed.

(** Some of the entries are enough, if they have one as new for every entry that can be seen. *)
Lemma looked_cover a l key s r : (forall x, x ∈ a -> x ∈ l) ->
  (forall x, x ∈ l -> e_key x = key -> e_seq x <= s -> exists y, y ∈ a /\ e_key y = key /\ e_seq y <= s /\ e_seq x <= e_seq y) ->
  looked a key s r -> looked l key s r.
Proof.
  intros Hin Hc. destruct r as [e|]; simpl.
  - intros (He & Hk & Hs & Hmax). split_and!; [by apply Hin|done..|]. intros x Hx Hkx Hsx. destruct (Hc x Hx Hkx Hsx) as (y & Hy & Hky & Hsy & Hxy).
    specialize (Hmax y Hy Hky Hsy). lia.
  - intros Hn x Hx Hkx. apply Z.nle_gt. intros Hsx. destruct (Hc x Hx Hkx Hsx) as (y & Hy & Hky & Hsy & _). specialize (Hn y Hy Hky). lia.
Qed.

(** The promise of the table cache: a search in the table of a file. *)
Class Tables := {
  TableCache_Get : Z -> Z -> list Z -> option entry * bool;
  table_holds : FileMetaData -> list ientry -> Prop;
  table_get_ok : forall f l key s, table_holds f l -> user_dom key -> 0 <= s < 2 ^ 56 ->
    let met := TableCache_Get (fm_number f) (fm_file_size f) (internal_key key s) in
    met.2 = true /\ exists r, looked l key s r /\ SaveValue key met.1 = saver_of_entry r }.

Section Versions.
Context `{TB : !Tables}.

(** A file, and the entries in its table. *)
Record file_ok (f : FileMetaData) (l : list ientry) : Prop := mkFileOk {
  fo_table : table_holds f l;
  fo_entries : Forall entry_ok l;
  fo_sorted : StronglySorted e_lt l;
  fo_first : exists a, head l = Some a /\ smallest f = ikey a;
  fo_last : exists z, list.last l = Some z /\ largest f = ikey z }.

Context (es : FileMetaData -> list ientry).
Abbreviation held files := (mjoin (es <$> files)).

(** The files of level 0 are newer the greater their numbers are; those of another level
    follow each other; and a level is newer than those below. *)
Record version_ok (v : Version) : Prop := mkVersionOk {
  vo_levels : length v = kNumLevels;
  vo_short : forall level, lenZ (files_ v level) < 2 ^ 31;
  vo_files : forall level f, f ∈ files_ v level -> file_ok f (es f);
  vo_numbers : NoDup (fm_number <$> files_ v 0);
  vo_zero : forall f g, f ∈ files_ v 0 -> g ∈ files_ v 0 -> fm_number g < fm_number f -> above (es f) (es g);
  vo_sorted : forall level, (0 < level)%nat -> StronglySorted e_lt (held (files_ v level));
  vo_above : forall i j, (i < j)%nat -> above (held (files_ v i)) (held (files_ v j)) }.

(** All the entries, a level at a time. *)
Definition all_entries (v : Version) : list ientry := mjoin ((fun level => held (files_ v level)) <$> seq 0 kNumLevels).

Lemma elem_of_held files x : x ∈ held files <-> exists f, f ∈ files /\ x ∈ es f.
Proof.
  rewrite list_elem_of_join. split.
  - intros (l & Hx & (f & -> & Hf)%list_elem_of_fmap). by exists f.
  - intros (f & Hf & Hx). exists (es f). split; [done|by apply list_elem_of_fmap_2].
Qed.

(** The last entry of a file of a sorted level is not before those of the files up to it. *)
Lemma sorted_files files i j f g x y : StronglySorted e_lt (held files) -> files !! i = Some f -> files !! j = Some g -> (i < j)%nat ->
  x ∈ es f -> y ∈ es g -> e_lt x y.
Proof.
  revert i j. induction files as [|h files IH]; intros i j Hs Hi Hj Hij Hx Hy; [done|]. cbn [fmap list_fmap mjoin list_join] in Hs.
  apply StronglySorted_app in Hs as (Hc & _ & Hs). destruct j as [|j]; [lia|].
  destruct i as [|i]; simpl in Hi, Hj.
  - injection Hi as ->. apply Hc; [done|]. apply elem_of_held. exists g. split; [by eapply list_elem_of_lookup_2|done].
  - apply (IH i j); [done..|lia|done|done].
Qed.

Lemma last_elem {A} (l : list A) x : list.last l = Some x -> x ∈ l.
Proof. intros E. apply last_Some in E as [l' ->]. apply elem_of_app. right. by apply list_elem_of_singleton. Qed.

Lemma last_greatest l z x : StronglySorted e_lt l -> list.last l = Some z -> x ∈ l -> x = z \/ e_lt x z.
Proof.
  intros Hs E. apply last_Some in E as [l' ->]. apply StronglySorted_app in Hs as (Hc & _ & _).
  intros [Hx|Hx]%elem_of_app; [right|left; by apply list_elem_of_singleton in Hx]. apply Hc; [done|]. by apply list_elem_of_singleton.
Qed.

Lemma head_in {A} (l : list A) x : head l = Some x -> x ∈ l.
Proof. destruct l; intros E; [done|]. injection E as ->. by left. Qed.

Lemma head_least l a x : StronglySorted e_lt l -> head l = Some a -> x ∈ l -> x = a \/ e_lt a x.
Proof.
  intros Hs E. destruct Hs as [|b l Hs Hf]; [done|]. injection E as ->. intros [->|Hx]%elem_of_cons; [by left|right]. by apply (Forall_elem _ _ _ Hf).
Qed.

(** The keys of a file are between its smallest and its largest. *)
Lemma file_range f l x : file_ok f l -> x ∈ l ->
  Slice_compare (e_key x) (small_key f) <> Lt /\ Slice_compare (e_key x) (large_key f) <> Gt.
Proof.
  intros Hf Hx. destruct (fo_first _ _ Hf) as (a & Ea & Es). destruct (fo_last _ _ Hf) as (z & Ez & El).
  unfold small_key, large_key. rewrite Es, El, !ikey_user. split.
  - rewrite Slice_compare_antisym. destruct (head_least l a x (fo_sorted _ _ Hf) Ea Hx) as [->|Hlt].
    + by rewrite (proj2 (Slice_compare_eq _ _) eq_refl).
    + assert (Slice_compare (e_key a) (e_key x) <> Gt) by (apply e_compare_key; unfold e_lt in Hlt; congruence). by destruct (Slice_compare (e_key a) (e_key x)).
  - destruct (last_greatest l z x (fo_sorted _ _ Hf) Ez Hx) as [->|Hlt]; [by rewrite (proj2 (Slice_compare_eq _ _) eq_refl)|].
    apply e_compare_key. unfold e_lt in Hlt. congruence.
Qed.

Lemma NoDup_filter_fmap {A B} (g : A -> B) (P : A -> bool) l : NoDup (g <$> l) -> NoDup (g <$> List.filter P l).
Proof.
  induction l as [|x l IH]; [done|]. cbn [fmap list_fmap List.filter]. intros [Hx Hl]%NoDup_cons. destruct (P x); [|by apply IH].
  apply NoDup_cons. split; [|by apply IH]. intros (y & E & [Hy _]%list_elem_of_In%List.filter_In)%list_elem_of_fmap. apply Hx. rewrite E.
  apply list_elem_of_fmap_2. by apply list_elem_of_In.
Qed.

(** A search among the files of a sorted level. *)
Lemma level_ends_first files t : StronglySorted e_lt (held files) -> (forall f, f ∈ files -> file_ok f (es f)) -> entry_ok t -> ends_first files (ikey t).
Proof.
  intros Hs Hf Ht i j f g Hi Hj Hij. destruct (decide (i = j)) as [->|Hne]; [congruence|].
  destruct (fo_last _ _ (Hf f ltac:(by eapply list_elem_of_lookup_2))) as (z & Ez & ->). destruct (fo_last _ _ (Hf g ltac:(by eapply list_elem_of_lookup_2))) as (z' & Ez' & ->).
  pose proof (Forall_elem _ _ _ (fo_entries _ _ (Hf f ltac:(by eapply list_elem_of_lookup_2))) (last_elem _ _ Ez)) as Hz.
  pose proof (Forall_elem _ _ _ (fo_entries _ _ (Hf g ltac:(by eapply list_elem_of_lookup_2))) (last_elem _ _ Ez')) as Hz'.
  rewrite !InternalKey_ikey by done. apply e_lt_trans. apply (sorted_files files i j f g); [done..|lia| |]; by apply last_elem.
Qed.

Section Search.
Context (v : Version) (Hv : version_ok v) (key : list Z) (s : Z) (Hk : user_dom key) (Hs : 0 <= s < 2 ^ 56).

Lemma search_target : internal_key key s = ikey (target key s) /\ entry_ok (target key s).
Proof. destruct Hk as [Hb Hl]. split; [by apply internal_key_target|]. split; simpl; [done..|lia|done|by right]. Qed.

(** The files that are searched are of the level, each newer than those behind it, and they
    have the newest entry that can be seen. *)
Lemma level_files_above level : StronglySorted (fun f g => above (es f) (es g)) (level_files v level key (internal_key key s)).
Proof.
  pose proof (level_files_in v level key (internal_key key s)) as Hin. unfold level_files in *. destruct level as [|level].
  - set (l := merge_sort newest_first _) in *. assert (Hso : StronglySorted newest_first l) by (apply (StronglySorted_merge_sort newest_first)).
    assert (Hnd : NoDup (fm_number <$> l)).
    { unfold l. rewrite merge_sort_Permutation. by apply NoDup_filter_fmap, vo_numbers. }
    clearbody l. induction Hso as [|f l Hso IH Hf]; [constructor|]. cbn [fmap list_fmap] in Hnd. apply NoDup_cons in Hnd as [Hni Hnd].
    constructor; [apply IH; [|done]; intros g Hg; apply Hin; by right|]. apply List.Forall_forall. intros g Hg%list_elem_of_In. apply (vo_zero v Hv).
    + apply Hin. by left.
    + apply Hin. by right.
    + pose proof (Forall_elem _ _ _ Hf Hg) as Hle. unfold newest_first in Hle. assert (fm_number g <> fm_number f); [|lia].
      intros E. apply Hni. rewrite <- E. by apply list_elem_of_fmap_2.
  - destruct (_ !! _) as [g|]; [|constructor]. destruct (is_lt _); repeat constructor.
Qed.

(** An entry between the search key and an entry of its user key has that user key. *)
Lemma between_target z x : entry_ok z -> entry_ok x -> e_key x = key -> e_seq x <= s -> e_compare z (target key s) <> Lt -> e_lt z x ->
  e_key z = key /\ e_seq z <= s /\ e_seq x <= e_seq z.
Proof.
  intros Hz Hx Hkx Hsx Hc Hzx. assert (Hkz : e_key z = key).
  { unfold e_lt, e_compare in *. simpl in Hc. rewrite Hkx in Hzx. destruct (Slice_compare (e_key z) key) eqn:E; [by apply Slice_compare_eq|done..]. }
  split_and!; [done|by apply (target_compare z key s)|]. unfold e_lt, e_compare in Hzx. rewrite Hkz, Hkx, (proj2 (Slice_compare_eq key key) eq_refl) in Hzx.
  rewrite Z.compare_lt_iff in Hzx. unfold e_tag in Hzx. pose proof (ok_type _ Hz). pose proof (ok_type _ Hx). unfold kTypeDeletion, kTypeValue in *. lia.
Qed.

Lemma level_files_cover level x : x ∈ held (files_ v level) -> e_key x = key -> e_seq x <= s ->
  exists y, y ∈ held (level_files v level key (internal_key key s)) /\ e_key y = key /\ e_seq y <= s /\ e_seq x <= e_seq y.
Proof.
  intros (g & Hg & Hx)%elem_of_held Hkx Hsx. pose proof (vo_files v Hv level g Hg) as Hgo. pose proof (Forall_elem _ _ _ (fo_entries _ _ Hgo) Hx) as Hxo.
  destruct (file_range g _ x Hgo Hx) as [Hr1 Hr2]. rewrite Hkx in Hr1, Hr2. unfold level_files. destruct level as [|level].
  - exists x. split_and!; [|done..]. apply elem_of_held. exists g. split; [|done]. rewrite merge_sort_Permutation. apply list_elem_of_In, List.filter_In.
    split; [by apply list_elem_of_In|]. unfold in_range. by destruct (Slice_compare key (small_key g)), (Slice_compare key (large_key g)).
  - destruct search_target as [-> Ht]. pose proof (vo_sorted v Hv (S level) ltac:(lia)) as Hso. pose proof (vo_files v Hv (S level)) as Hfo.
    destruct (FindFile_spec _ _ (level_ends_first _ _ Hso Hfo Ht) (vo_short v Hv (S level))) as [Hn Hi]. apply list_elem_of_lookup in Hg as [j Hj].
    set (files := files_ v (S level)) in *. set (n := FindFile files _) in *.
    assert (Hxt : e_compare x (target key s) <> Lt) by (by apply target_compare). assert (Hnj : n <= Z.of_nat j).
    { apply Z.nlt_ge. intros Hlt%(Hi j g Hj). destruct (fo_last _ _ Hgo) as (z & Ez & El). rewrite El, InternalKey_ikey in Hlt; [|by apply (Forall_elem _ _ _ (fo_entries _ _ Hgo)), last_elem|done].
      destruct (last_greatest _ z x (fo_sorted _ _ Hgo) Ez Hx) as [->|Hxz]; [done|]. apply Hxt. by apply (e_lt_trans x z). }
    destruct (lookup_lt_is_Some_2 files (Z.to_nat n)) as [f Ef]; [apply lookup_lt_Some in Hj; lia|]. rewrite Ef.
    assert (Hfin : f ∈ files) by (by eapply list_elem_of_lookup_2). pose proof (Hfo f Hfin) as Hff. destruct (fo_last _ _ Hff) as (z & Ez & El).
    pose proof (Forall_elem _ _ _ (fo_entries _ _ Hff) (last_elem _ _ Ez)) as Hzo. assert (Hzt : e_compare z (target key s) <> Lt).
    { rewrite <- InternalKey_ikey, <- El by done. rewrite (Hi (Z.to_nat n) f Ef). lia. }
    assert (Hy : exists y, y ∈ es f /\ e_key y = key /\ e_seq y <= s /\ e_seq x <= e_seq y).
    { destruct (decide (Z.to_nat n = j)) as [Ej|Hne]; [exists x; split_and!; [congruence|done..]|].
      exists z. split; [by apply last_elem|]. apply between_target; [done..|]. apply (sorted_files files (Z.to_nat n) j f g); [done..|lia|by apply last_elem|done]. }
    destruct Hy as (y & Hy & Hky & Hsy). exists y. split_and!; [|done|apply Hsy..]. destruct (file_range f _ y Hff Hy) as [Hr _]. rewrite Hky in Hr.
    destruct (Slice_compare key (small_key f)); [|done|]; (apply elem_of_held; exists f; split; [by apply list_elem_of_singleton|done]).
Qed.

Definition status_of (r : option ientry) : get_status :=
  match r with
  | Some e => match outcome e with Found value => GetOK value | _ => NotFound end
  | None => NotFound
  end.

Lemma search_files_ok level files st : (forall f, f ∈ files -> file_ok f (es f)) -> StronglySorted (fun f g => above (es f) (es g)) files ->
  exists r, looked (held files) key s r
    /\ (search_files TableCache_Get level files key (internal_key key s) st).1 = match r with Some e => Some (status_of r) | None => None end.
Proof.
  intros Hf Hso. revert st. induction Hso as [|f files Hso IH Ha]; intros st; [exists None; split; [by intros x ?%elem_of_nil|done]|].
  destruct (table_get_ok f (es f) key s) as (Hok & r & Hr & Hsv); [apply Hf; by left|done..|].
  destruct (IH (fun g Hg => Hf g ltac:(by right)) (charge st level f)) as (r' & Hr' & Hst). exists (match r with Some e => Some e | None => r' end). split.
  - cbn [fmap list_fmap mjoin list_join]. apply looked_app; [|done..]. intros x y Hx (g & Hg & Hy)%elem_of_held. by apply (Forall_elem _ _ _ Ha Hg).
  - cbn [search_files]. destruct (TableCache_Get _ _ _) as [met ok]. simpl in Hok, Hsv. rewrite Hok, Hsv. cbn [negb]. destruct r as [e|]; [|exact Hst].
    unfold saver_of_entry, status_of, outcome. by destruct (_ =? _).
Qed.

Lemma level_looked level st : exists r, looked (held (files_ v level)) key s r
  /\ (search_files TableCache_Get level (level_files v level key (internal_key key s)) key (internal_key key s) st).1
     = match r with Some e => Some (status_of r) | None => None end.
Proof.
  destruct (search_files_ok level (level_files v level key (internal_key key s)) st) as (r & Hr & Hst).
  - intros f Hf%level_files_in. by apply (vo_files v Hv level).
  - apply level_files_above.
  - exists r. split; [|done]. eapply looked_cover; [|apply level_files_cover|exact Hr].
    intros x (f & Hf%level_files_in & Hx)%elem_of_held. apply elem_of_held. by exists f.
Qed.

(** The levels from one on. *)
Definition from_level (n : nat) : list ientry := mjoin ((fun level => held (files_ v level)) <$> seq (kNumLevels - n) n).

Lemma search_levels_ok n st : (n <= kNumLevels)%nat -> exists r, looked (from_level n) key s r
  /\ (search_levels TableCache_Get n v key (internal_key key s) st).1 = status_of r.
Proof.
  revert st. induction n as [|n IH]; intros st Hn; [exists None; split; [by intros x ?%elem_of_nil|done]|]. cbn [search_levels].
  destruct (level_looked (kNumLevels - S n) st) as (r & Hr & Hst). destruct (search_files _ _ _ _ _ _) as [o st']. cbn [fst] in Hst. subst o.
  destruct (IH st' ltac:(lia)) as (r' & Hr' & Hst'). exists (match r with Some e => Some e | None => r' end). split; [|by destruct r].
  unfold from_level in *. replace (kNumLevels - n)%nat with (S (kNumLevels - S n)) in Hr' by lia. cbn [seq fmap list_fmap mjoin list_join].
  apply looked_app; [|done..]. intros x y Hx (l & Hy & (j & -> & Hj%elem_of_seq)%list_elem_of_fmap)%list_elem_of_join.
  apply (vo_above v Hv (kNumLevels - S n) j); [lia|done..].
Qed.

Lemma Version_Get_ok : exists r, looked (all_entries v) key s r /\ (Version_Get TableCache_Get v key s).1 = status_of r.
Proof. apply (search_levels_ok kNumLevels). done. Qed.
End Search.

(** ** Ranges *)

(** A file has keys from [b] to [e], as far as its smallest and its largest key tell. *)
Definition overlaps (b e : option (list Z)) (f : FileMetaData) : bool := negb (AfterFile b f || BeforeFile e f).

Lemma not_before_trans a b c : Slice_compare a b = Lt -> Slice_compare c b <> Lt -> Slice_compare a c = Lt.
Proof.
  intros Hab Hcb. apply (below_trans a b c Hab). rewrite Slice_compare_antisym. by destruct (Slice_compare c b).
Qed.

(** The files of a sorted level begin one after the other. *)
Lemma level_begins files i j f g : StronglySorted e_lt (held files) -> (forall f, f ∈ files -> file_ok f (es f)) ->
  files !! i = Some f -> files !! j = Some g -> (i <= j)%nat -> Slice_compare (small_key g) (small_key f) <> Lt.
Proof.
  intros Hs Hf Hi Hj Hij. assert (Hfi : f ∈ files) by (by eapply list_elem_of_lookup_2). assert (Hgi : g ∈ files) by (by eapply list_elem_of_lookup_2).
  destruct (decide (i = j)) as [->|Hne]; [simplify_eq; by rewrite (proj2 (Slice_compare_eq _ _) eq_refl)|].
  destruct (fo_first _ _ (Hf f Hfi)) as (a & Ea & Es). destruct (fo_first _ _ (Hf g Hgi)) as (a' & Ea' & Es'). unfold small_key. rewrite Es, Es', !ikey_user.
  assert (Hlt : e_lt a a') by (apply (sorted_files files i j f g); [done..|lia|by apply head_in|by apply head_in]).
  assert (Hc : Slice_compare (e_key a) (e_key a') <> Gt) by (apply e_compare_key; unfold e_lt in Hlt; congruence).
  rewrite Slice_compare_antisym. by destruct (Slice_compare (e_key a) (e_key a')).
Qed.

Lemma largest_target f l k : file_ok f l -> user_dom k ->
  InternalKey_Compare (largest f) (internal_key k kMaxSequenceNumber) = Lt <-> Slice_compare (large_key f) k = Lt.
Proof.
  intros Hf [Hb Hl]. destruct (fo_last _ _ Hf) as (z & Ez & El). unfold large_key. rewrite El, ikey_user.
  assert (Hz : entry_ok z) by (apply (Forall_elem _ _ _ (fo_entries _ _ Hf)); by apply last_elem).
  rewrite internal_key_target by (by vm_compute). rewrite InternalKey_ikey; [|done|split; simpl; [done..|lia|by vm_compute|by right]].
  unfold e_compare. change (e_key (target k kMaxSequenceNumber)) with k. destruct (Slice_compare (e_key z) k) eqn:E; [|done..]. split; [|done]. rewrite Z.compare_lt_iff. intros Hlt. exfalso.
  pose proof (ok_type _ Hz). pose proof (ok_seq _ Hz). unfold e_tag, target, kTypeDeletion, kTypeValue in *. cbn [e_seq e_type] in Hlt.
  change kMaxSequenceNumber with (2 ^ 56 - 1) in Hlt. change kValueTypeForSeek with 1 in Hlt. lia.
Qed.

Lemma SomeFileOverlapsRange_ok v level b e : version_ok v -> (forall k, b = Some k -> user_dom k) ->
  OverlapInLevel v level b e = existsb (overlaps b e) (files_ v level).
Proof.
  intros Hv Hb. unfold OverlapInLevel, SomeFileOverlapsRange. destruct (Nat.ltb_spec 0 level) as [Hl|Hl]; [cbn [negb]|done].
  pose proof (vo_sorted v Hv level Hl) as Hso. pose proof (vo_files v Hv level) as Hfo. pose proof (vo_short v Hv level) as Hlen. set (files := files_ v level) in *.
  set (index := match b with None => 0 | Some k => _ end).
  assert (Hidx : 0 <= index <= lenZ files /\ forall i f, files !! i = Some f -> AfterFile b f = true <-> Z.of_nat i < index).
  { destruct b as [k|]; simpl in index; [|split; [unfold index; lia|intros i f _; split; [done|unfold index; lia]]].
    assert (Ht : entry_ok (target k kMaxSequenceNumber)) by (destruct (Hb k eq_refl); split; simpl; [done..|lia|by vm_compute|by right]).
    assert (Hend : ends_first files (internal_key k kMaxSequenceNumber)) by (rewrite internal_key_target by (by vm_compute); by apply level_ends_first).
    destruct (FindFile_spec _ _ Hend Hlen) as [Hn Hi]. split; [exact Hn|]. intros i f Hif. unfold index. rewrite <- (Hi i f Hif), (largest_target f (es f)); [|apply Hfo; by eapply list_elem_of_lookup_2|by apply Hb].
    unfold AfterFile. rewrite (Slice_compare_antisym k (large_key f)). by destruct (Slice_compare k (large_key f)). }
  destruct Hidx as [Hn Hi]. clearbody index. symmetry. destruct (files !! Z.to_nat index) as [f|] eqn:Ef.
  - destruct (BeforeFile e f) eqn:Ebe; simpl.
    + apply not_true_is_false. rewrite existsb_exists. intros (g & Hg%list_elem_of_In & Ho). apply list_elem_of_lookup in Hg as [j Hj].
      unfold overlaps in Ho. apply negb_true_iff, orb_false_iff in Ho as [Ha Hbg]. assert (Hge : (Z.to_nat index <= j)%nat).
      { destruct (Z.ltb_spec (Z.of_nat j) index) as [Hlt|Hge]; [apply (Hi j g Hj) in Hlt; congruence|lia]. }
      pose proof (level_begins files _ _ f g Hso Hfo Ef Hj Hge) as Hsm. destruct e as [k|]; [|done]. unfold BeforeFile in *. apply is_lt_true in Ebe.
      by rewrite (not_before_trans _ _ _ Ebe Hsm) in Hbg.
    + apply existsb_exists. exists f. split; [apply list_elem_of_In; by eapply list_elem_of_lookup_2|]. unfold overlaps. rewrite Ebe, orb_false_r. apply negb_true_iff.
      apply not_true_is_false. rewrite (Hi _ f Ef). lia.
  - apply not_true_is_false. rewrite existsb_exists. intros (g & Hg%list_elem_of_In & Ho). apply list_elem_of_lookup in Hg as [j Hj].
    unfold overlaps in Ho. apply negb_true_iff, orb_false_iff in Ho as [Ha _]. apply lookup_ge_None in Ef. pose proof (lookup_lt_Some _ _ _ Hj).
    assert (AfterFile b g = true) by (apply (Hi j g Hj); lia). congruence.
Qed.

(** ** The inputs that overlap a range *)

Definition starts_below (b : option (list Z)) (f : FileMetaData) : bool :=
  match b with Some b => is_lt (Slice_compare (small_key f) b) | None => false end.
Definition ends_above (e : option (list Z)) (f : FileMetaData) : bool :=
  match e with Some e => is_gt (Slice_compare (large_key f) e) | None => false end.
(** How often the range can still grow. *)
Definition growth (all : list FileMetaData) (b e : option (list Z)) : nat :=
  (length (List.filter (starts_below b) all) + length (List.filter (ends_above e) all))%nat.
(** What the search returns: the files that overlap some range, which is not smaller and
    is the same if the level is not 0; of level 0, none sticks out. *)
Definition collected (level : nat) (all : list FileMetaData) (b e : option (list Z)) (inputs : list FileMetaData) : Prop :=
  exists b' e', inputs = List.filter (overlaps b' e') all /\ (forall f, overlaps b e f = true -> overlaps b' e' f = true)
    /\ (level <> 0%nat -> b' = b /\ e' = e)
    /\ (level = 0%nat -> forall f, f ∈ inputs -> starts_below b' f = false /\ ends_above e' f = false).

Lemma is_gt_flip a b : is_gt (Slice_compare a b) = is_lt (Slice_compare b a).
Proof. rewrite (Slice_compare_antisym a b). by destruct (Slice_compare a b). Qed.

Lemma grow_begin all b e f : f ∈ all -> starts_below b f = true ->
  (growth all (Some (small_key f)) e < growth all b e)%nat /\ forall g, overlaps b e g = true -> overlaps (Some (small_key f)) e g = true.
Proof.
  intros Hf Hb. destruct b as [k|]; [|done]. simpl in Hb. apply is_lt_true in Hb. split.
  - unfold growth. assert (length (List.filter (starts_below (Some (small_key f))) all) < length (List.filter (starts_below (Some k)) all))%nat; [|lia].
    apply (filter_less _ _ _ f); [|done|simpl; by rewrite Hb|simpl; by rewrite (proj2 (Slice_compare_eq _ _) eq_refl)].
    intros g _. simpl. rewrite !is_lt_true. intros Hg. by apply (key_lt_trans _ (small_key f)).
  - intros g. unfold overlaps. rewrite !negb_true_iff, !orb_false_iff. intros [Ha ->]. split; [|done]. simpl in *. apply not_true_is_false. rewrite is_gt_flip, is_lt_true. intros Hg.
    rewrite is_gt_flip in Ha. apply not_true_iff_false in Ha. apply Ha, is_lt_true. by apply (key_lt_trans _ (small_key f)).
Qed.

Lemma grow_end all b e f : f ∈ all -> ends_above e f = true ->
  (growth all b (Some (large_key f)) < growth all b e)%nat /\ forall g, overlaps b e g = true -> overlaps b (Some (large_key f)) g = true.
Proof.
  intros Hf He. destruct e as [k|]; [|done]. simpl in He. rewrite is_gt_flip, is_lt_true in He. split.
  - unfold growth. assert (length (List.filter (ends_above (Some (large_key f))) all) < length (List.filter (ends_above (Some k)) all))%nat; [|lia].
    apply (filter_less _ _ _ f); [|done|simpl; by rewrite is_gt_flip, He|simpl; by rewrite (proj2 (Slice_compare_eq _ _) eq_refl)].
    intros g _. simpl. rewrite !is_gt_flip, !is_lt_true. intros Hg. by apply (key_lt_trans _ (large_key f)).
  - intros g. unfold overlaps. rewrite !negb_true_iff, !orb_false_iff. intros [-> Ha]. split; [done|]. simpl in *. apply not_true_is_false. rewrite is_lt_true. intros Hg.
    apply not_true_iff_false in Ha. apply Ha, is_lt_true. by apply (key_lt_trans _ (large_key f)).
Qed.

Lemma overlap_loop_ok level fuel all files seen b e inputs : all = seen ++ files ->
  (growth all b e * S (length all) + length files <= fuel)%nat ->
  inputs = List.filter (overlaps b e) seen -> (level = 0%nat -> forall f, f ∈ inputs -> starts_below b f = false /\ ends_above e f = false) ->
  collected level all b e (overlap_loop level fuel all files b e inputs).
Proof.
  revert files seen b e inputs. induction fuel as [|fuel IH]; intros files seen b e inputs Hall Hf Hin Hz.
  { destruct files as [|f files]; [|simpl in Hf; lia]. simpl. exists b, e. rewrite app_nil_r in Hall. subst seen. done. }
  destruct files as [|f files]; [cbn [overlap_loop]; exists b, e; rewrite app_nil_r in Hall; by subst seen|].
  cbn [overlap_loop]. simpl in Hf. assert (Hfa : f ∈ all) by (subst all; apply elem_of_app; right; by left).
  assert (Hcons : all = (seen ++ [f]) ++ files) by (by rewrite <- app_assoc). fold (starts_below b f) (ends_above e f).
  assert (Hskip : overlaps b e f = false -> collected level all b e (overlap_loop level fuel all files b e inputs)).
  { intros Ho. apply (IH files (seen ++ [f])); [done|lia| |done]. rewrite List.filter_app. simpl. by rewrite Ho, app_nil_r. }
  assert (Htake : overlaps b e f = true -> (level = 0%nat -> starts_below b f = false /\ ends_above e f = false) ->
    collected level all b e (overlap_loop level fuel all files b e (inputs ++ [f]))).
  { intros Ho H0. apply (IH files (seen ++ [f])); [done|lia|rewrite List.filter_app; simpl; by rewrite Ho, Hin|]. intros Hl0 g [Hg|Hg]%elem_of_app; [by apply Hz|].
    apply list_elem_of_singleton in Hg as ->. by apply H0. }
  assert (Ha : match b with Some b => is_lt (Slice_compare (large_key f) b) | None => false end = AfterFile b f) by (destruct b; [simpl; by rewrite is_gt_flip|done]).
  assert (Hb : match e with Some e => is_gt (Slice_compare (small_key f) e) | None => false end = BeforeFile e f) by (destruct e; [simpl; by rewrite is_gt_flip|done]).
  rewrite Ha, Hb. destruct (AfterFile b f) eqn:Eaf; [apply Hskip; unfold overlaps; by rewrite Eaf|].
  destruct (BeforeFile e f) eqn:Ebf; [apply Hskip; unfold overlaps; by rewrite Eaf, Ebf|].
  assert (Ho : overlaps b e f = true) by (unfold overlaps; by rewrite Eaf, Ebf). destruct (Nat.eqb_spec level 0) as [->|Hl]; [|by apply Htake].
  destruct (starts_below b f) eqn:Esb; [|destruct (ends_above e f) eqn:Eea; [|by apply Htake]].
  - destruct (grow_begin all b e f Hfa Esb) as [Hg Hsub]. destruct (IH all [] (Some (small_key f)) e [] eq_refl) as (b' & e' & H1 & H2 & H3 & H4); [nia|done|by intros _ g ?%elem_of_nil|].
    exists b', e'. split_and!; [done| |done|done]. intros g Hgo. by apply H2, Hsub.
  - destruct (grow_end all b e f Hfa Eea) as [Hg Hsub]. destruct (IH all [] b (Some (large_key f)) [] eq_refl) as (b' & e' & H1 & H2 & H3 & H4); [nia|done|by intros _ g ?%elem_of_nil|].
    exists b', e'. split_and!; [done| |done|done]. intros g Hgo. by apply H2, Hsub.
Qed.

Lemma GetOverlappingInputs_ok v level b e : collected level (files_ v level) b e (GetOverlappingInputs v level b e).
Proof.
  unfold GetOverlappingInputs. apply (overlap_loop_ok _ _ _ _ []); [done| |done|by intros _ f ?%elem_of_nil]. unfold overlap_fuel, growth.
  pose proof (filter_length (starts_below b) (files_ v level)). pose proof (filter_length (ends_above e) (files_ v level)). nia.
Qed.

(** ** The level for a memtable *)

Lemma pick_loop_ok fuel v k1 k2 level : (level <= kMaxMemCompactLevel)%nat -> (forall i, (i <= level)%nat -> OverlapInLevel v i (Some k1) (Some k2) = false) ->
  let n := pick_loop fuel v k1 k2 level in
  (n <= kMaxMemCompactLevel)%nat /\ forall i, (i <= n)%nat -> OverlapInLevel v i (Some k1) (Some k2) = false.
Proof.
  revert level. induction fuel as [|fuel IH]; intros level Hl Hno; [done|]. cbn [pick_loop]. destruct (Nat.ltb_spec level kMaxMemCompactLevel) as [Hlt|]; [|done].
  destruct (OverlapInLevel v (level + 1) _ _) eqn:E; [done|]. apply IH; [lia|]. intros i Hi. destruct (decide (i = level + 1)%nat) as [->|]; [done|]. apply Hno. lia.
Qed.

(** No file of the levels down to the chosen one overlaps the range, unless it is level 0. *)
Lemma PickLevel_ok v k1 k2 : version_ok v -> user_dom k1 ->
  let n := PickLevelForMemTableOutput v k1 k2 in
  (n <= kMaxMemCompactLevel)%nat /\ (n <> 0%nat -> forall i f, (i <= n)%nat -> f ∈ files_ v i -> overlaps (Some k1) (Some k2) f = false).
Proof.
  intros Hv Hk. unfold PickLevelForMemTableOutput. destruct (OverlapInLevel v 0 _ _) eqn:E; [by split; [unfold kMaxMemCompactLevel; lia|]|].
  destruct (pick_loop_ok (S kMaxMemCompactLevel) v k1 k2 0) as [H1 H2]; [unfold kMaxMemCompactLevel; lia|intros i Hi; by replace i with 0%nat by lia|].
  split; [done|]. intros _ i f Hi Hf. specialize (H2 i Hi). rewrite SomeFileOverlapsRange_ok in H2; [|done|by intros k [= <-]].
  apply not_true_is_false. intros Ho. apply not_true_iff_false in H2. apply H2, existsb_exists. exists f. split; [by apply list_elem_of_In|done].
Qed.
End Versions.
