(* ===== verification/LdbEdit.v ===== *)
(** * leveldb: edits of versions

    A change from one version to the next is a [VersionEdit]
    (src/ext/leveldb/db/version_edit.cc): the files that go, the files that come, and the
    numbers of the database.  Edits are the records of the manifest.  Here are their
    encoding, which is read back, and [VersionSet::Builder] of db/version_set.cc, which
    applies them: many edits at once, or one after the other with a version in between,
    with the same result. *)

From Stdlib Require Import ZArith Lia.
From stdpp Require Import base list numbers option sorting.
From S2P Require Import Prelude ByteOrder WebappStr Session LdbCoding LdbMem LdbIter LdbSep LdbBuild LdbVersion.
Open Scope Z_scope.
Open Scope webapp_scope.

(** ** Edits *)

(** A number and its [has_] flag are an option.  [deleted_files_] is a set in order. *)
Record VersionEdit := mkEdit {
  comparator_ : option (list Z);
  log_number_ : option Z;
  prev_log_number_ : option Z;
  next_file_number_ : option Z;
  last_sequence_ : option Z;
  compact_pointers_ : list (nat * list Z);
  deleted_files_ : list (nat * Z);
  new_files_ : list (nat * FileMetaData) }.

Definition Edit_new : VersionEdit := mkEdit None None None None None [] [] [].
(** [Clear] leaves the compaction pointers. *)
Definition Edit_Clear (e : VersionEdit) : VersionEdit := mkEdit None None None None None (compact_pointers_ e) [] [].

Definition SetComparatorName (e : VersionEdit) (name : list Z) : VersionEdit :=
  mkEdit (Some name) (log_number_ e) (prev_log_number_ e) (next_file_number_ e) (last_sequence_ e) (compact_pointers_ e) (deleted_files_ e) (new_files_ e).
Definition SetLogNumber (e : VersionEdit) (num : Z) : VersionEdit :=
  mkEdit (comparator_ e) (Some num) (prev_log_number_ e) (next_file_number_ e) (last_sequence_ e) (compact_pointers_ e) (deleted_files_ e) (new_files_ e).
Definition SetPrevLogNumber (e : VersionEdit) (num : Z) : VersionEdit :=
  mkEdit (comparator_ e) (log_number_ e) (Some num) (next_file_number_ e) (last_sequence_ e) (compact_pointers_ e) (deleted_files_ e) (new_files_ e).
Definition SetNextFile (e : VersionEdit) (num : Z) : VersionEdit :=
  mkEdit (comparator_ e) (log_number_ e) (prev_log_number_ e) (Some num) (last_sequence_ e) (compact_pointers_ e) (deleted_files_ e) (new_files_ e).
Definition SetLastSequence (e : VersionEdit) (seq : Z) : VersionEdit :=
  mkEdit (comparator_ e) (log_number_ e) (prev_log_number_ e) (next_file_number_ e) (Some seq) (compact_pointers_ e) (deleted_files_ e) (new_files_ e).
Definition SetCompactPointer (e : VersionEdit) (level : nat) (key : list Z) : VersionEdit :=
  mkEdit (comparator_ e) (log_number_ e) (prev_log_number_ e) (next_file_number_ e) (last_sequence_ e) (compact_pointers_ e ++ [(level, key)]) (deleted_files_ e) (new_files_ e).
Definition AddFile (e : VersionEdit) (level : nat) (f : FileMetaData) : VersionEdit :=
  mkEdit (comparator_ e) (log_number_ e) (prev_log_number_ e) (next_file_number_ e) (last_sequence_ e) (compact_pointers_ e) (deleted_files_ e) (new_files_ e ++ [(level, f)]).

(** The order of the pairs of [std::set], and its [insert]. *)
Definition del_compare (a b : nat * Z) : comparison :=
  match (a.1 ?= b.1)%nat with Eq => a.2 ?= b.2 | c => c end.
Fixpoint del_insert (x : nat * Z) (l : list (nat * Z)) : list (nat * Z) :=
  match l with
  | [] => [x]
  | y :: l' => match del_compare x y with Lt => x :: l | Eq => l | Gt => y :: del_insert x l' end
  end.
Definition DeleteFile (e : VersionEdit) (level : nat) (number : Z) : VersionEdit :=
  mkEdit (comparator_ e) (log_number_ e) (prev_log_number_ e) (next_file_number_ e) (last_sequence_ e) (compact_pointers_ e)
    (del_insert (level, number) (deleted_files_ e)) (new_files_ e).

(** ** Encoding *)

Definition kComparator : Z := 1.
Definition kLogNumber : Z := 2.
Definition kNextFileNumber : Z := 3.
Definition kLastSequence : Z := 4.
Definition kCompactPointer : Z := 5.
Definition kDeletedFile : Z := 6.
Definition kNewFile : Z := 7.
Definition kPrevLogNumber : Z := 9.

Definition put_number (tag : Z) (o : option Z) : list Z :=
  match o with Some n => PutVarint64 (EncodeVarint32 tag) n | None => [] end.
Definition put_pointer (p : nat * list Z) : list Z :=
  PutLengthPrefixedSlice (PutVarint32 (EncodeVarint32 kCompactPointer) (Z.of_nat p.1)) p.2.
Definition put_deleted (p : nat * Z) : list Z :=
  PutVarint64 (PutVarint32 (EncodeVarint32 kDeletedFile) (Z.of_nat p.1)) p.2.
Definition put_file (p : nat * FileMetaData) : list Z :=
  PutLengthPrefixedSlice (PutLengthPrefixedSlice
    (PutVarint64 (PutVarint64 (PutVarint32 (EncodeVarint32 kNewFile) (Z.of_nat p.1)) (fm_number p.2)) (fm_file_size p.2))
    (smallest p.2)) (largest p.2).
Definition Edit_EncodeTo (e : VersionEdit) : list Z :=
  match comparator_ e with Some name => PutLengthPrefixedSlice (EncodeVarint32 kComparator) name | None => [] end
  ++ put_number kLogNumber (log_number_ e) ++ put_number kPrevLogNumber (prev_log_number_ e)
  ++ put_number kNextFileNumber (next_file_number_ e) ++ put_number kLastSequence (last_sequence_ e)
  ++ mjoin (put_pointer <$> compact_pointers_ e) ++ mjoin (put_deleted <$> deleted_files_ e) ++ mjoin (put_file <$> new_files_ e).

Definition GetLevel (input : list Z) : option (nat * list Z) :=
  let* p := GetVarint32 input in
  if p.1 <? Z.of_nat kNumLevels then Some (Z.to_nat p.1, p.2) else None.
(** [GetInternalKey] is [GetLengthPrefixedSlice]: the key is kept as it is. *)
Definition GetInternalKey (input : list Z) : option (list Z * list Z) := GetLengthPrefixedSlice input.

(** A field behind its tag; [None] is an error. *)
Definition get_field (tag : Z) (input : list Z) (e : VersionEdit) : option (VersionEdit * list Z) :=
  if tag =? kComparator then let* p := GetLengthPrefixedSlice input in Some (SetComparatorName e p.1, p.2)
  else if tag =? kLogNumber then let* p := GetVarint64 input in Some (SetLogNumber e p.1, p.2)
  else if tag =? kPrevLogNumber then let* p := GetVarint64 input in Some (SetPrevLogNumber e p.1, p.2)
  else if tag =? kNextFileNumber then let* p := GetVarint64 input in Some (SetNextFile e p.1, p.2)
  else if tag =? kLastSequence then let* p := GetVarint64 input in Some (SetLastSequence e p.1, p.2)
  else if tag =? kCompactPointer then
    let* l := GetLevel input in let* k := GetInternalKey l.2 in Some (SetCompactPointer e l.1 k.1, k.2)
  else if tag =? kDeletedFile then
    let* l := GetLevel input in let* n := GetVarint64 l.2 in Some (DeleteFile e l.1 n.1, n.2)
  else if tag =? kNewFile then
    let* l := GetLevel input in let* n := GetVarint64 l.2 in let* z := GetVarint64 n.2 in
    let* s := GetInternalKey z.2 in let* g := GetInternalKey s.2 in
    Some (AddFile e l.1 (mkFileMeta n.1 z.1 s.1 g.1), g.2)
  else None.
(** Every field takes a byte at least.  [None]: the record is corrupt. *)
Fixpoint decode_loop (fuel : nat) (input : list Z) (e : VersionEdit) : option VersionEdit :=
  match fuel with
  | O => None
  | S fuel =>
      match GetVarint32 input with
      | None => match input with [] => Some e | _ => None end
      | Some (tag, input) => let* p := get_field tag input e in decode_loop fuel p.2 p.1
      end
  end.
Definition Edit_DecodeFrom (e : VersionEdit) (src : list Z) : option VersionEdit := decode_loop (S (length src)) src (Edit_Clear e).

(** ** Round trip *)

Definition u64_ok (n : Z) : Prop := 0 <= n < 2 ^ 64.
Definition file_valid (f : FileMetaData) : Prop :=
  u64_ok (fm_number f) /\ u64_ok (fm_file_size f) /\ lenZ (smallest f) < 2 ^ 32 /\ lenZ (largest f) < 2 ^ 32.
Definition del_lt (a b : nat * Z) : Prop := del_compare a b = Lt.
(** What can be written down: every edit that the code makes. *)
Record edit_valid (e : VersionEdit) : Prop := mkEditValid {
  ev_comparator : forall name, comparator_ e = Some name -> lenZ name < 2 ^ 32;
  ev_numbers : Forall (fun o => forall n, o = Some n -> u64_ok n) [log_number_ e; prev_log_number_ e; next_file_number_ e; last_sequence_ e];
  ev_pointers : Forall (fun p => (p.1 < kNumLevels)%nat /\ lenZ p.2 < 2 ^ 32) (compact_pointers_ e);
  ev_deleted : Forall (fun p => (p.1 < kNumLevels)%nat /\ u64_ok p.2) (deleted_files_ e);
  ev_order : StronglySorted del_lt (deleted_files_ e);
  ev_files : Forall (fun p => (p.1 < kNumLevels)%nat /\ file_valid p.2) (new_files_ e) }.

(** Reading [bs] takes the edit from [e] to [e']. *)
Definition decodes (bs : list Z) (e e' : VersionEdit) : Prop :=
  forall rest fuel, (length (bs ++ rest) < fuel)%nat ->
    exists fuel', (length rest < fuel')%nat /\ decode_loop fuel (bs ++ rest) e = decode_loop fuel' rest e'.

Lemma decodes_nil e : decodes [] e e.
Proof. intros rest fuel Hf. by exists fuel. Qed.

Lemma decodes_app a b e1 e2 e3 : decodes a e1 e2 -> decodes b e2 e3 -> decodes (a ++ b) e1 e3.
Proof.
  intros Ha Hb rest fuel Hf. rewrite <- app_assoc in *. destruct (Ha (b ++ rest) fuel Hf) as (f1 & H1 & ->). destruct (Hb rest f1 H1) as (f2 & H2 & ->). by exists f2.
Qed.

Lemma decodes_field tag bs e e' : 0 <= tag < 2 ^ 32 -> (forall rest, get_field tag (bs ++ rest) e = Some (e', rest)) -> decodes (EncodeVarint32 tag ++ bs) e e'.
Proof.
  intros Ht Hg rest fuel Hf. destruct fuel as [|fuel]; [lia|]. exists fuel. rewrite <- app_assoc in *. split.
  - rewrite !length_app in Hf. assert (length (EncodeVarint32 tag) <> 0%nat); [|lia]. unfold EncodeVarint32. by repeat case_match.
  - cbn [decode_loop]. rewrite GetVarint32_Encode by done. by rewrite Hg.
Qed.

Lemma decodes_list {A} (put : A -> list Z) (upd : VersionEdit -> A -> VersionEdit) (P : A -> Prop) l e :
  (forall x e, P x -> decodes (put x) e (upd e x)) -> Forall P l -> decodes (mjoin (put <$> l)) e (foldl upd e l).
Proof.
  intros Hx. revert e. induction l as [|x l IH]; intros e Hl; [apply decodes_nil|]. apply Forall_cons_1 in Hl as [Hp Hl].
  cbn [fmap list_fmap mjoin list_join foldl]. eapply decodes_app; [by apply Hx|by apply IH].
Qed.

Lemma decodes_number tag set o e : tag = kLogNumber /\ set = SetLogNumber \/ tag = kPrevLogNumber /\ set = SetPrevLogNumber
    \/ tag = kNextFileNumber /\ set = SetNextFile \/ tag = kLastSequence /\ set = SetLastSequence ->
  (forall n, o = Some n -> u64_ok n) -> decodes (put_number tag o) e (match o with Some n => set e n | None => e end).
Proof.
  intros Ht Ho. destruct o as [n|]; [|apply decodes_nil]. unfold put_number, PutVarint64. apply decodes_field.
  - destruct Ht as [[-> _]|[[-> _]|[[-> _]|[-> _]]]]; by vm_compute.
  - intros rest. destruct Ht as [[-> ->]|[[-> ->]|[[-> ->]|[-> ->]]]]; unfold get_field; simpl; by rewrite GetVarint64_Encode by (by apply Ho).
Qed.

Lemma get_level_put level rest : (level < kNumLevels)%nat -> GetLevel (EncodeVarint32 (Z.of_nat level) ++ rest) = Some (level, rest).
Proof.
  intros Hl. unfold GetLevel. rewrite GetVarint32_Encode by (unfold kNumLevels in Hl; lia). simpl. rewrite (proj2 (Z.ltb_lt _ _)) by (unfold kNumLevels in *; lia). by rewrite Nat2Z.id.
Qed.

Lemma put_prefixed dst value : PutLengthPrefixedSlice dst value = dst ++ PutLengthPrefixedSlice [] value.
Proof. unfold PutLengthPrefixedSlice, PutVarint32. simpl. by rewrite <- !app_assoc. Qed.

Lemma decodes_comparator name e : lenZ name < 2 ^ 32 -> decodes (PutLengthPrefixedSlice (EncodeVarint32 kComparator) name) e (SetComparatorName e name).
Proof.
  intros Hl. rewrite put_prefixed. apply decodes_field; [by vm_compute|]. intros rest. unfold get_field. simpl. by rewrite GetLengthPrefixedSlice_Put.
Qed.

Lemma decodes_pointer p e : (p.1 < kNumLevels)%nat /\ lenZ p.2 < 2 ^ 32 -> decodes (put_pointer p) e (SetCompactPointer e p.1 p.2).
Proof.
  intros [Hl Hk]. unfold put_pointer, PutVarint32. rewrite put_prefixed, <- app_assoc. apply decodes_field; [by vm_compute|]. intros rest. unfold get_field. simpl.
  unfold GetInternalKey. rewrite <- app_assoc, get_level_put by done. simpl. by rewrite GetLengthPrefixedSlice_Put.
Qed.

Lemma decodes_deleted p e : (p.1 < kNumLevels)%nat /\ u64_ok p.2 -> decodes (put_deleted p) e (DeleteFile e p.1 p.2).
Proof.
  intros [Hl Hk]. unfold put_deleted, PutVarint32, PutVarint64. rewrite <- app_assoc. apply decodes_field; [by vm_compute|]. intros rest. unfold get_field. simpl.
  rewrite <- app_assoc, get_level_put by done. simpl. by rewrite GetVarint64_Encode.
Qed.

Lemma decodes_file p e : (p.1 < kNumLevels)%nat /\ file_valid p.2 -> decodes (put_file p) e (AddFile e p.1 p.2).
Proof.
  destruct p as [level [number size s g]]. intros [Hl (Hn & Hz & Hs & Hg)]. unfold put_file, PutVarint32, PutVarint64. cbn [fst snd fm_number fm_file_size smallest largest] in *.
  rewrite (put_prefixed (PutLengthPrefixedSlice _ _)), (put_prefixed _ s), <- !app_assoc. apply decodes_field; [by vm_compute|]. intros rest. unfold get_field. simpl.
  unfold GetInternalKey. rewrite <- !app_assoc, get_level_put by done. simpl. rewrite GetVarint64_Encode by done. simpl. rewrite GetVarint64_Encode by done. simpl.
  rewrite GetLengthPrefixedSlice_Put by done. simpl. by rewrite GetLengthPrefixedSlice_Put.
Qed.

Lemma elem_of_del_insert x y l : x ∈ del_insert y l <-> x = y \/ x ∈ l.
Proof.
  induction l as [|z l IH]; cbn [del_insert]; [by rewrite list_elem_of_singleton, elem_of_nil; tauto|].
  destruct (del_compare y z) eqn:E; rewrite ?elem_of_cons, ?IH; [|tauto..]. assert (y = z) as ->; [|tauto].
  unfold del_compare in E. destruct (Nat.compare_spec y.1 z.1) as [E1| |]; [|done..]. apply Z.compare_eq_iff in E. destruct y, z; simpl in *; congruence.
Qed.

Lemma del_insert_last l x : (forall y, y ∈ l -> del_lt y x) -> del_insert x l = l ++ [x].
Proof.
  induction l as [|y l IH]; intros Hl; [done|]. cbn [del_insert]. assert (Hy : del_compare x y = Gt).
  { pose proof (Hl y ltac:(left)) as H. unfold del_lt, del_compare in *. rewrite (Nat.compare_antisym y.1 x.1). destruct (y.1 ?= x.1)%nat; [|done..].
    by rewrite (Z.compare_antisym y.2 x.2), H. }
  rewrite Hy, IH; [done|]. intros z Hz. apply Hl. by right.
Qed.

Lemma deletes_append l e d : StronglySorted del_lt (d ++ l) -> deleted_files_ e = d ->
  foldl (fun e p => DeleteFile e p.1 p.2) e l
  = mkEdit (comparator_ e) (log_number_ e) (prev_log_number_ e) (next_file_number_ e) (last_sequence_ e) (compact_pointers_ e) (d ++ l) (new_files_ e).
Proof.
  revert e d. induction l as [|x l IH]; intros e d Hs Hd; cbn [foldl]; [rewrite app_nil_r; subst d; by destruct e|].
  pose proof Hs as (Hc & _ & _)%StronglySorted_app. assert (Hx : del_insert (x.1, x.2) (deleted_files_ e) = d ++ [x]).
  { destruct x. rewrite Hd. apply del_insert_last. intros y Hy. apply Hc; [done|]. by left. }
  rewrite (IH _ (d ++ [x])); [|by rewrite <- app_assoc|exact Hx]. by rewrite <- app_assoc.
Qed.

Lemma pointers_append l e : foldl (fun e p => SetCompactPointer e p.1 p.2) e l
  = mkEdit (comparator_ e) (log_number_ e) (prev_log_number_ e) (next_file_number_ e) (last_sequence_ e) (compact_pointers_ e ++ l) (deleted_files_ e) (new_files_ e).
Proof.
  revert e. induction l as [|[level k] l IH]; intros e; cbn [foldl]; [rewrite app_nil_r; by destruct e|]. rewrite IH. simpl. by rewrite <- app_assoc.
Qed.

Lemma files_append l e : foldl (fun e p => AddFile e p.1 p.2) e l
  = mkEdit (comparator_ e) (log_number_ e) (prev_log_number_ e) (next_file_number_ e) (last_sequence_ e) (compact_pointers_ e) (deleted_files_ e) (new_files_ e ++ l).
Proof.
  revert e. induction l as [|[level k] l IH]; intros e; cbn [foldl]; [rewrite app_nil_r; by destruct e|]. rewrite IH. simpl. by rewrite <- app_assoc.
Qed.

(** An edit is read back from its record, into an edit without compaction pointers. *)
Lemma Edit_roundtrip e e0 : compact_pointers_ e0 = [] -> edit_valid e -> Edit_DecodeFrom e0 (Edit_EncodeTo e) = Some e.
Proof.
  intros H0 [Hc Hn Hp Hd Ho Hf]. repeat (apply Forall_cons_1 in Hn as [? Hn]).
  assert (Hdec : decodes (Edit_EncodeTo e) (Edit_Clear e0) e).
  { unfold Edit_EncodeTo. eapply decodes_app; [|eapply decodes_app; [apply (decodes_number _ SetLogNumber); [by left|done]|]].
    { instantiate (1 := match comparator_ e with Some name => SetComparatorName (Edit_Clear e0) name | None => Edit_Clear e0 end).
      destruct (comparator_ e) as [name|]; [apply decodes_comparator; by apply Hc|apply decodes_nil]. }
    eapply decodes_app; [apply (decodes_number _ SetPrevLogNumber); [by right; left|done]|]. eapply decodes_app; [apply (decodes_number _ SetNextFile); [by right; right; left|done]|].
    eapply decodes_app; [apply (decodes_number _ SetLastSequence); [by right; right; right|done]|].
    eapply decodes_app; [apply (decodes_list _ (fun e p => SetCompactPointer e p.1 p.2) _ _ _ decodes_pointer Hp)|].
    eapply decodes_app; [apply (decodes_list _ (fun e p => DeleteFile e p.1 p.2) _ _ _ decodes_deleted Hd)|].
    assert (Hlast : forall e1, decodes (mjoin (put_file <$> new_files_ e)) e1 (foldl (fun e p => AddFile e p.1 p.2) e1 (new_files_ e))) by (intros; by apply (decodes_list _ _ _ _ _ decodes_file)).
    match goal with |- decodes _ ?e1 _ => specialize (Hlast e1); assert (He : foldl (fun e p => AddFile e p.1 p.2) e1 (new_files_ e) = e) end; [|by rewrite He in Hlast].
    rewrite pointers_append, files_append. rewrite (deletes_append _ _ []); [|done|by destruct (comparator_ e), (log_number_ e), (prev_log_number_ e), (next_file_number_ e), (last_sequence_ e)].
    destruct e as [c ln pl nf ls cp df nw]. simpl. unfold Edit_Clear. rewrite H0. by destruct c, ln, pl, nf, ls. }
  unfold Edit_DecodeFrom. destruct (Hdec [] (S (length (Edit_EncodeTo e)))) as (f & Hlt & E); rewrite app_nil_r in *; [lia|]. rewrite E.
  destruct f; [simpl in Hlt; lia|]. done.
Qed.

(** Reading into an edit that was used keeps its compaction pointers: [Clear] forgets them. *)
Lemma Clear_keeps_pointers e p : edit_valid e -> compact_pointers_ e = [p] -> Edit_DecodeFrom e (Edit_EncodeTo Edit_new) = Some (SetCompactPointer Edit_new p.1 p.2).
Proof. intros _ Hp. unfold Edit_DecodeFrom, Edit_Clear. simpl. rewrite Hp. by destruct p. Qed.

(** ** Applying edits *)

(** [BySmallestKey]. *)
Definition file_compare (f g : FileMetaData) : comparison :=
  match InternalKey_Compare (smallest f) (smallest g) with Eq => fm_number f ?= fm_number g | c => c end.
Definition file_lt (f g : FileMetaData) : Prop := file_compare f g = Lt.

(** [FileSet::insert]. *)
Fixpoint file_insert (f : FileMetaData) (l : list FileMetaData) : list FileMetaData :=
  match l with
  | [] => [f]
  | g :: l' => match file_compare f g with Lt => f :: l | Eq => l | Gt => g :: file_insert f l' end
  end.

(** The numbers in [deleted_files]: what is inserted and not erased later. *)
Record LevelState := mkLevel { deleted_files : list Z; added_files : list FileMetaData }.
(** The levels of a [Builder], and [VersionSet::compact_pointer_], which [Apply] sets. *)
Record Builder := mkVBuilder { levels_ : list LevelState; compact_pointer_ : list (list Z) }.
Definition Builder_empty (pointers : list (list Z)) : Builder := mkVBuilder (replicate kNumLevels (mkLevel [] [])) pointers.

Definition builder_level (b : Builder) (level : nat) : LevelState := default (mkLevel [] []) (levels_ b !! level).
Definition on_level (b : Builder) (level : nat) (g : LevelState -> LevelState) : Builder :=
  mkVBuilder (alter g level (levels_ b)) (compact_pointer_ b).
Definition apply_pointer (b : Builder) (p : nat * list Z) : Builder := mkVBuilder (levels_ b) (<[p.1 := p.2]> (compact_pointer_ b)).
Definition apply_delete (b : Builder) (p : nat * Z) : Builder :=
  on_level b p.1 (fun s => mkLevel (p.2 :: deleted_files s) (added_files s)).
Definition apply_add (b : Builder) (p : nat * FileMetaData) : Builder :=
  on_level b p.1 (fun s => mkLevel (List.filter (fun n => negb (n =? fm_number p.2)) (deleted_files s)) (file_insert p.2 (added_files s))).
(** [Apply], but for the reference counts and [allowed_seeks]. *)
Definition Builder_Apply (b : Builder) (e : VersionEdit) : Builder :=
  foldl apply_add (foldl apply_delete (foldl apply_pointer b (compact_pointers_ e)) (deleted_files_ e)) (new_files_ e).

(** [MaybeAddFile], for the files that are kept. *)
Definition kept (s : LevelState) (f : FileMetaData) : bool := negb (existsb (Z.eqb (fm_number f)) (deleted_files s)).
(** Where [std::upper_bound] stops in a sorted range: at the first file above [a]. *)
Definition not_above (a f : FileMetaData) : bool := match file_compare a f with Lt => false | _ => true end.
Fixpoint upper_bound (a : FileMetaData) (base : list FileMetaData) : list FileMetaData * list FileMetaData :=
  match base with
  | [] => ([], [])
  | f :: base' => if not_above a f then let '(before, rest) := upper_bound a base' in (f :: before, rest) else ([], base)
  end.
Fixpoint save_level (s : LevelState) (base added : list FileMetaData) : list FileMetaData :=
  match added with
  | [] => List.filter (kept s) base
  | a :: added => let '(before, rest) := upper_bound a base in List.filter (kept s) (before ++ [a]) ++ save_level s rest added
  end.
Definition SaveTo (base : Version) (b : Builder) : Version :=
  (fun level => let s := builder_level b level in save_level s (files_ base level) (added_files s)) <$> seq 0 kNumLevels.

Definition empty_version : Version := replicate kNumLevels [].

(** ** The order of the files *)

Definition file_dom (f : FileMetaData) : Prop := internal (smallest f).

Lemma file_compare_antisym f g : file_dom f -> file_dom g -> file_compare g f = CompOpp (file_compare f g).
Proof.
  intros Hf Hg. unfold file_compare. rewrite (internal_antisym (smallest f) (smallest g)) by done. destruct (InternalKey_Compare _ _); [|done..]. apply Z.compare_antisym.
Qed.

Lemma file_compare_eq f g : file_compare f g = Eq -> fm_number f = fm_number g.
Proof. unfold file_compare. destruct (InternalKey_Compare _ _); [|done..]. apply Z.compare_eq. Qed.

Lemma file_lt_trans f g h : file_dom f -> file_dom g -> file_dom h -> file_lt f g -> file_lt g h -> file_lt f h.
Proof.
  intros Hf Hg Hh. unfold file_lt, file_compare.
  destruct (InternalKey_Compare (smallest f) (smallest g)) eqn:E1; [|intros _|done].
  - apply internal_eq in E1 as ->; [|done..]. destruct (InternalKey_Compare (smallest g) (smallest h)); [|done..]. rewrite !Z.compare_lt_iff. lia.
  - destruct (InternalKey_Compare (smallest g) (smallest h)) eqn:E2; [|intros _|done].
    + apply internal_eq in E2 as <-; [|done..]. by rewrite E1.
    + by rewrite (internal_trans _ (smallest g) _ Hf Hg Hh E1 E2).
Qed.

Lemma file_lt_irrefl f : file_dom f -> ~ file_lt f f.
Proof. intros Hf. unfold file_lt, file_compare. rewrite (proj2 (internal_eq _ _ Hf Hf) eq_refl), Z.compare_refl. done. Qed.

(** A sorted list of files is known by its elements. *)
Lemma files_unique a b : StronglySorted file_lt a -> StronglySorted file_lt b -> Forall file_dom a -> (forall f, f ∈ a <-> f ∈ b) -> a = b.
Proof.
  intros Ha Hb Hd Hab. apply (StronglySorted_unique_strong file_lt); [|done..|].
  - intros x y Hx%(Forall_elem _ _ _ Hd) Hy%Hab%(Forall_elem _ _ _ Hd) Hxy Hyx. exfalso. apply (file_lt_irrefl x Hx). by apply (file_lt_trans x y x).
  - assert (Hnd : forall l, StronglySorted file_lt l -> Forall file_dom l -> NoDup l).
    { clear. intros l Hs. induction Hs as [|f l Hs IH Hf]; intros Hd; [constructor|]. apply Forall_cons_1 in Hd as [Hdf Hd]. constructor; [|by apply IH].
      intros Hin. by apply (file_lt_irrefl f Hdf), (Forall_elem _ _ _ Hf). }
    apply NoDup_Permutation; [by apply Hnd| |done]. apply Hnd; [done|]. apply List.Forall_forall. intros f Hf%list_elem_of_In. by apply (Forall_elem _ _ _ Hd), Hab.
Qed.

Lemma elem_of_file_insert f l g : ~ fm_number f ∈ fm_number <$> l -> g ∈ file_insert f l <-> g = f \/ g ∈ l.
Proof.
  induction l as [|h l IH]; intros Hn; cbn [file_insert]; [rewrite elem_of_cons; naive_solver|]. rewrite fmap_cons, not_elem_of_cons in Hn. destruct Hn as [Hh Hn].
  destruct (file_compare f h) eqn:E; [by apply file_compare_eq in E|by rewrite elem_of_cons|]. rewrite !elem_of_cons, IH by done. tauto.
Qed.

Lemma file_insert_sorted f l : file_dom f -> Forall file_dom l -> ~ fm_number f ∈ fm_number <$> l -> StronglySorted file_lt l -> StronglySorted file_lt (file_insert f l).
Proof.
  intros Hf Hd Hn Hs. induction Hs as [|h l Hs IH Hh]; cbn [file_insert]; [repeat constructor|]. apply Forall_cons_1 in Hd as [Hdh Hd].
  rewrite fmap_cons, not_elem_of_cons in Hn. destruct Hn as [Hne Hn]. destruct (file_compare f h) eqn:E.
  - by apply file_compare_eq in E.
  - constructor; [by constructor|]. constructor; [done|]. apply List.Forall_forall. intros g Hg%list_elem_of_In.
    apply (file_lt_trans f h g); [done..|by apply (Forall_elem _ _ _ Hd)|done|by apply (Forall_elem _ _ _ Hh)].
  - constructor; [by apply IH|]. apply List.Forall_forall. intros g Hg%list_elem_of_In. apply elem_of_file_insert in Hg as [->|Hg]; [|by apply (Forall_elem _ _ _ Hh)|done].
    unfold file_lt. by rewrite (file_compare_antisym f h), E.
Qed.

(** ** Saving *)

Lemma upper_bound_ok a base : file_dom a -> Forall file_dom base -> StronglySorted file_lt base -> ~ fm_number a ∈ fm_number <$> base ->
  base = (upper_bound a base).1 ++ (upper_bound a base).2
  /\ (forall f, f ∈ (upper_bound a base).1 -> file_lt f a) /\ (forall f, f ∈ (upper_bound a base).2 -> file_lt a f).
Proof.
  intros Ha Hd Hs. induction Hs as [|f base Hs IH Hf]; intros Hn; [split_and!; [done|by intros ? ?%elem_of_nil..]|]. apply Forall_cons_1 in Hd as [Hdf Hd].
  rewrite fmap_cons, not_elem_of_cons in Hn. destruct Hn as [Hne Hn]. cbn [upper_bound]. unfold not_above. destruct (file_compare a f) eqn:E.
  - by apply file_compare_eq in E.
  - split_and!; [done|by intros ? ?%elem_of_nil|]. intros g [->|Hg]%elem_of_cons; [done|]. apply (file_lt_trans a f g); [done..|by apply (Forall_elem _ _ _ Hd)|done|by apply (Forall_elem _ _ _ Hf)].
  - destruct (IH Hd Hn) as (H1 & H2 & H3). destruct (upper_bound a base) as [before rest]. simpl in *. split_and!; [by rewrite H1| |done].
    intros g [->|Hg]%elem_of_cons; [|by apply H2]. unfold file_lt. by rewrite (file_compare_antisym a f), E.
Qed.

(** The files of a level, kept apart by their numbers. *)
Record level_ok (l : list FileMetaData) : Prop := mkLevelOk { lo_sorted : StronglySorted file_lt l; lo_dom : Forall file_dom l; lo_numbers : NoDup (fm_number <$> l) }.

Lemma elem_of_kept s l f : f ∈ List.filter (kept s) l <-> f ∈ l /\ ~ fm_number f ∈ deleted_files s.
Proof.
  rewrite list_elem_of_In, List.filter_In, <- list_elem_of_In. unfold kept. rewrite negb_true_iff, <- not_true_iff_false, existsb_exists.
  setoid_rewrite <- list_elem_of_In. setoid_rewrite Z.eqb_eq. split; intros [H1 H2]; (split; [done|]).
  - intros Hin. apply H2. by exists (fm_number f).
  - intros (n & Hn & E). apply H2. by rewrite E.
Qed.

Lemma sorted_filter (P : FileMetaData -> bool) l : StronglySorted file_lt l -> StronglySorted file_lt (List.filter P l).
Proof.
  induction 1 as [|f l Hs IH Hf]; [constructor|]. simpl. destruct (P f); [|done]. constructor; [done|]. apply List.Forall_forall. intros g [Hg _]%List.filter_In.
  apply (Forall_elem _ _ _ Hf). by apply list_elem_of_In.
Qed.

Lemma save_level_ok s base added : level_ok base -> level_ok added -> (forall f g, f ∈ base -> g ∈ added -> fm_number f <> fm_number g) ->
  StronglySorted file_lt (save_level s base added)
  /\ forall f, f ∈ save_level s base added <-> (f ∈ base \/ f ∈ added) /\ ~ fm_number f ∈ deleted_files s.
Proof.
  intros [Hbs Hbd Hbn] [Has Had Han]. revert base Hbs Hbd Hbn. induction Has as [|a added Has IH Haf]; intros base Hbs Hbd Hbn Hx; cbn [save_level].
  { split; [by apply sorted_filter|]. intros f. rewrite elem_of_kept, elem_of_nil. tauto. }
  apply Forall_cons_1 in Had as [Hda Had]. cbn [fmap list_fmap] in Han. apply NoDup_cons in Han as [Hna Han].
  assert (Hn : ~ fm_number a ∈ fm_number <$> base) by (intros (f & E & Hf)%list_elem_of_fmap; apply (Hx f a Hf ltac:(left)); done).
  destruct (upper_bound_ok a base Hda Hbd Hbs Hn) as (Eb & H1 & H2). destruct (upper_bound a base) as [before rest]. simpl in *. subst base.
  apply StronglySorted_app in Hbs as (Hc & Hs1 & Hs2). apply Forall_app in Hbd as [Hd1 Hd2]. rewrite fmap_app in Hbn. apply NoDup_app in Hbn as (_ & _ & Hbn).
  destruct (IH Had Han rest Hs2 Hd2 Hbn) as [IHs IHe]; [intros f g Hf Hg; apply Hx; [apply elem_of_app; by right|by right]|].
  assert (Hmid : StronglySorted file_lt (before ++ [a])).
  { apply StronglySorted_app. split_and!; [|done|repeat constructor]. intros f g Hf ->%list_elem_of_singleton. by apply H1. }
  split.
  - apply StronglySorted_app. split_and!; [|by apply sorted_filter|done]. intros f g [Hf _]%elem_of_kept [Hg _]%IHe. apply elem_of_app in Hf as [Hf|Hf%list_elem_of_singleton].
    + destruct Hg as [Hg|Hg]; [by apply Hc|]. apply (file_lt_trans f a g); [by apply (Forall_elem _ _ _ Hd1)|done|by apply (Forall_elem _ _ _ Had)|by apply H1|by apply (Forall_elem _ _ _ Haf)].
    + subst f. destruct Hg as [Hg|Hg]; [by apply H2|by apply (Forall_elem _ _ _ Haf)].
  - intros f. rewrite elem_of_app, elem_of_kept, IHe, !elem_of_app, !elem_of_cons, elem_of_nil. tauto.
Qed.

(** ** Applying, a level at a time *)

Definition of_level {A} (l : list (nat * A)) (level : nat) : list A := snd <$> List.filter (fun p => (p.1 =? level)%nat) l.

Lemma of_level_cons {A} (p : nat * A) l level : of_level (p :: l) level = (if (p.1 =? level)%nat then [p.2] else []) ++ of_level l level.
Proof. unfold of_level. simpl. by destruct (p.1 =? level)%nat. Qed.

Lemma builder_level_on b level g k : (k < length (levels_ b))%nat ->
  builder_level (on_level b level g) k = (if (level =? k)%nat then g (builder_level b k) else builder_level b k)
  /\ length (levels_ (on_level b level g)) = length (levels_ b).
Proof.
  intros Hk. unfold builder_level, on_level. simpl. rewrite length_alter. split; [|done]. destruct (Nat.eqb_spec level k) as [->|Hne].
  - rewrite list_lookup_alter_eq. destruct (lookup_lt_is_Some_2 _ _ Hk) as [s ->]. done.
  - by rewrite list_lookup_alter_ne.
Qed.

Lemma apply_deletes_level l b k : (k < length (levels_ b))%nat ->
  length (levels_ (foldl apply_delete b l)) = length (levels_ b) /\ added_files (builder_level (foldl apply_delete b l) k) = added_files (builder_level b k)
  /\ forall n, n ∈ deleted_files (builder_level (foldl apply_delete b l) k) <-> n ∈ deleted_files (builder_level b k) \/ n ∈ of_level l k.
Proof.
  revert b. induction l as [|p l IH]; intros b Hk; cbn [foldl].
  { split_and!; [done..|]. intros n. unfold of_level. simpl. rewrite elem_of_nil. tauto. }
  destruct (builder_level_on b p.1 (fun s => mkLevel (p.2 :: deleted_files s) (added_files s)) k Hk) as [Hb Hl]. fold (apply_delete b p) in Hb, Hl.
  destruct (IH (apply_delete b p)) as (H1 & H2 & H3); [by rewrite Hl|]. rewrite H1, H2, Hl, Hb. split_and!; [done|by destruct (p.1 =? k)%nat|].
  intros n. rewrite H3, Hb, of_level_cons, elem_of_app. destruct (p.1 =? k)%nat; simpl; rewrite ?elem_of_cons, ?elem_of_nil; tauto.
Qed.

Lemma apply_adds_level l b k : (k < length (levels_ b))%nat -> level_ok (added_files (builder_level b k)) -> Forall file_dom (of_level l k) ->
  NoDup (fm_number <$> added_files (builder_level b k) ++ of_level l k) ->
  let s := builder_level (foldl apply_add b l) k in
  length (levels_ (foldl apply_add b l)) = length (levels_ b) /\ level_ok (added_files s)
  /\ (forall f, f ∈ added_files s <-> f ∈ added_files (builder_level b k) \/ f ∈ of_level l k)
  /\ (forall n, n ∈ deleted_files s <-> n ∈ deleted_files (builder_level b k) /\ ~ n ∈ fm_number <$> of_level l k).
Proof.
  revert b. induction l as [|p l IH]; intros b Hk Ho Hd Hn; cbn [foldl].
  { split_and!; [done..| |]; intros; unfold of_level; simpl; rewrite elem_of_nil; tauto. }
  destruct (builder_level_on b p.1 (fun s => mkLevel (List.filter (fun n => negb (n =? fm_number p.2)) (deleted_files s)) (file_insert p.2 (added_files s))) k Hk) as [Hb Hl].
  fold (apply_add b p) in Hb, Hl. rewrite of_level_cons in Hd, Hn. setoid_rewrite of_level_cons. destruct (p.1 =? k)%nat.
  2:{ destruct (IH (apply_add b p)) as (H1 & H2 & H3 & H4); [by rewrite Hl|by rewrite Hb|done|by rewrite Hb|]. rewrite Hb in H3, H4. rewrite H1, Hl. by split_and!. }
  cbn [app] in *. apply Forall_cons_1 in Hd as [Hdp Hd]. rewrite fmap_app, fmap_cons, NoDup_app, NoDup_cons in Hn. destruct Hn as (Hn1 & Hn2 & Hn3 & Hn4).
  assert (Hfresh : ~ fm_number p.2 ∈ fm_number <$> added_files (builder_level b k)) by (intros Hin; apply (Hn2 _ Hin); by left).
  destruct Ho as [Hos Hod Hon]. assert (Hel : forall f, f ∈ file_insert p.2 (added_files (builder_level b k)) <-> f = p.2 \/ f ∈ added_files (builder_level b k)) by (intros; by apply elem_of_file_insert).
  assert (Hperm : fm_number <$> file_insert p.2 (added_files (builder_level b k)) ≡ₚ fm_number p.2 :: (fm_number <$> added_files (builder_level b k))).
  { clear -Hfresh. induction (added_files (builder_level b k)) as [|h l IH]; [done|]. cbn [file_insert]. rewrite fmap_cons, not_elem_of_cons in Hfresh. destruct Hfresh as [Hne Hf].
    destruct (file_compare p.2 h) eqn:E; [by apply file_compare_eq in E|done|]. rewrite !fmap_cons, IH by done. apply Permutation_swap. }
  destruct (IH (apply_add b p)) as (H1 & H2 & H3 & H4).
  - by rewrite Hl.
  - rewrite Hb. split; [by apply file_insert_sorted| |]; simpl.
    + apply List.Forall_forall. intros f [->|Hf]%list_elem_of_In%Hel; [done|by apply (Forall_elem _ _ _ Hod)].
    + rewrite Hperm. by constructor.
  - done.
  - rewrite Hb, fmap_app. simpl. rewrite Hperm. apply NoDup_app. split_and!; [by constructor| |done]. intros n [->|Hin]%elem_of_cons; [done|]. intros Hin'. apply (Hn2 _ Hin). by right.
  - rewrite Hb in H3, H4. cbn [added_files deleted_files] in H3, H4. rewrite H1, Hl. split_and!; [done..| |].
    + intros f. rewrite H3, Hel, elem_of_cons. tauto.
    + intros n. rewrite H4, fmap_cons, not_elem_of_cons. rewrite list_elem_of_In, List.filter_In, <- list_elem_of_In, negb_true_iff, Z.eqb_neq. tauto.
Qed.

(** [e] brings files to a level that did not have their numbers. *)
Definition brings (seen : list FileMetaData) (e : VersionEdit) (k : nat) : Prop :=
  Forall file_dom (of_level (new_files_ e) k) /\ NoDup (fm_number <$> seen ++ of_level (new_files_ e) k).

Lemma Apply_level b e k : (k < length (levels_ b))%nat -> level_ok (added_files (builder_level b k)) -> brings (added_files (builder_level b k)) e k ->
  let s := builder_level (Builder_Apply b e) k in
  length (levels_ (Builder_Apply b e)) = length (levels_ b) /\ level_ok (added_files s)
  /\ (forall f, f ∈ added_files s <-> f ∈ added_files (builder_level b k) \/ f ∈ of_level (new_files_ e) k)
  /\ (forall n, n ∈ deleted_files s <-> (n ∈ deleted_files (builder_level b k) \/ n ∈ of_level (deleted_files_ e) k) /\ ~ n ∈ fm_number <$> of_level (new_files_ e) k).
Proof.
  intros Hk Ho [Hd Hn]. unfold Builder_Apply. set (b1 := foldl apply_pointer b _). assert (Hb1 : levels_ b1 = levels_ b).
  { unfold b1. generalize (compact_pointers_ e). intros l. revert b Hk Ho Hn b1. clear. induction l as [|p l IH]; intros b Hk Ho Hn b1; [done|]. unfold b1. cbn [foldl]. by rewrite IH. }
  assert (Hbl : builder_level b1 k = builder_level b k) by (unfold builder_level; by rewrite Hb1). rewrite <- Hbl, <- Hb1 in *. clearbody b1.
  destruct (apply_deletes_level (deleted_files_ e) b1 k Hk) as (H1 & H2 & H3). rewrite <- H2 in Ho, Hn. rewrite <- H1 in Hk.
  destruct (apply_adds_level (new_files_ e) _ k Hk Ho Hd Hn) as (H4 & H5 & H6 & H7). rewrite H4, H1. split_and!; [done..| |].
  - intros f. by rewrite H6, H2.
  - intros n. by rewrite H7, H3.
Qed.

(** ** The next version *)

Lemma files_SaveTo base b k : (k < kNumLevels)%nat ->
  files_ (SaveTo base b) k = save_level (builder_level b k) (files_ base k) (added_files (builder_level b k)).
Proof. intros Hk. unfold files_ at 1, SaveTo. rewrite list_lookup_fmap, lookup_seq_lt by done. done. Qed.

Lemma builder_level_empty ptrs k : builder_level (Builder_empty ptrs) k = mkLevel [] [].
Proof.
  unfold builder_level, Builder_empty. cbn [levels_]. destruct (replicate _ _ !! k) as [s|] eqn:E; [|done]. by apply lookup_replicate in E as [-> _].
Qed.

Lemma level_ok_nil : level_ok [].
Proof. split; constructor. Qed.

Lemma same_number l f g : NoDup (fm_number <$> l) -> f ∈ l -> g ∈ l -> fm_number f = fm_number g -> f = g.
Proof.
  intros Hn [i Hi]%list_elem_of_lookup [j Hj]%list_elem_of_lookup E. assert (i = j) as ->; [|congruence].
  apply (NoDup_lookup (fm_number <$> l) i j (fm_number f)); [done|rewrite list_lookup_fmap..]; [by rewrite Hi|by rewrite Hj, E].
Qed.

Lemma files_NoDup l : StronglySorted file_lt l -> Forall file_dom l -> NoDup l.
Proof.
  induction 1 as [|f l Hs IH Hf]; intros Hd; [constructor|]. apply Forall_cons_1 in Hd as [Hdf Hd]. constructor; [|by apply IH].
  intros Hin. by apply (file_lt_irrefl f Hdf), (Forall_elem _ _ _ Hf).
Qed.

(** A level of the version after an edit. *)
Lemma SaveTo_level v e ptrs k : (k < kNumLevels)%nat -> level_ok (files_ v k) -> brings (files_ v k) e k ->
  let l := files_ (SaveTo v (Builder_Apply (Builder_empty ptrs) e)) k in
  level_ok l /\ forall f, f ∈ l <-> (f ∈ files_ v k /\ ~ fm_number f ∈ of_level (deleted_files_ e) k) \/ f ∈ of_level (new_files_ e) k.
Proof.
  intros Hk Ho [Hd Hn]. rewrite files_SaveTo by done. pose proof Hn as Hn'. rewrite fmap_app in Hn'. apply NoDup_app in Hn' as (_ & Hx & Hn2).
  destruct (Apply_level (Builder_empty ptrs) e k) as (_ & Hs & Hel & Hdel); [done|by rewrite builder_level_empty; apply level_ok_nil|by rewrite builder_level_empty|].
  rewrite builder_level_empty in Hel, Hdel. cbn [added_files deleted_files] in Hel, Hdel. set (s := builder_level _ k) in *. clearbody s.
  assert (Hadd : forall f, f ∈ added_files s <-> f ∈ of_level (new_files_ e) k) by (intros f; rewrite Hel, elem_of_nil; tauto). clear Hel.
  destruct (save_level_ok s _ _ Ho Hs) as [Hso Hin].
  { intros f g Hf Hg%Hadd E. apply (Hx (fm_number f)); [by apply list_elem_of_fmap_2|]. rewrite E. by apply list_elem_of_fmap_2. }
  assert (Hmem : forall f, f ∈ save_level s (files_ v k) (added_files s) <-> (f ∈ files_ v k /\ ~ fm_number f ∈ of_level (deleted_files_ e) k) \/ f ∈ of_level (new_files_ e) k).
  { intros f. rewrite Hin, Hadd, Hdel, elem_of_nil. destruct (decide (f ∈ of_level (new_files_ e) k)) as [Hf|Hf].
    - pose proof (list_elem_of_fmap_2 fm_number _ _ Hf). tauto.
    - destruct (decide (fm_number f ∈ fm_number <$> of_level (new_files_ e) k)) as [Hfn|]; [|tauto]. split; [|intros [[Hf1 _]|?]; [|done]].
      + intros [[Hf1|?] _]; [|done]. exfalso. apply (Hx (fm_number f)); [by apply list_elem_of_fmap_2|done].
      + exfalso. apply (Hx (fm_number f)); [by apply list_elem_of_fmap_2|done]. }
  split; [|done]. assert (Hdom : Forall file_dom (save_level s (files_ v k) (added_files s))).
  { apply List.Forall_forall. intros f [[Hf _]|Hf]%list_elem_of_In%Hmem; [by apply (Forall_elem _ _ _ (lo_dom _ Ho))|by apply (Forall_elem _ _ _ Hd)]. }
  split; [done..|]. apply NoDup_fmap_2_strong; [|by apply files_NoDup]. intros f g Hf%Hmem Hg%Hmem. apply (same_number _ f g Hn); apply elem_of_app; tauto.
Qed.

(** ** Many edits at once *)

Definition builder_ok (b : Builder) : Prop :=
  length (levels_ b) = kNumLevels /\ forall k, (k < kNumLevels)%nat -> level_ok (added_files (builder_level b k)).

Lemma Builder_empty_ok ptrs : builder_ok (Builder_empty ptrs).
Proof. split; [done|]. intros k _. rewrite builder_level_empty. apply level_ok_nil. Qed.

Lemma files_empty_version k : files_ empty_version k = [].
Proof. unfold files_, empty_version. destruct (replicate _ _ !! k) as [l|] eqn:E; [|done]. by apply lookup_replicate in E as [-> _]. Qed.

Lemma save_level_nil s added : save_level s [] added = List.filter (kept s) added.
Proof. induction added as [|a added IH]; [done|]. cbn [save_level upper_bound app List.filter]. rewrite IH. by destruct (kept s a). Qed.

Lemma length_SaveTo base b : length (SaveTo base b) = kNumLevels.
Proof. unfold SaveTo. by rewrite length_fmap, length_seq. Qed.

Lemma version_ext (v w : Version) : length v = kNumLevels -> length w = kNumLevels -> (forall k, (k < kNumLevels)%nat -> files_ v k = files_ w k) -> v = w.
Proof.
  intros Hv Hw H. apply list_eq. intros k. destruct (decide (k < kNumLevels)%nat) as [Hk|Hk]; [|by rewrite !lookup_ge_None_2 by lia].
  specialize (H k Hk). unfold files_ in H. destruct (lookup_lt_is_Some_2 v k) as [x Hx]; [lia|]. destruct (lookup_lt_is_Some_2 w k) as [y Hy]; [lia|].
  rewrite Hx, Hy in *. simpl in H. by rewrite H.
Qed.

(** An edit that is applied to a builder gives the version that it gives if the builder is
    saved before. *)
Lemma Apply_batch b e ptrs : builder_ok b -> (forall k, (k < kNumLevels)%nat -> brings (added_files (builder_level b k)) e k) ->
  builder_ok (Builder_Apply b e)
  /\ SaveTo empty_version (Builder_Apply b e) = SaveTo (SaveTo empty_version b) (Builder_Apply (Builder_empty ptrs) e).
Proof.
  intros [Hl Hb] He. split.
  { split; [|intros k Hk; apply (Apply_level b e k); [by rewrite Hl|by apply Hb|by apply He]].
    rewrite <- Hl. apply (Apply_level b e 0); [rewrite Hl|apply Hb|apply He]; unfold kNumLevels; lia. }
  apply version_ext; [apply length_SaveTo..|]. intros k Hk. specialize (Hb k Hk). specialize (He k Hk). destruct (Apply_level b e k) as (_ & Hs' & Hel & Hdel); [by rewrite Hl|done..|].
  rewrite files_SaveTo, files_empty_version, save_level_nil by done. pose proof (files_SaveTo empty_version b k Hk) as Hbase. rewrite files_empty_version, save_level_nil in Hbase.
  destruct He as [Hd Hn]. rewrite fmap_app in Hn. apply NoDup_app in Hn as (_ & Hx & Hn2).
  assert (Hbo : level_ok (files_ (SaveTo empty_version b) k)).
  { rewrite Hbase. destruct Hb as [Hbs Hbd Hbn]. split; [by apply sorted_filter|by apply List.Forall_forall; intros f [Hf%list_elem_of_In _]%List.filter_In; apply (Forall_elem _ _ _ Hbd)|by apply NoDup_filter_fmap]. }
  destruct (SaveTo_level (SaveTo empty_version b) e ptrs k Hk Hbo) as [[Hs2 Hd2 _] Hin].
  { split; [done|]. rewrite fmap_app. apply NoDup_app. split_and!; [apply Hbo| |done]. intros n (f & -> & Hf)%list_elem_of_fmap. apply Hx.
    rewrite Hbase in Hf. apply elem_of_kept in Hf as [Hf _]. by apply list_elem_of_fmap_2. }
  apply files_unique; [apply sorted_filter, Hs'|done|by apply List.Forall_forall; intros f [Hf%list_elem_of_In _]%List.filter_In; apply (Forall_elem _ _ _ (lo_dom _ Hs'))|].
  intros f. rewrite Hin, Hbase, !elem_of_kept, Hel, Hdel. destruct (decide (f ∈ of_level (new_files_ e) k)) as [Hf|Hf].
  - pose proof (list_elem_of_fmap_2 fm_number _ _ Hf). tauto.
  - destruct (decide (f ∈ added_files (builder_level b k))) as [Hfa|]; [|tauto]. pose proof (Hx (fm_number f) (list_elem_of_fmap_2 fm_number _ _ Hfa)). tauto.
Qed.
