(* ===== verification/LdbManifest.v ===== *)
(** * leveldb: the manifest

    [VersionSet] of src/ext/leveldb/db/version_set.cc holds the current version and the
    numbers of the database.  [LogAndApply] makes the next version from an edit, after it
    has added the edit to the manifest, a log whose first record is a snapshot of the
    version.  [VersionSet_Recover] reads the manifest again.  The theorem: what it
    builds is the version and the numbers that the edits had led to. *)

From Stdlib Require Import ZArith Lia.
From stdpp Require Import base list numbers option sorting.
From S2P Require Import Prelude ByteOrder WebappStr Session LdbCoding LdbLog LdbMem LdbIter LdbSep LdbBuild LdbVersion LdbEdit.
Open Scope Z_scope.
Open Scope webapp_scope.

(** ** The set of versions *)

(** [descriptor_log_]: the offset of the log writer, and the manifest that it writes. *)
Record VersionSet := mkVersions {
  current_ : Version;
  vs_next_file_number : Z;
  manifest_file_number_ : Z;
  vs_last_sequence : Z;
  vs_log_number : Z;
  vs_prev_log_number : Z;
  vs_compact_pointer : list (list Z);
  descriptor_log_ : option (Z * list Z) }.

Definition VersionSet_new : VersionSet := mkVersions empty_version 2 0 0 0 0 (replicate kNumLevels []) None.
(** [NewFileNumber] and [SetLastSequence] move the counters on. *)
Definition set_counters (vs : VersionSet) (next last : Z) : VersionSet :=
  mkVersions (current_ vs) next (manifest_file_number_ vs) last (vs_log_number vs) (vs_prev_log_number vs) (vs_compact_pointer vs) (descriptor_log_ vs).

(** "leveldb.BytewiseComparator" *)
Definition comparator_name : list Z :=
  [108; 101; 118; 101; 108; 100; 98; 46; 66; 121; 116; 101; 119; 105; 115; 101; 67; 111; 109; 112; 97; 114; 97; 116; 111; 114].

(** The record that [WriteSnapshot] adds. *)
Definition snapshot_edit (vs : VersionSet) : VersionEdit :=
  let e := SetComparatorName Edit_new comparator_name in
  let e := foldl (fun e p => match p.2 with [] => e | k => SetCompactPointer e p.1 k end) e (imap pair (vs_compact_pointer vs)) in
  foldl (fun e p => AddFile e p.1 p.2) e (mjoin (imap (fun level files => pair level <$> files) (current_ vs))).

(** What the environment answers: a new manifest, writes of the manifest at an offset,
    syncing it, making it the current one, and opening it to look for a record. *)
Record venv := mkVEnv { new_manifest : bool; manifest_write : Z -> bool; manifest_sync : bool; set_current : bool; reopen : bool }.

Definition add_record (en : venv) (log : Z * list Z) (ptr : Z) (record : list Z) : (Z * list Z) * bool :=
  let '(offset, (ws, s)) := AddRecord (manifest_write en) log.1 ptr record in ((offset, apply_writes log.2 ws), s).

Fixpoint contains_loop (fuel : nat) (r : reader) (record : list Z) : bool :=
  match fuel with
  | O => false
  | S fuel =>
      match ReadRecord true 0 (fun _ => true) r with
      | (None, _) => false
      | (Some x, r) => bool_decide (x = record) || contains_loop fuel r record
      end
  end.
Definition ManifestContains (en : venv) (manifest record : list Z) : bool :=
  reopen en && contains_loop (S (length manifest)) (reader_new manifest) record.

(** The numbers that [LogAndApply] completes an edit with. *)
Definition complete_edit (vs : VersionSet) (e : VersionEdit) : VersionEdit :=
  let e := match log_number_ e with Some _ => e | None => SetLogNumber e (vs_log_number vs) end in
  let e := match prev_log_number_ e with Some _ => e | None => SetPrevLogNumber e (vs_prev_log_number vs) end in
  SetLastSequence (SetNextFile e (vs_next_file_number vs)) (vs_last_sequence vs).

(** [LogAndApply] without the wait for its turn.  [ptrs] are where the records are in
    memory.  The compaction pointers are set even if it fails; the scores that [Finalize]
    computes are left out. *)
Definition LogAndApply (en : venv) (ptrs : Z * Z) (vs : VersionSet) (e : VersionEdit) : bool * VersionSet :=
  let e := complete_edit vs e in
  let b := Builder_Apply (Builder_empty (vs_compact_pointer vs)) e in
  let v := SaveTo (current_ vs) b in
  let vs := mkVersions (current_ vs) (vs_next_file_number vs) (manifest_file_number_ vs) (vs_last_sequence vs) (vs_log_number vs) (vs_prev_log_number vs)
              (compact_pointer_ b) (descriptor_log_ vs) in
  let is_new := match descriptor_log_ vs with None => true | Some _ => false end in
  let '(log, s) :=
    match descriptor_log_ vs with
    | Some log => (Some log, true)
    | None =>
        if new_manifest en then let '(log, s) := add_record en (0, []) ptrs.1 (Edit_EncodeTo (snapshot_edit vs)) in (Some log, s)
        else (None, false)
    end in
  let '(log, s) :=
    match log, s with
    | Some log, true =>
        let record := Edit_EncodeTo e in
        let '(log, s) := add_record en log ptrs.2 record in
        let s := if s then manifest_sync en else false in
        (Some log, if s then true else ManifestContains en log.2 record)
    | log, s => (log, s)
    end in
  let s := if s && is_new then set_current en else s in
  if s then
    (true, mkVersions v (vs_next_file_number vs) (manifest_file_number_ vs) (vs_last_sequence vs)
             (default 0 (log_number_ e)) (default 0 (prev_log_number_ e)) (vs_compact_pointer vs) log)
  else
    (false, mkVersions (current_ vs) (vs_next_file_number vs) (manifest_file_number_ vs) (vs_last_sequence vs) (vs_log_number vs) (vs_prev_log_number vs)
              (vs_compact_pointer vs) (if is_new then None else log)).

(** The version after [LogAndApply] is that of the edit, or the old one if it fails. *)
Lemma LogAndApply_current en ptrs vs e s vs' : LogAndApply en ptrs vs e = (s, vs') ->
  current_ vs' = (if s then SaveTo (current_ vs) (Builder_Apply (Builder_empty (vs_compact_pointer vs)) (complete_edit vs e)) else current_ vs)
  /\ vs_next_file_number vs' = vs_next_file_number vs.
Proof.
  unfold LogAndApply. destruct (match descriptor_log_ _ with Some _ => _ | None => _ end) as [log s1]. destruct (match log with Some _ => _ | None => _ end) as [log' s2].
  destruct (if _ && _ then _ else _); by intros [= <- <-].
Qed.

(** ** Recovery *)

(** What the records tell: the builder and the numbers. *)
Record recovery := mkRecovery { rv_builder : Builder; rv_next : option Z; rv_last : option Z; rv_log : option Z; rv_prev : option Z }.

Definition or_old {A} (new old : option A) : option A := match new with Some _ => new | None => old end.
(** A record of the manifest; [None] is an error. *)
Definition recover_edit (x : recovery) (record : list Z) : option recovery :=
  let* e := Edit_DecodeFrom Edit_new record in
  if match comparator_ e with Some name => bool_decide (name = comparator_name) | None => true end
  then Some (mkRecovery (Builder_Apply (rv_builder x) e) (or_old (next_file_number_ e) (rv_next x)) (or_old (last_sequence_ e) (rv_last x))
               (or_old (log_number_ e) (rv_log x)) (or_old (prev_log_number_ e) (rv_prev x)))
  else None.
(** The reporter makes every corruption of the log an error. *)
Fixpoint manifest_loop (fuel : nat) (r : reader) (x : recovery) : option recovery :=
  match fuel with
  | O => None
  | S fuel =>
      match ReadRecord true 0 (fun _ => true) r with
      | (o, r) =>
          if negb (bool_decide (drops r = [])) then None
          else match o with
               | None => Some x
               | Some record => let* x := recover_edit x record in manifest_loop fuel r x
               end
      end
  end.
(** [VersionSet::Recover] on the manifest that CURRENT names; [None] is an error. *)
Definition VersionSet_Recover (vs : VersionSet) (manifest : list Z) : option VersionSet :=
  let* x := manifest_loop (S (length manifest)) (reader_new manifest) (mkRecovery (Builder_empty (vs_compact_pointer vs)) None None None None) in
  let* next_file := rv_next x in
  let* log_number := rv_log x in
  let* last_sequence := rv_last x in
  Some (mkVersions (SaveTo (current_ vs) (rv_builder x)) (u64 (next_file + 1)) next_file last_sequence log_number (default 0 (rv_prev x))
          (compact_pointer_ (rv_builder x)) (descriptor_log_ vs)).

(** ** Reading the manifest *)

Fixpoint recover_edits (x : recovery) (records : list (list Z)) : option recovery :=
  match records with
  | [] => Some x
  | record :: records => let* x := recover_edit x record in recover_edits x records
  end.

Lemma recover_edits_app x a b : recover_edits x (a ++ b) = let* x := recover_edits x a in recover_edits x b.
Proof. revert x. induction a as [|r a IH]; intros x; [done|]. simpl. destruct (recover_edit x r); [apply IH|done]. Qed.

Lemma manifest_loop_log fuel F pos r rs pre x :
  reader_at F pos r -> lenZ pre = pos -> 0 <= last_record_offset r -> Forall (fun y => bytes_ok y.2) rs ->
  F = pre ++ log_bytes pos rs -> (length rs < fuel)%nat -> manifest_loop fuel r x = recover_edits x rs.*2.
Proof.
  revert fuel pos r pre x. induction rs as [|[ptr slice] rs IH]; intros [|fuel] pos r pre x Hat Hpre Hl Hok HF Hf; simpl in Hf; try lia; cbn [manifest_loop].
  - rewrite app_nil_r in HF. subst pre. rewrite <- Hpre in Hat. destruct (ReadRecord_end F r Hat Hl) as (r' & -> & Hd). by rewrite Hd.
  - apply Forall_cons_1 in Hok as [Hs Hok]. simpl in Hs. cbn [log_bytes] in HF.
    destruct (ReadRecord_at F pos r ptr slice pre _ Hat Hpre Hs Hl HF) as (r1 & -> & Hat1 & Hl1). rewrite (at_drops _ _ _ Hat1), bool_decide_true by done. cbn [negb].
    cbn [fmap list_fmap snd recover_edits]. destruct (recover_edit x slice) as [x1|]; [|done]. simpl.
    set (bs := record_bytes _ pos ptr true slice) in *. apply (IH fuel (pos + lenZ bs) r1 (pre ++ bs)); [done|rewrite length_app; lia|done|done|by rewrite <- app_assoc|lia].
Qed.

(** A manifest of these records is read record by record. *)
Lemma manifest_read records offset f x : Forall (fun y => bytes_ok y.2) records -> write_log 0 [] records = (offset, f) ->
  manifest_loop (S (length f)) (reader_new f) x = recover_edits x records.*2.
Proof.
  intros Hok Hw. pose proof (write_log_bytes [] records) as Hb. change (lenZ []) with 0 in Hb. rewrite Hw in Hb. injection Hb as _ Hf. cbn [app] in Hf.
  apply (manifest_loop_log _ f 0 (reader_new f) records []); [apply reader_new_at|done..|]. rewrite Hf. pose proof (log_bytes_count records 0 ltac:(lia)). lia.
Qed.

Definition venv_ok : venv := mkVEnv true (fun _ => true) true true true.

Lemma add_record_ok records ptr record : add_record venv_ok (write_log 0 [] records) ptr record = (write_log 0 [] (records ++ [(ptr, record)]), true).
Proof.
  rewrite write_log_snoc. pose proof (write_log_bytes [] records) as Hb. change (lenZ []) with 0 in Hb. rewrite Hb. unfold add_record. cbn [fst snd app manifest_write venv_ok].
  unfold AddRecord. destruct (add_loop_bytes (fuel_for (length record)) (log_bytes 0 records) ptr true record) as [_ Hs].
  destruct (add_loop _ _ _ _ _ _) as [ws s]. simpl in Hs. by subst s.
Qed.

Lemma add_record_status log ptr record : (add_record venv_ok log ptr record).2 = true.
Proof.
  assert (Hl : forall fuel o p b d, (add_loop (fun _ => true) fuel o p b d).2 = true).
  { induction fuel as [|fuel IH]; intros o p b d; [done|]. cbn [add_loop]. unfold EmitPhysicalRecordAt. cbn [andb]. destruct (0 <? _); [|done].
    match goal with |- context [add_loop ?w fuel ?o' ?p' ?b' ?d'] => specialize (IH o' p' b' d'); by destruct (add_loop w fuel o' p' b' d') end. }
  unfold add_record, AddRecord. specialize (Hl (fuel_for (length record)) log.1 ptr true record). cbn [manifest_write venv_ok]. by destruct (add_loop _ _ _ _ _ _).
Qed.

Lemma LogAndApply_works ptrs vs e : (LogAndApply venv_ok ptrs vs e).1 = true.
Proof.
  unfold LogAndApply. cbn [descriptor_log_ new_manifest manifest_sync set_current venv_ok].
  destruct (descriptor_log_ vs) as [log|].
  - match goal with |- context [add_record venv_ok ?l ?p ?r] => pose proof (add_record_status l p r) as H; destruct (add_record venv_ok l p r) as [l' s] end. simpl in H. by subst s.
  - match goal with |- context [add_record venv_ok ?l ?p ?r] => pose proof (add_record_status l p r) as H; destruct (add_record venv_ok l p r) as [l' s] end. simpl in H. subst s.
    match goal with |- context [add_record venv_ok ?l ?p ?r] => pose proof (add_record_status l p r) as H; destruct (add_record venv_ok l p r) as [l2 s] end. simpl in H. by subst s.
Qed.

(** ** Edits that the database makes *)

Lemma internal_bytes k : internal k -> bytes_ok k /\ lenZ k < 2 ^ 32.
Proof. intros (e & He & ->). split; [apply Forall_app; split; [apply He|apply le_bytes_ok]|]. rewrite ikey_length. apply He. Qed.

Definition new_file_ok (p : nat * FileMetaData) : Prop :=
  (p.1 < kNumLevels)%nat /\ internal (smallest p.2) /\ internal (largest p.2) /\ u64_ok (fm_number p.2) /\ u64_ok (fm_file_size p.2).

Record edit_ok (e : VersionEdit) : Prop := mkEditOk {
  eo_comparator : forall name, comparator_ e = Some name -> name = comparator_name;
  eo_numbers : Forall (fun o => forall n, o = Some n -> u64_ok n) [log_number_ e; prev_log_number_ e; next_file_number_ e; last_sequence_ e];
  eo_pointers : Forall (fun p => (p.1 < kNumLevels)%nat /\ internal p.2) (compact_pointers_ e);
  eo_deleted : Forall (fun p => (p.1 < kNumLevels)%nat /\ u64_ok p.2) (deleted_files_ e);
  eo_order : StronglySorted del_lt (deleted_files_ e);
  eo_files : Forall new_file_ok (new_files_ e) }.

Lemma edit_ok_valid e : edit_ok e -> edit_valid e.
Proof.
  intros [Hc Hn Hp Hd Ho Hf]. split; [|done| |done..|].
  - intros name E. by rewrite (Hc name E).
  - eapply Forall_impl; [exact Hp|]. intros p [Hl Hk]. split; [done|by apply internal_bytes].
  - eapply Forall_impl; [exact Hf|]. intros p (Hl & Hs & Hg & Hnum & Hz). split; [done|]. split_and!; [done..|by apply internal_bytes|by apply internal_bytes].
Qed.

Lemma prefixed_bytes dst value : bytes_ok dst -> bytes_ok value -> bytes_ok (PutLengthPrefixedSlice dst value).
Proof. intros Hd Hv. unfold PutLengthPrefixedSlice, PutVarint32. rewrite !Forall_app. split_and!; [done|apply varint32_ok|done]. Qed.

Lemma join_bytes {A} (put : A -> list Z) (P : A -> Prop) l : Forall P l -> (forall x, P x -> bytes_ok (put x)) -> bytes_ok (mjoin (put <$> l)).
Proof.
  intros Hl Hx. induction Hl as [|x l Hp Hl IH]; [constructor|]. cbn [fmap list_fmap mjoin list_join]. apply Forall_app. split; [by apply Hx|done].
Qed.

Lemma edit_bytes e : edit_ok e -> bytes_ok (Edit_EncodeTo e).
Proof.
  intros [Hc Hn Hp Hd Ho Hf]. unfold Edit_EncodeTo. assert (Hnum : forall tag o, bytes_ok (put_number tag o)).
  { intros tag [n|]; [|constructor]. apply Forall_app. split; [apply varint32_ok|apply varint_loop_ok]. }
  rewrite !Forall_app. split_and!; try apply Hnum.
  - destruct (comparator_ e) as [name|]; [|constructor]. rewrite (Hc name eq_refl). apply prefixed_bytes; [apply varint32_ok|]. repeat constructor; unfold is_byte; lia.
  - eapply join_bytes; [exact Hp|]. intros p [_ Hk]. apply prefixed_bytes; [|by apply internal_bytes]. apply Forall_app. split; apply varint32_ok.
  - eapply join_bytes; [exact Hd|]. intros p _. unfold put_deleted, PutVarint32, PutVarint64. rewrite !Forall_app. split_and!; [apply varint32_ok..|apply varint_loop_ok].
  - eapply join_bytes; [exact Hf|]. intros p (_ & Hs & Hg & _). unfold put_file. apply prefixed_bytes; [|by apply internal_bytes]. apply prefixed_bytes; [|by apply internal_bytes].
    unfold PutVarint32, PutVarint64. rewrite !Forall_app. split_and!; [apply varint32_ok..|apply varint_loop_ok|apply varint_loop_ok].
Qed.

(** The numbers of an edit, and those from before where it has none. *)
Lemma recover_edit_ok x e : edit_ok e ->
  recover_edit x (Edit_EncodeTo e)
  = Some (mkRecovery (Builder_Apply (rv_builder x) e) (or_old (next_file_number_ e) (rv_next x)) (or_old (last_sequence_ e) (rv_last x))
            (or_old (log_number_ e) (rv_log x)) (or_old (prev_log_number_ e) (rv_prev x))).
Proof.
  intros He. unfold recover_edit. rewrite (Edit_roundtrip e Edit_new eq_refl (edit_ok_valid e He)). simpl.
  destruct (comparator_ e) as [name|] eqn:E; [|done]. by rewrite (eo_comparator e He name E), bool_decide_true.
Qed.

(** ** Compaction pointers *)

Definition set_pointers (ps : list (list Z)) (l : list (nat * list Z)) : list (list Z) := foldl (fun ps p => <[p.1 := p.2]> ps) ps l.

Lemma Apply_pointers b e : compact_pointer_ (Builder_Apply b e) = set_pointers (compact_pointer_ b) (compact_pointers_ e).
Proof.
  unfold Builder_Apply. assert (Ha : forall l b, compact_pointer_ (foldl apply_add b l) = compact_pointer_ b) by (induction l as [|p l IH]; intros b'; [done|]; cbn [foldl]; by rewrite IH).
  assert (Hd : forall l b, compact_pointer_ (foldl apply_delete b l) = compact_pointer_ b) by (induction l as [|p l IH]; intros b'; [done|]; cbn [foldl]; by rewrite IH).
  rewrite Ha, Hd. generalize (compact_pointers_ e). intros l. revert b. induction l as [|p l IH]; intros b; [done|]. cbn [foldl set_pointers]. unfold set_pointers in *. simpl. by rewrite IH.
Qed.

(** The last pointer of a level wins. *)
Lemma set_pointers_lookup l ps k : (k < length ps)%nat ->
  set_pointers ps l !! k = match list.last (of_level l k) with Some p => Some p | None => ps !! k end /\ length (set_pointers ps l) = length ps.
Proof.
  intros Hk. induction l as [|p l IH] using rev_ind; [done|]. unfold set_pointers in *. rewrite foldl_snoc, length_insert. destruct IH as [IH IHl]. split; [|done].
  assert (E : of_level (l ++ [p]) k = of_level l k ++ (if (p.1 =? k)%nat then [p.2] else [])).
  { unfold of_level. rewrite List.filter_app, fmap_app. simpl. by destruct (p.1 =? k)%nat. }
  rewrite E. destruct (Nat.eqb_spec p.1 k) as [->|Hne].
  - rewrite last_snoc, list_lookup_insert_eq; [done|]. by rewrite IHl.
  - by rewrite app_nil_r, list_lookup_insert_ne.
Qed.

Lemma set_pointers_again ps l : set_pointers (set_pointers ps l) l = set_pointers ps l.
Proof.
  apply list_eq. intros k. assert (Hlen : forall ps, length (set_pointers ps l) = length ps).
  { clear. intros ps. unfold set_pointers. revert ps. induction l as [|p l IH]; intros ps; [done|]. cbn [foldl]. by rewrite IH, length_insert. }
  destruct (decide (k < length ps)%nat) as [Hk|Hk]; [|by rewrite !lookup_ge_None_2 by (rewrite !Hlen; lia)].
  destruct (set_pointers_lookup l ps k Hk) as [H1 _]. destruct (set_pointers_lookup l (set_pointers ps l) k ltac:(by rewrite Hlen)) as [H2 _]. rewrite H2, H1. by destruct (list.last _).
Qed.

(** ** The snapshot *)

Lemma of_level_app {A} (a b : list (nat * A)) k : of_level (a ++ b) k = of_level a k ++ of_level b k.
Proof. unfold of_level. by rewrite List.filter_app, fmap_app. Qed.

Lemma of_level_pairs {A} (l : list A) i k : of_level (pair i <$> l) k = if (i =? k)%nat then l else [].
Proof.
  induction l as [|x l IH]; [by destruct (i =? k)%nat|]. rewrite fmap_cons, of_level_cons, IH. simpl. by destruct (i =? k)%nat.
Qed.

Lemma of_level_imap {A} (v : list (list A)) n k :
  of_level (mjoin (imap (fun i l => pair (n + i)%nat <$> l) v)) k = if (n <=? k)%nat then default [] (v !! (k - n)%nat) else [].
Proof.
  revert n. induction v as [|l v IH]; intros n; [by destruct (n <=? k)%nat|]. rewrite imap_cons. cbn [mjoin list_join]. rewrite of_level_app, of_level_pairs, Nat.add_0_r.
  rewrite (imap_ext _ (fun i l => pair (S n + i)%nat <$> l)) by (intros i x _; simpl; by rewrite Nat.add_succ_r). rewrite IH.
  destruct (Nat.eqb_spec n k) as [->|Hne].
  - rewrite Nat.sub_diag, (proj2 (Nat.leb_gt (S k) k)), (proj2 (Nat.leb_le k k)), app_nil_r by lia. done.
  - destruct (Nat.leb_spec (S n) k) as [Hl|Hl]; [|by rewrite (proj2 (Nat.leb_gt n k)) by lia]. rewrite (proj2 (Nat.leb_le n k)) by lia.
    replace (k - n)%nat with (S (k - S n)) by lia. done.
Qed.

Definition snapshot_pointers (ps : list (list Z)) : list (nat * list Z) := List.filter (fun p => negb (bool_decide (p.2 = []))) (imap pair ps).

Lemma snapshot_fields vs : snapshot_edit vs
  = mkEdit (Some comparator_name) None None None None (snapshot_pointers (vs_compact_pointer vs)) [] (mjoin (imap (fun level files => pair level <$> files) (current_ vs))).
Proof.
  unfold snapshot_edit. rewrite files_append. assert (Hp : forall l e, foldl (fun e (p : nat * list Z) => match p.2 with [] => e | k => SetCompactPointer e p.1 k end) e l
    = foldl (fun e p => SetCompactPointer e p.1 p.2) e (List.filter (fun p => negb (bool_decide (p.2 = []))) l)).
  { induction l as [|[i k] l IH]; intros e; [done|]. cbn [foldl List.filter snd fst]. destruct k as [|x k]; cbn [bool_decide negb decide]; by rewrite IH. }
  rewrite Hp, pointers_append. done.
Qed.

Lemma snapshot_pointers_level ps k : of_level (snapshot_pointers ps) k = match ps !! k with Some p => if bool_decide (p = []) then [] else [p] | None => [] end.
Proof.
  unfold snapshot_pointers. assert (Hg : forall n, of_level (List.filter (fun p => negb (bool_decide (p.2 = []))) (imap (fun i p => ((n + i)%nat, p)) ps)) k
    = if (n <=? k)%nat then match ps !! (k - n)%nat with Some p => if bool_decide (p = []) then [] else [p] | None => [] end else []).
  { induction ps as [|p ps IH]; intros n; [by destruct (n <=? k)%nat|]. rewrite imap_cons, Nat.add_0_r.
    rewrite (imap_ext _ (fun i p => ((S n + i)%nat, p))) by (intros i x _; simpl; by rewrite Nat.add_succ_r). change (List.filter ?f (?x :: ?l)) with (List.filter f ([x] ++ l)).
    rewrite List.filter_app, of_level_app, IH. destruct (Nat.leb_spec (S n) k) as [Hl|Hl].
    - rewrite (proj2 (Nat.leb_le n k)) by lia. replace (k - n)%nat with (S (k - S n)) by lia. simpl. destruct (bool_decide (p = [])); [done|]. cbn [negb]. rewrite of_level_cons. simpl.
      by rewrite (proj2 (Nat.eqb_neq n k)) by lia.
    - rewrite app_nil_r. destruct (Nat.leb_spec n k) as [Hnk|Hnk].
      + assert (n = k) as -> by lia. rewrite Nat.sub_diag. simpl. destruct (bool_decide (p = [])); [done|]. cbn [negb]. rewrite of_level_cons. simpl. by rewrite Nat.eqb_refl.
      + simpl. destruct (bool_decide (p = [])); [done|]. cbn [negb]. rewrite of_level_cons. simpl. by rewrite (proj2 (Nat.eqb_neq n k)) by lia. }
  specialize (Hg 0%nat). rewrite Nat.sub_0_r in Hg. exact Hg.
Qed.

Lemma snapshot_pointers_back ps : length ps = kNumLevels -> set_pointers (replicate kNumLevels []) (snapshot_pointers ps) = ps.
Proof.
  intros Hl. apply list_eq. intros k. destruct (decide (k < kNumLevels)%nat) as [Hk|Hk].
  - destruct (set_pointers_lookup (snapshot_pointers ps) (replicate kNumLevels []) k) as [-> _]; [by rewrite length_replicate|]. rewrite snapshot_pointers_level.
    destruct (lookup_lt_is_Some_2 ps k) as [p Hp]; [lia|]. rewrite Hp, lookup_replicate_2 by done. case_bool_decide as E; [by rewrite E|done].
  - assert (Hlen : length (set_pointers (replicate kNumLevels []) (snapshot_pointers ps)) = kNumLevels).
    { destruct (set_pointers_lookup (snapshot_pointers ps) (replicate kNumLevels []) 0) as [_ ->]; [rewrite length_replicate; unfold kNumLevels; lia|by rewrite length_replicate]. }
    by rewrite !lookup_ge_None_2 by lia.
Qed.

(** ** Writing the manifest *)

Record versions_ok (vs : VersionSet) : Prop := mkVersionsOk {
  vk_levels : length (current_ vs) = kNumLevels;
  vk_sorted : forall k, (k < kNumLevels)%nat -> level_ok (files_ (current_ vs) k);
  vk_files : forall k f, f ∈ files_ (current_ vs) k -> new_file_ok (k, f);
  vk_pointers : length (vs_compact_pointer vs) = kNumLevels /\ Forall (fun k => k = [] \/ internal k) (vs_compact_pointer vs);
  vk_numbers : u64_ok (vs_log_number vs) /\ u64_ok (vs_prev_log_number vs) }.

(** What a reader of the records so far has found, and the files it has seen. *)
Record follows (vs : VersionSet) (x : recovery) (seen : nat -> list FileMetaData) : Prop := mkFollows {
  fl_builder : builder_ok (rv_builder x);
  fl_version : SaveTo empty_version (rv_builder x) = current_ vs;
  fl_pointers : compact_pointer_ (rv_builder x) = vs_compact_pointer vs;
  fl_seen : forall k f, (k < kNumLevels)%nat -> f ∈ added_files (builder_level (rv_builder x) k) <-> f ∈ seen k }.

Definition apply_edit (x : recovery) (e : VersionEdit) : recovery :=
  mkRecovery (Builder_Apply (rv_builder x) e) (or_old (next_file_number_ e) (rv_next x)) (or_old (last_sequence_ e) (rv_last x))
    (or_old (log_number_ e) (rv_log x)) (or_old (prev_log_number_ e) (rv_prev x)).

(** The files of the edits are new at their levels. *)
Definition fresh (seen : nat -> list FileMetaData) (es : list VersionEdit) : Prop :=
  forall k, (k < kNumLevels)%nat -> NoDup (fm_number <$> seen k ++ mjoin ((fun e => of_level (new_files_ e) k) <$> es)).

Lemma edit_files_dom e k : edit_ok e -> Forall file_dom (of_level (new_files_ e) k).
Proof.
  intros He. apply List.Forall_forall. intros f (p & -> & [Hp _]%list_elem_of_In%List.filter_In)%list_elem_of_In%list_elem_of_fmap.
  apply list_elem_of_In in Hp. by apply (Forall_elem _ _ _ (eo_files e He)) in Hp as (_ & ? & _).
Qed.

Lemma brings_fresh vs x seen e es k : follows vs x seen -> edit_ok e -> fresh seen (e :: es) -> (k < kNumLevels)%nat ->
  brings (added_files (builder_level (rv_builder x) k)) e k.
Proof.
  intros Hf He Hfr Hk. split; [by apply edit_files_dom|]. specialize (Hfr k Hk). cbn [fmap list_fmap mjoin list_join] in Hfr. rewrite app_assoc, fmap_app in Hfr.
  apply NoDup_app in Hfr as (Hn & _ & _). rewrite fmap_app in *. apply NoDup_app in Hn as (_ & Hx & Hn). apply NoDup_app. split_and!; [|intros n (f & -> & Hin)%list_elem_of_fmap|done].
  - by apply (proj2 (fl_builder _ _ _ Hf) k Hk).
  - apply Hx, list_elem_of_fmap_2. by apply (fl_seen _ _ _ Hf).
Qed.

(** A reader that takes the next edit follows. *)
Lemma follows_edit vs vs' x seen e es ptrs : follows vs x seen -> edit_ok e -> fresh seen (e :: es) ->
  current_ vs' = SaveTo (current_ vs) (Builder_Apply (Builder_empty ptrs) e) -> vs_compact_pointer vs' = set_pointers (vs_compact_pointer vs) (compact_pointers_ e) ->
  follows vs' (apply_edit x e) (fun k => seen k ++ of_level (new_files_ e) k) /\ fresh (fun k => seen k ++ of_level (new_files_ e) k) es.
Proof.
  intros Hf He Hfr Hc Hp. pose proof (fun k => brings_fresh vs x seen e es k Hf He Hfr) as Hb.
  destruct (Apply_batch (rv_builder x) e ptrs (fl_builder _ _ _ Hf) Hb) as [Hok Hs]. split; [split|].
  - done.
  - simpl. by rewrite Hs, (fl_version _ _ _ Hf).
  - simpl. by rewrite Apply_pointers, (fl_pointers _ _ _ Hf).
  - intros k f Hk. simpl. destruct (fl_builder _ _ _ Hf) as [Hl Hlv]. destruct (Apply_level (rv_builder x) e k) as (_ & _ & -> & _); [by rewrite Hl|by apply Hlv|by apply Hb|].
    by rewrite elem_of_app, (fl_seen _ _ _ Hf).
  - intros k Hk. specialize (Hfr k Hk). by rewrite <- app_assoc.
Qed.

Lemma complete_ok vs e next last : edit_ok e -> u64_ok (vs_log_number vs) -> u64_ok (vs_prev_log_number vs) -> u64_ok next -> u64_ok last ->
  edit_ok (complete_edit (set_counters vs next last) e)
  /\ exists lg pl, complete_edit (set_counters vs next last) e = mkEdit (comparator_ e) (Some lg) (Some pl) (Some next) (Some last) (compact_pointers_ e) (deleted_files_ e) (new_files_ e)
     /\ u64_ok lg /\ u64_ok pl.
Proof.
  intros [Hc Hn Hp Hd Ho Hf] H1 H2 H3 H4. repeat (apply Forall_cons_1 in Hn as [? Hn]).
  assert (E : exists lg pl, complete_edit (set_counters vs next last) e = mkEdit (comparator_ e) (Some lg) (Some pl) (Some next) (Some last) (compact_pointers_ e) (deleted_files_ e) (new_files_ e)
     /\ u64_ok lg /\ u64_ok pl).
  { exists (default (vs_log_number vs) (log_number_ e)), (default (vs_prev_log_number vs) (prev_log_number_ e)). unfold complete_edit.
    destruct e as [c [lg|] [pl|] nf ls cp df nw]; simpl in *; split_and!; try done; auto. }
  split; [|done]. destruct E as (lg & pl & -> & Hlg & Hpl). split; [done| |done..]. repeat (apply Forall_cons_2; [by intros n [= <-]|]). constructor.
Qed.

Record mstep := mkStep { st_next : Z; st_last : Z; st_ptrs : Z * Z; st_edit : VersionEdit }.

Definition step_ok (st : mstep) : Prop := edit_ok (st_edit st) /\ u64_ok (st_next st) /\ u64_ok (st_last st).

(** The records of the manifest, and what a reader makes of them. *)
Record logged (vs : VersionSet) (records : list (Z * list Z)) (seen : nat -> list FileMetaData) : Prop := mkLogged {
  wr_log : descriptor_log_ vs = Some (write_log 0 [] records);
  wr_bytes : Forall (fun y => bytes_ok y.2) records;
  wr_read : exists x, recover_edits (mkRecovery (Builder_empty (replicate kNumLevels [])) None None None None) records.*2 = Some x
    /\ follows vs x seen /\ rv_next x = Some (vs_next_file_number vs) /\ rv_last x = Some (vs_last_sequence vs)
    /\ rv_log x = Some (vs_log_number vs) /\ rv_prev x = Some (vs_prev_log_number vs);
  wr_numbers : u64_ok (vs_log_number vs) /\ u64_ok (vs_prev_log_number vs) }.

Lemma next_step vs records seen st es : logged vs records seen -> step_ok st -> fresh seen (st_edit st :: es) ->
  exists vs' records', LogAndApply venv_ok (st_ptrs st) (set_counters vs (st_next st) (st_last st)) (st_edit st) = (true, vs')
    /\ logged vs' records' (fun k => seen k ++ of_level (new_files_ (st_edit st)) k) /\ fresh (fun k => seen k ++ of_level (new_files_ (st_edit st)) k) es
    /\ vs_next_file_number vs' = st_next st /\ vs_last_sequence vs' = st_last st.
Proof.
  intros [Hlog Hb (x & Hx & Hf & _) [Hn1 Hn2]] (He & Hnx & Hls) Hfr. destruct (complete_ok vs (st_edit st) _ _ He Hn1 Hn2 Hnx Hls) as [Hce (lg & pl & Ece & Hlg & Hpl)].
  set (e := st_edit st) in *. set (ce := complete_edit _ e) in *. set (record := Edit_EncodeTo ce).
  exists (mkVersions (SaveTo (current_ vs) (Builder_Apply (Builder_empty (vs_compact_pointer vs)) ce)) (st_next st) (manifest_file_number_ vs) (st_last st) lg pl
    (set_pointers (vs_compact_pointer vs) (compact_pointers_ e)) (Some (write_log 0 [] (records ++ [((st_ptrs st).2, record)])))), (records ++ [((st_ptrs st).2, record)]).
  split; [|split; [|split; [|done]]].
  - unfold LogAndApply. fold ce. cbn [descriptor_log_ set_counters current_ vs_compact_pointer vs_next_file_number vs_last_sequence manifest_file_number_]. rewrite Hlog. fold record.
    rewrite add_record_ok. cbn [manifest_sync venv_ok andb]. rewrite Apply_pointers, Ece. done.
  - assert (Hfr' : fresh seen (ce :: es)) by (by rewrite Ece). split; [done| | |done].
    + apply Forall_app. split; [done|]. apply Forall_singleton. by apply edit_bytes.
    + exists (apply_edit x ce). assert (Hr : recover_edits x [record] = Some (apply_edit x ce)) by (cbn [recover_edits]; unfold record; by rewrite (recover_edit_ok x ce Hce)).
      rewrite fmap_app, recover_edits_app, Hx. split; [exact Hr|].
      match goal with |- follows ?vs' _ _ /\ _ => destruct (follows_edit vs vs' x seen ce es _ Hf Hce Hfr' eq_refl) as [Hfo _]; [by rewrite Ece|] end.
      rewrite Ece in *. by split_and!.
  - intros k Hk. specialize (Hfr k Hk). by rewrite <- app_assoc.
Qed.

(** The first call writes a snapshot of the version that it is called with. *)
Lemma snapshot_ok vs ps : versions_ok vs -> length ps = kNumLevels -> Forall (fun k => k = [] \/ internal k) ps ->
  let vs1 := mkVersions (current_ vs) (vs_next_file_number vs) (manifest_file_number_ vs) (vs_last_sequence vs) (vs_log_number vs) (vs_prev_log_number vs) ps None in
  edit_ok (snapshot_edit vs1)
  /\ follows vs1 (apply_edit (mkRecovery (Builder_empty (replicate kNumLevels [])) None None None None) (snapshot_edit vs1)) (files_ (current_ vs)).
Proof.
  intros [Hl Hs Hf _ _] Hlp Hps vs1. assert (He : edit_ok (snapshot_edit vs1)).
  { rewrite snapshot_fields. split; simpl; [by intros name [= <-]|repeat (apply Forall_cons_2; [done|]); constructor| |constructor|constructor|].
    - apply List.Forall_forall. intros [i k] [Hin Hne]%List.filter_In. apply list_elem_of_In, elem_of_lookup_imap in Hin as (j & p & E & Hj). injection E as -> ->.
      simpl in *. split; [apply lookup_lt_Some in Hj; lia|]. pose proof (Forall_lookup_1 _ _ _ _ Hps Hj) as [->|]; [done|done].
    - apply List.Forall_forall. intros p (l & Hp & (j & fs & -> & Hj)%elem_of_lookup_imap)%list_elem_of_In%list_elem_of_join. apply list_elem_of_fmap in Hp as (f & -> & Hfin).
      apply Hf. unfold files_. by rewrite Hj. }
  split; [done|]. assert (Hnew : forall k, of_level (new_files_ (snapshot_edit vs1)) k = files_ (current_ vs) k).
  { intros k. rewrite snapshot_fields. pose proof (of_level_imap (current_ vs) 0 k) as H. simpl in H. rewrite Nat.sub_0_r in H. exact H. }
  assert (Hb : forall k, (k < kNumLevels)%nat -> brings [] (snapshot_edit vs1) k).
  { intros k Hk. unfold brings. rewrite Hnew. split; [by apply Hs|]. by apply Hs. }
  destruct (Apply_batch (Builder_empty (replicate kNumLevels [])) (snapshot_edit vs1) [] (Builder_empty_ok _)) as [Hok _]; [intros k Hk; rewrite builder_level_empty; by apply Hb|].
  split; [done| | |].
  - simpl. apply version_ext; [apply length_SaveTo|done|]. intros k Hk. destruct (SaveTo_level empty_version (snapshot_edit vs1) (replicate kNumLevels []) k Hk) as [[H1 H2 _] H3];
      [rewrite files_empty_version; apply level_ok_nil|rewrite files_empty_version; by apply Hb|].
    apply files_unique; [done|by apply Hs|done|]. intros f. rewrite H3, Hnew, files_empty_version, elem_of_nil. tauto.
  - simpl. rewrite Apply_pointers, snapshot_fields. by apply snapshot_pointers_back.
  - intros k f Hk. simpl. destruct (Apply_level (Builder_empty (replicate kNumLevels [])) (snapshot_edit vs1) k) as (_ & _ & -> & _);
      [done|rewrite builder_level_empty; apply level_ok_nil|rewrite builder_level_empty; by apply Hb|]. rewrite builder_level_empty, Hnew. simpl. rewrite elem_of_nil. tauto.
Qed.

Lemma set_pointers_ok ps l : length ps = kNumLevels -> Forall (fun k => k = [] \/ internal k) ps -> Forall (fun p => (p.1 < kNumLevels)%nat /\ internal p.2) l ->
  length (set_pointers ps l) = kNumLevels /\ Forall (fun k => k = [] \/ internal k) (set_pointers ps l).
Proof.
  intros Hlen Hps Hl. unfold set_pointers. revert ps Hlen Hps. induction Hl as [|p l [_ Hp] Hl IH]; intros ps Hlen Hps; [done|]. cbn [foldl].
  apply IH; [by rewrite length_insert|]. apply Forall_insert; [done|by right].
Qed.

Lemma first_step vs st es : versions_ok vs -> descriptor_log_ vs = None -> step_ok st -> fresh (files_ (current_ vs)) (st_edit st :: es) ->
  exists vs' records' seen', LogAndApply venv_ok (st_ptrs st) (set_counters vs (st_next st) (st_last st)) (st_edit st) = (true, vs')
    /\ logged vs' records' seen' /\ fresh seen' es /\ vs_next_file_number vs' = st_next st /\ vs_last_sequence vs' = st_last st.
Proof.
  intros Hv Hlog (He & Hnx & Hls) Hfr. destruct (vk_numbers _ Hv) as [Hn1 Hn2]. destruct (complete_ok vs (st_edit st) _ _ He Hn1 Hn2 Hnx Hls) as [Hce (lg & pl & Ece & Hlg & Hpl)].
  set (e := st_edit st) in *. set (ce := complete_edit _ e) in *. set (record := Edit_EncodeTo ce). set (ps := set_pointers (vs_compact_pointer vs) (compact_pointers_ e)).
  destruct (vk_pointers _ Hv) as [Hpl1 Hpl2]. destruct (set_pointers_ok _ _ Hpl1 Hpl2 (eo_pointers _ He)) as [Hps1 Hps2]. fold ps in Hps1, Hps2.
  set (vs1 := mkVersions (current_ vs) (st_next st) (manifest_file_number_ vs) (st_last st) (vs_log_number vs) (vs_prev_log_number vs) ps None).
  destruct (snapshot_ok (set_counters vs (st_next st) (st_last st)) ps) as [Hse Hsf]; [by destruct Hv|done..|].
  change (edit_ok (snapshot_edit vs1)) in Hse. set (x := apply_edit (mkRecovery (Builder_empty (replicate kNumLevels [])) None None None None) (snapshot_edit vs1)).
  change (follows vs1 x (files_ (current_ vs))) in Hsf.
  set (records := [((st_ptrs st).1, Edit_EncodeTo (snapshot_edit vs1)); ((st_ptrs st).2, record)]).
  exists (mkVersions (SaveTo (current_ vs) (Builder_Apply (Builder_empty (vs_compact_pointer vs)) ce)) (st_next st) (manifest_file_number_ vs) (st_last st) lg pl ps (Some (write_log 0 [] records))), records.
  exists (fun k => files_ (current_ vs) k ++ of_level (new_files_ e) k). split_and!; [| | |done..].
  - unfold LogAndApply. fold ce. cbn [descriptor_log_ set_counters current_ vs_compact_pointer vs_next_file_number vs_last_sequence manifest_file_number_ vs_log_number vs_prev_log_number].
    rewrite Hlog. cbn [new_manifest venv_ok]. rewrite Apply_pointers. assert (Hcp : compact_pointers_ ce = compact_pointers_ e) by (by rewrite Ece). rewrite Hcp. fold ps vs1.
    change (0, []) with (write_log 0 [] []). rewrite (add_record_ok []). fold record. rewrite add_record_ok. cbn [manifest_sync set_current venv_ok andb app]. fold records.
    by rewrite Ece.
  - assert (Hfr' : fresh (files_ (current_ vs)) (ce :: es)) by (by rewrite Ece). split; [done| | |done].
    + apply Forall_cons_2; [by apply edit_bytes|]. apply Forall_singleton. by apply edit_bytes.
    + exists (apply_edit x ce). split.
      { unfold records. cbn [fmap list_fmap snd recover_edits]. rewrite (recover_edit_ok _ _ Hse). cbn [mbind option_bind]. unfold record. by rewrite (recover_edit_ok _ ce Hce). }
      match goal with |- follows ?vs' _ _ /\ _ => destruct (follows_edit vs1 vs' x _ ce es (vs_compact_pointer vs) Hsf Hce Hfr' eq_refl) as [Hfo _]; [rewrite Ece; cbn [vs_compact_pointer vs1 compact_pointers_]; symmetry; apply set_pointers_again|] end.
      rewrite Ece in *. by split_and!.
  - intros k Hk. specialize (Hfr k Hk). by rewrite <- app_assoc.
Qed.

Fixpoint run_steps (steps : list mstep) (vs : VersionSet) : bool * VersionSet :=
  match steps with
  | [] => (true, vs)
  | st :: steps =>
      let '(s, vs) := LogAndApply venv_ok (st_ptrs st) (set_counters vs (st_next st) (st_last st)) (st_edit st) in
      if s then run_steps steps vs else (false, vs)
  end.

Lemma run_steps_logged steps vs records seen : logged vs records seen -> Forall step_ok steps -> fresh seen (st_edit <$> steps) ->
  exists vs' records' seen', run_steps steps vs = (true, vs') /\ logged vs' records' seen'
    /\ vs_next_file_number vs' = default (vs_next_file_number vs) (st_next <$> list.last steps) /\ vs_last_sequence vs' = default (vs_last_sequence vs) (st_last <$> list.last steps).
Proof.
  revert vs records seen. induction steps as [|st steps IH]; intros vs records seen Hw Hok Hfr; [by exists vs, records, seen|].
  apply Forall_cons_1 in Hok as [Hst Hok]. destruct (next_step vs records seen st _ Hw Hst Hfr) as (vs1 & rs1 & E & Hw1 & Hfr1 & Hn1 & Hl1).
  destruct (IH vs1 rs1 _ Hw1 Hok Hfr1) as (vs' & rs' & seen' & E' & Hw' & Hn & Hl). exists vs', rs', seen'. cbn [run_steps]. rewrite E. split_and!; [done..| |].
  - rewrite Hn. destruct steps as [|st' steps]; [by rewrite Hn1|]. change (list.last (st :: st' :: steps)) with (list.last (st' :: steps)). destruct (list.last (st' :: steps)) eqn:El; [done|by apply last_None in El].
  - rewrite Hl. destruct steps as [|st' steps]; [by rewrite Hl1|]. change (list.last (st :: st' :: steps)) with (list.last (st' :: steps)). destruct (list.last (st' :: steps)) eqn:El; [done|by apply last_None in El].
Qed.

Lemma logged_recovers vs records seen off manifest : logged vs records seen -> descriptor_log_ vs = Some (off, manifest) -> vs_next_file_number vs + 1 < 2 ^ 64 -> 0 <= vs_next_file_number vs ->
  VersionSet_Recover VersionSet_new manifest
  = Some (mkVersions (current_ vs) (vs_next_file_number vs + 1) (vs_next_file_number vs) (vs_last_sequence vs) (vs_log_number vs) (vs_prev_log_number vs) (vs_compact_pointer vs) None).
Proof.
  intros [Hlog Hb (x & Hx & Hf & Hn & Hl & Hg & Hp) _] Hd Hn1 Hn0. unfold VersionSet_Recover. cbn [VersionSet_new vs_compact_pointer current_ descriptor_log_].
  rewrite Hd in Hlog. injection Hlog as Hlog. rewrite (manifest_read records off manifest); [|done|done]. rewrite Hx. cbn [mbind option_bind]. rewrite Hn, Hg, Hl, Hp. cbn [mbind option_bind default].
  rewrite (fl_version _ _ _ Hf), (fl_pointers _ _ _ Hf), uwrap_small by lia. done.
Qed.


Definition sample_file (number : Z) : FileMetaData :=
  mkFileMeta number 1000 (ikey (mkEntry [97] 1 kTypeValue [])) (ikey (mkEntry [98] 2 kTypeValue [])).
(** A memtable is written to level 0, then its table moves to level 1. *)
Definition sample_steps : list mstep :=
  [mkStep 7 10 (0, 100) (SetLogNumber (AddFile Edit_new 0 (sample_file 4)) 5);
   mkStep 8 20 (200, 300) (AddFile (DeleteFile (SetCompactPointer Edit_new 0 (ikey (mkEntry [98] 2 kTypeValue []))) 0 4) 1 (sample_file 4))].

Lemma sample_internal k s : bytes_ok k -> lenZ k < 100 -> 0 <= s < 2 ^ 56 -> internal (ikey (mkEntry k s kTypeValue [])).
Proof. intros Hb Hl Hs. exists (mkEntry k s kTypeValue []). split; [|done]. split; simpl; [done|lia|lia|done|by right]. Qed.

Lemma sample_file_ok level : (level < kNumLevels)%nat -> new_file_ok (level, sample_file 4).
Proof.
  intros Hl. split_and!; [done|..]; simpl; [apply sample_internal..|by vm_compute|by vm_compute]; (by vm_compute) || (apply Forall_singleton; by vm_compute).
Qed.

Lemma some_number (l : list (option Z)) : forallb (fun o => match o with Some n => (0 <=? n) && (n <? 2 ^ 64) | None => true end) l = true ->
  Forall (fun o => forall n, o = Some n -> u64_ok n) l.
Proof.
  intros H. apply List.Forall_forall. intros o Ho n ->. rewrite forallb_forall in H. specialize (H _ Ho). simpl in H. apply andb_true_iff in H as [H1 H2]. unfold u64_ok. lia.
Qed.

Lemma sample_steps_ok : Forall step_ok sample_steps.
Proof.
  apply Forall_cons_2; [|apply Forall_singleton]; (split; [split|split; by vm_compute]); simpl; try done; try (by apply some_number); try (by constructor).
  - apply Forall_singleton. apply sample_file_ok. unfold kNumLevels. lia.
  - apply Forall_singleton. split; [unfold kNumLevels; simpl; lia|]. apply sample_internal; [apply Forall_singleton; by vm_compute|by vm_compute..].
  - apply Forall_singleton. split; [unfold kNumLevels; simpl; lia|by vm_compute].
  - by repeat constructor.
  - apply Forall_singleton. apply sample_file_ok. unfold kNumLevels. lia.
Qed.

