(* ===== verification/LdbFlush.v ===== *)
(** * leveldb: a memtable joins a version

    [WriteLevel0Table] of src/ext/leveldb/db/db_impl.cc writes a memtable to a table and
    chooses its level; [CompactMemTable] is the work of [CompactMemTableThread], which adds
    the table to the version.  [Full_Get] looks in the memtables and then in the version.
    The theorem: a lookup answers the same before and after. *)

From Stdlib Require Import ZArith Lia.
From stdpp Require Import base list numbers option sorting.
From S2P Require Import Prelude ByteOrder WebappStr Session LdbCoding LdbLog LdbMem LdbIter LdbMerge LdbBlock LdbSep LdbTwoLevel LdbFilter LdbFormat LdbTable LdbBuild LdbVersion LdbEdit LdbManifest.
Open Scope Z_scope.
Open Scope webapp_scope.

(** ** Versions from their files *)

Section Make.
Context `{TB : !Tables} (es : FileMetaData -> list ientry).
Abbreviation held files := (mjoin (es <$> files)).

(** One file is behind the other. *)
Definition ahead_of (f g : FileMetaData) : Prop := forall x y, x ∈ es f -> y ∈ es g -> e_lt x y.
Definition apart (f g : FileMetaData) : Prop := ahead_of f g \/ ahead_of g f.

Lemma file_lt_ahead f g : file_ok f (es f) -> file_ok g (es g) -> apart f g -> file_lt f g -> ahead_of f g.
Proof.
  intros Hf Hg [?|Hgf] Hlt; [done|]. exfalso. destruct (fo_first _ _ Hf) as (a & Ea & Es). destruct (fo_first _ _ Hg) as (b & Eb & Es').
  pose proof (Hgf b a (head_in _ _ Eb) (head_in _ _ Ea)) as Hba. unfold file_lt, file_compare in Hlt. rewrite Es, Es' in Hlt.
  rewrite InternalKey_ikey in Hlt; [|by apply (Forall_elem _ _ _ (fo_entries _ _ Hf)), head_in|by apply (Forall_elem _ _ _ (fo_entries _ _ Hg)), head_in].
  unfold e_lt in Hba. rewrite e_compare_antisym, Hba in Hlt. done.
Qed.

Lemma ahead_file_lt f g : file_ok f (es f) -> file_ok g (es g) -> ahead_of f g -> file_lt f g.
Proof.
  intros Hf Hg Hfg. destruct (fo_first _ _ Hf) as (a & Ea & Es). destruct (fo_first _ _ Hg) as (b & Eb & Es').
  pose proof (Hfg a b (head_in _ _ Ea) (head_in _ _ Eb)) as Hab. unfold file_lt, file_compare. rewrite Es, Es', InternalKey_ikey; [|by apply (Forall_elem _ _ _ (fo_entries _ _ Hf)), head_in|by apply (Forall_elem _ _ _ (fo_entries _ _ Hg)), head_in].
  unfold e_lt in Hab. by rewrite Hab.
Qed.

(** The entries of files that are apart follow each other. *)
Lemma held_sorted files : StronglySorted file_lt files -> (forall f, f ∈ files -> file_ok f (es f)) ->
  (forall f g, f ∈ files -> g ∈ files -> f <> g -> apart f g) -> Forall file_dom files -> StronglySorted e_lt (held files).
Proof.
  intros Hs. induction Hs as [|f files Hs IH Hf]; intros Hok Hap Hd; [constructor|]. apply Forall_cons_1 in Hd as [Hdf Hd]. cbn [fmap list_fmap mjoin list_join].
  apply StronglySorted_app. split_and!; [|apply Hok; by left|].
  - intros x y Hx (g & Hg & Hy)%elem_of_held. pose proof (Forall_elem _ _ _ Hf Hg) as Hlt. apply (file_lt_ahead f g); [apply Hok; by left|apply Hok; by right| |done..].
    apply Hap; [by left|by right|]. intros ->. by apply (file_lt_irrefl g).
  - apply IH; [intros g Hg; apply Hok; by right|intros g h Hg Hh; apply Hap; by right|done].
Qed.

(** The files of a level that follow each other are apart. *)
Lemma files_apart v k f g : version_ok es v -> (0 < k)%nat -> f ∈ files_ v k -> g ∈ files_ v k -> f <> g -> apart f g.
Proof.
  intros Hv Hk [i Hi]%list_elem_of_lookup [j Hj]%list_elem_of_lookup Hne. pose proof (vo_sorted es v Hv k Hk) as Hs.
  destruct (Nat.lt_total i j) as [H|[->|H]]; [left|congruence|right]; intros x y Hx Hy; by eapply sorted_files; [exact Hs| | |exact H| |].
Qed.

(** A version whose levels are kept in order. *)
Record version_in_order (v : Version) : Prop := mkInOrder {
  io_ok : version_ok es v;
  io_levels : forall k, (k < kNumLevels)%nat -> level_ok (files_ v k) }.

Lemma in_order_intro v : length v = kNumLevels -> (forall k, (k < kNumLevels)%nat -> level_ok (files_ v k)) -> (forall k, lenZ (files_ v k) < 2 ^ 31) ->
  (forall k f, f ∈ files_ v k -> file_ok f (es f)) ->
  (forall f g, f ∈ files_ v 0 -> g ∈ files_ v 0 -> fm_number g < fm_number f -> above (es f) (es g)) ->
  (forall k f g, (0 < k < kNumLevels)%nat -> f ∈ files_ v k -> g ∈ files_ v k -> f <> g -> apart f g) ->
  (forall i j f g, (i < j < kNumLevels)%nat -> f ∈ files_ v i -> g ∈ files_ v j -> above (es f) (es g)) -> version_in_order v.
Proof.
  intros Hl Hlv Hsh Hf Hz Hap Hab. split; [|done]. assert (Hout : forall k, ~ (k < kNumLevels)%nat -> files_ v k = []) by (intros k Hk; unfold files_; by rewrite lookup_ge_None_2 by lia).
  split; [done..| |done| |].
  - by apply Hlv; unfold kNumLevels; lia.
  - intros k Hk. destruct (decide (k < kNumLevels)%nat) as [Hk'|Hk']; [|rewrite (Hout k Hk'); constructor].
    destruct (Hlv k Hk') as [H1 H2 _]. apply held_sorted; [done|by apply Hf|intros f g Hff Hg; by apply (Hap k)|done].
  - intros i j Hij x y (f & Hfi & Hx)%elem_of_held (g & Hgj & Hy)%elem_of_held. destruct (decide (j < kNumLevels)%nat) as [Hj|Hj]; [|rewrite (Hout j Hj) in Hgj; by apply elem_of_nil in Hgj].
    by apply (Hab i j f g); [lia|..].
Qed.

(** ** One more file *)

(** Files that do not overlap have no user key in common. *)
Lemma no_overlap f l g : file_ok f l -> file_ok g (es g) -> overlaps (Some (small_key f)) (Some (large_key f)) g = false ->
  (forall x y, x ∈ l -> y ∈ es g -> key_lt (e_key x) (e_key y)) \/ (forall x y, x ∈ l -> y ∈ es g -> key_lt (e_key y) (e_key x)).
Proof.
  intros Hf Hg Ho. unfold overlaps in Ho. apply negb_false_iff, orb_true_iff in Ho as [Ha|Hb]; simpl in *.
  - right. intros x y Hx Hy. rewrite is_gt_flip in Ha. apply is_lt_true in Ha. destruct (file_range f l x Hf Hx) as [Hx1 _]. destruct (file_range g _ y Hg Hy) as [_ Hy2].
    apply (below_trans_l _ (large_key g)); [done|]. by apply (not_before_trans _ (small_key f)).
  - left. intros x y Hx Hy. apply is_lt_true in Hb. destruct (file_range f l x Hf Hx) as [_ Hx2]. destruct (file_range g _ y Hg Hy) as [Hy1 _].
    apply (below_trans_l _ (large_key f)); [done|]. by apply (not_before_trans _ (small_key g)).
Qed.

Lemma elem_of_all_entries v x : length v = kNumLevels -> x ∈ all_entries es v <-> exists k f, f ∈ files_ v k /\ x ∈ es f.
Proof.
  intros Hl. unfold all_entries. rewrite list_elem_of_join. split.
  - intros (l & Hx & (k & -> & _)%list_elem_of_fmap). apply elem_of_held in Hx as (f & Hf & Hx). by exists k, f.
  - intros (k & f & Hf & Hx). exists (held (files_ v k)). split; [apply elem_of_held; by exists f|]. apply list_elem_of_fmap. exists k. split; [done|]. apply elem_of_seq.
    split; [lia|]. destruct (decide (k < kNumLevels)%nat) as [|Hk]; [lia|]. unfold files_ in Hf. rewrite lookup_ge_None_2 in Hf by lia. by apply elem_of_nil in Hf.
Qed.
End Make.

(** The entries of the new file are [l]. *)
Definition with_file (es : FileMetaData -> list ientry) (f : FileMetaData) (l : list ientry) (g : FileMetaData) : list ientry :=
  if decide (g = f) then l else es g.

Section Insert.
Context `{TB : !Tables} (es : FileMetaData -> list ientry) (v : Version) (f : FileMetaData) (l : list ientry) (n : nat) (e : VersionEdit) (ptrs : list (list Z)).
Context (Hv : version_in_order es v) (Hf : file_ok f l) (Hn : (n < kNumLevels)%nat) (Hnum : forall k g, g ∈ files_ v k -> fm_number g < fm_number f).
Context (Hnew : new_files_ e = [(n, f)]) (Hdel : deleted_files_ e = []) (Habove : above l (all_entries es v)) (Hshort : lenZ (files_ v n) + 1 < 2 ^ 31).
Context (Hfree : n <> 0%nat -> forall k g, (k <= n)%nat -> g ∈ files_ v k -> overlaps (Some (small_key f)) (Some (large_key f)) g = false).
Abbreviation v' := (SaveTo v (Builder_Apply (Builder_empty ptrs) e)).
Abbreviation es' := (with_file es f l).

Lemma with_old k g : g ∈ files_ v k -> es' g = es g.
Proof. intros Hg. unfold with_file. rewrite decide_False; [done|]. intros ->. specialize (Hnum k f Hg). lia. Qed.

Lemma with_new : es' f = l.
Proof. unfold with_file. by rewrite decide_True. Qed.

Lemma insert_level k : (k < kNumLevels)%nat -> level_ok (files_ v' k) /\ forall g, g ∈ files_ v' k <-> g ∈ files_ v k \/ (k = n /\ g = f).
Proof.
  intros Hk. destruct Hv as [Hvo Hlv]. assert (Hof : of_level (new_files_ e) k = if (n =? k)%nat then [f] else []) by (rewrite Hnew; unfold of_level; simpl; by destruct (n =? k)%nat).
  destruct (SaveTo_level v e ptrs k Hk (Hlv k Hk)) as [H1 H2].
  - destruct (Hlv k Hk) as [_ _ Hnd]. split.
    + rewrite Hof. destruct (n =? k)%nat; [|constructor]. apply Forall_singleton. destruct (fo_first _ _ Hf) as (a & Ea & Es). exists a. split; [|done].
      by apply (Forall_elem _ _ _ (fo_entries _ _ Hf)), head_in.
    + rewrite Hof, fmap_app. apply NoDup_app. split_and!; [done| |by destruct (n =? k)%nat; repeat constructor; try apply not_elem_of_nil].
      intros m (g & -> & Hg)%list_elem_of_fmap. specialize (Hnum k g Hg). destruct (n =? k)%nat; simpl; [|by apply not_elem_of_nil]. intros Hm%list_elem_of_singleton. lia.
  - split; [done|]. intros g. rewrite H2, Hof, Hdel. unfold of_level. simpl. destruct (Nat.eqb_spec n k) as [->|Hne]; rewrite ?list_elem_of_singleton, ?elem_of_nil; [tauto|]. split; [tauto|]. intros [?|[-> _]]; [tauto|done].
Qed.

Lemma insert_above k g : g ∈ files_ v k -> above l (es g).
Proof. intros Hg x y Hx Hy. apply Habove; [done|]. apply elem_of_all_entries; [apply Hv|]. by exists k, g. Qed.

Lemma insert_file : version_in_order es' v' /\ forall x, x ∈ all_entries es' v' <-> x ∈ l \/ x ∈ all_entries es v.
Proof.
  pose proof (fun k => insert_level k) as Hlv. pose proof (io_ok _ _ Hv) as Hvo. assert (Hcase : forall k g, g ∈ files_ v' k -> g ∈ files_ v k \/ (k = n /\ g = f)).
  { intros k g Hg. destruct (decide (k < kNumLevels)%nat) as [Hk|Hk]; [by apply (Hlv k Hk)|]. unfold files_ in Hg. rewrite lookup_ge_None_2 in Hg by (rewrite length_SaveTo; lia). by apply elem_of_nil in Hg. }
  split.
  - apply in_order_intro.
    + apply length_SaveTo.
    + intros k Hk. by apply Hlv.
    + intros k. destruct (decide (k < kNumLevels)%nat) as [Hk|Hk]; [|unfold files_; rewrite lookup_ge_None_2 by (rewrite length_SaveTo; lia); simpl; lia].
      destruct (Hlv k Hk) as [Hok Hin]. assert (Hle : (length (files_ v' k) <= length (if (k =? n)%nat then f :: files_ v k else files_ v k))%nat).
      { apply submseteq_length, NoDup_submseteq; [apply files_NoDup; apply Hok|]. intros g [Hg|[-> ->]]%Hin; [|rewrite Nat.eqb_refl; by left]. destruct (k =? n)%nat; [by right|done]. }
      destruct (Nat.eqb_spec k n) as [->|]; [simpl in Hle; lia|]. pose proof (vo_short es v Hvo k). lia.
    + intros k g [Hg|[-> ->]]%Hcase; [rewrite (with_old k) by done; by apply (vo_files es v Hvo k)|by rewrite with_new].
    + intros g h [Hg|[E ->]]%Hcase [Hh|[E' ->]]%Hcase Hlt; [| | |lia].
      * rewrite !(with_old 0) by done. by apply (vo_zero es v Hvo).
      * specialize (Hnum 0%nat g Hg). lia.
      * rewrite with_new, (with_old 0) by done. by apply (insert_above 0).
    + assert (Hnf : forall k g, (0 < k)%nat -> k = n -> g ∈ files_ v k -> apart es' f g).
      { intros k g Hk -> Hg. destruct (no_overlap es f l g Hf (vo_files es v Hvo n g Hg)) as [Ho|Ho]; [by apply (Hfree ltac:(lia) n)|left|right]; intros x y; rewrite with_new, (with_old n) by done; intros Hx Hy.
        - apply key_lt_e_compare. by apply Ho. - apply key_lt_e_compare. by apply Ho. }
      intros k g h [Hk Hk'] [Hg|[-> ->]]%Hcase [Hh|[E' ->]]%Hcase Hne; [| |by apply (Hnf n)|done].
      * destruct (files_apart es v k g h Hvo Hk Hg Hh Hne) as [Ha|Ha]; [left|right]; intros x y; rewrite !(with_old k) by done; apply Ha.
      * destruct (Hnf k g Hk E' Hg); [by right|by left].
    + intros i j g h [Hij Hj] [Hg|[-> ->]]%Hcase [Hh|[-> ->]]%Hcase; [| | |lia].
      * rewrite (with_old i), (with_old j) by done. intros x y Hx Hy. apply (vo_above es v Hvo i j Hij); apply elem_of_held; [by exists g|by exists h].
      * rewrite with_new, (with_old i) by done. intros x y Hx Hy E. exfalso. destruct (no_overlap es f l g Hf (vo_files es v Hvo i g Hg)) as [Ho|Ho]; [by apply (Hfree ltac:(lia) i); [lia|]|..].
        -- specialize (Ho y x Hy Hx). rewrite E in Ho. by apply key_lt_irrefl in Ho.
        -- specialize (Ho y x Hy Hx). rewrite E in Ho. by apply key_lt_irrefl in Ho.
      * rewrite with_new, (with_old j) by done. by apply (insert_above j).
  - intros x. rewrite !elem_of_all_entries; [|apply Hvo|apply length_SaveTo]. split.
    + intros (k & g & [Hg|[-> ->]]%Hcase & Hx); [right; exists k, g; split; [done|by rewrite <- (with_old k)]|left; by rewrite with_new in Hx].
    + intros [Hx|(k & g & Hg & Hx)]; [exists n, f; split; [by apply (Hlv n Hn); right|by rewrite with_new]|].
      assert (Hk : (k < kNumLevels)%nat). { destruct (decide (k < kNumLevels)%nat) as [|Hk]; [done|]. unfold files_ in Hg. rewrite lookup_ge_None_2 in Hg by (rewrite (vo_levels es v Hvo); lia). by apply elem_of_nil in Hg. }
      exists k, g. split; [apply (Hlv k Hk); by left|by rewrite (with_old k)].
Qed.
End Insert.

(** ** The tables on disk *)

Section Disk.
Context `{CM : !Compression} (address : Z -> Z) (opt : Options) (verify : bool).

(** [TableCache::Get] of a file that is opened by its number.  An open table that the cache
    keeps is the one that opening gives again: the files of tables do not change. *)
Definition disk_get (disk : Z -> option RandomAccessFile) (number size : Z) (k : list Z) : option entry * bool :=
  match disk number with
  | None => (None, false)
  | Some file =>
      match Table_Open address opt file size with
      | None => (None, false)
      | Some t => InternalGet (KO := internal_order) address opt t verify k
      end
  end.

(** The file of a number is a table with the entries [l]. *)
Definition disk_holds (disk : Z -> option RandomAccessFile) (f : FileMetaData) (l : list ientry) : Prop :=
  exists file F L FB fh mh ih, disk (fm_number f) = Some file /\ holds file F /\ fm_file_size f = lenZ F /\ lenZ F < 2 ^ 32
    /\ table_file (KO := internal_order) opt F (e_view <$> l) L FB fh mh ih /\ entries_ok (KO := internal_order) (e_view <$> l) /\ Forall entry_ok l /\ StronglySorted e_lt l.

Context (Hint : 1 <= block_restart_interval opt) (Hif : internal_filters opt).

Lemma disk_get_ok disk f l key s : disk_holds disk f l -> user_dom key -> 0 <= s < 2 ^ 56 ->
  let met := disk_get disk (fm_number f) (fm_file_size f) (internal_key key s) in
  met.2 = true /\ exists r, looked l key s r /\ SaveValue key met.1 = saver_of_entry r.
Proof.
  intros (file & F & L & FB & fh & mh & ih & Hd & Hh & Hz & Hlen & Hfile & He & Hok & Hs) [Hk Hkl] Hss met.
  pose proof (Open_file (KO := internal_order) address opt Hint F _ L FB fh mh ih file Hfile Hlen Hh) as Ho.
  unfold met, disk_get. rewrite Hd, Hz. rewrite Ho. destruct (table_lookup address opt verify F l L FB fh mh ih file _ key s Hint Hif Hfile He Hlen Hh Ho Hok Hs Hk Hkl Hss) as [H1 H2].
  split; [exact H1|]. destruct H2 as [(e & Hn & ->)|[Hn ->]]; [by exists (Some e)|by exists None].
Qed.

Definition disk_tables (disk : Z -> option RandomAccessFile) : Tables :=
  {| TableCache_Get := disk_get disk; table_holds := disk_holds disk; table_get_ok := disk_get_ok disk |}.
End Disk.

(** Files that are still there hold what they held. *)
Lemma version_mono (T1 T2 : Tables) es v : version_in_order (TB := T1) es v ->
  (forall k f, f ∈ files_ v k -> table_holds (Tables := T1) f (es f) -> table_holds (Tables := T2) f (es f)) -> version_in_order (TB := T2) es v.
Proof.
  intros [[H1 H2 H3 H4 H5 H6 H7] Hlv] Hmono. split; [split|]; try done. intros k f Hf. destruct (H3 k f Hf) as [Ha Hb Hc Hd He]. split; [by apply (Hmono k)|done..].
Qed.

(** ** The code *)

Section Db.
#[local] Existing Instance internal_order.
Context `{CM : !Compression, WF : !WritableFile} (address : Z -> Z) (opt : Options) (verify : bool).
Context (fresh_file : WFile) (opened_file : WFile -> RandomAccessFile).

(** What the environment answers while a memtable is written. *)
Record fenv := mkFEnv { f_new : bool; f_sync : bool; f_close : bool; f_versions : venv; f_ptrs : Z * Z }.

(** [mem_], [imm_], the versions, the files of the tables, and [logfile_number_]. *)
Record DB := mkFullDB {
  db_mem : list TableKey;
  db_imm : option (list TableKey);
  db_versions : VersionSet;
  db_disk : Z -> option RandomAccessFile;
  db_logfile_number : Z }.

Fixpoint lower_level (locked : nat -> bool) (level : nat) : nat :=
  match level with O => O | S l => if locked level then lower_level locked l else level end.

(** [WriteLevel0Table]: the status, the edit, and the table that was written. *)
Definition WriteLevel0Table (en : fenv) (locked : nat -> bool) (base : option Version) (mem : list TableKey) (number : Z) (e : VersionEdit)
    : bool * VersionEdit * option WFile :=
  let '(s, meta, file) := BuildTable address opt (f_new en) (f_sync en) (f_close en) fresh_file opened_file number (NewIterator mem) in
  if s && (0 <? fm_file_size meta) then
    let level := match base with
                 | None => O
                 | Some v => lower_level locked (PickLevelForMemTableOutput v (small_key meta) (large_key meta))
                 end in
    (s, AddFile e level meta, file)
  else (s, e, file).

(** The file of a table appears on disk under its number. *)
Definition put_table (disk : Z -> option RandomAccessFile) (number : Z) (file : option WFile) : Z -> option RandomAccessFile :=
  match file with
  | None => disk
  | Some f => fun n => if n =? number then Some (opened_file f) else disk n
  end.

(** A round of [CompactMemTableThread], for one that is not interrupted by another change
    of the version; files that are not needed any more stay. *)
Definition CompactMemTable (en : fenv) (locked : nat -> bool) (db : DB) : bool * DB :=
  match db_imm db with
  | None => (true, db)
  | Some imm =>
      let vs := db_versions db in
      let number := vs_next_file_number vs in
      let vs := set_counters vs (u64 (number + 1)) (vs_last_sequence vs) in
      let '(s, e, file) := WriteLevel0Table en locked (Some (current_ vs)) imm number Edit_new in
      let disk := put_table (db_disk db) number file in
      if s then
        let e := SetLogNumber (SetPrevLogNumber e 0) (db_logfile_number db) in
        let '(s, vs) := LogAndApply (f_versions en) (f_ptrs en) vs e in
        (s, mkFullDB (db_mem db) (if s then None else Some imm) vs disk (db_logfile_number db))
      else (false, mkFullDB (db_mem db) (Some imm) vs disk (db_logfile_number db))
  end.

(** [DBImpl::Get] at a sequence number. *)
Definition mem_status (r : mem_result) (next : get_status) : get_status :=
  match r with Found value => GetOK value | Deleted => NotFound | Missing => next end.
Definition Full_Get (db : DB) (snapshot : Z) (key : list Z) : get_status :=
  let below := (Version_Get (disk_get address opt verify (db_disk db)) (current_ (db_versions db)) key snapshot).1 in
  mem_status (Get (db_mem db) key snapshot)
    (match db_imm db with Some imm => mem_status (Get imm key snapshot) below | None => below end).

(** ** Lookups *)

Context (Hint : 1 <= block_restart_interval opt) (Hif : internal_filters opt).
Abbreviation tables db := (disk_tables address opt verify Hint Hif (db_disk db)).
Abbreviation version db := (current_ (db_versions db)).

(** No sequence number is used twice. *)
Definition unique_seqs (l : list ientry) : Prop := forall x y, x ∈ l -> y ∈ l -> e_seq x = e_seq y -> x = y.

(** The entries of the memtables, and of the files. *)
Record db_ok (db : DB) (es : FileMetaData -> list ientry) (m i : list ientry) : Prop := mkDbOk {
  dk_mem : db_mem db = adds m;
  dk_imm : match db_imm db with Some imm => imm = adds i | None => i = [] end;
  dk_entries : Forall entry_ok m /\ Forall entry_ok i;
  dk_distinct : distinct m /\ distinct i;
  dk_unique : unique_seqs (m ++ i ++ all_entries es (version db));
  dk_above : above m (i ++ all_entries es (version db)) /\ above i (all_entries es (version db));
  dk_version : version_in_order (TB := tables db) es (version db);
  dk_numbers : forall k f, f ∈ files_ (version db) k -> fm_number f < vs_next_file_number (db_versions db) }.

Lemma mem_looked l key s : Forall entry_ok l -> distinct l -> user_dom key -> 0 <= s < 2 ^ 56 ->
  exists r, looked l key s r /\ forall next, mem_status (Get (adds l) key s) next = match r with Some e => status_of r | None => next end.
Proof.
  intros Hok Hd [Hk Hkl] Hs. destruct (Get_adds l key s Hok Hd Hk Hkl Hs) as [(e & Hn & ->)|[Hn ->]]; [exists (Some e)|by exists None].
  split; [done|]. intros next. unfold status_of, outcome. by destruct (_ =? _).
Qed.

Lemma Full_Get_ok db es m i key s : db_ok db es m i -> user_dom key -> 0 <= s < 2 ^ 56 ->
  exists r, looked (m ++ i ++ all_entries es (version db)) key s r /\ Full_Get db s key = status_of r.
Proof.
  intros [Hm Hi [Hom Hoi] [Hdm Hdi] _ [Ha1 Ha2] Hv _] Hk Hs. destruct (Version_Get_ok (TB := tables db) es _ (io_ok _ _ Hv) key s Hk Hs) as (r3 & H3 & E3). cbn [TableCache_Get disk_tables] in E3.
  destruct (mem_looked m key s Hom Hdm Hk Hs) as (r1 & H1 & E1). destruct (mem_looked i key s Hoi Hdi Hk Hs) as (r2 & H2 & E2).
  exists (match r1 with Some e => Some e | None => match r2 with Some e => Some e | None => r3 end end). split; [apply looked_app; [done|done|by apply looked_app]|].
  unfold Full_Get. rewrite Hm, E1, E3. destruct r1 as [e|]; [done|]. destruct (db_imm db) as [imm|]; [subst imm; rewrite E2; by destruct r2|].
  subst i. destruct r2 as [e|]; [|done]. destruct H2 as [H2 _]. by apply elem_of_nil in H2.
Qed.

(** The same entries give the same answer. *)
Lemma looked_same l l' key s r r' : unique_seqs l -> (forall x, x ∈ l <-> x ∈ l') -> looked l key s r -> looked l' key s r' -> r = r'.
Proof.
  intros Hu Hll Hr Hr'. destruct r as [e|], r' as [e'|]; simpl in *; [| | |done].
  - destruct Hr as (H1 & H2 & H3 & H4), Hr' as (H1' & H2' & H3' & H4'). f_equal. apply Hu; [done|by apply Hll|]. apply Hll in H1'.
    specialize (H4 e' H1' H2' H3'). apply Hll in H1. specialize (H4' e H1 H2 H3). lia.
  - destruct Hr as (H1 & H2 & H3 & _). apply Hll in H1. specialize (Hr' e H1 H2). lia.
  - destruct Hr' as (H1 & H2 & H3 & _). apply Hll in H1. specialize (Hr e' H1 H2). lia.
Qed.

Lemma Full_Get_same db db' es es' m i i' key s : db_ok db es m i -> db_ok db' es' m i' -> user_dom key -> 0 <= s < 2 ^ 56 ->
  (forall x, x ∈ i ++ all_entries es (version db) <-> x ∈ i' ++ all_entries es' (version db')) ->
  Full_Get db' s key = Full_Get db s key.
Proof.
  intros H H' Hk Hs Hsame. destruct (Full_Get_ok db es m i key s H Hk Hs) as (r & Hr & ->). destruct (Full_Get_ok db' es' m i' key s H' Hk Hs) as (r' & Hr' & ->).
  f_equal. symmetry. eapply looked_same; [apply (dk_unique _ _ _ _ H)| |exact Hr|exact Hr']. intros x. rewrite !(elem_of_app m), Hsame. tauto.
Qed.

(** ** Writing a memtable *)

Lemma lower_level_le locked level : (lower_level locked level <= level)%nat.
Proof. induction level as [|l IH]; [done|]. cbn [lower_level]. destruct (locked (S l)); lia. Qed.

(** A file is kept just when the table is added to the version. *)
Lemma BuildTable_file en number it : let r := BuildTable address opt (f_new en) (f_sync en) (f_close en) fresh_file opened_file number (it : MemTableIterator) in
  match r.2 with Some _ => r.1.1 && (0 <? fm_file_size r.1.2) = true | None => r.1.1 && (0 <? fm_file_size r.1.2) = false end /\ fm_number r.1.2 = number.
Proof.
  unfold BuildTable. destruct (cur _) as [[k x]|]; [|done]. destruct (negb _); [done|].
  assert (Hnum : forall fuel it b meta, fm_number (build_loop (I := MemTableIterator) address opt fuel it b meta).2 = fm_number meta).
  { clear. induction fuel as [|fuel IH]; intros it b meta; [done|]. cbn [build_loop]. destruct (cur it) as [[k x]|]; [|done]. by rewrite IH. }
  specialize (Hnum (S (length (content (SeekToFirst it)))) (SeekToFirst it) (TableBuilder_new opt fresh_file) (mkFileMeta number 0 k [])).
  destruct (build_loop _ _ _ _ _ _) as [b meta]. simpl in Hnum |- *. split; [|by destruct (tb_status _)].
  match goal with |- context [if ?c then Some _ else None] => destruct c eqn:E end; by rewrite ?E.
Qed.

(** Reading a file gives what was written to it. *)
Context (Hfresh : file_contents fresh_file = []) (Hread : forall f, lenZ (file_contents f) < 2 ^ 32 -> holds (opened_file f) (file_contents f)).

(** What the memtable may hold, and that its table is not too large. *)
Definition fits (i : list ientry) : Prop :=
  Forall (fun e => bytes_ok (e_value e)) i /\ load (e_view <$> i) < 2 ^ 31
  /\ lenZ (file_contents (written address opt fresh_file (listing (NewIterator (adds i))))) < 2 ^ 32.

(** The new file, with the entries of the memtable in order. *)
Lemma BuildTable_holds en number i meta file disk : Forall entry_ok i -> distinct i -> fits i -> i <> [] ->
  BuildTable address opt (f_new en) (f_sync en) (f_close en) fresh_file opened_file number (NewIterator (adds i)) = (true, meta, file) ->
  exists l f, file = Some f /\ l ≡ₚ i /\ file_ok (TB := disk_tables address opt verify Hint Hif (put_table disk number (Some f))) meta l.
Proof.
  intros Hok Hd (Hv & Hl & Hsz) Hni Hb. destruct (memtable_sorted i Hok Hd Hv Hl) as (l & Hp & Hokl & Hs & Hel & Hi & Hc).
  assert (Hne : e_view <$> l <> []) by (intros E%fmap_nil_inv; apply Hni, Permutation_nil_r; by rewrite <- Hp, E).
  unfold listing in Hsz. destruct (SeekToFirst_best _ Hi) as (_ & Hsc & _). rewrite <- Hsc, (walk_sorted _ (e_view <$> l) Hi (eo_sorted _ Hel) (eo_dom _ Hel) Hc) in Hsz.
  pose proof (BuildTable_kept address opt _ _ _ fresh_file opened_file Hint Hfresh number _ (e_view <$> l) meta file Hi Hel Hc Hne Hsz Hb) as ->.
  set (f := written address opt fresh_file (e_view <$> l)) in *. exists l, f. split; [done|]. split; [done|].
  destruct (BuildTable_ok address opt _ _ _ fresh_file opened_file number _ meta f (e_view <$> l) Hint Hfresh Hi Hel Hc Hb Hsz) as ((L & FB & fh & mh & ih & Hfile) & Hz & Hsm & Hlg).
  pose proof (BuildTable_file en number (NewIterator (adds i))) as [_ Hnum]. rewrite Hb in Hnum. simpl in Hnum.
  split; [|done|done| |].
  - exists (opened_file f), (file_contents f), L, FB, fh, mh, ih. split_and!; [simpl; by rewrite Hnum, Z.eqb_refl|by apply Hread|done..].
  - destruct l as [|a l]; [done|]. exists a. by rewrite Hsm.
  - rewrite Hlg. destruct (list.last l) as [z|] eqn:E; [|by apply last_None in E; subst l]. exists z. split; [done|]. rewrite fmap_last, E. done.
Qed.

Lemma complete_files vs e : new_files_ (complete_edit vs e) = new_files_ e /\ deleted_files_ (complete_edit vs e) = deleted_files_ e.
Proof. unfold complete_edit. by destruct (log_number_ e); simpl; destruct (prev_log_number_ e). Qed.

(** An edit without files changes nothing. *)
Lemma SaveTo_same v e ptrs : length v = kNumLevels -> (forall k, (k < kNumLevels)%nat -> level_ok (files_ v k)) -> new_files_ e = [] -> deleted_files_ e = [] ->
  SaveTo v (Builder_Apply (Builder_empty ptrs) e) = v.
Proof.
  intros Hl Hlv Hn Hd. apply version_ext; [apply length_SaveTo|done|]. intros k Hk. destruct (Hlv k Hk) as [H1 H2 H3].
  destruct (SaveTo_level v e ptrs k Hk (Hlv k Hk)) as [[H4 H5 _] H6].
  { unfold brings. rewrite Hn. unfold of_level. simpl. rewrite app_nil_r. by split; [constructor|]. }
  apply files_unique; [done..|]. intros f. rewrite H6, Hn, Hd. unfold of_level. simpl. rewrite !elem_of_nil. tauto.
Qed.

(** Another table appears on disk. *)
Lemma put_mono disk number file es v : (forall k f, f ∈ files_ v k -> fm_number f < number) ->
  version_in_order (TB := disk_tables address opt verify Hint Hif disk) es v -> version_in_order (TB := disk_tables address opt verify Hint Hif (put_table disk number file)) es v.
Proof.
  intros Hn Hv. apply (version_mono _ _ _ _ Hv). intros k f Hf (fl & F & L & FB & fh & mh & ih & Hd & Hrest). exists fl, F, L, FB, fh, mh, ih. split; [|done].
  specialize (Hn k f Hf). destruct file as [w|]; [|done]. simpl. by rewrite (proj2 (Z.eqb_neq _ _)) by lia.
Qed.

(** A round that does not change the version. *)
Lemma db_ok_keep db es m i vs disk : db_ok db es m i -> current_ vs = version db -> vs_next_file_number (db_versions db) <= vs_next_file_number vs ->
  version_in_order (TB := disk_tables address opt verify Hint Hif disk) es (version db) ->
  db_ok (mkFullDB (db_mem db) (db_imm db) vs disk (db_logfile_number db)) es m i.
Proof.
  intros [H1 H2 H3 H4 H5 H6 H7 H8] Hc Hn Hv. split; simpl; rewrite ?Hc; try done. intros k f Hf. specialize (H8 k f Hf). lia.
Qed.

(** The memtable has become a file. *)
Lemma db_ok_flushed db es m i imm vs disk f l n e ptrs : db_ok db es m i -> db_imm db = Some imm -> l ≡ₚ i ->
  file_ok (TB := disk_tables address opt verify Hint Hif disk) f l -> version_in_order (TB := disk_tables address opt verify Hint Hif disk) es (version db) ->
  fm_number f = vs_next_file_number (db_versions db) -> vs_next_file_number (db_versions db) < vs_next_file_number vs -> (n < kNumLevels)%nat ->
  new_files_ e = [(n, f)] -> deleted_files_ e = [] -> lenZ (files_ (version db) n) + 1 < 2 ^ 31 ->
  (n <> 0%nat -> forall k g, (k <= n)%nat -> g ∈ files_ (version db) k -> overlaps (Some (small_key f)) (Some (large_key f)) g = false) ->
  current_ vs = SaveTo (version db) (Builder_Apply (Builder_empty ptrs) e) ->
  db_ok (mkFullDB (db_mem db) None vs disk (db_logfile_number db)) (with_file es f l) m []
  /\ forall x, x ∈ i ++ all_entries es (version db) <-> x ∈ [] ++ all_entries (with_file es f l) (current_ vs).
Proof.
  intros H Himm Hp Hf Hv Hnum Hnext Hn Hnew Hdel Hsh Hfree Hc. pose proof H as [H1 H2 [H3 H3'] [H4 H4'] H5 [H6 H6'] _ H8].
  destruct (insert_file (TB := disk_tables address opt verify Hint Hif disk) es (version db) f l n e ptrs Hv Hf Hn) as [Hv' Hin];
    [intros k g Hg; rewrite Hnum; by apply (H8 k)|done..| |done|done|].
  { intros x y Hx. apply H6'. by rewrite <- Hp. }
  rewrite <- Hc in Hv', Hin. assert (Hel : forall x, x ∈ i ++ all_entries es (version db) <-> x ∈ all_entries (with_file es f l) (current_ vs)) by (intros x; by rewrite Hin, elem_of_app, Hp).
  split; [|done]. split; simpl; try done.
  - by split; [|constructor].
  - intros x y. rewrite !elem_of_app, <- !Hel, <- !elem_of_app. apply H5.
  - split; [|by intros x y ?%elem_of_nil]. intros x y Hx Hy. apply H6; [done|by apply Hel].
  - intros k g Hg. destruct (decide (k < kNumLevels)%nat) as [Hk|Hk].
    2:{ unfold files_ in Hg. rewrite lookup_ge_None_2 in Hg by (rewrite Hc, length_SaveTo; lia). by apply elem_of_nil in Hg. }
    assert (Hlt : forall k' g', g' ∈ files_ (version db) k' -> fm_number g' < fm_number f) by (intros k' g' Hg'; rewrite Hnum; by apply (H8 k')).
    rewrite Hc in Hg. apply (insert_level es (version db) f l n e ptrs Hv Hf Hn Hlt Hnew Hdel Hsh Hfree k Hk) in Hg as [Hg|[_ ->]]; [specialize (H8 k g Hg); lia|lia].
Qed.

(** The level that is chosen is free. *)
Lemma chosen_level disk es v meta l locked : version_in_order (TB := disk_tables address opt verify Hint Hif disk) es v -> file_ok (TB := disk_tables address opt verify Hint Hif disk) meta l ->
  let n := lower_level locked (PickLevelForMemTableOutput v (small_key meta) (large_key meta)) in
  (n < kNumLevels)%nat /\ (n <> 0%nat -> forall k g, (k <= n)%nat -> g ∈ files_ v k -> overlaps (Some (small_key meta)) (Some (large_key meta)) g = false).
Proof.
  intros Hv Hf n. pose proof (lower_level_le locked (PickLevelForMemTableOutput v (small_key meta) (large_key meta))) as Hle. fold n in Hle.
  destruct (fo_first _ _ Hf) as (a & Ea & Es). assert (Ha : entry_ok a) by (by apply (Forall_elem _ _ _ (fo_entries _ _ Hf)), head_in).
  assert (Hk : user_dom (small_key meta)) by (unfold small_key; rewrite Es, ikey_user; split; apply Ha).
  destruct (PickLevel_ok es v (small_key meta) (large_key meta) (io_ok _ _ Hv) Hk) as [H1 H2]. split; [unfold kMaxMemCompactLevel, kNumLevels in *; lia|].
  intros Hn k g Hkn Hg. apply (H2 ltac:(lia) k g); [lia|done].
Qed.

Lemma flush_ok db es m i en locked : db_ok db es m i -> fits i -> 0 <= vs_next_file_number (db_versions db) < 2 ^ 64 - 1 ->
  (forall k, lenZ (files_ (version db) k) + 1 < 2 ^ 31) ->
  let r := CompactMemTable en locked db in
  exists es' i', db_ok r.2 es' m i' /\ (r.1 = true -> db_imm r.2 = None)
    /\ (forall x, x ∈ i ++ all_entries es (version db) <-> x ∈ i' ++ all_entries es' (version r.2)).
Proof.
  intros H Hfit Hnext Hsh. unfold CompactMemTable. destruct (db_imm db) as [imm|] eqn:Ei; [|by exists es, i]. pose proof (dk_imm _ _ _ _ H) as Himm. rewrite Ei in Himm. subst imm.
  set (number := vs_next_file_number (db_versions db)) in *. set (vs := set_counters _ _ _). assert (Hvn : vs_next_file_number vs = number + 1) by (simpl; by rewrite uwrap_small by lia).
  assert (Hcur : current_ vs = version db) by done. clearbody vs. unfold WriteLevel0Table.
  pose proof (BuildTable_file en number (NewIterator (adds i))) as Hfile. destruct (BuildTable _ _ _ _ _ _ _ _ _) as [[s meta] file] eqn:Eb. cbn [fst snd] in Hfile. destruct Hfile as [Hfile Hnum].
  pose proof (put_mono (db_disk db) number file es _ (dk_numbers _ _ _ _ H) (dk_version _ _ _ _ H)) as Hmono.
  assert (Hkeep : forall vs', current_ vs' = version db -> vs_next_file_number vs' = number + 1 ->
    db_ok (mkFullDB (db_mem db) (Some (adds i)) vs' (put_table (db_disk db) number file) (db_logfile_number db)) es m i).
  { intros vs' Hc Hn. rewrite <- Ei. by apply db_ok_keep; [|done|fold number; lia|]. }
  destruct (s && (0 <? fm_file_size meta)) eqn:Es.
  - apply andb_true_iff in Es as [-> Hpos]. destruct file as [f|]; [|done]. assert (Hni : i <> []) by (intros ->; by vm_compute in Eb).
    destruct (dk_entries _ _ _ _ H) as [_ Hoi]. destruct (dk_distinct _ _ _ _ H) as [_ Hdi].
    destruct (BuildTable_holds en number i meta (Some f) (db_disk db) Hoi Hdi Hfit Hni Eb) as (l & f' & [= <-] & Hp & Hf).
    rewrite Hcur. destruct (chosen_level _ es _ meta l locked Hmono Hf) as [Hn Hfree]. set (n := lower_level _ _) in *. clearbody n.
    destruct (LogAndApply _ _ _ _) as [s2 vs2] eqn:El. destruct (LogAndApply_current _ _ _ _ _ _ El) as [Hc2 Hn2]. rewrite Hvn in Hn2. cbn [fst snd].
    destruct s2; [|exists es, i; split; [apply Hkeep; congruence|]; split; [done|]; simpl; by rewrite Hc2, Hcur].
    rewrite Hcur in Hc2. match type of Hc2 with context [complete_edit vs ?e] => destruct (complete_files vs e) as [Hnew Hdel] end.
    destruct (db_ok_flushed db es m i (adds i) vs2 _ meta l n _ _ H Ei Hp Hf Hmono Hnum ltac:(fold number; lia) Hn Hnew Hdel (Hsh n) Hfree Hc2) as [Hok Hel].
    by exists (with_file es meta l), [].
  - destruct s; [|exists es, i; split; [by apply Hkeep|]; split; [done|]; simpl; by rewrite Hcur]. assert (Hi : i = []).
    { destruct (decide (i = [])) as [|Hni]; [done|]. exfalso. destruct (dk_entries _ _ _ _ H) as [_ Hoi]. destruct (dk_distinct _ _ _ _ H) as [_ Hdi].
      destruct (BuildTable_holds en number i meta file (db_disk db) Hoi Hdi Hfit Hni Eb) as (l & f & -> & _). done. }
    destruct (LogAndApply _ _ _ _) as [s2 vs2] eqn:El. destruct (LogAndApply_current _ _ _ _ _ _ El) as [Hc2 Hn2]. rewrite Hvn in Hn2. cbn [fst snd].
    assert (Hv2 : current_ vs2 = version db).
    { rewrite Hc2, Hcur. destruct s2; [|done]. match goal with |- context [complete_edit vs ?e] => destruct (complete_files vs e) as [Hnew Hdel] end.
      destruct (dk_version _ _ _ _ H) as [Hvo Hlv]. apply SaveTo_same; [apply Hvo|done..]. }
    exists es, i. specialize (Hkeep vs2 Hv2 Hn2). destruct s2; simpl; rewrite Hv2; [|by split_and!]. split_and!; [|done..].
    destruct Hkeep as [K1 K2 K3 K4 K5 K6 K7 K8]. by split.
Qed.

Lemma flush_works db i en locked : match db_imm db with Some imm => imm = adds i | None => i = [] end -> Forall entry_ok i -> distinct i -> fits i ->
  f_new en = true -> f_sync en = true -> f_close en = true -> f_versions en = venv_ok -> (forall f data, (Append f data).1 = true) -> (CompactMemTable en locked db).1 = true.
Proof.
  intros Himm Hoi Hdi (Hv & Hl & Hsz) Hn Hs Hc Hvn Happ. unfold CompactMemTable. destruct (db_imm db) as [imm|]; [|done]. subst imm. set (vs := set_counters _ _ _).
  unfold WriteLevel0Table. assert (Hb : (BuildTable address opt (f_new en) (f_sync en) (f_close en) fresh_file opened_file (vs_next_file_number (db_versions db)) (NewIterator (adds i))).1.1 = true).
  { destruct (decide (i = [])) as [->|Hni]; [done|]. destruct (memtable_sorted i Hoi Hdi Hv Hl) as (l & Hp & Hokl & Hso & Hel & Hi & Hco).
    assert (Hne : e_view <$> l <> []) by (intros E%fmap_nil_inv; apply Hni, Permutation_nil_r; by rewrite <- Hp, E).
    unfold listing in Hsz. destruct (SeekToFirst_best _ Hi) as (_ & Hsc & _). rewrite <- Hsc, (walk_sorted _ (e_view <$> l) Hi (eo_sorted _ Hel) (eo_dom _ Hel) Hco) in Hsz.
    destruct (BuildTable_works address opt (f_new en) (f_sync en) (f_close en) fresh_file opened_file Happ Hint Hfresh Hn Hs Hc Hread (vs_next_file_number (db_versions db)) _ (e_view <$> l) Hi Hel Hco Hne Hsz) as [meta ->]. done. }
  destruct (BuildTable _ _ _ _ _ _ _ _ _) as [[s meta] file]. simpl in Hb. subst s. cbn [andb]. rewrite Hvn.
  destruct (0 <? fm_file_size meta); match goal with |- context [LogAndApply venv_ok ?p ?v ?e] => pose proof (LogAndApply_works p v e) as Hw; by destruct (LogAndApply venv_ok p v e) end.
Qed.

(** C9: writing a memtable to a table changes no answer.  Whatever fails - the new file, a
    write, the manifest - and wherever the table goes, a lookup of any key at any sequence
    number finds after [CompactMemTable] what it found before: the newest version that can
    be seen, in the memtables or in the files of the levels.  The version stays one that
    lookups rely on; and if nothing fails, the memtable is gone. *)
Theorem flush_preserves db es m i en locked : db_ok db es m i -> fits i -> 0 <= vs_next_file_number (db_versions db) < 2 ^ 64 - 1 ->
  (forall k, lenZ (files_ (version db) k) + 1 < 2 ^ 31) ->
  let r := CompactMemTable en locked db in
  (exists es' i', db_ok r.2 es' m i' /\ (r.1 = true -> db_imm r.2 = None))
  /\ (forall key s, user_dom key -> 0 <= s < 2 ^ 56 -> Full_Get r.2 s key = Full_Get db s key)
  /\ (f_new en = true -> f_sync en = true -> f_close en = true -> f_versions en = venv_ok -> (forall f data, (Append f data).1 = true) -> r.1 = true).
Proof.
  intros H Hfit Hnext Hsh r. destruct (flush_ok db es m i en locked H Hfit Hnext Hsh) as (es' & i' & H' & Himm & Hel). fold r in H', Himm, Hel. split_and!.
  - by exists es', i'.
  - intros key s Hk Hs. by apply (Full_Get_same db r.2 es es' m i i').
  - intros Hn Hs' Hc Hvn Happ. destruct (dk_entries _ _ _ _ H) as [_ Hoi]. destruct (dk_distinct _ _ _ _ H) as [_ Hdi]. by apply (flush_works db i); [apply H|..].
Qed.
End Db.

Definition sample_fenv : fenv := mkFEnv true true true venv_ok (0, 100).
(** A database with nothing on disk yet. *)
Definition sample_full : DB :=
  mkFullDB (adds [mkEntry [97] 5 kTypeValue [53]]) (Some (adds sample_entries)) VersionSet_new (fun _ => None) 3.
Abbreviation sample_flush := (CompactMemTable (WF := memory_file) id sample_options [] Mmap_Read sample_fenv (fun _ => false) sample_full).

Lemma sample_filters : internal_filters sample_options.
Proof. by exists (BloomFilterPolicy 10 ten_bits). Qed.

Lemma sample_restarts : 1 <= block_restart_interval sample_options.
Proof. done. Qed.

Lemma empty_in_order `{!Tables} es : version_in_order es empty_version.
Proof.
  assert (Hn : forall k f, ~ f ∈ files_ empty_version k) by (intros k f; rewrite files_empty_version; apply not_elem_of_nil).
  apply in_order_intro; [done|intros k _; rewrite files_empty_version; apply level_ok_nil|intros k; by rewrite files_empty_version|..].
  - by intros k f ?%Hn.
  - by intros f g ?%Hn.
  - by intros k f g _ ?%Hn.
  - by intros i j f g _ ?%Hn.
Qed.

Lemma sample_full_ok : db_ok id sample_options true sample_restarts sample_filters sample_full (fun _ => []) [mkEntry [97] 5 kTypeValue [53]] sample_entries.
Proof.
  assert (Hall : all_entries (fun _ => []) (current_ (db_versions sample_full)) = []) by (by vm_compute). split; rewrite ?Hall, ?app_nil_r; try done.
  - split; repeat constructor; try (vm_compute; congruence); (by left) || (by right).
  - split; unfold distinct; apply (bool_decide_unpack (NoDup _)); vm_compute; exact Logic.I.
  - intros x y Hx Hy E. repeat (apply elem_of_cons in Hx as [->|Hx]; [repeat (apply elem_of_cons in Hy as [->|Hy]; [done|]); by apply elem_of_nil in Hy|]). by apply elem_of_nil in Hx.
  - split; [|by intros x y _ ?%elem_of_nil]. intros x y Hx Hy E. apply list_elem_of_singleton in Hx as ->. repeat (apply elem_of_cons in Hy as [->|Hy]; [done|]). by apply elem_of_nil in Hy.
  - apply empty_in_order.
  - intros k f Hf. simpl in Hf. rewrite files_empty_version in Hf. by apply elem_of_nil in Hf.
Qed.

Lemma flush_preserves_witness : sample_flush.1 = true /\ db_imm sample_flush.2 = None
  /\ Full_Get id sample_options true sample_flush.2 2 [97; 98] = GetOK [50] /\ Full_Get id sample_options true sample_flush.2 4 [97; 98] = NotFound
  /\ Full_Get id sample_options true sample_flush.2 5 [97] = GetOK [53].
Proof.
  assert (Hread : forall f : list Z, lenZ f < 2 ^ 32 -> holds (Mmap_Read f) f) by (intros f Hl; apply Mmap_holds; lia).
  destruct (flush_preserves (WF := memory_file) id sample_options true [] Mmap_Read sample_restarts sample_filters eq_refl Hread sample_full (fun _ => []) _ _ sample_fenv (fun _ => false) sample_full_ok) as (H1 & H2 & H3).
  - split; [repeat constructor; vm_compute; congruence|]. split; by vm_compute.
  - split; by vm_compute.
  - intros k. simpl. rewrite files_empty_version. by vm_compute.
  - specialize (H3 eq_refl eq_refl eq_refl eq_refl (fun _ _ => eq_refl)). destruct H1 as (es' & i' & _ & H1). split; [exact H3|]. split; [exact (H1 H3)|].
    assert (Hd : user_dom [97; 98]) by (split; [repeat constructor; vm_compute; congruence|by vm_compute]). assert (Hd' : user_dom [97]) by (split; [repeat constructor; vm_compute; congruence|by vm_compute]).
    split; [|split].
    + rewrite (H2 [97; 98] 2 Hd ltac:(lia)). vm_compute. reflexivity.
    + rewrite (H2 [97; 98] 4 Hd ltac:(lia)). vm_compute. reflexivity.
    + rewrite (H2 [97] 5 Hd' ltac:(lia)). vm_compute. reflexivity.
Defined.
