(* ===== verification/LdbScan.v ===== *)
(** * leveldb: iterators over the files of a version

    [LevelFileNumIterator] of src/ext/leveldb/db/version_set.cc goes through the files of a
    level; with the tables of the files it makes the concatenating iterator of a level.
    [AddSomeIterators] adds the iterators of a version to those of the memtables, and
    [NewIterator] of db/db_impl.cc merges them all.  The theorem: going through the
    database gives just the keys that have a value, with the values that [Get] finds. *)

From Stdlib Require Import ZArith Lia.
From stdpp Require Import base list numbers option sorting.
From S2P Require Import Prelude ByteOrder WebappStr Session LdbCoding LdbLog LdbMem LdbIter LdbMerge LdbDbIter LdbBatch LdbDb LdbBlock LdbSep LdbTwoLevel LdbFilter LdbFormat LdbTable LdbBuild LdbVersion LdbEdit LdbManifest LdbFlush.
Open Scope Z_scope.
Open Scope webapp_scope.

(** ** Iterators of several kinds *)

Section Combine.
Context `{!KeyOrder}.

(** One of two kinds. *)
Definition sum_case {I J A : Type} (f : I -> A) (g : J -> A) (it : I + J) : A := match it with inl it => f it | inr it => g it end.
Definition sum_map {I J : Type} (f : I -> I) (g : J -> J) (it : I + J) : I + J := match it with inl it => inl (f it) | inr it => inr (g it) end.

#[export] Program Instance sum_iterator {I J : Type} `{!Iterator I, !Iterator J} : Iterator (I + J) := {
  content := sum_case content content;
  iter_ok := sum_case iter_ok iter_ok;
  cur := sum_case cur cur;
  SeekToFirst := sum_map SeekToFirst SeekToFirst;
  SeekToLast := sum_map SeekToLast SeekToLast;
  Seek it t := sum_map (fun it => Seek it t) (fun it => Seek it t) it;
  Next := sum_map Next Next;
  Prev := sum_map Prev Prev }.
Next Obligation. intros I J ? ? [it|it]; apply content_ok. Qed.
Next Obligation. intros I J ? ? [it|it]; apply cur_content. Qed.
Next Obligation. intros I J ? ? [it|it]; apply SeekToFirst_best. Qed.
Next Obligation. intros I J ? ? [it|it]; apply SeekToLast_best. Qed.
Next Obligation. intros I J ? ? [it|it]; apply Seek_best. Qed.
Next Obligation. intros I J ? ? [it|it]; apply Next_best. Qed.
Next Obligation. intros I J ? ? [it|it]; apply Prev_best. Qed.

#[export] Program Instance sum_has_status {I J : Type} `{!Iterator I, !Iterator J, !HasStatus I, !HasStatus J} : HasStatus (I + J) := { status := sum_case status status }.
Next Obligation. intros I J ? ? ? ? [it|it]; [exact (status_ok it)|exact (status_ok it)]. Qed.

(** The iterator of a kind that depends on what it goes through. *)
Definition with_of {X I : Type} (f : X -> I -> I) (it : X * I) : X * I := (it.1, f it.1 it.2).
Program Definition with_iterator {X I : Type} (kind : X -> Iterator I) : Iterator (X * I) := {|
  content it := content (Iterator := kind it.1) it.2;
  iter_ok it := iter_ok (Iterator := kind it.1) it.2;
  cur it := cur (Iterator := kind it.1) it.2;
  SeekToFirst := with_of (fun x => SeekToFirst (Iterator := kind x));
  SeekToLast := with_of (fun x => SeekToLast (Iterator := kind x));
  Seek it t := with_of (fun x it => Seek (Iterator := kind x) it t) it;
  Next := with_of (fun x => Next (Iterator := kind x));
  Prev := with_of (fun x => Prev (Iterator := kind x)) |}.
Next Obligation. intros X I kind [x it]. apply (content_ok (Iterator := kind x)). Qed.
Next Obligation. intros X I kind [x it] e. apply (cur_content (Iterator := kind x)). Qed.
Next Obligation. intros X I kind [x it]. apply (SeekToFirst_best (Iterator := kind x)). Qed.
Next Obligation. intros X I kind [x it]. apply (SeekToLast_best (Iterator := kind x)). Qed.
Next Obligation. intros X I kind [x it]. apply (Seek_best (Iterator := kind x)). Qed.
Next Obligation. intros X I kind [x it]. apply (Next_best (Iterator := kind x)). Qed.
Next Obligation. intros X I kind [x it]. apply (Prev_best (Iterator := kind x)). Qed.

(** [MergingIterator::status]. *)
Definition merge_status {I : Type} `{!Iterator I, !HasStatus I} (it : MergingIterator (I := I)) : bool := forallb status (children_ it).

Lemma merge_status_ok {I : Type} `{!Iterator I, !HasStatus I} (it : MergingIterator (I := I)) : merge_ok it -> merge_status it = true.
Proof.
  intros Hok. apply forallb_forall. intros c Hc%list_elem_of_In. apply status_ok. apply list_elem_of_lookup in Hc as [i Hi]. by apply (merge_child it i).
Qed.

#[export] Program Instance merged_has_status {I : Type} `{!Iterator I, !HasStatus I} : HasStatus (merged (I := I)) := { status := merged_case status merge_status }.
Next Obligation. intros I ? ? [it|it]; [exact (status_ok it)|exact (merge_status_ok it)]. Qed.
End Combine.

(** ** The files of a level *)

Section LevelFiles.
#[local] Existing Instance internal_order.

Record LevelFileNumIterator := mkLevelIter { flist_ : list FileMetaData; index_ : Z; number_ : Z }.
Definition NewLevelFileNumIterator (flist : list FileMetaData) (num : Z) : LevelFileNumIterator := mkLevelIter flist (u32 (lenZ flist)) num.

(** [Bump], over the files from [index_] on. *)
Fixpoint bump_loop (files : list FileMetaData) (index number : Z) : Z :=
  match files with
  | [] => index
  | f :: files => if fm_number f <? number then bump_loop files (u32 (index + 1)) number else index
  end.
Definition Bump (it : LevelFileNumIterator) (index : Z) : LevelFileNumIterator :=
  mkLevelIter (flist_ it) (bump_loop (drop (Z.to_nat index) (flist_ it)) index (number_ it)) (number_ it).

Definition file_value (f : FileMetaData) : list Z := EncodeFixed64 (fm_number f) ++ EncodeFixed64 (fm_file_size f).
Definition file_entry (f : FileMetaData) : entry := (largest f, file_value f).
Definition level_cur (it : LevelFileNumIterator) : option entry := file_entry <$> (flist_ it !! Z.to_nat (index_ it)).
Definition level_Seek (it : LevelFileNumIterator) (target : list Z) : LevelFileNumIterator := Bump it (FindFile (flist_ it) target).
Definition level_SeekToFirst (it : LevelFileNumIterator) : LevelFileNumIterator := Bump it 0.
Definition level_SeekToLast (it : LevelFileNumIterator) : LevelFileNumIterator :=
  mkLevelIter (flist_ it) (match flist_ it with [] => 0 | _ => u32 (lenZ (flist_ it) - 1) end) (number_ it).
Definition level_Next (it : LevelFileNumIterator) : LevelFileNumIterator := Bump it (u32 (index_ it + 1)).
Definition level_Prev (it : LevelFileNumIterator) : LevelFileNumIterator :=
  mkLevelIter (flist_ it) (if index_ it =? 0 then u32 (lenZ (flist_ it)) else index_ it - 1) (number_ it).

Definition level_content (it : LevelFileNumIterator) : list entry := file_entry <$> flist_ it.
(** The files follow each other, and none is left out. *)
Record level_iter_ok (it : LevelFileNumIterator) : Prop := mkLevelIterOk {
  lv_all : number_ it = 0;
  lv_numbers : Forall (fun f => 0 <= fm_number f) (flist_ it);
  lv_sorted : StronglySorted klt (level_content it);
  lv_dom : Forall dom (level_content it).*1;
  lv_short : lenZ (flist_ it) < 2 ^ 31;
  lv_index : 0 <= index_ it <= lenZ (flist_ it) }.

Lemma Bump_all it i : level_iter_ok it -> Bump it i = mkLevelIter (flist_ it) i (number_ it).
Proof.
  intros Hok. unfold Bump. f_equal. rewrite (lv_all _ Hok). assert (H : Forall (fun f => 0 <= fm_number f) (drop (Z.to_nat i) (flist_ it))) by (apply Forall_drop, Hok).
  destruct H as [|f files Hf _]; [done|]. cbn [bump_loop]. by rewrite (proj2 (Z.ltb_ge _ _)) by done.
Qed.

Lemma level_cur_at files i n : level_cur (mkLevelIter files i n) = (file_entry <$> files) !! Z.to_nat i.
Proof. unfold level_cur. by rewrite list_lookup_fmap. Qed.

Lemma level_at it i : level_iter_ok it -> 0 <= i <= lenZ (flist_ it) -> level_iter_ok (mkLevelIter (flist_ it) i (number_ it)).
Proof. intros [] Hi. by split. Qed.

(** Where a search goes. *)
Lemma level_from it i P : level_iter_ok it -> 0 <= i <= lenZ (flist_ it) -> (forall j e, level_content it !! j = Some e -> P e <-> (Z.to_nat i <= j)%nat) ->
  let it' := Bump it i in level_iter_ok it' /\ level_content it' = level_content it /\ best klt P (level_content it) (level_cur it').
Proof.
  intros Hok Hi HP it'. unfold it'. rewrite Bump_all by done. split; [by apply level_at|]. split; [done|]. rewrite level_cur_at.
  apply sorted_best_from; [apply Hok|apply Hok|done].
Qed.

Lemma level_before it i P : level_iter_ok it -> 0 <= i <= lenZ (flist_ it) -> (forall j e, level_content it !! j = Some e -> P e <-> (j < Z.to_nat i)%nat) ->
  let it' := mkLevelIter (flist_ it) (if i =? 0 then u32 (lenZ (flist_ it)) else i - 1) (number_ it) in
  level_iter_ok it' /\ level_content it' = level_content it /\ best kgt P (level_content it) (level_cur it').
Proof.
  intros Hok Hi HP it'. pose proof (lv_short _ Hok) as Hsh. pose proof (sorted_best_before (level_content it) P (Z.to_nat i) (lv_sorted _ Hok) (lv_dom _ Hok)) as Hb.
  unfold it'. rewrite level_cur_at. destruct (Z.eqb_spec i 0) as [->|Hne].
  - rewrite uwrap_small by lia. split; [apply level_at; [done|lia]|]. split; [done|]. rewrite Nat2Z.id, lookup_ge_None_2 by (by rewrite length_fmap). apply Hb; [simpl; lia|done].
  - split; [apply level_at; [done|lia]|]. split; [done|]. replace (Z.to_nat (i - 1)) with (pred (Z.to_nat i)) by lia. destruct (Z.to_nat i) as [|n] eqn:E; [lia|].
    apply Hb; [|done]. unfold level_content. rewrite length_fmap. lia.
Qed.

Lemma level_SeekToLast_best it : level_iter_ok it -> let it' := level_SeekToLast it in
  level_iter_ok it' /\ level_content it' = level_content it /\ best kgt (fun _ => True) (level_content it) (level_cur it').
Proof.
  intros Hok. pose proof (level_before it (lenZ (flist_ it)) (fun _ => True) Hok) as H. cbv zeta in H. ospecialize (H _ _); [lia| |].
  - intros j e Hj%lookup_lt_Some. unfold level_content in Hj. rewrite length_fmap in Hj. split; [lia|done].
  - pose proof (lv_short _ Hok) as Hsh. unfold level_SeekToLast. destruct (flist_ it) as [|f files] eqn:E; [exact H|]. rewrite (proj2 (Z.eqb_neq _ _)) in H by (simpl; lia).
    by rewrite uwrap_small by (simpl in *; lia).
Qed.

Lemma level_Seek_best it t : level_iter_ok it -> dom t -> let it' := level_Seek it t in
  level_iter_ok it' /\ level_content it' = level_content it /\ best klt (fun e => cmp e.1 t <> Lt) (level_content it) (level_cur it').
Proof.
  intros Hok Ht. assert (Hl : forall i f, flist_ it !! i = Some f -> level_content it !! i = Some (file_entry f)) by (intros i f Hi; unfold level_content; by rewrite list_lookup_fmap, Hi).
  assert (Hd : forall i f, flist_ it !! i = Some f -> dom (largest f)).
  { intros i f Hi. apply (Forall_elem _ _ _ (lv_dom _ Hok)). change (largest f) with (file_entry f).1. apply list_elem_of_fmap_2. eapply list_elem_of_lookup_2. by apply (Hl i). }
  assert (He : ends_first (flist_ it) t).
  { intros i j f g Hi Hj Hij Hlt. destruct (decide (i = j)) as [->|Hne]; [congruence|].
    apply (cmp_trans (KeyOrder := internal_order) _ (largest g)); [by apply (Hd i)|by apply (Hd j)|done| |done].
    apply (klt_index (level_content it) i j (file_entry f) (file_entry g)); [apply Hok|apply Hok|by apply Hl|by apply Hl|lia]. }
  destruct (FindFile_spec _ _ He (lv_short _ Hok)) as [Hn Hi]. apply level_from; [done..|]. intros j e Hj. unfold level_content in Hj. rewrite list_lookup_fmap in Hj.
  destruct (flist_ it !! j) as [f|] eqn:Ef; [|done]. injection Hj as <-. simpl. rewrite (Hi j f Ef). lia.
Qed.

Lemma level_cur_index it e : level_iter_ok it -> level_cur it = Some e -> level_content it !! Z.to_nat (index_ it) = Some e /\ index_ it < lenZ (flist_ it).
Proof.
  intros Hok He. unfold level_cur in He. pose proof (lv_index _ Hok). unfold level_content. rewrite list_lookup_fmap. split; [done|].
  apply fmap_Some in He as (f & Hf%lookup_lt_Some & _). lia.
Qed.

Lemma level_Next_best it e : level_iter_ok it -> level_cur it = Some e -> let it' := level_Next it in
  level_iter_ok it' /\ level_content it' = level_content it /\ best klt (klt e) (level_content it) (level_cur it').
Proof.
  intros Hok He. destruct (level_cur_index it e Hok He) as [He' Hi]. pose proof (lv_index _ Hok). pose proof (lv_short _ Hok). unfold level_Next. rewrite uwrap_small by lia.
  apply level_from; [done|lia|]. intros j e' Hj. rewrite (klt_index (level_content it) (Z.to_nat (index_ it)) j e e'); [lia|apply Hok|apply Hok|done..].
Qed.

Lemma level_Prev_best it e : level_iter_ok it -> level_cur it = Some e -> let it' := level_Prev it in
  level_iter_ok it' /\ level_content it' = level_content it /\ best kgt (kgt e) (level_content it) (level_cur it').
Proof.
  intros Hok He. destruct (level_cur_index it e Hok He) as [He' Hi]. pose proof (lv_index _ Hok). apply level_before; [done|lia|]. intros j e' Hj.
  pose proof (sorted_keys _ (lv_sorted _ Hok) (lv_dom _ Hok)) as Hk. rewrite (order_flip (level_content it) e e' Hk); [|by eapply list_elem_of_lookup_2..].
  by apply (klt_index (level_content it)); [apply Hok|apply Hok|..].
Qed.

#[export] Program Instance level_iterator : Iterator LevelFileNumIterator := {
  content := level_content;
  iter_ok := level_iter_ok;
  cur := level_cur;
  SeekToFirst := level_SeekToFirst;
  SeekToLast := level_SeekToLast;
  Seek := level_Seek;
  Next := level_Next;
  Prev := level_Prev;
  SeekToLast_best := level_SeekToLast_best;
  Seek_best := level_Seek_best;
  Next_best := level_Next_best;
  Prev_best := level_Prev_best }.
Next Obligation. intros it Hok. apply sorted_keys; apply Hok. Qed.
Next Obligation. intros it e Hok He. destruct (level_cur_index it e Hok He) as [H _]. by eapply list_elem_of_lookup_2. Qed.
Next Obligation. intros it Hok. apply level_from; [done|lia|]. intros. split; [lia|done]. Qed.

#[export] Program Instance level_has_status : HasStatus LevelFileNumIterator := { status _ := true }.
Next Obligation. done. Qed.
End LevelFiles.

(** ** The iterators of the files *)

Section Scan.
#[local] Existing Instance internal_order.
Context `{CM : !Compression} (address : Z -> Z) (opt : Options) (verify : bool).

(** An iterator of a table, with the table. *)
Abbreviation BlocksIter := (TwoLevelIterator (or_empty BlockIter) (or_empty BlockIter)).
Definition TableIterator : Type := Table * BlocksIter.
#[local] Instance table_iterator : Iterator TableIterator := with_iterator (fun t => two_level_iterator (BlockReader address t verify)).
#[local] Program Instance table_has_status : HasStatus TableIterator := { status it := two_status it.2 }.
Next Obligation. intros [t it] Hok. exact (two_status_ok (BlockReader address t verify) it Hok). Qed.

(** [TableCache::NewIterator] and [GetFileIterator]. *)
Definition TableCache_NewIterator (disk : Z -> option RandomAccessFile) (number size : Z) : or_empty TableIterator :=
  match disk number with
  | None => EmptyIterator false
  | Some file =>
      match Table_Open address opt file size with
      | None => EmptyIterator false
      | Some t => Iter (t, Table_NewIterator t)
      end
  end.
Definition GetFileIterator (disk : Z -> option RandomAccessFile) (file_value : list Z) : or_empty TableIterator :=
  if lenZ file_value =? 16 then
    match DecodeFixed64 file_value, DecodeFixed64 (drop 8 file_value) with
    | Some number, Some size => TableCache_NewIterator disk number size
    | _, _ => EmptyIterator false
    end
  else EmptyIterator false.

(** The concatenating iterator of some files. *)
Definition LevelIterator : Type := (Z -> option RandomAccessFile) * TwoLevelIterator LevelFileNumIterator (or_empty TableIterator).
#[local] Instance concat_iterator : Iterator LevelIterator := with_iterator (fun disk => two_level_iterator (GetFileIterator disk)).
#[local] Program Instance concat_has_status : HasStatus LevelIterator := { status it := two_status it.2 }.
Next Obligation. intros [disk it] Hok. exact (two_status_ok (GetFileIterator disk) it Hok). Qed.

Definition NewConcatenatingIterator (disk : Z -> option RandomAccessFile) (files : list FileMetaData) (num : Z) : LevelIterator :=
  (disk, NewTwoLevelIterator (NewLevelFileNumIterator files num)).

(** [AddSomeIterators]: the iterators that are added. *)
Definition FilesIterator : Type := or_empty TableIterator + LevelIterator.
Definition AddSomeIterators (disk : Z -> option RandomAccessFile) (v : Version) (num : Z) : list FilesIterator :=
  ((fun f => inl (TableCache_NewIterator disk (fm_number f) (fm_file_size f))) <$> files_ v 0)
  ++ mjoin ((fun level => match files_ v level with [] => [] | files => [inr (NewConcatenatingIterator disk files num)] end) <$> seq 1 (kNumLevels - 1)).

(** [NewInternalIterator] and [NewIterator]. *)
Definition ChildIterator : Type := MemTableIterator + FilesIterator.
Definition imm_iterators (imm : option (list TableKey)) : list ChildIterator :=
  match imm with Some imm => [inl (NewIterator imm)] | None => [] end.
Definition child_iterators (db : DB) (number : Z) : list ChildIterator :=
  [inl (NewIterator (db_mem db))] ++ imm_iterators (db_imm db) ++ (inr <$> AddSomeIterators (db_disk db) (current_ (db_versions db)) number).
Definition Full_NewInternalIterator (db : DB) (number : Z) : merged (I := ChildIterator) := NewMergingIterator (child_iterators db number).
Definition Full_NewIterator (db : DB) (snapshot : option Z) : DBIter (I := merged (I := ChildIterator)) :=
  NewDBIterator (Full_NewInternalIterator db 0) (default (vs_last_sequence (db_versions db)) snapshot).

(** All that an iterator at a sequence number shows. *)
Definition Scan (db : DB) (s : Z) : list entry := @listing user_order _ db_iterator (Full_NewIterator db (Some s)).

(** ** What they go through *)

Context (Hint : 1 <= block_restart_interval opt) (Hif : internal_filters opt).
Abbreviation tables disk := (disk_tables address opt verify Hint Hif disk).

Lemma TableCache_NewIterator_ok disk f l : disk_holds opt disk f l ->
  let it := TableCache_NewIterator disk (fm_number f) (fm_file_size f) in iter_ok it /\ content it = e_view <$> l.
Proof.
  intros (file & F & L & FB & fh & mh & ih & Hd & Hh & Hz & Hlen & Hfile & He & Hok & Hs). unfold TableCache_NewIterator. rewrite Hd, Hz.
  pose proof (Open_file (KO := internal_order) address opt Hint F _ L FB fh mh ih file Hfile Hlen Hh) as Ho. rewrite Ho. set (t := mkTable _ _ _ _) in *.
  destruct (index_iter address opt Hint _ _ L FB fh mh ih file t Hfile He Hlen Hh Ho) as (it & Eit & Hio & Hc).
  destruct (table_blocks_ok address opt Hint _ _ L FB fh mh ih file verify t Hfile He Hlen Hh Ho) as [Hbo Hbc]. unfold Table_NewIterator. rewrite Eit.
  assert (Hc' : content (Iter it) = index_entry <$> L) by exact Hc. assert (Hio' : iter_ok (Iter it)) by exact Hio. rewrite <- Hc' in Hbo, Hbc. destruct (NewTwoLevelIterator_ok (BlockReader address t verify) (Iter it) Hio' Hbo) as [H1 H2]. rewrite Hbc in H2. done.
Qed.

(** The number and the size of a file fit in 64 bits. *)
Definition numbered (f : FileMetaData) : Prop := 0 <= fm_number f < 2 ^ 64.

Lemma GetFileIterator_value disk f l : numbered f -> disk_holds opt disk f l ->
  GetFileIterator disk (file_value f) = TableCache_NewIterator disk (fm_number f) (fm_file_size f).
Proof.
  intros Hn (file & F & L & FB & fh & mh & ih & _ & _ & Hz & Hlen & _). unfold GetFileIterator, file_value. assert (Hl : forall x, length (EncodeFixed64 x) = 8%nat) by (intros x; apply length_le_bytes). rewrite length_app, !Hl.
  change (Z.of_nat (8 + 8) =? 16) with true. cbv iota.
  rewrite DecodeFixed64_Encode by done. rewrite drop_app_length' by (by rewrite Hl).
  rewrite <- (app_nil_r (EncodeFixed64 (fm_file_size f))), DecodeFixed64_Encode by lia. done.
Qed.

Section Held.
Context (disk : Z -> option RandomAccessFile) (es : FileMetaData -> list ientry).
Abbreviation held files := (mjoin (es <$> files)).

Section Concat.
Context (files : list FileMetaData) (Hfs : forall f, f ∈ files -> numbered f /\ file_ok (TB := tables disk) f (es f)).
Context (Hs : StronglySorted e_lt (held files)) (Hsh : lenZ files < 2 ^ 31).

Lemma last_entry f : f ∈ files -> exists z, z ∈ es f /\ largest f = ikey z /\ entry_ok z /\ forall x, x ∈ es f -> x = z \/ e_lt x z.
Proof.
  intros Hf. destruct (Hfs f Hf) as [_ Ho]. destruct (fo_last _ _ Ho) as (z & Ez & El). pose proof (last_elem _ _ Ez) as Hz. exists z. split_and!; [done..|by apply (Forall_elem _ _ _ (fo_entries _ _ Ho))|].
  intros x. by apply last_greatest; [apply Ho|].
Qed.

Lemma file_content f : f ∈ files -> iter_ok (GetFileIterator disk (file_value f)) /\ content (GetFileIterator disk (file_value f)) = e_view <$> es f.
Proof.
  intros Hf. destruct (Hfs f Hf) as [Hn Ho]. rewrite (GetFileIterator_value disk f (es f) Hn (fo_table _ _ Ho)). apply TableCache_NewIterator_ok. exact (fo_table _ _ Ho).
Qed.

Lemma file_block f : f ∈ files -> block_of (GetFileIterator disk) (file_entry f) = e_view <$> es f.
Proof. intros Hf. apply (file_content f Hf). Qed.

Lemma level_new_ok : level_iter_ok (NewLevelFileNumIterator files 0).
Proof.
  split; simpl; [done| | | |done|rewrite uwrap_small; lia].
  - apply List.Forall_forall. intros f Hf%list_elem_of_In. apply (Hfs f Hf).
  - unfold level_content. simpl. assert (Hsub : forall fs, fs ⊆ files -> StronglySorted e_lt (held fs) -> StronglySorted klt (file_entry <$> fs)); [|by apply Hsub].
    induction fs as [|f fs IH]; intros Hin Hso; [constructor|]. cbn [fmap list_fmap mjoin list_join] in Hso. apply StronglySorted_app in Hso as (Hc & _ & Hso).
    simpl. constructor; [apply IH; [intros g Hg; apply Hin; by right|done]|]. apply Forall_fmap, List.Forall_forall. intros g Hg%list_elem_of_In.
    destruct (last_entry f (Hin f ltac:(by left))) as (z & Hz & El & Hzo & _). destruct (last_entry g (Hin g ltac:(by right))) as (z' & Hz' & El' & Hzo' & _).
    unfold klt. simpl. rewrite El, El', InternalKey_ikey by done. apply Hc; [done|]. apply elem_of_held. by exists g.
  - unfold level_content. simpl. rewrite <- list_fmap_compose. apply Forall_fmap, List.Forall_forall. intros f Hf%list_elem_of_In. destruct (last_entry f Hf) as (z & _ & El & Hzo & _). by exists z.
Qed.

Lemma level_blocks_ok : blocks_ok (GetFileIterator disk) (file_entry <$> files) /\ blocks_content (GetFileIterator disk) (file_entry <$> files) = e_view <$> held files.
Proof.
  split.
  - split.
    + apply sorted_keys; apply level_new_ok.
    + intros x (f & -> & Hf)%list_elem_of_fmap. by apply file_content.
    + intros x e (f & -> & Hf)%list_elem_of_fmap He. rewrite (file_block f Hf) in He. apply list_elem_of_fmap in He as (y & -> & Hy).
      destruct (last_entry f Hf) as (z & Hz & El & Hzo & Hmax). destruct (Hfs f Hf) as [_ Ho]. simpl. rewrite El, InternalKey_ikey by (done || by apply (Forall_elem _ _ _ (fo_entries _ _ Ho))).
      destruct (Hmax y Hy) as [->|Hlt]; [by rewrite (proj2 (e_compare_eq z z))|]. unfold e_lt in Hlt. by rewrite Hlt.
    + intros x x' e (f & -> & Hf)%list_elem_of_fmap (g & -> & Hg)%list_elem_of_fmap Hlt He. rewrite (file_block g Hg) in He. apply list_elem_of_fmap in He as (y & -> & Hy).
      destruct (last_entry f Hf) as (z & Hz & El & Hzo & Hmax). destruct (Hfs g Hg) as [_ Ho]. unfold klt. simpl. rewrite El, InternalKey_ikey by (done || by apply (Forall_elem _ _ _ (fo_entries _ _ Ho))).
      pose proof Hf as [i Hi]%list_elem_of_lookup. pose proof Hg as [j Hj]%list_elem_of_lookup. apply (sorted_files es files i j f g); [done..| |done|done].
      apply (klt_index (file_entry <$> files) i j (file_entry f) (file_entry g)); [apply (lv_sorted _ level_new_ok)|apply (lv_dom _ level_new_ok)|by rewrite list_lookup_fmap, ?Hi, ?Hj..|done].
  - assert (Hsub : forall fs, fs ⊆ files -> blocks_content (GetFileIterator disk) (file_entry <$> fs) = e_view <$> held fs); [|by apply Hsub].
    unfold blocks_content. induction fs as [|f fs IH]; intros Hin; [done|]. cbn [fmap list_fmap mjoin list_join]. rewrite fmap_app. f_equal; [apply (file_content f), Hin; by left|]. apply IH. intros g Hg. apply Hin. by right.
Qed.

Lemma NewConcatenatingIterator_ok : iter_ok (NewConcatenatingIterator disk files 0) /\ content (NewConcatenatingIterator disk files 0) = e_view <$> held files.
Proof.
  destruct level_blocks_ok as [Hb Hc]. assert (Hn : iter_ok (NewLevelFileNumIterator files 0)) by exact level_new_ok.
  destruct (NewTwoLevelIterator_ok (GetFileIterator disk) (NewLevelFileNumIterator files 0) Hn Hb) as [H1 H2].
  split; [exact H1|]. etransitivity; [exact H2|exact Hc].
Qed.
End Concat.

(** The iterators of a version go through all its entries. *)
Lemma AddSomeIterators_ok v : version_ok (TB := tables disk) es v -> (forall k f, f ∈ files_ v k -> numbered f) ->
  Forall iter_ok (AddSomeIterators disk v 0) /\ all (AddSomeIterators disk v 0) = e_view <$> all_entries es v.
Proof.
  intros Hv Hn. assert (Hfile : forall f, f ∈ files_ v 0 -> let it := TableCache_NewIterator disk (fm_number f) (fm_file_size f) in iter_ok it /\ content it = e_view <$> es f).
  { intros f Hf. apply TableCache_NewIterator_ok. exact (fo_table _ _ (vo_files _ _ Hv 0%nat f Hf)). }
  assert (Hlevel : forall k, (0 < k)%nat -> iter_ok (NewConcatenatingIterator disk (files_ v k) 0) /\ content (NewConcatenatingIterator disk (files_ v k) 0) = e_view <$> held (files_ v k)).
  { intros k Hk. apply NewConcatenatingIterator_ok; [|by apply (vo_sorted _ _ Hv)|apply (vo_short _ _ Hv)]. intros f Hf. split; [by apply (Hn k)|by apply (vo_files _ _ Hv k)]. }
  unfold AddSomeIterators, all_entries, all. rewrite fmap_app, join_app. change (seq 0 kNumLevels) with (0%nat :: seq 1 (kNumLevels - 1)). cbn [fmap list_fmap mjoin list_join]. rewrite fmap_app.
  assert (Hseq : forall k, k ∈ seq 1 (kNumLevels - 1) -> (0 < k)%nat) by (intros k Hk%elem_of_seq; lia). split.
  - apply Forall_app. split.
    + apply Forall_fmap, List.Forall_forall. intros f Hf%list_elem_of_In. by apply Hfile.
    + apply List.Forall_forall. intros it (l & Hit & (k & -> & Hk)%list_elem_of_fmap)%list_elem_of_In%list_elem_of_join. specialize (Hlevel k (Hseq k Hk)).
      destruct (files_ v k) as [|f fs]; [by apply elem_of_nil in Hit|]. apply list_elem_of_singleton in Hit as ->. apply Hlevel.
  - f_equal.
    + clear -Hfile. induction (files_ v 0) as [|f fs IH]; [done|]. cbn [fmap list_fmap mjoin list_join]. rewrite fmap_app. f_equal; [apply (Hfile f); by left|]. apply IH. intros g Hg. apply Hfile. by right.
    + clear -Hlevel Hseq. induction (seq 1 (kNumLevels - 1)) as [|k ks IH]; [done|]. cbn [fmap list_fmap mjoin list_join]. rewrite !fmap_app, join_app. f_equal; [|apply IH; intros j Hj; apply Hseq; by right].
      specialize (Hlevel k (Hseq k ltac:(by left))). destruct (files_ v k) as [|f fs]; [done|]. cbn [fmap list_fmap mjoin list_join]. rewrite app_nil_r. apply Hlevel.
Qed.
End Held.

(** ** No entry is there twice *)

Lemma above_NoDup a b : NoDup a -> NoDup b -> above a b -> NoDup (a ++ b).
Proof.
  intros Ha Hb Hab. apply NoDup_app. split_and!; [done| |done]. intros x Hx Hx'. specialize (Hab x x Hx Hx' eq_refl). lia.
Qed.

Lemma e_sorted_NoDup l : StronglySorted e_lt l -> NoDup l.
Proof.
  induction 1 as [|e l Hs IH He]; [constructor|]. constructor; [|done]. intros Hin. by apply (e_lt_irrefl e), (Forall_elem _ _ _ He).
Qed.

Lemma seq_sorted n k : StronglySorted lt (seq n k).
Proof.
  revert n. induction k as [|k IH]; intros n; [constructor|]. simpl. constructor; [apply IH|]. apply List.Forall_forall. intros j Hj%list_elem_of_In%elem_of_seq. lia.
Qed.

Lemma all_entries_NoDup disk es v : version_ok (TB := tables disk) es v -> NoDup (all_entries es v).
Proof.
  intros Hv. assert (Hz : NoDup (mjoin (es <$> files_ v 0))).
  { pose proof (vo_numbers _ _ Hv) as Hn. assert (Hin : files_ v 0 ⊆ files_ v 0) by done. revert Hin Hn. generalize (files_ v 0) at 1 3 4. intros fs. induction fs as [|f fs IH]; intros Hin Hn; [constructor|].
    cbn [fmap list_fmap mjoin list_join] in *. apply NoDup_cons in Hn as [Hnf Hn]. assert (Hf : f ∈ files_ v 0) by (apply Hin; by left). apply NoDup_app. split_and!.
    - apply e_sorted_NoDup, (vo_files _ _ Hv 0%nat f Hf).
    - intros x Hx (g & Hg & Hx')%elem_of_held. assert (Hg' : g ∈ files_ v 0) by (apply Hin; by right). assert (Hne : fm_number f <> fm_number g) by (intros E; apply Hnf; rewrite E; by apply list_elem_of_fmap_2).
      destruct (Z.lt_total (fm_number f) (fm_number g)) as [Hlt|[?|Hlt]]; [|done|].
      + pose proof (vo_zero _ _ Hv g f Hg' Hf Hlt x x Hx' Hx eq_refl). lia.
      + pose proof (vo_zero _ _ Hv f g Hf Hg' Hlt x x Hx Hx' eq_refl). lia.
    - apply IH; [|done]. intros g Hg. apply Hin. by right. }
  unfold all_entries. generalize (seq_sorted 0 kNumLevels). generalize (seq 0 kNumLevels). intros ks Hs. induction Hs as [|k ks Hs IH Hk]; [constructor|].
  cbn [fmap list_fmap mjoin list_join]. apply above_NoDup; [|done|].
  - destruct k as [|k]; [done|]. apply e_sorted_NoDup, (vo_sorted _ _ Hv). lia.
  - intros x y Hx (l & Hy & (j & -> & Hj)%list_elem_of_fmap)%list_elem_of_join. apply (vo_above _ _ Hv k j); [by apply (Forall_elem _ _ _ Hk)|done|done].
Qed.

(** ** The database *)

Section Db.
Context (db : DB) (es : FileMetaData -> list ientry) (m i : list ientry).
Context (Hdb : db_ok address opt verify Hint Hif db es m i) (Hnum : forall k f, f ∈ files_ (current_ (db_versions db)) k -> numbered f).
Abbreviation entries := (m ++ i ++ all_entries es (current_ (db_versions db))).

Lemma full_entries_ok : Forall entry_ok entries.
Proof.
  destruct (dk_entries _ _ _ _ _ _ _ _ _ Hdb) as [Hm Hi]. apply Forall_app. split; [done|]. apply Forall_app. split; [done|].
  apply List.Forall_forall. intros x Hx%list_elem_of_In. pose proof (io_ok _ _ (dk_version _ _ _ _ _ _ _ _ _ Hdb)) as Hv. apply elem_of_all_entries in Hx as (k & f & Hf & Hx); [|apply Hv].
  apply (Forall_elem _ _ _ (fo_entries _ _ (vo_files _ _ Hv k f Hf)) Hx).
Qed.

Lemma full_distinct : distinct entries.
Proof.
  destruct (dk_distinct _ _ _ _ _ _ _ _ _ Hdb) as [Hm Hi]. destruct (dk_above _ _ _ _ _ _ _ _ _ Hdb) as [Ha1 Ha2]. pose proof (io_ok _ _ (dk_version _ _ _ _ _ _ _ _ _ Hdb)) as Hv.
  assert (Hnd : NoDup entries).
  { apply above_NoDup; [by apply (NoDup_fmap_1 e_seq)| |done]. apply above_NoDup; [by apply (NoDup_fmap_1 e_seq)|by apply all_entries_NoDup in Hv|done]. }
  pose proof (dk_unique _ _ _ _ _ _ _ _ _ Hdb) as Hu. unfold distinct. generalize dependent entries. intros l Hnd Hu. induction Hnd as [|x l Hx Hnd IH]; [constructor|].
  cbn [fmap list_fmap]. constructor; [|apply IH; intros a b Ha Hb; apply Hu; by right]. intros (y & E & Hy)%list_elem_of_fmap. apply Hx. rewrite (Hu x y); [done|by left|by right|done].
Qed.

Lemma Full_NewInternalIterator_ok : iter_ok (Full_NewInternalIterator db 0) /\ content (Full_NewInternalIterator db 0) ≡ₚ e_view <$> entries.
Proof.
  destruct (dk_entries _ _ _ _ _ _ _ _ _ Hdb) as [Hm Hi]. destruct (dk_distinct _ _ _ _ _ _ _ _ _ Hdb) as [Hdm Hdi]. pose proof (io_ok _ _ (dk_version _ _ _ _ _ _ _ _ _ Hdb)) as Hv.
  destruct (NewIterator_ok m Hm Hdm) as [Hm1 Hm2]. destruct (AddSomeIterators_ok _ _ _ Hv Hnum) as [Hv1 Hv2]. 
  assert (Himm : Forall iter_ok (imm_iterators (db_imm db)) /\ all (imm_iterators (db_imm db)) ≡ₚ e_view <$> i).
  { pose proof (dk_imm _ _ _ _ _ _ _ _ _ Hdb) as E. destruct (db_imm db) as [imm|]; [|by rewrite E]. rewrite E. destruct (NewIterator_ok i Hi Hdi) as [H1 H2].
    split; [by constructor|]. unfold all. simpl. by rewrite app_nil_r. }
  destruct Himm as [Hi1 Hi2]. unfold Full_NewInternalIterator. set (cs := child_iterators db 0). assert (Hall : all cs ≡ₚ e_view <$> entries).
  { unfold cs, child_iterators. rewrite (dk_mem _ _ _ _ _ _ _ _ _ Hdb). unfold all. rewrite !fmap_app, !join_app. apply Permutation_app; [simpl; by rewrite app_nil_r|].
    apply Permutation_app; [exact Hi2|]. rewrite <- list_fmap_compose. unfold all in Hv2. rewrite <- Hv2. done. }
  destruct (NewMergingIterator_ok cs) as [H1 H2]; [| |split; [exact H1|by rewrite H2]].
  - unfold cs, child_iterators. rewrite (dk_mem _ _ _ _ _ _ _ _ _ Hdb). apply Forall_app. split; [by constructor|]. apply Forall_app. split; [done|]. by apply Forall_fmap.
  - rewrite Hall. split.
    + rewrite <- list_fmap_compose. apply NoDup_fmap_2_strong; [|apply (NoDup_fmap_1 e_seq), full_distinct]. intros x y Hx Hy E.
      apply ikey_inj in E; [|by apply (Forall_elem _ _ _ full_entries_ok)..]. apply e_compare_eq in E as [_ Et]. apply (distinct_eq entries); [apply full_distinct|done..|].
      pose proof (ok_type _ (Forall_elem _ _ _ full_entries_ok Hx)). pose proof (ok_type _ (Forall_elem _ _ _ full_entries_ok Hy)). unfold e_tag, kTypeDeletion, kTypeValue in *. lia.
    + rewrite <- list_fmap_compose. apply Forall_fmap, List.Forall_forall. intros x Hx%list_elem_of_In. exists x. split; [|done]. by apply (Forall_elem _ _ _ full_entries_ok).
Qed.

(** The iterator ranges over the keys that have a value. *)
Lemma Full_NewIterator_ok s : 0 <= s < 2 ^ 56 ->
  let it := Full_NewIterator db (Some s) in
  @iter_ok user_order _ db_iterator it
  /\ forall k v, user_dom k -> (k, v) ∈ @content user_order _ db_iterator it <-> Full_Get address opt verify db s k = GetOK v.
Proof.
  intros Hs it. destruct Full_NewInternalIterator_ok as [Hok Hc]. split; [by split|]. intros k v Hk.
  change (content it) with (view s (content (Full_NewInternalIterator db 0))). rewrite (view_newest _ entries); [|apply full_entries_ok|apply full_distinct|intros e; by rewrite Hc].
  destruct (Full_Get_ok _ _ _ _ _ db es m i k s Hdb Hk Hs) as (r & Hr & ->). split.
  - intros (x & Hx & Ht & Hv). destruct r as [e|].
    + rewrite (newest_unique entries k s e x full_distinct Hr Hx). unfold status_of, outcome. simpl in Hv. by rewrite Ht, Hv.
    + destruct Hx as (Hx & Hkx & Hsx & _). specialize (Hr x Hx Hkx). lia.
  - destruct r as [e|]; [|done]. unfold status_of, outcome. destruct (Z.eqb_spec (e_type e) kTypeValue) as [Ht|]; [|done]. intros [= Hv]. by exists e.
Qed.
End Db.

Lemma best_same {E} (lt : E -> E -> Prop) P l l' o : (forall e, e ∈ l <-> e ∈ l') -> best lt P l o -> best lt P l' o.
Proof.
  intros Hl. destruct o as [e|]; simpl.
  - intros (H1 & H2 & H3). split_and!; [by apply Hl|done|]. intros e' He'. by apply H3, Hl.
  - intros H e He. by apply H, Hl.
Qed.

(** C10: iterators and lookups agree.  For a database with memtables and with tables in
    every level, an iterator at a sequence number goes through the keys in order, and
    shows a key with a value just when [Get] at that sequence number finds this value;
    and after any sequence of calls [Seek], [Next] and [Prev] go to the right neighbours
    among them. *)
Theorem scan_matches_get db es m i s calls : db_ok address opt verify Hint Hif db es m i ->
  (forall k f, f ∈ files_ (current_ (db_versions db)) k -> numbered f) -> 0 <= s < 2 ^ 56 -> Forall (@call_ok user_order) calls ->
  let it := Full_NewIterator db (Some s) in
  let L := Scan db s in
  let it' := foldl (@call user_order _ db_iterator) it calls in
  StronglySorted (@klt user_order) L
  /\ (forall k v, user_dom k -> (k, v) ∈ L <-> Full_Get address opt verify db s k = GetOK v)
  /\ (forall k, user_dom k -> best (@klt user_order) (fun u => Slice_compare u.1 k <> Lt) L (db_cur (db_Seek it' k)))
  /\ (forall u, db_cur it' = Some u -> u ∈ L /\ best (@klt user_order) (@klt user_order u) L (db_cur (db_Next it')) /\ best (@kgt user_order) (@kgt user_order u) L (db_cur (db_Prev it'))).
Proof.
  intros Hdb Hnum Hs Hcs it L it'. destruct (Full_NewIterator_ok db es m i Hdb Hnum s Hs) as [Hok Hc]. destruct (@listing_spec user_order _ db_iterator it Hok) as [Hso Hin].
  destruct (@calls_keep user_order _ db_iterator it calls Hok Hcs) as [Hok' Hco]. assert (Hel : forall e, e ∈ @content user_order _ db_iterator it' <-> e ∈ L) by (intros e; unfold it'; rewrite Hco; symmetry; apply Hin).
  split_and!; [exact Hso| | |].
  - intros k v Hk. rewrite <- (Hc k v Hk). apply Hin.
  - intros k Hk. apply (best_same _ _ _ _ _ Hel). by apply (@Seek_best user_order _ db_iterator).
  - intros u Hu. split_and!; [by apply Hel, (@cur_content user_order _ db_iterator)|apply (best_same _ _ _ _ _ Hel); by apply (@Next_best user_order _ db_iterator)|apply (best_same _ _ _ _ _ Hel); by apply (@Prev_best user_order _ db_iterator)].
Qed.
End Scan.

(** A database whose older entries are in a table of a level. *)
Abbreviation sample_scan := (sample_flush.2).

Lemma sample_nothing : all_entries (fun _ => []) (current_ (db_versions sample_full)) = [].
Proof. by vm_compute. Qed.

Lemma sample_scan_ok : exists es i, db_ok id sample_options true sample_restarts sample_filters sample_scan es [mkEntry [97] 5 kTypeValue [53]] i
  /\ forall x, x ∈ all_entries es (current_ (db_versions sample_scan)) -> x ∈ sample_entries.
Proof.
  assert (Hread : forall f : list Z, lenZ f < 2 ^ 32 -> holds (Mmap_Read f) f) by (intros f Hl; apply Mmap_holds; lia).
  destruct (flush_ok (WF := memory_file) id sample_options true [] Mmap_Read sample_restarts sample_filters eq_refl Hread sample_full (fun _ => []) _ _ sample_fenv (fun _ => false) sample_full_ok) as (es & i & H & _ & Hx).
  - split; [repeat constructor; vm_compute; congruence|]. split; by vm_compute.
  - split; by vm_compute.
  - intros k. simpl. rewrite files_empty_version. by vm_compute.
  - exists es, i. split; [exact H|]. intros x Hin. assert (Hin' : x ∈ i ++ all_entries es (current_ (db_versions sample_flush.2))) by (apply elem_of_app; right; exact Hin).
    apply (proj2 (Hx x)) in Hin'. rewrite sample_nothing, app_nil_r in Hin'. exact Hin'.
Qed.

Definition sample_file : FileMetaData := match files_ (current_ (db_versions sample_scan)) 2 with [f] => f | _ => mkFileMeta 0 0 [] [] end.

Lemma sample_scan_files : current_ (db_versions sample_scan) = [[]; []; [sample_file]; []; []; []; []].
Proof. vm_compute. reflexivity. Qed.

Lemma sample_scan_version k f : f ∈ files_ (current_ (db_versions sample_scan)) k -> k = 2%nat /\ f = sample_file /\ numbered f.
Proof.
  rewrite sample_scan_files. intros Hf. assert (Hn : numbered sample_file) by (split; by vm_compute).
  do 7 (destruct k as [|k]; [unfold files_ in Hf; cbn [lookup list_lookup default from_option id] in Hf; first [by apply elem_of_nil in Hf|by apply list_elem_of_singleton in Hf as ->]|]). by apply elem_of_nil in Hf.
Qed.

Lemma scan_matches_get_witness :
  let L := Scan id sample_options true sample_scan 2 in
  StronglySorted (@klt user_order) L /\ ([97], [49]) ∈ L /\ ([97; 98], [50]) ∈ L /\ ~ ([99], [52; 53]) ∈ L.
Proof.
  destruct sample_scan_ok as (es & i & Hok & _). assert (Hn : forall k f, f ∈ files_ (current_ (db_versions sample_scan)) k -> numbered f).
  { intros k f Hf. by apply (sample_scan_version k). }
  destruct (scan_matches_get id sample_options true sample_restarts sample_filters sample_scan es _ i 2 [CallLast; CallPrev] Hok Hn ltac:(lia) ltac:(by repeat constructor)) as (H1 & H2 & _).
  split; [exact H1|].
  assert (Hd : forall k, forallb (fun x => (0 <=? x) && (x <? 256)) k = true -> lenZ k < 100 -> user_dom k).
  { intros k Hk Hl. split; [|lia]. apply List.Forall_forall. rewrite forallb_forall in Hk. intros x Hx%Hk. unfold is_byte. lia. }
  split; [|split].
  - apply H2; [apply Hd; by vm_compute|]. vm_compute. reflexivity.
  - apply H2; [apply Hd; by vm_compute|]. vm_compute. reflexivity.
  - intros Hin%H2; [|apply Hd; by vm_compute]. vm_compute in Hin. discriminate.
Defined.
