(* ===== verification/LdbFile.v ===== *)
(** * leveldb: the files of a database

    The names of the files (src/ext/leveldb/db/filename.cc, with the numbers of
    util/logging.cc), the file CURRENT that says which manifest is in force, and
    [NewDB] and [DeleteObsoleteFiles] of db/db_impl.cc.  A directory maps names to
    contents; an operation that changes several files returns all the directories it goes
    through, so that the theorems speak of a crash at any point.  A new database is made at
    once or not at all, and no file that is still needed is deleted. *)

From Stdlib Require Import ZArith Lia Ascii String.
From stdpp Require Import base list numbers option gmap sorting.
From S2P Require Import Prelude ByteOrder WebappStr Session LdbCoding LdbLog LdbMem LdbIter LdbMerge LdbSep LdbFormat LdbTable LdbBuild LdbVersion LdbEdit LdbManifest LdbFlush LdbScan.
Open Scope Z_scope.
Open Scope webapp_scope.

(** ** Names *)

Definition bytes_of (s : string) : list Z := (fun c => Z.of_nat (nat_of_ascii c)) <$> list_ascii_of_string s.

(** The digits of a number of 64 bits, which has twenty at most. *)
Fixpoint decimal_digits (fuel : nat) (n : Z) (ds : list Z) : list Z :=
  match fuel with
  | O => ds
  | S fuel => let ds := 48 + n mod 10 :: ds in if n / 10 =? 0 then ds else decimal_digits fuel (n / 10) ds
  end.
(** "%llu" and "%06llu". *)
Definition NumberToString (n : Z) : list Z := decimal_digits 20 n [].
Definition padded (n : Z) : list Z := let ds := NumberToString n in replicate (6 - length ds) 48 ++ ds.

(** The names inside of the directory of the database. *)
Definition MakeFileName (number : Z) (suffix : string) : list Z := padded number ++ bytes_of "." ++ bytes_of suffix.
Definition LogFileName (number : Z) : list Z := MakeFileName number "log".
Definition TableFileName (number : Z) : list Z := MakeFileName number "ldb".
Definition SSTTableFileName (number : Z) : list Z := MakeFileName number "sst".
Definition TempFileName (number : Z) : list Z := MakeFileName number "dbtmp".
Definition DescriptorFileName (number : Z) : list Z := bytes_of "MANIFEST-" ++ padded number.
Definition CurrentFileName : list Z := bytes_of "CURRENT".
Definition LockFileName : list Z := bytes_of "LOCK".
Definition InfoLogFileName : list Z := bytes_of "LOG".
Definition OldInfoLogFileName : list Z := bytes_of "LOG.old".

Inductive FileType := kLogFile | kDBLockFile | kTableFile | kDescriptorFile | kCurrentFile | kTempFile | kInfoLogFile.

Definition kMaxUint64 : Z := 2 ^ 64 - 1.
(** The loop: the value, whether there was a digit, and what follows; [None] is an overflow. *)
Fixpoint consume_digits (input : list Z) (v : Z) (digits : nat) : option (Z * nat * list Z) :=
  match input with
  | c :: rest =>
      if (48 <=? c) && (c <=? 57) then
        let delta := c - 48 in
        if (kMaxUint64 / 10 <? v) || ((v =? kMaxUint64 / 10) && (kMaxUint64 mod 10 <? delta)) then None
        else consume_digits rest (u64 (u64 (v * 10) + delta)) (S digits)
      else Some (v, digits, input)
  | [] => Some (v, digits, input)
  end.
Definition ConsumeDecimalNumber (input : list Z) : option (Z * list Z) :=
  match consume_digits input 0 0 with
  | Some (v, S _, rest) => Some (v, rest)
  | _ => None
  end.

Definition starts_with (x prefix : list Z) : bool := bool_decide (take (length prefix) x = prefix).
Definition ParseFileName (fname : list Z) : option (Z * FileType) :=
  if bool_decide (fname = CurrentFileName) then Some (0, kCurrentFile)
  else if bool_decide (fname = LockFileName) then Some (0, kDBLockFile)
  else if bool_decide (fname = InfoLogFileName) || bool_decide (fname = OldInfoLogFileName) then Some (0, kInfoLogFile)
  else if starts_with fname (bytes_of "MANIFEST-") then
    let* r := ConsumeDecimalNumber (drop (length (bytes_of "MANIFEST-")) fname) in
    if bool_decide (r.2 = []) then Some (r.1, kDescriptorFile) else None
  else
    let* r := ConsumeDecimalNumber fname in
    if bool_decide (r.2 = bytes_of ".log") then Some (r.1, kLogFile)
    else if bool_decide (r.2 = bytes_of ".sst") || bool_decide (r.2 = bytes_of ".ldb") then Some (r.1, kTableFile)
    else if bool_decide (r.2 = bytes_of ".dbtmp") then Some (r.1, kTempFile)
    else None.

(** *** Numbers are read back *)

(** The number that digits stand for, behind others. *)
Definition digits_value (v : Z) (ds : list Z) : Z := foldl (fun v d => v * 10 + (d - 48)) v ds.
Abbreviation is_digit := (fun d => 48 <= d <= 57).

Lemma digits_value_app v a b : digits_value v (a ++ b) = digits_value (digits_value v a) b.
Proof. apply foldl_app. Qed.

Lemma digits_value_le v ds : 0 <= v -> Forall is_digit ds -> v <= digits_value v ds.
Proof. intros Hv Hd. revert v Hv. induction Hd as [|d ds Hd _ IH]; intros v Hv; simpl; [lia|]. etransitivity; [|apply IH]; lia. Qed.

Lemma decimal_digits_ok fuel n ds : 0 <= n < 10 ^ Z.of_nat fuel -> (0 < fuel)%nat ->
  exists ns, decimal_digits fuel n ds = ns ++ ds /\ Forall is_digit ns /\ ns <> [] /\ digits_value 0 ns = n.
Proof.
  revert n ds. induction fuel as [|fuel IH]; intros n ds Hn Hf; [lia|]. cbn [decimal_digits]. pose proof (Z.mod_pos_bound n 10 ltac:(lia)) as Hm. pose proof (Z.div_mod n 10 ltac:(lia)) as Hdm.
  destruct (Z.eqb_spec (n / 10) 0) as [E|E].
  - exists [48 + n mod 10]. split_and!; [done|constructor; [lia|constructor]|done|]. unfold digits_value. simpl. lia.
  - rewrite Nat2Z.inj_succ, Z.pow_succ_r in Hn by lia. assert (Hd : 0 <= n / 10) by (apply Z.div_pos; lia). destruct fuel as [|fuel]; [change (10 ^ Z.of_nat 0) with 1 in Hn; exfalso; apply E; apply Z.div_small; lia|].
    destruct (IH (n / 10) (48 + n mod 10 :: ds)) as (ns & E1 & E2 & E3 & E4); [split; [lia|apply Z.div_lt_upper_bound; lia]|lia|]. exists (ns ++ [48 + n mod 10]). rewrite <- app_assoc. split_and!; [done|apply Forall_app; split; [done|constructor; [lia|constructor]]|by destruct ns|].
    rewrite digits_value_app, E4. unfold digits_value. simpl. lia.
Qed.

Lemma padded_ok n : 0 <= n < 2 ^ 64 -> Forall is_digit (padded n) /\ padded n <> [] /\ digits_value 0 (padded n) = n.
Proof.
  intros Hn. destruct (decimal_digits_ok 20 n []) as (ns & E1 & E2 & E3 & E4); [change (10 ^ Z.of_nat 20) with 100000000000000000000; lia|lia|]. unfold padded, NumberToString. rewrite E1, app_nil_r.
  assert (Hz : forall k, digits_value 0 (replicate k 48) = 0) by (induction k as [|k IH]; [done|]; cbn [replicate]; unfold digits_value in *; simpl; done).
  split_and!; [apply Forall_app; split; [by apply Forall_replicate|done]|by destruct (replicate _ _)|by rewrite digits_value_app, Hz].
Qed.

Lemma consume_digits_ok ds v k rest : Forall is_digit ds -> 0 <= v -> digits_value v ds < 2 ^ 64 -> (forall c r, rest = c :: r -> ~ is_digit c) ->
  consume_digits (ds ++ rest) v k = Some (digits_value v ds, (k + length ds)%nat, rest).
Proof.
  intros Hd. revert v k. induction Hd as [|d ds Hd Hds IH]; intros v k Hv Hlt Hr.
  - simpl. rewrite Nat.add_0_r. destruct rest as [|c rest]; [done|]. cbn [consume_digits]. destruct (Z.leb_spec 48 c), (Z.leb_spec c 57); simpl; try done. by destruct (Hr c rest eq_refl).
  - cbn [app consume_digits]. rewrite (proj2 (Z.leb_le 48 d)), (proj2 (Z.leb_le d 57)) by lia. cbn [andb]. simpl in Hlt. pose proof (digits_value_le (v * 10 + (d - 48)) ds ltac:(lia) Hds) as Hle.
    change (digits_value v (d :: ds)) with (digits_value (v * 10 + (d - 48)) ds) in *. assert (Hsm : v * 10 + (d - 48) < 2 ^ 64) by lia.
    destruct (Z.ltb_spec (kMaxUint64 / 10) v) as [H|H]; [change (kMaxUint64 / 10) with 1844674407370955161 in H; lia|]. cbn [orb].
    destruct (Z.eqb_spec v (kMaxUint64 / 10)) as [E|E]; cbn [andb]; [destruct (Z.ltb_spec (kMaxUint64 mod 10) (d - 48)) as [H'|_]; [change (kMaxUint64 mod 10) with 5 in H'; change (kMaxUint64 / 10) with 1844674407370955161 in E; lia|]|];
      (rewrite (uwrap_small 64 (v * 10)), uwrap_small by lia; rewrite IH by (done || lia); cbn [length]; do 2 f_equal; f_equal; lia).
Qed.

(** A number is read back, whatever is not a digit follows. *)
Lemma Consume_padded n rest : 0 <= n < 2 ^ 64 -> (forall c r, rest = c :: r -> ~ is_digit c) -> ConsumeDecimalNumber (padded n ++ rest) = Some (n, rest).
Proof.
  intros Hn Hr. destruct (padded_ok n Hn) as (Hd & Hne & Hv). unfold ConsumeDecimalNumber. rewrite consume_digits_ok; [|done|lia|lia|done]. rewrite Hv. by destruct (padded n).
Qed.

(** A name that begins with a digit is read as a number and a suffix. *)
Lemma Parse_numbered n rest : 0 <= n < 2 ^ 64 -> (forall c r, rest = c :: r -> ~ is_digit c) ->
  ParseFileName (padded n ++ rest) =
    if bool_decide (rest = bytes_of ".log") then Some (n, kLogFile)
    else if bool_decide (rest = bytes_of ".sst") || bool_decide (rest = bytes_of ".ldb") then Some (n, kTableFile)
    else if bool_decide (rest = bytes_of ".dbtmp") then Some (n, kTempFile) else None.
Proof.
  intros Hn Hr. pose proof (Consume_padded n rest Hn Hr) as Hc. destruct (padded_ok n Hn) as (Hd & Hne & _). unfold ParseFileName. rewrite Hc. destruct (padded n) as [|d ds]; [done|]. apply Forall_cons_1 in Hd as [Hd _].
  assert (Hnot : forall c r, ~ is_digit c -> (d :: ds) ++ rest <> c :: r) by (intros c r Hc' [= -> _]; done).
  rewrite !bool_decide_false by (apply Hnot; cbv; intros [? ?]; done). cbn [orb].
  assert (Hm : starts_with ((d :: ds) ++ rest) (bytes_of "MANIFEST-") = false). { unfold starts_with. apply bool_decide_false. change (length (bytes_of "MANIFEST-")) with 9%nat. cbn [app take]. intros [= E _]. change (Z.of_nat (nat_of_ascii "M")) with 77 in E. lia. }
  by rewrite Hm.
Qed.

Ltac parse_suffix := rewrite Parse_numbered; [done|done|intros ? ? [= <- _]; cbv; intros [? ?]; done].

Lemma Parse_SST n : 0 <= n < 2 ^ 64 -> ParseFileName (SSTTableFileName n) = Some (n, kTableFile).
Proof. intros Hn. unfold SSTTableFileName, MakeFileName. parse_suffix. Qed.

Lemma Parse_Table n : 0 <= n < 2 ^ 64 -> ParseFileName (TableFileName n) = Some (n, kTableFile).
Proof. intros Hn. unfold TableFileName, MakeFileName. parse_suffix. Qed.

Lemma Parse_Log n : 0 <= n < 2 ^ 64 -> ParseFileName (LogFileName n) = Some (n, kLogFile).
Proof. intros Hn. unfold LogFileName, MakeFileName. parse_suffix. Qed.

Lemma Parse_Temp n : 0 <= n < 2 ^ 64 -> ParseFileName (TempFileName n) = Some (n, kTempFile).
Proof. intros Hn. unfold TempFileName, MakeFileName. parse_suffix. Qed.

Lemma Parse_Descriptor n : 0 <= n < 2 ^ 64 -> ParseFileName (DescriptorFileName n) = Some (n, kDescriptorFile).
Proof.
  intros Hn. unfold ParseFileName, DescriptorFileName. pose proof (Consume_padded n [] Hn ltac:(done)) as Hc. rewrite app_nil_r in Hc.
  assert (Hs : starts_with (bytes_of "MANIFEST-" ++ padded n) (bytes_of "MANIFEST-") = true) by (unfold starts_with; by rewrite take_app_length, bool_decide_true).
  rewrite Hs, drop_app_length, Hc, !bool_decide_false by (intros E; apply (f_equal (take 2)) in E; by vm_compute in E). done.
Qed.

(** ** The file CURRENT *)

Abbreviation dir := (gmap (list Z) (list Z)).

(** What the environment answers: new files, how many bytes are written before an append
    fails, if it fails, syncing and closing, renaming and deleting. *)
Record direnv := mkDirEnv { d_new : bool; d_append : option nat; d_sync : bool; d_close : bool; d_rename : bool; d_delete : bool }.

Definition file_delete (en : direnv) (fname : list Z) (d : dir) : dir := if d_delete en then delete fname d else d.
(** The directories while bytes are written to a new file. *)
Definition while_written (fname data : list Z) (d : dir) : list dir := (fun k => <[fname := take k data]> d) <$> seq 0 (S (length data)).
(** [DoWriteStringToFile]: the status, and the directories it goes through. *)
Definition WriteStringToFileSync (en : direnv) (data fname : list Z) (d : dir) : bool * list dir :=
  if d_new en then
    let written := match d_append en with None => data | Some k => take k data end in
    let d' := <[fname := written]> d in
    let states := while_written fname written d in
    if bool_decide (d_append en = None) && d_sync en && d_close en then (true, states) else (false, states ++ [file_delete en fname d'])
  else (false, [d]).

Definition SetCurrentFile (en : direnv) (descriptor_number : Z) (d : dir) : bool * list dir :=
  let contents := DescriptorFileName descriptor_number ++ [10] in
  let tmp := TempFileName descriptor_number in
  let '(s, states) := WriteStringToFileSync en contents tmp d in
  let d1 := default d (list.last states) in
  if s then
    if d_rename en then (true, states ++ [<[CurrentFileName := default [] (d1 !! tmp)]> (delete tmp d1)])
    else (false, states ++ [file_delete en tmp d1])
  else (false, states ++ [file_delete en tmp d1]).

(** [VersionSet::Recover]: the manifest that CURRENT names. *)
Definition Recover_current (vs : VersionSet) (d : dir) : option VersionSet :=
  let* current := d !! CurrentFileName in
  match list.last current with
  | Some 10 => let* manifest := d !! removelast current in VersionSet_Recover vs manifest
  | _ => None
  end.

(** The record of a new database, and its manifest. *)
Definition new_db_edit : VersionEdit := SetLastSequence (SetNextFile (SetLogNumber (SetComparatorName Edit_new comparator_name) 0) 2) 0.
(** [DBImpl::NewDB]; [m_new], [m_write] and [m_close] are the answers for the manifest. *)
Definition NewDB (en : direnv) (m_new : bool) (m_write : Z -> bool) (m_close : bool) (ptr : Z) (d : dir) : bool * list dir :=
  let manifest := DescriptorFileName 1 in
  if m_new then
    let '(offset, (ws, s)) := AddRecord m_write 0 ptr (Edit_EncodeTo new_db_edit) in
    let contents := apply_writes [] ws in
    let d1 := <[manifest := contents]> d in
    let states := while_written manifest contents d in
    if s && m_close then let '(s, states') := SetCurrentFile en 1 d1 in (s, states ++ states')
    else (false, states ++ [file_delete en manifest d1])
  else (false, [d]).

(** *** A crash at any point *)

(** Names of different kinds, or with different numbers, are different. *)
Lemma names_differ a b : ParseFileName a <> ParseFileName b -> a <> b.
Proof. by intros H ->. Qed.

Lemma Parse_Current : ParseFileName CurrentFileName = Some (0, kCurrentFile).
Proof. done. Qed.

Lemma elem_of_while_written fname data d d' : d' ∈ while_written fname data d -> forall name, name <> fname -> d' !! name = d !! name.
Proof. intros (k & -> & _)%list_elem_of_fmap name Hne. by rewrite lookup_insert_ne. Qed.

Lemma last_while_written fname data d : list.last (while_written fname data d) = Some (<[fname := data]> d).
Proof.
  unfold while_written. rewrite seq_S, fmap_app, last_app. cbn [fmap list_fmap list.last]. by rewrite take_ge by lia.
Qed.

Lemma file_delete_other en fname d name : name <> fname -> file_delete en fname d !! name = d !! name.
Proof. intros Hne. unfold file_delete. destruct (d_delete en); [by rewrite lookup_delete_ne|done]. Qed.

Lemma WriteString_states en data fname d : let r := WriteStringToFileSync en data fname d in
  (forall d' name, d' ∈ r.2 -> name <> fname -> d' !! name = d !! name) /\ (exists d', list.last r.2 = Some d' /\ (forall name, name <> fname -> d' !! name = d !! name) /\ (r.1 = true -> d' = <[fname := data]> d)).
Proof.
  unfold WriteStringToFileSync. destruct (d_new en); [|split; [by intros d' name ->%list_elem_of_singleton|by exists d]]. set (written := match d_append en with None => data | Some k => take k data end).
  destruct (bool_decide _ && _ && _) eqn:E; cbn [fst snd].
  - apply andb_true_iff in E as [[E%bool_decide_eq_true _]%andb_true_iff _]. assert (Hw : written = data) by (unfold written; by rewrite E). rewrite Hw. split; [by intros d' name Hd'; apply (elem_of_while_written fname data)|].
    exists (<[fname := data]> d). rewrite last_while_written. split; [done|]. split; [|done]. intros name Hne. by rewrite lookup_insert_ne.
  - split.
    + intros d' name [Hd'|Hd']%elem_of_app Hne; [by apply (elem_of_while_written fname written)|]. apply list_elem_of_singleton in Hd' as ->. by rewrite file_delete_other, lookup_insert_ne.
    + eexists. rewrite last_snoc. split; [done|]. split; [|done]. intros name Hne. by rewrite file_delete_other, lookup_insert_ne.
Qed.

(** CURRENT changes at once; nothing else changes but the temporary file. *)
Lemma SetCurrent_states en n d : 0 <= n < 2 ^ 64 -> let r := SetCurrentFile en n d in let contents := DescriptorFileName n ++ [10] in
  (forall d', d' ∈ r.2 -> (d' !! CurrentFileName = d !! CurrentFileName \/ d' !! CurrentFileName = Some contents) /\ forall name, name <> TempFileName n -> name <> CurrentFileName -> d' !! name = d !! name)
  /\ exists d', list.last r.2 = Some d' /\ d' !! CurrentFileName = (if r.1 then Some contents else d !! CurrentFileName).
Proof.
  intros Hn r contents. assert (Hne : CurrentFileName <> TempFileName n) by (apply names_differ; rewrite Parse_Current, Parse_Temp by done; done). unfold r, SetCurrentFile. fold contents.
  destruct (WriteString_states en contents (TempFileName n) d) as [Hall (d1 & Hlast & Hd1 & Hok)]. destruct (WriteStringToFileSync _ _ _ _) as [s states]. cbn [fst snd] in *. rewrite Hlast. cbn [default from_option id].
  assert (Hdel : let x := file_delete en (TempFileName n) d1 in x !! CurrentFileName = d !! CurrentFileName /\ forall name, name <> TempFileName n -> name <> CurrentFileName -> x !! name = d !! name).
  { split; [by rewrite file_delete_other, Hd1|]. intros name H1 H2. by rewrite file_delete_other, Hd1. }
  assert (Hpass : forall d', d' ∈ states -> (d' !! CurrentFileName = d !! CurrentFileName \/ d' !! CurrentFileName = Some contents) /\ forall name, name <> TempFileName n -> name <> CurrentFileName -> d' !! name = d !! name).
  { intros d' Hd'. split; [left; by apply Hall|]. intros name H1 _. by apply Hall. }
  destruct Hdel as [Hdc Hdo]. destruct s; [|split; [intros d' [Hd'| ->%list_elem_of_singleton]%elem_of_app; [by apply Hpass|split; [by left|done]]|cbn [fst snd]; rewrite last_snoc; by eexists]].
  destruct (d_rename en); [|split; [intros d' [Hd'| ->%list_elem_of_singleton]%elem_of_app; [by apply Hpass|split; [by left|done]]|cbn [fst snd]; rewrite last_snoc; by eexists]].
  rewrite (Hok eq_refl), lookup_insert_eq. cbn [default from_option id fst snd]. split.
  - intros d' [Hd'| ->%list_elem_of_singleton]%elem_of_app; [by apply Hpass|]. split; [right; by rewrite lookup_insert_eq|]. intros name H1 H2. by rewrite lookup_insert_ne, lookup_delete_ne, lookup_insert_ne.
  - rewrite last_snoc. eexists. split; [done|]. by rewrite lookup_insert_eq.
Qed.

(** *** A new database *)

Abbreviation new_db_record := (Edit_EncodeTo new_db_edit).
(** What it is opened as. *)
Definition new_versions : VersionSet := mkVersions empty_version 3 2 0 0 0 (replicate kNumLevels []) None.

(** A short record at the start of a log is one fragment. *)
Lemma AddRecord_short w ptr slice : lenZ slice < 32761 -> (AddRecord w 0 ptr slice).2.2 = true -> AddRecord w 0 ptr slice = AddRecord (fun _ => true) 0 ptr slice.
Proof.
  intros Hl. unfold AddRecord. cbn [snd]. intros Hs. f_equal. revert Hs. unfold fuel_for. cbn [add_loop]. change (leftover 0 <? kHeaderSize) with false. cbn iota.
  assert (Hf : fragment_length 0 (lenZ slice) = lenZ slice). { unfold fragment_length. change (kBlockSize - Z.land 0 (kBlockSize - 1) - kHeaderSize) with 32761. by rewrite (proj2 (Z.ltb_lt _ _)). }
  rewrite Hf, Nat2Z.id, drop_all. change (0 <? lenZ []) with false. unfold EmitPhysicalRecordAt, WriteAt. destruct (w 0); [|by rewrite andb_false_r]. destruct (w (0 + kHeaderSize)); rewrite !andb_false_r; [done|]. done.
Qed.

Lemma add_loop_works w fuel offset ptr begin data : (forall o, w o = true) -> (add_loop w fuel offset ptr begin data).2 = true.
Proof.
  intros Hw. revert offset ptr begin data. induction fuel as [|fuel IH]; intros offset ptr begin data; [done|]. cbn [add_loop]. unfold EmitPhysicalRecordAt. rewrite !Hw. cbn [andb].
  destruct (0 <? _); [|done]. match goal with |- context [add_loop w fuel ?o ?p ?b ?x] => specialize (IH o p b x); by destruct (add_loop w fuel o p b x) end.
Qed.

Lemma bytes_ok_forallb l : forallb (fun x => (0 <=? x) && (x <? 256)) l = true -> bytes_ok l.
Proof. rewrite forallb_forall, List.Forall_forall. intros H x Hx%H. unfold is_byte. lia. Qed.

Lemma new_manifest_opens ptr offset ws m_write : AddRecord m_write 0 ptr new_db_record = (offset, (ws, true)) -> VersionSet_Recover VersionSet_new (apply_writes [] ws) = Some new_versions.
Proof.
  intros Ha. assert (Hw : AddRecord (fun _ => true) 0 ptr new_db_record = (offset, (ws, true))) by (rewrite <- (AddRecord_short m_write); [done|by vm_compute|by rewrite Ha]).
  unfold VersionSet_Recover. rewrite (manifest_read [(ptr, new_db_record)] offset (apply_writes [] ws)).
  - vm_compute. reflexivity.
  - apply Forall_singleton, bytes_ok_forallb. vm_compute. reflexivity.
  - cbn [write_log]. by rewrite Hw.
Qed.

(** A directory whose CURRENT names the new manifest opens as a new database. *)
Lemma current_opens d manifest vs : d !! CurrentFileName = Some (DescriptorFileName 1 ++ [10]) -> d !! DescriptorFileName 1 = Some manifest -> VersionSet_Recover VersionSet_new manifest = Some vs ->
  Recover_current VersionSet_new d = Some vs.
Proof. intros Hc Hm Hv. unfold Recover_current. rewrite Hc. cbn beta iota. rewrite last_snoc. cbn beta iota. by rewrite removelast_last, Hm. Qed.

Lemma NewDB_states en m_new m_write m_close ptr d : d !! CurrentFileName = None -> let r := NewDB en m_new m_write m_close ptr d in
  (forall d', d' ∈ r.2 -> (d' !! CurrentFileName = None \/ Recover_current VersionSet_new d' = Some new_versions)
    /\ forall name, name <> DescriptorFileName 1 -> name <> TempFileName 1 -> name <> CurrentFileName -> d' !! name = d !! name)
  /\ exists d', list.last r.2 = Some d' /\ (if r.1 then Recover_current VersionSet_new d' = Some new_versions else d' !! CurrentFileName = None).
Proof.
  intros Hd. unfold NewDB. assert (Hdc : CurrentFileName <> DescriptorFileName 1) by done. assert (Hdt : DescriptorFileName 1 <> TempFileName 1) by done.
  destruct m_new; [|split; [by intros d' ->%list_elem_of_singleton; split; [left|]|by exists d]]. destruct (AddRecord _ _ _ _) as [offset [ws s]] eqn:Ea. set (contents := apply_writes [] ws).
  assert (Hpass : forall d', d' ∈ while_written (DescriptorFileName 1) contents d -> d' !! CurrentFileName = None /\ forall name, name <> DescriptorFileName 1 -> d' !! name = d !! name).
  { intros d' Hd'. split; [by rewrite (elem_of_while_written _ _ _ _ Hd')|]. by apply (elem_of_while_written _ _ _ _ Hd'). }
  destruct (s && m_close) eqn:Es.
  - apply andb_true_iff in Es as [-> _]. pose proof (new_manifest_opens _ _ _ _ Ea) as Hopen. fold contents in Hopen. set (d1 := <[DescriptorFileName 1 := contents]> d). destruct (SetCurrent_states en 1 d1 ltac:(lia)) as [Hst (d2 & Hl & Hc2)].
    assert (Hin2 : d2 ∈ (SetCurrentFile en 1 d1).2) by (by apply last_elem). assert (Hcur : forall d', d' ∈ (SetCurrentFile en 1 d1).2 -> d' !! CurrentFileName = Some (DescriptorFileName 1 ++ [10]) -> Recover_current VersionSet_new d' = Some new_versions).
    { intros d' Hd' Hc. apply (current_opens d' contents); [done| |done]. destruct (Hst d' Hd') as [_ Ho]. rewrite Ho by done. unfold d1; by rewrite lookup_insert_eq. }
    assert (Hd1 : d1 !! CurrentFileName = None) by (unfold d1; by rewrite lookup_insert_ne). destruct (SetCurrentFile en 1 d1) as [s' states']. cbn [fst snd] in *. split.
    + intros d' [Hd'|Hd']%elem_of_app; [split; [left; by apply Hpass|intros name H1 _ _; by apply Hpass]|]. destruct (Hst d' Hd') as [[Hc|Hc] Ho]; (split; [first [left; congruence|right; by apply Hcur]|]);
        (intros name H1 H2 H3; rewrite Ho by done; unfold d1; by rewrite lookup_insert_ne).
    + exists d2. split; [rewrite last_app, Hl; done|]. destruct s'; [by apply Hcur|congruence].
  - cbn [fst snd]. split.
    + intros d' [Hd'|Hd']%elem_of_app; [split; [left; by apply Hpass|intros name H1 _ _; by apply Hpass]|]. apply list_elem_of_singleton in Hd' as ->. split; [left; by rewrite file_delete_other, lookup_insert_ne|].
      intros name H1 _ _. by rewrite file_delete_other, lookup_insert_ne.
    + eexists. rewrite last_snoc. split; [done|]. by rewrite file_delete_other, lookup_insert_ne.
Qed.



(** ** Files that are not needed *)

(** The numbers of the files of all versions. *)
Definition AddLiveFiles (versions : list Version) (live : list Z) : list Z :=
  live ++ mjoin ((fun v => mjoin ((fun level => fm_number <$> files_ v level) <$> seq 0 kNumLevels)) <$> versions).
Definition keep_file (live : list Z) (vs : VersionSet) (number : Z) (type : FileType) : bool :=
  match type with
  | kLogFile => (vs_log_number vs <=? number) || (number =? vs_prev_log_number vs)
  | kDescriptorFile => manifest_file_number_ vs <=? number
  | kTableFile | kTempFile => existsb (Z.eqb number) live
  | kCurrentFile | kDBLockFile | kInfoLogFile => true
  end.
(** What happens to a child of the directory; [removes] says whether a file can be removed. *)
Definition delete_obsolete (live : list Z) (vs : VersionSet) (removes : list Z -> bool) (d : dir) (fname : list Z) : dir :=
  match ParseFileName fname with
  | Some (number, type) => if negb (keep_file live vs number type) && removes fname then delete fname d else d
  | None => d
  end.
(** [DeleteObsoleteFiles]: [versions] are those that somebody refers to, [filenames] the
    answer of [GetChildren]; the table cache is not modelled. *)
Definition DeleteObsoleteFiles (backup_in_progress : bool) (pending_outputs_ : list Z) (versions : list Version) (vs : VersionSet) (removes : list Z -> bool) (filenames : list (list Z)) (d : dir) : dir :=
  if backup_in_progress then d
  else foldl (delete_obsolete (AddLiveFiles versions pending_outputs_) vs removes) d filenames.

(** The file of a table as [FindTable] looks for it. *)
Definition table_contents (d : dir) (number : Z) : option (list Z) :=
  match d !! SSTTableFileName number with Some bs => Some bs | None => d !! TableFileName number end.
Definition dir_disk (opened : list Z -> RandomAccessFile) (d : dir) (number : Z) : option RandomAccessFile := opened <$> table_contents d number.

Lemma AddLiveFiles_in versions live v k f : v ∈ versions -> (k < kNumLevels)%nat -> f ∈ files_ v k -> fm_number f ∈ AddLiveFiles versions live.
Proof.
  intros Hv Hk Hf. apply elem_of_app. right. apply list_elem_of_join. eexists. split; [|apply list_elem_of_fmap; by exists v]. apply list_elem_of_join. eexists. split; [|apply list_elem_of_fmap; exists k; split; [done|apply elem_of_seq; lia]].
  by apply list_elem_of_fmap_2.
Qed.

Section Obsolete.
Context (backup : bool) (pending : list Z) (versions : list Version) (vs : VersionSet) (removes : list Z -> bool).
Abbreviation live := (AddLiveFiles versions pending).
Abbreviation keep := (keep_file live vs).

(** A name that is not that of a file to be deleted. *)
Lemma obsolete_kept fname filenames d : (forall number type, ParseFileName fname = Some (number, type) -> keep number type = true) ->
  DeleteObsoleteFiles backup pending versions vs removes filenames d !! fname = d !! fname.
Proof.
  intros Hk. unfold DeleteObsoleteFiles. destruct backup; [done|]. revert d. induction filenames as [|g names IH]; intros d; [done|]. cbn [foldl]. rewrite IH. unfold delete_obsolete.
  destruct (ParseFileName g) as [[number type]|] eqn:E; [|done]. destruct (negb _ && _) eqn:En; [|done]. apply andb_true_iff in En as [En _]. destruct (decide (g = fname)) as [->|Hne]; [by rewrite (Hk _ _ E) in En|by rewrite lookup_delete_ne].
Qed.

Lemma obsolete_deleted fname filenames d number type : backup = false -> fname ∈ filenames -> ParseFileName fname = Some (number, type) -> keep number type = false -> removes fname = true ->
  DeleteObsoleteFiles backup pending versions vs removes filenames d !! fname = None.
Proof.
  intros Hb Hin Hp Hk Hr. unfold DeleteObsoleteFiles. rewrite Hb. assert (Hnone : forall names d, d !! fname = None -> foldl (delete_obsolete live vs removes) d names !! fname = None).
  { induction names as [|g names IH]; intros d0 Hd; [done|]. cbn [foldl]. apply IH. unfold delete_obsolete. destruct (ParseFileName g) as [[? ?]|]; [|done]. destruct (_ && _); [|done].
    destruct (decide (g = fname)) as [->|]; [by rewrite lookup_delete_eq|by rewrite lookup_delete_ne]. }
  revert d. induction filenames as [|g names IH]; intros d; [by apply elem_of_nil in Hin|]. cbn [foldl]. apply elem_of_cons in Hin as [<-|Hin]; [|by apply IH]. apply Hnone. unfold delete_obsolete. rewrite Hp, Hk, Hr. simpl. by rewrite lookup_delete_eq.
Qed.

Lemma live_table n filenames d : n ∈ live -> 0 <= n < 2 ^ 64 -> table_contents (DeleteObsoleteFiles backup pending versions vs removes filenames d) n = table_contents d n.
Proof.
  intros Hn Hr. assert (Hk : keep n kTableFile = true) by (simpl; apply existsb_exists; exists n; split; [by apply list_elem_of_In|apply Z.eqb_refl]).
  unfold table_contents. rewrite !obsolete_kept; [done|..]; intros number type; [rewrite Parse_Table by done|rewrite Parse_SST by done]; by intros [= <- <-].
Qed.
End Obsolete.

Section Lookups.
Context `{CM : !Compression} (address : Z -> Z) (opt : Options) (verify : bool) (Hint : 1 <= block_restart_interval opt) (Hif : internal_filters opt).
Context (opened : list Z -> RandomAccessFile).

Definition with_disk (db : DB) (disk : Z -> option RandomAccessFile) : DB := mkFullDB (db_mem db) (db_imm db) (db_versions db) disk (db_logfile_number db).

Lemma with_disk_versions db disk : db_versions (with_disk db disk) = db_versions db.
Proof. done. Qed.

(** A database whose tables are still there. *)
Lemma same_tables db disk es m i : db_ok address opt verify Hint Hif db es m i -> (forall k f, f ∈ files_ (current_ (db_versions db)) k -> disk (fm_number f) = db_disk db (fm_number f)) ->
  db_ok address opt verify Hint Hif (with_disk db disk) es m i /\ forall key s, Full_Get address opt verify (with_disk db disk) s key = Full_Get address opt verify db s key.
Proof.
  intros [H1 H2 H3 H4 H5 H6 H7 H8] Hd. split.
  - split; try done. apply (version_mono (disk_tables address opt verify Hint Hif (db_disk db))); [done|]. intros k f Hf. cbn [table_holds disk_tables with_disk db_disk]. unfold disk_holds. by rewrite (Hd k f Hf).
  - intros key s. unfold Full_Get. cbn [with_disk db_mem db_imm db_versions db_disk]. rewrite (Version_Get_ext (disk_get address opt verify disk) (disk_get address opt verify (db_disk db))); [done|].
    intros k f ikey Hf. unfold disk_get. by rewrite (Hd k f Hf).
Qed.

End Lookups.

Lemma CompactMemTable_disk `{!Compression, WF : !WritableFile} address opt fresh opened en locked db imm : db_imm db = Some imm ->
  let vs := db_versions db in let number := vs_next_file_number vs in
  db_disk (CompactMemTable (WF := WF) address opt fresh opened en locked db).2
  = put_table opened (db_disk db) number (WriteLevel0Table (WF := WF) address opt fresh opened en locked (Some (current_ vs)) imm number Edit_new).2.
Proof.
  intros E. unfold CompactMemTable. rewrite E. cbn [set_counters current_]. destruct (WriteLevel0Table _ _ _ _ _ _ _ _ _ _) as [[[|] e] file]; [|done]. destruct (LogAndApply _ _ _ _) as [s vs]. done.
Qed.

(** The table of the sample database in a directory with one that nobody needs. *)
Definition sample_bytes : list Z :=
  default [] (WriteLevel0Table (WF := memory_file) id sample_options [] Mmap_Read sample_fenv (fun _ => false) (Some empty_version) (adds sample_entries) 2 Edit_new).2.
Definition sample_dir : dir := list_to_map [(SSTTableFileName 2, sample_bytes); (SSTTableFileName 7, [1]); (CurrentFileName, [2])].
Abbreviation sample_in_dir := (with_disk sample_scan (dir_disk Mmap_Read sample_dir)).

Lemma sample_on_disk : dir_disk Mmap_Read sample_dir 2 = db_disk sample_scan 2.
Proof.
  rewrite (CompactMemTable_disk (WF := memory_file) id sample_options [] Mmap_Read sample_fenv (fun _ => false) sample_full (adds sample_entries) eq_refl).
  assert (Hc : table_contents sample_dir 2 = Some sample_bytes) by (vm_compute; reflexivity). unfold dir_disk. rewrite Hc.
  assert (Hw : (WriteLevel0Table (WF := memory_file) id sample_options [] Mmap_Read sample_fenv (fun _ => false) (Some (current_ (db_versions sample_full))) (adds sample_entries)
    (vs_next_file_number (db_versions sample_full)) Edit_new).2 = Some sample_bytes) by (vm_compute; reflexivity).
  rewrite Hw. reflexivity.
Qed.

Lemma sample_number : fm_number sample_file = 2.
Proof. vm_compute. reflexivity. Qed.

Lemma sample_in_dir_ok : exists es i, db_ok id sample_options true sample_restarts sample_filters sample_in_dir es [mkEntry [97] 5 kTypeValue [53]] i.
Proof.
  destruct sample_scan_ok as (es & i & Hok & _). exists es, i. apply (same_tables id sample_options true sample_restarts sample_filters sample_scan (dir_disk Mmap_Read sample_dir) es _ i Hok).
  intros k f Hf. destruct (sample_scan_version k f Hf) as (_ & E & _). rewrite E, sample_number. exact sample_on_disk.
Qed.

