(* ===== verification/LdbCache.v ===== *)
(** * The cache of open tables and blocks

    Models util/cache.cc of src/ext/leveldb: the hash table of handles ([HandleTable]) and
    a shard ([LRUCache]); the choice of one of the sixteen shards is not modelled.  The
    handles are in a memory of their own, [heap], in which the chains of the table and the
    circular list of a shard are linked by addresses as in the code: 0 is NULL and
    [lru_addr] the address of [lru_].  An access to memory that is not allocated, or an
    assertion that does not hold, is [None].  [malloc] is a parameter: an address that is not
    in use, which may have been in use before.

    Below the operations: the circular list ([ring]) and the chains ([table_ok]) as lists of
    addresses, and what the operations on links, on the table and its resizing do to them. *)

From S2P Require Import Prelude LdbFilter.
From Stdlib Require Import ZArith Lia.
From stdpp Require Import base list gmap numbers option fin_maps.
Open Scope Z_scope.

(** ** Handles *)

Record LRUHandle := mkHandle { h_value : Z; next_hash : Z; next : Z; prev : Z; charge : Z; h_key : list Z; refs : Z; hash : Z }.
Abbreviation heap := (gmap Z LRUHandle).

Definition set_next_hash (p : Z) (e : LRUHandle) := mkHandle (h_value e) p (next e) (prev e) (charge e) (h_key e) (refs e) (hash e).
Definition set_next (p : Z) (e : LRUHandle) := mkHandle (h_value e) (next_hash e) p (prev e) (charge e) (h_key e) (refs e) (hash e).
Definition set_prev (p : Z) (e : LRUHandle) := mkHandle (h_value e) (next_hash e) (next e) p (charge e) (h_key e) (refs e) (hash e).
Definition set_refs (n : Z) (e : LRUHandle) := mkHandle (h_value e) (next_hash e) (next e) (prev e) (charge e) (h_key e) n (hash e).

(** A store to a field of the handle at [p]. *)
Definition store (f : LRUHandle -> LRUHandle) (p : Z) (m : heap) : option heap := let* e := m !! p in Some (<[p := f e]> m).

(** [LRUHandle::key]: the value of a handle whose [next] is itself is taken for a key. *)
Definition handle_key (p : Z) (e : LRUHandle) : option (list Z) := if next e =? p then None else Some (h_key e).

(** ** The hash table *)

Record HandleTable := mkTable { length_ : Z; elems_ : Z; list_ : list Z }.

(** An [LRUHandle**]: a bucket, or the [next_hash] of a handle. *)
Inductive slot := InBucket (i : nat) | InHandle (p : Z).
Definition read_slot (t : HandleTable) (m : heap) (s : slot) : option Z :=
  match s with InBucket i => list_ t !! i | InHandle p => next_hash <$> m !! p end.
Definition write_slot (s : slot) (h : Z) (t : HandleTable) (m : heap) : option (HandleTable * heap) :=
  match s with
  | InBucket i => let* _ := list_ t !! i in Some (mkTable (length_ t) (elems_ t) (<[i := h]> (list_ t)), m)
  | InHandle p => let* m := store (set_next_hash h) p m in Some (t, m)
  end.

Definition bucket (length hsh : Z) : nat := Z.to_nat (Z.land hsh (u32 (length - 1))).

Fixpoint find_pointer (fuel : nat) (t : HandleTable) (m : heap) (key : list Z) (hsh : Z) (ptr : slot) : option slot :=
  match fuel with
  | O => None
  | S fuel =>
      let* p := read_slot t m ptr in
      if p =? 0 then Some ptr
      else
        let* e := m !! p in
        if negb (hash e =? hsh) then find_pointer fuel t m key hsh (InHandle p)
        else
          let* k := handle_key p e in
          if bool_decide (key = k) then Some ptr else find_pointer fuel t m key hsh (InHandle p)
  end.
Definition FindPointer (t : HandleTable) (m : heap) (key : list Z) (hsh : Z) : option slot :=
  find_pointer (S (size m)) t m key hsh (InBucket (bucket (length_ t) hsh)).

Definition Table_Lookup (t : HandleTable) (m : heap) (key : list Z) (hsh : Z) : option Z :=
  let* ptr := FindPointer t m key hsh in read_slot t m ptr.

Fixpoint grow_length (fuel : nat) (new_length elems : Z) : option Z :=
  match fuel with
  | O => None
  | S fuel => if new_length <? elems then grow_length fuel (u32 (new_length * 2)) elems else Some new_length
  end.
Fixpoint rehash_chain (fuel : nat) (new_length h : Z) (new_list : list Z) (m : heap) (count : Z) : option (list Z * heap * Z) :=
  match fuel with
  | O => None
  | S fuel =>
      if h =? 0 then Some (new_list, m, count)
      else
        let* e := m !! h in
        let i := bucket new_length (hash e) in
        let* p := new_list !! i in
        let* m := store (set_next_hash p) h m in
        rehash_chain fuel new_length (next_hash e) (<[i := h]> new_list) m (u32 (count + 1))
  end.
Fixpoint rehash (t : HandleTable) (buckets : list nat) (new_length : Z) (new_list : list Z) (m : heap) (count : Z) : option (list Z * heap * Z) :=
  match buckets with
  | [] => Some (new_list, m, count)
  | i :: buckets =>
      let* h := list_ t !! i in
      let* (new_list, m, count) := rehash_chain (S (size m)) new_length h new_list m count in
      rehash t buckets new_length new_list m count
  end.
Definition Resize (t : HandleTable) (m : heap) : option (HandleTable * heap) :=
  let* new_length := grow_length 31 4 (elems_ t) in
  let* (new_list, m, count) := rehash t (seq 0 (Z.to_nat (length_ t))) new_length (replicate (Z.to_nat new_length) 0) m 0 in
  if negb (elems_ t =? count) then None else Some (mkTable new_length (elems_ t) new_list, m).

(** The constructor of the table resizes an empty one. *)
Definition HandleTable_new (m : heap) : option (HandleTable * heap) := Resize (mkTable 0 0 []) m.

(** What was there before, if anything, is returned. *)
Definition Table_Insert (h : Z) (t : HandleTable) (m : heap) : option (Z * HandleTable * heap) :=
  let* e := m !! h in
  let* key := handle_key h e in
  let* ptr := FindPointer t m key (hash e) in
  let* old := read_slot t m ptr in
  let* rest := (if old =? 0 then Some 0 else next_hash <$> m !! old) in
  let* m := store (set_next_hash rest) h m in
  let* (t, m) := write_slot ptr h t m in
  if old =? 0 then
    let t := mkTable (length_ t) (u32 (elems_ t + 1)) (list_ t) in
    if length_ t <? elems_ t then let* (t, m) := Resize t m in Some (old, t, m) else Some (old, t, m)
  else Some (old, t, m).

Definition Table_Remove (key : list Z) (hsh : Z) (t : HandleTable) (m : heap) : option (Z * HandleTable * heap) :=
  let* ptr := FindPointer t m key hsh in
  let* result := read_slot t m ptr in
  if result =? 0 then Some (result, t, m)
  else
    let* e := m !! result in
    let* (t, m) := write_slot ptr (next_hash e) t m in
    Some (result, mkTable (length_ t) (u32 (elems_ t - 1)) (list_ t), m).

(** ** A shard *)

Definition lru_addr : Z := 1.

(** [deleted] lists the calls of the deleters, with the key and the value. *)
Record LRUCache := mkCache { capacity_ : Z; usage_ : Z; table_ : HandleTable; mem : heap; deleted : list (list Z * Z) }.

Definition with_table (c : LRUCache) (t : HandleTable) (m : heap) : LRUCache := mkCache (capacity_ c) (usage_ c) t m (deleted c).
Definition with_mem (c : LRUCache) (m : heap) : LRUCache := with_table c (table_ c) m.

(** The [lru_] of a new shard is linked to itself. *)
Definition lru_new : heap := {[ lru_addr := mkHandle 0 0 lru_addr lru_addr 0 [] 0 0 ]}.
Definition LRUCache_new (capacity : Z) : option LRUCache := let* (t, m) := HandleTable_new lru_new in Some (mkCache capacity 0 t m []).

Definition LRU_Remove (e : Z) (m : heap) : option heap :=
  let* x := m !! e in
  let* m := store (set_prev (prev x)) (next x) m in
  let* x := m !! e in
  store (set_next (next x)) (prev x) m.
Definition LRU_Append (e : Z) (m : heap) : option heap :=
  let* m := store (set_next lru_addr) e m in
  let* l := m !! lru_addr in
  let* m := store (set_prev (prev l)) e m in
  let* x := m !! e in
  let* m := store (set_next e) (prev x) m in
  let* x := m !! e in
  store (set_prev e) (next x) m.

Definition Unref (p : Z) (c : LRUCache) : option LRUCache :=
  let* e := mem c !! p in
  if refs e <=? 0 then None
  else
    let n := u32 (refs e - 1) in
    if n <=? 0 then
      let* key := handle_key p e in
      Some (mkCache (capacity_ c) (u64 (usage_ c - charge e)) (table_ c) (delete p (mem c)) (deleted c ++ [(key, h_value e)]))
    else Some (with_mem c (<[p := set_refs n e]> (mem c))).

Definition LRUCache_Lookup (key : list Z) (hsh : Z) (c : LRUCache) : option (Z * LRUCache) :=
  let* p := Table_Lookup (table_ c) (mem c) key hsh in
  if p =? 0 then Some (p, c)
  else
    let* m := store (fun e => set_refs (u32 (refs e + 1)) e) p (mem c) in
    let* m := LRU_Remove p m in
    let* m := LRU_Append p m in
    Some (p, with_mem c m).

Definition LRUCache_Release (p : Z) (c : LRUCache) : option LRUCache := Unref p c.

Fixpoint evict_loop (fuel : nat) (c : LRUCache) : option LRUCache :=
  match fuel with
  | O => None
  | S fuel =>
      let* l := mem c !! lru_addr in
      if (capacity_ c <? usage_ c) && negb (next l =? lru_addr) then
        let old := next l in
        let* m := LRU_Remove old (mem c) in
        let* e := m !! old in
        let* key := handle_key old e in
        let* (_, t, m) := Table_Remove key (hash e) (table_ c) m in
        let* c := Unref old (with_table c t m) in
        evict_loop fuel c
      else Some c
  end.

Section Malloc.
Context (malloc : heap -> Z).

Definition LRUCache_Insert (key : list Z) (hsh value chg : Z) (c : LRUCache) : option (Z * LRUCache) :=
  let e := malloc (mem c) in
  let m := <[e := mkHandle value 0 0 0 chg key 2 hsh]> (mem c) in
  let* m := LRU_Append e m in
  let c := mkCache (capacity_ c) (u64 (usage_ c + chg)) (table_ c) m (deleted c) in
  let* (old, t, m) := Table_Insert e (table_ c) (mem c) in
  let c := with_table c t m in
  let* c := (if old =? 0 then Some c else let* m := LRU_Remove old (mem c) in Unref old (with_mem c m)) in
  let* c := evict_loop (S (size (mem c))) c in
  Some (e, c).
End Malloc.

Definition LRUCache_Erase (key : list Z) (hsh : Z) (c : LRUCache) : option LRUCache :=
  let* (e, t, m) := Table_Remove key hsh (table_ c) (mem c) in
  let c := with_table c t m in
  if e =? 0 then Some c else let* m := LRU_Remove e (mem c) in Unref e (with_mem c m).

(** The destructor: every handle must have been released. *)
Fixpoint destroy_loop (fuel : nat) (e : Z) (c : LRUCache) : option LRUCache :=
  match fuel with
  | O => None
  | S fuel =>
      if e =? lru_addr then Some c
      else
        let* x := mem c !! e in
        if negb (refs x =? 1) then None
        else let* c := Unref e c in destroy_loop fuel (next x) c
  end.
Definition LRUCache_delete (c : LRUCache) : option LRUCache :=
  let* l := mem c !! lru_addr in destroy_loop (S (size (mem c))) (next l) c.

(** ** What a store changes *)

Definition datum (m : heap) (p : Z) : option (Z * Z * list Z * Z * Z) := (fun e => (h_value e, charge e, h_key e, refs e, hash e)) <$> m !! p.
Definition chained (m : heap) (p : Z) : option Z := next_hash <$> m !! p.
Definition nxt (m : heap) (p : Z) : option Z := next <$> m !! p.
Definition prv (m : heap) (p : Z) : option Z := prev <$> m !! p.

(** The views of [m'] are those of [m] but for what the arguments say. *)
Definition same_data (m m' : heap) : Prop := forall p, datum m' p = datum m p.
Definition same_chains (m m' : heap) : Prop := forall p, chained m' p = chained m p.
Definition same_links (m m' : heap) : Prop := forall p, nxt m' p = nxt m p /\ prv m' p = prv m p.

Ltac views := unfold datum, chained, nxt, prv.

Lemma store_next_hash m p h : is_Some (m !! p) -> exists m', store (set_next_hash h) p m = Some m' /\ same_data m m' /\ same_links m m' /\ forall q, chained m' q = if decide (q = p) then Some h else chained m q.
Proof.
  intros [e He]. unfold store. rewrite He. eexists. split; [done|]. split_and!.
  - intros q. views. destruct (decide (q = p)) as [->|]; [by rewrite lookup_insert_eq, He|by rewrite lookup_insert_ne].
  - intros q. views. destruct (decide (q = p)) as [->|]; [by rewrite lookup_insert_eq, He|by rewrite lookup_insert_ne].
  - intros q. views. case_decide as Hq; [subst; by rewrite lookup_insert_eq|by rewrite lookup_insert_ne].
Qed.

Lemma store_next m p h : is_Some (m !! p) -> exists m', store (set_next h) p m = Some m' /\ same_data m m' /\ same_chains m m' /\ (forall q, prv m' q = prv m q) /\ forall q, nxt m' q = if decide (q = p) then Some h else nxt m q.
Proof.
  intros [e He]. unfold store. rewrite He. eexists. split; [done|]. split_and!; intros q; views; (destruct (decide (q = p)) as [->|]; [by rewrite lookup_insert_eq, ?He|by rewrite lookup_insert_ne]).
Qed.

Lemma store_prev m p h : is_Some (m !! p) -> exists m', store (set_prev h) p m = Some m' /\ same_data m m' /\ same_chains m m' /\ (forall q, nxt m' q = nxt m q) /\ forall q, prv m' q = if decide (q = p) then Some h else prv m q.
Proof.
  intros [e He]. unfold store. rewrite He. eexists. split; [done|]. split_and!; intros q; views; (destruct (decide (q = p)) as [->|]; [by rewrite lookup_insert_eq, ?He|by rewrite lookup_insert_ne]).
Qed.

Lemma datum_is_Some m p : is_Some (datum m p) <-> is_Some (m !! p).
Proof. views. apply fmap_is_Some. Qed.
Lemma nxt_is_Some m p : is_Some (nxt m p) <-> is_Some (m !! p).
Proof. views. apply fmap_is_Some. Qed.
Lemma prv_is_Some m p : is_Some (prv m p) <-> is_Some (m !! p).
Proof. views. apply fmap_is_Some. Qed.

Lemma same_data_alloc m m' p : same_data m m' -> is_Some (m !! p) -> is_Some (m' !! p).
Proof. intros H Hp. apply datum_is_Some. rewrite H. by apply datum_is_Some. Qed.

(** ** The circular list *)

Fixpoint linked (m : heap) (xs : list Z) : Prop :=
  match xs with
  | a :: ((b :: _) as ys) => nxt m a = Some b /\ prv m b = Some a /\ linked m ys
  | _ => True
  end.

Lemma links_app m xs a ys : linked m (xs ++ a :: ys) <-> linked m (xs ++ [a]) /\ linked m (a :: ys).
Proof.
  induction xs as [|x xs IH]; [cbn; tauto|]. destruct xs as [|y xs].
  - cbn [app]. change (linked m (x :: a :: ys)) with (nxt m x = Some a /\ prv m a = Some x /\ linked m (a :: ys)). cbn [linked]. tauto.
  - cbn [app] in *. change (linked m (x :: y :: xs ++ a :: ys)) with (nxt m x = Some y /\ prv m y = Some x /\ linked m (y :: xs ++ a :: ys)).
    change (linked m (x :: y :: xs ++ [a])) with (nxt m x = Some y /\ prv m y = Some x /\ linked m (y :: xs ++ [a])). tauto.
Qed.

(** A part of a list is as it was if nothing was stored to it but to its ends. *)
Lemma linked_frame m m' a xs b : linked m (a :: xs ++ [b]) -> (forall x, x ∈ a :: xs -> nxt m' x = nxt m x) -> (forall x, x ∈ xs ++ [b] -> prv m' x = prv m x) -> linked m' (a :: xs ++ [b]).
Proof.
  revert a. induction xs as [|x xs IH]; intros a H Hn Hp.
  - destruct H as (H1 & H2 & _). cbn. split_and!; [|by rewrite Hp by set_solver|done]. by rewrite Hn by set_solver.
  - destruct H as (H1 & H2 & H3). split; [by rewrite Hn by set_solver|]. split; [by rewrite Hp by set_solver|]. apply IH; [done| |]; intros y Hy; [apply Hn|apply Hp]; set_solver.
Qed.

Definition ring (m : heap) (l : list Z) : Prop := linked m (lru_addr :: l ++ [lru_addr]) /\ NoDup (lru_addr :: l).
Abbreviation before l := (default lru_addr (list.last l)).
Abbreviation behind l := (default lru_addr (head l)).

Lemma ring_nxt m l1 a l2 : ring m (l1 ++ a :: l2) -> nxt m a = Some (behind l2) /\ prv m a = Some (before l1).
Proof.
  intros [H _]. replace (lru_addr :: (l1 ++ a :: l2) ++ [lru_addr]) with ((lru_addr :: l1) ++ a :: (l2 ++ [lru_addr])) in H by (cbn; by rewrite <- app_assoc).
  apply links_app in H as [H1 H2]. split; [destruct l2; apply H2|]. destruct l1 as [|x l1 _] using rev_ind; [apply H1|]. cbn [app] in H1.
  rewrite <- app_assoc in H1. cbn [app] in H1. change (linked m ((lru_addr :: l1) ++ x :: [a])) in H1. apply links_app in H1 as [_ H1]. rewrite last_snoc. apply H1.
Qed.

Lemma ring_ends m l : ring m l -> nxt m lru_addr = Some (behind l) /\ prv m lru_addr = Some (before l).
Proof.
  intros [H _]. split; [destruct l; apply H|]. destruct l as [|x l _] using rev_ind; [apply H|]. rewrite <- app_assoc in H. cbn [app] in H. change (linked m ((lru_addr :: l) ++ x :: [lru_addr])) in H.
  apply links_app in H as [_ H]. rewrite last_snoc. apply H.
Qed.

Lemma ring_frame m m' l : (forall q, q ∈ lru_addr :: l -> nxt m' q = nxt m q /\ prv m' q = prv m q) -> ring m l -> ring m' l.
Proof. intros Hs [H Hnd]. split; [|done]. apply (linked_frame m); [done| |]; intros x Hx; apply Hs; set_solver. Qed.

Lemma before_in l : before l ∈ lru_addr :: l.
Proof. destruct l as [|x l _] using rev_ind; [by left|]. rewrite last_snoc. set_solver. Qed.
Lemma behind_in l : behind l ∈ lru_addr :: l.
Proof. destruct l; set_solver. Qed.

(** What is linked behind [x] and ends at [lru_], when [x] and the first of it are linked. *)
Lemma linked_tail m m' a x l : linked m (a :: l ++ [lru_addr]) -> NoDup (lru_addr :: l) -> x ∉ l ->
  nxt m' x = Some (behind l) -> prv m' (behind l) = Some x -> (forall q, q ∈ l -> nxt m' q = nxt m q) -> (forall q, q ∈ lru_addr :: l -> q <> behind l -> prv m' q = prv m q) -> linked m' (x :: l ++ [lru_addr]).
Proof.
  intros H Hnd Hx H1 H2 Hn Hp. destruct l as [|y l]; [by cbn|]. destruct H as (_ & _ & H). split; [done|]. split; [done|]. apply (linked_frame m); [done|done|]. apply NoDup_cons in Hnd as [Hnd1 [Hnd2 Hnd3]%NoDup_cons].
  intros q Hq. apply Hp; [set_solver|]. cbn. intros ->. apply elem_of_app in Hq as [Hq| ->%list_elem_of_singleton]; set_solver.
Qed.

Lemma lru_ring_alloc m l q : ring m l -> q ∈ lru_addr :: l -> is_Some (m !! q).
Proof.
  intros Hr [->|Hq]%elem_of_cons; apply nxt_is_Some; [destruct (ring_ends _ _ Hr) as [-> _]; by eexists|].
  apply list_elem_of_split in Hq as (l1 & l2 & ->). destruct (ring_nxt _ _ _ _ Hr) as [-> _]. by eexists.
Qed.

(** The list in two parts around [a]. *)
Lemma ring_split m l1 a l2 : linked m (lru_addr :: (l1 ++ a :: l2) ++ [lru_addr]) <-> linked m (lru_addr :: l1 ++ [a]) /\ linked m (a :: l2 ++ [lru_addr]).
Proof. rewrite <- (links_app m (lru_addr :: l1) a (l2 ++ [lru_addr])). by rewrite <- app_assoc. Qed.

(** Linking what is before [a] to what is behind it takes [a] out. *)
Lemma unlink_ring m m' l1 a l2 : ring m (l1 ++ a :: l2) -> (forall q, nxt m' q = if decide (q = before l1) then Some (behind l2) else nxt m q) ->
  (forall q, prv m' q = if decide (q = behind l2) then Some (before l1) else prv m q) -> ring m' (l1 ++ l2).
Proof.
  intros [[Hl1 Hl2]%ring_split Hnd] N P. pose proof (before_in l1) as Hx. pose proof (behind_in l2) as Hy. apply NoDup_cons in Hnd as [H1 Hnd]. apply NoDup_app in Hnd as (Hnd1 & Hd & [Ha2 Hnd2]%NoDup_cons).
  split; [|apply NoDup_cons; split; [set_solver|]; apply NoDup_app; split_and!; [done|set_solver|done]].
  assert (Hx2 : before l1 ∉ l2) by (intros Hx2; apply elem_of_cons in Hx as [Hx|Hx]; [rewrite Hx in Hx2; set_solver|set_solver]).
  assert (Htail : linked m' (before l1 :: l2 ++ [lru_addr])).
  { apply (linked_tail m m' a); [done|apply NoDup_cons; set_solver|done| | | |].
    - by rewrite N, decide_True.
    - by rewrite P, decide_True.
    - intros q Hq. rewrite N, decide_False; [done|]. by intros ->.
    - intros q _ Hq. by rewrite P, decide_False. }
  destruct l1 as [|z l1 _] using rev_ind; [exact Htail|]. rewrite last_snoc in *. cbn [default from_option id] in *. rewrite <- (app_assoc l1 [z] l2). cbn [app]. apply ring_split. split; [|exact Htail].
  rewrite <- app_assoc in Hl1. cbn [app] in Hl1. change (linked m ((lru_addr :: l1) ++ z :: [a])) in Hl1. apply links_app in Hl1 as [Hl1 _]. apply NoDup_app in Hnd1 as (Hnd1 & Hz & _).
  apply (linked_frame m); [done| |]; intros q Hq.
  - rewrite N, decide_False; [done|]. intros ->. apply elem_of_cons in Hq as [Hq|Hq]; [set_solver|]. by apply (Hz z Hq), list_elem_of_singleton.
  - rewrite P, decide_False; [done|]. intros ->. apply elem_of_cons in Hy as [Hy|Hy]; [rewrite Hy in Hq; set_solver|]. apply (Hd _ Hq). set_solver.
Qed.

Lemma links_of m p n q : nxt m p = Some n -> prv m p = Some q -> exists e, m !! p = Some e /\ next e = n /\ prev e = q.
Proof. views. destruct (m !! p) as [e|]; [|done]. cbn. intros Hn Hq. exists e. split; [done|]. split; congruence. Qed.

Lemma LRU_Remove_ok m l1 a l2 : ring m (l1 ++ a :: l2) ->
  exists m', LRU_Remove a m = Some m' /\ ring m' (l1 ++ l2) /\ same_data m m' /\ same_chains m m' /\ forall q, q ∉ lru_addr :: l1 ++ l2 -> nxt m' q = nxt m q.
Proof.
  intros Hr. destruct (ring_nxt _ _ _ _ Hr) as [Hna Hpa]. pose proof (before_in l1) as Hx. pose proof (behind_in l2) as Hy.
  assert (Hay : a <> behind l2) by (destruct Hr as [_ [H1 (_ & _ & [H2 _]%NoDup_cons)%NoDup_app]%NoDup_cons]; intros Ha; rewrite <- Ha in Hy; set_solver).
  destruct (store_prev m (behind l2) (before l1)) as (m1 & E1 & D1 & C1 & N1 & P1); [apply (lru_ring_alloc _ _ _ Hr); set_solver|].
  destruct (store_next m1 (before l1) (behind l2)) as (m2 & E2 & D2 & C2 & P2 & N2); [apply (same_data_alloc _ _ _ D1), (lru_ring_alloc _ _ _ Hr); set_solver|].
  exists m2. unfold LRU_Remove. destruct (links_of _ _ _ _ Hna Hpa) as (e & -> & En & Ep). rewrite En, Ep, E1. destruct (links_of m1 a (behind l2) (before l1)) as (e' & -> & En' & Ep'); [by rewrite N1|by rewrite P1, decide_False|]. rewrite En', Ep'.
  split; [done|]. split; [|split; [intros q; by rewrite D2|split; [intros q; by rewrite C2|]]].
  - apply (unlink_ring m m2 l1 a l2); [done| |]; intros q; [by rewrite N2, N1|by rewrite P2, P1].
  - intros q Hq. rewrite N2, decide_False, N1; [done|]. intros ->. set_solver.
Qed.

Lemma LRU_Append_ok m l a : ring m l -> a ∉ lru_addr :: l -> is_Some (m !! a) ->
  exists m', LRU_Append a m = Some m' /\ ring m' (l ++ [a]) /\ same_data m m' /\ same_chains m m' /\ forall q, q ∉ lru_addr :: l ++ [a] -> nxt m' q = nxt m q.
Proof.
  intros Hr Ha Hal. destruct (ring_ends _ _ Hr) as [Hn Hp]. pose proof (before_in l) as Hx. assert (Hxa : before l <> a) by congruence. assert (H1a : lru_addr <> a) by set_solver.
  destruct (store_next m a lru_addr Hal) as (m1 & E1 & D1 & C1 & P1 & N1). destruct (store_prev m1 a (before l)) as (m2 & E2 & D2 & C2 & N2 & P2); [by apply (same_data_alloc m)|].
  assert (D02 : same_data m m2) by (intros q; by rewrite D2). destruct (store_next m2 (before l) a) as (m3 & E3 & D3 & C3 & P3 & N3); [by apply (same_data_alloc _ _ _ D02), (lru_ring_alloc _ _ _ Hr)|].
  assert (D03 : same_data m m3) by (intros q; by rewrite D3). destruct (store_prev m3 lru_addr a) as (m4 & E4 & D4 & C4 & N4 & P4); [apply (same_data_alloc _ _ _ D03), (lru_ring_alloc _ _ _ Hr); set_solver|].
  exists m4. unfold LRU_Append. rewrite E1. destruct (links_of m1 lru_addr (behind l) (before l)) as (e & -> & _ & Ep); [by rewrite N1, decide_False|by rewrite P1|]. rewrite Ep, E2.
  destruct (links_of m2 a lru_addr (before l)) as (e2 & -> & _ & Ep2); [by rewrite N2, N1, decide_True|by rewrite P2, decide_True|]. rewrite Ep2, E3.
  destruct (links_of m3 a lru_addr (before l)) as (e3 & -> & En3 & _); [by rewrite N3, decide_False, N2, N1, decide_True|by rewrite P3, P2, decide_True|]. rewrite En3.
  assert (N : forall q, nxt m4 q = if decide (q = before l) then Some a else if decide (q = a) then Some lru_addr else nxt m q) by (intros q; by rewrite N4, N3, N2, N1).
  assert (P : forall q, prv m4 q = if decide (q = lru_addr) then Some a else if decide (q = a) then Some (before l) else prv m q) by (intros q; by rewrite P4, P3, P2, P1).
  split; [done|]. split; [|split; [intros q; by rewrite D4|split; [intros q; by rewrite C4, C3, C2, C1|]]].
  2:{ intros q Hq. rewrite N, !decide_False; [done|set_solver|]. intros ->. set_solver. }
  destruct Hr as [Hl Hnd]. split; [|apply NoDup_cons in Hnd as [? ?]; apply NoDup_cons; split; [set_solver|]; apply NoDup_app; split_and!; [done|set_solver|apply NoDup_singleton]].
  apply ring_split. split; [|cbn; split_and!; [by rewrite N, decide_False, decide_True|by rewrite P, decide_True|done]].
  apply NoDup_cons in Hnd as [H1 Hnd]. destruct l as [|z l _] using rev_ind; [cbn; split_and!; [by rewrite N, decide_True|by rewrite P, decide_False, decide_True|done]|].
  rewrite last_snoc in *. cbn [default from_option id] in *. rewrite <- app_assoc in Hl |- *. cbn [app] in Hl |- *. change (linked m ((lru_addr :: l) ++ z :: [lru_addr])) in Hl. apply links_app in Hl as [Hl _].
  change (linked m4 ((lru_addr :: l) ++ z :: [a])). apply links_app. split; [|cbn; split_and!; [by rewrite N, decide_True|by rewrite P, decide_False, decide_True|done]]. apply NoDup_app in Hnd as (Hnd1 & Hz & _).
  apply (linked_frame m); [done| |]; intros q Hq.
  - rewrite N, !decide_False; [done|set_solver|]. intros ->. apply elem_of_cons in Hq as [Hq|Hq]; [set_solver|]. by apply (Hz z Hq), list_elem_of_singleton.
  - rewrite P, !decide_False; [done|set_solver|]. intros ->. set_solver.
Qed.

(** ** Chains of the table *)

Fixpoint chain (f : Z -> option Z) (p : Z) (cs : list Z) : Prop :=
  match cs with
  | [] => p = 0
  | c :: cs => p = c /\ c <> 0 /\ exists q, f c = Some q /\ chain f q cs
  end.

Lemma chain_ext f g p cs : (forall c, c ∈ cs -> g c = f c) -> chain f p cs -> chain g p cs.
Proof.
  revert p. induction cs as [|c cs IH]; intros p He; [done|]. intros (-> & Hc & q & Hq & H). split; [done|]. split; [done|]. exists q. rewrite He by set_solver. split; [done|]. apply IH; [|done]. intros x Hx. apply He. set_solver.
Qed.

(** The slot behind the handles [pre] of a bucket. *)
Definition slot_after (i : nat) (pre : list Z) : slot := match list.last pre with None => InBucket i | Some x => InHandle x end.
Abbreviation first cs := (default 0 (head cs)).

Lemma chain_first f p cs : chain f p cs -> p = first cs.
Proof. destruct cs; cbn; [done|]. by intros (-> & _). Qed.

Lemma chain_at f p pre x rest : chain f p (pre ++ x :: rest) -> exists q, f x = Some q /\ chain f q rest.
Proof. revert p. induction pre as [|c pre IH]; intros p; [intros (_ & _ & q & Hq & H); by exists q|]. intros (_ & _ & q & _ & H). by apply (IH q). Qed.

(** Storing behind [x] replaces what follows it. *)
Lemma chain_splice f g p pre x rest q new : chain f p (pre ++ x :: rest) -> x ∉ pre -> (forall c, c ∈ pre -> g c = f c) -> g x = Some q -> chain g q new -> chain g p (pre ++ x :: new).
Proof.
  revert p. induction pre as [|c pre IH]; intros p H Hx He Hq Hnew.
  - destruct H as (-> & Hx0 & _). cbn. split; [done|]. split; [done|]. by exists q.
  - destruct H as (-> & Hc & r & Hr & H). split; [done|]. split; [done|]. exists r. rewrite He by set_solver. split; [done|]. apply IH; [done|set_solver| |done|done]. intros y Hy. apply He. set_solver.
Qed.

Definition hash_of (m : heap) (p : Z) : option Z := hash <$> m !! p.
Definition key_at (m : heap) (p : Z) : option (list Z) := h_key <$> m !! p.

Lemma same_hash m m' p : same_data m m' -> hash_of m' p = hash_of m p.
Proof. intros H. specialize (H p). unfold datum, hash_of in *. by destruct (m !! p), (m' !! p); simplify_eq/=; f_equal. Qed.
Lemma same_key m m' p : same_data m m' -> key_at m' p = key_at m p.
Proof. intros H. specialize (H p). unfold datum, key_at in *. by destruct (m !! p), (m' !! p); simplify_eq/=; f_equal. Qed.

(** The chains [css] of the buckets. *)
Record buckets_ok (len : Z) (lists : list Z) (m : heap) (css : list (list Z)) : Prop := mkBucketsOk {
  bo_pow : exists k, 2 <= k <= 31 /\ len = 2 ^ k;
  bo_lists : lenZ lists = len;
  bo_css : length css = length lists;
  bo_chain : forall i p cs, lists !! i = Some p -> css !! i = Some cs -> chain (chained m) p cs;
  bo_hash : forall i cs c, css !! i = Some cs -> c ∈ cs -> exists h, hash_of m c = Some h /\ 0 <= h < 2 ^ 32 /\ bucket len h = i;
  bo_nodup : NoDup (mjoin css);
}.

Lemma bucket_lt k h : 2 <= k <= 31 -> 0 <= h -> (bucket (2 ^ k) h < Z.to_nat (2 ^ k))%nat.
Proof.
  intros Hk Hh. unfold bucket. pose proof (Z.pow_le_mono_r 2 k 31 ltac:(lia) ltac:(lia)). pose proof (Z.pow_pos_nonneg 2 k ltac:(lia) ltac:(lia)). rewrite uwrap_small by lia.
  replace (2 ^ k - 1) with (Z.ones k) by (rewrite Z.ones_equiv; lia). rewrite Z.land_ones by lia. pose proof (Z.mod_pos_bound h (2 ^ k) ltac:(lia)). lia.
Qed.

Lemma bucket_there len lists m css h : buckets_ok len lists m css -> 0 <= h -> exists p cs, lists !! bucket len h = Some p /\ css !! bucket len h = Some cs /\ chain (chained m) p cs.
Proof.
  intros H Hh. destruct (bo_pow _ _ _ _ H) as (k & Hk & ->). pose proof (bucket_lt k h Hk Hh) as Hb. pose proof (bo_lists _ _ _ _ H) as Hl. pose proof (bo_css _ _ _ _ H) as Hc.
  destruct (lookup_lt_is_Some_2 lists (bucket (2 ^ k) h)) as [p Hp]; [lia|]. destruct (lookup_lt_is_Some_2 css (bucket (2 ^ k) h)) as [cs Hcs]; [lia|].
  exists p, cs. split; [done|]. split; [done|]. by apply (bo_chain _ _ _ _ H (bucket (2 ^ k) h)).
Qed.

Definition matches (m : heap) (key : list Z) (hsh : Z) (c : Z) : Prop := hash_of m c = Some hsh /\ key_at m c = Some key.

Lemma read_after t m i p pre rest : list_ t !! i = Some p -> chain (chained m) p (pre ++ rest) -> read_slot t m (slot_after i pre) = Some (first rest).
Proof.
  intros Hp Hc. unfold slot_after. destruct pre as [|x pre _] using rev_ind; [cbn; rewrite Hp; f_equal; by apply (chain_first _ _ rest Hc)|].
  rewrite last_snoc. cbn. rewrite <- app_assoc in Hc. cbn in Hc. apply chain_at in Hc as (q & Hq & Hc). unfold chained in Hq. rewrite Hq. f_equal. by apply (chain_first _ _ rest Hc).
Qed.

Lemma find_pointer_ok fuel t m key hsh i p pre rest : (length rest < fuel)%nat -> list_ t !! i = Some p -> chain (chained m) p (pre ++ rest) -> (forall c, c ∈ rest -> nxt m c <> Some c) ->
  exists mid rest', rest = mid ++ rest' /\ (forall c, c ∈ mid -> ~ matches m key hsh c) /\ (forall c, head rest' = Some c -> matches m key hsh c) /\ find_pointer fuel t m key hsh (slot_after i pre) = Some (slot_after i (pre ++ mid)).
Proof.
  revert fuel pre. induction rest as [|c rest IH]; intros fuel pre Hf Hp Hc Hs; (destruct fuel as [|fuel]; [cbn in Hf; lia|]); cbn [find_pointer]; rewrite (read_after _ _ _ _ _ _ Hp Hc); cbn [head default from_option id Z.eqb].
  - exists [], []. split_and!; [done|set_solver|by intros c|by rewrite app_nil_r].
  - pose proof (chain_at _ _ _ _ _ Hc) as (q & Hq & Hrest). assert (Hc0 : c <> 0). { clear -Hc. revert p Hc. induction pre as [|x pre IH]; intros p; [by intros (_ & ? & _)|]. intros (_ & _ & r & _ & H). by apply (IH r). }
    rewrite (proj2 (Z.eqb_neq c 0)) by done. unfold chained in Hq. destruct (m !! c) as [e|] eqn:Ee; [|done].
    assert (Hgo : ~ matches m key hsh c -> exists mid rest', c :: rest = mid ++ rest' /\ (forall c, c ∈ mid -> ~ matches m key hsh c) /\ (forall c, head rest' = Some c -> matches m key hsh c) /\ find_pointer fuel t m key hsh (InHandle c) = Some (slot_after i (pre ++ mid))).
    { intros Hm. destruct (IH fuel (pre ++ [c])) as (mid & rest' & -> & H1 & H2 & H3); [cbn in Hf; lia|done|by rewrite <- app_assoc|intros x Hx; apply Hs; set_solver|]. exists (c :: mid), rest'. split; [done|].
      split; [intros x [->|Hx]%elem_of_cons; [done|by apply H1]|]. split; [done|]. unfold slot_after at 1 in H3. rewrite last_snoc in H3. rewrite H3. by rewrite <- app_assoc. }
    destruct (Z.eqb_spec (hash e) hsh) as [Hh|Hh]; cbn [negb]; [|apply Hgo; intros [H _]; unfold hash_of in H; rewrite Ee in H; cbn in H; congruence].
    assert (Hself : next e <> c) by (intros E; apply (Hs c); [set_solver|]; unfold nxt; rewrite Ee; cbn; congruence). unfold handle_key. rewrite (proj2 (Z.eqb_neq _ _) Hself). case_bool_decide as Hk.
    + exists [], (c :: rest). rewrite app_nil_r. split_and!; [done|set_solver| |done]. intros x [= <-]. unfold matches, hash_of, key_at. rewrite Ee. cbn. split; congruence.
    + apply Hgo. intros [_ H]. unfold key_at in H. rewrite Ee in H. cbn in H. congruence.
Qed.

Lemma mjoin_insert {A} (css : list (list A)) i b : css !! i = Some b -> exists l1 l2, mjoin css = l1 ++ b ++ l2 /\ forall a, mjoin (<[i := a]> css) = l1 ++ a ++ l2.
Proof.
  revert i. induction css as [|cs css IH]; intros [|i] H; [done|done| |].
  - injection H as ->. by exists [], (mjoin css).
  - destruct (IH i H) as (l1 & l2 & H1 & H2). exists (cs ++ l1), l2. split; [change (cs ++ mjoin css = (cs ++ l1) ++ b ++ l2); by rewrite H1, app_assoc|]. intros a. change (cs ++ mjoin (<[i := a]> css) = (cs ++ l1) ++ a ++ l2). by rewrite H2, app_assoc.
Qed.

Lemma elem_of_mjoin {A} (css : list (list A)) i cs c : css !! i = Some cs -> c ∈ cs -> c ∈ mjoin css.
Proof. intros H Hc. apply list_elem_of_join. exists cs. split; [done|]. by apply list_elem_of_lookup_2 with i. Qed.

Lemma mjoin_apart {A} (css : list (list A)) i j a b c : NoDup (mjoin css) -> css !! i = Some a -> css !! j = Some b -> c ∈ a -> c ∈ b -> i = j.
Proof.
  intros Hnd Ha Hb Hca Hcb. destruct (decide (i = j)) as [|Hij]; [done|]. exfalso. destruct (mjoin_insert css i a Ha) as (l1 & l2 & H1 & H2). specialize (H2 []). rewrite H1 in Hnd.
  assert (Hin : c ∈ l1 ++ [] ++ l2) by (rewrite <- H2; apply (elem_of_mjoin _ j b); [by rewrite list_lookup_insert_ne|done]).
  apply NoDup_app in Hnd as (_ & Hd1 & (_ & Hd2 & _)%NoDup_app). apply elem_of_app in Hin as [Hin|Hin]; [apply (Hd1 c Hin); set_solver|]. by apply (Hd2 c Hca).
Qed.

Lemma nodup_size (m : heap) l : NoDup l -> (forall x, x ∈ l -> is_Some (m !! x)) -> (length l <= size m)%nat.
Proof.
  intros Hnd H. rewrite <- (size_list_to_set (C := gset Z) l Hnd), <- (size_dom (D := gset Z) m). apply subseteq_size. intros x Hx. apply elem_of_dom, H. by apply elem_of_list_to_set in Hx.
Qed.

Lemma buckets_frame len lists m m' css : buckets_ok len lists m css -> (forall c, c ∈ mjoin css -> hash_of m' c = hash_of m c /\ chained m' c = chained m c) -> buckets_ok len lists m' css.
Proof.
  intros [H1 H2 H3 H4 H5 H6] Hc. split; [done|done|done| | |done].
  - intros i p cs Hp Hcs. apply (chain_ext (chained m)); [|by apply (H4 i)]. intros c Hin. by apply Hc, (elem_of_mjoin _ i cs).
  - intros i cs c Hcs Hin. rewrite (proj1 (Hc c (elem_of_mjoin _ _ _ _ Hcs Hin))). by apply (H5 i cs).
Qed.

Lemma FindPointer_ok t m css key hsh : buckets_ok (length_ t) (list_ t) m css -> 0 <= hsh -> (forall c, c ∈ mjoin css -> nxt m c <> Some c) ->
  exists p pre rest, let i := bucket (length_ t) hsh in list_ t !! i = Some p /\ css !! i = Some (pre ++ rest) /\ chain (chained m) p (pre ++ rest)
  /\ (forall c, c ∈ pre -> ~ matches m key hsh c) /\ (forall c, head rest = Some c -> matches m key hsh c)
  /\ FindPointer t m key hsh = Some (slot_after i pre) /\ read_slot t m (slot_after i pre) = Some (first rest).
Proof.
  intros Hb Hh Hs. destruct (bucket_there _ _ _ _ hsh Hb Hh) as (p & cs & Hp & Hcs & Hc). destruct (mjoin_insert _ _ _ Hcs) as (l1 & l2 & Hj & _).
  destruct (find_pointer_ok (S (size m)) t m key hsh (bucket (length_ t) hsh) p [] cs) as (pre & rest & -> & H1 & H2 & H3); [|done|done|intros c Hin; by apply Hs, (elem_of_mjoin _ _ _ _ Hcs)|].
  - pose proof (bo_nodup _ _ _ _ Hb) as Hnd. rewrite Hj in Hnd. apply NoDup_app in Hnd as (_ & _ & (Hnd & _ & _)%NoDup_app). apply Nat.lt_succ_r, nodup_size; [done|].
    intros x Hx. destruct (bo_hash _ _ _ _ Hb _ _ _ Hcs Hx) as (h & Hh' & _). unfold hash_of in Hh'. destruct (m !! x); [by eexists|done].
  - exists p, pre, rest. cbn zeta. split_and!; [done..|]. by apply (read_after _ _ _ p).
Qed.

(** What a store to the slot behind [pre] does to the chains. *)
Lemma write_slot_ok t m css i p pre rest q new : buckets_ok (length_ t) (list_ t) m css -> list_ t !! i = Some p -> css !! i = Some (pre ++ rest) -> chain (chained m) q new ->
  (forall c, c ∈ new -> exists h, hash_of m c = Some h /\ 0 <= h < 2 ^ 32 /\ bucket (length_ t) h = i) -> NoDup (mjoin (<[i := pre ++ new]> css)) ->
  exists t' m', write_slot (slot_after i pre) q t m = Some (t', m') /\ length_ t' = length_ t /\ elems_ t' = elems_ t /\ buckets_ok (length_ t) (list_ t') m' (<[i := pre ++ new]> css) /\ same_data m m' /\ same_links m m'.
Proof.
  intros Hb Hp Hcs Hnew Hhash Hnd. pose proof Hb as [H1 H2 H3 H4 H5 H6]. assert (Hi : (i < length css)%nat) by (by apply lookup_lt_is_Some; eexists).
  assert (Hh' : forall j cs c, <[i := pre ++ new]> css !! j = Some cs -> c ∈ cs -> exists h, hash_of m c = Some h /\ 0 <= h < 2 ^ 32 /\ bucket (length_ t) h = j).
  { intros j cs c. destruct (decide (i = j)) as [<-|Hij]; [|rewrite list_lookup_insert_ne by done; by apply H5]. rewrite list_lookup_insert_eq by done. intros [= <-] [Hc|Hc]%elem_of_app; [|by apply Hhash]. apply (H5 i (pre ++ rest)); [done|set_solver]. }
  assert (Hndi : NoDup (pre ++ new)).
  { destruct (mjoin_insert _ _ _ Hcs) as (l1 & l2 & _ & Hj). rewrite Hj in Hnd. by apply NoDup_app in Hnd as (_ & _ & (? & _ & _)%NoDup_app). }
  unfold slot_after. destruct pre as [|x pre _] using rev_ind.
  - cbn. rewrite Hp. eexists _, m. split; [done|]. cbn [length_ elems_ list_]. split_and!; [done|done| |done|done]. split; [done|by rewrite length_insert|by rewrite !length_insert| |done|done].
    intros j p' cs. destruct (decide (i = j)) as [<-|Hij]; [rewrite !list_lookup_insert_eq by lia; by intros [= <-] [= <-]|rewrite !list_lookup_insert_ne by done; apply H4].
  - rewrite last_snoc. pose proof (H4 i p _ Hp Hcs) as Hold. destruct (chain_at (chained m) p pre x rest) as (q0 & Hq0 & _); [by rewrite <- app_assoc in Hold|].
    destruct (store_next_hash m x q) as (m' & E & Hd & Hl & Hch); [unfold chained in Hq0; destruct (m !! x); [by eexists|done]|]. exists t, m'. cbn [write_slot]. rewrite E. split; [done|]. split; [done|]. split; [done|]. split; [|done].
    rewrite <- app_assoc in Hndi. apply NoDup_app in Hndi as (Hn1 & Hn2 & Hn3). cbn [app] in Hn2, Hn3. apply NoDup_cons in Hn3 as [Hn3 Hn4].
    split; [done|done|by rewrite length_insert| | |done].
    + intros j p' cs Hp'. destruct (decide (i = j)) as [<-|Hij].
      * rewrite list_lookup_insert_eq by lia. intros [= <-]. rewrite Hp in Hp'. injection Hp' as <-. rewrite <- app_assoc in Hold |- *. cbn [app] in Hold |- *.
        apply (chain_splice (chained m) (chained m') p pre x rest q new); [done|set_solver| |by rewrite Hch, decide_True|]; [|apply (chain_ext (chained m)); [|done]]; intros c Hc; rewrite Hch, decide_False; [done|set_solver|done|by intros ->].
      * rewrite list_lookup_insert_ne by done. intros Hcs'. apply (chain_ext (chained m)); [|by apply (H4 j)]. intros c Hc. rewrite Hch, decide_False; [done|]. intros ->. apply Hij. apply (mjoin_apart css i j _ cs x H6 Hcs Hcs'); [set_solver|done].
    + intros j cs c Hj Hc. rewrite (same_hash _ _ _ Hd). by apply (Hh' j cs).
Qed.

(** ** Resizing *)

Definition hashed (m : heap) (c : Z) : Prop := exists h, hash_of m c = Some h /\ 0 <= h < 2 ^ 32.

Lemma grow_length_ok fuel k elems : elems <= 2 ^ 31 -> 2 <= k <= 31 -> 31 - k < Z.of_nat fuel -> exists k', 2 <= k' <= 31 /\ grow_length fuel (2 ^ k) elems = Some (2 ^ k').
Proof.
  intros He. revert k. induction fuel as [|fuel IH]; intros k Hk Hf; [lia|]. cbn [grow_length]. zcase; [|by exists k]. assert (Hk31 : k < 31) by (apply (Z.pow_lt_mono_r_iff 2); lia).
  rewrite uwrap_small, Z.mul_comm, <- Z.pow_succ_r by (try (pose proof (Z.pow_lt_mono_r 2 k 31 ltac:(lia) ltac:(lia) ltac:(lia))); lia). apply IH; lia.
Qed.

Lemma rehash_chain_ok fuel k h cs lists m css count : (length cs < fuel)%nat -> buckets_ok (2 ^ k) lists m css -> chain (chained m) h cs -> (forall c, c ∈ cs -> hashed m c) -> NoDup (cs ++ mjoin css) -> 0 <= count -> count + lenZ cs < 2 ^ 32 ->
  exists lists' m' css', rehash_chain fuel (2 ^ k) h lists m count = Some (lists', m', count + lenZ cs) /\ buckets_ok (2 ^ k) lists' m' css' /\ mjoin css' ≡ₚ cs ++ mjoin css
  /\ same_data m m' /\ same_links m m' /\ forall c, c ∉ cs -> chained m' c = chained m c.
Proof.
  revert fuel h lists m css count. induction cs as [|c cs IH]; intros fuel h lists m css count Hf Hb Hc Hh Hnd H0 Hct; (destruct fuel as [|fuel]; [cbn in Hf; lia|]); cbn [rehash_chain].
  - cbn in Hc. subst h. exists lists, m, css. cbn [Z.eqb length Z.of_nat]. rewrite Z.add_0_r. by split_and!.
  - destruct Hc as (-> & Hc0 & q & Hq & Hc). rewrite (proj2 (Z.eqb_neq c 0)) by done. destruct (Hh c) as (hc & Hhc & Hrange); [set_solver|]. unfold hash_of in Hhc. unfold chained in Hq. destruct (m !! c) as [e|] eqn:Ee; [|done]. cbn in Hhc, Hq.
    injection Hhc as Hhc. injection Hq as Hq. rewrite Hhc, Hq. destruct (bucket_there _ _ _ _ hc Hb) as (p & ds & Hp & Hds & Hcp); [lia|]. rewrite Hp. destruct (store_next_hash m c p) as (m1 & -> & Hd1 & Hl1 & Hch1); [by eexists|].
    cbn [app] in Hnd. apply NoDup_cons in Hnd as [Hnc Hnd]. destruct (mjoin_insert _ _ _ Hds) as (l1 & l2 & Hj1 & Hj2). set (i := bucket (2 ^ k) hc) in *.
    assert (Hb1 : buckets_ok (2 ^ k) (<[i := c]> lists) m1 (<[i := c :: ds]> css)).
    { pose proof Hb as [G1 G2 G3 G4 G5 G6]. assert (Hi : (i < length lists)%nat) by (by apply lookup_lt_is_Some; eexists). assert (Hext : forall x, x ∈ mjoin css -> chained m1 x = chained m x) by (intros x Hx; rewrite Hch1, decide_False; [done|set_solver]). split; [done|by rewrite length_insert|by rewrite !length_insert| | |].
      - intros j p' cs'. destruct (decide (i = j)) as [<-|Hij].
        + rewrite !list_lookup_insert_eq by lia. intros [= <-] [= <-]. split; [done|]. split; [done|]. exists p. split; [by rewrite Hch1, decide_True|]. apply (chain_ext (chained m)); [|done]. intros x Hx. by apply Hext, (elem_of_mjoin _ i ds).
        + rewrite !list_lookup_insert_ne by done. intros Hp' Hcs'. apply (chain_ext (chained m)); [|by apply (G4 j)]. intros x Hx. by apply Hext, (elem_of_mjoin _ j cs').
      - intros j cs' x. rewrite (same_hash _ _ _ Hd1). destruct (decide (i = j)) as [<-|Hij]; [|rewrite list_lookup_insert_ne by done; by apply G5]. rewrite list_lookup_insert_eq by lia. intros [= <-] [->|Hx]%elem_of_cons; [|by apply (G5 i ds)].
        exists hc. unfold hash_of. rewrite Ee. cbn. by rewrite Hhc.
      - rewrite Hj2. cbn [app]. rewrite <- Permutation_middle, <- Hj1. apply NoDup_cons. split; [set_solver|]. by apply NoDup_app in Hnd as (_ & _ & ?). }
    destruct (IH fuel q (<[i := c]> lists) m1 (<[i := c :: ds]> css) (u32 (count + 1))) as (lists' & m' & css' & E & Hb' & Hj' & Hd' & Hl' & Hch').
    + cbn in Hf. lia.
    + done.
    + apply (chain_ext (chained m)); [|done]. intros x Hx. rewrite Hch1, decide_False; [done|set_solver].
    + intros x Hx. destruct (Hh x) as (hx & Hhx & Hr); [set_solver|]. exists hx. by rewrite (same_hash _ _ _ Hd1).
    + rewrite Hj2. cbn [app]. rewrite <- Permutation_middle, <- Hj1, <- Permutation_middle. by apply NoDup_cons.
    + rewrite uwrap_small by (cbn in Hct; lia). lia.
    + rewrite uwrap_small by (cbn in Hct; lia). cbn in Hct. lia.
    + exists lists', m', css'. split; [rewrite E, uwrap_small by (cbn in Hct; lia); do 2 f_equal; cbn [length]; lia|]. split; [done|]. split; [rewrite Hj', Hj2; cbn [app]; rewrite <- !Permutation_middle, <- Hj1; done|].
      split; [intros x; by rewrite Hd'|]. split; [intros x; destruct (Hl' x) as [-> ->]; apply Hl1|]. intros x Hx. rewrite Hch', Hch1, decide_False; [done|set_solver|set_solver].
Qed.

Lemma rehash_ok n t i k lists m css css' count : (i + n = length css)%nat -> length css = length (list_ t) -> buckets_ok (2 ^ k) lists m css' -> (forall j p cs, (i <= j)%nat -> list_ t !! j = Some p -> css !! j = Some cs -> chain (chained m) p cs) ->
  (forall c, c ∈ mjoin css -> hashed m c) -> NoDup (mjoin (drop i css) ++ mjoin css') -> 0 <= count -> count + lenZ (mjoin (drop i css)) < 2 ^ 32 ->
  exists lists' m' css'', rehash t (seq i n) (2 ^ k) lists m count = Some (lists', m', count + lenZ (mjoin (drop i css))) /\ buckets_ok (2 ^ k) lists' m' css'' /\ mjoin css'' ≡ₚ mjoin (drop i css) ++ mjoin css' /\ same_data m m' /\ same_links m m'.
Proof.
  revert i lists m css' count. induction n as [|n IH]; intros i lists m css' count Hn Hl Hb Hc Hh Hnd H0 Hct; cbn [seq rehash].
  - rewrite drop_ge by lia. exists lists, m, css'. cbn [mjoin length Z.of_nat]. rewrite Z.add_0_r. by split_and!.
  - destruct (lookup_lt_is_Some_2 css i) as [cs Hcs]; [lia|]. destruct (lookup_lt_is_Some_2 (list_ t) i) as [p Hp]; [lia|]. rewrite Hp. rewrite (drop_S css cs i Hcs) in *. change (mjoin (cs :: drop (S i) css)) with (cs ++ mjoin (drop (S i) css)) in *.
    rewrite <- app_assoc in Hnd. apply NoDup_app in Hnd as (Hn1 & Hn2 & Hn3). rewrite length_app, Nat2Z.inj_add in Hct |- *.
    destruct (rehash_chain_ok (S (size m)) k p cs lists m css' count) as (lists1 & m1 & css1 & -> & Hb1 & Hj1 & Hd1 & Hl1 & Hch1); [|done|by apply (Hc i)| | |done|lia|].
    + apply Nat.lt_succ_r, nodup_size; [done|]. intros x Hx. destruct (Hh x (elem_of_mjoin _ _ _ _ Hcs Hx)) as (h & Hhx & _). unfold hash_of in Hhx. destruct (m !! x); [by eexists|done].
    + intros x Hx. by apply Hh, (elem_of_mjoin _ _ _ _ Hcs).
    + apply NoDup_app in Hn3 as (_ & _ & Hn3). apply NoDup_app. split_and!; [done|set_solver|done].
    + assert (Hperm : mjoin (drop (S i) css) ++ mjoin css1 ≡ₚ cs ++ mjoin (drop (S i) css) ++ mjoin css') by (rewrite Hj1; rewrite !app_assoc; by rewrite (Permutation_app_comm cs)).
      destruct (IH (S i) lists1 m1 css1 (count + lenZ cs)) as (lists2 & m2 & css2 & E2 & Hb2 & Hj2 & Hd2 & Hl2); [lia|done|done| | | |lia|lia|].
      * intros j p' cs' Hij Hp' Hcs'. apply (chain_ext (chained m)); [|apply (Hc j); [lia|done|done]]. intros x Hx. apply Hch1. intros Hxc. apply (Hn2 x Hxc). apply elem_of_app. left. apply list_elem_of_join. exists cs'. split; [done|].
        apply list_elem_of_lookup_2 with (j - S i)%nat. rewrite lookup_drop. by replace (S i + (j - S i))%nat with j by lia.
      * intros x Hx. destruct (Hh x Hx) as (h & Hhx & Hr). exists h. by rewrite (same_hash _ _ _ Hd1).
      * rewrite Hperm. apply NoDup_app. split_and!; [done|done|done].
      * exists lists2, m2, css2. rewrite E2. split; [do 2 f_equal; lia|]. split; [done|]. split; [by rewrite Hj2, Hperm, app_assoc|]. split; [intros x; by rewrite Hd2|]. intros x. destruct (Hl2 x) as [-> ->]. apply Hl1.
Qed.

Lemma empty_buckets k m : 2 <= k <= 31 -> buckets_ok (2 ^ k) (replicate (Z.to_nat (2 ^ k)) 0) m (replicate (Z.to_nat (2 ^ k)) []) /\ mjoin (replicate (Z.to_nat (2 ^ k)) (@nil Z)) = [].
Proof.
  intros Hk. pose proof (Z.pow_pos_nonneg 2 k ltac:(lia) ltac:(lia)). assert (Hj : forall n, mjoin (replicate n (@nil Z)) = []) by (induction n; [done|]; cbn; done). split; [|apply Hj]. split.
  - by exists k.
  - rewrite length_replicate. lia.
  - by rewrite !length_replicate.
  - intros i p cs [-> _]%lookup_replicate [-> _]%lookup_replicate. done.
  - intros i cs c [-> _]%lookup_replicate. set_solver.
  - rewrite Hj. constructor.
Qed.

Lemma Resize_ok t m css : length css = length (list_ t) -> lenZ (list_ t) = length_ t -> (forall i p cs, list_ t !! i = Some p -> css !! i = Some cs -> chain (chained m) p cs) -> (forall c, c ∈ mjoin css -> hashed m c) ->
  NoDup (mjoin css) -> elems_ t = lenZ (mjoin css) -> elems_ t <= 2 ^ 31 ->
  exists t' m' css', Resize t m = Some (t', m') /\ buckets_ok (length_ t') (list_ t') m' css' /\ elems_ t' = elems_ t /\ mjoin css' ≡ₚ mjoin css /\ same_data m m' /\ same_links m m'.
Proof.
  intros Hcl Hlen Hc Hh Hnd He Hmax. unfold Resize. change (grow_length 31 4 (elems_ t)) with (grow_length 31 (2 ^ 2) (elems_ t)). destruct (grow_length_ok 31 2 (elems_ t)) as (k & Hk & ->); [lia|lia|lia|]. destruct (empty_buckets k m Hk) as [Hb Hj].
  destruct (rehash_ok (Z.to_nat (length_ t)) t 0 k (replicate (Z.to_nat (2 ^ k)) 0) m css (replicate (Z.to_nat (2 ^ k)) []) 0) as (lists' & m' & css' & -> & Hb' & Hj' & Hd & Hl); [lia|done|done| |done| |lia| |].
  - intros j p cs _. apply Hc.
  - by rewrite Hj, app_nil_r, drop_0.
  - rewrite drop_0. lia.
  - rewrite drop_0 in *. rewrite He, Z.add_0_l, Z.eqb_refl. cbn [negb]. eexists _, m', css'. split; [done|]. cbn [length_ list_ elems_]. split; [done|]. split; [done|]. split; [by rewrite Hj', Hj, app_nil_r|done].
Qed.

(** ** The table as a set of handles *)

Definition table_ok (t : HandleTable) (m : heap) (ids : list Z) : Prop := exists css, buckets_ok (length_ t) (list_ t) m css /\ ids ≡ₚ mjoin css /\ elems_ t = lenZ ids.

Section Table.
Context (H : list Z -> Z) (HH : forall k, 0 <= H k < 2 ^ 32).

(** The handles have the hashes of their keys, and no two the same key. *)
Record keyed (m : heap) (ids : list Z) : Prop := mkKeyed {
  kd_hash : forall c, c ∈ ids -> exists k, key_at m c = Some k /\ hash_of m c = Some (H k);
  kd_uniq : forall a b, a ∈ ids -> b ∈ ids -> key_at m a = key_at m b -> a = b;
  kd_self : forall c, c ∈ ids -> nxt m c <> Some c;
}.
Definition absent (m : heap) (key : list Z) (ids : list Z) : Prop := forall c, c ∈ ids -> key_at m c <> Some key.

Lemma table_nodup t m ids : table_ok t m ids -> NoDup ids.
Proof. intros (css & Hb & -> & _). apply (bo_nodup _ _ _ _ Hb). Qed.

Lemma table_perm t m ids ids' : ids ≡ₚ ids' -> table_ok t m ids -> table_ok t m ids'.
Proof. intros Hp (css & Hb & Hj & He). exists css. split; [done|]. by rewrite <- Hp. Qed.

Lemma table_frame t m m' ids : table_ok t m ids -> (forall c, c ∈ ids -> hash_of m' c = hash_of m c /\ chained m' c = chained m c) -> table_ok t m' ids.
Proof. intros (css & Hb & Hj & He) Hc. exists css. split; [|done]. apply (buckets_frame _ _ m); [done|]. intros c Hin. apply Hc. by rewrite Hj. Qed.

Lemma keyed_frame m m' ids : keyed m ids -> same_data m m' -> (forall c, c ∈ ids -> nxt m' c = nxt m c) -> keyed m' ids.
Proof.
  intros [H1 H2 H3] Hd Hn. split.
  - intros c Hc. rewrite (same_key _ _ _ Hd), (same_hash _ _ _ Hd). by apply H1.
  - intros a b Ha Hb. rewrite !(same_key _ _ _ Hd). by apply H2.
  - intros c Hc. rewrite Hn by done. by apply H3.
Qed.

(** The pointer that is found: to the handle with the key, if there is one. *)
Lemma find_ids t m ids css key : buckets_ok (length_ t) (list_ t) m css -> ids ≡ₚ mjoin css -> keyed m ids ->
  exists p pre rest, let i := bucket (length_ t) (H key) in list_ t !! i = Some p /\ css !! i = Some (pre ++ rest) /\ chain (chained m) p (pre ++ rest)
  /\ FindPointer t m key (H key) = Some (slot_after i pre) /\ read_slot t m (slot_after i pre) = Some (first rest)
  /\ match rest with [] => absent m key ids | c :: _ => c ∈ ids /\ c <> 0 /\ key_at m c = Some key end.
Proof.
  intros Hb Hj Hk. destruct (FindPointer_ok t m css key (H key)) as (p & pre & rest & Hp & Hcs & Hc & H1 & H2 & H3 & H4); [done|apply HH|intros c Hin; apply (kd_self _ _ Hk); by rewrite Hj|].
  exists p, pre, rest. cbn zeta. split_and!; [done..|]. destruct rest as [|c rest].
  - intros c Hin Hkey. destruct (kd_hash _ _ Hk c Hin) as (k & Hk1 & Hk2). rewrite Hkey in Hk1. injection Hk1 as <-. rewrite Hj in Hin. apply list_elem_of_join in Hin as (cs & Hin & [j Hcs']%list_elem_of_lookup).
    destruct (bo_hash _ _ _ _ Hb _ _ _ Hcs' Hin) as (h & Hh & _ & Hbk). rewrite Hk2 in Hh. injection Hh as <-. subst j. rewrite Hcs' in Hcs. injection Hcs as ->. rewrite app_nil_r in Hin. by apply (H1 c Hin).
  - split; [rewrite Hj; apply (elem_of_mjoin _ _ _ _ Hcs); set_solver|]. split; [|by apply (H2 c)]. clear -Hc. revert p Hc. induction pre as [|x pre IH]; intros p; [by intros (_ & ? & _)|]. intros (_ & _ & r & _ & Hr). by apply (IH r).
Qed.

Lemma Table_Lookup_ok t m ids key : table_ok t m ids -> keyed m ids ->
  (absent m key ids /\ Table_Lookup t m key (H key) = Some 0) \/ exists c, c ∈ ids /\ c <> 0 /\ key_at m c = Some key /\ Table_Lookup t m key (H key) = Some c.
Proof.
  intros (css & Hb & Hj & _) Hk. destruct (find_ids t m ids css key Hb Hj Hk) as (p & pre & rest & _ & _ & _ & Hf & Hr & Hm). unfold Table_Lookup. rewrite Hf, Hr. destruct rest as [|c rest]; [by left|]. right. exists c. by destruct Hm as (? & ? & ?).
Qed.

Lemma Table_Remove_ok t m ids key : table_ok t m ids -> keyed m ids -> lenZ ids < 2 ^ 32 ->
  (absent m key ids /\ Table_Remove key (H key) t m = Some (0, t, m))
  \/ exists c ids' t' m', Table_Remove key (H key) t m = Some (c, t', m') /\ c <> 0 /\ ids ≡ₚ c :: ids' /\ key_at m c = Some key /\ table_ok t' m' ids' /\ same_data m m' /\ same_links m m'.
Proof.
  intros (css & Hb & Hj & He) Hk Hlen. destruct (find_ids t m ids css key Hb Hj Hk) as (p & pre & rest & Hp & Hcs & Hc & Hf & Hr & Hm). unfold Table_Remove. rewrite Hf, Hr. destruct rest as [|c rest]; [by left|]. right.
  destruct Hm as (Hin & Hc0 & Hkey). cbn [head default from_option id]. rewrite (proj2 (Z.eqb_neq c 0)) by done. destruct (chain_at _ _ _ _ _ Hc) as (q & Hq & Hrest). destruct (mjoin_insert _ _ _ Hcs) as (l1 & l2 & Hj1 & Hj2).
  pose proof (bo_nodup _ _ _ _ Hb) as Hnd. assert (Hperm : mjoin css ≡ₚ c :: mjoin (<[bucket (length_ t) (H key) := pre ++ rest]> css)).
  { rewrite Hj1, Hj2. rewrite <- !app_assoc. cbn [app]. by rewrite <- !Permutation_middle. }
  destruct (write_slot_ok t m css (bucket (length_ t) (H key)) p pre (c :: rest) q rest) as (t' & m' & E & Hl' & He' & Hb' & Hd & Hls); [done|done|done|done| | |].
  - intros x Hx. apply (bo_hash _ _ _ _ Hb _ _ _ Hcs). set_solver.
  - rewrite Hperm in Hnd. by apply NoDup_cons in Hnd as [_ ?].
  - unfold chained in Hq. destruct (m !! c) as [e|]; [|done]. cbn in Hq. injection Hq as ->. rewrite E. eexists c, _, _, m'. split; [done|]. split; [done|]. split; [by rewrite Hj, Hperm|]. split; [done|]. split; [|done].
    eexists. cbn [length_ list_ elems_]. rewrite Hl'. split; [exact Hb'|]. split; [done|]. assert (Hlen' : lenZ ids = 1 + lenZ (mjoin (<[bucket (length_ t) (H key) := pre ++ rest]> css))) by (rewrite Hj, Hperm; cbn [length]; lia). rewrite He', He, Hlen', uwrap_small by lia. lia.
Qed.

(** The chains with [h] in the place of [rest]'s first handle, if it has one. *)
Lemma insert_chain t m css i p pre rest h hh : buckets_ok (length_ t) (list_ t) m css -> list_ t !! i = Some p -> css !! i = Some (pre ++ rest) -> h ∉ mjoin css -> h <> 0 -> hash_of m h = Some hh -> 0 <= hh < 2 ^ 32 -> bucket (length_ t) hh = i ->
  exists m1 t' m', store (set_next_hash (first (tail rest))) h m = Some m1 /\ write_slot (slot_after i pre) h t m1 = Some (t', m') /\ length_ t' = length_ t /\ elems_ t' = elems_ t
  /\ buckets_ok (length_ t) (list_ t') m' (<[i := pre ++ h :: tail rest]> css) /\ same_data m m' /\ same_links m m'.
Proof.
  intros Hb Hp Hcs Hh Hh0 Hhh Hr Hi. destruct (store_next_hash m h (first (tail rest))) as (m1 & E1 & Hd1 & Hl1 & Hc1); [unfold hash_of in Hhh; destruct (m !! h); [by eexists|done]|].
  assert (Hb1 : buckets_ok (length_ t) (list_ t) m1 css) by (apply (buckets_frame _ _ m); [done|]; intros c Hc; rewrite (same_hash _ _ _ Hd1), Hc1, decide_False; [done|by intros ->]).
  destruct (mjoin_insert _ _ _ Hcs) as (l1 & l2 & Hj1 & Hj2). pose proof (bo_nodup _ _ _ _ Hb) as Hnd. pose proof (bo_chain _ _ _ _ Hb1 _ _ _ Hp Hcs) as Hch.
  destruct (write_slot_ok t m1 css i p pre rest h (h :: tail rest)) as (t' & m' & E & Hl' & He' & Hb' & Hd & Hls); [done|done|done| | | |].
  - split; [done|]. split; [done|]. eexists. split; [by rewrite Hc1, decide_True|]. destruct rest as [|c rest]; [done|]. apply chain_at in Hch as (q & _ & Hch). cbn [tail]. by rewrite <- (chain_first _ _ _ Hch).
  - intros c [->|Hc]%elem_of_cons; [exists hh; by rewrite (same_hash _ _ _ Hd1)|]. apply (bo_hash _ _ _ _ Hb1 _ _ _ Hcs). destruct rest; cbn in Hc; set_solver.
  - rewrite Hj2. rewrite Hj1 in Hnd, Hh. rewrite <- app_assoc. cbn [app]. rewrite <- !Permutation_middle. apply NoDup_cons. destruct rest as [|c rest]; cbn [tail]; [split; [set_solver|]; by rewrite <- app_assoc in Hnd|]. split; [set_solver|].
    rewrite <- app_assoc in Hnd. cbn [app] in Hnd. rewrite <- !Permutation_middle in Hnd. by apply NoDup_cons in Hnd as [_ ?].
  - exists m1, t', m'. split_and!; [done..| |]; [intros x; by rewrite Hd|]. intros x. destruct (Hls x) as [-> ->]. apply Hl1.
Qed.

Lemma Table_Insert_ok t m ids h key : table_ok t m ids -> keyed m ids -> h ∉ ids -> h <> 0 -> key_at m h = Some key -> hash_of m h = Some (H key) -> nxt m h <> Some h -> lenZ ids < 2 ^ 31 ->
  exists old ids' t' m', Table_Insert h t m = Some (old, t', m') /\ table_ok t' m' (h :: ids') /\ same_data m m' /\ same_links m m'
  /\ ((old = 0 /\ absent m key ids /\ ids' = ids) \/ (old <> 0 /\ ids ≡ₚ old :: ids' /\ key_at m old = Some key)).
Proof.
  intros (css & Hb & Hj & He) Hk Hh Hh0 Hkey Hhash Hself Hlen. destruct (find_ids t m ids css key Hb Hj Hk) as (p & pre & rest & Hp & Hcs & Hc & Hf & Hr & Hm). unfold Table_Insert.
  destruct (insert_chain t m css (bucket (length_ t) (H key)) p pre rest h (H key)) as (m1 & t1 & m2 & E1 & E2 & Hl2 & He2 & Hb2 & Hd2 & Hls2); [done|done|done|by rewrite <- Hj|done|done|done|done|].
  unfold key_at, hash_of, nxt in Hkey, Hhash, Hself. destruct (m !! h) as [e|] eqn:Ee; [|done]. cbn in Hkey, Hhash, Hself. injection Hkey as Hkey. injection Hhash as Hhash. unfold handle_key. rewrite (proj2 (Z.eqb_neq (next e) h)) by congruence. rewrite Hkey, Hhash, Hf, Hr.
  destruct (mjoin_insert _ _ _ Hcs) as (l1 & l2 & Hj1 & Hj2). destruct rest as [|c rest]; cbn [head default from_option id tail] in *.
  - cbn [Z.eqb]. rewrite E1, E2, Hl2, He2. assert (Hperm : h :: ids ≡ₚ mjoin (<[bucket (length_ t) (H key) := pre ++ [h]]> css)) by (rewrite Hj, Hj1, Hj2; rewrite <- !app_assoc; cbn [app]; by rewrite <- !Permutation_middle).
    assert (Hel : u32 (elems_ t + 1) = lenZ (h :: ids)) by (rewrite He, uwrap_small by lia; cbn [length]; lia). rewrite Hel. cbn [length_ elems_]. zcase.
    + destruct (Resize_ok (mkTable (length_ t) (lenZ (h :: ids)) (list_ t1)) m2 (<[bucket (length_ t) (H key) := pre ++ [h]]> css)) as (t3 & m3 & css3 & E3 & Hb3 & He3 & Hj3 & Hd3 & Hls3); cbn [length_ elems_ list_].
      * apply (bo_css _ _ _ _ Hb2).
      * apply (bo_lists _ _ _ _ Hb2).
      * apply (bo_chain _ _ _ _ Hb2).
      * intros x Hx. apply list_elem_of_join in Hx as (cs & Hx & [j Hcs']%list_elem_of_lookup). destruct (bo_hash _ _ _ _ Hb2 _ _ _ Hcs' Hx) as (hx & Hhx & Hrx & _). by exists hx.
      * apply (bo_nodup _ _ _ _ Hb2).
      * by rewrite Hperm.
      * cbn [length]. lia.
      * rewrite E3. eexists 0, ids, t3, m3. split; [done|]. split; [exists css3; split_and!; [done|by rewrite Hperm, Hj3|by rewrite He3]|]. split; [intros x; by rewrite Hd3|]. split; [intros x; destruct (Hls3 x) as [-> ->]; apply Hls2|]. by left.
    + eexists 0, ids, _, m2. split; [done|]. split; [eexists; cbn [length_ list_ elems_]; split_and!; [exact Hb2|exact Hperm|done]|]. split; [done|]. split; [done|]. by left.
  - destruct Hm as (Hin & Hc0 & Hkc). rewrite (proj2 (Z.eqb_neq c 0)) by done. destruct (chain_at _ _ _ _ _ Hc) as (q & Hq & Hrest). unfold chained in Hq. rewrite Hq, (chain_first _ _ _ Hrest), E1, E2.
    assert (Hperm : mjoin css ≡ₚ c :: l1 ++ pre ++ rest ++ l2) by (rewrite Hj1; rewrite <- !app_assoc; cbn [app]; by rewrite <- !Permutation_middle).
    eexists c, (l1 ++ pre ++ rest ++ l2), t1, m2. split; [done|]. split; [eexists; split_and!; [rewrite Hl2; exact Hb2| |]|].
    + rewrite Hj2. rewrite <- !app_assoc. cbn [app]. by rewrite <- !Permutation_middle.
    + rewrite He2, He, Hj, Hperm. done.
    + split; [done|]. split; [done|]. right. split; [done|]. split; [by rewrite Hj, Hperm|done].
Qed.
End Table.
