(* ===== verification/LdbLruSpec.v ===== *)
(** * What the cache promises

    The specification of a shard of the cache of LdbCache.v (util/cache.cc of
    src/ext/leveldb), [spec], knows no memory: a list of entries from the oldest to the
    newest, and the entries that have left the cache and are still held.  The calls of a
    client name a handle by the call that returned it. *)

From S2P Require Import Prelude.
From Stdlib Require Import ZArith Lia.
From stdpp Require Import base list gmap numbers option fin_maps.
Open Scope Z_scope.

(** ** The specification *)

(** An entry, numbered in the order of the insertions; [held] counts the handles that clients
    have. *)
Record entry := mkCached { serial : nat; ce_key : list Z; ce_value : Z; ce_charge : Z; held : nat }.
Definition set_held (n : nat) (e : entry) : entry := mkCached (serial e) (ce_key e) (ce_value e) (ce_charge e) n.

(** [sp_cached] from the oldest to the newest, [sp_loose] those that are only held. *)
Record spec := mkSpec { sp_cached : list entry; sp_loose : list entry; sp_next : nat; sp_deleted : list (list Z * Z) }.
Definition spec_new : spec := mkSpec [] [] 0 [].

Definition sum_charges (l : list entry) : Z := foldr (fun e n => ce_charge e + n) 0 l.

(** An entry leaves the cache: it is deleted, unless it is held. *)
Definition sp_drop (e : entry) (s : spec) : spec :=
  if decide (held e = O) then mkSpec (sp_cached s) (sp_loose s) (sp_next s) (sp_deleted s ++ [(ce_key e, ce_value e)])
  else mkSpec (sp_cached s) (sp_loose s ++ [e]) (sp_next s) (sp_deleted s).

(** The entry of a key, with those before it and behind it. *)
Fixpoint split_key (key : list Z) (l : list entry) : option (list entry * entry * list entry) :=
  match l with
  | [] => None
  | e :: l => if bool_decide (ce_key e = key) then Some ([], e, l) else let* (l1, x, l2) := split_key key l in Some (e :: l1, x, l2)
  end.
Fixpoint split_serial (n : nat) (l : list entry) : option (list entry * entry * list entry) :=
  match l with
  | [] => None
  | e :: l => if bool_decide (serial e = n) then Some ([], e, l) else let* (l1, x, l2) := split_serial n l in Some (e :: l1, x, l2)
  end.

Definition sp_lookup (key : list Z) (s : spec) : option nat * spec :=
  match split_key key (sp_cached s) with
  | Some (l1, e, l2) => (Some (serial e), mkSpec (l1 ++ l2 ++ [set_held (S (held e)) e]) (sp_loose s) (sp_next s) (sp_deleted s))
  | None => (None, s)
  end.

(** [None] if nobody holds the entry. *)
Definition sp_release (n : nat) (s : spec) : option spec :=
  match split_serial n (sp_cached s), split_serial n (sp_loose s) with
  | Some (l1, e, l2), _ => if decide (held e = O) then None else Some (mkSpec (l1 ++ set_held (pred (held e)) e :: l2) (sp_loose s) (sp_next s) (sp_deleted s))
  | None, Some (l1, e, l2) =>
      if decide (held e = O) then None
      else Some (if decide (held e = 1%nat) then mkSpec (sp_cached s) (l1 ++ l2) (sp_next s) (sp_deleted s ++ [(ce_key e, ce_value e)])
        else mkSpec (sp_cached s) (l1 ++ set_held (pred (held e)) e :: l2) (sp_next s) (sp_deleted s))
  | None, None => None
  end.

(** The oldest entries leave while there are more than fit. *)
Fixpoint sp_evict (capacity : Z) (cached : list entry) (s : spec) : spec :=
  match cached with
  | [] => mkSpec [] (sp_loose s) (sp_next s) (sp_deleted s)
  | e :: rest =>
      if capacity <? u64 (sum_charges (cached ++ sp_loose s)) then sp_evict capacity rest (sp_drop e s)
      else mkSpec cached (sp_loose s) (sp_next s) (sp_deleted s)
  end.

Definition sp_erase (key : list Z) (s : spec) : spec :=
  match split_key key (sp_cached s) with
  | Some (l1, e, l2) => sp_drop e (mkSpec (l1 ++ l2) (sp_loose s) (sp_next s) (sp_deleted s))
  | None => s
  end.
Definition sp_insert (capacity : Z) (key : list Z) (value chg : Z) (s : spec) : nat * spec :=
  let s1 := sp_erase key s in
  let s2 := mkSpec (sp_cached s1 ++ [mkCached (sp_next s) key value chg 1]) (sp_loose s1) (S (sp_next s)) (sp_deleted s1) in
  (sp_next s, sp_evict capacity (sp_cached s2) s2).

(** ** Clients *)

(** A client names the handle it releases by the call that returned it. *)
Inductive call := CLookup (key : list Z) | CInsert (key : list Z) (value chg : Z) | CRelease (k : nat) | CErase (key : list Z).

Fixpoint spec_calls (capacity : Z) (calls : list call) (handles : list (option nat)) (s : spec) : option (list (option nat) * spec) :=
  match calls with
  | [] => Some (handles, s)
  | CLookup key :: calls => let '(n, s) := sp_lookup key s in spec_calls capacity calls (handles ++ [n]) s
  | CInsert key value chg :: calls => let '(n, s) := sp_insert capacity key value chg s in spec_calls capacity calls (handles ++ [Some n]) s
  | CRelease k :: calls =>
      match handles !! k with
      | Some (Some n) => let* s := sp_release n s in spec_calls capacity calls (handles ++ [None]) s
      | _ => None
      end
  | CErase key :: calls => spec_calls capacity calls (handles ++ [None]) (sp_erase key s)
  end.

(** The value of an entry. *)
Definition sp_value (n : nat) (s : spec) : option Z := let* (_, e, _) := split_serial n (sp_cached s ++ sp_loose s) in Some (ce_value e).

(** ** Lists of entries *)

Lemma sum_perm l1 l2 : l1 ≡ₚ l2 -> sum_charges l1 = sum_charges l2.
Proof. induction 1; cbn [sum_charges foldr] in *; repeat fold (sum_charges _) in *; fold sum_charges in *; unfold sum_charges in *; lia. Qed.

Lemma split_key_Some key l l1 e l2 : split_key key l = Some (l1, e, l2) -> l = l1 ++ e :: l2 /\ ce_key e = key.
Proof.
  revert l1. induction l as [|x l IH]; intros l1; cbn [split_key]; [done|]. case_bool_decide; [by intros [= <- <- <-]|]. destruct (split_key key l) as [[[l1' e'] l2']|]; [|done]. intros [= <- <- <-]. destruct (IH l1' eq_refl) as [-> ?]. done.
Qed.
Lemma split_key_None key l : split_key key l = None -> forall e, e ∈ l -> ce_key e <> key.
Proof.
  induction l as [|x l IH]; cbn [split_key]; [set_solver|]. case_bool_decide; [done|]. destruct (split_key key l) as [[[l1' e'] l2']|]; [done|]. intros _ e [->|He]%elem_of_cons; [done|by apply IH].
Qed.
Lemma split_serial_Some k l l1 e l2 : split_serial k l = Some (l1, e, l2) -> l = l1 ++ e :: l2 /\ serial e = k.
Proof.
  revert l1. induction l as [|x l IH]; intros l1; cbn [split_serial]; [done|]. case_bool_decide; [by intros [= <- <- <-]|]. destruct (split_serial k l) as [[[l1' e'] l2']|]; [|done]. intros [= <- <- <-]. destruct (IH l1' eq_refl) as [-> ?]. done.
Qed.

Lemma sp_next_mono s : (forall key, sp_next (sp_lookup key s).2 = sp_next s) /\ (forall key, sp_next (sp_erase key s) = sp_next s) /\ (forall k s', sp_release k s = Some s' -> sp_next s' = sp_next s) /\ forall cap key value chg, sp_next (sp_insert cap key value chg s).2 = S (sp_next s).
Proof.
  assert (Hdrop : forall e s, sp_next (sp_drop e s) = sp_next s) by (intros e s0; unfold sp_drop; by destruct (decide _)). split_and!.
  - intros key. unfold sp_lookup. by destruct (split_key key (sp_cached s)) as [[[l1 e] l2]|].
  - intros key. unfold sp_erase. destruct (split_key key (sp_cached s)) as [[[l1 e] l2]|]; [|done]. by rewrite Hdrop.
  - intros k s'. unfold sp_release. destruct (split_serial k (sp_cached s)) as [[[l1 e] l2]|]; [destruct (decide _); [done|]; by intros [= <-]|]. destruct (split_serial k (sp_loose s)) as [[[l1 e] l2]|]; [|done]. destruct (decide (held e = O)); [done|]. intros [= <-]. by destruct (decide (held e = 1%nat)).
  - intros cap key value chg. unfold sp_insert. cbn [snd]. assert (Hev : forall l s, sp_next (sp_evict cap l s) = sp_next s) by (induction l as [|e l IH]; intros s0; cbn [sp_evict]; [done|]; case_match; [by rewrite IH, Hdrop|done]). by rewrite Hev.
Qed.

(** ** What the specification says of the calls *)

(** The calls that end the life of what was inserted for a key before. *)
Definition touches (key : list Z) (c : call) : Prop := match c with CInsert k _ _ => k = key | CErase k => k = key | _ => False end.
Definition untouched (calls : list call) (key : list Z) (j i : nat) : Prop := forall l c, (j < l < i)%nat -> calls !! l = Some c -> ~ touches key c.

(** A lookup that finds something finds what was last inserted for the key, and it was not
    erased since. *)
Definition coherent (calls : list call) (hs : list (option nat)) : Prop := forall i key n, calls !! i = Some (CLookup key) -> hs !! i = Some (Some n) ->
  exists j v chg, (j < i)%nat /\ calls !! j = Some (CInsert key v chg) /\ hs !! j = Some (Some n) /\ untouched calls key j i.

(** How often the handle of an entry was returned and released. *)
Definition acquired (n : nat) (hs : list (option nat)) : nat := length (List.filter (fun h => bool_decide (h = Some n)) hs).
Definition releases (n : nat) (hs : list (option nat)) (c : call) : bool := match c with CRelease k => bool_decide (hs !! k = Some (Some n)) | _ => false end.
Definition released (n : nat) (hs : list (option nat)) (calls : list call) : nat := length (List.filter (releases n hs) calls).

Definition count_held (n : nat) (l : list entry) : nat := foldr (fun e k => (if decide (serial e = n) then held e else O) + k)%nat O l.

Lemma count_app n l1 l2 : count_held n (l1 ++ l2) = (count_held n l1 + count_held n l2)%nat.
Proof. induction l1 as [|e l1 IH]; [done|]. cbn [app count_held foldr]. fold (count_held n (l1 ++ l2)). fold (count_held n l1). lia. Qed.
Lemma count_cons n e l : count_held n (e :: l) = ((if decide (serial e = n) then held e else O) + count_held n l)%nat.
Proof. done. Qed.

(** An entry with another count of handles. *)
Definition stems (e e' : entry) : Prop := serial e' = serial e /\ ce_key e' = ce_key e /\ ce_value e' = ce_value e /\ ce_charge e' = ce_charge e.

(** A step that adds no entries: what is cached was cached, what there is was there. *)
Record shrinks (s s' : spec) : Prop := mkShrinks {
  sh_cached : forall e', e' ∈ sp_cached s' -> exists e, e ∈ sp_cached s /\ stems e e';
  sh_loose : forall e', e' ∈ sp_loose s' -> exists e, e ∈ sp_cached s ++ sp_loose s /\ stems e e';
  sh_next : sp_next s' = sp_next s;
}.

Lemma shrinks_refl s : shrinks s s.
Proof. split; [| |done]; intros e He; exists e; (split; [set_solver|done]). Qed.

Lemma shrinks_drop l1 e l2 loose next del : shrinks (mkSpec (l1 ++ e :: l2) loose next del) (sp_drop e (mkSpec (l1 ++ l2) loose next del)).
Proof.
  unfold sp_drop. cbn [sp_cached sp_loose sp_next sp_deleted]. destruct (decide (held e = O)); (split; cbn [sp_cached sp_loose sp_next sp_deleted]; [| |done]); intros a Ha; exists a; (split; [set_solver|done]).
Qed.

Lemma shrinks_trans s1 s2 s3 : shrinks s1 s2 -> shrinks s2 s3 -> shrinks s1 s3.
Proof.
  intros [A1 A2 A3] [B1 B2 B3]. split; [| |congruence].
  - intros e (b & Hb & Sb)%B1. destruct (A1 b Hb) as (a & Ha & Sa). exists a. split; [done|]. unfold stems in *. naive_solver congruence.
  - intros e (b & Hb & Sb)%B2. apply elem_of_app in Hb as [Hb|Hb]; [destruct (A1 b Hb) as (a & Ha & Sa)|destruct (A2 b Hb) as (a & Ha & Sa)]; exists a; (split; [set_solver|]); unfold stems in *; naive_solver congruence.
Qed.

Lemma drop_count n e s : count_held n (sp_cached (sp_drop e s) ++ sp_loose (sp_drop e s)) = (count_held n (sp_cached s ++ sp_loose s) + if decide (serial e = n) then held e else O)%nat.
Proof. unfold sp_drop. destruct (decide (held e = O)) as [H0|]; cbn [sp_cached sp_loose]; rewrite ?count_app, ?count_cons; cbn [count_held foldr]; [rewrite H0|]; case_decide; lia. Qed.

Lemma erase_shrinks key s : shrinks s (sp_erase key s) /\ forall n, count_held n (sp_cached (sp_erase key s) ++ sp_loose (sp_erase key s)) = count_held n (sp_cached s ++ sp_loose s).
Proof.
  unfold sp_erase. destruct (split_key key (sp_cached s)) as [[[l1 e] l2]|] eqn:E; [|split; [apply shrinks_refl|done]]. apply split_key_Some in E as [E _]. split.
  - pose proof (shrinks_drop l1 e l2 (sp_loose s) (sp_next s) (sp_deleted s)) as Hs. rewrite <- E in Hs. by destruct s.
  - intros n. rewrite drop_count. cbn [sp_cached sp_loose]. rewrite E, !count_app, count_cons. lia.
Qed.

Lemma erase_absent key s : NoDup (ce_key <$> sp_cached s) -> forall e, e ∈ sp_cached (sp_erase key s) -> ce_key e <> key.
Proof.
  intros Hnd e. unfold sp_erase. destruct (split_key key (sp_cached s)) as [[[l1 x] l2]|] eqn:E; [|by apply (split_key_None _ _ E)]. apply split_key_Some in E as [E Ek]. rewrite E, fmap_app, fmap_cons, <- Permutation_middle, <- fmap_app in Hnd. apply NoDup_cons in Hnd as [Hnd _].
  unfold sp_drop. intros He Hk. apply Hnd. rewrite Ek, <- Hk. apply list_elem_of_fmap_2. by destruct (decide (held x = O)).
Qed.

Lemma evict_shrinks cap l s : shrinks (mkSpec l (sp_loose s) (sp_next s) (sp_deleted s)) (sp_evict cap l s) /\ forall n, count_held n (sp_cached (sp_evict cap l s) ++ sp_loose (sp_evict cap l s)) = count_held n (l ++ sp_loose s).
Proof.
  revert s. induction l as [|e l IH]; intros s; cbn [sp_evict]; [split; [apply shrinks_refl|done]|]. zcase; [|split; [apply shrinks_refl|done]]. destruct (IH (sp_drop e s)) as [H1 H2]. split.
  - eapply shrinks_trans; [apply (shrinks_drop [] e l)|]. unfold sp_drop in *. cbn [sp_cached sp_loose sp_next sp_deleted app] in *. by destruct (decide (held e = O)).
  - intros n. rewrite H2. pose proof (drop_count n e s) as Hd. rewrite !count_app in *. rewrite count_cons. assert (Hc : sp_cached (sp_drop e s) = sp_cached s) by (unfold sp_drop; by destruct (decide (held e = O))). rewrite Hc in Hd. lia.
Qed.

(** What holds of the calls [past], which returned [hs], in the state [s] they led to. *)
Record history (past : list call) (hs : list (option nat)) (s : spec) : Prop := mkHistory {
  hi_len : length hs = length past;
  hi_next : forall i k, hs !! i = Some (Some k) -> (k < sp_next s)%nat;
  hi_rel : forall i k, past !! i = Some (CRelease k) -> (k < length past)%nat;
  hi_from : forall e, e ∈ sp_cached s ++ sp_loose s -> exists j, past !! j = Some (CInsert (ce_key e) (ce_value e) (ce_charge e)) /\ hs !! j = Some (Some (serial e));
  hi_once : forall i j k v c k' v' c' n, past !! i = Some (CInsert k v c) -> past !! j = Some (CInsert k' v' c') -> hs !! i = Some (Some n) -> hs !! j = Some (Some n) -> i = j;
  hi_last : forall e j k v c, e ∈ sp_cached s -> past !! j = Some (CInsert k v c) -> hs !! j = Some (Some (serial e)) -> untouched past (ce_key e) j (length past);
  hi_keys : NoDup (ce_key <$> sp_cached s);
  hi_lookup : coherent past hs;
  hi_held : forall n, (count_held n (sp_cached s ++ sp_loose s) + released n hs past = acquired n hs)%nat;
}.

Definition one (b : bool) : nat := if b then 1%nat else O.

Lemma filter_snoc {A} (f : A -> bool) l x : length (List.filter f (l ++ [x])) = (length (List.filter f l) + one (f x))%nat.
Proof. rewrite List.filter_app, length_app. cbn. by destruct (f x). Qed.

Lemma untouched_snoc calls c key j i : untouched calls key j i -> (i <= length calls)%nat -> untouched (calls ++ [c]) key j i.
Proof. intros Hu Hi l x Hl Hx. rewrite lookup_app_l in Hx by lia. by apply (Hu l). Qed.

Lemma history_step past hs s c h s' : history past hs s ->
  (sp_next s <= sp_next s')%nat -> (forall k, h = Some k -> (k < sp_next s')%nat) -> (forall k, c = CRelease k -> (k < length past)%nat) ->
  (forall e', e' ∈ sp_cached s' ++ sp_loose s' -> (exists e, e ∈ sp_cached s ++ sp_loose s /\ stems e e') \/ (c = CInsert (ce_key e') (ce_value e') (ce_charge e') /\ h = Some (serial e'))) ->
  (forall k v chg n, c = CInsert k v chg -> h = Some n -> (sp_next s <= n)%nat) ->
  (forall e', e' ∈ sp_cached s' -> (exists e, e ∈ sp_cached s /\ stems e e' /\ ~ touches (ce_key e') c) \/ (c = CInsert (ce_key e') (ce_value e') (ce_charge e') /\ h = Some (serial e'))) ->
  NoDup (ce_key <$> sp_cached s') -> (forall key n, c = CLookup key -> h = Some n -> exists e, e ∈ sp_cached s /\ ce_key e = key /\ serial e = n) ->
  (forall n, (count_held n (sp_cached s' ++ sp_loose s') + one (releases n hs c) = count_held n (sp_cached s ++ sp_loose s) + one (bool_decide (h = Some n)))%nat) ->
  history (past ++ [c]) (hs ++ [h]) s'.
Proof.
  intros [H1 H2 H3 H4 H5 H6 H7 H8 H9] Hnx Hh Hrel Hfrom Hfresh Hcached Hkeys Hlook Hcount.
  assert (Hold : forall i n, hs !! i = Some (Some n) -> (hs ++ [h]) !! i = Some (Some n)) by (intros i n Hi; rewrite lookup_app_l; [done|by apply lookup_lt_is_Some; eexists]).
  assert (Hpast : forall i x, past !! i = Some x -> (past ++ [c]) !! i = Some x) by (intros i x Hi; rewrite lookup_app_l; [done|by apply lookup_lt_is_Some; eexists]).
  assert (Hins : forall i k v chg n, (past ++ [c]) !! i = Some (CInsert k v chg) -> (hs ++ [h]) !! i = Some (Some n) -> (past !! i = Some (CInsert k v chg) /\ hs !! i = Some (Some n)) \/ (i = length past /\ c = CInsert k v chg /\ h = Some n)).
  { intros i k v chg n [[Hi Hp]|[Hi ->]]%lookup_snoc_Some [[Hj Hq]|[Hj ->]]%lookup_snoc_Some; [by left|lia|lia|by right]. }
  split.
  - rewrite !length_app. cbn. lia.
  - intros i k [[_ Hi]|[_ ->]]%lookup_snoc_Some; [specialize (H2 i k Hi); lia|by apply Hh].
  - intros i k [[_ Hi]|[_ E]]%lookup_snoc_Some; rewrite length_app; [specialize (H3 i k Hi)|specialize (Hrel k E)]; lia.
  - intros e' He'. destruct (Hfrom e' He') as [(e & He & -> & -> & -> & ->)|[-> ->]]; [destruct (H4 e He) as (j & Hj1 & Hj2); exists j; split; [by apply Hpast|by apply Hold]|].
    exists (length past). rewrite lookup_app_r, Nat.sub_diag by lia. split; [done|]. by rewrite lookup_app_r, H1, Nat.sub_diag by lia.
  - intros i j k v x k' v' x' n Hi Hj Hi' Hj'. destruct (Hins _ _ _ _ _ Hi Hi') as [[A1 A2]|(-> & A1 & A2)], (Hins _ _ _ _ _ Hj Hj') as [[B1 B2]|(-> & B1 & B2)]; [by apply (H5 i j k v x k' v' x' n)| | |done].
    + specialize (H2 i n A2). specialize (Hfresh _ _ _ _ B1 B2). lia.
    + specialize (H2 j n B2). specialize (Hfresh _ _ _ _ A1 A2). lia.
  - intros e' j k v x He' Hj Hj'. rewrite length_app, Nat.add_1_r. destruct (Hins _ _ _ _ _ Hj Hj') as [[A1 A2]|(-> & A1 & A2)]; [|intros l y Hl; lia]. destruct (Hcached e' He') as [(e & He & (Es & Ek & Ev & Ec) & Ht)|[B1 B2]].
    + rewrite Es in A2. pose proof (H6 e j k v x He A1 A2) as Hu. rewrite Ek in Ht |- *. intros l y Hl [[Hl' Hy]|[_ <-]]%lookup_snoc_Some; [by apply (Hu l y); [lia|]|done].
    + specialize (H2 j _ A2). specialize (Hfresh _ _ _ _ B1 B2). lia.
  - done.
  - intros i key n [[Hi Hp]|[-> Ec]]%lookup_snoc_Some Hq.
    + rewrite lookup_app_l in Hq by lia. destruct (H8 i key n Hp Hq) as (j & v & chg & Hj & A & B & Hu). exists j, v, chg. split; [done|]. split; [by apply Hpast|]. split; [by apply Hold|]. apply untouched_snoc; [done|lia].
    + rewrite lookup_app_r, H1, Nat.sub_diag in Hq by lia. injection Hq as ->. destruct (Hlook key n Ec eq_refl) as (e & He & <- & <-). destruct (H4 e ltac:(set_solver)) as (j & A & B). exists j, (ce_value e), (ce_charge e). pose proof (lookup_lt_Some _ _ _ A).
      split; [done|]. split; [by apply Hpast|]. split; [by apply Hold|]. apply untouched_snoc; [|lia]. by apply (H6 e j _ _ _ He A B).
  - intros n. unfold released, acquired. rewrite !filter_snoc. assert (Hf : List.filter (releases n (hs ++ [h])) past = List.filter (releases n hs) past).
    { apply List.filter_ext_in. intros x Hx. apply list_elem_of_In, list_elem_of_lookup in Hx as [i Hx]. destruct x as [| |k|]; [done|done| |done]. cbn. specialize (H3 i k Hx). by rewrite lookup_app_l by lia. }
    rewrite Hf. assert (Hr : releases n (hs ++ [h]) c = releases n hs c) by (destruct c as [| |k|]; [done|done| |done]; cbn; specialize (Hrel k eq_refl); by rewrite lookup_app_l by lia). rewrite Hr. specialize (H9 n). specialize (Hcount n). unfold released, acquired in H9. lia.
Qed.

Lemma stems_refl e : stems e e.
Proof. done. Qed.

Lemma history_lookup past hs s key : history past hs s -> history (past ++ [CLookup key]) (hs ++ [(sp_lookup key s).1]) (sp_lookup key s).2.
Proof.
  intros Hi. unfold sp_lookup. destruct (split_key key (sp_cached s)) as [[[l1 e] l2]|] eqn:E.
  - apply split_key_Some in E as [E Ek]. set (e1 := set_held (S (held e)) e). assert (Hin : forall e', e' ∈ l1 ++ l2 ++ [e1] -> exists x, x ∈ sp_cached s /\ stems x e').
    { rewrite E. intros e' He'. assert (H : e' = e1 \/ e' ∈ l1 ++ e :: l2) by set_solver. destruct H as [->|H]; [exists e; split; [set_solver|done]|by exists e']. }
    assert (Hlt : (serial e < sp_next s)%nat). { destruct (hi_from _ _ _ Hi e) as (j & _ & Hj); [rewrite E; set_solver|]. by apply (hi_next _ _ _ Hi j). }
    apply (history_step past hs s); cbn [fst snd sp_next sp_cached sp_loose]; [done|done|by intros k [= <-]|done| |done| | | |].
    + intros e' [He'|He']%elem_of_app; left; [destruct (Hin e' He') as (x & Hx & Hs); exists x; split; [set_solver|done]|exists e'; split; [set_solver|done]].
    + intros e' He'. left. destruct (Hin e' He') as (x & Hx & Hs). exists x. split; [done|]. split; [done|]. intros [].
    + pose proof (hi_keys _ _ _ Hi) as Hk. rewrite E in Hk. rewrite !fmap_app. rewrite fmap_app, fmap_cons, <- Permutation_middle, Permutation_cons_append, <- app_assoc in Hk. exact Hk.
    + intros k n [= <-] [= <-]. exists e. split; [rewrite E; set_solver|done].
    + intros n. cbn [releases one]. rewrite E, !count_app, !count_cons. cbn [count_held foldr]. unfold e1, set_held. cbn [serial held]. unfold one. case_bool_decide as Hb; [injection Hb as Hb; rewrite !decide_True by done; lia|]. rewrite !decide_False by congruence. lia.
  - apply (history_step past hs s); cbn [fst snd]; [done|done|done|done| |done| |apply (hi_keys _ _ _ Hi)|done|].
    + intros e He. left. exists e. by split.
    + intros e He. left. exists e. split; [done|]. split; [done|]. intros [].
    + intros n. cbn [releases]. rewrite bool_decide_false by done. done.
Qed.

Lemma history_erase past hs s key : history past hs s -> history (past ++ [CErase key]) (hs ++ [None]) (sp_erase key s).
Proof.
  intros Hi. destruct (erase_shrinks key s) as [[S1 S2 S3] Hc]. apply (history_step past hs s); [done|by rewrite S3|done|done| |done| | |done|].
  - intros e' [He'|He']%elem_of_app; left; [destruct (S1 e' He') as (x & Hx & Hs); exists x; split; [set_solver|done]|by apply S2].
  - intros e' He'. left. destruct (S1 e' He') as (x & Hx & Hs). exists x. split; [done|]. split; [done|]. cbn. apply not_eq_sym, (erase_absent key s); [apply (hi_keys _ _ _ Hi)|done].
  - pose proof (hi_keys _ _ _ Hi) as Hk. unfold sp_erase. destruct (split_key key (sp_cached s)) as [[[l1 x] l2]|] eqn:E; [|done]. apply split_key_Some in E as [E _]. rewrite E, fmap_app, fmap_cons, <- Permutation_middle, <- fmap_app in Hk. apply NoDup_cons in Hk as [_ Hk]. unfold sp_drop. by destruct (decide (held x = O)).
  - intros n. rewrite Hc. cbn [releases]. rewrite bool_decide_false by done. done.
Qed.

Lemma split_serial_key k l l1 e l2 : split_serial k l = Some (l1, e, l2) -> forall h, ce_key <$> l1 ++ set_held h e :: l2 = ce_key <$> l.
Proof. intros [-> _]%split_serial_Some h. by rewrite !fmap_app, !fmap_cons. Qed.

Lemma history_release past hs s s' k n : history past hs s -> hs !! k = Some (Some n) -> sp_release n s = Some s' -> history (past ++ [CRelease k]) (hs ++ [None]) s'.
Proof.
  intros Hi Hk Hr. assert (Hlt : (k < length past)%nat) by (rewrite <- (hi_len _ _ _ Hi); by apply lookup_lt_is_Some; eexists).
  assert (Hs' : (forall e', e' ∈ sp_cached s' -> exists e, e ∈ sp_cached s /\ stems e e') /\ (forall e', e' ∈ sp_loose s' -> exists e, e ∈ sp_loose s /\ stems e e') /\ (exists del, ce_key <$> sp_cached s = del ++ (ce_key <$> sp_cached s')) /\ sp_next s' = sp_next s
    /\ forall j, (count_held j (sp_cached s' ++ sp_loose s') + one (bool_decide (Some (Some n) = Some (Some j))) = count_held j (sp_cached s ++ sp_loose s))%nat).
  { unfold sp_release in Hr. destruct (split_serial n (sp_cached s)) as [[[l1 e] l2]|] eqn:E.
    - destruct (decide (held e = O)) as [|H0]; [done|]. injection Hr as <-. pose proof (split_serial_key _ _ _ _ _ E (pred (held e))) as Ek. apply split_serial_Some in E as [E En]. cbn [sp_cached sp_loose sp_next]. rewrite E. split_and!; [| |exists []; by rewrite <- E, Ek|done|].
      + intros e' He'. assert (H : e' = set_held (pred (held e)) e \/ e' ∈ l1 ++ e :: l2) by set_solver. destruct H as [->|H]; [exists e; split; [set_solver|done]|by exists e'].
      + intros e' He'. by exists e'.
      + intros j. rewrite !count_app, !count_cons. cbn [set_held serial held]. unfold one. case_bool_decide as Hb; [injection Hb as Hb; rewrite !decide_True by congruence; lia|]. rewrite !decide_False by congruence. lia.
    - destruct (split_serial n (sp_loose s)) as [[[l1 e] l2]|] eqn:E2; [|done]. destruct (decide (held e = O)) as [|H0]; [done|]. injection Hr as <-. apply split_serial_Some in E2 as [E2 En]. destruct (decide (held e = 1%nat)) as [H1|H1]; cbn [sp_cached sp_loose sp_next]; rewrite E2; (split_and!; [intros e' He'; by exists e'| |by exists []|done|]).
      + intros e' He'. exists e'. split; [set_solver|done].
      + intros j. rewrite !count_app, !count_cons. unfold one. case_bool_decide as Hb; [injection Hb as Hb; rewrite !decide_True by congruence; lia|]. rewrite !decide_False by congruence. lia.
      + intros e' He'. assert (H : e' = set_held (pred (held e)) e \/ e' ∈ l1 ++ e :: l2) by set_solver. destruct H as [->|H]; [exists e; split; [set_solver|done]|by exists e'].
      + intros j. rewrite !count_app, !count_cons. cbn [set_held serial held]. unfold one. case_bool_decide as Hb; [injection Hb as Hb; rewrite !decide_True by congruence; lia|]. rewrite !decide_False by congruence. lia. }
  destruct Hs' as (S1 & S2 & (del & S3) & S4 & S5). apply (history_step past hs s); [done|by rewrite S4|done|by intros j [= <-]| |done| | |done|].
  - intros e' [He'|He']%elem_of_app; left; [destruct (S1 e' He') as (x & Hx & Hs)|destruct (S2 e' He') as (x & Hx & Hs)]; exists x; (split; [set_solver|done]).
  - intros e' He'. left. destruct (S1 e' He') as (x & Hx & Hs). exists x. split; [done|]. split; [done|]. intros [].
  - pose proof (hi_keys _ _ _ Hi) as Hkeys. rewrite S3 in Hkeys. by apply NoDup_app in Hkeys as (_ & _ & ?).
  - intros j. cbn [releases]. rewrite Hk, S5, bool_decide_false by done. cbn. lia.
Qed.

Lemma evict_suffix cap l s : exists del, l = del ++ sp_cached (sp_evict cap l s).
Proof.
  revert s. induction l as [|e l IH]; intros s; cbn [sp_evict]; [by exists []|]. zcase; [|by exists []]. destruct (IH (sp_drop e s)) as [del E]. exists (e :: del). cbn [app]. by rewrite <- E.
Qed.

Lemma history_insert cap past hs s key v chg : history past hs s -> history (past ++ [CInsert key v chg]) (hs ++ [Some (sp_insert cap key v chg s).1]) (sp_insert cap key v chg s).2.
Proof.
  intros Hi. destruct (sp_next_mono s) as (_ & _ & _ & Hnx). specialize (Hnx cap key v chg). destruct (erase_shrinks key s) as [[S1 S2 S3] Hc]. pose proof (erase_absent key s (hi_keys _ _ _ Hi)) as Hab. pose proof (hi_keys _ _ _ (history_erase past hs s key Hi)) as Hkeys.
  unfold sp_insert in *. cbn [fst snd] in *. set (s1 := sp_erase key s) in *. set (new := mkCached (sp_next s) key v chg 1). cbn [sp_cached] in *. fold new in Hnx. set (s2 := mkSpec (sp_cached s1 ++ [new]) (sp_loose s1) (S (sp_next s)) (sp_deleted s1)) in *.
  destruct (evict_shrinks cap (sp_cached s2) s2) as [[T1 T2 T3] Tc]. destruct (evict_suffix cap (sp_cached s2) s2) as [del Hdel]. set (s3 := sp_evict cap (sp_cached s1 ++ [new]) s2) in *. change (sp_cached s2) with (sp_cached s1 ++ [new]) in *. fold s3 in T1, T2, T3, Tc, Hdel. cbn [sp_cached sp_loose sp_next] in T1, T2, T3.
  assert (Hfrom : forall e', e' ∈ sp_cached s1 ++ [new] -> (exists e, e ∈ sp_cached s /\ stems e e' /\ ce_key e' <> key) \/ e' = new).
  { intros e' [He'|He']%elem_of_app; [|right; by apply list_elem_of_singleton in He']. left. destruct (S1 e' He') as (e & He & Hs). exists e. split; [done|]. split; [done|]. by apply Hab. }
  assert (Hst : forall e b e', stems e b -> stems b e' -> stems e e') by (unfold stems; naive_solver congruence).
  assert (Hold : forall e', e' ∈ sp_cached s3 -> (exists e, e ∈ sp_cached s /\ stems e e' /\ ce_key e' <> key) \/ stems new e').
  { intros e' He'. destruct (T1 e' He') as (b & Hb & Hs). destruct (Hfrom b Hb) as [(e & He & Hs' & Hk)| ->]; [|by right]. left. exists e. split; [done|]. split; [by apply (Hst e b)|]. destruct Hs as (_ & -> & _). done. }
  assert (Hnew : forall e', stems new e' -> CInsert key v chg = CInsert (ce_key e') (ce_value e') (ce_charge e') /\ Some (sp_next s) = Some (serial e')) by (intros e' (-> & -> & -> & ->); done).
  apply (history_step past hs s); [done|rewrite Hnx; lia|intros k [= <-]; rewrite Hnx; lia|done| |by intros ???? _ [= <-]| | |done|].
  - intros e' [He'|He']%elem_of_app; [destruct (Hold e' He') as [(e & He & Hs & _)|Hs]; [left; exists e; split; [set_solver|done]|right; by apply Hnew]|].
    destruct (T2 e' He') as (b & [Hb|Hb]%elem_of_app & Hs); [destruct (Hfrom b Hb) as [(e & He & Hs' & _)| ->]; [left; exists e; split; [set_solver|by apply (Hst e b)]|right; by apply Hnew]|]. left. destruct (S2 b Hb) as (e & He & Hs'). exists e. split; [done|by apply (Hst e b)].
  - intros e' He'. destruct (Hold e' He') as [(e & He & Hs & Hk)|Hs]; [|right; by apply Hnew]. left. exists e. split; [done|]. split; [done|]. cbn. by apply not_eq_sym.
  - assert (Hnd : NoDup (ce_key <$> sp_cached s1 ++ [new])). { rewrite fmap_app. apply NoDup_app. split; [done|]. split; [|apply NoDup_singleton]. intros k (e & -> & He)%list_elem_of_fmap Hin. apply list_elem_of_singleton in Hin. by apply (Hab e He). }
    rewrite Hdel, fmap_app in Hnd. by apply NoDup_app in Hnd as (_ & _ & ?).
  - intros n. rewrite Tc. cbn [sp_loose releases one]. rewrite <- Hc, !count_app, count_cons. unfold new. cbn [serial held count_held foldr]. unfold one. case_bool_decide as Hb; [injection Hb as Hb; rewrite decide_True by congruence|rewrite decide_False by congruence]; fold s1; cbn [s2 sp_loose]; lia.
Qed.

Lemma spec_history cap calls past hs s hs' s' : history past hs s -> spec_calls cap calls hs s = Some (hs', s') -> history (past ++ calls) hs' s'.
Proof.
  revert past hs s. induction calls as [|c calls IH]; intros past hs s Hi Hc; [injection Hc as <- <-; by rewrite app_nil_r|]. change (past ++ c :: calls) with (past ++ [c] ++ calls). rewrite app_assoc. destruct c as [key|key v chg|k|key]; cbn [spec_calls] in Hc.
  - pose proof (history_lookup _ _ _ key Hi) as Hn. destruct (sp_lookup key s) as [h s1]. by apply (IH _ _ _ Hn).
  - pose proof (history_insert cap _ _ _ key v chg Hi) as Hn. destruct (sp_insert cap key v chg s) as [h s1]. by apply (IH _ _ _ Hn).
  - destruct (hs !! k) as [[n|]|] eqn:Ek; [|done|done]. destruct (sp_release n s) as [s1|] eqn:Er; [|done]. by apply (IH _ _ _ (history_release _ _ _ _ _ _ Hi Ek Er)).
  - by apply (IH _ _ _ (history_erase _ _ _ key Hi)).
Qed.

Lemma history_new : history [] [] spec_new.
Proof. split; cbn; try done; first [set_solver|constructor]. Qed.

(** An entry that is held has the value that was inserted. *)
Lemma held_value past hs s j key v chg n : history past hs s -> past !! j = Some (CInsert key v chg) -> hs !! j = Some (Some n) -> (released n hs past < acquired n hs)%nat -> sp_value n s = Some v.
Proof.
  intros Hi Hj Hn Hlt. pose proof (hi_held _ _ _ Hi n) as Hh. assert (Hex : exists l1 e l2, split_serial n (sp_cached s ++ sp_loose s) = Some (l1, e, l2)).
  { assert (Hpos : (0 < count_held n (sp_cached s ++ sp_loose s))%nat) by lia. clear -Hpos. revert Hpos. generalize (sp_cached s ++ sp_loose s). induction l as [|e l IH]; cbn [count_held foldr split_serial]; [lia|]. case_bool_decide as Hb; [by intros _; exists [], e, l|]. rewrite decide_False by done. intros Hp. destruct (IH Hp) as (l1 & x & l2 & ->). by exists (e :: l1), x, l2. }
  destruct Hex as (l1 & e & l2 & E). unfold sp_value. rewrite E. apply split_serial_Some in E as [E En]. destruct (hi_from _ _ _ Hi e) as (i & A & B); [rewrite E; set_solver|]. rewrite En in B. rewrite (hi_once _ _ _ Hi _ _ _ _ _ _ _ _ _ A Hj B Hn) in A. rewrite A in Hj. by injection Hj as _ -> _.
Qed.
