(* ===== verification/LdbLru.v ===== *)
(** * The cache keeps its promise

    A shard of the cache (LdbCache.v) answers every sequence of calls as the specification of
    LdbLruSpec.v does.  [live] relates the handles in memory to the entries of the
    specification, also between the steps of a call, when an entry is already in the circular
    list and not yet in the table; [rel] is the relation between calls. *)

From S2P Require Import Prelude LdbFilter LdbCache LdbLruSpec.
From Stdlib Require Import ZArith Lia.
From stdpp Require Import base list gmap numbers option fin_maps.
Open Scope Z_scope.

Fixpoint cache_calls (malloc : heap -> Z) (H : list Z -> Z) (calls : list call) (handles : list Z) (c : LRUCache) : option (list Z * LRUCache) :=
  match calls with
  | [] => Some (handles, c)
  | CLookup key :: calls => let* (p, c) := LRUCache_Lookup key (H key) c in cache_calls malloc H calls (handles ++ [p]) c
  | CInsert key value chg :: calls => let* (p, c) := LRUCache_Insert malloc key (H key) value chg c in cache_calls malloc H calls (handles ++ [p]) c
  | CRelease k :: calls => let* p := handles !! k in let* c := LRUCache_Release p c in cache_calls malloc H calls (handles ++ [0]) c
  | CErase key :: calls => let* c := LRUCache_Erase key (H key) c in cache_calls malloc H calls (handles ++ [0]) c
  end.

(** The value behind a handle ([Cache::Value]). *)
Definition Value (p : Z) (c : LRUCache) : option Z := h_value <$> mem c !! p.

(** ** Entries and handles *)

Section Live.
Context (H : list Z -> Z) (HH : forall k, 0 <= H k < 2 ^ 32).

Definition entry_at (m : heap) (p : Z) (e : entry) (r : Z) : Prop := datum m p = Some (ce_value e, ce_charge e, ce_key e, r, H (ce_key e)).

(** [addr] gives the handle of an entry.  The entries [K] have the reference of the cache,
    [L] only those of clients; the ones numbered [R] are in the circular list, those numbered
    [T] in the table.  [n] bounds how many there are. *)
Record live (addr : nat -> Z) (n : Z) (c : LRUCache) (R T : list nat) (K L : list entry) : Prop := mkLive {
  lv_ring : ring (mem c) (addr <$> R);
  lv_table : table_ok (table_ c) (mem c) (addr <$> T);
  lv_in : forall k, k ∈ R \/ k ∈ T -> k ∈ serial <$> K;
  lv_uniq : forall a b, a ∈ K -> b ∈ K -> serial a ∈ T -> serial b ∈ T -> ce_key a = ce_key b -> serial a = serial b;
  lv_data : forall e, e ∈ K -> entry_at (mem c) (addr (serial e)) e (Z.of_nat (held e) + 1);
  lv_loose : forall e, e ∈ L -> entry_at (mem c) (addr (serial e)) e (Z.of_nat (held e)) /\ (0 < held e)%nat;
  lv_self : forall e, e ∈ K ++ L -> nxt (mem c) (addr (serial e)) <> Some (addr (serial e));
  lv_nodup : NoDup (addr <$> (serial <$> K ++ L));
  lv_null : forall e, e ∈ K ++ L -> addr (serial e) <> 0 /\ addr (serial e) <> lru_addr;
  lv_dom : forall p, is_Some (mem c !! p) -> p = lru_addr \/ p ∈ addr <$> (serial <$> K ++ L);
  lv_usage : usage_ c = u64 (sum_charges (K ++ L));
  lv_held : forall e, e ∈ K ++ L -> Z.of_nat (held e) <= n;
  lv_count : lenZ T <= n;
}.

Lemma entry_same m m' p e r : same_data m m' -> entry_at m p e r -> entry_at m' p e r.
Proof. unfold entry_at. intros Hd. by rewrite Hd. Qed.

Lemma entry_key m p e r : entry_at m p e r -> key_at m p = Some (ce_key e) /\ hash_of m p = Some (H (ce_key e)).
Proof. unfold entry_at, datum, key_at, hash_of. destruct (m !! p); [|done]. cbn. intros [= _ _ Hk _ Hh]. split; congruence. Qed.

Lemma live_keyed addr n c R T K L : live addr n c R T K L -> keyed H (mem c) (addr <$> T).
Proof.
  intros Hv. assert (Hin : forall p, p ∈ addr <$> T -> exists e, p = addr (serial e) /\ e ∈ K /\ serial e ∈ T).
  { intros p (k & -> & Hk)%list_elem_of_fmap. destruct (proj1 (list_elem_of_fmap serial K k) (lv_in _ _ _ _ _ _ _ Hv k (or_intror Hk))) as (e & -> & He). by exists e. }
  split.
  - intros p (e & -> & He & _)%Hin. exists (ce_key e). apply (entry_key _ _ _ _ (lv_data _ _ _ _ _ _ _ Hv e He)).
  - intros p q (a & -> & Ha & Hta)%Hin (b & -> & Hb & Htb)%Hin. rewrite (proj1 (entry_key _ _ _ _ (lv_data _ _ _ _ _ _ _ Hv a Ha))), (proj1 (entry_key _ _ _ _ (lv_data _ _ _ _ _ _ _ Hv b Hb))). intros [= E]. f_equal. by apply (lv_uniq _ _ _ _ _ _ _ Hv).
  - intros p (e & -> & He & _)%Hin. apply (lv_self _ _ _ _ _ _ _ Hv). set_solver.
Qed.

Lemma fmap_inj_on {A B} (f : A -> B) l a b : NoDup (f <$> l) -> a ∈ l -> b ∈ l -> f a = f b -> a = b.
Proof.
  intros Hnd Ha Hb E. induction l as [|x l IH]; [set_solver|]. rewrite fmap_cons in Hnd. apply NoDup_cons in Hnd as [Hx Hnd].
  apply elem_of_cons in Ha as [->|Ha], Hb as [->|Hb]; [done| | |by apply IH]; destruct Hx; [rewrite E|rewrite <- E]; by apply list_elem_of_fmap_2.
Qed.

Lemma live_inj addr n c R T K L j k : live addr n c R T K L -> j ∈ serial <$> K ++ L -> k ∈ serial <$> K ++ L -> addr j = addr k -> j = k.
Proof. intros Hv. apply fmap_inj_on. apply (lv_nodup _ _ _ _ _ _ _ Hv). Qed.

(** A change of the links or of the chains alone. *)
Lemma live_mem addr n c R T K L R' T' t' m' : live addr n c R T K L -> same_data (mem c) m' -> ring m' (addr <$> R') -> table_ok t' m' (addr <$> T') -> (forall k, k ∈ R' \/ k ∈ T' -> k ∈ serial <$> K) ->
  (forall a b, a ∈ K -> b ∈ K -> serial a ∈ T' -> serial b ∈ T' -> ce_key a = ce_key b -> serial a = serial b) -> lenZ T' <= n ->
  (forall k, k ∉ R' -> k ∈ serial <$> K ++ L -> nxt m' (addr k) = nxt (mem c) (addr k)) -> live addr n (with_table c t' m') R' T' K L.
Proof.
  intros [H1 H2 H3 H4 H5 H6 H7 H8 H9 H10 H11 H12 H13] Hd Hr Ht HR HU Hlen Hn. split; cbn [with_table mem table_ usage_]; [done|done|done|done| | | |done|done| |done|done|done].
  - intros e He. by apply (entry_same (mem c)), H5.
  - intros e He. destruct (H6 e He). split; [by apply (entry_same (mem c))|done].
  - intros e He. destruct (decide (serial e ∈ R')) as [Hin|Hin]; [|rewrite Hn; [by apply H7|done|by apply list_elem_of_fmap_2]].
    apply list_elem_of_split in Hin as (l1 & l2 & E). rewrite E in Hr. rewrite fmap_app, fmap_cons in Hr. rewrite (proj1 (ring_nxt _ _ _ _ Hr)). intros [= Hs]. destruct Hr as [_ [Hx (_ & _ & [Hy _]%NoDup_cons)%NoDup_app]%NoDup_cons]. pose proof (behind_in (addr <$> l2)) as Hb. rewrite Hs in Hb. apply elem_of_cons in Hb as [Hb|Hb]; [|done]. rewrite Hb in Hx. set_solver.
  - intros p Hp. apply H10. apply datum_is_Some. rewrite <- Hd. by apply datum_is_Some.
Qed.

(** Addresses of entries that are not listed are not those of entries that are. *)
Lemma addr_out addr n c R T K L l k : live addr n c R T K L -> (forall j, j ∈ l -> j ∈ serial <$> K) -> k ∈ serial <$> K ++ L -> k ∉ l -> addr k ∉ lru_addr :: (addr <$> l).
Proof.
  intros Hv Hl Hk Hn. rewrite elem_of_cons. intros [E|(j & E & Hj)%list_elem_of_fmap].
  - apply list_elem_of_fmap in Hk as (e & -> & He). by apply (lv_null _ _ _ _ _ _ _ Hv e He).
  - apply (live_inj _ _ _ _ _ _ _ k j Hv) in E as ->; [done|done|]. rewrite fmap_app. apply elem_of_app. left. by apply Hl.
Qed.

Lemma live_unlink addr n c l1 k l2 T K L : live addr n c (l1 ++ k :: l2) T K L -> exists m', LRU_Remove (addr k) (mem c) = Some m' /\ live addr n (with_mem c m') (l1 ++ l2) T K L.
Proof.
  intros Hv. pose proof (lv_ring _ _ _ _ _ _ _ Hv) as Hr. rewrite fmap_app, fmap_cons in Hr. destruct (LRU_Remove_ok _ _ _ _ Hr) as (m' & E & Hr' & Hd & Hc & Hn). exists m'. split; [done|]. rewrite <- fmap_app in Hr', Hn.
  apply (live_mem addr n c (l1 ++ k :: l2) T); [done|done|done| | |apply (lv_uniq _ _ _ _ _ _ _ Hv)|apply (lv_count _ _ _ _ _ _ _ Hv)|].
  - apply (table_frame _ (mem c)); [apply (lv_table _ _ _ _ _ _ _ Hv)|]. intros x _. by rewrite (same_hash _ _ _ Hd), Hc.
  - intros j Hj. apply (lv_in _ _ _ _ _ _ _ Hv). set_solver.
  - intros j Hj Hin. apply Hn, (addr_out addr n c (l1 ++ k :: l2) T K L); [done| |done|done]. intros i Hi. apply (lv_in _ _ _ _ _ _ _ Hv). set_solver.
Qed.

Lemma live_link addr n c R k T K L : live addr n c R T K L -> k ∈ serial <$> K -> k ∉ R -> exists m', LRU_Append (addr k) (mem c) = Some m' /\ live addr n (with_mem c m') (R ++ [k]) T K L.
Proof.
  intros Hv Hk HkR. assert (Hk' : k ∈ serial <$> K ++ L) by (rewrite fmap_app; set_solver).
  destruct (LRU_Append_ok (mem c) (addr <$> R) (addr k)) as (m' & E & Hr' & Hd & Hc & Hn); [apply (lv_ring _ _ _ _ _ _ _ Hv)| | |].
  - apply (addr_out addr n c R T K L); [done| |done|done]. intros j Hj. apply (lv_in _ _ _ _ _ _ _ Hv). by left.
  - apply list_elem_of_fmap in Hk as (e & -> & He). pose proof (lv_data _ _ _ _ _ _ _ Hv e He) as Hdat. apply datum_is_Some. by eexists.
  - exists m'. split; [done|]. change [addr k] with (addr <$> [k]) in Hr', Hn. rewrite <- fmap_app in Hr', Hn. assert (Hin : forall j, j ∈ R ++ [k] -> j ∈ serial <$> K) by (intros j [Hj|Hj]%elem_of_app; [apply (lv_in _ _ _ _ _ _ _ Hv); by left|by apply list_elem_of_singleton in Hj as ->]).
    apply (live_mem addr n c R T); [done|done|done| | |apply (lv_uniq _ _ _ _ _ _ _ Hv)|apply (lv_count _ _ _ _ _ _ _ Hv)|].
    + apply (table_frame _ (mem c)); [apply (lv_table _ _ _ _ _ _ _ Hv)|]. intros x _. by rewrite (same_hash _ _ _ Hd), Hc.
    + intros j [Hj|Hj]; [by apply Hin|]. apply (lv_in _ _ _ _ _ _ _ Hv). by right.
    + intros j Hj Hj'. by apply Hn, (addr_out addr n c R T K L).
Qed.

(** The entry of [K] that is numbered [k] in the table. *)
Lemma in_table addr n c R T K L p : live addr n c R T K L -> p ∈ addr <$> T -> exists e, p = addr (serial e) /\ e ∈ K /\ serial e ∈ T /\ key_at (mem c) p = Some (ce_key e).
Proof.
  intros Hv (k & -> & Hk)%list_elem_of_fmap. destruct (proj1 (list_elem_of_fmap serial K k) (lv_in _ _ _ _ _ _ _ Hv k (or_intror Hk))) as (e & -> & He). exists e. split_and!; [done..|]. apply (entry_key _ _ _ _ (lv_data _ _ _ _ _ _ _ Hv e He)).
Qed.

Lemma absent_entries addr n c R T K L key : live addr n c R T K L -> absent (mem c) key (addr <$> T) -> forall e, e ∈ K -> serial e ∈ T -> ce_key e <> key.
Proof. intros Hv Ha e He Ht <-. apply (Ha (addr (serial e))); [by apply list_elem_of_fmap_2|]. apply (entry_key _ _ _ _ (lv_data _ _ _ _ _ _ _ Hv e He)). Qed.

(** Taking one out of a list of addresses takes one out of the list of numbers. *)
Lemma perm_fmap (addr : nat -> Z) T k ids : addr <$> T ≡ₚ addr k :: ids -> k ∈ T -> exists T', T ≡ₚ k :: T' /\ ids ≡ₚ addr <$> T'.
Proof.
  intros Hp (T1 & T2 & ->)%list_elem_of_split. exists (T1 ++ T2). split; [by rewrite Permutation_middle|]. rewrite fmap_app, fmap_cons, <- Permutation_middle in Hp. apply Permutation_cons_inv in Hp. by rewrite fmap_app, Hp.
Qed.

Lemma live_table_remove addr n c R T K L key : live addr n c R T K L -> n < 2 ^ 31 ->
  ((forall e, e ∈ K -> serial e ∈ T -> ce_key e <> key) /\ Table_Remove key (H key) (table_ c) (mem c) = Some (0, table_ c, mem c))
  \/ exists e T' t' m', e ∈ K /\ ce_key e = key /\ T ≡ₚ serial e :: T' /\ Table_Remove key (H key) (table_ c) (mem c) = Some (addr (serial e), t', m') /\ live addr n (with_table c t' m') R T' K L.
Proof.
  intros Hv Hn. pose proof (lv_count _ _ _ _ _ _ _ Hv) as Hct. destruct (Table_Remove_ok H HH (table_ c) (mem c) (addr <$> T) key) as [[Ha E]|(p & ids' & t' & m' & E & Hp0 & Hp & Hk & Ht & Hd & Hl)]; [apply (lv_table _ _ _ _ _ _ _ Hv)|apply (live_keyed _ _ _ _ _ _ _ Hv)|rewrite length_fmap; lia| |].
  - left. split; [by apply (absent_entries addr n c R T K L)|done].
  - right. destruct (in_table addr n c R T K L p Hv) as (e & -> & He & HeT & Hke); [rewrite Hp; set_solver|]. destruct (perm_fmap _ _ _ _ Hp HeT) as (T' & HT & Hids). exists e, T', t', m'. split; [done|]. split; [congruence|]. split; [done|]. split; [done|].
    apply (live_mem addr n c R T); [done|done| |by apply (table_perm _ _ ids')| | | |].
    + apply (ring_frame (mem c)); [|apply (lv_ring _ _ _ _ _ _ _ Hv)]. intros q _. apply Hl.
    + intros k Hk'. apply (lv_in _ _ _ _ _ _ _ Hv). destruct Hk'; [by left|right; rewrite HT; set_solver].
    + intros a b Ha Hb Hta Htb. apply (lv_uniq _ _ _ _ _ _ _ Hv); [done|done| |]; rewrite HT; set_solver.
    + rewrite HT in Hct. cbn in Hct. lia.
    + intros k _ _. apply Hl.
Qed.

Lemma live_table_insert addr n c R T K L e : live addr n c R T K L -> n < 2 ^ 31 -> e ∈ K -> serial e ∉ T -> 1 + lenZ T <= n ->
  exists old t' m' T', Table_Insert (addr (serial e)) (table_ c) (mem c) = Some (old, t', m') /\ live addr n (with_table c t' m') R (serial e :: T') K L
  /\ ((old = 0 /\ (forall b, b ∈ K -> serial b ∈ T -> ce_key b <> ce_key e) /\ T' = T) \/ exists b, old = addr (serial b) /\ old <> 0 /\ b ∈ K /\ ce_key b = ce_key e /\ T ≡ₚ serial b :: T').
Proof.
  intros Hv Hn He HeT Hct. assert (HeK : serial e ∈ serial <$> K ++ L) by (apply list_elem_of_fmap_2; set_solver). destruct (entry_key _ _ _ _ (lv_data _ _ _ _ _ _ _ Hv e He)) as [Hk Hh]. pose proof (table_nodup _ _ _ (lv_table _ _ _ _ _ _ _ Hv)) as HndT.
  destruct (Table_Insert_ok H HH (table_ c) (mem c) (addr <$> T) (addr (serial e)) (ce_key e)) as (old & ids' & t' & m' & E & Ht & Hd & Hl & Hold); [apply (lv_table _ _ _ _ _ _ _ Hv)|apply (live_keyed _ _ _ _ _ _ _ Hv)| |apply (lv_null _ _ _ _ _ _ _ Hv); set_solver|done|done|apply (lv_self _ _ _ _ _ _ _ Hv); set_solver|rewrite length_fmap; lia|].
  - pose proof (addr_out addr n c R T K L T (serial e) Hv) as Hout. intros Hin. apply Hout; [intros j Hj; apply (lv_in _ _ _ _ _ _ _ Hv); by right|done|done|set_solver].
  - assert (HT : exists T', ids' ≡ₚ addr <$> T' /\ T' ⊆ T /\ lenZ T' <= lenZ T /\ (forall b, b ∈ K -> serial b ∈ T' -> ce_key b <> ce_key e)
      /\ ((old = 0 /\ (forall b, b ∈ K -> serial b ∈ T -> ce_key b <> ce_key e) /\ T' = T) \/ exists b, old = addr (serial b) /\ old <> 0 /\ b ∈ K /\ ce_key b = ce_key e /\ T ≡ₚ serial b :: T')).
    { destruct Hold as [(-> & Ha & ->)|(Ho & Hp & Hko)].
      - pose proof (absent_entries addr n c R T K L _ Hv Ha) as Hab. exists T. split_and!; [done|done|lia|done|]. by left.
      - destruct (in_table addr n c R T K L old Hv) as (b & -> & Hb & HbT & Hkb); [rewrite Hp; set_solver|]. destruct (perm_fmap _ _ _ _ Hp HbT) as (T' & HT & Hids). assert (Hkey : ce_key b = ce_key e) by congruence.
        exists T'. split_and!; [done|intros x; rewrite HT; set_solver|rewrite HT; cbn; lia| |right; by exists b].
        intros d Hd' HdT Hkd. assert (HTnd : NoDup T) by (by apply NoDup_fmap_1 in HndT). rewrite HT in HTnd. apply NoDup_cons in HTnd as [HTnd _]. apply HTnd. rewrite <- (lv_uniq _ _ _ _ _ _ _ Hv d b); [done|done|done|rewrite HT; set_solver|done|congruence]. }
    destruct HT as (T' & Hids & Hsub & Hlen & Hdiff & Hcase). exists old, t', m', T'. split; [done|]. split; [|done]. apply (live_mem addr n c R T); [done|done| | | | | |].
    + apply (ring_frame (mem c)); [|apply (lv_ring _ _ _ _ _ _ _ Hv)]. intros q _. apply Hl.
    + apply (table_perm _ _ (addr (serial e) :: ids')); [by rewrite fmap_cons, Hids|done].
    + intros k [Hk'|[->|Hk']%elem_of_cons]; [apply (lv_in _ _ _ _ _ _ _ Hv); by left|by apply list_elem_of_fmap_2|]. apply (lv_in _ _ _ _ _ _ _ Hv). right. by apply Hsub.
    + intros a b Ha Hb [Ea|Hta]%elem_of_cons [Eb|Htb]%elem_of_cons Hab; [congruence| | |apply (lv_uniq _ _ _ _ _ _ _ Hv); [done|done|by apply Hsub|by apply Hsub|done]].
      * exfalso. apply (Hdiff b Hb Htb). rewrite <- Hab. f_equal. apply (fmap_inj_on serial K); [|done|done|done]. pose proof (lv_nodup _ _ _ _ _ _ _ Hv) as Hnd. apply NoDup_fmap_1 in Hnd. rewrite fmap_app in Hnd. by apply NoDup_app in Hnd as (? & _ & _).
      * exfalso. apply (Hdiff a Ha Hta). rewrite Hab. f_equal. apply (fmap_inj_on serial K); [|done|done|done]. pose proof (lv_nodup _ _ _ _ _ _ _ Hv) as Hnd. apply NoDup_fmap_1 in Hnd. rewrite fmap_app in Hnd. by apply NoDup_app in Hnd as (? & _ & _).
    + cbn [length]. lia.
    + intros k _ _. apply Hl.
Qed.

(** ** References *)

Lemma Unref_free c p e : entry_at (mem c) p e 1 -> nxt (mem c) p <> Some p -> Unref p c = Some (mkCache (capacity_ c) (u64 (usage_ c - ce_charge e)) (table_ c) (delete p (mem c)) (deleted c ++ [(ce_key e, ce_value e)])).
Proof.
  unfold entry_at, datum, nxt, Unref. destruct (mem c !! p) as [x|]; [|done]. cbn. intros [= Hv Hc Hk Hr Hh] Hs. rewrite Hr. cbn. unfold handle_key. rewrite (proj2 (Z.eqb_neq (next x) p)) by congruence. by rewrite Hv, Hc, Hk.
Qed.

(** The memories agree but for the data of the handle at [p]. *)
Definition same_but (p : Z) (m m' : heap) : Prop := (forall q, q <> p -> m' !! q = m !! q) /\ nxt m' p = nxt m p /\ prv m' p = prv m p /\ chained m' p = chained m p /\ hash_of m' p = hash_of m p.

Lemma same_but_views p m m' q : same_but p m m' -> nxt m' q = nxt m q /\ prv m' q = prv m q /\ chained m' q = chained m q /\ hash_of m' q = hash_of m q.
Proof. intros (Hq & Hp). destruct (decide (q = p)) as [->|Hne]; [done|]. unfold nxt, prv, chained, hash_of. by rewrite Hq. Qed.

Lemma refs_stored m p e r r' : entry_at m p e r -> exists x, m !! p = Some x /\ refs x = r /\ same_but p m (<[p := set_refs r' x]> m) /\ entry_at (<[p := set_refs r' x]> m) p e r'.
Proof.
  unfold entry_at, datum. destruct (m !! p) as [x|] eqn:E; [|done]. cbn. intros [= Hv Hc Hk Hr Hh]. exists x. split; [done|]. split; [done|]. split.
  - split; [intros q Hq; by rewrite lookup_insert_ne|]. unfold nxt, prv, chained, hash_of. by rewrite lookup_insert_eq, E.
  - rewrite lookup_insert_eq. cbn. by rewrite Hv, Hc, Hk, Hh.
Qed.

Lemma Unref_less c p e r : entry_at (mem c) p e r -> 1 < r < 2 ^ 32 -> exists m', Unref p c = Some (with_mem c m') /\ same_but p (mem c) m' /\ entry_at m' p e (r - 1).
Proof.
  intros He Hr. destruct (refs_stored _ _ _ _ (r - 1) He) as (x & Ex & Er & Hs & He'). exists (<[p := set_refs (r - 1) x]> (mem c)). unfold Unref. rewrite Ex, Er. rewrite (proj2 (Z.leb_gt r 0)), uwrap_small, (proj2 (Z.leb_gt (r - 1) 0)) by lia. done.
Qed.

Lemma entry_other p m m' q e r : same_but p m m' -> q <> p -> entry_at m q e r -> entry_at m' q e r.
Proof. intros [Hs _] Hq. unfold entry_at, datum. by rewrite Hs. Qed.

(** The state after a change of data: the entries [D] are gone. *)
Lemma live_frame addr n n' c c' R T K L K' L' D : live addr n c R T K L -> table_ c' = table_ c ->
  (forall p, p = lru_addr \/ p ∈ addr <$> (serial <$> K' ++ L') -> nxt (mem c') p = nxt (mem c) p /\ prv (mem c') p = prv (mem c) p /\ chained (mem c') p = chained (mem c) p /\ hash_of (mem c') p = hash_of (mem c) p) ->
  (forall k, k ∈ R \/ k ∈ T -> k ∈ serial <$> K') -> (forall a, a ∈ K' -> exists b, b ∈ K /\ serial b = serial a /\ ce_key b = ce_key a) -> serial <$> K ++ L ≡ₚ D ++ (serial <$> K' ++ L') ->
  (forall e, e ∈ K' -> entry_at (mem c') (addr (serial e)) e (Z.of_nat (held e) + 1)) -> (forall e, e ∈ L' -> entry_at (mem c') (addr (serial e)) e (Z.of_nat (held e)) /\ (0 < held e)%nat) ->
  (forall p, is_Some (mem c' !! p) -> p = lru_addr \/ p ∈ addr <$> (serial <$> K' ++ L')) -> usage_ c' = u64 (sum_charges (K' ++ L')) -> (forall e, e ∈ K' ++ L' -> Z.of_nat (held e) <= n') -> n <= n' -> live addr n' c' R T K' L'.
Proof.
  intros [H1 H2 H3 H4 H5 H6 H7 H8 H9 H10 H11 H12 H13] Et Hview Hin Hold Hperm Hdat Hloose Hdom Hus Hheld Hn.
  assert (Hsub : forall e, e ∈ K' ++ L' -> exists b, b ∈ K ++ L /\ serial b = serial e).
  { intros e He. assert (Hs : serial e ∈ serial <$> K ++ L) by (rewrite Hperm; apply elem_of_app; right; by apply list_elem_of_fmap_2). apply list_elem_of_fmap in Hs as (b & E & Hb). by exists b. }
  assert (Haddr : forall k, k ∈ R \/ k ∈ T -> addr k ∈ addr <$> (serial <$> K' ++ L')) by (intros k Hk; apply list_elem_of_fmap_2; rewrite fmap_app; apply elem_of_app; left; by apply Hin).
  split; [| |done| |done|done| | | |done|done|done|lia].
  - apply (ring_frame (mem c)); [|done]. intros q Hq. destruct (Hview q) as (-> & -> & _); [|done]. apply elem_of_cons in Hq as [->|(k & -> & Hk)%list_elem_of_fmap]; [by left|right; apply Haddr; by left].
  - rewrite Et. apply (table_frame _ (mem c)); [done|]. intros q (k & -> & Hk)%list_elem_of_fmap. destruct (Hview (addr k)) as (_ & _ & -> & ->); [|done]. right. apply Haddr. by right.
  - intros a b Ha Hb Hta Htb E. destruct (Hold a Ha) as (a0 & Ha0 & Ea & Eka). destruct (Hold b Hb) as (b0 & Hb0 & Eb & Ekb). rewrite <- Ea, <- Eb. apply H4; [done|done|by rewrite Ea|by rewrite Eb|congruence].
  - intros e He. destruct (Hsub e He) as (b & Hb & E). destruct (Hview (addr (serial e))) as (-> & _); [right; by apply list_elem_of_fmap_2, list_elem_of_fmap_2|]. rewrite <- E. by apply H7.
  - rewrite Hperm, fmap_app in H8. by apply NoDup_app in H8 as (_ & _ & ?).
  - intros e He. destruct (Hsub e He) as (b & Hb & <-). by apply H9.
Qed.

Lemma u64_sub x y : u64 (u64 x - y) = u64 (x - y).
Proof. unfold uwrap. by rewrite Zminus_mod_idemp_l. Qed.
Lemma u64_add x y : u64 (u64 x + y) = u64 (x + y).
Proof. unfold uwrap. by rewrite Zplus_mod_idemp_l. Qed.

Lemma live_apart addr n c R T K L e rest a : live addr n c R T K L -> K ++ L ≡ₚ e :: rest -> a ∈ rest -> addr (serial a) <> addr (serial e).
Proof.
  intros Hv Hp Ha E. pose proof (lv_nodup _ _ _ _ _ _ _ Hv) as Hnd. rewrite Hp in Hnd. cbn in Hnd. apply NoDup_cons in Hnd as [Hnd _]. apply Hnd. rewrite <- E. by apply list_elem_of_fmap_2, list_elem_of_fmap_2.
Qed.

(** The last reference goes: the entry is deleted. *)
Lemma live_free addr n c R T K L K' L' e : live addr n c R T K L -> K ++ L ≡ₚ e :: K' ++ L' -> K' ⊆ K -> L' ⊆ L -> (forall k, k ∈ R \/ k ∈ T -> k ∈ serial <$> K') -> entry_at (mem c) (addr (serial e)) e 1 ->
  exists c', Unref (addr (serial e)) c = Some c' /\ capacity_ c' = capacity_ c /\ deleted c' = deleted c ++ [(ce_key e, ce_value e)] /\ live addr n c' R T K' L'.
Proof.
  intros Hv Hperm HK HL Hin He. assert (Hel : e ∈ K ++ L) by (rewrite Hperm; set_solver). eexists. split; [by apply (Unref_free _ _ e He), (lv_self _ _ _ _ _ _ _ Hv)|]. split; [done|]. split; [done|].
  assert (Hap : forall a, a ∈ K' ++ L' -> addr (serial a) <> addr (serial e)) by (intros a; by apply (live_apart _ _ _ _ _ _ _ _ _ _ Hv Hperm)).
  assert (Hsame : forall p, p <> addr (serial e) -> delete (addr (serial e)) (mem c) !! p = mem c !! p) by (intros p Hp; by rewrite lookup_delete_ne).
  apply (live_frame addr n n c _ R T K L K' L' [serial e]); cbn [mem table_ usage_]; [done|done| |done| |by rewrite Hperm| | | | | |done].
  - intros p Hp. unfold nxt, prv, chained, hash_of. rewrite Hsame; [done|]. destruct Hp as [->|(k & -> & (a & -> & Ha)%list_elem_of_fmap)%list_elem_of_fmap]; [|by apply Hap]. intros E. by apply (lv_null _ _ _ _ _ _ _ Hv e Hel).
  - intros a Ha. exists a. split; [by apply HK|done].
  - intros a Ha. unfold entry_at, datum. rewrite Hsame by (apply Hap; set_solver). by apply (lv_data _ _ _ _ _ _ _ Hv), HK.
  - intros a Ha. unfold entry_at, datum. rewrite Hsame by (apply Hap; set_solver). by apply (lv_loose _ _ _ _ _ _ _ Hv), HL.
  - intros p [x Hp]. apply lookup_delete_Some in Hp as [Hne Hp]. destruct (lv_dom _ _ _ _ _ _ _ Hv p) as [->|Hs]; [by eexists|by left|]. right. rewrite Hperm in Hs. cbn in Hs. set_solver.
  - rewrite (lv_usage _ _ _ _ _ _ _ Hv), u64_sub. f_equal. rewrite (sum_perm _ _ Hperm). cbn [sum_charges foldr]. fold (sum_charges (K' ++ L')). lia.
  - intros a Ha. apply (lv_held _ _ _ _ _ _ _ Hv). rewrite Hperm. set_solver.
Qed.

(** An entry that is neither in the list nor in the table loses the reference of the cache. *)
Lemma live_drop addr n c R T K1 e K2 L : live addr n c R T (K1 ++ e :: K2) L -> serial e ∉ R -> serial e ∉ T -> n < 2 ^ 31 ->
  exists c', Unref (addr (serial e)) c = Some c' /\ capacity_ c' = capacity_ c
  /\ if decide (held e = O) then deleted c' = deleted c ++ [(ce_key e, ce_value e)] /\ live addr n c' R T (K1 ++ K2) L else deleted c' = deleted c /\ live addr n c' R T (K1 ++ K2) (L ++ [e]).
Proof.
  intros Hv HR HT Hn. pose proof (lv_data _ _ _ _ _ _ _ Hv e ltac:(set_solver)) as He. assert (Hperm : (K1 ++ e :: K2) ++ L ≡ₚ e :: (K1 ++ K2) ++ L) by (by rewrite <- Permutation_middle).
  assert (Hap : forall a, a ∈ (K1 ++ K2) ++ L -> addr (serial a) <> addr (serial e)) by (intros a; by apply (live_apart _ _ _ _ _ _ _ _ _ _ Hv Hperm)).
  assert (Hin : forall k, k ∈ R \/ k ∈ T -> k ∈ serial <$> K1 ++ K2).
  { intros k Hk. pose proof (lv_in _ _ _ _ _ _ _ Hv k Hk) as Hs. rewrite <- Permutation_middle in Hs. cbn in Hs. apply elem_of_cons in Hs as [->|Hs]; [destruct Hk; contradiction|done]. }
  assert (Hdat : forall a, a ∈ K1 ++ K2 -> a ∈ K1 ++ e :: K2) by set_solver. destruct (decide (held e = O)) as [H0|H0].
  - rewrite H0 in He. destruct (live_free addr n c R T (K1 ++ e :: K2) L (K1 ++ K2) L e Hv Hperm Hdat) as (c' & E & Hc & Hdel & Hv'); [done|done|done|]. by exists c'.
  - pose proof (lv_held _ _ _ _ _ _ _ Hv e ltac:(set_solver)) as Hb. destruct (Unref_less c _ e _ He) as (m' & E & Hs & He'); [lia|]. exists (with_mem c m'). split; [done|]. split; [done|]. split; [done|].
    apply (live_frame addr n n c _ R T (K1 ++ e :: K2) L (K1 ++ K2) (L ++ [e]) []); cbn [mem table_ usage_ with_mem with_table]; [done|done| |done| | | | | | | |done].
    + intros p _. by apply (same_but_views (addr (serial e))).
    + intros a Ha. exists a. split; [by apply Hdat|done].
    + cbn [app]. rewrite Hperm. rewrite !app_assoc. by rewrite Permutation_cons_append.
    + intros a Ha. apply (entry_other _ _ _ _ _ _ Hs); [apply Hap; set_solver|]. by apply (lv_data _ _ _ _ _ _ _ Hv), Hdat.
    + intros a [Ha|Ha]%elem_of_app; [split; [apply (entry_other _ _ _ _ _ _ Hs); [apply Hap; set_solver|]; by apply (lv_loose _ _ _ _ _ _ _ Hv)|by apply (lv_loose _ _ _ _ _ _ _ Hv)]|]. apply list_elem_of_singleton in Ha as ->. split; [by replace (Z.of_nat (held e)) with (Z.of_nat (held e) + 1 - 1) by lia|lia].
    + intros p Hp. assert (Hp' : is_Some (mem c !! p)). { apply nxt_is_Some. rewrite <- (proj1 (same_but_views _ _ _ p Hs)). by apply nxt_is_Some. } destruct (lv_dom _ _ _ _ _ _ _ Hv p Hp') as [->|Hin']; [by left|]. right. rewrite Hperm in Hin'. rewrite !fmap_app in *. cbn in Hin'. set_solver.
    + rewrite (lv_usage _ _ _ _ _ _ _ Hv). f_equal. apply sum_perm. rewrite Hperm, app_assoc. by rewrite Permutation_cons_append.
    + intros a Ha. apply (lv_held _ _ _ _ _ _ _ Hv). set_solver.
Qed.

Lemma alloc_same p m m' q : same_but p m m' -> is_Some (m' !! q) -> is_Some (m !! q).
Proof. intros Hs Hq. apply nxt_is_Some. rewrite <- (proj1 (same_but_views _ _ _ q Hs)). by apply nxt_is_Some. Qed.

(** The count of the handles of a cached entry changes. *)
Lemma live_reheld addr n n' c m' R T K1 e K2 L h : live addr n c R T (K1 ++ e :: K2) L -> same_but (addr (serial e)) (mem c) m' -> entry_at m' (addr (serial e)) e (Z.of_nat h + 1) -> n <= n' -> Z.of_nat h <= n' ->
  live addr n' (with_mem c m') R T (K1 ++ set_held h e :: K2) L.
Proof.
  intros Hv Hs He Hn Hh. assert (Hperm : (K1 ++ e :: K2) ++ L ≡ₚ e :: (K1 ++ K2) ++ L) by (by rewrite <- Permutation_middle). assert (Hperm' : (K1 ++ set_held h e :: K2) ++ L ≡ₚ set_held h e :: (K1 ++ K2) ++ L) by (by rewrite <- Permutation_middle).
  assert (Hser : serial <$> (K1 ++ set_held h e :: K2) ++ L = serial <$> (K1 ++ e :: K2) ++ L) by (by rewrite !fmap_app).
  assert (Hap : forall a, a ∈ (K1 ++ K2) ++ L -> addr (serial a) <> addr (serial e)) by (intros a; by apply (live_apart _ _ _ _ _ _ _ _ _ _ Hv Hperm)).
  assert (Hpos : forall a, a ∈ K1 ++ set_held h e :: K2 -> a = set_held h e \/ a ∈ K1 ++ K2) by set_solver.
  apply (live_frame addr n n' c _ R T (K1 ++ e :: K2) L (K1 ++ set_held h e :: K2) L []); cbn [mem table_ usage_ with_mem with_table]; [done|done| | | |by rewrite Hser| | | | | |done].
  - intros p _. by apply (same_but_views (addr (serial e))).
  - intros k Hk. pose proof (lv_in _ _ _ _ _ _ _ Hv k Hk) as Hs'. by rewrite fmap_app, fmap_cons in *.
  - intros a [->|Ha]%Hpos; [exists e|exists a]; (split; [set_solver|done]).
  - intros a [->|Ha]%Hpos; [exact He|]. apply (entry_other _ _ _ _ _ _ Hs); [apply Hap; set_solver|]. apply (lv_data _ _ _ _ _ _ _ Hv). set_solver.
  - intros a Ha. destruct (lv_loose _ _ _ _ _ _ _ Hv a Ha). split; [|done]. apply (entry_other _ _ _ _ _ _ Hs); [apply Hap; set_solver|done].
  - intros p Hp. rewrite Hser. by apply (lv_dom _ _ _ _ _ _ _ Hv), (alloc_same _ _ _ _ Hs).
  - rewrite (lv_usage _ _ _ _ _ _ _ Hv), (sum_perm _ _ Hperm), (sum_perm _ _ Hperm'). done.
  - intros a Ha. rewrite Hperm' in Ha. apply elem_of_cons in Ha as [->|Ha]; [done|]. pose proof (lv_held _ _ _ _ _ _ _ Hv a). rewrite Hperm in H0. specialize (H0 ltac:(set_solver)). lia.
Qed.

(** A client gives a handle back. *)
Lemma live_release_cached addr n c R T K1 e K2 L : live addr n c R T (K1 ++ e :: K2) L -> held e <> O -> n < 2 ^ 31 ->
  exists m', Unref (addr (serial e)) c = Some (with_mem c m') /\ live addr n (with_mem c m') R T (K1 ++ set_held (pred (held e)) e :: K2) L.
Proof.
  intros Hv H0 Hn. pose proof (lv_held _ _ _ _ _ _ _ Hv e ltac:(set_solver)) as Hb. destruct (Unref_less c (addr (serial e)) e (Z.of_nat (held e) + 1)) as (m' & E & Hs & He); [apply (lv_data _ _ _ _ _ _ _ Hv); set_solver|lia|].
  exists m'. split; [done|]. apply (live_reheld addr n n c m' R T K1 e K2 L); [done|done| |done|lia]. by replace (Z.of_nat (pred (held e)) + 1) with (Z.of_nat (held e) + 1 - 1) by lia.
Qed.

Lemma live_release_loose addr n c R T K L1 e L2 : live addr n c R T K (L1 ++ e :: L2) -> n < 2 ^ 31 ->
  exists c', Unref (addr (serial e)) c = Some c' /\ capacity_ c' = capacity_ c
  /\ if decide (held e = 1%nat) then deleted c' = deleted c ++ [(ce_key e, ce_value e)] /\ live addr n c' R T K (L1 ++ L2) else deleted c' = deleted c /\ live addr n c' R T K (L1 ++ set_held (pred (held e)) e :: L2).
Proof.
  intros Hv Hn. assert (Hel : e ∈ L1 ++ e :: L2) by set_solver. destruct (lv_loose _ _ _ _ _ _ _ Hv e Hel) as [He Hpos]. assert (Hperm : K ++ (L1 ++ e :: L2) ≡ₚ e :: K ++ L1 ++ L2) by (by rewrite <- !Permutation_middle).
  assert (Hap : forall a, a ∈ K ++ L1 ++ L2 -> addr (serial a) <> addr (serial e)) by (intros a; by apply (live_apart _ _ _ _ _ _ _ _ _ _ Hv Hperm)).
  pose proof (lv_held _ _ _ _ _ _ _ Hv e ltac:(set_solver)) as Hb. destruct (decide (held e = 1%nat)) as [H1|H1].
  - rewrite H1 in He. destruct (live_free addr n c R T K (L1 ++ e :: L2) K (L1 ++ L2) e Hv Hperm) as (c' & E & Hc & Hdel & Hv'); [done|set_solver|apply (lv_in _ _ _ _ _ _ _ Hv)|done|]. by exists c'.
  - destruct (Unref_less c _ e _ He) as (m' & E & Hs & He'); [lia|]. exists (with_mem c m'). split; [done|]. split; [done|]. split; [done|]. set (h := pred (held e)). assert (Hperm' : K ++ (L1 ++ set_held h e :: L2) ≡ₚ set_held h e :: K ++ L1 ++ L2) by (by rewrite <- !Permutation_middle).
    assert (Hser : serial <$> K ++ L1 ++ set_held h e :: L2 = serial <$> K ++ L1 ++ e :: L2) by (by rewrite !fmap_app).
    apply (live_frame addr n n c _ R T K (L1 ++ e :: L2) K (L1 ++ set_held h e :: L2) []); cbn [mem table_ usage_ with_mem with_table]; [done|done| |apply (lv_in _ _ _ _ _ _ _ Hv)|by intros a Ha; exists a|by rewrite Hser| | | | | |done].
    + intros p _. by apply (same_but_views (addr (serial e))).
    + intros a Ha. apply (entry_other _ _ _ _ _ _ Hs); [apply Hap; set_solver|]. by apply (lv_data _ _ _ _ _ _ _ Hv).
    + intros a Ha. assert (Ha' : a = set_held h e \/ a ∈ L1 ++ L2) by set_solver. destruct Ha' as [->|Ha']; [split; [|cbn; lia]; cbn [held serial set_held]; by replace (Z.of_nat h) with (Z.of_nat (held e) - 1) by lia|].
      destruct (lv_loose _ _ _ _ _ _ _ Hv a); [set_solver|]. split; [|done]. apply (entry_other _ _ _ _ _ _ Hs); [apply Hap; set_solver|done].
    + intros p Hp. rewrite Hser. by apply (lv_dom _ _ _ _ _ _ _ Hv), (alloc_same _ _ _ _ Hs).
    + rewrite (lv_usage _ _ _ _ _ _ _ Hv), (sum_perm _ _ Hperm), (sum_perm _ _ Hperm'). done.
    + intros a Ha. rewrite Hperm' in Ha. apply elem_of_cons in Ha as [->|Ha]; [cbn; lia|]. apply (lv_held _ _ _ _ _ _ _ Hv). rewrite Hperm. set_solver.
Qed.

(** ** The calls *)

Lemma live_perm addr n c R T T' K K' L : live addr n c R T K L -> T ≡ₚ T' -> K ≡ₚ K' -> live addr n c R T' K' L.
Proof.
  intros [H1 H2 H3 H4 H5 H6 H7 H8 H9 H10 H11 H12 H13] HT HK. assert (HKL : K ++ L ≡ₚ K' ++ L) by (by rewrite HK). split; [done| | | | |done| | | | | | |].
  - apply (table_perm _ _ (addr <$> T)); [by rewrite HT|done].
  - intros k. rewrite <- HT, <- HK. apply H3.
  - intros a b. rewrite <- HT, <- HK. apply H4.
  - intros e. rewrite <- HK. apply H5.
  - intros e. rewrite <- HKL. apply H7.
  - by rewrite <- HKL.
  - intros e. rewrite <- HKL. apply H9.
  - intros p. rewrite <- HKL. apply H10.
  - by rewrite <- (sum_perm _ _ HKL).
  - intros e. rewrite <- HKL. apply H12.
  - by rewrite <- HT.
Qed.

(** The cache [c] is in the state [s] of the specification. *)
Record rel (addr : nat -> Z) (n cap : Z) (c : LRUCache) (s : spec) : Prop := mkRel {
  rl_live : live addr n c (serial <$> sp_cached s) (serial <$> sp_cached s) (sp_cached s) (sp_loose s);
  rl_cap : capacity_ c = cap;
  rl_deleted : deleted c = sp_deleted s;
  rl_serial : forall e, e ∈ sp_cached s ++ sp_loose s -> (serial e < sp_next s)%nat;
}.

(** The entry of [K] with the key is the one that the table finds. *)
Lemma same_entry addr n c R T K L a b : live addr n c R T K L -> a ∈ K -> b ∈ K -> serial a ∈ T -> serial b ∈ T -> ce_key a = ce_key b -> a = b.
Proof.
  intros Hv Ha Hb Hta Htb E. apply (fmap_inj_on serial K); [|done|done|by apply (lv_uniq _ _ _ _ _ _ _ Hv)]. pose proof (lv_nodup _ _ _ _ _ _ _ Hv) as Hnd. apply NoDup_fmap_1 in Hnd. rewrite fmap_app in Hnd. by apply NoDup_app in Hnd as (? & _ & _).
Qed.

(** An entry whose address is neither in the list nor in the table any more is dropped. *)
Lemma rel_drop addr n cap c l1 e l2 loose next del : live addr n c (serial <$> l1 ++ l2) (serial <$> l1 ++ l2) (l1 ++ e :: l2) loose -> capacity_ c = cap -> deleted c = del -> (forall a, a ∈ (l1 ++ e :: l2) ++ loose -> (serial a < next)%nat) -> n < 2 ^ 31 ->
  exists c', Unref (addr (serial e)) c = Some c' /\ rel addr n cap c' (sp_drop e (mkSpec (l1 ++ l2) loose next del)).
Proof.
  intros Hv Hcap Hdel Hser Hn. assert (Hout : serial e ∉ serial <$> l1 ++ l2).
  { pose proof (lv_nodup _ _ _ _ _ _ _ Hv) as Hnd. apply NoDup_fmap_1 in Hnd. rewrite <- Permutation_middle in Hnd. cbn in Hnd. apply NoDup_cons in Hnd as [Hnd _]. rewrite fmap_app in Hnd. set_solver. }
  destruct (live_drop addr n c _ _ l1 e l2 loose Hv Hout Hout Hn) as (c' & E & Hc & Hcase). exists c'. split; [done|]. unfold sp_drop. destruct (decide (held e = O)) as [H0|H0]; destruct Hcase as [Hd Hv']; (split; cbn [sp_cached sp_loose sp_next sp_deleted]; [done|congruence|congruence|intros a Ha; apply Hser; set_solver]).
Qed.

Lemma Lookup_ok addr n cap c s key : rel addr n cap c s -> n + 1 < 2 ^ 31 ->
  exists p c', LRUCache_Lookup key (H key) c = Some (p, c') /\ rel addr (n + 1) cap c' (sp_lookup key s).2 /\ p = match (sp_lookup key s).1 with Some k => addr k | None => 0 end.
Proof.
  intros [Hv Hcap Hdel Hser] Hn. unfold LRUCache_Lookup, sp_lookup. destruct (Table_Lookup_ok H HH (table_ c) (mem c) _ key (lv_table _ _ _ _ _ _ _ Hv) (live_keyed _ _ _ _ _ _ _ Hv)) as [[Ha ->]|(p & Hp & Hp0 & Hk & ->)].
  - cbn [Z.eqb]. pose proof (absent_entries addr n c _ _ _ _ key Hv Ha) as Hab. exists 0, c. split; [done|]. destruct (split_key key (sp_cached s)) as [[[l1 e] l2]|] eqn:E.
    { apply split_key_Some in E as [E Ek]. exfalso. apply (Hab e); [rewrite E; set_solver|apply list_elem_of_fmap_2; rewrite E; set_solver|done]. }
    split; [|done]. split; [|done|done|done]. apply (live_frame addr n (n + 1) c c _ _ (sp_cached s) (sp_loose s) (sp_cached s) (sp_loose s) []); [done|done|done|apply (lv_in _ _ _ _ _ _ _ Hv)|by intros a Hin; exists a|done|apply (lv_data _ _ _ _ _ _ _ Hv)|apply (lv_loose _ _ _ _ _ _ _ Hv)|apply (lv_dom _ _ _ _ _ _ _ Hv)|apply (lv_usage _ _ _ _ _ _ _ Hv)| |lia].
    intros e He. pose proof (lv_held _ _ _ _ _ _ _ Hv e He). lia.
  - destruct (in_table _ _ _ _ _ _ _ p Hv Hp) as (e' & -> & He' & Ht' & Hk'). assert (Hke : ce_key e' = key) by congruence. destruct (split_key key (sp_cached s)) as [[[l1 e] l2]|] eqn:E; [|by pose proof (split_key_None _ _ E e' He')].
    apply split_key_Some in E as [E Ek]. rewrite E in Hv, Hser, Ht', He'. assert (e' = e) as ->. { apply (same_entry _ _ _ _ _ _ _ _ _ Hv He'); [set_solver|done|apply list_elem_of_fmap_2; set_solver|congruence]. }
    rewrite (proj2 (Z.eqb_neq _ 0)) by done. pose proof (lv_held _ _ _ _ _ _ _ Hv e ltac:(set_solver)) as Hb. pose proof (lv_data _ _ _ _ _ _ _ Hv e ltac:(set_solver)) as Hd.
    destruct (refs_stored _ _ _ _ (Z.of_nat (S (held e)) + 1) Hd) as (x & Ex & Er & Hs & Hd'). unfold store. rewrite Ex, Er, uwrap_small by lia. replace (Z.of_nat (held e) + 1 + 1) with (Z.of_nat (S (held e)) + 1) by lia.
    set (m1 := <[_ := _]> (mem c)) in *. pose proof (live_reheld addr n (n + 1) c m1 _ _ l1 e l2 _ (S (held e)) Hv Hs Hd' ltac:(lia) ltac:(lia)) as Hv1. set (e1 := set_held (S (held e)) e) in *. rewrite fmap_app, fmap_cons in Hv1.
    destruct (live_unlink addr (n + 1) (with_mem c m1) (serial <$> l1) (serial e) (serial <$> l2) _ _ _ Hv1) as (m2 & E2 & Hv2). cbn [mem with_mem with_table] in E2. rewrite E2. destruct (live_link addr (n + 1) _ _ (serial e) _ _ _ Hv2) as (m3 & E3 & Hv3).
    + rewrite fmap_app. set_solver.
    + pose proof (lv_nodup _ _ _ _ _ _ _ Hv) as Hnd. apply NoDup_fmap_1 in Hnd. rewrite <- app_assoc, fmap_app in Hnd. cbn in Hnd. apply NoDup_app in Hnd as (_ & Hn1 & [Hn2 _]%NoDup_cons). rewrite fmap_app in Hn2. intros [Hin|Hin]%elem_of_app; [apply (Hn1 _ Hin); set_solver|set_solver].
    + cbn [mem with_mem with_table] in E3. rewrite E3. eexists _, _. split; [done|]. cbn [fst snd]. split; [|done]. split; cbn [sp_cached sp_loose sp_next sp_deleted capacity_ deleted with_mem with_table]; [|done|done|].
      * replace (serial <$> l1 ++ l2 ++ [e1]) with (((serial <$> l1) ++ (serial <$> l2)) ++ [serial e]) by (rewrite !fmap_app, <- app_assoc; done). apply (live_perm _ _ _ _ _ _ _ _ _ Hv3); [rewrite <- !app_assoc|]; rewrite <- Permutation_middle, Permutation_cons_append, <- ?app_assoc; done.
      * intros a Ha. assert (Ha' : a = e1 \/ a ∈ (l1 ++ e :: l2) ++ sp_loose s) by set_solver. destruct Ha' as [->|Ha']; [apply (Hser e); set_solver|by apply Hser].
Qed.

Lemma Release_ok addr n cap c s s' k : rel addr n cap c s -> n < 2 ^ 31 -> sp_release k s = Some s' -> exists c', LRUCache_Release (addr k) c = Some c' /\ rel addr n cap c' s'.
Proof.
  intros [Hv Hcap Hdel Hser] Hn. unfold sp_release, LRUCache_Release. destruct (split_serial k (sp_cached s)) as [[[l1 e] l2]|] eqn:E1.
  - apply split_serial_Some in E1 as [E1 <-]. rewrite E1 in Hv, Hser. destruct (decide (held e = O)) as [|H0]; [done|]. intros [= <-]. destruct (live_release_cached addr n c _ _ l1 e l2 _ Hv H0 Hn) as (m' & E & Hv'). eexists. split; [exact E|].
    split; cbn [sp_cached sp_loose sp_next sp_deleted]; [|done|done|]; [by rewrite fmap_app, fmap_cons in *|]. intros a Ha. assert (Ha' : a = set_held (pred (held e)) e \/ a ∈ (l1 ++ e :: l2) ++ sp_loose s) by set_solver. destruct Ha' as [->|Ha']; [apply (Hser e); set_solver|by apply Hser].
  - destruct (split_serial k (sp_loose s)) as [[[l1 e] l2]|] eqn:E2; [|done]. apply split_serial_Some in E2 as [E2 <-]. rewrite E2 in Hv, Hser. destruct (decide (held e = O)); [done|]. intros [= <-]. destruct (live_release_loose addr n c _ _ _ l1 e l2 Hv Hn) as (c' & E & Hc & Hcase). exists c'. split; [done|].
    destruct (decide (held e = 1%nat)); destruct Hcase as [Hd Hv']; (split; cbn [sp_cached sp_loose sp_next sp_deleted]; [done|congruence|congruence|]); intros a Ha; [apply Hser; set_solver|].
    assert (Ha' : a = set_held (pred (held e)) e \/ a ∈ sp_cached s ++ l1 ++ e :: l2) by set_solver. destruct Ha' as [->|Ha']; [apply (Hser e); set_solver|by apply Hser].
Qed.

(** Numbers of entries, without that of one of them. *)
Lemma serials_without T l1 e l2 : serial <$> l1 ++ e :: l2 ≡ₚ serial e :: T -> T ≡ₚ serial <$> l1 ++ l2.
Proof. rewrite <- Permutation_middle, fmap_cons. intros Hp. by apply Permutation_cons_inv in Hp. Qed.

Lemma Erase_ok addr n cap c s key : rel addr n cap c s -> n < 2 ^ 31 -> exists c', LRUCache_Erase key (H key) c = Some c' /\ rel addr n cap c' (sp_erase key s).
Proof.
  intros [Hv Hcap Hdel Hser] Hn. unfold LRUCache_Erase, sp_erase. destruct (live_table_remove addr n c _ _ _ _ key Hv Hn) as [[Ha ->]|(e & T' & t' & m' & He & Hk & HT & -> & Hv')].
  - cbn [Z.eqb]. exists (with_table c (table_ c) (mem c)). split; [done|]. destruct (split_key key (sp_cached s)) as [[[l1 e] l2]|] eqn:E.
    { apply split_key_Some in E as [E Ek]. exfalso. apply (Ha e); [rewrite E; set_solver|apply list_elem_of_fmap_2; rewrite E; set_solver|done]. }
    split; [|done|done|done]. by destruct c.
  - destruct (split_key key (sp_cached s)) as [[[l1 e'] l2]|] eqn:E; [|by pose proof (split_key_None _ _ E e He)]. apply split_key_Some in E as [E Ek]. rewrite (proj2 (Z.eqb_neq _ 0)) by (apply (lv_null _ _ _ _ _ _ _ Hv); set_solver).
    rewrite E in Hv, Hser, He, HT, Hv'. assert (e' = e) as ->. { apply (same_entry _ _ _ _ _ _ _ _ _ Hv); [set_solver|done|apply list_elem_of_fmap_2; set_solver|by apply list_elem_of_fmap_2|congruence]. }
    apply serials_without in HT. pose proof (live_perm _ _ _ _ _ _ _ _ _ Hv' HT (Permutation_refl _)) as Hv2. rewrite fmap_app, fmap_cons in Hv2. destruct (live_unlink addr n _ _ _ _ _ _ _ Hv2) as (m2 & -> & Hv3). rewrite <- fmap_app in Hv3.
    by apply (rel_drop addr n cap _ l1 e l2 (sp_loose s) (sp_next s) (sp_deleted s)).
Qed.

Lemma evict_ok fuel addr n cap c cached s : (length cached < fuel)%nat -> rel addr n cap c (mkSpec cached (sp_loose s) (sp_next s) (sp_deleted s)) -> n < 2 ^ 31 -> exists c', evict_loop fuel c = Some c' /\ rel addr n cap c' (sp_evict cap cached s).
Proof.
  revert fuel c s. induction cached as [|e cached IH]; intros fuel c s Hf [Hv Hcap Hdel Hser] Hn; (destruct fuel as [|fuel]; [cbn in Hf; lia|]); cbn [sp_cached sp_loose sp_next sp_deleted] in *; cbn [evict_loop sp_evict]; pose proof (lv_usage _ _ _ _ _ _ _ Hv) as Hus;
    destruct (ring_ends _ _ (lv_ring _ _ _ _ _ _ _ Hv)) as [Hnx Hpv]; destruct (links_of _ _ _ _ Hnx Hpv) as (x & -> & En & _); rewrite En.
  - cbn [fmap list_fmap head default from_option]. rewrite Z.eqb_refl, andb_false_r. by exists c.
  - cbn [fmap list_fmap head default from_option id]. rewrite Hcap, Hus. rewrite (proj2 (Z.eqb_neq _ lru_addr)) by (apply (lv_null _ _ _ _ _ _ _ Hv); set_solver). cbn [negb]. rewrite andb_true_r. zcase; [|by exists c].
    destruct (live_unlink addr n c [] (serial e) (fmap (M := list) serial cached) _ _ _ Hv) as (m1 & -> & Hv1). pose proof (lv_data _ _ _ _ _ _ _ Hv1 e ltac:(set_solver)) as Hd. pose proof (lv_self _ _ _ _ _ _ _ Hv1 e ltac:(set_solver)) as Hself. cbn [mem with_mem with_table] in Hd, Hself.
    destruct (entry_key _ _ _ _ Hd) as [Hk Hh]. unfold key_at, hash_of, nxt in Hk, Hh, Hself. destruct (m1 !! addr (serial e)) as [y|]; [|done]. cbn in Hk, Hh, Hself. injection Hk as Hk. injection Hh as Hh. unfold handle_key. rewrite (proj2 (Z.eqb_neq (next y) _)) by congruence. rewrite Hk, Hh.
    destruct (live_table_remove addr n _ _ _ _ _ (ce_key e) Hv1 Hn) as [[Ha _]|(e' & T' & t' & m' & He' & Hk' & HT & E & Hv2)]; [by destruct (Ha e); [set_solver|apply list_elem_of_fmap_2; set_solver|]|]. cbn [mem table_ with_mem with_table] in E. rewrite E.
    assert (e' = e) as ->. { apply (same_entry _ _ _ _ _ _ _ _ _ Hv1); [done|set_solver|rewrite HT; set_solver|apply list_elem_of_fmap_2; set_solver|done]. } apply (serials_without _ [] e cached) in HT. pose proof (live_perm _ _ _ _ _ _ _ _ _ Hv2 HT (Permutation_refl _)) as Hv3.
    destruct (rel_drop addr n cap _ [] e cached (sp_loose s) (sp_next s) (sp_deleted s) Hv3) as (c3 & E3 & Hr3); [done|done|done|done|]. cbn [app] in E3. change (with_table (with_mem c m1) t' m') with (with_table c t' m') in E3. rewrite E3.
    apply IH; [cbn in Hf; lia| |done]. unfold sp_drop in *. by destruct (decide (held e = O)).
Qed.

(** ** Insertion *)

Lemma live_ext addr addr' n c R T K L : (forall k, k ∈ serial <$> K ++ L -> addr' k = addr k) -> live addr n c R T K L -> live addr' n c R T K L.
Proof.
  intros He [H1 H2 H3 H4 H5 H6 H7 H8 H9 H10 H11 H12 H13]. assert (HeK : forall k, k ∈ serial <$> K -> addr' k = addr k) by (intros k Hk; apply He; rewrite fmap_app; set_solver).
  assert (Hmap : forall l, (forall k, k ∈ l -> k ∈ serial <$> K ++ L) -> addr' <$> l = addr <$> l) by (intros l Hl; apply list_fmap_ext; intros i k Hk; apply He, Hl; by apply list_elem_of_lookup_2 with i).
  assert (Hin : forall e, e ∈ K ++ L -> addr' (serial e) = addr (serial e)) by (intros e Hel; by apply He, list_elem_of_fmap_2).
  split; [| |done|done| | | | | | |done|done|done].
  - rewrite Hmap; [done|]. intros k Hk. rewrite fmap_app. apply elem_of_app. left. apply H3. by left.
  - rewrite Hmap; [done|]. intros k Hk. rewrite fmap_app. apply elem_of_app. left. apply H3. by right.
  - intros e Hel. rewrite Hin by set_solver. by apply H5.
  - intros e Hel. rewrite Hin by set_solver. by apply H6.
  - intros e Hel. rewrite Hin by done. by apply H7.
  - by rewrite Hmap.
  - intros e Hel. rewrite Hin by done. by apply H9.
  - intros p Hp. rewrite Hmap by done. by apply H10.
Qed.

Lemma live_alloc addr n c R T K L p k key value chg : live addr n c R T K L -> mem c !! p = None -> p <> 0 -> addr k = p ->
  live addr (n + 1) (mkCache (capacity_ c) (u64 (usage_ c + chg)) (table_ c) (<[p := mkHandle value 0 0 0 chg key 2 (H key)]> (mem c)) (deleted c)) R T (K ++ [mkCached k key value chg 1]) L.
Proof.
  intros Hv Hp Hp0 Hk. set (new := mkCached k key value chg 1). assert (Hperm : (K ++ [new]) ++ L ≡ₚ new :: K ++ L) by (rewrite <- app_assoc; cbn [app]; by rewrite <- Permutation_middle). pose proof Hv as [H1 H2 H3 H4 H5 H6 H7 H8 H9 H10 H11 H12 H13].
  assert (Hal : forall e, e ∈ K ++ L -> addr (serial e) <> p). { intros e He E. assert (Hs : is_Some (mem c !! addr (serial e))) by (apply datum_is_Some; apply elem_of_app in He as [He|He]; [rewrite (H5 e He)|rewrite (proj1 (H6 e He))]; by eexists). rewrite E, Hp in Hs. by destruct Hs. }
  assert (HalR : forall j, j ∈ R \/ j ∈ T -> addr j <> p) by (intros j Hj; apply H3 in Hj; apply list_elem_of_fmap in Hj as (e & -> & He); apply Hal; set_solver).
  assert (Hlru : lru_addr <> p) by (intros E; destruct (lru_ring_alloc _ _ lru_addr H1 ltac:(set_solver)) as [x Hx]; congruence).
  assert (Hdat : forall q, q <> p -> <[p := mkHandle value 0 0 0 chg key 2 (H key)]> (mem c) !! q = mem c !! q) by (intros q Hq; by rewrite lookup_insert_ne).
  split; cbn [mem table_ usage_].
  - apply (ring_frame (mem c)); [|done]. intros q Hq. unfold nxt, prv. rewrite Hdat; [done|]. apply elem_of_cons in Hq as [->|(j & -> & Hj)%list_elem_of_fmap]; [done|apply HalR; by left].
  - apply (table_frame _ (mem c)); [done|]. intros q (j & -> & Hj)%list_elem_of_fmap. unfold chained, hash_of. rewrite Hdat; [done|]. apply HalR. by right.
  - intros j Hj. rewrite fmap_app. apply elem_of_app. left. by apply H3.
  - assert (Hnew : forall e, e ∈ K ++ [new] -> serial e ∈ T -> e ∈ K). { intros e [He|He]%elem_of_app Ht; [done|]. apply list_elem_of_singleton in He as ->. exfalso. by apply (HalR k); [right|]. } intros a b Ha Hb Hta Htb. by apply H4; [apply Hnew|apply Hnew| |].
  - intros e [He|He]%elem_of_app; [unfold entry_at, datum; rewrite Hdat by (apply Hal; set_solver); by apply H5|]. apply list_elem_of_singleton in He as ->. unfold entry_at, datum. cbn [serial new]. by rewrite Hk, lookup_insert_eq.
  - intros e He. unfold entry_at, datum. rewrite Hdat by (apply Hal; set_solver). by apply H6.
  - intros e He. rewrite Hperm in He. apply elem_of_cons in He as [->|He]; unfold nxt; [|rewrite Hdat by (by apply Hal); by apply H7]. cbn [serial new]. rewrite Hk, lookup_insert_eq. cbn. congruence.
  - rewrite Hperm. cbn. apply NoDup_cons. split; [|done]. rewrite Hk. intros (j & E & (e & -> & He)%list_elem_of_fmap)%list_elem_of_fmap. by apply (Hal e).
  - intros e He. rewrite Hperm in He. apply elem_of_cons in He as [->|He]; [|by apply H9]. cbn [serial new]. rewrite Hk. done.
  - intros q [x Hx]. rewrite Hperm. cbn. destruct (decide (q = p)) as [->|Hq]; [right; rewrite Hk; set_solver|]. rewrite Hdat in Hx by done. destruct (H10 q) as [->|Hin]; [by eexists|by left|right; set_solver].
  - rewrite H11, u64_add. f_equal. rewrite (sum_perm _ _ Hperm). cbn [sum_charges foldr ce_charge new]. fold (sum_charges (K ++ L)). lia.
  - intros e He. rewrite Hperm in He. apply elem_of_cons in He as [->|He]; [cbn; lia|]. specialize (H12 e He). lia.
  - lia.
Qed.

Section Malloc.
Context (malloc : heap -> Z) (Hmalloc : forall m, malloc m <> 0 /\ m !! malloc m = None).

Lemma fuel_enough addr n c R T K L : live addr n c R T K L -> (length K < S (size (mem c)))%nat.
Proof.
  intros Hv. pose proof (lv_nodup _ _ _ _ _ _ _ Hv) as Hnd. rewrite !fmap_app in Hnd. apply NoDup_app in Hnd as (Hnd & _ & _). apply Nat.lt_succ_r. rewrite <- (length_fmap serial K), <- (length_fmap addr). apply nodup_size; [done|].
  intros x (k & -> & (e & -> & He)%list_elem_of_fmap)%list_elem_of_fmap. apply datum_is_Some. rewrite (lv_data _ _ _ _ _ _ _ Hv e He). by eexists.
Qed.

(** The insertion before anything is evicted. *)
Lemma insert_rel addr n cap c s e key value chg : live addr (n + 1) c ((serial <$> sp_cached s) ++ [serial e]) (serial <$> sp_cached s) (sp_cached s ++ [e]) (sp_loose s) ->
  e = mkCached (sp_next s) key value chg 1 -> capacity_ c = cap -> deleted c = sp_deleted s -> (forall a, a ∈ sp_cached s ++ sp_loose s -> (serial a < sp_next s)%nat) -> n + 1 < 2 ^ 31 -> lenZ (sp_cached s) <= n ->
  exists old t m c', Table_Insert (addr (serial e)) (table_ c) (mem c) = Some (old, t, m)
  /\ (if old =? 0 then Some (with_table c t m) else let* m' := LRU_Remove old (mem (with_table c t m)) in Unref old (with_mem (with_table c t m) m')) = Some c'
  /\ let s1 := sp_erase key s in rel addr (n + 1) cap c' (mkSpec (sp_cached s1 ++ [e]) (sp_loose s1) (S (sp_next s)) (sp_deleted s1)).
Proof.
  intros Hv He Hcap Hdel Hser Hn Hlen. assert (HeT : serial e ∉ serial <$> sp_cached s) by (intros (a & E & Ha)%list_elem_of_fmap; specialize (Hser a ltac:(set_solver)); rewrite He in E; cbn in E; lia). assert (Hke : ce_key e = key) by (by rewrite He).
  destruct (live_table_insert addr (n + 1) c _ _ _ _ e Hv Hn) as (old & t & m & T' & -> & Hv1 & Hcase); [set_solver|done|rewrite length_fmap; lia|].
  assert (Hlast : forall a, a ∈ sp_cached s ++ [e] -> serial a ∈ serial <$> sp_cached s -> a ∈ sp_cached s) by (intros a [Ha|Ha]%elem_of_app Hs; [done|by apply list_elem_of_singleton in Ha as ->]).
  assert (Hser' : forall a, a ∈ (sp_cached s ++ [e]) ++ sp_loose s -> (serial a < S (sp_next s))%nat) by (intros a Ha; assert (Ha' : a = e \/ a ∈ sp_cached s ++ sp_loose s) by set_solver; destruct Ha' as [->|Ha']; [rewrite He; cbn; lia|specialize (Hser a Ha'); lia]).
  exists old, t, m. unfold sp_erase. destruct Hcase as [(-> & Hno & ->)|(b & -> & Hb0 & Hb & Hkb & HT)].
  - destruct (split_key key (sp_cached s)) as [[[l1 b] l2]|] eqn:E.
    { apply split_key_Some in E as [E Ek]. exfalso. apply (Hno b); [rewrite E; set_solver|apply list_elem_of_fmap_2; rewrite E; set_solver|congruence]. }
    exists (with_table c t m). split; [done|]. split; [done|]. split; cbn [sp_cached sp_loose sp_next sp_deleted]; [|done|done|done]. rewrite fmap_app. apply (live_perm _ _ _ _ _ _ _ _ _ Hv1); [by rewrite Permutation_cons_append|done].
  - assert (Hbs : serial b ∈ serial <$> sp_cached s) by (rewrite HT; set_solver). specialize (Hlast b Hb Hbs). destruct (split_key key (sp_cached s)) as [[[l1 b'] l2]|] eqn:E; [|by pose proof (split_key_None _ _ E b Hlast ltac:(congruence))].
    apply split_key_Some in E as [E Ek]. assert (b' = b) as ->. { apply (same_entry _ _ _ _ _ _ _ _ _ Hv); [rewrite E; set_solver|done|apply list_elem_of_fmap_2; rewrite E; set_solver|done|congruence]. }
    rewrite (proj2 (Z.eqb_neq _ 0)) by done. rewrite E in HT, Hv1, Hser'. apply serials_without in HT. rewrite fmap_app, fmap_cons, <- app_assoc in Hv1. cbn [app] in Hv1. destruct (live_unlink addr (n + 1) _ _ _ _ _ _ _ Hv1) as (m2 & -> & Hv2).
    assert (Hv3 : live addr (n + 1) (with_mem (with_table c t m) m2) (serial <$> l1 ++ l2 ++ [e]) (serial <$> l1 ++ l2 ++ [e]) (l1 ++ b :: l2 ++ [e]) (sp_loose s)).
    { rewrite fmap_app in HT. rewrite !fmap_app. cbn [fmap list_fmap]. apply (live_perm _ _ _ _ _ _ _ _ _ Hv2); [rewrite HT, Permutation_cons_append, app_assoc; done|by rewrite <- app_assoc]. }
    destruct (rel_drop addr (n + 1) cap _ l1 b (l2 ++ [e]) (sp_loose s) (S (sp_next s)) (sp_deleted s) Hv3) as (c' & E' & Hr); [done|done|intros a Ha; apply Hser'; set_solver|done|].
    exists c'. split; [done|]. split; [done|]. unfold sp_drop in *. cbn [sp_cached sp_loose sp_next sp_deleted] in *. rewrite app_assoc in Hr. by destruct (decide (held b = O)).
Qed.

Lemma LRUCache_Insert_ok addr n cap c s key value chg : rel addr n cap c s -> n + 1 < 2 ^ 31 -> exists p c' addr', LRUCache_Insert malloc key (H key) value chg c = Some (p, c') /\ (forall k, (k < sp_next s)%nat -> addr' k = addr k)
  /\ rel addr' (n + 1) cap c' (sp_insert cap key value chg s).2 /\ p = addr' (sp_next s) /\ p <> 0.
Proof.
  intros [Hv Hcap Hdel Hser] Hn. destruct (Hmalloc (mem c)) as [Hp0 Hfree]. set (p := malloc (mem c)) in *. set (addr' := fun k => if decide (k = sp_next s) then p else addr k). set (e := mkCached (sp_next s) key value chg 1).
  assert (Haddr : forall k, (k < sp_next s)%nat -> addr' k = addr k) by (intros k Hk; unfold addr'; rewrite decide_False by lia; done). assert (Hp : addr' (sp_next s) = p) by (unfold addr'; by rewrite decide_True).
  apply (live_ext addr addr') in Hv; [|intros k (a & -> & Ha)%list_elem_of_fmap; by apply Haddr, Hser]. pose proof (lv_count _ _ _ _ _ _ _ Hv) as Hlen. rewrite length_fmap in Hlen.
  pose proof (live_alloc addr' n c _ _ _ _ p (sp_next s) key value chg Hv Hfree Hp0 Hp) as Hv0. fold e in Hv0. unfold LRUCache_Insert, sp_insert. fold p.
  destruct (live_link addr' (n + 1) _ _ (serial e) _ _ _ Hv0) as (m1 & E1 & Hv1); [rewrite fmap_app; set_solver|intros (a & E & Ha)%list_elem_of_fmap; specialize (Hser a ltac:(set_solver)); cbn in E; lia|].
  cbn [serial e mem with_mem with_table] in E1. rewrite Hp in E1. rewrite E1. unfold with_mem, with_table in Hv1. cbn [capacity_ usage_ table_ deleted mem] in Hv1. destruct (insert_rel addr' n cap _ s e key value chg Hv1) as (old & t & m & c' & E2 & E3 & Hr); [done|done|done|done|done|done|].
  cbn [serial e mem table_] in E2. rewrite Hp in E2. cbv zeta. cbn [mem table_]. rewrite E2, E3.
  cbv zeta in Hr. match type of Hr with rel _ _ _ _ ?s2 => destruct (evict_ok (S (size (mem c'))) addr' (n + 1) cap c' (sp_cached s2) s2) as (c2 & E4 & Hr4) end; [by apply (fuel_enough _ _ _ _ _ _ _ (rl_live _ _ _ _ _ Hr))|exact Hr|done|].
  rewrite E4. exists p, c2, addr'. by split_and!.
Qed.

(** ** Clients *)

Lemma new_ok addr cap : exists c, LRUCache_new cap = Some c /\ rel addr 0 cap c spec_new.
Proof.
  eexists. split; [reflexivity|]. split; [|done|done|cbn; set_solver]. split; cbn [mem table_ usage_ sp_cached sp_loose spec_new fmap list_fmap app].
  - split; [cbn; done|apply NoDup_singleton].
  - exists (replicate 4 []). split; [|done]. destruct (empty_buckets 2 lru_new) as [Hb _]; [lia|exact Hb].
  - intros k. set_solver.
  - intros a b. set_solver.
  - intros e. set_solver.
  - intros e. set_solver.
  - intros e. set_solver.
  - constructor.
  - intros e. set_solver.
  - intros p [x Hx]. left. unfold lru_new in Hx. by apply lookup_singleton_Some in Hx as [<- _].
  - done.
  - intros e. set_solver.
  - done.
Qed.

Definition handle_of (addr : nat -> Z) (h : option nat) (p : Z) : Prop := p = match h with Some k => addr k | None => 0 end.

Lemma handles_ext addr addr' next hs ps : Forall (fun h => forall k, h = Some k -> (k < next)%nat) hs -> (forall k, (k < next)%nat -> addr' k = addr k) -> Forall2 (handle_of addr) hs ps -> Forall2 (handle_of addr') hs ps.
Proof.
  intros Hlt Ha H2. induction H2 as [|h p hs ps Hp H2 IH]; [constructor|]. apply Forall_cons_1 in Hlt as [Hh Hlt]. constructor; [|by apply IH]. unfold handle_of in *. destruct h as [k|]; [|done]. by rewrite Ha by (by apply Hh).
Qed.

Lemma sp_lookup_lt addr n cap c s key : rel addr n cap c s -> forall k, (sp_lookup key s).1 = Some k -> (k < sp_next s)%nat.
Proof.
  intros Hr k. unfold sp_lookup. destruct (split_key key (sp_cached s)) as [[[l1 e] l2]|] eqn:E; [|done]. intros [= <-]. apply split_key_Some in E as [E _]. apply (rl_serial _ _ _ _ _ Hr). rewrite E. set_solver.
Qed.

Lemma calls_ok cap calls addr n c s hs ps hs' s' : rel addr n cap c s -> (forall k, (k < sp_next s)%nat -> addr k <> 0) -> Forall2 (handle_of addr) hs ps -> Forall (fun h => forall k, h = Some k -> (k < sp_next s)%nat) hs -> n + lenZ calls < 2 ^ 31 -> spec_calls cap calls hs s = Some (hs', s') ->
  exists addr' ps' c', cache_calls malloc H calls ps c = Some (ps', c') /\ rel addr' (n + lenZ calls) cap c' s' /\ (forall k, (k < sp_next s')%nat -> addr' k <> 0) /\ Forall2 (handle_of addr') hs' ps' /\ Forall (fun h => forall k, h = Some k -> (k < sp_next s')%nat) hs'.
Proof.
  revert addr n c s hs ps. induction calls as [|call calls IH]; intros addr n c s hs ps Hr Hnz H2 Hlt Hn Hc; cbn [length] in Hn |- *.
  - injection Hc as <- <-. exists addr, ps, c. rewrite Z.add_0_r. done.
  - replace (n + Z.of_nat (S (length calls))) with ((n + 1) + lenZ calls) in * by lia. destruct (sp_next_mono s) as (N1 & N2 & N3 & N4). assert (Hup : forall c s, rel addr n cap c s -> rel addr (n + 1) cap c s).
    { intros c0 s0 [Hv Hc0 Hd0 Hs0]. split; [|done|done|done]. eapply (live_frame addr n (n + 1) c0 c0 _ _ _ _ _ _ []); [exact Hv|done|done|apply (lv_in _ _ _ _ _ _ _ Hv)|by intros a Ha; exists a|done|apply (lv_data _ _ _ _ _ _ _ Hv)|apply (lv_loose _ _ _ _ _ _ _ Hv)|apply (lv_dom _ _ _ _ _ _ _ Hv)|apply (lv_usage _ _ _ _ _ _ _ Hv)| |lia]. intros e He. pose proof (lv_held _ _ _ _ _ _ _ Hv e He). lia. }
    destruct call as [key|key value chg|k|key]; cbn [spec_calls cache_calls] in Hc |- *.
    + destruct (Lookup_ok addr n cap c s key Hr) as (p & c1 & -> & Hr1 & Hp); [lia|]. pose proof (N1 key) as Hnx. pose proof (sp_lookup_lt addr n cap c s key Hr) as Hk. destruct (sp_lookup key s) as [h s1]. cbn [fst snd] in *.
      apply (IH addr (n + 1) c1 _ (hs ++ [h]) _ Hr1); [by rewrite Hnx|apply Forall2_app; [done|by constructor]| |lia|done]. rewrite Hnx. apply Forall_app; split; [done|by constructor].
    + destruct (LRUCache_Insert_ok addr n cap c s key value chg Hr) as (p & c1 & addr1 & -> & Ha & Hr1 & Hp & Hp0); [lia|]. pose proof (N4 cap key value chg) as Hnx. destruct (sp_insert cap key value chg s) as [k1 s1] eqn:Es. assert (Hk1 : k1 = sp_next s) by (unfold sp_insert in Es; by injection Es as <- _). cbn [snd] in *. subst k1.
      apply (IH addr1 (n + 1) c1 _ (hs ++ [Some (sp_next s)]) _ Hr1); [intros j Hj; rewrite Hnx in Hj; destruct (decide (j = sp_next s)) as [->|]; [by rewrite <- Hp|rewrite Ha by lia; apply Hnz; lia]|apply Forall2_app; [by apply (handles_ext addr addr1 (sp_next s))|by constructor]|apply Forall_app; split; [|constructor; [intros j [= <-]; lia|constructor]]|lia|done]. eapply List.Forall_impl; [|exact Hlt]. intros h Hh j E. specialize (Hh j E). lia.
    + destruct (hs !! k) as [[j|]|] eqn:Ek; [|done|done]. destruct (Forall2_lookup_l _ _ _ _ _ H2 Ek) as (p & -> & Hp). unfold handle_of in Hp. subst p. destruct (sp_release j s) as [s1|] eqn:Es; [|done]. destruct (Release_ok addr n cap c s s1 j Hr) as (c1 & -> & Hr1); [lia|done|].
      apply (IH addr (n + 1) c1 s1 (hs ++ [None]) _ (Hup _ _ Hr1)); [by rewrite (N3 _ _ Es)|apply Forall2_app; [done|by constructor]| |lia|done]. rewrite (N3 _ _ Es). apply Forall_app; split; [done|by constructor].
    + destruct (Erase_ok addr n cap c s key Hr) as (c1 & -> & Hr1); [lia|]. apply (IH addr (n + 1) c1 _ (hs ++ [None]) _ (Hup _ _ Hr1)); [by rewrite (N2 key)|apply Forall2_app; [done|by constructor]| |lia|done]. rewrite (N2 key). apply Forall_app; split; [done|by constructor].
Qed.

(** ** The destructor *)

(** The entries from one on, linked by [next]; what is before them may be gone. *)
Fixpoint walk (addr : nat -> Z) (m : heap) (l : list entry) : Prop :=
  match l with
  | [] => True
  | e :: l => entry_at m (addr (serial e)) e 1 /\ nxt m (addr (serial e)) = Some (behind (addr <$> (serial <$> l))) /\ addr (serial e) ∉ lru_addr :: (addr <$> (serial <$> l)) /\ walk addr m l
  end.

Lemma walk_delete addr m p l : p ∉ addr <$> (serial <$> l) -> walk addr m l -> walk addr (delete p m) l.
Proof.
  induction l as [|e l IH]; [done|]. cbn [fmap list_fmap walk]. intros [Hp Hp']%not_elem_of_cons (H1 & H2 & H3 & H4). split_and!; [|by unfold nxt; rewrite lookup_delete_ne by done|done|by apply IH]. unfold entry_at, datum. by rewrite lookup_delete_ne by done.
Qed.

Lemma destroy_ok addr fuel c l : (length l < fuel)%nat -> walk addr (mem c) l -> NoDup (addr <$> (serial <$> l)) -> (forall p, is_Some (mem c !! p) -> p = lru_addr \/ p ∈ addr <$> (serial <$> l)) ->
  exists c', destroy_loop fuel (behind (addr <$> (serial <$> l))) c = Some c' /\ deleted c' = deleted c ++ ((fun e => (ce_key e, ce_value e)) <$> l) /\ forall p, is_Some (mem c' !! p) -> p = lru_addr.
Proof.
  revert fuel c. induction l as [|e l IH]; intros fuel c Hf Hw Hnd Hdom; (destruct fuel as [|fuel]; [cbn in Hf; lia|]); cbn [fmap list_fmap head default from_option id destroy_loop].
  - rewrite Z.eqb_refl. exists c. split; [done|]. split; [by rewrite app_nil_r|]. intros p Hp. destruct (Hdom p Hp) as [|Hin]; [done|set_solver].
  - destruct Hw as (He & Hn & Ho & Hw). rewrite (proj2 (Z.eqb_neq _ lru_addr)) by set_solver. cbn in Hnd. apply NoDup_cons in Hnd as [Hnd1 Hnd2].
    assert (Hself : nxt (mem c) (addr (serial e)) <> Some (addr (serial e))) by (rewrite Hn; intros [= E]; pose proof (behind_in (addr <$> (serial <$> l))) as Hb; rewrite E in Hb; done).
    pose proof (Unref_free c _ e He Hself) as Hu. unfold entry_at, datum in He. unfold nxt in Hn. destruct (mem c !! addr (serial e)) as [x|]; [|done]. cbn in He, Hn. injection He as _ _ _ Hr _. injection Hn as Hn. rewrite Hr. cbn [Z.eqb Pos.eqb negb]. rewrite Hu, Hn.
    destruct (IH fuel (mkCache (capacity_ c) (u64 (usage_ c - ce_charge e)) (table_ c) (delete (addr (serial e)) (mem c)) (deleted c ++ [(ce_key e, ce_value e)]))) as (c' & E & Hd & Hm); cbn [mem deleted]; [cbn in Hf; lia|by apply walk_delete|done| |].
    + intros p [y Hp]. apply lookup_delete_Some in Hp as [Hne Hp]. destruct (Hdom p) as [|Hin]; [by eexists|by left|right]. cbn in Hin. set_solver.
    + exists c'. split; [done|]. split; [|done]. rewrite Hd. cbn [deleted]. by rewrite <- app_assoc.
Qed.

Lemma live_walk addr n c K : live addr n c (serial <$> K) (serial <$> K) K [] -> (forall e, e ∈ K -> held e = O) -> forall l1 l2, K = l1 ++ l2 -> walk addr (mem c) l2.
Proof.
  intros Hv H0 l1 l2. revert l1. induction l2 as [|e l2 IH]; intros l1 E; [done|]. assert (He : e ∈ K) by (rewrite E; set_solver). split.
  - pose proof (lv_data _ _ _ _ _ _ _ Hv e He) as Hd. by rewrite (H0 e He) in Hd.
  - pose proof (lv_ring _ _ _ _ _ _ _ Hv) as Hr. rewrite E, !fmap_app, !fmap_cons in Hr. split; [apply (ring_nxt _ _ _ _ Hr)|]. split; [|apply (IH (l1 ++ [e])); by rewrite <- app_assoc].
    destruct Hr as [_ [Hx (_ & _ & [Hy _]%NoDup_cons)%NoDup_app]%NoDup_cons]. rewrite elem_of_cons. intros [Hb|Hb]; [|done]. rewrite <- Hb in Hx. set_solver.
Qed.

Lemma LRUCache_delete_ok addr n cap c s : rel addr n cap c s -> sp_loose s = [] -> (forall e, e ∈ sp_cached s -> held e = O) ->
  exists c', LRUCache_delete c = Some c' /\ deleted c' = sp_deleted s ++ ((fun e => (ce_key e, ce_value e)) <$> sp_cached s) /\ forall p, is_Some (mem c' !! p) -> p = lru_addr.
Proof.
  intros [Hv Hcap Hdel Hser] HL H0. rewrite HL in Hv. unfold LRUCache_delete. destruct (ring_ends _ _ (lv_ring _ _ _ _ _ _ _ Hv)) as [Hnx Hpv]. destruct (links_of _ _ _ _ Hnx Hpv) as (x & -> & -> & _). rewrite <- Hdel. pose proof (lv_nodup _ _ _ _ _ _ _ Hv) as Hnd. pose proof (lv_dom _ _ _ _ _ _ _ Hv) as Hdom. rewrite app_nil_r in Hnd, Hdom.
  apply destroy_ok; [apply (fuel_enough _ _ _ _ _ _ _ Hv)|by apply (live_walk addr n c _ Hv H0 [])|done|done].
Qed.

Lemma live_size addr n c R T K L : live addr n c R T K L -> size (mem c) = (1 + length K + length L)%nat.
Proof.
  intros Hv. assert (Hd : dom (mem c) = list_to_set (lru_addr :: (addr <$> (serial <$> K ++ L))) :> gset Z).
  { apply set_eq. intros p. rewrite elem_of_dom, elem_of_list_to_set, elem_of_cons. split; [apply (lv_dom _ _ _ _ _ _ _ Hv)|]. intros [->|(k & -> & (e & -> & He)%list_elem_of_fmap)%list_elem_of_fmap]; [apply (lru_ring_alloc _ _ _ (lv_ring _ _ _ _ _ _ _ Hv)); set_solver|].
    apply datum_is_Some. apply elem_of_app in He as [He|He]; [rewrite (lv_data _ _ _ _ _ _ _ Hv e He)|rewrite (proj1 (lv_loose _ _ _ _ _ _ _ Hv e He))]; by eexists. }
  rewrite <- (size_dom (D := gset Z)), Hd, size_list_to_set; [cbn [length]; rewrite !length_fmap, length_app; lia|]. apply NoDup_cons. split; [|apply (lv_nodup _ _ _ _ _ _ _ Hv)].
  intros (k & E & (e & -> & He)%list_elem_of_fmap)%list_elem_of_fmap. by apply (lv_null _ _ _ _ _ _ _ Hv e He).
Qed.

Lemma live_value addr n c R T K L e : live addr n c R T K L -> e ∈ K ++ L -> Value (addr (serial e)) c = Some (ce_value e).
Proof.
  intros Hv He. assert (Hd : exists r, entry_at (mem c) (addr (serial e)) e r) by (apply elem_of_app in He as [He|He]; [eexists; apply (lv_data _ _ _ _ _ _ _ Hv e He)|eexists; apply (lv_loose _ _ _ _ _ _ _ Hv e He)]).
  destruct Hd as [r Hd]. unfold entry_at, datum, Value in *. destruct (mem c !! addr (serial e)); [|done]. cbn in *. congruence.
Qed.

(** ** Theorems *)

Lemma rel_value addr n cap c s k v : rel addr n cap c s -> sp_value k s = Some v -> Value (addr k) c = Some v.
Proof.
  intros Hr. unfold sp_value. destruct (split_serial k (sp_cached s ++ sp_loose s)) as [[[l1 e] l2]|] eqn:E; [|done]. intros [= <-]. apply split_serial_Some in E as [E <-]. apply (live_value _ _ _ _ _ _ _ _ (rl_live _ _ _ _ _ Hr)). rewrite E. set_solver.
Qed.

Lemma calls_from_new cap calls hs s : lenZ calls < 2 ^ 31 -> spec_calls cap calls [] spec_new = Some (hs, s) ->
  exists c0 addr ps c, LRUCache_new cap = Some c0 /\ cache_calls malloc H calls [] c0 = Some (ps, c) /\ rel addr (lenZ calls) cap c s /\ length ps = length hs
  /\ forall i h p, hs !! i = Some h -> ps !! i = Some p -> match h with Some n => p = addr n /\ p <> 0 | None => p = 0 end.
Proof.
  intros Hn Hc. destruct (new_ok (fun _ => 1) cap) as (c0 & E0 & Hr0). destruct (calls_ok cap calls (fun _ => 1) 0 c0 spec_new [] [] hs s Hr0) as (addr & ps & c & E & Hr & Hnz & H2 & Hlt); [done|constructor|constructor|lia|done|].
  exists c0, addr, ps, c. split; [done|]. split; [done|]. split; [exact Hr|]. split; [symmetry; by apply Forall2_length in H2|]. intros i h p Hi Hp. destruct (Forall2_lookup_l _ _ _ _ _ H2 Hi) as (p' & Hp' & Hh). rewrite Hp in Hp'. injection Hp' as <-. unfold handle_of in Hh. destruct h as [n|]; [|done].
  split; [done|]. rewrite Hh. apply Hnz. rewrite List.Forall_forall in Hlt. apply (Hlt (Some n)); [|done]. apply list_elem_of_In. by apply list_elem_of_lookup_2 with i.
Qed.

(** C13: the cache does what its specification says.  A client that releases only handles it
    has may make any calls: no memory is used that is not allocated, no assertion fails, the
    calls that find nothing return NULL and the others handles of the values that the
    specification names.  The deleters are called for the entries, and in the order, that the
    specification says; [usage_] is the sum of the charges of what is allocated, and nothing
    else is.  When all handles are released the destructor deletes the rest.  The addresses
    that [malloc] returns may have been used before. *)
Theorem cache_refines cap calls hs s : lenZ calls < 2 ^ 31 -> spec_calls cap calls [] spec_new = Some (hs, s) ->
  exists c0 ps c, LRUCache_new cap = Some c0 /\ cache_calls malloc H calls [] c0 = Some (ps, c) /\ length ps = length hs
  /\ (forall i h p, hs !! i = Some h -> ps !! i = Some p -> match h with Some n => p <> 0 /\ forall v, sp_value n s = Some v -> Value p c = Some v | None => p = 0 end)
  /\ deleted c = sp_deleted s /\ usage_ c = u64 (sum_charges (sp_cached s ++ sp_loose s)) /\ size (mem c) = (1 + length (sp_cached s) + length (sp_loose s))%nat
  /\ (sp_loose s = [] -> (forall e, e ∈ sp_cached s -> held e = O) -> exists c', LRUCache_delete c = Some c' /\ deleted c' = sp_deleted s ++ ((fun e => (ce_key e, ce_value e)) <$> sp_cached s) /\ forall p, is_Some (mem c' !! p) -> p = lru_addr).
Proof.
  intros Hn Hc. destruct (calls_from_new cap calls hs s Hn Hc) as (c0 & addr & ps & c & E0 & E & Hr & Hlen & Hh). pose proof Hr as [Hv Hcap Hdel Hser]. exists c0, ps, c. split_and!; [done|done|done| |done|apply (lv_usage _ _ _ _ _ _ _ Hv)|apply (live_size _ _ _ _ _ _ _ Hv)|by apply (LRUCache_delete_ok addr (lenZ calls) cap)].
  intros i h p Hi Hp. specialize (Hh i h p Hi Hp). destruct h as [n|]; [|done]. destruct Hh as [-> H0]. split; [done|]. intros v. by apply (rel_value _ _ _ _ _ _ _ Hr).
Qed.

(** C14: the cache returns nothing stale, and keeps what is held.  A lookup that finds
    something returns the handle of the last insertion for its key, and the key was not
    erased since; and a handle that was returned more often than it was released has the
    value that was inserted, whatever was evicted or inserted meanwhile. *)
Theorem cache_coherent cap calls hs s : lenZ calls < 2 ^ 31 -> spec_calls cap calls [] spec_new = Some (hs, s) ->
  exists c0 ps c, LRUCache_new cap = Some c0 /\ cache_calls malloc H calls [] c0 = Some (ps, c)
  /\ (forall i key p, calls !! i = Some (CLookup key) -> ps !! i = Some p -> p <> 0 -> exists j v chg, (j < i)%nat /\ calls !! j = Some (CInsert key v chg) /\ ps !! j = Some p /\ untouched calls key j i)
  /\ (forall j key v chg n p, calls !! j = Some (CInsert key v chg) -> hs !! j = Some (Some n) -> ps !! j = Some p -> (released n hs calls < acquired n hs)%nat -> Value p c = Some v).
Proof.
  intros Hn Hc. destruct (calls_from_new cap calls hs s Hn Hc) as (c0 & addr & ps & c & E0 & E & Hr & Hlen & Hh). pose proof (spec_history cap calls [] [] spec_new hs s history_new Hc) as Hi. exists c0, ps, c. split; [done|]. split; [done|]. split.
  - intros i key p Hcall Hp Hp0. destruct (lookup_lt_is_Some_2 hs i) as [h Hhi]; [rewrite <- Hlen; by apply lookup_lt_is_Some; eexists|]. pose proof (Hh i h p Hhi Hp) as Hm. destruct h as [n|]; [|done]. destruct Hm as [-> _]. destruct (hi_lookup _ _ _ Hi i key n Hcall Hhi) as (j & v & chg & Hj & A & B & Hu). exists j, v, chg.
    split; [done|]. split; [done|]. split; [|done]. destruct (lookup_lt_is_Some_2 ps j) as [q Hq]; [rewrite Hlen; by apply lookup_lt_is_Some; eexists|]. rewrite Hq. f_equal. by destruct (Hh j _ q B Hq) as [-> _].
  - intros j key v chg n p A B Hp Hlt. destruct (Hh j _ p B Hp) as [-> _]. by apply (rel_value _ _ _ _ _ _ _ Hr), (held_value _ _ _ _ _ _ _ _ Hi A B Hlt).
Qed.
End Malloc.
End Live.

(** An allocator that uses freed addresses again. *)
Definition sample_malloc (m : heap) : Z := 1 + foldr (fun x a => Z.max x.1 a) 1 (map_to_list m).

Lemma sample_malloc_ok m : sample_malloc m <> 0 /\ m !! sample_malloc m = None.
Proof.
  unfold sample_malloc. assert (H : forall l : list (Z * LRUHandle), 1 <= foldr (fun x a => Z.max x.1 a) 1 l /\ forall x, x ∈ l -> x.1 <= foldr (fun x a => Z.max x.1 a) 1 l).
  { induction l as [|y l [IH1 IH2]]; cbn [foldr]; [split; [lia|set_solver]|]. split; [lia|]. intros x [->|Hx]%elem_of_cons; [lia|]. specialize (IH2 x Hx). lia. }
  destruct (H (map_to_list m)) as [H1 H2]. split; [lia|]. destruct (m !! _) as [e|] eqn:E; [|done]. apply elem_of_map_to_list in E. specialize (H2 _ E). cbn in H2. lia.
Qed.

Definition sample_hash (k : list Z) : Z := u32 (Hash k 0).
Lemma sample_hash_ok k : 0 <= sample_hash k < 2 ^ 32.
Proof. apply uwrap_range. lia. Qed.

(** Values are replaced, found, erased while they are held and evicted; the table grows. *)
Definition sample_calls : list call :=
  [CInsert [1] 10 1; CInsert [2] 20 1; CRelease 0; CLookup [1]; CInsert [1] 11 1; CLookup [1]; CErase [2]; CLookup [2]; CInsert [3] 30 1; CRelease 3; CRelease 4; CRelease 5; CRelease 1; CInsert [4] 40 1; CInsert [5] 50 1; CInsert [6] 60 1; CRelease 8].

Lemma cache_refines_witness : exists c0 ps c, LRUCache_new 3 = Some c0 /\ cache_calls sample_malloc sample_hash sample_calls [] c0 = Some (ps, c) /\ deleted c = [([1], 10); ([1], 11); ([2], 20); ([3], 30)] /\ usage_ c = 3.
Proof.
  destruct (spec_calls 3 sample_calls [] spec_new) as [[hs s]|] eqn:E; [|vm_compute in E; discriminate E].
  destruct (cache_refines sample_hash sample_hash_ok sample_malloc sample_malloc_ok 3 sample_calls hs s) as (c0 & ps & c & H1 & H2 & _ & _ & H3 & H4 & _); [vm_compute; reflexivity|exact E|]. exists c0, ps, c. split; [exact H1|]. split; [exact H2|].
  vm_compute in E. injection E as <- <-. split; [exact H3|]. rewrite H4. vm_compute. reflexivity.
Defined.

Lemma cache_coherent_witness : exists c0 ps c, LRUCache_new 3 = Some c0 /\ cache_calls sample_malloc sample_hash sample_calls [] c0 = Some (ps, c) /\ forall p, ps !! 13%nat = Some p -> Value p c = Some 40.
Proof.
  destruct (spec_calls 3 sample_calls [] spec_new) as [[hs s]|] eqn:E; [|vm_compute in E; discriminate E].
  destruct (cache_coherent sample_hash sample_hash_ok sample_malloc sample_malloc_ok 3 sample_calls hs s) as (c0 & ps & c & H1 & H2 & _ & H3); [vm_compute; reflexivity|exact E|]. exists c0, ps, c. split; [exact H1|]. split; [exact H2|]. intros p Hp.
  vm_compute in E. injection E as <- <-. apply (H3 13%nat [4] 40 1 4%nat p); [reflexivity|reflexivity|exact Hp|vm_compute; lia].
Defined.
