(* ===== verification/LdbDrop.v ===== *)
(** * leveldb: what a compaction drops

    A compaction (src/ext/leveldb/db/db_impl.cc, [DoCompactionWork]) goes through the
    entries of its input files in order and leaves out those that no reader can need: an
    entry that a newer one hides from every snapshot, and a deletion that has nothing left
    to delete.  Here is the part of the loop that decides this, with
    [Compaction::IsBaseLevelForKey] of db/version_set.cc, and what is lost by it: nothing
    that can be seen at the oldest snapshot or later. *)

From Stdlib Require Import ZArith Lia.
From stdpp Require Import base list numbers option sorting.
From S2P Require Import Prelude ByteOrder WebappStr Session LdbCoding LdbMem LdbIter LdbSep LdbBuild LdbVersion LdbEdit.
Open Scope Z_scope.
Open Scope webapp_scope.

(** ** The code *)

(** The loop over the files of a level from [level_ptrs_] on: where it stops, and whether
    the key falls in the range of the file there. *)
Fixpoint skip_files (files : list FileMetaData) (ptr : nat) (user_key : list Z) : nat * bool :=
  match files with
  | [] => (ptr, false)
  | f :: files =>
      if negb (is_gt (Slice_compare user_key (large_key f))) then (ptr, negb (is_lt (Slice_compare user_key (small_key f))))
      else skip_files files (S ptr) user_key
  end.
Fixpoint base_levels (v : Version) (levels : list nat) (user_key : list Z) (level_ptrs : list nat) : bool * list nat :=
  match levels with
  | [] => (true, level_ptrs)
  | lvl :: levels =>
      let ptr := default 0%nat (level_ptrs !! lvl) in
      let '(ptr, inside) := skip_files (drop ptr (files_ v lvl)) ptr user_key in
      let level_ptrs := <[lvl := ptr]> level_ptrs in
      if inside then (false, level_ptrs) else base_levels v levels user_key level_ptrs
  end.
Definition IsBaseLevelForKey (v : Version) (level : nat) (user_key : list Z) (level_ptrs : list nat) : bool * list nat :=
  base_levels v (seq (level + 2) (kNumLevels - (level + 2))) user_key level_ptrs.

(** [current_user_key] with [has_current_user_key], [last_sequence_for_key] and
    [level_ptrs_]. *)
Record dstate := mkD { current_user_key : option (list Z); last_sequence_for_key : Z; level_ptrs_ : list nat }.
Definition dstate_new : dstate := mkD None kMaxSequenceNumber (replicate kNumLevels 0%nat).

Section Drop.
Context (smallest_snapshot manual_garbage_cutoff_ : Z) (input_version_ : Version) (level_ : nat).

(** The decision about an entry with the internal key [key]. *)
Definition decide_drop (ds : dstate) (key : list Z) : bool * dstate :=
  match ParseInternalKey key with
  | None => (false, mkD None kMaxSequenceNumber (level_ptrs_ ds))
  | Some ikey =>
      let first := match current_user_key ds with
                   | None => true
                   | Some k => match Slice_compare (LdbMem.user_key ikey) k with Eq => false | _ => true end
                   end in
      let last := if first then kMaxSequenceNumber else last_sequence_for_key ds in
      let '(drop, ptrs) :=
        if last <=? smallest_snapshot then (true, level_ptrs_ ds)
        else if (type ikey =? kTypeDeletion) && (sequence ikey <=? smallest_snapshot)
        then IsBaseLevelForKey input_version_ level_ (LdbMem.user_key ikey) (level_ptrs_ ds)
        else (false, level_ptrs_ ds) in
      let drop := if drop && (last =? kMaxSequenceNumber) && (manual_garbage_cutoff_ <=? sequence ikey) then false else drop in
      (drop, mkD (Some (LdbMem.user_key ikey)) (sequence ikey) ptrs)
  end.

(** The entries that stay. *)
Fixpoint kept_entries (ds : dstate) (l : list ientry) : list ientry :=
  match l with
  | [] => []
  | e :: l => let '(drop, ds) := decide_drop ds (ikey e) in if drop then kept_entries ds l else e :: kept_entries ds l
  end.
End Drop.

(** ** Base levels *)

Section Base.
Context (v : Version).
(** The files of a level begin one after the other. *)
Definition in_sequence (files : list FileMetaData) : Prop :=
  forall i j f g, files !! i = Some f -> files !! j = Some g -> (i <= j)%nat -> Slice_compare (small_key g) (small_key f) <> Lt.

(** The files that have been passed end before the key. *)
Definition passed (level_ptrs : list nat) (k : list Z) : Prop :=
  length level_ptrs = kNumLevels
  /\ forall lvl ptr i f, level_ptrs !! lvl = Some ptr -> (i < ptr)%nat -> files_ v lvl !! i = Some f -> key_lt (large_key f) k.

Lemma passed_le ptrs k k' : passed ptrs k -> Slice_compare k k' <> Gt -> passed ptrs k'.
Proof. intros [Hl H] Hk. split; [done|]. intros lvl ptr i f Hp Hi Hf. apply (below_trans _ k); [by apply (H lvl ptr i)|done]. Qed.

Lemma not_gt_le a b : negb (is_gt (Slice_compare a b)) = true <-> Slice_compare a b <> Gt.
Proof. by destruct (Slice_compare a b). Qed.

Lemma skip_files_ok files ptr k : in_sequence files -> let '(n, inside) := skip_files files ptr k in
  (ptr <= n)%nat /\ (forall i f, (i < n - ptr)%nat -> files !! i = Some f -> key_lt (large_key f) k)
  /\ (inside = false -> forall f, f ∈ files -> in_range k f = false).
Proof.
  revert ptr. induction files as [|f files IH]; intros ptr Hs; cbn [skip_files]; [split_and!; [done|lia|intros _ f ?%elem_of_nil; done]|].
  destruct (is_gt _) eqn:E; cbn [negb].
  - assert (Hs' : in_sequence files) by (intros i j g h Hi Hj Hij; apply (Hs (S i) (S j)); [done..|lia]). specialize (IH (S ptr) Hs').
    destruct (skip_files files (S ptr) k) as [n inside]. destruct IH as (H1 & H2 & H3). split_and!; [lia| |].
    + intros [|i] g Hi Hg; simpl in Hg; [|apply (H2 i); [lia|done]]. injection Hg as <-. rewrite is_gt_flip in E. by apply is_lt_true in E.
    + intros Hin g [->|Hg]%elem_of_cons; [|by apply H3]. unfold in_range. by rewrite E, andb_false_r.
  - split_and!; [lia|lia|]. intros Hin g [i Hg]%list_elem_of_lookup. apply negb_false_iff, is_lt_true in Hin. unfold in_range.
    apply andb_false_intro1, negb_false_iff, is_lt_true. apply (not_before_trans _ (small_key f)); [done|]. apply (Hs 0%nat i f g); [done..|lia].
Qed.

Lemma passed_insert ptrs lvl ptr n k : passed ptrs k -> ptrs !! lvl = Some ptr ->
  (forall i f, (i < n - ptr)%nat -> drop ptr (files_ v lvl) !! i = Some f -> key_lt (large_key f) k) -> passed (<[lvl := n]> ptrs) k.
Proof.
  intros [Hl Hp] Hptr Hn. split; [by rewrite length_insert|]. intros lvl' p i f Hp' Hi Hf. destruct (decide (lvl' = lvl)) as [->|Hne].
  - rewrite list_lookup_insert_eq in Hp' by (by eapply lookup_lt_Some). injection Hp' as <-. destruct (decide (i < ptr)%nat) as [?|?]; [by apply (Hp lvl ptr i)|].
    apply (Hn (i - ptr)%nat); [lia|]. rewrite lookup_drop. by replace (ptr + (i - ptr))%nat with i by lia.
  - rewrite list_lookup_insert_ne in Hp' by done. by apply (Hp lvl' p i).
Qed.

Context (Hs : forall lvl, (0 < lvl)%nat -> in_sequence (files_ v lvl)).

Lemma base_levels_ok levels ptrs k : (forall lvl, lvl ∈ levels -> (0 < lvl < kNumLevels)%nat) -> passed ptrs k ->
  let '(base, ptrs') := base_levels v levels k ptrs in
  passed ptrs' k /\ (base = true -> forall lvl f, lvl ∈ levels -> f ∈ files_ v lvl -> in_range k f = false).
Proof.
  revert ptrs. induction levels as [|lvl levels IH]; intros ptrs Hlv Hp; cbn [base_levels]; [split; [done|]; intros _ lvl f ?%elem_of_nil; done|].
  destruct (lookup_lt_is_Some_2 ptrs lvl) as [ptr Hptr]; [destruct Hp as [-> _]; apply Hlv; by left|]. rewrite Hptr. cbn [default].
  assert (Hseq : in_sequence (drop ptr (files_ v lvl))).
  { intros i j f g Hi Hj Hij. rewrite lookup_drop in Hi, Hj. apply (Hs lvl ltac:(apply Hlv; by left) (ptr + i)%nat (ptr + j)%nat); [done..|lia]. }
  pose proof (skip_files_ok (drop ptr (files_ v lvl)) ptr k Hseq) as Hskip. change (id ptr) with ptr. destruct (skip_files _ _ _) as [n inside]. destruct Hskip as (H1 & H2 & H3).
  pose proof (passed_insert ptrs lvl ptr n k Hp Hptr H2) as Hp'. destruct inside; [done|].
  specialize (IH (<[lvl := n]> ptrs) ltac:(intros l Hl; apply Hlv; by right) Hp'). destruct (base_levels _ _ _ _) as [base ptrs']. destruct IH as [IH1 IH2].
  split; [done|]. intros Hb lvl' f [->|Hl]%elem_of_cons Hf; [|by apply (IH2 Hb lvl')]. apply list_elem_of_lookup in Hf as [i Hi].
  destruct (decide (i < ptr)%nat) as [Hlt|Hge].
  - unfold in_range. destruct Hp as [_ Hp]. pose proof (Hp lvl ptr i f Hptr Hlt Hi) as Hk. apply andb_false_intro2. rewrite is_gt_flip. unfold key_lt in Hk. by rewrite Hk.
  - apply H3; [done|]. apply (list_elem_of_lookup_2 _ (i - ptr)). rewrite lookup_drop. by replace (ptr + (i - ptr))%nat with i by lia.
Qed.

Lemma IsBaseLevelForKey_ok level ptrs k : passed ptrs k ->
  let '(base, ptrs') := IsBaseLevelForKey v level k ptrs in
  passed ptrs' k /\ (base = true -> forall lvl f, (level + 2 <= lvl < kNumLevels)%nat -> f ∈ files_ v lvl -> in_range k f = false).
Proof.
  intros Hp. pose proof (base_levels_ok (seq (level + 2) (kNumLevels - (level + 2))) ptrs k) as H. unfold IsBaseLevelForKey. destruct (base_levels _ _ _ _) as [base ptrs'].
  destruct H as [H1 H2]; [intros lvl Hl%elem_of_seq; lia|done|]. split; [done|]. intros Hb lvl f Hl Hf. apply (H2 Hb lvl f); [|done]. apply elem_of_seq. lia.
Qed.
End Base.

(** ** What stays *)

Section Kept.
Context (S0 cutoff : Z) (v : Version) (level : nat).
Context (Hs : forall lvl, (0 < lvl)%nat -> in_sequence (files_ v lvl)) (Hsnap : S0 < kMaxSequenceNumber).
Abbreviation kept := (kept_entries S0 cutoff v level).

(** A newer entry that every snapshot sees. *)
Definition hidden (l : list ientry) (e : ientry) : Prop := exists y, y ∈ l /\ e_key y = e_key e /\ e_seq e < e_seq y /\ e_seq y <= S0.
(** A deletion, and no file below the level that is written has the key in its range. *)
Definition obsolete (e : ientry) : Prop :=
  e_type e = kTypeDeletion /\ e_seq e <= S0 /\ forall lvl f, (level + 2 <= lvl < kNumLevels)%nat -> f ∈ files_ v lvl -> in_range (e_key e) f = false.

(** The versions of a key follow each other, the newest first. *)
Definition newest_ahead (l : list ientry) : Prop := StronglySorted (fun x y => e_lt x y /\ (e_key x = e_key y -> e_seq y < e_seq x)) l.

(** What the loop remembers of the entries [p] it has seen. *)
Definition recalls (ds : dstate) (p : list ientry) : Prop :=
  match list.last p with
  | None => current_user_key ds = None
  | Some y => current_user_key ds = Some (e_key y) /\ last_sequence_for_key ds = e_seq y
  end.

Lemma newest_ahead_lt p q x y : newest_ahead (p ++ q) -> x ∈ p -> y ∈ q -> e_lt x y /\ (e_key x = e_key y -> e_seq y < e_seq x).
Proof. intros H. apply StronglySorted_app in H as (H & _ & _). intros. by apply H. Qed.

(** Between two versions of a key there are only others. *)
Lemma same_key_between x y z : e_lt x y \/ x = y -> e_lt y z -> e_key x = e_key z -> e_key y = e_key z.
Proof.
  intros [Hxy| ->] Hyz E; [|done]. unfold e_lt in *. assert (H1 : Slice_compare (e_key x) (e_key y) <> Gt) by (apply e_compare_key; congruence).
  assert (H2 : Slice_compare (e_key y) (e_key z) <> Gt) by (apply e_compare_key; congruence). rewrite E in H1.
  destruct (Slice_compare (e_key y) (e_key z)) eqn:E2; [by apply Slice_compare_eq|exfalso|done]. rewrite Slice_compare_antisym, E2 in H1. done.
Qed.

(** An entry is hidden just when the one before it hides it. *)
Lemma hidden_last p e l : newest_ahead (p ++ e :: l) ->
  hidden (p ++ e :: l) e <-> exists y, list.last p = Some y /\ e_key y = e_key e /\ e_seq y <= S0.
Proof.
  intros Ho. split.
  - intros (y & [Hy|Hy]%elem_of_app & Hk & Hlt & Hle).
    + destruct (list.last p) as [z|] eqn:E; [|apply last_None in E; subst p; by apply elem_of_nil in Hy]. exists z. apply last_Some in E as [p' ->].
      assert (Hyz : (e_lt y z /\ (e_key y = e_key z -> e_seq z < e_seq y)) \/ y = z).
      { apply elem_of_app in Hy as [Hy|Hy%list_elem_of_singleton]; [left|by right]. rewrite <- app_assoc in Ho. eapply newest_ahead_lt; [exact Ho|done|by left]. }
      assert (Hkz : e_key z = e_key e). { apply (same_key_between y z e); [|eapply (newest_ahead_lt _ _ z e Ho); [apply elem_of_app; right; by left|by left]|done]. destruct Hyz as [[? _]| ->]; [by left|by right]. }
      split_and!; [done..|]. destruct Hyz as [[_ Hyz]| ->]; [|done]. specialize (Hyz ltac:(congruence)). lia.
    + apply elem_of_cons in Hy as [->|Hy]; [lia|]. apply StronglySorted_app in Ho as (_ & _ & Ho). apply StronglySorted_cons in Ho as [Ho _].
      destruct (Forall_elem _ _ _ Ho Hy) as [_ H]. specialize (H ltac:(done)). lia.
  - intros (y & Hy & Hk & Hle). apply last_elem in Hy. exists y. split_and!; [apply elem_of_app; by left|done| |done]. eapply newest_ahead_lt; [exact Ho|done|by left|done].
Qed.

(** The decision about one entry. *)
Lemma decide_ok ds p e l : newest_ahead (p ++ e :: l) -> entry_ok e -> recalls ds p -> passed v (level_ptrs_ ds) (e_key e) ->
  let '(drop, ds') := decide_drop S0 cutoff v level ds (ikey e) in
  recalls ds' (p ++ [e]) /\ passed v (level_ptrs_ ds') (e_key e)
  /\ (drop = true -> hidden (p ++ e :: l) e \/ obsolete e) /\ (hidden (p ++ e :: l) e -> drop = true).
Proof.
  intros Ho He Hr Hp. pose proof (hidden_last p e l Ho) as Hh. unfold decide_drop. rewrite (Parse_ikey e He). cbn [LdbMem.user_key sequence type].
  set (last := if (match current_user_key ds with Some _ => _ | None => _ end) : bool then _ else _).
  assert (Hlast : last <= S0 <-> exists y, list.last p = Some y /\ e_key y = e_key e /\ e_seq y <= S0).
  { unfold last. unfold recalls in Hr. destruct (list.last p) as [y|]; [destruct Hr as [-> ->]|rewrite Hr; split; [lia|by intros (? & ? & _)]].
    destruct (Slice_compare (e_key e) (e_key y)) eqn:E.
    - apply Slice_compare_eq in E. split; [intros; by exists y|]. by intros (y' & [= <-] & _ & ?).
    - split; [lia|]. intros (y' & [= <-] & Hk & _). by rewrite Hk, (proj2 (Slice_compare_eq _ _) eq_refl) in E.
    - split; [lia|]. intros (y' & [= <-] & Hk & _). by rewrite Hk, (proj2 (Slice_compare_eq _ _) eq_refl) in E. }
  rewrite <- Hlast in Hh. clearbody last. assert (Hrec : forall q, recalls (mkD (Some (e_key e)) (e_seq e) q) (p ++ [e])) by (intros q; unfold recalls; by rewrite last_snoc).
  destruct (Z.leb_spec last S0) as [Hle|Hgt].
  - rewrite (proj2 (Z.eqb_neq last kMaxSequenceNumber)) by lia. simpl. split_and!; [apply Hrec|done|intros _; left; by apply Hh|done].
  - destruct ((e_type e =? kTypeDeletion) && (e_seq e <=? S0)) eqn:Ed; [|simpl; split_and!; [apply Hrec|done|done|intros H%Hh; lia]].
    apply andb_true_iff in Ed as [Et%Z.eqb_eq Es%Z.leb_le]. pose proof (IsBaseLevelForKey_ok v Hs level (level_ptrs_ ds) (e_key e) Hp) as Hb.
    destruct (IsBaseLevelForKey v level (e_key e) (level_ptrs_ ds)) as [base ptrs]. destruct Hb as [Hb1 Hb2]. simpl. split_and!; [apply Hrec|done| |intros H%Hh; lia].
    intros Hd. right. split_and!; [done..|]. apply Hb2. by destruct base.
Qed.

Lemma newest_ahead_NoDup l : newest_ahead l -> NoDup l.
Proof.
  induction 1 as [|e l Ho IH He]; [constructor|]. constructor; [|done]. intros Hin. destruct (Forall_elem _ _ _ He Hin) as [_ H]. specialize (H eq_refl). lia.
Qed.

Lemma newest_ahead_inj l x y : newest_ahead l -> x ∈ l -> y ∈ l -> e_key x = e_key y -> e_seq x = e_seq y -> x = y.
Proof.
  induction 1 as [|e l Ho IH He]; intros Hx Hy Hk Hseq; [by apply elem_of_nil in Hx|].
  apply elem_of_cons in Hx as [->|Hx], Hy as [->|Hy]; [done| | |by apply IH].
  - destruct (Forall_elem _ _ _ He Hy) as [_ H]. specialize (H Hk). lia.
  - destruct (Forall_elem _ _ _ He Hx) as [_ H]. specialize (H (eq_sym Hk)). lia.
Qed.

Lemma kept_sub ds l : kept ds l `sublist_of` l.
Proof.
  revert ds. induction l as [|e l IH]; intros ds; [done|]. cbn [kept_entries]. destruct (decide_drop _ _ _ _ _ _) as [[|] ds']; [by apply sublist_cons|by apply sublist_skip].
Qed.

Lemma kept_in ds l e : e ∈ kept ds l -> e ∈ l.
Proof. intros He. eapply elem_of_submseteq; [exact He|]. apply sublist_submseteq, kept_sub. Qed.

Lemma kept_ok p l ds : newest_ahead (p ++ l) -> Forall entry_ok l -> recalls ds p -> (forall e, e ∈ l -> passed v (level_ptrs_ ds) (e_key e)) ->
  forall e, e ∈ l -> (e ∉ kept ds l -> hidden (p ++ l) e \/ obsolete e) /\ (hidden (p ++ l) e -> e ∉ kept ds l).
Proof.
  revert p ds. induction l as [|a l IH]; intros p ds Ho Hok Hr Hp e He; [by apply elem_of_nil in He|]. apply Forall_cons_1 in Hok as [Ha Hok].
  pose proof (decide_ok ds p a l Ho Ha Hr (Hp a ltac:(by left))) as Hd. cbn [kept_entries]. destruct (decide_drop _ _ _ _ _ _) as [drop ds']. destruct Hd as (Hr' & Hp' & Hd1 & Hd2).
  assert (Hnd : a ∉ l). { apply newest_ahead_NoDup, NoDup_app in Ho as (_ & _ & Hn). by apply NoDup_cons in Hn as [? _]. }
  assert (Hka : forall ds'', a ∉ kept ds'' l) by (intros ds'' Hk; by apply Hnd, (kept_in ds'')).
  specialize (IH (p ++ [a]) ds'). rewrite <- app_assoc in IH. simpl in IH. specialize (IH Ho Hok Hr').
  assert (Hps : forall x, x ∈ l -> passed v (level_ptrs_ ds') (e_key x)).
  { intros x Hx. apply (passed_le v _ (e_key a)); [done|]. apply e_compare_key. apply StronglySorted_app in Ho as (_ & _ & Ho). apply StronglySorted_cons in Ho as [Ho _].
    destruct (Forall_elem _ _ _ Ho Hx) as [Hlt _]. unfold e_lt in Hlt. congruence. }
  specialize (IH Hps). apply elem_of_cons in He as [->|He].
  - destruct drop; [split; [by intros _; apply Hd1|by intros _]|]. split; [intros Hn; exfalso; apply Hn; by left|]. intros Hh. by specialize (Hd2 Hh).
  - specialize (IH e He) as [IH1 IH2]. assert (e <> a) by (intros ->; done). destruct drop; [done|]. split; [intros Hn; apply IH1; intros Hk; apply Hn; by right|].
    intros Hh. apply not_elem_of_cons. split; [done|by apply IH2].
Qed.

Lemma passed_new k : passed v (level_ptrs_ dstate_new) k.
Proof. split; [done|]. intros lvl ptr i f Hp Hi. apply lookup_replicate in Hp as [-> _]. lia. Qed.

(** At a snapshot that is not older than the oldest, the newest entry of a key that can be
    seen stays, unless it is a deletion of a key that no deeper level has. *)
Lemma kept_looked l key s r : newest_ahead l -> Forall entry_ok l -> S0 <= s -> looked l key s r ->
  looked (kept dstate_new l) key s r
  \/ (exists e, r = Some e /\ obsolete e) /\ forall x, x ∈ kept dstate_new l -> e_key x = key -> s < e_seq x.
Proof.
  intros Ho Hok Hss Hr. assert (Hkept : forall e, e ∈ l -> (e ∉ kept dstate_new l -> hidden l e \/ obsolete e) /\ (hidden l e -> e ∉ kept dstate_new l)).
  { intros e He. apply (kept_ok [] l dstate_new); [done..| |done]. intros. apply passed_new. }
  destruct r as [e|]; [|left; intros x Hx; apply Hr; by apply (kept_in dstate_new)]. destruct Hr as (He & Hk & Hse & Hmax).
  destruct (decide (e ∈ kept dstate_new l)) as [Hin|Hout]; [left; split_and!; [done..|]; intros x Hx; apply Hmax; by apply (kept_in dstate_new)|].
  destruct (Hkept e He) as [H1 _]. destruct (H1 Hout) as [(y & Hy & Hky & Hlt & Hle)|Hobs].
  { specialize (Hmax y Hy ltac:(congruence) ltac:(lia)). lia. }
  right. split; [by exists e|]. intros x Hx Hkx. apply Z.nle_gt. intros Hsx. pose proof (kept_in _ _ _ Hx) as Hxl. specialize (Hmax x Hxl Hkx Hsx).
  assert (Hne : x <> e) by (intros ->; done). destruct Hobs as (_ & Hobs & _). apply (Hkept x Hxl); [|done]. exists e. split_and!; [done|congruence| |done].
  assert (e_seq x <> e_seq e) by (intros E; apply Hne, (newest_ahead_inj l); [done..|congruence|done]). lia.
Qed.
End Kept.
