(* ===== verification/LdbReplace.v ===== *)
(** * leveldb: a compaction replaces files of a version

    What a compaction does to a version, whatever the files are that it takes and makes: the
    files that it takes, of a level and of the next one, go, and those that it makes join
    the next level.  [replacement] says which files may be taken and made.  Under it the
    version stays in order ([replace_in_order]) and lookups at the oldest snapshot or later
    find what they found ([replace_looked]), if the new files hold what [LdbDrop] keeps. *)

From Stdlib Require Import ZArith Lia.
From stdpp Require Import base list numbers option sorting.
From S2P Require Import Prelude ByteOrder WebappStr Session LdbCoding LdbMem LdbIter LdbSep LdbBuild LdbVersion LdbEdit LdbManifest LdbFlush LdbScan LdbDrop.
Open Scope Z_scope.
Open Scope webapp_scope.

Section Replace.
Context `{TB : !Tables} (es : FileMetaData -> list ientry) (v : Version) (level : nat) (in0 in1 : list FileMetaData).
Abbreviation inputs := (in0 ++ in1).

(** The files that are taken.  Those of the level that stay are newer; those of the next level that
    stay have no user key in common with what is taken. *)
Record taken : Prop := mkTaken {
  tk_level : (S level < kNumLevels)%nat;
  tk_zero : in0 ⊆ files_ v level;
  tk_next : in1 ⊆ files_ v (S level);
  tk_newer : forall f g, f ∈ files_ v level -> f ∉ in0 -> g ∈ in0 -> above (es f) (es g);
  tk_side : forall f g x y, f ∈ files_ v (S level) -> f ∉ in1 -> g ∈ inputs -> x ∈ es f -> y ∈ es g -> e_key x <> e_key y }.

(** Those of the next level that stay are before or behind all that is taken. *)
Definition aside : Prop := forall f, f ∈ files_ v (S level) -> f ∉ in1 ->
  (forall g x y, g ∈ inputs -> x ∈ es f -> y ∈ es g -> key_lt (e_key x) (e_key y))
  \/ (forall g x y, g ∈ inputs -> x ∈ es f -> y ∈ es g -> key_lt (e_key y) (e_key x)).

(** The new files, and the edit that makes the change. *)
Record replacement (new : list FileMetaData) (es' : FileMetaData -> list ientry) (e : VersionEdit) : Prop := mkReplacement {
  rp_old : forall k f, f ∈ files_ v k -> es' f = es f;
  rp_files : forall f, f ∈ new -> file_ok f (es' f);
  rp_from : forall f x, f ∈ new -> x ∈ es' f -> exists g, g ∈ inputs /\ x ∈ es g;
  rp_apart : forall f g, f ∈ new -> g ∈ new -> f <> g -> apart es' f g;
  rp_side : forall f g, f ∈ new -> g ∈ files_ v (S level) -> g ∉ in1 -> apart es' f g;
  rp_numbers : NoDup (fm_number <$> files_ v (S level) ++ new);
  rp_short : lenZ (files_ v (S level)) + lenZ new < 2 ^ 31;
  rp_new : new_files_ e = (fun f => (S level, f)) <$> new;
  rp_deleted : forall k n, (k, n) ∈ deleted_files_ e <-> (k = level /\ n ∈ fm_number <$> in0) \/ (k = S level /\ n ∈ fm_number <$> in1) }.

(** In which order they are taken. *)
Record listed : Prop := mkListed {
  ls_zero : level = 0%nat -> NoDup in0;
  ls_level : level <> 0%nat -> in0 `sublist_of` files_ v level;
  ls_next : in1 `sublist_of` files_ v (S level) }.

(** What is made of files on whose sides the others are is apart from them. *)
Lemma aside_apart (new : list FileMetaData) es' : aside -> (forall k f, f ∈ files_ v k -> es' f = es f) -> (forall f x, f ∈ new -> x ∈ es' f -> exists g, g ∈ inputs /\ x ∈ es g) ->
  forall f g, f ∈ new -> g ∈ files_ v (S level) -> g ∉ in1 -> apart es' f g.
Proof.
  intros Ha Hold Hfrom f g Hf Hg Hn. destruct (Ha g Hg Hn) as [Hs|Hs]; [right|left]; intros x y; rewrite (Hold _ g Hg); intros Hx Hy.
  - destruct (Hfrom f y Hf Hy) as (h & Hh & Hy'). apply key_lt_e_compare. by apply (Hs h).
  - destruct (Hfrom f x Hf Hx) as (h & Hh & Hx'). apply key_lt_e_compare. by apply (Hs h).
Qed.

Lemma aside_side : aside -> forall f g x y, f ∈ files_ v (S level) -> f ∉ in1 -> g ∈ inputs -> x ∈ es f -> y ∈ es g -> e_key x <> e_key y.
Proof. intros Ha f g x y Hf Hn Hg Hx Hy E. destruct (Ha f Hf Hn) as [Hs|Hs]; specialize (Hs g x y Hg Hx Hy); rewrite E in Hs; by apply key_lt_irrefl in Hs. Qed.

Context (Hv : version_in_order es v) (Ht : taken).

Lemma input_level g : g ∈ inputs -> exists k, (k = level \/ k = S level) /\ g ∈ files_ v k.
Proof. intros [Hg|Hg]%elem_of_app; [exists level; split; [by left|by apply Ht]|exists (S level); split; [by right|by apply Ht]]. Qed.

Lemma input_ok g : g ∈ inputs -> file_ok g (es g).
Proof. intros (k & _ & Hg)%input_level. by apply (vo_files _ _ (io_ok _ _ Hv) k). Qed.

(** Levels above, and the files of the level that stay, are newer than what is taken. *)
Lemma inputs_newer i f g : f ∈ files_ v i -> ((i < level)%nat \/ (i = level /\ f ∉ in0)) -> g ∈ inputs -> above (es f) (es g).
Proof.
  intros Hf Hi Hg. pose proof (vo_above _ _ (io_ok _ _ Hv)) as Hab. assert (Habf : forall j, (i < j)%nat -> g ∈ files_ v j -> above (es f) (es g)).
  { intros j Hj Hgj x y Hx Hy. apply (Hab i j Hj); apply elem_of_held; [by exists f|by exists g]. }
  apply elem_of_app in Hg as [Hg|Hg].
  - destruct Hi as [Hi|[-> Hn]]; [apply (Habf level Hi); by apply Ht|by apply (tk_newer Ht)].
  - apply (Habf (S level)); [lia|]. by apply Ht.
Qed.

(** What is taken is newer than the deeper levels. *)
Lemma inputs_older j f g : f ∈ files_ v j -> (S level < j)%nat -> g ∈ inputs -> above (es g) (es f).
Proof.
  intros Hf Hj (k & Hk & Hg)%input_level x y Hx Hy. apply (vo_above _ _ (io_ok _ _ Hv) k j ltac:(lia)); apply elem_of_held; [by exists g|by exists f].
Qed.

(** ** The entries of the inputs *)

Abbreviation held files := (mjoin (es <$> files)).

Lemma files_disjoint i j f g x : f ∈ files_ v i -> g ∈ files_ v j -> i <> j \/ f <> g -> x ∈ es f -> x ∈ es g -> False.
Proof.
  intros Hf Hg Hne Hx Hx'. pose proof (io_ok _ _ Hv) as Hvo. assert (Hab : forall i j f g, (i < j)%nat -> f ∈ files_ v i -> g ∈ files_ v j -> x ∈ es f -> x ∈ es g -> False).
  { clear -Hvo. intros i j f g Hij Hf Hg Hx Hx'. assert (e_seq x < e_seq x); [|lia]. apply (vo_above _ _ Hvo i j Hij); [apply elem_of_held; by exists f|apply elem_of_held; by exists g|done]. }
  destruct (Nat.lt_trichotomy i j) as [Hij|[->|Hij]]; [by apply (Hab i j f g)| |by apply (Hab j i g f)]. destruct Hne as [|Hne]; [done|]. destruct j as [|j].
  - assert (Hnum : fm_number f <> fm_number g).
    { intros E. apply Hne. pose proof (vo_numbers _ _ Hvo) as Hn. apply list_elem_of_lookup in Hf as [i Hi], Hg as [j Hj]. assert (i = j) as ->; [|congruence].
      apply (NoDup_lookup _ i j (fm_number f) Hn); rewrite list_lookup_fmap; [by rewrite Hi|by rewrite Hj, E]. }
    destruct (Z.lt_total (fm_number f) (fm_number g)) as [Hlt|[?|Hlt]]; [|done|].
    + pose proof (vo_zero _ _ Hvo g f Hg Hf Hlt x x Hx' Hx eq_refl). lia.
    + pose proof (vo_zero _ _ Hvo f g Hf Hg Hlt x x Hx Hx' eq_refl). lia.
  - destruct (files_apart es v (S j) f g Hvo ltac:(lia) Hf Hg Hne) as [Ha|Ha]; apply (e_lt_irrefl x); by apply Ha.
Qed.

Lemma sublist_sorted {A} (R : A -> A -> Prop) k l : k `sublist_of` l -> StronglySorted R l -> StronglySorted R k.
Proof.
  induction 1 as [|x k l Hk IH|x k l Hk IH]; intros Hs; [done|apply StronglySorted_cons in Hs as [Hx Hs]..].
  - constructor; [by apply IH|]. apply List.Forall_forall. intros y Hy%list_elem_of_In. apply (Forall_elem _ _ _ Hx). eapply elem_of_submseteq; [exact Hy|by apply sublist_submseteq].
  - by apply IH.
Qed.

Lemma sublist_held k l : k `sublist_of` l -> held k `sublist_of` held l.
Proof.
  induction 1 as [|x k l Hk IH|x k l Hk IH]; [done|..]; cbn [fmap list_fmap mjoin list_join]; [by apply sublist_app|]. by apply sublist_inserts_l.
Qed.

Section Listed.
Context (Hlist : listed).

Lemma listed_NoDup : NoDup inputs.
Proof.
  assert (Hfiles : forall k, (k < kNumLevels)%nat -> NoDup (files_ v k)) by (intros k Hk; apply files_NoDup; apply (io_levels _ _ Hv k Hk)). pose proof (tk_level Ht) as Hl.
  assert (Hsub : forall k (a : list FileMetaData), (k < kNumLevels)%nat -> a `sublist_of` files_ v k -> NoDup a) by (intros k a Hk Ha; by apply (sublist_NoDup _ _ (Hfiles k Hk))).
  apply NoDup_app. split_and!.
  - destruct (decide (level = 0%nat)) as [E|E]; [by apply (ls_zero Hlist)|]. apply (Hsub level); [lia|by apply (ls_level Hlist)].
  - intros f Hf Hf'. apply (tk_zero Ht) in Hf. apply (tk_next Ht) in Hf'. destruct (fo_first _ _ (vo_files _ _ (io_ok _ _ Hv) _ f Hf)) as (a & Ea%head_in & _). apply (files_disjoint level (S level) f f a Hf Hf'); [left; lia|done..].
  - apply (Hsub (S level)); [done|apply Hlist].
Qed.

Lemma inputs_NoDup : NoDup (held inputs).
Proof.
  assert (Hsub : forall fs, fs ⊆ inputs -> NoDup fs -> NoDup (held fs)); [|apply Hsub; [done|apply listed_NoDup]]. induction fs as [|f fs IH]; intros Hin Hnd; [constructor|].
  apply NoDup_cons in Hnd as [Hf Hnd]. cbn [fmap list_fmap mjoin list_join]. apply NoDup_app. split_and!.
  - apply e_sorted_NoDup, input_ok, Hin. by left.
  - intros x Hx (g & Hg & Hx')%elem_of_held. destruct (input_level f (Hin f ltac:(by left))) as (i & _ & Hfi). destruct (input_level g (Hin g ltac:(by right))) as (j & _ & Hgj).
    apply (files_disjoint i j f g x Hfi Hgj); [right; intros ->; done|done..].
  - apply IH; [|done]. intros g Hg. apply Hin. by right.
Qed.
End Listed.

Section After.
Context (new : list FileMetaData) (es' : FileMetaData -> list ientry) (e : VersionEdit) (ptrs : list (list Z)) (Hr : replacement new es' e).
Abbreviation v' := (SaveTo v (Builder_Apply (Builder_empty ptrs) e)).

(** The files that stay. *)
Definition stays (k : nat) (f : FileMetaData) : Prop := f ∈ files_ v k /\ (k = level -> f ∉ in0) /\ (k = S level -> f ∉ in1).

Lemma number_inj k f g : (k < kNumLevels)%nat -> f ∈ files_ v k -> g ∈ files_ v k -> fm_number f = fm_number g -> f = g.
Proof.
  intros Hk Hf Hg E. pose proof (lo_numbers _ (io_levels _ _ Hv k Hk)) as Hn. apply list_elem_of_lookup in Hf as [i Hi], Hg as [j Hj].
  assert (i = j) as ->; [|congruence]. apply (NoDup_lookup _ i j (fm_number f) Hn); rewrite list_lookup_fmap; [by rewrite Hi|by rewrite Hj, E].
Qed.

Lemma replace_level k : (k < kNumLevels)%nat -> level_ok (files_ v' k) /\ forall f, f ∈ files_ v' k <-> stays k f \/ (k = S level /\ f ∈ new).
Proof.
  intros Hk. assert (Hof : of_level (new_files_ e) k = if (S level =? k)%nat then new else []).
  { rewrite (rp_new _ _ _ Hr). clear. induction new as [|f fs IH]; [by destruct (_ =? _)%nat|]. cbn [fmap list_fmap]. rewrite of_level_cons, IH. cbn [fst snd]. by destruct (_ =? _)%nat. }
  destruct (SaveTo_level v e ptrs k Hk (io_levels _ _ Hv k Hk)) as [H1 H2].
  - split; rewrite Hof.
    + destruct (_ =? _)%nat; [|constructor]. apply List.Forall_forall. intros f Hf%list_elem_of_In. destruct (rp_files _ _ _ Hr f Hf) as [_ Ho _ (a & Ea & Es) _]. exists a. split; [|done].
      by apply (Forall_elem _ _ _ Ho), head_in.
    + destruct (Nat.eqb_spec (S level) k) as [<-|]; [apply Hr|]. rewrite app_nil_r. apply (io_levels _ _ Hv k Hk).
  - split; [done|]. intros f. rewrite H2, Hof. assert (Hdel : fm_number f ∈ of_level (deleted_files_ e) k <-> (k, fm_number f) ∈ deleted_files_ e).
    { unfold of_level. rewrite list_elem_of_fmap. setoid_rewrite list_elem_of_In. setoid_rewrite List.filter_In. setoid_rewrite <- list_elem_of_In. split.
      - intros ([k' n] & -> & Hin & E%Nat.eqb_eq). simpl in *. by subst k'.
      - intros Hin. exists (k, fm_number f). split; [done|]. split; [done|]. apply Nat.eqb_refl. }
    rewrite Hdel, (rp_deleted _ _ _ Hr). assert (Hst : f ∈ files_ v k -> (~ (k = level /\ fm_number f ∈ fm_number <$> in0 \/ k = S level /\ fm_number f ∈ fm_number <$> in1)) <-> stays k f).
    { intros Hf. assert (Hinj : forall fs, fs ⊆ files_ v k -> fm_number f ∈ fm_number <$> fs <-> f ∈ fs).
      { intros fs Hfs. split; [|by apply list_elem_of_fmap_2]. intros (g & E & Hg)%list_elem_of_fmap. by rewrite (number_inj k f g Hk Hf (Hfs g Hg) E). }
      unfold stays. split.
      - intros Hn. split_and!; [done|..]; intros -> Hin; apply Hn; [left|right]; (split; [done|by apply list_elem_of_fmap_2]).
      - intros (_ & Ha & Hb) [[-> Hin]|[-> Hin]]; apply Hinj in Hin; [by apply Ha|apply Ht|by apply Hb|apply Ht]. }
    destruct (Nat.eqb_spec (S level) k) as [<-|Hne]; rewrite ?elem_of_nil.
    + split; [intros [[Hf Hn]|Hf]; [left; by apply Hst|by right]|]. intros [Hs|[_ Hf]]; [left; split; [apply Hs|by apply Hst; [apply Hs|]]|by right].
    + split; [intros [[Hf Hn]|[]]; left; by apply Hst|]. intros [Hs|[? _]]; [left; split; [apply Hs|by apply Hst; [apply Hs|]]|congruence].
Qed.

Lemma replace_case k f : f ∈ files_ v' k -> stays k f \/ (k = S level /\ f ∈ new).
Proof.
  intros Hf. destruct (decide (k < kNumLevels)%nat) as [Hk|Hk]; [by apply (replace_level k Hk)|]. unfold files_ in Hf. rewrite lookup_ge_None_2 in Hf by (rewrite length_SaveTo; lia). by apply elem_of_nil in Hf.
Qed.

Lemma stays_es k f : stays k f -> es' f = es f.
Proof. intros (Hf & _). by apply (rp_old _ _ _ Hr k). Qed.

(** The new files among the others. *)
Lemma new_apart f g : f ∈ new -> stays (S level) g -> apart es' f g.
Proof. intros Hf (Hg & _ & Hn). apply (rp_side _ _ _ Hr); [done..|by apply Hn]. Qed.

Lemma above_new i f g : stays i f -> (i < S level)%nat -> g ∈ new -> above (es' f) (es' g).
Proof.
  intros Hf Hi Hg x y Hx Hy. rewrite (stays_es i f Hf) in Hx. destruct (rp_from _ _ _ Hr g y Hg Hy) as (h & Hh & Hy'). apply (inputs_newer i f h); [apply Hf| |done..].
  destruct (decide (i = level)) as [->|]; [right; split; [done|by apply Hf]|left; lia].
Qed.

Lemma new_above j f g : f ∈ new -> stays j g -> (S level < j)%nat -> above (es' f) (es' g).
Proof.
  intros Hf Hg Hj x y Hx Hy. rewrite (stays_es j g Hg) in Hy. destruct (rp_from _ _ _ Hr f x Hf Hx) as (h & Hh & Hx'). by apply (inputs_older j g h); [apply Hg|..].
Qed.

Lemma replace_short k : lenZ (files_ v' k) < 2 ^ 31.
Proof.
  pose proof (rp_short _ _ _ Hr) as Hsh. destruct (decide (k < kNumLevels)%nat) as [Hk|Hk]; [|unfold files_; rewrite lookup_ge_None_2 by (rewrite length_SaveTo; lia); simpl; lia].
  destruct (replace_level k Hk) as [Hok Hin]. pose proof (vo_short _ _ (io_ok _ _ Hv) k). assert (Hle : (length (files_ v' k) <= length (files_ v k ++ if (k =? S level)%nat then new else []))%nat).
  { apply submseteq_length, NoDup_submseteq; [apply files_NoDup; apply Hok|]. intros f [Hf|[-> Hf]]%Hin; apply elem_of_app; [left; apply Hf|right; by rewrite Nat.eqb_refl]. }
  rewrite length_app in Hle. destruct (Nat.eqb_spec k (S level)) as [->|]; simpl in Hle; lia.
Qed.

Lemma replace_in_order : version_in_order es' v'.
Proof.
  pose proof (io_ok _ _ Hv) as Hvo. apply in_order_intro.
  - apply length_SaveTo.
  - intros k Hk. by apply replace_level.
  - apply replace_short.
  - intros k f [Hf|[_ Hf]]%replace_case; [|by apply Hr]. rewrite (stays_es k f Hf). apply (vo_files _ _ Hvo k), Hf.
  - intros f g [Hf|[? _]]%replace_case [Hg|[? _]]%replace_case Hlt; [|done..]. rewrite (stays_es _ _ Hf), (stays_es _ _ Hg). apply (vo_zero _ _ Hvo); [apply Hf|apply Hg|done].
  - intros k f g [Hk Hk'] [Hf|[-> Hf]]%replace_case [Hg|[E Hg]]%replace_case Hne.
    + destruct (files_apart es v k f g Hvo Hk) as [H|H]; [apply Hf|apply Hg|done|left|right]; intros x y; rewrite (stays_es k f Hf), (stays_es k g Hg); apply H.
    + subst k. destruct (new_apart g f Hg Hf); [by right|by left].
    + by apply new_apart.
    + by apply Hr.
  - intros i j f g [Hij Hj] [Hf|[-> Hf]]%replace_case [Hg|[-> Hg]]%replace_case; [|by apply (above_new i)|by apply (new_above j); [..|lia]|lia].
    rewrite (stays_es i f Hf), (stays_es j g Hg). intros x y Hx Hy. apply (vo_above _ _ Hvo i j Hij); apply elem_of_held; [exists f; split; [apply Hf|done]|exists g; split; [apply Hg|done]].
Qed.

(** ** Lookups *)

Lemma elem_of_replaced x : x ∈ all_entries es' v' <-> (exists k f, stays k f /\ x ∈ es f) \/ exists f, f ∈ new /\ x ∈ es' f.
Proof.
  rewrite elem_of_all_entries by apply length_SaveTo. split.
  - intros (k & f & [Hf|[-> Hf]]%replace_case & Hx); [left; exists k, f; by rewrite <- (stays_es k f Hf)|right; by exists f].
  - intros [(k & f & Hf & Hx)|(f & Hf & Hx)].
    + assert (Hk : (k < kNumLevels)%nat). { destruct (decide (k < kNumLevels)%nat) as [|Hk]; [done|]. destruct Hf as [Hf _]. unfold files_ in Hf. rewrite lookup_ge_None_2 in Hf by (rewrite (vo_levels _ _ (io_ok _ _ Hv)); lia). by apply elem_of_nil in Hf. }
      exists k, f. split; [apply (replace_level k Hk); by left|]. by rewrite (stays_es k f Hf).
    + exists (S level), f. split; [|done]. apply (replace_level (S level) (tk_level Ht)). by right.
Qed.

Lemma elem_of_before x : x ∈ all_entries es v <-> (exists k f, stays k f /\ x ∈ es f) \/ exists f, f ∈ inputs /\ x ∈ es f.
Proof.
  rewrite elem_of_all_entries by apply (io_ok _ _ Hv). split.
  - intros (k & f & Hf & Hx). destruct (decide (k = level /\ f ∈ in0)) as [[-> Hin]|H0]; [right; exists f; split; [apply elem_of_app; by left|done]|].
    destruct (decide (k = S level /\ f ∈ in1)) as [[-> Hin]|H1]; [right; exists f; split; [apply elem_of_app; by right|done]|]. left. exists k, f. split; [|done]. split_and!; [done|..]; intros -> Hin; tauto.
  - intros [(k & f & [Hf _] & Hx)|(f & Hf & Hx)]; [by exists k, f|]. apply input_level in Hf as (k & _ & Hf). by exists k, f.
Qed.

(** A deletion that nothing below needs, and that is newest, hides nothing. *)
Lemma obsolete_alone S0 x key s k f y : obsolete S0 v level x -> (exists g, g ∈ inputs /\ x ∈ es g) -> e_key x = key ->
  (forall z, z ∈ all_entries es v -> e_key z = key -> e_seq z <= s -> e_seq z <= e_seq x) -> stays k f -> y ∈ es f -> e_key y = key -> s < e_seq y.
Proof.
  intros (_ & _ & Hbase) (g & Hg & Hx) Hkx Hmax Hf Hy Hky. apply Z.nle_gt. intros Hs. pose proof Hf as (Hfk & Hf0 & Hf1).
  assert (Hle : e_seq y <= e_seq x) by (apply Hmax; [apply elem_of_before; left; by exists k, f|done..]). destruct (Nat.lt_trichotomy k (S level)) as [Hk|[->|Hk]].
  - assert (Hlt : e_seq x < e_seq y); [|lia]. apply (inputs_newer k f g); [done| |done|done|done|congruence]. destruct (decide (k = level)) as [->|]; [right; split; [done|by apply Hf0]|left; lia].
  - apply (tk_side Ht f g y x Hfk (Hf1 eq_refl) Hg Hy Hx). congruence.
  - assert (Hlt : (k < kNumLevels)%nat). { destruct (decide (k < kNumLevels)%nat) as [|Hn]; [done|]. unfold files_ in Hfk. rewrite lookup_ge_None_2 in Hfk by (rewrite (vo_levels _ _ (io_ok _ _ Hv)); lia). by apply elem_of_nil in Hfk. }
    specialize (Hbase k f ltac:(lia) Hfk). destruct (file_range f _ y (vo_files _ _ (io_ok _ _ Hv) k f Hfk) Hy) as [H1 H2]. rewrite Hky in H1, H2. rewrite Hkx in Hbase. unfold in_range in Hbase.
    by destruct (Slice_compare key (small_key f)), (Slice_compare key (large_key f)).
Qed.

Lemma levels_in_sequence k : (0 < k)%nat -> in_sequence (files_ v k).
Proof. intros Hk i j f g Hi Hj Hij. apply (level_begins es (files_ v k) i j f g); [by apply (io_ok _ _ Hv)|intros h Hh; by apply (vo_files _ _ (io_ok _ _ Hv) k)|done..]. Qed.

Context (S0 cutoff : Z) (l : list ientry) (Hsnap : S0 < kMaxSequenceNumber) (Hl : newest_ahead l).
Context (Hin : forall x, x ∈ l <-> exists f, f ∈ inputs /\ x ∈ es f) (Hout : forall x, (exists f, f ∈ new /\ x ∈ es' f) <-> x ∈ kept_entries S0 cutoff v level dstate_new l).

Lemma inputs_entries_ok : Forall entry_ok l.
Proof. apply List.Forall_forall. intros x (f & Hf & Hx)%list_elem_of_In%Hin. by apply (Forall_elem _ _ _ (fo_entries _ _ (input_ok f Hf))). Qed.

Lemma replace_looked key s r : S0 <= s -> looked (all_entries es v) key s r ->
  exists r', looked (all_entries es' v') key s r' /\ status_of r' = status_of r.
Proof.
  intros Hs Hlook. assert (Hsub : forall x, x ∈ all_entries es' v' -> x ∈ all_entries es v).
  { intros x [Hx|Hx]%elem_of_replaced; apply elem_of_before; [by left|right]. apply Hin, (kept_in S0 cutoff v level dstate_new l), Hout, Hx. }
  destruct r as [e0|]; [|exists None; split; [intros x Hx; by apply Hlook, Hsub|done]]. destruct Hlook as (He & Hk & Hse & Hmax).
  assert (Hstill : e0 ∈ all_entries es' v' -> exists r', looked (all_entries es' v') key s r' /\ status_of r' = status_of (Some e0)).
  { intros Hin'. exists (Some e0). split; [|done]. split_and!; [done..|]. intros x Hx. by apply Hmax, Hsub. }
  apply elem_of_before in He as [Hst|Hinp]; [apply Hstill, elem_of_replaced; by left|].
  assert (Hlo : looked l key s (Some e0)). { split_and!; [by apply Hin|done..|]. intros x Hx. apply Hmax, elem_of_before. right. by apply Hin. }
  destruct (kept_looked S0 cutoff v level levels_in_sequence Hsnap l key s (Some e0) Hl inputs_entries_ok Hs Hlo) as [(Hkept & _)|[(e1 & [= <-] & Hobs) Hnone]].
  - apply Hstill, elem_of_replaced. right. by apply Hout.
  - exists None. split; [|unfold status_of, outcome; destruct Hobs as (-> & _); done].
    intros x [(k & f & Hf & Hx)|Hx]%elem_of_replaced Hkx; [by apply (obsolete_alone S0 e0 key s k f x)|]. apply Hnone; [by apply Hout|done].
Qed.
End After.
End Replace.
