(* ===== verification/LdbCompact.v ===== *)
(** * leveldb: compactions

    [DoCompactionWork] of src/ext/leveldb/db/db_impl.cc: the entries of the input files are
    merged, what no reader needs is dropped ([LdbDrop]), the rest goes to new tables, and
    the new tables take the place of the inputs ([LdbReplace]).  [MakeInputIterator] of
    db/version_set.cc makes the iterator over the inputs.  The theorem: no lookup at the
    oldest snapshot or later changes its answer. *)

From Stdlib Require Import ZArith Lia.
From stdpp Require Import base list numbers option sorting.
From S2P Require Import Prelude ByteOrder WebappStr Session LdbCoding LdbLog LdbMem LdbIter LdbMerge LdbBlock LdbSep LdbTwoLevel LdbFilter LdbFormat LdbTable LdbBuild LdbVersion LdbEdit LdbManifest LdbFlush LdbScan LdbDrop LdbReplace.
Open Scope Z_scope.
Open Scope webapp_scope.

(** [Compaction]: the inputs of the level and of the next one, and the edit so far. *)
Record Compaction := mkCompaction { c_level : nat; inputs_0 : list FileMetaData; inputs_1 : list FileMetaData; c_edit : VersionEdit; input_version_ : Version }.

Definition MaxFileSizeForLevel (level : nat) : Z := 8 * 1048576.
(** [max_output_file_size_]. *)
Definition MaxOutputFileSize (c : Compaction) : Z := MaxFileSizeForLevel (c_level c).

Definition AddInputDeletions (c : Compaction) (e : VersionEdit) : VersionEdit :=
  foldl (fun e f => DeleteFile e (S (c_level c)) (fm_number f))
    (foldl (fun e f => DeleteFile e (c_level c) (fm_number f)) e (inputs_0 c)) (inputs_1 c).

Section Work.
#[local] Existing Instance internal_order.
Context `{CM : !Compression, WF : !WritableFile} (address : Z -> Z) (opt : Options).
Context (fresh_file : WFile) (opened_file : WFile -> RandomAccessFile).

(** What the environment answers: creating, syncing and closing the file of a number; when
    the database is shut down; and the manifest. *)
Record cenv := mkCEnv { e_new : Z -> bool; e_sync : Z -> bool; e_close : Z -> bool; e_shutdown : option nat; e_versions : venv; e_ptrs : Z * Z }.
Definition shutting_down (en : cenv) (n : nat) : bool := match e_shutdown en with Some k => (k <=? n)%nat | None => false end.

(** [CompactionState]: an [Output] has the fields of a [FileMetaData].  [cs_files] are the
    files that were finished, by number. *)
Record CompactionState := mkCState { outputs : list FileMetaData; builder : option TableBuilder; cs_next : Z; cs_files : list (Z * WFile) }.

(** [current_output()], changed by [f]. *)
Definition on_current (f : FileMetaData -> FileMetaData) (l : list FileMetaData) : list FileMetaData := alter f (length l - 1)%nat l.

Definition OpenCompactionOutputFile (en : cenv) (st : CompactionState) : bool * CompactionState :=
  let file_number := cs_next st in
  let outs := outputs st ++ [mkFileMeta file_number 0 [] []] in
  let next := u64 (file_number + 1) in
  if e_new en file_number then (true, mkCState outs (Some (TableBuilder_new opt fresh_file)) next (cs_files st))
  else (false, mkCState outs (builder st) next (cs_files st)).

(** [Abandon] closes the builder. *)
Definition FinishCompactionOutputFile (en : cenv) (st : CompactionState) (input_status : bool) : bool * CompactionState :=
  match builder st with
  | None => (false, st)
  | Some b =>
      let output_number := match list.last (outputs st) with Some f => fm_number f | None => 0 end in
      let current_entries := num_entries b in
      let b := if input_status then TableBuilder_Finish address opt b else close b in
      let s := if input_status then tb_status b else false in
      let current_bytes := tb_offset b in
      let outs := on_current (fun f => mkFileMeta (fm_number f) current_bytes (smallest f) (largest f)) (outputs st) in
      let s := if s then e_sync en output_number else false in
      let s := if s then e_close en output_number else false in
      let s := if s && (0 <? current_entries) then usable address opt (opened_file (tb_file b)) current_bytes else s in
      (s, mkCState outs None (cs_next st) (cs_files st ++ [(output_number, tb_file b)]))
  end.

(** The second half of the loop's body, for an entry that is not dropped. *)
Definition add_output (en : cenv) (st : CompactionState) (key value : list Z) : bool * CompactionState :=
  let '(s, st) := match builder st with None => OpenCompactionOutputFile en st | Some _ => (true, st) end in
  match s, builder st with
  | true, Some b =>
      let outs := if num_entries b =? 0 then on_current (fun f => mkFileMeta (fm_number f) (fm_file_size f) key (largest f)) (outputs st) else outputs st in
      let outs := on_current (fun f => mkFileMeta (fm_number f) (fm_file_size f) (smallest f) key) outs in
      (true, mkCState outs (Some (TableBuilder_Add address opt b key value)) (cs_next st) (cs_files st))
  | _, _ => (false, st)
  end.
Definition output_entry (en : cenv) (max_size : Z) (st : CompactionState) (key value : list Z) (input_status : bool) : bool * CompactionState :=
  let '(s, st) := add_output en st key value in
  match s, builder st with
  | true, Some b => if max_size <=? tb_offset b then FinishCompactionOutputFile en st input_status else (true, st)
  | _, _ => (false, st)
  end.

Section Loop.
Context {I : Type} `{!Iterator I, !HasStatus I}.
Context (en : cenv) (smallest_snapshot manual_garbage_cutoff_ : Z) (c : Compaction).

(** The loop: the status, the state, the number of the round, and the iterator. *)
Fixpoint compact_loop (fuel n : nat) (input : I) (ds : dstate) (st : CompactionState) : bool * CompactionState * nat * I :=
  match fuel with
  | O => (true, st, n, input)
  | S fuel =>
      match cur input with
      | None => (true, st, n, input)
      | Some (key, value) =>
          if shutting_down en n then (true, st, n, input)
          else
            let '(drop, ds) := decide_drop smallest_snapshot manual_garbage_cutoff_ (input_version_ c) (c_level c) ds key in
            let '(s, st) := if drop then (true, st) else output_entry en (MaxOutputFileSize c) st key value (status input) in
            if s then compact_loop fuel (S n) (Next input) ds st else (false, st, n, input)
      end
  end.

(** The part of [DoCompactionWork] that runs without the lock. *)
Definition compact_files (input : I) (next : Z) : bool * CompactionState :=
  let input := SeekToFirst input in
  let '(s, st, n, input) := compact_loop (S (length (content input))) 0 input dstate_new (mkCState [] None next []) in
  let s := if shutting_down en n then false else s in
  let '(s, st) := match builder st with Some _ => if s then FinishCompactionOutputFile en st (status input) else (s, st) | None => (s, st) end in
  (if s then status input else false, st).
End Loop.

(** ** The files that are written *)

Section Outputs.
Context (en : cenv) (start : Z).

(** The outputs are numbered from [start] on, and so are the files. *)
Record counted (st : CompactionState) : Prop := mkCounted {
  ct_next : cs_next st = start + lenZ (outputs st);
  ct_outputs : fm_number <$> outputs st = seqZ start (lenZ (outputs st));
  ct_files : (cs_files st).*1 = seqZ start (lenZ (cs_files st));
  ct_length : lenZ (cs_files st) <= lenZ (outputs st);
  ct_open : builder st <> None -> lenZ (outputs st) = lenZ (cs_files st) + 1 }.

Lemma on_current_length f l : length (on_current f l) = length l.
Proof. apply length_alter. Qed.

Lemma on_current_snoc f l x : on_current f (l ++ [x]) = l ++ [f x].
Proof.
  unfold on_current. rewrite length_app. replace (length l + length [x] - 1)%nat with (length l) by (simpl; lia). by rewrite alter_app_r_alt, Nat.sub_diag by lia.
Qed.

Lemma on_current_numbers f l : (forall g, fm_number (f g) = fm_number g) -> fm_number <$> on_current f l = fm_number <$> l.
Proof.
  intros Hf. destruct l as [|x l _] using rev_ind; [done|]. rewrite on_current_snoc, !fmap_app. simpl. by rewrite Hf.
Qed.

Lemma Open_counted st : counted st -> builder st = None -> 0 <= start -> start + lenZ (outputs st) + 1 < 2 ^ 64 -> lenZ (cs_files st) = lenZ (outputs st) ->
  let r := OpenCompactionOutputFile en st in counted r.2 /\ (lenZ (outputs r.2) = lenZ (outputs st) + 1).
Proof.
  intros [H1 H2 H3 H4 H5] Hb Hs Hlt Hl. unfold OpenCompactionOutputFile. rewrite H1, uwrap_small by lia.
  assert (Hlen : lenZ (outputs st ++ [mkFileMeta (start + lenZ (outputs st)) 0 [] []]) = lenZ (outputs st) + 1) by (rewrite length_app; simpl; lia).
  assert (Hn : fm_number <$> outputs st ++ [mkFileMeta (start + lenZ (outputs st)) 0 [] []] = seqZ start (lenZ (outputs st) + 1)) by (rewrite fmap_app, seqZ_app by lia; by rewrite H2).
  destruct (e_new en _); (split; [split|done]); cbn [snd outputs builder cs_next cs_files]; rewrite ?Hlen; try done; lia.
Qed.

Lemma last_number l n : fm_number <$> l = seqZ start (n + 1) -> 0 <= n -> match list.last l with Some f => fm_number f | None => 0 end = start + n.
Proof.
  intros H Hn. rewrite seqZ_app in H by lia. destruct l as [|x l _] using rev_ind; [by destruct (seqZ start n)|]. rewrite fmap_app in H. simpl in H. apply app_inj_tail in H as [_ E]. by rewrite last_snoc.
Qed.

Lemma Finish_counted st ok : counted st -> let r := FinishCompactionOutputFile en st ok in counted r.2 /\ lenZ (outputs r.2) = lenZ (outputs st) /\ builder r.2 = None.
Proof.
  intros [H1 H2 H3 H4 H5]. unfold FinishCompactionOutputFile. destruct (builder st) as [b|] eqn:Hb; [|cbn [snd]; rewrite Hb; split_and!; [by split; rewrite ?Hb|done..]].
  specialize (H5 ltac:(done)). cbn [snd outputs builder cs_next cs_files]. rewrite H5 in H2. rewrite (last_number _ _ H2) by lia. split_and!; [split|by rewrite on_current_length|done]; cbn [outputs builder cs_next cs_files]; rewrite ?on_current_length; try done; try lia.
  - rewrite on_current_numbers, H2 by done. f_equal. lia.
  - rewrite fmap_app, H3. cbn [fmap list_fmap fst]. rewrite length_app, Nat2Z.inj_add. change (lenZ [_]) with 1. by rewrite seqZ_app by lia.
  - rewrite length_app, Nat2Z.inj_add. change (lenZ [_]) with 1. lia.
Qed.

Lemma Flush_entries t : num_entries (Flush address opt t) = num_entries t.
Proof.
  unfold Flush. destruct (negb _); [done|]. destruct (buffer_ _); [done|]. unfold WriteBlock, WriteRawBlock. destruct (choose_contents _ _) as [c ty].
  destruct (Append _ _) as [[|] f1]; [|done]. destruct (Append f1 _) as [[|] f2]; done.
Qed.

Lemma Add_entries t k x : tb_status (TableBuilder_Add address opt t k x) = true -> tb_status t = true /\ num_entries (TableBuilder_Add address opt t k x) = num_entries t + 1.
Proof.
  intros H. assert (Ht : tb_status t = true).
  { unfold TableBuilder_Add in H. destruct (tb_status t) eqn:E; [done|]. cbn [negb] in H. congruence. }
  split; [done|]. unfold TableBuilder_Add. rewrite Ht. cbn [negb]. destruct (_ <=? _); rewrite ?Flush_entries; by destruct (pending_index_entry t).
Qed.

Lemma Finish_status t : tb_status (TableBuilder_Finish address opt t) = true -> tb_status t = true.
Proof.
  unfold TableBuilder_Finish. set (t1 := close (Flush address opt t)). pose proof (grown_filter address opt t1) as G2. destruct (write_filter address opt t1) as [t2 fh].
  pose proof (grown_metaindex address opt t2 fh) as G3. destruct (write_metaindex address opt t2 fh) as [t3 mh]. pose proof (grown_index address opt t3) as G4. destruct (write_index address opt t3) as [t4 ih].
  intros Hst. destruct (write_footer_ok t4 _ Hst) as [H4 _]. destruct (G4 H4) as [H3 _]. destruct (G3 H3) as [H2 _]. destruct (G2 H2) as [H1 _]. by apply (Flush_status address opt).
Qed.

(** The table of some entries. *)
Definition finished (l : list ientry) : TableBuilder := TableBuilder_Finish address opt (add_all_entries address opt (TableBuilder_new opt fresh_file) (e_view <$> l)).

(** A file that was finished. *)
Record closed_output (files : list (Z * WFile)) (f : FileMetaData) (l : list ientry) : Prop := mkClosed {
  cl_some : l <> [];
  cl_first : exists a, head l = Some a /\ smallest f = ikey a;
  cl_last : exists z, list.last l = Some z /\ largest f = ikey z;
  cl_status : tb_status (finished l) = true;
  cl_size : fm_file_size f = tb_offset (finished l);
  cl_file : (fm_number f, tb_file (finished l)) ∈ files }.

(** The entries [K] have been put into files, the last ones into the one that is open. *)
Definition progress (st : CompactionState) (K : list ientry) : Prop :=
  exists metas chunks now, K = mjoin chunks ++ now /\ Forall2 (closed_output (cs_files st)) metas chunks
    /\ match builder st with
       | None => now = [] /\ outputs st = metas /\ lenZ (cs_files st) = lenZ (outputs st)
       | Some b => b = add_all_entries address opt (TableBuilder_new opt fresh_file) (e_view <$> now) /\ now <> [] /\ exists f, outputs st = metas ++ [f]
           /\ (tb_status b = true -> num_entries b = lenZ now /\ (exists a, head now = Some a /\ smallest f = ikey a) /\ exists z, list.last now = Some z /\ largest f = ikey z)
       end.

Lemma closed_more files p f l : closed_output files f l -> closed_output (files ++ p) f l.
Proof. intros []. split; try done. apply elem_of_app. by left. Qed.

Lemma Finish_progress st K : counted st -> progress st K -> let r := FinishCompactionOutputFile en st true in r.1 = true -> progress r.2 K.
Proof.
  intros Hc (metas & chunks & now & HK & Hcl & Hb). pose proof Hc as [H1 H2 H3 H4 H5]. unfold FinishCompactionOutputFile.
  destruct (builder st) as [b|] eqn:Eb; [|by simpl]. specialize (H5 ltac:(done)). destruct Hb as (Eb' & Hne & f & Ho & Hnow). rewrite H5 in H2. rewrite (last_number _ _ H2) by lia.
  cbn [fst snd]. set (t := TableBuilder_Finish address opt b). destruct (tb_status t) eqn:Est; [|by simpl]. intros _.
  assert (Hfin : t = finished now) by (unfold t, finished; by rewrite Eb'). assert (Hsb : tb_status b = true) by (by apply Finish_status). destruct (Hnow Hsb) as (_ & Hfirst & Hlast).
  exists (metas ++ [mkFileMeta (fm_number f) (tb_offset t) (smallest f) (largest f)]), (chunks ++ [now]), []. cbn [builder outputs cs_files]. rewrite join_app. cbn [mjoin list_join]. rewrite !app_nil_r. split_and!.
  - done.
  - apply Forall2_app; [eapply Forall2_impl; [exact Hcl|]; intros; by apply closed_more|]. constructor; [|constructor]. rewrite Hfin in *. split; try done. cbn [fm_number]. apply elem_of_app. right.
    assert (Hn : fm_number f = start + lenZ (cs_files st)). { pose proof (last_number _ _ H2 ltac:(lia)) as Hl. by rewrite Ho, last_snoc in Hl. } rewrite Hn. by left.
  - done.
  - by rewrite Ho, on_current_snoc.
  - rewrite on_current_length, length_app. simpl. lia.
Qed.

(** A file is open for the next entry. *)
Definition opened (st : CompactionState) (K : list ientry) : Prop :=
  exists b metas chunks now f, builder st = Some b /\ K = mjoin chunks ++ now /\ Forall2 (closed_output (cs_files st)) metas chunks
    /\ b = add_all_entries address opt (TableBuilder_new opt fresh_file) (e_view <$> now) /\ outputs st = metas ++ [f]
    /\ (tb_status b = true -> num_entries b = lenZ now /\ (now <> [] -> exists a, head now = Some a /\ smallest f = ikey a)).

Lemma open_ok st K : counted st -> progress st K -> 0 <= start -> start + lenZ (outputs st) + 1 < 2 ^ 64 ->
  let r := match builder st with None => OpenCompactionOutputFile en st | Some _ => (true, st) end in
  counted r.2 /\ lenZ (outputs r.2) <= lenZ (outputs st) + 1 /\ (r.1 = true -> opened r.2 K) /\ ((forall n, e_new en n = true) -> r.1 = true).
Proof.
  intros Hc (metas & chunks & now & HK & Hcl & Hb) Hs Hlt. destruct (builder st) as [b|] eqn:Eb.
  - cbn [fst snd]. split; [done|]. split; [lia|]. split; [|done]. intros _. destruct Hb as (Eb' & Hne & f & Ho & Hnow). exists b, metas, chunks, now, f. split_and!; [done..|]. intros Hst. by destruct (Hnow Hst) as (? & ? & _).
  - destruct Hb as (-> & Ho & Hfl). destruct (Open_counted st Hc Eb Hs Hlt Hfl) as [Ha Hb]. split; [done|]. split; [lia|]. unfold OpenCompactionOutputFile in *. split; [|by intros ->]. destruct (e_new en _); [|done].
    intros _. exists (TableBuilder_new opt fresh_file), metas, chunks, [], (mkFileMeta (cs_next st) 0 [] []). cbn [snd outputs builder cs_files]. split_and!; [done..|by rewrite Ho|]. done.
Qed.

Lemma add_output_ok st K e : counted st -> progress st K -> 0 <= start -> start + lenZ (outputs st) + 1 < 2 ^ 64 ->
  let r := add_output en st (ikey e) (e_value e) in
  counted r.2 /\ lenZ (outputs r.2) <= lenZ (outputs st) + 1 /\ (r.1 = true -> builder r.2 <> None /\ progress r.2 (K ++ [e])) /\ ((forall n, e_new en n = true) -> r.1 = true).
Proof.
  intros Hc Hp Hs Hlt. pose proof (open_ok st K Hc Hp Hs Hlt) as Hopen. unfold add_output. destruct (match builder st with None => _ | Some _ => _ end) as [s st1]. cbn [fst snd] in Hopen. destruct Hopen as (Hc1 & Hl1 & Hb1 & Hw1).
  destruct s; [|cbn [fst snd]; split_and!; [done..|]; intros H; by specialize (Hw1 H)]. destruct (Hb1 eq_refl) as (b & metas & chunks & now & f & Hbs & HK & Hcl & Eb & Ho & Hnow). rewrite Hbs.
  set (outs := on_current _ (if _ =? 0 then _ else _)). cbn [fst snd outputs builder cs_files cs_next]. assert (Hlen : lenZ outs = lenZ (outputs st1)) by (unfold outs; rewrite on_current_length; by destruct (_ =? 0); rewrite ?on_current_length).
  split_and!; [|lia|intros _; split; [done|]|done].
  - destruct Hc1 as [H1 H2 H3 H4 H5]. split; cbn [outputs builder cs_next cs_files]; rewrite ?Hlen; try done; [|intros _; apply H5; by rewrite Hbs]. unfold outs. rewrite on_current_numbers by done. destruct (_ =? 0); by rewrite ?on_current_numbers by done.
  - exists metas, chunks, (now ++ [e]). cbn [builder outputs cs_files]. split_and!; [by rewrite app_assoc, HK|done| |by destruct now|].
    + rewrite fmap_app. unfold add_all_entries. rewrite foldl_app, Eb. done.
    + unfold outs. rewrite Ho. exists (mkFileMeta (fm_number f) (fm_file_size f) (if num_entries b =? 0 then ikey e else smallest f) (ikey e)). split; [destruct (_ =? 0); by rewrite ?on_current_snoc|].
      intros Hst. apply Add_entries in Hst as [Hst ->]. destruct (Hnow Hst) as [Hn Hfirst]. rewrite Hn, length_app. cbn [smallest largest]. split_and!; [simpl; lia| |exists e; by rewrite last_snoc].
      destruct now as [|a now]; [by exists e|]. destruct (Hfirst ltac:(done)) as (a' & [= <-] & ->). exists a. by rewrite (proj2 (Z.eqb_neq _ _)) by (simpl; lia).
Qed.

Lemma output_entry_ok max st K e : counted st -> progress st K -> 0 <= start -> start + lenZ (outputs st) + 1 < 2 ^ 64 ->
  let r := output_entry en max st (ikey e) (e_value e) true in
  counted r.2 /\ lenZ (outputs r.2) <= lenZ (outputs st) + 1 /\ (r.1 = true -> progress r.2 (K ++ [e])).
Proof.
  intros Hc Hp Hs Hlt. destruct (add_output_ok st K e Hc Hp Hs Hlt) as (Hc1 & Hl1 & Hp1 & _). unfold output_entry. destruct (add_output _ _ _ _) as [s st1]. cbn [fst snd] in *.
  destruct s; [|done]. destruct (Hp1 eq_refl) as [Hb Hp2]. destruct (builder st1); [|done]. destruct (_ <=? _); [|done]. destruct (Finish_counted st1 true Hc1) as (Hc3 & Hl3 & _).
  split; [done|]. split; [by rewrite Hl3|]. by apply Finish_progress.
Qed.

(** ** The loop *)

Section Run.
Context {I : Type} `{!Iterator I, !HasStatus I} (S0 cutoff : Z) (c : Compaction).
Abbreviation kept := (kept_entries S0 cutoff (input_version_ c) (c_level c)).
Abbreviation loop := (compact_loop (I := I) en S0 cutoff c).

Lemma compact_loop_ok fuel n it ds st l K : iter_ok it -> (ahead it < fuel)%nat -> walk fuel it = e_view <$> l -> Forall entry_ok l ->
  counted st -> progress st K -> 0 <= start -> start + lenZ (outputs st) + lenZ l < 2 ^ 64 ->
  let '(s, st', n', it') := loop fuel n it ds st in
  counted st' /\ iter_ok it' /\ (s = true -> shutting_down en n' = false -> progress st' (K ++ kept ds l)).
Proof.
  revert n it ds st l K. induction fuel as [|fuel IH]; intros n it ds st l K Hit Hf Hw Hok Hc Hp Hs Hlt; [lia|]. cbn [compact_loop walk] in *.
  destruct (cur it) as [[key value]|] eqn:Ecur.
  2:{ destruct l; [|done]. cbn [kept_entries]. rewrite app_nil_r. by split_and!. }
  destruct l as [|e l]; [done|]. cbn [fmap list_fmap] in Hw. injection Hw as -> -> Hw. apply Forall_cons_1 in Hok as [He Hok].
  destruct (shutting_down en n) eqn:Esd; [split_and!; [done..|congruence]|]. cbn [kept_entries].
  destruct (decide_drop _ _ _ _ _ _) as [drop ds']. rewrite (status_ok it Hit). destruct (Next_best it _ Hit Ecur) as (Hit' & _ & _). pose proof (ahead_Next it _ Hit Ecur) as Hah. simpl in Hlt.
  destruct drop.
  - apply (IH (S n) (Next it) ds' st l K); [done|lia|done..|lia].
  - destruct (output_entry_ok (MaxOutputFileSize c) st K e Hc Hp Hs ltac:(lia)) as (Hc' & Hl' & Hp'). destruct (output_entry _ _ _ _ _ _) as [s st']. cbn [fst snd] in *.
    destruct s; [|split_and!; [done..|by intros]]. specialize (IH (S n) (Next it) ds' st' l (K ++ [e]) Hit' ltac:(lia) Hw Hok Hc' (Hp' eq_refl) Hs ltac:(lia)).
    destruct (loop fuel (S n) (Next it) ds' st') as [[[s' st''] n'] it']. destruct IH as (IH1 & IH2 & IH3). split_and!; [done..|]. intros H1 H2. specialize (IH3 H1 H2). by rewrite <- app_assoc in IH3.
Qed.

(** All the files are finished, and hold what is kept. *)
Lemma compact_files_ok it l : iter_ok it -> StronglySorted klt (e_view <$> l) -> Forall entry_ok l -> (forall e, e ∈ content it <-> e ∈ e_view <$> l) ->
  0 <= start -> start + lenZ l < 2 ^ 64 -> let r := compact_files (I := I) en S0 cutoff c it start in
  counted r.2 /\ (r.1 = true -> exists chunks, mjoin chunks = kept dstate_new l /\ Forall2 (closed_output (cs_files r.2)) (outputs r.2) chunks).
Proof.
  intros Hit Hso Hok Hin Hs Hlt. destruct (SeekToFirst_best it Hit) as (Hit' & Hco & _). assert (Hd : Forall dom (e_view <$> l).*1).
  { rewrite <- list_fmap_compose. apply Forall_fmap. eapply Forall_impl; [exact Hok|]. intros e He. by exists e. }
  pose proof (walk_sorted it _ Hit Hso Hd Hin) as Hw. unfold compact_files. set (it0 := SeekToFirst it) in *.
  pose proof (compact_loop_ok (S (length (content it0))) 0 it0 dstate_new (mkCState [] None start []) l [] Hit') as H.
  destruct (loop _ 0%nat it0 dstate_new _) as [[[s st] n] it']. ospecialize (H _ Hw Hok _ _ Hs _); [pose proof (ahead_length it0); lia|split; simpl; try done; lia|exists [], [], []; by split_and!|simpl; lia|].
  destruct H as (Hc & Hit'' & Hp). rewrite (status_ok it' Hit'').
  assert (Hdone : forall st', counted st' -> builder st' = None -> progress st' (kept dstate_new l) -> exists chunks, mjoin chunks = kept dstate_new l /\ Forall2 (closed_output (cs_files st')) (outputs st') chunks).
  { intros st' _ Hb (metas & chunks & now & HK & Hcl & Hn). rewrite Hb in Hn. destruct Hn as (-> & -> & _). rewrite app_nil_r in HK. by exists chunks. }
  destruct (shutting_down en n) eqn:Esd.
  - destruct (builder st); by split.
  - destruct (builder st) as [b|] eqn:Eb; [|cbn [fst snd]; split; [done|destruct s; [|done]; intros _; apply Hdone; [done..|by apply Hp]]]. destruct s; [|by split].
    destruct (Finish_counted st true Hc) as (Hc' & _ & Hb'). pose proof (Finish_progress st (kept dstate_new l) Hc (Hp eq_refl eq_refl)) as Hp'. destruct (FinishCompactionOutputFile en st true) as [s st']. cbn [fst snd] in *.
    split; [done|]. destruct s; [|done]. intros _. by apply Hdone; [..|apply Hp'].
Qed.
End Run.
End Outputs.

(** ** The iterator over the inputs, and the results *)

Context (verify : bool).
#[local] Instance input_table : Iterator TableIterator := table_iterator address verify.
#[local] Instance input_table_status : HasStatus TableIterator := table_has_status address verify.
#[local] Instance input_concat : Iterator LevelIterator := concat_iterator address opt verify.
#[local] Instance input_concat_status : HasStatus LevelIterator := concat_has_status address opt verify.

Definition concat_inputs (disk : Z -> option RandomAccessFile) (files : list FileMetaData) : list FilesIterator :=
  match files with [] => [] | _ => [inr (NewConcatenatingIterator disk files 0)] end.
Definition MakeInputIterator (disk : Z -> option RandomAccessFile) (c : Compaction) : merged (I := FilesIterator) :=
  NewMergingIterator (I := FilesIterator)
    ((match c_level c with
      | O => (fun f => inl (TableCache_NewIterator address opt disk (fm_number f) (fm_file_size f))) <$> inputs_0 c
      | _ => concat_inputs disk (inputs_0 c)
      end) ++ concat_inputs disk (inputs_1 c)).

Definition install_edit (c : Compaction) (outs : list FileMetaData) : VersionEdit :=
  foldl (fun e f => AddFile e (S (c_level c)) f) (AddInputDeletions c (c_edit c)) outs.
Definition put_tables (disk : Z -> option RandomAccessFile) (files : list (Z * WFile)) : Z -> option RandomAccessFile :=
  foldl (fun disk p => put_table opened_file disk p.1 (Some p.2)) disk files.

(** [DoCompactionWork] and [InstallCompactionResults], for a compaction during which the
    version does not change.  Files that are not needed any more stay. *)
Definition DoCompactionWork (en : cenv) (snapshots_ : list Z) (manual_garbage_cutoff_ : Z) (c : Compaction) (db : DB) : bool * DB :=
  let vs := db_versions db in
  let smallest_snapshot := match snapshots_ with [] => vs_last_sequence vs | oldest :: _ => oldest end in
  let '(s, st) := compact_files (I := merged (I := FilesIterator)) en smallest_snapshot manual_garbage_cutoff_ c (MakeInputIterator (db_disk db) c) (vs_next_file_number vs) in
  let vs := set_counters vs (cs_next st) (vs_last_sequence vs) in
  let disk := put_tables (db_disk db) (cs_files st) in
  if s then
    let '(s, vs) := LogAndApply (e_versions en) (e_ptrs en) vs (install_edit c (outputs st)) in
    (s, mkFullDB (db_mem db) (db_imm db) vs disk (db_logfile_number db))
  else (false, mkFullDB (db_mem db) (db_imm db) vs disk (db_logfile_number db)).

(** ** What goes in *)

Context (Hint : 1 <= block_restart_interval opt) (Hif : internal_filters opt).
Abbreviation tables disk := (disk_tables address opt verify Hint Hif disk).

Section Input.
Context (disk : Z -> option RandomAccessFile) (es : FileMetaData -> list ientry) (c : Compaction).
Abbreviation v := (input_version_ c).
Context (Hv : version_in_order (TB := tables disk) es v) (Ht : taken es v (c_level c) (inputs_0 c) (inputs_1 c)) (Hls : listed v (c_level c) (inputs_0 c) (inputs_1 c)).
Context (Hnum : forall k f, f ∈ files_ v k -> numbered f) (Hu : unique_seqs (all_entries es v)).
Abbreviation inputs := (inputs_0 c ++ inputs_1 c).
Abbreviation held files := (mjoin (es <$> files)).

Lemma input_entry x : x ∈ held inputs -> entry_ok x /\ x ∈ all_entries es v.
Proof.
  intros (f & Hf & Hx)%elem_of_held. destruct (input_level es v _ _ _ Ht f Hf) as (k & _ & Hfk). split; [by apply (Forall_elem _ _ _ (fo_entries _ _ (input_ok es v _ _ _ Hv Ht f Hf)))|].
  apply elem_of_all_entries; [apply (io_ok _ _ Hv)|by exists k, f].
Qed.

Lemma concat_part k (files : list FileMetaData) : (0 < k)%nat -> files `sublist_of` files_ v k ->
  Forall iter_ok (concat_inputs disk files) /\ all (concat_inputs disk files) = e_view <$> held files.
Proof.
  intros Hk Hsub. destruct (NewConcatenatingIterator_ok address opt verify Hint Hif disk es files) as [H1 H2].
  - intros f Hf. assert (Hfk : f ∈ files_ v k) by (eapply elem_of_submseteq; [exact Hf|by apply sublist_submseteq]). split; [by apply (Hnum k)|by apply (vo_files _ _ (io_ok _ _ Hv) k)].
  - apply (sublist_sorted _ _ (held (files_ v k))); [by apply sublist_held|]. by apply (vo_sorted _ _ (io_ok _ _ Hv)).
  - pose proof (sublist_length _ _ Hsub). pose proof (vo_short _ _ (io_ok _ _ Hv) k). lia.
  - destruct files as [|f files]; [done|]. split; [by constructor|]. unfold all. cbn [concat_inputs fmap list_fmap mjoin list_join]. rewrite app_nil_r. exact H2.
Qed.

Lemma tables_part (files : list FileMetaData) : files ⊆ files_ v 0 ->
  let part := (fun f => inl (TableCache_NewIterator address opt disk (fm_number f) (fm_file_size f))) <$> files : list FilesIterator in
  Forall iter_ok part /\ all part = e_view <$> held files.
Proof.
  intros Hsub part. assert (Hf : forall f, f ∈ files -> iter_ok (TableCache_NewIterator address opt disk (fm_number f) (fm_file_size f)) /\ content (TableCache_NewIterator address opt disk (fm_number f) (fm_file_size f)) = e_view <$> es f).
  { intros f Hf%Hsub. apply (TableCache_NewIterator_ok address opt verify Hint). exact (fo_table _ _ (vo_files _ _ (io_ok _ _ Hv) 0%nat f Hf)). }
  unfold part, all. clear part Hsub. split; [apply Forall_fmap, List.Forall_forall; intros f Hin%list_elem_of_In; by apply Hf|]. induction files as [|f files IH]; [done|].
  cbn [fmap list_fmap mjoin list_join]. rewrite fmap_app. f_equal; [apply (Hf f); by left|]. apply IH. intros g Hg. apply Hf. by right.
Qed.

Lemma all_app (a b : list FilesIterator) : all (a ++ b) = all a ++ all b.
Proof. unfold all. by rewrite fmap_app, join_app. Qed.

(** A list of views is that of a list of entries. *)
Lemma view_list (L : list entry) (M : list ientry) : (forall e, e ∈ L -> e ∈ e_view <$> M) -> exists l, e_view <$> l = L /\ forall x, x ∈ l -> x ∈ M.
Proof.
  induction L as [|e L IH]; intros Hin; [exists []; split; [done|]; by intros x ?%elem_of_nil|]. destruct IH as (l & El & Hl); [intros e' He'; apply Hin; by right|].
  destruct (proj1 (list_elem_of_fmap _ _ _) (Hin e ltac:(by left))) as (x & -> & Hx). exists (x :: l). split; [by rewrite <- El|]. intros y [->|Hy]%elem_of_cons; [done|by apply Hl].
Qed.

Lemma e_view_inj x y : entry_ok x -> entry_ok y -> e_view x = e_view y -> x = y.
Proof.
  intros Hx Hy [= E1 E2]. apply ikey_inj in E1; [|done..]. apply e_compare_eq in E1 as [Ek Et]. pose proof (ok_type _ Hx). pose proof (ok_type _ Hy).
  assert (e_seq x = e_seq y /\ e_type x = e_type y) as [Es Ety] by (unfold e_tag, kTypeDeletion, kTypeValue in *; lia). destruct x, y; simpl in *. congruence.
Qed.

Lemma view_newest_ahead l : StronglySorted klt (e_view <$> l) -> (forall x, x ∈ l -> entry_ok x /\ x ∈ all_entries es v) -> newest_ahead l.
Proof.
  induction l as [|x l IH]; intros Hso Hok; [constructor|]. cbn [fmap list_fmap] in Hso. apply StronglySorted_cons in Hso as [Hx Hso].
  constructor; [apply IH; [done|]; intros y Hy; apply Hok; by right|]. apply List.Forall_forall. intros y Hy%list_elem_of_In.
  destruct (Hok x ltac:(by left)) as [Hxo Hxa]. destruct (Hok y ltac:(by right)) as [Hyo Hya]. rewrite Forall_fmap in Hx. pose proof (Forall_elem _ _ _ Hx Hy) as Hlt. unfold klt in Hlt. simpl in Hlt. rewrite InternalKey_ikey in Hlt by done.
  split; [exact Hlt|]. intros Hk. unfold e_compare in Hlt. rewrite Hk, (proj2 (Slice_compare_eq _ _) eq_refl), Z.compare_lt_iff in Hlt. pose proof (ok_type _ Hxo). pose proof (ok_type _ Hyo).
  assert (e_seq x <> e_seq y) by (intros E; rewrite (Hu x y Hxa Hya E) in Hlt; lia). unfold e_tag, kTypeDeletion, kTypeValue in *. lia.
Qed.

(** The iterator goes through the entries of the inputs, in order. *)
Lemma MakeInputIterator_ok : let it := MakeInputIterator disk c in iter_ok it
  /\ exists l, newest_ahead l /\ StronglySorted klt (e_view <$> l) /\ Forall entry_ok l /\ (forall x, x ∈ l <-> exists f, f ∈ inputs /\ x ∈ es f) /\ (forall e, e ∈ content it <-> e ∈ e_view <$> l).
Proof.
  assert (Hparts : exists cs, MakeInputIterator disk c = NewMergingIterator cs /\ Forall iter_ok cs /\ all cs = e_view <$> held inputs).
  { destruct (concat_part (S (c_level c)) (inputs_1 c) ltac:(lia) (ls_next _ _ _ _ Hls)) as [H1 H2]. unfold MakeInputIterator. eexists. split; [done|].
    rewrite all_app, H2, fmap_app, join_app, fmap_app. destruct (c_level c) as [|level] eqn:El.
    - destruct (tables_part (inputs_0 c)) as [H3 H4]; [apply Ht|]. split; [by apply Forall_app|]. by rewrite <- H4.
    - destruct (concat_part (S level) (inputs_0 c) ltac:(lia)) as [H3 H4]; [apply (ls_level _ _ _ _ Hls); lia|]. split; [by apply Forall_app|]. by rewrite <- H4. }
  destruct Hparts as (cs & -> & Hcs & Hall). assert (Hok : forall x, x ∈ held inputs -> entry_ok x) by (intros x Hx; by apply input_entry).
  destruct (NewMergingIterator_ok cs Hcs) as [Hit Hc].
  { rewrite Hall. split; rewrite <- list_fmap_compose.
    - apply NoDup_fmap_2_strong; [|exact (inputs_NoDup (TB := tables disk) es v (c_level c) _ _ Hv Ht Hls)]. intros x y Hx Hy E. apply ikey_inj in E; [|by apply Hok..]. apply e_compare_eq in E as [_ Et]. apply Hu; [by apply input_entry..|].
      pose proof (ok_type _ (Hok x Hx)). pose proof (ok_type _ (Hok y Hy)). unfold e_tag, kTypeDeletion, kTypeValue in *. lia.
    - apply Forall_fmap, List.Forall_forall. intros x Hx%list_elem_of_In. exists x. split; [by apply Hok|done]. }
  split; [done|]. destruct (listing_spec _ Hit) as [Hso Hin]. destruct (view_list (listing (NewMergingIterator cs)) (held inputs)) as (l & El & Hl).
  { intros e He%Hin. by rewrite Hc, Hall in He. }
  rewrite <- El in Hso, Hin. exists l. assert (Hmem : forall x, x ∈ l <-> x ∈ held inputs).
  { intros x. split; [apply Hl|]. intros Hx. assert (Hv' : e_view x ∈ e_view <$> l) by (apply Hin; rewrite Hc, Hall; by apply list_elem_of_fmap_2). apply list_elem_of_fmap in Hv' as (y & E & Hy).
    by rewrite (e_view_inj x y (Hok x Hx) (Hok y (Hl y Hy)) E). }
  split_and!; [|done| |by intros x; rewrite Hmem, elem_of_held|done].
  - apply view_newest_ahead; [done|]. intros x Hx. by apply input_entry, Hmem.
  - apply List.Forall_forall. intros x Hx%list_elem_of_In. by apply Hok, Hmem.
Qed.
End Input.

(** ** What comes out *)

(** The entries of the files [l] are those with which they are listed. *)
Definition with_files (es : FileMetaData -> list ientry) (l : list (FileMetaData * list ientry)) (f : FileMetaData) : list ientry :=
  match list_find (fun p => p.1 = f) l with Some (_, p) => p.2 | None => es f end.

Lemma with_files_new es l f c : NoDup l.*1 -> (f, c) ∈ l -> with_files es l f = c.
Proof.
  intros Hn Hin. unfold with_files. destruct (list_find _ l) as [[i [f' c']]|] eqn:E.
  - apply list_find_Some in E as (Hi & Ef & _). simpl in *. subst f'. apply list_elem_of_lookup in Hin as [j Hj]. assert (i = j) as ->; [|congruence].
    apply (NoDup_lookup _ i j f Hn); rewrite list_lookup_fmap; [by rewrite Hi|by rewrite Hj].
  - apply list_find_None in E. by pose proof (Forall_elem _ _ _ E Hin).
Qed.

Lemma with_files_old es l f : f ∉ l.*1 -> with_files es l f = es f.
Proof.
  intros Hn. unfold with_files. destruct (list_find _ l) as [[i [f' c']]|] eqn:E; [|done]. apply list_find_Some in E as (Hi & Ef & _). simpl in *. subst f'. destruct Hn.
  apply list_elem_of_lookup_2 in Hi. by apply (list_elem_of_fmap_2 fst) in Hi.
Qed.

(** The new files on disk. *)
Lemma put_tables_new disk files n w : NoDup files.*1 -> (n, w) ∈ files -> put_tables disk files n = Some (opened_file w).
Proof.
  unfold put_tables. induction files as [|[n' w'] files IH] using rev_ind; intros Hn Hin; [by apply elem_of_nil in Hin|]. rewrite foldl_snoc. cbn [put_table fst snd].
  rewrite fmap_app in Hn. apply NoDup_app in Hn as (Hn1 & Hn2 & _). apply elem_of_app in Hin as [Hin|Hin].
  - rewrite (proj2 (Z.eqb_neq n n')); [by apply IH|]. intros ->. apply (Hn2 n'); [by apply (list_elem_of_fmap_2 fst) in Hin|by left].
  - apply list_elem_of_singleton in Hin as [= -> ->]. by rewrite Z.eqb_refl.
Qed.

Lemma put_tables_mono disk files es v start : (forall k f, f ∈ files_ v k -> fm_number f < start) -> Forall (fun n => start <= n) files.*1 ->
  version_in_order (TB := tables disk) es v -> version_in_order (TB := tables (put_tables disk files)) es v.
Proof.
  intros Hn Hf Hv. unfold put_tables. induction files as [|p files IH] using rev_ind; [done|]. rewrite foldl_snoc, fmap_app in *. apply Forall_app in Hf as [Hf Hp].
  apply put_mono; [|by apply IH]. intros k f Hfk. specialize (Hn k f Hfk). apply Forall_cons_1 in Hp as [Hp _]. lia.
Qed.

(** The edit. *)
Lemma delete_files e level files k n : (k, n) ∈ deleted_files_ (foldl (fun e f => DeleteFile e level (fm_number f)) e files) <-> (k, n) ∈ deleted_files_ e \/ (k = level /\ n ∈ fm_number <$> files).
Proof.
  revert e. induction files as [|f files IH]; intros e; cbn [foldl fmap list_fmap]; [rewrite elem_of_nil; tauto|]. rewrite IH. cbn [DeleteFile deleted_files_]. rewrite elem_of_del_insert, elem_of_cons.
  split; [intros [[[= -> ->]|?]|[-> ?]]; tauto|]. intros [?|[-> [->|?]]]; tauto.
Qed.

Lemma keep_new e level files : new_files_ (foldl (fun e f => DeleteFile e level (fm_number f)) e files) = new_files_ e.
Proof. revert e. induction files as [|f files IH]; intros e; [done|]. cbn [foldl]. by rewrite IH. Qed.

Lemma install_files c outs : new_files_ (c_edit c) = [] -> deleted_files_ (c_edit c) = [] ->
  new_files_ (install_edit c outs) = (fun f => (S (c_level c), f)) <$> outs
  /\ forall k n, (k, n) ∈ deleted_files_ (install_edit c outs) <-> (k = c_level c /\ n ∈ fm_number <$> inputs_0 c) \/ (k = S (c_level c) /\ n ∈ fm_number <$> inputs_1 c).
Proof.
  intros Hn Hd. unfold install_edit. set (e := AddInputDeletions c (c_edit c)). assert (He : new_files_ e = [] /\ forall k n, (k, n) ∈ deleted_files_ e <-> (k = c_level c /\ n ∈ fm_number <$> inputs_0 c) \/ (k = S (c_level c) /\ n ∈ fm_number <$> inputs_1 c)).
  { unfold e, AddInputDeletions. rewrite !keep_new. split; [done|]. intros k n. rewrite !delete_files, Hd, elem_of_nil. tauto. }
  clearbody e. destruct He as [He1 He2]. assert (H : new_files_ (foldl (fun e f => AddFile e (S (c_level c)) f) e outs) = new_files_ e ++ ((fun f => (S (c_level c), f)) <$> outs) /\ deleted_files_ (foldl (fun e f => AddFile e (S (c_level c)) f) e outs) = deleted_files_ e).
  { clear. revert e. induction outs as [|f outs IH]; intros e; [by rewrite app_nil_r|]. cbn [foldl fmap list_fmap]. destruct (IH (AddFile e (S (c_level c)) f)) as [-> ->]. cbn [AddFile new_files_ deleted_files_]. by rewrite <- app_assoc. }
  destruct H as [-> ->]. by rewrite He1.
Qed.

(** Some of the entries weigh no more than all. *)
Lemma load_perm a b : a ≡ₚ b -> load a = load b.
Proof. induction 1; simpl in *; lia. Qed.

Lemma load_less a b : a ⊆+ b -> load a <= load b.
Proof. intros [k Hk]%submseteq_Permutation. rewrite (load_perm _ _ Hk), load_app. pose proof (load_nonneg k). lia. Qed.

Context (Hfresh : file_contents fresh_file = []) (Hread : forall f, lenZ (file_contents f) < 2 ^ 32 -> holds (opened_file f) (file_contents f)).
Abbreviation small_files files := (Forall (fun p => lenZ (file_contents p.2) < 2 ^ 32) files).

Lemma closed_file_ok disk files f l : NoDup files.*1 -> small_files files -> closed_output files f l ->
  Forall entry_ok l -> StronglySorted e_lt l -> entries_ok (KO := internal_order) (e_view <$> l) -> file_ok (TB := tables (put_tables disk files)) f l.
Proof.
  intros Hn Hsm Hcl Hok Hso He. pose proof (Forall_elem _ _ _ Hsm (cl_file _ _ _ Hcl)) as Hlen. simpl in Hlen. split; [|done|done|apply Hcl|apply Hcl].
  destruct (Finish_file (KO := internal_order) address opt Hint fresh_file (e_view <$> l) Hfresh He (cl_status _ _ _ Hcl) Hlen) as (Ho & L & FB & fh & mh & ih & Hfile).
  exists (opened_file (tb_file (finished l))), (file_contents (tb_file (finished l))), L, FB, fh, mh, ih. split_and!; [|by apply Hread| |done..].
  - by apply put_tables_new; [|apply Hcl].
  - rewrite (cl_size _ _ _ Hcl). exact Ho.
Qed.

Lemma outputs_NoDup start st : counted start st -> NoDup (fm_number <$> outputs st) /\ NoDup (outputs st) /\ NoDup (cs_files st).*1 /\ forall f, f ∈ outputs st -> start <= fm_number f < cs_next st.
Proof.
  intros Hc. assert (Hn : NoDup (fm_number <$> outputs st)) by (rewrite (ct_outputs _ _ Hc); apply NoDup_seqZ). split_and!; [done|by apply (NoDup_fmap_1 fm_number)|rewrite (ct_files _ _ Hc); apply NoDup_seqZ|].
  intros f Hf. apply (list_elem_of_fmap_2 fm_number) in Hf. rewrite (ct_outputs _ _ Hc), elem_of_seqZ in Hf. rewrite (ct_next _ _ Hc). lia.
Qed.

Section Result.
Context (disk : Z -> option RandomAccessFile) (es : FileMetaData -> list ientry) (c : Compaction) (start : Z) (l : list ientry) (K : list ientry).
Abbreviation v := (input_version_ c).
Abbreviation inputs := (inputs_0 c ++ inputs_1 c).
Context (Hv : version_in_order (TB := tables disk) es v) (Ht : taken es v (c_level c) (inputs_0 c) (inputs_1 c)).
Context (Hl : newest_ahead l) (Hlok : Forall entry_ok l) (Hin : forall x, x ∈ l <-> exists f, f ∈ inputs /\ x ∈ es f) (Hload : load (e_view <$> l) < 2 ^ 31) (HK : K `sublist_of` l).
Context (Hstart : forall k f, f ∈ files_ v k -> fm_number f < start) (Hshort : lenZ (files_ v (S (c_level c))) + lenZ l < 2 ^ 31).

Lemma newest_ahead_sorted q : newest_ahead q -> StronglySorted e_lt q.
Proof. intros H. induction H as [|x q H IH Hx]; [constructor|]. constructor; [done|]. eapply Forall_impl; [exact Hx|]. by intros y [? _]. Qed.

Lemma kept_sorted : StronglySorted e_lt K.
Proof. apply (sublist_sorted _ _ l HK). by apply newest_ahead_sorted. Qed.

Lemma values_ok : Forall (fun x => bytes_ok (e_value x)) l.
Proof.
  apply List.Forall_forall. intros x (f & Hf & Hx)%list_elem_of_In%Hin. destruct (fo_table _ _ (input_ok es v _ _ _ Hv Ht f Hf)) as (? & ? & ? & ? & ? & ? & ? & _ & _ & _ & _ & _ & He & _).
  apply (Forall_elem _ _ _ (eo_values _ He)). change (e_value x) with (e_view x).2. by apply list_elem_of_fmap_2, list_elem_of_fmap_2.
Qed.

(** A part of what is kept fits into a table. *)
Lemma chunk_ok q : q ⊆+ l -> StronglySorted e_lt q -> Forall entry_ok q /\ entries_ok (KO := internal_order) (e_view <$> q).
Proof.
  intros Hq Hso. assert (Hsub : forall x, x ∈ q -> x ∈ l) by (intros x Hx; by eapply elem_of_submseteq). assert (Hok : Forall entry_ok q).
  { apply List.Forall_forall. intros x Hx%list_elem_of_In. by apply (Forall_elem _ _ _ Hlok), Hsub. }
  split; [done|]. apply view_entries_ok; [done..| |].
  - apply List.Forall_forall. intros x Hx%list_elem_of_In. apply (Forall_elem _ _ _ values_ok). by apply Hsub.
  - assert (load (e_view <$> q) <= load (e_view <$> l)); [|lia]. apply load_less. by apply fmap_submseteq.
Qed.

Context (st : CompactionState) (chunks : list (list ientry)) (Hc : counted start st) (Hch : mjoin chunks = K) (Hcl : Forall2 (closed_output (cs_files st)) (outputs st) chunks).
Context (Hsm : small_files (cs_files st)).
Definition result_entries : FileMetaData -> list ientry := with_files es (zip (outputs st) chunks).

Lemma zip_outputs : (zip (outputs st) chunks).*1 = outputs st.
Proof. apply fst_zip. by rewrite (Forall2_length _ _ _ Hcl). Qed.

Lemma result_old k f : f ∈ files_ v k -> result_entries f = es f.
Proof. intros Hf. apply with_files_old. rewrite zip_outputs. intros Ho. destruct (outputs_NoDup start st Hc) as (_ & _ & _ & Hr). specialize (Hr f Ho). specialize (Hstart k f Hf). lia. Qed.

Lemma result_chunk i f : outputs st !! i = Some f -> exists q, chunks !! i = Some q /\ result_entries f = q /\ closed_output (cs_files st) f q.
Proof.
  intros Hi. destruct (Forall2_lookup_l _ _ _ _ _ Hcl Hi) as (q & Hq & Hfq). exists q. split_and!; [done| |done]. apply with_files_new; [rewrite zip_outputs; by apply (outputs_NoDup start)|].
  apply (list_elem_of_lookup_2 _ i). rewrite lookup_zip_with, Hi. simpl. by rewrite Hq.
Qed.

Lemma chunk_sub i q : chunks !! i = Some q -> q ⊆+ l /\ StronglySorted e_lt q.
Proof.
  intros Hi. assert (E : mjoin chunks = mjoin (take i chunks) ++ q ++ mjoin (drop (S i) chunks)) by (rewrite <- (take_drop_middle chunks i q Hi) at 1; by rewrite join_app).
  rewrite Hch in E. split.
  - apply sublist_submseteq. etransitivity; [|exact HK]. rewrite E. apply sublist_inserts_l, sublist_inserts_r. done.
  - pose proof kept_sorted as Hs. rewrite E in Hs. apply StronglySorted_app in Hs as (_ & _ & Hs). by apply StronglySorted_app in Hs as (_ & Hs & _).
Qed.

Lemma chunks_apart i j p q x y : (i < j)%nat -> chunks !! i = Some p -> chunks !! j = Some q -> x ∈ p -> y ∈ q -> e_lt x y.
Proof.
  intros Hij Hi Hj Hx Hy. pose proof kept_sorted as Hs. rewrite <- Hch, <- (take_drop_middle chunks i p Hi), join_app in Hs. apply StronglySorted_app in Hs as (_ & _ & Hs).
  change (mjoin (p :: drop (S i) chunks)) with (p ++ mjoin (drop (S i) chunks)) in Hs. apply StronglySorted_app in Hs as (Hs & _ & _). apply Hs; [done|].
  apply list_elem_of_join. exists q. split; [done|]. apply (list_elem_of_lookup_2 _ (j - S i)). rewrite lookup_drop. by replace (S i + (j - S i))%nat with j by lia.
Qed.

Lemma outputs_length : lenZ (outputs st) <= lenZ l.
Proof.
  assert (Hk : lenZ K <= lenZ l) by (pose proof (sublist_length _ _ HK); lia). assert (lenZ (outputs st) <= lenZ K); [|lia]. rewrite <- Hch. clear -Hcl. induction Hcl as [|f q outs chunks' Hq Hrest IH]; [done|].
  specialize (IH Hrest). change (mjoin (q :: chunks')) with (q ++ mjoin chunks'). rewrite length_app. destruct q as [|x q]; [by destruct (cl_some _ _ _ Hq)|]. cbn [length]. lia.
Qed.

Lemma result_out x : (exists f, f ∈ outputs st /\ x ∈ result_entries f) <-> x ∈ K.
Proof.
  rewrite <- Hch, list_elem_of_join. split.
  - intros (f & [i Hi]%list_elem_of_lookup & Hx). destruct (result_chunk i f Hi) as (q & Hq & E & _). rewrite E in Hx. exists q. split; [done|by eapply list_elem_of_lookup_2].
  - intros (q & Hx & [i Hi]%list_elem_of_lookup). destruct (Forall2_lookup_r _ _ _ _ _ Hcl Hi) as (f & Hf & _). destruct (result_chunk i f Hf) as (q' & Hq' & E & _). rewrite Hi in Hq'. injection Hq' as <-.
    exists f. split; [by eapply list_elem_of_lookup_2|by rewrite E].
Qed.

Context (Has : aside es v (c_level c) (inputs_0 c) (inputs_1 c)).
Lemma results_replace e : new_files_ e = (fun f => (S (c_level c), f)) <$> outputs st ->
  (forall k n, (k, n) ∈ deleted_files_ e <-> (k = c_level c /\ n ∈ fm_number <$> inputs_0 c) \/ (k = S (c_level c) /\ n ∈ fm_number <$> inputs_1 c)) ->
  replacement (TB := tables (put_tables disk (cs_files st))) es v (c_level c) (inputs_0 c) (inputs_1 c) (outputs st) result_entries e.
Proof.
  intros Hnew Hdel. destruct (outputs_NoDup start st Hc) as (Hn1 & Hn2 & Hn3 & Hrange). split; [apply result_old|..|done|done].
  - intros f [i Hi]%list_elem_of_lookup. destruct (result_chunk i f Hi) as (q & Hq & -> & Hfq). destruct (chunk_sub i q Hq) as [Hsub Hso]. destruct (chunk_ok q Hsub Hso) as [Hok He]. by apply closed_file_ok.
  - intros f x Hf Hx. apply Hin. eapply elem_of_submseteq; [|by apply sublist_submseteq]. apply result_out. by exists f.
  - intros f g [i Hi]%list_elem_of_lookup [j Hj]%list_elem_of_lookup Hne. destruct (result_chunk i f Hi) as (p & Hp & Ep & _). destruct (result_chunk j g Hj) as (q & Hq & Eq & _).
    destruct (Nat.lt_trichotomy i j) as [Hij|[->|Hij]]; [left|congruence|right]; intros x y; rewrite Ep, Eq; intros Hx Hy; [by apply (chunks_apart i j p q)|by apply (chunks_apart j i q p)].
  - apply (aside_apart es v (c_level c) (inputs_0 c)); [done|apply result_old|]. intros f x Hf Hx. apply Hin. eapply elem_of_submseteq; [|by apply sublist_submseteq]. apply result_out. by exists f.
  - rewrite fmap_app. apply NoDup_app. split_and!; [apply (io_levels _ _ Hv), Ht| |done]. intros n (f & -> & Hf)%list_elem_of_fmap (g & E & Hg)%list_elem_of_fmap. specialize (Hstart _ f Hf). specialize (Hrange g Hg). lia.
  - pose proof outputs_length. lia.
Qed.
End Result.

(** ** The database *)

Abbreviation version db := (current_ (db_versions db)).
Abbreviation oldest snapshots db := (match snapshots with [] => vs_last_sequence (db_versions db) | s :: _ => s end).

(** A compaction of a version, before it begins. *)
Record ready (db : DB) (es : FileMetaData -> list ientry) (c : Compaction) : Prop := mkReady {
  rd_version : input_version_ c = version db;
  rd_taken : taken es (version db) (c_level c) (inputs_0 c) (inputs_1 c);
  rd_aside : aside es (version db) (c_level c) (inputs_0 c) (inputs_1 c);
  rd_listed : listed (version db) (c_level c) (inputs_0 c) (inputs_1 c);
  rd_edit : new_files_ (c_edit c) = [] /\ deleted_files_ (c_edit c) = [];
  rd_numbered : forall k f, f ∈ files_ (version db) k -> numbered f;
  rd_load : load (e_view <$> mjoin (es <$> inputs_0 c ++ inputs_1 c)) < 2 ^ 31;
  rd_next : 0 <= vs_next_file_number (db_versions db) < 2 ^ 63;
  rd_short : forall k, lenZ (files_ (version db) k) + load (e_view <$> mjoin (es <$> inputs_0 c ++ inputs_1 c)) < 2 ^ 31 }.

(** The entries of a database that has changed. *)
Lemma db_ok_replaced db es m i vs disk es' : db_ok address opt verify Hint Hif db es m i -> version_in_order (TB := tables disk) es' (current_ vs) ->
  (forall x, x ∈ all_entries es' (current_ vs) -> x ∈ all_entries es (version db)) -> (forall k f, f ∈ files_ (current_ vs) k -> fm_number f < vs_next_file_number vs) ->
  db_ok address opt verify Hint Hif (mkFullDB (db_mem db) (db_imm db) vs disk (db_logfile_number db)) es' m i.
Proof.
  intros [H1 H2 H3 H4 H5 [H6 H7] _ _] Hv Hsub Hn. split; try done.
  - intros x y. cbn [db_versions]. rewrite !elem_of_app. intros Hx Hy. apply H5; rewrite !elem_of_app; [destruct Hx as [?|[?|?%Hsub]]; tauto|destruct Hy as [?|[?|?%Hsub]]; tauto].
  - cbn [db_versions]. split; intros x y Hx.
    + intros [Hy|Hy]%elem_of_app; apply H6; try done; apply elem_of_app; [by left|right; by apply Hsub].
    + intros Hy%Hsub. by apply H7.
Qed.

Lemma Full_Get_below db vs disk s key : (Version_Get (disk_get address opt verify disk) (current_ vs) key s).1 = (Version_Get (disk_get address opt verify (db_disk db)) (version db) key s).1 ->
  Full_Get address opt verify (mkFullDB (db_mem db) (db_imm db) vs disk (db_logfile_number db)) s key = Full_Get address opt verify db s key.
Proof. intros E. unfold Full_Get. cbn [db_mem db_imm db_versions db_disk]. by rewrite E. Qed.

Lemma unique_part (a b : list ientry) : unique_seqs b -> (forall x, x ∈ a -> x ∈ b) -> unique_seqs a.
Proof. intros Hu Hs x y Hx Hy. by apply Hu; apply Hs. Qed.

Lemma Version_Get_agree disk disk' es es' v v' key s : version_in_order (TB := tables disk) es v -> version_in_order (TB := tables disk') es' v' -> unique_seqs (all_entries es' v') ->
  user_dom key -> 0 <= s < 2 ^ 56 -> (forall r, looked (all_entries es v) key s r -> exists r', looked (all_entries es' v') key s r' /\ status_of r' = status_of r) ->
  (Version_Get (disk_get address opt verify disk') v' key s).1 = (Version_Get (disk_get address opt verify disk) v key s).1.
Proof.
  intros Hv Hv' Hu Hk Hs Hlook. destruct (Version_Get_ok (TB := tables disk) es v (io_ok _ _ Hv) key s Hk Hs) as (r & Hr & E). destruct (Version_Get_ok (TB := tables disk') es' v' (io_ok _ _ Hv') key s Hk Hs) as (r' & Hr' & E').
  cbn [TableCache_Get disk_tables] in E, E'. rewrite E, E'. destruct (Hlook r Hr) as (r2 & Hr2 & <-). by rewrite (looked_same _ _ key s r' r2 Hu (fun _ => reflexivity _) Hr' Hr2).
Qed.

(** ** Without errors *)

Definition cenv_ok (en : cenv) : Prop :=
  (forall n, e_new en n = true) /\ (forall n, e_sync en n = true) /\ (forall n, e_close en n = true) /\ e_shutdown en = None /\ e_versions en = venv_ok.

Section Works.
Context (en : cenv) (start : Z) (Happ : forall f data, (Append f data).1 = true).
Context (Hnew : forall n, e_new en n = true) (Hsync : forall n, e_sync en n = true) (Hclose : forall n, e_close en n = true) (Hshut : e_shutdown en = None).
Context (total : list ientry) (Hfits : forall q, q `sublist_of` total -> entries_ok (KO := internal_order) (e_view <$> q)).

Lemma Finish_works' st K : counted start st -> progress st K -> builder st <> None -> K `sublist_of` total ->
  let r := FinishCompactionOutputFile en st true in small_files (cs_files r.2) -> r.1 = true.
Proof.
  intros Hc (metas & chunks & now & HK & _ & Hb) Hne Hsub. unfold FinishCompactionOutputFile. destruct (builder st) as [b|]; [|done]. destruct Hb as (Eb & _ & _). cbn [fst snd cs_files]. rewrite Hsync, Hclose.
  assert (He : entries_ok (KO := internal_order) (e_view <$> now)) by (apply Hfits; etransitivity; [|exact Hsub]; rewrite HK; by apply sublist_inserts_l).
  pose proof (built_works address opt fresh_file Happ (e_view <$> now)) as Hw. rewrite <- Eb in Hw. rewrite Hw. intros Hsm%Forall_app. destruct Hsm as [_ Hsm]. apply Forall_cons_1 in Hsm as [Hsm _]. simpl in Hsm.
  destruct (_ && _); [|done]. rewrite Eb in *. by apply (written_usable address opt fresh_file opened_file Hint Hfresh Hread).
Qed.

Lemma output_files_grow max st key value ok : cs_files st `prefix_of` cs_files (output_entry en max st key value ok).2.
Proof.
  assert (Hfin : forall st, cs_files st `prefix_of` cs_files (FinishCompactionOutputFile en st ok).2) by (clear; intros st; unfold FinishCompactionOutputFile; destruct (builder st); [cbn [snd cs_files]; by eexists|done]).
  assert (Hadd : cs_files (add_output en st key value).2 = cs_files st).
  { unfold add_output, OpenCompactionOutputFile. destruct (builder st) eqn:E; [by rewrite E|]. by destruct (e_new en _). }
  unfold output_entry. rewrite <- Hadd. destruct (add_output _ _ _ _) as [[|] st1]; [|done]. cbn [snd]. destruct (builder st1); [|done]. destruct (_ <=? _); [|done]. apply Hfin.
Qed.

Lemma output_entry_works max st K e : counted start st -> progress st K -> 0 <= start -> start + lenZ (outputs st) + 1 < 2 ^ 64 -> K ++ [e] `sublist_of` total ->
  let r := output_entry en max st (ikey e) (e_value e) true in small_files (cs_files r.2) -> r.1 = true.
Proof.
  intros Hc Hp Hs Hlt Hsub. destruct (add_output_ok en start st K e Hc Hp Hs Hlt) as (Hc1 & Hl1 & Hp1 & Hw). specialize (Hw Hnew). unfold output_entry. destruct (add_output _ _ _ _) as [s st1]. cbn [fst snd] in *. subst s.
  destruct (Hp1 eq_refl) as [Hb Hp2]. destruct (builder st1) eqn:Eb; [|done]. destruct (_ <=? _); [|done]. apply (Finish_works' st1 (K ++ [e])); [done..|by rewrite Eb|done].
Qed.

Section RunWorks.
Context {I : Type} `{!Iterator I, !HasStatus I} (S0 cutoff : Z) (c : Compaction).
Abbreviation loop := (compact_loop (I := I) en S0 cutoff c).

Lemma loop_files_grow fuel n it ds st : cs_files st `prefix_of` cs_files (loop fuel n it ds st).1.1.2.
Proof.
  revert n it ds st. induction fuel as [|fuel IH]; intros n it ds st; [done|]. cbn [compact_loop]. destruct (cur it) as [[key value]|]; [|done]. destruct (shutting_down en n); [done|].
  destruct (decide_drop _ _ _ _ _ _) as [[|] ds']; [apply IH|]. pose proof (output_files_grow (MaxOutputFileSize c) st key value (status it)) as Hg. destruct (output_entry _ _ _ _ _ _) as [s st']. cbn [snd] in Hg.
  destruct s; [|done]. etransitivity; [exact Hg|apply IH].
Qed.

Lemma compact_loop_works fuel n it ds st l K : iter_ok it -> (ahead it < fuel)%nat -> walk fuel it = e_view <$> l -> Forall entry_ok l ->
  counted start st -> progress st K -> 0 <= start -> start + lenZ (outputs st) + lenZ l < 2 ^ 64 -> K ++ l `sublist_of` total ->
  small_files (cs_files (loop fuel n it ds st).1.1.2) -> (loop fuel n it ds st).1.1.1 = true.
Proof.
  revert n it ds st l K. induction fuel as [|fuel IH]; intros n it ds st l K Hit Hf Hw Hok Hc Hp Hs Hlt Hsub; [lia|]. cbn [compact_loop walk] in *. unfold shutting_down. rewrite Hshut.
  destruct (cur it) as [[key value]|] eqn:Ecur; [|done]. destruct l as [|e l]; [done|]. cbn [fmap list_fmap] in Hw. injection Hw as -> -> Hw. apply Forall_cons_1 in Hok as [He Hok].
  rewrite (status_ok it Hit). destruct (Next_best it _ Hit Ecur) as (Hit' & _ & _). pose proof (ahead_Next it _ Hit Ecur) as Hah. simpl in Hlt. assert (Hsub' : K ++ l `sublist_of` total) by (etransitivity; [|exact Hsub]; apply sublist_app; [done|by apply sublist_cons]).
  destruct (decide_drop _ _ _ _ _ _) as [[|] ds'].
  - intros Hsm. by apply (IH (S n) (Next it) ds' st l K); [..|lia| | | | | |lia| |].
  - destruct (output_entry_ok en start (MaxOutputFileSize c) st K e Hc Hp Hs ltac:(lia)) as (Hc' & Hl' & Hp'). assert (Hsub1 : K ++ [e] `sublist_of` total) by (etransitivity; [|exact Hsub]; apply sublist_app; [done|]; apply sublist_skip, sublist_nil_l).
    pose proof (output_entry_works (MaxOutputFileSize c) st K e Hc Hp Hs ltac:(lia) Hsub1) as Hwk. destruct (output_entry _ _ _ _ _ _) as [s st']. cbn [fst snd] in *.
    intros Hsm. destruct s; [|by specialize (Hwk Hsm)]. apply (IH (S n) (Next it) ds' st' l (K ++ [e])); [done|lia|done|done|done|by apply Hp'|done|lia|by rewrite <- app_assoc|done].
Qed.

Lemma compact_files_works it l : iter_ok it -> StronglySorted klt (e_view <$> l) -> Forall entry_ok l -> (forall e, e ∈ content it <-> e ∈ e_view <$> l) ->
  0 <= start -> start + lenZ l < 2 ^ 64 -> l `sublist_of` total -> let r := compact_files (I := I) en S0 cutoff c it start in small_files (cs_files r.2) -> r.1 = true.
Proof.
  intros Hit Hso Hok Hin Hs Hlt Hsub. destruct (SeekToFirst_best it Hit) as (Hit' & Hco & _). assert (Hd : Forall dom (e_view <$> l).*1).
  { rewrite <- list_fmap_compose. apply Forall_fmap. eapply Forall_impl; [exact Hok|]. intros e He. by exists e. }
  pose proof (walk_sorted it _ Hit Hso Hd Hin) as Hw. unfold compact_files. set (it0 := SeekToFirst it) in *. set (st0 := mkCState [] None start []).
  assert (H0 : counted start st0 /\ progress st0 []) by (split; [split; simpl; try done; lia|exists [], [], []; by split_and!]). destruct H0 as [Hc0 Hp0].
  pose proof (compact_loop_ok en start S0 cutoff c (S (length (content it0))) 0 it0 dstate_new st0 l [] Hit') as H. pose proof (compact_loop_works (S (length (content it0))) 0 it0 dstate_new st0 l [] Hit') as Hwk.
  destruct (loop _ 0%nat it0 dstate_new st0) as [[[s st] n] it']. pose proof (ahead_length it0) as Hah. ospecialize (H _ Hw Hok Hc0 Hp0 Hs _); [lia|simpl; lia|]. ospecialize (Hwk _ Hw Hok Hc0 Hp0 Hs _ Hsub); [lia|simpl; lia|].
  destruct H as (Hc & Hit'' & Hp). cbn [fst snd] in Hwk. rewrite (status_ok it' Hit''). assert (Esd : shutting_down en n = false) by (unfold shutting_down; by rewrite Hshut). rewrite Esd.
  destruct (builder st) as [b|] eqn:Eb.
  - assert (Hgrow : cs_files st `prefix_of` cs_files (FinishCompactionOutputFile en st true).2) by (unfold FinishCompactionOutputFile; rewrite Eb; cbn [snd cs_files]; by eexists).
    destruct s; [|cbn [fst snd]; intros Hsm; by specialize (Hwk Hsm)]. pose proof (Finish_works' st _ Hc (Hp eq_refl Esd)) as Hf. rewrite Eb in Hf. specialize (Hf ltac:(done)).
    ospecialize (Hf _); [etransitivity; [|exact Hsub]; apply kept_sub|]. destruct (FinishCompactionOutputFile en st true) as [s st']. cbn [fst snd] in *. intros Hsm. by rewrite (Hf Hsm).
  - cbn [fst snd]. intros Hsm. by rewrite (Hwk Hsm).
Qed.
End RunWorks.
End Works.

Section Compact.
Context (db : DB) (es : FileMetaData -> list ientry) (m i : list ientry) (c : Compaction) (en : cenv) (snapshots_ : list Z) (cutoff : Z).
Context (Hdb : db_ok address opt verify Hint Hif db es m i) (Hrd : ready db es c) (Hsnap : oldest snapshots_ db < kMaxSequenceNumber).
Abbreviation start := (vs_next_file_number (db_versions db)).
Abbreviation S0 := (oldest snapshots_ db).
Definition compacted : bool * CompactionState := compact_files (I := merged (I := FilesIterator)) en S0 cutoff c (MakeInputIterator (db_disk db) c) start.
Context (Hsm : small_files (cs_files compacted.2)).

Lemma version_unique : unique_seqs (all_entries es (version db)).
Proof. apply (unique_part _ _ (dk_unique _ _ _ _ _ _ _ _ _ Hdb)). intros x Hx. rewrite !elem_of_app. by right; right. Qed.

(** What goes in and comes out. *)
Lemma compacted_ok : exists l, newest_ahead l /\ Forall entry_ok l /\ (forall x, x ∈ l <-> exists f, f ∈ inputs_0 c ++ inputs_1 c /\ x ∈ es f) /\ load (e_view <$> l) < 2 ^ 31
  /\ (forall k, lenZ (files_ (version db) k) + lenZ l < 2 ^ 31) /\ counted start compacted.2
  /\ (compacted.1 = true -> exists chunks, mjoin chunks = kept_entries S0 cutoff (input_version_ c) (c_level c) dstate_new l /\ Forall2 (closed_output (cs_files compacted.2)) (outputs compacted.2) chunks)
  /\ (cenv_ok en -> (forall f data, (Append f data).1 = true) -> compacted.1 = true).
Proof.
  destruct Hrd as [Hcv Ht _ Hls He Hnum Hload Hnext Hsh]. pose proof (dk_version _ _ _ _ _ _ _ _ _ Hdb) as Hv. pose proof version_unique as Hu. rewrite <- Hcv in Ht, Hls, Hnum, Hv, Hu.
  destruct (MakeInputIterator_ok (db_disk db) es c Hv Ht Hls Hnum Hu) as (Hit & l & Hl & Hso & Hlok & Hin & Hco).
  assert (Hp : l ≡ₚ mjoin (es <$> inputs_0 c ++ inputs_1 c)).
  { apply NoDup_Permutation; [by apply newest_ahead_NoDup|exact (inputs_NoDup (TB := tables (db_disk db)) es _ (c_level c) _ _ Hv Ht Hls)|]. intros x. by rewrite Hin, elem_of_held. }
  assert (Hloadl : load (e_view <$> l) < 2 ^ 31) by (by rewrite (load_perm _ _ (fmap_Permutation e_view _ _ Hp))).
  pose proof (load_length (e_view <$> l)) as Hll. rewrite length_fmap in Hll. exists l. do 4 (split; [done|]). split.
  - intros k. specialize (Hsh k). rewrite <- (load_perm _ _ (fmap_Permutation e_view _ _ Hp)) in Hsh. lia.
  - destruct (compact_files_ok en start S0 cutoff c (MakeInputIterator (db_disk db) c) l Hit Hso Hlok Hco) as [H1 H2]; [lia..|]. split; [exact H1|]. split; [exact H2|]. intros (E1 & E2 & E3 & E4 & _) Happ.
    apply (compact_files_works en start Happ E1 E2 E3 E4 l) with l; [|done..|lia|lia|done|exact Hsm]. intros q Hq. pose proof (chunk_ok (db_disk db) es c l Hv Ht Hlok Hin Hloadl q (sublist_submseteq _ _ Hq)) as Hck.
    apply Hck. apply (sublist_sorted _ _ l Hq). by apply newest_ahead_sorted.
Qed.

(** The version with the new files. *)
Lemma install_ok l st chunks vs2 e ptrs : newest_ahead l -> Forall entry_ok l -> (forall x, x ∈ l <-> exists f, f ∈ inputs_0 c ++ inputs_1 c /\ x ∈ es f) -> load (e_view <$> l) < 2 ^ 31 ->
  (forall k, lenZ (files_ (version db) k) + lenZ l < 2 ^ 31) -> counted start st -> mjoin chunks = kept_entries S0 cutoff (input_version_ c) (c_level c) dstate_new l ->
  Forall2 (closed_output (cs_files st)) (outputs st) chunks -> small_files (cs_files st) -> new_files_ e = (fun f => (S (c_level c), f)) <$> outputs st ->
  (forall k n, (k, n) ∈ deleted_files_ e <-> (k = c_level c /\ n ∈ fm_number <$> inputs_0 c) \/ (k = S (c_level c) /\ n ∈ fm_number <$> inputs_1 c)) ->
  current_ vs2 = SaveTo (version db) (Builder_Apply (Builder_empty ptrs) e) -> vs_next_file_number vs2 = cs_next st ->
  let db' := mkFullDB (db_mem db) (db_imm db) vs2 (put_tables (db_disk db) (cs_files st)) (db_logfile_number db) in let es' := result_entries es st chunks in
  db_ok address opt verify Hint Hif db' es' m i /\ (forall x, x ∈ all_entries es' (current_ vs2) -> x ∈ all_entries es (version db))
  /\ (forall key s, user_dom key -> S0 <= s < 2 ^ 56 -> 0 <= s -> Full_Get address opt verify db' s key = Full_Get address opt verify db s key)
  /\ forall f, (f ∈ inputs_0 c -> ~ f ∈ files_ (current_ vs2) (c_level c)) /\ (f ∈ inputs_1 c -> ~ f ∈ files_ (current_ vs2) (S (c_level c))).
Proof.
  intros Hl Hlok Hin Hload Hsh Hc Hch Hcl Hsmall Hnew Hdel Hcur Hnext db' es'. pose proof (dk_version _ _ _ _ _ _ _ _ _ Hdb) as Hv. pose proof (dk_numbers _ _ _ _ _ _ _ _ _ Hdb) as Hold.
  destruct Hrd as [Hcv Ht Has _ _ _ _ _ _]. rewrite <- Hcv in Hv, Ht, Has, Hold, Hcur, Hsh. pose proof (kept_sub S0 cutoff (input_version_ c) (c_level c) dstate_new l) as HK.
  pose proof (results_replace (db_disk db) es c start l _ Hv Ht Hl Hlok Hin Hload HK Hold (Hsh _) st chunks Hc Hch Hcl Hsmall Has e Hnew Hdel) as Hr. fold es' in Hr. set (disk := put_tables (db_disk db) (cs_files st)) in *.
  assert (Hmono : version_in_order (TB := tables disk) es (input_version_ c)).
  { apply (put_tables_mono _ _ _ _ start); [done| |done]. rewrite (ct_files _ _ Hc). apply List.Forall_forall. intros n Hn%list_elem_of_In%elem_of_seqZ. lia. }
  pose proof (replace_in_order (TB := tables disk) es _ _ _ _ Hmono Ht _ es' e ptrs Hr) as Hv'. rewrite <- Hcur in Hv'.
  assert (Hsub : forall x, x ∈ all_entries es' (current_ vs2) -> x ∈ all_entries es (input_version_ c)).
  { intros x Hx. rewrite Hcur in Hx. apply (elem_of_replaced (TB := tables disk) es _ _ _ _ Hmono Ht _ es' e ptrs Hr) in Hx. apply (elem_of_before (TB := tables disk) es _ _ _ _ Hmono Ht). destruct Hx as [Hx|(f & Hf & Hx)]; [by left|right].
    by apply (rp_from _ _ _ _ _ _ _ _ Hr f x). }
  assert (Hlev : forall k f, f ∈ files_ (current_ vs2) k -> stays (input_version_ c) (c_level c) (inputs_0 c) (inputs_1 c) k f \/ (k = S (c_level c) /\ f ∈ outputs st)).
  { intros k f. rewrite Hcur. apply (replace_case (TB := tables disk) es _ _ _ _ Hmono Ht _ es' e ptrs Hr). }
  destruct (outputs_NoDup start st Hc) as (_ & _ & _ & Hrange). pose proof (ct_next _ _ Hc) as Hcn. split_and!.
  - apply (db_ok_replaced db es m i); [done..| |]; [by rewrite <- Hcv|]. intros k f [[Hf _]|[_ Hf]]%Hlev; [specialize (Hold k f Hf); lia|]. specialize (Hrange f Hf). lia.
  - by rewrite <- Hcv.
  - intros key x Hk Hx Hx0. apply Full_Get_below. apply (Version_Get_agree _ _ es es'); [apply Hdb|done| |done|lia|].
    + apply (unique_part _ _ version_unique). by rewrite <- Hcv.
    + intros r Hr'. rewrite <- Hcv in Hr'. rewrite Hcur. apply (replace_looked (TB := tables disk) es _ _ _ _ Hmono Ht _ es' e ptrs Hr S0 cutoff l Hsnap Hl Hin); [|lia|done].
      intros y. by apply (result_out es start _ st chunks).
  - intros f. split; intros Hf [(_ & H0 & H1)|[E Hf']]%Hlev; [by apply H0|lia|by apply H1|]. apply (tk_next _ _ _ _ _ Ht) in Hf. specialize (Hold _ f Hf). specialize (Hrange f Hf'). lia.
Qed.

Lemma compaction_ok : let r := DoCompactionWork en snapshots_ cutoff c db in
  exists es', db_ok address opt verify Hint Hif r.2 es' m i
    /\ (forall x, x ∈ all_entries es' (version r.2) -> x ∈ all_entries es (version db))
    /\ (forall key s, user_dom key -> S0 <= s < 2 ^ 56 -> 0 <= s -> Full_Get address opt verify r.2 s key = Full_Get address opt verify db s key)
    /\ (r.1 = true -> forall f, (f ∈ inputs_0 c -> ~ f ∈ files_ (version r.2) (c_level c)) /\ (f ∈ inputs_1 c -> ~ f ∈ files_ (version r.2) (S (c_level c)))).
Proof.
  destruct compacted_ok as (l & Hl & Hlok & Hin & Hload & Hsh & Hc & Hout & _). unfold DoCompactionWork. fold compacted. destruct Hrd as [Hcv Ht _ Hls [Hen Hed] Hnum _ Hnext _].
  destruct compacted as [s st]. cbn [fst snd] in *. set (vs := set_counters _ _ _). set (disk := put_tables _ _). pose proof (dk_version _ _ _ _ _ _ _ _ _ Hdb) as Hv. pose proof (dk_numbers _ _ _ _ _ _ _ _ _ Hdb) as Hold.
  assert (Hmono : version_in_order (TB := tables disk) es (version db)).
  { apply (put_tables_mono _ _ _ _ start); [done| |done]. rewrite (ct_files _ _ Hc). apply List.Forall_forall. intros n Hn%list_elem_of_In%elem_of_seqZ. lia. }
  assert (Hgrow : start <= vs_next_file_number vs) by (cbn [vs set_counters vs_next_file_number]; rewrite (ct_next _ _ Hc); lia).
  assert (Hsame : forall vs', current_ vs' = version db -> start <= vs_next_file_number vs' -> db_ok address opt verify Hint Hif (mkFullDB (db_mem db) (db_imm db) vs' disk (db_logfile_number db)) es m i
    /\ (forall x, x ∈ all_entries es (current_ vs') -> x ∈ all_entries es (version db))
    /\ (forall key s, user_dom key -> S0 <= s < 2 ^ 56 -> 0 <= s -> Full_Get address opt verify (mkFullDB (db_mem db) (db_imm db) vs' disk (db_logfile_number db)) s key = Full_Get address opt verify db s key)).
  { intros vs' Hcur Hn. split_and!; [|by rewrite Hcur|].
    - apply (db_ok_replaced db es m i); [done|by rewrite Hcur|by rewrite Hcur|]. intros k f Hf. rewrite Hcur in Hf. specialize (Hold k f Hf). lia.
    - intros key x Hk Hx Hx0. apply Full_Get_below. rewrite Hcur. apply (Version_Get_agree _ _ es es); [done..|apply version_unique|done|lia|]. intros r Hr. by exists r. }
  destruct s; [|exists es; destruct (Hsame vs eq_refl Hgrow) as (? & ? & ?); by split_and!]. destruct (LogAndApply _ _ _ _) as [s2 vs2] eqn:El. destruct (LogAndApply_current _ _ _ _ _ _ El) as [Hc2 Hn2]. cbn [fst snd].
  destruct s2; [|exists es; destruct (Hsame vs2 Hc2 ltac:(lia)) as (? & ? & ?); by split_and!]. destruct (Hout eq_refl) as (chunks & Hch & Hcl).
  destruct (complete_files vs (install_edit c (outputs st))) as [Hnew Hdel]. destruct (install_files c (outputs st) Hen Hed) as [Hin1 Hin2]. rewrite Hin1 in Hnew.
  change (current_ vs) with (version db) in Hc2. rewrite <- Hdel in Hin2.
  destruct (install_ok l st chunks vs2 _ _ Hl Hlok Hin Hload Hsh Hc Hch Hcl Hsm Hnew Hin2 Hc2 Hn2) as (R1 & R2 & R3 & R4).
  exists (result_entries es st chunks). by split_and!.
Qed.

Lemma compaction_works : cenv_ok en -> (forall f data, (Append f data).1 = true) -> (DoCompactionWork en snapshots_ cutoff c db).1 = true.
Proof.
  intros Hen Happ. destruct compacted_ok as (_ & _ & _ & _ & _ & _ & _ & _ & Hw). specialize (Hw Hen Happ). destruct Hen as (_ & _ & _ & _ & Hvn). unfold DoCompactionWork. fold compacted. destruct compacted as [s st]. cbn [fst] in Hw. subst s.
  rewrite Hvn. match goal with |- context [LogAndApply venv_ok ?p ?v ?e] => pose proof (LogAndApply_works p v e) as Hl; by destruct (LogAndApply venv_ok p v e) end.
Qed.
End Compact.

End Work.

(** The table of the sample database goes from level 2 to level 3. *)
Definition sample_cenv : cenv := mkCEnv (fun _ => true) (fun _ => true) (fun _ => true) None venv_ok (0, 100).
Definition sample_compaction : Compaction := mkCompaction 2 [sample_file] [] Edit_new [[]; []; [sample_file]; []; []; []; []].
Abbreviation sample_work := (DoCompactionWork (WF := memory_file) id sample_options [] Mmap_Read true sample_cenv [4] 0 sample_compaction sample_scan).

Lemma sample_ready db es m i : db_ok id sample_options true sample_restarts sample_filters db es m i ->
  current_ (db_versions db) = [[]; []; [sample_file]; []; []; []; []] -> vs_next_file_number (db_versions db) = 3 ->
  (forall k f, f ∈ files_ (current_ (db_versions db)) k -> k = 2%nat /\ f = sample_file /\ numbered f) ->
  (forall x, x ∈ all_entries es (current_ (db_versions db)) -> x ∈ sample_entries) -> ready db es sample_compaction.
Proof.
  intros Hok Hfiles Hn Hver Hsub. pose proof (dk_version _ _ _ _ _ _ _ _ _ Hok) as Hv.
  assert (Hin : sample_file ∈ files_ (current_ (db_versions db)) 2) by (rewrite Hfiles; by left).
  assert (Hload : load (e_view <$> mjoin (es <$> [sample_file] ++ [])) < 1000).
  { apply Z.le_lt_trans with (load (e_view <$> sample_entries)); [|by vm_compute]. apply load_less, fmap_submseteq. cbn [app fmap list_fmap mjoin list_join]. rewrite app_nil_r.
    apply NoDup_submseteq; [apply e_sorted_NoDup, (vo_files _ _ (io_ok _ _ Hv) 2%nat _ Hin)|]. intros x Hx. apply Hsub. apply elem_of_all_entries; [apply (io_ok _ _ Hv)|]. by exists 2%nat, sample_file. }
  split; cbn [c_level inputs_0 inputs_1 c_edit input_version_ sample_compaction].
  - symmetry. exact Hfiles.
  - split; [unfold kNumLevels; lia| | | |].
    + intros f ->%list_elem_of_singleton. exact Hin.
    + intros f Hf. by apply elem_of_nil in Hf.
    + intros f g Hf Hnf _. destruct (Hver 2%nat f Hf) as (_ & -> & _). destruct Hnf. by left.
    + intros f g x y Hf. by destruct (Hver 3%nat f Hf) as (? & _).
  - intros f Hf. by destruct (Hver 3%nat f Hf) as (? & _).
  - split; [done|intros _; rewrite Hfiles; done|apply sublist_nil_l].
  - done.
  - intros k f Hf. apply (Hver k f Hf).
  - lia.
  - rewrite Hn. lia.
  - intros k. rewrite Hfiles. assert (lenZ (files_ [[]; []; [sample_file]; []; []; []; []] k) <= 1); [|lia]. do 7 (destruct k as [|k]; [done|]). done.
Qed.

Lemma sample_scan_next : vs_next_file_number (db_versions sample_scan) = 3.
Proof. vm_compute. reflexivity. Qed.

Lemma small_files_forallb {WF : WritableFile} (files : list (Z * WFile)) :
  forallb (fun p => lenZ (file_contents p.2) <? 2 ^ 32) files = true -> Forall (fun p => lenZ (file_contents p.2) < 2 ^ 32) files.
Proof. rewrite forallb_forall, List.Forall_forall. intros H p Hp%H. apply Z.ltb_lt. exact Hp. Qed.

