(* ===== verification/LdbPick.v ===== *)
(** * leveldb: which files a compaction takes

    [PickCompactionLevel], [PickCompaction] and [CompactRange] of
    src/ext/leveldb/db/version_set.cc choose the level and the files of a compaction, by
    the sizes of the files and by how they overlap those of the next level.  The ratios and
    scores are doubles, computed as in IEEE 754 with the definitions of [SpecFloat].  The
    lemmas: whatever the sizes are, what is chosen may be taken, as [LdbReplace] puts it,
    if no two files of a level other than 0 share a user key. *)

From Stdlib Require Import ZArith Lia SpecFloat.
From stdpp Require Import base list numbers option sorting.
From S2P Require Import Prelude ByteOrder WebappStr Session LdbCoding LdbMem LdbIter LdbSep LdbBuild LdbVersion LdbEdit LdbManifest LdbFlush LdbScan LdbDrop LdbReplace LdbCompact.
Open Scope Z_scope.
Open Scope webapp_scope.

(** ** The code *)

(** The conversion of an integer to a double, and division and product of doubles. *)
Definition double (n : Z) : spec_float := binary_normalize 53 1024 n 0 false.
Definition ddiv (x y : spec_float) : spec_float := SFdiv 53 1024 x y.
Definition dmul (x y : spec_float) : spec_float := SFmul 53 1024 x y.

Definition kL0_CompactionTrigger : Z := 4.
Definition MaxBytesForLevel (level : nat) : Z :=
  default 0 ([10; 100; 100; 1000; 10000; 100000; 1000000] !! level) * 1048576.
Definition MaxCompactionBytesForLevel (level : nat) : Z :=
  default 0 ([128; 128; 128; 256; 256; 256; 256] !! level) * 1048576.

Definition TotalFileSize (files : list FileMetaData) : Z := foldl (fun sum f => i64 (sum + fm_file_size f)) 0 files.

(** [Finalize]: the scores of the levels but the last. *)
Definition level_score (v : Version) (level : nat) : spec_float :=
  if (level =? 0)%nat then ddiv (double (lenZ (files_ v level))) (double kL0_CompactionTrigger)
  else ddiv (double (u64 (TotalFileSize (files_ v level)))) (double (MaxBytesForLevel level)).
Definition Finalize (v : Version) : list spec_float := level_score v <$> seq 0 (kNumLevels - 1).

(** [file_to_compact_] with its level. *)
Abbreviation seek_choice := (option (nat * FileMetaData)).

(** [UpdateStats], over the seeks that are left for a file, by its number. *)
Definition UpdateStats (allowed_seeks : Z -> Z) (file_to_compact : seek_choice) (seek_file : option (nat * FileMetaData))
    : bool * (Z -> Z) * seek_choice :=
  match seek_file with
  | None => (false, allowed_seeks, file_to_compact)
  | Some (level, f) =>
      let left := i32 (allowed_seeks (fm_number f) - 1) in
      let allowed_seeks := fun n => if n =? fm_number f then left else allowed_seeks n in
      match file_to_compact with
      | None => if left <=? 0 then (true, allowed_seeks, Some (level, f)) else (false, allowed_seeks, None)
      | Some _ => (false, allowed_seeks, file_to_compact)
      end
  end.

Section Level.
Context (v : Version) (file_to_compact : seek_choice) (locked : nat -> bool).

Definition score (level : nat) : spec_float := default S754_nan (Finalize v !! level).
Definition score_level (i : nat) : bool :=
  negb (locked i || locked (i + 1)) && SFleb (double 1) (score i) && ((kNumLevels <=? i + 2)%nat || SFltb (score (i + 1)) (double 1)).
Definition PickCompactionLevel (seek_driven : bool) : nat :=
  match List.find score_level (seq 0 (kNumLevels - 1)) with
  | Some i => i
  | None =>
      match seek_driven, file_to_compact with
      | true, Some (level, _) => if negb (locked level) && negb (locked (level + 1)) then level else kNumLevels
      | _, _ => kNumLevels
      end
  end.
End Level.

(** [CmpByRange], and a sort by it. *)
Definition range_lt (lhs rhs : FileMetaData) : bool :=
  match InternalKey_Compare (smallest lhs) (smallest rhs) with
  | Eq => is_lt (InternalKey_Compare (largest lhs) (largest rhs))
  | c => is_lt c
  end.
Fixpoint insert_by_range (f : FileMetaData) (files : list FileMetaData) : list FileMetaData :=
  match files with
  | [] => [f]
  | g :: files => if range_lt g f then g :: insert_by_range f files else f :: g :: files
  end.
Definition sort_by_range (files : list FileMetaData) : list FileMetaData := foldr insert_by_range [] files.

(** The sums of the sizes of the first files. *)
Fixpoint size_sums (sum : Z) (files : list FileMetaData) : list Z :=
  sum :: match files with [] => [] | f :: files => size_sums (u64 (sum + fm_file_size f)) files end.

Record CompactionBoundary := mkBoundary { b_start : nat; b_limit : nat }.

(** How many files from the first on pass the test. *)
Fixpoint count_while (test : FileMetaData -> bool) (files : list FileMetaData) : nat :=
  match files with f :: files => if test f then S (count_while test files) else O | [] => O end.
Fixpoint boundary_loop (LA LB : list FileMetaData) (start limit : nat) : list CompactionBoundary :=
  match LA with
  | [] => []
  | f :: LA =>
      let start := (start + count_while (fun g => is_lt (Slice_compare (large_key g) (small_key f))) (drop start LB))%nat in
      let limit := Nat.max start limit in
      let limit := (limit + count_while (fun g => negb (is_gt (Slice_compare (small_key g) (large_key f)))) (drop limit LB))%nat in
      mkBoundary start limit :: boundary_loop LA LB start limit
  end.
Definition GetCompactionBoundaries (v : Version) (level : nat) : list FileMetaData * list FileMetaData * list Z * list Z * list CompactionBoundary :=
  let LA := sort_by_range (files_ v level) in
  let LB := sort_by_range (files_ v (level + 1)) in
  (LA, LB, size_sums 0 LA, size_sums 0 LB, boundary_loop LA LB 0 0).

(** The best set of files that was found. *)
Record best_set := mkBest { best_idx_start : nat; best_idx_limit : nat; best_size : Z; best_ratio : spec_float }.

Section Best.
Context (level : nat) (LA_sizes LB_sizes : list Z) (boundaries : list CompactionBoundary).
Definition at_size (sizes : list Z) (i : nat) : Z := default 0 (sizes !! i).
Definition boundary (i : nat) : CompactionBoundary := default (mkBoundary 0 0) (boundaries !! i).

(** The inner loop, over [j], for the files from [i] to [j]. *)
Fixpoint best_inner (i : nat) (js : list nat) (trivial : bool) (best : best_set) : bool * best_set :=
  match js with
  | [] => (trivial, best)
  | j :: js =>
      let sz_a := u64 (at_size LA_sizes (j + 1) - at_size LA_sizes i) in
      let sz_b := u64 (at_size LB_sizes (b_limit (boundary j)) - at_size LB_sizes (b_start (boundary i))) in
      if (b_start (boundary j) =? b_limit (boundary j))%nat then (true, best)
      else if MaxCompactionBytesForLevel level <=? u64 (sz_a + sz_b) then (trivial, best)
      else
        let ratio := ddiv (double sz_a) (double sz_b) in
        let better := SFltb (best_ratio best) ratio || (SFeqb ratio (best_ratio best) && (u64 (sz_a + sz_b) <? best_size best)) in
        best_inner i js trivial (if better then mkBest i (j + 1) (u64 (sz_a + sz_b)) ratio else best)
  end.
Definition best_files : bool * best_set :=
  let n := length boundaries in
  foldl (fun '(trivial, best) i => best_inner i (seq i (n - i)) trivial best) (false, mkBest 0 0 0 (double (-1))) (seq 0 n).

(** The file that overlaps the fewest files of the next level. *)
Definition overlap_count (i : nat) : nat := (b_limit (boundary i) - b_start (boundary i))%nat.
Definition least_overlap : nat :=
  let n := length boundaries in
  foldl (fun smallest i => if (smallest =? n)%nat || (overlap_count i <? overlap_count smallest)%nat then i else smallest) n (seq 0 n).
End Best.

(** The files from one index up to another. *)
Definition files_between {A} (l : list A) (start limit : nat) : list A := take (limit - start) (drop start l).

Definition smaller_key (a b : list Z) : list Z := if is_lt (InternalKey_Compare b a) then b else a.
Definition larger_key (a b : list Z) : list Z := if is_gt (InternalKey_Compare b a) then b else a.
(** [GetRange]; the keys are empty if there are no inputs. *)
Definition GetRange (inputs : list FileMetaData) : list Z * list Z :=
  match inputs with
  | [] => ([], [])
  | f :: inputs => (foldl (fun a g => smaller_key a (smallest g)) (smallest f) inputs, foldl (fun a g => larger_key a (largest g)) (largest f) inputs)
  end.

Definition SetupOtherInputs (c : Compaction) : Compaction :=
  let '(smallest, largest) := GetRange (inputs_0 c) in
  mkCompaction (c_level c) (inputs_0 c) (GetOverlappingInputs (input_version_ c) (c_level c + 1) (Some (ExtractUserKey smallest)) (Some (ExtractUserKey largest)))
    (SetCompactPointer (c_edit c) (c_level c) largest) (input_version_ c).

(** [OldestFirst], for [std::sort]. *)
Definition oldest_first (a b : FileMetaData) : Prop := fm_number a <= fm_number b.
#[global] Instance oldest_first_dec : RelDecision oldest_first.
Proof. intros a b. unfold oldest_first. apply _. Defined.
#[global] Instance oldest_first_total : Total oldest_first.
Proof. intros a b. unfold oldest_first. lia. Qed.
#[global] Instance oldest_first_trans : Transitive oldest_first.
Proof. intros a b c. unfold oldest_first. lia. Qed.

(** What [PickCompaction] takes of a level other than 0: the files, those of the next
    level, whether they can just be moved, and the ratio of the sizes. *)
Definition pick_files (v : Version) (file_to_compact : seek_choice) (level : nat) : list FileMetaData * list FileMetaData * bool * spec_float :=
  let '(LA, LB, LA_sizes, LB_sizes, boundaries) := GetCompactionBoundaries v level in
  let '(trivial, best) := best_files level LA_sizes LB_sizes boundaries in
  let all_a := default 0 (list.last LA_sizes) in
  let all_b := default 0 (list.last LB_sizes) in
  let found := SFleb (double 0) (best_ratio best) in
  if trivial then
    (fst <$> List.filter (fun p => (b_start p.2 =? b_limit p.2)%nat) (zip LA boundaries), [], negb (level =? 0)%nat, double 1)
  else if (level <? 4)%nat && found && SFleb (double all_b) (dmul (double all_a) (best_ratio best)) then
    (LA, [], trivial, ddiv (double all_a) (double all_b))
  else if found then
    (files_between LA (best_idx_start best) (best_idx_limit best),
     files_between LB (b_start (boundary boundaries (best_idx_start best))) (b_limit (boundary boundaries (best_idx_limit best - 1))), trivial, best_ratio best)
  else
    match file_to_compact with
    | Some (_, f) => ([f], [], trivial, double 0)
    | None =>
        let smallest := least_overlap boundaries in
        (match LA !! smallest with Some f => [f] | None => [] end,
         files_between LB (b_start (boundary boundaries smallest)) (b_limit (boundary boundaries smallest)), trivial, double 0)
    end.

(** The compaction and its ratio. *)
Definition PickCompaction (v : Version) (file_to_compact : seek_choice) (level : nat) : option (Compaction * spec_float) :=
  if bool_decide (files_ v level = []) then None
  else
    let '(in0, in1, trivial, ratio) :=
      if (0 <? level)%nat then pick_files v file_to_compact level
      else (take 32 (merge_sort oldest_first (files_ v 0)), [], false, double 0) in
    let c := mkCompaction level in0 in1 Edit_new v in
    Some (if trivial then c else SetupOtherInputs c, ratio).

(** How many inputs are kept: up to the first with which the total reaches the limit. *)
Fixpoint limit_inputs (limit total : Z) (inputs : list FileMetaData) : list FileMetaData :=
  match inputs with
  | [] => []
  | f :: inputs =>
      let total := u64 (total + fm_file_size f) in
      f :: (if limit <=? total then [] else limit_inputs limit total inputs)
  end.
(** [VersionSet::CompactRange], with the user keys of the range. *)
Definition CompactRange (v : Version) (level : nat) (begin end_ : option (list Z)) : option Compaction :=
  let inputs := GetOverlappingInputs v level begin end_ in
  match inputs with
  | [] => None
  | _ :: _ =>
      let inputs := if (0 <? level)%nat then limit_inputs (MaxFileSizeForLevel level) 0 inputs else inputs in
      Some (SetupOtherInputs (mkCompaction level inputs [] Edit_new v))
  end.

(** ** Keys and ranges *)

Lemma range_key_le_trans a b c : Slice_compare a b <> Gt -> Slice_compare b c <> Gt -> Slice_compare a c <> Gt.
Proof.
  intros Hab Hbc. destruct (Slice_compare a b) eqn:E; [apply Slice_compare_eq in E as ->; done| |done]. by rewrite (below_trans a b c E Hbc).
Qed.

Lemma range_key_le_refl a : Slice_compare a a <> Gt.
Proof. by rewrite (proj2 (Slice_compare_eq a a) eq_refl). Qed.

Lemma internal_lt_user a b : InternalKey_Compare a b = Lt -> Slice_compare (ExtractUserKey a) (ExtractUserKey b) <> Gt.
Proof. unfold InternalKey_Compare. by destruct (Slice_compare _ _). Qed.

Lemma internal_user_lt a b : key_lt (ExtractUserKey a) (ExtractUserKey b) -> InternalKey_Compare a b = Lt.
Proof. unfold InternalKey_Compare. by intros ->. Qed.

Lemma smaller_key_le a b : Slice_compare (ExtractUserKey (smaller_key a b)) (ExtractUserKey a) <> Gt /\ Slice_compare (ExtractUserKey (smaller_key a b)) (ExtractUserKey b) <> Gt.
Proof.
  unfold smaller_key. destruct (is_lt _) eqn:E; [apply is_lt_true in E; split; [by apply internal_lt_user|apply range_key_le_refl]|]. split; [apply range_key_le_refl|].
  intros Hgt. apply not_true_iff_false in E. apply E, is_lt_true, internal_user_lt. unfold key_lt. by rewrite Slice_compare_antisym, Hgt.
Qed.

Lemma larger_key_ge a b : Slice_compare (ExtractUserKey a) (ExtractUserKey (larger_key a b)) <> Gt /\ Slice_compare (ExtractUserKey b) (ExtractUserKey (larger_key a b)) <> Gt.
Proof.
  unfold larger_key. destruct (InternalKey_Compare b a) eqn:E; simpl; (split; [try apply range_key_le_refl|try apply range_key_le_refl]).
  - unfold InternalKey_Compare in E. destruct (Slice_compare (ExtractUserKey b) (ExtractUserKey a)); done.
  - by apply internal_lt_user.
  - intros Hgt. rewrite internal_user_lt in E; [done|]. unfold key_lt. by rewrite Slice_compare_antisym, Hgt.
Qed.

Lemma foldl_smaller files a : let r := foldl (fun a g => smaller_key a (smallest g)) a files in
  Slice_compare (ExtractUserKey r) (ExtractUserKey a) <> Gt /\ forall g, g ∈ files -> Slice_compare (ExtractUserKey r) (small_key g) <> Gt.
Proof.
  revert a. induction files as [|f files IH]; intros a; simpl; [split; [apply range_key_le_refl|by intros g ?%elem_of_nil]|].
  destruct (IH (smaller_key a (smallest f))) as [H1 H2]. destruct (smaller_key_le a (smallest f)) as [H3 H4]. split; [by apply (range_key_le_trans _ _ _ H1)|].
  intros g [->|Hg]%elem_of_cons; [by apply (range_key_le_trans _ _ _ H1)|by apply H2].
Qed.

Lemma foldl_larger files a : let r := foldl (fun a g => larger_key a (largest g)) a files in
  Slice_compare (ExtractUserKey a) (ExtractUserKey r) <> Gt /\ forall g, g ∈ files -> Slice_compare (large_key g) (ExtractUserKey r) <> Gt.
Proof.
  revert a. induction files as [|f files IH]; intros a; simpl; [split; [apply range_key_le_refl|by intros g ?%elem_of_nil]|].
  destruct (IH (larger_key a (largest f))) as [H1 H2]. destruct (larger_key_ge a (largest f)) as [H3 H4]. split; [by apply (range_key_le_trans _ _ _ H3)|].
  intros g [->|Hg]%elem_of_cons; [by apply (range_key_le_trans _ _ _ H4)|by apply H2].
Qed.

(** All inputs are in the range. *)
Lemma GetRange_ok inputs g : g ∈ inputs -> Slice_compare (ExtractUserKey (GetRange inputs).1) (small_key g) <> Gt /\ Slice_compare (large_key g) (ExtractUserKey (GetRange inputs).2) <> Gt.
Proof.
  destruct inputs as [|f inputs]; [by intros ?%elem_of_nil|]. cbn [GetRange fst snd]. destruct (foldl_smaller inputs (smallest f)) as [H1 H2]. destruct (foldl_larger inputs (largest f)) as [H3 H4].
  intros [->|Hg]%elem_of_cons; [done|]. split; [by apply H2|by apply H4].
Qed.

(** ** Sorting by range *)

Lemma sort_by_range_id files : StronglySorted (fun f g => range_lt g f = false) files -> sort_by_range files = files.
Proof.
  induction 1 as [|f files Hs IH Hf]; [done|]. unfold sort_by_range in *. simpl. rewrite IH. destruct files as [|g files]; [done|]. simpl. apply Forall_cons_1 in Hf as [Hg _]. by rewrite Hg.
Qed.

(** ** Sets of files *)

Lemma filter_zip_sublist {A B} (p : A * B -> bool) (l : list A) (k : list B) : fst <$> List.filter p (zip l k) `sublist_of` l.
Proof.
  revert k. induction l as [|x l IH]; intros [|y k]; [done..|apply sublist_nil_l|]. cbn [zip zip_with List.filter]. destruct (p (x, y)); [by apply sublist_skip, IH|by apply sublist_cons, IH].
Qed.

Lemma singleton_sublist {A} (x : A) l : x ∈ l -> [x] `sublist_of` l.
Proof. intros (l1 & l2 & ->)%list_elem_of_split. apply sublist_inserts_l, sublist_skip, sublist_nil_l. Qed.

Lemma files_between_sublist {A} (l : list A) i j : files_between l i j `sublist_of` l.
Proof. unfold files_between. etransitivity; [apply sublist_take|apply sublist_drop]. Qed.

Lemma files_between_some {A} (l : list A) i j : (i < j)%nat -> (j <= length l)%nat -> files_between l i j <> [].
Proof. intros Hij Hj E. apply (f_equal length) in E. unfold files_between in E. rewrite length_take, length_drop in E. simpl in E. lia. Qed.

Lemma limit_inputs_prefix limit total files : limit_inputs limit total files `prefix_of` files.
Proof.
  revert total. induction files as [|f files IH]; intros total; [done|]. cbn [limit_inputs]. apply prefix_cons. destruct (_ <=? _); [by eexists|apply IH].
Qed.

Lemma count_while_ok test files : let n := count_while test files in
  (n <= length files)%nat /\ (forall j g, files !! j = Some g -> (j < n)%nat -> test g = true) /\ (forall g, files !! n = Some g -> test g = false).
Proof.
  induction files as [|f files IH]; [by split_and!|]. cbn [count_while]. destruct (test f) eqn:E; simpl.
  - destruct IH as (H1 & H2 & H3). split_and!; [lia| |done]. intros [|j] g Hg Hj; simpl in Hg; [by injection Hg as <-|]. apply (H2 j g Hg). lia.
  - split_and!; [lia|lia|]. intros g [= <-]. done.
Qed.

(** ** Boundaries *)

(** The files begin one after the other. *)
Definition begins_sorted (files : list FileMetaData) : Prop :=
  forall i j f g, files !! i = Some f -> files !! j = Some g -> (i <= j)%nat -> Slice_compare (small_key f) (small_key g) <> Gt.

(** What the boundaries of a file say: the files of the next level up to the start end before
    it, and those from the limit on begin behind it. *)
Definition bounds_file (LB : list FileMetaData) (f : FileMetaData) (b : CompactionBoundary) : Prop :=
  (b_start b <= b_limit b)%nat /\ (forall j g, LB !! j = Some g -> (j < b_start b)%nat -> key_lt (large_key g) (small_key f))
  /\ (forall j g, LB !! j = Some g -> (b_limit b <= j)%nat -> key_lt (large_key f) (small_key g)).

Lemma begins_sorted_tail f files : begins_sorted (f :: files) -> begins_sorted files.
Proof. intros Hs i j g h Hg Hh Hij. apply (Hs (S i) (S j) g h); [done..|lia]. Qed.

Lemma boundary_loop_ok LA LB start limit : begins_sorted LA -> begins_sorted LB ->
  (forall f j g, head LA = Some f -> LB !! j = Some g -> (j < start)%nat -> key_lt (large_key g) (small_key f)) ->
  Forall2 (bounds_file LB) LA (boundary_loop LA LB start limit).
Proof.
  intros HA HB. revert start limit. induction LA as [|f LA IH]; intros start limit Hst; [constructor|]. cbn [boundary_loop].
  set (start' := (start + _)%nat). set (limit0 := Nat.max start' limit). set (limit' := (limit0 + _)%nat).
  assert (H1 : forall j g, LB !! j = Some g -> (j < start')%nat -> key_lt (large_key g) (small_key f)).
  { intros j g Hg Hj. destruct (decide (j < start)%nat) as [Hlt|Hge]; [by apply (Hst f j g)|]. unfold start' in Hj. destruct (count_while_ok (fun g => is_lt (Slice_compare (large_key g) (small_key f))) (drop start LB)) as (_ & Ht & _).
    apply is_lt_true, (Ht (j - start)%nat g); [rewrite lookup_drop; by replace (start + (j - start))%nat with j by lia|lia]. }
  constructor.
  - split_and!; cbn [b_start b_limit]; [unfold limit', limit0; lia|done|]. intros j g Hg Hj. destruct (count_while_ok (fun g => negb (is_gt (Slice_compare (small_key g) (large_key f)))) (drop limit0 LB)) as (Hle & _ & Hf).
    rewrite length_drop in Hle. pose proof (lookup_lt_Some _ _ _ Hg) as Hlen. destruct (lookup_lt_is_Some_2 LB limit') as [h Hh]; [lia|].
    specialize (Hf h). rewrite lookup_drop in Hf. specialize (Hf Hh). apply negb_false_iff in Hf. rewrite is_gt_flip in Hf. apply is_lt_true in Hf.
    by apply (below_trans _ (small_key h)); [|apply (HB limit' j)].
  - apply IH; [by apply (begins_sorted_tail f)|]. intros h j g Hh Hg Hj. apply (below_trans _ (small_key f)); [by apply (H1 j)|]. apply (HA 0%nat 1%nat f h); [done| |lia]. by destruct LA.
Qed.

Lemma length_boundary_loop LA LB start limit : length (boundary_loop LA LB start limit) = length LA.
Proof. revert start limit. induction LA as [|f LA IH]; intros start limit; [done|]. cbn [boundary_loop length]. by rewrite IH. Qed.

(** A file whose start is its limit overlaps no file of the next level. *)
Lemma filter_boundaries LA LB bs f : Forall2 (bounds_file LB) LA bs -> f ∈ fst <$> List.filter (fun p => (b_start p.2 =? b_limit p.2)%nat) (zip LA bs) ->
  forall g, g ∈ LB -> key_lt (large_key g) (small_key f) \/ key_lt (large_key f) (small_key g).
Proof.
  intros HF ([f' b] & -> & Hp)%list_elem_of_fmap g [j Hg]%list_elem_of_lookup. apply list_elem_of_In, List.filter_In in Hp as [Hin E%Nat.eqb_eq]. simpl in *. apply list_elem_of_In, list_elem_of_lookup in Hin as [i Hi].
  apply lookup_zip_Some in Hi as [Hf Hb]. pose proof (Forall2_lookup_lr _ _ _ _ _ _ HF Hf Hb) as (_ & H1 & H2). destruct (decide (j < b_start b)%nat); [left; by apply (H1 j)|right; apply (H2 j); [done|lia]].
Qed.

(** ** The best set *)

Section BestOk.
Context (level : nat) (LA_sizes LB_sizes : list Z) (boundaries : list CompactionBoundary).
Abbreviation n := (length boundaries).

(** What is found is a range of files, or a file that overlaps none. *)
Definition best_ok (r : bool * best_set) : Prop :=
  (SFleb (double 0) (best_ratio r.2) = true -> (best_idx_start r.2 < best_idx_limit r.2)%nat /\ (best_idx_limit r.2 <= n)%nat)
  /\ (r.1 = true -> exists j b, boundaries !! j = Some b /\ b_start b = b_limit b).

Lemma best_inner_ok i js trivial b : best_ok (trivial, b) -> (forall j, j ∈ js -> (i <= j < n)%nat) -> best_ok (best_inner level LA_sizes LB_sizes boundaries i js trivial b).
Proof.
  revert trivial b. induction js as [|j js IH]; intros trivial b [Hb Ht] Hjs; [done|]. cbn [best_inner fst snd] in *. pose proof (Hjs j ltac:(by left)) as Hj. destruct (Nat.eqb_spec (b_start (boundary boundaries j)) (b_limit (boundary boundaries j))) as [E|_].
  - split; [done|]. intros _. destruct (lookup_lt_is_Some_2 boundaries j) as [bd Hbd]; [lia|]. exists j, bd. unfold boundary in E. by rewrite Hbd in E.
  - destruct (_ <=? _); [done|]. apply IH; [|intros k Hk; apply Hjs; by right]. split; [|done]. destruct (_ || _); [|done]. intros _. cbn [snd best_idx_start best_idx_limit]. lia.
Qed.

Lemma best_files_ok : best_ok (best_files level LA_sizes LB_sizes boundaries).
Proof.
  unfold best_files. assert (H : forall ix r, best_ok r -> (forall i, i ∈ ix -> (i < n)%nat) ->
    best_ok (foldl (fun '(trivial, best) i => best_inner level LA_sizes LB_sizes boundaries i (seq i (n - i)) trivial best) r ix)).
  { induction ix as [|i ix IH]; intros [trivial b] Hb His; [done|]. simpl. apply IH; [|intros k Hk; apply His; by right]. apply best_inner_ok; [done|]. intros j Hj%elem_of_seq. lia. }
  apply H; [by split|]. intros i Hi%elem_of_seq. lia.
Qed.

Lemma least_overlap_ok : (0 < n)%nat -> (least_overlap boundaries < n)%nat.
Proof.
  intros Hn. unfold least_overlap. assert (H : forall ix k, (k <= n)%nat -> (forall i, i ∈ ix -> (i < n)%nat) -> (ix <> [] \/ (k < n)%nat) ->
    (foldl (fun smallest i => if (smallest =? n)%nat || (overlap_count boundaries i <? overlap_count boundaries smallest)%nat then i else smallest) k ix < n)%nat).
  { induction ix as [|i ix IH]; intros k Hkn His Hk; [by destruct Hk|]. simpl. specialize (His i ltac:(by left)) as Hi. assert (Hlt : forall c, ((if (k =? n)%nat || c then i else k) < n)%nat).
    { intros c. destruct (Nat.eqb_spec k n); simpl; [done|]. destruct c; [done|lia]. }
    apply IH; [apply Nat.lt_le_incl, Hlt|intros j Hj; apply His; by right|right; apply Hlt]. }
  apply H; [lia|intros i Hi%elem_of_seq; lia|]. left. by destruct n; [lia|].
Qed.
End BestOk.

(** ** What is picked *)

Section Pick.
Context `{TB : !Tables} (es : FileMetaData -> list ientry) (v : Version) (Hv : version_in_order es v).

(** No two files of a level other than 0 have a user key in common. *)
Definition separate : Prop :=
  forall k f g x y, (0 < k)%nat -> f ∈ files_ v k -> g ∈ files_ v k -> f <> g -> x ∈ es f -> y ∈ es g -> e_key x <> e_key y.

Lemma level_file k f : f ∈ files_ v k -> file_ok f (es f).
Proof. apply (vo_files _ _ (io_ok _ _ Hv)). Qed.

Lemma level_begins_sorted k : (0 < k)%nat -> begins_sorted (files_ v k).
Proof.
  intros Hk i j f g Hf Hg Hij Hgt. apply (level_begins es (files_ v k) i j f g); [by apply (io_ok _ _ Hv)|apply level_file|done..|]. by rewrite Slice_compare_antisym, Hgt.
Qed.

Lemma level_sort_id k : (0 < k)%nat -> sort_by_range (files_ v k) = files_ v k.
Proof.
  intros Hk. apply sort_by_range_id. pose proof (vo_sorted _ _ (io_ok _ _ Hv) k Hk) as Hs. pose proof (level_file k) as Hf. induction (files_ v k) as [|f files IH]; [constructor|].
  cbn [fmap list_fmap mjoin list_join] in Hs. apply StronglySorted_app in Hs as (Hc & _ & Hs). constructor; [apply IH; [done|intros g Hg; apply Hf; by right]|].
  apply List.Forall_forall. intros g Hg%list_elem_of_In. destruct (fo_first _ _ (Hf f ltac:(by left))) as (a & Ea & Es). destruct (fo_first _ _ (Hf g ltac:(by right))) as (b & Eb & Es').
  assert (Hab : e_lt a b) by (apply Hc; [by apply head_in|]; apply elem_of_held; exists g; split; [done|by apply head_in]).
  unfold range_lt. rewrite Es, Es', InternalKey_ikey; [|apply (Forall_elem _ _ _ (fo_entries _ _ (Hf g ltac:(by right)))); by apply head_in|apply (Forall_elem _ _ _ (fo_entries _ _ (Hf f ltac:(by left)))); by apply head_in].
  rewrite e_compare_antisym. unfold e_lt in Hab. by rewrite Hab.
Qed.

(** Files one of which ends before the other begins. *)
Lemma files_before f g x y : file_ok f (es f) -> file_ok g (es g) -> key_lt (large_key f) (small_key g) -> x ∈ es f -> y ∈ es g -> key_lt (e_key x) (e_key y).
Proof.
  intros Hf Hg Hlt Hx Hy. destruct (file_range f _ x Hf Hx) as [_ H1]. destruct (file_range g _ y Hg Hy) as [H2 _]. apply (below_trans_l _ (large_key f)); [done|]. by apply (not_before_trans _ (small_key g)).
Qed.

(** Of two files of a level, the one that ends first is before the other. *)
Lemma ends_before k f g x y : separate -> (0 < k)%nat -> f ∈ files_ v k -> g ∈ files_ v k -> key_lt (large_key f) (large_key g) -> x ∈ es f -> y ∈ es g -> key_lt (e_key x) (e_key y).
Proof.
  intros Hsep Hk Hf Hg Hlt Hx Hy. assert (Hne : f <> g) by (intros ->; by apply key_lt_irrefl in Hlt). destruct (files_apart es v k f g (io_ok _ _ Hv) Hk Hf Hg Hne) as [Ha|Ha].
  - assert (Hc : Slice_compare (e_key x) (e_key y) <> Gt) by (apply e_compare_key; specialize (Ha x y Hx Hy); unfold e_lt in Ha; congruence).
    destruct (Slice_compare (e_key x) (e_key y)) eqn:E; [|done..]. apply Slice_compare_eq in E. by apply (Hsep k f g x y) in E.
  - exfalso. destruct (fo_last _ _ (level_file k f Hf)) as (a & Ea & El). destruct (fo_last _ _ (level_file k g Hg)) as (b & Eb & El'). specialize (Ha b a (last_elem _ _ Eb) (last_elem _ _ Ea)).
    assert (Hc : Slice_compare (e_key b) (e_key a) <> Gt) by (apply e_compare_key; unfold e_lt in Ha; congruence). unfold large_key in Hlt. rewrite El, El', !ikey_user in Hlt. apply Hc. rewrite Slice_compare_antisym. by rewrite Hlt.
Qed.

Lemma begins_after k f g x y : separate -> (0 < k)%nat -> f ∈ files_ v k -> g ∈ files_ v k -> key_lt (small_key g) (small_key f) -> x ∈ es f -> y ∈ es g -> key_lt (e_key y) (e_key x).
Proof.
  intros Hsep Hk Hf Hg Hlt Hx Hy. assert (Hne : g <> f) by (intros ->; by apply key_lt_irrefl in Hlt). destruct (files_apart es v k g f (io_ok _ _ Hv) Hk Hg Hf Hne) as [Ha|Ha].
  - assert (Hc : Slice_compare (e_key y) (e_key x) <> Gt) by (apply e_compare_key; specialize (Ha y x Hy Hx); unfold e_lt in Ha; congruence).
    destruct (Slice_compare (e_key y) (e_key x)) eqn:E; [|done..]. apply Slice_compare_eq in E. symmetry in E. by apply (Hsep k f g x y) in E.
  - exfalso. destruct (fo_first _ _ (level_file k f Hf)) as (a & Ea & El). destruct (fo_first _ _ (level_file k g Hg)) as (b & Eb & El'). specialize (Ha a b (head_in _ _ Ea) (head_in _ _ Eb)).
    assert (Hc : Slice_compare (e_key a) (e_key b) <> Gt) by (apply e_compare_key; unfold e_lt in Ha; congruence). unfold small_key in Hlt. rewrite El, El', !ikey_user in Hlt. apply Hc. rewrite Slice_compare_antisym. by rewrite Hlt.
Qed.

(** Files of the level that stay are newer than those that are taken. *)
Definition stay_newer (level : nat) (in0 : list FileMetaData) : Prop := forall f g, f ∈ files_ v level -> f ∉ in0 -> g ∈ in0 -> above (es f) (es g).

Lemma separate_newer level in0 : separate -> (0 < level)%nat -> in0 ⊆ files_ v level -> stay_newer level in0.
Proof. intros Hsep Hl Hin f g Hf Hn Hg x y Hx Hy E. exfalso. apply (Hsep level f g x y); [done|done|by apply Hin| |done..]. by intros ->. Qed.

(** [SetupOtherInputs] takes all of the next level that overlaps. *)
Lemma Setup_ok c level : separate -> c_level c = level -> input_version_ c = v -> (S level < kNumLevels)%nat -> inputs_0 c ⊆ files_ v level -> stay_newer level (inputs_0 c) ->
  let c' := SetupOtherInputs c in
  c_level c' = level /\ input_version_ c' = v /\ inputs_0 c' = inputs_0 c /\ taken es v level (inputs_0 c') (inputs_1 c') /\ aside es v level (inputs_0 c') (inputs_1 c')
  /\ inputs_1 c' `sublist_of` files_ v (S level) /\ new_files_ (c_edit c') = new_files_ (c_edit c) /\ deleted_files_ (c_edit c') = deleted_files_ (c_edit c).
Proof.
  intros Hsep Hl Hver Hlev Hin Hnew. unfold SetupOtherInputs. pose proof (GetRange_ok (inputs_0 c)) as Hrange. destruct (GetRange (inputs_0 c)) as [s l]. cbn [c_level input_version_ inputs_0 inputs_1 c_edit fst snd] in *.
  rewrite Hl, Hver. replace (level + 1)%nat with (S level) by lia. destruct (GetOverlappingInputs_ok v (S level) (Some (ExtractUserKey s)) (Some (ExtractUserKey l))) as (b & e & E & _ & Hbe & _). destruct (Hbe ltac:(done)) as [-> ->].
  set (in1 := GetOverlappingInputs _ _ _ _) in *. assert (Hin1 : forall f, f ∈ in1 <-> f ∈ files_ v (S level) /\ overlaps (Some (ExtractUserKey s)) (Some (ExtractUserKey l)) f = true).
  { intros f. rewrite E, !list_elem_of_In. apply List.filter_In. }
  assert (Has : aside es v level (inputs_0 c) in1).
  { intros f Hf Hn. assert (Ho : overlaps (Some (ExtractUserKey s)) (Some (ExtractUserKey l)) f = false) by (apply not_true_is_false; intros Ho; by apply Hn, Hin1).
    unfold overlaps in Ho. apply negb_false_iff, orb_true_iff in Ho as [Ho|Ho]; simpl in Ho; [left|right]; intros g x y [Hg|Hg]%elem_of_app Hx Hy.
    - rewrite is_gt_flip in Ho. apply is_lt_true in Ho. destruct (Hrange g Hg) as [Hs _]. apply (files_before f g); [by apply (level_file (S level))|by apply (level_file level), Hin| |done..]. by apply (below_trans _ (ExtractUserKey s)).
    - rewrite is_gt_flip in Ho. apply is_lt_true in Ho. apply Hin1 in Hg as [Hg Hov]. apply (ends_before (S level) f g); [done|lia|done..| |done|done]. apply (below_trans _ (ExtractUserKey s)); [done|].
      unfold overlaps in Hov. apply negb_true_iff, orb_false_iff in Hov as [Hov _]. simpl in Hov. by destruct (Slice_compare (ExtractUserKey s) (large_key g)).
    - apply is_lt_true in Ho. destruct (Hrange g Hg) as [_ Hs]. apply (files_before g f); [by apply (level_file level), Hin|by apply (level_file (S level))| |done..]. by apply (below_trans_l _ (ExtractUserKey l)).
    - apply is_lt_true in Ho. apply Hin1 in Hg as [Hg Hov]. apply (begins_after (S level) f g); [done|lia|done..| |done|done]. apply (below_trans_l _ (ExtractUserKey l)); [|done].
      unfold overlaps in Hov. apply negb_true_iff, orb_false_iff in Hov as [_ Hov]. simpl in Hov. rewrite Slice_compare_antisym. by destruct (Slice_compare (ExtractUserKey l) (small_key g)). }
  split_and!; [done..| |done| |done|done].
  - split; [done|done|by intros f [? _]%Hin1|done|by apply aside_side].
  - rewrite E. clear. induction (files_ v (S level)) as [|f files IH]; [done|]. simpl. destruct (overlaps _ _ f); [by apply sublist_skip|by apply sublist_cons].
Qed.
(** A compaction that may be done: by moving its files, if there are none of the next level,
    or by merging them. *)
Record picked (level : nat) (c : Compaction) : Prop := mkPicked {
  pk_level : c_level c = level;
  pk_version : input_version_ c = v;
  pk_some : inputs_0 c <> [];
  pk_taken : taken es v level (inputs_0 c) (inputs_1 c);
  pk_listed : listed v level (inputs_0 c) (inputs_1 c);
  pk_edit : new_files_ (c_edit c) = [] /\ deleted_files_ (c_edit c) = [];
  pk_apart : forall f g, f ∈ inputs_0 c -> g ∈ files_ v (S level) -> g ∉ inputs_1 c -> apart es f g;
  pk_aside : (inputs_1 c = [] /\ (0 < level)%nat) \/ aside es v level (inputs_0 c) (inputs_1 c) }.

Lemma Setup_picked c level : separate -> c_level c = level -> input_version_ c = v -> c_edit c = Edit_new -> (S level < kNumLevels)%nat -> inputs_0 c <> [] ->
  inputs_0 c ⊆ files_ v level -> stay_newer level (inputs_0 c) -> (level = 0%nat -> NoDup (inputs_0 c)) -> (level <> 0%nat -> inputs_0 c `sublist_of` files_ v level) ->
  picked level (SetupOtherInputs c) /\ aside es v level (inputs_0 (SetupOtherInputs c)) (inputs_1 (SetupOtherInputs c)).
Proof.
  intros Hsep Hl Hver Hed Hlev Hne Hin Hnew Hz Hs. destruct (Setup_ok c level Hsep Hl Hver Hlev Hin Hnew) as (H1 & H2 & H3 & H4 & H5 & H6 & H7 & H8). rewrite Hed in H7, H8. split; [|done]. split; [done..|by rewrite H3|done| |done| |by right].
  - split; [by rewrite H3|by rewrite H3|done].
  - apply (aside_apart es v level (inputs_0 (SetupOtherInputs c)) _ _ es H5); [done|]. intros f x Hf Hx. exists f. split; [apply elem_of_app; by left|done].
Qed.

(** Of a level other than 0. *)
Lemma pick_files_ok file_to_compact level in0 in1 trivial ratio : (0 < level)%nat -> files_ v level <> [] ->
  (forall l f, file_to_compact = Some (l, f) -> f ∈ files_ v level) -> pick_files v file_to_compact level = (in0, in1, trivial, ratio) ->
  in0 `sublist_of` files_ v level /\ in0 <> []
  /\ (trivial = true -> in1 = [] /\ forall f g, f ∈ in0 -> g ∈ files_ v (S level) -> key_lt (large_key g) (small_key f) \/ key_lt (large_key f) (small_key g)).
Proof.
  intros Hl Hne Hftc. unfold pick_files, GetCompactionBoundaries. replace (level + 1)%nat with (S level) by lia. rewrite !level_sort_id by lia. set (bs := boundary_loop _ _ _ _).
  assert (Hbs : Forall2 (bounds_file (files_ v (S level))) (files_ v level) bs) by (apply boundary_loop_ok; [apply level_begins_sorted; lia..|lia]).
  assert (Hn : length bs = length (files_ v level)) by apply length_boundary_loop. pose proof (best_files_ok level (size_sums 0 (files_ v level)) (size_sums 0 (files_ v (S level))) bs) as Hbest.
  pose proof (least_overlap_ok bs) as Hleast. destruct (best_files _ _ _ _) as [t best]. destruct Hbest as [Hbest Htriv]. cbn [fst snd] in Hbest, Htriv. destruct t.
  - intros [= <- <- <- <-]. split; [apply filter_zip_sublist|]. split.
    { destruct (Htriv eq_refl) as (j & b & Hb & E). destruct (lookup_lt_is_Some_2 (files_ v level) j) as [f Hf]; [rewrite <- Hn; by eapply lookup_lt_Some|]. assert (Hin : (f, b) ∈ List.filter (fun p => (b_start p.2 =? b_limit p.2)%nat) (zip (files_ v level) bs)).
      { apply list_elem_of_In, List.filter_In. split; [|by apply Nat.eqb_eq]. apply list_elem_of_In, list_elem_of_lookup. exists j. apply lookup_zip_Some. done. }
      intros En. destruct (List.filter _ _); [by apply elem_of_nil in Hin|done]. }
    intros _. split; [done|]. intros f g Hf Hg. by apply (filter_boundaries (files_ v level) (files_ v (S level)) bs).
  - destruct (_ && _); [intros [= <- <- <- <-]; by split_and!|]. destruct (SFleb _ _) eqn:Efound.
    + intros [= <- <- <- <-]. destruct (Hbest eq_refl) as [H1 H2]. split_and!; [apply files_between_sublist|apply files_between_some; lia|done].
    + destruct file_to_compact as [[l f]|].
      * intros [= <- <- <- <-]. split_and!; [|done|done]. apply singleton_sublist. by apply (Hftc l).
      * intros [= <- <- <- <-]. destruct (lookup_lt_is_Some_2 (files_ v level) (least_overlap bs)) as [f Hf]; [rewrite <- Hn; apply Hleast; rewrite Hn; by destruct (files_ v level); [|simpl; lia]|].
        rewrite Hf. split_and!; [|done|done]. apply singleton_sublist. by eapply list_elem_of_lookup_2.
Qed.

Lemma sublist_subset {A} (k l : list A) : k `sublist_of` l -> k ⊆ l.
Proof. intros H x Hx. eapply elem_of_submseteq; [exact Hx|by apply sublist_submseteq]. Qed.

(** The 32 oldest files of level 0. *)
Lemma oldest_ok : let in0 := take 32 (merge_sort oldest_first (files_ v 0)) in in0 ⊆ files_ v 0 /\ NoDup in0 /\ stay_newer 0 in0 /\ (files_ v 0 <> [] -> in0 <> []).
Proof.
  pose proof (merge_sort_Permutation oldest_first (files_ v 0)) as Hp. pose proof (StronglySorted_merge_sort oldest_first (files_ v 0)) as Hs. set (l := merge_sort oldest_first (files_ v 0)) in *.
  assert (Hn : NoDup l) by (rewrite Hp; apply files_NoDup; apply (io_levels _ _ Hv 0%nat); unfold kNumLevels; lia). assert (Hsub : take 32 l ⊆ files_ v 0) by (intros f Hf; rewrite <- Hp; by eapply sublist_subset; [apply sublist_take|]).
  split_and!; [done|by apply (sublist_NoDup (take 32 l) l), sublist_take| |].
  - intros f g Hf Hnf Hg. apply (vo_zero _ _ (io_ok _ _ Hv)); [done|by apply Hsub|]. assert (Hfl : f ∈ drop 32 l) by (rewrite <- Hp, <- (take_drop 32 l), elem_of_app in Hf; by destruct Hf).
    rewrite <- (take_drop 32 l) in Hs. apply StronglySorted_app in Hs as (Hc & _ & _). specialize (Hc g f Hg Hfl). unfold oldest_first in Hc. assert (fm_number g <> fm_number f); [|lia].
    intros E. apply Hnf. rewrite <- (number_inj es v Hv 0 g f); [done|unfold kNumLevels; lia|by apply Hsub|done|done].
  - intros Hne E. destruct l as [|f l]; [|done]. apply Hne. symmetry in Hp. by apply Permutation_nil_r in Hp.
Qed.

(** Whatever [PickCompaction] returns may be done. *)
Lemma PickCompaction_ok file_to_compact level c ratio : separate -> (S level < kNumLevels)%nat -> (forall l f, file_to_compact = Some (l, f) -> f ∈ files_ v level) ->
  PickCompaction v file_to_compact level = Some (c, ratio) -> picked level c.
Proof.
  intros Hsep Hlev Hftc. unfold PickCompaction. case_bool_decide as Hne; [done|]. destruct (Nat.ltb_spec 0 level) as [Hl|Hl].
  - destruct (pick_files _ _ _) as [[[in0 in1] trivial] ratio'] eqn:E. destruct (pick_files_ok _ _ _ _ _ _ Hl Hne Hftc E) as (Hsub & Hsome & Htriv). intros [= <- <-]. pose proof (sublist_subset _ _ Hsub) as Hin.
    destruct trivial; [|by apply (Setup_picked (mkCompaction level in0 in1 Edit_new v)); try done; [by apply separate_newer|lia]]. destruct (Htriv eq_refl) as [-> Hap].
    assert (Hside : forall f g x y, f ∈ in0 -> g ∈ files_ v (S level) -> x ∈ es f -> y ∈ es g -> key_lt (e_key y) (e_key x) \/ key_lt (e_key x) (e_key y)).
    { intros f g x y Hf Hg Hx Hy. specialize (Hin f Hf). destruct (Hap f g Hf Hg); [left; by apply (files_before g f); [by apply (level_file (S level))|by apply (level_file level)|..]|right; by apply (files_before f g); [by apply (level_file level)|by apply (level_file (S level))|..]]. }
    split; [done..| |split; [lia|done|apply sublist_nil_l]|done| |by left].
    + split; [done|done|by intros f ?%elem_of_nil|by apply separate_newer|]. intros f g x y Hf _ Hg Hx Hy Exy. cbn [inputs_0 inputs_1] in Hg. rewrite app_nil_r in Hg.
      destruct (Hside g f y x Hg Hf Hy Hx) as [H|H]; rewrite Exy in H; by apply key_lt_irrefl in H.
    + cbn [inputs_0 inputs_1]. intros f g Hf Hg _. specialize (Hin f Hf). destruct (Hap f g Hf Hg) as [H|H]; [right|left]; intros x y Hx Hy; apply key_lt_e_compare.
      * by apply (files_before g f); [by apply (level_file (S level))|by apply (level_file level)|..].
      * by apply (files_before f g); [by apply (level_file level)|by apply (level_file (S level))|..].
  - replace level with 0%nat in * by lia. intros [= <- <-]. destruct oldest_ok as (H1 & H2 & H3 & H4). apply (Setup_picked (mkCompaction 0 (take 32 (merge_sort oldest_first (files_ v 0))) [] Edit_new v)); try done. by apply H4.
Qed.

(** The files that stay in level 0 have no key in common with those that overlap a range. *)
Lemma zero_newer b e : stay_newer 0 (GetOverlappingInputs v 0 b e).
Proof.
  destruct (GetOverlappingInputs_ok v 0 b e) as (b' & e' & E & _ & _ & Hin). specialize (Hin eq_refl). intros f g Hf Hn Hg x y Hx Hy Exy. exfalso. destruct (Hin g Hg) as [Hb He].
  assert (Ho : overlaps b' e' f = false). { apply not_true_is_false. intros Ho. apply Hn. rewrite E. by apply list_elem_of_In, List.filter_In; split; [apply list_elem_of_In|]. }
  assert (Hgf : g ∈ files_ v 0) by (rewrite E in Hg; apply list_elem_of_In, List.filter_In in Hg as [Hg _]; by apply list_elem_of_In).
  unfold overlaps in Ho. apply negb_false_iff, orb_true_iff in Ho as [Ho|Ho].
  - destruct b' as [k|]; [|done]. simpl in Ho, Hb. rewrite is_gt_flip in Ho. apply is_lt_true in Ho. assert (H : key_lt (e_key x) (e_key y)).
    { apply (files_before f g); [by apply (level_file 0)..| |done|done]. apply (below_trans _ k); [done|]. rewrite Slice_compare_antisym. by destruct (Slice_compare (small_key g) k). }
    rewrite Exy in H. by apply key_lt_irrefl in H.
  - destruct e' as [k|]; [|done]. simpl in Ho, He. apply is_lt_true in Ho. assert (H : key_lt (e_key y) (e_key x)).
    { apply (files_before g f); [by apply (level_file 0)..| |done|done]. apply (below_trans_l _ k); [by destruct (Slice_compare (large_key g) k)|done]. }
    rewrite Exy in H. by apply key_lt_irrefl in H.
Qed.

Lemma CompactRange_ok level b e c : separate -> (S level < kNumLevels)%nat -> CompactRange v level b e = Some c -> picked level c /\ aside es v level (inputs_0 c) (inputs_1 c).
Proof.
  intros Hsep Hlev. unfold CompactRange. pose proof (zero_newer b e) as Hz. destruct (GetOverlappingInputs_ok v level b e) as (b' & e' & E & _). set (inputs := GetOverlappingInputs v level b e) in *.
  assert (Hsub : inputs `sublist_of` files_ v level). { rewrite E. clear. induction (files_ v level) as [|f files IH]; [done|]. simpl. destruct (overlaps _ _ f); [by apply sublist_skip|by apply sublist_cons]. }
  destruct inputs as [|f inputs'] eqn:Ei; [done|]. rewrite <- Ei in Hsub |- *. intros [= <-]. destruct (Nat.ltb_spec 0 level) as [Hl|Hl].
  - assert (Hsub' : limit_inputs (MaxFileSizeForLevel level) 0 inputs `sublist_of` files_ v level) by (etransitivity; [|exact Hsub]; destruct (limit_inputs_prefix (MaxFileSizeForLevel level) 0 inputs) as [k Ek]; rewrite Ek at 2; by apply sublist_inserts_r).
    pose proof (sublist_subset _ _ Hsub') as Hin. apply Setup_picked; try done; [by rewrite Ei|by apply separate_newer|lia].
  - assert (level = 0%nat) by lia. subst level. apply Setup_picked; try done; [by rewrite Ei|by apply sublist_subset|]. intros _. apply (sublist_NoDup inputs (files_ v 0)); [|done]. apply files_NoDup; apply (io_levels _ _ Hv 0%nat); unfold kNumLevels; lia.
Qed.
End Pick.

(** ** The level *)

(** A file that has been charged for seeks is in its level, which is not the last. *)
Definition choice_ok (v : Version) (o : seek_choice) : Prop := forall l f, o = Some (l, f) -> f ∈ files_ v l /\ (S l < kNumLevels)%nat.
Definition seeks_ok (v : Version) (st : seeks) : Prop := choice_ok v (last_file_read st) /\ choice_ok v (seek_file st).

Lemma charge_ok v st level f : seeks_ok v st -> f ∈ files_ v level -> choice_ok v (seek_file (charge st level f)) /\ ((S level < kNumLevels)%nat -> seeks_ok v (charge st level f)).
Proof.
  intros [H1 H2] Hf. assert (H : choice_ok v (seek_file (charge st level f))) by (unfold charge; cbn [seek_file]; by destruct (last_file_read st), (seek_file st)).
  split; [done|]. intros Hl. split; [|done]. by intros l g [= <- <-].
Qed.

Lemma level_files_one v level user_key ikey : (length (level_files v (S level) user_key ikey) <= 1)%nat.
Proof. unfold level_files. destruct (_ !! _); [|simpl; lia]. destruct (is_lt _); simpl; lia. Qed.

Section Seeks.
Context (cache_get : Z -> Z -> list Z -> option entry * bool) (v : Version) (user_key ikey : list Z).

Lemma search_files_seeks level files st : seeks_ok v st -> (forall f, f ∈ files -> f ∈ files_ v level) -> ((S level < kNumLevels)%nat \/ (length files <= 1)%nat) ->
  let r := search_files cache_get level files user_key ikey st in choice_ok v (seek_file r.2) /\ ((S level < kNumLevels)%nat -> seeks_ok v r.2).
Proof.
  revert st. induction files as [|f files IH]; intros st Hst Hin Hone; [split; [apply Hst|done]|]. cbn [search_files]. destruct (charge_ok v st level f Hst (Hin f ltac:(by left))) as [H1 H2].
  destruct (cache_get _ _ _) as [met ok]. destruct (negb ok); [done|]. destruct (SaveValue _ _); try done. destruct Hone as [Hl|Hl]; [apply IH; [by apply H2|intros g Hg; apply Hin; by right|by left]|].
  destruct files; [done|simpl in Hl; lia].
Qed.

Lemma search_levels_seeks n st : seeks_ok v st -> (n <= kNumLevels)%nat -> choice_ok v (seek_file (search_levels cache_get n v user_key ikey st).2).
Proof.
  revert st. induction n as [|n IH]; intros st Hst Hn; [apply Hst|]. cbn [search_levels]. set (level := (kNumLevels - S n)%nat).
  destruct (search_files_seeks level (level_files v level user_key ikey) st Hst) as [H1 H2]; [by apply level_files_in|destruct n; [right; apply level_files_one|left; unfold level; lia]|].
  destruct (search_files _ _ _ _ _ _) as [[r|] st']; [done|]. cbn [snd] in *. destruct n as [|n]; [done|]. apply IH; [|lia]. apply H2. unfold level. lia.
Qed.

End Seeks.

(** [Get] charges a file of a level that is not the last, and so does a sampled read. *)
Lemma Version_Get_charges cache_get v key snapshot : choice_ok v (seek_file (Version_Get cache_get v key snapshot).2).
Proof. unfold Version_Get. apply search_levels_seeks; [by split|done]. Qed.

Lemma sample_charges v ikey : choice_ok v (RecordReadSample v ikey).
Proof.
  intros l f. unfold RecordReadSample. destruct (ParseInternalKey ikey) as [parsed|]; [|done]. simpl. unfold ForEachOverlapping. set (key := LdbMem.user_key parsed).
  assert (E : overlapping_files v key ikey = mjoin ((fun level => (fun f => (level, f)) <$> level_files v level key ikey) <$> seq 0 (kNumLevels - 1)) ++ ((fun f => (6%nat, f)) <$> level_files v 6 key ikey)).
  { unfold overlapping_files. change (seq 0 kNumLevels) with (seq 0 (kNumLevels - 1) ++ [6%nat]). rewrite fmap_app, join_app. f_equal. cbn [fmap list_fmap mjoin list_join]. by rewrite app_nil_r. }
  pose proof (level_files_one v 5 key ikey) as Hone. rewrite E. set (A := mjoin _). destruct A as [|[l1 f1] A'] eqn:EA.
  - destruct (level_files v 6 key ikey) as [|g [|]]; [done|done|simpl in Hone; lia].
  - assert (Hin : (l1, f1) ∈ A) by (rewrite EA; by left). apply list_elem_of_join in Hin as (L & Hin & (k & -> & Hk%elem_of_seq)%list_elem_of_fmap). apply list_elem_of_fmap in Hin as (g & [= -> ->] & Hg%level_files_in).
    cbn [app]. destruct (A' ++ ((fun f => (6%nat, f)) <$> level_files v 6 key ikey)) as [|[l2 f2] rest]; [done|]. cbn. intros [= <- <-]. split; [done|lia].
Qed.

Lemma UpdateStats_ok v allowed o seek_file : choice_ok v o -> choice_ok v seek_file -> choice_ok v (UpdateStats allowed o seek_file).2.
Proof. intros Ho Hs. unfold UpdateStats. destruct seek_file as [[l f]|]; [|done]. destruct o; [done|]. by destruct (_ <=? _). Qed.

(** The level that is picked, and the next one, are there and not locked. *)
Lemma PickCompactionLevel_ok v o locked seek_driven : choice_ok v o -> let level := PickCompactionLevel v o locked seek_driven in
  level <> kNumLevels -> (S level < kNumLevels)%nat /\ locked level = false /\ locked (level + 1)%nat = false.
Proof.
  intros Ho. unfold PickCompactionLevel. destruct (List.find _ _) as [i|] eqn:E.
  - intros _. apply List.find_some in E as [Hi%list_elem_of_In%elem_of_seq E]. unfold score_level in E. rewrite !andb_true_iff, negb_true_iff, orb_false_iff in E. destruct E as [[[E1 E2] _] _]. split; [lia|done].
  - destruct seek_driven, o as [[l f]|]; try done. destruct (locked l) eqn:E1; [done|]. destruct (locked (l + 1)%nat) eqn:E2; [done|]. cbn. intros _. split; [by apply (Ho l f)|done].
Qed.
