(* ===== verification/LdbBackground.v ===== *)
(** * leveldb: background compactions

    [BackgroundCompaction] and [OptimisticCompaction] of src/ext/leveldb/db/db_impl.cc
    choose a compaction ([LdbPick]) and do it: by moving files to the next level, if they
    overlap nothing there, or by merging them ([LdbCompact]).  The theorem: no lookup at
    the oldest snapshot or later changes its answer, if no two files of a level share a
    user key.  That this is needed is shown by an example: a file that shares its last key
    with the next one of its level is moved below it, and the older value is found. *)

From Stdlib Require Import ZArith Lia SpecFloat.
From stdpp Require Import base list numbers option sorting.
From S2P Require Import Prelude ByteOrder WebappStr Session LdbCoding LdbLog LdbMem LdbIter LdbMerge LdbBlock LdbSep LdbTwoLevel LdbFilter LdbFormat LdbTable LdbBuild LdbVersion LdbEdit LdbManifest LdbFlush LdbScan LdbDrop LdbReplace LdbCompact LdbPick.
Open Scope Z_scope.
Open Scope webapp_scope.

(** ** The code *)

Definition IsTrivialMove (c : Compaction) : bool := bool_decide (inputs_1 c = []).

(** The files go from their level to the next one. *)
Definition move_edit (c : Compaction) : VersionEdit :=
  foldl (fun e f => AddFile (DeleteFile e (c_level c) (fm_number f)) (S (c_level c)) f) (c_edit c) (inputs_0 c).
Definition MoveFiles (en : venv) (ptrs : Z * Z) (c : Compaction) (db : DB) : bool * DB :=
  let '(s, vs) := LogAndApply en ptrs (db_versions db) (move_edit c) in
  (s, mkFullDB (db_mem db) (db_imm db) vs (db_disk db) (db_logfile_number db)).

(** A compaction that somebody asked for, with the user keys of its range. *)
Record ManualCompaction := mkManual { m_level : nat; m_done : bool; m_begin : option (list Z); m_end : option (list Z) }.

(** The database and what the background threads share.  [bg_error_] is false after an error. *)
Record Bg := mkBg { bg_db : DB; levels_locked_ : nat -> bool; manual_compaction_ : option ManualCompaction; bg_error_ : bool }.

Definition set_locks (locked : nat -> bool) (level : nat) (b : bool) (n : nat) : bool :=
  if (n =? level)%nat || (n =? level + 1)%nat then b else locked n.

Section Background.
#[local] Existing Instance internal_order.
Context `{CM : !Compression, WF : !WritableFile} (address : Z -> Z) (opt : Options).
Context (fresh_file : WFile) (opened_file : WFile -> RandomAccessFile) (verify : bool).
Abbreviation version db := (current_ (db_versions db)).
Abbreviation Work := (DoCompactionWork address opt fresh_file opened_file verify).

Section Round.
Context (en : cenv) (snapshots_ : list Z) (manual_garbage_cutoff_ : Z) (paranoid_checks closing : bool).

(** By moving or by merging. *)
Definition do_compaction (is_manual : bool) (c : Compaction) (db : DB) : bool * DB :=
  if negb is_manual && IsTrivialMove c && (0 <? c_level c)%nat then MoveFiles (e_versions en) (e_ptrs en) c db
  else Work en snapshots_ manual_garbage_cutoff_ c db.

(** The compaction that is chosen. *)
Definition choose_compaction (seek_driven : bool) (file_to_compact : seek_choice) (st : Bg) : option Compaction :=
  let v := version (bg_db st) in
  match manual_compaction_ st with
  | Some m => CompactRange v (m_level m) (m_begin m) (m_end m)
  | None =>
      let level := PickCompactionLevel v file_to_compact (levels_locked_ st) seek_driven in
      if (level =? kNumLevels)%nat then None else fst <$> PickCompaction v file_to_compact level
  end.

(** What is left of the range of a manual compaction. *)
Definition manual_rest (m : ManualCompaction) (c : option Compaction) (status : bool) : ManualCompaction :=
  match c with
  | Some c =>
      if status then mkManual (m_level m) false ((fun f => large_key f) <$> list.last (inputs_0 c)) (m_end m)
      else mkManual (m_level m) true (m_begin m) (m_end m)
  | None => mkManual (m_level m) true (m_begin m) (m_end m)
  end.

(** [BackgroundCompaction]: the status, the new state, and the manual compaction as it
    returns to who asked for it.  [closing] is the flag [shutting_down_] at the end. *)
Definition BackgroundCompaction (seek_driven : bool) (file_to_compact : seek_choice) (st : Bg) : bool * Bg * option ManualCompaction :=
  let is_manual := match manual_compaction_ st with Some _ => true | None => false end in
  let c := choose_compaction seek_driven file_to_compact st in
  let '(status, db, locked) :=
    match c with
    | None => (true, bg_db st, levels_locked_ st)
    | Some c =>
        let locked := if is_manual then levels_locked_ st else set_locks (levels_locked_ st) (c_level c) true in
        let '(s, db) := do_compaction is_manual c (bg_db st) in
        (s, db, set_locks locked (c_level c) false)
    end in
  let error := if status || closing then bg_error_ st else if paranoid_checks then false else bg_error_ st in
  (status, mkBg db locked None error, (fun m => manual_rest m c status) <$> manual_compaction_ st).

(** A double for 0.90. *)
Definition point_nine : spec_float := ddiv (double 9) (double 10).

(** The choice of [OptimisticCompaction]: the first that only moves files, or the one with
    the greatest ratio. *)
Fixpoint optimistic_choice (v : Version) (file_to_compact : seek_choice) (locked : nat -> bool) (levels : list nat) (c : option (Compaction * spec_float)) : option (Compaction * spec_float) :=
  match levels with
  | [] => c
  | level :: levels =>
      if locked level || locked (level + 1)%nat then optimistic_choice v file_to_compact locked levels c
      else
        match PickCompaction v file_to_compact level with
        | None => optimistic_choice v file_to_compact locked levels c
        | Some tmp =>
            if IsTrivialMove tmp.1 then Some tmp
            else
              match c with
              | Some c0 => optimistic_choice v file_to_compact locked levels (if SFltb c0.2 tmp.2 then Some tmp else c)
              | None => optimistic_choice v file_to_compact locked levels (Some tmp)
              end
        end
  end.
(** A round of [OptimisticCompaction]: whether it goes on, the status and the state. *)
Definition optimistic_round (file_to_compact : seek_choice) (st : Bg) : bool * bool * Bg :=
  match optimistic_choice (version (bg_db st)) file_to_compact (levels_locked_ st) (seq 1 (kNumLevels - 2)) None with
  | None => (false, true, st)
  | Some (c, ratio) =>
      if negb (IsTrivialMove c) && SFltb ratio point_nine then (false, true, st)
      else
        let locked := set_locks (levels_locked_ st) (c_level c) true in
        let '(s, db) := do_compaction false c (bg_db st) in
        let error := if s || closing then bg_error_ st else if paranoid_checks then false else bg_error_ st in
        (s, s, mkBg db (set_locks locked (c_level c) false) (manual_compaction_ st) error)
  end.
End Round.

(** ** Moving files *)

Lemma move_files c : new_files_ (c_edit c) = [] -> deleted_files_ (c_edit c) = [] ->
  new_files_ (move_edit c) = (fun f => (S (c_level c), f)) <$> inputs_0 c /\ forall k n, (k, n) ∈ deleted_files_ (move_edit c) <-> k = c_level c /\ n ∈ fm_number <$> inputs_0 c.
Proof.
  intros Hn Hd. unfold move_edit. assert (H : forall files e, let e' := foldl (fun e f => AddFile (DeleteFile e (c_level c) (fm_number f)) (S (c_level c)) f) e files in
    new_files_ e' = new_files_ e ++ ((fun f => (S (c_level c), f)) <$> files) /\ forall k n, (k, n) ∈ deleted_files_ e' <-> (k, n) ∈ deleted_files_ e \/ (k = c_level c /\ n ∈ fm_number <$> files)).
  { induction files as [|f files IH]; intros e; cbn [foldl fmap list_fmap]; [split; [by rewrite app_nil_r|]; intros k n; rewrite elem_of_nil; tauto|].
    destruct (IH (AddFile (DeleteFile e (c_level c) (fm_number f)) (S (c_level c)) f)) as [H1 H2]. split; [rewrite H1; cbn [AddFile DeleteFile new_files_]; by rewrite <- app_assoc|].
    intros k n. rewrite H2. cbn [AddFile DeleteFile deleted_files_]. rewrite elem_of_del_insert, elem_of_cons. split; [intros [[[= -> ->]|?]|?]; tauto|]. (intros [?|[-> [->|?]]]; tauto). }
  destruct (H (inputs_0 c) (c_edit c)) as [H1 H2]. rewrite Hn in H1. split; [exact H1|]. intros k n. rewrite H2, Hd, elem_of_nil. tauto.
Qed.

Context (Hint : 1 <= block_restart_interval opt) (Hif : internal_filters opt).
Abbreviation tables disk := (disk_tables address opt verify Hint Hif disk).
Abbreviation Ok := (db_ok address opt verify Hint Hif).
Abbreviation Get := (Full_Get address opt verify).

Section Move.
Context (db : DB) (es : FileMetaData -> list ientry) (m i : list ientry) (level : nat) (c : Compaction) (Hdb : Ok db es m i).
Context (Hp : picked es (version db) level c) (Hnone : inputs_1 c = []) (Hl : (0 < level)%nat).
Context (Hnum : forall f g, f ∈ files_ (version db) level -> g ∈ files_ (version db) (S level) -> fm_number f <> fm_number g).
Context (Hshort : lenZ (files_ (version db) (S level)) + lenZ (files_ (version db) level) < 2 ^ 31).

Lemma move_replacement e : new_files_ e = (fun f => (S level, f)) <$> inputs_0 c -> (forall k n, (k, n) ∈ deleted_files_ e <-> k = level /\ n ∈ fm_number <$> inputs_0 c) ->
  replacement (TB := tables (db_disk db)) es (version db) level (inputs_0 c) (inputs_1 c) (inputs_0 c) es e.
Proof.
  intros Hnew Hdel. pose proof (dk_version _ _ _ _ _ _ _ _ _ Hdb) as Hv. pose proof (tk_zero _ _ _ _ _ (pk_taken _ _ _ _ Hp)) as Hin. pose proof (ls_level _ _ _ _ (pk_listed _ _ _ _ Hp) ltac:(lia)) as Hsub. split.
  - done.
  - intros f Hf. apply (vo_files _ _ (io_ok _ _ Hv) level). by apply Hin.
  - intros f x Hf Hx. exists f. split; [apply elem_of_app; by left|done].
  - intros f g Hf Hg Hne. apply (files_apart (TB := tables (db_disk db)) es (version db) level); [apply Hv|done|by apply Hin|by apply Hin|done].
  - apply (pk_apart _ _ _ _ Hp).
  - rewrite fmap_app. apply NoDup_app. pose proof (tk_level _ _ _ _ _ (pk_taken _ _ _ _ Hp)) as Hlev. split_and!.
    + apply (io_levels _ _ Hv), Hlev.
    + intros n (g & -> & Hg)%list_elem_of_fmap (f & E & Hf)%list_elem_of_fmap. by apply (Hnum f g); [apply Hin| |].
    + eapply sublist_NoDup; [apply (lo_numbers _ (io_levels _ _ Hv level ltac:(lia)))|]. by apply fmap_sublist.
  - apply sublist_length in Hsub. lia.
  - done.
  - intros k n. rewrite Hdel, Hnone. cbn [fmap list_fmap]. rewrite elem_of_nil. tauto.
Qed.

Lemma move_ok en ptrs : let r := MoveFiles en ptrs c db in
  Ok r.2 es m i /\ (forall x, x ∈ all_entries es (version r.2) -> x ∈ all_entries es (version db)) /\ (forall key s, user_dom key -> 0 <= s < 2 ^ 56 -> Get r.2 s key = Get db s key)
  /\ (r.1 = true -> forall f, f ∈ inputs_0 c -> ~ f ∈ files_ (version r.2) level).
Proof.
  unfold MoveFiles. destruct (LogAndApply _ _ _ _) as [s vs] eqn:El. destruct (LogAndApply_current _ _ _ _ _ _ El) as [Hc Hn]. cbn [fst snd db_versions]. pose proof (dk_version _ _ _ _ _ _ _ _ _ Hdb) as Hv. pose proof (dk_numbers _ _ _ _ _ _ _ _ _ Hdb) as Hold.
  destruct s.
  - destruct (pk_edit _ _ _ _ Hp) as [He1 He2]. destruct (move_files c He1 He2) as [Hm1 Hm2]. destruct (complete_files (db_versions db) (move_edit c)) as [Hc1 Hc2]. rewrite Hm1, (pk_level _ _ _ _ Hp) in Hc1. rewrite <- Hc2 in Hm2. rewrite (pk_level _ _ _ _ Hp) in Hm2.
    pose proof (move_replacement _ Hc1 Hm2) as Hr. pose proof (pk_taken _ _ _ _ Hp) as Ht. set (e := complete_edit _ _) in *. clearbody e. set (ptrs0 := vs_compact_pointer _) in *.
    pose proof (replace_in_order (TB := tables (db_disk db)) es _ _ _ _ Hv Ht _ es e ptrs0 Hr) as Hv'. rewrite <- Hc in Hv'.
    assert (Hsub : forall x, x ∈ all_entries es (current_ vs) <-> x ∈ all_entries es (version db)).
    { intros x. rewrite Hc, (elem_of_replaced (TB := tables (db_disk db)) es _ _ _ _ Hv Ht _ es e ptrs0 Hr), (elem_of_before (TB := tables (db_disk db)) es _ _ _ _ Hv Ht). rewrite Hnone, app_nil_r. done. }
    assert (Hcase : forall k f, f ∈ files_ (current_ vs) k -> stays (version db) level (inputs_0 c) (inputs_1 c) k f \/ (k = S level /\ f ∈ inputs_0 c)) by (intros k f; rewrite Hc; apply (replace_case (TB := tables (db_disk db)) es _ _ _ _ Hv Ht _ es e ptrs0 Hr)).
    split_and!.
    + apply (db_ok_replaced address opt verify Hint Hif db es m i vs (db_disk db) es); [done|done|by intros x Hx; apply Hsub|]. rewrite Hn. intros k f [[Hf _]|[_ Hf]]%Hcase; [by apply (Hold k)|]. apply (Hold level). by apply (tk_zero _ _ _ _ _ Ht).
    + intros x Hx. by apply Hsub.
    + intros key x Hk Hx. apply Full_Get_below. apply (Version_Get_agree address opt verify Hint Hif _ _ es es); [done|done| |done|done|].
      * apply (unique_part _ (m ++ i ++ all_entries es (version db))); [apply Hdb|]. intros y Hy%Hsub. rewrite !elem_of_app. by right; right.
      * intros r Hr'. exists r. split; [|done]. apply (looked_cover (all_entries es (version db))); [by intros y Hy; apply Hsub| |done]. intros y Hy Hky Hsy. exists y. split; [by apply Hsub|]. split_and!; [done|done|lia].
    + intros _ f Hf [(_ & H0 & _)|[E _]]%Hcase; [by apply H0|lia].
  - split_and!; [|by rewrite Hc| |done].
    + apply (db_ok_replaced address opt verify Hint Hif db es m i vs (db_disk db) es); [done|by rewrite Hc|by rewrite Hc|]. intros k f Hf. rewrite Hc in Hf. rewrite Hn. by apply (Hold k).
    + intros key x Hk Hx. apply Full_Get_below. by rewrite Hc.
Qed.
End Move.

(** ** Compactions *)

Context (Hfresh : file_contents fresh_file = []) (Hread : forall f, lenZ (file_contents f) < 2 ^ 32 -> holds (opened_file f) (file_contents f)).
Abbreviation oldest snapshots db := (match snapshots with [] => vs_last_sequence (db_versions db) | s :: _ => s end).

(** What the choice of files relies on: user keys are not shared between files of a level,
    and numbers not between levels. *)
Record settled (db : DB) (es : FileMetaData -> list ientry) : Prop := mkSettled {
  se_separate : separate es (version db);
  se_numbered : forall k f, f ∈ files_ (version db) k -> numbered f;
  se_numbers : forall k f g, f ∈ files_ (version db) k -> g ∈ files_ (version db) (S k) -> fm_number f <> fm_number g;
  se_next : 0 <= vs_next_file_number (db_versions db) < 2 ^ 63;
  se_short : forall k, lenZ (files_ (version db) (S k)) + lenZ (files_ (version db) k) < 2 ^ 31 }.

Section Do.
Context (en : cenv) (snapshots_ : list Z) (cutoff : Z).

(** The inputs are not too large, and neither are the files that are written. *)
Record affordable (db : DB) (es : FileMetaData -> list ientry) (c : Compaction) : Prop := mkAffordable {
  af_load : load (e_view <$> mjoin (es <$> inputs_0 c ++ inputs_1 c)) < 2 ^ 31;
  af_short : forall k, lenZ (files_ (version db) k) + load (e_view <$> mjoin (es <$> inputs_0 c ++ inputs_1 c)) < 2 ^ 31;
  af_files : Forall (fun p => lenZ (file_contents p.2) < 2 ^ 32) (cs_files (compacted address opt fresh_file opened_file verify db c en snapshots_ cutoff).2) }.

Context (db : DB) (es : FileMetaData -> list ientry) (m i : list ientry) (level : nat) (c : Compaction) (Hdb : Ok db es m i) (Hse : settled db es).
Context (Hp : picked es (version db) level c) (Haf : affordable db es c) (Hsnap : oldest snapshots_ db < kMaxSequenceNumber).

Lemma picked_ready : aside es (version db) level (inputs_0 c) (inputs_1 c) -> ready db es c.
Proof.
  intros Has. destruct Hp as [H1 H2 _ H4 H5 H6 _ _]. destruct Hse as [_ S2 _ S4 _]. destruct Haf as [A1 A2 _]. split; try rewrite H1; done.
Qed.

Lemma do_compaction_ok is_manual : (is_manual = true -> aside es (version db) level (inputs_0 c) (inputs_1 c)) ->
  let r := do_compaction en snapshots_ cutoff is_manual c db in
  (exists es', Ok r.2 es' m i /\ forall x, x ∈ all_entries es' (version r.2) -> x ∈ all_entries es (version db))
  /\ (forall key s, user_dom key -> 0 <= s < 2 ^ 56 -> oldest snapshots_ db <= s -> Get r.2 s key = Get db s key)
  /\ (r.1 = true -> forall f, f ∈ inputs_0 c -> ~ f ∈ files_ (version r.2) level)
  /\ (cenv_ok en -> (forall f data, (Append f data).1 = true) -> r.1 = true).
Proof.
  intros Hman r. unfold r, do_compaction. pose proof (pk_level _ _ _ _ Hp) as Hl. destruct (negb is_manual && IsTrivialMove c && (0 <? c_level c)%nat) eqn:E.
  - rewrite !andb_true_iff, Nat.ltb_lt, Hl in E. destruct E as [[_ E%bool_decide_eq_true] E0]. destruct Hse as [_ _ S3 _ S5].
    destruct (move_ok db es m i level c Hdb Hp E E0 (S3 level) (S5 level) (e_versions en) (e_ptrs en)) as (H1 & H2 & H3 & H4). split_and!; [by exists es|by intros key s Hk Hs _; apply H3|done|].
    intros (_ & _ & _ & _ & Hvn) _. unfold MoveFiles. rewrite Hvn. pose proof (LogAndApply_works (e_ptrs en) (db_versions db) (move_edit c)) as Hw. by destruct (LogAndApply _ _ _ _).
  - assert (Has : aside es (version db) level (inputs_0 c) (inputs_1 c)).
    { destruct is_manual; [by apply Hman|]. destruct (pk_aside _ _ _ _ Hp) as [[E1 E2]|]; [|done]. exfalso. unfold IsTrivialMove in E. rewrite E1, Hl in E. apply Nat.ltb_lt in E2. by rewrite E2 in E. }
    pose proof (picked_ready Has) as Hrd. destruct (compaction_ok address opt fresh_file opened_file verify Hint Hif Hfresh Hread db es m i c en snapshots_ cutoff Hdb Hrd Hsnap (af_files _ _ _ Haf)) as (es' & H1 & H2 & H3 & H4).
    split_and!; [by exists es'|intros key s Hk Hs Hle; apply H3; [done|lia|lia]|intros Hr f Hf; rewrite <- Hl; by apply H4|].
    intros Hen Happ. by apply (compaction_works address opt fresh_file opened_file verify Hint Hif Hfresh Hread db es m i c en snapshots_ cutoff Hdb Hrd (af_files _ _ _ Haf)).
Qed.
End Do.

Lemma set_locks_back locked level n : locked level = false -> locked (level + 1)%nat = false -> set_locks (set_locks locked level true) level false n = locked n.
Proof. intros H1 H2. unfold set_locks. destruct (Nat.eqb_spec n level) as [->|]; [done|]. by destruct (Nat.eqb_spec n (level + 1)) as [->|]. Qed.

(** What is chosen may be done. *)
Lemma choose_ok seek_driven o st es m i : Ok (bg_db st) es m i -> settled (bg_db st) es -> (forall mc, manual_compaction_ st = Some mc -> (S (m_level mc) < kNumLevels)%nat) -> choice_ok (version (bg_db st)) o ->
  (forall l f, o = Some (l, f) -> PickCompactionLevel (version (bg_db st)) o (levels_locked_ st) seek_driven = l \/ PickCompactionLevel (version (bg_db st)) o (levels_locked_ st) seek_driven = kNumLevels) ->
  forall c, choose_compaction seek_driven o st = Some c -> picked es (version (bg_db st)) (c_level c) c
    /\ (manual_compaction_ st <> None -> aside es (version (bg_db st)) (c_level c) (inputs_0 c) (inputs_1 c))
    /\ (manual_compaction_ st = None -> levels_locked_ st (c_level c) = false /\ levels_locked_ st (c_level c + 1)%nat = false).
Proof.
  intros Hdb Hse Hman Ho Hlev c. pose proof (dk_version _ _ _ _ _ _ _ _ _ Hdb) as Hv. unfold choose_compaction. destruct (manual_compaction_ st) as [mc|].
  - intros E. destruct (CompactRange_ok (TB := tables (db_disk (bg_db st))) es _ Hv _ _ _ c (se_separate _ _ Hse) (Hman mc eq_refl) E) as [Hp Has]. pose proof (pk_level _ _ _ _ Hp) as Hl. rewrite Hl. by split_and!.
  - set (level := PickCompactionLevel _ _ _ _) in *. destruct (Nat.eqb_spec level kNumLevels) as [|Hne]; [done|]. destruct (PickCompaction _ _ _) as [[c' ratio]|] eqn:E; [|done]. intros [= ->].
    destruct (PickCompactionLevel_ok _ o (levels_locked_ st) seek_driven Ho Hne) as (H1 & H2 & H3). fold level in H1, H2, H3.
    assert (Hp : picked es (version (bg_db st)) level c).
    { apply (PickCompaction_ok (TB := tables (db_disk (bg_db st))) es _ Hv o level c ratio (se_separate _ _ Hse) H1); [|done]. intros l f Hlf. destruct (Hlev l f Hlf) as [->|]; [|done]. by apply (Ho l f). }
    rewrite (pk_level _ _ _ _ Hp). by split_and!.
Qed.


(** ** The optimistic thread *)

Lemma optimistic_choice_ok db es m i locked levels : Ok db es m i -> settled db es -> (forall l, l ∈ levels -> (S l < kNumLevels)%nat) -> forall c0,
  (forall c r, c0 = Some (c, r) -> picked es (version db) (c_level c) c /\ locked (c_level c) = false /\ locked (c_level c + 1)%nat = false) ->
  forall c r, optimistic_choice (version db) None locked levels c0 = Some (c, r) -> picked es (version db) (c_level c) c /\ locked (c_level c) = false /\ locked (c_level c + 1)%nat = false.
Proof.
  intros Hdb Hse. induction levels as [|l levels IH]; intros Hlev c0 H0 c r; [apply H0|]. cbn [optimistic_choice]. assert (IH' := IH (fun k Hk => Hlev k (proj2 (elem_of_cons _ _ _) (or_intror Hk)))).
  destruct (locked l) eqn:E1; [by apply IH'|]. destruct (locked (l + 1)%nat) eqn:E2; [by apply IH'|]. cbn [orb]. destruct (PickCompaction _ _ l) as [[tmp ratio]|] eqn:E; [|by apply IH'].
  assert (Hp : picked es (version db) (c_level tmp) tmp /\ locked (c_level tmp) = false /\ locked (c_level tmp + 1)%nat = false).
  { pose proof (PickCompaction_ok (TB := tables (db_disk db)) es _ (dk_version _ _ _ _ _ _ _ _ _ Hdb) None l tmp ratio (se_separate _ _ Hse) (Hlev l ltac:(by left)) ltac:(done) E) as Hp. by rewrite (pk_level _ _ _ _ Hp). }
  cbn [fst snd]. destruct (IsTrivialMove tmp); [by intros [= <- <-]|]. destruct c0 as [[c1 r1]|]; apply IH'; [|by intros c' r' [= <- <-]]. intros c' r'. destruct (SFltb _ _); [by intros [= <- <-]|apply H0].
Qed.

(** A round of the optimistic thread, when no file has been charged for seeks. *)
Theorem optimistic_preserves en snapshots_ cutoff paranoid closing st es m i :
  Ok (bg_db st) es m i -> settled (bg_db st) es -> oldest snapshots_ (bg_db st) < kMaxSequenceNumber ->
  (forall c r, optimistic_choice (version (bg_db st)) None (levels_locked_ st) (seq 1 (kNumLevels - 2)) None = Some (c, r) -> affordable en snapshots_ cutoff (bg_db st) es c) ->
  let '(goes_on, status, st') := optimistic_round en snapshots_ cutoff paranoid closing None st in
  (exists es', Ok (bg_db st') es' m i /\ forall x, x ∈ all_entries es' (version (bg_db st')) -> x ∈ all_entries es (version (bg_db st)))
  /\ (forall key s, user_dom key -> 0 <= s < 2 ^ 56 -> oldest snapshots_ (bg_db st) <= s -> Get (bg_db st') s key = Get (bg_db st) s key)
  /\ (forall n, levels_locked_ st' n = levels_locked_ st n)
  /\ (cenv_ok en -> (forall f data, (Append f data).1 = true) -> status = true).
Proof.
  intros Hdb Hse Hsnap Haf. unfold optimistic_round. pose proof (optimistic_choice_ok (bg_db st) es m i (levels_locked_ st) (seq 1 (kNumLevels - 2)) Hdb Hse ltac:(intros l Hl%elem_of_seq; unfold kNumLevels in *; lia) None ltac:(done)) as Hch.
  destruct (optimistic_choice _ _ _ _ _) as [[c ratio]|]; [|by split_and!; [exists es|..]]. destruct (negb _ && _); [by split_and!; [exists es|..]|].
  destruct (Hch c ratio eq_refl) as (Hp & L1 & L2).
  destruct (do_compaction_ok en snapshots_ cutoff (bg_db st) es m i (c_level c) c Hdb Hse Hp (Haf c ratio eq_refl) Hsnap false ltac:(done)) as (H1 & H2 & _ & H4).
  destruct (do_compaction en snapshots_ cutoff false c (bg_db st)) as [s db']. cbn [fst snd bg_db levels_locked_] in *. split_and!; [done|done| |done]. intros n. by apply set_locks_back.
Qed.
End Background.

(** A manual compaction releases the locks of its levels, whoever holds them. *)
Lemma manual_releases_locks `{!Compression, !WritableFile} address opt fresh opened verify en snapshots_ cutoff paranoid closing o mc st c : manual_compaction_ st = Some mc -> choose_compaction false o st = Some c ->
  levels_locked_ (BackgroundCompaction address opt fresh opened verify en snapshots_ cutoff paranoid closing false o st).1.2 (c_level c) = false.
Proof.
  intros Hm Hc. unfold BackgroundCompaction. rewrite Hc, Hm. destruct (do_compaction _ _ _ _ _ _ _ _ _ _ _) as [s db]. cbn [fst snd levels_locked_]. unfold set_locks. by rewrite Nat.eqb_refl.
Qed.

(** ** Examples *)

(** The table of a memtable with some entries, under a number. *)
Definition built (number : Z) (entries : list ientry) : FileMetaData * list Z :=
  let r := BuildTable (WF := memory_file) id sample_options true true true [] Mmap_Read number (NewIterator (adds entries)) in
  (r.1.2, default [] r.2).
Definition low : FileMetaData * list Z := built 11 [mkEntry [97] 3 kTypeValue [51]; mkEntry [107] 9 kTypeValue [57]].
Definition high : FileMetaData * list Z := built 12 [mkEntry [107] 5 kTypeValue [53]; mkEntry [122] 6 kTypeValue [54]].
Definition below : FileMetaData * list Z := built 13 [mkEntry [122] 1 kTypeValue [49]].

(** Two files of level 2 share the key [107], whose newer value is in the first of them. *)
Definition shared_key_db : DB :=
  mkFullDB [] None (mkVersions [[]; []; [low.1; high.1]; [below.1]; []; []; []] 14 2 20 0 0 (replicate kNumLevels []) None)
    (fun n => if n =? 11 then Some (Mmap_Read low.2) else if n =? 12 then Some (Mmap_Read high.2) else if n =? 13 then Some (Mmap_Read below.2) else None) 3.
Abbreviation shared_key_round := (BackgroundCompaction (WF := memory_file) id sample_options [] Mmap_Read true sample_cenv [] 0 false false true (Some (2%nat, low.1)) (mkBg shared_key_db (fun _ => false) None true)).


(** Large files of the levels 1 and 2, and one of level 5 that was charged for seeks. *)
Definition sized (number size k1 k2 : Z) : FileMetaData := mkFileMeta number size (internal_key [k1] 9) (internal_key [k2] 1).
Definition large_version : Version := [[]; [sized 4 (64 * 1048576) 97 99]; [sized 5 (64 * 1048576) 98 98]; []; []; [sized 6 100 110 111]; []].

(** The compaction of level 1 takes the file of level 5. *)
Theorem pick_wrong_level : exists c, PickCompaction large_version (Some (5%nat, sized 6 100 110 111)) 1 = Some (c, double 0)
  /\ c_level c = 1%nat /\ inputs_0 c = [sized 6 100 110 111] /\ files_ large_version 1 = [sized 4 (64 * 1048576) 97 99].
Proof. eexists. split; [vm_compute; reflexivity|]. done. Qed.

(** The file of the sample database is charged for seeks and moved. *)
Definition sample_bg : Bg := mkBg sample_scan (fun _ => false) None true.
Abbreviation sample_choice := (Some (2%nat, sample_file)).
Abbreviation sample_round := (BackgroundCompaction (WF := memory_file) id sample_options [] Mmap_Read true sample_cenv [4] 0 false false true sample_choice sample_bg).

Lemma sample_settled db es : current_ (db_versions db) = [[]; []; [sample_file]; []; []; []; []] -> vs_next_file_number (db_versions db) = 3 ->
  (forall k f, f ∈ files_ (current_ (db_versions db)) k -> k = 2%nat /\ f = sample_file /\ numbered f) -> settled db es.
Proof.
  intros Hfiles Hn Hver. split.
  - intros k f g x y _ Hf Hg Hne. destruct (Hver k f Hf) as (_ & -> & _). destruct (Hver k g Hg) as (_ & -> & _). done.
  - intros k f Hf. apply (Hver k f Hf).
  - intros k f g Hf Hg. destruct (Hver k f Hf) as (-> & _). by destruct (Hver 3%nat g Hg) as (? & _).
  - rewrite Hn. lia.
  - assert (H : forall k, lenZ (files_ (current_ (db_versions db)) k) <= 1) by (intros k; rewrite Hfiles; do 7 (destruct k as [|k]; [done|]); done). intros k. pose proof (H k). pose proof (H (S k)). lia.
Qed.

Lemma sample_affordable en cutoff db es m i c : db_ok id sample_options true sample_restarts sample_filters db es m i -> current_ (db_versions db) = [[]; []; [sample_file]; []; []; []; []] ->
  (forall x, x ∈ all_entries es (current_ (db_versions db)) -> x ∈ sample_entries) -> inputs_0 c = [sample_file] -> inputs_1 c = [] ->
  Forall (fun p => lenZ (file_contents p.2) < 2 ^ 32) (cs_files (compacted (WF := memory_file) id sample_options [] Mmap_Read true db c en [4] cutoff).2) ->
  affordable (WF := memory_file) id sample_options [] Mmap_Read true en [4] cutoff db es c.
Proof.
  intros Hok Hfiles Hsub H0 H1 Hsm. pose proof (dk_version _ _ _ _ _ _ _ _ _ Hok) as Hv. assert (Hin : sample_file ∈ files_ (current_ (db_versions db)) 2) by (rewrite Hfiles; by left).
  assert (Hload : load (e_view <$> mjoin (es <$> inputs_0 c ++ inputs_1 c)) < 1000).
  { rewrite H0, H1. apply Z.le_lt_trans with (load (e_view <$> sample_entries)); [|by vm_compute]. apply load_less, fmap_submseteq. cbn [app fmap list_fmap mjoin list_join]. rewrite app_nil_r.
    apply NoDup_submseteq; [apply e_sorted_NoDup, (vo_files _ _ (io_ok _ _ Hv) 2%nat _ Hin)|]. intros x Hx. apply Hsub. apply elem_of_all_entries; [apply (io_ok _ _ Hv)|]. by exists 2%nat, sample_file. }
  split; [lia| |done]. intros k. assert (lenZ (files_ (current_ (db_versions db)) k) <= 1); [|lia]. rewrite Hfiles. do 7 (destruct k as [|k]; [done|]). done.
Qed.

Lemma choice_in v n g : g ∈ files_ v n -> (S n < kNumLevels)%nat -> choice_ok v (Some (n, g)).
Proof. intros Hg Hn l f [= <- <-]. by split. Qed.

Lemma sample_chosen : choose_compaction true sample_choice sample_bg = Some sample_compaction.
Proof. vm_compute. reflexivity. Qed.

